(* ===== verification/_CoqProject ===== *)
-Q . S2P
Prelude.v
GoBits.v
GoStrings.v
GoIO.v
Varint.v
Succinct.v
SuccinctBits.v
SuccinctTrie.v
Domain.v
DomainTheorems.v
DomainProps.v
Ring.v
FreeLRU.v
FreeLRUSpec.v
FreeLRUInv.v
FreeLRUInsert.v
FreeLRURefine.v
FreeLRUTheorems.v
FreeLRUStable.v
Sharded.v
ShardedTheorems.v
Synced.v
SyncedTheorems.v
Buf.v
BufTheorems.v
BufWriter.v
GoNet.v
GoNetTheorems.v
AdGuard.v
AdGuardTheorems.v
Metadata.v
MetadataTheorems.v
Socks5.v
Socks5Theorems.v
Socks4.v
Socks4Theorems.v
Packets.v
PacketsTheorems.v
UoT.v
UoTTheorems.v
Handshake.v
HandshakeTheorems.v
LinkedList.v
LinkedListSpec.v
LinkedListTheorems.v
LinkedListProps.v
LinkedHashMap.v
LinkedHashMapTheorems.v
LruCache.v
LruCacheTheorems.v
LruCacheProps.v
JsonScanner.v
JsonGrammar.v
JsonScannerTheorems.v
JsonScannerProps.v
JsonGrammarProps.v
JsonIndent.v
JsonIndentTheorems.v
JsonIndentRun.v
JsonIndentProps.v
JsonString.v
JsonStringTheorems.v
JsonStringProps.v
JsonLex.v
JsonComment.v
JsonCommentTheorems.v
JsonCommentProps.v
JsonDecode.v
JsonValue.v
JsonDecodeTheorems.v
JsonDecodeProps.v
JsonEncode.v
JsonEncodeTheorems.v
JsonEncodeProps.v
JsonStream.v
JsonStreamSteps.v
JsonStreamTheorems.v
JsonStreamProps.v
JsonStreamRoundtrip.v
Ranges.v
