(* ===== verification/Prelude.v ===== *)
(** * sing: a verification library for the core of github.com/sagernet/sing

    sing is the network library under the sing-box proxy: protocol codecs and
    handshakes, byte buffers, address types, domain rules, caches, a JSON dialect.
    This development models the parts of it that compute, one Rocq definition per Go
    function with the name the function has, and proves what makes them correct.
    File and function names below are relative to the repository's root.

    ** How Go is modelled

    Prelude.v (this file): integers are [Z] with the wrap-around of their width
    written out ([u8] ... [u64], [i32], [i64]); a [[]byte] is a list of bytes, an index out
    of range is [None] or [Panic].  Code that may panic or loop returns an
    [outcome] ([Val], [Panic], [OutOfFuel]); code that changes a state is in
    [GoM S A], with the notations of [go_scope]; [error] holds the errors the program
    returns.  GoBits.v, GoStrings.v, GoIO.v and GoNet.v hold what the program uses of
    math/bits, of strings, sort and unicode/utf8, of package io (readers that deliver
    bytes and then fail, writers with bounded room) and of net, net/netip and strconv.
    Clocks, hash functions, name resolution and random bytes are arguments.
    Concurrency appears where a component is shared between goroutines: in
    Synced.v every goroutine takes its lock, runs one operation and gives it back, and
    the steps interleave.

    ** The components

    - Caches.  FreeLRU.v is contrab/freelru/lru.go: an array whose slots form a
      recency ring and one ring per hash bucket.  FreeLRUSpec.v is the abstract cache, a
      list of entries from old to new; FreeLRUInv.v has the invariant that ties rings
      and buckets to it (on the rings of Ring.v), FreeLRUInsert.v and FreeLRURefine.v
      one simulation lemma per operation, FreeLRUTheorems.v whole runs.  Sharded.v
      (shardedlru.go) selects one of an array of such caches by the high bits of the
      hash; it uses the caches through FreeLRURefine.v, and FreeLRUStable.v keeps their
      hash fixed.  Synced.v (syncedlru.go) runs the calls of several goroutines on one
      cache under a read-write lock.  LruCache.v (common/cache/lrucache.go)
      is a Go map into a linked list of shared entries; LruCacheTheorems.v and
      LruCacheProps.v refine it to a list of entries.
    - Lists and maps.  LinkedList.v (common/x/list) runs on a heap, so that elements
      of one list can be passed to the methods of another; LinkedListSpec.v is the
      abstract machine, LinkedListTheorems.v the ring surgery, LinkedListProps.v the
      refinement.  LinkedHashMap.v (common/x/linkedhashmap) and its theorems sit on it.
    - Buffers.  Buf.v (common/buf) is the window into an array and the size-class
      allocator; BufTheorems.v proves it equal to four stretches of bytes.  BufWriter.v
      is the pattern of encoders that fill a buffer, send it and release it.
    - Codecs.  Varint.v (common/binary/varint.go, common/varbin/uvarint.go,
      common/rw/varint.go); Metadata.v (common/metadata: Socksaddr, its parsing,
      and the serializer that SOCKS, UoT and others configure); Socks5.v and Socks4.v
      (protocol/socks/socks5, socks4); Packets.v (datagrams of a SOCKS association).
    - Protocols.  Handshake.v (protocol/socks/handshake.go, lazy.go, common/auth):
      client and server over the bytes that come in and the writes that go out.  UoT.v
      (common/uot): packets in a stream, the lazy request, the server's two loops.
    - Domain rules.  Succinct.v (common/domain/set.go): a trie in bit vectors with
      rank and select, SuccinctBits.v and SuccinctTrie.v relate it to the set of keys.
      Domain.v (matcher.go) and AdGuard.v (adguard_matcher.go) search it.
    - JSON (common/json/internal/contextjson).  JsonScanner.v (scanner.go) is the byte
      machine; JsonGrammar.v is a recursive-descent grammar written independently of
      it; JsonIndent.v (indent.go) has Compact, HTMLEscape and Indent, which drive the
      machine.  JsonString.v has the quoting of strings (appendString, unquoteBytes) and
      JsonComment.v is comment.go: stripping comments, their positions and the values
      they belong to, and putting them back; JsonLex.v says when two sources have the
      same tokens.  JsonDecode.v (decode.go, decode_context.go) decodes into an empty
      interface from UnmarshalContext on, JsonValue.v is its reference; JsonEncode.v
      (encode.go) has the encoders of the values so decoded, Marshal and MarshalIndent.
      JsonStream.v (stream.go) is the Decoder with its buffer and its tokens, and the
      Encoder; it calls the scanner, the stripping and the decoder.  The files with
      Theorems and Props behind these names have the proofs.  For streams JsonStreamSteps.v
      says where a value ends, JsonStreamTheorems.v that the cut of the input does not
      matter and what is decoded, JsonStreamProps.v what any calls answer, JsonStreamRoundtrip.v puts Encoder and Decoder together.
    - Ranges.v (common/ranges): sets of integers as lists of ranges.

    ** What the theorems show

    - Refinement of an abstract machine for whole runs of calls: the LRU cache, the
      sharded cache, the buffer, the linked lists, the ordered map, the linked-list
      cache (lru_implements_cache, sharded_implements_caches, buffer_refines_window,
      linked_list_refines, linked_map_refines, lrucache_refines), with capacity bounds
      and without panic or divergence.
    - Concurrency: the locked cache is linearizable in unlock order, never deadlocks
      and every run ends (synced_linearizable, synced_progress).
    - Equivalence with a reference: the domain matchers decide exactly the rules' own
      meaning (matcher_match, adguard_match), the JSON scanner accepts exactly the
      documents of the grammar (json_valid_grammar), the decoder gives the value that a
      reference without scanner finds in the source, comments included
      (unmarshal_correct), stripping comments keeps the document (strip_correct), the
      two varint decoders agree.
    - Functional behaviour: Compact writes exactly the bytes the grammar keeps and its
      output is a fixed point (compact_correct, compact_idempotent), Indent keeps the
      document and shapes it as the reference does (indent_correct), unquoting decodes
      exactly the literals of the grammar (unquote_literals); Merge and Exclude of ranges
      are union and difference of sets (merge_correct, exclude_correct); handshakes of both
      ends meet (socks5_handshake, socks4_handshake), the server hands on only what it
      has authenticated (socks_authenticated), the lazy connections answer once.
    - Streams of JSON: a Decoder answers any calls, the same for every way in which a
      reader may cut its bytes (stream_cuts), its tokens nest (tokens_nested), and a value
      it decodes is that of a document at the front of the input (stream_decode_correct).
    - Round trips of every wire format, on every error path as well, and the limits at
      which they break (lengths of 255, 64 KiB, 2^56), stated as theorems; of JSON strings
      (string_roundtrip), of values through Marshal and UnmarshalContext
      (marshal_roundtrip) and through an Encoder and a Decoder (stream_roundtrip).
    - Deviations found on the way are theorems too: lrucache_clear (Clear removes one
      entry), matcher_panics, socks4_rejection_truncated, uot_server_unresolved,
      strip_panics, stream_trailing_comment, exclude_diverges, exclude_adds, ...

    ** Fuel and bounds

    A loop whose end is not structural takes fuel, and [OutOfFuel] is shown never to be
    the answer of the operations the theorems are about: [walk] of a ring takes the
    number of its slots; the search in the succinct set [scan_fuel], the bits of its label bitmap,
    for the labels of one node, and hasWithDepth one level more than its depth limit;
    building the set [build_fuel], one node per byte of the keys and two more; the loops
    of the linked lists the length of a list, as the Go loops count [Len]; a varint ten
    iterations; a full read three ([read_fuel]: a reader gives what it has, then fails);
    a SOCKS4 name 257 bytes (a name of more than 255 is refused); shrinking the number of
    shards eight divisions by 16; [parse] two units per byte and two more, [indent_loop] one per byte.
    Of the JSON files [strip_loop] and [peek_bytes] take one unit per byte, [value_fuel] of
    the decoder and [node_fuel] of the parser of comment.go two per byte and two more (a
    value and an element are two calls), the loops of readValue and peekFrom [reads], one
    refill per answer of the reader and per byte and one for the end, Token two rounds (no
    separator stands behind a separator); Exclude of ranges takes one round per range and
    per target, for the arguments for which it ends (exclude_correct, exclude_diverges).
    The relay loops of UoT.v run on any fuel: the server's input loop need not end
    (uot_server_unresolved).  The limits the code has itself (the nesting depth
    of 10000, the capacities of the pools) are the code's numbers.

    ** Not modelled

    - What works by reflection on Go types: of the decoder and the encoder of contextjson
      all but the values of an empty interface (nil, bool, float64, Number, string, slices
      and maps), with their marshalers and their search for pointer cycles; the option
      types of common/json, common/binary and the struct codecs of common/varbin.
      ParseFloat, the arithmetic and the printing of float64 are arguments, and so is
      what an array holds behind the end of a slice, where an append reads it back.
    - What is system calls, goroutines, channels, timers or package net: common/bufio,
      common/network, common/control, common/udpnat, common/pipe, common/canceler,
      common/ntp, common/tls, service, protocol/http, and the dialing half of the SOCKS
      and UoT clients.
    - Generated bindings and run time internals: common/win*, contrab/maphash.
    - Printing for people: dump and PrintStats of the caches, messages of JSON errors.

    ** Plan

    The order of work was caches, buffers, codecs, protocols, domain rules, lists, JSON,
    ranges.  Next: that putting comments back keeps the document, the streaming comment
    filter of common/json/comment.go, the copy loop of common/bufio. *)

From Stdlib Require Export ZArith Lia.
From stdpp Require Export base numbers strings option gmap sets list.

#[export] Set Default Goal Selector "!".
#[global] Open Scope Z_scope.

(** ** Machine integers

    A Go integer of width [w] is a [Z] together with the wrap-around its type
    performs; the unsigned types reduce modulo 2^w, the signed ones into
    [-2^(w-1), 2^(w-1)). *)

Definition u8 (x : Z) : Z := x mod 2 ^ 8.
Definition u16 (x : Z) : Z := x mod 2 ^ 16.
Definition u32 (x : Z) : Z := x mod 2 ^ 32.
Definition u64 (x : Z) : Z := x mod 2 ^ 64.
Definition i32 (x : Z) : Z := (x + 2 ^ 31) mod 2 ^ 32 - 2 ^ 31.
Definition i64 (x : Z) : Z := (x + 2 ^ 63) mod 2 ^ 64 - 2 ^ 63.

(** A byte of a Go [[]byte] or [string]. *)
Definition is_byte (b : Z) : Prop := 0 <= b < 256.
Definition bytes_ok (bs : list Z) : Prop := Forall is_byte bs.

#[export] Instance is_byte_dec b : Decision (is_byte b).
Proof. unfold is_byte. apply _. Defined.
#[export] Instance bytes_ok_dec bs : Decision (bytes_ok bs).
Proof. unfold bytes_ok. apply _. Defined.

Lemma u8_small x : 0 <= x < 256 -> u8 x = x.
Proof. intros. apply Z.mod_small. lia. Qed.
Lemma u16_small x : 0 <= x < 2 ^ 16 -> u16 x = x.
Proof. intros. by apply Z.mod_small. Qed.
Lemma u32_small x : 0 <= x < 2 ^ 32 -> u32 x = x.
Proof. intros. by apply Z.mod_small. Qed.
Lemma u64_small x : 0 <= x < 2 ^ 64 -> u64 x = x.
Proof. intros. by apply Z.mod_small. Qed.
Lemma i64_small x : - 2 ^ 63 <= x < 2 ^ 63 -> i64 x = x.
Proof. intros. unfold i64. rewrite Z.mod_small; lia. Qed.
Lemma i64_wrap x : 2 ^ 63 <= x < 2 ^ 64 + 2 ^ 63 -> i64 x = x - 2 ^ 64.
Proof.
  intros. unfold i64. rewrite <- (Z.mod_unique (x + 2 ^ 63) (2 ^ 64) 1 (x + 2 ^ 63 - 2 ^ 64)); lia.
Qed.
Lemma i32_small x : - 2 ^ 31 <= x < 2 ^ 31 -> i32 x = x.
Proof. intros. unfold i32. rewrite Z.mod_small; lia. Qed.
Lemma u8_is_byte x : is_byte (u8 x).
Proof. unfold is_byte, u8. apply Z.mod_pos_bound. lia. Qed.
Lemma u64_range x : 0 <= u64 x < 2 ^ 64.
Proof. apply Z.mod_pos_bound. lia. Qed.
Lemma u32_range x : 0 <= u32 x < 2 ^ 32.
Proof. apply Z.mod_pos_bound. lia. Qed.

Create HintDb golang.
Create Rewrite HintDb golang.
#[export] Hint Resolve u8_is_byte u64_range u32_range : golang.
#[export] Hint Rewrite u8_small u16_small u32_small u64_small i64_small i32_small
  using lia : golang.

(** ** Errors and outcomes

    [error] holds the values of Go's [error] interface the modelled code
    returns: the two sentinels of package io, [errors.New]/[fmt.Errorf] values,
    which carry their message, the wrapper of exceptions.Cause and the error
    numbers of package syscall. *)

Inductive error :=
  | EOF
  | ErrUnexpectedEOF
  | ErrNew (msg : string)
  | ErrCause (msg : string) (cause : error)
  | ErrErrno (errno : Z).

#[export] Instance error_eq_dec : EqDecision error.
Proof. solve_decision. Defined.

(** errors.Is: the error itself or one it wraps. *)
Fixpoint errors_Is (err target : error) : bool :=
  bool_decide (err = target) || match err with ErrCause _ cause => errors_Is cause target | _ => false end.

(** The result of Go code that cannot panic: a value or an error. *)
Inductive result (A : Type) :=
  | Ok (a : A)
  | Err (e : error).
Arguments Ok {A} a.
Arguments Err {A} e.

(** The result of running Go code that may panic or whose loops are bounded by
    fuel in the model: it returns, panics, or exhausts the fuel (which each
    component proves impossible). *)
Inductive outcome (A : Type) :=
  | Val (a : A)
  | Panic
  | OutOfFuel.
Arguments Val {A} a.
Arguments Panic {A}.
Arguments OutOfFuel {A}.

Definition rbind {A B} (m : result A) (k : A -> result B) : result B :=
  match m with Ok a => k a | Err e => Err e end.

Definition obind {A B} (m : outcome A) (k : A -> outcome B) : outcome B :=
  match m with Val a => k a | Panic => Panic | OutOfFuel => OutOfFuel end.

(** Go code that mutates a state [S]. *)
Definition GoM (S A : Type) : Type := S -> outcome (A * S).
Definition ret {S A} (a : A) : GoM S A := fun s => Val (a, s).
Definition bind {S A B} (m : GoM S A) (k : A -> GoM S B) : GoM S B :=
  fun s => match m s with
           | Val (a, s') => k a s'
           | Panic => Panic
           | OutOfFuel => OutOfFuel
           end.
Definition panic {S A} : GoM S A := fun _ => Panic.
Definition gets {S A} (f : S -> A) : GoM S A := fun s => Val (f s, s).
Definition modify {S} (f : S -> S) : GoM S unit := fun s => Val (tt, f s).
Definition lift {S A} (o : option A) : GoM S A :=
  fun s => match o with Some a => Val (a, s) | None => Panic end.

Declare Scope go_scope.
Delimit Scope go_scope with go.
Notation "x <- m ;; k" := (bind m (fun x => k))
  (at level 100, m at next level, right associativity) : go_scope.
Notation "m ;; k" := (bind m (fun _ => k))
  (at level 100, right associativity) : go_scope.
Notation "'let?' p ':=' m 'in' k" := (rbind m (fun p => k))
  (at level 10, p pattern, m at level 100, k at level 200) : go_scope.
Notation "'let!' p ':=' m 'in' k" := (obind m (fun p => k))
  (at level 10, p pattern, m at level 100, k at level 200) : go_scope.

(** ** Symbolic execution *)

Section Run.
Context {S A B C : Type}.
Implicit Types (s : S).

Lemma bind_run (m : GoM S A) (k : A -> GoM S B) s a s' :
  m s = Val (a, s') -> bind m k s = k a s'.
Proof. unfold bind. by intros ->. Qed.

Lemma bind_gets (f : S -> A) (k : A -> GoM S B) s : bind (gets f) k s = k (f s) s.
Proof. done. Qed.
Lemma bind_ret (a : A) (k : A -> GoM S B) s : bind (ret a) k s = k a s.
Proof. done. Qed.
Lemma bind_modify (f : S -> S) (k : unit -> GoM S B) s : bind (modify f) k s = k tt (f s).
Proof. done. Qed.
Lemma bind_bind (m : GoM S A) (k : A -> GoM S B) (h : B -> GoM S C) s :
  bind (bind m k) h s = bind m (fun x => bind (k x) h) s.
Proof. unfold bind. by destruct (m s) as [[]| |]. Qed.
Lemma bind_inv (m : GoM S A) (k : A -> GoM S B) s b s' :
  bind m k s = Val (b, s') -> exists a s1, m s = Val (a, s1) /\ k a s1 = Val (b, s').
Proof. unfold bind. destruct (m s) as [[a s1]| |]; [|done..]. eauto. Qed.
Lemma bind_ret_r (m : GoM S A) s : bind m ret s = m s.
Proof. unfold bind. by destruct (m s) as [[]| |]. Qed.
Lemma bind_if (b : bool) (m1 m2 : GoM S A) (k : A -> GoM S B) s :
  bind (if b then m1 else m2) k s = if b then bind m1 k s else bind m2 k s.
Proof. by destruct b. Qed.
End Run.

(** ** Slices: indexing a Go slice out of range panics. *)

Definition at_ {A} (l : list A) (i : Z) : option A :=
  if decide (0 <= i) then l !! Z.to_nat i else None.

Definition set_at {A} (l : list A) (i : Z) (x : A) : option (list A) :=
  if decide (0 <= i < Z.of_nat (length l)) then Some (<[Z.to_nat i := x]> l) else None.

Definition zlen {A} (l : list A) : Z := Z.of_nat (length l).

Lemma zlen_nil {A} : zlen (@nil A) = 0.
Proof. done. Qed.
Lemma zlen_cons {A} (x : A) l : zlen (x :: l) = 1 + zlen l.
Proof. unfold zlen. simpl. lia. Qed.
Lemma zlen_app {A} (l k : list A) : zlen (l ++ k) = zlen l + zlen k.
Proof. unfold zlen. rewrite length_app. lia. Qed.
Lemma zlen_nonneg {A} (l : list A) : 0 <= zlen l.
Proof. unfold zlen. lia. Qed.
#[export] Hint Resolve zlen_nonneg : golang.
Lemma zlen_0 {A} (l : list A) : zlen l = 0 -> l = [].
Proof. destruct l; [done|]. rewrite zlen_cons. pose proof (zlen_nonneg l). lia. Qed.

Lemma at_Some_lt {A} (l : list A) i x : at_ l i = Some x -> 0 <= i < zlen l.
Proof.
  unfold at_, zlen. case_decide; [|done]. intros ?%lookup_lt_Some. lia.
Qed.

Lemma at_is_Some {A} (l : list A) i : 0 <= i < zlen l -> is_Some (at_ l i).
Proof.
  unfold at_, zlen. intros. rewrite decide_True by lia. apply lookup_lt_is_Some. lia.
Qed.

Lemma set_at_Some {A} (l : list A) i x :
  0 <= i < zlen l -> set_at l i x = Some (<[Z.to_nat i := x]> l).
Proof. unfold set_at, zlen. intros. by rewrite decide_True. Qed.

Lemma zlen_set_at {A} (l l' : list A) i x : set_at l i x = Some l' -> zlen l' = zlen l.
Proof.
  unfold set_at, zlen. case_decide; [|done]. intros [= <-]. by rewrite length_insert.
Qed.

Lemma set_at_middle {A} (pre : list A) o post x :
  set_at (pre ++ o :: post) (zlen pre) x = Some (pre ++ x :: post).
Proof.
  rewrite set_at_Some by (rewrite zlen_app, zlen_cons; unfold zlen; lia).
  unfold zlen. rewrite Nat2Z.id. by rewrite insert_app_r_alt, Nat.sub_diag by lia.
Qed.

Lemma at_set_at {A} (l l' : list A) i j x :
  set_at l i x = Some l' -> at_ l' j = if decide (i = j) then Some x else at_ l j.
Proof.
  unfold set_at, at_. case_decide as Hi; [|done]. intros [= <-].
  case_decide as Hj; case_decide as Hij; subst; try lia; try done.
  - rewrite list_lookup_insert_eq by lia. done.
  - rewrite list_lookup_insert_ne by lia. done.
Qed.

Lemma filter_none {A} (P : A -> Prop) `{!forall x, Decision (P x)} (l : list A) :
  (forall x, x ∈ l -> ~ P x) -> filter P l = [].
Proof.
  induction l as [|x l IH]; intros Hl; [done|].
  rewrite filter_cons_False by (apply Hl, elem_of_cons; by left).
  apply IH. intros y Hy. apply Hl, elem_of_cons. by right.
Qed.

Lemma filter_every {A} (P : A -> Prop) `{!forall x, Decision (P x)} (l : list A) :
  (forall x, x ∈ l -> P x) -> filter P l = l.
Proof.
  induction l as [|x l IH]; intros Hl; [done|].
  rewrite filter_cons_True by (apply Hl, elem_of_cons; by left).
  f_equal. apply IH. intros y Hy. apply Hl, elem_of_cons. by right.
Qed.

Lemma imap_plain {A B} (f : A -> B) (l : list A) : imap (fun _ x => f x) l = f <$> l.
Proof. apply imap_const. Qed.

Lemma fmap_of_bind {A B C} (f : B -> C) (g : A -> list B) (l : list A) :
  f <$> (l ≫= g) = l ≫= (fun x => f <$> g x).
Proof. induction l as [|x l IH]; [done|]. by rewrite !bind_cons, fmap_app, IH. Qed.

(** The first and last [n] elements, by a Go integer. *)
Definition ztake {A} (n : Z) (l : list A) : list A := take (Z.to_nat n) l.
Definition zdrop {A} (n : Z) (l : list A) : list A := drop (Z.to_nat n) l.

Lemma ztake_zdrop {A} n (l : list A) : ztake n l ++ zdrop n l = l.
Proof. apply take_drop. Qed.
Lemma zlen_ztake {A} n (l : list A) : zlen (ztake n l) = Z.min (Z.max 0 n) (zlen l).
Proof. unfold zlen, ztake. rewrite length_take. lia. Qed.
Lemma zlen_zdrop {A} n (l : list A) : zlen (zdrop n l) = Z.max 0 (zlen l - Z.max 0 n).
Proof. unfold zlen, zdrop. rewrite length_drop. lia. Qed.
Create Rewrite HintDb lens.
#[export] Hint Rewrite @zlen_app @zlen_cons @zlen_nil @zlen_ztake @zlen_zdrop : lens.
Lemma ztake_app {A} (l k : list A) : ztake (zlen l) (l ++ k) = l.
Proof. unfold ztake, zlen. by rewrite Nat2Z.id, take_app_length. Qed.
Lemma zdrop_app {A} (l k : list A) : zdrop (zlen l) (l ++ k) = k.
Proof. unfold zdrop, zlen. by rewrite Nat2Z.id, drop_app_length. Qed.
Lemma zdrop_all {A} n (l : list A) : zlen l <= n -> zdrop n l = [].
Proof. intros Hn. unfold zdrop. apply drop_ge. unfold zlen in Hn. lia. Qed.
Lemma ztake_zdrop_app {A} n (l k : list A) : ztake n l ++ zdrop n l ++ k = l ++ k.
Proof. by rewrite app_assoc, ztake_zdrop. Qed.
Lemma zdrop_zdrop {A} n m (l : list A) : 0 <= m -> 0 <= n -> zdrop n (zdrop m l) = zdrop (m + n) l.
Proof. intros Hm Hn. unfold zdrop. rewrite drop_drop. f_equal. lia. Qed.
Lemma zdrop_zlen_ztake {A} n (l : list A) : zdrop (zlen (ztake n l)) l = zdrop n l.
Proof.
  unfold zdrop, zlen, ztake. rewrite Nat2Z.id, length_take.
  destruct (decide (Z.to_nat n <= length l)%nat); [by rewrite Nat.min_l|].
  rewrite Nat.min_r, !drop_ge by lia. done.
Qed.
Lemma zlen_replicate {A} n (x : A) : 0 <= n -> zlen (replicate (Z.to_nat n) x) = n.
Proof. unfold zlen. rewrite length_replicate. lia. Qed.

(** ** Bit operations on disjoint ranges *)

Lemma Z_lor_add_shift a b s : 0 <= s -> 0 <= a < 2 ^ s -> Z.lor a (Z.shiftl b s) = a + b * 2 ^ s.
Proof.
  intros Hs Ha. rewrite Z.shiftl_mul_pow2 by done.
  symmetry. rewrite Z.add_nocarry_lxor, Z.lxor_lor; try done.
  all: apply Z.bits_inj'; intros n Hn; rewrite Z.land_spec, Z.bits_0.
  all: destruct (decide (n < s)).
  all: try (rewrite (Z.mul_pow2_bits_low _ s n) by lia; by rewrite andb_false_r).
  all: rewrite <- (Z.mod_small a (2 ^ s)) by lia.
  all: by rewrite Z.mod_pow2_bits_high by lia.
Qed.

Lemma Z_land_ones' a n : 0 <= n -> Z.land a (2 ^ n - 1) = a mod 2 ^ n.
Proof. intros. rewrite <- Z.land_ones by done. by rewrite Z.sub_1_r, Z.ones_equiv. Qed.

Lemma Z_land_le_r a b : 0 <= a -> 0 <= b -> Z.land a b <= b.
Proof.
  intros Ha Hb. rewrite <- (Z2N.id a), <- (Z2N.id b) by done.
  rewrite <- N2Z.inj_land. apply N2Z.inj_le, N.land_le_r.
Qed.

(** Complement within [n] bits. *)
Lemma Z_lxor_ones x n : 0 <= n -> 0 <= x < 2 ^ n -> Z.lxor x (2 ^ n - 1) = 2 ^ n - 1 - x.
Proof.
  intros Hn Hx. rewrite Z.sub_1_r, <- Z.ones_equiv.
  assert (Z.ldiff x (Z.ones n) = 0) as Hd.
  { rewrite Z.ldiff_ones_r, Z.shiftr_div_pow2, Z.div_small by lia. apply Z.shiftl_0_l. }
  rewrite (Z.sub_nocarry_ldiff (Z.ones n) x Hd).
  apply Z.bits_inj'. intros i Hi. rewrite Z.lxor_spec, Z.ldiff_spec.
  apply (f_equal (fun z => Z.testbit z i)) in Hd. rewrite Z.ldiff_spec, Z.bits_0 in Hd.
  by destruct (Z.testbit x i), (Z.testbit (Z.ones n) i).
Qed.

(** ** make([]T, n)

    The run time panics for a negative length and for more than [maxAlloc]
    bytes (2^48 on 64-bit platforms). *)
Definition maxAlloc : Z := 2 ^ 48.
Definition makeslice_ok (elem n : Z) : bool := bool_decide (0 <= n /\ n * elem <= maxAlloc).
