(* ===== verification/GoBits.v ===== *)
(** * Bit counting: the parts of Go's math/bits the modelled code uses

    [popcount n x] counts the ones among the lowest [n] bits of [x]. *)

From S2P Require Import Prelude.

Fixpoint popcount (n : nat) (x : Z) : Z :=
  match n with
  | O => 0
  | S n' => Z.b2z (Z.odd x) + popcount n' (Z.div2 x)
  end.
Definition OnesCount8 (x : Z) : Z := popcount 8 x.
Definition OnesCount16 (x : Z) : Z := popcount 16 x.
Definition OnesCount32 (x : Z) : Z := popcount 32 x.
Definition OnesCount64 (x : Z) : Z := popcount 64 x.

(** bits.Len32. *)
Definition Len32 (x : Z) : Z := if decide (x <= 0) then 0 else Z.log2 x + 1.

(** bits.TrailingZeros8 and TrailingZeros64: the width for 0. *)
Fixpoint trailing_zeros (n : nat) (x : Z) : Z :=
  match n with
  | O => 0
  | S n' => if Z.odd x then 0 else 1 + trailing_zeros n' (Z.div2 x)
  end.
Definition TrailingZeros8 (x : Z) : Z := trailing_zeros 8 x.
Definition TrailingZeros64 (x : Z) : Z := trailing_zeros 64 x.

(** ** Lemmas *)

Lemma popcount_bound n x : 0 <= popcount n x <= Z.of_nat n.
Proof.
  revert x. induction n as [|n IH]; intros x; cbn [popcount]; [lia|].
  specialize (IH (Z.div2 x)). destruct (Z.odd x); cbn [Z.b2z]; lia.
Qed.

Lemma popcount_0 n x : 0 <= x < 2 ^ Z.of_nat n -> popcount n x = 0 -> x = 0.
Proof.
  revert x. induction n as [|n IH]; intros x Hx Hp; [change (2 ^ Z.of_nat 0) with 1 in Hx; lia|].
  cbn [popcount] in Hp. pose proof (popcount_bound n (Z.div2 x)).
  rewrite Nat2Z.inj_succ, Z.pow_succ_r in Hx by lia. pose proof (Z.div2_odd x) as Hx2.
  destruct (Z.odd x); cbn [Z.b2z] in *; [lia|]. rewrite Hx2, (IH (Z.div2 x)); lia.
Qed.

Lemma popcount_1 n x : 0 <= x < 2 ^ Z.of_nat n -> popcount n x = 1 -> exists k, 0 <= k < Z.of_nat n /\ x = 2 ^ k.
Proof.
  revert x. induction n as [|n IH]; intros x Hx Hp; [done|].
  cbn [popcount] in Hp. rewrite Nat2Z.inj_succ, Z.pow_succ_r in Hx by lia.
  pose proof (Z.div2_odd x) as Hx2. destruct (Z.odd x); cbn [Z.b2z] in *.
  - exists 0. rewrite (popcount_0 n (Z.div2 x)) in Hx2 by lia. split; lia.
  - destruct (IH (Z.div2 x)) as (k & Hk & E); [lia..|]. exists (k + 1). split; [lia|].
    rewrite Z.pow_add_r by lia. lia.
Qed.

Lemma popcount_add a b x : popcount (a + b) x = popcount a x + popcount b (Z.shiftr x (Z.of_nat a)).
Proof.
  revert x. induction a as [|a IH]; intros x; [by rewrite Z.shiftr_0_r|].
  cbn [Nat.add popcount]. rewrite IH. rewrite Z.div2_spec, Z.shiftr_shiftr by lia.
  replace (1 + Z.of_nat a) with (Z.of_nat (S a)) by lia. lia.
Qed.

(** Only the lowest [n] bits count. *)
Lemma popcount_ext n x y :
  (forall i, 0 <= i < Z.of_nat n -> Z.testbit x i = Z.testbit y i) -> popcount n x = popcount n y.
Proof.
  revert x y. induction n as [|n IH]; intros x y Hb; [done|]. cbn [popcount]. f_equal.
  - rewrite <- !Z.bit0_odd. f_equal. apply Hb. lia.
  - apply IH. intros i Hi. rewrite !Z.div2_spec, !Z.shiftr_spec by lia. apply Hb. lia.
Qed.

Lemma popcount_high n x : (forall i, 0 <= i < Z.of_nat n -> Z.testbit x i = false) -> popcount n x = 0.
Proof.
  intros Hb. rewrite (popcount_ext n x 0) by (intros; rewrite Z.testbit_0_l; auto).
  clear Hb. induction n as [|n IH]; [done|]. cbn. lia.
Qed.

Lemma popcount_S n x : popcount (S n) x = popcount n x + Z.b2z (Z.testbit x (Z.of_nat n)).
Proof.
  replace (S n) with (n + 1)%nat by lia. rewrite popcount_add. cbn [popcount].
  rewrite <- Z.bit0_odd, Z.shiftr_spec by lia. replace (0 + Z.of_nat n) with (Z.of_nat n) by lia. lia.
Qed.

Lemma popcount_mono n m x : (n <= m)%nat -> popcount n x <= popcount m x.
Proof.
  intros Hnm. replace m with (n + (m - n))%nat by lia. rewrite popcount_add.
  pose proof (popcount_bound (m - n) (Z.shiftr x (Z.of_nat n))). lia.
Qed.
