(* ===== verification/GoStrings.v ===== *)
(** * Strings: the parts of Go's string, sort and unicode/utf8 the modelled code uses

    A Go string is the list of its bytes.  [str_lt] is the order of [<] on
    strings, [sort_strings] is sort.Strings; [DecodeRune] and [EncodeRune] are
    the functions of package unicode/utf8, [utf8] encodes a list of runes. *)

From Stdlib Require Import Sorted.
From stdpp Require Import sorting.
From S2P Require Import Prelude.

(** ** Strings in byte order *)

Fixpoint str_ltb (a b : list Z) : bool :=
  match a, b with
  | [], [] => false
  | [], _ :: _ => true
  | _ :: _, [] => false
  | x :: a, y :: b => if decide (x < y) then true else if decide (y < x) then false else str_ltb a b
  end.
Definition str_lt (a b : list Z) : Prop := str_ltb a b = true.

Lemma str_lt_cons x a y b : str_lt (x :: a) (y :: b) <-> x < y \/ x = y /\ str_lt a b.
Proof.
  unfold str_lt. cbn. destruct (decide (x < y)); [naive_solver|]. destruct (decide (y < x)); [naive_solver lia|].
  split; [right; split; [lia|done]|naive_solver lia].
Qed.

Lemma str_lt_nil_r a : ~ str_lt a [].
Proof. by destruct a. Qed.

Lemma str_lt_irrefl a : ~ str_lt a a.
Proof. induction a as [|x a IH]; [done|]. rewrite str_lt_cons. naive_solver lia. Qed.

Lemma str_lt_trans a b c : str_lt a b -> str_lt b c -> str_lt a c.
Proof.
  revert b c. induction a as [|x a IH]; intros [|y b] [|z c]; try done. rewrite !str_lt_cons.
  intros [?|[-> ?]] [?|[-> ?]]; [left; lia|by left|by left|right; split; [done|]]. by apply (IH b).
Qed.

Lemma str_lt_total a b : str_lt a b \/ a = b \/ str_lt b a.
Proof.
  revert b. induction a as [|x a IH]; intros [|y b]; [by right; left|by left|by right; right|].
  rewrite !str_lt_cons. destruct (IH b) as [?|[->|?]]; destruct (Z.lt_trichotomy x y) as [?|[->|?]]; auto.
Qed.


#[export] Instance str_lt_dec a b : Decision (str_lt a b).
Proof. unfold str_lt. apply _. Defined.

(** ** sort.Strings *)

Definition str_le (a b : list Z) : Prop := ~ str_lt b a.
#[export] Instance str_le_dec a b : Decision (str_le a b).
Proof. unfold str_le. apply _. Defined.

#[export] Instance str_le_total : Total str_le.
Proof.
  intros a b. unfold str_le. destruct (str_lt_total a b) as [H|[->|H]]; [left|left|right].
  - intros H'. by apply (str_lt_irrefl a), (str_lt_trans _ b).
  - apply str_lt_irrefl.
  - intros H'. by apply (str_lt_irrefl a), (str_lt_trans _ b).
Qed.
#[export] Instance str_le_trans : Transitive str_le.
Proof.
  intros a b c Hab Hbc Hca. destruct (str_lt_total a b) as [H|[->|H]]; [|done|done].
  by apply Hbc, (str_lt_trans _ a).
Qed.
#[export] Instance str_le_antisymm : AntiSymm (=) str_le.
Proof. intros a b Hab Hba. destruct (str_lt_total a b) as [H|[H|H]]; done. Qed.

Definition sort_strings (l : list (list Z)) : list (list Z) := merge_sort str_le l.

Lemma sort_strings_perm l : sort_strings l ≡ₚ l.
Proof. apply merge_sort_Permutation. Qed.

Lemma elem_of_sort x l : x ∈ sort_strings l <-> x ∈ l.
Proof. by rewrite sort_strings_perm. Qed.

Lemma sort_strings_sorted l : Sorted str_le (sort_strings l).
Proof. apply Sorted_merge_sort, _. Qed.

(** Without duplicates the order is strict. *)
Lemma sort_strings_strict l : NoDup l -> StronglySorted str_lt (sort_strings l).
Proof.
  intros Hnd. rewrite <- (sort_strings_perm l) in Hnd.
  assert (StronglySorted str_le (sort_strings l)) as Hs by (apply Sorted_StronglySorted; [apply _|apply sort_strings_sorted]).
  induction Hs as [|x k Hs IH Hx]; [constructor|]. apply NoDup_cons in Hnd as [Hin Hnd].
  constructor; [by apply IH|]. rewrite Forall_forall in Hx |- *. intros y Hy.
  destruct (str_lt_total x y) as [H|[->|H]]; [done..|]. by destruct (Hx y Hy).
Qed.

(** A sorted list is the result of sorting any of its permutations. *)
Lemma sort_strings_unique l k : l ≡ₚ k -> sort_strings l = sort_strings k.
Proof.
  intros Hp. apply (Sorted_unique str_le); [apply sort_strings_sorted..|].
  by rewrite !sort_strings_perm.
Qed.

Lemma sort_strings_id l : StronglySorted str_lt l -> sort_strings l = l.
Proof.
  intros Hs. apply (Sorted_unique str_le); [apply sort_strings_sorted| |apply sort_strings_perm].
  apply StronglySorted_Sorted. induction Hs as [|x k Hs IH Hx]; constructor; [done|].
  eapply Forall_impl; [exact Hx|]. intros y Hxy Hyx. by apply (str_lt_irrefl x), (str_lt_trans _ y).
Qed.

(** ** unicode/utf8 *)

Definition RuneError : Z := 0xFFFD.
Definition MaxRune : Z := 0x10FFFF.
Definition valid_rune (r : Z) : Prop := 0 <= r < 0xD800 \/ 0xDFFF < r <= MaxRune.
#[export] Instance valid_rune_dec r : Decision (valid_rune r).
Proof. unfold valid_rune. apply _. Defined.

(** The first byte of a sequence: its length and the bounds of the second byte;
    [None] for bytes that start none. *)
Definition first_byte (b : Z) : option (Z * Z * Z) :=
  if decide (0xC2 <= b <= 0xDF) then Some (2, 0x80, 0xBF)
  else if decide (b = 0xE0) then Some (3, 0xA0, 0xBF)
  else if decide (b = 0xED) then Some (3, 0x80, 0x9F)
  else if decide (0xE1 <= b <= 0xEF) then Some (3, 0x80, 0xBF)
  else if decide (b = 0xF0) then Some (4, 0x90, 0xBF)
  else if decide (b = 0xF4) then Some (4, 0x80, 0x8F)
  else if decide (0xF1 <= b <= 0xF3) then Some (4, 0x80, 0xBF)
  else None.

(** The rune and its length in bytes; (RuneError, 1) for an invalid encoding and
    (RuneError, 0) for the empty string. *)
Definition DecodeRune (s : list Z) : Z * Z :=
  match s with
  | [] => (RuneError, 0)
  | s0 :: t =>
      if decide (s0 < 0x80) then (s0, 1) else
      match first_byte s0 with
      | None => (RuneError, 1)
      | Some (sz, lo, hi) =>
          match t with
          | s1 :: t =>
              if decide (zlen s < sz \/ s1 < lo \/ hi < s1) then (RuneError, 1)
              else if decide (sz = 2) then (Z.lor (Z.shiftl (Z.land s0 0x1F) 6) (Z.land s1 0x3F), 2)
              else
                match t with
                | s2 :: t =>
                    if decide (s2 < 0x80 \/ 0xBF < s2) then (RuneError, 1)
                    else if decide (sz = 3) then
                      (Z.lor (Z.lor (Z.shiftl (Z.land s0 0x0F) 12) (Z.shiftl (Z.land s1 0x3F) 6)) (Z.land s2 0x3F), 3)
                    else
                      match t with
                      | s3 :: _ =>
                          if decide (s3 < 0x80 \/ 0xBF < s3) then (RuneError, 1)
                          else (Z.lor (Z.lor (Z.lor (Z.shiftl (Z.land s0 0x07) 18) (Z.shiftl (Z.land s1 0x3F) 12))
                                        (Z.shiftl (Z.land s2 0x3F) 6)) (Z.land s3 0x3F), 4)
                      | [] => (RuneError, 1)
                      end
                | [] => (RuneError, 1)
                end
          | [] => (RuneError, 1)
          end
      end
  end.

Definition EncodeRune (r : Z) : list Z :=
  let cont s := Z.lor 0x80 (Z.land (Z.shiftr r s) 0x3F) in
  if decide (0 <= r <= 0x7F) then [r]
  else if decide (0 <= r <= 0x7FF) then [Z.lor 0xC0 (Z.shiftr r 6); cont 0]
  else if decide (valid_rune r) then
    if decide (r <= 0xFFFF) then [Z.lor 0xE0 (Z.shiftr r 12); cont 6; cont 0]
    else [Z.lor 0xF0 (Z.shiftr r 18); cont 12; cont 6; cont 0]
  else [0xEF; 0xBF; 0xBD].

Definition utf8 (rs : list Z) : list Z := rs ≫= EncodeRune.

Lemma lor_high c n x : 0 <= n -> 0 <= x < 2 ^ n -> Z.lor (c * 2 ^ n) x = c * 2 ^ n + x.
Proof. intros Hn Hx. rewrite Z.lor_comm, <- Z.shiftl_mul_pow2, Z_lor_add_shift, Z.shiftl_mul_pow2 by done. lia. Qed.

Lemma land_low c n x : 0 <= n -> 0 <= x < 2 ^ n -> Z.land (c * 2 ^ n + x) (2 ^ n - 1) = x.
Proof. intros Hn Hx. rewrite Z_land_ones', Z.add_comm, Z_mod_plus_full, Z.mod_small by done. done. Qed.

(** The continuation byte that carries bits [s] to [s+5]. *)
Lemma cont_byte r s : 0 <= s -> Z.lor 0x80 (Z.land (Z.shiftr r s) 0x3F) = 128 + (r / 2 ^ s) mod 64.
Proof.
  intros Hs. change 0x3F with (2 ^ 6 - 1). rewrite Z_land_ones', Z.shiftr_div_pow2 by lia.
  apply (lor_high 2 6); [lia|]. apply Z.mod_pos_bound. lia.
Qed.

Lemma cont_bits x : 0 <= x < 64 -> Z.land (128 + x) 0x3F = x.
Proof. intros. apply (land_low 2 6); lia. Qed.

Lemma DecodeRune_2 a b rest : 2 <= a < 32 -> 0 <= b < 64 ->
  DecodeRune ((192 + a) :: (128 + b) :: rest) = (a * 64 + b, 2).
Proof.
  intros Ha Hb. cbn [DecodeRune]. rewrite decide_False by lia. unfold first_byte. rewrite decide_True by lia.
  rewrite decide_False by (rewrite !zlen_cons; pose proof (zlen_nonneg rest); lia). rewrite decide_True by done.
  rewrite cont_bits by done. change 0x1F with (2 ^ 5 - 1). rewrite (land_low 6 5) by lia.
  rewrite Z.shiftl_mul_pow2 by lia. by rewrite (lor_high a 6) by lia.
Qed.

Lemma DecodeRune_3 a b c rest : 0 <= a < 16 -> 0 <= b < 64 -> 0 <= c < 64 ->
  0x800 <= a * 4096 + b * 64 -> ~ (0xD800 <= a * 4096 + b * 64 + c <= 0xDFFF) ->
  DecodeRune ((224 + a) :: (128 + b) :: (128 + c) :: rest) = (a * 4096 + b * 64 + c, 3).
Proof.
  intros Ha Hb Hc Hlo Hsur. cbn [DecodeRune]. rewrite decide_False by lia.
  assert (exists lo hi, first_byte (224 + a) = Some (3, lo, hi) /\ lo <= 128 + b <= hi) as (lo & hi & -> & Hlh).
  { unfold first_byte. rewrite decide_False by lia. repeat destruct (decide _); try lia; eexists _, _; (split; [done|lia]). }
  rewrite decide_False by (rewrite !zlen_cons; pose proof (zlen_nonneg rest); lia).
  rewrite decide_False, decide_False, decide_True by lia.
  rewrite !cont_bits by done. change 0x0F with (2 ^ 4 - 1). rewrite (land_low 14 4) by lia.
  rewrite !Z.shiftl_mul_pow2 by lia. rewrite (lor_high a 12) by lia.
  replace (a * 2 ^ 12 + b * 2 ^ 6) with ((a * 64 + b) * 2 ^ 6) by lia. rewrite lor_high by lia. f_equal. lia.
Qed.

Lemma DecodeRune_4 a b c d rest : 0 <= a < 8 -> 0 <= b < 64 -> 0 <= c < 64 -> 0 <= d < 64 ->
  0x10000 <= a * 262144 + b * 4096 + c * 64 + d <= MaxRune ->
  DecodeRune ((240 + a) :: (128 + b) :: (128 + c) :: (128 + d) :: rest) = (a * 262144 + b * 4096 + c * 64 + d, 4).
Proof.
  unfold MaxRune. intros Ha Hb Hc Hd Hr. cbn [DecodeRune]. rewrite decide_False by lia.
  assert (exists lo hi, first_byte (240 + a) = Some (4, lo, hi) /\ lo <= 128 + b <= hi) as (lo & hi & -> & Hlh).
  { unfold first_byte. rewrite decide_False by lia. repeat destruct (decide _); try lia; eexists _, _; (split; [done|lia]). }
  rewrite decide_False by (rewrite !zlen_cons; pose proof (zlen_nonneg rest); lia).
  rewrite !decide_False by lia.
  rewrite !cont_bits by done. change 0x07 with (2 ^ 3 - 1). rewrite (land_low 30 3) by lia.
  rewrite !Z.shiftl_mul_pow2 by lia. rewrite (lor_high a 18) by lia.
  replace (a * 2 ^ 18 + b * 2 ^ 12) with ((a * 64 + b) * 2 ^ 12) by lia. rewrite lor_high by lia.
  replace ((a * 64 + b) * 2 ^ 12 + c * 2 ^ 6) with ((a * 4096 + b * 64 + c) * 2 ^ 6) by lia.
  rewrite lor_high by lia. f_equal. lia.
Qed.

(** Decoding inverts encoding. *)
Lemma Decode_Encode r rest :
  valid_rune r -> DecodeRune (EncodeRune r ++ rest) = (r, zlen (EncodeRune r)) /\ 1 <= zlen (EncodeRune r).
Proof.
  unfold valid_rune, MaxRune. intros Hr. unfold EncodeRune. rewrite !cont_byte by lia.
  destruct (decide (0 <= r <= 0x7F)); [|destruct (decide (0 <= r <= 0x7FF)); [|rewrite (decide_True (P := valid_rune r)) by exact Hr;
    destruct (decide (r <= 0xFFFF))]]; unfold zlen; cbn [app length]; (split; [|lia]).
  - cbn [DecodeRune]. by rewrite decide_True by lia.
  - rewrite Z.shiftr_div_pow2, (lor_high 6 5) by (Z.to_euclidean_division_equations; lia).
    rewrite DecodeRune_2; [f_equal|..]; Z.to_euclidean_division_equations; lia.
  - rewrite Z.shiftr_div_pow2, (lor_high 14 4) by (Z.to_euclidean_division_equations; lia).
    rewrite DecodeRune_3; [f_equal|..]; Z.to_euclidean_division_equations; lia.
  - rewrite Z.shiftr_div_pow2, (lor_high 30 3) by (Z.to_euclidean_division_equations; lia).
    rewrite DecodeRune_4; [f_equal|..]; unfold MaxRune; Z.to_euclidean_division_equations; lia.
Qed.

Lemma utf8_cons r rs : utf8 (r :: rs) = EncodeRune r ++ utf8 rs.
Proof. done. Qed.
Lemma utf8_app rs1 rs2 : utf8 (rs1 ++ rs2) = utf8 rs1 ++ utf8 rs2.
Proof. apply bind_app. Qed.

Lemma EncodeRune_ne r : EncodeRune r <> [].
Proof. unfold EncodeRune. by repeat destruct (decide _). Qed.

(** The encoding is prefix free: a byte prefix is a prefix of runes. *)
Lemma utf8_prefix rs1 rs2 rest :
  Forall valid_rune rs1 -> Forall valid_rune rs2 -> utf8 rs1 ++ rest = utf8 rs2 ->
  exists rs3, rs2 = rs1 ++ rs3 /\ rest = utf8 rs3.
Proof.
  intros H1. revert rs2. induction H1 as [|r rs1 Hr H1 IH]; intros rs2 H2 E; [by exists rs2|].
  destruct H2 as [|r' rs2 Hr' H2].
  - rewrite utf8_cons, <- app_assoc in E. apply app_eq_nil in E as [E _]. by apply EncodeRune_ne in E.
  - rewrite !utf8_cons, <- app_assoc in E.
    destruct (Decode_Encode r (utf8 rs1 ++ rest) Hr) as [D _]. destruct (Decode_Encode r' (utf8 rs2) Hr') as [D' _].
    rewrite E, D' in D. injection D as <- _. apply app_inv_head in E.
    destruct (IH rs2 H2 E) as (rs3 & -> & ->). by exists rs3.
Qed.

Lemma utf8_inj rs1 rs2 : Forall valid_rune rs1 -> Forall valid_rune rs2 -> utf8 rs1 = utf8 rs2 -> rs1 = rs2.
Proof.
  intros H1 H2 E. destruct (utf8_prefix rs1 rs2 [] H1 H2) as (rs3 & -> & E3); [by rewrite app_nil_r|].
  destruct rs3 as [|r rs3]; [by rewrite app_nil_r|]. rewrite utf8_cons in E3.
  symmetry in E3. apply app_eq_nil in E3 as [E3 _]. by apply EncodeRune_ne in E3.
Qed.

(** The bytes of a rune above ASCII are above ASCII. *)
Lemma EncodeRune_bytes r b : valid_rune r -> b ∈ EncodeRune r -> (b = r /\ r <= 0x7F) \/ 128 <= b < 256.
Proof.
  intros Hr. pose proof Hr as Hr'. unfold valid_rune, MaxRune in Hr. unfold EncodeRune. rewrite !cont_byte by lia.
  assert (forall s, 0 <= (r / 2 ^ s) mod 64 < 64) as Hc by (intros; apply Z.mod_pos_bound; lia).
  pose proof (Hc 0). pose proof (Hc 6). pose proof (Hc 12).
  repeat destruct (decide _); rewrite ?Z.shiftr_div_pow2 by lia; try done.
  - intros ->%list_elem_of_singleton. by left; lia.
  - rewrite (lor_high 6 5) by (Z.to_euclidean_division_equations; lia).
    rewrite !elem_of_cons, elem_of_nil. intros [->|[->|[]]]; right; Z.to_euclidean_division_equations; lia.
  - rewrite (lor_high 14 4) by (Z.to_euclidean_division_equations; lia).
    rewrite !elem_of_cons, elem_of_nil. intros [->|[->|[->|[]]]]; right; Z.to_euclidean_division_equations; lia.
  - rewrite (lor_high 30 3) by (Z.to_euclidean_division_equations; lia).
    rewrite !elem_of_cons, elem_of_nil. intros [->|[->|[->|[->|[]]]]]; right; Z.to_euclidean_division_equations; lia.
Qed.
