(* ===== verification/GoIO.v ===== *)
(** * Byte streams

    The parts of Go's package io the modelled code reads from and writes to.  A
    [reader] delivers its bytes one after the other and then fails with
    [rd_err]; a [writer] accepts [w_room] more bytes and then fails with
    [w_err].  [ReadByte], [ReadFull] and [WriteBytes] follow the documented
    behaviour of io.ByteReader, io.ReadFull and io.Writer. *)

From S2P Require Import Prelude.
#[local] Open Scope go_scope.

Record reader := mkReader { rd_bytes : list Z; rd_err : error }.
Record writer := mkWriter { w_out : list Z; w_room : nat; w_err : error }.

Definition ReadByte (r : reader) : result Z * reader :=
  match rd_bytes r with
  | [] => (Err (rd_err r), r)
  | b :: bs => (Ok b, mkReader bs (rd_err r))
  end.

(** io.ReadFull: [n] bytes, or io.EOF when none could be read and
    io.ErrUnexpectedEOF when only some could. *)
Definition ReadFull (n : nat) (r : reader) : result (list Z) * reader :=
  if decide (n <= length (rd_bytes r))%nat then
    (Ok (take n (rd_bytes r)), mkReader (drop n (rd_bytes r)) (rd_err r))
  else
    (Err (if decide (rd_bytes r <> [] /\ rd_err r = EOF)
          then ErrUnexpectedEOF else rd_err r),
     mkReader [] (rd_err r)).

Definition WriteByte (b : Z) (w : writer) : option error * writer :=
  match w_room w with
  | O => (Some (w_err w), w)
  | S n => (None, mkWriter (w_out w ++ [b]) n (w_err w))
  end.

Definition WriteBytes (bs : list Z) (w : writer) : option error * writer :=
  let n := Nat.min (length bs) (w_room w) in
  (if decide (length bs <= w_room w)%nat then None else Some (w_err w),
   mkWriter (w_out w ++ take n bs) (w_room w - n) (w_err w)).

(** Sequencing of fallible reads and writes: Go's
    [if err != nil { return err }]. *)
Definition rd_bind {A B} (m : result A * reader) (k : A -> reader -> result B * reader)
    : result B * reader :=
  match m with
  | (Ok a, r) => k a r
  | (Err e, r) => (Err e, r)
  end.

Definition wr_bind (m : option error * writer) (k : writer -> option error * writer)
    : option error * writer :=
  match m with
  | (None, w) => k w
  | (Some e, w) => (Some e, w)
  end.

Lemma ReadFull_app bs rest e :
  ReadFull (length bs) (mkReader (bs ++ rest) e) = (Ok bs, mkReader rest e).
Proof.
  unfold ReadFull. simpl. rewrite length_app.
  rewrite decide_True by lia. by rewrite take_app_length, drop_app_length.
Qed.

Lemma ReadFull_app' n bs rest e :
  length bs = n -> ReadFull n (mkReader (bs ++ rest) e) = (Ok bs, mkReader rest e).
Proof. intros <-. apply ReadFull_app. Qed.

Lemma WriteBytes_room bs w :
  (length bs <= w_room w)%nat ->
  WriteBytes bs w
  = (None, mkWriter (w_out w ++ bs) (w_room w - length bs) (w_err w)).
Proof.
  intros H. unfold WriteBytes. rewrite decide_True by done.
  rewrite Nat.min_l by done. by rewrite take_ge by lia.
Qed.

(** ** Codecs

    What a serialised type promises to its clients: a reader positioned on the
    encoding of a valid value yields that value and is left exactly behind it;
    encodings are byte strings. *)
Class Codec (A : Type) (valid : A -> Prop) (encode : A -> list Z)
    (decode : reader -> result A * reader) : Prop := {
  codec_bytes a : valid a -> bytes_ok (encode a);
  codec_decode_encode a rest e :
    valid a -> decode (mkReader (encode a ++ rest) e) = (Ok a, mkReader rest e);
}.

(** An encoding with a codec is prefix free, hence injective. *)
Lemma codec_prefix_free `{Codec A valid enc dec} a b r1 r2 :
  valid a -> valid b -> enc a ++ r1 = enc b ++ r2 -> a = b /\ r1 = r2.
Proof.
  intros Ha Hb E. pose proof (codec_decode_encode a r1 EOF Ha) as H1.
  rewrite E, codec_decode_encode in H1 by done. by injection H1 as -> ->.
Qed.

(** The same sequencing for code that may panic. *)
Definition obindr {A B} (m : outcome (result A * reader)) (k : A -> reader -> outcome (result B * reader))
    : outcome (result B * reader) :=
  let! p := m in
  match p with
  | (Ok a, r) => k a r
  | (Err e, r) => Val (Err e, r)
  end.

Definition obindw (m : outcome (option error * writer)) (k : writer -> outcome (option error * writer))
    : outcome (option error * writer) :=
  let! p := m in
  match p with
  | (None, w) => k w
  | (Some e, w) => Val (Some e, w)
  end.

(** ** encoding/binary: big-endian integers of [n] bytes *)

Fixpoint be (n : nat) (x : Z) : list Z :=
  match n with
  | O => []
  | S n' => Z.land (Z.shiftr x (8 * Z.of_nat n')) 255 :: be n' x
  end.
Definition unbe (bs : list Z) : Z := foldl (fun a b => Z.lor (Z.shiftl a 8) b) 0 bs.

Lemma length_be n x : length (be n x) = n.
Proof. induction n as [|n IH]; [done|]. cbn. by rewrite IH. Qed.

Lemma be_bytes n x : bytes_ok (be n x).
Proof.
  induction n as [|n IH]; constructor; [|done]. change 255 with (2 ^ 8 - 1). rewrite Z_land_ones' by lia.
  unfold is_byte. apply Z.mod_pos_bound. lia.
Qed.

Lemma unbe_be_from n x a :
  0 <= x < 2 ^ (8 * Z.of_nat n) -> 0 <= a ->
  foldl (fun a b => Z.lor (Z.shiftl a 8) b) a (be n x) = a * 2 ^ (8 * Z.of_nat n) + x.
Proof.
  revert x a. induction n as [|n IH]; intros x a Hx Ha.
  - change (2 ^ (8 * Z.of_nat 0)) with 1 in *. cbn. lia.
  - cbn [be foldl]. change 255 with (2 ^ 8 - 1). rewrite Z_land_ones', Z.shiftr_div_pow2 by lia.
    assert (2 ^ (8 * Z.of_nat (S n)) = 2 ^ 8 * 2 ^ (8 * Z.of_nat n)) as E.
    { rewrite <- Z.pow_add_r by lia. f_equal. lia. }
    rewrite E in Hx. pose proof (Z.pow_pos_nonneg 2 (8 * Z.of_nat n) ltac:(lia) ltac:(lia)) as Hp.
    assert (0 <= x / 2 ^ (8 * Z.of_nat n) < 2 ^ 8) as Hq.
    { split; [apply Z.div_pos; lia|apply Z.div_lt_upper_bound; lia]. }
    rewrite (Z.mod_small (x / _)) by done.
    rewrite Z.lor_comm, Z_lor_add_shift by lia.
    assert (be n x = be n (x mod 2 ^ (8 * Z.of_nat n))) as ->.
    { clear. assert (forall m, (m <= n)%nat -> be m x = be m (x mod 2 ^ (8 * Z.of_nat n))) as H; [|by apply H].
      induction m as [|m IHm]; intros Hm; [done|]. cbn [be]. rewrite IHm by lia. f_equal.
      apply Z.bits_inj'. intros i Hi. rewrite !Z.land_spec, !Z.shiftr_spec by done.
      destruct (decide (i < 8)).
      - by rewrite Z.mod_pow2_bits_low by lia.
      - change 255 with (2 ^ 8 - 1). rewrite <- (Z.ones_equiv 8) || rewrite (Z.sub_1_r (2 ^ 8)), <- Z.ones_equiv.
        by rewrite Z.ones_spec_high, !andb_false_r by lia. }
    rewrite IH by (first [apply Z.mod_pos_bound; lia|lia]). rewrite E.
    pose proof (Z.div_mod x (2 ^ (8 * Z.of_nat n)) ltac:(lia)). nia.
Qed.

Lemma unbe_be n x : 0 <= x < 2 ^ (8 * Z.of_nat n) -> unbe (be n x) = x.
Proof. intros Hx. unfold unbe. rewrite unbe_be_from by lia. lia. Qed.

#[export] Instance be_codec n :
  Codec Z (fun x => 0 <= x < 2 ^ (8 * Z.of_nat n)) (be n)
    (fun r => rd_bind (ReadFull n r) (fun bs r => (Ok (unbe bs), r))).
Proof.
  split.
  - intros x _. apply be_bytes.
  - intros x rest e Hx. rewrite (ReadFull_app' n) by apply length_be. cbn. by rewrite unbe_be.
Qed.

(** ** Truncated input

    A decoder is monotone when more input behind what it read does not change
    its answer; a monotone codec rejects every proper prefix of an encoding. *)
Class Monotone {A} (decode : reader -> result A * reader) : Prop :=
  monotone bs e a bs' e' : decode (mkReader bs e) = (Ok a, mkReader bs' e') ->
    e' = e /\ forall rest e2, decode (mkReader (bs ++ rest) e2) = (Ok a, mkReader (bs' ++ rest) e2).

#[export] Instance monotone_ReadFull n : Monotone (ReadFull n).
Proof.
  intros bs e a bs' e'. unfold ReadFull. cbn [rd_bytes rd_err]. destruct (decide (n <= length bs)%nat); [|done].
  intros [= <- <- <-]. split; [done|]. intros rest e2. rewrite length_app, decide_True by lia.
  by rewrite take_app_le, drop_app_le by lia.
Qed.
#[export] Instance monotone_ReadByte : Monotone ReadByte.
Proof. intros [|b bs] e a bs' e'; [done|]. by intros [= <- <- <-]. Qed.
#[export] Instance monotone_Ok {A} (a : A) : Monotone (fun r => (Ok a, r)).
Proof. by intros bs e a' bs' e' [= <- <- <-]. Qed.
#[export] Instance monotone_Err {A} (e : error) : Monotone (fun r => (@Err A e, r)).
Proof. by intros bs e' a' bs' e2 ?. Qed.
#[export] Instance monotone_Ok' {A} (a : A) : Monotone (pair (Ok a)).
Proof. apply monotone_Ok. Qed.
#[export] Instance monotone_Err' {A} (e : error) : Monotone (pair (@Err A e)).
Proof. apply monotone_Err. Qed.
#[export] Instance monotone_bind {A B} (m : reader -> result A * reader) (k : A -> reader -> result B * reader) :
  Monotone m -> (forall a, Monotone (k a)) -> Monotone (fun r => rd_bind (m r) (k)).
Proof.
  intros Hm Hk bs e b bs' e' Hr. unfold rd_bind in Hr. destruct (m (mkReader bs e)) as [[a|] [bs1 e1]] eqn:E; [|done].
  destruct (Hm _ _ _ _ _ E) as [-> Hm']. destruct (Hk a _ _ _ _ _ Hr) as [-> Hk']. split; [done|].
  intros rest e2. unfold rd_bind. by rewrite Hm', Hk'.
Qed.
#[export] Instance monotone_decide {A} (P : Prop) `{Decision P} (m1 m2 : reader -> result A * reader) :
  Monotone m1 -> Monotone m2 -> Monotone (fun r => if decide P then m1 r else m2 r).
Proof. by destruct (decide P). Qed.
#[export] Instance monotone_if {A} (b : bool) (m1 m2 : reader -> result A * reader) :
  Monotone m1 -> Monotone m2 -> Monotone (fun r => if b then m1 r else m2 r).
Proof. by destruct b. Qed.

Lemma codec_truncated `{Codec A valid enc dec} `{!Monotone dec} a p q e :
  valid a -> enc a = p ++ q -> q <> [] -> exists err r, dec (mkReader p e) = (Err err, r).
Proof.
  intros Ha E Hq. destruct (dec (mkReader p e)) as [[a'|err] [bs' e']] eqn:Ed; [|by eexists _, _].
  destruct (monotone _ _ _ _ _ Ed) as [_ Hm]. pose proof (codec_decode_encode a [] e Ha) as Hd.
  rewrite app_nil_r, E, Hm in Hd. injection Hd as _ Hd. by apply app_eq_nil in Hd as [_ ?].
Qed.

(** ** What is read from bytes *)

Lemma ReadFull_inv n bs e a r :
  ReadFull n (mkReader bs e) = (Ok a, r) -> a = take n bs /\ length a = n /\ r = mkReader (drop n bs) e.
Proof.
  unfold ReadFull. cbn [rd_bytes rd_err]. destruct (decide (n <= length bs)%nat); [|done].
  intros [= <- <-]. split_and!; [done|rewrite length_take; lia|done].
Qed.

Lemma unbe_range_from bs acc k :
  bytes_ok bs -> 0 <= acc < 2 ^ (8 * k) -> 0 <= k ->
  0 <= foldl (fun a b => Z.lor (Z.shiftl a 8) b) acc bs < 2 ^ (8 * (k + Z.of_nat (length bs))).
Proof.
  intros Hb. revert acc k. induction Hb as [|b bs Hb _ IH]; intros acc k Ha Hk; cbn [foldl length].
  - by rewrite Z.add_0_r.
  - replace (k + Z.of_nat (S (length bs))) with (k + 1 + Z.of_nat (length bs)) by lia. apply IH; [|lia].
    unfold is_byte in Hb. rewrite Z.lor_comm, Z_lor_add_shift by lia.
    replace (8 * (k + 1)) with (8 * k + 8) by lia. rewrite Z.pow_add_r by lia. nia.
Qed.
Lemma unbe_range bs : bytes_ok bs -> 0 <= unbe bs < 2 ^ (8 * Z.of_nat (length bs)).
Proof. intros Hb. apply (unbe_range_from bs 0 0 Hb); lia. Qed.
