(* ===== verification/Varint.v ===== *)
(** * Variable-length integers: common/binary/varint.go, common/varbin/uvarint.go,
      common/rw/varint.go

    [AppendUvarint], [PutUvarint] and [WriteUvarint] encode, [Uvarint] and
    [ReadUvarint] decode; the signed variants wrap them in the zig-zag map.  The
    encoding loops run on fuel: ten iterations are enough for 64-bit values. *)

From S2P Require Import Prelude GoIO.
#[local] Open Scope go_scope.

Definition MaxVarintLen64 : Z := 10.
Definition errOverflow : error := ErrNew "binary: varint overflows a 64-bit integer".

(** ** Encoding *)

Fixpoint AppendUvarint_loop (fuel : nat) (buf : list Z) (x : Z) : outcome (list Z) :=
  if decide (0x80 <= x) then
    match fuel with
    | O => OutOfFuel
    | S f => AppendUvarint_loop f (buf ++ [Z.lor (u8 x) 0x80]) (Z.shiftr x 7)
    end
  else Val (buf ++ [u8 x]).

Definition AppendUvarint (buf : list Z) (x : Z) : outcome (list Z) :=
  AppendUvarint_loop 10 buf x.

(** PutUvarint writes into [buf] in place and returns the count; it panics when
    an index is out of range. *)
Fixpoint PutUvarint_loop (fuel : nat) (i x : Z) : GoM (list Z) Z :=
  fun buf =>
    if decide (0x80 <= x) then
      match fuel with
      | O => OutOfFuel
      | S f =>
          match set_at buf i (Z.lor (u8 x) 0x80) with
          | Some buf' => PutUvarint_loop f (i + 1) (Z.shiftr x 7) buf'
          | None => Panic
          end
      end
    else
      match set_at buf i (u8 x) with
      | Some buf' => Val (i + 1, buf')
      | None => Panic
      end.

Definition PutUvarint (x : Z) : GoM (list Z) Z := PutUvarint_loop 10 0 x.

(** The zig-zag map of AppendVarint and PutVarint:
    [ux := uint64(x) << 1; if x < 0 { ux = ^ux }]. *)
Definition zigzag (x : Z) : Z :=
  let ux := u64 (Z.shiftl (u64 x) 1) in
  if decide (x < 0) then Z.lxor ux (2 ^ 64 - 1) else ux.

Definition AppendVarint (buf : list Z) (x : Z) : outcome (list Z) :=
  AppendUvarint buf (zigzag x).

Definition PutVarint (x : Z) : GoM (list Z) Z := PutUvarint (zigzag x).

(** varbin.WriteUvarint: the number of bytes written and the writer's error. *)
Fixpoint WriteUvarint_loop (fuel : nat) (writeN value : Z) (w : writer)
    : outcome ((Z * option error) * writer) :=
  if decide (0x80 <= value) then
    match fuel with
    | O => OutOfFuel
    | S f =>
        match WriteByte (Z.lor (u8 value) 0x80) w with
        | (Some e, w') => Val ((writeN, Some e), w')
        | (None, w') => WriteUvarint_loop f (writeN + 1) (Z.shiftr value 7) w'
        end
    end
  else
    match WriteByte (u8 value) w with
    | (Some e, w') => Val ((writeN, Some e), w')
    | (None, w') => Val ((writeN + 1, None), w')
    end.

Definition WriteUvarint (value : Z) (w : writer) : outcome ((Z * option error) * writer) :=
  WriteUvarint_loop 10 0 value w.

Definition UvarintLen (x : Z) : Z :=
  if decide (x < Z.shiftl 1 (7 * 1)) then 1
  else if decide (x < Z.shiftl 1 (7 * 2)) then 2
  else if decide (x < Z.shiftl 1 (7 * 3)) then 3
  else if decide (x < Z.shiftl 1 (7 * 4)) then 4
  else if decide (x < Z.shiftl 1 (7 * 5)) then 5
  else if decide (x < Z.shiftl 1 (7 * 6)) then 6
  else if decide (x < Z.shiftl 1 (7 * 7)) then 7
  else 8.

(** rw.WriteUVariant encodes into an eight-byte array before writing it. *)
Definition WriteUVariant (value : Z) (w : writer) : outcome (option error * writer) :=
  match PutUvarint value (replicate 8 0) with
  | Val (n, b) => Val (WriteBytes (take (Z.to_nat n) b) w)
  | Panic => Panic
  | OutOfFuel => OutOfFuel
  end.

(** ** Decoding *)

(** Uvarint: the value and the number of bytes read, [n <= 0] on error. *)
Fixpoint Uvarint_loop (buf : list Z) (i x s : Z) : Z * Z :=
  match buf with
  | [] => (0, 0)
  | b :: buf' =>
      if decide (i = MaxVarintLen64) then (0, - (i + 1))
      else if decide (b < 0x80) then
        if decide (i = MaxVarintLen64 - 1 /\ b > 1) then (0, - (i + 1))
        else (Z.lor x (u64 (Z.shiftl b s)), i + 1)
      else
        Uvarint_loop buf' (i + 1) (Z.lor x (u64 (Z.shiftl (Z.land b 0x7f) s))) (s + 7)
  end.

Definition Uvarint (buf : list Z) : Z * Z := Uvarint_loop buf 0 0 0.

(** [x := int64(ux >> 1); if ux&1 != 0 { x = ^x }] of Varint and ReadVarint. *)
Definition unzigzag (ux : Z) : Z :=
  let x := i64 (Z.shiftr ux 1) in
  if decide (Z.land ux 1 <> 0) then Z.lnot x else x.

Definition Varint (buf : list Z) : Z * Z :=
  let '(ux, n) := Uvarint buf in (unzigzag ux, n).

(** ReadUvarint returns the value read so far together with the error. *)
Fixpoint ReadUvarint_loop (k : nat) (i x s : Z) (r : reader)
    : (Z * option error) * reader :=
  match k with
  | O => ((x, Some errOverflow), r)
  | S k' =>
      match ReadByte r with
      | (Err e, r') =>
          ((x, Some (if decide (i > 0 /\ e = EOF) then ErrUnexpectedEOF else e)), r')
      | (Ok b, r') =>
          if decide (b < 0x80) then
            if decide (i = MaxVarintLen64 - 1 /\ b > 1) then ((x, Some errOverflow), r')
            else ((Z.lor x (u64 (Z.shiftl b s)), None), r')
          else
            ReadUvarint_loop k' (i + 1) (Z.lor x (u64 (Z.shiftl (Z.land b 0x7f) s))) (s + 7) r'
      end
  end.

Definition ReadUvarint (r : reader) : (Z * option error) * reader :=
  ReadUvarint_loop (Z.to_nat MaxVarintLen64) 0 0 0 r.

Definition ReadVarint (r : reader) : (Z * option error) * reader :=
  let '((ux, err), r') := ReadUvarint r in ((unzigzag ux, err), r').

(** The value of a successful read, as callers that return on [err != nil] use it. *)
Definition value_or_error (m : (Z * option error) * reader) : result Z * reader :=
  match m with
  | ((x, None), r) => (Ok x, r)
  | ((_, Some e), r) => (Err e, r)
  end.

(** rw.ReadBytes: [make([]byte, size)] filled by io.ReadFull. *)
Definition ReadBytes (size : Z) (r : reader) : outcome (result (list Z) * reader) :=
  if makeslice_ok 1 size then Val (ReadFull (Z.to_nat size) r) else Panic.

Definition WriteVString (value : list Z) (w : writer) : outcome (option error * writer) :=
  let! ew := WriteUVariant (u64 (zlen value)) w in
  Val (wr_bind ew (WriteBytes value)).

Definition ReadVString (r : reader) : outcome (result (list Z) * reader) :=
  match value_or_error (ReadUvarint r) with
  | (Err e, r') => Val (Err e, r')
  | (Ok length, r') => ReadBytes (i64 length) r'
  end.

Example put_300 : PutUvarint 300 (replicate 4 0) = Val (2, [0xAC; 0x02; 0; 0]).
Proof. vm_compute. reflexivity. Qed.
Example uvarint_300 : Uvarint [0xAC; 0x02; 7] = (300, 2).
Proof. vm_compute. reflexivity. Qed.

(** ** The encoding as a function: base-128 digits, least significant first *)

Fixpoint base128 (n : nat) (x : Z) : list Z :=
  match n with
  | O => [x]
  | S n' => (x mod 128 + 128) :: base128 n' (x / 128)
  end.

Definition uvarint (x : Z) : list Z := base128 (Z.to_nat (Z.log2 x / 7)) x.

Lemma uvarint_small x : 0 <= x < 128 -> uvarint x = [x].
Proof.
  intros Hx. unfold uvarint. destruct (decide (x = 0)) as [->|]; [done|].
  assert (Z.log2 x < 7) by (apply Z.log2_lt_pow2; lia).
  pose proof (Z.log2_nonneg x). by rewrite Z.div_small.
Qed.

Lemma uvarint_big x : 128 <= x -> uvarint x = (x mod 128 + 128) :: uvarint (x / 128).
Proof.
  intros Hx. unfold uvarint.
  assert (7 <= Z.log2 x) by (apply Z.log2_le_pow2; lia).
  assert (Z.log2 (x / 128) = Z.log2 x - 7) as E.
  { change 128 with (2 ^ 7). rewrite <- Z.shiftr_div_pow2, Z.log2_shiftr; lia. }
  replace (Z.to_nat (Z.log2 x / 7)) with (S (Z.to_nat (Z.log2 (x / 128) / 7))); [done|].
  rewrite E. replace (Z.log2 x) with (Z.log2 x - 7 + 1 * 7) at 2 by lia.
  rewrite Z.div_add, Z2Nat.inj_add by (try apply Z.div_pos; lia). simpl. lia.
Qed.

(** Induction along the digits of a number. *)
Lemma uvarint_ind (P : Z -> Prop) :
  (forall x, 0 <= x < 128 -> P x) ->
  (forall x, 128 <= x -> P (x / 128) -> P x) ->
  forall x, 0 <= x -> P x.
Proof.
  intros H0 H1. apply (Zlt_0_ind P). intros x IH Hx.
  destruct (decide (x < 128)); [by apply H0|].
  apply H1; [lia|]. apply IH. split; [apply Z.div_pos; lia|]. apply Z.div_lt; lia.
Qed.

Lemma uvarint_bytes x : 0 <= x -> bytes_ok (uvarint x).
Proof.
  revert x. apply uvarint_ind; intros x Hx.
  - rewrite uvarint_small by done. repeat constructor; lia.
  - intros IH. rewrite uvarint_big by done. constructor; [|done].
    unfold is_byte. pose proof (Z.mod_pos_bound x 128). lia.
Qed.

Lemma u8_high x : Z.lor (u8 x) 0x80 = x mod 128 + 128.
Proof.
  unfold u8. apply Z.bits_inj'. intros n Hn.
  change 128 with (Z.shiftl 1 7) at 3.
  rewrite <- Z.mul_1_l with (n := Z.shiftl 1 7) at 1.
  replace (x mod 128 + 1 * Z.shiftl 1 7) with (Z.lor (x mod 2 ^ 7) (Z.shiftl 1 7)).
  2:{ rewrite Z_lor_add_shift; [by rewrite Z.shiftl_mul_pow2 by lia|lia|]. apply Z.mod_pos_bound; lia. }
  change 0x80 with (Z.shiftl 1 7). rewrite !Z.lor_spec. destruct (decide (n = 7)) as [->|].
  - rewrite (Z.shiftl_spec 1 7 7) by lia. by rewrite !orb_true_r.
  - f_equal. destruct (decide (n < 7)).
    + by rewrite !Z.mod_pow2_bits_low by lia.
    + rewrite (Z.mod_pow2_bits_high x 7) by lia. by rewrite Z.mod_pow2_bits_high by lia.
Qed.

Lemma shiftr7 x : Z.shiftr x 7 = x / 128.
Proof. by rewrite Z.shiftr_div_pow2. Qed.

(** One iteration consumes seven bits of the fuel's bound. *)
Lemma div128_fuel f x :
  0 <= x < 2 ^ (7 * (Z.of_nat (S f) + 1)) -> 0 <= x / 128 < 2 ^ (7 * (Z.of_nat f + 1)).
Proof.
  intros Hx. split; [apply Z.div_pos; lia|]. apply Z.div_lt_upper_bound; [lia|].
  change 128 with (2 ^ 7). rewrite <- Z.pow_add_r by lia.
  replace (7 + 7 * (Z.of_nat f + 1)) with (7 * (Z.of_nat (S f) + 1)) by lia. apply Hx.
Qed.

Lemma AppendUvarint_loop_spec fuel buf x :
  0 <= x < 2 ^ (7 * (Z.of_nat fuel + 1)) ->
  AppendUvarint_loop fuel buf x = Val (buf ++ uvarint x).
Proof.
  revert buf x. induction fuel as [|f IH]; intros buf x Hx; simpl.
  - rewrite decide_False by (simpl in Hx; lia).
    rewrite uvarint_small, u8_small by lia. done.
  - case_decide.
    + rewrite u8_high, shiftr7, IH, (uvarint_big x) by (lia || by apply div128_fuel).
      by rewrite <- app_assoc.
    + rewrite uvarint_small, u8_small by lia. done.
Qed.

Lemma AppendUvarint_spec buf x :
  0 <= x < 2 ^ 64 -> AppendUvarint buf x = Val (buf ++ uvarint x).
Proof. intros. apply AppendUvarint_loop_spec. simpl. lia. Qed.

(** Number of bytes: one per started group of seven bits. *)
Lemma uvarint_length_le n x :
  0 <= x < 2 ^ (7 * Z.of_nat n) -> (0 < n)%nat -> (length (uvarint x) <= n)%nat.
Proof.
  intros Hx Hn. assert (0 <= x) as H0 by lia. revert n Hx Hn. revert x H0.
  apply (uvarint_ind (fun x => forall n, 0 <= x < 2 ^ (7 * Z.of_nat n) -> (0 < n)%nat ->
    (length (uvarint x) <= n)%nat)).
  - intros x Hx n _ Hn. rewrite uvarint_small by done. simpl. lia.
  - intros x Hx IH n [_ Hn] Hpos. rewrite uvarint_big by done. simpl.
    destruct n as [|[|n]]; [lia|simpl in Hn; lia|].
    cut (length (uvarint (x / 128)) <= S n)%nat; [lia|]. apply IH; [|lia].
    split; [apply Z.div_pos; lia|]. apply Z.div_lt_upper_bound; [lia|].
    change 128 with (2 ^ 7). rewrite <- Z.pow_add_r by lia.
    replace (7 + 7 * Z.of_nat (S n)) with (7 * Z.of_nat (S (S n))) by lia. apply Hn.
Qed.

Lemma uvarint_length_gt n x :
  2 ^ (7 * Z.of_nat n) <= x -> (n < length (uvarint x))%nat.
Proof.
  revert x. induction n as [|n IH]; intros x Hx.
  - simpl in Hx. destruct (decide (x < 128)).
    + rewrite uvarint_small by lia. simpl. lia.
    + rewrite uvarint_big by lia. simpl. lia.
  - replace (7 * Z.of_nat (S n)) with (7 + 7 * Z.of_nat n) in Hx by lia.
    rewrite Z.pow_add_r in Hx by lia.
    assert (0 < 2 ^ (7 * Z.of_nat n)) by (apply Z.pow_pos_nonneg; lia).
    rewrite uvarint_big by lia. simpl. apply (proj1 (Nat.succ_lt_mono _ _)). apply IH.
    apply Z.div_le_lower_bound; lia.
Qed.

Lemma uvarint_nonempty x : uvarint x <> [].
Proof. unfold uvarint. by destruct (Z.to_nat _). Qed.

(** ** The writing variants produce the same bytes *)

Lemma PutUvarint_loop_spec fuel pre old post x :
  0 <= x < 2 ^ (7 * (Z.of_nat fuel + 1)) -> length old = length (uvarint x) ->
  PutUvarint_loop fuel (zlen pre) x (pre ++ old ++ post)
  = Val (zlen pre + zlen (uvarint x), pre ++ uvarint x ++ post).
Proof.
  revert pre old x. induction fuel as [|f IH]; intros pre old x Hx Hlen; simpl.
  - rewrite decide_False by (simpl in Hx; lia).
    rewrite uvarint_small in Hlen |- * by (simpl in Hx; lia).
    destruct old as [|o [|]]; try done. cbn [app]. rewrite set_at_middle, u8_small by (simpl in Hx; lia).
    repeat f_equal.
  - case_decide.
    + rewrite (uvarint_big x) in Hlen |- * by lia.
      destruct old as [|o old]; [done|]. cbn [app]. rewrite set_at_middle, u8_high, shiftr7.
      specialize (IH (pre ++ [x mod 128 + 128]) old (x / 128)).
      rewrite zlen_app, <- !app_assoc in IH. simpl in IH. change (zlen [_]) with 1 in IH.
      rewrite IH; [|by apply div128_fuel|simpl in Hlen; lia].
      f_equal. f_equal. rewrite zlen_cons; lia.
    + rewrite uvarint_small in Hlen |- * by lia.
      destruct old as [|o [|]]; try done. cbn [app]. rewrite set_at_middle, u8_small by lia. done.
Qed.

Lemma PutUvarint_spec x buf :
  0 <= x < 2 ^ 64 -> zlen (uvarint x) <= zlen buf ->
  PutUvarint x buf
  = Val (zlen (uvarint x), uvarint x ++ drop (length (uvarint x)) buf).
Proof.
  intros Hx Hlen. unfold PutUvarint. unfold zlen in Hlen.
  rewrite <- (take_drop (length (uvarint x)) buf) at 1.
  apply (PutUvarint_loop_spec 10 []); [simpl; lia|].
  rewrite length_take. lia.
Qed.

(** An index error when the slice is shorter than the encoding. *)
Lemma PutUvarint_loop_panic fuel i x buf :
  0 <= x < 2 ^ (7 * (Z.of_nat fuel + 1)) -> 0 <= i ->
  zlen buf < i + zlen (uvarint x) -> PutUvarint_loop fuel i x buf = Panic.
Proof.
  revert i x buf. induction fuel as [|f IH]; intros i x buf Hx Hi Hlen; simpl.
  - rewrite decide_False by (simpl in Hx; lia).
    rewrite uvarint_small in Hlen by (simpl in Hx; lia).
    unfold set_at. rewrite decide_False; [done|]. unfold zlen in *. simpl in Hlen. lia.
  - case_decide.
    + destruct (set_at buf i _) as [buf'|] eqn:E; [|done]. rewrite shiftr7.
      apply IH; [by apply div128_fuel|lia|].
      rewrite (zlen_set_at _ _ _ _ E). rewrite (uvarint_big x), zlen_cons in Hlen by lia. lia.
    + rewrite uvarint_small in Hlen by lia.
      unfold set_at. rewrite decide_False; [done|]. unfold zlen in *. simpl in Hlen. lia.
Qed.

Lemma WriteUvarint_loop_spec fuel n x w :
  0 <= x < 2 ^ (7 * (Z.of_nat fuel + 1)) ->
  WriteUvarint_loop fuel n x w
  = Val (let k := Nat.min (length (uvarint x)) (w_room w) in
         (n + Z.of_nat k,
          if decide (length (uvarint x) <= w_room w)%nat then None else Some (w_err w)),
         (WriteBytes (uvarint x) w).2).
Proof.
  revert n x w. induction fuel as [|f IH]; intros n x w Hx; simpl.
  - rewrite decide_False by (simpl in Hx; lia).
    rewrite uvarint_small, u8_small by (simpl in Hx; lia).
    destruct w as [out [|room] err]; unfold WriteByte, WriteBytes; simpl.
    + by rewrite app_nil_r, Z.add_0_r.
    + by rewrite Nat.sub_0_r.
  - case_decide.
    + rewrite (uvarint_big x), u8_high, shiftr7 by lia.
      destruct w as [out [|room] err]; unfold WriteByte, WriteBytes; simpl.
      * by rewrite app_nil_r, Z.add_0_r.
      * rewrite IH by (by apply div128_fuel).
        unfold WriteBytes. simpl. do 3 f_equal.
        -- lia.
        -- repeat case_decide; (done || lia).
        -- by rewrite <- app_assoc.
    + rewrite uvarint_small, u8_small by lia.
      destruct w as [out [|room] err]; unfold WriteByte, WriteBytes; simpl.
      * by rewrite app_nil_r, Z.add_0_r.
      * by rewrite Nat.sub_0_r.
Qed.

(** ** Decoding inverts encoding *)

Lemma land_7f b : Z.land b 0x7f = b mod 128.
Proof. change 0x7f with (2 ^ 7 - 1). by rewrite Z_land_ones'. Qed.

Lemma pow_exponent_le a b c : 1 <= a -> 0 <= b -> a * 2 ^ b < 2 ^ c -> b < c.
Proof.
  intros Ha Hb H. destruct (decide (c <= b)) as [Hc|]; [|lia].
  assert (2 ^ c <= 2 ^ b) by (apply Z.pow_le_mono_r; lia). nia.
Qed.

(** The arithmetic of one decoding step: the accumulated bits and the next
    group do not overlap and stay below 2^64. *)
Lemma decode_step x y i :
  0 <= i -> 128 <= y -> 0 <= x < 2 ^ (7 * i) -> x + y * 2 ^ (7 * i) < 2 ^ 64 ->
  let x' := Z.lor x (u64 (Z.shiftl (y mod 128) (7 * i))) in
  0 <= x' < 2 ^ (7 * (i + 1)) /\ x' + y / 128 * 2 ^ (7 * (i + 1)) = x + y * 2 ^ (7 * i).
Proof.
  intros Hi Hy Hx Hlt. cbv zeta.
  assert (0 < 2 ^ (7 * i)) by lia.
  assert (2 ^ (7 * (i + 1)) = 128 * 2 ^ (7 * i)) as E.
  { replace (7 * (i + 1)) with (7 + 7 * i) by lia. by rewrite Z.pow_add_r by lia. }
  pose proof (Z.mod_pos_bound y 128 ltac:(lia)) as Hm.
  pose proof (Z.div_mod y 128 ltac:(lia)) as Hdm.
  assert (0 <= y / 128) by (apply Z.div_pos; lia).
  rewrite u64_small by (rewrite Z.shiftl_mul_pow2 by lia; nia).
  rewrite Z_lor_add_shift by lia. rewrite E. split; nia.
Qed.

Lemma decode_last x y i :
  0 <= i -> 0 <= y -> 0 <= x < 2 ^ (7 * i) -> x + y * 2 ^ (7 * i) < 2 ^ 64 ->
  Z.lor x (u64 (Z.shiftl y (7 * i))) = x + y * 2 ^ (7 * i).
Proof.
  intros. rewrite u64_small by (rewrite Z.shiftl_mul_pow2 by lia; nia).
  by rewrite Z_lor_add_shift by lia.
Qed.

(** In range, the tenth byte is at most 1 and there is no eleventh. *)
Lemma decode_index x y i :
  0 <= i -> 0 <= x -> x + y * 2 ^ (7 * i) < 2 ^ 64 ->
  (1 <= y -> i <= 9) /\ (128 <= y -> i <= 8) /\ (1 < y -> i <> 9).
Proof.
  intros Hi Hx H. assert (y * 2 ^ (7 * i) < 2 ^ 64) by lia. repeat split; intros.
  - assert (7 * i < 64) by (apply (pow_exponent_le y); lia). lia.
  - assert (7 * i + 7 < 64); [|lia]. apply (pow_exponent_le 1); [lia..|].
    rewrite Z.pow_add_r by lia. nia.
  - intros ->. lia.
Qed.

Lemma Uvarint_loop_spec y : 0 <= y -> forall rest i x,
  0 <= i <= 9 -> 0 <= x < 2 ^ (7 * i) -> x + y * 2 ^ (7 * i) < 2 ^ 64 ->
  Uvarint_loop (uvarint y ++ rest) i x (7 * i)
  = (x + y * 2 ^ (7 * i), i + zlen (uvarint y)).
Proof.
  revert y. apply (uvarint_ind (fun y => forall rest i x, _ -> _ -> _ -> _)).
  - intros y Hy rest i x Hi Hx Hlt. destruct (decode_index x y i) as (_ & _ & H9); [lia..|].
    rewrite uvarint_small by done. simpl.
    rewrite (decide_False (P := i = _)) by (unfold MaxVarintLen64; lia).
    rewrite (decide_True (P := y < 128)) by lia.
    rewrite decide_False by (unfold MaxVarintLen64; lia).
    by rewrite decode_last by lia.
  - intros y Hy IH rest i x Hi Hx Hlt. destruct (decode_index x y i) as (_ & H8 & _); [lia..|].
    specialize (H8 Hy). destruct (decode_step x y i) as [Hx' Heq]; [lia..|].
    pose proof (Z.mod_pos_bound y 128 ltac:(lia)).
    rewrite uvarint_big, zlen_cons by done. simpl.
    rewrite (decide_False (P := i = _)) by (unfold MaxVarintLen64; lia).
    rewrite (decide_False (P := _ < 128)) by lia.
    rewrite land_7f, <- Z.add_mod_idemp_r, Z.mod_same, Z.add_0_r, Z.mod_mod by lia.
    replace (7 * i + 7) with (7 * (i + 1)) by lia.
    rewrite IH by lia. f_equal; lia.
Qed.

Lemma ReadUvarint_loop_spec y : 0 <= y -> forall k rest e i x,
  0 <= i <= 9 -> 10 <= Z.of_nat k + i -> 0 <= x < 2 ^ (7 * i) -> x + y * 2 ^ (7 * i) < 2 ^ 64 ->
  ReadUvarint_loop k i x (7 * i) (mkReader (uvarint y ++ rest) e)
  = ((x + y * 2 ^ (7 * i), None), mkReader rest e).
Proof.
  revert y. apply (uvarint_ind (fun y => forall k rest e i x, _ -> _ -> _ -> _ -> _)).
  - intros y Hy [|k] rest e i x Hi Hk Hx Hlt; [lia|].
    destruct (decode_index x y i) as (_ & _ & H9); [lia..|].
    rewrite uvarint_small by done. simpl.
    rewrite (decide_True (P := y < 128)) by lia.
    rewrite decide_False by (unfold MaxVarintLen64; lia).
    by rewrite decode_last by lia.
  - intros y Hy IH [|k] rest e i x Hi Hk Hx Hlt; [lia|].
    destruct (decode_index x y i) as (_ & H8 & _); [lia..|].
    specialize (H8 Hy). destruct (decode_step x y i) as [Hx' Heq]; [lia..|].
    pose proof (Z.mod_pos_bound y 128 ltac:(lia)).
    rewrite uvarint_big by done. simpl.
    rewrite (decide_False (P := _ < 128)) by lia.
    rewrite land_7f, <- Z.add_mod_idemp_r, Z.mod_same, Z.add_0_r, Z.mod_mod by lia.
    replace (7 * i + 7) with (7 * (i + 1)) by lia.
    rewrite IH by lia. by rewrite Heq.
Qed.

Lemma Uvarint_spec y rest :
  0 <= y < 2 ^ 64 -> Uvarint (uvarint y ++ rest) = (y, zlen (uvarint y)).
Proof.
  intros. pose proof (Uvarint_loop_spec y ltac:(lia) rest 0 0 ltac:(lia)) as E.
  rewrite Z.mul_0_r in E. unfold Uvarint. rewrite E by lia. f_equal; lia.
Qed.

Lemma ReadUvarint_spec y rest e :
  0 <= y < 2 ^ 64 ->
  ReadUvarint (mkReader (uvarint y ++ rest) e) = ((y, None), mkReader rest e).
Proof.
  intros. pose proof (ReadUvarint_loop_spec y ltac:(lia) 10 rest e 0 0 ltac:(lia)) as E.
  rewrite Z.mul_0_r in E. unfold ReadUvarint. change (Z.to_nat MaxVarintLen64) with 10%nat.
  rewrite E by lia. do 3 f_equal. lia.
Qed.

Definition read_uvarint (r : reader) : result Z * reader := value_or_error (ReadUvarint r).

(** Varints as the codec other components build on. *)
#[export] Instance uvarint_codec :
  Codec Z (fun x => 0 <= x < 2 ^ 64) uvarint read_uvarint.
Proof.
  split.
  - intros x Hx. apply uvarint_bytes. lia.
  - intros x rest e Hx. unfold read_uvarint. by rewrite ReadUvarint_spec.
Qed.

(** ** Zig-zag *)

Lemma zigzag_spec x :
  - 2 ^ 63 <= x < 2 ^ 63 -> zigzag x = if decide (x < 0) then - 2 * x - 1 else 2 * x.
Proof.
  intros Hx. unfold zigzag. rewrite Z.shiftl_mul_pow2 by lia. unfold u64.
  rewrite Z.mul_mod_idemp_l by lia. case_decide.
  - replace (x * 2 ^ 1) with (2 * x + 2 ^ 64 + (-1) * 2 ^ 64) by lia.
    rewrite Z.mod_add, Z.mod_small by lia. rewrite Z_lxor_ones; lia.
  - rewrite Z.mod_small; lia.
Qed.

Lemma zigzag_range x : - 2 ^ 63 <= x < 2 ^ 63 -> 0 <= zigzag x < 2 ^ 64.
Proof. intros. rewrite zigzag_spec by done. case_decide; lia. Qed.

Lemma land1 x : Z.land x 1 = x mod 2.
Proof. apply (Z_land_ones' x 1). lia. Qed.

Lemma unzigzag_zigzag x : - 2 ^ 63 <= x < 2 ^ 63 -> unzigzag (zigzag x) = x.
Proof.
  intros Hx. rewrite zigzag_spec by done. unfold unzigzag.
  rewrite land1, Z.shiftr_div_pow2 by lia. change (2 ^ 1) with 2. unfold Z.lnot.
  destruct (decide (x < 0)).
  - replace (- 2 * x - 1) with (1 + (- x - 1) * 2) by lia.
    rewrite Z_mod_plus_full, Z.div_add by lia. change (1 / 2) with 0. change (1 mod 2) with 1.
    rewrite decide_True by done. rewrite i64_small; lia.
  - replace (2 * x) with (x * 2) by lia. rewrite Z.mod_mul, Z.div_mul by lia.
    rewrite decide_False by (intros []; done). rewrite i64_small; lia.
Qed.

(** ** Signed varints *)

Lemma AppendVarint_spec buf x :
  - 2 ^ 63 <= x < 2 ^ 63 -> AppendVarint buf x = Val (buf ++ uvarint (zigzag x)).
Proof. intros. apply AppendUvarint_spec. by apply zigzag_range. Qed.

Lemma Varint_spec x rest :
  - 2 ^ 63 <= x < 2 ^ 63 ->
  Varint (uvarint (zigzag x) ++ rest) = (x, zlen (uvarint (zigzag x))).
Proof.
  intros. unfold Varint. rewrite Uvarint_spec by (by apply zigzag_range).
  by rewrite unzigzag_zigzag.
Qed.

Lemma ReadVarint_spec x rest e :
  - 2 ^ 63 <= x < 2 ^ 63 ->
  ReadVarint (mkReader (uvarint (zigzag x) ++ rest) e) = ((x, None), mkReader rest e).
Proof.
  intros. unfold ReadVarint. rewrite ReadUvarint_spec by (by apply zigzag_range).
  by rewrite unzigzag_zigzag.
Qed.

(** ** UvarintLen against the real length *)

Lemma uvarint_length_exact n x :
  2 ^ (7 * Z.of_nat n) <= x < 2 ^ (7 * Z.of_nat (S n)) -> length (uvarint x) = S n.
Proof.
  intros [H1 H2]. pose proof (uvarint_length_gt n x H1).
  assert (0 < 2 ^ (7 * Z.of_nat n)) by (apply Z.pow_pos_nonneg; lia).
  pose proof (uvarint_length_le (S n) x ltac:(lia) ltac:(lia)). lia.
Qed.

Lemma UvarintLen_upto x : 0 <= x < 2 ^ 56 -> UvarintLen x = zlen (uvarint x).
Proof.
  intros Hx. unfold UvarintLen, zlen.
  repeat match goal with
  | |- context [Z.shiftl 1 ?k] =>
      let t := eval vm_compute in (Z.shiftl 1 k) in change (Z.shiftl 1 k) with t
  end.
  repeat case_decide.
  - rewrite uvarint_small; [done|]. lia.
  - rewrite (uvarint_length_exact 1); simpl in *; lia.
  - rewrite (uvarint_length_exact 2); simpl in *; lia.
  - rewrite (uvarint_length_exact 3); simpl in *; lia.
  - rewrite (uvarint_length_exact 4); simpl in *; lia.
  - rewrite (uvarint_length_exact 5); simpl in *; lia.
  - rewrite (uvarint_length_exact 6); simpl in *; lia.
  - rewrite (uvarint_length_exact 7); simpl in *; lia.
Qed.

Lemma UvarintLen_le_8 x : UvarintLen x <= 8.
Proof. unfold UvarintLen. repeat case_decide; lia. Qed.

(** ** Agreement of the slice and the stream decoder *)

(** The error of a failed read: overflow as soon as ten bytes were available,
    io.EOF only when no byte was read at all. *)
Definition uvarint_error (k : nat) (i : Z) (bs : list Z) : error :=
  if decide (k <= length bs)%nat then errOverflow
  else if decide (bs = [] /\ i = 0) then EOF else ErrUnexpectedEOF.

Lemma Uvarint_ReadUvarint_loop bs : bytes_ok bs -> forall k i x s,
  0 <= i -> Z.of_nat k + i = 10 ->
  let uv := Uvarint_loop bs i x s in
  let rd := ReadUvarint_loop k i x s (mkReader bs EOF) in
  (i < uv.2 <= 10 /\ rd = ((uv.1, None), mkReader (drop (Z.to_nat (uv.2 - i)) bs) EOF))
  \/ (uv.2 <= 0 /\ uv.1 = 0 /\ rd.1.2 = Some (uvarint_error k i bs)).
Proof.
  unfold uvarint_error, MaxVarintLen64.
  induction 1 as [|b bs Hb Hbs IH]; intros k i x s Hi Hk; simpl.
  - right. split_and!; [done..|]. simpl.
    assert (i > 0 \/ i = 0) as [? | ->] by lia;
      destruct k as [|k]; simpl; repeat case_decide; (done || lia || tauto || naive_solver).
  - unfold MaxVarintLen64. destruct (decide (i = 10)) as [->|Hne].
    + assert (k = O) as -> by lia. right. simpl. split_and!; (done || lia).
    + destruct k as [|k]; [lia|]. simpl. unfold MaxVarintLen64.
      destruct (decide (b < 0x80)); [destruct (decide (i = 10 - 1 /\ b > 1))|].
      * right. simpl. split_and!; [lia|done|]. rewrite decide_True by lia. done.
      * left. cbn [fst snd]. split; [lia|].
        by replace (Z.to_nat (i + 1 - i)) with 1%nat by lia.
      * destruct (IH k (i + 1) (Z.lor x (u64 (Z.shiftl (Z.land b 0x7f) s))) (s + 7))
          as [[H1 H2]|(H1 & H2 & H3)]; [lia..| |].
        -- left. split; [lia|]. rewrite H2. do 2 f_equal.
           replace (Z.to_nat ((Uvarint_loop bs (i + 1) _ _).2 - i)) with
             (S (Z.to_nat ((Uvarint_loop bs (i + 1) (Z.lor x (u64 (Z.shiftl (Z.land b 0x7f) s)))
               (s + 7)).2 - (i + 1)))) by lia. done.
        -- right. split_and!; [done..|]. rewrite H3. f_equal.
           repeat case_decide; (done || lia || destruct_and!; (done || lia)).
Qed.

(** ** Properties *)

(** C28: every 64-bit value written by AppendUvarint, PutUvarint or WriteUvarint
    is the same byte string of at most ten bytes, and both Uvarint and
    ReadUvarint read exactly that value back and stop right behind it. *)
Theorem uvarint_roundtrip x buf w rest e :
  0 <= x < 2 ^ 64 -> (10 <= length buf)%nat -> (10 <= w_room w)%nat ->
  let enc := uvarint x in
  AppendUvarint buf x = Val (buf ++ enc)
  /\ PutUvarint x buf = Val (zlen enc, enc ++ drop (length enc) buf)
  /\ WriteUvarint x w
     = Val ((zlen enc, None), mkWriter (w_out w ++ enc) (w_room w - length enc) (w_err w))
  /\ bytes_ok enc /\ zlen enc <= 10
  /\ Uvarint (enc ++ rest) = (x, zlen enc)
  /\ ReadUvarint (mkReader (enc ++ rest) e) = ((x, None), mkReader rest e).
Proof.
  intros Hx Hbuf Hw. cbv zeta.
  assert (length (uvarint x) <= 10)%nat by (apply uvarint_length_le; simpl; lia).
  split_and!.
  - by apply AppendUvarint_spec.
  - apply PutUvarint_spec; unfold zlen; lia.
  - unfold WriteUvarint. rewrite WriteUvarint_loop_spec by (simpl; lia).
    rewrite WriteBytes_room, decide_True, Nat.min_l by lia. done.
  - apply uvarint_bytes. lia.
  - unfold zlen. lia.
  - by apply Uvarint_spec.
  - by apply ReadUvarint_spec.
Qed.

Lemma uvarint_roundtrip_witness :
  0 <= 624485 < 2 ^ 64 /\ uvarint 624485 = [0xE5; 0x8E; 0x26]
  /\ AppendUvarint (replicate 10 0) 624485 = Val (replicate 10 0 ++ uvarint 624485).
Proof.
  split_and!; [lia|lia|vm_compute; reflexivity|].
  apply (uvarint_roundtrip 624485 (replicate 10 0) (mkWriter [] 10 EOF) [1] EOF);
    [lia|simpl; lia|simpl; lia].
Defined.

(** every int64 survives the zig-zag varint encoding, through the slice and
    the stream decoder alike. *)
Theorem varint_roundtrip x rest e :
  - 2 ^ 63 <= x < 2 ^ 63 ->
  exists enc, AppendVarint [] x = Val enc /\ zlen enc <= 10
    /\ Varint (enc ++ rest) = (x, zlen enc)
    /\ ReadVarint (mkReader (enc ++ rest) e) = ((x, None), mkReader rest e).
Proof.
  intros Hx. pose proof (zigzag_range x Hx). exists (uvarint (zigzag x)). split_and!.
  - by apply AppendVarint_spec.
  - cut (length (uvarint (zigzag x)) <= 10)%nat; [unfold zlen; lia|].
    apply uvarint_length_le; simpl; lia.
  - by apply Varint_spec.
  - by apply ReadVarint_spec.
Qed.

Lemma varint_roundtrip_witness :
  exists enc, AppendVarint [] (-123456) = Val enc /\ zlen enc <= 10
    /\ Varint (enc ++ [7]) = (-123456, zlen enc)
    /\ ReadVarint (mkReader (enc ++ [7]) EOF) = ((-123456, None), mkReader [7] EOF).
Proof. apply varint_roundtrip. lia. Defined.

(** on every byte string the stream decoder and the slice decoder agree: they
    accept the same inputs with the same value and length, and when Uvarint
    reports failure ReadUvarint returns the overflow error if ten bytes were
    there, io.EOF on an empty stream and io.ErrUnexpectedEOF otherwise. *)
Theorem uvarint_decoders_agree bs :
  bytes_ok bs ->
  let '(v, n) := Uvarint bs in
  if decide (0 < n) then
    n <= 10
    /\ ReadUvarint (mkReader bs EOF) = ((v, None), mkReader (drop (Z.to_nat n) bs) EOF)
  else v = 0 /\ (ReadUvarint (mkReader bs EOF)).1.2 = Some (uvarint_error 10 0 bs).
Proof.
  intros Hbs. destruct (Uvarint_ReadUvarint_loop bs Hbs 10 0 0 0) as [[H1 H2]|(H1 & H2 & H3)];
    [lia..| |]; unfold ReadUvarint, Uvarint in *; change (Z.to_nat MaxVarintLen64) with 10%nat;
    destruct (Uvarint_loop bs 0 0 0) as [v n]; cbn [fst snd] in *.
  - rewrite decide_True by lia. split; [lia|]. by rewrite Z.sub_0_r in H2.
  - by rewrite decide_False by lia.
Qed.

Lemma uvarint_decoders_agree_witness :
  bytes_ok [0x80; 0x80] /\ (ReadUvarint (mkReader [0x80; 0x80] EOF)).1.2 = Some ErrUnexpectedEOF.
Proof.
  split; [repeat constructor; lia|].
  apply (uvarint_decoders_agree [0x80; 0x80]); repeat constructor; lia.
Defined.

(** UvarintLen is the encoded length exactly for values below 2^56; from
    there on it answers 8 although nine or ten bytes are written, and
    rw.WriteUVariant, which encodes into an eight-byte array, panics on exactly
    those values. *)
Theorem uvarint_len_bound x w :
  0 <= x < 2 ^ 64 ->
  (UvarintLen x = zlen (uvarint x) <-> x < 2 ^ 56)
  /\ (WriteUVariant x w = Panic <-> 2 ^ 56 <= x)
  /\ (x < 2 ^ 56 -> WriteUVariant x w = Val (WriteBytes (uvarint x) w)).
Proof.
  intros Hx.
  assert (x < 2 ^ 56 -> WriteUVariant x w = Val (WriteBytes (uvarint x) w)) as Hok.
  { intros Hlt. assert (length (uvarint x) <= 8)%nat by (apply uvarint_length_le; simpl; lia).
    unfold WriteUVariant. rewrite PutUvarint_spec by (unfold zlen; simpl; lia).
    unfold zlen. by rewrite Nat2Z.id, take_app_length. }
  assert (2 ^ 56 <= x -> (8 < length (uvarint x))%nat) as Hlong by apply (uvarint_length_gt 8 x).
  split_and!; [split| |done].
  - intros E. destruct (decide (x < 2 ^ 56)); [done|]. pose proof (UvarintLen_le_8 x).
    unfold zlen in E. lia.
  - intros. apply UvarintLen_upto. lia.
  - split; intros H.
    + destruct (decide (2 ^ 56 <= x)); [done|]. rewrite Hok in H by lia. done.
    + unfold WriteUVariant, PutUvarint. rewrite PutUvarint_loop_panic; [done|simpl; lia|lia|].
      unfold zlen. specialize (Hlong H). simpl. lia.
Qed.

Lemma uvarint_len_bound_witness :
  (UvarintLen (2 ^ 63) = zlen (uvarint (2 ^ 63)) <-> 2 ^ 63 < 2 ^ 56)
  /\ (WriteUVariant (2 ^ 63) (mkWriter [] 16 EOF) = Panic <-> 2 ^ 56 <= 2 ^ 63).
Proof. split; apply (uvarint_len_bound (2 ^ 63) (mkWriter [] 16 EOF)); lia. Defined.
