(* ===== verification/Succinct.v ===== *)
(** * The succinct string set: common/domain/set.go

    A trie laid out in breadth-first order: [labelBitmap] holds for every node
    one 0 per child and then a 1, [labels] the bytes of the edges, [leaves] one
    bit per node; [ranks] and [selects] are indexes that answer rank and select
    queries on [labelBitmap].  Words are uint64, positions int, the indexes
    int32.  The model follows the code array access by array access: an index
    out of range panics. *)

From S2P Require Import Prelude GoBits GoIO Varint.
#[local] Open Scope go_scope.

Definition idx {A} (l : list A) (i : Z) : outcome A :=
  match at_ l i with Some a => Val a | None => Panic end.

Record succinctSet := mkSet {
  leaves : list Z; labelBitmap : list Z; labels : list Z; ranks : list Z; selects : list Z }.

(** ** Bitmaps *)

(** The loop of setBit appends words until [i>>6] is an index; [i] is never negative. *)
Definition setBit (bm : list Z) (i v : Z) : list Z :=
  let w := Z.shiftr i 6 in
  let bm := bm ++ replicate (Z.to_nat (w + 1 - zlen bm)) 0 in
  alter (fun x => Z.lor x (u64 (Z.shiftl (u64 v) (Z.land i 63)))) (Z.to_nat w) bm.

Definition getBit (bm : list Z) (i : Z) : outcome Z :=
  let! w := idx bm (Z.shiftr i 6) in Val (Z.land w (Z.shiftl 1 (Z.land i 63))).

(** [mask] and [rMaskUpto] of initMasks. *)
Definition mask (i : Z) : Z := u64 (Z.shiftl 1 i - 1).
Definition rMaskUpto (i : Z) : Z := Z.lxor (u64 (Z.shiftl 1 (i + 1) - 1)) (2 ^ 64 - 1).

(** initSelectLookup: entry [8*w+j] is the position of the j-th one of the byte
    [w], 8 if there is none. *)
Fixpoint select_row (k : nat) (w : Z) : list Z :=
  match k with
  | O => []
  | S k' => TrailingZeros8 w :: select_row k' (Z.land w (u8 (w - 1)))
  end.
Definition select8Lookup : list Z := flat_map (fun i => select_row 8 (Z.of_nat i)) (seq 0 256).

(** ** The indexes *)

Fixpoint indexRank64_from (n : Z) (words : list Z) : list Z :=
  match words with
  | [] => [n]
  | w :: words => n :: indexRank64_from (i32 (n + OnesCount64 w)) words
  end.
(** indexRank64 with its trailing entry, the way it is called. *)
Definition indexRank64 (words : list Z) : list Z := indexRank64_from 0 words.

(** The positions of the ones number 0, 32, 64, ... *)
Fixpoint indexSelect_from (k : nat) (i ith : Z) (words : list Z) : outcome (list Z) :=
  match k with
  | O => Val []
  | S k' =>
      let! b := getBit words i in
      if decide (b <> 0) then
        let ith := ith + 1 in
        let! rest := indexSelect_from k' (i + 1) ith words in
        Val (if decide (Z.land ith 31 = 0) then i32 i :: rest else rest)
      else indexSelect_from k' (i + 1) ith words
  end.
Definition indexSelect32R64 (words : list Z) : outcome (list Z * list Z) :=
  let! sidx := indexSelect_from (64 * length words) 0 (-1) words in
  Val (sidx, indexRank64 words).

(** [ss.init()]. *)
Definition init (leaves labelBitmap labels : list Z) : outcome succinctSet :=
  let! p := indexSelect32R64 labelBitmap in
  Val (mkSet leaves labelBitmap labels (snd p) (fst p)).

(** ** Rank and select *)

(** The number of ones before position [i], and bit [i]. *)
Definition rank64 (words rindex : list Z) (i : Z) : outcome (Z * Z) :=
  let wordI := Z.shiftr i 6 in
  let j := Z.land i 63 in
  let! n := idx rindex wordI in
  let! w := idx words wordI in
  Val (i32 (n + OnesCount64 (Z.land w (mask j))), Z.land (i32 (Z.shiftr w j)) 1).

(** [for ; rankIndex[wordI+1] <= i; wordI++ {}]. *)
Fixpoint find_word (fuel : nat) (rankIndex : list Z) (i wordI : Z) : outcome Z :=
  match fuel with
  | O => OutOfFuel
  | S f =>
      let! r := idx rankIndex (wordI + 1) in
      if decide (r <= i) then find_word f rankIndex i (wordI + 1) else Val wordI
  end.

(** The position of the [findIth]-th one in the word [ww]. *)
Definition select_word (ww findIth : Z) : outcome Z :=
  let ones := OnesCount32 (u32 ww) in
  let '(findIth, offset, ww) :=
    if decide (ones <= findIth) then (findIth - ones, 32, Z.shiftr ww 32) else (findIth, 0, ww) in
  let ones := OnesCount16 (u16 ww) in
  let '(findIth, offset, ww) :=
    if decide (ones <= findIth) then (findIth - ones, Z.lor offset 16, Z.shiftr ww 16) else (findIth, offset, ww) in
  let ones := OnesCount8 (u8 ww) in
  if decide (ones <= findIth) then
    let! p := idx select8Lookup (Z.lor (Z.land (Z.shiftr ww 5) 0x7f8) (u64 (findIth - ones))) in
    Val (p + offset + 8)
  else
    let! p := idx select8Lookup (Z.lor (Z.shiftl (Z.land ww 0xff) 3) (u64 findIth)) in
    Val (p + offset).

(** [for ; wordI < l; wordI++]: the next one after the word [wordI]. *)
Fixpoint next_one (k : nat) (words : list Z) (wordI : Z) : outcome Z :=
  match k with
  | O => Val (Z.shiftl (zlen words) 6)
  | S k' =>
      let! w := idx words wordI in
      if decide (w <> 0) then Val (Z.shiftl wordI 6 + TrailingZeros64 w) else next_one k' words (wordI + 1)
  end.

(** The position of the [i]-th one and of the one after it. *)
Definition select32R64 (words selectIndex rankIndex : list Z) (i : Z) : outcome (Z * Z) :=
  let! s := idx selectIndex (Z.shiftr i 5) in
  let! wordI := find_word (length rankIndex) rankIndex i (Z.shiftr s 6) in
  let! w := idx words wordI in
  let base := Z.shiftl wordI 6 in
  let! r := idx rankIndex wordI in
  let! p := select_word w (i - r) in
  let a := i32 (p + base) in
  let w := Z.land w (rMaskUpto (Z.land a 63)) in
  if decide (w <> 0) then Val (a, base + TrailingZeros64 w)
  else
    let! b := next_one (Z.to_nat (zlen words - (wordI + 1))) words (wordI + 1) in
    Val (a, b).

Definition countZeros (bm ranks : list Z) (i : Z) : outcome Z :=
  let! p := rank64 bm ranks (i32 i) in Val (i - fst p).
Definition selectIthOne (bm ranks selects : list Z) (i : Z) : outcome Z :=
  let! p := select32R64 bm selects ranks (i32 i) in Val (fst p).

(** ** Building the set *)

(** A pending node: the keys number [q_s] to [q_e], all with the same first
    [q_col] bytes. *)
Record qElt := mkElt { q_s : Z; q_e : Z; q_col : Z }.
Record builder := mkBuilder {
  bd_leaves : list Z; bd_bitmap : list Z; bd_labels : list Z; bd_queue : list qElt; bd_lIdx : Z }.

Definition char_at (keys : list (list Z)) (j col : Z) : outcome Z :=
  let! k := idx keys j in idx k col.

(** [for ; j < elt.e && keys[j][elt.col] == keys[frm][elt.col]; j++ {}]. *)
Fixpoint run_end (fuel : nat) (keys : list (list Z)) (frm e col j : Z) : outcome Z :=
  match fuel with
  | O => OutOfFuel
  | S f =>
      if decide (j < e) then
        let! a := char_at keys j col in
        let! b := char_at keys frm col in
        if decide (a = b) then run_end f keys frm e col (j + 1) else Val j
      else Val j
  end.

(** [for j := elt.s; j < elt.e; ]: one child per run of equal bytes. *)
Fixpoint emit_children (fuel : nat) (keys : list (list Z)) (e col j : Z) (bd : builder) : outcome builder :=
  match fuel with
  | O => OutOfFuel
  | S f =>
      if decide (j < e) then
        let! j' := run_end (S (Z.to_nat (e - j))) keys j e col j in
        let! c := char_at keys j col in
        emit_children f keys e col j'
          (mkBuilder (bd_leaves bd) (setBit (bd_bitmap bd) (bd_lIdx bd) 0) (bd_labels bd ++ [c])
             (bd_queue bd ++ [mkElt j j' (col + 1)]) (bd_lIdx bd + 1))
      else Val bd
  end.

(** The body of the loop over the queue. *)
Definition visit (keys : list (list Z)) (i : Z) (elt : qElt) (bd : builder) : outcome builder :=
  let! k := idx keys (q_s elt) in
  let '(s, leaves) := if decide (q_col elt = zlen k) then (q_s elt + 1, setBit (bd_leaves bd) i 1)
                      else (q_s elt, bd_leaves bd) in
  let! bd := emit_children (S (Z.to_nat (q_e elt - s))) keys (q_e elt) (q_col elt) s
               (mkBuilder leaves (bd_bitmap bd) (bd_labels bd) (bd_queue bd) (bd_lIdx bd)) in
  Val (mkBuilder (bd_leaves bd) (setBit (bd_bitmap bd) (bd_lIdx bd) 1) (bd_labels bd) (bd_queue bd)
         (bd_lIdx bd + 1)).

Fixpoint build_loop (fuel : nat) (keys : list (list Z)) (i : Z) (bd : builder) : outcome builder :=
  match fuel with
  | O => OutOfFuel
  | S f =>
      if decide (i < zlen (bd_queue bd)) then
        let! elt := idx (bd_queue bd) i in
        let! bd := visit keys i elt bd in
        build_loop f keys (i + 1) bd
      else Val bd
  end.

(** A node per prefix of a key at most, so this many rounds are enough. *)
Definition build_fuel (keys : list (list Z)) : nat := (2 + sum_list (length <$> keys))%nat.

Definition newSuccinctSet (keys : list (list Z)) : outcome succinctSet :=
  let! bd := build_loop (build_fuel keys) keys 0 (mkBuilder [] [] [] [mkElt 0 (zlen keys) 0] 0) in
  init (bd_leaves bd) (bd_bitmap bd) (bd_labels bd).

(** ** Listing the keys *)

(** [traverse] from its loop on; [cur] is [currentKey]. *)
Fixpoint traverse_loop (fuel : nat) (ss : succinctSet) (nodeId bmIdx : Z) (cur : list Z)
    (result : list (list Z)) : outcome (list (list Z)) :=
  match fuel with
  | O => OutOfFuel
  | S f =>
      let! b := getBit (labelBitmap ss) bmIdx in
      if decide (b <> 0) then Val result
      else
        let! nextLabel := idx (labels ss) (bmIdx - nodeId) in
        let cur' := cur ++ [nextLabel] in
        let! nextNodeId := countZeros (labelBitmap ss) (ranks ss) (bmIdx + 1) in
        let! p := selectIthOne (labelBitmap ss) (ranks ss) (selects ss) (nextNodeId - 1) in
        let! leaf := getBit (leaves ss) nextNodeId in
        let! result := traverse_loop f ss nextNodeId (p + 1) cur'
                         (if decide (leaf <> 0) then result ++ [cur'] else result) in
        traverse_loop f ss nodeId (bmIdx + 1) cur result
  end.

Definition keys (ss : succinctSet) : outcome (list (list Z)) :=
  let! leaf := getBit (leaves ss) 0 in
  traverse_loop (S (64 * length (labelBitmap ss))) ss 0 0 [] (if decide (leaf <> 0) then [[]] else []).

(** ** Serialisation *)

(** binary.Read into a slice of uint64. *)
Fixpoint be_words (n : nat) (bs : list Z) : list Z :=
  match n with
  | O => []
  | S n' => unbe (take 8 bs) :: be_words n' (drop 8 bs)
  end.

(** [make] panics on a length from the wire that no slice can have. *)
Definition readUint64Slice (r : reader) : outcome (result (list Z) * reader) :=
  obindr (Val (value_or_error (ReadUvarint r))) (fun length r =>
    if decide (length = 0) then Val (Ok [], r)
    else if makeslice_ok 8 length then
      let '(bs, r) := ReadFull (Z.to_nat (8 * length)) r in
      Val (match bs with Ok bs => Ok (be_words (Z.to_nat length) bs) | Err e => Err e end, r)
    else Panic).

Definition readByteSlice (r : reader) : outcome (result (list Z) * reader) :=
  obindr (Val (value_or_error (ReadUvarint r))) (fun length r =>
    if decide (length = 0) then Val (Ok [], r)
    else if makeslice_ok 1 length then Val (ReadFull (Z.to_nat length) r)
    else Panic).

Definition readSuccinctSet (r : reader) : outcome (result succinctSet * reader) :=
  obindr (Val (ReadByte r)) (fun _ r =>
  obindr (readUint64Slice r) (fun leaves r =>
  obindr (readUint64Slice r) (fun labelBitmap r =>
  obindr (readByteSlice r) (fun labels r =>
    let! ss := init leaves labelBitmap labels in Val (Ok ss, r))))).

Definition put_uvarint (x : Z) (w : writer) : outcome (option error * writer) :=
  let! p := WriteUvarint x w in let '(_, e, w) := p in Val (e, w).

Definition writeUint64Slice (value : list Z) (w : writer) : outcome (option error * writer) :=
  obindw (put_uvarint (zlen value) w) (fun w =>
    if decide (zlen value = 0) then Val (None, w) else Val (WriteBytes (flat_map (be 8) value) w)).

Definition writeByteSlice (value : list Z) (w : writer) : outcome (option error * writer) :=
  obindw (put_uvarint (zlen value) w) (fun w =>
    if decide (zlen value = 0) then Val (None, w) else Val (WriteBytes value w)).

Definition Write (ss : succinctSet) (w : writer) : outcome (option error * writer) :=
  obindw (Val (WriteByte 0 w)) (fun w =>
  obindw (writeUint64Slice (leaves ss) w) (fun w =>
  obindw (writeUint64Slice (labelBitmap ss) w) (fun w =>
    writeByteSlice (labels ss) w))).

(** A set of three keys and what traverse makes of it. *)
Example three_keys :
  (let! ss := newSuccinctSet [[97]; [97; 98]; [98; 99; 100]] in keys ss) = Val [[97]; [97; 98]; [98; 99; 100]].
Proof. vm_compute. reflexivity. Qed.
