(* ===== verification/SuccinctBits.v ===== *)
(** * Bitmaps, rank and select

    A bitmap read as a list of booleans: setBit and getBit act on it as update
    and lookup, rank64 counts the ones of a prefix and select32R64 finds the
    [i]-th one, as long as the positions fit int32. *)

From S2P Require Import Prelude GoBits Succinct.

Definition word_bits (w : Z) : list bool := (fun k => Z.testbit w (Z.of_nat k)) <$> seq 0 64.
Definition bits_of (ws : list Z) : list bool := ws ≫= word_bits.
Definition is_word (w : Z) : Prop := 0 <= w < 2 ^ 64.

Fixpoint ones (bs : list bool) : Z :=
  match bs with [] => 0 | b :: bs => Z.b2z b + ones bs end.

(** Bit [p] is the one number [k]. *)
Definition is_one (bs : list bool) (p : nat) (k : Z) : Prop := bs !! p = Some true /\ ones (take p bs) = k.

(** ** Counting *)

Lemma ones_app b1 b2 : ones (b1 ++ b2) = ones b1 + ones b2.
Proof. induction b1 as [|b b1 IH]; cbn; lia. Qed.

Lemma ones_bound bs : 0 <= ones bs <= zlen bs.
Proof.
  induction bs as [|b bs IH]; [done|]. rewrite zlen_cons. cbn [ones]. destruct b; cbn [Z.b2z]; lia.
Qed.

Lemma ones_take_S bs p b : bs !! p = Some b -> ones (take (S p) bs) = ones (take p bs) + Z.b2z b.
Proof. intros Hb. rewrite (take_S_r _ _ _ Hb), ones_app. cbn. lia. Qed.

Lemma ones_take_mono bs p q : (p <= q)%nat -> ones (take p bs) <= ones (take q bs).
Proof.
  intros Hpq. rewrite <- (take_drop p (take q bs)), ones_app, take_take, Nat.min_l by done.
  pose proof (ones_bound (drop p (take q bs))). lia.
Qed.

Lemma ones_take_le bs p : ones (take p bs) <= ones bs.
Proof. rewrite <- (take_drop p bs) at 2. rewrite ones_app. pose proof (ones_bound (drop p bs)). lia. Qed.

Lemma is_one_lt bs p k : is_one bs p k -> k < ones bs.
Proof.
  intros [Hp <-]. apply Z.lt_le_trans with (ones (take (S p) bs)); [|apply ones_take_le].
  rewrite (ones_take_S bs p true Hp). cbn. lia.
Qed.

Lemma is_one_unique bs p q k : is_one bs p k -> is_one bs q k -> p = q.
Proof.
  assert (forall p q, is_one bs p k -> is_one bs q k -> ~ (p < q)%nat) as Hlt.
  { intros p' q' [Hp <-] [_ Hq] Hlt. pose proof (ones_take_mono bs (S p') q' ltac:(lia)) as Hm.
    rewrite (ones_take_S bs p' true Hp) in Hm. cbn in Hm. lia. }
  intros Hp Hq. pose proof (Hlt p q Hp Hq). pose proof (Hlt q p Hq Hp). lia.
Qed.

Lemma is_one_exists bs k : 0 <= k < ones bs -> exists p, is_one bs p k.
Proof.
  revert k. induction bs as [|b bs IH]; intros k Hk; cbn in Hk; [lia|]. destruct (decide (Z.b2z b = 1 /\ k = 0)) as [[Hb ->]|Hn].
  - exists 0%nat. by destruct b.
  - destruct (IH (k - Z.b2z b)) as (p & Hp & Hc); [destruct b; cbn in *; lia|].
    exists (S p). split; [done|]. cbn. lia.
Qed.

(** ** Words *)

Lemma length_word_bits w : length (word_bits w) = 64%nat.
Proof. unfold word_bits. by rewrite length_fmap, length_seq. Qed.

Lemma word_bits_lookup w k : (k < 64)%nat -> word_bits w !! k = Some (Z.testbit w (Z.of_nat k)).
Proof. intros. unfold word_bits. rewrite list_lookup_fmap, lookup_seq_lt by done. done. Qed.

Lemma word_bits_count w k : (k <= 64)%nat -> ones (take k (word_bits w)) = popcount k w.
Proof.
  induction k as [|k IH]; intros Hk; [done|].
  rewrite (ones_take_S _ _ _ (word_bits_lookup w k ltac:(lia))), IH, popcount_S by lia. done.
Qed.

Lemma bits_of_cons w ws : bits_of (w :: ws) = word_bits w ++ bits_of ws.
Proof. done. Qed.

Lemma length_bits_of ws : length (bits_of ws) = (64 * length ws)%nat.
Proof.
  induction ws as [|w ws IH]; [done|]. rewrite bits_of_cons, length_app, length_word_bits, IH. cbn [length]. lia.
Qed.

Lemma bits_of_app ws ws' : bits_of (ws ++ ws') = bits_of ws ++ bits_of ws'.
Proof. apply bind_app. Qed.

Lemma bits_of_take ws q : bits_of (take q ws) = take (64 * q) (bits_of ws).
Proof.
  destruct (decide (q <= length ws)%nat).
  - assert (length (bits_of (take q ws)) = (64 * q)%nat) as Hl by (rewrite length_bits_of, length_take; lia).
    rewrite <- (take_drop q ws) at 2. by rewrite bits_of_app, <- Hl, take_app_length.
  - rewrite !take_ge; [done| |lia]. rewrite length_bits_of. lia.
Qed.

(** The bit number [64*q+r] and the ones before it. *)
Lemma bits_of_lookup ws q r w :
  ws !! q = Some w -> (r < 64)%nat -> bits_of ws !! (64 * q + r)%nat = Some (Z.testbit w (Z.of_nat r)).
Proof.
  revert q. induction ws as [|v ws IH]; intros [|q] Hw Hr; try done; cbn in Hw; rewrite bits_of_cons.
  - simplify_eq. rewrite Nat.mul_0_r, lookup_app_l by (rewrite length_word_bits; lia). by apply word_bits_lookup.
  - rewrite lookup_app_r, length_word_bits by (rewrite length_word_bits; lia).
    replace (64 * S q + r - 64)%nat with (64 * q + r)%nat by lia. by apply IH.
Qed.

Lemma bits_of_count ws q r w :
  ws !! q = Some w -> (r <= 64)%nat ->
  ones (take (64 * q + r) (bits_of ws)) = ones (bits_of (take q ws)) + popcount r w.
Proof.
  intros Hw Hr. rewrite <- (take_drop_middle ws q w Hw) at 1. rewrite bits_of_app, bits_of_cons.
  assert (length (bits_of (take q ws)) = (64 * q)%nat) as Hl.
  { rewrite length_bits_of, length_take. apply lookup_lt_Some in Hw. lia. }
  rewrite take_app_ge, ones_app by lia. f_equal. rewrite Hl.
  replace (64 * q + r - 64 * q)%nat with r by lia.
  rewrite take_app_le by (rewrite length_word_bits; lia). by apply word_bits_count.
Qed.

(** A position as word and bit. *)
Lemma pos_split n : exists q r, n = (64 * q + r)%nat /\ (r < 64)%nat
  /\ Z.shiftr (Z.of_nat n) 6 = Z.of_nat q /\ Z.land (Z.of_nat n) 63 = Z.of_nat r.
Proof.
  exists (n / 64)%nat, (n mod 64)%nat. pose proof (Nat.div_mod_eq n 64) as E.
  pose proof (Nat.mod_upper_bound n 64 ltac:(lia)). split_and!; [done|done|..].
  - rewrite Z.shiftr_div_pow2, Nat2Z.inj_div by lia. done.
  - change 63 with (2 ^ 6 - 1). rewrite Z_land_ones', Nat2Z.inj_mod by lia. done.
Qed.

Lemma idx_nat {A} (l : list A) n : idx l (Z.of_nat n) = match l !! n with Some a => Val a | None => Panic end.
Proof. unfold idx, at_. rewrite decide_True by lia. by rewrite Nat2Z.id. Qed.

Lemma idx_Some {A} (l : list A) n a : l !! n = Some a -> idx l (Z.of_nat n) = Val a.
Proof. intros H. by rewrite idx_nat, H. Qed.

(** ** getBit and setBit *)

Lemma testbit_word (w : Z) (r : nat) :
  Z.land w (Z.shiftl 1 (Z.of_nat r)) = 0 <-> Z.testbit w (Z.of_nat r) = false.
Proof.
  rewrite Z.shiftl_1_l. split; intros H.
  - apply (f_equal (fun z => Z.testbit z (Z.of_nat r))) in H.
    rewrite Z.land_spec, Z.pow2_bits_true, andb_true_r, Z.bits_0 in H by lia. done.
  - apply Z.bits_inj'. intros n Hn. rewrite Z.land_spec, Z.bits_0.
    destruct (decide (n = Z.of_nat r)) as [->|Hne]; [by rewrite H|].
    rewrite (Z.pow2_bits_false (Z.of_nat r) n) by congruence. apply andb_false_r.
Qed.

Lemma getBit_spec ws n b :
  bits_of ws !! n = Some b -> exists x, getBit ws (Z.of_nat n) = Val x /\ (x = 0 <-> b = false).
Proof.
  intros Hb. destruct (pos_split n) as (q & r & -> & Hr & E1 & E2). unfold getBit. rewrite E1, E2.
  apply lookup_lt_Some in Hb as Hlt. rewrite length_bits_of in Hlt.
  destruct (lookup_lt_is_Some_2 ws q) as [w Hw]; [lia|].
  rewrite (idx_Some ws q w Hw). cbn [obind]. eexists. split; [done|].
  rewrite (bits_of_lookup ws q r w Hw Hr) in Hb. injection Hb as <-. apply testbit_word.
Qed.

(** Bit [n], 0 beyond the end. *)
Definition bit_at (ws : list Z) (n : nat) : bool := default false (bits_of ws !! n).

Lemma bits_of_zeros k : bits_of (replicate k 0) = replicate (64 * k) false.
Proof.
  induction k as [|k IH]; [done|]. cbn [replicate]. rewrite bits_of_cons, IH.
  replace (64 * S k)%nat with (64 + 64 * k)%nat by lia. by rewrite replicate_add.
Qed.

Lemma setBit_word (x : Z) (r : nat) (v : bool) n :
  (r < 64)%nat -> (n < 64)%nat ->
  Z.testbit (Z.lor x (u64 (Z.shiftl (u64 (Z.b2z v)) (Z.of_nat r)))) (Z.of_nat n)
  = Z.testbit x (Z.of_nat n) || (v && bool_decide (n = r)).
Proof.
  intros Hr Hn. rewrite Z.lor_spec. f_equal. unfold u64.
  rewrite Z.mod_pow2_bits_low by lia. destruct v; cbn [Z.b2z andb].
  - change (1 mod 2 ^ 64) with 1. rewrite Z.shiftl_1_l. case_bool_decide as E.
    + subst. by rewrite Z.pow2_bits_true by lia.
    + apply Z.pow2_bits_false. lia.
  - change (0 mod 2 ^ 64) with 0. by rewrite Z.shiftl_0_l, Z.bits_0.
Qed.

Lemma bit_at_word ws q r : (r < 64)%nat -> bit_at ws (64 * q + r) = Z.testbit (default 0 (ws !! q)) (Z.of_nat r).
Proof.
  intros Hr. unfold bit_at. destruct (ws !! q) as [w|] eqn:Hw.
  - by rewrite (bits_of_lookup ws q r w Hw Hr).
  - cbn. rewrite Z.bits_0, lookup_ge_None_2; [done|]. apply lookup_ge_None_1 in Hw. rewrite length_bits_of. lia.
Qed.

Lemma setBit_spec ws n (v : bool) :
  let ws' := setBit ws (Z.of_nat n) (Z.b2z v) in
  length ws' = Nat.max (length ws) (S (n / 64))
  /\ forall m, bit_at ws' m = bit_at ws m || (v && bool_decide (m = n)).
Proof.
  cbv zeta. unfold setBit. destruct (pos_split n) as (q & r & En & Hr & -> & ->).
  assert (n / 64 = q)%nat as Hq by (subst n; rewrite Nat.mul_comm, Nat.div_add_l, Nat.div_small; lia).
  set (ext := ws ++ replicate (Z.to_nat (Z.of_nat q + 1 - zlen ws)) 0).
  assert (length ext = Nat.max (length ws) (S (n / 64))) as Hl.
  { subst ext. unfold zlen. rewrite length_app, length_replicate, Hq. lia. }
  rewrite Nat2Z.id. split; [by rewrite length_alter|].
  assert (forall q', default 0 (ext !! q') = default 0 (ws !! q')) as Hext.
  { intros q'. subst ext. destruct (decide (q' < length ws)%nat); [by rewrite lookup_app_l|].
    rewrite (lookup_ge_None_2 ws q') by lia. rewrite lookup_app_r by lia.
    destruct (replicate _ _ !! _) eqn:E; [|done]. by apply lookup_replicate in E as [-> _]. }
  intros m. destruct (pos_split m) as (q' & r' & -> & Hr' & _). rewrite !bit_at_word by done.
  destruct (decide (q' = q)) as [->|Hne].
  - rewrite list_lookup_alter_eq, <- Hext.
    destruct (ext !! q) as [x|] eqn:E; [|apply lookup_ge_None_1 in E; lia]. cbn [fmap option_fmap option_map from_option id].
    rewrite setBit_word by done. do 2 f_equal. apply bool_decide_ext. lia.
  - rewrite list_lookup_alter_ne, Hext by done. rewrite bool_decide_false by lia. by rewrite andb_false_r, orb_false_r.
Qed.

(** ** Rank *)

Lemma indexRank_lookup ws n q :
  0 <= n -> n + 64 * zlen ws < 2 ^ 31 -> (q <= length ws)%nat ->
  indexRank64_from n ws !! q = Some (n + ones (bits_of (take q ws))).
Proof.
  revert n q. induction ws as [|w ws IH]; intros n [|q] Hn Hb Hq; cbn [length] in *; try lia.
  - cbn. f_equal. lia.
  - cbn. f_equal. lia.
  - rewrite zlen_cons in Hb. cbn [indexRank64_from lookup list_lookup take]. unfold OnesCount64.
    pose proof (popcount_bound 64 w). pose proof (zlen_nonneg ws).
    assert (i32 (n + popcount 64 w) = n + popcount 64 w) as -> by (apply i32_small; lia).
    etransitivity; [apply (IH (n + popcount 64 w) q); lia|].
    rewrite bits_of_cons, ones_app, <- (word_bits_count w 64), (take_ge (word_bits w)) by (rewrite ?length_word_bits; lia).
    f_equal. lia.
Qed.

Lemma mask_count w r : (r < 64)%nat -> OnesCount64 (Z.land w (mask (Z.of_nat r))) = popcount r w.
Proof.
  intros Hr. unfold OnesCount64, mask. replace 64%nat with (r + (64 - r))%nat by lia. rewrite popcount_add.
  assert (u64 (Z.shiftl 1 (Z.of_nat r) - 1) = 2 ^ Z.of_nat r - 1) as ->.
  { rewrite Z.shiftl_1_l. assert (2 ^ Z.of_nat r < 2 ^ 64) by (apply Z.pow_lt_mono_r; lia). apply u64_small. lia. }
  rewrite Z_land_ones' by lia. rewrite (popcount_high (64 - r)).
  - rewrite Z.add_0_r. apply popcount_ext. intros i Hi. apply Z.mod_pow2_bits_low. lia.
  - intros i Hi. rewrite Z.shiftr_spec by lia. apply Z.mod_pow2_bits_high. lia.
Qed.

Lemma rank64_spec ws n :
  64 * zlen ws < 2 ^ 31 -> (n < 64 * length ws)%nat ->
  exists b, rank64 ws (indexRank64 ws) (Z.of_nat n) = Val (ones (take n (bits_of ws)), b).
Proof.
  intros Hb Hn. destruct (pos_split n) as (q & r & -> & Hr & E1 & E2). unfold rank64, indexRank64.
  rewrite E1, E2. destruct (lookup_lt_is_Some_2 ws q) as [w Hw]; [lia|].
  rewrite (idx_Some _ _ _ (indexRank_lookup ws 0 q ltac:(lia) ltac:(lia) ltac:(lia))), (idx_Some ws q w Hw).
  cbn [obind]. rewrite mask_count by done. rewrite (bits_of_count ws q r w Hw) by lia.
  eexists. do 2 f_equal. apply i32_small.
  pose proof (ones_bound (bits_of (take q ws))) as H1. unfold zlen in H1, Hb. rewrite length_bits_of, length_take in H1.
  pose proof (popcount_bound r w). lia.
Qed.

Lemma countZeros_spec ws n :
  64 * zlen ws < 2 ^ 31 -> (n < 64 * length ws)%nat ->
  countZeros ws (indexRank64 ws) (Z.of_nat n) = Val (Z.of_nat n - ones (take n (bits_of ws))).
Proof.
  intros Hb Hn. unfold countZeros. rewrite i32_small by (unfold zlen in Hb; lia).
  destruct (rank64_spec ws n Hb Hn) as [b ->]. done.
Qed.

(** ** Select within a word *)

Definition sel (w : Z) (p : nat) (k : Z) : Prop := Z.testbit w (Z.of_nat p) = true /\ popcount p w = k.

Lemma sel_shift w a p k : sel (Z.shiftr w (Z.of_nat a)) p k -> sel w (a + p) (popcount a w + k).
Proof.
  intros [Hb <-]. split; [|by rewrite popcount_add].
  rewrite Z.shiftr_spec in Hb by lia. by rewrite Nat2Z.inj_add, Z.add_comm.
Qed.

Lemma sel_low n w p k : (p < n)%nat -> sel (w mod 2 ^ Z.of_nat n) p k -> sel w p k.
Proof.
  intros Hp [Hb <-]. rewrite Z.mod_pow2_bits_low in Hb by lia. split; [done|].
  apply popcount_ext. intros i Hi. by rewrite Z.mod_pow2_bits_low by lia.
Qed.

Lemma popcount_mod n w : popcount n (w mod 2 ^ Z.of_nat n) = popcount n w.
Proof. apply popcount_ext. intros i Hi. apply Z.mod_pow2_bits_low. lia. Qed.

(** Every entry of the table, checked by evaluation. *)
Lemma select8Lookup_entries :
  forallb (fun b => forallb (fun k =>
    if Z.of_nat k <? popcount 8 (Z.of_nat b) then
      match select8Lookup !! (8 * b + k)%nat with
      | Some p => (0 <=? p) && (p <? 8) && Z.testbit (Z.of_nat b) p
                  && (popcount (Z.to_nat p) (Z.of_nat b) =? Z.of_nat k)
      | None => false
      end
    else true) (seq 0 8)) (seq 0 256) = true.
Proof. vm_compute. reflexivity. Qed.

Lemma select8Lookup_spec b k :
  0 <= b < 256 -> 0 <= k < popcount 8 b ->
  exists p, idx select8Lookup (8 * b + k) = Val (Z.of_nat p) /\ (p < 8)%nat /\ sel b p k.
Proof.
  intros Hb Hk. pose proof select8Lookup_entries as H. rewrite forallb_forall in H.
  specialize (H (Z.to_nat b) ltac:(apply in_seq; lia)). rewrite forallb_forall in H.
  pose proof (popcount_bound 8 b).
  specialize (H (Z.to_nat k) ltac:(apply in_seq; lia)). rewrite !Z2Nat.id in H by lia.
  rewrite (proj2 (Z.ltb_lt k (popcount 8 b))) in H by lia.
  destruct (select8Lookup !! _) as [p|] eqn:E; [|done].
  apply andb_true_iff in H as [H Hc]. apply andb_true_iff in H as [H Hb']. apply andb_true_iff in H as [Hp0 Hp1].
  apply Z.leb_le in Hp0. apply Z.ltb_lt in Hp1. apply Z.eqb_eq in Hc.
  exists (Z.to_nat p). split_and!; [|lia|].
  - rewrite <- (Z2Nat.id (8 * b + k)) by lia. replace (Z.to_nat (8 * b + k)) with (8 * Z.to_nat b + Z.to_nat k)%nat by lia.
    rewrite Z2Nat.id by lia. by apply idx_Some.
  - split; [by rewrite Z2Nat.id by lia|done].
Qed.

Lemma land_shiftl_mask a b s : 0 <= s -> Z.land a (Z.shiftl b s) = Z.shiftl (Z.land (Z.shiftr a s) b) s.
Proof.
  intros Hs. apply Z.bits_inj'. intros n Hn. rewrite Z.land_spec, !Z.shiftl_spec by lia.
  destruct (decide (n < s)).
  - rewrite !(Z.testbit_neg_r _ (n - s)) by lia. by rewrite andb_false_r.
  - rewrite Z.land_spec, Z.shiftr_spec by lia. by replace (n - s + s) with n by lia.
Qed.

(** One halving step: drop the lower [n] bits when the wanted one is above. *)
Lemma halve n w k :
  0 <= k < popcount (n + n) w ->
  let ones := popcount n w in
  if decide (ones <= k) then 0 <= k - ones < popcount n (Z.shiftr w (Z.of_nat n)) else 0 <= k < popcount n w.
Proof. intros Hk. cbv zeta. rewrite popcount_add in Hk. destruct (decide _); lia. Qed.

(** The last byte. *)
Lemma select_low ww k :
  0 <= k < popcount 8 ww ->
  exists p, idx select8Lookup (Z.lor (Z.shiftl (Z.land ww 0xff) 3) (u64 k)) = Val (Z.of_nat p) /\ (p < 8)%nat /\ sel ww p k.
Proof.
  intros Hk. pose proof (popcount_bound 8 ww). rewrite u64_small by lia.
  change 0xff with (2 ^ 8 - 1). rewrite Z_land_ones', Z.lor_comm, Z_lor_add_shift by lia.
  pose proof (Z.mod_pos_bound ww (2 ^ 8) ltac:(lia)).
  destruct (select8Lookup_spec (ww mod 2 ^ 8) k) as (p & Hp & Hlt & Hs); [lia| |].
  { change (2 ^ 8) with (2 ^ Z.of_nat 8). by rewrite popcount_mod. }
  exists p. split_and!; [|done|by apply (sel_low 8)].
  rewrite <- Hp. f_equal. lia.
Qed.

Lemma select_high ww k :
  0 <= k < popcount 8 (Z.shiftr ww 8) ->
  exists p, idx select8Lookup (Z.lor (Z.land (Z.shiftr ww 5) 0x7f8) (u64 k)) = Val (Z.of_nat p) /\ (p < 8)%nat
    /\ sel (Z.shiftr ww 8) p k.
Proof.
  intros Hk. change 0x7f8 with (Z.shiftl 255 3). rewrite land_shiftl_mask, Z.shiftr_shiftr by lia.
  by apply select_low.
Qed.

Lemma select_word_spec w k :
  0 <= k < popcount 64 w ->
  exists p, select_word w k = Val (Z.of_nat p) /\ (p < 64)%nat /\ sel w p k.
Proof.
  intros Hk. unfold select_word, OnesCount32, OnesCount16, OnesCount8, u32, u16, u8.
  change (2 ^ 32) with (2 ^ Z.of_nat 32). change (2 ^ 16) with (2 ^ Z.of_nat 16). change (2 ^ 8) with (2 ^ Z.of_nat 8).
  rewrite popcount_mod.
  assert (exists a k1 w1, (if decide (popcount 32 w <= k) then (k - popcount 32 w, 32, Z.shiftr w 32) else (k, 0, w))
     = (k1, Z.of_nat a, w1) /\ (a = 0 \/ a = 32)%nat /\ w1 = Z.shiftr w (Z.of_nat a) /\ k = popcount a w + k1
     /\ 0 <= k1 < popcount 32 w1) as (a & k1 & w1 & -> & Ha & Hw1 & Hk1 & Hb1).
  { pose proof (halve 32 w k Hk) as H. cbv zeta in H. change (Z.of_nat 32) with 32 in H. destruct (decide _).
    - exists 32%nat. eexists _, _. split_and!; [done|by right|done|lia|lia..].
    - exists 0%nat. eexists _, _. split_and!; [done|by left|by rewrite Z.shiftr_0_r|done|lia..]. }
  rewrite popcount_mod.
  assert (exists b k2 w2, (if decide (popcount 16 w1 <= k1) then (k1 - popcount 16 w1, Z.lor (Z.of_nat a) 16, Z.shiftr w1 16)
       else (k1, Z.of_nat a, w1))
     = (k2, Z.of_nat (a + b), w2) /\ (b <= 16)%nat /\ w2 = Z.shiftr w1 (Z.of_nat b) /\ k1 = popcount b w1 + k2
     /\ 0 <= k2 < popcount 16 w2) as (b & k2 & w2 & -> & Hb & Hw2 & Hk2 & Hb2).
  { pose proof (halve 16 w1 k1 Hb1) as H. cbv zeta in H. change (Z.of_nat 16) with 16 in H. destruct (decide _).
    - exists 16%nat. eexists _, _. split_and!; [by destruct Ha as [-> | ->]|lia|done|lia|lia..].
    - exists 0%nat. eexists _, _. split_and!; [by rewrite Nat.add_0_r|lia|by rewrite Z.shiftr_0_r|done|lia..]. }
  assert (sel w2 = sel (Z.shiftr w (Z.of_nat (a + b)))) as Hsel.
  { by rewrite Hw2, Hw1, Z.shiftr_shiftr, Nat2Z.inj_add by lia. }
  assert (k = popcount (a + b) w + k2) as Hk3.
  { rewrite popcount_add, <- Hw1. lia. }
  rewrite popcount_mod. pose proof (halve 8 w2 k2 Hb2) as H. cbv zeta in H. change (Z.of_nat 8) with 8 in H. destruct (decide _).
  - destruct (select_high w2 _ H) as (p & -> & Hp & Hs). exists (a + b + (8 + p))%nat.
    split_and!; [cbn [obind]; f_equal; lia|destruct Ha; lia|].
    rewrite Hk3. apply sel_shift. rewrite <- Hsel.
    replace k2 with (popcount 8 w2 + (k2 - popcount 8 w2)) by lia. by apply sel_shift.
  - destruct (select_low w2 _ H) as (p & -> & Hp & Hs). exists (a + b + p)%nat.
    split_and!; [cbn [obind]; f_equal; lia|destruct Ha; lia|].
    rewrite Hk3. apply sel_shift. by rewrite <- Hsel.
Qed.

(** ** Select *)

Lemma indexSelect_spec ws k i c :
  64 * zlen ws < 2 ^ 31 -> (i + k = 64 * length ws)%nat ->
  c = (ones (take i (bits_of ws)) + 31) / 32 ->
  exists r, indexSelect_from k (Z.of_nat i) (ones (take i (bits_of ws)) - 1) ws = Val r
    /\ forall j p, c <= j -> is_one (bits_of ws) p (32 * j) -> at_ r (j - c) = Some (Z.of_nat p).
Proof.
  intros Hb. revert i c. induction k as [|k IH]; intros i c Hi Hc.
  - exists []. split; [done|]. intros j p Hj Hp%is_one_lt.
    rewrite take_ge in Hc by (rewrite length_bits_of; lia).
    pose proof (Z.div_mod (ones (bits_of ws) + 31) 32). pose proof (Z.mod_pos_bound (ones (bits_of ws) + 31) 32). lia.
  - destruct (lookup_lt_is_Some_2 (bits_of ws) i) as [b Hbit]; [rewrite length_bits_of; lia|].
    destruct (getBit_spec ws i b Hbit) as (x & Hx & Hx0).
    cbn [indexSelect_from]. rewrite Hx. cbn [obind].
    pose proof (ones_take_S _ _ _ Hbit) as HS. pose proof (ones_bound (take i (bits_of ws))) as Ho.
    replace (Z.of_nat i + 1) with (Z.of_nat (S i)) by lia.
    set (n := ones (take i (bits_of ws))) in *.
    destruct b; cbn [Z.b2z] in HS.
    + rewrite decide_True by (intros E; by apply Hx0 in E).
      destruct (IH (S i) ((n + 32) / 32) ltac:(lia) ltac:(rewrite HS; f_equal; lia)) as (r & Hr & Hspec).
      rewrite HS in Hr. replace (n + 1 - 1) with (n - 1 + 1) in Hr by lia. rewrite Hr. cbn [obind].
      replace (n - 1 + 1) with n by lia. change 31 with (2 ^ 5 - 1). rewrite Z_land_ones' by lia.
      change (2 ^ 5) with 32. pose proof (Z.div_mod n 32). pose proof (Z.mod_pos_bound n 32).
      destruct (decide (n mod 32 = 0)) as [Hz|Hz].
      * eexists. split; [done|]. assert (c = n / 32) as Ec.
        { rewrite Hc. symmetry. apply (Z.div_unique _ 32 _ 31); lia. }
        assert ((n + 32) / 32 = n / 32 + 1) as E1 by (rewrite <- (Z.div_add n 1 32) by lia; f_equal; lia).
        intros j p Hj Hp. destruct (decide (j = n / 32)) as [->|Hne].
        -- assert (p = i) as -> by (apply (is_one_unique _ _ _ _ Hp); split; [done|]; fold n; lia).
           rewrite Ec, Z.sub_diag. unfold at_. rewrite decide_True by lia.
           change (Z.to_nat 0) with 0%nat. cbn [lookup list_lookup]. f_equal. apply i32_small. unfold zlen in Hb. lia.
        -- specialize (Hspec j p ltac:(lia) Hp). unfold at_ in Hspec |- *.
           rewrite decide_True in Hspec by lia. rewrite decide_True by lia.
           replace (Z.to_nat (j - c)) with (S (Z.to_nat (j - (n + 32) / 32))) by lia. done.
      * eexists. split; [done|]. assert (c = (n + 32) / 32) as Ec.
        { transitivity (n / 32 + 1); [rewrite Hc; symmetry|]; [apply (Z.div_unique _ 32 _ (n mod 32 - 1))|
            apply (Z.div_unique _ 32 _ (n mod 32))]; lia. }
        rewrite Ec. exact Hspec.
    + rewrite decide_False by (intros E; by apply E, Hx0). rewrite Z.add_0_r in HS.
      destruct (IH (S i) c ltac:(lia) ltac:(rewrite HS; done)) as (r & Hr & Hspec). rewrite HS in Hr.
      exists r. by split.
Qed.

Lemma indexSelect32R64_spec ws :
  64 * zlen ws < 2 ^ 31 ->
  exists sidx, indexSelect32R64 ws = Val (sidx, indexRank64 ws)
    /\ forall j p, 0 <= j -> is_one (bits_of ws) p (32 * j) -> at_ sidx j = Some (Z.of_nat p).
Proof.
  intros Hb. destruct (indexSelect_spec ws (64 * length ws) 0 0 Hb ltac:(lia) eq_refl) as (r & Hr & Hspec).
  exists r. unfold indexSelect32R64. change (ones (take 0 (bits_of ws)) - 1) with (-1) in Hr.
  change (Z.of_nat 0) with 0 in Hr. rewrite Hr. split; [done|].
  intros j p Hj Hp. rewrite <- (Hspec j p Hj Hp). f_equal. lia.
Qed.

(** The ones before word [q]. *)
Definition rank_word (ws : list Z) (q : nat) : Z := ones (bits_of (take q ws)).

Lemma find_word_spec ws i fuel q :
  64 * zlen ws < 2 ^ 31 -> i < ones (bits_of ws) -> rank_word ws q <= i -> (q <= length ws)%nat ->
  (length ws < fuel + q)%nat ->
  exists q', find_word fuel (indexRank64 ws) i (Z.of_nat q) = Val (Z.of_nat q') /\ (q' < length ws)%nat
    /\ rank_word ws q' <= i < rank_word ws (S q').
Proof.
  intros Hb Hi. revert q. induction fuel as [|f IH]; intros q Hq Hle Hf; [lia|].
  assert (q < length ws)%nat as Hlt.
  { destruct (decide (q = length ws)) as [->|]; [|lia]. unfold rank_word in Hq. rewrite take_ge in Hq by lia. lia. }
  cbn [find_word]. replace (Z.of_nat q + 1) with (Z.of_nat (S q)) by lia. unfold indexRank64.
  rewrite (idx_Some _ _ _ (indexRank_lookup ws 0 (S q) ltac:(lia) ltac:(lia) ltac:(lia))). cbn [obind].
  rewrite Z.add_0_l. fold (rank_word ws (S q)). destruct (decide (rank_word ws (S q) <= i)).
  - apply IH; [done|lia|lia].
  - exists q. split_and!; [done|lia|done|lia].
Qed.

Lemma rank_word_S ws q w : ws !! q = Some w -> rank_word ws (S q) = rank_word ws q + popcount 64 w.
Proof.
  intros Hw. unfold rank_word. rewrite bits_of_take.
  replace (64 * S q)%nat with (64 * q + 64)%nat by lia. by apply bits_of_count.
Qed.

Lemma rank_word_pos ws q r w : ws !! q = Some w -> (r < 64)%nat -> rank_word ws q <= ones (take (64 * q + r) (bits_of ws)).
Proof.
  intros Hw Hr. rewrite (bits_of_count ws q r w Hw) by lia. pose proof (popcount_bound r w). unfold rank_word. lia.
Qed.

Lemma next_one_total ws k q : (k + q = length ws)%nat -> exists b, next_one k ws (Z.of_nat q) = Val b.
Proof.
  revert q. induction k as [|k IH]; intros q Hk; [by eexists|]. cbn [next_one].
  destruct (lookup_lt_is_Some_2 ws q) as [w Hw]; [lia|]. rewrite (idx_Some _ _ _ Hw). cbn [obind].
  destruct (decide _); [by eexists|]. replace (Z.of_nat q + 1) with (Z.of_nat (S q)) by lia. apply IH. lia.
Qed.

Lemma select32R64_spec ws sidx i p :
  64 * zlen ws < 2 ^ 31 -> indexSelect32R64 ws = Val (sidx, indexRank64 ws) -> 0 <= i ->
  is_one (bits_of ws) p i ->
  exists b, select32R64 ws sidx (indexRank64 ws) i = Val (Z.of_nat p, b).
Proof.
  intros Hb Hidx Hi Hp. pose proof (is_one_lt _ _ _ Hp) as Hlt.
  destruct (indexSelect32R64_spec ws Hb) as (sidx' & Hidx' & Hspec). rewrite Hidx in Hidx'. injection Hidx' as <-.
  unfold select32R64. rewrite (Z.shiftr_div_pow2 i 5) by lia. change (2 ^ 5) with 32.
  pose proof (Z.div_mod i 32 ltac:(lia)) as Hd. pose proof (Z.mod_pos_bound i 32 ltac:(lia)).
  assert (0 <= i / 32) by (apply Z.div_pos; lia).
  destruct (is_one_exists (bits_of ws) (32 * (i / 32))) as [p0 Hp0]; [lia|].
  unfold idx at 1. rewrite (Hspec (i / 32) p0) by done. cbn [obind].
  destruct (pos_split p0) as (q0 & r0 & E0 & Hr0 & -> & _).
  pose proof (lookup_lt_Some _ _ _ (proj1 Hp0)) as Hlen0. rewrite length_bits_of in Hlen0.
  destruct (lookup_lt_is_Some_2 ws q0) as [w0 Hw0]; [lia|].
  destruct (find_word_spec ws i (length (indexRank64 ws)) q0 Hb Hlt) as (q & -> & Hq & Hrank).
  { pose proof (rank_word_pos ws q0 r0 w0 Hw0 Hr0) as Hr. rewrite <- E0, (proj2 Hp0) in Hr. lia. }
  { lia. }
  { assert (forall n l, length (indexRank64_from n l) = S (length l)) as Hl.
    { intros n l. revert n. induction l as [|x l IH]; intros n; [done|]. cbn [indexRank64_from length]. by rewrite IH. }
    unfold indexRank64. rewrite Hl. lia. }
  cbn [obind]. destruct (lookup_lt_is_Some_2 ws q Hq) as [w Hw]. rewrite (idx_Some _ _ _ Hw). cbn [obind].
  unfold indexRank64 at 1.
  rewrite (idx_Some _ _ _ (indexRank_lookup ws 0 q ltac:(lia) ltac:(lia) ltac:(lia))). cbn [obind].
  rewrite Z.add_0_l. fold (rank_word ws q). rewrite (rank_word_S ws q w Hw) in Hrank.
  destruct (select_word_spec w (i - rank_word ws q)) as (r & -> & Hr & Hsb & Hsc); [lia|]. cbn [obind].
  assert (p = 64 * q + r)%nat as ->.
  { apply (is_one_unique _ _ _ _ Hp). split.
    - rewrite (bits_of_lookup ws q r w Hw Hr). by rewrite Hsb.
    - rewrite (bits_of_count ws q r w Hw) by lia. fold (rank_word ws q). lia. }
  rewrite i32_small by (rewrite Z.shiftl_mul_pow2 by lia; unfold zlen in Hb; lia).
  assert (Z.of_nat r + Z.shiftl (Z.of_nat q) 6 = Z.of_nat (64 * q + r)) as -> by (rewrite Z.shiftl_mul_pow2; lia).
  destruct (decide _); [by eexists|].
  destruct (next_one_total ws (length ws - S q) (S q)) as [b Hn]; [lia|].
  replace (Z.to_nat (zlen ws - (Z.of_nat q + 1))) with (length ws - S q)%nat by (unfold zlen; lia).
  replace (Z.of_nat q + 1) with (Z.of_nat (S q)) by lia. rewrite Hn. by eexists.
Qed.

Lemma selectIthOne_spec ws sidx i p :
  64 * zlen ws < 2 ^ 31 -> indexSelect32R64 ws = Val (sidx, indexRank64 ws) -> 0 <= i ->
  is_one (bits_of ws) p i -> selectIthOne ws (indexRank64 ws) sidx i = Val (Z.of_nat p).
Proof.
  intros Hb Hidx Hi Hp. unfold selectIthOne. pose proof (is_one_lt _ _ _ Hp) as Hlt.
  pose proof (ones_bound (bits_of ws)) as Ho. unfold zlen in Ho, Hb. rewrite length_bits_of in Ho.
  rewrite i32_small by lia. by destruct (select32R64_spec ws sidx i p Hb Hidx Hi Hp) as [b ->].
Qed.
