(* ===== verification/SuccinctTrie.v ===== *)
(** * The set as a trie

    A node of the trie is the sorted list of what remains of the keys below it;
    its children are the runs of keys with the same first byte.  The array
    representation built by newSuccinctSet is the list [Q] of the nodes in
    breadth-first order, and the code's steps from node to child are steps in
    the trie. *)

From Stdlib Require Import Sorted.
From S2P Require Import Prelude GoBits GoStrings Succinct SuccinctBits.

(** ** Nodes *)

Definition node : Type := list (list Z).

(** The children: label and node. *)
Fixpoint groups (nd : node) : list (Z * node) :=
  match nd with
  | [] => []
  | [] :: nd => groups nd
  | (c :: k) :: nd =>
      match groups nd with
      | (c', g) :: gs => if decide (c = c') then (c, k :: g) :: gs else (c, [k]) :: (c', g) :: gs
      | [] => [(c, [k])]
      end
  end.
Definition children (nd : node) : list node := snd <$> groups nd.
Definition labels_of (nd : node) : list Z := fst <$> groups nd.
Definition leaf (nd : node) : bool := match nd with [] :: _ => true | _ => false end.
Definition node_bits (nd : node) : list bool := replicate (length (groups nd)) false ++ [true].

Definition good (nd : node) : Prop := nd <> [] /\ StronglySorted str_lt nd.

Lemma groups_elem nd c k : c :: k ∈ nd <-> exists g, (c, g) ∈ groups nd /\ k ∈ g.
Proof.
  induction nd as [|[|c0 k0] nd IH]; cbn [groups].
  - split; [by intros ?%not_elem_of_nil|by intros (g & ?%not_elem_of_nil & _)].
  - rewrite elem_of_cons, IH. naive_solver.
  - rewrite elem_of_cons, IH. destruct (groups nd) as [|[c' g'] gs].
    + split.
      * intros [[= -> ->]|(g & Hg & _)]; [|by apply not_elem_of_nil in Hg]. exists [k0]. by rewrite !list_elem_of_singleton.
      * intros (g & [= -> ->]%list_elem_of_singleton & ->%list_elem_of_singleton). by left.
    + destruct (decide (c0 = c')) as [->|Hne]; (split;
        [intros [[= -> ->]|(g & [[= -> ->]|Hg]%elem_of_cons & Hk)]
        |intros (g & [[= -> ->]|Hg]%elem_of_cons & Hk)]).
      * exists (k0 :: g'). split; by left.
      * exists (k0 :: g'). split; [by left|by right].
      * exists g. split; [by right|done].
      * apply elem_of_cons in Hk as [->|Hk]; [by left|right; exists g'; split; [by left|done]].
      * right. exists g. split; [by right|done].
      * exists [k0]. split; by left.
      * exists g'. split; [right; by left|done].
      * exists g. split; [by do 2 right|done].
      * apply list_elem_of_singleton in Hk as ->. by left.
      * right. by exists g.
Qed.

Lemma good_tail k nd : StronglySorted str_lt (k :: nd) -> Forall (fun k => k <> []) nd.
Proof. intros [_ Hf]%StronglySorted_inv. eapply Forall_impl; [exact Hf|]. intros x Hx ->. by apply str_lt_nil_r in Hx. Qed.

(** The children are good nodes and their labels increase. *)
Lemma groups_good nd :
  StronglySorted str_lt nd -> Forall good (children nd) /\ StronglySorted Z.lt (labels_of nd).
Proof.
  unfold children, labels_of. induction nd as [|[|c k] nd IH]; intros Hs; [split; constructor|..];
    apply StronglySorted_inv in Hs as [Hs Hf]; [by apply IH|].
  destruct (IH Hs) as [Hg Hl]. cbn [groups]. destruct (groups nd) as [|[c' g] gs] eqn:E; cbn [fmap list_fmap fst snd] in *.
  { split; [|repeat constructor]. repeat constructor. done. }
  apply Forall_cons in Hg as [[Hne Hsg] Hg].
  assert (forall k', k' ∈ g -> str_lt (c :: k) (c' :: k')) as Hlt.
  { intros k' Hk'. rewrite Forall_forall in Hf. apply Hf. apply groups_elem. exists g. rewrite E. split; [by left|done]. }
  destruct (decide (c = c')) as [->|Hc]; cbn [fmap list_fmap fst snd].
  - split; [|done]. constructor; [|done]. split; [done|]. constructor; [done|].
    apply Forall_forall. intros k' [?|[_ ?]]%Hlt%str_lt_cons; [lia|done].
  - split; [repeat constructor; done|]. constructor; [done|].
    destruct g as [|k' g]; [done|]. assert (c < c') as Hcc.
    { pose proof (Hlt k' ltac:(by left)) as Hk'. apply str_lt_cons in Hk' as [?|[? _]]; done. }
    constructor; [done|]. apply StronglySorted_inv in Hl as [_ Hl]. eapply Forall_impl; [exact Hl|]. cbn. lia.
Qed.

(** ** Runs of keys *)

(** How many suffixes from the front start with [c]. *)
Fixpoint run (c : Z) (nd : node) : nat :=
  match nd with
  | (c' :: _) :: nd => if decide (c' = c) then S (run c nd) else O
  | _ => O
  end.

Lemma run_le c nd : (run c nd <= length nd)%nat.
Proof. induction nd as [|[|c' k] nd IH]; cbn; try lia. destruct (decide _); lia. Qed.

Lemma groups_run c k nd :
  Forall (fun x => x <> []) nd ->
  groups ((c :: k) :: nd)
  = (c, tail <$> take (S (run c nd)) ((c :: k) :: nd)) :: groups (drop (run c nd) nd).
Proof.
  revert c k. induction nd as [|[|c' k'] nd IH]; intros c k Hf; [done|by apply Forall_cons in Hf as []|].
  apply Forall_cons in Hf as [_ Hf]. specialize (IH c' k' Hf).
  change (groups ((c :: k) :: (c' :: k') :: nd))
    with (match groups ((c' :: k') :: nd) with
          | (c0, g) :: gs => if decide (c = c0) then (c, k :: g) :: gs else (c, [k]) :: (c0, g) :: gs
          | [] => [(c, [k])] end).
  cbn [run]. destruct (decide (c' = c)) as [->|Hne].
  - by rewrite IH, decide_True.
  - cbn [drop take tail fmap list_fmap]. rewrite IH. by rewrite decide_False by congruence.
Qed.

(** The keys number [j], [j+1], ... without their first [col] bytes. *)
Definition seg (keys : list (list Z)) (j col : nat) (v : node) : Prop :=
  Forall2 (fun k suf => exists p, length p = col /\ k = p ++ suf) (take (length v) (drop j keys)) v.

Lemma seg_lookup keys j col v i suf :
  seg keys j col v -> v !! i = Some suf ->
  exists p, length p = col /\ keys !! (j + i)%nat = Some (p ++ suf).
Proof.
  intros Hs Hi. destruct (Forall2_lookup_r _ _ _ _ _ Hs Hi) as (k & Hk & p & Hp & ->).
  exists p. split; [done|]. apply lookup_take_Some in Hk as [Hk _]. by rewrite lookup_drop in Hk.
Qed.

Lemma seg_char keys j col v i c suf :
  seg keys j col v -> v !! i = Some (c :: suf) -> char_at keys (Z.of_nat (j + i)) (Z.of_nat col) = Val c.
Proof.
  intros Hs Hi. destruct (seg_lookup _ _ _ _ _ _ Hs Hi) as (p & <- & Hk). unfold char_at.
  rewrite (idx_Some _ _ _ Hk). cbn [obind]. apply idx_Some. apply list_lookup_middle. done.
Qed.

Lemma seg_drop keys j col v n : seg keys j col v -> seg keys (j + n) col (drop n v).
Proof.
  intros Hs. unfold seg. rewrite length_drop, <- drop_drop, <- skipn_firstn_comm.
  by apply Forall2_drop.
Qed.

Lemma seg_child keys j col v n :
  seg keys j col v -> Forall (fun x => x <> []) (take n v) -> (n <= length v)%nat ->
  seg keys j (S col) (tail <$> take n v).
Proof.
  intros Hs Hf Hn. unfold seg in *. rewrite length_fmap, length_take, Nat.min_l by done.
  apply (Forall2_take _ _ _ n) in Hs. rewrite take_take, Nat.min_l in Hs by done.
  revert Hs Hf. generalize (take n v) as v'. generalize (take n (drop j keys)) as ks.
  intros ks v' Hs. induction Hs as [|k suf ks v' (p & Hp & ->) _ IH]; intros Hf; [constructor|].
  apply Forall_cons in Hf as [Hne Hf]. constructor; [|by apply IH].
  destruct suf as [|c suf]; [done|]. exists (p ++ [c]). rewrite length_app, Hp, <- app_assoc. split; [cbn; lia|done].
Qed.

(** A queue element stands for a node. *)
Definition stands (keys : list (list Z)) (elt : qElt) (nd : node) : Prop :=
  exists s col, elt = mkElt (Z.of_nat s) (Z.of_nat (s + length nd)) (Z.of_nat col) /\ seg keys s col nd.

(** ** The inner loops *)

Lemma run_end_spec keys j col frm c v fuel :
  seg keys j col v -> Forall (fun x => x <> []) v ->
  char_at keys frm (Z.of_nat col) = Val c -> (length v < fuel)%nat ->
  run_end fuel keys frm (Z.of_nat (j + length v)) (Z.of_nat col) (Z.of_nat j) = Val (Z.of_nat (j + run c v)).
Proof.
  intros Hs Hf Hc. revert j v Hs Hf. induction fuel as [|f IH]; intros j v Hs Hf Hlt; [lia|]. cbn [run_end].
  destruct v as [|[|c' k] v]; [| by apply Forall_cons in Hf as [] |].
  - rewrite decide_False by (cbn; lia). do 2 f_equal. cbn. lia.
  - apply Forall_cons in Hf as [_ Hf]. cbn [length] in *. rewrite decide_True by lia.
    pose proof (seg_char keys j col _ 0 c' k Hs eq_refl) as Hc'. rewrite Nat.add_0_r in Hc'. rewrite Hc', Hc.
    cbn [obind run]. destruct (decide (c' = c)) as [->|Hne].
    + pose proof (seg_drop _ _ _ _ 1 Hs) as Hs1. cbn [drop] in Hs1.
      specialize (IH (j + 1)%nat v Hs1 Hf ltac:(lia)).
      replace (Z.of_nat j + 1) with (Z.of_nat (j + 1)) by lia.
      replace (j + S (length v))%nat with (j + 1 + length v)%nat by lia. rewrite IH. do 2 f_equal. lia.
    + do 2 f_equal. lia.
Qed.

(** The bits of a bitmap are [bs]; it has no more words than they need. *)
Definition holds (ws : list Z) (bs : list bool) : Prop :=
  (length bs <= 64 * length ws < length bs + 64)%nat /\ forall n, bit_at ws n = default false (bs !! n).

Lemma holds_snoc ws bs b :
  holds ws bs -> holds (setBit ws (Z.of_nat (length bs)) (Z.b2z b)) (bs ++ [b]).
Proof.
  intros [Hl Hb]. destruct (setBit_spec ws (length bs) b) as [Hl' Hb']. split.
  - rewrite Hl', length_app. change (length [b]) with 1%nat. pose proof (Nat.div_mod_eq (length bs) 64).
    pose proof (Nat.mod_upper_bound (length bs) 64 ltac:(lia)). lia.
  - intros n. rewrite Hb', Hb. destruct (decide (n < length bs)%nat) as [Hlt|Hge].
    + rewrite lookup_app_l, bool_decide_false by lia. by rewrite andb_false_r, orb_false_r.
    + rewrite (lookup_ge_None_2 bs n) by lia. rewrite lookup_app_r by lia. cbn.
      destruct (decide (n = length bs)) as [->|Hne].
      * rewrite Nat.sub_diag, bool_decide_true by done. by rewrite andb_true_r.
      * rewrite bool_decide_false by done. rewrite andb_false_r.
        by replace (n - length bs)%nat with (S (n - length bs - 1))%nat by lia.
Qed.

Lemma emit_children_spec keys col fuel j v bd bs :
  seg keys j col v -> Forall (fun x => x <> []) v -> (length v < fuel)%nat ->
  holds (bd_bitmap bd) bs -> bd_lIdx bd = zlen bs ->
  exists bitmap q,
    emit_children fuel keys (Z.of_nat (j + length v)) (Z.of_nat col) (Z.of_nat j) bd
      = Val (mkBuilder (bd_leaves bd) bitmap (bd_labels bd ++ labels_of v) (bd_queue bd ++ q)
               (zlen (bs ++ replicate (length (groups v)) false)))
    /\ holds bitmap (bs ++ replicate (length (groups v)) false) /\ Forall2 (stands keys) q (children v).
Proof.
  revert j v bd bs. induction fuel as [|f IH]; intros j v bd bs Hs Hf Hlt Hh Hidx; [lia|]. cbn [emit_children].
  destruct v as [|[|c k] v].
  - rewrite decide_False by (cbn; lia). exists (bd_bitmap bd), []. destruct bd. cbn in *. rewrite !app_nil_r, Hidx.
    split_and!; [done|done|constructor].
  - by apply Forall_cons in Hf as [].
  - apply Forall_cons in Hf as [Hne Hf].
    set (n := S (run c v)). pose proof (run_le c v) as Hle.
    pose proof (seg_char keys j col _ 0 c k Hs eq_refl) as Hc. rewrite Nat.add_0_r in Hc.
    rewrite decide_True by (cbn; lia).
    replace (S (Z.to_nat (Z.of_nat (j + length ((c :: k) :: v)) - Z.of_nat j)))
      with (S (length ((c :: k) :: v))) by lia.
    rewrite (run_end_spec keys j col (Z.of_nat j) c ((c :: k) :: v) _ Hs) by (done || (by constructor) || lia).
    cbn [obind]. rewrite Hc. cbn [obind run]. rewrite decide_True by done. fold n.
    set (bd1 := mkBuilder _ _ _ _ _).
    destruct (IH (j + n)%nat (drop n ((c :: k) :: v)) bd1 (bs ++ [false])) as (bitmap & q & Hrun & Hb & Hq).
    + by apply seg_drop.
    + cbn [drop n]. by apply Forall_drop.
    + rewrite length_drop. cbn [length] in *. lia.
    + subst bd1. cbn [bd_bitmap]. rewrite Hidx. by apply (holds_snoc _ _ false).
    + subst bd1. cbn [bd_lIdx]. rewrite Hidx, zlen_app. done.
    + rewrite length_drop in Hrun. cbn [length] in Hlt.
      replace (j + n + (length ((c :: k) :: v) - n))%nat with (j + length ((c :: k) :: v))%nat in Hrun by (cbn [length]; lia).
      cbn [drop n length] in Hrun, Hb, Hq. unfold labels_of, children in *. rewrite (groups_run c k v Hf). cbn [fmap list_fmap fst snd length].
      exists bitmap, (mkElt (Z.of_nat j) (Z.of_nat (j + n)) (Z.of_nat col + 1) :: q).
      rewrite replicate_S, (cons_middle false bs) . rewrite <- app_assoc in Hb. cbn [app] in Hb.
      split_and!; [| |constructor; [|exact Hq]].
      * rewrite Hrun. subst bd1. cbn [bd_leaves bd_labels bd_queue]. f_equal. rewrite <- !app_assoc. done.
      * exact Hb.
      * exists j, (S col). rewrite length_fmap, length_take, Nat.min_l by (cbn [length]; lia).
        split; [f_equal; lia|]. apply seg_child; [done|by apply Forall_take; constructor|cbn [length]; lia].
Qed.

(** ** The outer loop *)

(** The leaf bits of the first nodes; the bitmap may end before the last ones. *)
Definition marks (ws : list Z) (bs : list bool) : Prop := forall n, bit_at ws n = default false (bs !! n).

Lemma marks_snoc ws bs (b : bool) :
  marks ws bs -> marks (if b then setBit ws (Z.of_nat (length bs)) 1 else ws) (bs ++ [b]).
Proof.
  intros Hm n. assert (default false ((bs ++ [b]) !! n) = default false (bs !! n) || (b && bool_decide (n = length bs))) as ->.
  { destruct (decide (n < length bs)%nat).
    - rewrite lookup_app_l, bool_decide_false by lia. by rewrite andb_false_r, orb_false_r.
    - rewrite (lookup_ge_None_2 bs n) by lia. rewrite lookup_app_r by lia. cbn. case_bool_decide as E.
      + subst. by rewrite Nat.sub_diag, andb_true_r.
      + rewrite andb_false_r. by replace (n - length bs)%nat with (S (n - length bs - 1)) by lia. }
  destruct b; [|by rewrite Hm, andb_false_l, orb_false_r].
  destruct (setBit_spec ws (length bs) true) as [_ ->]. by rewrite Hm.
Qed.

Lemma visit_spec keys i elt nd bd bs ls :
  stands keys elt nd -> good nd -> holds (bd_bitmap bd) bs -> bd_lIdx bd = zlen bs ->
  marks (bd_leaves bd) ls -> length ls = i ->
  exists leaves bitmap q,
    visit keys (Z.of_nat i) elt bd
      = Val (mkBuilder leaves bitmap (bd_labels bd ++ labels_of nd) (bd_queue bd ++ q) (zlen (bs ++ node_bits nd)))
    /\ holds bitmap (bs ++ node_bits nd) /\ Forall2 (stands keys) q (children nd)
    /\ marks leaves (ls ++ [leaf nd]).
Proof.
  intros (s & col & -> & Hs) [Hne Hsort] Hh Hidx Hm Hls. unfold visit. cbn [q_s q_e q_col].
  destruct nd as [|suf nd]; [done|]. pose proof (good_tail _ _ Hsort) as Htail.
  destruct (seg_lookup _ _ _ _ 0 suf Hs eq_refl) as (p & Hp & Hk). rewrite Nat.add_0_r in Hk.
  rewrite (idx_Some _ _ _ Hk). cbn [obind].
  assert (exists s' v, (if decide (Z.of_nat col = zlen (p ++ suf))
              then (Z.of_nat s + 1, setBit (bd_leaves bd) (Z.of_nat i) 1) else (Z.of_nat s, bd_leaves bd))
            = (Z.of_nat s', if leaf (suf :: nd) then setBit (bd_leaves bd) (Z.of_nat i) 1 else bd_leaves bd)
          /\ seg keys s' col v /\ Forall (fun x => x <> []) v
          /\ groups v = groups (suf :: nd) /\ (s' + length v = s + length (suf :: nd))%nat)
    as (s' & v & -> & Hs' & Hv & Hg & Hlen).
  { destruct suf as [|c suf].
    - exists (S s), nd. rewrite decide_True by (rewrite app_nil_r; unfold zlen; lia).
      pose proof (seg_drop _ _ _ _ 1 Hs) as Hs1. rewrite Nat.add_1_r in Hs1.
      split_and!; [f_equal; lia|exact Hs1|done|done|cbn; lia].
    - exists s, ((c :: suf) :: nd). rewrite decide_False by (rewrite zlen_app, zlen_cons; unfold zlen; lia).
      split_and!; try done. by constructor. }
  rewrite <- Hlen. set (bd1 := mkBuilder _ _ _ _ _).
  replace (S (Z.to_nat (Z.of_nat (s' + length v) - Z.of_nat s'))) with (S (length v)) by lia.
  destruct (emit_children_spec keys col (S (length v)) s' v bd1 bs Hs' Hv ltac:(lia) Hh Hidx) as (bitmap & q & -> & Hb & Hq).
  cbn [obind bd_leaves bd_bitmap bd_labels bd_queue bd_lIdx bd1].
  unfold node_bits, labels_of, children in *. rewrite Hg in *. rewrite (app_assoc bs).
  eexists _, _, q. split_and!.
  - rewrite (zlen_app _ [true]). reflexivity.
  - apply (holds_snoc _ _ true Hb).
  - exact Hq.
  - subst i. by apply marks_snoc.
Qed.

(** The work left: a bound on the nodes of the subtrees in the queue. *)
Definition weight (nd : node) : nat := S (sum_list (length <$> nd)).
Definition weights (Q : list node) : nat := sum_list (weight <$> Q).

Lemma weights_children nd : (weights (children nd) < weight nd)%nat.
Proof.
  unfold weights, weight, children. apply Nat.lt_succ_r.
  induction nd as [|[|c k] nd IH]; cbn [groups]; [done|exact IH|].
  destruct (groups nd) as [|[c' g] gs]; [cbn in *; lia|].
  destruct (decide (c = c')); unfold weight in *; cbn in *; lia.
Qed.

(** The nodes in breadth-first order: the queue holds the root and the children
    of the nodes visited so far. *)
Definition bfs (root : node) (i : nat) (Q : list node) : Prop :=
  Q = root :: (take i Q ≫= children) /\ Forall good Q.

Lemma bfs_step root i Q nd :
  bfs root i Q -> Q !! i = Some nd -> bfs root (S i) (Q ++ children nd).
Proof.
  intros [HQ Hg] Hi. pose proof (lookup_lt_Some _ _ _ Hi) as Hlt.
  rewrite Forall_forall in Hg. pose proof (groups_good nd (proj2 (Hg nd (list_elem_of_lookup_2 _ _ _ Hi)))) as [Hc _].
  split; [|apply Forall_app; split; [by apply Forall_forall|done]].
  rewrite take_app_le by lia. rewrite (take_S_r _ _ _ Hi), bind_app, app_comm_cons, <- HQ.
  cbn. by rewrite app_nil_r.
Qed.

Lemma build_loop_spec keys root fuel i bd Q :
  bfs root i Q -> (i <= length Q)%nat -> Forall2 (stands keys) (bd_queue bd) Q ->
  holds (bd_bitmap bd) (take i Q ≫= node_bits) -> bd_lIdx bd = zlen (take i Q ≫= node_bits) ->
  bd_labels bd = take i Q ≫= labels_of -> marks (bd_leaves bd) (leaf <$> take i Q) ->
  (weights (drop i Q) < fuel)%nat ->
  exists bd' Q', build_loop fuel keys (Z.of_nat i) bd = Val bd'
    /\ bfs root (length Q') Q' /\ holds (bd_bitmap bd') (Q' ≫= node_bits)
    /\ bd_labels bd' = Q' ≫= labels_of /\ marks (bd_leaves bd') (leaf <$> Q')
    /\ (length Q' <= i + weights (drop i Q))%nat.
Proof.
  revert i bd Q. induction fuel as [|f IH]; intros i bd Q Hbfs Hi Hq Hh Hidx Hl Hm Hw; [lia|].
  cbn [build_loop]. pose proof (Forall2_length _ _ _ Hq) as Hlen.
  destruct (decide (Z.of_nat i < zlen (bd_queue bd))) as [Hlt|Hge]; unfold zlen in *; rewrite Hlen in *.
  - destruct (lookup_lt_is_Some_2 Q i) as [nd Hnd]; [lia|].
    destruct (Forall2_lookup_r _ _ _ _ _ Hq Hnd) as (elt & Helt & Hst).
    rewrite (idx_Some _ _ _ Helt). cbn [obind].
    assert (good nd) as Hgood by (destruct Hbfs as [_ Hf]; rewrite Forall_forall in Hf; by apply Hf, (list_elem_of_lookup_2 _ i)).
    destruct (visit_spec keys i elt nd bd _ (leaf <$> take i Q) Hst Hgood Hh Hidx Hm) as (leaves & bitmap & q & Hv & Hb' & Hq' & Hm').
    { rewrite length_fmap, length_take. lia. }
    rewrite Hv. cbn [obind]. set (bd1 := mkBuilder _ _ _ _ _). replace (Z.of_nat i + 1) with (Z.of_nat (S i)) by lia.
    assert (take (S i) (Q ++ children nd) = take i Q ++ [nd]) as Htake.
    { rewrite take_app_le by lia. by apply take_S_r. }
    assert (forall A (h : node -> list A), take (S i) (Q ++ children nd) ≫= h = (take i Q ≫= h) ++ h nd) as Hbind.
    { intros A h. rewrite Htake, bind_app. cbn. by rewrite app_nil_r. }
    pose proof (weights_children nd) as Hwc.
    assert (weights (drop i Q) = weight nd + weights (drop (S i) Q))%nat as Ew.
    { rewrite (drop_S _ _ _ Hnd). done. }
    assert (weights (drop (S i) (Q ++ children nd)) = weights (drop (S i) Q) + weights (children nd))%nat as Ew2.
    { rewrite drop_app_le by lia. unfold weights. by rewrite fmap_app, (sum_list_with_app id). }
    destruct (IH (S i) bd1 (Q ++ children nd) (bfs_step root i Q nd Hbfs Hnd)) as (bd' & Q' & Hrun & Hrest);
      cbn [bd1 bd_queue bd_bitmap bd_labels bd_leaves bd_lIdx].
    + rewrite length_app. lia.
    + by apply Forall2_app.
    + rewrite Hbind. exact Hb'.
    + by rewrite Hbind.
    + by rewrite Hbind, Hl.
    + rewrite Htake, fmap_app. exact Hm'.
    + lia.
    + exists bd', Q'. split; [exact Hrun|]. destruct Hrest as (? & ? & ? & ? & ?). split_and!; try done. lia.
  - assert (i = length Q) as -> by lia. exists bd, Q. rewrite take_ge in * by lia.
    split_and!; try done. lia.
Qed.

(** ** The finished set *)

Record Trie (root : node) (ss : succinctSet) (Q : list node) : Prop := {
  tr_bfs : bfs root (length Q) Q;
  tr_bitmap : holds (labelBitmap ss) (Q ≫= node_bits);
  tr_small : 64 * zlen (labelBitmap ss) < 2 ^ 31;
  tr_labels : labels ss = Q ≫= labels_of;
  tr_leaves : forall n nd, Q !! n = Some nd -> bits_of (leaves ss) !! n = Some (leaf nd);
  tr_ranks : ranks ss = indexRank64 (labelBitmap ss);
  tr_selects : indexSelect32R64 (labelBitmap ss) = Val (selects ss, indexRank64 (labelBitmap ss));
}.

Lemma bfs_root root Q : bfs root (length Q) Q -> Q = root :: (Q ≫= children).
Proof. intros [HQ _]. by rewrite take_ge in HQ by lia. Qed.

(** The last node is a leaf: it has keys but no child. *)
Lemma bfs_last root Q nd : bfs root (length Q) Q -> last Q = Some nd -> leaf nd = true.
Proof.
  intros Hbfs [Q0 ->]%last_Some. pose proof (bfs_root _ _ Hbfs) as HQ. destruct Hbfs as [_ Hg].
  rewrite bind_app, bind_singleton in HQ.
  assert (children nd = []) as Hnone.
  { destruct (children nd) as [|y x _] eqn:E using rev_ind; [done|exfalso].
    rewrite app_comm_cons, app_assoc in HQ. apply app_inj_tail in HQ as [_ ->].
    pose proof (weights_children y) as Hw. rewrite E in Hw. unfold weights in Hw.
    rewrite fmap_app, (sum_list_with_app id) in Hw. cbn [fmap list_fmap sum_list_with] in Hw. unfold id in Hw. lia. }
  apply Forall_app in Hg as [_ Hg]. apply Forall_singleton in Hg as [Hne _].
  destruct nd as [|[|c k] nd]; [done|done|]. exfalso.
  destruct (proj1 (groups_elem ((c :: k) :: nd) c k)) as (g & Hin & _); [by left|].
  unfold children in Hnone. apply fmap_nil_inv in Hnone. rewrite Hnone in Hin. by apply not_elem_of_nil in Hin.
Qed.

Lemma length_node_bits Q : length (Q ≫= node_bits) = (length (Q ≫= groups) + length Q)%nat.
Proof.
  induction Q as [|nd Q IH]; [done|]. rewrite !bind_cons, !length_app, IH.
  unfold node_bits. rewrite length_app, length_replicate. cbn [length]. lia.
Qed.

Lemma bind_fmap_groups {A} (f : Z * node -> A) Q : Q ≫= (fun nd => f <$> groups nd) = f <$> (Q ≫= groups).
Proof. by rewrite fmap_of_bind. Qed.

Lemma bfs_length root Q : bfs root (length Q) Q -> length Q = S (length (Q ≫= groups)).
Proof.
  intros H%bfs_root. rewrite H at 1. cbn [length]. f_equal. unfold children.
  by rewrite bind_fmap_groups, length_fmap.
Qed.

(** Every sorted list of distinct keys builds a set. *)
Lemma newSuccinctSet_trie keys :
  good keys -> 2 * (Z.of_nat (sum_list (length <$> keys))) + 128 < 2 ^ 31 ->
  exists ss Q, newSuccinctSet keys = Val ss /\ Trie keys ss Q.
Proof.
  intros Hgood Hsize. unfold newSuccinctSet.
  set (bd0 := mkBuilder _ _ _ _ _).
  destruct (build_loop_spec keys keys (build_fuel keys) 0 bd0 [keys])
    as (bd & Q & Hrun & Hbfs & Hb & Hl & Hm & Hlen); subst bd0; cbn [bd_queue bd_bitmap bd_labels bd_leaves bd_lIdx].
  - split; [done|]. by constructor.
  - cbn. lia.
  - constructor; [|constructor]. exists 0%nat, 0%nat. split; [done|]. unfold seg. rewrite drop_0, take_ge by lia.
    clear. induction keys as [|k keys IH]; [constructor|]. constructor; [by exists []|done].
  - split; [cbn; lia|done].
  - done.
  - done.
  - done.
  - unfold weights, weight, build_fuel. cbn. lia.
  - change (Z.of_nat 0) with 0 in Hrun. rewrite Hrun. cbn [obind].
    assert (64 * zlen (bd_bitmap bd) < 2 ^ 31) as Hsmall.
    { destruct Hb as [Hb _]. rewrite length_node_bits in Hb. pose proof (bfs_length _ _ Hbfs) as HlQ.
      unfold weights, weight in Hlen. cbn in Hlen. unfold zlen. lia. }
    destruct (indexSelect32R64_spec (bd_bitmap bd) Hsmall) as (sidx & Hidx & _).
    unfold init. rewrite Hidx. cbn [obind fst snd]. eexists _, Q. split; [done|]. split; try done.
    cbn [leaves]. intros n nd Hn.
    destruct (last Q) as [lst|] eqn:El; [|apply last_None in El; subst; done].
    pose proof (bfs_last _ _ _ Hbfs El) as Hleaf. rewrite last_lookup in El.
    pose proof (lookup_lt_Some _ _ _ Hn) as Hlt. unfold marks, bit_at in Hm.
    assert (length Q <= length (bits_of (bd_leaves bd)))%nat as Hlen'.
    { specialize (Hm (pred (length Q))). rewrite list_lookup_fmap, El in Hm. cbn in Hm. rewrite Hleaf in Hm.
      destruct (bits_of _ !! _) eqn:E; [|done]. apply lookup_lt_Some in E. lia. }
    destruct (lookup_lt_is_Some_2 (bits_of (bd_leaves bd)) n) as [b Eb]; [lia|].
    specialize (Hm n). rewrite list_lookup_fmap, Hn, Eb in Hm. cbn in Hm. by rewrite Eb, Hm.
Qed.

(** ** Steps in the set are steps in the trie *)

(** Where the bits of node [i] start. *)
Definition pos (Q : list node) (i : nat) : nat := length (take i Q ≫= node_bits).
Definition cnt (Q : list node) (i : nat) : nat := length (take i Q ≫= groups).

Lemma pos_cnt Q i : (i <= length Q)%nat -> pos Q i = (cnt Q i + i)%nat.
Proof. intros Hi. unfold pos, cnt. rewrite length_node_bits, length_take. lia. Qed.

Lemma pos_S Q i nd : Q !! i = Some nd -> pos Q (S i) = (pos Q i + length (groups nd) + 1)%nat.
Proof.
  intros Hi. unfold pos. rewrite (take_S_r _ _ _ Hi), bind_app, bind_singleton, length_app.
  unfold node_bits at 2. rewrite length_app, length_replicate. cbn [length]. lia.
Qed.

Lemma ones_node_bits Q : ones (Q ≫= node_bits) = zlen Q.
Proof.
  induction Q as [|nd Q IH]; [done|]. rewrite bind_cons, ones_app, IH, zlen_cons. unfold node_bits. rewrite ones_app.
  assert (forall n, ones (replicate n false) = 0) as -> by (induction n as [|n IHn]; [done|]; cbn; lia). cbn. lia.
Qed.

(** The bits of node [i]: a 0 for each child, then a 1; [i] ones come before. *)
Lemma node_bit Q i nd m :
  Q !! i = Some nd -> (m <= length (groups nd))%nat ->
  (Q ≫= node_bits) !! (pos Q i + m)%nat = Some (bool_decide (m = length (groups nd)))
  /\ ones (take (pos Q i + m) (Q ≫= node_bits)) = Z.of_nat i.
Proof.
  intros Hi Hm. pose proof (lookup_lt_Some _ _ _ Hi) as Hlt.
  rewrite <- (take_drop_middle Q i nd Hi), bind_app, bind_cons. unfold pos.
  rewrite (take_app_le (take i Q)), (take_ge (take i Q)) by (rewrite length_take; lia).
  rewrite lookup_app_r, take_app_ge, ones_app, ones_node_bits by lia.
  replace (length (take i Q ≫= node_bits) + m - length (take i Q ≫= node_bits))%nat with m by lia.
  unfold node_bits at 1 3. split.
  - rewrite <- app_assoc. destruct (decide (m = length (groups nd))) as [->|Hne].
    + rewrite lookup_app_r, length_replicate, Nat.sub_diag, bool_decide_true by (rewrite ?length_replicate; lia). done.
    + rewrite lookup_app_l, bool_decide_false by (rewrite ?length_replicate; lia).
      apply lookup_replicate_2. lia.
  - rewrite <- app_assoc, take_app_le by (rewrite length_replicate; lia). rewrite take_replicate.
    assert (forall n, ones (replicate n false) = 0) as -> by (induction n as [|n IHn]; [done|]; cbn; lia).
    unfold zlen. rewrite length_take. lia.
Qed.

Lemma holds_lookup ws bs n b : holds ws bs -> bs !! n = Some b -> bits_of ws !! n = Some b.
Proof.
  intros [Hl Hb] Hn. specialize (Hb n). unfold bit_at in Hb. rewrite Hn in Hb. cbn in Hb.
  destruct (bits_of ws !! n) as [b'|] eqn:E; [cbn in Hb; by subst|].
  apply lookup_ge_None_1 in E. rewrite length_bits_of in E. apply lookup_lt_Some in Hn. lia.
Qed.

Lemma holds_take ws bs n : holds ws bs -> (n <= length bs)%nat -> take n (bits_of ws) = take n bs.
Proof.
  intros Hh Hn. apply list_eq. intros i. destruct (decide (i < n)%nat); [|by rewrite !lookup_take_ge by lia].
  rewrite !lookup_take_lt by done. destruct (lookup_lt_is_Some_2 bs i) as [b Hb]; [lia|].
  rewrite Hb. by apply (holds_lookup ws bs).
Qed.

Section Steps.
Context {root : node} {ss : succinctSet} {Q : list node} (HT : Trie root ss Q).

Lemma bitmap_bit i nd m :
  Q !! i = Some nd -> (m <= length (groups nd))%nat ->
  exists x, getBit (labelBitmap ss) (Z.of_nat (pos Q i + m)) = Val x /\ (x <> 0 <-> m = length (groups nd)).
Proof.
  intros Hi Hm. destruct (node_bit Q i nd m Hi Hm) as [Hb _].
  destruct (getBit_spec (labelBitmap ss) _ _ (holds_lookup _ _ _ _ (tr_bitmap _ _ _ HT) Hb)) as (x & Hx & H0).
  exists x. split; [done|]. rewrite H0. case_bool_decide; naive_solver.
Qed.

Lemma leaf_bit i nd :
  Q !! i = Some nd -> exists x, getBit (leaves ss) (Z.of_nat i) = Val x /\ (x <> 0 <-> leaf nd = true).
Proof.
  intros Hi. destruct (getBit_spec (leaves ss) i _ (tr_leaves _ _ _ HT i nd Hi)) as (x & Hx & H0).
  exists x. split; [done|]. rewrite H0. by destruct (leaf nd).
Qed.

Lemma label_at i nd m c g :
  Q !! i = Some nd -> groups nd !! m = Some (c, g) -> idx (labels ss) (Z.of_nat (pos Q i + m) - Z.of_nat i) = Val c.
Proof.
  intros Hi Hm. pose proof (lookup_lt_Some _ _ _ Hi). rewrite pos_cnt by lia.
  replace (Z.of_nat (cnt Q i + i + m) - Z.of_nat i) with (Z.of_nat (cnt Q i + m)) by lia.
  apply idx_Some. rewrite (tr_labels _ _ _ HT). unfold labels_of. rewrite bind_fmap_groups, list_lookup_fmap.
  remember (cnt Q i) as n eqn:En. unfold cnt in En.
  rewrite <- (take_drop_middle Q i nd Hi), bind_app, bind_cons.
  rewrite lookup_app_r by lia. replace (n + m - _)%nat with m by lia.
  by rewrite lookup_app_l, Hm by (by apply lookup_lt_Some in Hm).
Qed.

Lemma child_at i nd m c g :
  Q !! i = Some nd -> groups nd !! m = Some (c, g) -> Q !! S (cnt Q i + m) = Some g.
Proof.
  intros Hi Hm. assert (forall n, Q !! S n = (Q ≫= children) !! n) as ->.
  { intros n. rewrite (bfs_root _ _ (tr_bfs _ _ _ HT)) at 1. done. }
  unfold children. rewrite bind_fmap_groups, list_lookup_fmap.
  remember (cnt Q i) as n eqn:En. unfold cnt in En.
  rewrite <- (take_drop_middle Q i nd Hi), bind_app, bind_cons.
  rewrite lookup_app_r by lia. replace (n + m - _)%nat with m by lia.
  by rewrite lookup_app_l, Hm by (by apply lookup_lt_Some in Hm).
Qed.

Lemma child_number i nd m c g :
  Q !! i = Some nd -> groups nd !! m = Some (c, g) ->
  countZeros (labelBitmap ss) (ranks ss) (Z.of_nat (pos Q i + m) + 1) = Val (Z.of_nat (S (cnt Q i + m))).
Proof.
  intros Hi Hm. pose proof (lookup_lt_Some _ _ _ Hm) as Hlt. pose proof (lookup_lt_Some _ _ _ Hi).
  destruct (node_bit Q i nd m Hi ltac:(lia)) as [Hb Hc]. rewrite bool_decide_false in Hb by lia.
  destruct (node_bit Q i nd (length (groups nd)) Hi ltac:(lia)) as [Hend _]. apply lookup_lt_Some in Hend.
  rewrite (tr_ranks _ _ _ HT). replace (Z.of_nat (pos Q i + m) + 1) with (Z.of_nat (S (pos Q i + m))) by lia.
  pose proof (tr_bitmap _ _ _ HT) as Hh.
  rewrite countZeros_spec; [|apply (tr_small _ _ _ HT)|destruct Hh; lia].
  rewrite (holds_take _ _ _ Hh), (ones_take_S _ _ _ Hb), Hc by lia. rewrite pos_cnt by lia. cbn [Z.b2z]. f_equal. lia.
Qed.

Lemma child_start i nd :
  (0 < i)%nat -> Q !! i = Some nd ->
  selectIthOne (labelBitmap ss) (ranks ss) (selects ss) (Z.of_nat i - 1) = Val (Z.of_nat (pos Q i) - 1).
Proof.
  intros Hpos Hi. pose proof (lookup_lt_Some _ _ _ Hi) as Hlt.
  destruct (lookup_lt_is_Some_2 Q (i - 1)) as [nd' Hnd']; [lia|].
  destruct (node_bit Q (i - 1) nd' _ Hnd' (le_n _)) as [Hb Hc]. rewrite bool_decide_true in Hb by done.
  pose proof (tr_bitmap _ _ _ HT) as Hh. rewrite (tr_ranks _ _ _ HT).
  pose proof (pos_S Q (i - 1) nd' Hnd') as HS. replace (S (i - 1)) with i in HS by lia.
  rewrite (selectIthOne_spec _ _ _ (pos Q (i - 1) + length (groups nd'))).
  - f_equal. lia.
  - apply (tr_small _ _ _ HT).
  - apply (tr_selects _ _ _ HT).
  - lia.
  - split; [by apply (holds_lookup _ _ _ _ Hh)|]. apply lookup_lt_Some in Hb.
    rewrite (holds_take _ _ _ Hh), Hc by lia. lia.
Qed.


Lemma weights_app Q1 Q2 : weights (Q1 ++ Q2) = (weights Q1 + weights Q2)%nat.
Proof. unfold weights. by rewrite fmap_app, (sum_list_with_app id). Qed.

Lemma weights_bind Q1 : Q1 <> [] -> (weights (Q1 ≫= children) < weights Q1)%nat.
Proof.
  induction Q1 as [|nd Q1 IH]; intros Hne; [done|]. rewrite bind_cons, weights_app.
  pose proof (weights_children nd) as Hw. change (weights (nd :: Q1)) with (weight nd + weights Q1)%nat.
  destruct Q1 as [|nd' Q1]; [change (weights ([] ≫= children)) with 0%nat; change (weights []) with 0%nat; lia|]. specialize (IH ltac:(done)). lia.
Qed.

(** Every node was put into the queue by one of the nodes before it. *)
Lemma queue_ahead i : (i < length Q)%nat -> (i < S (cnt Q i))%nat.
Proof.
  intros Hi. destruct (decide (i < S (cnt Q i))%nat) as [|Hn]; [done|exfalso].
  assert (Q = root :: (take i Q ≫= children) ++ (drop i Q ≫= children)) as HQ.
  { rewrite <- bind_app, take_drop. exact (bfs_root _ _ (tr_bfs _ _ _ HT)). }
  assert (length (take i Q ≫= children) = cnt Q i) as Hl.
  { unfold children, cnt. by rewrite bind_fmap_groups, length_fmap. }
  assert (drop (S (cnt Q i)) Q = drop i Q ≫= children) as Hdrop.
  { set (n := cnt Q i) in *. clearbody n. rewrite HQ at 1. cbn [drop]. by rewrite <- Hl, drop_app_length. }
  assert (drop i Q <> []) as Hne.
  { intros E. apply (f_equal length) in E. rewrite length_drop in E. cbn in E. lia. }
  pose proof (weights_bind (drop i Q) Hne) as Hw. rewrite <- Hdrop in Hw.
  assert (weights (drop (S (cnt Q i)) Q) = weights (take (i - S (cnt Q i)) (drop (S (cnt Q i)) Q)) + weights (drop i Q))%nat as E.
  { rewrite <- weights_app. f_equal. rewrite <- (take_drop (i - S (cnt Q i)) (drop (S (cnt Q i)) Q)) at 1.
    rewrite drop_drop. do 2 f_equal. lia. }
  lia.
Qed.

Lemma pos_le i j : (i <= j <= length Q)%nat -> (pos Q i <= pos Q j)%nat.
Proof.
  intros Hij. unfold pos. replace j with (i + (j - i))%nat by lia. rewrite <- (take_take_drop Q i (j - i)), bind_app, length_app. lia.
Qed.

(** The bits of a child come after those of its parent. *)
Lemma child_after i nd m c g :
  Q !! i = Some nd -> groups nd !! m = Some (c, g) -> (pos Q i + m < pos Q (S (cnt Q i + m)))%nat.
Proof.
  intros Hi Hm. pose proof (lookup_lt_Some _ _ _ Hi) as Hlt. pose proof (lookup_lt_Some _ _ _ Hm) as Hltm.
  pose proof (lookup_lt_Some _ _ _ (child_at i nd m c g Hi Hm)) as Hltc.
  pose proof (queue_ahead i Hlt) as Hq. pose proof (pos_S Q i nd Hi).
  pose proof (pos_le (S i) (S (cnt Q i + m)) ltac:(lia)). lia.
Qed.

Lemma pos_lt i nd m : Q !! i = Some nd -> (m <= length (groups nd))%nat -> (pos Q i + m < length (Q ≫= node_bits))%nat.
Proof. intros Hi Hm. by destruct (node_bit Q i nd m Hi Hm) as [Hb%lookup_lt_Some _]. Qed.
End Steps.

(** ** Listing *)

(** A node's keys: the empty one first if there, then the children's in order. *)
Lemma node_listing nd :
  StronglySorted str_lt nd ->
  nd = (if leaf nd then [[]] else []) ++ (groups nd ≫= fun '(c, g) => cons c <$> g).
Proof.
  assert (forall nd, Forall (fun k => k <> []) nd -> nd = groups nd ≫= fun '(c, g) => cons c <$> g) as Hne.
  { clear nd. intros nd Hf. induction Hf as [|[|c k] nd Hk Hf IH]; [done|done|]. cbn [groups].
    rewrite IH at 1. destruct (groups nd) as [|[c' g] gs]; [done|]. destruct (decide (c = c')) as [->|]; done. }
  intros Hs. destruct nd as [|[|c k] nd]; [done|..].
  - cbn [leaf groups app]. f_equal. apply Hne. by apply (good_tail []).
  - apply Hne. constructor; [done|]. by apply (good_tail (c :: k)).
Qed.

Lemma traverse_spec root ss Q fuel i nd m cur result :
  Trie root ss Q -> Q !! i = Some nd -> (m <= length (groups nd))%nat ->
  (length (Q ≫= node_bits) < fuel + (pos Q i + m))%nat ->
  traverse_loop fuel ss (Z.of_nat i) (Z.of_nat (pos Q i + m)) cur result
  = Val (result ++ (drop m (groups nd) ≫= fun '(c, g) => (fun k => cur ++ c :: k) <$> g)).
Proof.
  intros HT. revert i nd m cur result. induction fuel as [|f IH]; intros i nd m cur result Hi Hm Hf.
  { pose proof (pos_lt i nd m Hi Hm). lia. }
  cbn [traverse_loop]. destruct (bitmap_bit HT i nd m Hi Hm) as (x & -> & Hx). cbn [obind].
  destruct (decide (m = length (groups nd))) as [->|Hne].
  { rewrite decide_True by (by apply Hx). rewrite drop_ge by lia. cbn. by rewrite app_nil_r. }
  rewrite decide_False by (intros Hx0; by apply Hne, Hx).
  destruct (lookup_lt_is_Some_2 (groups nd) m) as [[c g] Hcg]; [lia|].
  rewrite (label_at HT i nd m c g Hi Hcg). cbn [obind].
  rewrite (child_number HT i nd m c g Hi Hcg). cbn [obind].
  pose proof (child_at HT i nd m c g Hi Hcg) as Hg. pose proof (child_after HT i nd m c g Hi Hcg) as Hafter.
  rewrite (child_start HT (S (cnt Q i + m)) g ltac:(lia) Hg). cbn [obind].
  destruct (leaf_bit HT _ g Hg) as (y & -> & Hy). cbn [obind].
  replace (Z.of_nat (pos Q (S (cnt Q i + m))) - 1 + 1) with (Z.of_nat (pos Q (S (cnt Q i + m)) + 0)) by lia.
  rewrite (IH _ g 0%nat) by (done || lia). cbn [obind].
  replace (Z.of_nat (pos Q i + m) + 1) with (Z.of_nat (pos Q i + S m)) by lia.
  rewrite (IH i nd (S m)) by (done || lia). f_equal.
  rewrite (drop_S _ _ _ Hcg), bind_cons, drop_0, app_assoc. f_equal.
  destruct (tr_bfs _ _ _ HT) as [_ Hgood]. rewrite Forall_forall in Hgood.
  destruct (Hgood g (list_elem_of_lookup_2 _ _ _ Hg)) as [_ Hs].
  rewrite (node_listing g Hs) at 2. rewrite fmap_app, app_assoc. f_equal.
  - destruct (leaf g); [rewrite decide_True by (by apply Hy)|rewrite decide_False by (intros H; by apply Hy in H)]; cbn;
      by rewrite ?app_nil_r.
  - rewrite fmap_of_bind. apply list_bind_ext; [|done]. intros [c' g'].
    rewrite <- list_fmap_compose. apply list_fmap_ext. intros _ k _. cbn. by rewrite <- app_assoc.
Qed.

Lemma keys_spec root ss Q : Trie root ss Q -> keys ss = Val root.
Proof.
  intros HT. pose proof (bfs_root _ _ (tr_bfs _ _ _ HT)) as HQ.
  assert (Q !! 0%nat = Some root) as H0 by (rewrite HQ; done).
  unfold keys. destruct (leaf_bit HT 0 root H0) as (x & Hx & Hleaf). change (Z.of_nat 0) with 0 in Hx.
  rewrite Hx. cbn [obind].
  pose proof (traverse_spec root ss Q (S (64 * length (labelBitmap ss))) 0 root 0 []
    (if decide (x <> 0) then [[]] else []) HT H0 ltac:(lia)) as Ht.
  change (Z.of_nat (pos Q 0 + 0)) with 0 in Ht. change (Z.of_nat 0) with 0 in Ht.
  destruct (tr_bitmap _ _ _ HT) as [Hl _]. rewrite Ht by lia. f_equal.
  destruct (tr_bfs _ _ _ HT) as [_ Hgood]. rewrite Forall_forall in Hgood.
  destruct (Hgood root (list_elem_of_lookup_2 _ _ _ H0)) as [_ Hs].
  rewrite (node_listing root Hs) at 2. rewrite drop_0. f_equal.
  destruct (leaf root); [by rewrite decide_True by (by apply Hleaf)|rewrite decide_False; [done|]].
  intros H. by apply Hleaf in H.
Qed.
