(* ===== verification/Domain.v ===== *)
(** * The domain matcher: common/domain/matcher.go

    The rules become reversed strings, with a control character that marks the kind
    of rule; a domain is matched by searching the succinct set of these strings for
    the reversed domain. *)

From S2P Require Import Prelude GoStrings GoIO Succinct.
#[local] Open Scope go_scope.

Definition prefixLabel : Z := 13.  (* '\r' *)
Definition rootLabel : Z := 10.    (* '\n' *)
Definition anyLabel : Z := 42.     (* '*' *)
Definition suffixLabel : Z := 8.   (* '\b' *)
Definition dot : Z := 46.

(** ** reverseDomain: the runes in reverse order *)

(** [utf8.EncodeRune(b[off:], r)] panics when the encoding does not fit. *)
Definition put_rune (b : list Z) (off r : Z) : outcome (list Z) :=
  let e := EncodeRune r in
  if decide (zlen b - off < zlen e) then Panic
  else Val (ztake off b ++ e ++ zdrop (off + zlen e) b).

Fixpoint reverse_loop (fuel : nat) (domain : list Z) (i : Z) (b : list Z) : outcome (list Z) :=
  match fuel with
  | O => OutOfFuel
  | S f =>
      if decide (i < zlen domain) then
        let '(r, n) := DecodeRune (zdrop i domain) in
        let i := i + n in
        let! b := put_rune b (zlen domain - i) r in
        reverse_loop f domain i b
      else Val b
  end.

Definition reverseDomain (domain : list Z) : outcome (list Z) :=
  reverse_loop (S (length domain)) domain 0 (replicate (length domain) 0).

(** ** Matcher *)

(** The loop over the suffixes: [seen] and [domainList] so far. *)
Fixpoint add_suffixes (domainSuffix : list (list Z)) (generateLegacy : bool)
    (seen : gset (list Z)) (domainList : list (list Z)) : outcome (gset (list Z) * list (list Z)) :=
  match domainSuffix with
  | [] => Val (seen, domainList)
  | domain :: rest =>
      if decide (domain ∈ seen) then add_suffixes rest generateLegacy seen domainList else
      let seen := {[domain]} ∪ seen in
      let! c := idx domain 0 in
      if decide (c = dot) then
        let! k := reverseDomain (prefixLabel :: domain) in
        add_suffixes rest generateLegacy seen (domainList ++ [k])
      else if generateLegacy then
        let! k := reverseDomain domain in
        let suffixDomain := dot :: domain in
        if decide (suffixDomain ∈ seen) then add_suffixes rest generateLegacy seen (domainList ++ [k])
        else
          let! k' := reverseDomain (prefixLabel :: suffixDomain) in
          add_suffixes rest generateLegacy ({[suffixDomain]} ∪ seen) (domainList ++ [k] ++ [k'])
      else
        let! k := reverseDomain (rootLabel :: domain) in
        add_suffixes rest generateLegacy seen (domainList ++ [k])
  end.

Fixpoint add_domains (domains : list (list Z)) (seen : gset (list Z)) (domainList : list (list Z))
    : outcome (list (list Z)) :=
  match domains with
  | [] => Val domainList
  | domain :: rest =>
      if decide (domain ∈ seen) then add_domains rest seen domainList else
      let! k := reverseDomain domain in
      add_domains rest ({[domain]} ∪ seen) (domainList ++ [k])
  end.

(** A Matcher is its set. *)
Definition NewMatcher (domains domainSuffix : list (list Z)) (generateLegacy : bool) : outcome succinctSet :=
  let! p := add_suffixes domainSuffix generateLegacy ∅ [] in
  let! domainList := add_domains domains (fst p) (snd p) in
  newSuccinctSet (sort_strings domainList).

Definition ReadMatcher (r : reader) : outcome (result succinctSet * reader) := readSuccinctSet r.
Definition Matcher_Write (m : succinctSet) (w : writer) : outcome (option error * writer) := Write m w.

(** The loop over the labels of a node: [inl b] when it returns [b], [inr bmIdx]
    when it breaks at [currentChar]. *)
Fixpoint scan (fuel : nat) (ss : succinctSet) (nodeId bmIdx currentChar : Z) : outcome (bool + Z) :=
  match fuel with
  | O => OutOfFuel
  | S f =>
      let! b := getBit (labelBitmap ss) bmIdx in
      if decide (b <> 0) then Val (inl false) else
      let! nextLabel := idx (labels ss) (bmIdx - nodeId) in
      if decide (nextLabel = prefixLabel) then Val (inl true) else
      let! found :=
        if decide (nextLabel = rootLabel) then
          let! nextNodeId := countZeros (labelBitmap ss) (ranks ss) (bmIdx + 1) in
          let! leaf := getBit (leaves ss) nextNodeId in
          Val (bool_decide (currentChar = dot) && bool_decide (leaf <> 0))
        else Val false in
      if found : bool then Val (inl true)
      else if decide (nextLabel = currentChar) then Val (inr bmIdx)
      else scan f ss nodeId (bmIdx + 1) currentChar
  end.

(** The loop after the last character. *)
Fixpoint scan_end (fuel : nat) (ss : succinctSet) (nodeId bmIdx : Z) : outcome bool :=
  match fuel with
  | O => OutOfFuel
  | S f =>
      let! b := getBit (labelBitmap ss) bmIdx in
      if decide (b <> 0) then Val false else
      let! nextLabel := idx (labels ss) (bmIdx - nodeId) in
      if decide (nextLabel = prefixLabel \/ nextLabel = rootLabel) then Val true
      else scan_end f ss nodeId (bmIdx + 1)
  end.

(** Any run over the bits ends at a 1 within the bitmap. *)
Definition scan_fuel (ss : succinctSet) : nat := S (64 * length (labelBitmap ss)).

(** [nextNodeId] and the position of its bits. *)
Definition child_of (ss : succinctSet) (bmIdx : Z) : outcome (Z * Z) :=
  let! nodeId := countZeros (labelBitmap ss) (ranks ss) (bmIdx + 1) in
  let! p := selectIthOne (labelBitmap ss) (ranks ss) (selects ss) (nodeId - 1) in
  Val (nodeId, p + 1).

Fixpoint has_from (key : list Z) (ss : succinctSet) (nodeId bmIdx : Z) : outcome bool :=
  match key with
  | [] =>
      let! leaf := getBit (leaves ss) nodeId in
      if decide (leaf <> 0) then Val true else scan_end (scan_fuel ss) ss nodeId bmIdx
  | currentChar :: key =>
      let! r := scan (scan_fuel ss) ss nodeId bmIdx currentChar in
      match r with
      | inl b => Val b
      | inr bmIdx => let! p := child_of ss bmIdx in has_from key ss (fst p) (snd p)
      end
  end.
Definition has (ss : succinctSet) (key : list Z) : outcome bool := has_from key ss 0 0.

Definition Match (ss : succinctSet) (domain : list Z) : outcome bool :=
  let! key := reverseDomain domain in has ss key.

(** The first loop of Dump: [domainMap], [prefixMap] and [prefixList]. *)
Fixpoint dump_keys (ks : list (list Z)) (domainMap prefixMap : gset (list Z)) (prefixList : list (list Z))
    : outcome (gset (list Z) * gset (list Z) * list (list Z)) :=
  match ks with
  | [] => Val (domainMap, prefixMap, prefixList)
  | k :: ks =>
      let! key := reverseDomain k in
      let! c := idx key 0 in
      if decide (c = prefixLabel) then dump_keys ks domainMap ({[zdrop 1 key]} ∪ prefixMap) prefixList
      else if decide (c = rootLabel) then dump_keys ks domainMap prefixMap (prefixList ++ [zdrop 1 key])
      else dump_keys ks ({[key]} ∪ domainMap) prefixMap prefixList
  end.

(** The loop over prefixMap; Go visits it in any order, here in that of the list. *)
Fixpoint dump_prefixes (rawPrefixes : list (list Z)) (domainMap : gset (list Z)) (prefixList : list (list Z))
    : outcome (gset (list Z) * list (list Z)) :=
  match rawPrefixes with
  | [] => Val (domainMap, prefixList)
  | rawPrefix :: rest =>
      let! c := idx rawPrefix 0 in
      let rootDomain := zdrop 1 rawPrefix in
      if decide (c = dot /\ rootDomain ∈ domainMap)
      then dump_prefixes rest (domainMap ∖ {[rootDomain]}) (prefixList ++ [rootDomain])
      else dump_prefixes rest domainMap (prefixList ++ [rawPrefix])
  end.

(** [order] is the order in which the run time visits prefixMap. *)
Definition Dump (order : gset (list Z) -> list (list Z)) (ss : succinctSet)
    : outcome (list (list Z) * list (list Z)) :=
  let! ks := keys ss in
  let! p := dump_keys ks ∅ ∅ [] in
  let '(domainMap, prefixMap, prefixList) := p in
  let! q := dump_prefixes (order prefixMap) domainMap prefixList in
  let (domainMap, prefixList) := (q : gset (list Z) * list (list Z)) in
  Val (sort_strings (elements domainMap), sort_strings prefixList).
