(* ===== verification/DomainTheorems.v ===== *)
(** * What the domain matchers match

    The search in the succinct set is a walk in the trie of the keys, and the
    walk decides which rules cover a domain. *)

From Stdlib Require Import Sorted.
From S2P Require Import Prelude GoBits GoStrings GoIO Succinct SuccinctBits SuccinctTrie Domain.

(** ** reverseDomain *)

Lemma put_rune_spec off (e : list Z) r tl :
  e = EncodeRune r ->
  put_rune (replicate (length e + off) 0 ++ tl) (Z.of_nat off) r = Val (replicate off 0 ++ e ++ tl).
Proof.
  intros ->. set (e := EncodeRune r). unfold put_rune. fold e.
  rewrite decide_False by (rewrite !zlen_app; unfold zlen; rewrite !length_replicate; lia).
  f_equal. rewrite Nat.add_comm, replicate_add, <- app_assoc. unfold ztake, zdrop, zlen. f_equal; [|f_equal].
  - by rewrite Nat2Z.id, take_app_le, take_ge by (rewrite length_replicate; lia).
  - rewrite app_assoc, drop_app_ge by (rewrite length_app, !length_replicate; lia).
    rewrite length_app, !length_replicate. by replace (_ - _)%nat with 0%nat by lia.
Qed.

Lemma reverse_loop_spec pre rest fuel :
  Forall valid_rune (pre ++ rest) -> (length (utf8 rest) < fuel)%nat ->
  reverse_loop fuel (utf8 (pre ++ rest)) (zlen (utf8 pre)) (replicate (length (utf8 rest)) 0 ++ utf8 (rev pre))
  = Val (utf8 (rev (pre ++ rest))).
Proof.
  revert pre fuel. induction rest as [|r rest IH]; intros pre [|f] Hv Hf; try (cbn in Hf; lia).
  - rewrite app_nil_r. cbn [reverse_loop]. rewrite decide_False by lia. done.
  - pose proof Hv as Hv'. apply Forall_app in Hv as [_ Hv]. apply Forall_cons in Hv as [Hr _].
    destruct (Decode_Encode r (utf8 rest) Hr) as [Hd Hpos].
    cbn [reverse_loop]. rewrite utf8_app, utf8_cons, zdrop_app, Hd. rewrite utf8_cons, length_app in Hf.
    rewrite decide_True by (rewrite !zlen_app; pose proof (zlen_nonneg (utf8 rest)); lia).
    replace (zlen (utf8 pre ++ EncodeRune r ++ utf8 rest) - (zlen (utf8 pre) + zlen (EncodeRune r)))
      with (Z.of_nat (length (utf8 rest))) by (rewrite !zlen_app; unfold zlen; lia).
    rewrite length_app, (put_rune_spec (length (utf8 rest)) _ r) by done. cbn [obind].
    specialize (IH (pre ++ [r]) f). rewrite <- app_assoc in IH. cbn [app] in IH. unfold zlen in Hpos.
    rewrite <- (IH Hv') by lia. rewrite rev_app_distr. cbn [rev app].
    rewrite utf8_cons, !utf8_app, utf8_cons, zlen_app. change (utf8 [r]) with (EncodeRune r ++ []). by rewrite app_nil_r.
Qed.

(** On a domain in UTF-8 reverseDomain reverses the runes. *)
Lemma reverseDomain_utf8 rs : Forall valid_rune rs -> reverseDomain (utf8 rs) = Val (utf8 (rev rs)).
Proof.
  intros Hv. unfold reverseDomain. pose proof (reverse_loop_spec [] rs (S (length (utf8 rs))) Hv ltac:(lia)) as H.
  cbn [app rev] in H. change (utf8 []) with (@nil Z) in H. rewrite app_nil_r in H. exact H.
Qed.

(** ** The walk in the trie *)

Fixpoint scan_node (c : Z) (gs : list (Z * node)) : bool + node :=
  match gs with
  | [] => inl false
  | (l, g) :: gs =>
      if decide (l = prefixLabel) then inl true
      else if bool_decide (l = rootLabel) && bool_decide (c = dot) && leaf g then inl true
      else if decide (l = c) then inr g else scan_node c gs
  end.

Fixpoint node_has (key : list Z) (nd : node) : bool :=
  match key with
  | [] => leaf nd || existsb (fun l => bool_decide (l = prefixLabel \/ l = rootLabel)) (labels_of nd)
  | c :: key => match scan_node c (groups nd) with inl b => b | inr g => node_has key g end
  end.

Section Walk.
Context {root : node} {ss : succinctSet} {Q : list node} (HT : Trie root ss Q).

(** The test for a root label: a leaf below it, at a dot. *)
Lemma root_test i nd m l g c :
  Q !! i = Some nd -> groups nd !! m = Some (l, g) ->
  (if decide (l = rootLabel) then
     obind (countZeros (labelBitmap ss) (ranks ss) (Z.of_nat (pos Q i + m) + 1)) (fun nextNodeId =>
     obind (getBit (leaves ss) nextNodeId) (fun lf => Val (bool_decide (c = dot) && bool_decide (lf <> 0))))
   else Val false) = Val (bool_decide (l = rootLabel) && bool_decide (c = dot) && leaf g).
Proof.
  intros Hi Hg. destruct (decide (l = rootLabel)) as [E|E]; [|by rewrite bool_decide_false].
  rewrite (child_number HT i nd m l g Hi Hg). cbn [obind].
  destruct (leaf_bit HT _ g (child_at HT i nd m l g Hi Hg)) as (y & -> & Hy). cbn [obind].
  rewrite (bool_decide_true (l = rootLabel)) by done. cbn [andb]. do 2 f_equal.
  destruct (leaf g); [by apply bool_decide_true, Hy|apply bool_decide_false; intros H; by apply Hy in H].
Qed.

Lemma scan_spec fuel i nd m c :
  Q !! i = Some nd -> (m <= length (groups nd))%nat -> (length (groups nd) < fuel + m)%nat ->
  match scan_node c (drop m (groups nd)) with
  | inl b => scan fuel ss (Z.of_nat i) (Z.of_nat (pos Q i + m)) c = Val (inl b)
  | inr g => exists m', groups nd !! m' = Some (c, g)
      /\ scan fuel ss (Z.of_nat i) (Z.of_nat (pos Q i + m)) c = Val (inr (Z.of_nat (pos Q i + m')))
  end.
Proof.
  intros Hi. revert m. induction fuel as [|f IH]; intros m Hm Hf; [lia|]. cbn [scan].
  destruct (bitmap_bit HT i nd m Hi Hm) as (x & -> & Hx). cbn [obind].
  destruct (decide (m = length (groups nd))) as [->|Hne].
  { rewrite drop_ge by lia. cbn [scan_node]. by rewrite decide_True by (by apply Hx). }
  rewrite decide_False by (intros Hx0; by apply Hne, Hx).
  destruct (lookup_lt_is_Some_2 (groups nd) m) as [[l g] Hg]; [lia|].
  rewrite (drop_S _ _ _ Hg), (label_at HT i nd m l g Hi Hg). cbn [obind scan_node].
  destruct (decide (l = prefixLabel)); [done|].
  rewrite (root_test i nd m l g c Hi Hg).
  cbn [obind]. destruct (_ && _ && _); [done|].
  destruct (decide (l = c)) as [->|Hc]; [by exists m|].
  replace (Z.of_nat (pos Q i + m) + 1) with (Z.of_nat (pos Q i + S m)) by lia. apply IH; lia.
Qed.

Lemma scan_end_spec fuel i nd m :
  Q !! i = Some nd -> (m <= length (groups nd))%nat -> (length (groups nd) < fuel + m)%nat ->
  scan_end fuel ss (Z.of_nat i) (Z.of_nat (pos Q i + m))
  = Val (existsb (fun l => bool_decide (l = prefixLabel \/ l = rootLabel)) (drop m (labels_of nd))).
Proof.
  intros Hi. revert m. induction fuel as [|f IH]; intros m Hm Hf; [lia|]. cbn [scan_end].
  destruct (bitmap_bit HT i nd m Hi Hm) as (x & -> & Hx). cbn [obind].
  destruct (decide (m = length (groups nd))) as [->|Hne].
  { rewrite drop_ge by (unfold labels_of; rewrite length_fmap; lia). by rewrite decide_True by (by apply Hx). }
  rewrite decide_False by (intros Hx0; by apply Hne, Hx).
  destruct (lookup_lt_is_Some_2 (groups nd) m) as [[l g] Hg]; [lia|].
  rewrite (label_at HT i nd m l g Hi Hg). cbn [obind].
  assert (labels_of nd !! m = Some l) as Hl by (unfold labels_of; by rewrite list_lookup_fmap, Hg).
  rewrite (drop_S _ _ _ Hl). cbn [existsb].
  destruct (decide (l = prefixLabel \/ l = rootLabel)); [by rewrite bool_decide_true|rewrite bool_decide_false by done].
  replace (Z.of_nat (pos Q i + m) + 1) with (Z.of_nat (pos Q i + S m)) by lia. apply IH; lia.
Qed.

Lemma groups_lt_fuel i nd : Q !! i = Some nd -> (length (groups nd) < scan_fuel ss + 0)%nat.
Proof.
  intros Hi. pose proof (pos_lt i nd _ Hi (le_n _)) as Hp. destruct (tr_bitmap _ _ _ HT) as [Hl _].
  unfold scan_fuel. lia.
Qed.

Lemma child_of_spec i nd m c g :
  Q !! i = Some nd -> groups nd !! m = Some (c, g) ->
  exists i', Q !! i' = Some g
    /\ child_of ss (Z.of_nat (pos Q i + m)) = Val (Z.of_nat i', Z.of_nat (pos Q i' + 0)).
Proof.
  intros Hi Hg. exists (S (cnt Q i + m)). pose proof (child_at HT i nd m c g Hi Hg) as Hc. split; [done|].
  unfold child_of. rewrite (child_number HT i nd m c g Hi Hg). cbn [obind].
  rewrite (child_start HT (S (cnt Q i + m)) g ltac:(lia) Hc). cbn [obind]. do 2 f_equal. lia.
Qed.

Lemma has_from_spec key i nd :
  Q !! i = Some nd -> has_from key ss (Z.of_nat i) (Z.of_nat (pos Q i + 0)) = Val (node_has key nd).
Proof.
  revert i nd. induction key as [|c key IH]; intros i nd Hi; cbn [has_from node_has];
    pose proof (groups_lt_fuel i nd Hi) as Hfuel.
  - destruct (leaf_bit HT i nd Hi) as (x & -> & Hx). cbn [obind].
    rewrite (scan_end_spec (scan_fuel ss) i nd 0 Hi ltac:(lia) Hfuel), drop_0.
    destruct (leaf nd); [by rewrite decide_True by (by apply Hx)|rewrite decide_False; [done|]].
    intros H. by apply Hx in H.
  - pose proof (scan_spec (scan_fuel ss) i nd 0 c Hi ltac:(lia) Hfuel) as Hs. rewrite drop_0 in Hs.
    destruct (scan_node c (groups nd)) as [b|g]; [by rewrite Hs|].
    destruct Hs as (m & Hm & ->). cbn [obind]. destruct (child_of_spec i nd m c g Hi Hm) as (i' & Hi' & ->).
    cbn [obind fst snd]. by apply IH.
Qed.

Lemma has_spec key : has ss key = Val (node_has key root).
Proof.
  apply (has_from_spec key 0 root). by rewrite (bfs_root _ _ (tr_bfs _ _ _ HT)).
Qed.
End Walk.

(** ** What the walk decides *)

(** The keys [nd] cover [key]: a key with a prefix mark is a prefix of it, a
    key with a root mark is a prefix that ends before a dot or at the end, or
    it is a key itself. *)
Definition covers (nd : node) (key : list Z) : Prop :=
  exists p r, key = p ++ r /\
    ((exists k, p ++ prefixLabel :: k ∈ nd)
     \/ (head r = Some dot /\ p ++ [rootLabel] ∈ nd)
     \/ (r = [] /\ (p ∈ nd \/ exists k, p ++ rootLabel :: k ∈ nd))).

Lemma leaf_elem nd : StronglySorted str_lt nd -> leaf nd = true <-> [] ∈ nd.
Proof.
  intros Hs. destruct nd as [|[|c k] nd]; cbn [leaf].
  - split; [done|]. by intros ?%not_elem_of_nil.
  - split; [intros _; by left|done].
  - split; [done|]. pose proof (good_tail _ _ Hs) as Hf. rewrite Forall_forall in Hf.
    intros [|H]%elem_of_cons; [done|]. by apply Hf in H.
Qed.

Lemma label_elem nd l : StronglySorted str_lt nd -> l ∈ labels_of nd <-> exists k, l :: k ∈ nd.
Proof.
  intros Hs. unfold labels_of. rewrite list_elem_of_fmap. split.
  - intros ([l' g] & -> & Hin). destruct (groups_good nd Hs) as [Hg _]. rewrite Forall_forall in Hg.
    destruct (Hg g) as [Hne _]; [apply list_elem_of_fmap; by exists (l', g)|].
    destruct g as [|k g]; [done|]. exists k. apply groups_elem. exists (k :: g). split; [done|by left].
  - intros [k (g & Hg & _)%groups_elem]. by exists (l, g).
Qed.

Lemma scan_node_spec c gs :
  prefixLabel < c -> StronglySorted Z.lt (fst <$> gs) ->
  match scan_node c gs with
  | inl true => (exists g, (prefixLabel, g) ∈ gs) \/ (c = dot /\ exists g, (rootLabel, g) ∈ gs /\ leaf g = true)
  | inl false => (forall g, (prefixLabel, g) ∉ gs) /\ (c = dot -> forall g, (rootLabel, g) ∈ gs -> leaf g = false)
                 /\ forall g, (c, g) ∉ gs
  | inr g => (forall g, (prefixLabel, g) ∉ gs) /\ (c = dot -> forall g, (rootLabel, g) ∈ gs -> leaf g = false)
             /\ (c, g) ∈ gs
  end.
Proof.
  unfold prefixLabel. intros Hc Hs. induction gs as [|[l g] gs IH]; cbn [scan_node].
  { split_and!; [intros g|intros _ g|intros g]; by intros ?%not_elem_of_nil. }
  cbn [fmap list_fmap fst] in Hs. apply StronglySorted_inv in Hs as [Hs Hl]. specialize (IH Hs).
  rewrite Forall_forall in Hl. assert (forall l' g', (l', g') ∈ gs -> l < l') as Hlt.
  { intros l' g' Hin. apply Hl, list_elem_of_fmap. by exists (l', g'). }
  destruct (decide (l = prefixLabel)) as [->|Hp]; [left; exists g; by left|]. unfold prefixLabel in Hp.
  destruct (bool_decide (l = rootLabel) && bool_decide (c = dot) && leaf g) eqn:Hroot.
  { apply andb_true_iff in Hroot as [[?%bool_decide_eq_true ?%bool_decide_eq_true]%andb_true_iff ?]. subst.
    right. split; [done|]. exists g. split; [by left|done]. }
  assert (l = rootLabel -> c = dot -> leaf g = false) as Hroot'.
  { intros -> ->. by rewrite !bool_decide_true in Hroot by done. }
  destruct (decide (l = c)) as [->|Hne].
  { split_and!; [|intros ->|by left].
    - intros g' [[= ? _]|Hin]%elem_of_cons; [lia|]. specialize (Hlt _ _ Hin). lia.
    - unfold dot, rootLabel in *. intros g' [E|Hin]%elem_of_cons; [congruence|]. specialize (Hlt _ _ Hin). lia. }
  assert (forall g', (c, g') ∉ gs -> (c, g') ∉ (l, g) :: gs) as Hcs.
  { intros g' Hn [[= ? _]|Hin]%elem_of_cons; [congruence|done]. }
  assert (forall g', (13, g') ∉ gs -> (13, g') ∉ (l, g) :: gs) as Hps.
  { intros g' Hn [[= ? _]|Hin]%elem_of_cons; [congruence|done]. }
  destruct (scan_node c gs) as [[]|g'].
  - destruct IH as [[g' Hg]|[-> (g' & Hg & Hlf)]]; [left; exists g'; by right|].
    right. split; [done|]. exists g'. split; [by right|done].
  - destruct IH as (H1 & H2 & H3). split_and!; [by auto| |by auto].
    intros Ec g' [[= E ->]|Hin]%elem_of_cons; [by apply Hroot'|by apply H2].
  - destruct IH as (H1 & H2 & H3). split_and!; [by auto| |by right].
    intros Ec g'' [[= E ->]|Hin]%elem_of_cons; [by apply Hroot'|by apply H2].
Qed.

Lemma covers_nil nd :
  covers nd [] <-> (exists k, prefixLabel :: k ∈ nd) \/ [] ∈ nd \/ exists k, rootLabel :: k ∈ nd.
Proof.
  unfold covers. split.
  - intros (p & r & [-> ->]%eq_sym%app_eq_nil & H). cbn in H. naive_solver.
  - intros H. exists [], []. split; [done|]. cbn. naive_solver.
Qed.

Lemma covers_cons nd c key :
  covers nd (c :: key) <-> (exists k, prefixLabel :: k ∈ nd) \/ (c = dot /\ [rootLabel] ∈ nd)
    \/ exists g, (c, g) ∈ groups nd /\ covers g key.
Proof.
  unfold covers. split.
  - intros ([|c' p] & r & E & H); cbn in E.
    + subst r. cbn in H. destruct H as [H|[[[= ->] H]|[? _]]]; [by left|by right; left|done].
    + injection E as <- ->. right. right. destruct H as [[k H]|[[Hh H]|[-> [H|[k H]]]]]; cbn [app] in H;
        apply groups_elem in H as (g & Hg & Hk); exists g; (split; [done|]).
      * exists p, r. split; [done|]. left. by exists k.
      * exists p, r. split; [done|]. by right; left.
      * exists p, []. split; [done|]. right; right. split; [done|by left].
      * exists p, []. split; [done|]. right; right. split; [done|right; by exists k].
  - intros [H|[[-> H]|(g & Hg & p & r & -> & H)]].
    + exists [], (c :: key). split; [done|]. by left.
    + exists [], (dot :: key). split; [done|]. by right; left.
    + exists (c :: p), r. split; [done|].
      destruct H as [[k H]|[[Hh H]|[-> [H|[k H]]]]].
      * left. exists k. apply groups_elem. by exists g.
      * right; left. split; [done|]. apply groups_elem. by exists g.
      * right; right. split; [done|]. left. apply groups_elem. by exists g.
      * right; right. split; [done|]. right. exists k. apply groups_elem. by exists g.
Qed.

Lemma groups_unique nd c g g' :
  StronglySorted str_lt nd -> (c, g) ∈ groups nd -> (c, g') ∈ groups nd -> g = g'.
Proof.
  intros Hs. destruct (groups_good nd Hs) as [_ Hl]. unfold labels_of in Hl.
  induction (groups nd) as [|[l h] gs IH]; [by intros ?%not_elem_of_nil|].
  cbn [fmap list_fmap fst] in Hl. apply StronglySorted_inv in Hl as [Hl Hf]. rewrite Forall_forall in Hf.
  assert (forall g, (l, g) ∉ gs) as Hno.
  { intros g0 Hin. specialize (Hf l). rewrite list_elem_of_fmap in Hf. specialize (Hf ltac:(by exists (l, g0))). lia. }
  intros [E1|H1]%elem_of_cons [E2|H2]%elem_of_cons; simplify_eq; [done|..].
  - by apply Hno in H2.
  - by apply Hno in H1.
  - by apply IH.
Qed.

(** The walk decides [covers], for keys without control characters. *)
Lemma node_has_spec key nd :
  StronglySorted str_lt nd -> Forall (fun c => prefixLabel < c) key -> node_has key nd = true <-> covers nd key.
Proof.
  intros Hs Hk. revert nd Hs. induction Hk as [|c key Hc Hk IH]; intros nd Hs; cbn [node_has].
  - rewrite covers_nil, orb_true_iff, (leaf_elem nd Hs), existsb_exists.
    setoid_rewrite <- (label_elem nd prefixLabel Hs). setoid_rewrite <- (label_elem nd rootLabel Hs).
    split.
    + intros [H|(l & Hl%list_elem_of_In & [->| ->]%bool_decide_eq_true)]; auto.
    + intros [H|[H|H]]; [right; exists prefixLabel|by left|right; exists rootLabel];
        (split; [by apply list_elem_of_In|apply bool_decide_eq_true; auto]).
  - rewrite covers_cons. setoid_rewrite <- (label_elem nd prefixLabel Hs).
    destruct (groups_good nd Hs) as [Hg Hl]. pose proof (scan_node_spec c (groups nd) Hc Hl) as Hscan.
    assert (prefixLabel ∈ labels_of nd <-> exists g, (prefixLabel, g) ∈ groups nd) as Hpl.
    { unfold labels_of. rewrite list_elem_of_fmap. split; [intros ([l g] & -> & ?); by exists g|intros [g ?]; by exists (prefixLabel, g)]. }
    assert (forall g, (rootLabel, g) ∈ groups nd -> leaf g = true -> [rootLabel] ∈ nd) as Hr1.
    { intros g Hin Hlf. apply groups_elem. exists g. split; [done|]. apply leaf_elem; [|done].
      rewrite Forall_forall in Hg. apply (Hg g). apply list_elem_of_fmap. by exists (rootLabel, g). }
    assert ([rootLabel] ∈ nd -> exists g, (rootLabel, g) ∈ groups nd /\ leaf g = true) as Hr2.
    { intros (g & Hin & Hel)%groups_elem. exists g. split; [done|]. apply leaf_elem; [|done].
      rewrite Forall_forall in Hg. apply (Hg g). apply list_elem_of_fmap. by exists (rootLabel, g). }
    rewrite Hpl. destruct (scan_node c (groups nd)) as [[]|g].
    + split; [intros _|done]. destruct Hscan as [H|[-> (g & Hin & Hlf)]]; [by left|right; left; eauto].
    + destruct Hscan as (H1 & H2 & H3). split; [done|].
      intros [[g ?]|[[-> (g & Hin & Hlf)%Hr2]|(g & ? & _)]]; [by destruct (H1 g)| |by destruct (H3 g)].
      by rewrite (H2 eq_refl g Hin) in Hlf.
    + destruct Hscan as (H1 & H2 & H3). rewrite IH.
      2: { rewrite Forall_forall in Hg. apply (Hg g). apply list_elem_of_fmap. by exists (c, g). }
      split; [intros H; right; right; by exists g|].
      intros [[g' ?]|[[-> (g' & Hin & Hlf)%Hr2]|(g' & Hin & Hcov)]]; [by destruct (H1 g')| |].
      * by rewrite (H2 eq_refl g' Hin) in Hlf.
      * by rewrite (groups_unique nd c g g').
Qed.

(** ** The keys NewMatcher builds *)

(** Domains in UTF-8, given by their runes, without control characters up to '\r'. *)
Definition plain_rune (r : Z) : Prop := valid_rune r /\ prefixLabel < r.
Definition plain (rs : list Z) : Prop := Forall plain_rune rs.
#[export] Instance plain_dec rs : Decision (plain rs).
Proof. unfold plain, plain_rune. apply _. Defined.

(** The marked strings of a suffix. *)
Definition keysof (legacy : bool) (s : list Z) : list (list Z) :=
  match s with
  | [] => []
  | c :: _ => if decide (c = dot) then [prefixLabel :: s]
              else if legacy then [s; prefixLabel :: dot :: s] else [rootLabel :: s]
  end.
Definition rkey (k : list Z) : list Z := utf8 (rev k).
Definition bytes_total (ks : list (list Z)) : nat := sum_list (length <$> ks).

Lemma plain_valid rs : plain rs -> Forall valid_rune rs.
Proof. intros H. eapply Forall_impl; [exact H|]. by intros r []. Qed.

Lemma mark_plain c rs : 0 <= c < 128 -> plain rs -> reverseDomain (c :: utf8 rs) = Val (rkey (c :: rs)).
Proof.
  intros Hc Hp. assert (EncodeRune c = [c]) as Ec by (unfold EncodeRune; by rewrite decide_True by lia).
  assert (c :: utf8 rs = utf8 (c :: rs)) as -> by (by rewrite utf8_cons, Ec).
  apply reverseDomain_utf8. constructor; [left; lia|by apply plain_valid].
Qed.

Lemma first_rune r rs : plain (r :: rs) -> exists b, idx (utf8 (r :: rs)) 0 = Val b /\ (b = dot <-> r = dot).
Proof.
  intros [[Hv _] _]%Forall_cons. rewrite utf8_cons.
  destruct (EncodeRune r) as [|b e] eqn:E; [by apply EncodeRune_ne in E|].
  exists b. split; [done|]. pose proof (EncodeRune_bytes r b Hv) as Hb. rewrite E in Hb.
  destruct Hb as [[-> _]|Hb]; [by left|done|]. unfold dot. split; [lia|]. intros ->. cbn in E. injection E. lia.
Qed.

Section Build.
Context (legacy : bool).

(** What the first loop has done with the suffixes [P]. *)
Record Inserted (P : list (list Z)) (seen : gset (list Z)) (K : list (list Z)) : Prop := {
  ins_seen : forall x, x ∈ seen <->
    exists s, s ∈ P /\ (x = utf8 s \/ legacy = true /\ head s <> Some dot /\ x = utf8 (dot :: s));
  ins_sound : forall k, k ∈ K -> exists s, s ∈ P /\ k ∈ keysof legacy s;
  ins_complete : forall s k, s ∈ P -> k ∈ keysof legacy s -> k ∈ K;
  ins_nodup : NoDup K;
  ins_size : (bytes_total (rkey <$> K) <= sum_list_with (fun s => 2 * length (utf8 s) + 3) P)%nat;
}.

Lemma rkey_length k : length (rkey k) = length (utf8 k).
Proof.
  unfold rkey, utf8. induction k as [|r k IH]; [done|]. cbn [rev].
  rewrite bind_app, bind_singleton, bind_cons, !length_app, IH. lia.
Qed.

Lemma bytes_total_app a b : bytes_total (a ++ b) = (bytes_total a + bytes_total b)%nat.
Proof. unfold bytes_total. by rewrite fmap_app, (sum_list_with_app id). Qed.

Lemma sum_snoc (f : list Z -> nat) P s : sum_list_with f (P ++ [s]) = (sum_list_with f P + f s)%nat.
Proof. rewrite sum_list_with_app. cbn. lia. Qed.

Lemma mark_size c s : 0 <= c < 128 -> length (utf8 (c :: s)) = S (length (utf8 s)).
Proof. intros Hc. rewrite utf8_cons. unfold EncodeRune. by rewrite decide_True by lia. Qed.

Lemma bytes_total_single k : bytes_total (rkey <$> [k]) = length (utf8 k).
Proof. unfold bytes_total. cbn. rewrite rkey_length. lia. Qed.

(** Two plain strings with the same encoding, also below a dot. *)
Lemma plain_dot s : plain s -> plain (dot :: s).
Proof. intros H. constructor; [|done]. split; [by left|done]. Qed.

Lemma utf8_plain_inj a b : plain a -> plain b -> utf8 a = utf8 b -> a = b.
Proof. intros. apply utf8_inj; auto using plain_valid. Qed.

Definition suffix_ok (s : list Z) : Prop := plain s /\ s <> [].

Lemma keysof_dot s : keysof legacy (dot :: s) = [prefixLabel :: dot :: s].
Proof. done. Qed.

Lemma keysof_nondot s :
  s <> [] -> head s <> Some dot ->
  keysof legacy s = if legacy then [s; prefixLabel :: dot :: s] else [rootLabel :: s].
Proof. destruct s as [|c s]; [done|]. intros _ Hh. cbn [keysof]. by rewrite decide_False by (by intros ->). Qed.

Lemma suffix_cases s : suffix_ok s -> (exists s', s = dot :: s') \/ head s <> Some dot.
Proof. intros [_ Hne]. destruct s as [|c s]; [done|]. destruct (decide (c = dot)) as [->|]; [left; by exists s|right; by intros [= ->]]. Qed.

Lemma plain_not_marked c s : c <= prefixLabel -> ~ plain (c :: s).
Proof. intros Hc [[_ H] _]%Forall_cons. lia. Qed.

(** Two suffixes with a key in common. *)
Lemma keysof_common s s' k :
  suffix_ok s -> suffix_ok s' -> k ∈ keysof legacy s -> k ∈ keysof legacy s' ->
  s = s' \/ (legacy = true /\ head s' <> Some dot /\ s = dot :: s')
  \/ (legacy = true /\ s' = dot :: s /\ k = prefixLabel :: dot :: s).
Proof.
  intros Hs Hs'. destruct (suffix_cases s Hs) as [[x ->]|Hh], (suffix_cases s' Hs') as [[x' ->]|Hh'];
    rewrite ?keysof_dot, ?keysof_nondot by (done || apply Hs || apply Hs'); destruct legacy;
    rewrite ?elem_of_cons, ?elem_of_nil.
  all: intros; destruct_or?; subst; simplify_eq; auto.
  all: exfalso; first [by (eapply plain_not_marked; [|apply Hs]; unfold prefixLabel, rootLabel, dot; lia)
                      |by (eapply plain_not_marked; [|apply Hs']; unfold prefixLabel, rootLabel, dot; lia)].
Qed.

Lemma keysof_member k s : k ∈ keysof legacy s -> s <> [].
Proof. destruct s; [by intros ?%not_elem_of_nil|done]. Qed.

(** A suffix that was seen before: its keys are there. *)
Lemma inserted_skip P seen K s :
  Forall suffix_ok (P ++ [s]) -> Inserted P seen K -> utf8 s ∈ seen -> Inserted (P ++ [s]) seen K.
Proof.
  intros [Hp [Hs _]%Forall_cons]%Forall_app [I1 I2 I3 I4 I5] Hin. rewrite Forall_forall in Hp.
  assert (s ∈ P \/ legacy = true /\ exists s', s' ∈ P /\ head s' <> Some dot /\ s = dot :: s') as Hcase.
  { apply I1 in Hin as (s' & Hs' & [E|(Hl & Hh & E)]).
    - left. rewrite (utf8_plain_inj s s'); [done|apply Hs|by apply Hp|done].
    - right. split; [done|]. exists s'. split_and!; [done..|]. apply utf8_plain_inj; [apply Hs|by apply plain_dot, Hp|done]. }
  split; [| | |done|rewrite sum_snoc; lia].
  - intros x. rewrite I1. split.
    + intros (s' & Hs' & H). exists s'. rewrite elem_of_app. auto.
    + intros (s' & [Hs'|Hs']%elem_of_app & H); [by exists s'|]. apply list_elem_of_singleton in Hs' as ->.
      destruct Hcase as [Hc|(Hl & s' & Hs' & Hh & ->)]; [by exists s|].
      destruct H as [->|(_ & H & _)]; [|done]. exists s'. split; [done|]. by right.
  - intros k (s' & Hs' & Hk)%I2. exists s'. rewrite elem_of_app. auto.
  - intros s' k [Hs'|Hs']%elem_of_app Hk; [by apply (I3 s')|]. apply list_elem_of_singleton in Hs' as ->.
    destruct Hcase as [Hc|(Hl & s' & Hs' & Hh & ->)]; [by apply (I3 s)|].
    rewrite keysof_dot in Hk. apply list_elem_of_singleton in Hk as ->. apply (I3 s'); [done|].
    rewrite keysof_nondot by (done || by apply Hp). rewrite Hl. right. by left.
Qed.

(** A new one. *)
Lemma inserted_add P seen K s seen' new :
  Inserted P seen K ->
  (forall x, x ∈ seen' <-> x ∈ seen \/ x = utf8 s \/ legacy = true /\ head s <> Some dot /\ x = utf8 (dot :: s)) ->
  (forall k, k ∈ new -> k ∈ keysof legacy s) -> (forall k, k ∈ keysof legacy s -> k ∈ new \/ k ∈ K) ->
  NoDup new -> (forall k, k ∈ new -> k ∉ K) ->
  (bytes_total (rkey <$> new) <= 2 * length (utf8 s) + 3)%nat ->
  Inserted (P ++ [s]) seen' (K ++ new).
Proof.
  intros [I1 I2 I3 I4 I5] Hseen Hnew Hall Hnd Hfresh Hsize. split.
  - intros x. rewrite Hseen, I1. split.
    + intros [(s' & Hs' & H)|H]; [exists s'|exists s]; rewrite elem_of_app, list_elem_of_singleton; auto.
    + intros (s' & [Hs'|Hs']%elem_of_app & H); [left; by exists s'|]. apply list_elem_of_singleton in Hs' as ->. by right.
  - intros k [(s' & Hs' & Hk)%I2|Hk]%elem_of_app; [exists s'|exists s]; rewrite elem_of_app, list_elem_of_singleton; auto.
  - intros s' k [Hs'|Hs']%elem_of_app Hk; rewrite elem_of_app; [left; by apply (I3 s')|].
    apply list_elem_of_singleton in Hs' as ->. destruct (Hall k Hk); auto.
  - apply NoDup_app. split_and!; [done| |done]. intros k Hk Hk'. by apply (Hfresh k).
  - rewrite sum_snoc, fmap_app, bytes_total_app. lia.
Qed.

(** A key of a new suffix is there only if the suffix came with its dot before. *)
Lemma key_fresh P seen K s k :
  Forall suffix_ok (P ++ [s]) -> Inserted P seen K -> utf8 s ∉ seen -> k ∈ keysof legacy s -> k ∈ K ->
  legacy = true /\ dot :: s ∈ P /\ k = prefixLabel :: dot :: s.
Proof.
  intros [Hp [Hs _]%Forall_cons]%Forall_app [I1 I2 _ _ _] Hn Hk (s' & Hs' & Hk')%I2. rewrite Forall_forall in Hp.
  destruct (keysof_common s s' k) as [->|[(Hl & Hh & ->)|(Hl & -> & ->)]]; auto; exfalso; apply Hn, I1; exists s';
    (split; [done|]); auto.
Qed.

Lemma snoc_rkey K k : (rkey <$> K) ++ [rkey k] = rkey <$> (K ++ [k]).
Proof. by rewrite fmap_app. Qed.

Lemma add_suffixes_spec R P seen K :
  Forall suffix_ok (P ++ R) -> Inserted P seen K ->
  exists seen' K', add_suffixes (utf8 <$> R) legacy seen (rkey <$> K) = Val (seen', rkey <$> K')
    /\ Inserted (P ++ R) seen' K'.
Proof.
  revert P seen K. induction R as [|s R IH]; intros P seen K Hok HI.
  { exists seen, K. by rewrite app_nil_r. }
  rewrite (cons_middle s P R) , app_assoc in *. cbn [fmap list_fmap add_suffixes].
  pose proof Hok as Hok'. apply Forall_app in Hok' as [Hok1 _].
  pose proof (proj1 (Forall_app _ _ _) Hok1) as [_ [Hs _]%Forall_cons].
  destruct (decide (utf8 s ∈ seen)) as [Hin|Hnin]; [by apply IH, inserted_skip|].
  destruct s as [|c s]; [by destruct Hs|]. destruct (first_rune c s (proj1 Hs)) as (b & Hb & Hdot).
  rewrite Hb. cbn [obind].
  pose proof (fun k Hk HK => key_fresh P seen K (c :: s) k Hok1 HI Hnin Hk HK) as Hfresh.
  destruct (decide (b = dot)) as [E|Hndot].
  - apply Hdot in E as ->. rewrite mark_plain by (done || apply Hs). cbn [obind].
    rewrite (snoc_rkey K). apply IH; [done|]. apply (inserted_add P seen K (dot :: s)); try done.
    + intros x. rewrite elem_of_union, elem_of_singleton. naive_solver.
    + intros k Hk. by left.
    + apply NoDup_singleton.
    + intros k Hk HK. destruct (Hfresh k Hk HK) as (_ & _ & E). apply list_elem_of_singleton in Hk as ->. injection E as E. by apply (f_equal length) in E; cbn in E; lia.
    + rewrite bytes_total_single, mark_size by done. lia.
  - assert (c <> dot) as Hc by (intros ->; by apply Hndot, Hdot).
    assert (head (c :: s) <> Some dot) as Hh by (by intros [= ->]).
    pose proof (keysof_nondot (c :: s) ltac:(done) Hh) as Hkeys. rewrite Hkeys in Hfresh.
    destruct legacy eqn:Hl; rewrite <- Hl in Hkeys, Hfresh.
    + rewrite reverseDomain_utf8 by apply plain_valid, Hs. cbn [obind].
      change (utf8 (rev (c :: s))) with (rkey (c :: s)).
      assert (dot :: utf8 (c :: s) = utf8 (dot :: c :: s)) as -> by done.
      destruct (decide (utf8 (dot :: c :: s) ∈ {[utf8 (c :: s)]} ∪ seen)) as [Hd|Hd].
      * rewrite (snoc_rkey K). apply IH; [done|].
        assert (utf8 (dot :: c :: s) ∈ seen) as Hd'.
        { apply elem_of_union in Hd as [Hd%elem_of_singleton|Hd]; [|done].
          apply utf8_plain_inj in Hd; [|by apply plain_dot, Hs|apply Hs].
          by apply (f_equal length) in Hd; cbn in Hd; lia. }
        assert (prefixLabel :: dot :: c :: s ∈ K) as HinK.
        { destruct HI as [I1 _ I3 _ _]. apply I1 in Hd' as (s' & Hs' & [E|(_ & Hh' & E)]).
          - apply (I3 s'); [done|]. apply utf8_plain_inj in E as <-; [by left|by apply plain_dot, Hs|].
            rewrite Forall_app, Forall_forall in Hok1. by apply Hok1.
          - exfalso. apply Hnin, I1. exists s'. split; [done|]. left.
            rewrite !utf8_cons in E. by apply (app_inv_head (EncodeRune dot)) in E. }
        apply (inserted_add P seen K (c :: s)); try done.
        -- intros x. rewrite elem_of_union, elem_of_singleton. naive_solver.
        -- intros k ->%list_elem_of_singleton. rewrite Hkeys. by left.
        -- intros k. rewrite Hkeys. rewrite !elem_of_cons, elem_of_nil. naive_solver.
        -- apply NoDup_singleton.
        -- intros k ->%list_elem_of_singleton HK. destruct (Hfresh (c :: s) ltac:(by left) HK) as (_ & _ & E).
           apply (f_equal length) in E. cbn in E. lia.
        -- rewrite bytes_total_single. lia.
      * rewrite mark_plain by (done || by apply plain_dot, Hs). cbn [obind].
        rewrite app_assoc, (snoc_rkey K), (snoc_rkey (K ++ _)), <- app_assoc. apply IH; [done|].
        apply (inserted_add P seen K (c :: s)); try done.
        -- intros x. rewrite !elem_of_union, !elem_of_singleton. naive_solver.
        -- intros k. by rewrite Hkeys.
        -- intros k. rewrite Hkeys. by left.
        -- constructor; [|apply NoDup_singleton]. rewrite list_elem_of_singleton.
           intros E. apply (f_equal length) in E. cbn in E. lia.
        -- intros k Hk HK. destruct (Hfresh k Hk HK) as (_ & HP & _). apply Hd, elem_of_union. right.
           apply (ins_seen _ _ _ HI). exists (dot :: c :: s). split; [done|by left].
        -- cbn [app]. change (rkey <$> [c :: s; prefixLabel :: dot :: c :: s]) with ((rkey <$> [c :: s]) ++ (rkey <$> [prefixLabel :: dot :: c :: s])).
           rewrite bytes_total_app, !bytes_total_single, !(mark_size _ (_ :: _)) by done. lia.
    + rewrite mark_plain by (done || apply Hs). cbn [obind]. rewrite (snoc_rkey K). apply IH; [done|].
      apply (inserted_add P seen K (c :: s)); try done.
      * intros x. rewrite elem_of_union, elem_of_singleton, Hl. split; [intros []; auto|].
        intros [|[|[? _]]]; auto; done.
      * intros k. by rewrite Hkeys.
      * intros k. rewrite Hkeys. by left.
      * apply NoDup_singleton.
      * intros k Hk HK. destruct (Hfresh k Hk HK) as [E _]. congruence.
      * rewrite bytes_total_single, mark_size by done. lia.
Qed.

(** The second loop adds the domains that were not seen. *)
Lemma add_domains_spec R seen K0 :
  Forall plain R ->
  exists KD, add_domains (utf8 <$> R) seen K0 = Val (K0 ++ (rkey <$> KD)) /\ NoDup KD
    /\ (forall k, k ∈ KD -> k ∈ R /\ utf8 k ∉ seen) /\ (forall d, d ∈ R -> d ∈ KD \/ utf8 d ∈ seen)
    /\ (bytes_total (rkey <$> KD) <= bytes_total (utf8 <$> R))%nat.
Proof.
  intros Hp. revert seen K0. induction Hp as [|d R Hd Hp IH]; intros seen K0; cbn [fmap list_fmap add_domains].
  { exists []. rewrite app_nil_r. split_and!; [done|apply NoDup_nil_2| | |done]; by intros k ?%not_elem_of_nil. }
  assert (forall x y, bytes_total (x :: y) = (length x + bytes_total y)%nat) as Hbc by done.
  destruct (decide (utf8 d ∈ seen)) as [Hin|Hnin].
  - destruct (IH seen K0) as (KD & -> & Hnd & Hsnd & Hcmp & Hsz). exists KD. split_and!; [done|done|..].
    + intros k Hk. destruct (Hsnd k Hk). split; [by right|done].
    + intros d' [->|Hd']%elem_of_cons; [by right|by apply Hcmp].
    + rewrite Hbc. lia.
  - rewrite reverseDomain_utf8 by (by apply plain_valid). cbn [obind]. fold (rkey d).
    destruct (IH ({[utf8 d]} ∪ seen) (K0 ++ [rkey d])) as (KD & -> & Hnd & Hsnd & Hcmp & Hsz). exists (d :: KD).
    split_and!.
    + by rewrite <- app_assoc.
    + constructor; [|done]. intros Hin. destruct (Hsnd d Hin) as [_ H]. apply H. set_solver.
    + intros k [->|Hk]%elem_of_cons; [split; [by left|done]|]. destruct (Hsnd k Hk). split; [by right|set_solver].
    + intros d' [->|Hd']%elem_of_cons; [left; by left|]. destruct (Hcmp d' Hd') as [?|[E%elem_of_singleton|?]%elem_of_union].
      * left. by right.
      * left. rewrite Forall_forall in Hp. rewrite (utf8_plain_inj d' d) by auto. by left.
      * by right.
    + cbn [fmap list_fmap]. rewrite !Hbc, rkey_length. cbn [fmap list_fmap] in Hsz. lia.
Qed.
End Build.

(** ** The theorem *)

(** [s] as a rule covers the domain [d]: a rule with a leading dot covers the
    domains that end in it, another one covers itself and its subdomains. *)
Definition suffix_covers (s d : list Z) : Prop :=
  match s with
  | c :: _ => if decide (c = dot) then exists x, d = x ++ s else d = s \/ exists x, d = x ++ dot :: s
  | [] => False
  end.

Lemma plain_bytes s : plain s -> Forall (fun b => prefixLabel < b) (utf8 s).
Proof.
  unfold prefixLabel. intros Hp. apply Forall_forall. intros b Hb. apply list_elem_of_bind in Hb as (r & Hb & Hr).
  unfold plain in Hp. rewrite Forall_forall in Hp. destruct (Hp r Hr) as [Hv Hgt]. unfold prefixLabel in Hgt.
  destruct (EncodeRune_bytes r b Hv Hb) as [[-> _]|?]; lia.
Qed.

Lemma plain_rev s : plain s -> plain (rev s).
Proof. apply List.Forall_rev. Qed.

Lemma split_mark (p k u : list Z) m m' :
  m ∉ u -> p ++ m :: k = u ++ [m'] -> k = [] /\ p = u /\ m = m'.
Proof.
  intros Hm E. destruct k as [|z y _] using rev_ind.
  - by apply app_inj_tail in E as [-> ->].
  - rewrite app_comm_cons, app_assoc in E. apply app_inj_tail in E as [E ->]. exfalso. apply Hm. rewrite <- E.
    apply elem_of_app. right. by left.
Qed.

Lemma rkey_mark m s : 0 <= m < 128 -> rkey (m :: s) = utf8 (rev s) ++ [m].
Proof.
  intros Hm. unfold rkey. cbn [rev]. rewrite utf8_app. f_equal. change (utf8 [m]) with (EncodeRune m ++ []).
  unfold EncodeRune. by rewrite decide_True by lia.
Qed.

(** A string with a mark that starts like a key is that key. *)
Lemma marked_key m p k key :
  m = prefixLabel \/ m = rootLabel -> p ++ m :: k = rkey key ->
  (exists s, plain s /\ (key = s \/ key = prefixLabel :: s \/ key = rootLabel :: s)) ->
  exists s, plain s /\ key = m :: s /\ p = utf8 (rev s) /\ k = [].
Proof.
  unfold prefixLabel, rootLabel. intros Hm E (s & Hs & Hkey).
  assert (m ∉ utf8 (rev s)) as Hnin.
  { pose proof (plain_bytes _ (plain_rev _ Hs)) as Hf. rewrite Forall_forall in Hf. intros H%Hf.
    unfold prefixLabel in H. lia. }
  destruct Hkey as [->|Hkey].
  - exfalso. apply Hnin. change (utf8 (rev s)) with (rkey s). rewrite <- E. apply elem_of_app. right. by left.
  - destruct Hkey as [-> | ->]; rewrite rkey_mark in E by lia; apply split_mark in E as (-> & -> & ->); by eauto.
Qed.

Section Matching.
Context (legacy : bool) (D S K0 KD : list (list Z)) (seen : gset (list Z)).
Context (HD : Forall plain D) (HS : Forall suffix_ok S).
Context (HI : Inserted legacy S seen K0).
Context (HK1 : forall k, k ∈ KD -> k ∈ D /\ utf8 k ∉ seen) (HK2 : forall d, d ∈ D -> d ∈ KD \/ utf8 d ∈ seen).
Context (HKnd : NoDup KD).
Let K := K0 ++ KD.

Lemma keysof_form s k : s ∈ S -> k ∈ keysof legacy s ->
  exists s', plain s' /\ (k = s' \/ k = prefixLabel :: s' \/ k = rootLabel :: s').
Proof.
  intros Hs Hk. rewrite Forall_forall in HS. destruct (HS s Hs) as [Hp Hne].
  destruct (suffix_cases s (HS s Hs)) as [[x ->]|Hh].
  - rewrite keysof_dot in Hk. apply list_elem_of_singleton in Hk as ->. eauto.
  - rewrite keysof_nondot in Hk by done. destruct legacy.
    + apply elem_of_cons in Hk as [->| ->%list_elem_of_singleton]; [by eauto|].
      exists (dot :: s). split; [by apply plain_dot|auto].
    + apply list_elem_of_singleton in Hk as ->. eauto.
Qed.

Lemma key_form k : k ∈ K -> exists s, plain s /\ (k = s \/ k = prefixLabel :: s \/ k = rootLabel :: s).
Proof.
  intros [Hk|Hk]%elem_of_app.
  - destruct (ins_sound _ _ _ _ HI k Hk) as (s & Hs & Hks). by apply (keysof_form s).
  - destruct (HK1 k Hk) as [Hd _]. rewrite Forall_forall in HD. exists k. auto.
Qed.

Lemma K_nodup : NoDup K.
Proof.
  apply NoDup_app. split_and!; [apply HI| |done]. intros k Hk HkD. destruct (HK1 k HkD) as [Hd Hn].
  destruct (ins_sound _ _ _ _ HI k Hk) as (s & Hs & Hks). rewrite Forall_forall in HD, HS.
  destruct (suffix_cases s (HS s Hs)) as [[x ->]|Hh].
  - rewrite keysof_dot in Hks. apply list_elem_of_singleton in Hks as ->. by apply (plain_not_marked prefixLabel _ (Z.le_refl _) (HD _ Hd)).
  - rewrite keysof_nondot in Hks by (done || by apply HS). destruct legacy.
    + apply elem_of_cons in Hks as [->| ->%list_elem_of_singleton].
      * apply Hn, (ins_seen _ _ _ _ HI). exists s. auto.
      * by apply (plain_not_marked prefixLabel _ (Z.le_refl _) (HD _ Hd)).
    + apply list_elem_of_singleton in Hks as ->. apply (plain_not_marked rootLabel _ ltac:(done) (HD _ Hd)).
Qed.

(** The marked keys are those of the suffixes. *)
Lemma prefix_keys s : plain s -> prefixLabel :: s ∈ K <->
  (s ∈ S /\ head s = Some dot) \/ (legacy = true /\ exists s', s' ∈ S /\ head s' <> Some dot /\ s = dot :: s').
Proof.
  intros Hp. unfold K. rewrite elem_of_app. pose proof HS as HS'. rewrite Forall_forall in HS', HD. split.
  - intros [Hk|Hk].
    + destruct (ins_sound _ _ _ _ HI _ Hk) as (s' & Hs' & Hks).
      destruct (suffix_cases s' (HS' s' Hs')) as [[x ->]|Hh].
      * rewrite keysof_dot in Hks. apply list_elem_of_singleton in Hks as [= ->]. by left.
      * rewrite keysof_nondot in Hks by (done || by apply HS'). destruct legacy.
        -- apply elem_of_cons in Hks as [E|[= ->]%list_elem_of_singleton].
           ++ exfalso. subst s'. by apply (plain_not_marked prefixLabel s (Z.le_refl _)), (HS' _ Hs').
           ++ right. split; [done|]. by exists s'.
        -- by apply list_elem_of_singleton in Hks as [=].
    + exfalso. destruct (HK1 _ Hk) as [Hd _]. by apply (plain_not_marked prefixLabel s (Z.le_refl _)), HD.
  - intros [[Hs Hh]|(Hl & s' & Hs' & Hh & ->)]; left.
    + apply (ins_complete _ _ _ _ HI s); [done|]. destruct s as [|c s]; [done|]. injection Hh as ->.
      rewrite keysof_dot. by left.
    + apply (ins_complete _ _ _ _ HI s'); [done|]. rewrite keysof_nondot by (done || by apply HS').
      rewrite Hl. right. by left.
Qed.

Lemma root_keys s : plain s -> rootLabel :: s ∈ K <-> legacy = false /\ s ∈ S /\ head s <> Some dot.
Proof.
  intros Hp. unfold K. rewrite elem_of_app. pose proof HS as HS'. rewrite Forall_forall in HS', HD. split.
  - intros [Hk|Hk].
    + destruct (ins_sound _ _ _ _ HI _ Hk) as (s' & Hs' & Hks).
      destruct (suffix_cases s' (HS' s' Hs')) as [[x ->]|Hh].
      * rewrite keysof_dot in Hks. by apply list_elem_of_singleton in Hks as [=].
      * rewrite keysof_nondot in Hks by (done || by apply HS'). destruct legacy.
        -- exfalso. apply elem_of_cons in Hks as [E|[=]%list_elem_of_singleton].
           subst s'. by apply (plain_not_marked rootLabel s ltac:(done)), (HS' _ Hs').
        -- apply list_elem_of_singleton in Hks as [= ->]. done.
    + exfalso. destruct (HK1 _ Hk) as [Hd _]. by apply (plain_not_marked rootLabel s ltac:(done)), HD.
  - intros (Hl & Hs & Hh). left. apply (ins_complete _ _ _ _ HI s); [done|].
    rewrite keysof_nondot by (done || by apply HS'). rewrite Hl. by left.
Qed.

Lemma plain_keys s : plain s -> s ∈ K <->
  s ∈ KD \/ (legacy = true /\ s ∈ S /\ head s <> Some dot).
Proof.
  intros Hp. unfold K. rewrite elem_of_app. pose proof HS as HS'. rewrite Forall_forall in HS'. split.
  - intros [Hk|Hk]; [|by left]. destruct (ins_sound _ _ _ _ HI _ Hk) as (s' & Hs' & Hks).
    destruct (suffix_cases s' (HS' s' Hs')) as [[x ->]|Hh].
    + rewrite keysof_dot in Hks. apply list_elem_of_singleton in Hks as ->.
      exfalso. by apply (plain_not_marked _ _ (Z.le_refl _) Hp).
    + rewrite keysof_nondot in Hks by (done || by apply HS'). destruct legacy.
      * apply elem_of_cons in Hks as [->| ->%list_elem_of_singleton]; [by right|].
        exfalso. by apply (plain_not_marked _ _ (Z.le_refl _) Hp).
      * apply list_elem_of_singleton in Hks as ->. exfalso. by apply (plain_not_marked rootLabel s' ltac:(done) Hp).
  - intros [Hk|(Hl & Hs & Hh)]; [by right|]. left. apply (ins_complete _ _ _ _ HI s); [done|].
    rewrite keysof_nondot by (done || by apply HS'). rewrite Hl. by left.
Qed.

Lemma seen_covered d : plain d -> utf8 d ∈ seen -> exists s, s ∈ S /\ suffix_covers s d.
Proof.
  intros Hp (s & Hs & H)%(ins_seen _ _ _ _ HI). pose proof HS as HS'. rewrite Forall_forall in HS'. destruct (HS' s Hs) as [Hps Hne].
  exists s. split; [done|]. destruct s as [|c s]; [done|]. unfold suffix_covers.
  destruct H as [E|(_ & Hh & E)]; apply utf8_plain_inj in E as ->; try done; try by apply plain_dot.
  - destruct (decide _); [by exists []|by left].
  - rewrite decide_False by (intros ->; by apply Hh). right. by exists [].
Qed.

(** The search covers exactly the domains the rules cover. *)
Lemma covers_rules d :
  plain d ->
  covers (sort_strings (rkey <$> K)) (utf8 (rev d)) <-> d ∈ D \/ exists s, s ∈ S /\ suffix_covers s d.
Proof.
  intros Hp. assert (forall x, x ∈ sort_strings (rkey <$> K) <-> exists k, x = rkey k /\ k ∈ K) as Hel.
  { intros x. rewrite elem_of_sort, list_elem_of_fmap. naive_solver. }
  pose proof HS as HS'. rewrite Forall_forall in HS'.
  assert (forall s r, plain s -> utf8 (rev d) = utf8 (rev s) ++ r -> exists x, d = x ++ s /\ r = utf8 (rev x)) as Hsplit.
  { intros s r Hs E. symmetry in E. apply utf8_prefix in E as (y & E & ->); try by apply plain_valid, plain_rev.
    exists (rev y). split; [|by rewrite rev_involutive]. by rewrite <- (rev_involutive d), E, rev_app_distr, rev_involutive. }
  split.
  - intros (p & r & E & [[k Hk]|[[Hh Hk]|[-> [Hk|[k Hk]]]]]); apply Hel in Hk as (key & Ek & Hkey);
      pose proof (key_form key Hkey) as Hform.
    + destruct (marked_key prefixLabel p k key (or_introl eq_refl) Ek Hform) as (s & Hs & -> & -> & _).
      destruct (Hsplit s r Hs E) as (x & -> & _). right.
      apply (prefix_keys s Hs) in Hkey as [[HsS Hhd]|(_ & s' & Hs' & Hh & ->)].
      * exists s. split; [done|]. destruct s as [|c s]; [done|]. injection Hhd as ->. cbn. by exists x.
      * exists s'. split; [done|]. destruct (HS' s' Hs') as [_ Hne]. destruct s' as [|c s']; [done|]. unfold suffix_covers.
        rewrite decide_False by (intros ->; by apply Hh). right. by exists x.
    + destruct (marked_key rootLabel p [] key (or_intror eq_refl) Ek Hform) as (s & Hs & -> & -> & _).
      destruct (Hsplit s r Hs E) as (x & -> & ->). right.
      apply (root_keys s Hs) in Hkey as (_ & HsS & Hnd). exists s. split; [done|].
      destruct (HS' s HsS) as [_ Hne]. destruct s as [|c s]; [done|]. unfold suffix_covers.
      rewrite decide_False by (intros ->; by apply Hnd). right.
      apply plain_rev in Hp. rewrite rev_app_distr in Hp. apply Forall_app in Hp as [_ Hpx].
      destruct (rev x) as [|y0 y] eqn:Ey; [done|]. destruct (first_rune y0 y Hpx) as (b & Hb & Hdot).
      assert (y0 = dot) as ->.
      { apply Hdot. destruct (utf8 (y0 :: y)) as [|b' u]; [done|]. injection Hh as ->.
        by assert (Val dot = Val b) as [= <-] by exact Hb. }
      exists (rev y). rewrite <- (rev_involutive x), Ey. cbn [rev]. by rewrite <- app_assoc.
    + rewrite app_nil_r in E. subst p. destruct Hform as (s & Hs & [->|[-> | ->]]).
      * apply (utf8_plain_inj (rev d) (rev s)) in Ek; [|by apply plain_rev..].
        apply (f_equal (@rev Z)) in Ek. rewrite !rev_involutive in Ek. subst s.
        apply (plain_keys d Hp) in Hkey as [Hkd|(_ & HsS & Hh)]; [left; by apply HK1|].
        right. exists d. split; [done|]. destruct (HS' d HsS) as [_ Hne]. destruct d as [|c d]; [done|].
        unfold suffix_covers. rewrite decide_False by (intros ->; by apply Hh). by left.
      * exfalso. pose proof (plain_bytes _ (plain_rev _ Hp)) as Hb. rewrite Ek, rkey_mark, Forall_app, Forall_singleton in Hb by done.
        unfold prefixLabel in Hb. lia.
      * exfalso. pose proof (plain_bytes _ (plain_rev _ Hp)) as Hb. rewrite Ek, rkey_mark, Forall_app, Forall_singleton in Hb by done.
        unfold prefixLabel, rootLabel in Hb. lia.
    + rewrite app_nil_r in E. subst p.
      destruct (marked_key rootLabel _ k key (or_intror eq_refl) Ek Hform) as (s & Hs & -> & Es & _).
      apply (utf8_plain_inj (rev d) (rev s)) in Es; [|by apply plain_rev..].
      apply (f_equal (@rev Z)) in Es. rewrite !rev_involutive in Es. subst s.
      apply (root_keys d Hp) in Hkey as (_ & HsS & Hh). right. exists d. split; [done|].
      destruct (HS' d HsS) as [_ Hne]. destruct d as [|c d]; [done|]. unfold suffix_covers.
      rewrite decide_False by (intros ->; by apply Hh). by left.
  - assert ((exists s, s ∈ S /\ suffix_covers s d) -> covers (sort_strings (rkey <$> K)) (utf8 (rev d))) as Hsuf.
    { intros (s & HsS & Hcov). destruct (HS' s HsS) as [Hs Hne]. destruct s as [|c s]; [done|]. unfold suffix_covers in Hcov.
      destruct (decide (c = dot)) as [->|Hc].
      - destruct Hcov as [x ->]. exists (utf8 (rev (dot :: s))), (utf8 (rev x)). rewrite rev_app_distr, utf8_app.
        split; [done|]. left. exists []. apply Hel. exists (prefixLabel :: dot :: s). rewrite rkey_mark by done.
        split; [done|]. apply (prefix_keys (dot :: s) Hs). by left.
      - assert (head (c :: s) <> Some dot) as Hh by (by intros [= ->]).
        destruct (Bool.bool_dec legacy true) as [Hl|Hl%not_true_is_false].
        + destruct Hcov as [->|[x ->]].
          * exists (utf8 (rev (c :: s))), []. rewrite app_nil_r. split; [done|]. right; right. split; [done|]. left.
            apply Hel. exists (c :: s). split; [done|]. apply (plain_keys (c :: s) Hs). by right.
          * exists (utf8 (rev (dot :: c :: s))), (utf8 (rev x)). rewrite rev_app_distr, utf8_app. split; [done|].
            left. exists []. apply Hel. exists (prefixLabel :: dot :: c :: s). rewrite rkey_mark by done.
            split; [done|]. apply (prefix_keys (dot :: c :: s) (plain_dot _ Hs)). right. split; [done|]. by exists (c :: s).
        + assert (rkey (rootLabel :: c :: s) ∈ sort_strings (rkey <$> K)) as HinK.
          { apply Hel. eexists. split; [done|]. by apply (root_keys (c :: s) Hs). }
          rewrite rkey_mark in HinK by done. destruct Hcov as [->|[x ->]].
          * exists (utf8 (rev (c :: s))), []. rewrite app_nil_r. split; [done|]. right; right. split; [done|]. right. by exists [].
          * exists (utf8 (rev (c :: s))), (utf8 (rev (x ++ [dot]))). split.
            { rewrite <- utf8_app, <- rev_app_distr, <- app_assoc. done. }
            right; left. split; [|done]. rewrite rev_app_distr. done. }
    intros [Hd|Hs]; [|by apply Hsuf]. destruct (HK2 d Hd) as [Hkd|Hseen]; [|by apply Hsuf, seen_covered].
    exists (utf8 (rev d)), []. rewrite app_nil_r. split; [done|]. right; right. split; [done|]. left.
    apply Hel. exists d. split; [done|]. apply elem_of_app. by right.
Qed.

Lemma keys_strict : StronglySorted str_lt (sort_strings (rkey <$> K)).
Proof.
  apply sort_strings_strict. apply NoDup_fmap_2_strong; [|apply K_nodup].
  assert (forall k, k ∈ K -> Forall valid_rune k) as Hval.
  { intros k Hk. destruct (key_form k Hk) as (s & Hs%plain_valid & [->|[-> | ->]]); [done|constructor; [by left|done]..]. }
  intros k k' Hk Hk' E. apply utf8_inj in E; [|by apply List.Forall_rev, Hval..].
  by rewrite <- (rev_involutive k), E, rev_involutive.
Qed.
End Matching.

(** The matcher NewMatcher builds. *)
Lemma NewMatcher_spec D S legacy :
  Forall plain D -> Forall suffix_ok S -> D ++ S <> [] ->
  2 * Z.of_nat (bytes_total (utf8 <$> D) + sum_list_with (fun s => 2 * length (utf8 s) + 3)%nat S) + 128 < 2 ^ 31 ->
  exists ss Q K0 KD seen, NewMatcher (utf8 <$> D) (utf8 <$> S) legacy = Val ss
    /\ newSuccinctSet (sort_strings (rkey <$> (K0 ++ KD))) = Val ss
    /\ Trie (sort_strings (rkey <$> (K0 ++ KD))) ss Q
    /\ Inserted legacy S seen K0 /\ NoDup KD
    /\ (forall k, k ∈ KD -> k ∈ D /\ utf8 k ∉ seen) /\ (forall d, d ∈ D -> d ∈ KD \/ utf8 d ∈ seen).
Proof.
  intros HD HS Hne Hsize. unfold NewMatcher.
  destruct (add_suffixes_spec legacy S [] ∅ [] HS) as (seen & K0 & HK0 & HI).
  { split; [| | |apply NoDup_nil_2|done].
    - intros x. split; [set_solver|]. by intros (s & ?%not_elem_of_nil & _).
    - by intros k ?%not_elem_of_nil.
    - by intros s k ?%not_elem_of_nil. }
  change (rkey <$> []) with (@nil (list Z)) in HK0. rewrite HK0. cbn [obind fst snd app] in *.
  destruct (add_domains_spec D seen (rkey <$> K0) HD) as (KD & -> & Hnd & HK1 & HK2 & Hsz). cbn [obind].
  rewrite <- fmap_app.
  assert (K0 ++ KD <> []) as HKne.
  { intros [-> ->]%app_eq_nil. destruct S as [|s S].
    - destruct D as [|d D]; [done|]. destruct (HK2 d ltac:(by left)) as [?%not_elem_of_nil|Hs]; [done|].
      apply (ins_seen _ _ _ _ HI) in Hs as (s & ?%not_elem_of_nil & _). done.
    - apply Forall_cons in HS as [[_ Hs] _]. destruct s as [|c s]; [done|].
      assert (exists k, k ∈ keysof legacy (c :: s)) as [k Hk].
      { cbn. destruct (decide _); [eexists; by left|]. destruct legacy; eexists; by left. }
      by apply (ins_complete _ _ _ _ HI (c :: s) k ltac:(by left)), not_elem_of_nil in Hk. }
  destruct (newSuccinctSet_trie (sort_strings (rkey <$> (K0 ++ KD)))) as (ss & Q & Hss & HT).
  - split; [|by apply (keys_strict legacy D S K0 KD seen)].
    intros E. apply HKne. pose proof (sort_strings_perm (rkey <$> (K0 ++ KD))) as Hp. rewrite E in Hp.
    apply Permutation_nil_l in Hp. by apply (fmap_nil_inv rkey).
  - assert (sum_list (length <$> sort_strings (rkey <$> (K0 ++ KD))) = bytes_total (rkey <$> (K0 ++ KD))) as ->.
    { unfold bytes_total. by rewrite sort_strings_perm. }
    rewrite fmap_app, bytes_total_app. pose proof (ins_size _ _ _ _ HI). lia.
  - exists ss, Q, K0, KD, seen. by rewrite Hss.
Qed.
