(* ===== verification/DomainProps.v ===== *)
(** * The domain matchers: the properties

    The theorems about Succinct.v and Domain.v that callers rely on, with their
    witnesses. *)

From Stdlib Require Import Sorted.
From S2P Require Import Prelude GoBits GoStrings GoIO Varint Succinct SuccinctBits SuccinctTrie Domain DomainTheorems.
#[local] Open Scope go_scope.

(** ** Serialisation *)

(** The bytes Write produces. *)
Definition slice_bytes (value : list Z) (body : list Z) : list Z := uvarint (zlen value) ++ body.
Definition set_bytes (ss : succinctSet) : list Z :=
  [0] ++ slice_bytes (leaves ss) (flat_map (be 8) (leaves ss))
      ++ slice_bytes (labelBitmap ss) (flat_map (be 8) (labelBitmap ss))
      ++ slice_bytes (labels ss) (labels ss).

Lemma length_be_words ws : length (flat_map (be 8) ws) = (8 * length ws)%nat.
Proof. induction ws as [|w ws IH]; [done|]. cbn [flat_map]. rewrite length_app, length_be, IH. cbn [length]. lia. Qed.

Lemma be_words_flat ws : Forall is_word ws -> be_words (length ws) (flat_map (be 8) ws) = ws.
Proof.
  induction 1 as [|w ws Hw _ IH]; [done|]. cbn [length flat_map]. cbn [be_words].
  assert (length (be 8 w) = 8%nat) as Hl by apply length_be.
  rewrite take_app_le, take_ge by lia. rewrite drop_app_ge, Hl, Nat.sub_diag, drop_0 by lia.
  rewrite IH, unbe_be by exact Hw. done.
Qed.

(** A slice that exists in memory: its size is below the run time's limit. *)
Definition in_memory (elem : Z) (l : list Z) : Prop := zlen l * elem <= maxAlloc.

Lemma in_memory_ok elem l : 0 < elem -> in_memory elem l -> makeslice_ok elem (zlen l) = true /\ 0 <= zlen l < 2 ^ 64.
Proof.
  intros He Hm. unfold in_memory, maxAlloc in *. pose proof (zlen_nonneg l). split; [|nia].
  apply bool_decide_eq_true. split; [done|exact Hm].
Qed.

Lemma read_length n rest e : 0 <= n < 2 ^ 64 ->
  value_or_error (ReadUvarint (mkReader (uvarint n ++ rest) e)) = (Ok n, mkReader rest e).
Proof. apply (codec_decode_encode (Codec := uvarint_codec)). Qed.

Lemma readUint64Slice_spec ws rest e :
  Forall is_word ws -> in_memory 8 ws ->
  readUint64Slice (mkReader (slice_bytes ws (flat_map (be 8) ws) ++ rest) e) = Val (Ok ws, mkReader rest e).
Proof.
  intros Hw Hm. destruct (in_memory_ok 8 ws ltac:(lia) Hm) as [Hok Hlen].
  unfold readUint64Slice, slice_bytes. rewrite <- app_assoc, read_length by done. cbn [obindr obind].
  case_decide as E; [by destruct ws|]. rewrite Hok.
  rewrite (ReadFull_app' _ (flat_map (be 8) ws)) by (rewrite length_be_words; unfold zlen; lia).
  assert (Z.to_nat (zlen ws) = length ws) as -> by (unfold zlen; lia). by rewrite be_words_flat.
Qed.

Lemma readByteSlice_spec bs rest e :
  in_memory 1 bs -> readByteSlice (mkReader (slice_bytes bs bs ++ rest) e) = Val (Ok bs, mkReader rest e).
Proof.
  intros Hm. destruct (in_memory_ok 1 bs ltac:(lia) Hm) as [Hok Hlen].
  unfold readByteSlice, slice_bytes. rewrite <- app_assoc, read_length by done. cbn [obindr obind].
  case_decide as E; [by destruct bs|]. rewrite Hok.
  by rewrite (ReadFull_app' _ bs) by (unfold zlen; lia).
Qed.

(** A writer with room takes the bytes as they are. *)
Definition accepts (w : writer) (bs : list Z) : writer := mkWriter (w_out w ++ bs) (w_room w - length bs) (w_err w).

Lemma put_uvarint_spec x w :
  0 <= x < 2 ^ 64 -> (length (uvarint x) <= w_room w)%nat -> put_uvarint x w = Val (None, accepts w (uvarint x)).
Proof.
  intros Hx Hr. unfold put_uvarint, WriteUvarint.
  rewrite WriteUvarint_loop_spec by (change (7 * (Z.of_nat 10 + 1)) with 77; assert (2 ^ 64 < 2 ^ 77) by done; lia).
  cbn [obind]. rewrite decide_True, WriteBytes_room by done. done.
Qed.

Lemma write_slice_spec value body w :
  0 <= zlen value < 2 ^ 64 -> (length (slice_bytes value body) <= w_room w)%nat ->
  (zlen value = 0 -> body = []) ->
  obindw (put_uvarint (zlen value) w) (fun w =>
    if decide (zlen value = 0) then Val (None, w) else Val (WriteBytes body w))
  = Val (None, accepts w (slice_bytes value body)).
Proof.
  intros Hz Hr Hb. unfold slice_bytes in *. rewrite length_app in Hr.
  rewrite put_uvarint_spec by (done || lia). cbn [obindw obind]. unfold accepts. rewrite length_app, app_assoc.
  destruct (decide (zlen value = 0)) as [E|E].
  - rewrite (Hb E), app_nil_r. cbn [length]. by rewrite Nat.add_0_r.
  - rewrite WriteBytes_room by (cbn; lia). cbn [w_out w_room w_err]. by rewrite Nat.sub_add_distr.
Qed.

Lemma Write_spec ss w :
  0 <= zlen (leaves ss) < 2 ^ 64 -> 0 <= zlen (labelBitmap ss) < 2 ^ 64 -> 0 <= zlen (labels ss) < 2 ^ 64 ->
  (length (set_bytes ss) <= w_room w)%nat -> Write ss w = Val (None, accepts w (set_bytes ss)).
Proof.
  intros H1 H2 H3 Hr. unfold set_bytes in *. rewrite !length_app in Hr. cbn [length] in Hr. unfold Write.
  assert (WriteByte 0 w = (None, accepts w [0])) as ->.
  { unfold WriteByte, accepts. destruct (w_room w) as [|n]; [lia|]. do 2 f_equal. cbn. lia. }
  cbn [obindw obind]. unfold writeUint64Slice, writeByteSlice.
  assert (forall l, zlen l = 0 -> flat_map (be 8) l = []) as Hnil by (by intros l ->%zlen_0).
  rewrite write_slice_spec by (done || auto || (unfold accepts; cbn [w_room length]; lia)). cbn [obindw obind].
  rewrite write_slice_spec by (done || auto || (unfold accepts; cbn [w_room length]; lia)). cbn [obindw obind].
  rewrite write_slice_spec; [|done|unfold accepts; cbn [w_room length]; lia|apply zlen_0].
  do 2 f_equal. unfold accepts. cbn [w_out w_room w_err]. rewrite !length_app, <- !app_assoc. cbn [length]. f_equal. lia.
Qed.

Lemma readSuccinctSet_spec ss rest e :
  Forall is_word (leaves ss) -> Forall is_word (labelBitmap ss) ->
  in_memory 8 (leaves ss) -> in_memory 8 (labelBitmap ss) -> in_memory 1 (labels ss) ->
  init (leaves ss) (labelBitmap ss) (labels ss) = Val ss ->
  readSuccinctSet (mkReader (set_bytes ss ++ rest) e) = Val (Ok ss, mkReader rest e).
Proof.
  intros W1 W2 M1 M2 M3 Hinit. unfold readSuccinctSet, set_bytes. rewrite <- !app_assoc. cbn [app ReadByte rd_bytes obindr obind].
  rewrite readUint64Slice_spec by done. cbn [obindr obind].
  rewrite readUint64Slice_spec by done. cbn [obindr obind].
  rewrite readByteSlice_spec by done. cbn [obindr obind]. by rewrite Hinit.
Qed.

(** *** The words of the bitmaps are uint64 *)

Lemma setBit_words ws i v : Forall is_word ws -> Forall is_word (setBit ws i v).
Proof.
  intros Hw. unfold setBit. apply Forall_alter.
  - apply Forall_app. split; [done|]. apply Forall_replicate. split; lia.
  - intros x _ Hx. unfold is_word in *. assert (0 <= u64 (Z.shiftl (u64 v) (Z.land i 63)) < 2 ^ 64) as Hy by apply u64_range.
    revert Hy. generalize (u64 (Z.shiftl (u64 v) (Z.land i 63))) as y. intros y Hy.
    assert (Z.lor x y = Z.lor x y mod 2 ^ 64) as ->; [|apply Z.mod_pos_bound; lia].
    apply Z.bits_inj'. intros n Hn. destruct (decide (n < 64)); [by rewrite Z.mod_pow2_bits_low by lia|].
    rewrite Z.mod_pow2_bits_high, Z.lor_spec by lia. rewrite <- (Z.mod_small x (2 ^ 64)), <- (Z.mod_small y (2 ^ 64)) by done.
    by rewrite !Z.mod_pow2_bits_high by lia.
Qed.

(** What the building loops keep: the words, and a leaf bitmap no longer than
    the label bitmap. *)
Record Shaped (i : Z) (bd : builder) : Prop := {
  sh_leaves : Forall is_word (bd_leaves bd);
  sh_bitmap : Forall is_word (bd_bitmap bd);
  sh_index : 0 <= i <= bd_lIdx bd;
  sh_length : (length (bd_leaves bd) <= length (bd_bitmap bd))%nat;
}.

Lemma setBit_length ws i v : 0 <= i -> length (setBit ws i v) = Nat.max (length ws) (S (Z.to_nat i / 64)).
Proof.
  intros Hi. unfold setBit. rewrite length_alter, length_app, length_replicate. unfold zlen.
  destruct (pos_split (Z.to_nat i)) as (q & r & E & Hr & E1 & _). rewrite Z2Nat.id in E1 by done. rewrite E1, E.
  rewrite (Nat.mul_comm 64), Nat.div_add_l, (Nat.div_small r) by lia. lia.
Qed.

Lemma emit_children_shape fuel keys e col j bd bd' :
  emit_children fuel keys e col j bd = Val bd' -> Forall is_word (bd_bitmap bd) -> 0 <= bd_lIdx bd ->
  Forall is_word (bd_bitmap bd') /\ bd_leaves bd' = bd_leaves bd /\ bd_lIdx bd <= bd_lIdx bd'
  /\ (length (bd_bitmap bd) <= length (bd_bitmap bd'))%nat.
Proof.
  revert j bd. induction fuel as [|f IH]; intros j bd; [done|]. cbn [emit_children].
  destruct (decide _); [|by intros [= <-]].
  destruct (run_end _ _ _ _ _ _) as [j'| |]; [|done..]. destruct (char_at _ _ _) as [c| |]; [|done..].
  cbn [obind]. intros Hrun H2 H3. destruct (IH _ _ Hrun) as (W & L & I & Ln); cbn [bd_bitmap bd_leaves bd_lIdx] in *.
  - by apply setBit_words.
  - lia.
  - rewrite setBit_length in Ln by done. split_and!; [done|done|lia|lia].
Qed.

Lemma visit_shape keys i elt bd bd' : visit keys i elt bd = Val bd' -> Shaped i bd -> Shaped (i + 1) bd'.
Proof.
  intros Hv [W1 W2 Hi Hl]. unfold visit in Hv. destruct (idx keys (q_s elt)) as [k| |]; [|done..]. cbn [obind] in Hv.
  destruct (decide (q_col elt = zlen k)).
  all: destruct (emit_children _ _ _ _ _ _) as [bd2| |] eqn:He; [|done..]; injection Hv as <-.
  all: destruct (emit_children_shape _ _ _ _ _ _ _ He W2 ltac:(cbn; lia)) as (W3 & E & I & Ln); cbn in E, I, Ln.
  all: split; cbn [bd_bitmap bd_leaves bd_lIdx]; rewrite ?E; try apply setBit_words; try done; try lia.
  all: rewrite !setBit_length by lia; try lia.
  assert (Z.to_nat i / 64 <= Z.to_nat (bd_lIdx bd2) / 64)%nat by (apply Nat.Div0.div_le_mono; lia). lia.
Qed.

Lemma build_loop_shape fuel keys i bd bd' :
  build_loop fuel keys i bd = Val bd' -> Shaped i bd -> exists i', Shaped i' bd'.
Proof.
  revert i bd. induction fuel as [|f IH]; intros i bd; [done|]. cbn [build_loop].
  destruct (decide _); [|intros [= <-]; by exists i].
  destruct (idx (bd_queue bd) i) as [elt| |]; [|done..]. cbn [obind].
  destruct (visit keys i elt bd) as [bd1| |] eqn:Hv; [|done..]. cbn [obind]. intros Hrun H. 
  apply (IH _ _ Hrun). by apply (visit_shape keys i elt bd).
Qed.

Lemma newSuccinctSet_shape keys ss :
  newSuccinctSet keys = Val ss ->
  Forall is_word (leaves ss) /\ Forall is_word (labelBitmap ss) /\ (length (leaves ss) <= length (labelBitmap ss))%nat
  /\ init (leaves ss) (labelBitmap ss) (labels ss) = Val ss.
Proof.
  unfold newSuccinctSet. destruct (build_loop _ _ _ _) as [bd| |] eqn:E; [|done..]. cbn [obind].
  apply build_loop_shape in E as [i [H1 H2 _ H3]]; [|by split]. unfold init.
  destruct (indexSelect32R64 (bd_bitmap bd)) as [[a b]| |] eqn:Es; [|done..]. cbn [obind fst snd]. intros [= <-].
  cbn [leaves labelBitmap labels]. by rewrite Es.
Qed.

(** ** The properties *)

(** The arrays of a set fit in memory and are written and read back as they are. *)
Lemma set_io root ss Q :
  newSuccinctSet root = Val ss -> Trie root ss Q ->
  (forall w, (length (set_bytes ss) <= w_room w)%nat -> Write ss w = Val (None, accepts w (set_bytes ss)))
  /\ forall rest e, readSuccinctSet (mkReader (set_bytes ss ++ rest) e) = Val (Ok ss, mkReader rest e).
Proof.
  intros Hnew HT. destruct (newSuccinctSet_shape root ss Hnew) as (W1 & W2 & Hl & Hinit).
  pose proof (tr_small _ _ _ HT) as Hsmall. pose proof (proj1 (tr_bitmap _ _ _ HT)) as Hbits.
  rewrite length_node_bits in Hbits. pose proof (zlen_nonneg (leaves ss)).
  assert (zlen (labels ss) = zlen (Q ≫= groups)) as Hlab.
  { rewrite (tr_labels _ _ _ HT). unfold labels_of. rewrite bind_fmap_groups. unfold zlen. by rewrite length_fmap. }
  unfold zlen in *. split.
  - intros w Hr. apply Write_spec; unfold zlen; [lia..|done].
  - intros rest e. apply readSuccinctSet_spec; unfold in_memory, maxAlloc, zlen; try done; lia.
Qed.

(** C32: The succinct set holds exactly its keys.  For every non-empty list of
    distinct strings in byte order, newSuccinctSet returns (the breadth-first
    loop ends and no access is out of range), keys lists the strings in order,
    and what Write puts on any writer with room readSuccinctSet reads back as the
    same set, rebuilt rank and select indexes included. *)
Theorem succinct_set_correct ks :
  ks <> [] -> StronglySorted str_lt ks -> 2 * Z.of_nat (bytes_total ks) + 128 < 2 ^ 31 ->
  exists ss bs, newSuccinctSet ks = Val ss /\ keys ss = Val ks
    /\ (forall w, (length bs <= w_room w)%nat -> Write ss w = Val (None, accepts w bs))
    /\ (forall rest e, readSuccinctSet (mkReader (bs ++ rest) e) = Val (Ok ss, mkReader rest e)).
Proof.
  intros Hne Hs Hsize. destruct (newSuccinctSet_trie ks (conj Hne Hs) Hsize) as (ss & Q & Hnew & HT).
  exists ss, (set_bytes ss). split; [done|]. split; [by apply (keys_spec ks ss Q)|]. by apply (set_io ks ss Q).
Qed.

(** Rank and select are right.  On every bitmap below the int32 limit the
    indexes init builds answer, for every position, the number of zeros before it
    and, for every existing one, its position. *)
Theorem rank_select_correct ws :
  64 * zlen ws < 2 ^ 31 ->
  exists sidx, indexSelect32R64 ws = Val (sidx, indexRank64 ws)
    /\ (forall n, (n < 64 * length ws)%nat ->
         countZeros ws (indexRank64 ws) (Z.of_nat n) = Val (Z.of_nat n - ones (take n (bits_of ws))))
    /\ (forall i, 0 <= i < ones (bits_of ws) ->
         exists p, bits_of ws !! p = Some true /\ ones (take p (bits_of ws)) = i
           /\ selectIthOne ws (indexRank64 ws) sidx i = Val (Z.of_nat p)).
Proof.
  intros Hb. destruct (indexSelect32R64_spec ws Hb) as (sidx & Hidx & _). exists sidx. split_and!; [done|..].
  - intros n Hn. by apply countZeros_spec.
  - intros i Hi. destruct (is_one_exists (bits_of ws) i Hi) as (p & Hp). exists p.
    split_and!; [apply Hp..|]. apply selectIthOne_spec; [done|done|lia|done].
Qed.

(** C9: The matcher matches exactly what its rules say.  For all domains and suffix
    rules in UTF-8 without control characters up to '\r' (not all empty, the
    suffixes non-empty), with or without the legacy encoding, NewMatcher returns,
    Match answers for every such domain whether it is one of the domains, ends in
    a suffix with a leading dot, or is or lies below a suffix without one; and
    the matcher survives Write and ReadMatcher. *)
Theorem matcher_match D S legacy :
  Forall plain D -> Forall suffix_ok S -> D ++ S <> [] ->
  2 * Z.of_nat (bytes_total (utf8 <$> D) + sum_list_with (fun s => 2 * length (utf8 s) + 3)%nat S) + 128 < 2 ^ 31 ->
  exists ss bs, NewMatcher (utf8 <$> D) (utf8 <$> S) legacy = Val ss
    /\ (forall d, plain d -> exists b, Match ss (utf8 d) = Val b
         /\ (b = true <-> d ∈ D \/ exists s, s ∈ S /\ suffix_covers s d))
    /\ (forall w, (length bs <= w_room w)%nat -> Matcher_Write ss w = Val (None, accepts w bs))
    /\ (forall rest e, ReadMatcher (mkReader (bs ++ rest) e) = Val (Ok ss, mkReader rest e)).
Proof.
  intros HD HS Hne Hsize.
  destruct (NewMatcher_spec D S legacy HD HS Hne Hsize) as (ss & Q & K0 & KD & seen & Hnew & Hset & HT & HI & Hnd & HK1 & HK2).
  exists ss, (set_bytes ss). split; [done|]. split.
  - intros d Hd. unfold Match. rewrite reverseDomain_utf8 by (by apply plain_valid). cbn [obind].
    rewrite (has_spec HT). eexists. split; [done|].
    rewrite node_has_spec.
    + by apply (covers_rules legacy D S K0 KD seen).
    + by apply (keys_strict legacy D S K0 KD seen).
    + by apply plain_bytes, plain_rev.
  - by apply (set_io _ _ Q Hset).
Qed.

(** A byte that starts no UTF-8 sequence. *)
Definition bad_start (b : Z) : Prop := 0x80 <= b < 0xC2 \/ 0xF4 < b < 256.

Lemma DecodeRune_bad b rest : bad_start b -> DecodeRune (b :: rest) = (RuneError, 1).
Proof.
  intros Hb. unfold bad_start in Hb. cbn [DecodeRune]. rewrite decide_False by lia. unfold first_byte.
  by repeat (rewrite decide_False by lia).
Qed.

(** C36: What the matcher cannot take: it panics, before it looks at any rule, on
    every name whose first byte starts no UTF-8 sequence (the replacement
    character does not fit where the byte stood), for which building it from such
    a name panics as well, and it cannot be built from no rules at all. *)
Theorem matcher_panics b rest :
  bad_start b ->
  (forall ss, Match ss (b :: rest) = Panic)
  /\ (forall legacy, NewMatcher [b :: rest] [] legacy = Panic)
  /\ (forall legacy, NewMatcher [] [] legacy = Panic).
Proof.
  intros Hb. assert (reverseDomain (b :: rest) = Panic) as Hr.
  { unfold reverseDomain. cbn [reverse_loop length]. rewrite zlen_cons. pose proof (zlen_nonneg rest).
    rewrite decide_True by lia. change (zdrop 0 (b :: rest)) with (b :: rest). rewrite DecodeRune_bad by done.
    cbn zeta. unfold put_rune. change (zlen (EncodeRune RuneError)) with 3.
    rewrite decide_True; [done|]. unfold zlen in *. rewrite length_replicate. cbn [length]. lia. }
  split_and!.
  - intros ss. unfold Match. by rewrite Hr.
  - intros legacy. unfold NewMatcher. cbn [add_suffixes obind add_domains fst snd].
    rewrite decide_False by set_solver. by rewrite Hr.
  - by intros [].
Qed.

(** ** Witnesses *)

Definition some_keys : list (list Z) := [[97]; [97; 98]; [98; 99; 100]].

Lemma some_keys_sorted : StronglySorted str_lt some_keys.
Proof. repeat constructor. Qed.

Lemma succinct_set_correct_witness :
  exists ss bs, newSuccinctSet some_keys = Val ss /\ keys ss = Val some_keys
    /\ (forall w, (length bs <= w_room w)%nat -> Write ss w = Val (None, accepts w bs))
    /\ (forall rest e, readSuccinctSet (mkReader (bs ++ rest) e) = Val (Ok ss, mkReader rest e)).
Proof. apply (succinct_set_correct some_keys); [discriminate|apply some_keys_sorted|vm_compute; reflexivity]. Defined.

Definition some_words : list Z := [5; 0; 2 ^ 63].

Lemma rank_select_correct_witness :
  exists sidx, indexSelect32R64 some_words = Val (sidx, indexRank64 some_words)
    /\ (forall n, (n < 64 * length some_words)%nat ->
         countZeros some_words (indexRank64 some_words) (Z.of_nat n)
         = Val (Z.of_nat n - ones (take n (bits_of some_words))))
    /\ (forall i, 0 <= i < ones (bits_of some_words) ->
         exists p, bits_of some_words !! p = Some true /\ ones (take p (bits_of some_words)) = i
           /\ selectIthOne some_words (indexRank64 some_words) sidx i = Val (Z.of_nat p)).
Proof. apply (rank_select_correct some_words). vm_compute. reflexivity. Defined.

(** The rules "a.b" and, as suffixes, ".c" and "d". *)
Definition some_domains : list (list Z) := [[97; 46; 98]].
Definition some_suffixes : list (list Z) := [[46; 99]; [100]].

Lemma matcher_match_witness :
  exists ss bs, NewMatcher (utf8 <$> some_domains) (utf8 <$> some_suffixes) true = Val ss
    /\ (forall d, plain d -> exists b, Match ss (utf8 d) = Val b
         /\ (b = true <-> d ∈ some_domains \/ exists s, s ∈ some_suffixes /\ suffix_covers s d))
    /\ (forall w, (length bs <= w_room w)%nat -> Matcher_Write ss w = Val (None, accepts w bs))
    /\ (forall rest e, ReadMatcher (mkReader (bs ++ rest) e) = Val (Ok ss, mkReader rest e)).
Proof.
  apply (matcher_match some_domains some_suffixes true).
  - apply (bool_decide_eq_true_1 _). vm_compute. reflexivity.
  - repeat apply List.Forall_cons; [split|split|apply List.Forall_nil]; try discriminate.
    all: apply (bool_decide_eq_true_1 _); vm_compute; reflexivity.
  - discriminate.
  - vm_compute. reflexivity.
Defined.

Lemma matcher_panics_witness :
  (forall ss, Match ss (0x80 :: [46; 99]) = Panic)
  /\ (forall legacy, NewMatcher [0x80 :: [46; 99]] [] legacy = Panic)
  /\ (forall legacy, NewMatcher [] [] legacy = Panic).
Proof. apply (matcher_panics 0x80 [46; 99]). left. split; [reflexivity|reflexivity]. Defined.
