(* ===== verification/Ring.v ===== *)
(** * Circular doubly-linked lists

    Both intrusive lists of contrab/freelru and the sentinel list of
    common/x/list keep their nodes in a ring: every node carries the index of
    its successor and of its predecessor.  Here a ring is a pair of link
    functions [nxt] and [prv] together with the list of its nodes in order; the
    lemmas say what the three pointer surgeries (unlink, link, relabel) do to
    that list.  They speak about the links pointwise, so that any store
    (an array of records, a map of heap cells) can use them. *)

From S2P Require Import Prelude.

Section Ring.
Context {A : Type} `{EqDecision A}.
Implicit Types (nxt prv : A -> A) (l : list A).

(** [chain l]: consecutive nodes of [l] point to each other. *)
Fixpoint chain nxt prv l : Prop :=
  match l with
  | x :: ((y :: _) as l') => nxt x = y /\ prv y = x /\ chain nxt prv l'
  | _ => True
  end.

Definition ring nxt prv l : Prop :=
  match l with
  | [] => True
  | x :: _ => chain nxt prv (l ++ [x])
  end.

Lemma chain_app nxt prv l1 x l2 :
  chain nxt prv (l1 ++ x :: l2) <-> chain nxt prv (l1 ++ [x]) /\ chain nxt prv (x :: l2).
Proof.
  induction l1 as [|a l1 IH]; simpl; [tauto|].
  destruct l1 as [|b l1]; simpl in *; tauto.
Qed.

Lemma chain_snoc nxt prv l x y :
  chain nxt prv (l ++ [x; y]) <-> chain nxt prv (l ++ [x]) /\ nxt x = y /\ prv y = x.
Proof. rewrite (chain_app _ _ l x [y]). simpl. tauto. Qed.

Lemma ring_rotate nxt prv x l : ring nxt prv (x :: l) <-> ring nxt prv (l ++ [x]).
Proof.
  destruct l as [|y l]; [done|]. unfold ring. cbn [app].
  change (x :: y :: (l ++ [x])) with ([x] ++ y :: (l ++ [x])).
  rewrite chain_app, <- app_assoc. cbn [app].
  change (y :: l ++ [x; y]) with ((y :: l) ++ [x; y]). rewrite chain_snoc. simpl. tauto.
Qed.

Lemma ring_app_comm nxt prv l1 l2 : ring nxt prv (l1 ++ l2) <-> ring nxt prv (l2 ++ l1).
Proof.
  revert l2. induction l1 as [|x l1 IH]; intros l2; [by rewrite app_nil_r|].
  cbn [app]. rewrite ring_rotate, <- app_assoc, IH, <- app_assoc. done.
Qed.

(** Any node can be taken as the start. *)
Lemma ring_start nxt prv x l :
  x ∈ l -> NoDup l -> ring nxt prv l ->
  exists l', ring nxt prv (x :: l') /\ NoDup (x :: l') /\ l ≡ₚ x :: l'
    /\ (forall d, hd d l = x -> l = x :: l').
Proof.
  intros (l1 & l2 & ->)%list_elem_of_split Hnd Hr.
  exists (l2 ++ l1). rewrite ring_app_comm in Hr. rewrite Permutation_app_comm in Hnd.
  split_and!; [done|done|by rewrite Permutation_app_comm|].
  intros d Hd. destruct l1 as [|y l1]; [by rewrite app_nil_r|].
  simpl in Hd. subst y. cbn in Hnd. exfalso. apply NoDup_cons in Hnd as [Hnd _]. set_solver.
Qed.

Lemma chain_ext nxt prv nxt' prv' l :
  (forall x, x ∈ l -> nxt' x = nxt x) -> (forall x, x ∈ l -> prv' x = prv x) ->
  chain nxt prv l -> chain nxt' prv' l.
Proof.
  induction l as [|x [|y l] IH]; intros Hn Hp; [done..|].
  intros (H1 & H2 & H3). split_and!.
  - rewrite Hn; [done|]. apply elem_of_cons; by left.
  - rewrite Hp; [done|]. set_solver.
  - apply IH; [set_solver..|done].
Qed.

Lemma ring_ext nxt prv nxt' prv' l :
  (forall x, x ∈ l -> nxt' x = nxt x) -> (forall x, x ∈ l -> prv' x = prv x) ->
  ring nxt prv l -> ring nxt' prv' l.
Proof. destruct l as [|x l]; [done|]. intros Hn Hp. apply chain_ext; set_solver. Qed.

(** Links at the ends of a non-empty ring. *)
Lemma ring_links nxt prv x l z :
  ring nxt prv (x :: l ++ [z]) -> nxt z = x /\ prv x = z.
Proof.
  unfold ring. change (x :: l ++ [z]) with ((x :: l) ++ [z]). rewrite <- app_assoc. cbn [app].
  change (x :: l ++ [z; x]) with ((x :: l) ++ [z; x]). rewrite chain_snoc. tauto.
Qed.

Lemma ring_singleton nxt prv x : ring nxt prv [x] <-> nxt x = x /\ prv x = x.
Proof. simpl. tauto. Qed.

Lemma ring_next nxt prv x y l : ring nxt prv (x :: y :: l) -> nxt x = y /\ prv y = x.
Proof. simpl. tauto. Qed.

Lemma ring_closed nxt prv l x : ring nxt prv l -> x ∈ l -> nxt x ∈ l /\ prv x ∈ l.
Proof.
  intros Hr (l1 & l2 & ->)%list_elem_of_split. rewrite ring_app_comm in Hr. cbn in Hr.
  assert (forall y, y ∈ x :: l2 ++ l1 -> y ∈ l1 ++ x :: l2) as Hin by set_solver.
  split; apply Hin; clear Hin.
  - destruct (l2 ++ l1) as [|y l]; simpl in Hr; set_solver.
  - destruct (l2 ++ l1) as [|y l _] using rev_ind; [simpl in Hr; set_solver|].
    apply (ring_links nxt prv) in Hr. set_solver.
Qed.

(** ** Surgery *)

(** Between its two ends a chain only depends on the inner links. *)
Lemma chain_ext_inner nxt prv nxt' prv' x l z :
  (forall q, q ∈ x :: l -> nxt' q = nxt q) -> (forall q, q ∈ l ++ [z] -> prv' q = prv q) ->
  chain nxt prv (x :: l ++ [z]) -> chain nxt' prv' (x :: l ++ [z]).
Proof.
  revert x. induction l as [|y l IH]; intros x Hn Hp Hc; cbn [app] in *.
  - simpl in *. destruct Hc as (H1 & H2 & _).
    split_and!; [by rewrite Hn by set_solver|by rewrite Hp by set_solver|done].
  - destruct Hc as (H1 & H2 & Hc).
    split_and!; [by rewrite Hn by set_solver|by rewrite Hp by set_solver|].
    apply IH; [set_solver..|done].
Qed.

(** Splitting a ring of at least two nodes into its inner chain and the closing link. *)
Lemma ring_unfold nxt prv x l z :
  ring nxt prv (x :: l ++ [z]) <-> chain nxt prv (x :: l ++ [z]) /\ nxt z = x /\ prv x = z.
Proof.
  unfold ring. change (x :: l ++ [z]) with ((x :: l) ++ [z]). rewrite <- app_assoc. cbn [app].
  change (x :: l ++ [z; x]) with ((x :: l) ++ [z; x]). by rewrite chain_snoc.
Qed.

Lemma NoDup_ends (x : A) l z : NoDup (x :: l ++ [z]) -> x ∉ l ++ [z] /\ z ∉ x :: l.
Proof.
  change (x :: l ++ [z]) with ((x :: l) ++ [z]). intros Hnd. split.
  - cbn in Hnd. by apply NoDup_cons in Hnd as [? _].
  - apply NoDup_app in Hnd as (_ & Hnd & _). set_solver.
Qed.

(** Unlink the first node [x]: its neighbours point to each other. *)
Lemma ring_unlink nxt prv nxt' prv' x l :
  NoDup (x :: l) -> l <> [] -> ring nxt prv (x :: l) ->
  (forall q, q ∈ l -> nxt' q = if decide (q = prv x) then nxt x else nxt q) ->
  (forall q, q ∈ l -> prv' q = if decide (q = nxt x) then prv x else prv q) ->
  ring nxt' prv' l.
Proof.
  intros Hnd Hne Hr Hn Hp. destruct l as [|y l]; [done|].
  apply NoDup_cons in Hnd as [Hx Hnd].
  destruct (ring_next _ _ _ _ _ Hr) as [Hxy Hyx].
  destruct l as [|z l _] using rev_ind.
  - destruct (ring_links nxt prv x [] y Hr) as [_ Hpx]. apply ring_singleton.
    rewrite Hn, Hp by set_solver. rewrite !decide_True by done. done.
  - destruct (ring_links nxt prv x (y :: l) z Hr) as [_ Hpx].
    assert (chain nxt prv (y :: l ++ [z])) as Hc.
    { unfold ring in Hr. cbn [app] in Hr. destruct Hr as (_ & _ & Hr).
      replace (y :: (l ++ [z]) ++ [x]) with ((y :: l) ++ [z; x]) in Hr
        by (cbn; by rewrite <- app_assoc).
      by apply chain_snoc in Hr as [Hr _]. }
    rewrite Hxy, Hpx in *. destruct (NoDup_ends _ _ _ Hnd) as [Hy Hz].
    apply ring_unfold. split_and!.
    + apply (chain_ext_inner nxt prv); [| |done]; intros q Hq.
      * rewrite Hn by set_solver. rewrite decide_False; [done|]. by intros ->.
      * rewrite Hp by set_solver. rewrite decide_False; [done|]. by intros ->.
    + rewrite Hn by set_solver. by rewrite decide_True.
    + rewrite Hp by set_solver. by rewrite decide_True.
Qed.

(** The same for a node anywhere in the list. *)
Lemma ring_unlink_mid nxt prv nxt' prv' l1 x l2 :
  NoDup (l1 ++ x :: l2) -> ring nxt prv (l1 ++ x :: l2) ->
  (forall q, nxt' q = if decide (q = prv x) then nxt x else nxt q) ->
  (forall q, prv' q = if decide (q = nxt x) then prv x else prv q) ->
  ring nxt' prv' (l1 ++ l2).
Proof.
  intros Hnd Hr Hn Hp. rewrite ring_app_comm in Hr |- *. cbn in Hr.
  rewrite Permutation_app_comm in Hnd. cbn in Hnd.
  destruct (l2 ++ l1) as [|y l] eqn:E; [done|]. rewrite <- E in *.
  apply (ring_unlink nxt prv nxt' prv' x (l2 ++ l1)); try done. by rewrite E.
Qed.

(** Link a fresh node [p] between the last node and the first node [x]. *)
Lemma ring_link nxt prv nxt' prv' x l p :
  NoDup (x :: l) -> p ∉ x :: l -> ring nxt prv (x :: l) ->
  nxt' p = x -> prv' p = prv x ->
  (forall q, q ∈ x :: l -> nxt' q = if decide (q = prv x) then p else nxt q) ->
  (forall q, q ∈ x :: l -> prv' q = if decide (q = x) then p else prv q) ->
  ring nxt' prv' (x :: l ++ [p]).
Proof.
  intros Hnd Hp Hr Hnp Hpp Hn Hpr.
  destruct l as [|z l _] using rev_ind.
  - apply ring_singleton in Hr as [H1 H2]. simpl.
    rewrite Hnp, Hpp, Hn, Hpr by set_solver. by rewrite H2, !decide_True.
  - apply ring_unfold in Hr as (Hc & Hzx & Hxz). rewrite Hxz in *.
    destruct (NoDup_ends _ _ _ Hnd) as [Hx Hz].
    apply ring_unfold. rewrite <- app_assoc. cbn [app].
    change (x :: l ++ [z; p]) with ((x :: l) ++ [z; p]). rewrite chain_snoc.
    split_and!; [|rewrite Hn by set_solver; by rewrite decide_True|done|done|].
    + apply (chain_ext_inner nxt prv); [| |done]; intros q Hq.
      * rewrite Hn by set_solver. by rewrite decide_False by (intros ->; done).
      * rewrite Hpr by set_solver. by rewrite decide_False by (intros ->; done).
    + rewrite Hpr by set_solver. by rewrite decide_True.
Qed.

(** Replace the first node [x] by a fresh node [p] that takes over its links. *)
Lemma ring_relabel nxt prv nxt' prv' x l p :
  NoDup (x :: l) -> p ∉ x :: l -> ring nxt prv (x :: l) ->
  nxt' p = (if decide (x = prv x) then p else nxt x) ->
  prv' p = (if decide (x = nxt x) then p else prv x) ->
  (forall q, q ∈ l -> nxt' q = if decide (q = prv x) then p else nxt q) ->
  (forall q, q ∈ l -> prv' q = if decide (q = nxt x) then p else prv q) ->
  ring nxt' prv' (p :: l).
Proof.
  intros Hnd Hp Hr Hnp Hpp Hn Hpr.
  destruct l as [|z l _] using rev_ind.
  - apply ring_singleton in Hr as [H1 H2]. simpl.
    by rewrite Hnp, Hpp, H1, H2, !decide_True.
  - apply ring_unfold in Hr as (Hc & Hzx & Hxz). rewrite Hxz in *.
    destruct (NoDup_ends _ _ _ Hnd) as [Hx Hz].
    assert (nxt x ∈ l ++ [z]) as Hnx.
    { destruct l; cbn in Hc; destruct Hc as (-> & _); apply elem_of_cons; by left. }
    assert (x <> nxt x) by (intros E; by rewrite <- E in Hnx).
    assert (x <> z) by (intros ->; apply Hz, elem_of_cons; by left).
    rewrite decide_False in Hpp by done. rewrite decide_False in Hnp by done.
    apply ring_unfold. split_and!; [|rewrite Hn by set_solver; by rewrite decide_True|done].
    destruct l as [|y l].
    + cbn in *. destruct Hc as (Hxz' & _ & _). rewrite Hxz' in *.
      rewrite Hpr, decide_True by set_solver. done.
    + cbn [app] in *. destruct Hc as (Hxy & Hyx & Hc). rewrite Hxy in *.
      split_and!; [done|rewrite Hpr by set_solver; by rewrite decide_True|].
      apply NoDup_cons in Hnd as [_ Hnd]. destruct (NoDup_ends _ _ _ Hnd) as [Hy _].
      apply (chain_ext_inner nxt prv); [| |done]; intros q Hq.
      * rewrite Hn by set_solver. rewrite decide_False; [done|]. intros ->. set_solver.
      * rewrite Hpr by set_solver. rewrite decide_False; [done|]. by intros ->.
Qed.
End Ring.
