(* ===== verification/FreeLRU.v ===== *)
(** * The array-backed LRU cache: contrab/freelru/lru.go

    The cache keeps its entries in a fixed array; every entry is a node of two
    rings at once, the recency ring ([e_next], [e_prev], headed by [lru_head])
    and the ring of its collision bucket ([nextBucket], [prevBucket], entered
    through [buckets]).  This file translates every operation of lru.go; array
    accesses out of range panic, the two unbounded loops run on fuel.  The wall
    clock is an argument of the operations that read it ([now], in Unix
    milliseconds), and the calls of the eviction callback are recorded in
    [evicted_log]. *)

From S2P Require Import Prelude GoBits.
#[local] Open Scope go_scope.

Definition emptyBucket : Z := 2 ^ 32 - 1.

Record Metrics := mkMetrics {
  Inserts : Z; Collisions : Z; Evictions : Z; Removals : Z; Hits : Z; Misses : Z }.

Definition zeroMetrics : Metrics := mkMetrics 0 0 0 0 0 0.

Definition inc_Inserts m := mkMetrics (u64 (Inserts m + 1)) (Collisions m) (Evictions m) (Removals m) (Hits m) (Misses m).
Definition inc_Collisions m := mkMetrics (Inserts m) (u64 (Collisions m + 1)) (Evictions m) (Removals m) (Hits m) (Misses m).
Definition inc_Evictions m := mkMetrics (Inserts m) (Collisions m) (u64 (Evictions m + 1)) (Removals m) (Hits m) (Misses m).
Definition inc_Removals m := mkMetrics (Inserts m) (Collisions m) (Evictions m) (u64 (Removals m + 1)) (Hits m) (Misses m).
Definition inc_Hits m := mkMetrics (Inserts m) (Collisions m) (Evictions m) (Removals m) (u64 (Hits m + 1)) (Misses m).
Definition inc_Misses m := mkMetrics (Inserts m) (Collisions m) (Evictions m) (Removals m) (Hits m) (u64 (Misses m + 1)).

(** [fastModulo x n = uint32((uint64(x) * uint64(n)) >> 32)]. *)
Definition fastModulo (x n : Z) : Z := u32 (Z.shiftr (u64 (x * n)) 32).

(** [expire] with the clock reading [now]; [Duration.Milliseconds] truncates
    nanoseconds towards zero. *)
Definition Milliseconds (d : Z) : Z := Z.quot d 1000000.
Definition expire (now lifetime : Z) : Z :=
  if decide (lifetime = 0) then 0 else i64 (now + Milliseconds lifetime).

Section LRU.
Context {K V : Type} `{EqDecision K, EqDecision V} (emptyKey : K) (emptyValue : V).

Record element := mkElement {
  e_key : K; e_value : V;
  nextBucket : Z; prevBucket : Z; bucketPos : Z;
  e_next : Z; e_prev : Z;
  e_expire : Z; e_lifetime : Z }.

Definition zeroElement : element := mkElement emptyKey emptyValue 0 0 0 0 0 0 0.

Definition set_key k e := mkElement k (e_value e) (nextBucket e) (prevBucket e) (bucketPos e) (e_next e) (e_prev e) (e_expire e) (e_lifetime e).
Definition set_value v e := mkElement (e_key e) v (nextBucket e) (prevBucket e) (bucketPos e) (e_next e) (e_prev e) (e_expire e) (e_lifetime e).
Definition set_nextBucket p e := mkElement (e_key e) (e_value e) p (prevBucket e) (bucketPos e) (e_next e) (e_prev e) (e_expire e) (e_lifetime e).
Definition set_prevBucket p e := mkElement (e_key e) (e_value e) (nextBucket e) p (bucketPos e) (e_next e) (e_prev e) (e_expire e) (e_lifetime e).
Definition set_bucketPos p e := mkElement (e_key e) (e_value e) (nextBucket e) (prevBucket e) p (e_next e) (e_prev e) (e_expire e) (e_lifetime e).
Definition set_next p e := mkElement (e_key e) (e_value e) (nextBucket e) (prevBucket e) (bucketPos e) p (e_prev e) (e_expire e) (e_lifetime e).
Definition set_prev p e := mkElement (e_key e) (e_value e) (nextBucket e) (prevBucket e) (bucketPos e) (e_next e) p (e_expire e) (e_lifetime e).
Definition set_expire t e := mkElement (e_key e) (e_value e) (nextBucket e) (prevBucket e) (bucketPos e) (e_next e) (e_prev e) t (e_lifetime e).
Definition set_e_lifetime t e := mkElement (e_key e) (e_value e) (nextBucket e) (prevBucket e) (bucketPos e) (e_next e) (e_prev e) (e_expire e) t.

Record LRU := mkLRU {
  buckets : list Z; elements : list element;
  onEvict : bool;                         (* whether a callback is installed *)
  hash : K -> Z;
  healthCheck : option (K -> V -> bool);
  lru_lifetime : Z; metrics : Metrics;
  lru_head : Z; lru_len : Z; lru_cap : Z; lru_size : Z; lru_mask : Z;
  evicted_log : list (K * V) }.           (* the calls onEvict has received *)

Definition with_buckets b s := mkLRU b (elements s) (onEvict s) (hash s) (healthCheck s) (lru_lifetime s) (metrics s) (lru_head s) (lru_len s) (lru_cap s) (lru_size s) (lru_mask s) (evicted_log s).
Definition with_elements es s := mkLRU (buckets s) es (onEvict s) (hash s) (healthCheck s) (lru_lifetime s) (metrics s) (lru_head s) (lru_len s) (lru_cap s) (lru_size s) (lru_mask s) (evicted_log s).
Definition with_onEvict c s := mkLRU (buckets s) (elements s) c (hash s) (healthCheck s) (lru_lifetime s) (metrics s) (lru_head s) (lru_len s) (lru_cap s) (lru_size s) (lru_mask s) (evicted_log s).
Definition with_healthCheck h s := mkLRU (buckets s) (elements s) (onEvict s) (hash s) h (lru_lifetime s) (metrics s) (lru_head s) (lru_len s) (lru_cap s) (lru_size s) (lru_mask s) (evicted_log s).
Definition with_lifetime t s := mkLRU (buckets s) (elements s) (onEvict s) (hash s) (healthCheck s) t (metrics s) (lru_head s) (lru_len s) (lru_cap s) (lru_size s) (lru_mask s) (evicted_log s).
Definition with_metrics m s := mkLRU (buckets s) (elements s) (onEvict s) (hash s) (healthCheck s) (lru_lifetime s) m (lru_head s) (lru_len s) (lru_cap s) (lru_size s) (lru_mask s) (evicted_log s).
Definition with_head h s := mkLRU (buckets s) (elements s) (onEvict s) (hash s) (healthCheck s) (lru_lifetime s) (metrics s) h (lru_len s) (lru_cap s) (lru_size s) (lru_mask s) (evicted_log s).
Definition with_len n s := mkLRU (buckets s) (elements s) (onEvict s) (hash s) (healthCheck s) (lru_lifetime s) (metrics s) (lru_head s) n (lru_cap s) (lru_size s) (lru_mask s) (evicted_log s).
Definition with_log l s := mkLRU (buckets s) (elements s) (onEvict s) (hash s) (healthCheck s) (lru_lifetime s) (metrics s) (lru_head s) (lru_len s) (lru_cap s) (lru_size s) (lru_mask s) l.

Abbreviation M := (GoM LRU).

(** ** Array accesses *)

Definition elem (pos : Z) : M element := fun s => lift (at_ (elements s) pos) s.
Definition set_elem (pos : Z) (f : element -> element) : M unit := fun s =>
  match at_ (elements s) pos with
  | Some e => Val (tt, with_elements (<[Z.to_nat pos := f e]> (elements s)) s)
  | None => Panic
  end.
Definition bucket (b : Z) : M Z := fun s => lift (at_ (buckets s) b) s.
Definition set_bucket (b v : Z) : M unit := fun s =>
  match set_at (buckets s) b v with
  | Some bs => Val (tt, with_buckets bs s)
  | None => Panic
  end.
Definition count (f : Metrics -> Metrics) : M unit :=
  modify (fun s => with_metrics (f (metrics s)) s).

(** ** Construction *)

Definition SetLifetime (lifetime : Z) : M unit := modify (with_lifetime lifetime).
Definition SetOnEvict (installed : bool) : M unit := modify (with_onEvict installed).
Definition SetHealthCheck (hc : option (K -> V -> bool)) : M unit := modify (with_healthCheck hc).

(** initLRU on a zero LRU: [make] has filled both arrays with zero values. *)
Definition initLRU (capacity size : Z) (hash : K -> Z) (buckets : list Z)
    (elements : list element) : LRU :=
  mkLRU ((fun _ => emptyBucket) <$> buckets) elements false hash None 0 zeroMetrics 0 0
    capacity size (if decide (OnesCount32 size = 1) then u32 (size - 1) else 0) [].

Definition NewWithSize (capacity size : Z) (hash : option (K -> Z)) : result LRU :=
  if decide (capacity = 0) then Err (ErrNew "capacity must be positive")
  else if decide (size = emptyBucket) then Err (ErrNew "size must not be 0XFFFFFFFF")
  else if decide (size < capacity) then Err (ErrNew "size is smaller than capacity")
  else match hash with
       | None => Err (ErrNew "hash function must be set")
       | Some h =>
           Ok (initLRU capacity size h (replicate (Z.to_nat size) 0)
                 (replicate (Z.to_nat size) zeroElement))
       end.

Definition New (capacity : Z) (hash : option (K -> Z)) : result LRU :=
  NewWithSize capacity capacity hash.

(** ** Positions *)

Definition hashToBucketPos (h : Z) (s : LRU) : Z :=
  if decide (lru_mask s <> 0) then Z.land h (lru_mask s) else fastModulo h (lru_size s).

Definition hashToPos (h : Z) : M (Z * Z) :=
  bucketPos <- gets (hashToBucketPos h) ;;
  elemPos <- bucket bucketPos ;;
  ret (bucketPos, elemPos).

(** ** List surgery *)

Definition setHead (pos : Z) : M unit :=
  h <- gets lru_head ;;
  if decide (pos = h) then panic
  else
    set_elem pos (set_prev h) ;;
    e <- elem h ;;
    set_elem pos (set_next (e_next e)) ;;
    e <- elem h ;;
    set_elem (e_next e) (set_prev pos) ;;
    set_elem h (set_next pos) ;;
    modify (with_head pos).

Definition unlinkElement (pos : Z) : M unit :=
  e <- elem pos ;;
  set_elem (e_prev e) (set_next (e_next e)) ;;
  e <- elem pos ;;
  set_elem (e_next e) (set_prev (e_prev e)).

Definition unlinkBucket (pos : Z) : M unit :=
  e <- elem pos ;;
  if decide (prevBucket e = nextBucket e /\ prevBucket e = pos) then
    set_bucket (bucketPos e) emptyBucket
  else
    set_elem (prevBucket e) (set_nextBucket (nextBucket e)) ;;
    set_elem (nextBucket e) (set_prevBucket (prevBucket e)) ;;
    e' <- elem pos ;;
    set_bucket (bucketPos e') (nextBucket e).

(** Calling [onEvict]. *)
Definition call_onEvict (key : K) (value : V) : M unit :=
  modify (fun s => with_log (evicted_log s ++ [(key, value)]) s).

Definition evict (pos : Z) : M unit :=
  h <- gets lru_head ;;
  (if decide (pos = h) then e <- elem pos ;; modify (with_head (e_prev e)) else ret tt) ;;
  unlinkElement pos ;;
  unlinkBucket pos ;;
  modify (fun s => with_len (u32 (lru_len s - 1)) s) ;;
  cb <- gets onEvict ;;
  if cb : bool then
    e <- elem pos ;;
    call_onEvict (e_key e) (e_value e)
  else ret tt.

Definition move (to from : Z) : M unit :=
  if decide (to = from) then ret tt
  else
    h <- gets lru_head ;;
    (if decide (from = h) then modify (with_head to) else ret tt) ;;
    e <- elem from ;;
    set_elem (e_prev e) (set_next to) ;;
    set_elem (e_next e) (set_prev to) ;;
    e <- elem from ;;
    set_elem (prevBucket e) (set_nextBucket to) ;;
    set_elem (nextBucket e) (set_prevBucket to) ;;
    e <- elem from ;;
    set_elem to (fun _ => e) ;;
    e <- elem to ;;
    b <- bucket (bucketPos e) ;;
    if decide (b = from) then set_bucket (bucketPos e) to else ret tt.

Definition insert (now pos : Z) (key : K) (value : V) (lifetime : Z) : M unit :=
  set_elem pos (set_key key) ;;
  set_elem pos (set_value value) ;;
  set_elem pos (set_expire (expire now lifetime)) ;;
  set_elem pos (set_e_lifetime lifetime) ;;
  n <- gets lru_len ;;
  h <- gets lru_head ;;
  (if decide (n = 0) then
     set_elem pos (set_prev pos) ;;
     set_elem pos (set_next pos) ;;
     modify (with_head pos)
   else if decide (pos <> h) then setHead pos else ret tt) ;;
  modify (fun s => with_len (u32 (lru_len s + 1)) s) ;;
  count inc_Inserts.

Definition clearKeyAndValue (pos : Z) : M unit :=
  set_elem pos (set_key emptyKey) ;;
  set_elem pos (set_value emptyValue).

Definition removeAt (pos : Z) : M unit :=
  evict pos ;;
  n <- gets lru_len ;;
  move pos n ;;
  count inc_Removals ;;
  n <- gets lru_len ;;
  clearKeyAndValue n.

(** ** Lookup *)

(** The [for] loop of findKey, findKeyNoExpire, addWithLifetime and
    updateLifetime: follow [nextBucket] from [pos] until [key] is found or the
    walk is back at [startPos].  A bucket has at most [len elements] nodes. *)
Fixpoint walk_from (fuel : nat) (startPos : Z) (key : K) (pos : Z) : M (option Z) :=
  match fuel with
  | O => fun _ => OutOfFuel
  | S f =>
      e <- elem pos ;;
      if decide (key = e_key e) then ret (Some pos)
      else if decide (nextBucket e = startPos) then ret None
      else walk_from f startPos key (nextBucket e)
  end.

Definition walk (startPos : Z) (key : K) : M (option Z) :=
  n <- gets (fun s => length (elements s)) ;;
  walk_from n startPos key startPos.

Definition healthy (hc : option (K -> V -> bool)) (key : K) (value : V) : bool :=
  match hc with None => true | Some f => f key value end.

Definition expired (now t : Z) : bool := bool_decide (t <> 0 /\ t <= now).

Definition findKey (now h : Z) (key : K) : M (Z * bool) :=
  p <- hashToPos h ;;
  let startPos := snd p in
  if decide (startPos = emptyBucket) then ret (emptyBucket, false)
  else
    r <- walk startPos key ;;
    match r with
    | None => ret (emptyBucket, false)
    | Some pos =>
        e <- elem pos ;;
        hc <- gets healthCheck ;;
        if expired now (e_expire e) || negb (healthy hc key (e_value e)) then
          removeAt pos ;; ret (emptyBucket, false)
        else ret (pos, true)
    end.

Definition findKeyNoExpire (h : Z) (key : K) : M (Z * bool) :=
  p <- hashToPos h ;;
  let startPos := snd p in
  if decide (startPos = emptyBucket) then ret (emptyBucket, false)
  else
    r <- walk startPos key ;;
    match r with
    | None => ret (emptyBucket, false)
    | Some pos =>
        e <- elem pos ;;
        hc <- gets healthCheck ;;
        if negb (healthy hc key (e_value e)) then
          removeAt pos ;; ret (emptyBucket, false)
        else ret (pos, true)
    end.

(** [if pos != lru.head { lru.unlinkElement(pos); lru.setHead(pos) }]. *)
Definition toFront (pos : Z) : M unit :=
  h <- gets lru_head ;;
  if decide (pos <> h) then unlinkElement pos ;; setHead pos else ret tt.

(** ** Operations *)

Definition Len : M Z := gets lru_len.

Definition addWithLifetime (now h : Z) (key : K) (value : V) (lifetime : Z) : M bool :=
  p <- hashToPos h ;;
  let bucketPos := fst p in
  let startPos := snd p in
  if decide (startPos = emptyBucket) then
    n <- gets lru_len ;;
    cap <- gets lru_cap ;;
    pe <- (if decide (n = cap) then
             head <- gets lru_head ;;
             e <- elem head ;;
             evict (e_next e) ;;
             count inc_Evictions ;;
             ret (e_next e, true)
           else ret (n, false)) ;;
    let pos := fst pe in
    set_bucket bucketPos pos ;;
    set_elem pos (set_bucketPos bucketPos) ;;
    set_elem pos (set_nextBucket pos) ;;
    set_elem pos (set_prevBucket pos) ;;
    insert now pos key value lifetime ;;
    ret (snd pe)
  else
    r <- walk startPos key ;;
    match r with
    | Some pos =>
        set_elem pos (set_value value) ;;
        set_elem pos (set_expire (expire now lifetime)) ;;
        set_elem pos (set_e_lifetime lifetime) ;;
        toFront pos ;;
        count inc_Inserts ;;
        ret false
    | None =>
        n <- gets lru_len ;;
        cap <- gets lru_cap ;;
        pe <- (if decide (n = cap) then
                 head <- gets lru_head ;;
                 e <- elem head ;;
                 evict (e_next e) ;;
                 count inc_Evictions ;;
                 startPos <- bucket bucketPos ;;
                 ret (e_next e, (if decide (startPos = emptyBucket) then e_next e else startPos), true)
               else ret (n, startPos, false)) ;;
        let pos := fst (fst pe) in
        let startPos := snd (fst pe) in
        set_bucket bucketPos pos ;;
        set_elem pos (set_bucketPos bucketPos) ;;
        set_elem pos (set_nextBucket startPos) ;;
        e <- elem startPos ;;
        set_elem pos (set_prevBucket (prevBucket e)) ;;
        e <- elem startPos ;;
        set_elem (prevBucket e) (set_nextBucket pos) ;;
        set_elem startPos (set_prevBucket pos) ;;
        insert now pos key value lifetime ;;
        e <- elem pos ;;
        (if decide (prevBucket e <> pos) then count inc_Collisions else ret tt) ;;
        ret (snd pe)
    end.

Definition AddWithLifetime (now : Z) (key : K) (value : V) (lifetime : Z) : M bool :=
  h <- gets hash ;; addWithLifetime now (h key) key value lifetime.

Definition add (now h : Z) (key : K) (value : V) : M bool :=
  t <- gets lru_lifetime ;; addWithLifetime now h key value t.

Definition Add (now : Z) (key : K) (value : V) : M bool :=
  h <- gets hash ;; t <- gets lru_lifetime ;; addWithLifetime now (h key) key value t.

Definition get (now h : Z) (key : K) : M (V * bool) :=
  r <- findKey now h key ;;
  let '(pos, ok) := r in
  if ok : bool then
    toFront pos ;;
    count inc_Hits ;;
    e <- elem pos ;;
    ret (e_value e, true)
  else count inc_Misses ;; ret (emptyValue, false).

Definition Get (now : Z) (key : K) : M (V * bool) :=
  h <- gets hash ;; get now (h key) key.

(** A [time.Time] result: [Some ms] for [time.UnixMilli(ms)], [None] for the zero time. *)
Definition getWithLifetime (now h : Z) (key : K) : M (V * option Z * bool) :=
  r <- findKey now h key ;;
  let '(pos, ok) := r in
  if ok : bool then
    toFront pos ;;
    count inc_Hits ;;
    e <- elem pos ;;
    ret (e_value e, Some (e_expire e), true)
  else count inc_Misses ;; ret (emptyValue, None, false).

Definition GetWithLifetime (now : Z) (key : K) : M (V * option Z * bool) :=
  h <- gets hash ;; getWithLifetime now (h key) key.

Definition getWithLifetimeNoExpire (h : Z) (key : K) : M (V * option Z * bool) :=
  r <- findKeyNoExpire h key ;;
  let '(pos, ok) := r in
  if ok : bool then
    toFront pos ;;
    count inc_Hits ;;
    e <- elem pos ;;
    ret (e_value e, Some (e_expire e), true)
  else count inc_Misses ;; ret (emptyValue, None, false).

Definition GetWithLifetimeNoExpire (key : K) : M (V * option Z * bool) :=
  h <- gets hash ;; getWithLifetimeNoExpire (h key) key.

Definition getAndRefresh (now h : Z) (key : K) : M (V * bool) :=
  r <- findKeyNoExpire h key ;;
  let '(pos, ok) := r in
  if ok : bool then
    toFront pos ;;
    count inc_Hits ;;
    e <- elem pos ;;
    set_elem pos (set_expire (expire now (e_lifetime e))) ;;
    e <- elem pos ;;
    ret (e_value e, true)
  else count inc_Misses ;; ret (emptyValue, false).

Definition GetAndRefresh (now : Z) (key : K) : M (V * bool) :=
  h <- gets hash ;; getAndRefresh now (h key) key.

(** [constructor] is what the callback answers if it is called. *)
Definition getAndRefreshOrAdd (now h : Z) (key : K) (constructor : V * bool)
    : M (V * bool * bool) :=
  r <- findKeyNoExpire h key ;;
  let '(pos, ok) := r in
  if ok : bool then
    toFront pos ;;
    count inc_Hits ;;
    e <- elem pos ;;
    set_elem pos (set_expire (expire now (e_lifetime e))) ;;
    e <- elem pos ;;
    ret (e_value e, true, true)
  else
    count inc_Misses ;;
    let '(value, ok) := constructor in
    if ok : bool then
      t <- gets lru_lifetime ;;
      addWithLifetime now h key value t ;;
      ret (value, false, true)
    else ret (value, false, false).

Definition peek (now h : Z) (key : K) : M (V * bool) :=
  r <- findKey now h key ;;
  let '(pos, ok) := r in
  if ok : bool then e <- elem pos ;; ret (e_value e, true)
  else ret (emptyValue, false).

Definition Peek (now : Z) (key : K) : M (V * bool) :=
  h <- gets hash ;; peek now (h key) key.

Definition peekWithLifetime (now h : Z) (key : K) : M (V * option Z * bool) :=
  r <- findKey now h key ;;
  let '(pos, ok) := r in
  if ok : bool then e <- elem pos ;; ret (e_value e, Some (e_expire e), true)
  else ret (emptyValue, None, false).

Definition PeekWithLifetime (now : Z) (key : K) : M (V * option Z * bool) :=
  h <- gets hash ;; peekWithLifetime now (h key) key.

Definition updateLifetime (now h : Z) (key : K) (value : V) (lifetime : Z) : M bool :=
  p <- hashToPos h ;;
  let startPos := snd p in
  if decide (startPos = emptyBucket) then ret false
  else
    r <- walk startPos key ;;
    match r with
    | None => ret false
    | Some pos =>
        e <- elem pos ;;
        if decide (e_value e <> value) then ret false
        else
          set_elem pos (set_e_lifetime lifetime) ;;
          set_elem pos (set_expire (expire now lifetime)) ;;
          toFront pos ;;
          count inc_Inserts ;;
          ret true
    end.

Definition UpdateLifetime (now : Z) (key : K) (value : V) (lifetime : Z) : M bool :=
  h <- gets hash ;; updateLifetime now (h key) key value lifetime.

Definition Contains (now : Z) (key : K) : M bool :=
  h <- gets hash ;; r <- peek now (h key) key ;; ret (snd r).

Definition contains (now h : Z) (key : K) : M bool :=
  r <- peek now h key ;; ret (snd r).

Definition remove (h : Z) (key : K) : M bool :=
  r <- findKeyNoExpire h key ;;
  let '(pos, ok) := r in
  if ok : bool then removeAt pos ;; ret ok else ret false.

Definition Remove (key : K) : M bool :=
  h <- gets hash ;; remove (h key) key.

Definition RemoveOldest : M (K * V * bool) :=
  n <- gets lru_len ;;
  if decide (n = 0) then ret (emptyKey, emptyValue, false)
  else
    h <- gets lru_head ;;
    e <- elem h ;;
    let pos := e_next e in
    e <- elem pos ;;
    removeAt pos ;;
    ret (e_key e, e_value e, true).

(** The scan of PurgeExpired: the first expired of [k] elements from [pos] on. *)
Fixpoint first_expired (k : nat) (n pos : Z) : M (option Z) :=
  match k with
  | O => ret None
  | S k' =>
      e <- elem pos ;;
      if expired n (e_expire e) then ret (Some pos) else first_expired k' n (e_next e)
  end.

Fixpoint PurgeExpired_loop (fuel : nat) (n : Z) : M unit :=
  match fuel with
  | O => fun _ => OutOfFuel
  | S f =>
      l <- gets lru_len ;;
      if decide (l = 0) then ret tt
      else
        h <- gets lru_head ;;
        e <- elem h ;;
        r <- first_expired (Z.to_nat l) n (e_next e) ;;
        match r with
        | Some pos => removeAt pos ;; PurgeExpired_loop f n
        | None => ret tt
        end
  end.

Definition PurgeExpired (now : Z) : M unit :=
  l <- gets lru_len ;; PurgeExpired_loop (S (Z.to_nat l)) now.

Definition GetAndRefreshOrAdd (now now' : Z) (key : K) (constructor : V * bool)
    : M (V * bool * bool) :=
  h <- gets hash ;;
  r <- getAndRefreshOrAdd now (h key) key constructor ;;
  let '(value, updated, ok) := r in
  (if negb updated && ok then PurgeExpired now' else ret tt) ;;
  ret (value, updated, ok).

Fixpoint collect_keys (k : nat) (pos : Z) : M (list K) :=
  match k with
  | O => ret []
  | S k' => e <- elem pos ;; ks <- collect_keys k' (e_next e) ;; ret (e_key e :: ks)
  end.

Definition Keys (now : Z) : M (list K) :=
  PurgeExpired now ;;
  h <- gets lru_head ;;
  e <- elem h ;;
  n <- gets lru_len ;;
  collect_keys (Z.to_nat n) (e_next e).

Fixpoint remove_oldest_times (k : nat) : M unit :=
  match k with
  | O => ret tt
  | S k' => RemoveOldest ;; remove_oldest_times k'
  end.

Definition Purge : M unit :=
  l <- gets lru_len ;;
  remove_oldest_times (Z.to_nat l) ;;
  modify (with_metrics zeroMetrics).

Definition GetMetrics : M Metrics := gets metrics.

Definition ResetMetrics : M Metrics :=
  m <- gets metrics ;; modify (with_metrics zeroMetrics) ;; ret m.

End LRU.
