(* ===== verification/FreeLRUSpec.v ===== *)
(** * What the LRU cache of contrab/freelru promises

    The abstract cache is the list of its entries from the oldest to the newest,
    with unique keys, together with its settings and counters.  [cache_step]
    says for every exported operation what it answers and what it leaves;
    FreeLRURefine.v proves that lru.go implements it. *)

From S2P Require Import Prelude FreeLRU.

Record entry {K V : Type} := mkEntry {
  en_key : K; en_value : V; en_expire : Z; en_lifetime : Z }.
Arguments entry : clear implicits.
Arguments mkEntry {K V} en_key en_value en_expire en_lifetime.

(** The operations of the exported API with the clock readings they make. *)
Inductive op {K V : Type} :=
  | OSetLifetime (lifetime : Z)
  | OSetOnEvict (installed : bool)
  | OSetHealthCheck (hc : option (K -> V -> bool))
  | OLen
  | OAddWithLifetime (now : Z) (key : K) (value : V) (lifetime : Z)
  | OAdd (now : Z) (key : K) (value : V)
  | OGet (now : Z) (key : K)
  | OGetWithLifetime (now : Z) (key : K)
  | OGetWithLifetimeNoExpire (key : K)
  | OGetAndRefresh (now : Z) (key : K)
  | OGetAndRefreshOrAdd (now now' : Z) (key : K) (constructor : V * bool)
  | OPeek (now : Z) (key : K)
  | OPeekWithLifetime (now : Z) (key : K)
  | OUpdateLifetime (now : Z) (key : K) (value : V) (lifetime : Z)
  | OContains (now : Z) (key : K)
  | ORemove (key : K)
  | ORemoveOldest
  | OKeys (now : Z)
  | OPurge
  | OPurgeExpired (now : Z)
  | OResetMetrics.
Arguments op : clear implicits.

(** Their answers. *)
Inductive answer {K V : Type} :=
  | AUnit
  | ABool (b : bool)
  | ALen (n : Z)
  | AValue (value : V) (ok : bool)
  | ATimed (value : V) (expire : option Z) (ok : bool)
  | AAdded (value : V) (updated ok : bool)
  | AOldest (key : K) (value : V) (removed : bool)
  | AKeys (keys : list K).
Arguments answer : clear implicits.

Section Spec.
Context {K V : Type} `{EqDecision K, EqDecision V} (emptyKey : K) (emptyValue : V).
Abbreviation entry := (entry K V).
Implicit Types (es : list entry) (e : entry).

Record cache := mkCache {
  c_entries : list entry;                 (* oldest first *)
  c_cap : Z;
  c_lifetime : Z;
  c_onEvict : bool;
  c_hc : option (K -> V -> bool);
  c_metrics : Metrics;
  c_log : list (K * V) }.

Fixpoint find_entry (key : K) es : option entry :=
  match es with
  | [] => None
  | e :: es => if decide (en_key e = key) then Some e else find_entry key es
  end.

Definition del (key : K) es : list entry := filter (fun e => en_key e <> key) es.

Definition with_entries es c := mkCache es (c_cap c) (c_lifetime c) (c_onEvict c) (c_hc c) (c_metrics c) (c_log c).
Definition counted (f : Metrics -> Metrics) c := mkCache (c_entries c) (c_cap c) (c_lifetime c) (c_onEvict c) (c_hc c) (f (c_metrics c)) (c_log c).
Definition logged es c := mkCache (c_entries c) (c_cap c) (c_lifetime c) (c_onEvict c) (c_hc c) (c_metrics c)
  (c_log c ++ (if c_onEvict c then (fun e => (en_key e, en_value e)) <$> es else [])).

(** Removing an entry calls the eviction callback. *)
Definition discard e c : cache :=
  counted inc_Removals (logged [e] (with_entries (del (en_key e) (c_entries c)) c)).

(** Making an entry, possibly rewritten, the newest. *)
Definition touch e c : cache := with_entries (del (en_key e) (c_entries c) ++ [e]) c.

Definition is_expired (now : Z) e : bool := expired now (en_expire e).

(** Looking a key up; an entry that is unhealthy, or expired when [now] is
    given, is removed instead of found. *)
Definition seek (now : option Z) (key : K) c : option entry * cache :=
  match find_entry key (c_entries c) with
  | None => (None, c)
  | Some e =>
      if match now with Some n => is_expired n e | None => false end
         || negb (healthy (c_hc c) key (en_value e))
      then (None, discard e c) else (Some e, c)
  end.

(** Storing a key: an existing entry is replaced and becomes the newest, a new
    one is appended, after the eviction of the oldest when the cache is full. *)
Definition store (now : Z) (key : K) (value : V) (lifetime : Z) c : bool * cache :=
  let e := mkEntry key value (expire now lifetime) lifetime in
  match find_entry key (c_entries c) with
  | Some _ => (false, counted inc_Inserts (touch e c))
  | None =>
      if decide (zlen (c_entries c) = c_cap c) then
        (true, counted inc_Inserts (with_entries (tail (c_entries c) ++ [e])
                 (counted inc_Evictions (logged (take 1 (c_entries c)) c))))
      else (false, counted inc_Inserts (with_entries (c_entries c ++ [e]) c))
  end.

(** A hit makes the entry the newest; a miss is counted. *)
Definition access (now : option Z) (key : K) c : option entry * cache :=
  match seek now key c with
  | (Some e, c) => (Some e, counted inc_Hits (touch e c))
  | (None, c) => (None, counted inc_Misses c)
  end.

Definition refreshed (now : Z) e : entry :=
  mkEntry (en_key e) (en_value e) (expire now (en_lifetime e)) (en_lifetime e).

Definition purge_expired (now : Z) c : cache :=
  let gone := filter (fun e => is_expired now e = true) (c_entries c) in
  counted (Nat.iter (length gone) inc_Removals)
    (logged gone (with_entries (filter (fun e => is_expired now e = false) (c_entries c)) c)).

Definition value_of (r : option entry) : V := from_option en_value emptyValue r.
Definition found (r : option entry) : bool := bool_decide (is_Some r).

Definition cache_step (o : op K V) c : answer K V * cache :=
  match o with
  | OSetLifetime t => (AUnit, mkCache (c_entries c) (c_cap c) t (c_onEvict c) (c_hc c) (c_metrics c) (c_log c))
  | OSetOnEvict b => (AUnit, mkCache (c_entries c) (c_cap c) (c_lifetime c) b (c_hc c) (c_metrics c) (c_log c))
  | OSetHealthCheck h => (AUnit, mkCache (c_entries c) (c_cap c) (c_lifetime c) (c_onEvict c) h (c_metrics c) (c_log c))
  | OLen => (ALen (zlen (c_entries c)), c)
  | OAddWithLifetime now k v t => let (b, c') := store now k v t c in (ABool b, c')
  | OAdd now k v => let (b, c') := store now k v (c_lifetime c) c in (ABool b, c')
  | OGet now k => let (r, c') := access (Some now) k c in (AValue (value_of r) (found r), c')
  | OGetWithLifetime now k =>
      let (r, c') := access (Some now) k c in (ATimed (value_of r) (en_expire <$> r) (found r), c')
  | OGetWithLifetimeNoExpire k =>
      let (r, c') := access None k c in (ATimed (value_of r) (en_expire <$> r) (found r), c')
  | OGetAndRefresh now k =>
      match access None k c with
      | (Some e, c') => (AValue (en_value e) true, touch (refreshed now e) c')
      | (None, c') => (AValue emptyValue false, c')
      end
  | OGetAndRefreshOrAdd now now' k (v, ok) =>
      match access None k c with
      | (Some e, c') => (AAdded (en_value e) true true, touch (refreshed now e) c')
      | (None, c') =>
          if ok : bool then (AAdded v false true, purge_expired now' (store now k v (c_lifetime c') c').2)
          else (AAdded v false false, c')
      end
  | OPeek now k => let (r, c') := seek (Some now) k c in (AValue (value_of r) (found r), c')
  | OPeekWithLifetime now k =>
      let (r, c') := seek (Some now) k c in (ATimed (value_of r) (en_expire <$> r) (found r), c')
  | OUpdateLifetime now k v t =>
      match find_entry k (c_entries c) with
      | Some e =>
          if decide (en_value e = v)
          then (ABool true, counted inc_Inserts (touch (mkEntry k v (expire now t) t) c))
          else (ABool false, c)
      | None => (ABool false, c)
      end
  | OContains now k => let (r, c') := seek (Some now) k c in (ABool (found r), c')
  | ORemove k =>
      match seek None k c with
      | (Some e, c') => (ABool true, discard e c')
      | (None, c') => (ABool false, c')
      end
  | ORemoveOldest =>
      match c_entries c with
      | e :: _ => (AOldest (en_key e) (en_value e) true, discard e c)
      | [] => (AOldest emptyKey emptyValue false, c)
      end
  | OKeys now => let c' := purge_expired now c in (AKeys (en_key <$> c_entries c'), c')
  | OPurge => (AUnit, counted (fun _ => zeroMetrics) (with_entries [] (logged (c_entries c) c)))
  | OPurgeExpired now => (AUnit, purge_expired now c)
  | OResetMetrics => (AUnit, counted (fun _ => zeroMetrics) c)
  end.

Fixpoint cache_run (os : list (op K V)) c : list (answer K V) * cache :=
  match os with
  | [] => ([], c)
  | o :: os => let (a, c1) := cache_step o c in
               let (l, c2) := cache_run os c1 in (a :: l, c2)
  end.

Definition empty_cache (cap : Z) : cache := mkCache [] cap 0 false None zeroMetrics [].

(** ** Entry lists with unique keys *)

Lemma find_entry_None key es : find_entry key es = None <-> key ∉ en_key <$> es.
Proof.
  induction es as [|e es IH]; simpl; [split; [intros _; apply not_elem_of_nil|done]|].
  rewrite not_elem_of_cons. destruct (decide (en_key e = key)); [naive_solver congruence|].
  rewrite IH. naive_solver congruence.
Qed.

Lemma find_entry_Some key es e : find_entry key es = Some e -> e ∈ es /\ en_key e = key.
Proof.
  induction es as [|x es IH]; simpl; [done|]. destruct (decide (en_key x = key)).
  - intros [= ->]. split; [apply elem_of_cons; by left|done].
  - intros [Hin Hk]%IH. split; [apply elem_of_cons; by right|done].
Qed.

Lemma del_fresh key es : key ∉ en_key <$> es -> del key es = es.
Proof.
  induction es as [|x es IH]; [done|]. rewrite fmap_cons, not_elem_of_cons. intros [Hne Hin].
  unfold del. rewrite filter_cons_True by (by apply not_eq_sym). f_equal. by apply IH.
Qed.

Lemma find_del_split (l1 l2 : list entry) e :
  NoDup (en_key <$> (l1 ++ e :: l2)) ->
  find_entry (en_key e) (l1 ++ e :: l2) = Some e /\ del (en_key e) (l1 ++ e :: l2) = l1 ++ l2.
Proof.
  intros Hnd. rewrite fmap_app, fmap_cons in Hnd.
  apply NoDup_app in Hnd as (_ & Hd & [Hn _]%NoDup_cons). split.
  - induction l1 as [|x l1 IH]; simpl; [by rewrite decide_True|].
    rewrite decide_False; [apply IH; intros y Hy; apply Hd; apply elem_of_cons; by right|].
    intros E. apply (Hd (en_key x)); [apply elem_of_cons; by left|rewrite E; apply elem_of_cons; by left].
  - unfold del. rewrite filter_app, filter_cons_False by tauto.
    f_equal; apply del_fresh; [|done]. intros Hin. apply (Hd _ Hin). apply elem_of_cons; by left.
Qed.
End Spec.
Arguments cache : clear implicits.
