(* ===== verification/FreeLRUInv.v ===== *)
(** * Representation invariant of the array-backed LRU cache

    [Core s order] says that the array, the bucket heads and the two rings of [s]
    represent the cache whose live positions are [order], oldest first; the
    lemmas run the list surgery of FreeLRU.v on such states.  Between [evict]
    and [move] the live positions are not an initial segment of the array, so
    [Core] allows any set of positions and [Inv] adds that they are [0..len-1]. *)

From S2P Require Import Prelude GoBits Ring FreeLRU FreeLRUSpec.
#[local] Open Scope go_scope.

Section Elements.
Context {K V : Type} `{EqDecision K, EqDecision V} {emptyKey : K} {emptyValue : V}.
Abbreviation LRU := (@LRU K V).
Abbreviation element := (@element K V).
Abbreviation zeroElement := (zeroElement emptyKey emptyValue).
Implicit Types (s : LRU) (es : list element) (order : list Z).

Lemma element_eq (e1 e2 : element) :
  e_key e1 = e_key e2 -> e_value e1 = e_value e2 ->
  nextBucket e1 = nextBucket e2 -> prevBucket e1 = prevBucket e2 ->
  bucketPos e1 = bucketPos e2 -> e_next e1 = e_next e2 -> e_prev e1 = e_prev e2 ->
  e_expire e1 = e_expire e2 -> e_lifetime e1 = e_lifetime e2 -> e1 = e2.
Proof. destruct e1, e2; simpl; congruence. Qed.

(** The element at a position, zero out of range. *)
Definition elt es (p : Z) : element := default zeroElement (at_ es p).
Abbreviation el s p := (elt (elements s) p).

Definition upd es (p : Z) (f : element -> element) : list element :=
  <[Z.to_nat p := f (elt es p)]> es.

Lemma zlen_upd es p f : zlen (upd es p f) = zlen es.
Proof. unfold upd, zlen. by rewrite length_insert. Qed.

Lemma elt_upd es p f q :
  0 <= p < zlen es -> elt (upd es p f) q = if decide (q = p) then f (elt es p) else elt es q.
Proof.
  intros Hp. unfold upd. assert (set_at es p (f (elt es p)) = Some (upd es p f)) as Hs
    by (by apply set_at_Some).
  unfold elt at 1. fold (upd es p f). rewrite (at_set_at _ _ _ q _ Hs).
  destruct (decide (p = q)), (decide (q = p)); (done || congruence).
Qed.

Lemma upd_upd es p f g : 0 <= p < zlen es -> upd (upd es p f) p g = upd es p (fun e => g (f e)).
Proof.
  intros Hp. unfold upd at 1. rewrite elt_upd, decide_True by done.
  unfold upd. by rewrite list_insert_insert_eq.
Qed.

Lemma at_elt es p : 0 <= p < zlen es -> at_ es p = Some (elt es p).
Proof. intros Hp. unfold elt. by destruct (at_is_Some es p Hp) as [e ->]. Qed.

Lemma elem_run s p :
  0 <= p < zlen (elements s) -> elem p s = Val (el s p, s).
Proof. intros. unfold elem. by rewrite at_elt. Qed.

Lemma set_elem_run s p f :
  0 <= p < zlen (elements s) ->
  set_elem p f s = Val (tt, with_elements (upd (elements s) p f) s).
Proof. intros. unfold set_elem. by rewrite at_elt. Qed.

Lemma bucket_run s b v : at_ (buckets s) b = Some v -> bucket b s = Val (v, s).
Proof. intros E. unfold bucket. by rewrite E. Qed.

Lemma set_bucket_run s b v :
  0 <= b < zlen (buckets s) ->
  set_bucket b v s = Val (tt, with_buckets (<[Z.to_nat b := v]> (buckets s)) s).
Proof. intros. unfold set_bucket. by rewrite set_at_Some. Qed.

Lemma at_insert_bucket (bs : list Z) b v c :
  0 <= b < zlen bs ->
  at_ (<[Z.to_nat b := v]> bs) c = if decide (c = b) then Some v else at_ bs c.
Proof.
  intros Hb. rewrite (at_set_at bs _ b c v) by (by apply set_at_Some).
  destruct (decide (b = c)), (decide (c = b)); (done || congruence).
Qed.

End Elements.

(** Runs the next statement of the goal's program: range conditions are left to
    [lia] and the hypotheses, reads of updated elements are resolved when the
    hypotheses decide which position is meant.  [ek] and [ev] are the empty key
    and value; every section instantiates the tactics with its own. *)
Ltac range := rewrite ?zlen_upd; (assumption || lia).

Ltac cbn_state t :=
  eval cbn [buckets elements onEvict hash healthCheck lru_lifetime metrics lru_head lru_len
    lru_cap lru_size lru_mask evicted_log with_buckets with_elements with_onEvict
    with_healthCheck with_lifetime with_metrics with_head with_len with_log] in t.

Ltac simpl_proj f w x s :=
  let t := constr:(f (w x s)) in let t' := cbn_state t in progress change t with t'.

Ltac cbn_elt :=
  cbn [e_key e_value nextBucket prevBucket bucketPos e_next e_prev e_expire e_lifetime
       set_key set_value set_nextBucket set_prevBucket set_bucketPos set_next set_prev
       set_expire set_e_lifetime fst snd].

Ltac simpl_state :=
  repeat match goal with
  | |- context [@elements ?K ?V (?w ?x ?s)] => simpl_proj (@elements K V) w x s
  | |- context [@buckets ?K ?V (?w ?x ?s)] => simpl_proj (@buckets K V) w x s
  | |- context [@lru_head ?K ?V (?w ?x ?s)] => simpl_proj (@lru_head K V) w x s
  | |- context [@lru_len ?K ?V (?w ?x ?s)] => simpl_proj (@lru_len K V) w x s
  | |- context [@onEvict ?K ?V (?w ?x ?s)] => simpl_proj (@onEvict K V) w x s
  | |- context [@elt ?K ?V ?ek ?ev (upd ?es ?p ?f) ?q] =>
      rewrite (@elt_upd K V ek ev es p f q) by range;
      first [ rewrite (decide_True (P := q = p)) by congruence
            | rewrite (decide_False (P := q = p)) by congruence ]
  end; cbn_elt.

Ltac run_step_with ek ev :=
  first
  [ rewrite bind_gets | rewrite bind_ret | rewrite bind_modify | rewrite bind_bind
  | erewrite bind_run by (apply (elem_run (emptyKey := ek) (emptyValue := ev)); simpl_state; range)
  | erewrite bind_run by (apply (set_elem_run (emptyKey := ek) (emptyValue := ev)); simpl_state; range)
  | rewrite (elem_run (emptyKey := ek) (emptyValue := ev)) by (simpl_state; range)
  | rewrite (set_elem_run (emptyKey := ek) (emptyValue := ev)) by (simpl_state; range) ];
  cbn beta; simpl_state.

(** Splits on the position an updated element is read at. *)
Ltac elt_cases :=
  repeat match goal with
  | |- context [@elt ?K ?V ?ek ?ev (upd ?es ?p ?f) ?q] =>
      rewrite (@elt_upd K V ek ev es p f q) by range
  end;
  repeat case_decide; apply element_eq; cbn_elt; congruence.

Section Inv.
Context {K V : Type} `{EqDecision K, EqDecision V} {emptyKey : K} {emptyValue : V}.
Abbreviation LRU := (@LRU K V).
Abbreviation element := (@element K V).
Abbreviation elt := (@elt K V emptyKey emptyValue).
Abbreviation upd := (@upd K V emptyKey emptyValue).
Abbreviation el s p := (elt (elements s) p).
Implicit Types (s : LRU) (es : list element) (order : list Z).
Ltac run_step := run_step_with emptyKey emptyValue.

(** ** The time ring *)

Lemma setHead_run s pos :
  let h := lru_head s in
  let o := e_next (el s h) in
  pos <> h -> 0 <= pos < zlen (elements s) -> 0 <= h < zlen (elements s) ->
  0 <= o < zlen (elements s) ->
  exists es, setHead pos s = Val (tt, with_head pos (with_elements es s))
    /\ zlen es = zlen (elements s)
    /\ forall q, elt es q =
         set_next (if decide (q = h) then pos else if decide (q = pos) then o else e_next (el s q))
        (set_prev (if decide (q = o) then pos else if decide (q = pos) then h else e_prev (el s q))
          (el s q)).
Proof.
  intros h o Hne Hpos Hh Ho. subst h o. unfold setHead. run_step. rewrite decide_False by done.
  do 6 run_step.
  eexists; split; [reflexivity|]. split; [by rewrite !zlen_upd|]. intros q. elt_cases.
Qed.

Lemma unlinkElement_run s pos :
  let n := e_next (el s pos) in
  let p := e_prev (el s pos) in
  0 <= pos < zlen (elements s) -> 0 <= n < zlen (elements s) -> 0 <= p < zlen (elements s) ->
  exists es, unlinkElement pos s = Val (tt, with_elements es s)
    /\ zlen es = zlen (elements s)
    /\ forall q, elt es q =
         set_next (if decide (q = p) then n else e_next (el s q))
        (set_prev (if decide (q = n) then p else e_prev (el s q)) (el s q)).
Proof.
  intros n p Hpos Hn Hp. subst n p. unfold unlinkElement.
  destruct (decide (e_prev (el s pos) = pos)) as [E|E]; [rewrite E in *|].
  all: do 4 run_step.
  all: eexists; split; [reflexivity|].
  all: split; [by rewrite !zlen_upd|]; intros q; elt_cases.
Qed.

(** ** The bucket rings *)

Lemma unlinkBucket_single s pos :
  prevBucket (el s pos) = pos -> nextBucket (el s pos) = pos ->
  0 <= pos < zlen (elements s) -> 0 <= bucketPos (el s pos) < zlen (buckets s) ->
  unlinkBucket pos s
  = Val (tt, with_buckets (<[Z.to_nat (bucketPos (el s pos)) := emptyBucket]> (buckets s)) s).
Proof.
  intros Hp Hn Hpos Hb. unfold unlinkBucket. run_step.
  rewrite decide_True by (split; congruence). by rewrite set_bucket_run.
Qed.

Lemma unlinkBucket_run s pos :
  let n := nextBucket (el s pos) in
  let p := prevBucket (el s pos) in
  ~ (p = n /\ p = pos) ->
  0 <= pos < zlen (elements s) -> 0 <= n < zlen (elements s) -> 0 <= p < zlen (elements s) ->
  0 <= bucketPos (el s pos) < zlen (buckets s) ->
  exists es, unlinkBucket pos s
      = Val (tt, with_buckets (<[Z.to_nat (bucketPos (el s pos)) := n]> (buckets s))
                   (with_elements es s))
    /\ zlen es = zlen (elements s)
    /\ forall q, elt es q =
         set_nextBucket (if decide (q = p) then n else nextBucket (el s q))
        (set_prevBucket (if decide (q = n) then p else prevBucket (el s q)) (el s q)).
Proof.
  intros n p Hnp Hpos Hn Hp Hb. subst n p. unfold unlinkBucket. run_step.
  rewrite decide_False by done. do 3 run_step.
  replace (bucketPos _) with (bucketPos (el s pos)) by
    (rewrite !elt_upd by range; repeat case_decide; cbn; congruence).
  rewrite set_bucket_run by done.
  eexists; split; [reflexivity|]. split; [by rewrite !zlen_upd|]. intros q. elt_cases.
Qed.

(** The bucket [b] holds the live positions that carry its number, as a ring
    entered through the head stored in [bs]. *)
Definition bucket_ok es (bs : list Z) order (b : Z) : Prop :=
  exists l, NoDup l
    /\ ring (fun p => nextBucket (elt es p)) (fun p => prevBucket (elt es p)) l
    /\ at_ bs b = Some (hd emptyBucket l)
    /\ forall p, p ∈ l <-> p ∈ order /\ bucketPos (elt es p) = b.

Definition buckets_ok es bs order : Prop :=
  forall b, 0 <= b < zlen bs -> bucket_ok es bs order b.

Lemma bucket_ok_ext es es' bs bs' order order' b :
  at_ bs' b = at_ bs b ->
  (forall p, bucketPos (elt es p) = b -> p ∈ order -> bucketPos (elt es' p) = b) ->
  (forall p, bucketPos (elt es' p) = b -> p ∈ order' -> bucketPos (elt es p) = b) ->
  (forall p, bucketPos (elt es p) = b -> (p ∈ order' <-> p ∈ order)) ->
  (forall p, bucketPos (elt es p) = b -> p ∈ order ->
    nextBucket (elt es' p) = nextBucket (elt es p) /\ prevBucket (elt es' p) = prevBucket (elt es p)) ->
  bucket_ok es bs order b -> bucket_ok es' bs' order' b.
Proof.
  intros Hbs Hp1 Hp2 Ho Hl (l & Hnd & Hr & Hat & Hin). exists l. split_and!; [done| |congruence|].
  - apply (ring_ext (fun p => nextBucket (elt es p)) (fun p => prevBucket (elt es p))); [..|done];
      intros p [Hp Hb]%Hin; by apply Hl.
  - intros p. rewrite Hin. split; intros [H1 H2]; naive_solver.
Qed.

Lemma buckets_ok_same es es' bs order :
  (forall p, nextBucket (elt es' p) = nextBucket (elt es p)
    /\ prevBucket (elt es' p) = prevBucket (elt es p)
    /\ bucketPos (elt es' p) = bucketPos (elt es p)) ->
  buckets_ok es bs order -> buckets_ok es' bs order.
Proof.
  intros Hp Hb b Hlt. apply (bucket_ok_ext es es' bs bs order order); try done; [..|by apply Hb];
    intros p; destruct (Hp p) as (H1 & H2 & H3); congruence || done.
Qed.

(** Rotating a bucket so that it starts at one of its nodes. *)
Lemma bucket_at es bs order pos :
  bucket_ok es bs order (bucketPos (elt es pos)) -> pos ∈ order ->
  exists l0 l, ring (fun p => nextBucket (elt es p)) (fun p => prevBucket (elt es p)) (pos :: l)
    /\ NoDup (pos :: l) /\ l0 ≡ₚ pos :: l
    /\ at_ bs (bucketPos (elt es pos)) = Some (hd emptyBucket l0)
    /\ (forall p, p ∈ pos :: l <-> p ∈ order /\ bucketPos (elt es p) = bucketPos (elt es pos)).
Proof.
  intros (l0 & Hnd & Hr & Hat & Hin) Hpos.
  destruct (ring_start _ _ pos l0 (proj2 (Hin pos) (conj Hpos eq_refl)) Hnd Hr)
    as (l & Hr' & Hnd' & Hperm & _).
  exists l0, l. split_and!; [done..|]. intros p. by rewrite <- Hperm.
Qed.

Lemma unlinkBucket_core s order order' pos :
  buckets_ok (elements s) (buckets s) order -> pos ∈ order ->
  (forall p, p ∈ order' <-> p ∈ order /\ p <> pos) ->
  (forall p, p ∈ order -> 0 <= p < zlen (elements s)) ->
  zlen (elements s) <= emptyBucket ->
  0 <= bucketPos (el s pos) < zlen (buckets s) ->
  exists es bs, unlinkBucket pos s = Val (tt, with_buckets bs (with_elements es s))
    /\ zlen es = zlen (elements s) /\ zlen bs = zlen (buckets s)
    /\ (forall q, exists n p, elt es q = set_nextBucket n (set_prevBucket p (el s q)))
    /\ buckets_ok es bs order'
    /\ (at_ bs (bucketPos (el s pos)) = Some emptyBucket -> prevBucket (elt es pos) = pos).
Proof.
  intros Hb Hpos Ho Hr Hsize Hbp.
  destruct (bucket_at _ _ _ _ (Hb _ Hbp) Hpos) as (l0 & l & Hring & Hnd & _ & _ & Hin).
  assert (forall p, p ∈ pos :: l -> 0 <= p < zlen (elements s)) as Hrange
    by (intros p [? _]%Hin; auto).
  destruct (ring_closed _ _ _ pos Hring ltac:(apply elem_of_cons; by left)) as [Hn Hp].
  destruct (decide (l = [])) as [->|Hl].
  - apply ring_singleton in Hring as [H1 H2].
    exists (elements s), (<[Z.to_nat (bucketPos (el s pos)):=emptyBucket]> (buckets s)).
    split_and!; [by rewrite unlinkBucket_single by auto|done|unfold zlen; by rewrite length_insert| | |done].
    + intros q. exists (nextBucket (el s q)), (prevBucket (el s q)). by destruct (el s q).
    + intros b Hlt. unfold zlen in Hlt. rewrite length_insert in Hlt.
      destruct (decide (b = bucketPos (el s pos))) as [->|Hne].
      * exists []. split_and!; [constructor|done|by rewrite at_insert_bucket, decide_True|].
        intros p. split; [by intros ?%not_elem_of_nil|]. rewrite Ho.
        intros [[H3 H4] H5]. exfalso. apply H4.
        by apply list_elem_of_singleton, Hin.
      * apply (bucket_ok_ext (elements s) _ (buckets s) _ order); try done; [|naive_solver|by apply Hb].
        by rewrite at_insert_bucket, decide_False.
  - destruct (unlinkBucket_run s pos) as (es & Hrun & Hlen & Hes); [|by auto..|].
    { intros [E1 E2]. destruct l as [|y l]; [done|].
      apply ring_next in Hring as [E3 _]. apply NoDup_cons in Hnd as [Hnd _].
      apply Hnd, elem_of_cons. left. congruence. }
    eexists es, _. split_and!; [exact Hrun|done|unfold zlen; by rewrite length_insert| | |].
    + intros q. rewrite Hes. eauto.
    + intros b Hlt. unfold zlen in Hlt. rewrite length_insert in Hlt.
      destruct (decide (b = bucketPos (el s pos))) as [->|Hne].
      * destruct l as [|y l]; [done|]. exists (y :: l). split_and!.
        -- by apply NoDup_cons in Hnd as [_ ?].
        -- eapply (ring_unlink _ _ _ _ pos (y :: l)); [done..| |];
             intros q Hq; cbn; rewrite Hes; by cbn.
        -- rewrite at_insert_bucket, decide_True by done. simpl.
           by apply ring_next in Hring as [-> _].
        -- intros p. rewrite Ho, Hes. cbn. apply NoDup_cons in Hnd as [Hnd _].
           specialize (Hin p). rewrite elem_of_cons in Hin. split.
           ++ intros Hp2. assert (p <> pos) by (by intros ->). tauto.
           ++ tauto.
      * apply (bucket_ok_ext (elements s) _ (buckets s) _ order); [| | | | |by apply Hb].
        -- by rewrite at_insert_bucket, decide_False.
        -- intros p. by rewrite Hes.
        -- intros p. by rewrite Hes.
        -- naive_solver.
        -- intros p Hbpos Hpo. rewrite Hes. cbn.
           apply Hin in Hn, Hp. rewrite !decide_False by (intros ->; naive_solver). done.
    + rewrite at_insert_bucket, decide_True by done. intros [= E].
      assert (0 <= nextBucket (el s pos) < zlen (elements s)) by auto. lia.
Qed.

(** ** The invariant *)

(** The part of the state that no operation on entries changes. *)
Record Config s : Prop := {
  cfg_elements : zlen (elements s) = lru_size s;
  cfg_buckets : zlen (buckets s) = lru_size s;
  cfg_cap : 0 < lru_cap s <= lru_size s;
  cfg_size : lru_size s < emptyBucket;
  cfg_mask : lru_mask s = if decide (OnesCount32 (lru_size s) = 1) then u32 (lru_size s - 1) else 0;
  cfg_hash : forall k, 0 <= hash s k < 2 ^ 32;
}.

Record Core s order : Prop := {
  core_config : Config s;
  core_len : lru_len s = zlen order;
  core_nodup : NoDup order;
  core_range : forall p, p ∈ order -> 0 <= p < lru_size s;
  core_ring : ring (fun p => e_next (el s p)) (fun p => e_prev (el s p)) order;
  core_head_range : 0 <= lru_head s < lru_size s;
  core_head : order <> [] -> last order = Some (lru_head s);
  core_buckets : buckets_ok (elements s) (buckets s) order;
  core_pos : forall p, p ∈ order -> bucketPos (el s p) = hashToBucketPos (hash s (e_key (el s p))) s;
  core_keys : forall p q, p ∈ order -> q ∈ order -> e_key (el s p) = e_key (el s q) -> p = q;
}.

(** [s'] has the configuration of [s]; only entries, rings and counters differ. *)
Definition same_config s s' : Prop :=
  zlen (elements s') = zlen (elements s) /\ zlen (buckets s') = zlen (buckets s)
  /\ onEvict s' = onEvict s /\ hash s' = hash s /\ healthCheck s' = healthCheck s
  /\ lru_lifetime s' = lru_lifetime s /\ lru_cap s' = lru_cap s /\ lru_size s' = lru_size s
  /\ lru_mask s' = lru_mask s.

#[export] Instance same_config_preorder : PreOrder same_config.
Proof. split; [intros s|intros s1 s2 s3]; unfold same_config; [tauto|intuition congruence]. Qed.

Lemma Config_same s s' : same_config s s' -> Config s -> Config s'.
Proof.
  intros (E1 & E2 & E3 & E4 & E5 & E6 & E7 & E8 & E9) []. split; rewrite ?E1, ?E2, ?E4, ?E7, ?E8, ?E9; auto.
Qed.

Lemma hashToBucketPos_same s s' h : same_config s s' -> hashToBucketPos h s' = hashToBucketPos h s.
Proof.
  intros (E1 & E2 & E3 & E4 & E5 & E6 & E7 & E8 & E9). unfold hashToBucketPos. by rewrite E8, E9.
Qed.

Lemma fastModulo_range h n : 0 <= h < 2 ^ 32 -> 0 < n < 2 ^ 32 -> 0 <= fastModulo h n < n.
Proof.
  intros Hh Hn. unfold fastModulo. rewrite u64_small by nia.
  rewrite Z.shiftr_div_pow2 by lia.
  assert (0 <= h * n / 2 ^ 32 < n).
  { split; [apply Z.div_pos; nia|]. apply Z.div_lt_upper_bound; nia. }
  by rewrite u32_small by lia.
Qed.

Lemma hashToBucketPos_range s h :
  Config s -> 0 <= h < 2 ^ 32 -> 0 <= hashToBucketPos h s < lru_size s.
Proof.
  intros [H1 H2 H3 H4 H5 H6] Hh. unfold hashToBucketPos, emptyBucket in *.
  destruct (decide (lru_mask s <> 0)) as [Hm|Hm].
  - destruct (decide (OnesCount32 (lru_size s) = 1)); [|done].
    rewrite u32_small in H5 by lia. rewrite H5 in *.
    split; [apply Z.land_nonneg; lia|].
    assert (Z.land h (lru_size s - 1) <= lru_size s - 1); [|lia].
    apply Z_land_le_r; lia.
  - apply fastModulo_range; lia.
Qed.

Lemma core_bucketPos_range s order p :
  Core s order -> p ∈ order -> 0 <= bucketPos (el s p) < zlen (buckets s).
Proof.
  intros [] Hp. rewrite core_pos0 by done. rewrite cfg_buckets by done.
  apply hashToBucketPos_range; [done|]. by apply cfg_hash.
Qed.

Lemma core_range_elements s order p :
  Core s order -> p ∈ order -> 0 <= p < zlen (elements s).
Proof. intros [] Hp. rewrite cfg_elements by done. auto. Qed.

Lemma core_links s order p :
  Core s order -> p ∈ order -> e_next (el s p) ∈ order /\ e_prev (el s p) ∈ order.
Proof.
  intros [] Hp. by apply (ring_closed (fun p => e_next (el s p)) (fun p => e_prev (el s p)) order p).
Qed.

(** Key, value, lifetime and bucket number of an element: what an entry is, as
    opposed to where it is linked. *)
Definition data_eq (e e' : element) : Prop :=
  e_key e' = e_key e /\ e_value e' = e_value e /\ e_expire e' = e_expire e
  /\ e_lifetime e' = e_lifetime e /\ bucketPos e' = bucketPos e.

#[export] Instance data_eq_equiv : Equivalence data_eq.
Proof. unfold data_eq. split; repeat intro; intuition congruence. Qed.

Lemma last_remove (l1 l2 : list Z) p h h' :
  NoDup (l1 ++ p :: l2) -> last (l1 ++ p :: l2) = Some h ->
  (p <> h -> h' = h) -> (forall l y, l1 = l ++ [y] -> l2 = [] -> h' = y) ->
  l1 ++ l2 <> [] -> last (l1 ++ l2) = Some h'.
Proof.
  intros Hnd Hl Hne Heq Hnil. destruct l2 as [|z l2 _] using rev_ind.
  - rewrite last_snoc in Hl. injection Hl as <-. rewrite app_nil_r in *.
    destruct l1 as [|y l1 _] using rev_ind; [done|].
    rewrite last_snoc. f_equal. symmetry. by eapply Heq.
  - rewrite app_comm_cons, app_assoc, last_snoc in Hl. injection Hl as <-.
    rewrite app_assoc, last_snoc. f_equal. symmetry. apply Hne. intros ->.
    apply NoDup_app in Hnd as (_ & _ & Hnd). apply NoDup_cons in Hnd as [Hnd _].
    apply Hnd, elem_of_app. right. by apply elem_of_cons; left.
Qed.

Lemma elem_of_removed (l1 l2 : list Z) p q :
  NoDup (l1 ++ p :: l2) -> (q ∈ l1 ++ l2 <-> q ∈ l1 ++ p :: l2 /\ q <> p).
Proof.
  intros Hnd. rewrite <- (Permutation_middle l1 l2 p), NoDup_cons in *.
  destruct Hnd as [Hp _]. rewrite elem_of_cons. split.
  - intros Hq. split; [by right|]. by intros ->.
  - intros [[->|Hq] Hne]; done.
Qed.

Lemma zlen_bounded (l : list Z) n : NoDup l -> (forall p, p ∈ l -> 0 <= p < n) -> zlen l <= Z.max 0 n.
Proof.
  intros Hnd Hr. assert (l ⊆+ seqZ 0 n) as Hs.
  { apply NoDup_submseteq; [done|]. intros p Hp. apply elem_of_seqZ. specialize (Hr p Hp). lia. }
  apply submseteq_length in Hs. rewrite length_seqZ in Hs. unfold zlen. lia.
Qed.

Lemma core_len_le s order : Core s order -> zlen order <= lru_size s.
Proof.
  intros []. destruct core_config0. pose proof (zlen_bounded order (lru_size s)). 
  specialize (H core_nodup0 core_range0). lia.
Qed.

(** Taking a position out of the rings, the order and the length. *)
Lemma core_unlinked s s' l1 pos l2 :
  Core s (l1 ++ pos :: l2) -> same_config s s' ->
  (forall q, data_eq (el s q) (el s' q)) ->
  (forall q, e_next (el s' q)
    = if decide (q = e_prev (el s pos)) then e_next (el s pos) else e_next (el s q)) ->
  (forall q, e_prev (el s' q)
    = if decide (q = e_next (el s pos)) then e_prev (el s pos) else e_prev (el s q)) ->
  buckets_ok (elements s') (buckets s') (l1 ++ l2) ->
  lru_head s' = (if decide (pos = lru_head s) then e_prev (el s pos) else lru_head s) ->
  lru_len s' = u32 (lru_len s - 1) ->
  Core s' (l1 ++ l2).
Proof.
  intros HC Hs Hdata Hn Hp Hb Hh Hl. pose proof (core_len_le _ _ HC) as Hle.
  pose proof HC as [Hcfg Hlen Hnd Hr Hring Hhr Hhd Hbk Hpos Hkeys].
  assert (pos ∈ l1 ++ pos :: l2) as Hin by (apply elem_of_app; right; by apply elem_of_cons; left).
  destruct (core_links _ _ _ HC Hin) as [Hn' Hp'].
  assert (forall q, q ∈ l1 ++ l2 -> q ∈ l1 ++ pos :: l2) as Hsub
    by (intros q Hq; by apply (elem_of_removed l1 l2 pos q) in Hq as [? _]).
  assert (lru_size s' = lru_size s) as Hsz by apply Hs. split.
  - by apply (Config_same s).
  - rewrite Hl, Hlen, !zlen_app, zlen_cons in *. destruct Hcfg. unfold emptyBucket in *.
    pose proof (zlen_nonneg l1). pose proof (zlen_nonneg l2). rewrite u32_small; lia.
  - rewrite <- Permutation_middle in Hnd. by apply NoDup_cons in Hnd as [_ ?].
  - rewrite Hsz. auto.
  - by apply (ring_unlink_mid _ _ _ _ l1 pos l2 Hnd Hring).
  - rewrite Hh, Hsz. case_decide; auto.
  - intros Hne. rewrite Hh. apply (last_remove l1 l2 pos (lru_head s)); [done| | | |done].
    + apply Hhd. by destruct l1.
    + intros. by rewrite decide_False.
    + intros l y -> ->. rewrite app_nil_r in *. rewrite last_snoc in Hhd.
      rewrite decide_True by (assert (Some pos = Some (lru_head s)) by (apply Hhd; by destruct l); congruence).
      apply ring_rotate in Hring. by apply ring_links in Hring as [_ ?].
  - done.
  - intros q Hq. destruct (Hdata q) as (E1 & _ & _ & _ & E5).
    rewrite E1, E5, Hpos by auto. rewrite (hashToBucketPos_same s s') by done.
    by replace (hash s') with (hash s) by (symmetry; apply Hs).
  - intros p q Hp1 Hq1. rewrite (proj1 (Hdata p)), (proj1 (Hdata q)). auto.
Qed.

(** The two unlinking steps of [evict], from any state that differs from [s] in
    its head only. *)
Lemma evict_unlink s l1 pos l2 h :
  Core s (l1 ++ pos :: l2) ->
  exists es bs,
    (forall k : unit -> GoM LRU unit, bind (unlinkElement pos) (fun _ => bind (unlinkBucket pos) k) (with_head h s)
      = k tt (with_buckets bs (with_elements es (with_head h s))))
    /\ zlen es = zlen (elements s) /\ zlen bs = zlen (buckets s)
    /\ (forall q, data_eq (el s q) (elt es q))
    /\ (forall q, e_next (elt es q)
          = if decide (q = e_prev (el s pos)) then e_next (el s pos) else e_next (el s q))
    /\ (forall q, e_prev (elt es q)
          = if decide (q = e_next (el s pos)) then e_prev (el s pos) else e_prev (el s q))
    /\ buckets_ok es bs (l1 ++ l2)
    /\ (at_ bs (bucketPos (el s pos)) = Some emptyBucket -> prevBucket (elt es pos) = pos).
Proof.
  intros HC. pose proof HC as []. set (order := l1 ++ pos :: l2) in *.
  assert (pos ∈ order) as Hpos by (apply elem_of_app; right; by apply elem_of_cons; left).
  pose proof (core_range_elements _ _ _ HC Hpos) as Hrange.
  destruct (core_links _ _ _ HC Hpos) as [Hn Hp].
  pose proof (core_range_elements _ _ _ HC Hn). pose proof (core_range_elements _ _ _ HC Hp).
  destruct (unlinkElement_run (with_head h s) pos) as (es & Hrun & Hlen & Hes); [done..|].
  change (elements (with_head h s)) with (elements s) in Hes, Hlen.
  destruct (unlinkBucket_core (with_elements es (with_head h s)) order (l1 ++ l2) pos)
    as (es2 & bs & Hrun2 & Hlen2 & Hbs & Hes2 & Hb & Hself); cbn [elements buckets with_elements with_head] in *.
  { apply (buckets_ok_same (elements s)); [|done]. intros p. by rewrite Hes. }
  { done. }
  { intros q. by apply elem_of_removed. }
  { intros p Hin. rewrite Hlen. by eapply core_range_elements. }
  { rewrite Hlen, cfg_elements by done. destruct core_config0. lia. }
  { rewrite Hes. by eapply core_bucketPos_range. }
  rewrite Hes in Hself. cbn in Hself.
  exists es2, bs. split_and!; [|congruence|done|..|done|done].
  - intros k. rewrite (bind_run _ _ _ _ _ Hrun). by rewrite (bind_run _ _ _ _ _ Hrun2).
  - intros q. destruct (Hes2 q) as (n & p & ->). rewrite Hes. by unfold data_eq.
  - intros q. destruct (Hes2 q) as (n & p & ->). by rewrite Hes.
  - intros q. destruct (Hes2 q) as (n & p & ->). by rewrite Hes.
Qed.

Lemma evict_core s l1 pos l2 :
  Core s (l1 ++ pos :: l2) ->
  exists s', evict pos s = Val (tt, s')
    /\ Core s' (l1 ++ l2) /\ same_config s s' /\ metrics s' = metrics s
    /\ (forall q, data_eq (el s q) (el s' q))
    /\ evicted_log s' = evicted_log s
         ++ (if onEvict s then [(e_key (el s pos), e_value (el s pos))] else [])
    /\ (at_ (buckets s') (bucketPos (el s pos)) = Some emptyBucket -> prevBucket (el s' pos) = pos).
Proof.
  intros HC.
  assert (pos ∈ l1 ++ pos :: l2) as Hpos by (apply elem_of_app; right; by apply elem_of_cons; left).
  pose proof (core_range_elements _ _ _ HC Hpos) as Hrange.
  set (h' := if decide (pos = lru_head s) then e_prev (el s pos) else lru_head s).
  destruct (evict_unlink s l1 pos l2 h' HC)
    as (es & bs & Hrun & Hlen & Hbs & Hdata & Hn & Hp & Hb & Hself).
  unfold evict. run_step.
  assert (forall k : unit -> GoM LRU unit, bind (if decide (pos = lru_head s)
      then e <- elem pos;; modify (with_head (e_prev e)) else ret tt) k s = k tt (with_head h' s)) as ->.
  { intros k. unfold h'. case_decide; [do 3 run_step; done|]. rewrite bind_ret. by destruct s. }
  rewrite Hrun. clear Hrun. run_step. run_step.
  set (s1 := with_len _ _). simpl_state.
  assert (same_config s s1) as Hs1 by (unfold same_config; cbn; tauto).
  assert (Core s1 (l1 ++ l2)) as HC1 by (by apply (core_unlinked s s1 l1 pos l2)).
  destruct (onEvict s).
  - exists (with_log (evicted_log s1 ++ [(e_key (el s1 pos), e_value (el s1 pos))]) s1).
    split_and!; [|by apply (core_unlinked s _ l1 pos l2)|done..| |done].
    + subst s1. by run_step.
    + cbn. by destruct (Hdata pos) as (-> & -> & _).
  - exists s1. split_and!; [done..| |done]. cbn. by rewrite app_nil_r.
Qed.

(** ** move *)

Lemma move_run s to from :
  let e := el s from in
  to <> from -> 0 <= to < zlen (elements s) -> 0 <= from < zlen (elements s) ->
  0 <= e_next e < zlen (elements s) -> 0 <= e_prev e < zlen (elements s) ->
  0 <= nextBucket e < zlen (elements s) -> 0 <= prevBucket e < zlen (elements s) ->
  0 <= bucketPos e < zlen (buckets s) ->
  exists es, move to from s
      = Val (tt, with_buckets
                   (if decide (at_ (buckets s) (bucketPos e) = Some from)
                    then <[Z.to_nat (bucketPos e) := to]> (buckets s) else buckets s)
                   (with_elements es (with_head (if decide (from = lru_head s) then to else lru_head s) s)))
    /\ zlen es = zlen (elements s)
    /\ forall q, elt es q =
         let r := if decide (q = to) then from else q in
         set_next (if decide (r = e_prev e) then to else e_next (el s r))
        (set_prev (if decide (r = e_next e) then to else e_prev (el s r))
        (set_nextBucket (if decide (r = prevBucket e) then to else nextBucket (el s r))
        (set_prevBucket (if decide (r = nextBucket e) then to else prevBucket (el s r))
          (el s r)))).
Proof.
  intros e Hne Hto Hfrom Hn Hp Hnb Hpb Hb. subst e. unfold move.
  rewrite decide_False by done. run_step.
  assert (forall k : unit -> GoM LRU unit,
    bind (if decide (from = lru_head s) then modify (with_head to) else ret tt) k s
    = k tt (with_head (if decide (from = lru_head s) then to else lru_head s) s)) as ->.
  { intros k. case_decide; [done|]. rewrite bind_ret. by destruct s. }
  do 4 run_step.
  set (es1 := upd (upd (elements s) _ _) _ _).
  assert (zlen es1 = zlen (elements s)) as Hl1 by (unfold es1; by rewrite !zlen_upd).
  assert (forall q, elt es1 q
    = set_next (if decide (q = e_prev (el s from)) then to else e_next (el s q))
     (set_prev (if decide (q = e_next (el s from)) then to else e_prev (el s q)) (el s q))) as Hes1
    by (intros q; unfold es1; elt_cases).
  rewrite (Hes1 from). cbn [nextBucket prevBucket set_next set_prev].
  do 3 run_step.
  set (es2 := upd (upd es1 _ _) _ _).
  assert (zlen es2 = zlen (elements s)) as Hl2 by (unfold es2; by rewrite !zlen_upd).
  assert (forall q, elt es2 q
    = set_nextBucket (if decide (q = prevBucket (el s from)) then to else nextBucket (el s q))
     (set_prevBucket (if decide (q = nextBucket (el s from)) then to else prevBucket (el s q))
       (elt es1 q))) as Hes2.
  { assert (forall q, nextBucket (elt es1 q) = nextBucket (el s q)
      /\ prevBucket (elt es1 q) = prevBucket (el s q)) as Hb1 by (intros q; by rewrite Hes1).
    intros q. unfold es2. rewrite !elt_upd by range. destruct (Hb1 q) as [Hb2 Hb3].
    repeat case_decide; apply element_eq; cbn; congruence. }
  do 2 run_step.
  replace (bucketPos (elt es2 from)) with (bucketPos (el s from)) by (by rewrite Hes2, Hes1).
  destruct (at_is_Some (buckets s) _ Hb) as [v Hv].
  erewrite bind_run by (apply bucket_run; exact Hv). rewrite Hv.
  exists (upd es2 to (fun _ => elt es2 from)). split_and!; [|by rewrite zlen_upd|].
  - destruct (decide (v = from)) as [->|Hvf].
    + destruct (decide (from = from)), (decide (Some from = Some from)); try done.
      by rewrite set_bucket_run.
    + destruct (decide (v = from)), (decide (Some v = Some from)); done || congruence.
  - intros q. cbv zeta. rewrite elt_upd by range.
    assert (elt es2 (if decide (q = to) then from else q)
      = if decide (q = to) then elt es2 from else elt es2 q) as <- by (by case_decide).
    rewrite Hes2, Hes1. apply element_eq; reflexivity.
Qed.

Lemma elem_of_mid (l1 l2 : list Z) p q : q ∈ l1 ++ p :: l2 <-> q = p \/ q ∈ l1 ++ l2.
Proof. rewrite !elem_of_app, elem_of_cons. tauto. Qed.

(** The bucket of a relabelled position. *)
Lemma bucket_relabel es es' (bs : list Z) order order' to from :
  let b := bucketPos (elt es from) in
  0 <= b < zlen bs -> bucket_ok es bs order b -> from ∈ order -> to ∉ order ->
  (forall q, q ∈ order' <-> q = to \/ (q ∈ order /\ q <> from)) ->
  (forall q, q ∈ order' -> bucketPos (elt es' q) = bucketPos (elt es (if decide (q = to) then from else q))) ->
  (forall q, let r := if decide (q = to) then from else q in
    nextBucket (elt es' q) = (if decide (r = prevBucket (elt es from)) then to else nextBucket (elt es r))
    /\ prevBucket (elt es' q) = (if decide (r = nextBucket (elt es from)) then to else prevBucket (elt es r))) ->
  bucket_ok es' (if decide (at_ bs b = Some from) then <[Z.to_nat b := to]> bs else bs) order' b.
Proof.
  intros b Hblt Hb Hfrom Hto Ho Hbp Hlinks. subst b.
  destruct (bucket_at _ _ _ _ Hb Hfrom) as (l0 & l & Hring & Hnd & Hperm & Hat & Hin).
  pose proof (proj1 (NoDup_cons _ _) Hnd) as [Hfl Hndl].
  assert (to ∉ from :: l) as Htl by (intros [? _]%Hin; done).
  assert (NoDup (to :: l)) as Hnd'.
  { apply NoDup_cons. split; [|done]. intros ?. apply Htl, elem_of_cons. by right. }
  assert (ring (fun p => nextBucket (elt es' p)) (fun p => prevBucket (elt es' p)) (to :: l)) as Hring'.
  { assert (forall q, q ∈ l -> q <> to) as Hqto by (intros q Hq ->; apply Htl, elem_of_cons; by right).
    eapply (ring_relabel _ _ _ _ from l to Hnd Htl Hring); cbn;
      [destruct (Hlinks to) as [-> _]|destruct (Hlinks to) as [_ ->]
      |intros q Hq; destruct (Hlinks q) as [-> _]|intros q Hq; destruct (Hlinks q) as [_ ->]];
      cbv zeta; rewrite ?(decide_True (P := to = to)) by done;
      rewrite ?(decide_False (P := q = to)) by auto; done. }
  assert (forall p, p ∈ to :: l <-> p ∈ order' /\ bucketPos (elt es' p) = bucketPos (elt es from)) as Hin'.
  { intros p. rewrite elem_of_cons, Ho. destruct (decide (p = to)) as [->|Hne].
    - rewrite Hbp, decide_True by (rewrite ?Ho; tauto). tauto.
    - specialize (Hin p). rewrite elem_of_cons in Hin. split.
      + intros [?|Hp]; [done|]. assert (p <> from) by (by intros ->).
        rewrite Hbp, decide_False by (rewrite ?Ho; tauto). tauto.
      + intros [[?|[H1 H2]] H3]; [done|]. rewrite Hbp, decide_False in H3 by (rewrite ?Ho; tauto). tauto. }
  destruct (decide (at_ bs (bucketPos (elt es from)) = Some from)) as [Hf|Hf].
  - exists (to :: l). split_and!; [done..| |done]. by rewrite at_insert_bucket, decide_True.
  - destruct l0 as [|h l0]; [by apply Permutation_nil in Hperm|]. simpl in Hat.
    assert (h ∈ l) as Hh.
    { assert (h ∈ from :: l) as [->|?]%elem_of_cons by (rewrite <- Hperm; apply elem_of_cons; by left);
        done. }
    destruct (ring_start _ _ h (to :: l) ltac:(apply elem_of_cons; by right) Hnd' Hring')
      as (l' & Hr' & Hnd'' & Hperm' & _).
    exists (h :: l'). split_and!; [done..|]. intros p. by rewrite <- Hperm'.
Qed.

(** Any other bucket is untouched by relabelling. *)
Lemma bucket_relabel_other es es' (bs bs' : list Z) order order' to from b :
  b <> bucketPos (elt es from) -> bucketPos (elt es' to) = bucketPos (elt es from) ->
  buckets_ok es bs order -> bucket_ok es bs order b -> from ∈ order -> to ∉ order ->
  0 <= bucketPos (elt es from) < zlen bs -> at_ bs' b = at_ bs b ->
  (forall q, q ∈ order' <-> q = to \/ (q ∈ order /\ q <> from)) ->
  (forall q, q <> to -> bucketPos (elt es' q) = bucketPos (elt es q)) ->
  (forall q, q <> to ->
    nextBucket (elt es' q) = (if decide (q = prevBucket (elt es from)) then to else nextBucket (elt es q))
    /\ prevBucket (elt es' q) = (if decide (q = nextBucket (elt es from)) then to else prevBucket (elt es q))) ->
  bucket_ok es' bs' order' b.
Proof.
  intros Hb Hbto Hall (l & Hnd & Hr & Hat & Hin) Hfrom Hto Hblt Hat' Ho Hbp Hl.
  destruct (bucket_at _ _ _ _ (Hall _ Hblt) Hfrom) as (l0 & lb & Hring & _ & _ & _ & Hinb).
  destruct (ring_closed _ _ _ from Hring ltac:(apply elem_of_cons; by left)) as [Hn Hp].
  apply Hinb in Hn as [_ Hn], Hp as [_ Hp].
  assert (forall p, p ∈ l -> p <> to) as Hlto by (intros p [? _]%Hin ->; done).
  exists l. split_and!; [done| |congruence|].
  - eapply ring_ext; [| |exact Hr]; intros p Hpl; pose proof (Hlto p Hpl) as Hne;
      apply Hin in Hpl as [_ Hpb]; cbn; [destruct (Hl p Hne) as [-> _]|destruct (Hl p Hne) as [_ ->]];
      apply decide_False; intros ->; congruence.
  - intros p. rewrite Hin, Ho. destruct (decide (p = to)) as [->|Hne].
    + split; [tauto|]. intros [_ ?]. congruence.
    + rewrite Hbp by done. split; [|tauto]. intros [H1 H2].
      assert (p <> from) by (intros ->; congruence). tauto.
Qed.

(** The element at [q] after [from] has been moved to [to]. *)
Definition moved s to from (q : Z) : element :=
  let e := el s from in
  let r := if decide (q = to) then from else q in
  set_next (if decide (r = e_prev e) then to else e_next (el s r))
 (set_prev (if decide (r = e_next e) then to else e_prev (el s r))
 (set_nextBucket (if decide (r = prevBucket e) then to else nextBucket (el s r))
 (set_prevBucket (if decide (r = nextBucket e) then to else prevBucket (el s r))
   (el s r)))).

Lemma elem_of_moved (l1 l2 : list Z) from to q :
  NoDup (l1 ++ from :: l2) ->
  (q ∈ l1 ++ to :: l2 <-> q = to \/ (q ∈ l1 ++ from :: l2 /\ q <> from)).
Proof. intros Hnd. by rewrite elem_of_mid, <- elem_of_removed. Qed.

Lemma NoDup_moved (l1 l2 : list Z) from to :
  NoDup (l1 ++ from :: l2) -> to ∉ l1 ++ from :: l2 -> NoDup (l1 ++ to :: l2).
Proof.
  rewrite <- (Permutation_middle l1 l2 to), <- (Permutation_middle l1 l2 from), !NoDup_cons.
  intros [Hf Hnd] Hto. split; [|done]. intros Hin. apply Hto, elem_of_cons. by right.
Qed.

Lemma last_mid (l1 l2 : list Z) from to h :
  NoDup (l1 ++ from :: l2) -> last (l1 ++ from :: l2) = Some h ->
  last (l1 ++ to :: l2) = Some (if decide (from = h) then to else h).
Proof.
  intros Hnd Hl. destruct l2 as [|z l2 _] using rev_ind.
  - rewrite last_snoc in *. injection Hl as <-. by rewrite decide_True.
  - rewrite app_comm_cons, app_assoc, last_snoc in *. injection Hl as <-.
    rewrite decide_False; [done|]. intros ->.
    apply NoDup_app in Hnd as (_ & Hnd & _). apply (Hnd z); [|by apply list_elem_of_singleton].
    apply elem_of_mid. by left.
Qed.

Lemma core_moved s s' l1 from l2 to :
  Core s (l1 ++ from :: l2) -> to ∉ l1 ++ from :: l2 -> 0 <= to < lru_size s ->
  same_config s s' -> lru_len s' = lru_len s ->
  lru_head s' = (if decide (from = lru_head s) then to else lru_head s) ->
  (forall q, el s' q = moved s to from q) ->
  buckets s' = (if decide (at_ (buckets s) (bucketPos (el s from)) = Some from)
    then <[Z.to_nat (bucketPos (el s from)) := to]> (buckets s) else buckets s) ->
  Core s' (l1 ++ to :: l2).
Proof.
  intros HC Hto Htr Hs Hl' Hh' Hes Hbs'. set (order := l1 ++ from :: l2) in *.
  assert (from ∈ order) as Hfrom by (apply elem_of_mid; by left).
  pose proof (core_bucketPos_range s order from HC Hfrom) as Hbr.
  pose proof HC as [Hcfg Hlen Hnd Hr Hring Hhr Hhd Hbk Hpos Hkeys].
  assert (lru_size s' = lru_size s) as Hsz by apply Hs.
  pose proof (fun q => elem_of_moved l1 l2 from to q Hnd) as Ho.
  assert (forall q, q ∈ l1 ++ to :: l2 -> exists r, r ∈ order /\ data_eq (el s r) (el s' q)
    /\ ((q = to /\ r = from) \/ (q = r /\ r <> from))) as Hdata.
  { intros q Hq. exists (if decide (q = to) then from else q). rewrite Hes.
    unfold moved, order. cbv zeta. apply Ho in Hq.
    destruct (decide (q = to)); split_and!; (done || tauto). }
  split.
  - by apply (Config_same s).
  - rewrite Hl', Hlen. unfold order. by rewrite !zlen_app, !zlen_cons.
  - by apply (NoDup_moved l1 l2 from).
  - intros q [->|[Hq _]]%Ho; rewrite Hsz; auto.
  - unfold order in *. rewrite ring_app_comm in Hring |- *. cbn [app] in *.
    rewrite Permutation_app_comm in Hnd. cbn [app] in Hnd.
    rewrite elem_of_app, elem_of_cons in Hto.
    eapply (ring_relabel _ _ _ _ from (l2 ++ l1) to Hnd); [|exact Hring|..]; cbn.
    { rewrite elem_of_cons, elem_of_app. tauto. }
    1,2: rewrite Hes; unfold moved; cbv zeta; by rewrite (decide_True (P := to = to)).
    all: intros q Hq; rewrite Hes; unfold moved; cbv zeta;
      rewrite (decide_False (P := q = to)) by (intros ->; apply elem_of_app in Hq; tauto); done.
  - rewrite Hh', Hsz. by destruct (decide (from = lru_head s)).
  - intros _. rewrite Hh'. apply last_mid; [done|]. apply Hhd. by destruct l1.
  - intros b Hb. rewrite (proj1 (proj2 Hs)) in Hb.
    destruct (decide (b = bucketPos (el s from))) as [->|Hne].
    + rewrite Hbs'. apply (bucket_relabel _ _ _ order); try done; [by apply Hbk|..].
      * intros q _. by rewrite Hes.
      * intros q. by rewrite Hes.
    + apply (bucket_relabel_other (elements s) _ (buckets s) _ order _ to from); try done.
      * rewrite Hes. unfold moved. cbv zeta. by rewrite (decide_True (P := to = to)).
      * by apply Hbk.
      * rewrite Hbs'. destruct (decide (at_ (buckets s) _ = _)); [|done].
        by rewrite at_insert_bucket, decide_False.
      * intros q Hq. rewrite Hes. unfold moved. cbv zeta. by rewrite (decide_False (P := q = to)).
      * intros q Hq. rewrite Hes. unfold moved. cbv zeta. by rewrite (decide_False (P := q = to)).
  - intros q (r & Hrin & (E1 & _ & _ & _ & E5) & _)%Hdata.
    rewrite E1, E5, Hpos, (hashToBucketPos_same s s') by done.
    by replace (hash s') with (hash s) by (symmetry; apply Hs).
  - intros p q (r1 & Hr1 & (K1 & _) & E1)%Hdata (r2 & Hr2 & (K2 & _) & E2)%Hdata Hk.
    rewrite K1, K2 in Hk. specialize (Hkeys _ _ Hr1 Hr2 Hk). intuition congruence.
Qed.

Lemma move_core s l1 from l2 to :
  Core s (l1 ++ from :: l2) -> to ∉ l1 ++ from :: l2 -> 0 <= to < lru_size s ->
  exists s', move to from s = Val (tt, s')
    /\ Core s' (l1 ++ to :: l2) /\ same_config s s'
    /\ metrics s' = metrics s /\ evicted_log s' = evicted_log s /\ lru_len s' = lru_len s
    /\ (forall q, q <> to -> data_eq (el s q) (el s' q))
    /\ data_eq (el s from) (el s' to).
Proof.
  intros HC Hto Htr. set (order := l1 ++ from :: l2) in *.
  assert (from ∈ order) as Hfrom by (apply elem_of_mid; by left).
  pose proof (core_bucketPos_range s order from HC Hfrom) as Hbr.
  pose proof (core_range_elements s order) as Hre.
  destruct (core_links s order from HC Hfrom) as [Hn Hp].
  pose proof (core_buckets _ _ HC) as Hbk. pose proof (core_config _ _ HC) as Hcfg.
  destruct (bucket_at _ _ _ _ (Hbk _ Hbr) Hfrom) as (l0 & lb & Hringb & _ & _ & _ & Hinb).
  destruct (ring_closed _ _ _ from Hringb ltac:(apply elem_of_cons; by left)) as [Hnb Hpb].
  apply Hinb in Hnb as [Hnb _], Hpb as [Hpb _].
  assert (to <> from) as Hne by (by intros ->).
  destruct (move_run s to from) as (es & Hrun & Hl & Hes); [done| |by auto..|done|].
  { by rewrite cfg_elements. }
  eexists. split; [exact Hrun|]. set (s' := with_buckets _ _).
  assert (same_config s s') as Hs.
  { unfold same_config, s'; cbn. split_and!; try done.
    case_decide; [|done]. unfold zlen. by rewrite length_insert. }
  split_and!; try done.
  - by apply (core_moved s s' l1 from l2 to).
  - intros q Hq. change (data_eq (el s q) (elt es q)). rewrite Hes. cbv zeta.
    by rewrite (decide_False (P := q = to)).
  - change (data_eq (el s from) (elt es to)). rewrite Hes. cbv zeta.
    by rewrite (decide_True (P := to = to)).
Qed.

(** ** Changes that leave the structure alone *)

Definition struct_eq (e e' : element) : Prop :=
  e_key e' = e_key e /\ nextBucket e' = nextBucket e /\ prevBucket e' = prevBucket e
  /\ bucketPos e' = bucketPos e /\ e_next e' = e_next e /\ e_prev e' = e_prev e.

Lemma core_ext s s' order :
  Core s order -> same_config s s' -> lru_len s' = lru_len s -> lru_head s' = lru_head s ->
  buckets s' = buckets s -> (forall q, q ∈ order -> struct_eq (el s q) (el s' q)) ->
  Core s' order.
Proof.
  intros [Hcfg Hlen Hnd Hr Hring Hhr Hhd Hbk Hpos Hkeys] Hs Hl Hh Hb Hq.
  assert (lru_size s' = lru_size s) as Hsz by apply Hs.
  split; rewrite ?Hl, ?Hh, ?Hsz; try done.
  - by apply (Config_same s).
  - eapply ring_ext; [| |exact Hring]; intros p Hp; cbn;
      by destruct (Hq p Hp) as (_ & _ & _ & _ & E1 & E2).
  - intros b Hlt. rewrite Hb in Hlt |- *. destruct (Hbk b Hlt) as (l & Hndl & Hrl & Hat & Hin).
    exists l. split_and!; [done| |done|].
    + eapply ring_ext; [| |exact Hrl]; intros p [Hp _]%Hin; cbn;
        by destruct (Hq p Hp) as (_ & E1 & E2 & _).
    + intros p. rewrite Hin. split; intros [Hp E]; (split; [done|]);
        destruct (Hq p Hp) as (_ & _ & _ & E1 & _); congruence.
  - intros p Hp. destruct (Hq p Hp) as (-> & _ & _ & -> & _).
    rewrite Hpos, (hashToBucketPos_same s s') by done.
    by replace (hash s') with (hash s) by (symmetry; apply Hs).
  - intros p q Hp Hq'. destruct (Hq p Hp) as (-> & _). destruct (Hq q Hq') as (-> & _). auto.
Qed.

(** ** Entries: the abstract content *)

Definition entry_of (e : element) : entry K V :=
  mkEntry (e_key e) (e_value e) (e_expire e) (e_lifetime e).
Definition entries s order : list (entry K V) := (fun p => entry_of (el s p)) <$> order.

Lemma entry_of_data e e' : data_eq e e' -> entry_of e' = entry_of e.
Proof. intros (E1 & E2 & E3 & E4 & _). unfold entry_of. congruence. Qed.

Lemma entries_app s l1 l2 : entries s (l1 ++ l2) = entries s l1 ++ entries s l2.
Proof. apply fmap_app. Qed.

Lemma entries_ext s s' order :
  (forall q, q ∈ order -> entry_of (el s' q) = entry_of (el s q)) -> entries s' order = entries s order.
Proof.
  intros H. unfold entries. apply list_fmap_ext. intros i p Hp. apply H.
  by apply list_elem_of_lookup_2 in Hp.
Qed.

(** The invariant between operations: the live positions are [0 .. len-1], at
    most [cap] of them. *)
Definition Inv s order : Prop :=
  Core s order /\ (forall p, p ∈ order <-> 0 <= p < lru_len s) /\ lru_len s <= lru_cap s.

Lemma core_len_pos s l1 p l2 :
  Core s (l1 ++ p :: l2) -> 1 <= lru_len s <= lru_size s /\ u32 (lru_len s - 1) = lru_len s - 1.
Proof.
  intros HC. pose proof (core_len_le _ _ HC). destruct HC as [[] Hl]. unfold emptyBucket in *.
  rewrite Hl, zlen_app, zlen_cons in *. pose proof (zlen_nonneg l1). pose proof (zlen_nonneg l2).
  rewrite u32_small; lia.
Qed.

(** Closing the gap at [pos]: the last slot is moved into it. *)
Lemma move_compacts s order pos n :
  Core s order -> (forall p, p ∈ order <-> 0 <= p <= n /\ p <> pos) -> 0 <= pos <= n ->
  n < lru_size s ->
  exists s' order', move pos n s = Val (tt, s') /\ Core s' order'
    /\ (forall p, p ∈ order' <-> 0 <= p < n)
    /\ entries s' order' = entries s order /\ same_config s s'
    /\ metrics s' = metrics s /\ evicted_log s' = evicted_log s /\ lru_len s' = lru_len s.
Proof.
  intros HC Hin Hpos Hn. destruct (decide (pos = n)) as [->|Hne].
  - exists s, order. unfold move. rewrite decide_True by done.
    split_and!; try done. intros p. rewrite Hin. lia.
  - assert (n ∈ order) as (m1 & m2 & ->)%list_elem_of_split by (apply Hin; lia).
    pose proof (core_nodup _ _ HC) as Hnd.
    assert (pos ∉ m1 ++ n :: m2) as Hpo by (rewrite Hin; tauto).
    destruct (move_core s m1 n m2 pos HC Hpo) as (s' & Hrun & HC' & Hs & Hm & Hlog & Hl & Hd & Hdn);
      [lia|].
    exists s', (m1 ++ pos :: m2). split_and!; try done.
    + intros p. rewrite (elem_of_moved m1 m2 n pos p Hnd), Hin. lia.
    + rewrite !entries_app. unfold entries at 2 4. rewrite !fmap_cons. f_equal; [|f_equal].
      * apply entries_ext. intros q Hq. apply entry_of_data, Hd. intros ->.
        apply Hpo, elem_of_app. by left.
      * by apply entry_of_data.
      * apply entries_ext. intros q Hq. apply entry_of_data, Hd. intros ->.
        apply Hpo, elem_of_app. right. apply elem_of_cons. by right.
Qed.

Lemma clearKeyAndValue_inv s order n :
  Core s order -> n ∉ order -> 0 <= n < lru_size s ->
  exists es, clearKeyAndValue emptyKey emptyValue n s = Val (tt, with_elements es s)
    /\ Core (with_elements es s) order /\ entries (with_elements es s) order = entries s order
    /\ same_config s (with_elements es s).
Proof.
  intros HC Hn Hr. rewrite <- cfg_elements in Hr by apply HC.
  unfold clearKeyAndValue. run_step. run_step.
  eexists. split; [reflexivity|]. set (s' := with_elements _ s).
  assert (same_config s s') as Hs by (unfold same_config; cbn; by rewrite !zlen_upd).
  assert (forall q, q ∈ order -> el s' q = el s q) as Hq.
  { intros q Hq. unfold s'. cbn. rewrite !elt_upd, !decide_False by (range || by intros ->). done. }
  split_and!; [|apply entries_ext|done].
  - apply (core_ext s); try done. intros q ?. by rewrite Hq.
  - intros q ?. by rewrite Hq.
Qed.

Lemma removeAt_inv s l1 pos l2 :
  Inv s (l1 ++ pos :: l2) ->
  exists s' order', removeAt emptyKey emptyValue pos s = Val (tt, s')
    /\ Inv s' order' /\ entries s' order' = entries s (l1 ++ l2) /\ same_config s s'
    /\ lru_len s' = lru_len s - 1 /\ metrics s' = inc_Removals (metrics s)
    /\ evicted_log s' = evicted_log s
         ++ (if onEvict s then [(e_key (el s pos), e_value (el s pos))] else []).
Proof.
  intros (HC & Hlive & Hcap). destruct (core_len_pos _ _ _ _ HC) as [Hl1 Hl2].
  pose proof (core_nodup _ _ HC) as Hnd.
  destruct (evict_core s l1 pos l2 HC) as (s1 & Hrun & HC1 & Hs1 & Hm1 & Hd1 & Hlog & _).
  unfold removeAt. rewrite (bind_run _ _ _ _ _ Hrun), bind_gets. clear Hrun.
  assert (lru_len s1 = lru_len s - 1) as Hlen1.
  { destruct HC as [_ ->], HC1 as [_ ->]. rewrite !zlen_app, zlen_cons. lia. }
  assert (lru_size s1 = lru_size s) as Hsz by apply Hs1.
  assert (0 <= pos < lru_len s) by (apply Hlive, elem_of_mid; by left).
  destruct (move_compacts s1 (l1 ++ l2) pos (lru_len s - 1) HC1)
    as (s2 & order2 & Hrun & HC2 & Hlive2 & He2 & Hs2 & Hm2 & Hlog2 & Hlen2); [|lia|lia|].
  { intros p. rewrite elem_of_removed by done. rewrite Hlive. lia. }
  rewrite Hlen1, (bind_run _ _ _ _ _ Hrun). clear Hrun. unfold count. rewrite bind_modify, bind_gets.
  set (s3 := with_metrics _ s2).
  assert (same_config s2 s3) as Hs3 by (unfold same_config, s3; cbn; tauto).
  assert (lru_size s3 = lru_size s) as Hsz3 by (rewrite <- Hsz; transitivity (lru_size s2); [done|apply Hs2]).
  assert (lru_len s3 = lru_len s - 1) as Hlen3 by (unfold s3; cbn; lia).
  assert (Core s3 order2) as HC3 by (apply (core_ext s2); done).
  rewrite Hlen3.
  destruct (clearKeyAndValue_inv s3 order2 (lru_len s - 1) HC3) as (es & Hrun & HC4 & He4 & Hs4);
    [rewrite Hlive2; lia|lia|].
  assert (same_config s (with_elements es s3)) as Hs4'.
  { etransitivity; [exact Hs1|]. etransitivity; [exact Hs2|]. by etransitivity. }
  exists (with_elements es s3), order2. split_and!; [done|split_and!; [done|..]| |done|done|cbn; congruence|].
  - intros p. rewrite Hlive2. cbn. unfold s3 in Hlen3. cbn in Hlen3. lia.
  - replace (lru_cap (with_elements es s3)) with (lru_cap s) by (symmetry; apply Hs4').
    change (lru_len (with_elements es s3)) with (lru_len s3). lia.
  - rewrite He4. change (entries s3 order2) with (entries s2 order2). rewrite He2.
    apply entries_ext. intros q _. by apply entry_of_data.
  - cbn. by rewrite Hlog2, Hlog.
Qed.

(** ** Moving a live position to the newest end *)

Lemma setHead_ring es es' order h pos :
  ring (fun p => e_next (elt es p)) (fun p => e_prev (elt es p)) order ->
  NoDup order -> pos ∉ order -> last order = Some h ->
  (forall q, e_next (elt es' q) = (if decide (q = h) then pos
     else if decide (q = pos) then e_next (elt es h) else e_next (elt es q))) ->
  (forall q, e_prev (elt es' q) = (if decide (q = e_next (elt es h)) then pos
     else if decide (q = pos) then h else e_prev (elt es q))) ->
  ring (fun p => e_next (elt es' p)) (fun p => e_prev (elt es' p)) (order ++ [pos]).
Proof.
  intros Hr Hnd Hpos Hl Hn Hp. destruct order as [|x order]; [done|].
  assert (e_next (elt es h) = x /\ e_prev (elt es x) = h) as [E1 E2].
  { destruct order as [|z order _] using rev_ind.
    - injection Hl as <-. by apply ring_singleton in Hr.
    - rewrite app_comm_cons, last_snoc in Hl. injection Hl as ->. by apply ring_links in Hr. }
  assert (h ∈ x :: order) as Hh by (by apply last_Some_elem_of in Hl).
  assert (forall q, q ∈ x :: order -> q <> pos) as Hne by (by intros q Hq ->).
  eapply (ring_link _ _ _ _ x order pos Hnd Hpos Hr); cbn.
  - rewrite Hn, decide_False, decide_True by (done || apply not_eq_sym, Hne, Hh). done.
  - rewrite Hp, E1, decide_False, decide_True by
      (done || apply not_eq_sym, Hne, elem_of_cons; by left). done.
  - intros q Hq. rewrite Hn, E2. by rewrite (decide_False (P := q = pos)) by auto.
  - intros q Hq. rewrite Hp, E1. by rewrite (decide_False (P := q = pos)) by auto.
Qed.

Lemma buckets_ok_perm es bs order order' :
  (forall q, q ∈ order' <-> q ∈ order) -> buckets_ok es bs order -> buckets_ok es bs order'.
Proof.
  intros Ho Hb b Hlt. destruct (Hb b Hlt) as (l & H1 & H2 & H3 & Hin).
  exists l. split_and!; [done..|]. intros p. by rewrite Hin, Ho.
Qed.

(** Elements that differ in their recency links only. *)
Definition relinked (e e' : element) : Prop := exists n p, e' = set_next n (set_prev p e).

Lemma relinked_trans e1 e2 e3 : relinked e1 e2 -> relinked e2 e3 -> relinked e1 e3.
Proof. intros (n & p & ->) (n' & p' & ->). by exists n', p'. Qed.

Lemma core_relinked s s' order order' :
  Core s order -> same_config s s' -> lru_len s' = lru_len s -> buckets s' = buckets s ->
  (forall q, relinked (el s q) (el s' q)) -> order' ≡ₚ order ->
  ring (fun p => e_next (el s' p)) (fun p => e_prev (el s' p)) order' ->
  last order' = Some (lru_head s') ->
  Core s' order'.
Proof.
  intros [Hcfg Hlen Hnd Hr Hring Hhr Hhd Hbk Hpos Hkeys] Hs Hl Hb Hq Hperm Hr' Hh'.
  assert (lru_size s' = lru_size s) as Hsz by apply Hs.
  assert (forall q, q ∈ order' <-> q ∈ order) as Ho by (intros q; by rewrite Hperm).
  split; rewrite ?Hl, ?Hsz; try done.
  - by apply (Config_same s).
  - rewrite Hlen. unfold zlen. by rewrite Hperm.
  - by rewrite Hperm.
  - intros p ?%Ho. auto.
  - apply Hr, Ho. by apply last_Some_elem_of in Hh'.
  - rewrite Hb. apply (buckets_ok_perm _ _ order); [done|].
    apply (buckets_ok_same (elements s)); [|done].
    intros p. by destruct (Hq p) as (n & q & ->).
  - intros p Hp%Ho. destruct (Hq p) as (n & q & ->). cbn.
    rewrite Hpos, (hashToBucketPos_same s s') by done.
    by replace (hash s') with (hash s) by (symmetry; apply Hs).
  - intros p q Hp%Ho Hq'%Ho. destruct (Hq p) as (n1 & q1 & ->), (Hq q) as (n2 & q2 & ->). cbn. auto.
Qed.

Lemma toFront_inv s l1 pos l2 :
  Core s (l1 ++ pos :: l2) ->
  exists s', toFront pos s = Val (tt, s') /\ Core s' (l1 ++ l2 ++ [pos]) /\ same_config s s'
    /\ lru_len s' = lru_len s /\ metrics s' = metrics s /\ evicted_log s' = evicted_log s
    /\ (forall q, relinked (el s q) (el s' q)).
Proof.
  intros HC. set (order := l1 ++ pos :: l2) in *. unfold toFront. run_step.
  assert (pos ∈ order) as Hpos by (apply elem_of_mid; by left).
  pose proof (core_range_elements s order) as Hre.
  destruct (core_links s order pos HC Hpos) as [Hn Hp].
  pose proof HC as [Hcfg Hlen Hnd Hr Hring Hhr Hhd Hbk Hbp Hkeys].
  specialize (Hhd ltac:(by destruct l1)).
  destruct (decide (pos = lru_head s)) as [E|Hne].
  { exists s. rewrite decide_False by tauto.
    assert (l2 = []) as ->.
    { destruct l2 as [|z l2 _] using rev_ind; [done|]. unfold order in *.
      rewrite app_comm_cons, app_assoc, last_snoc in Hhd. injection Hhd as ->.
      rewrite app_comm_cons, app_assoc in Hnd. apply NoDup_app in Hnd as (_ & Hnd & _). exfalso.
      apply (Hnd (lru_head s)); [|by apply list_elem_of_singleton].
      apply elem_of_mid. by left. }
    split_and!; try done. intros q. exists (e_next (el s q)), (e_prev (el s q)). by destruct (el s q). }
  rewrite decide_True by done.
  destruct (unlinkElement_run s pos) as (es & Hrun & Hl & Hes); [by auto..|].
  rewrite (bind_run _ _ _ _ _ Hrun). clear Hrun.
  assert (ring (fun p => e_next (elt es p)) (fun p => e_prev (elt es p)) (l1 ++ l2)) as Hr1.
  { by apply (ring_unlink_mid _ _ _ _ l1 pos l2 Hnd Hring); intros q; cbn; rewrite Hes. }
  assert (pos ∉ l1 ++ l2) as Hpos' by (rewrite elem_of_removed by done; tauto).
  assert (last (l1 ++ l2) = Some (lru_head s)) as Hlast.
  { apply (last_remove l1 l2 pos (lru_head s)); try done.
    - intros l y -> ->. unfold order in Hhd. rewrite last_snoc in Hhd. congruence.
    - intros Hnil. apply app_eq_nil in Hnil as [-> ->]. cbn in Hhd. congruence. }
  assert (lru_head s ∈ l1 ++ l2) as Hhin by (by apply last_Some_elem_of).
  assert (NoDup (l1 ++ l2)) as Hnd'.
  { unfold order in Hnd. rewrite <- (Permutation_middle l1 l2 pos) in Hnd.
    by apply NoDup_cons in Hnd as [_ ?]. }
  destruct (ring_closed _ _ _ _ Hr1 Hhin) as [Hhn _].
  assert (forall q, q ∈ l1 ++ l2 -> 0 <= q < zlen es) as Hre'.
  { intros q Hq. rewrite Hl. apply Hre; [done|]. by apply (elem_of_removed l1 l2 pos) in Hq as [? _]. }
  destruct (setHead_run (with_elements es s) pos) as (es2 & Hrun & Hl2 & Hes2);
    cbn [lru_head elements with_elements] in *; [done|rewrite Hl; auto|by apply Hre'..|].
  exists (with_head pos (with_elements es2 s)). split; [exact Hrun|].
  assert (forall q, relinked (el s q) (elt es2 q)) as Hrel.
  { intros q. apply (relinked_trans _ (elt es q)); [rewrite Hes|rewrite Hes2]; by eexists _, _. }
  assert (same_config s (with_head pos (with_elements es2 s))) as Hs by (unfold same_config; cbn; rewrite Hl2; tauto).
  split_and!; try done. rewrite app_assoc.
  apply (core_relinked s _ order); try done.
  - unfold order. rewrite <- (Permutation_middle l1 l2 pos). by rewrite Permutation_app_comm.
  - apply (setHead_ring es _ _ (lru_head s)); try done; intros q; cbn; by rewrite Hes2.
  - cbn. by rewrite last_snoc.
Qed.
End Inv.
