(* ===== verification/FreeLRUInsert.v ===== *)
(** * Insertion and lookup in the array-backed LRU cache

    The bucket walk, the linking of a fresh slot into a bucket and into the
    recency ring, and with them the effect of addWithLifetime on states that
    satisfy the invariant of FreeLRUInv.v. *)

From S2P Require Import Prelude Ring FreeLRU FreeLRUSpec FreeLRUInv.
#[local] Open Scope go_scope.

Section Insert.
Context {K V : Type} `{EqDecision K, EqDecision V} {emptyKey : K} {emptyValue : V}.
Abbreviation LRU := (@LRU K V).
Abbreviation element := (@element K V).
Abbreviation elt := (@elt K V emptyKey emptyValue).
Abbreviation el s p := (elt (elements s) p).
Abbreviation upd := (@upd K V emptyKey emptyValue).
Abbreviation Core := (@Core K V emptyKey emptyValue).
Abbreviation Inv := (@Inv K V emptyKey emptyValue).
Abbreviation buckets_ok := (@buckets_ok K V emptyKey emptyValue).
Abbreviation bucket_ok := (@bucket_ok K V emptyKey emptyValue).
Abbreviation entries := (@entries K V emptyKey emptyValue).
Implicit Types (s : LRU) (es : list element) (order : list Z).
Ltac run_step := run_step_with emptyKey emptyValue.

(** ** The bucket walk *)

(** What a walk over the positions [l] answers. *)
Definition walk_answer es (key : K) (l : list Z) (r : option Z) : Prop :=
  match r with
  | Some p => p ∈ l /\ e_key (elt es p) = key
  | None => forall p, p ∈ l -> e_key (elt es p) <> key
  end.

Lemma walk_from_spec s start key l fuel pre pos post :
  ring (fun p => nextBucket (el s p)) (fun p => prevBucket (el s p)) l ->
  NoDup l -> (forall p, p ∈ l -> 0 <= p < zlen (elements s)) ->
  l = pre ++ pos :: post -> hd emptyBucket l = start -> (length (pos :: post) <= fuel)%nat ->
  exists r, walk_from fuel start key pos s = Val (r, s) /\ walk_answer (elements s) key (pos :: post) r.
Proof.
  intros Hr Hnd Hre. revert pre pos post. induction fuel as [|f IH];
    intros pre pos post -> Hst Hf; [simpl in Hf; lia|]. simpl.
  assert (0 <= pos < zlen (elements s)) by (apply Hre, elem_of_app; right; by apply elem_of_cons; left).
  erewrite bind_run by (by apply (elem_run (emptyKey := emptyKey) (emptyValue := emptyValue))).
  destruct (decide (key = _)) as [Hk|Hk].
  { exists (Some pos). split; [done|]. split; [apply elem_of_cons; by left|done]. }
  assert (nextBucket (el s pos) = hd start post) as Hnext.
  { rewrite ring_app_comm in Hr. destruct post as [|y post]; [destruct pre as [|x pre]|];
      cbn [app hd] in *; [|subst start|].
    - subst start. by apply ring_singleton in Hr as [? _].
    - by apply ring_next in Hr as [? _].
    - by apply ring_next in Hr as [? _]. }
  destruct (decide (nextBucket _ = start)) as [Hs|Hs].
  - exists None. split; [done|]. assert (post = []) as ->.
    { destruct post as [|y post]; [done|]. exfalso. simpl in Hnext.
      destruct pre as [|x pre]; simpl in Hst.
      - subst start. cbn in Hnd. apply NoDup_cons in Hnd as [Hnd _].
        apply Hnd, elem_of_cons. left. congruence.
      - subst start. cbn in Hnd. apply NoDup_cons in Hnd as [Hnd _].
        apply Hnd, elem_of_app. right. apply elem_of_cons. right. apply elem_of_cons. left. congruence. }
    intros p ->%list_elem_of_singleton. congruence.
  - destruct post as [|y post]; [done|]. simpl in Hnext. rewrite Hnext.
    destruct (IH (pre ++ [pos]) y post) as (r & Hrun & Hans).
    { by rewrite <- app_assoc. } { done. } { simpl in *. lia. }
    exists r. split; [done|]. destruct r as [p|].
    + destruct Hans. split; [apply elem_of_cons; by right|done].
    + intros p [->|Hp]%elem_of_cons; [congruence|by apply Hans].
Qed.

(** On a cache, the walk through the bucket of [key] finds its position. *)
Definition lookup_pos s order (key : K) (r : option Z) : Prop :=
  match r with
  | Some p => p ∈ order /\ e_key (el s p) = key
  | None => forall p, p ∈ order -> e_key (el s p) <> key
  end.

Lemma hashToPos_run s order key :
  Core s order ->
  let b := hashToBucketPos (hash s key) s in
  exists l, NoDup l /\ ring (fun p => nextBucket (el s p)) (fun p => prevBucket (el s p)) l
    /\ hashToPos (hash s key) s = Val ((b, hd emptyBucket l), s)
    /\ at_ (buckets s) b = Some (hd emptyBucket l)
    /\ (forall p, p ∈ l <-> p ∈ order /\ bucketPos (el s p) = b)
    /\ (forall p, p ∈ order -> e_key (el s p) = key -> p ∈ l)
    /\ (forall p, p ∈ l -> 0 <= p < zlen (elements s))
    /\ (hd emptyBucket l = emptyBucket <-> l = []).
Proof.
  intros HC b. pose proof (core_config _ _ HC) as Hcfg.
  assert (0 <= b < zlen (buckets s)) as Hb.
  { rewrite cfg_buckets by done. apply hashToBucketPos_range; [done|by apply cfg_hash]. }
  destruct (core_buckets _ _ HC b Hb) as (l & Hnd & Hr & Hat & Hin).
  assert (forall p, p ∈ l -> 0 <= p < zlen (elements s)) as Hre.
  { intros p [Hp _]%Hin. exact (core_range_elements s order p HC Hp). }
  exists l. split_and!; try done.
  - unfold hashToPos. rewrite bind_gets. fold b.
    by erewrite bind_run by (by apply bucket_run).
  - intros p Hp Hk. apply Hin. split; [done|]. rewrite (core_pos _ _ HC) by done. by rewrite Hk.
  - split; [|by intros ->]. destruct l as [|x l]; [done|]. simpl. intros ->.
    specialize (Hre emptyBucket ltac:(apply elem_of_cons; by left)).
    rewrite cfg_elements in Hre by done. destruct Hcfg. lia.
Qed.

Lemma walk_run s order key l :
  Core s order -> NoDup l ->
  ring (fun p => nextBucket (el s p)) (fun p => prevBucket (el s p)) l ->
  (forall p, p ∈ l -> 0 <= p < zlen (elements s)) ->
  (forall p, p ∈ l -> p ∈ order) ->
  (forall p, p ∈ order -> e_key (el s p) = key -> p ∈ l) -> l <> [] ->
  exists r, walk (hd emptyBucket l) key s = Val (r, s) /\ lookup_pos s order key r.
Proof.
  intros HC Hnd Hr Hre Hlo Hkey Hne. destruct l as [|x l]; [done|].
  unfold walk. rewrite bind_gets.
  destruct (walk_from_spec s x key (x :: l) (length (elements s)) [] x l) as (r & Hrun & Hans);
    try done.
  { pose proof (zlen_bounded _ _ Hnd Hre). unfold zlen in *. lia. }
  exists r. split; [done|]. destruct r as [p|].
  - destruct Hans. split; [by apply Hlo|done].
  - intros p Hp Hk. by apply (Hans p); [apply Hkey|].
Qed.

(** ** Linking a fresh slot *)

Lemma buckets_linked es es' (bs : list Z) order pos bp l :
  buckets_ok es bs order -> pos ∉ order -> 0 <= bp < zlen bs ->
  (forall q, q <> pos -> bucketPos (elt es' q) = bucketPos (elt es q)) ->
  bucketPos (elt es' pos) = bp ->
  (forall q, q ∈ order -> bucketPos (elt es q) <> bp ->
    nextBucket (elt es' q) = nextBucket (elt es q) /\ prevBucket (elt es' q) = prevBucket (elt es q)) ->
  NoDup (pos :: l) -> (forall p, p ∈ l <-> p ∈ order /\ bucketPos (elt es p) = bp) ->
  ring (fun p => nextBucket (elt es' p)) (fun p => prevBucket (elt es' p)) (pos :: l) ->
  buckets_ok es' (<[Z.to_nat bp := pos]> bs) (order ++ [pos]).
Proof.
  intros Hb Hpos Hbp Hsame Hp Hlinks Hnd Hin Hr b Hlt.
  unfold zlen in Hlt. rewrite length_insert in Hlt. fold (zlen bs) in Hlt.
  assert (forall q, q ∈ order -> q <> pos) as Hne by (by intros q Hq ->).
  assert (forall q, q ∈ order ++ [pos] <-> q = pos \/ q ∈ order) as Ho.
  { intros q. rewrite elem_of_app, list_elem_of_singleton. tauto. }
  destruct (decide (b = bp)) as [->|Hbne].
  - exists (pos :: l). split_and!; [done|done|by rewrite at_insert_bucket, decide_True|].
    intros p. rewrite elem_of_cons, Ho, Hin. destruct (decide (p = pos)) as [->|Hpn]; [tauto|].
    rewrite Hsame by done. tauto.
  - destruct (Hb b Hlt) as (lb & Hndb & Hrb & Hat & Hinb). exists lb. split_and!; [done| | |].
    + eapply ring_ext; [| |exact Hrb]; intros q [Hq Hqb]%Hinb; apply Hlinks; congruence.
    + by rewrite at_insert_bucket, decide_False.
    + intros p. rewrite Hinb, Ho. destruct (decide (p = pos)) as [->|Hpn].
      * split; [naive_solver|]. intros [_ ?]. congruence.
      * rewrite Hsame by done. tauto.
Qed.

(** What linking into bucket [bp] does to the elements besides their bucket links. *)
Definition bucketed es es' pos bp : Prop :=
  zlen es' = zlen es /\ forall q, exists n p,
    elt es' q = set_nextBucket n (set_prevBucket p
                  (if decide (q = pos) then set_bucketPos bp (elt es q) else elt es q)).

(** The first entry of a bucket. *)
Lemma link_empty s order pos bp :
  buckets_ok (elements s) (buckets s) order -> pos ∉ order -> 0 <= bp < zlen (buckets s) ->
  0 <= pos < zlen (elements s) ->
  (forall p, p ∈ order -> bucketPos (el s p) <> bp) ->
  exists es, (forall k : GoM LRU bool,
      (set_bucket bp pos ;; set_elem pos (set_bucketPos bp) ;; set_elem pos (set_nextBucket pos) ;;
       set_elem pos (set_prevBucket pos) ;; k) s
      = k (with_elements es (with_buckets (<[Z.to_nat bp := pos]> (buckets s)) s)))
    /\ bucketed (elements s) es pos bp
    /\ buckets_ok es (<[Z.to_nat bp := pos]> (buckets s)) (order ++ [pos]).
Proof.
  intros Hb Hpos Hbp Hr Hempty.
  set (es := upd (upd (upd (elements s) pos (set_bucketPos bp)) pos (set_nextBucket pos)) pos
    (set_prevBucket pos)).
  assert (forall q, elt es q = if decide (q = pos)
    then set_nextBucket pos (set_prevBucket pos (set_bucketPos bp (el s q))) else el s q) as Hes
    by (intros q; unfold es; elt_cases).
  exists es. split_and!.
  - intros k. rewrite (bind_run _ _ _ _ _ (set_bucket_run _ _ _ Hbp)). by do 3 run_step.
  - unfold es. split; [by rewrite !zlen_upd|]. intros q.
    exists (if decide (q = pos) then pos else nextBucket (el s q)),
           (if decide (q = pos) then pos else prevBucket (el s q)).
    rewrite Hes. destruct (decide (q = pos)); [done|]. by destruct (el s q).
  - apply (buckets_linked (elements s) es (buckets s) order pos bp []); try done.
    + intros q Hq. by rewrite Hes, decide_False.
    + by rewrite Hes, decide_True.
    + intros q Hq _. by rewrite Hes, decide_False by (by intros ->).
    + apply NoDup_singleton.
    + intros p. split; [by intros ?%not_elem_of_nil|]. intros [Hp1 Hp2]. by apply Hempty in Hp2.
    + apply ring_singleton. by rewrite Hes, decide_True.
Qed.

(** An entry linked in front of the bucket entered at [start]; [start] is the
    slot itself when the bucket has just lost its only entry. *)
Lemma link_front_run s pos bp start :
  let pb := prevBucket (el s start) in
  0 <= bp < zlen (buckets s) -> 0 <= pos < zlen (elements s) ->
  0 <= start < zlen (elements s) -> 0 <= pb < zlen (elements s) ->
  exists es, (forall k : GoM LRU bool,
      (set_bucket bp pos ;; set_elem pos (set_bucketPos bp) ;; set_elem pos (set_nextBucket start) ;;
       e <- elem start ;; set_elem pos (set_prevBucket (prevBucket e)) ;;
       e <- elem start ;; set_elem (prevBucket e) (set_nextBucket pos) ;;
       set_elem start (set_prevBucket pos) ;; k) s
      = k (with_elements es (with_buckets (<[Z.to_nat bp := pos]> (buckets s)) s)))
    /\ zlen es = zlen (elements s)
    /\ forall q, elt es q =
         set_nextBucket (if decide (q = pb) then pos else if decide (q = pos) then start
                         else nextBucket (el s q))
        (set_prevBucket (if decide (q = start) then pos else if decide (q = pos) then pb
                         else prevBucket (el s q))
        (if decide (q = pos) then set_bucketPos bp (el s q) else el s q)).
Proof.
  intros pb Hbp Hpos Hst Hpb. subst pb.
  destruct (decide (start = pos)) as [->|Hne].
  all: eexists; split; [intros k; rewrite (bind_run _ _ _ _ _ (set_bucket_run _ _ _ Hbp));
    do 7 run_step; reflexivity|].
  all: split; [by rewrite !zlen_upd|]; intros q; elt_cases.
Qed.

Lemma link_front s order pos bp l start :
  buckets_ok (elements s) (buckets s) order -> pos ∉ order -> 0 <= bp < zlen (buckets s) ->
  0 <= pos < zlen (elements s) ->
  (forall p, p ∈ order -> 0 <= p < zlen (elements s)) ->
  NoDup l -> ring (fun p => nextBucket (el s p)) (fun p => prevBucket (el s p)) l ->
  (forall p, p ∈ l <-> p ∈ order /\ bucketPos (el s p) = bp) ->
  start = hd pos l -> (l = [] -> prevBucket (el s pos) = pos) ->
  exists es, (forall k : GoM LRU bool,
      (set_bucket bp pos ;; set_elem pos (set_bucketPos bp) ;; set_elem pos (set_nextBucket start) ;;
       e <- elem start ;; set_elem pos (set_prevBucket (prevBucket e)) ;;
       e <- elem start ;; set_elem (prevBucket e) (set_nextBucket pos) ;;
       set_elem start (set_prevBucket pos) ;; k) s
      = k (with_elements es (with_buckets (<[Z.to_nat bp := pos]> (buckets s)) s)))
    /\ bucketed (elements s) es pos bp
    /\ buckets_ok es (<[Z.to_nat bp := pos]> (buckets s)) (order ++ [pos]).
Proof.
  intros Hb Hpos Hbp Hr Hre Hnd Hring Hin Hst Hself.
  assert (forall q, q ∈ order -> q <> pos) as Hne by (by intros q Hq ->).
  assert (NoDup (pos :: l)) as Hnd' by (apply NoDup_cons; split; [by intros [? _]%Hin|done]).
  assert ((start = pos /\ l = [] /\ prevBucket (el s start) = pos)
    \/ (start ∈ l /\ prevBucket (el s start) ∈ l)) as Hcase.
  { destruct l as [|x l]; simpl in Hst; subst start; [left; auto|right].
    split; [apply elem_of_cons; by left|].
    by apply (ring_closed _ _ _ x Hring), elem_of_cons; left. }
  destruct (link_front_run s pos bp start) as (es & Hrun & Hlen & Hes); [done|done|..].
  { destruct Hcase as [(-> & _)|[[? _]%Hin _]]; auto. }
  { destruct Hcase as [(-> & _ & ->)|[_ [? _]%Hin]]; auto. }
  exists es. split_and!; [done|split; [done|intros q; rewrite Hes; eauto]|].
  apply (buckets_linked (elements s) es (buckets s) order pos bp l); try done.
  - intros q Hq. rewrite Hes. cbn. by rewrite decide_False.
  - rewrite Hes. cbn. by rewrite decide_True.
  - intros q Hq Hqb. rewrite Hes. cbn. specialize (Hne q Hq).
    assert (q <> start /\ q <> prevBucket (el s start)) as [H1 H2].
    { destruct Hcase as [(-> & _ & ->)|[[_ ?]%Hin [_ ?]%Hin]]; [done|].
      split; intros E; rewrite <- E in *; congruence. }
    by rewrite !decide_False.
  - destruct l as [|x l]; simpl in Hst; subst start.
    + apply ring_singleton. rewrite Hes. cbn. by rewrite (Hself eq_refl), !decide_True.
    + change (ring (fun p => nextBucket (elt es p)) (fun p => prevBucket (elt es p)) ([pos] ++ x :: l)).
      rewrite ring_app_comm. change ((x :: l) ++ [pos]) with (x :: l ++ [pos]).
      apply NoDup_cons in Hnd' as [Hpl _].
      assert (forall q, q ∈ x :: l -> q <> pos) as Hnl by (by intros q Hq ->).
      destruct Hcase as [(_ & ? & _)|[Hx Hpx]]; [done|].
      eapply (ring_link _ _ _ _ x l pos Hnd Hpl Hring); cbn; rewrite ?Hes; cbn.
      * by rewrite decide_False, decide_True by (done || apply not_eq_sym, Hnl, Hpx).
      * by rewrite decide_False, decide_True by (done || apply not_eq_sym, Hnl, Hx).
      * intros q Hq. rewrite Hes. cbn. by rewrite (decide_False (P := q = pos)) by auto.
      * intros q Hq. rewrite Hes. cbn. by rewrite (decide_False (P := q = pos)) by auto.
Qed.

(** ** insert *)

(** The key, value and times written by [insert]. *)
Definition filled (now : Z) (key : K) (value : V) (lifetime : Z) (e : element) : element :=
  set_e_lifetime lifetime (set_expire (expire now lifetime) (set_value value (set_key key e))).

Lemma insert_run s order now pos key value lifetime :
  ring (fun p => e_next (el s p)) (fun p => e_prev (el s p)) order ->
  NoDup order -> pos ∉ order -> (order <> [] -> last order = Some (lru_head s)) ->
  lru_len s = zlen order -> zlen order + 1 < 2 ^ 32 -> 0 <= pos < zlen (elements s) ->
  (forall p, p ∈ order -> 0 <= p < zlen (elements s)) ->
  exists es, insert now pos key value lifetime s
      = Val (tt, with_metrics (inc_Inserts (metrics s))
                   (with_len (lru_len s + 1) (with_head pos (with_elements es s))))
    /\ zlen es = zlen (elements s)
    /\ (forall q, relinked (if decide (q = pos) then filled now key value lifetime (el s q) else el s q)
                    (elt es q))
    /\ ring (fun p => e_next (elt es p)) (fun p => e_prev (elt es p)) (order ++ [pos]).
Proof.
  intros Hr Hnd Hpos Hlast Hlen Hsmall Hp Hre. pose proof (zlen_nonneg order).
  unfold insert. do 6 run_step.
  set (es1 := upd (upd (upd (upd (elements s) pos _) pos _) pos _) pos _).
  assert (zlen es1 = zlen (elements s)) as Hl1 by (unfold es1; by rewrite !zlen_upd).
  assert (forall q, elt es1 q
    = if decide (q = pos) then filled now key value lifetime (el s q) else el s q) as Hes1
    by (intros q; unfold es1, filled; elt_cases).
  assert (forall q, q ∈ order -> elt es1 q = el s q) as Hold
    by (intros q Hq; rewrite Hes1, decide_False; [done|by intros ->]).
  destruct order as [|x order].
  - rewrite decide_True by done. do 6 run_step.
    unfold count, modify. cbn [lru_len metrics with_elements with_head with_len].
    rewrite u32_small by lia.
    eexists. split; [reflexivity|]. split; [by rewrite !zlen_upd|]. split.
    + intros q. rewrite !elt_upd by range. destruct (decide (q = pos)) as [->|Hq].
      * exists pos, pos. by rewrite decide_True, Hes1, decide_True by done.
      * rewrite Hes1, decide_False by done. exists (e_next (el s q)), (e_prev (el s q)).
        by destruct (el s q).
    + apply ring_singleton. rewrite !elt_upd by range. by rewrite !decide_True.
  - rewrite decide_False by (rewrite Hlen, zlen_cons; pose proof (zlen_nonneg order); lia).
    specialize (Hlast ltac:(done)). pose proof (last_Some_elem_of _ _ Hlast) as Hh.
    rewrite decide_True by (by intros ->).
    destruct (ring_closed _ _ _ _ Hr Hh) as [Hn _].
    destruct (setHead_run (emptyKey := emptyKey) (emptyValue := emptyValue) (with_elements es1 s) pos) as (es2 & Hrun & Hl2 & Hes2);
      cbn [elements lru_head with_elements] in *; rewrite ?Hold by done;
      [by intros ->|by rewrite Hl1|rewrite Hl1; auto|rewrite Hl1; auto|].
    rewrite (bind_run _ _ _ _ _ Hrun). run_step.
    unfold count, modify. cbn [lru_len metrics with_elements with_head with_len].
    rewrite u32_small by lia.
    eexists. split; [reflexivity|]. split; [congruence|]. split.
    + intros q. rewrite <- Hes1, Hes2. by eexists _, _.
    + apply (setHead_ring es1 es2 _ (lru_head s)); try done; [|intros q; by rewrite Hes2..].
      eapply ring_ext; [| |exact Hr]; intros q Hq; cbn; by rewrite Hold.
Qed.

(** A state whose rings hold [order] and the freshly filled [pos]. *)
Lemma core_inserted s s' order pos key :
  Core s order -> pos ∉ order -> 0 <= pos < lru_size s -> same_config s s' ->
  lru_len s' = lru_len s + 1 -> lru_head s' = pos ->
  (forall q, q ∈ order -> data_eq (el s q) (el s' q)) ->
  e_key (el s' pos) = key -> bucketPos (el s' pos) = hashToBucketPos (hash s key) s ->
  (forall q, q ∈ order -> e_key (el s q) <> key) ->
  ring (fun p => e_next (el s' p)) (fun p => e_prev (el s' p)) (order ++ [pos]) ->
  buckets_ok (elements s') (buckets s') (order ++ [pos]) ->
  Core s' (order ++ [pos]).
Proof.
  intros [Hcfg Hlen Hnd Hr Hring Hhr Hhd Hbk Hbp Hkeys] Hpos Hrange Hs Hl' Hh' Hd Hk Hb Hnew Hring' Hbk'.
  assert (lru_size s' = lru_size s) as Hsz by apply Hs.
  assert (forall q, q ∈ order ++ [pos] <-> q = pos \/ q ∈ order) as Ho.
  { intros q. rewrite elem_of_app, list_elem_of_singleton. tauto. }
  assert (hash s' = hash s) as Hhash by apply Hs.
  split; rewrite ?Hh', ?Hsz; try done.
  - by apply (Config_same s).
  - rewrite Hl', Hlen, zlen_app. done.
  - apply NoDup_app. split_and!; [done| |apply NoDup_singleton].
    intros q Hq ->%list_elem_of_singleton. done.
  - intros q [->|Hq]%Ho; auto.
  - intros _. by rewrite last_snoc.
  - intros q [->|Hq]%Ho; rewrite (hashToBucketPos_same s s'), Hhash by done; [congruence|].
    destruct (Hd q Hq) as (-> & _ & _ & _ & ->). auto.
  - intros p q [->|Hp]%Ho [->|Hq]%Ho; rewrite ?Hk; intros E; try done.
    + destruct (Hd q Hq) as (E' & _). by destruct (Hnew q Hq); congruence.
    + destruct (Hd p Hp) as (E' & _). by destruct (Hnew p Hp); congruence.
    + destruct (Hd p Hp) as (E1 & _), (Hd q Hq) as (E2 & _). apply Hkeys; congruence.
Qed.

(** ** addWithLifetime *)

Lemma core_NoDup_fresh s order pos : Core s order -> pos ∉ order -> 0 <= pos < lru_size s ->
  zlen order + 1 < 2 ^ 32.
Proof.
  intros HC _ _. pose proof (core_len_le _ _ HC). destruct (core_config _ _ HC).
  unfold emptyBucket in *. lia.
Qed.

(** [insert] on a cache whose slot [pos] has been linked into its bucket. *)
Lemma insert_linked s es bs order now pos key value lifetime :
  let bp := hashToBucketPos (hash s key) s in
  Core s order -> pos ∉ order -> 0 <= pos < lru_size s ->
  (forall q, q ∈ order -> e_key (el s q) <> key) ->
  bucketed (elements s) es pos bp -> zlen bs = zlen (buckets s) ->
  buckets_ok es bs (order ++ [pos]) ->
  exists s', insert now pos key value lifetime (with_elements es (with_buckets bs s)) = Val (tt, s')
    /\ Core s' (order ++ [pos]) /\ same_config s s' /\ lru_len s' = lru_len s + 1
    /\ entries s' (order ++ [pos])
       = entries s order ++ [mkEntry key value (expire now lifetime) lifetime]
    /\ metrics s' = inc_Inserts (metrics s) /\ evicted_log s' = evicted_log s.
Proof.
  intros bp HC Hpos Hr Hnew [Hl1 Hes1] Hbs Hbk.
  pose proof (core_NoDup_fresh _ _ _ HC Hpos Hr) as Hsmall.
  pose proof HC as [Hcfg Hlen Hnd Hrange Hring Hhr Hhd _ _ _].
  pose proof (cfg_elements _ Hcfg) as Hze.
  assert (forall q, q ∈ order -> data_eq (el s q) (elt es q)) as Hold1.
  { intros q Hq. destruct (Hes1 q) as (n & p & ->).
    rewrite decide_False by (by intros ->). by unfold data_eq. }
  set (s1 := with_elements es (with_buckets bs s)).
  destruct (insert_run s1 order now pos key value lifetime) as (es2 & Hrun & Hl2 & Hes2 & Hr2);
    cbn [elements s1 with_elements lru_head lru_len with_buckets]; rewrite ?Hl1, ?Hze; try done.
  { eapply ring_ext; [| |exact Hring]; intros q Hq; cbn; destruct (Hes1 q) as (n & p & ->);
      by case_decide. }
  set (s2 := with_metrics _ _) in Hrun. exists s2. split; [exact Hrun|].
  assert (same_config s s2) as Hs.
  { unfold same_config, s2, s1; cbn. rewrite Hl2. cbn. by rewrite Hl1, Hbs. }
  assert (forall q, q ∈ order -> data_eq (el s q) (el s2 q)) as Hold2.
  { intros q Hq. etransitivity; [by apply Hold1|]. change (data_eq (elt es q) (elt es2 q)).
    destruct (Hes2 q) as (n & p & ->). rewrite decide_False by (by intros ->). done. }
  destruct (Hes2 pos) as (n2 & p2 & Hpos2). rewrite decide_True in Hpos2 by done.
  destruct (Hes1 pos) as (n1 & p1 & Hpos1). rewrite decide_True in Hpos1 by done.
  cbn in Hpos2. rewrite Hpos1 in Hpos2.
  split_and!; try done.
  - apply (core_inserted s s2 order pos key); try done.
    + cbn. by rewrite Hpos2.
    + cbn. by rewrite Hpos2.
    + apply (buckets_ok_same es); [|done]. intros q. cbn. destruct (Hes2 q) as (n & p & ->).
      by case_decide.
  - rewrite entries_app. f_equal.
    + apply entries_ext. intros q Hq. by apply entry_of_data, Hold2.
    + unfold entries. cbn. by rewrite Hpos2.
Qed.

(** The slot a new entry goes to: the first free one, or the oldest entry's
    after its eviction.  [s1] and [order1] are the cache without that slot. *)
Definition full s : Prop := lru_len s = lru_cap s.
#[local] Instance full_dec s : Decision (full s).
Proof. unfold full. apply _. Defined.

Record Slot s order s1 order1 (pos : Z) : Prop := {
  slot_core : Core s1 order1;
  slot_config : same_config s s1;
  slot_fresh : pos ∉ order1;
  slot_live : forall p, p = pos \/ p ∈ order1 <-> 0 <= p < lru_len s1 + 1;
  slot_cap : lru_len s1 + 1 <= lru_cap s;
  slot_old : forall q, q ∈ order1 -> q ∈ order /\ data_eq (el s q) (el s1 q);
  slot_entries : entries s1 order1 = if decide (full s) then tail (entries s order) else entries s order;
  slot_metrics : metrics s1 = if decide (full s) then inc_Evictions (metrics s) else metrics s;
  slot_log : evicted_log s1 = evicted_log s ++
    (if decide (full s) then if onEvict s then
       (fun e => (en_key e, en_value e)) <$> take 1 (entries s order) else [] else []);
  slot_pos : if decide (full s) then
      e_next (el s (lru_head s)) = pos /\ order = pos :: order1
      /\ (at_ (buckets s1) (bucketPos (el s pos)) = Some emptyBucket -> prevBucket (el s1 pos) = pos)
    else pos = lru_len s /\ s1 = s /\ order1 = order;
}.

Lemma head_next s old rest : Core s (old :: rest) -> e_next (el s (lru_head s)) = old.
Proof.
  intros HC. pose proof (core_ring _ _ HC) as Hr. pose proof (core_head _ _ HC ltac:(done)) as Hh.
  destruct rest as [|z rest _] using rev_ind.
  - injection Hh as <-. by apply ring_singleton in Hr as [? _].
  - rewrite app_comm_cons, last_snoc in Hh. injection Hh as ->. by apply ring_links in Hr as [? _].
Qed.

Lemma take_slot s order :
  Inv s order ->
  exists s1 order1 pos, Slot s order s1 order1 pos
    /\ forall (A : Type) (R : element -> GoM LRU A) (E : GoM LRU A) (k : A -> GoM LRU bool),
      bind (if decide (full s) then
              head <- gets lru_head ;; e <- elem head ;; evict (e_next e) ;;
              count inc_Evictions ;; R e
            else E) k s
      = bind (if decide (full s) then R (el s (lru_head s)) else E) k s1.
Proof.
  intros (HC & Hlive & Hcap). pose proof (core_config _ _ HC) as Hcfg.
  destruct (decide (full s)) as [Hf|Hf].
  - destruct order as [|old rest].
    { exfalso. destruct HC as [_ Hl], Hcfg. rewrite zlen_nil in Hl. unfold full in Hf. lia. }
    pose proof (head_next s old rest HC) as Hold.
    assert (0 <= lru_head s < zlen (elements s)) as Hhr.
    { rewrite cfg_elements by done. exact (core_head_range _ _ HC). }
    destruct (evict_core s [] old rest HC) as (s1 & Hrun & HC1 & Hs1 & Hm1 & Hd1 & Hlog1 & Hself).
    cbn [app] in HC1. set (s2 := with_metrics (inc_Evictions (metrics s1)) s1).
    assert (Core s2 rest) as HC2 by (by apply (core_ext s1)).
    assert (lru_len s2 = lru_len s - 1) as Hl2.
    { destruct HC2 as [_ ->], HC as [_ ->]. rewrite zlen_cons. lia. }
    pose proof (core_nodup _ _ HC) as [Hno Hnd]%NoDup_cons.
    exists s2, rest, old. split; [split|]; try done; rewrite ?decide_True by done.
    + intros p. rewrite Hl2. specialize (Hlive p). rewrite elem_of_cons in Hlive. rewrite Hlive. lia.
    + rewrite Hl2. lia.
    + intros q Hq. split; [apply elem_of_cons; by right|]. apply Hd1.
    + unfold entries. cbn. apply entries_ext. intros q Hq. apply entry_of_data, Hd1.
    + cbn. by rewrite Hm1.
    + cbn. rewrite Hlog1. by destruct (onEvict s).
    + done.
    + intros A R E k. rewrite bind_bind, bind_gets, bind_bind.
      run_step. rewrite Hold, bind_bind.
      by rewrite (bind_run _ _ _ _ _ Hrun), bind_bind.
  - exists s, order, (lru_len s). split; [split|]; try done; rewrite ?decide_False by done.
    + rewrite Hlive. lia.
    + intros p. rewrite Hlive. pose proof (zlen_nonneg order). destruct HC as [_ Hl]. lia.
    + unfold full in Hf. lia.
    + done.
    + done.
    + by rewrite app_nil_r.
    + done.
Qed.

(** The entry of the freed slot's bucket, after the slot has been taken. *)
Lemma slot_bucket s order s1 order1 pos l b :
  Inv s order -> Slot s order s1 order1 pos -> 0 <= b < zlen (buckets s) -> l <> [] ->
  (forall p, p ∈ l <-> p ∈ order /\ bucketPos (el s p) = b) ->
  at_ (buckets s) b = Some (hd emptyBucket l) ->
  exists l1, NoDup l1 /\ ring (fun p => nextBucket (el s1 p)) (fun p => prevBucket (el s1 p)) l1
    /\ (forall p, p ∈ l1 <-> p ∈ order1 /\ bucketPos (el s1 p) = b)
    /\ at_ (buckets s1) b = Some (hd emptyBucket l1)
    /\ (l1 = [] -> prevBucket (el s1 pos) = pos)
    /\ (hd emptyBucket l1 = emptyBucket <-> l1 = [])
    /\ (~ full s -> hd pos l1 = hd emptyBucket l).
Proof.
  intros HI HS Hb Hne Hin Hat. pose proof (slot_core _ _ _ _ _ HS) as HC1.
  assert (zlen (buckets s1) = zlen (buckets s)) as Hzb by apply (slot_config _ _ _ _ _ HS).
  destruct (core_buckets _ _ HC1 b) as (l1 & Hnd1 & Hr1 & Hat1 & Hin1); [lia|].
  pose proof (slot_pos _ _ _ _ _ HS) as Hp.
  assert (hd emptyBucket l1 = emptyBucket <-> l1 = []) as Hhd.
  { split; [|by intros ->]. destruct l1 as [|x l1]; [done|]. simpl. intros ->.
    destruct (proj1 (Hin1 emptyBucket) ltac:(apply elem_of_cons; by left)) as [Hx _].
    apply (core_range _ _ HC1) in Hx. destruct (core_config _ _ HC1). lia. }
  exists l1. split_and!; try done.
  - intros ->. destruct (decide (full s)) as [Hf|Hf].
    + destruct Hp as (_ & -> & Hself). apply Hself. etransitivity; [|exact Hat1]. f_equal.
      destruct l as [|x l]; [done|].
      destruct (proj1 (Hin x) ltac:(apply elem_of_cons; by left)) as [[->|Hx]%elem_of_cons Hxb]; [done|].
      exfalso. apply (not_elem_of_nil x), Hin1. split; [done|].
      destruct (slot_old _ _ _ _ _ HS x Hx) as (_ & _ & _ & _ & _ & ->). done.
    + destruct Hp as (_ & -> & _). exfalso. destruct l as [|x l]; [done|].
      rewrite Hat in Hat1. injection Hat1 as Hx. simpl in Hx.
      destruct (proj1 (Hin x) ltac:(apply elem_of_cons; by left)) as [Ho _].
      pose proof (core_range s order (proj1 HI) x Ho). destruct (core_config _ _ (proj1 HI)). lia.
  - intros Hf. destruct (decide (full s)); [done|]. destruct Hp as (_ & -> & _).
    rewrite Hat in Hat1. injection Hat1 as Hx. rewrite Hx.
    destruct l1 as [|y l1]; [|done]. exfalso. destruct l as [|x l]; [done|]. simpl in Hx. subst x.
    destruct (proj1 (Hin emptyBucket) ltac:(apply elem_of_cons; by left)) as [Ho _].
    pose proof (core_range s order (proj1 HI) emptyBucket Ho). destruct (core_config _ _ (proj1 HI)). lia.
Qed.

(** A cache after the new entry was stored in the slot that was taken for it. *)
Definition Stored s order now key value lifetime s' order' : Prop :=
  Inv s' order' /\ same_config s s'
  /\ entries s' order' = (if decide (full s) then tail (entries s order) else entries s order)
       ++ [mkEntry key value (expire now lifetime) lifetime]
  /\ metrics s' = inc_Inserts (if decide (full s) then inc_Evictions (metrics s) else metrics s)
  /\ evicted_log s' = evicted_log s ++
       (if decide (full s) then if onEvict s then
          (fun e => (en_key e, en_value e)) <$> take 1 (entries s order) else [] else []).

Lemma slot_stored s order s1 order1 pos es bs now key value lifetime :
  Inv s order -> Slot s order s1 order1 pos ->
  (forall p, p ∈ order -> e_key (el s p) <> key) ->
  bucketed (elements s1) es pos (hashToBucketPos (hash s key) s) -> zlen bs = zlen (buckets s1) ->
  buckets_ok es bs (order1 ++ [pos]) ->
  exists s', insert now pos key value lifetime (with_elements es (with_buckets bs s1)) = Val (tt, s')
    /\ Stored s order now key value lifetime s' (order1 ++ [pos]).
Proof.
  intros HI HS Hnew Hes Hbs Hok. pose proof (slot_config _ _ _ _ _ HS) as Hs1.
  pose proof (slot_core _ _ _ _ _ HS) as HC1.
  assert (hash s1 = hash s) as Hh by apply Hs1.
  assert (lru_size s1 = lru_size s) as Hsz by apply Hs1.
  assert (0 <= pos < lru_size s1) as Hpr.
  { destruct (slot_live _ _ _ _ _ HS pos) as [Hl _]. specialize (Hl (or_introl eq_refl)).
    pose proof (slot_cap _ _ _ _ _ HS). destruct (core_config _ _ (proj1 HI)). lia. }
  destruct (insert_linked s1 es bs order1 now pos key value lifetime)
    as (s' & Hrun & HC' & Hs' & Hl' & He' & Hm' & Hlog'); try done.
  { exact (slot_fresh _ _ _ _ _ HS). }
  { intros q Hq. destruct (slot_old _ _ _ _ _ HS q Hq) as [Ho (-> & _)]. by apply Hnew. }
  { by rewrite (hashToBucketPos_same s s1), Hh. }
  exists s'. split; [done|]. split_and!; [split_and!; [done|..]|by etransitivity|..].
  - intros p. rewrite elem_of_app, list_elem_of_singleton, Hl'.
    rewrite <- (slot_live _ _ _ _ _ HS). tauto.
  - rewrite Hl'. replace (lru_cap s') with (lru_cap s)
      by (symmetry; transitivity (lru_cap s1); [apply Hs'|apply Hs1]).
    exact (slot_cap _ _ _ _ _ HS).
  - by rewrite He', (slot_entries _ _ _ _ _ HS).
  - by rewrite Hm', (slot_metrics _ _ _ _ _ HS).
  - by rewrite Hlog', (slot_log _ _ _ _ _ HS).
Qed.

(** Metrics but for the collision counter, which depends on the hash function. *)
Definition metrics_sim (m m' : Metrics) : Prop :=
  Inserts m' = Inserts m /\ Evictions m' = Evictions m /\ Removals m' = Removals m
  /\ Hits m' = Hits m /\ Misses m' = Misses m.

#[export] Instance metrics_sim_equiv : Equivalence metrics_sim.
Proof. unfold metrics_sim. split; repeat intro; intuition congruence. Qed.

Lemma collisions_sim (P : Prop) `{!Decision P} m :
  metrics_sim m (if decide P then inc_Collisions m else m).
Proof. by destruct (decide P). Qed.

(** What addWithLifetime does for a key that is not cached. *)
Definition Added s order now key value lifetime s' order' : Prop :=
  Inv s' order' /\ same_config s s'
  /\ entries s' order' = (if decide (full s) then tail (entries s order) else entries s order)
       ++ [mkEntry key value (expire now lifetime) lifetime]
  /\ metrics_sim (inc_Inserts (if decide (full s) then inc_Evictions (metrics s) else metrics s))
       (metrics s')
  /\ evicted_log s' = evicted_log s ++
       (if decide (full s) then if onEvict s then
          (fun e => (en_key e, en_value e)) <$> take 1 (entries s order) else [] else []).

Lemma inv_metrics s order m : Inv s order -> Inv (with_metrics m s) order.
Proof.
  intros (HC & Hl & Hc). split; [|done].
  apply (core_ext (emptyKey := emptyKey) (emptyValue := emptyValue) s); done.
Qed.

Lemma stored_added s order now key value lifetime s' order' m :
  Stored s order now key value lifetime s' order' -> metrics_sim (metrics s') m ->
  Added s order now key value lifetime (with_metrics m s') order'.
Proof.
  intros (HI & Hs & He & Hm & Hlog) Hsim. split_and!; [by apply inv_metrics|done|done| |done].
  cbn. by rewrite <- Hm.
Qed.

Lemma add_fresh s order now key value lifetime :
  Inv s order -> (forall p, p ∈ order -> e_key (el s p) <> key) ->
  exists s' order', addWithLifetime now (hash s key) key value lifetime s
      = Val (bool_decide (full s), s')
    /\ Added s order now key value lifetime s' order'.
Proof.
  intros HI Hnew. pose proof HI as (HC & Hlive & Hcap). set (b := hashToBucketPos (hash s key) s).
  destruct (hashToPos_run s order key HC) as (l & Hnd & Hr & Hrun & Hat & Hin & Hkey & Hre & Hhd).
  fold b in Hrun, Hat, Hin.
  unfold addWithLifetime. rewrite (bind_run _ _ _ _ _ Hrun). cbv zeta. cbn [fst snd].
  destruct (take_slot s order HI) as (s1 & order1 & pos & HS & Htake).
  pose proof (slot_config _ _ _ _ _ HS) as Hs1. pose proof (slot_core _ _ _ _ _ HS) as HC1.
  assert (zlen (buckets s1) = zlen (buckets s)) as Hzb by apply Hs1.
  assert (zlen (elements s1) = lru_size s) as Hze.
  { transitivity (zlen (elements s)); [apply Hs1|]. apply cfg_elements, HC. }
  assert (0 <= b < zlen (buckets s)) as Hb by (by apply at_Some_lt in Hat).
  assert (0 <= pos < zlen (elements s1)) as Hpr.
  { rewrite Hze. destruct (slot_live _ _ _ _ _ HS pos) as [Hl _]. specialize (Hl (or_introl eq_refl)).
    pose proof (slot_cap _ _ _ _ _ HS). destruct (core_config _ _ HC). lia. }
  pose proof (slot_fresh _ _ _ _ _ HS) as Hpf. pose proof (slot_pos _ _ _ _ _ HS) as Hp.
  destruct (decide (l = [])) as [->|Hne].
  - rewrite decide_True by done. do 2 run_step.
    destruct (link_empty s1 order1 pos b) as (es & Hlink & Hes & Hok);
      [apply HC1|done|lia|done|..].
    { intros p Hp1 Hpb. destruct (slot_old _ _ _ _ _ HS p Hp1) as [Ho (_ & _ & _ & _ & E)].
      apply (not_elem_of_nil p), Hin. split; congruence. }
    destruct (slot_stored s order s1 order1 pos es (<[Z.to_nat b := pos]> (buckets s1))
      now key value lifetime HI HS Hnew Hes) as (s' & Hins & Hst);
      [unfold zlen; by rewrite length_insert|exact Hok|].
    exists (with_metrics (metrics s') s'), (order1 ++ [pos]).
    split; [|by apply (stored_added s order)].
    etransitivity; [apply (Htake _ (fun e => ret (e_next e, true)) (ret (lru_len s, false)))|].
    assert ((if decide (full s) then ret (e_next (el s (lru_head s)), true) else ret (lru_len s, false))
      = ret (S := LRU) (pos, bool_decide (full s))) as ->.
    { rewrite bool_decide_decide. destruct (decide (full s)); by destruct Hp as [-> _]. }
    rewrite bind_ret. cbn [fst snd]. rewrite Hlink, (bind_run _ _ _ _ _ Hins). by destruct s'.
  - rewrite decide_False by (by rewrite Hhd).
    destruct (walk_run s order key l HC Hnd Hr Hre) as (r & Hwalk & Hans); [by intros ? [? _]%Hin|done|done|].
    destruct r as [p|]; [destruct Hans as [Ho Hk]; by destruct (Hnew p Ho)|].
    rewrite (bind_run _ _ _ _ _ Hwalk). do 2 run_step.
    destruct (slot_bucket s order s1 order1 pos l b HI HS ltac:(lia) Hne Hin Hat)
      as (l1 & Hnd1 & Hr1 & Hin1 & Hat1 & Hself & Hhd1 & Hst).
    destruct (link_front s1 order1 pos b l1 (hd pos l1)) as (es & Hlink & Hes & Hok);
      [apply HC1|done|lia|done| |done|done|done|done|done|].
    { intros p Hp1. rewrite Hze. replace (lru_size s) with (lru_size s1) by apply Hs1.
      exact (core_range _ _ HC1 p Hp1). }
    destruct (slot_stored s order s1 order1 pos es (<[Z.to_nat b := pos]> (buckets s1))
      now key value lifetime HI HS Hnew Hes) as (s' & Hins & Hst');
      [unfold zlen; by rewrite length_insert|exact Hok|].
    set (m' := if decide (prevBucket (el s' pos) <> pos) then inc_Collisions (metrics s') else metrics s').
    exists (with_metrics m' s'), (order1 ++ [pos]).
    split; [|apply (stored_added s order); [done|apply collisions_sim]].
    etransitivity; [apply (Htake _
      (fun e => startPos <- bucket b ;;
         ret (e_next e, (if decide (startPos = emptyBucket) then e_next e else startPos), true))
      (ret (lru_len s, hd emptyBucket l, false)))|].
    assert ((if decide (full s) then startPos <- bucket b ;;
         ret (e_next (el s (lru_head s)), (if decide (startPos = emptyBucket) then e_next (el s (lru_head s)) else startPos), true)
       else ret (lru_len s, hd emptyBucket l, false)) s1
      = Val (pos, hd pos l1, bool_decide (full s), s1)) as Htaken.
    { rewrite bool_decide_decide. destruct (decide (full s)) as [Hf|Hf].
      - destruct Hp as [-> _]. erewrite bind_run by (by apply bucket_run).
        destruct l1 as [|x l1]; [by rewrite decide_True|].
        rewrite decide_False by (by rewrite Hhd1). done.
      - destruct Hp as [-> _]. by rewrite Hst. }
    rewrite (bind_run _ _ _ _ _ Htaken). cbn [fst snd]. rewrite Hlink, (bind_run _ _ _ _ _ Hins).
    assert (0 <= pos < zlen (elements s')) as Hpr'.
    { replace (zlen (elements s')) with (zlen (elements s)) by (symmetry; apply Hst').
      rewrite (cfg_elements _ (core_config _ _ HC)). lia. }
    run_step. unfold m', count.
    destruct (decide (prevBucket (el s' pos) <> pos)); run_step; [done|]. by destruct s'.
Qed.

End Insert.
