(* ===== verification/FreeLRURefine.v ===== *)
(** * lru.go implements the abstract cache

    [Rep s c]: the state [s] of FreeLRU.v satisfies the representation invariant
    and represents the abstract cache [c] of FreeLRUSpec.v.  Every operation run
    from a represented state returns what [cache_step] says, neither panics nor
    runs out of fuel, and ends in a represented state. *)

From S2P Require Import Prelude Ring FreeLRU FreeLRUSpec FreeLRUInv FreeLRUInsert.
#[local] Open Scope go_scope.

#[export] Instance inc_Inserts_proper : Proper (metrics_sim ==> metrics_sim) inc_Inserts.
Proof. intros m m' (E1 & E2 & E3 & E4 & E5). unfold metrics_sim. cbn. by rewrite E1. Qed.
#[export] Instance inc_Evictions_proper : Proper (metrics_sim ==> metrics_sim) inc_Evictions.
Proof. intros m m' (E1 & E2 & E3 & E4 & E5). unfold metrics_sim. cbn. by rewrite E2. Qed.
#[export] Instance inc_Removals_proper : Proper (metrics_sim ==> metrics_sim) inc_Removals.
Proof. intros m m' (E1 & E2 & E3 & E4 & E5). unfold metrics_sim. cbn. by rewrite E3. Qed.
#[export] Instance inc_Hits_proper : Proper (metrics_sim ==> metrics_sim) inc_Hits.
Proof. intros m m' (E1 & E2 & E3 & E4 & E5). unfold metrics_sim. cbn. by rewrite E4. Qed.
#[export] Instance inc_Misses_proper : Proper (metrics_sim ==> metrics_sim) inc_Misses.
Proof. intros m m' (E1 & E2 & E3 & E4 & E5). unfold metrics_sim. cbn. by rewrite E5. Qed.

Section Refine.
Context {K V : Type} `{EqDecision K, EqDecision V} {emptyKey : K} {emptyValue : V}.
Abbreviation LRU := (@LRU K V).
Abbreviation element := (@element K V).
Abbreviation elt := (@elt K V emptyKey emptyValue).
Abbreviation upd := (@upd K V emptyKey emptyValue).
Abbreviation el s p := (elt (elements s) p).
Abbreviation Core := (@Core K V emptyKey emptyValue).
Abbreviation Inv := (@Inv K V emptyKey emptyValue).
Abbreviation entries := (@entries K V emptyKey emptyValue).
Abbreviation removeAt := (removeAt emptyKey emptyValue).
Abbreviation findKey := (findKey emptyKey emptyValue).
Abbreviation findKeyNoExpire := (findKeyNoExpire emptyKey emptyValue).
Abbreviation cache := (cache K V).
Implicit Types (s : LRU) (c : cache) (order : list Z).
Ltac run_step := run_step_with emptyKey emptyValue.

(** ** The representation relation *)

Record Abs s order c : Prop := {
  abs_entries : c_entries c = entries s order;
  abs_cap : c_cap c = lru_cap s;
  abs_lifetime : c_lifetime c = lru_lifetime s;
  abs_onEvict : c_onEvict c = onEvict s;
  abs_hc : c_hc c = healthCheck s;
  abs_metrics : metrics_sim (c_metrics c) (metrics s);
  abs_log : c_log c = evicted_log s;
}.

Definition Rep s c : Prop := exists order, Inv s order /\ Abs s order c.

(** [m] run from [s] answers [a] and ends in a state that represents [c]. *)
Definition implements {A} (m : GoM LRU A) s (r : A * cache) : Prop :=
  exists s', m s = Val (r.1, s') /\ Rep s' r.2.

Lemma abs_same s s' order order' c es m l :
  Abs s order c -> same_config s s' -> entries s' order' = es -> metrics_sim m (metrics s') ->
  evicted_log s' = l ->
  Abs s' order' (mkCache es (c_cap c) (c_lifetime c) (c_onEvict c) (c_hc c) m l).
Proof.
  intros [] (_ & _ & E1 & _ & E2 & E3 & E4 & _ & _) <- Hm <-. split; cbn; congruence || done.
Qed.

Lemma abs_counted s order c f :
  Abs s order c -> Proper (metrics_sim ==> metrics_sim) f ->
  Abs (with_metrics (f (metrics s)) s) order (counted f c).
Proof. intros [] Hf. split; try done. by apply Hf. Qed.

Lemma rep_counted s c f :
  Rep s c -> Proper (metrics_sim ==> metrics_sim) f ->
  Rep (with_metrics (f (metrics s)) s) (counted f c).
Proof. intros (order & HI & HA) Hf. exists order. split; [by apply inv_metrics|by apply abs_counted]. Qed.

Lemma rep_len s order c : Inv s order -> Abs s order c -> zlen (c_entries c) = lru_len s.
Proof.
  intros (HC & _) HA. rewrite (abs_entries _ _ _ HA), (core_len _ _ HC).
  unfold entries, zlen. by rewrite length_fmap.
Qed.

(** ** Keys *)

Lemma entries_keys_NoDup s order : Core s order -> NoDup (en_key <$> entries s order).
Proof.
  intros HC. unfold entries. rewrite <- list_fmap_compose. apply NoDup_fmap_2_strong; [|by apply HC].
  intros p q Hp Hq. cbn. by apply (core_keys _ _ HC).
Qed.

Lemma entries_split s order l1 pos l2 :
  Core s order -> order = l1 ++ pos :: l2 ->
  let e := entry_of (el s pos) in
  entries s order = entries s l1 ++ e :: entries s l2
  /\ find_entry (en_key e) (entries s order) = Some e
  /\ del (en_key e) (entries s order) = entries s l1 ++ entries s l2.
Proof.
  intros HC -> e. pose proof (entries_keys_NoDup _ _ HC) as Hnd.
  assert (entries s (l1 ++ pos :: l2) = entries s l1 ++ e :: entries s l2) as E
    by (by rewrite entries_app).
  split; [done|]. rewrite E in *. by apply find_del_split.
Qed.

(** The key is at exactly one live position, or at none. *)
Lemma key_cases s order key :
  Core s order ->
  (exists l1 pos l2, order = l1 ++ pos :: l2 /\ e_key (el s pos) = key
     /\ find_entry key (entries s order) = Some (entry_of (el s pos)))
  \/ ((forall p, p ∈ order -> e_key (el s p) <> key) /\ find_entry key (entries s order) = None).
Proof.
  intros HC. destruct (find_entry key (entries s order)) as [e|] eqn:E.
  - destruct (find_entry_Some _ _ _ E) as [Hin Hk]. apply list_elem_of_fmap in Hin as (p & -> & Hp).
    apply list_elem_of_split in Hp as (l1 & l2 & ->). left. by exists l1, p, l2.
  - right. split; [|done]. apply find_entry_None in E. intros p Hp Hk. apply E.
    apply list_elem_of_fmap. exists (entry_of (el s p)). split; [done|].
    apply list_elem_of_fmap. by exists p.
Qed.

(** ** Lookup *)

(** The bucket walk from the head that hashToPos answers. *)
Lemma find_walk s order key :
  Core s order ->
  exists b start, hashToPos (hash s key) s = Val ((b, start), s)
    /\ ((start = emptyBucket /\ forall p, p ∈ order -> e_key (el s p) <> key)
        \/ (start <> emptyBucket /\ exists r, walk start key s = Val (r, s) /\ lookup_pos (emptyKey := emptyKey) (emptyValue := emptyValue) s order key r)).
Proof.
  intros HC. destruct (hashToPos_run s order key HC) as (l & Hnd & Hr & Hrun & Hat & Hin & Hkey & Hre & Hhd).
  exists (hashToBucketPos (hash s key) s), (hd emptyBucket l). split; [done|].
  destruct (decide (l = [])) as [->|Hne].
  - left. split; [done|]. intros p Hp Hk. by apply (not_elem_of_nil p), Hkey.
  - right. split; [by rewrite Hhd|].
    apply (walk_run s order key l); try done. by intros p [? _]%Hin.
Qed.

Lemma removeAt_refines s order c l1 pos l2 :
  Inv s order -> Abs s order c -> order = l1 ++ pos :: l2 ->
  exists s' order', removeAt pos s = Val (tt, s') /\ Inv s' order'
    /\ Abs s' order' (discard (entry_of (el s pos)) c) /\ same_config s s'
    /\ entries s' order' = entries s (l1 ++ l2).
Proof.
  intros HI HA ->. destruct (entries_split _ _ l1 pos l2 (proj1 HI) eq_refl) as (_ & _ & Hdel).
  destruct (removeAt_inv s l1 pos l2 HI) as (s' & order' & Hrun & HI' & He & Hs & _ & Hm & Hlog).
  exists s', order'. split_and!; [done..| |done|done].
  apply (abs_same s s' (l1 ++ pos :: l2) order' c); [done..| | |].
  - rewrite He, (abs_entries _ _ _ HA), Hdel. apply entries_app.
  - rewrite Hm. cbn. apply inc_Removals_proper, HA.
  - rewrite Hlog. cbn. rewrite (abs_onEvict _ _ _ HA), (abs_log _ _ _ HA).
    by destruct (onEvict s).
Qed.

(** What findKey and findKeyNoExpire do for a lookup of the specification. *)
Definition finds (m : GoM LRU (Z * bool)) s order c (r : option (entry K V) * cache) : Prop :=
  match r.1 with
  | Some e => r.2 = c /\ exists l1 pos l2, order = l1 ++ pos :: l2
      /\ entry_of (el s pos) = e /\ m s = Val ((pos, true), s)
  | None => exists s', m s = Val ((emptyBucket, false), s') /\ Rep s' r.2 /\ hash s' = hash s
  end.
(** An entry that a lookup finds is removed or reported. *)
Lemma finds_or_drop s order c l1 pos l2 (b : bool) :
  Inv s order -> Abs s order c -> order = l1 ++ pos :: l2 ->
  finds (if b then removeAt pos ;; ret (emptyBucket, false) else ret (pos, true)) s order c
    (let e := entry_of (el s pos) in if b then (None, discard e c) else (Some e, c)).
Proof.
  intros HI HA ->. destruct b; unfold finds; cbn.
  - destruct (removeAt_refines s _ c l1 pos l2 HI HA eq_refl) as (s' & order' & Hrun & HI' & HA' & Hs & _).
    exists s'. split_and!; [by rewrite (bind_run _ _ _ _ _ Hrun)|by exists order'|apply Hs].
  - split; [done|]. by exists l1, pos, l2.
Qed.

Lemma find_refines s order c key (m : GoM LRU (Z * bool)) (now : option Z)
    (k : element -> option (K -> V -> bool) -> bool) :
  Inv s order -> Abs s order c ->
  m = (p <- hashToPos (hash s key) ;;
       let startPos := snd p in
       if decide (startPos = emptyBucket) then ret (emptyBucket, false)
       else
         r <- walk startPos key ;;
         match r with
         | None => ret (emptyBucket, false)
         | Some pos =>
             e <- elem pos ;;
             hc <- gets healthCheck ;;
             if k e hc then removeAt pos ;; ret (emptyBucket, false) else ret (pos, true)
         end) ->
  (forall e hc, k e hc = match now with Some n => expired n (e_expire e) | None => false end
                         || negb (healthy hc key (e_value e))) ->
  finds m s order c (seek now key c).
Proof.
  intros HI HA -> Hk. pose proof (proj1 HI) as HC. unfold seek.
  rewrite (abs_entries _ _ _ HA).
  destruct (find_walk s order key HC) as (b & start & Hrun & Hstart).
  unfold finds. rewrite (bind_run _ _ _ _ _ Hrun). cbn [snd].
  destruct (key_cases s order key HC) as [(l1 & pos & l2 & Ho & Hkey & ->)|[Hno ->]].
  - assert (pos ∈ order) as Hin by (rewrite Ho; apply elem_of_mid; by left).
    destruct Hstart as [[_ Hno]|(Hne & r & Hwalk & Hans)]; [by destruct (Hno pos Hin)|].
    rewrite decide_False by done. rewrite (bind_run _ _ _ _ _ Hwalk).
    destruct r as [p|]; [|by destruct (Hans pos Hin)]. destruct Hans as [Hp Hpk].
    assert (p = pos) as -> by (apply (core_keys _ _ HC); congruence).
    pose proof (core_range_elements _ _ _ HC Hin). do 2 run_step.
    rewrite <- (abs_hc _ _ _ HA), Hk.
    apply (finds_or_drop s order c l1 pos l2 (_ || negb (healthy (c_hc c) key (e_value (el s pos)))) HI HA Ho).
  - cbn. exists s. split; [|by split; [exists order|]].
    destruct Hstart as [[-> _]|(Hne & r & Hwalk & Hans)]; [by rewrite decide_True|].
    rewrite decide_False by done. rewrite (bind_run _ _ _ _ _ Hwalk).
    destruct r as [p|]; [destruct Hans as [Hp Hpk]; by destruct (Hno p Hp)|done].
Qed.

Lemma findKey_refines s order c now key :
  Inv s order -> Abs s order c ->
  finds (findKey now (hash s key) key) s order c (seek (Some now) key c).
Proof. intros HI HA. by eapply (find_refines _ _ _ _ _ (Some now)). Qed.

Lemma findKeyNoExpire_refines s order c key :
  Inv s order -> Abs s order c ->
  finds (findKeyNoExpire (hash s key) key) s order c (seek None key c).
Proof. intros HI HA. by eapply (find_refines _ _ _ _ _ None). Qed.

(** ** Touching and rewriting an entry *)

Lemma touch_refines s order c l1 pos l2 :
  Inv s order -> Abs s order c -> order = l1 ++ pos :: l2 ->
  exists s', toFront pos s = Val (tt, s') /\ Inv s' ((l1 ++ l2) ++ [pos])
    /\ Abs s' ((l1 ++ l2) ++ [pos]) (touch (entry_of (el s pos)) c)
    /\ entry_of (el s' pos) = entry_of (el s pos) /\ metrics s' = metrics s /\ hash s' = hash s.
Proof.
  intros HI HA ->. pose proof HI as (HC & Hlive & Hcap).
  destruct (toFront_inv s l1 pos l2 HC) as (s' & Hrun & HC' & Hs & Hl & Hm & Hlog & Hrel).
  assert (forall q, entry_of (el s' q) = entry_of (el s q)) as He
    by (intros q; by destruct (Hrel q) as (n & p & ->)).
  exists s'. split; [exact Hrun|]. rewrite app_assoc in HC'. split_and!; [split_and!; [done|..]|..];
    [| | |by auto|done|apply Hs].
  - intros p. rewrite Hl, <- Hlive, elem_of_app, list_elem_of_singleton, elem_of_mid. tauto.
  - rewrite Hl. by replace (lru_cap s') with (lru_cap s) by (symmetry; apply Hs).
  - apply (abs_same s s' (l1 ++ pos :: l2) _ c); [done..| | |].
    + rewrite !entries_app.
      destruct (entries_split _ _ l1 pos l2 HC eq_refl) as (_ & _ & Hdel).
      rewrite (abs_entries _ _ _ HA), Hdel. unfold entries at 3. cbn. rewrite He.
      f_equal; f_equal; by apply entries_ext.
    + rewrite Hm. apply HA.
    + rewrite Hlog. symmetry. apply HA.
Qed.

Lemma rewrite_entry s order c l1 pos l2 f :
  Inv s order -> Abs s order c -> order = l1 ++ pos :: l2 -> (forall e, struct_eq e (f e)) ->
  let s1 := with_elements (upd (elements s) pos f) s in
  Inv s1 order
  /\ Abs s1 order (with_entries (entries s l1 ++ entry_of (f (el s pos)) :: entries s l2) c)
  /\ el s1 pos = f (el s pos)
  /\ touch (entry_of (f (el s pos))) (with_entries (entries s l1 ++ entry_of (f (el s pos)) :: entries s l2) c)
     = touch (entry_of (f (el s pos))) c.
Proof.
  intros HI HA -> Hf s1. pose proof HI as (HC & Hlive & Hcap).
  assert (pos ∈ l1 ++ pos :: l2) as Hin by (apply elem_of_mid; by left).
  pose proof (core_range_elements _ _ _ HC Hin) as Hr.
  assert (forall q, el s1 q = if decide (q = pos) then f (el s pos) else el s q) as Hes
    by (intros q; unfold s1; cbn; by rewrite elt_upd).
  assert (forall q, struct_eq (el s q) (el s1 q)) as Hst.
  { intros q. rewrite Hes. destruct (decide (q = pos)) as [->|]; [done|]. by unfold struct_eq. }
  assert (same_config s s1) as Hs by (unfold same_config; cbn; rewrite zlen_upd; tauto).
  assert (Core s1 (l1 ++ pos :: l2)) as HC1
    by (apply (core_ext (emptyKey := emptyKey) (emptyValue := emptyValue) s); auto).
  assert (en_key (entry_of (f (el s pos))) = en_key (entry_of (el s pos))) as Hkey.
  { destruct (Hf (el s pos)) as (E & _). exact E. }
  assert (pos ∉ l1 ++ l2) as Hpos.
  { rewrite elem_of_removed by apply HC. tauto. }
  assert (forall q, q ∈ l1 ++ l2 -> entry_of (el s1 q) = entry_of (el s q)) as Hother.
  { intros q Hq. rewrite Hes, decide_False; [done|by intros ->]. }
  assert (entries s1 (l1 ++ pos :: l2)
    = entries s l1 ++ entry_of (f (el s pos)) :: entries s l2) as He1.
  { rewrite entries_app. unfold entries at 2. rewrite fmap_cons. cbv beta. rewrite Hes, decide_True by done.
    f_equal; [|f_equal]; apply entries_ext; intros q Hq; apply Hother, elem_of_app; tauto. }
  split_and!; [done|by apply (abs_same s s1 (l1 ++ pos :: l2) _ c); [..|apply HA|symmetry; apply HA]|by rewrite Hes, decide_True|].
  pose proof (entries_split _ _ l1 pos l2 HC1 eq_refl) as (_ & _ & Hdel1).
  pose proof (entries_split _ _ l1 pos l2 HC eq_refl) as (_ & _ & Hdel).
  rewrite He1, Hes, decide_True in Hdel1 by done.
  assert (entries s1 l1 = entries s l1 /\ entries s1 l2 = entries s l2) as [E1 E2]
    by (split; apply entries_ext; intros q Hq; apply Hother, elem_of_app; tauto).
  unfold touch, with_entries. cbn [c_entries c_cap c_lifetime c_onEvict c_hc c_metrics c_log].
  by rewrite Hdel1, (abs_entries _ _ _ HA), Hkey, Hdel, E1, E2.
Qed.

(** Lookup with the update of recency and counters that every read makes. *)
Lemma access_refines {B} s order c key now (m : GoM LRU (Z * bool)) (kf : Z -> GoM LRU B) (ke : GoM LRU B) :
  Inv s order -> Abs s order c -> finds m s order c (seek now key c) ->
  let run := (r <- m ;; let '(pos, ok) := r in
              if ok : bool then toFront pos ;; count inc_Hits ;; kf pos
              else count inc_Misses ;; ke) s in
  match access now key c with
  | (Some e, c') => exists s' l pos, run = kf pos s' /\ Inv s' (l ++ [pos]) /\ Abs s' (l ++ [pos]) c'
      /\ entry_of (el s' pos) = e
  | (None, c') => exists s', run = ke s' /\ Rep s' c' /\ hash s' = hash s
  end.
Proof.
  intros HI HA Hfind run. unfold access. destruct (seek now key c) as [[e|] c'];
    unfold finds in Hfind; cbn in Hfind.
  - destruct Hfind as (-> & l1 & pos & l2 & Ho & He & Hm).
    destruct (touch_refines s order c l1 pos l2 HI HA Ho) as (s' & Hrun & HI' & HA' & He' & _).
    exists (with_metrics (inc_Hits (metrics s')) s'), (l1 ++ l2), pos. unfold run.
    rewrite (bind_run _ _ _ _ _ Hm), (bind_run _ _ _ _ _ Hrun). unfold count. rewrite bind_modify.
    rewrite He in HA', He'. split_and!; [done|by apply inv_metrics|by apply abs_counted; [|apply _]|done].
  - destruct Hfind as (s' & Hm & HR & Hh). unfold run. rewrite (bind_run _ _ _ _ _ Hm).
    unfold count. rewrite bind_modify.
    exists (with_metrics (inc_Misses (metrics s')) s'). split_and!; [done| |done].
    apply rep_counted; [done|apply _].
Qed.
(** ** The operations *)

Abbreviation zeroed m := (m emptyKey emptyValue).

Lemma inv_range s order pos : Inv s order -> pos ∈ order -> 0 <= pos < zlen (elements s).
Proof. intros [HC _] Hin. exact (core_range_elements _ _ _ HC Hin). Qed.

Lemma last_in (l : list Z) pos : pos ∈ l ++ [pos].
Proof. apply elem_of_app. right. by apply list_elem_of_singleton. Qed.

Lemma store_found s order c now key value lifetime l1 pos l2 :
  Inv s order -> Abs s order c -> order = l1 ++ pos :: l2 -> e_key (el s pos) = key ->
  implements (addWithLifetime now (hash s key) key value lifetime) s
    (false, counted inc_Inserts (touch (mkEntry key value (expire now lifetime) lifetime) c)).
Proof.
  intros HI HA Ho Hk. pose proof (proj1 HI) as HC.
  assert (pos ∈ order) as Hin by (rewrite Ho; apply elem_of_mid; by left).
  pose proof (inv_range _ _ _ HI Hin) as Hr.
  unfold addWithLifetime. destruct (find_walk s order key HC) as (b & start & Hrun & Hstart).
  unfold implements. rewrite (bind_run _ _ _ _ _ Hrun). cbv zeta. cbn [fst snd].
  destruct Hstart as [[_ Hno]|(Hne & r & Hwalk & Hans)]; [by destruct (Hno pos Hin)|].
  rewrite decide_False by done. rewrite (bind_run _ _ _ _ _ Hwalk).
  destruct r as [p|]; [|by destruct (Hans pos Hin)]. destruct Hans as [Hp Hpk].
  assert (p = pos) as -> by (apply (core_keys _ _ HC); congruence).
  set (f := fun e => set_e_lifetime lifetime (set_expire (expire now lifetime) (set_value value e)) : element).
  destruct (rewrite_entry s order c l1 pos l2 f HI HA Ho) as (HI1 & HA1 & He1 & Htouch); [done|].
  set (s1 := with_elements (upd (elements s) pos f) s) in *.
  destruct (touch_refines s1 order _ l1 pos l2 HI1 HA1 Ho) as (s' & Hrun' & HI' & HA' & _).
  rewrite He1, Htouch in HA'.
  replace (entry_of (f (el s pos))) with (mkEntry key value (expire now lifetime) lifetime) in HA'
    by (rewrite <- Hk; by destruct (el s pos)).
  exists (with_metrics (inc_Inserts (metrics s')) s'). split.
  - do 3 run_step. rewrite !upd_upd by range. change (bind _ _ _) with
      ((toFront pos ;; count inc_Inserts ;; ret false) s1).
    by rewrite (bind_run _ _ _ _ _ Hrun').
  - apply rep_counted; [by eexists|apply _].
Qed.

Lemma store_refines s c now key value lifetime :
  Rep s c -> implements (addWithLifetime now (hash s key) key value lifetime) s
    (store now key value lifetime c).
Proof.
  intros (order & HI & HA). pose proof (proj1 HI) as HC. unfold store.
  destruct (key_cases s order key HC) as [(l1 & pos & l2 & Ho & Hkey & Hf)|[Hno Hf]];
    rewrite <- (abs_entries _ _ _ HA) in Hf; rewrite Hf.
  - by apply (store_found s order c now key value lifetime l1 pos l2).
  - destruct (add_fresh s order now key value lifetime HI Hno)
      as (s' & order' & Hrun & HI' & Hs & He & Hm & Hlog).
    rewrite (rep_len _ _ _ HI HA), (abs_cap _ _ _ HA), (abs_entries _ _ _ HA).
    unfold full in *. rewrite bool_decide_decide in Hrun.
    destruct (decide (lru_len s = lru_cap s)); exists s'; (split; [exact Hrun|]); exists order'.
    + split; [done|]. apply (abs_same s s' order order' c); [done..| | |].
      * by rewrite He.
      * cbn. rewrite <- Hm. by rewrite (abs_metrics _ _ _ HA).
      * rewrite Hlog, <- (abs_log _ _ _ HA), <- (abs_onEvict _ _ _ HA). done.
    + split; [done|]. apply (abs_same s s' order order' c); [done..| | |].
      * by rewrite He.
      * cbn. rewrite <- Hm. by rewrite (abs_metrics _ _ _ HA).
      * by rewrite Hlog, app_nil_r, <- (abs_log _ _ _ HA).
Qed.
(** Reads that answer from the entry at the newest position. *)
Lemma read_refines {B} s c key now (m : GoM LRU (Z * bool)) (answer : entry K V -> B)
    (kf : Z -> GoM LRU B) (ke : GoM LRU B) (miss : B) :
  Rep s c ->
  (forall order, Inv s order -> Abs s order c -> finds m s order c (seek now key c)) ->
  (forall s' pos, 0 <= pos < zlen (elements s') ->
    kf pos s' = Val (answer (entry_of (el s' pos)), s')) ->
  (forall s', ke s' = Val (miss, s')) ->
  implements (r <- m ;; let '(pos, ok) := r in
              if ok : bool then toFront pos ;; count inc_Hits ;; kf pos
              else count inc_Misses ;; ke) s
    (from_option answer miss (access now key c).1, (access now key c).2).
Proof.
  intros (order & HI & HA) Hfind Hkf Hke.
  pose proof (access_refines s order c key now m kf ke HI HA (Hfind order HI HA)) as Hacc.
  destruct (access now key c) as [[e|] c'].
  - destruct Hacc as (s' & l & pos & Hrun & HI' & HA' & He). exists s'. cbn.
    rewrite Hrun, Hkf, He; [|by apply (inv_range _ _ _ HI'), last_in].
    split; [done|by eexists].
  - destruct Hacc as (s' & Hrun & HR & _). exists s'. cbn. by rewrite Hrun, Hke.
Qed.

(** The same for the reads that leave recency and counters alone. *)
Lemma peek_refines {B} s c key now (m : GoM LRU (Z * bool)) (answer : entry K V -> B)
    (kf : Z -> GoM LRU B) (miss : B) :
  Rep s c ->
  (forall order, Inv s order -> Abs s order c -> finds m s order c (seek now key c)) ->
  (forall s' pos, 0 <= pos < zlen (elements s') ->
    kf pos s' = Val (answer (entry_of (el s' pos)), s')) ->
  implements (r <- m ;; let '(pos, ok) := r in if ok : bool then kf pos else ret miss) s
    (from_option answer miss (seek now key c).1, (seek now key c).2).
Proof.
  intros (order & HI & HA) Hfind Hkf. specialize (Hfind order HI HA). unfold finds in Hfind.
  destruct (seek now key c) as [[e|] c']; cbn in *.
  - destruct Hfind as (-> & l1 & pos & l2 & Ho & He & Hm). exists s. cbn.
    rewrite (bind_run _ _ _ _ _ Hm), Hkf, He by
      (apply (inv_range _ _ _ HI); rewrite Ho; apply elem_of_mid; by left).
    split; [done|by exists order].
  - destruct Hfind as (s' & Hm & HR & _). exists s'. by rewrite (bind_run _ _ _ _ _ Hm).
Qed.

(** The newest entry stays where it is. *)
Lemma touch_newest s l pos c :
  Inv s (l ++ [pos]) -> Abs s (l ++ [pos]) c -> touch (entry_of (el s pos)) c = c.
Proof.
  intros [HC _] HA. destruct (entries_split _ _ l pos [] HC eq_refl) as (He & _ & Hdel).
  unfold touch, with_entries. rewrite (abs_entries _ _ _ HA), Hdel, <- app_assoc.
  change (entries s [] ++ [entry_of (el s pos)]) with (entry_of (el s pos) :: entries s []).
  rewrite <- He, <- (abs_entries _ _ _ HA). by destruct c.
Qed.

(** Reading an entry and refreshing its expiry. *)
Lemma refresh_refines {B} s c key now (m : GoM LRU (Z * bool)) (answer : V -> B) (ke : GoM LRU B) :
  Rep s c ->
  (forall order, Inv s order -> Abs s order c -> finds m s order c (seek None key c)) ->
  let run := r <- m ;; let '(pos, ok) := r in
    if ok : bool then
      toFront pos ;; count inc_Hits ;;
      e <- elem pos ;;
      set_elem pos (set_expire (expire now (e_lifetime e))) ;;
      e <- elem pos ;;
      ret (answer (e_value e))
    else count inc_Misses ;; ke in
  match access None key c with
  | (Some e, c') => implements run s (answer (en_value e), touch (refreshed now e) c')
  | (None, c') => exists s', run s = ke s' /\ Rep s' c' /\ hash s' = hash s
  end.
Proof.
  intros (order & HI & HA) Hfind run.
  pose proof (access_refines s order c key None m
    (fun pos => e <- elem pos ;; set_elem pos (set_expire (expire now (e_lifetime e))) ;;
                e <- elem pos ;; ret (answer (e_value e))) ke HI HA (Hfind order HI HA)) as Hacc.
  destruct (access None key c) as [[e|] c'] eqn:Eacc.
  - destruct Hacc as (s' & l & pos & Hrun & HI' & HA' & He).
    pose proof (inv_range _ _ _ HI' (last_in l pos)) as Hr.
    set (f := fun e' : element => set_expire (expire now (e_lifetime (el s' pos))) e').
    destruct (rewrite_entry s' _ c' l pos [] f HI' HA' eq_refl) as (HI1 & HA1 & He1 & Htouch); [done|].
    set (s1 := with_elements (upd (elements s') pos f) s') in *.
    assert (entry_of (f (el s' pos)) = refreshed now e) as Eref by (rewrite <- He; by destruct (el s' pos)).
    exists s1. cbn [fst snd]. split.
    + unfold run. rewrite Hrun. run_step. run_step. run_step.
      replace (e_value (el s' pos)) with (en_value e) by (by rewrite <- He). done.
    + exists (l ++ [pos]). split; [exact HI1|]. rewrite <- Eref, <- Htouch, <- He1.
      rewrite (touch_newest s1 l pos); [by rewrite He1|done|by rewrite He1].
  - exact Hacc.
Qed.
Lemma updateLifetime_refines s c now key value lifetime :
  Rep s c -> implements (updateLifetime now (hash s key) key value lifetime) s
    (match find_entry key (c_entries c) with
     | Some e => if decide (en_value e = value)
                 then (true, counted inc_Inserts (touch (mkEntry key value (expire now lifetime) lifetime) c))
                 else (false, c)
     | None => (false, c)
     end).
Proof.
  intros (order & HI & HA). pose proof (proj1 HI) as HC. unfold updateLifetime, implements.
  destruct (find_walk s order key HC) as (b & start & Hrun & Hstart).
  rewrite (bind_run _ _ _ _ _ Hrun). cbv zeta. cbn [snd].
  assert (Rep s c) as HR by (by exists order).
  destruct (key_cases s order key HC) as [(l1 & pos & l2 & Ho & Hkey & Hf)|[Hno Hf]];
    rewrite <- (abs_entries _ _ _ HA) in Hf; rewrite Hf.
  - assert (pos ∈ order) as Hin by (rewrite Ho; apply elem_of_mid; by left).
    pose proof (inv_range _ _ _ HI Hin) as Hr.
    destruct Hstart as [[_ Hno]|(Hne & r & Hwalk & Hans)]; [by destruct (Hno pos Hin)|].
    rewrite decide_False by done. rewrite (bind_run _ _ _ _ _ Hwalk).
    destruct r as [p|]; [|by destruct (Hans pos Hin)]. destruct Hans as [Hp Hpk].
    assert (p = pos) as -> by (apply (core_keys _ _ HC); congruence).
    run_step. cbn [en_value entry_of].
    destruct (decide (e_value (el s pos) = value)) as [Hv|Hv];
      [rewrite decide_False by tauto|rewrite decide_True by done; by exists s].
    set (f := fun e => set_expire (expire now lifetime) (set_e_lifetime lifetime e) : element).
    destruct (rewrite_entry s order c l1 pos l2 f HI HA Ho) as (HI1 & HA1 & He1 & Htouch); [done|].
    set (s1 := with_elements (upd (elements s) pos f) s) in *.
    destruct (touch_refines s1 order _ l1 pos l2 HI1 HA1 Ho) as (s' & Hrun' & HI' & HA' & _).
    rewrite He1, Htouch in HA'.
    replace (entry_of (f (el s pos))) with (mkEntry key value (expire now lifetime) lifetime) in HA'
      by (rewrite <- Hkey, <- Hv; by destruct (el s pos)).
    exists (with_metrics (inc_Inserts (metrics s')) s'). split.
    + do 2 run_step. rewrite !upd_upd by range. change (bind _ _ _) with
        ((toFront pos ;; count inc_Inserts ;; ret true) s1).
      by rewrite (bind_run _ _ _ _ _ Hrun').
    + apply rep_counted; [by eexists|apply _].
  - exists s. split; [|done].
    destruct Hstart as [[-> _]|(Hne & r & Hwalk & Hans)]; [by rewrite decide_True|].
    rewrite decide_False by done. rewrite (bind_run _ _ _ _ _ Hwalk).
    destruct r as [p|]; [destruct Hans as [Hp Hpk]; by destruct (Hno p Hp)|done].
Qed.

Lemma remove_refines s c key :
  Rep s c -> implements (zeroed remove (hash s key) key) s
    (match seek None key c with
     | (Some e, c') => (true, discard e c')
     | (None, c') => (false, c')
     end).
Proof.
  intros (order & HI & HA). pose proof (findKeyNoExpire_refines s order c key HI HA) as Hfind.
  unfold finds in Hfind. unfold remove, implements. destruct (seek None key c) as [[e|] c']; cbn in *.
  - destruct Hfind as (-> & l1 & pos & l2 & Ho & He & Hm). rewrite (bind_run _ _ _ _ _ Hm).
    destruct (removeAt_refines s order c l1 pos l2 HI HA Ho) as (s' & order' & Hrun & HI' & HA' & _).
    exists s'. rewrite (bind_run _ _ _ _ _ Hrun). rewrite He in HA'. split; [done|by exists order'].
  - destruct Hfind as (s' & Hm & HR & _). exists s'. by rewrite (bind_run _ _ _ _ _ Hm).
Qed.

(** Reading the oldest position. *)
Lemma head_run s order : Core s order -> elem (lru_head s) s = Val (el s (lru_head s), s).
Proof.
  intros HC. apply (elem_run (emptyKey := emptyKey) (emptyValue := emptyValue)).
  rewrite (cfg_elements _ (core_config _ _ HC)). exact (core_head_range _ _ HC).
Qed.

Lemma RemoveOldest_refines s c :
  Rep s c -> implements (zeroed RemoveOldest) s
    (match c_entries c with
     | e :: _ => ((en_key e, en_value e, true), discard e c)
     | [] => ((emptyKey, emptyValue, false), c)
     end).
Proof.
  intros (order & HI & HA). pose proof (proj1 HI) as HC. pose proof (rep_len _ _ _ HI HA) as Hlen.
  unfold RemoveOldest, implements. rewrite bind_gets, (abs_entries _ _ _ HA) in *.
  destruct order as [|old rest]; [exists s; rewrite decide_True by done; by split; [|exists []]|].
  cbn in Hlen. rewrite zlen_cons in Hlen. pose proof (zlen_nonneg (entries s rest)).
  rewrite decide_False by (unfold entries in *; lia).
  pose proof (head_next s old rest HC) as Hold.
  assert (0 <= old < zlen (elements s)) as Hr by (apply (inv_range s _ _ HI), elem_of_cons; by left).
  rewrite bind_gets, (bind_run _ _ _ _ _ (head_run s _ HC)). cbv zeta. rewrite Hold. run_step.
  destruct (removeAt_refines s (old :: rest) c [] old rest HI HA eq_refl)
    as (s' & order' & Hrun & HI' & HA' & _).
  exists s'. rewrite (bind_run _ _ _ _ _ Hrun). split; [done|]. by exists order'.
Qed.
(** ** Scans from the oldest entry *)

Lemma core_next s pre x y suf : Core s (pre ++ x :: y :: suf) -> e_next (el s x) = y.
Proof.
  intros HC. pose proof (core_ring _ _ HC) as Hr. rewrite ring_app_comm in Hr.
  by apply ring_next in Hr as [? _].
Qed.

Lemma first_expired_run s n suf pre pos :
  Core s (pre ++ suf) -> (forall x l, suf = x :: l -> pos = x) ->
  exists r, first_expired (length suf) n pos s = Val (r, s) /\
    match r with
    | Some p => exists l1 l2, suf = l1 ++ p :: l2 /\ is_expired n (entry_of (el s p)) = true
        /\ forall q, q ∈ l1 -> is_expired n (entry_of (el s q)) = false
    | None => forall q, q ∈ suf -> is_expired n (entry_of (el s q)) = false
    end.
Proof.
  revert pre pos. induction suf as [|x suf IH]; intros pre pos HC Hpos; simpl.
  { exists None. split; [done|]. by intros q ?%not_elem_of_nil. }
  rewrite (Hpos x suf eq_refl).
  assert (0 <= x < zlen (elements s)) as Hr
    by (apply (core_range_elements _ _ _ HC), elem_of_app; right; apply elem_of_cons; by left).
  run_step. destruct (expired n (e_expire (el s x))) eqn:E.
  - exists (Some x). split; [done|]. exists [], suf. split_and!; [done|done|].
    by intros q ?%not_elem_of_nil.
  - destruct (IH (pre ++ [x]) (e_next (el s x))) as (r & Hrun & Hans).
    { by rewrite <- app_assoc. } { intros y l ->. by apply (core_next s pre x y l). }
    exists r. split; [done|]. destruct r as [p|].
    + destruct Hans as (l1 & l2 & -> & Hp & Hl1). exists (x :: l1), l2. split_and!; [done|done|].
      intros q [->|Hq]%elem_of_cons; [done|by apply Hl1].
    + intros q [->|Hq]%elem_of_cons; [done|by apply Hans].
Qed.

Lemma collect_keys_run s suf pre pos :
  Core s (pre ++ suf) -> (forall x l, suf = x :: l -> pos = x) ->
  collect_keys (length suf) pos s = Val ((fun p => e_key (el s p)) <$> suf, s).
Proof.
  revert pre pos. induction suf as [|x suf IH]; intros pre pos HC Hpos; simpl; [done|].
  rewrite (Hpos x suf eq_refl).
  assert (0 <= x < zlen (elements s)) as Hr
    by (apply (core_range_elements _ _ _ HC), elem_of_app; right; apply elem_of_cons; by left).
  run_step. erewrite bind_run; [done|]. apply (IH (pre ++ [x])).
  - by rewrite <- app_assoc.
  - intros y l ->. by apply (core_next s pre x y l).
Qed.

Lemma head_first s order x l : Core s order -> order = x :: l -> e_next (el s (lru_head s)) = x.
Proof. intros HC ->. by apply (head_next s x l). Qed.

(** Removing the first expired entry leaves the rest of the purge to do. *)
Lemma purge_expired_drop n c (l1 : list (entry K V)) e l2 :
  c_entries c = l1 ++ e :: l2 -> NoDup (en_key <$> c_entries c) -> is_expired n e = true ->
  (forall x, x ∈ l1 -> is_expired n x = false) ->
  purge_expired n c = purge_expired n (discard e c).
Proof.
  intros He Hnd Hexp Hl1. rewrite He in Hnd.
  destruct (find_del_split l1 l2 e Hnd) as [_ Hdel].
  assert (filter (fun x => is_expired n x = true) l1 = []) as Hf1.
  { apply filter_none. intros x Hx. by rewrite Hl1. }
  unfold purge_expired, discard. cbn. rewrite He, Hdel, !filter_app.
  rewrite filter_cons_True by done. rewrite filter_cons_False by congruence. rewrite Hf1. cbn.
  unfold counted, logged, with_entries. cbn. f_equal.
  - by rewrite Nat.iter_swap.
  - destruct (c_onEvict c); [by rewrite <- app_assoc|by rewrite !app_nil_r].
Qed.

Lemma purge_expired_none n c :
  (forall x, x ∈ c_entries c -> is_expired n x = false) -> purge_expired n c = c.
Proof.
  intros Hno. unfold purge_expired.
  assert (filter (fun x => is_expired n x = true) (c_entries c) = []) as ->.
  { apply filter_none. intros x Hx. by rewrite Hno. }
  assert (filter (fun x => is_expired n x = false) (c_entries c) = c_entries c) as ->.
  { by apply filter_every. }
  unfold counted, logged, with_entries. cbn. destruct c as [? ? ? [] ? ? ?]; cbn; by rewrite app_nil_r.
Qed.
Lemma PurgeExpired_loop_refines fuel n s c :
  Rep s c -> (length (c_entries c) < fuel)%nat ->
  implements (zeroed PurgeExpired_loop fuel n) s (tt, purge_expired n c).
Proof.
  revert s c. induction fuel as [|f IH]; intros s c HR Hf; [lia|].
  pose proof HR as (order & HI & HA). pose proof (proj1 HI) as HC.
  pose proof (rep_len _ _ _ HI HA) as Hlen. unfold implements. cbn [PurgeExpired_loop].
  rewrite bind_gets. destruct (decide (lru_len s = 0)) as [E|E].
  { exists s. split; [done|]. cbn [snd]. rewrite purge_expired_none; [done|].
    destruct (c_entries c); [by intros ? ?%not_elem_of_nil|].
    rewrite zlen_cons in Hlen. pose proof (zlen_nonneg l). lia. }
  rewrite bind_gets, (bind_run _ _ _ _ _ (head_run s _ HC)).
  assert (Z.to_nat (lru_len s) = length order) as ->
    by (rewrite (core_len _ _ HC); unfold zlen; lia).
  destruct (first_expired_run s n order [] (e_next (el s (lru_head s))) HC) as (r & Hrun & Hans);
    [by intros x l; apply head_first|].
  rewrite (bind_run _ _ _ _ _ Hrun). destruct r as [p|].
  - destruct Hans as (l1 & l2 & Ho & Hp & Hl1).
    destruct (removeAt_refines s order c l1 p l2 HI HA Ho) as (s' & order' & Hrun' & HI' & HA' & _).
    destruct (entries_split s order l1 p l2 HC Ho) as (He & _ & Hdel).
    rewrite <- (abs_entries _ _ _ HA) in He, Hdel.
    rewrite (bind_run _ _ _ _ _ Hrun').
    rewrite (purge_expired_drop n c _ _ _ He); [|by rewrite (abs_entries _ _ _ HA); apply entries_keys_NoDup|done|].
    + apply IH; [by exists order'|]. unfold discard. cbn [c_entries counted logged with_entries].
      rewrite Hdel. rewrite He, length_app in Hf. cbn in Hf. rewrite length_app. lia.
    + intros x (q & -> & Hq)%list_elem_of_fmap. by apply Hl1.
  - exists s. split; [done|]. cbn [snd]. rewrite purge_expired_none; [done|].
    rewrite (abs_entries _ _ _ HA). intros x (q & -> & Hq)%list_elem_of_fmap. by apply Hans.
Qed.

Lemma PurgeExpired_refines n s c :
  Rep s c -> implements (zeroed PurgeExpired n) s (tt, purge_expired n c).
Proof.
  intros HR. pose proof HR as (order & HI & HA). unfold PurgeExpired, implements. rewrite bind_gets.
  apply PurgeExpired_loop_refines; [done|].
  rewrite <- (rep_len _ _ _ HI HA). unfold zlen. lia.
Qed.

Lemma Keys_refines n s c :
  Rep s c -> implements (zeroed Keys n) s (en_key <$> c_entries (purge_expired n c), purge_expired n c).
Proof.
  intros HR. destruct (PurgeExpired_refines n s c HR) as (s' & Hrun & HR'). cbn [fst snd] in *.
  exists s'. split; [|done]. unfold Keys. rewrite (bind_run _ _ _ _ _ Hrun), bind_gets.
  destruct HR' as (order & HI & HA). pose proof (proj1 HI) as HC.
  rewrite (bind_run _ _ _ _ _ (head_run s' _ HC)), bind_gets.
  assert (Z.to_nat (lru_len s') = length order) as ->
    by (rewrite (core_len _ _ HC); unfold zlen; lia).
  rewrite (collect_keys_run s' order []); [|done|by intros x l; apply head_first].
  cbn [fst]. rewrite (abs_entries _ _ _ HA). unfold entries. by rewrite <- list_fmap_compose.
Qed.

(** Removing the oldest [k] entries. *)
Lemma remove_oldest_refines k s c :
  Rep s c -> length (c_entries c) = k ->
  implements (zeroed remove_oldest_times k) s
    (tt, counted (Nat.iter k inc_Removals) (with_entries [] (logged (c_entries c) c))).
Proof.
  revert s c. induction k as [|k IH]; intros s c HR Hk; unfold implements; cbn [remove_oldest_times].
  - exists s. split; [done|]. apply nil_length_inv in Hk. destruct c as [es ? ? b ? ? ?]; cbn in *. subst es.
    unfold counted, with_entries, logged. cbn. destruct b; cbn; by rewrite app_nil_r.
  - pose proof HR as (order & HI & HA).
    destruct (RemoveOldest_refines s c HR) as (s' & Hrun & HR').
    rewrite (bind_run _ _ _ _ _ Hrun).
    destruct (c_entries c) as [|e es] eqn:E; [done|]. cbn [fst snd] in *.
    assert (c_entries (discard e c) = es) as Hes.
    { unfold discard. cbn. rewrite E. pose proof (entries_keys_NoDup _ _ (proj1 HI)) as Hnd.
      rewrite <- (abs_entries _ _ _ HA), E in Hnd. by destruct (find_del_split [] es e Hnd). }
    destruct (IH s' (discard e c) HR') as (s2 & Hrun2 & HR2); [rewrite Hes; cbn in Hk; lia|].
    exists s2. split; [done|]. cbn [fst snd] in *. rewrite Hes in HR2.
    replace (counted _ _) with (counted (Nat.iter k inc_Removals) (with_entries [] (logged es (discard e c)))); [done|].
    unfold discard, counted, logged, with_entries. cbn. f_equal.
    + by rewrite Nat.iter_swap.
    + destruct (c_onEvict c); [by rewrite <- app_assoc|by rewrite !app_nil_r].
Qed.

Lemma Purge_refines s c :
  Rep s c -> implements (zeroed Purge) s
    (tt, counted (fun _ => zeroMetrics) (with_entries [] (logged (c_entries c) c))).
Proof.
  intros HR. pose proof HR as (order & HI & HA). unfold Purge, implements. rewrite bind_gets.
  destruct (remove_oldest_refines (Z.to_nat (lru_len s)) s c HR) as (s' & Hrun & HR').
  { rewrite <- (rep_len _ _ _ HI HA). unfold zlen. lia. }
  rewrite (bind_run _ _ _ _ _ Hrun). exists (with_metrics zeroMetrics s'). split; [done|].
  cbn [snd] in *. apply (rep_counted _ _ (fun _ => zeroMetrics)) in HR'; [done|].
  by intros m m' _.
Qed.
End Refine.
