(* ===== verification/FreeLRUTheorems.v ===== *)
(** * The LRU cache: the theorems

    The refinement of FreeLRURefine.v lifted to whole runs of the exported API,
    starting at the constructors, and what it implies for callers. *)

From S2P Require Import Prelude GoBits Ring FreeLRU FreeLRUSpec FreeLRUInv FreeLRUInsert FreeLRURefine.
#[local] Open Scope go_scope.

Section Theorems.
Context {K V : Type} `{EqDecision K, EqDecision V} (emptyKey : K) (emptyValue : V).
Abbreviation LRU := (@LRU K V).
Abbreviation cache := (cache K V).
Abbreviation Rep := (@Rep K V emptyKey emptyValue).
Abbreviation implements := (@implements K V emptyKey emptyValue).
Abbreviation zeroed m := (m emptyKey emptyValue).
Implicit Types (s : LRU) (c : cache) (es : list (entry K V)) (key : K).
Ltac run_step := run_step_with emptyKey emptyValue.

(** An operation of the API run on the array-backed cache. *)
Definition lru_step (o : op K V) : GoM LRU (answer K V) :=
  match o with
  | OSetLifetime t => SetLifetime t ;; ret AUnit
  | OSetOnEvict b => SetOnEvict b ;; ret AUnit
  | OSetHealthCheck h => SetHealthCheck h ;; ret AUnit
  | OLen => n <- Len ;; ret (ALen n)
  | OAddWithLifetime now k v t => b <- AddWithLifetime now k v t ;; ret (ABool b)
  | OAdd now k v => b <- Add now k v ;; ret (ABool b)
  | OGet now k => r <- zeroed Get now k ;; ret (AValue r.1 r.2)
  | OGetWithLifetime now k => r <- zeroed GetWithLifetime now k ;; ret (ATimed r.1.1 r.1.2 r.2)
  | OGetWithLifetimeNoExpire k =>
      r <- zeroed GetWithLifetimeNoExpire k ;; ret (ATimed r.1.1 r.1.2 r.2)
  | OGetAndRefresh now k => r <- zeroed GetAndRefresh now k ;; ret (AValue r.1 r.2)
  | OGetAndRefreshOrAdd now now' k f =>
      r <- zeroed GetAndRefreshOrAdd now now' k f ;; ret (AAdded r.1.1 r.1.2 r.2)
  | OPeek now k => r <- zeroed Peek now k ;; ret (AValue r.1 r.2)
  | OPeekWithLifetime now k => r <- zeroed PeekWithLifetime now k ;; ret (ATimed r.1.1 r.1.2 r.2)
  | OUpdateLifetime now k v t => b <- UpdateLifetime now k v t ;; ret (ABool b)
  | OContains now k => b <- zeroed Contains now k ;; ret (ABool b)
  | ORemove k => b <- zeroed Remove k ;; ret (ABool b)
  | ORemoveOldest => r <- zeroed RemoveOldest ;; ret (AOldest r.1.1 r.1.2 r.2)
  | OKeys now => ks <- zeroed Keys now ;; ret (AKeys ks)
  | OPurge => zeroed Purge ;; ret AUnit
  | OPurgeExpired now => zeroed PurgeExpired now ;; ret AUnit
  | OResetMetrics => ResetMetrics ;; ret AUnit
  end.

Fixpoint lru_run (os : list (op K V)) : GoM LRU (list (answer K V)) :=
  match os with
  | [] => ret []
  | o :: os => a <- lru_step o ;; l <- lru_run os ;; ret (a :: l)
  end.

Lemma implements_map {A B} (m : GoM LRU A) (f : A -> B) s (r : A * cache) :
  implements m s r -> implements (x <- m ;; ret (f x)) s (f r.1, r.2).
Proof. intros (s' & Hm & HR). exists s'. by rewrite (bind_run _ _ _ _ _ Hm). Qed.

(** Changes of the settings. *)
Lemma rep_setting s c (f : LRU -> LRU) c' :
  Rep s c ->
  (forall order, Inv (emptyKey := emptyKey) (emptyValue := emptyValue) s order ->
     Abs (emptyKey := emptyKey) (emptyValue := emptyValue) s order c ->
     Inv (emptyKey := emptyKey) (emptyValue := emptyValue) (f s) order
     /\ Abs (emptyKey := emptyKey) (emptyValue := emptyValue) (f s) order c') ->
  Rep (f s) c'.
Proof. intros (order & HI & HA) Hf. exists order. by apply Hf. Qed.

Lemma inv_setting s s' order :
  Inv (emptyKey := emptyKey) (emptyValue := emptyValue) s order ->
  elements s' = elements s -> buckets s' = buckets s -> hash s' = hash s ->
  lru_head s' = lru_head s -> lru_len s' = lru_len s -> lru_cap s' = lru_cap s ->
  lru_size s' = lru_size s -> lru_mask s' = lru_mask s ->
  Inv (emptyKey := emptyKey) (emptyValue := emptyValue) s' order.
Proof.
  intros ([[] ] & Hl & Hc) E1 E2 E3 E4 E5 E6 E7 E8.
  split; [split|]; unfold hashToBucketPos in *; rewrite ?E1, ?E2, ?E3, ?E4, ?E5, ?E6, ?E7, ?E8; try done.
  split; by rewrite ?E1, ?E2, ?E3, ?E6, ?E7, ?E8.
Qed.

Lemma implements_gets {A B} (f : LRU -> A) (k : A -> GoM LRU B) s (r : B * cache) :
  implements (k (f s)) s r -> implements (bind (gets f) k) s r.
Proof. done. Qed.

Lemma implements_eq {A} (m : GoM LRU A) s (r r' : A * cache) :
  r = r' -> implements m s r -> implements m s r'.
Proof. by intros ->. Qed.

Lemma implements_bind {A B} (m : GoM LRU A) (k : A -> GoM LRU B) s (r : A * cache) (r' : B * cache) :
  implements m s r -> (forall s', Rep s' r.2 -> implements (k r.1) s' r') -> implements (bind m k) s r'.
Proof.
  intros (s1 & Hm & HR) Hk. destruct (Hk s1 HR) as (s2 & Hrun & HR2).
  exists s2. by rewrite (bind_run _ _ _ _ _ Hm).
Qed.

(** The operations: peel the hash, then the lemma of the lookup they share. *)
Lemma Get_refines s c now key :
  Rep s c -> implements (zeroed Get now key) s
    (let (r, c') := access (Some now) key c in ((value_of emptyValue r, found r), c')).
Proof.
  intros HR. apply implements_gets. unfold get.
  eapply implements_eq; [|apply (read_refines s c key (Some now) _ (fun e => (en_value e, true)) _ _ (emptyValue, false) HR)].
  - by destruct (access (Some now) key c) as [[e|] c'].
  - intros order. apply findKey_refines.
  - intros s' pos Hr. by run_step.
  - done.
Qed.

Lemma GetWithLifetime_refines s c now key :
  Rep s c -> implements (zeroed GetWithLifetime now key) s
    (let (r, c') := access (Some now) key c in ((value_of emptyValue r, en_expire <$> r, found r), c')).
Proof.
  intros HR. apply implements_gets. unfold getWithLifetime.
  eapply implements_eq; [|apply (read_refines s c key (Some now) _
    (fun e => (en_value e, Some (en_expire e), true)) _ _ (emptyValue, None, false) HR)].
  - by destruct (access (Some now) key c) as [[e|] c'].
  - intros order. apply findKey_refines.
  - intros s' pos Hr. by run_step.
  - done.
Qed.

Lemma GetWithLifetimeNoExpire_refines s c key :
  Rep s c -> implements (zeroed GetWithLifetimeNoExpire key) s
    (let (r, c') := access None key c in ((value_of emptyValue r, en_expire <$> r, found r), c')).
Proof.
  intros HR. apply implements_gets. unfold getWithLifetimeNoExpire.
  eapply implements_eq; [|apply (read_refines s c key None _
    (fun e => (en_value e, Some (en_expire e), true)) _ _ (emptyValue, None, false) HR)].
  - by destruct (access None key c) as [[e|] c'].
  - intros order. apply findKeyNoExpire_refines.
  - intros s' pos Hr. by run_step.
  - done.
Qed.

Lemma peek_op_refines s c now key :
  Rep s c -> implements (zeroed peek now (hash s key) key) s
    (let (r, c') := seek (Some now) key c in ((value_of emptyValue r, found r), c')).
Proof.
  intros HR. unfold peek.
  eapply implements_eq; [|apply (peek_refines s c key (Some now) _ (fun e => (en_value e, true)) _ (emptyValue, false) HR)].
  - by destruct (seek (Some now) key c) as [[e|] c'].
  - intros order. apply findKey_refines.
  - intros s' pos Hr. by run_step.
Qed.

Lemma PeekWithLifetime_refines s c now key :
  Rep s c -> implements (zeroed PeekWithLifetime now key) s
    (let (r, c') := seek (Some now) key c in ((value_of emptyValue r, en_expire <$> r, found r), c')).
Proof.
  intros HR. apply implements_gets. unfold peekWithLifetime.
  eapply implements_eq; [|apply (peek_refines s c key (Some now) _
    (fun e => (en_value e, Some (en_expire e), true)) _ (emptyValue, None, false) HR)].
  - by destruct (seek (Some now) key c) as [[e|] c'].
  - intros order. apply findKey_refines.
  - intros s' pos Hr. by run_step.
Qed.

Lemma GetAndRefresh_refines s c now key :
  Rep s c -> implements (zeroed GetAndRefresh now key) s
    (match access None key c with
     | (Some e, c') => ((en_value e, true), touch (refreshed now e) c')
     | (None, c') => ((emptyValue, false), c')
     end).
Proof.
  intros HR. apply implements_gets. unfold getAndRefresh.
  pose proof (refresh_refines s c key now _ (fun v => (v, true)) (ret (emptyValue, false)) HR
    (fun order => findKeyNoExpire_refines s order c key)) as Href.
  cbv zeta in Href. destruct (access None key c) as [[e|] c']; [exact Href|].
  destruct Href as (s' & Hrun & HR' & _). by exists s'.
Qed.

Lemma getAndRefreshOrAdd_refines s c now key v (ok : bool) :
  Rep s c -> implements (zeroed getAndRefreshOrAdd now (hash s key) key (v, ok)) s
    (match access None key c with
     | (Some e, c') => ((en_value e, true, true), touch (refreshed now e) c')
     | (None, c') =>
         if ok then ((v, false, true), (store now key v (c_lifetime c') c').2)
         else ((v, false, false), c')
     end).
Proof.
  intros HR. unfold getAndRefreshOrAdd.
  pose proof (refresh_refines s c key now _ (fun v => (v, true, true))
    (if ok then t <- gets lru_lifetime ;; addWithLifetime now (hash s key) key v t ;; ret (v, false, true)
     else ret (v, false, false)) HR (fun order => findKeyNoExpire_refines s order c key)) as Href.
  cbv zeta in Href. destruct (access None key c) as [[e|] c'] eqn:Eacc; [exact Href|].
  destruct Href as (s' & Hrun & HR' & Hh).
  destruct ok; [|exists s'; split; [exact Hrun|exact HR']].
  pose proof HR' as (order & _ & HA).
  destruct (store_refines s' c' now key v (lru_lifetime s') HR') as (s1 & Hadd & HR1).
  exists s1. rewrite (abs_lifetime _ _ _ HA). split; [|exact HR1].
  etransitivity; [exact Hrun|]. rewrite bind_gets, <- Hh. by rewrite (bind_run _ _ _ _ _ Hadd).
Qed.

Lemma GetAndRefreshOrAdd_refines s c now now' key v (ok : bool) :
  Rep s c -> implements (zeroed GetAndRefreshOrAdd now now' key (v, ok)) s
    (match access None key c with
     | (Some e, c') => ((en_value e, true, true), touch (refreshed now e) c')
     | (None, c') =>
         if ok then ((v, false, true), purge_expired now' (store now key v (c_lifetime c') c').2)
         else ((v, false, false), c')
     end).
Proof.
  intros HR. apply implements_gets.
  eapply implements_bind; [by apply getAndRefreshOrAdd_refines|].
  destruct (access None key c) as [[e|] c']; [by intros s1 HR1; exists s1|].
  destruct ok; cbn [fst snd negb andb]; intros s1 HR1; [|by exists s1].
  destruct (PurgeExpired_refines now' s1 _ HR1) as (s2 & Hp & HR2).
  exists s2. by rewrite (bind_run _ _ _ _ _ Hp).
Qed.

Lemma setting_refines s c (f : LRU -> LRU) c' :
  Rep s c ->
  elements (f s) = elements s -> buckets (f s) = buckets s -> hash (f s) = hash s ->
  lru_head (f s) = lru_head s -> lru_len (f s) = lru_len s -> lru_cap (f s) = lru_cap s ->
  lru_size (f s) = lru_size s -> lru_mask (f s) = lru_mask s ->
  (forall order, Abs (emptyKey := emptyKey) (emptyValue := emptyValue) s order c ->
     Abs (emptyKey := emptyKey) (emptyValue := emptyValue) (f s) order c') ->
  implements (modify f ;; ret AUnit) s (AUnit (K := K) (V := V), c').
Proof.
  intros (order & HI & HA) E1 E2 E3 E4 E5 E6 E7 E8 HA'. exists (f s). split; [done|].
  exists order. split; [by apply (inv_setting s)|by apply HA'].
Qed.

(** One step of the API. *)
Lemma step_refines s c (o : op K V) :
  Rep s c -> implements (lru_step o) s (cache_step emptyKey emptyValue o c).
Proof.
  intros HR. destruct o; unfold lru_step, cache_step.
  - apply (setting_refines s c (with_lifetime lifetime)); try done. by intros order [].
  - apply (setting_refines s c (with_onEvict installed)); try done. by intros order [].
  - apply (setting_refines s c (with_healthCheck hc)); try done. by intros order [].
  - destruct HR as (order & HI & HA). exists s. rewrite (rep_len _ _ _ HI HA).
    split; [done|by exists order].
  - pose proof (implements_map _ (@ABool K V) _ _
      (implements_gets hash (fun h => addWithLifetime now (h key) key value lifetime) _ _
        (store_refines s c now key value lifetime HR))) as H.
    by destruct (store now key value lifetime c).
  - pose proof HR as (order & HI & HA). rewrite (abs_lifetime _ _ _ HA).
    pose proof (implements_map _ (@ABool K V) _ _
      (implements_gets hash (fun h => t <- gets lru_lifetime ;; addWithLifetime now (h key) key value t) _ _
        (implements_gets lru_lifetime (fun t => addWithLifetime now (hash s key) key value t) _ _
          (store_refines s c now key value (lru_lifetime s) HR)))) as H.
    by destruct (store now key value (lru_lifetime s) c).
  - pose proof (implements_map _ (fun r => @AValue K V r.1 r.2) _ _ (Get_refines s c now key HR)) as H.
    by destruct (access (Some now) key c).
  - pose proof (implements_map _ (fun r => @ATimed K V r.1.1 r.1.2 r.2) _ _ (GetWithLifetime_refines s c now key HR)) as H.
    by destruct (access (Some now) key c).
  - pose proof (implements_map _ (fun r => @ATimed K V r.1.1 r.1.2 r.2) _ _ (GetWithLifetimeNoExpire_refines s c key HR)) as H.
    by destruct (access None key c).
  - pose proof (implements_map _ (fun r => @AValue K V r.1 r.2) _ _ (GetAndRefresh_refines s c now key HR)) as H.
    by destruct (access None key c) as [[e|] c'].
  - destruct constructor as [v ok].
    pose proof (implements_map _ (fun r => @AAdded K V r.1.1 r.1.2 r.2) _ _ (GetAndRefreshOrAdd_refines s c now now' key v ok HR)) as H.
    destruct (access None key c) as [[e|] c']; [exact H|]. by destruct ok.
  - pose proof (implements_map _ (fun r => @AValue K V r.1 r.2) _ _ (implements_gets hash (fun h => peek emptyKey emptyValue now (h key) key) _ _ (peek_op_refines s c now key HR))) as H.
    by destruct (seek (Some now) key c).
  - pose proof (implements_map _ (fun r => @ATimed K V r.1.1 r.1.2 r.2) _ _ (PeekWithLifetime_refines s c now key HR)) as H.
    by destruct (seek (Some now) key c).
  - pose proof (implements_map _ (@ABool K V) _ _
      (implements_gets hash (fun h => updateLifetime now (h key) key value lifetime) _ _
        (updateLifetime_refines s c now key value lifetime HR))) as H.
    destruct (find_entry key (c_entries c)) as [e|]; [|exact H].
    by destruct (decide (en_value e = value)).
  - pose proof (implements_map _ (@ABool K V) _ _ (implements_gets hash (fun h => r <- peek emptyKey emptyValue now (h key) key ;; ret r.2) _ _ (implements_map _ snd _ _ (peek_op_refines s c now key HR)))) as H.
    by destruct (seek (Some now) key c).
  - pose proof (implements_map _ (@ABool K V) _ _ (implements_gets hash (fun h => remove emptyKey emptyValue (h key) key) _ _ (remove_refines s c key HR))) as H.
    by destruct (seek None key c) as [[e|] c'].
  - pose proof (implements_map _ (fun r => @AOldest K V r.1.1 r.1.2 r.2) _ _ (RemoveOldest_refines s c HR)) as H.
    by destruct (c_entries c).
  - apply (implements_map _ (@AKeys K V) _ _ (Keys_refines now s c HR)).
  - apply (implements_map _ (fun _ => @AUnit K V) _ _ (Purge_refines s c HR)).
  - apply (implements_map _ (fun _ => @AUnit K V) _ _ (PurgeExpired_refines now s c HR)).
  - exists (with_metrics zeroMetrics s). split; [done|].
    apply (rep_counted s c (fun _ => zeroMetrics) HR). by intros m m' _.
Qed.

Lemma run_refines os s c :
  Rep s c -> implements (lru_run os) s (cache_run emptyKey emptyValue os c).
Proof.
  revert s c. induction os as [|o os IH]; intros s c HR; cbn [lru_run cache_run].
  - by exists s.
  - destruct (step_refines s c o HR) as (s1 & Hrun & HR1).
    destruct (cache_step emptyKey emptyValue o c) as [a c1]. cbn [fst snd] in *.
    destruct (IH s1 c1 HR1) as (s2 & Hrun2 & HR2).
    destruct (cache_run emptyKey emptyValue os c1) as [l c2]. cbn [fst snd] in *.
    exists s2. rewrite (bind_run _ _ _ _ _ Hrun), (bind_run _ _ _ _ _ Hrun2). done.
Qed.

(** ** Construction *)

Lemma initLRU_rep cap size (h : K -> Z) :
  0 < cap <= size -> size < emptyBucket -> (forall k, 0 <= h k < 2 ^ 32) ->
  Rep (initLRU cap size h (replicate (Z.to_nat size) 0)
         (replicate (Z.to_nat size) (zeroElement emptyKey emptyValue))) (empty_cache cap).
Proof.
  intros Hcap Hsize Hh. exists []. split; [|done].
  assert (forall (A : Type) (x : A), zlen (replicate (Z.to_nat size) x) = size) as Hz
    by (intros A x; unfold zlen; rewrite length_replicate; lia).
  split; [split; cbn|].
  - split; cbn; try done. unfold zlen. rewrite length_fmap. apply Hz.
  - done.
  - apply NoDup_nil_2.
  - by intros p ?%not_elem_of_nil.
  - done.
  - lia.
  - done.
  - intros b Hb. exists []. split_and!; [constructor|done| |].
    + unfold zlen in Hb. rewrite length_fmap, length_replicate in Hb.
      unfold at_. rewrite decide_True by lia.
      by rewrite list_lookup_fmap, lookup_replicate_2 by lia.
    + intros p. split; [by intros ?%not_elem_of_nil|by intros [?%not_elem_of_nil _]].
  - by intros p ?%not_elem_of_nil.
  - by intros p q ?%not_elem_of_nil.
  - split; cbn; [|lia]. intros p. split; [by intros ?%not_elem_of_nil|lia].
Qed.

Lemma NewWithSize_rep cap size (h : K -> Z) :
  0 < cap <= size -> size < emptyBucket -> (forall k, 0 <= h k < 2 ^ 32) ->
  exists s, NewWithSize emptyKey emptyValue cap size (Some h) = Ok s /\ Rep s (empty_cache cap).
Proof.
  intros Hcap Hsize Hh. unfold NewWithSize. rewrite !decide_False by lia.
  eexists. split; [reflexivity|]. by apply initLRU_rep.
Qed.

(** What the constructor checks. *)
Lemma NewWithSize_Ok cap size (h : option (K -> Z)) s :
  0 <= cap < 2 ^ 32 -> 0 <= size < 2 ^ 32 ->
  NewWithSize emptyKey emptyValue cap size h = Ok s ->
  exists h', h = Some h' /\ 0 < cap <= size /\ size < emptyBucket
    /\ s = initLRU cap size h' (replicate (Z.to_nat size) 0)
         (replicate (Z.to_nat size) (zeroElement emptyKey emptyValue)).
Proof.
  unfold NewWithSize, emptyBucket. intros Hc Hs.
  destruct (decide (cap = 0)); [done|]. destruct (decide (size = _)); [done|].
  destruct (decide (size < cap)); [done|]. destruct h as [h'|]; [|done].
  intros [= <-]. exists h'. split_and!; [done|lia..|done].
Qed.

Lemma cache_step_cap o c : c_cap (cache_step emptyKey emptyValue o c).2 = c_cap c.
Proof.
  destruct o; cbn; try done; unfold store, access, seek; try destruct constructor as [? []];
    repeat (case_match; cbn in *; simplify_eq; try done).
Qed.

Lemma cache_run_cap os c : c_cap (cache_run emptyKey emptyValue os c).2 = c_cap c.
Proof.
  revert c. induction os as [|o os IH]; intros c; [done|]. cbn.
  pose proof (cache_step_cap o c) as E. destruct (cache_step emptyKey emptyValue o c) as [a c1].
  specialize (IH c1). destruct (cache_run emptyKey emptyValue os c1). cbn in *. congruence.
Qed.

(** A run of the API on a new cache. *)
Lemma new_run cap size h s os :
  0 <= cap < 2 ^ 32 -> 0 <= size < 2 ^ 32 -> (forall k, 0 <= h k < 2 ^ 32) ->
  NewWithSize emptyKey emptyValue cap size (Some h) = Ok s ->
  implements (lru_run os) s (cache_run emptyKey emptyValue os (empty_cache cap)).
Proof.
  intros Hc Hs Hh Hnew. apply run_refines.
  destruct (NewWithSize_Ok cap size (Some h) s Hc Hs Hnew) as (h' & [= <-] & H1 & H2 & ->).
  by apply initLRU_rep.
Qed.

Lemma cache_run_app os1 os2 c :
  cache_run emptyKey emptyValue (os1 ++ os2) c
  = let (l1, c1) := cache_run emptyKey emptyValue os1 c in
    let (l2, c2) := cache_run emptyKey emptyValue os2 c1 in (l1 ++ l2, c2).
Proof.
  revert c. induction os1 as [|o os1 IH]; intros c; cbn [app cache_run].
  - by destruct (cache_run emptyKey emptyValue os2 c).
  - destruct (cache_step emptyKey emptyValue o c) as [a c1]. rewrite IH.
    destruct (cache_run emptyKey emptyValue os1 c1) as [l1 c2].
    by destruct (cache_run emptyKey emptyValue os2 c2).
Qed.

(** C1: lru.go implements the abstract cache.  Whatever sequence of exported
    operations runs on a cache that the constructor returned, with whatever hash
    function into uint32, no operation panics and no loop of the code (bucket
    walks, the restart loop of PurgeExpired, the scans) fails to terminate; the
    answers are those of the abstract cache, and so are the final length and the
    sequence of calls the eviction callback has received. *)
Theorem lru_implements_cache cap size h s os :
  0 <= cap < 2 ^ 32 -> 0 <= size < 2 ^ 32 -> (forall k, 0 <= h k < 2 ^ 32) ->
  NewWithSize emptyKey emptyValue cap size (Some h) = Ok s ->
  let (answers, c) := cache_run emptyKey emptyValue os (empty_cache cap) in
  exists s', lru_run os s = Val (answers, s')
    /\ lru_len s' = zlen (c_entries c) /\ evicted_log s' = c_log c.
Proof.
  intros Hc Hs Hh Hnew. destruct (new_run cap size h s os Hc Hs Hh Hnew) as (s' & Hrun & order & HI & HA).
  destruct (cache_run emptyKey emptyValue os (empty_cache cap)) as [l c]. exists s'. split_and!.
  - exact Hrun.
  - symmetry. exact (rep_len _ _ _ HI HA).
  - symmetry. exact (abs_log _ _ _ HA).
Qed.

(** capacity.  After any sequence of operations the cache holds at most
    [cap] entries, no key twice, and every bucket position the code computes
    for a hash is an index of the bucket array. *)
Theorem lru_capacity cap size h s os :
  0 <= cap < 2 ^ 32 -> 0 <= size < 2 ^ 32 -> (forall k, 0 <= h k < 2 ^ 32) ->
  NewWithSize emptyKey emptyValue cap size (Some h) = Ok s ->
  exists answers s', lru_run os s = Val (answers, s')
    /\ 0 <= lru_len s' <= cap
    /\ NoDup (en_key <$> c_entries (cache_run emptyKey emptyValue os (empty_cache cap)).2)
    /\ forall x, 0 <= x < 2 ^ 32 -> is_Some (at_ (buckets s') (hashToBucketPos x s')).
Proof.
  intros Hc Hs Hh Hnew. destruct (new_run cap size h s os Hc Hs Hh Hnew) as (s' & Hrun & order & HI & HA).
  eexists _, s'. split_and!; [exact Hrun|..].
  - rewrite (core_len _ _ (proj1 HI)). apply zlen_nonneg.
  - destruct HI as (_ & _ & Hcap). etransitivity; [exact Hcap|].
    rewrite <- (abs_cap _ _ _ HA). by rewrite cache_run_cap.
  - rewrite (abs_entries _ _ _ HA). apply entries_keys_NoDup, HI.
  - intros x Hx. apply at_is_Some. pose proof (core_config _ _ (proj1 HI)) as Hcfg.
    rewrite (cfg_buckets _ Hcfg). by apply hashToBucketPos_range.
Qed.

(** ** What callers see *)

Lemma find_entry_snoc key es (e : entry K V) :
  find_entry key es = None -> en_key e = key -> find_entry key (es ++ [e]) = Some e.
Proof.
  induction es as [|x es IH]; cbn; intros Hf He; [by rewrite decide_True|].
  destruct (decide (en_key x = key)); [done|auto].
Qed.

Lemma find_entry_tail key es : find_entry key es = None -> find_entry key (tail es) = None.
Proof. destruct es as [|x es]; cbn; [done|]. by destruct (decide _). Qed.

Lemma find_entry_del key es : find_entry (K := K) (V := V) key (del key es) = None.
Proof.
  apply find_entry_None. intros (e & -> & He)%list_elem_of_fmap.
  apply list_elem_of_filter in He as [He _]. done.
Qed.

Lemma store_find now key value lifetime c :
  find_entry key (c_entries (store now key value lifetime c).2)
  = Some (mkEntry key value (expire now lifetime) lifetime).
Proof.
  unfold store. destruct (find_entry key (c_entries c)) eqn:E; cbn.
  - by rewrite find_entry_snoc by (done || apply find_entry_del).
  - destruct (decide _); cbn; rewrite find_entry_snoc; auto using find_entry_tail.
Qed.

Lemma store_hc now key value lifetime c : c_hc (store now key value lifetime c).2 = c_hc c.
Proof. unfold store. destruct (find_entry _ _); [done|]. by destruct (decide _). Qed.

(** an entry that was just added is there.  On a cache in any reachable
    state, Get right after AddWithLifetime answers the added value, provided the
    entry has not expired at the time of the Get and the health check accepts it. *)
Theorem lru_get_after_add cap size h s os now now' key value lifetime :
  0 <= cap < 2 ^ 32 -> 0 <= size < 2 ^ 32 -> (forall k, 0 <= h k < 2 ^ 32) ->
  NewWithSize emptyKey emptyValue cap size (Some h) = Ok s ->
  expired now' (expire now lifetime) = false ->
  healthy (c_hc (cache_run emptyKey emptyValue os (empty_cache cap)).2) key value = true ->
  exists answers evicted s',
    lru_run (os ++ [OAddWithLifetime now key value lifetime; OGet now' key]) s
      = Val (answers ++ [ABool evicted; AValue value true], s').
Proof.
  intros Hc Hs Hh Hnew Hexp Hhealth.
  destruct (new_run cap size h s (os ++ [OAddWithLifetime now key value lifetime; OGet now' key]) Hc Hs Hh Hnew)
    as (s' & Hrun & _).
  rewrite cache_run_app in Hrun. destruct (cache_run emptyKey emptyValue os (empty_cache cap)) as [l c].
  cbn in Hhealth, Hrun.
  pose proof (store_find now key value lifetime c) as Hf. pose proof (store_hc now key value lifetime c) as Hhc.
  destruct (store now key value lifetime c) as [b c1]. cbn in Hf, Hhc, Hrun.
  unfold access, seek, is_expired in Hrun. rewrite Hf, Hhc in Hrun. cbn in Hrun. rewrite Hexp, Hhealth in Hrun.
  cbn in Hrun. by exists l, b, s'.
Qed.

(** Adding fresh keys to the abstract cache keeps the newest [cap] of them. *)
Definition add_all now value (ks : list K) : list (op K V) :=
  OSetOnEvict true :: ((fun k => OAdd now k value) <$> ks).

Lemma add_all_run cap now value (ks : list K) :
  0 < cap -> NoDup ks ->
  let n := (length ks - Z.to_nat cap)%nat in
  exists m, (cache_run emptyKey emptyValue (add_all now value ks) (empty_cache cap)).2
    = mkCache ((fun k => mkEntry k value 0 0) <$> drop n ks) cap 0 true None m
        ((fun k => (k, value)) <$> take n ks).
Proof.
  intros Hcap. induction ks as [|k ks IH] using rev_ind; [by intros _; eexists|].
  intros Hnd. apply NoDup_app in Hnd as (Hnd & Hk & _).
  destruct (IH Hnd) as [m Hc]. cbv zeta. unfold add_all in *.
  rewrite fmap_app, app_comm_cons, cache_run_app.
  destruct (cache_run emptyKey emptyValue _ _) as [l c]. cbn [snd] in Hc. subst c.
  set (n := (length ks - Z.to_nat cap)%nat) in *.
  assert (find_entry k ((fun k => mkEntry k value 0 0) <$> drop n ks) = None) as Hf.
  { apply find_entry_None. rewrite <- list_fmap_compose. intros (x & -> & Hx)%list_elem_of_fmap.
    apply (Hk x); [|by apply list_elem_of_singleton]. rewrite <- (take_drop n ks).
    apply elem_of_app. by right. }
  cbn. unfold store. cbn [c_entries c_cap]. rewrite Hf.
  rewrite length_app. cbn [length]. unfold zlen. rewrite length_fmap, length_drop.
  assert (expire now 0 = 0) as -> by done.
  destruct (decide _) as [E|E]; cbn [snd]; eexists; unfold counted, with_entries, logged;
    cbn [c_entries c_cap c_lifetime c_onEvict c_hc c_metrics c_log]; f_equal.
  - replace (length ks + 1 - Z.to_nat cap)%nat with (n + 1)%nat by lia.
    rewrite drop_app_le by lia. rewrite fmap_app. f_equal.
    rewrite <- drop_drop. by destruct (drop n ks).
  - replace (length ks + 1 - Z.to_nat cap)%nat with (n + 1)%nat by lia.
    rewrite take_app_le by lia. rewrite <- take_take_drop, fmap_app. f_equal. by destruct (drop n ks).
  - replace (length ks + 1 - Z.to_nat cap)%nat with 0%nat by lia. replace n with 0%nat by lia.
    by rewrite !drop_0, fmap_app.
  - replace (length ks + 1 - Z.to_nat cap)%nat with 0%nat by lia. by replace n with 0%nat by lia.
Qed.

(** least recently used.  After adding distinct keys to a new cache, Keys
    lists exactly the newest [cap] of them, from the oldest to the newest, and
    the eviction callback has received the rest in the order of insertion. *)
Theorem lru_keeps_newest cap size h s now now' value (ks : list K) :
  0 <= cap < 2 ^ 32 -> 0 <= size < 2 ^ 32 -> (forall k, 0 <= h k < 2 ^ 32) ->
  NewWithSize emptyKey emptyValue cap size (Some h) = Ok s -> NoDup ks ->
  let n := (length ks - Z.to_nat cap)%nat in
  exists answers s', lru_run (add_all now value ks ++ [OKeys now']) s = Val (answers ++ [AKeys (drop n ks)], s')
    /\ evicted_log s' = (fun k => (k, value)) <$> take n ks.
Proof.
  intros Hc Hs Hh Hnew Hnd n.
  destruct (NewWithSize_Ok cap size (Some h) s Hc Hs Hnew) as (h' & _ & Hcap & _).
  destruct (new_run cap size h s (add_all now value ks ++ [OKeys now']) Hc Hs Hh Hnew)
    as (s' & Hrun & order & _ & HA).
  pose proof (abs_log _ _ _ HA) as Hlog. rewrite cache_run_app in Hrun, Hlog.
  destruct (add_all_run cap now value ks ltac:(lia) Hnd) as [m Hm]. fold n in Hm.
  destruct (cache_run emptyKey emptyValue _ _) as [l c]. cbn [snd] in Hm. subst c.
  cbn [cache_run cache_step] in Hrun, Hlog. rewrite purge_expired_none in Hrun, Hlog.
  2-3: by intros e (k & -> & _)%list_elem_of_fmap.
  exists l, s'. split; [|by rewrite <- Hlog]. rewrite Hrun. cbn.
  by rewrite <- list_fmap_compose, list_fmap_id.
Qed.
End Theorems.

(** ** Witnesses: a cache of two entries in three slots *)

Definition small_hash (k : Z) : Z := u32 k.
Definition small_ops : list (op Z Z) :=
  [OSetOnEvict true; OAdd 10 1 100; OAddWithLifetime 10 4 400 5000000; OGet 11 1; OAdd 12 7 700;
   OGet 13 4; OKeys 20; ORemove 1; OLen].

Lemma lru_implements_cache_witness :
  match NewWithSize 0 0 2 3 (Some small_hash) with
  | Ok s => exists s', lru_run 0 0 small_ops s
      = Val ([AUnit; ABool false; ABool false; AValue 100 true; ABool true; AValue 0 false;
              AKeys [1; 7]; ABool true; ALen 1], s')
      /\ lru_len s' = 1 /\ evicted_log s' = [(4, 400); (1, 100)]
  | Err _ => False
  end.
Proof.
  exact (lru_implements_cache 0 0 2 3 small_hash _ small_ops ltac:(lia) ltac:(lia)
    (fun k => u32_range k) eq_refl).
Defined.

Lemma lru_capacity_witness :
  match NewWithSize 0 0 2 3 (Some small_hash) with
  | Ok s => exists answers s', lru_run 0 0 small_ops s = Val (answers, s') /\ 0 <= lru_len s' <= 2
      /\ NoDup (en_key <$> c_entries (cache_run 0 0 small_ops (empty_cache 2)).2)
      /\ forall x, 0 <= x < 2 ^ 32 -> is_Some (at_ (buckets s') (hashToBucketPos x s'))
  | Err _ => False
  end.
Proof.
  exact (lru_capacity 0 0 2 3 small_hash _ small_ops ltac:(lia) ltac:(lia)
    (fun k => u32_range k) eq_refl).
Defined.

Lemma lru_get_after_add_witness :
  match NewWithSize 0 0 2 3 (Some small_hash) with
  | Ok s => exists answers evicted s',
      lru_run 0 0 (small_ops ++ [OAddWithLifetime 30 9 900 4000000; OGet 33 9]) s
      = Val (answers ++ [ABool evicted; AValue 900 true], s')
  | Err _ => False
  end.
Proof.
  exact (lru_get_after_add 0 0 2 3 small_hash _ small_ops 30 33 9 900 4000000
    ltac:(lia) ltac:(lia) (fun k => u32_range k) eq_refl eq_refl eq_refl).
Defined.

Lemma lru_keeps_newest_witness :
  match NewWithSize 0 0 2 3 (Some small_hash) with
  | Ok s => exists answers s',
      lru_run 0 0 (add_all 10 5 [3; 6; 9; 1] ++ [OKeys 50]) s = Val (answers ++ [AKeys [9; 1]], s')
      /\ evicted_log s' = [(3, 5); (6, 5)]
  | Err _ => False
  end.
Proof.
  apply (lru_keeps_newest 0 0 2 3 small_hash _ 10 50 5 [3; 6; 9; 1] ltac:(lia) ltac:(lia)
    (fun k => u32_range k) eq_refl).
  vm_compute. repeat constructor; set_solver.
Defined.
