(* ===== verification/FreeLRUStable.v ===== *)
(** * The operations of the LRU cache keep its hash function

    A type class of programs that leave the [hash] field alone, closed under the
    control structures of the model; type class search proves it of every
    operation. *)

From S2P Require Import Prelude FreeLRU FreeLRUSpec FreeLRUTheorems.
#[local] Open Scope go_scope.

(** Type class search takes the operations as they are named. *)
#[export] Typeclasses Opaque bind ret gets modify panic elem bucket set_elem set_bucket count setHead
  unlinkElement unlinkBucket evict move insert removeAt toFront walk hashToPos findKey findKeyNoExpire
  addWithLifetime RemoveOldest first_expired PurgeExpired collect_keys Keys remove_oldest_times Purge
  getAndRefreshOrAdd peek get getWithLifetime getWithLifetimeNoExpire getAndRefresh peekWithLifetime
  updateLifetime remove add contains.

Section Stable.
Context {K V : Type} `{EqDecision K, EqDecision V} (emptyKey : K) (emptyValue : V).
Abbreviation LRU := (@LRU K V).

Class HashStable {A} (m : GoM LRU A) : Prop :=
  hash_stable : forall s a s', m s = Val (a, s') -> hash s' = hash s.

#[export] Instance stable_ret {A} (a : A) : HashStable (ret a).
Proof. by intros s b s' [= _ <-]. Qed.
#[export] Instance stable_gets {A} (f : LRU -> A) : HashStable (gets f).
Proof. by intros s b s' [= _ <-]. Qed.
#[export] Instance stable_panic {A} : HashStable (A := A) panic.
Proof. by intros s b s' ?. Qed.
#[export] Instance stable_fuel {A} : HashStable (A := A) (fun _ => OutOfFuel).
Proof. by intros s b s' ?. Qed.
#[export] Instance stable_bind {A B} (m : GoM LRU A) (k : A -> GoM LRU B) :
  HashStable m -> (forall a, HashStable (k a)) -> HashStable (bind m k).
Proof.
  intros Hm Hk s b s' Hr. unfold bind in Hr. destruct (m s) as [[a s1]| |] eqn:E; [|done..].
  rewrite (Hk _ _ _ _ Hr). by apply (Hm _ _ _ E).
Qed.
#[export] Instance stable_elem p : HashStable (elem p).
Proof. intros s a s'. unfold elem, lift. destruct (at_ _ _); [by intros [= _ <-]|done]. Qed.
#[export] Instance stable_bucket p : HashStable (bucket p).
Proof. intros s a s'. unfold bucket, lift. destruct (at_ _ _); [by intros [= _ <-]|done]. Qed.
#[export] Instance stable_set_elem p f : HashStable (set_elem p f).
Proof. intros s a s'. unfold set_elem. destruct (at_ _ _); [by intros [= _ <-]|done]. Qed.
#[export] Instance stable_set_bucket b v : HashStable (set_bucket b v).
Proof. intros s a s'. unfold set_bucket. destruct (set_at _ _ _); [by intros [= _ <-]|done]. Qed.
#[export] Instance stable_with_head h : HashStable (modify (with_head h)).
Proof. by intros s a s' [= _ <-]. Qed.
#[export] Instance stable_with_len (f : LRU -> Z) : HashStable (modify (fun s => with_len (f s) s)).
Proof. by intros s a s' [= _ <-]. Qed.
#[export] Instance stable_with_log (f : LRU -> list (K * V)) : HashStable (modify (fun s => with_log (f s) s)).
Proof. by intros s a s' [= _ <-]. Qed.
#[export] Instance stable_with_metrics m : HashStable (modify (with_metrics m)).
Proof. by intros s a s' [= _ <-]. Qed.
#[export] Instance stable_with_lifetime t : HashStable (modify (with_lifetime t)).
Proof. by intros s a s' [= _ <-]. Qed.
#[export] Instance stable_with_onEvict b : HashStable (modify (with_onEvict b)).
Proof. by intros s a s' [= _ <-]. Qed.
#[export] Instance stable_with_healthCheck h : HashStable (modify (with_healthCheck h)).
Proof. by intros s a s' [= _ <-]. Qed.
#[export] Instance stable_count f : HashStable (count f).
Proof. by intros s a s' [= _ <-]. Qed.
#[export] Instance stable_decide {A} (P : Prop) `{Decision P} (m1 m2 : GoM LRU A) :
  HashStable m1 -> HashStable m2 -> HashStable (if decide P then m1 else m2).
Proof. by destruct (decide P). Qed.
#[export] Instance stable_if {A} (b : bool) (m1 m2 : GoM LRU A) :
  HashStable m1 -> HashStable m2 -> HashStable (if b then m1 else m2).
Proof. by destruct b. Qed.
#[export] Instance stable_option {A B} (o : option B) (m1 : B -> GoM LRU A) (m2 : GoM LRU A) :
  (forall b, HashStable (m1 b)) -> HashStable m2 ->
  HashStable (match o with Some b => m1 b | None => m2 end).
Proof. by destruct o. Qed.
#[export] Instance stable_pair {A B C} (p : A * B) (m : A -> B -> GoM LRU C) :
  (forall a b, HashStable (m a b)) -> HashStable (let '(a, b) := p in m a b).
Proof. by destruct p. Qed.

#[export] Instance stable_setHead p : HashStable (setHead p).
Proof. unfold setHead. apply _. Qed.
#[export] Instance stable_unlinkElement p : HashStable (unlinkElement p).
Proof. unfold unlinkElement. apply _. Qed.
#[export] Instance stable_unlinkBucket p : HashStable (unlinkBucket p).
Proof. unfold unlinkBucket. apply _. Qed.
#[export] Instance stable_evict p : HashStable (evict p).
Proof. unfold evict, call_onEvict. apply _. Qed.
#[export] Instance stable_move p q : HashStable (move p q).
Proof. unfold move. apply _. Qed.
#[export] Instance stable_insert now p k v t : HashStable (insert now p k v t).
Proof. unfold insert. apply _. Qed.
#[export] Instance stable_removeAt p : HashStable (removeAt emptyKey emptyValue p).
Proof. unfold removeAt, clearKeyAndValue. apply _. Qed.
#[export] Instance stable_toFront p : HashStable (toFront p).
Proof. unfold toFront. apply _. Qed.
#[export] Instance stable_walk p k : HashStable (walk p k).
Proof.
  unfold walk. apply stable_bind; [apply _|]. intros n. generalize p at 2 as q.
  induction n as [|n IH]; intros q; cbn [walk_from]; apply _.
Qed.
#[export] Instance stable_hashToPos h : HashStable (hashToPos h).
Proof. unfold hashToPos. apply _. Qed.
#[export] Instance stable_findKey now h k : HashStable (findKey emptyKey emptyValue now h k).
Proof. unfold findKey. apply _. Qed.
#[export] Instance stable_findKeyNoExpire h k : HashStable (findKeyNoExpire emptyKey emptyValue h k).
Proof. unfold findKeyNoExpire. apply _. Qed.
#[export] Instance stable_addWithLifetime now h k v t : HashStable (addWithLifetime now h k v t).
Proof. unfold addWithLifetime. apply _. Qed.
#[export] Instance stable_RemoveOldest : HashStable (RemoveOldest emptyKey emptyValue).
Proof. unfold RemoveOldest. apply _. Qed.
#[export] Instance stable_first_expired k n p : HashStable (first_expired k n p).
Proof. revert p. induction k as [|k IH]; intros p; cbn [first_expired]; apply _. Qed.
#[export] Instance stable_PurgeExpired n : HashStable (PurgeExpired emptyKey emptyValue n).
Proof.
  unfold PurgeExpired. apply stable_bind; [apply _|]. intros l. generalize (S (Z.to_nat l)) as f.
  induction f as [|f IH]; cbn [PurgeExpired_loop]; apply _.
Qed.
#[export] Instance stable_collect_keys k p : HashStable (collect_keys k p).
Proof. revert p. induction k as [|k IH]; intros p; cbn [collect_keys]; apply _. Qed.
#[export] Instance stable_Keys n : HashStable (Keys emptyKey emptyValue n).
Proof. unfold Keys. apply _. Qed.
#[export] Instance stable_remove_oldest_times k : HashStable (remove_oldest_times emptyKey emptyValue k).
Proof. induction k as [|k IH]; cbn [remove_oldest_times]; apply _. Qed.
#[export] Instance stable_Purge : HashStable (Purge emptyKey emptyValue).
Proof. unfold Purge. apply _. Qed.
#[export] Instance stable_getAndRefreshOrAdd now h k f :
  HashStable (getAndRefreshOrAdd emptyKey emptyValue now h k f).
Proof. unfold getAndRefreshOrAdd. apply _. Qed.
#[export] Instance stable_peek now h k : HashStable (peek emptyKey emptyValue now h k).
Proof. unfold peek. apply _. Qed.

#[export] Instance stable_get now h k : HashStable (get emptyKey emptyValue now h k).
Proof. unfold get. apply _. Qed.
#[export] Instance stable_getWithLifetime now h k : HashStable (getWithLifetime emptyKey emptyValue now h k).
Proof. unfold getWithLifetime. apply _. Qed.
#[export] Instance stable_getWithLifetimeNoExpire h k :
  HashStable (getWithLifetimeNoExpire emptyKey emptyValue h k).
Proof. unfold getWithLifetimeNoExpire. apply _. Qed.
#[export] Instance stable_getAndRefresh now h k : HashStable (getAndRefresh emptyKey emptyValue now h k).
Proof. unfold getAndRefresh. apply _. Qed.
#[export] Instance stable_peekWithLifetime now h k : HashStable (peekWithLifetime emptyKey emptyValue now h k).
Proof. unfold peekWithLifetime. apply _. Qed.
#[export] Instance stable_updateLifetime now h k v t : HashStable (updateLifetime now h k v t).
Proof. unfold updateLifetime. apply _. Qed.
#[export] Instance stable_remove h k : HashStable (remove emptyKey emptyValue h k).
Proof. unfold remove. apply _. Qed.
#[export] Instance stable_add now h k v : HashStable (add now h k v).
Proof. unfold add. apply _. Qed.
#[export] Instance stable_contains now h k : HashStable (contains emptyKey emptyValue now h k).
Proof. unfold contains. apply _. Qed.

(** Every exported operation. *)
Lemma stable_step (o : op K V) : HashStable (lru_step emptyKey emptyValue o).
Proof.
  destruct o; cbn [lru_step].
  - unfold SetLifetime. apply _.
  - unfold SetOnEvict. apply _.
  - unfold SetHealthCheck. apply _.
  - unfold Len. apply _.
  - unfold AddWithLifetime. apply _.
  - unfold Add. apply _.
  - unfold Get. apply _.
  - unfold GetWithLifetime. apply _.
  - unfold GetWithLifetimeNoExpire. apply _.
  - unfold GetAndRefresh. apply _.
  - unfold GetAndRefreshOrAdd. apply stable_bind; [|apply _]. apply stable_bind; [apply _|].
    intros h. apply stable_bind; [apply _|]. intros [[v u] ok]. apply _.
  - unfold Peek. apply _.
  - unfold PeekWithLifetime. apply _.
  - unfold UpdateLifetime. apply _.
  - unfold Contains. apply _.
  - unfold Remove. apply _.
  - apply _.
  - apply _.
  - apply _.
  - apply _.
  - unfold ResetMetrics. apply _.
Qed.
End Stable.
