(* ===== verification/Sharded.v ===== *)
(** * The sharded LRU cache: contrab/freelru/shardedlru.go

    A [ShardedLRU] is an array of LRU caches; the high half of a key's hash
    selects the shard.  A single-key method holds the lock of one shard for
    exactly one operation of that shard, so it is one atomic step; the methods
    over all shards lock one shard after the other.  The model runs the
    methods of one caller; Synced.v treats interleaving under a lock. *)

From S2P Require Import Prelude GoBits FreeLRU.
#[local] Open Scope go_scope.

(** ** Sizes *)

Definition nextPowerOfTwo (val : Z) : Z :=
  if decide (OnesCount32 val <> 1) then u32 (Z.shiftl 1 (Len32 val)) else val.

(** [for shards > size/16 { shards /= 16 }]; eight divisions take every uint32 to 0. *)
Fixpoint fewer_shards (fuel : nat) (shards size : Z) : outcome Z :=
  match fuel with
  | O => OutOfFuel
  | S f => if decide (shards > size / 16) then fewer_shards f (shards / 16) size else Val shards
  end.

Section Sharded.
Context {K V : Type} `{EqDecision K, EqDecision V} (emptyKey : K) (emptyValue : V).
Abbreviation LRU := (@LRU K V).
Abbreviation zeroed m := (m emptyKey emptyValue).

Record ShardedLRU := mkSharded {
  lrus : list LRU; sh_hash : K -> Z; sh_shards : Z; sh_mask : Z }.
Definition with_lrus l st := mkSharded l (sh_hash st) (sh_shards st) (sh_mask st).
Abbreviation M := (GoM ShardedLRU).

(** The shards over consecutive pieces of the two arrays, from position [from] on. *)
Fixpoint init_shards (n : nat) (capacity size : Z) (hash : K -> Z) (buckets : list Z)
    (elements : list (@element K V)) (from : Z) : list LRU :=
  match n with
  | O => []
  | S n' =>
      initLRU capacity size hash (ztake size (zdrop from buckets)) (ztake size (zdrop from elements))
        :: init_shards n' capacity size hash buckets elements (from + size)
  end.

Definition NewShardedWithSize (shards capacity size : Z) (hash : K -> Z) : outcome (result ShardedLRU) :=
  if decide (capacity = 0) then Val (Err (ErrNew "capacity must be positive"))
  else if decide (size < capacity) then Val (Err (ErrNew "size is smaller than capacity"))
  else
    let size := if decide (size < Z.shiftl 1 31) then nextPowerOfTwo size else Z.shiftl 1 31 in
    let shards := nextPowerOfTwo shards in
    let! shards := fewer_shards 9 shards size in
    let shards := if decide (shards = 0) then 1 else shards in
    let size := size / shards in
    let size := if decide (size = 0) then 1 else size in
    let capacity := u32 (capacity + shards - 1) / shards in
    let capacity := if decide (capacity = 0) then 1 else capacity in
    let buckets := replicate (Z.to_nat (u32 (size * shards))) 0 in
    let elements := replicate (Z.to_nat (u32 (size * shards))) (zeroed zeroElement) in
    Val (Ok (mkSharded (init_shards (Z.to_nat shards) capacity size hash buckets elements 0)
               hash shards (u32 (shards - 1)))).

(** NewSharded: [procs] is GOMAXPROCS, [size] the capacity times 1.25 rounded
    down ([capacity * 1.25] is exact in float64 for every uint32). *)
Definition NewSharded (procs capacity : Z) (hash : K -> Z) : outcome (result ShardedLRU) :=
  let size := u32 (capacity * 5 / 4) in
  NewShardedWithSize (u32 (procs * 16)) capacity size hash.

(** ** Running a shard's operation *)

Definition at_shard {A} (i : Z) (m : GoM LRU A) : M A := fun st =>
  match at_ (lrus st) i with
  | None => Panic
  | Some l =>
      match m l with
      | Val (a, l') => Val (a, with_lrus (<[Z.to_nat i := l']> (lrus st)) st)
      | Panic => Panic
      | OutOfFuel => OutOfFuel
      end
  end.

(** [shard := (hash >> 16) & lru.mask]. *)
Definition shard_of (h : Z) (st : ShardedLRU) : Z := Z.land (Z.shiftr h 16) (sh_mask st).

Definition on_key {A} (key : K) (m : Z -> GoM LRU A) : M A :=
  h <- gets (fun st => sh_hash st key) ;;
  i <- gets (shard_of h) ;;
  at_shard i (m h).

(** [for shard := range lru.lrus]. *)
Fixpoint each_shard {A} (k : nat) (i : Z) (f : Z -> GoM LRU A) : M (list A) :=
  match k with
  | O => ret []
  | S k' => a <- at_shard i (f i) ;; l <- each_shard k' (i + 1) f ;; ret (a :: l)
  end.
Definition for_shards {A} (f : Z -> GoM LRU A) : M (list A) :=
  n <- gets (fun st => length (lrus st)) ;; each_shard n 0 f.

(** ** The methods *)

Definition SetLifetime (lifetime : Z) : M unit := for_shards (fun _ => FreeLRU.SetLifetime lifetime) ;; ret tt.
Definition SetOnEvict (installed : bool) : M unit := for_shards (fun _ => FreeLRU.SetOnEvict installed) ;; ret tt.
Definition SetHealthCheck (hc : option (K -> V -> bool)) : M unit :=
  for_shards (fun _ => FreeLRU.SetHealthCheck hc) ;; ret tt.

Definition Len : M Z := ns <- for_shards (fun _ => FreeLRU.Len) ;; ret (foldl (fun a n => i64 (a + n)) 0 ns).

Definition AddWithLifetime (now : Z) (key : K) (value : V) (lifetime : Z) : M bool :=
  on_key key (fun h => addWithLifetime now h key value lifetime).
Definition Add (now : Z) (key : K) (value : V) : M bool := on_key key (fun h => add now h key value).
Definition Get (now : Z) (key : K) : M (V * bool) := on_key key (fun h => zeroed get now h key).
Definition GetWithLifetime (now : Z) (key : K) : M (V * option Z * bool) :=
  on_key key (fun h => zeroed getWithLifetime now h key).
Definition GetWithLifetimeNoExpire (key : K) : M (V * option Z * bool) :=
  on_key key (fun h => zeroed getWithLifetimeNoExpire h key).
Definition GetAndRefresh (now : Z) (key : K) : M (V * bool) :=
  on_key key (fun h => zeroed getAndRefresh now h key).
Definition Peek (now : Z) (key : K) : M (V * bool) := on_key key (fun h => zeroed peek now h key).
Definition PeekWithLifetime (now : Z) (key : K) : M (V * option Z * bool) :=
  on_key key (fun h => zeroed peekWithLifetime now h key).
Definition UpdateLifetime (now : Z) (key : K) (value : V) (lifetime : Z) : M bool :=
  on_key key (fun h => updateLifetime now h key value lifetime).
Definition Contains (now : Z) (key : K) : M bool := on_key key (fun h => zeroed contains now h key).
Definition Remove (key : K) : M bool := on_key key (fun h => zeroed remove h key).

(** The named result [key] is the zero key when its hash is taken. *)
Definition RemoveOldest : M (K * V * bool) := on_key emptyKey (fun _ => zeroed FreeLRU.RemoveOldest).

(** [now i] is the clock when shard [i] is purged. *)
Definition PurgeExpired (now : Z -> Z) : M unit :=
  for_shards (fun i => zeroed FreeLRU.PurgeExpired (now i)) ;; ret tt.

Definition GetAndRefreshOrAdd (now : Z) (now' : Z -> Z) (key : K) (constructor : V * bool)
    : M (V * bool * bool) :=
  r <- on_key key (fun h => zeroed getAndRefreshOrAdd now h key constructor) ;;
  let '(value, updated, ok) := r in
  (if negb updated && ok then PurgeExpired now' else ret tt) ;;
  ret (value, updated, ok).

(** [make([]K, 0, lru.shards*lru.lrus[0].cap)] reads the first shard. *)
Definition Keys (now : Z -> Z) : M (list K) :=
  at_shard 0 (gets lru_cap) ;;
  ks <- for_shards (fun i => zeroed FreeLRU.Keys (now i)) ;; ret (concat ks).

Definition Purge : M unit := for_shards (fun _ => zeroed FreeLRU.Purge) ;; ret tt.

Definition addMetrics (dst src : Metrics) : Metrics :=
  mkMetrics (u64 (Inserts dst + Inserts src)) (u64 (Collisions dst + Collisions src))
    (u64 (Evictions dst + Evictions src)) (u64 (Removals dst + Removals src))
    (u64 (Hits dst + Hits src)) (u64 (Misses dst + Misses src)).

Definition GetMetrics : M Metrics :=
  ms <- for_shards (fun _ => FreeLRU.GetMetrics) ;; ret (foldl addMetrics zeroMetrics ms).
Definition ResetMetrics : M Metrics :=
  ms <- for_shards (fun _ => FreeLRU.ResetMetrics) ;; ret (foldl addMetrics zeroMetrics ms).
End Sharded.
