(* ===== verification/ShardedTheorems.v ===== *)
(** * The sharded LRU cache implements an array of abstract caches

    Every method of Sharded.v is the same method of the abstract cache that the
    key's hash selects, or the method of all of them in turn. *)

From S2P Require Import Prelude GoBits Ring FreeLRU FreeLRUSpec FreeLRUInv FreeLRUInsert FreeLRURefine FreeLRUTheorems FreeLRUStable Sharded.
#[local] Open Scope go_scope.

(** The methods of the exported API; [nows] are the clocks of the shards. *)
Inductive sop {K V : Type} :=
  | SSetLifetime (lifetime : Z)
  | SSetOnEvict (installed : bool)
  | SSetHealthCheck (hc : option (K -> V -> bool))
  | SLen
  | SAddWithLifetime (now : Z) (key : K) (value : V) (lifetime : Z)
  | SAdd (now : Z) (key : K) (value : V)
  | SGet (now : Z) (key : K)
  | SGetWithLifetime (now : Z) (key : K)
  | SGetWithLifetimeNoExpire (key : K)
  | SGetAndRefresh (now : Z) (key : K)
  | SGetAndRefreshOrAdd (now : Z) (nows : Z -> Z) (key : K) (constructor : V * bool)
  | SPeek (now : Z) (key : K)
  | SPeekWithLifetime (now : Z) (key : K)
  | SUpdateLifetime (now : Z) (key : K) (value : V) (lifetime : Z)
  | SContains (now : Z) (key : K)
  | SRemove (key : K)
  | SRemoveOldest
  | SKeys (nows : Z -> Z)
  | SPurge
  | SPurgeExpired (nows : Z -> Z)
  | SResetMetrics.
Arguments sop : clear implicits.

(** ** Powers of two *)

Definition pow2 (x : Z) : Prop := exists k, 0 <= k <= 31 /\ x = 2 ^ k.

Lemma nextPowerOfTwo_spec val :
  0 <= val < 2 ^ 32 ->
  (val <= 2 ^ 31 -> pow2 (nextPowerOfTwo val) /\ val <= nextPowerOfTwo val)
  /\ (2 ^ 31 < val -> nextPowerOfTwo val = 0).
Proof.
  intros Hv. unfold nextPowerOfTwo, Len32. destruct (decide (OnesCount32 val <> 1)) as [Hne|He%dec_stable].
  - destruct (decide (val <= 0)).
    { split; [|lia]. intros _. assert (val = 0) as -> by lia. split; [|done]. by exists 0. }
    pose proof (Z.log2_spec val ltac:(lia)) as Hl. rewrite Z.shiftl_1_l. split; intros Hc.
    + assert (val <> 2 ^ 31) by (intros ->; by apply Hne).
      assert (Z.log2 val < 31) by (apply Z.log2_lt_pow2; lia). pose proof (Z.log2_nonneg val).
      unfold pow2. rewrite u32_small; [split; [exists (Z.log2 val + 1)|]; lia|].
      split; [lia|]. apply Z.pow_lt_mono_r; lia.
    + assert (Z.log2 val = 31) as ->; [|done]. apply Z.log2_unique; lia.
  - destruct (popcount_1 32 val ltac:(lia) He) as (k & Hk & ->). split; [intros; split; [|lia]; exists k; lia|].
    intros Hc%Z.pow_lt_mono_r_iff; lia.
Qed.

(** The loop that reduces the number of shards returns within its fuel. *)
Lemma fewer_shards_spec f shards size :
  0 <= size -> shards = 0 \/ pow2 shards -> shards < 2 ^ (4 * Z.of_nat f) ->
  exists n, fewer_shards (S f) shards size = Val n /\ n <= size / 16 /\ (n = 0 \/ pow2 n) /\ n <= shards.
Proof.
  intros Hs. revert shards. induction f as [|f IH]; intros shards Hp Hb.
  - assert (0 <= shards) as H0 by (destruct Hp as [->|(k & Hk & ->)]; [done|apply Z.pow_nonneg; lia]).
    change (2 ^ (4 * Z.of_nat 0)) with 1 in Hb. assert (shards = 0) as -> by lia.
    pose proof (Z.div_pos size 16). exists 0. cbn. rewrite decide_False by lia. split_and!; [done|lia|by left|done].
  - rewrite Nat2Z.inj_succ, Z.mul_succ_r, Z.pow_add_r in Hb by lia. cbn [fewer_shards].
    destruct (decide (shards > size / 16)) as [Hgt|Hle]; [|exists shards; split_and!; [done|lia|done|done]].
    destruct (IH (shards / 16)) as (n & Hn & Hle & Hpn & Hln).
    + destruct Hp as [->|(k & Hk & ->)]; [by left|]. destruct (decide (4 <= k)).
      * right. exists (k - 4). rewrite Z.pow_sub_r by lia. split; [lia|done].
      * left. apply Z.div_small. split; [apply Z.pow_nonneg; lia|]. apply (Z.pow_lt_mono_r 2 k 4); lia.
    + apply Z.div_lt_upper_bound; lia.
    + exists n. split_and!; [done..|]. etransitivity; [exact Hln|].
      apply Z.div_le_upper_bound; [lia|]. pose proof (Z.div_pos size 16). lia.
Qed.

Section ShardedTheorems.
Context {K V : Type} `{EqDecision K, EqDecision V} (emptyKey : K) (emptyValue : V).
Abbreviation LRU := (@LRU K V).
Abbreviation cache := (cache K V).
Abbreviation ShardedLRU := (@ShardedLRU K V).
Abbreviation Rep := (@Rep K V emptyKey emptyValue).
Abbreviation implements := (@implements K V emptyKey emptyValue).
Abbreviation zeroed m := (m emptyKey emptyValue).
Implicit Types (st : ShardedLRU) (c : cache) (cs : list cache) (key : K).

Definition sharded_step (o : sop K V) : GoM ShardedLRU (answer K V) :=
  match o with
  | SSetLifetime t => SetLifetime t ;; ret AUnit
  | SSetOnEvict b => SetOnEvict b ;; ret AUnit
  | SSetHealthCheck h => SetHealthCheck h ;; ret AUnit
  | SLen => n <- Len ;; ret (ALen n)
  | SAddWithLifetime now k v t => b <- AddWithLifetime now k v t ;; ret (ABool b)
  | SAdd now k v => b <- Add now k v ;; ret (ABool b)
  | SGet now k => r <- zeroed Get now k ;; ret (AValue r.1 r.2)
  | SGetWithLifetime now k => r <- zeroed GetWithLifetime now k ;; ret (ATimed r.1.1 r.1.2 r.2)
  | SGetWithLifetimeNoExpire k =>
      r <- zeroed GetWithLifetimeNoExpire k ;; ret (ATimed r.1.1 r.1.2 r.2)
  | SGetAndRefresh now k => r <- zeroed GetAndRefresh now k ;; ret (AValue r.1 r.2)
  | SGetAndRefreshOrAdd now nows k f =>
      r <- zeroed GetAndRefreshOrAdd now nows k f ;; ret (AAdded r.1.1 r.1.2 r.2)
  | SPeek now k => r <- zeroed Peek now k ;; ret (AValue r.1 r.2)
  | SPeekWithLifetime now k => r <- zeroed PeekWithLifetime now k ;; ret (ATimed r.1.1 r.1.2 r.2)
  | SUpdateLifetime now k v t => b <- UpdateLifetime now k v t ;; ret (ABool b)
  | SContains now k => b <- zeroed Contains now k ;; ret (ABool b)
  | SRemove k => b <- zeroed Remove k ;; ret (ABool b)
  | SRemoveOldest => r <- zeroed RemoveOldest ;; ret (AOldest r.1.1 r.1.2 r.2)
  | SKeys nows => ks <- zeroed Keys nows ;; ret (AKeys ks)
  | SPurge => zeroed Purge ;; ret AUnit
  | SPurgeExpired nows => zeroed PurgeExpired nows ;; ret AUnit
  | SResetMetrics => ResetMetrics ;; ret AUnit
  end.

(** *** The abstract array of caches *)

Section Spec.
Context (h : K -> Z) (mask : Z).

(** The cache that holds [key]. *)
Definition home (key : K) : nat := Z.to_nat (Z.land (Z.shiftr (h key) 16) mask).

Definition home_step (key : K) (o : op K V) cs : answer K V * list cache :=
  match cs !! home key with
  | Some c => let (a, c') := cache_step emptyKey emptyValue o c in (a, <[home key := c']> cs)
  | None => (AUnit, cs)
  end.

(** The same operation on every cache. *)
Definition every (f : Z -> cache -> cache) cs : list cache := imap (fun i c => f (Z.of_nat i) c) cs.
Definition every_step (o : op K V) cs : list cache :=
  every (fun _ c => (cache_step emptyKey emptyValue o c).2) cs.
Definition purge_all (nows : Z -> Z) cs : list cache := every (fun i => purge_expired (nows i)) cs.

Definition caches_step (o : sop K V) cs : answer K V * list cache :=
  match o with
  | SSetLifetime t => (AUnit, every_step (OSetLifetime t) cs)
  | SSetOnEvict b => (AUnit, every_step (OSetOnEvict b) cs)
  | SSetHealthCheck hc => (AUnit, every_step (OSetHealthCheck hc) cs)
  | SLen => (ALen (foldr Z.add 0 ((fun c => zlen (c_entries c)) <$> cs)), cs)
  | SAddWithLifetime now k v t => home_step k (OAddWithLifetime now k v t) cs
  | SAdd now k v => home_step k (OAdd now k v) cs
  | SGet now k => home_step k (OGet now k) cs
  | SGetWithLifetime now k => home_step k (OGetWithLifetime now k) cs
  | SGetWithLifetimeNoExpire k => home_step k (OGetWithLifetimeNoExpire k) cs
  | SGetAndRefresh now k => home_step k (OGetAndRefresh now k) cs
  | SGetAndRefreshOrAdd now nows k (v, ok) =>
      match cs !! home k with
      | None => (AUnit, cs)
      | Some c =>
          match access None k c with
          | (Some e, c') => (AAdded (en_value e) true true, <[home k := touch (refreshed now e) c']> cs)
          | (None, c') =>
              if ok : bool
              then (AAdded v false true,
                    purge_all nows (<[home k := (store now k v (c_lifetime c') c').2]> cs))
              else (AAdded v false false, <[home k := c']> cs)
          end
      end
  | SPeek now k => home_step k (OPeek now k) cs
  | SPeekWithLifetime now k => home_step k (OPeekWithLifetime now k) cs
  | SUpdateLifetime now k v t => home_step k (OUpdateLifetime now k v t) cs
  | SContains now k => home_step k (OContains now k) cs
  | SRemove k => home_step k (ORemove k) cs
  | SRemoveOldest => home_step emptyKey ORemoveOldest cs
  | SKeys nows =>
      let cs' := purge_all nows cs in
      (AKeys (concat ((fun c => en_key <$> c_entries c) <$> cs')), cs')
  | SPurge => (AUnit, every_step OPurge cs)
  | SPurgeExpired nows => (AUnit, purge_all nows cs)
  | SResetMetrics => (AUnit, every_step OResetMetrics cs)
  end.

Fixpoint caches_run (os : list (sop K V)) cs : list (answer K V) * list cache :=
  match os with
  | [] => ([], cs)
  | o :: os => let (a, cs1) := caches_step o cs in
               let (l, cs2) := caches_run os cs1 in (a :: l, cs2)
  end.
End Spec.

Fixpoint sharded_run (os : list (sop K V)) : GoM ShardedLRU (list (answer K V)) :=
  match os with
  | [] => ret []
  | o :: os => a <- sharded_step o ;; l <- sharded_run os ;; ret (a :: l)
  end.

(** *** Representation *)

Record ShardedRep st cs : Prop := {
  srep_lrus : Forall2 (fun l c => Rep l c /\ hash l = sh_hash st) (lrus st) cs;
  srep_len : 0 < zlen (lrus st) <= 2 ^ 28;
  srep_home : forall key, (home (sh_hash st) (sh_mask st) key < length (lrus st))%nat;
  srep_mask : 0 <= sh_mask st;
  srep_hash : forall key, 0 <= sh_hash st key < 2 ^ 32;
}.

(** [m] answers and moves the state as [r] says; the routing does not change. *)
Definition simplements {A} (m : GoM ShardedLRU A) st (r : A * list cache) : Prop :=
  exists st', m st = Val (r.1, st') /\ ShardedRep st' r.2
    /\ sh_hash st' = sh_hash st /\ sh_mask st' = sh_mask st.

Definition kept (h : K -> Z) (l : LRU) (c : cache) : Prop := Rep l c /\ hash l = h.

Lemma srep_update st cs lrus' cs' :
  ShardedRep st cs -> Forall2 (kept (sh_hash st)) lrus' cs' -> length lrus' = length (lrus st) ->
  ShardedRep (with_lrus lrus' st) cs'.
Proof.
  intros [] Hf Hl. split; unfold zlen in *; cbn; rewrite ?Hl; done.
Qed.

Lemma at_shard_run {A} st i (m : GoM LRU A) l a l' :
  at_ (lrus st) i = Some l -> m l = Val (a, l') ->
  at_shard i m st = Val (a, with_lrus (<[Z.to_nat i := l']> (lrus st)) st).
Proof. intros Hi Hm. unfold at_shard. by rewrite Hi, Hm. Qed.

Lemma on_key_run {A} st cs key (m : Z -> GoM LRU A) (r : cache -> A * cache) :
  ShardedRep st cs ->
  (forall l c, Rep l c -> implements (m (hash l key)) l (r c)) -> (forall x, HashStable (m x)) ->
  exists c, cs !! home (sh_hash st) (sh_mask st) key = Some c
    /\ simplements (on_key key m) st ((r c).1, <[home (sh_hash st) (sh_mask st) key := (r c).2]> cs).
Proof.
  intros HS Hm Hst. pose proof (srep_home _ _ HS key) as Hlt.
  destruct (lookup_lt_is_Some_2 _ _ Hlt) as [l Hl].
  destruct (Forall2_lookup_l _ _ _ _ _ (srep_lrus _ _ HS) Hl) as (c & Hc & HR & Hh).
  exists c. split; [done|]. destruct (Hm l c HR) as (l' & Hrun & HR').
  set (i := Z.land (Z.shiftr (sh_hash st key) 16) (sh_mask st)).
  assert (0 <= i) as Hi by (apply Z.land_nonneg; right; by apply HS).
  assert (at_ (lrus st) i = Some l) as Hat by (unfold at_; by rewrite decide_True).
  rewrite Hh in Hrun. eexists. split.
  - unfold on_key. rewrite bind_gets, bind_gets. apply (at_shard_run st i _ l _ l' Hat Hrun).
  - split; [|done]. apply (srep_update st cs); [done| |by rewrite length_insert].
    apply Forall2_insert; [apply HS|]. split; [done|]. rewrite <- Hh. by apply (Hst _ _ _ _ Hrun).
Qed.

Lemma each_shard_run {A} (f : Z -> GoM LRU A) (r : Z -> cache -> A * cache) h rest crest :
  (forall i l c, Rep l c -> implements (f i) l (r i c)) -> (forall i, HashStable (f i)) ->
  Forall2 (kept h) rest crest ->
  forall st pre, lrus st = pre ++ rest ->
  exists rest', each_shard (length rest) (zlen pre) f st
      = Val (imap (fun j c => (r (zlen pre + Z.of_nat j) c).1) crest, with_lrus (pre ++ rest') st)
    /\ Forall2 (kept h) rest' (imap (fun j c => (r (zlen pre + Z.of_nat j) c).2) crest).
Proof.
  intros Hf Hst. induction 1 as [|l c rest crest [HR Hh] _ IH]; intros st pre Hpre.
  - exists []. split; [|constructor]. cbn. rewrite <- Hpre. by destruct st.
  - destruct (Hf (zlen pre) l c HR) as (l' & Hrun & HR').
    destruct (IH (with_lrus (pre ++ l' :: rest) st) (pre ++ [l'])) as (rest' & Hrun' & Hall).
    { cbn. by rewrite <- app_assoc. }
    exists (l' :: rest'). cbn [length each_shard imap].
    assert (at_ (lrus st) (zlen pre) = Some l) as Hat.
    { rewrite Hpre. unfold at_, zlen. rewrite decide_True by lia. by rewrite Nat2Z.id, list_lookup_middle. }
    rewrite (bind_run _ _ _ _ _ (at_shard_run st (zlen pre) _ l _ l' Hat Hrun)).
    assert (<[Z.to_nat (zlen pre):=l']> (lrus st) = pre ++ l' :: rest) as ->.
    { rewrite Hpre. unfold zlen. rewrite Nat2Z.id. by rewrite insert_app_r_alt, Nat.sub_diag by lia. }
    replace (zlen pre + 1) with (zlen (pre ++ [l'])) by (by rewrite zlen_app).
    rewrite (bind_run _ _ _ _ _ Hrun'). rewrite Z.add_0_r.
    assert (forall B (g : Z -> cache -> B), imap (fun j c => g (zlen (pre ++ [l']) + Z.of_nat j) c) crest
      = imap ((fun j c => g (zlen pre + Z.of_nat j) c) ∘ S) crest) as Heq.
    { intros B g. apply imap_ext. intros j x _. cbn. f_equal. rewrite zlen_app, zlen_cons, zlen_nil. lia. }
    rewrite <- !(Heq _ (fun i c => (r i c).1)). rewrite <- (Heq _ (fun i c => (r i c).2)).
    split; [|constructor; [split; [done|]|done]].
    + unfold ret. cbn. by rewrite <- app_assoc.
    + rewrite <- Hh. by apply (Hst _ _ _ _ Hrun).
Qed.

Lemma for_shards_run {A} st cs (f : Z -> GoM LRU A) (r : Z -> cache -> A * cache) :
  ShardedRep st cs ->
  (forall i l c, Rep l c -> implements (f i) l (r i c)) -> (forall i, HashStable (f i)) ->
  simplements (for_shards f) st
    (imap (fun j c => (r (Z.of_nat j) c).1) cs, every (fun i c => (r i c).2) cs).
Proof.
  intros HS Hf Hst. destruct (each_shard_run f r (sh_hash st) (lrus st) cs Hf Hst (srep_lrus _ _ HS) st [] eq_refl)
    as (rest' & Hrun & Hall).
  exists (with_lrus rest' st). split; [exact Hrun|]. split; [|done].
  apply (srep_update st cs); [done|exact Hall|].
  rewrite (Forall2_length _ _ _ Hall), length_imap. symmetry. apply (Forall2_length _ _ _ (srep_lrus _ _ HS)).
Qed.

Lemma simplements_map {A B} (m : GoM ShardedLRU A) (g : A -> B) st (r : A * list cache) :
  simplements m st r -> simplements (x <- m ;; ret (g x)) st (g r.1, r.2).
Proof. intros (st' & Hm & HR). exists st'. by rewrite (bind_run _ _ _ _ _ Hm). Qed.

Lemma simplements_bind {A B} (m : GoM ShardedLRU A) (k : A -> GoM ShardedLRU B) st
    (r : A * list cache) (r' : B * list cache) :
  simplements m st r ->
  (forall st', ShardedRep st' r.2 -> simplements (k r.1) st' r') -> simplements (bind m k) st r'.
Proof.
  intros (st1 & Hm & HR & E1 & E2) Hk. destruct (Hk st1 HR) as (st2 & Hrun & HR2 & E3 & E4).
  exists st2. rewrite (bind_run _ _ _ _ _ Hm). split_and!; congruence || done.
Qed.

(** *** The methods *)

Lemma on_key_map {A B} key (m : Z -> GoM LRU A) (g : A -> B) st :
  (x <- on_key key m ;; ret (g x)) st = on_key key (fun h => x <- m h ;; ret (g x)) st.
Proof.
  unfold on_key. rewrite bind_bind, !bind_gets, bind_bind, !bind_gets. unfold at_shard, bind.
  destruct (at_ (lrus st) _) as [l|]; [|done]. by destruct (m _ l) as [[a l']| |].
Qed.

(** A single-key method is the method of the key's cache. *)
Lemma home_refines {A} (o : op K V) key (m : Z -> GoM LRU A) (g : A -> answer K V) st cs :
  ShardedRep st cs ->
  (forall l, lru_step emptyKey emptyValue o l = (x <- m (hash l key) ;; ret (g x)) l) ->
  (forall x, HashStable (m x)) ->
  simplements (x <- on_key key m ;; ret (g x)) st (home_step (sh_hash st) (sh_mask st) key o cs).
Proof.
  intros HS Ho Hst.
  destruct (on_key_run st cs key (fun h => x <- m h ;; ret (g x)) (cache_step emptyKey emptyValue o) HS)
    as (c & Hc & Himp).
  - intros l c HR. destruct (step_refines emptyKey emptyValue l c o HR) as (l' & Hrun & HR').
    exists l'. by rewrite <- Ho.
  - intros x. apply _.
  - unfold home_step. rewrite Hc. destruct (cache_step emptyKey emptyValue o c) as [a c'].
    destruct Himp as (st' & Hrun & HS' & E). exists st'. by rewrite on_key_map.
Qed.

Lemma each_shard_map {A B} k i (f : Z -> GoM LRU A) (g : A -> B) st :
  (l <- each_shard k i f ;; ret (g <$> l)) st = each_shard k i (fun j => x <- f j ;; ret (g x)) st.
Proof.
  revert i st. induction k as [|k IH]; intros i st; [done|]. cbn [each_shard].
  unfold bind, at_shard, ret in *. destruct (at_ (lrus st) i) as [l|]; [|done].
  destruct (f i l) as [[a l']| |]; [|done..]. cbn. rewrite <- IH.
  by destruct (each_shard k (i + 1) f _) as [[]| |].
Qed.

(** A method over all shards is the method of every cache. *)
Lemma every_refines {A} (o : op K V) (f : Z -> GoM LRU A) st cs :
  ShardedRep st cs ->
  (forall i l, lru_step emptyKey emptyValue o l = (f i ;; ret (@AUnit K V)) l) ->
  (forall i, HashStable (f i)) ->
  simplements (for_shards f ;; ret (@AUnit K V)) st (AUnit, every_step o cs).
Proof.
  intros HS Ho Hst.
  destruct (for_shards_run st cs (fun i => f i ;; ret (@AUnit K V)) (fun _ => cache_step emptyKey emptyValue o) HS)
    as (st' & Hrun & HS' & E).
  - intros i l c HR. destruct (step_refines emptyKey emptyValue l c o HR) as (l' & Hrun & HR').
    exists l'. by rewrite <- Ho.
  - intros i. apply _.
  - exists st'. split; [|done]. cbn [fst snd] in *. unfold for_shards in *. rewrite bind_bind, bind_gets.
    rewrite bind_gets, <- (each_shard_map _ _ _ (fun _ => @AUnit K V)) in Hrun.
    unfold bind, ret in *. destruct (each_shard _ _ _ _) as [[]| |]; [by injection Hrun as _ ->|done..].
Qed.

Lemma PurgeExpired_all st cs nows :
  ShardedRep st cs -> simplements (zeroed PurgeExpired nows) st (tt, purge_all nows cs).
Proof.
  intros HS. apply (simplements_map _ (fun _ => tt) _
    (imap (fun _ _ => tt) cs, purge_all nows cs)).
  apply (for_shards_run st cs _ (fun i c => (tt, purge_expired (nows i) c)) HS).
  - intros i l c. apply PurgeExpired_refines.
  - intros i. apply _.
Qed.

Lemma rep_len_bound l c : Rep l c -> 0 <= zlen (c_entries c) < 2 ^ 32.
Proof.
  intros (order & HI & HA). rewrite (rep_len _ _ _ HI HA). destruct HI as (HC & _ & Hcap).
  rewrite (core_len _ _ HC) in *. pose proof (zlen_nonneg order).
  destruct (core_config _ _ HC). unfold emptyBucket in *. lia.
Qed.

Lemma sum_of_lengths (ns : list Z) : forall a,
  Forall (fun n => 0 <= n < 2 ^ 32) ns -> 0 <= a -> a + zlen ns * 2 ^ 32 < 2 ^ 63 ->
  foldl (fun a n => i64 (a + n)) a ns = a + foldr Z.add 0 ns.
Proof.
  induction ns as [|n ns IH]; intros a Hns Ha Hb; cbn; [lia|].
  apply Forall_cons in Hns as [Hn Hns]. rewrite zlen_cons in Hb. pose proof (zlen_nonneg ns).
  rewrite i64_small by lia. rewrite IH by (done || lia). lia.
Qed.

Lemma Len_refines st cs :
  ShardedRep st cs ->
  simplements Len st (foldr Z.add 0 ((fun c => zlen (c_entries c)) <$> cs), cs).
Proof.
  intros HS.
  assert (Forall (fun n => 0 <= n < 2 ^ 32) ((fun c => zlen (c_entries c)) <$> cs)) as Hb.
  { apply Forall_fmap. pose proof (srep_lrus _ _ HS) as Hf. clear HS.
    induction Hf as [|l c ls cs' [HR _]]; constructor; [|done].
    by apply (rep_len_bound l). }
  assert (zlen cs <= 2 ^ 28) as Hl.
  { unfold zlen. rewrite <- (Forall2_length _ _ _ (srep_lrus _ _ HS)). apply HS. }
  pose proof (simplements_map (for_shards (fun _ => FreeLRU.Len)) (fun ns => foldl (fun a n => i64 (a + n)) 0 ns) _ _
    (for_shards_run st cs (fun _ => FreeLRU.Len) (fun _ c => (zlen (c_entries c), c)) HS
       ltac:(intros i l c HR; pose proof HR as (order & HI & HA); exists l; cbn; by rewrite (rep_len _ _ _ HI HA))
       ltac:(intros i; unfold FreeLRU.Len; apply _))) as Hrun.
  cbn [fst snd] in Hrun. unfold every in Hrun.
  rewrite !imap_plain, list_fmap_id in Hrun.
  rewrite sum_of_lengths in Hrun; [exact Hrun|done|done|]. unfold zlen in *. rewrite length_fmap. lia.
Qed.

Lemma Keys_all st cs nows :
  ShardedRep st cs ->
  simplements (zeroed Keys nows) st
    (concat ((fun c => en_key <$> c_entries c) <$> purge_all nows cs), purge_all nows cs).
Proof.
  intros HS. unfold Keys. destruct (lookup_lt_is_Some_2 (lrus st) 0) as [l Hl].
  { pose proof (srep_len _ _ HS). unfold zlen in *. lia. }
  assert (at_shard 0 (gets lru_cap) st = Val (lru_cap l, st)) as Hcap.
  { rewrite (at_shard_run st 0 _ l (lru_cap l) l Hl eq_refl). rewrite list_insert_id by done. by destruct st. }
  pose proof (simplements_map _ (@concat K) _ _ (for_shards_run st cs _
    (fun i c => (en_key <$> c_entries (purge_expired (nows i) c), purge_expired (nows i) c)) HS
    (fun i l c => Keys_refines (nows i) l c) ltac:(intros i; apply _))) as (st' & Hrun & HS').
  exists st'. rewrite (bind_run _ _ _ _ _ Hcap), Hrun. split; [|exact HS']. cbn [fst].
  do 3 f_equal. unfold purge_all, every. rewrite fmap_imap. done.
Qed.

Lemma GetAndRefreshOrAdd_all st cs now nows key v (ok : bool) :
  ShardedRep st cs ->
  simplements (r <- zeroed GetAndRefreshOrAdd now nows key (v, ok) ;; ret (AAdded r.1.1 r.1.2 r.2)) st
    (caches_step (sh_hash st) (sh_mask st) (SGetAndRefreshOrAdd now nows key (v, ok)) cs).
Proof.
  intros HS.
  destruct (on_key_run st cs key (fun h => zeroed getAndRefreshOrAdd now h key (v, ok)) _ HS
    (fun l c HR => getAndRefreshOrAdd_refines emptyKey emptyValue l c now key v ok HR) ltac:(intros x; apply _))
    as (c & Hc & Hk).
  cbn [caches_step]. rewrite Hc. unfold GetAndRefreshOrAdd.
  destruct Hk as (st1 & Hrun & HS1 & E1 & E2). unfold simplements.
  rewrite bind_bind, (bind_run _ _ _ _ _ Hrun).
  destruct (access None key c) as [[e|] c']; [by exists st1|].
  destruct ok; [|by exists st1]. cbn [fst snd negb andb] in *.
  destruct (PurgeExpired_all st1 _ nows HS1) as (st2 & Hp & HS2 & E3 & E4).
  exists st2. rewrite bind_bind, (bind_run _ _ _ _ _ Hp). split_and!; congruence || done.
Qed.

Lemma simplements_eq {A} (m m' : GoM ShardedLRU A) st r :
  m st = m' st -> simplements m' st r -> simplements m st r.
Proof. intros E (st' & Hm & H). exists st'. by rewrite E. Qed.

Lemma sharded_step_refines st cs (o : sop K V) :
  ShardedRep st cs ->
  simplements (sharded_step o) st (caches_step (sh_hash st) (sh_mask st) o cs).
Proof.
  intros HS. destruct o; cbn [sharded_step].
  - eapply simplements_eq; [apply bind_bind|].
    apply (every_refines (OSetLifetime lifetime) _ st cs HS); [done|intros i; unfold FreeLRU.SetLifetime; apply _].
  - eapply simplements_eq; [apply bind_bind|].
    apply (every_refines (OSetOnEvict installed) _ st cs HS); [done|intros i; unfold FreeLRU.SetOnEvict; apply _].
  - eapply simplements_eq; [apply bind_bind|].
    apply (every_refines (OSetHealthCheck hc) _ st cs HS); [done|intros i; unfold FreeLRU.SetHealthCheck; apply _].
  - apply (simplements_map Len (@ALen K V) _ _ (Len_refines _ _ HS)).
  - apply (home_refines (OAddWithLifetime now key value lifetime)); done || intros; apply _.
  - apply (home_refines (OAdd now key value)); done || intros; apply _.
  - apply (home_refines (OGet now key)); done || intros; apply _.
  - apply (home_refines (OGetWithLifetime now key)); done || intros; apply _.
  - apply (home_refines (OGetWithLifetimeNoExpire key)); done || intros; apply _.
  - apply (home_refines (OGetAndRefresh now key)); done || intros; apply _.
  - destruct constructor as [v ok]. by apply GetAndRefreshOrAdd_all.
  - apply (home_refines (OPeek now key)); done || intros; apply _.
  - apply (home_refines (OPeekWithLifetime now key)); done || intros; apply _.
  - apply (home_refines (OUpdateLifetime now key value lifetime)); done || intros; apply _.
  - apply (home_refines (OContains now key)); done || intros; apply _.
  - apply (home_refines (ORemove key)); done || intros; apply _.
  - apply (home_refines ORemoveOldest emptyKey (fun _ => zeroed FreeLRU.RemoveOldest)); done || intros; apply _.
  - apply (simplements_map (zeroed Keys nows) (@AKeys K V) _ _ (Keys_all _ _ _ HS)).
  - eapply simplements_eq; [apply bind_bind|].
    apply (every_refines OPurge _ st cs HS); [done|intros; apply _].
  - apply (simplements_map (zeroed PurgeExpired nows) (fun _ => @AUnit K V) _ _ (PurgeExpired_all _ _ _ HS)).
  - eapply simplements_eq; [apply bind_bind|].
    apply (every_refines OResetMetrics _ st cs HS); [done|intros; unfold FreeLRU.ResetMetrics; apply _].
Qed.

Lemma sharded_run_refines os st cs :
  ShardedRep st cs ->
  simplements (sharded_run os) st (caches_run (sh_hash st) (sh_mask st) os cs).
Proof.
  revert st cs. induction os as [|o os IH]; intros st cs HS; cbn [sharded_run caches_run].
  - by exists st.
  - destruct (sharded_step_refines st cs o HS) as (st1 & Hrun & HS1 & E1 & E2).
    destruct (IH st1 _ HS1) as (st2 & Hrun2 & HS2 & E3 & E4). rewrite E1, E2 in *.
    destruct (caches_step _ _ _ _) as [a cs1]. cbn [fst snd] in *.
    destruct (caches_run _ _ _ _) as [l cs2]. cbn [fst snd] in *.
    exists st2. rewrite (bind_run _ _ _ _ _ Hrun), (bind_run _ _ _ _ _ Hrun2).
    split_and!; congruence || done.
Qed.

(** *** Construction *)

Lemma init_shards_replicate n capacity size h total from :
  0 <= size -> 0 <= from -> from + Z.of_nat n * size <= total ->
  init_shards n capacity size h (replicate (Z.to_nat total) 0)
    (replicate (Z.to_nat total) (zeroed zeroElement)) from
  = replicate n (initLRU capacity size h (replicate (Z.to_nat size) 0)
                   (replicate (Z.to_nat size) (zeroed zeroElement))).
Proof.
  intros Hs. revert from. induction n as [|n IH]; intros from Hf Ht; [done|].
  rewrite Nat2Z.inj_succ, Z.mul_succ_l in Ht. cbn [init_shards replicate].
  rewrite IH by lia. f_equal. unfold ztake, zdrop. rewrite !drop_replicate, !take_replicate.
  replace (Z.to_nat size `min` (Z.to_nat total - Z.to_nat from))%nat with (Z.to_nat size) by lia. done.
Qed.

(** The number of shards and the capacity of each. *)
Lemma NewShardedWithSize_spec shards capacity size (h : K -> Z) :
  0 <= shards < 2 ^ 32 -> 0 < capacity <= size -> size < 2 ^ 32 ->
  exists n S, pow2 n /\ pow2 S /\ n <= Z.max 1 (S / 16) /\ n * (S / n) = S
    /\ (size < 2 ^ 31 -> size <= S) /\ (2 ^ 31 <= size -> S = 2 ^ 31)
    /\ let capacity' := (let c := u32 (capacity + n - 1) / n in if decide (c = 0) then 1 else c) in
       zeroed NewShardedWithSize shards capacity size h
       = Val (Ok (mkSharded (replicate (Z.to_nat n)
                   (initLRU capacity' (S / n) h (replicate (Z.to_nat (S / n)) 0)
                      (replicate (Z.to_nat (S / n)) (zeroed zeroElement)))) h n (n - 1))).
Proof.
  intros Hsh Hcap Hsize. unfold NewShardedWithSize. rewrite !decide_False by lia.
  set (S := if decide (size < Z.shiftl 1 31) then nextPowerOfTwo size else Z.shiftl 1 31).
  assert (pow2 S /\ (size < 2 ^ 31 -> size <= S) /\ (2 ^ 31 <= size -> S = 2 ^ 31)) as (HpS & HS1 & HS2).
  { subst S. change (Z.shiftl 1 31) with (2 ^ 31). destruct (decide (size < 2 ^ 31)) as [Hlt|Hge].
    - destruct (nextPowerOfTwo_spec size ltac:(lia)) as [[Hp Hle] _]; [lia|]. split_and!; [done..|lia].
    - split_and!; [by exists 31|lia|done]. }
  clearbody S. pose proof HpS as (m & Hm & ES). assert (0 < S) as HS0 by (subst S; apply Z.pow_pos_nonneg; lia).
  assert (S <= 2 ^ 31) as HS31 by (subst S; apply Z.pow_le_mono_r; lia).
  assert (nextPowerOfTwo shards = 0 \/ pow2 (nextPowerOfTwo shards)) as Hps.
  { destruct (nextPowerOfTwo_spec shards Hsh) as [H1 H2]. destruct (decide (shards <= 2 ^ 31)).
    - right. by apply H1.
    - left. apply H2. lia. }
  assert (nextPowerOfTwo shards < 2 ^ 32) as Hpb.
  { destruct Hps as [->|(k & Hk & ->)]; [done|]. apply Z.pow_lt_mono_r; lia. }
  destruct (fewer_shards_spec 8 (nextPowerOfTwo shards) S ltac:(lia) Hps Hpb) as (n0 & -> & Hn0 & Hpn0 & _).
  cbn [obind]. set (n := if decide (n0 = 0) then 1 else n0).
  assert (pow2 n /\ n <= Z.max 1 (S / 16)) as (Hpn & Hn).
  { subst n. destruct (decide (n0 = 0)); [split; [by exists 0|lia]|]. split; [|lia]. by destruct Hpn0. }
  clearbody n. pose proof Hpn as (k & Hk & En). assert (0 < n) as Hnpos by (subst n; apply Z.pow_pos_nonneg; lia).
  assert (n <= S) as HnS by (assert (S / 16 <= S) by (apply Z.div_le_upper_bound; lia); lia).
  assert (n * (S / n) = S) as HnS2.
  { assert (k <= m) by (apply (Z.pow_le_mono_r_iff 2); [lia..|congruence]).
    subst n S. rewrite <- Z.pow_sub_r, <- Z.pow_add_r by lia. f_equal. lia. }
  assert (0 < S / n) as Hsz by (apply Z.div_str_pos; lia).
  rewrite (decide_False (P := S / n = 0)) by lia. exists n, S. split_and!; [done..|]. cbv zeta.
  rewrite (Z.mul_comm (S / n)), HnS2, (u32_small S), (u32_small (n - 1)) by lia.
  rewrite init_shards_replicate by lia. done.
Qed.

Lemma NewShardedWithSize_rep shards capacity size (h : K -> Z) :
  0 <= shards < 2 ^ 32 -> 0 < capacity <= size -> size <= 2 ^ 31 -> (forall k, 0 <= h k < 2 ^ 32) ->
  exists st n, zeroed NewShardedWithSize shards capacity size h = Val (Ok st)
    /\ 0 < n <= 2 ^ 28 /\ sh_hash st = h /\ sh_mask st = n - 1
    /\ ShardedRep st (replicate (Z.to_nat n) (empty_cache ((capacity + n - 1) / n))).
Proof.
  intros Hsh Hcap Hsize Hh.
  destruct (NewShardedWithSize_spec shards capacity size h) as (n & S & Hpn & HpS & Hn & HnS & HS1 & HS2 & Hnew); [lia..|].
  pose proof Hpn as (k & Hk & En). pose proof HpS as (m & Hm & ES).
  assert (0 < n) as Hn0 by (subst n; apply Z.pow_pos_nonneg; lia).
  assert (S <= 2 ^ 31) as HSb by (subst S; apply Z.pow_le_mono_r; lia).
  assert (n <= 2 ^ 28) as Hnb by (assert (S / 16 <= 2 ^ 27) by (apply Z.div_le_upper_bound; lia); lia).
  assert (capacity <= S) as HcS by lia.
  assert (0 < (capacity + n - 1) / n <= S / n) as Hc.
  { split; [apply Z.div_str_pos; lia|]. apply Z.lt_succ_r, Z.div_lt_upper_bound; nia. }
  cbv zeta in Hnew. rewrite u32_small, decide_False in Hnew by lia.
  eexists _, n. split_and!; [exact Hnew|done..|].
  assert (S / n < emptyBucket) as He by (assert (S / n <= S) by (apply Z.div_le_upper_bound; nia); unfold emptyBucket; lia).
  split; cbn [lrus sh_hash sh_mask].
  - apply Forall2_replicate. split; [|done]. by apply initLRU_rep.
  - unfold zlen. rewrite length_replicate. lia.
  - intros key. unfold home. rewrite length_replicate, En, Z_land_ones' by lia.
    pose proof (Z.mod_pos_bound (Z.shiftr (h key) 16) (2 ^ k)). lia.
  - lia.
  - done.
Qed.

(** A run of the API on a new cache. *)
Lemma new_sharded_run shards capacity size (h : K -> Z) os :
  0 <= shards < 2 ^ 32 -> 0 < capacity <= size -> size <= 2 ^ 31 -> (forall k, 0 <= h k < 2 ^ 32) ->
  exists st n, zeroed NewShardedWithSize shards capacity size h = Val (Ok st) /\ 0 < n
    /\ simplements (sharded_run os) st
         (caches_run h (n - 1) os (replicate (Z.to_nat n) (empty_cache ((capacity + n - 1) / n)))).
Proof.
  intros Hsh Hcap Hsize Hh.
  destruct (NewShardedWithSize_rep shards capacity size h Hsh Hcap Hsize Hh)
    as (st & n & Hnew & Hn & <- & Em & HS).
  exists st, n. split; [exact Hnew|]. split; [lia|]. rewrite <- Em. by apply sharded_run_refines.
Qed.

Lemma ceil_div capacity n : 0 < n -> capacity <= n * ((capacity + n - 1) / n) < capacity + n.
Proof.
  intros. pose proof (Z.div_mod (capacity + n - 1) n). pose proof (Z.mod_pos_bound (capacity + n - 1) n). lia.
Qed.

(** C15: shardedlru.go implements an array of abstract caches.  The constructor
    returns for every number of shards and every size up to 2^31; afterwards any
    sequence of exported operations runs without panic and to its end, and the
    answers are those of the array, in which the hash of a key selects the one
    cache the key's operations use; the shards' capacities add up to [capacity]
    rounded up to a multiple of their number. *)
Theorem sharded_implements_caches shards capacity size (h : K -> Z) os :
  0 <= shards < 2 ^ 32 -> 0 < capacity <= size -> size <= 2 ^ 31 -> (forall k, 0 <= h k < 2 ^ 32) ->
  exists st n, zeroed NewShardedWithSize shards capacity size h = Val (Ok st)
    /\ capacity <= n * ((capacity + n - 1) / n) < capacity + n
    /\ let (answers, cs) := caches_run h (n - 1) os
                              (replicate (Z.to_nat n) (empty_cache ((capacity + n - 1) / n))) in
       exists st', sharded_run os st = Val (answers, st')
         /\ evicted_log <$> lrus st' = c_log <$> cs.
Proof.
  intros Hsh Hcap Hsize Hh.
  destruct (new_sharded_run shards capacity size h os Hsh Hcap Hsize Hh) as (st & n & Hnew & Hn & st' & Hrun & HS & _).
  exists st, n. split; [exact Hnew|]. split; [by apply ceil_div|].
  destruct (caches_run _ _ _ _) as [answers cs]. exists st'. split; [exact Hrun|].
  pose proof (srep_lrus _ _ HS) as Hf. clear Hrun HS. cbn [snd] in Hf.
  induction Hf as [|l c ls cs' [(order & _ & HA) _] _ IH]; [done|].
  by rewrite !fmap_cons, IH, (abs_log _ _ _ HA).
Qed.

(** *** Every key lives in its home shard *)

Definition op_key (o : op K V) : option K :=
  match o with
  | OAddWithLifetime _ k _ _ | OAdd _ k _ | OGet _ k | OGetWithLifetime _ k
  | OGetWithLifetimeNoExpire k | OGetAndRefresh _ k | OGetAndRefreshOrAdd _ _ k _
  | OPeek _ k | OPeekWithLifetime _ k | OUpdateLifetime _ k _ _ | OContains _ k | ORemove k => Some k
  | _ => None
  end.

Definition within (P : K -> Prop) (c : cache) : Prop := forall e, e ∈ c_entries c -> P (en_key e).

Lemma within_del P key c es :
  within P (with_entries es c) -> within P (with_entries (del key es) c).
Proof. intros Hw e [_ He]%list_elem_of_filter. by apply Hw. Qed.

Lemma within_touch P e c : P (en_key e) -> within P c -> within P (touch e c).
Proof.
  intros Hp Hw x [[_ Hx]%list_elem_of_filter| ->%list_elem_of_singleton]%elem_of_app; [by apply Hw|done].
Qed.

Lemma within_discard P e c : within P c -> within P (discard e c).
Proof. intros Hw. by apply (within_del P _ c (c_entries c)). Qed.

Lemma within_seek P now key c : within P c -> within P (seek now key c).2.
Proof.
  intros Hw. unfold seek. destruct (find_entry _ _); [|done].
  destruct (_ || _); [by apply within_discard|done].
Qed.

Lemma seek_found P now key c e c' :
  within P c -> seek now key c = (Some e, c') -> P (en_key e) /\ within P c'.
Proof.
  intros Hw. unfold seek. destruct (find_entry key (c_entries c)) as [x|] eqn:E; [|done].
  destruct (_ || _); [done|]. intros [= -> <-]. split; [|done]. by apply Hw, (find_entry_Some key).
Qed.

Lemma within_access P now key c : within P c -> within P (access now key c).2.
Proof.
  intros Hw. unfold access. pose proof (within_seek P now key c Hw) as Hs.
  destruct (seek now key c) as [[e|] c'] eqn:E; [|done].
  apply (within_touch P e c'); [|done]. by destruct (seek_found P now key c e c' Hw E).
Qed.

Lemma within_access_found P now key c e c' :
  within P c -> access now key c = (Some e, c') -> P (en_key e) /\ within P c'.
Proof.
  intros Hw Ha. split; [|by pose proof (within_access P now key c Hw) as H; rewrite Ha in H].
  unfold access in Ha. destruct (seek now key c) as [[x|] c1] eqn:E; simplify_eq.
  by destruct (seek_found P now key c e c1 Hw E).
Qed.

Lemma within_store P now key value t c : P key -> within P c -> within P (store now key value t c).2.
Proof.
  intros Hp Hw. unfold store. destruct (find_entry _ _); cbn; [by apply within_touch|].
  destruct (decide _); intros x; cbn; intros [Hx| ->%list_elem_of_singleton]%elem_of_app.
  - apply Hw. destruct (c_entries c); [done|]. apply elem_of_cons. by right.
  - done.
  - by apply Hw.
  - done.
Qed.

Lemma within_purge P now c : within P c -> within P (purge_expired now c).
Proof. intros Hw x [_ Hx]%list_elem_of_filter. by apply Hw. Qed.

Lemma within_step P (o : op K V) c :
  (forall k, op_key o = Some k -> P k) -> within P c -> within P (cache_step emptyKey emptyValue o c).2.
Proof.
  intros Hk Hw.
  destruct o; cbn [op_key] in Hk; try specialize (Hk _ eq_refl); cbn; try done.
  - pose proof (within_store P now key value lifetime c Hk Hw). by destruct (store _ _ _ _ _).
  - pose proof (within_store P now key value (c_lifetime c) c Hk Hw). by destruct (store _ _ _ _ _).
  - pose proof (within_access P (Some now) key c Hw). by destruct (access _ _ _).
  - pose proof (within_access P (Some now) key c Hw). by destruct (access _ _ _).
  - pose proof (within_access P None key c Hw). by destruct (access _ _ _).
  - pose proof (within_access P None key c Hw) as Ha.
    destruct (access _ _ _) as [[e|] c'] eqn:E; [|done].
    by apply within_touch; destruct (within_access_found P None key c e c' Hw E).
  - destruct constructor as [v ok]. pose proof (within_access P None key c Hw) as Ha.
    destruct (access _ _ _) as [[e|] c'] eqn:E.
    + by apply within_touch; destruct (within_access_found P None key c e c' Hw E).
    + destruct ok; [|done]. by apply within_purge, within_store.
  - pose proof (within_seek P (Some now) key c Hw). by destruct (seek _ _ _).
  - pose proof (within_seek P (Some now) key c Hw). by destruct (seek _ _ _).
  - destruct (find_entry _ _) as [e|]; [|done]. destruct (decide _); [|done]. by apply within_touch.
  - pose proof (within_seek P (Some now) key c Hw). by destruct (seek _ _ _).
  - pose proof (within_seek P None key c Hw). destruct (seek _ _ _) as [[e|] c']; [|done].
    by apply within_discard.
  - destruct (c_entries c) eqn:E; [done|]. by apply within_discard.
  - by apply within_purge.
  - intros e He. by apply not_elem_of_nil in He.
  - by apply within_purge.
Qed.

(** The caches hold keys of their own only. *)
Definition homed h mask cs : Prop :=
  forall i c, cs !! i = Some c -> within (fun k => home h mask k = i) c.

Lemma homed_every h mask f cs :
  homed h mask cs -> (forall P i c, within P c -> within P (f i c)) -> homed h mask (every f cs).
Proof.
  intros Hh Hf i c. unfold every. rewrite list_lookup_imap. intros (c0 & Hc & ->)%fmap_Some.
  apply Hf. by apply Hh.
Qed.

Lemma homed_insert h mask cs key c' :
  homed h mask cs -> within (fun k => home h mask k = home h mask key) c' ->
  homed h mask (<[home h mask key := c']> cs).
Proof.
  intros Hh Hw i c. intros [(<- & <- & _)|[_ Hc]]%list_lookup_insert_Some; [done|by apply Hh].
Qed.

Lemma homed_step h mask o cs :
  homed h mask cs -> homed h mask (caches_step h mask o cs).2.
Proof.
  intros Hh.
  assert (forall key p, (forall k, op_key p = Some k -> k = key) -> homed h mask (home_step h mask key p cs).2) as Hstep.
  { intros key p Hp. unfold home_step. destruct (cs !! home h mask key) as [c|] eqn:E; [|done].
    pose proof (within_step (fun k => home h mask k = home h mask key) p c
      ltac:(by intros k ->%Hp) (Hh _ _ E)) as Hw.
    destruct (cache_step _ _ _ _). by apply homed_insert. }
  assert (forall p, op_key p = None -> homed h mask (every_step p cs)) as Hevery.
  { intros p Hp. apply homed_every; [done|]. intros P _ c Hw. apply within_step; [|done]. by rewrite Hp. }
  assert (forall nows cs, homed h mask cs -> homed h mask (purge_all nows cs)) as Hpurge.
  { intros nows cs' Hh'. apply homed_every; [done|]. intros P i c. apply within_purge. }
  destruct o; cbn [caches_step snd]; try (by apply Hstep; intros k [= ->]); try (by apply Hevery); auto.
  destruct constructor as [v ok]. destruct (cs !! home h mask key) as [c|] eqn:E; [|done].
  pose proof (within_access _ None key c (Hh _ _ E)) as Ha.
  destruct (access None key c) as [[e|] c'] eqn:Eacc.
  - apply homed_insert; [done|]. by apply within_touch; destruct (within_access_found _ None key c e c' (Hh _ _ E) Eacc).
  - destruct ok; [|by apply homed_insert]. apply Hpurge, homed_insert; [done|]. by apply within_store.
Qed.

Lemma homed_run h mask os cs : homed h mask cs -> homed h mask (caches_run h mask os cs).2.
Proof.
  revert cs. induction os as [|o os IH]; intros cs Hh; [done|]. cbn [caches_run].
  pose proof (homed_step h mask o cs Hh) as H1. destruct (caches_step _ _ _ _) as [a cs1].
  specialize (IH cs1 H1). by destruct (caches_run _ _ _ _).
Qed.

(** The capacities never change. *)
Lemma caps_every f cs : (forall i c, c_cap (f i c) = c_cap c) -> c_cap <$> every f cs = c_cap <$> cs.
Proof.
  intros Hf. unfold every. rewrite fmap_imap, <- imap_plain. apply imap_ext. intros i c _. apply Hf.
Qed.

Lemma caps_insert i (c c' : cache) cs : cs !! i = Some c -> c_cap c' = c_cap c -> c_cap <$> <[i:=c']> cs = c_cap <$> cs.
Proof. intros Hc E. rewrite list_fmap_insert, E. apply list_insert_id. by rewrite list_lookup_fmap, Hc. Qed.

Lemma access_cap now key (c : cache) : c_cap (access now key c).2 = c_cap c.
Proof. unfold access, seek. destruct (find_entry _ _); [|done]. by destruct (_ || _). Qed.
Lemma store_cap now key value t (c : cache) : c_cap (store now key value t c).2 = c_cap c.
Proof. unfold store. destruct (find_entry _ _); [done|]. by destruct (decide _). Qed.

Lemma caps_step h mask o cs : c_cap <$> (caches_step h mask o cs).2 = c_cap <$> cs.
Proof.
  assert (forall key p, c_cap <$> (home_step h mask key p cs).2 = c_cap <$> cs) as Hstep.
  { intros key p. unfold home_step. destruct (cs !! home h mask key) as [c|] eqn:E; [|done].
    pose proof (cache_step_cap emptyKey emptyValue p c) as Ec.
    destruct (cache_step _ _ _ _) as [a c']. by apply (caps_insert _ c). }
  assert (forall p, c_cap <$> every_step p cs = c_cap <$> cs) as Hevery.
  { intros p. apply caps_every. intros i c. apply cache_step_cap. }
  assert (forall nows cs, c_cap <$> purge_all nows cs = c_cap <$> cs) as Hpurge.
  { intros nows cs'. by apply caps_every. }
  destruct o; cbn [caches_step snd]; auto.
  destruct constructor as [v ok]. destruct (cs !! home h mask key) as [c|] eqn:E; [|done].
  pose proof (access_cap None key c) as Ec. destruct (access None key c) as [[e|] c']; cbn [snd] in Ec.
  - by apply (caps_insert _ c).
  - destruct ok; [|by apply (caps_insert _ c)]. cbn [snd]. rewrite Hpurge. apply (caps_insert _ c); [done|].
    by rewrite store_cap.
Qed.

Lemma caps_run h mask os cs : c_cap <$> (caches_run h mask os cs).2 = c_cap <$> cs.
Proof.
  revert cs. induction os as [|o os IH]; intros cs; [done|]. cbn [caches_run].
  pose proof (caps_step h mask o cs) as H1. destruct (caches_step _ _ _ _) as [a cs1].
  specialize (IH cs1). destruct (caches_run _ _ _ _). cbn [snd] in *. congruence.
Qed.

Lemma NoDup_shards h mask i cs :
  (forall j c, cs !! j = Some c -> within (fun k => home h mask k = i + j)%nat c) ->
  Forall (fun c => NoDup (en_key <$> c_entries c)) cs ->
  NoDup (concat ((fun c => en_key <$> c_entries c) <$> cs)).
Proof.
  revert i. induction cs as [|c cs IH]; intros i Hw Hn; [constructor|].
  apply Forall_cons in Hn as [Hn Hns]. rewrite fmap_cons. cbn [concat]. apply NoDup_app. split_and!; [done| |].
  - intros k (e & -> & He)%list_elem_of_fmap Hin. apply list_elem_of_In, in_concat in Hin as (l & Hl & Hk).
    apply list_elem_of_In, list_elem_of_fmap in Hl as (c' & -> & Hc').
    apply list_elem_of_In, list_elem_of_fmap in Hk as (e' & Ek & He').
    apply list_elem_of_lookup in Hc' as [j Hj].
    pose proof (Hw 0%nat c eq_refl e He) as E0. pose proof (Hw (S j) c' Hj e' He') as E1. rewrite Ek in E0. cbn in *. lia.
  - apply (IH (S i)); [|done]. intros j c' Hj e He. cbn. rewrite (Hw (S j) c' Hj e He). lia.
Qed.

Lemma sum_bound (cs : list cache) cap :
  Forall (fun c => zlen (c_entries c) <= cap) cs ->
  zlen (concat ((fun c => en_key <$> c_entries c) <$> cs)) <= zlen cs * cap.
Proof.
  induction 1 as [|c cs Hc _ IH]; [done|]. rewrite fmap_cons. cbn [concat]. rewrite zlen_app, zlen_cons.
  assert (zlen (en_key <$> c_entries c) = zlen (c_entries c)) as -> by (unfold zlen; by rewrite length_fmap). lia.
Qed.

Lemma caches_run_app h mask os1 os2 cs :
  caches_run h mask (os1 ++ os2) cs
  = let (l1, cs1) := caches_run h mask os1 cs in
    let (l2, cs2) := caches_run h mask os2 cs1 in (l1 ++ l2, cs2).
Proof.
  revert cs. induction os1 as [|o os1 IH]; intros cs; cbn [app caches_run].
  - by destruct (caches_run h mask os2 cs).
  - destruct (caches_step h mask o cs) as [a cs1]. rewrite IH.
    destruct (caches_run h mask os1 cs1) as [l1 cs2]. by destruct (caches_run h mask os2 cs2).
Qed.

(** one home per key and a bounded total.  After any sequence of operations
    on a new sharded cache, Keys lists no key twice and fewer than [capacity]
    plus the number of shards of them. *)
Theorem sharded_keys_distinct shards capacity size (h : K -> Z) os nows :
  0 <= shards < 2 ^ 32 -> 0 < capacity <= size -> size <= 2 ^ 31 -> (forall k, 0 <= h k < 2 ^ 32) ->
  exists st answers ks st', zeroed NewShardedWithSize shards capacity size h = Val (Ok st)
    /\ sharded_run (os ++ [SKeys nows]) st = Val (answers ++ [AKeys ks], st')
    /\ NoDup ks /\ zlen ks < capacity + zlen (lrus st').
Proof.
  intros Hsh Hcap Hsize Hh.
  destruct (new_sharded_run shards capacity size h (os ++ [SKeys nows]) Hsh Hcap Hsize Hh)
    as (st & n & Hnew & Hn & st' & Hrun & HS & _).
  set (cs0 := replicate (Z.to_nat n) (empty_cache ((capacity + n - 1) / n))) in *.
  assert (homed h (n - 1) cs0) as H0.
  { intros i c [-> _]%lookup_replicate e He. by apply not_elem_of_nil in He. }
  pose proof (homed_run h (n - 1) (os ++ [SKeys nows]) cs0 H0) as Hhome.
  pose proof (caps_run h (n - 1) (os ++ [SKeys nows]) cs0) as Hcaps.
  rewrite caches_run_app in *. destruct (caches_run h (n - 1) os cs0) as [answers cs].
  cbn [caches_run caches_step fst snd] in *. set (cs' := purge_all nows cs) in *.
  eexists st, answers, _, st'. split_and!; [exact Hnew|exact Hrun|..].
  - apply (NoDup_shards h (n - 1) 0); [done|]. pose proof (srep_lrus _ _ HS) as Hf.
    clearbody cs'. clear - Hf. induction Hf as [|l c ls cs' [(order & HI & HA) _] _ IH]; constructor; [|done].
    rewrite (abs_entries _ _ _ HA). apply entries_keys_NoDup, HI.
  - assert (zlen (lrus st') = n) as ->.
    { unfold zlen. rewrite (Forall2_length _ _ _ (srep_lrus _ _ HS)).
      rewrite <- (length_fmap c_cap cs'), Hcaps. subst cs0. rewrite length_fmap, length_replicate. lia. }
    eapply Z.le_lt_trans; [|apply (ceil_div capacity n); lia].
    assert (zlen cs' = n) as E.
    { unfold zlen. rewrite <- (length_fmap c_cap cs'), Hcaps. subst cs0. rewrite length_fmap, length_replicate. lia. }
    rewrite <- E at 1. apply sum_bound.
    assert (Forall (fun c => c_cap c = (capacity + n - 1) / n) cs') as Hall.
    { apply (Forall_fmap c_cap (fun x => x = (capacity + n - 1) / n)). rewrite Hcaps. subst cs0.
      rewrite fmap_replicate. by apply Forall_replicate. }
    pose proof (srep_lrus _ _ HS) as Hf. clearbody cs'. clear - Hf Hall.
    induction Hf as [|l c ls cs' [(order & HI & HA) _] _ IH]; [constructor|].
    apply Forall_cons in Hall as [Hc Hall]. constructor; [|by apply IH].
    rewrite (rep_len _ _ _ HI HA), <- Hc, (abs_cap _ _ _ HA). apply HI.
Qed.

(** sizes above 2^31.  The constructor clamps the total size to 2^31 but not
    the capacity, so that for a capacity above 2^31 (and no wrap-around) every
    shard accepts more entries than it has slots. *)
Theorem sharded_overcommit shards capacity size (h : K -> Z) :
  0 <= shards < 2 ^ 32 -> 2 ^ 31 < capacity <= size -> size < 2 ^ 32 -> capacity + 2 ^ 27 <= 2 ^ 32 ->
  exists st, zeroed NewShardedWithSize shards capacity size h = Val (Ok st)
    /\ Forall (fun l => lru_size l < lru_cap l /\ zlen (elements l) = lru_size l) (lrus st).
Proof.
  intros Hsh Hcap Hsize Hw.
  destruct (NewShardedWithSize_spec shards capacity size h) as (n & S & Hpn & HpS & Hn & HnS & _ & HS & Hnew); [lia..|].
  rewrite HS in * by lia. pose proof Hpn as (k & Hk & En).
  assert (0 < n) as Hn0 by (subst n; apply Z.pow_pos_nonneg; lia).
  change (Z.max 1 (2 ^ 31 / 16)) with (2 ^ 27) in Hn.
  cbv zeta in Hnew. rewrite u32_small in Hnew by lia.
  assert (2 ^ 31 / n < (capacity + n - 1) / n) as Hlt.
  { pose proof (ceil_div capacity n Hn0). nia. }
  assert (0 <= 2 ^ 31 / n) by (apply Z.div_pos; lia).
  rewrite decide_False in Hnew by lia.
  eexists. split; [exact Hnew|]. apply Forall_replicate. cbn. split; [done|]. by apply zlen_replicate.
Qed.
End ShardedTheorems.

(** ** Witnesses: two shards of sixteen slots and ten entries *)

Definition high_hash (k : Z) : Z := u32 (k * 65536).
Definition sharded_ops : list (sop Z Z) :=
  [SSetOnEvict true; SAdd 10 1 100; SAdd 10 2 200; SAddWithLifetime 10 4 400 5000000; SGet 11 1;
   SGetAndRefreshOrAdd 20 (fun _ => 20) 5 (500, true); SPeek 21 4; SLen; SRemoveOldest; SRemove 5; SKeys (fun _ => 30)].

Lemma sharded_implements_caches_witness :
  exists st n, NewShardedWithSize 0 0 2 20 32 high_hash = Val (Ok st) /\ 20 <= n * ((20 + n - 1) / n) < 20 + n
    /\ let (answers, cs) := caches_run 0 0 high_hash (n - 1) sharded_ops
                              (replicate (Z.to_nat n) (empty_cache ((20 + n - 1) / n))) in
       exists st', sharded_run 0 0 sharded_ops st = Val (answers, st')
         /\ evicted_log <$> lrus st' = c_log <$> cs.
Proof.
  exact (sharded_implements_caches 0 0 2 20 32 high_hash sharded_ops ltac:(lia) ltac:(lia) ltac:(lia)
    (fun k => u32_range (k * 65536))).
Defined.

Lemma sharded_keys_distinct_witness :
  exists st answers ks st', NewShardedWithSize 0 0 2 20 32 high_hash = Val (Ok st)
    /\ sharded_run 0 0 (sharded_ops ++ [SKeys (fun i => 40 + i)]) st = Val (answers ++ [AKeys ks], st')
    /\ NoDup ks /\ zlen ks < 20 + zlen (lrus st').
Proof.
  exact (sharded_keys_distinct 0 0 2 20 32 high_hash sharded_ops (fun i => 40 + i) ltac:(lia) ltac:(lia) ltac:(lia)
    (fun k => u32_range (k * 65536))).
Defined.

Lemma sharded_overcommit_witness :
  exists st, NewShardedWithSize 0 0 16 3000000000 4000000000 high_hash = Val (Ok st)
    /\ Forall (fun l => lru_size l < lru_cap l /\ zlen (elements l) = lru_size l) (lrus st).
Proof.
  apply (sharded_overcommit 0 0 16 3000000000 4000000000 high_hash); lia.
Defined.

(** The run of the witness, evaluated. *)
Example sharded_run_answers :
  match NewShardedWithSize 0 0 2 20 32 high_hash with
  | Val (Ok st) =>
      match sharded_run 0 0 sharded_ops st with
      | Val (answers, _) => answers
          = [AUnit; ABool false; ABool false; ABool false; AValue 100 true; AAdded 500 false true; AValue 0 false;
             ALen 3; AOldest 2 200 true; ABool true; AKeys [1]]
      | _ => False
      end
  | _ => False
  end.
Proof. vm_compute. reflexivity. Qed.
