(* ===== verification/Synced.v ===== *)
(** * The LRU cache under a read-write lock: contrab/freelru/syncedlru.go

    A [SyncedLRU] is an LRU cache and a sync.RWMutex.  A method takes the hash of
    its key before it locks, runs the cache's operation inside the lock, and
    unlocks.  The second half of the file runs the methods of several goroutines
    against each other: a goroutine inside the lock has fetched the cache and
    stores it back when it leaves, so two of them inside at once would lose an
    update. *)

From S2P Require Import Prelude FreeLRU FreeLRUSpec.
#[local] Open Scope go_scope.

(** ** sync.RWMutex *)

Record RWMutex := mkMutex { mu_writer : bool; mu_readers : nat }.
Inductive lock_mode := Shared | Exclusive.
#[export] Instance lock_mode_eq_dec : EqDecision lock_mode.
Proof. solve_decision. Defined.

(** [None]: the caller has to wait. *)
Definition acquire (m : lock_mode) (mu : RWMutex) : option RWMutex :=
  match m with
  | Exclusive => if mu_writer mu || negb (mu_readers mu =? 0)%nat then None else Some (mkMutex true 0)
  | Shared => if mu_writer mu then None else Some (mkMutex false (S (mu_readers mu)))
  end.

(** [None]: the run time throws, the mutex is not locked in this mode. *)
Definition release (m : lock_mode) (mu : RWMutex) : option RWMutex :=
  match m with
  | Exclusive => if mu_writer mu then Some (mkMutex false (mu_readers mu)) else None
  | Shared => match mu_readers mu with O => None | S n => Some (mkMutex (mu_writer mu) n) end
  end.

Section Synced.
Context {K V : Type} `{EqDecision K, EqDecision V} (emptyKey : K) (emptyValue : V).
Abbreviation LRU := (@LRU K V).
Abbreviation zeroed m := (m emptyKey emptyValue).
Abbreviation op := (op K V).
Abbreviation answer := (answer K V).

Record SyncedLRU := mkSynced { mu : RWMutex; lru : LRU }.

Definition NewSyncedWithSize (capacity size : Z) (hash : option (K -> Z)) : result SyncedLRU :=
  let? lru := zeroed NewWithSize capacity size hash in
  Ok (mkSynced (mkMutex false 0) lru).
Definition NewSynced (capacity : Z) (hash : option (K -> Z)) : result SyncedLRU :=
  NewSyncedWithSize capacity capacity hash.

(** ** The methods

    The key whose hash is taken first, if any, the lock, and what runs inside. *)
Record method (A : Type) := mkMethod {
  m_key : option K; m_mode : lock_mode; m_body : Z -> GoM LRU A }.
Arguments mkMethod {A}. Arguments m_key {A}. Arguments m_mode {A}. Arguments m_body {A}.

Definition locked {A} (body : GoM LRU A) : method A := mkMethod None Exclusive (fun _ => body).
Definition rlocked {A} (body : GoM LRU A) : method A := mkMethod None Shared (fun _ => body).
Definition keyed {A} (key : K) (body : Z -> GoM LRU A) : method A := mkMethod (Some key) Exclusive body.

Definition SetLifetime (lifetime : Z) : method unit := locked (FreeLRU.SetLifetime lifetime).
Definition SetOnEvict (installed : bool) : method unit := locked (FreeLRU.SetOnEvict installed).
Definition SetHealthCheck (hc : option (K -> V -> bool)) : method unit := locked (FreeLRU.SetHealthCheck hc).
Definition Len : method Z := rlocked FreeLRU.Len.
Definition AddWithLifetime (now : Z) (key : K) (value : V) (lifetime : Z) : method bool :=
  keyed key (fun hash => addWithLifetime now hash key value lifetime).
Definition Add (now : Z) (key : K) (value : V) : method bool :=
  keyed key (fun hash => add now hash key value).
Definition Get (now : Z) (key : K) : method (V * bool) := keyed key (fun hash => zeroed get now hash key).
Definition GetWithLifetime (now : Z) (key : K) : method (V * option Z * bool) :=
  keyed key (fun hash => zeroed getWithLifetime now hash key).
Definition GetWithLifetimeNoExpire (key : K) : method (V * option Z * bool) :=
  keyed key (fun hash => zeroed getWithLifetimeNoExpire hash key).
Definition GetAndRefresh (now : Z) (key : K) : method (V * bool) :=
  keyed key (fun hash => zeroed getAndRefresh now hash key).
Definition GetAndRefreshOrAdd (now now' : Z) (key : K) (constructor : V * bool) : method (V * bool * bool) :=
  keyed key (fun hash =>
    r <- zeroed getAndRefreshOrAdd now hash key constructor ;;
    let '(value, updated, ok) := r in
    (if negb updated && ok then zeroed PurgeExpired now' else ret tt) ;;
    ret (value, updated, ok)).
Definition Peek (now : Z) (key : K) : method (V * bool) := keyed key (fun hash => zeroed peek now hash key).
Definition PeekWithLifetime (now : Z) (key : K) : method (V * option Z * bool) :=
  keyed key (fun hash => zeroed peekWithLifetime now hash key).
Definition UpdateLifetime (now : Z) (key : K) (value : V) (lifetime : Z) : method bool :=
  keyed key (fun hash => updateLifetime now hash key value lifetime).
Definition Contains (now : Z) (key : K) : method bool := keyed key (fun hash => zeroed contains now hash key).
Definition Remove (key : K) : method bool := keyed key (fun hash => zeroed remove hash key).
Definition RemoveOldest : method (K * V * bool) := locked (zeroed FreeLRU.RemoveOldest).
Definition Keys (now : Z) : method (list K) := locked (zeroed FreeLRU.Keys now).
Definition Purge : method unit := locked (zeroed FreeLRU.Purge).
Definition PurgeExpired (now : Z) : method unit := locked (zeroed FreeLRU.PurgeExpired now).
Definition GetMetrics : method Metrics := locked FreeLRU.GetMetrics.
Definition ResetMetrics : method Metrics := locked FreeLRU.ResetMetrics.

Definition answering {A} (f : A -> answer) (m : method A) : method answer :=
  mkMethod (m_key m) (m_mode m) (fun hash => a <- m_body m hash ;; ret (f a)).

(** The method behind an operation of the API. *)
Definition method_of (o : op) : method answer :=
  match o with
  | OSetLifetime t => answering (fun _ => AUnit) (SetLifetime t)
  | OSetOnEvict b => answering (fun _ => AUnit) (SetOnEvict b)
  | OSetHealthCheck h => answering (fun _ => AUnit) (SetHealthCheck h)
  | OLen => answering ALen Len
  | OAddWithLifetime now k v t => answering ABool (AddWithLifetime now k v t)
  | OAdd now k v => answering ABool (Add now k v)
  | OGet now k => answering (fun r => AValue r.1 r.2) (Get now k)
  | OGetWithLifetime now k => answering (fun r => ATimed r.1.1 r.1.2 r.2) (GetWithLifetime now k)
  | OGetWithLifetimeNoExpire k => answering (fun r => ATimed r.1.1 r.1.2 r.2) (GetWithLifetimeNoExpire k)
  | OGetAndRefresh now k => answering (fun r => AValue r.1 r.2) (GetAndRefresh now k)
  | OGetAndRefreshOrAdd now now' k f => answering (fun r => AAdded r.1.1 r.1.2 r.2) (GetAndRefreshOrAdd now now' k f)
  | OPeek now k => answering (fun r => AValue r.1 r.2) (Peek now k)
  | OPeekWithLifetime now k => answering (fun r => ATimed r.1.1 r.1.2 r.2) (PeekWithLifetime now k)
  | OUpdateLifetime now k v t => answering ABool (UpdateLifetime now k v t)
  | OContains now k => answering ABool (Contains now k)
  | ORemove k => answering ABool (Remove k)
  | ORemoveOldest => answering (fun r => AOldest r.1.1 r.1.2 r.2) RemoveOldest
  | OKeys now => answering AKeys (Keys now)
  | OPurge => answering (fun _ => AUnit) Purge
  | OPurgeExpired now => answering (fun _ => AUnit) (PurgeExpired now)
  | OResetMetrics => answering (fun _ => AUnit) ResetMetrics
  end.

(** ** Goroutines

    A goroutine has the operations it still has to do, and of the first of them
    how far it has come: it has the hash and has called Lock or RLock, or it is
    inside with the cache as it found it. *)
Inductive phase := Idle | Waiting (hash : Z) | Inside (hash : Z) (fetched : LRU).
Record thread := mkThread { t_todo : list op; t_phase : phase }.
Record machine := mkMachine {
  shared : SyncedLRU; threads : list thread;
  history : list (nat * op * answer) }.    (* the completed calls, in the order they unlocked *)

Definition hash_of (s : LRU) (o : op) : Z :=
  match m_key (method_of o) with Some k => hash s k | None => 0 end.

Definition waits_exclusive (t : thread) : Prop :=
  match t_todo t, t_phase t with
  | o :: _, Waiting _ => m_mode (method_of o) = Exclusive
  | _, _ => False
  end.

(** One goroutine takes one step.  With [prefer], RLock also waits behind every
    goroutine that waits in Lock (sync.RWMutex does so while readers are inside);
    the theorems hold for both policies. *)
Inductive sstep (prefer : bool) : machine -> machine -> Prop :=
  | step_hash sh ths hist i o os :
      ths !! i = Some (mkThread (o :: os) Idle) ->
      sstep prefer (mkMachine sh ths hist)
        (mkMachine sh (<[i := mkThread (o :: os) (Waiting (hash_of (lru sh) o))]> ths) hist)
  | step_lock mu mu' s ths hist i o os h :
      ths !! i = Some (mkThread (o :: os) (Waiting h)) ->
      acquire (m_mode (method_of o)) mu = Some mu' ->
      (m_mode (method_of o) = Shared -> prefer = true -> Forall (fun t => ~ waits_exclusive t) ths) ->
      sstep prefer (mkMachine (mkSynced mu s) ths hist)
        (mkMachine (mkSynced mu' s) (<[i := mkThread (o :: os) (Inside h s)]> ths) hist)
  | step_unlock mu mu' s s0 s' ths hist i o os h a :
      ths !! i = Some (mkThread (o :: os) (Inside h s0)) ->
      m_body (method_of o) h s0 = Val (a, s') ->
      release (m_mode (method_of o)) mu = Some mu' ->
      sstep prefer (mkMachine (mkSynced mu s) ths hist)
        (mkMachine (mkSynced mu' s') (<[i := mkThread os Idle]> ths) (hist ++ [(i, o, a)])).

Definition start (sh : SyncedLRU) (programs : list (list op)) : machine :=
  mkMachine sh ((fun p => mkThread p Idle) <$> programs) [].

(** [n] steps. *)
Inductive ssteps (prefer : bool) : nat -> machine -> machine -> Prop :=
  | ssteps_refl st : ssteps prefer 0 st st
  | ssteps_step n st st' st'' : ssteps prefer n st st' -> sstep prefer st' st'' -> ssteps prefer (S n) st st''.

Definition finished (st : machine) : Prop := Forall (fun t => t_todo t = [] /\ t_phase t = Idle) (threads st).

Definition calls_of (i : nat) (hist : list (nat * op * answer)) : list op :=
  (fun c => c.1.2) <$> filter (fun c => c.1.1 = i) hist.
End Synced.
Arguments SyncedLRU : clear implicits.
Arguments machine : clear implicits.
Arguments thread : clear implicits.
Arguments phase : clear implicits.
Arguments mkMethod {K V A}. Arguments m_key {K V A}. Arguments m_mode {K V A}. Arguments m_body {K V A}.
