(* ===== verification/SyncedTheorems.v ===== *)
(** * The LRU cache under a lock: the theorems

    Mutual exclusion, linearizability and progress of the goroutines of Synced.v. *)

From S2P Require Import Prelude FreeLRU FreeLRUSpec FreeLRUInv FreeLRURefine FreeLRUTheorems FreeLRUStable Synced.
#[local] Open Scope go_scope.

(** ** Sums over the goroutines *)

Lemma sum_insert {A} (f : A -> nat) (l : list A) i x y :
  l !! i = Some x -> (sum_list_with f (<[i := y]> l) + f x = sum_list_with f l + f y)%nat.
Proof.
  revert i. induction l as [|z l IH]; intros [|i] Hi; simpl in *; simplify_eq; [lia|].
  specialize (IH i Hi). lia.
Qed.

Lemma sum_lookup {A} (f : A -> nat) (l : list A) i x : l !! i = Some x -> (f x <= sum_list_with f l)%nat.
Proof. revert i. induction l as [|z l IH]; intros [|i] Hi; simpl in *; simplify_eq; [lia|]. specialize (IH i Hi). lia. Qed.

Lemma sum_lookup_2 {A} (f : A -> nat) (l : list A) i j x y :
  l !! i = Some x -> l !! j = Some y -> i <> j -> (f x + f y <= sum_list_with f l)%nat.
Proof.
  revert i j. induction l as [|z l IH]; intros [|i] [|j] Hi Hj Hne; simpl in *; simplify_eq.
  - pose proof (sum_lookup f l j y Hj). lia.
  - pose proof (sum_lookup f l i x Hi). lia.
  - specialize (IH i j Hi Hj ltac:(congruence)). lia.
Qed.

Section Theorems.
Context {K V : Type} `{EqDecision K, EqDecision V} (emptyKey : K) (emptyValue : V).
Abbreviation LRU := (@LRU K V).
Abbreviation op := (op K V).
Abbreviation answer := (answer K V).
Abbreviation Rep := (@Rep K V emptyKey emptyValue).
Abbreviation method_of := (method_of emptyKey emptyValue).
Abbreviation lru_step := (lru_step emptyKey emptyValue).
Abbreviation lru_run := (lru_run emptyKey emptyValue).
Abbreviation sstep := (sstep emptyKey emptyValue).
Abbreviation ssteps := (ssteps emptyKey emptyValue).
Implicit Types (s : LRU) (t : thread K V) (st : machine K V) (o : op).

(** A method run by a single caller is the operation of the plain cache. *)
Lemma body_step o s : m_body (method_of o) (hash_of emptyKey emptyValue s o) s = lru_step o s.
Proof.
  by destruct o.
Qed.

Lemma shared_reads o : m_mode (method_of o) = Shared -> o = OLen.
Proof. by destruct o. Qed.

Lemma hash_of_stable s s' o : hash s' = hash s -> hash_of emptyKey emptyValue s' o = hash_of emptyKey emptyValue s o.
Proof. intros E. unfold hash_of. by rewrite E. Qed.

Lemma lru_run_snoc os o s ans s1 a s2 :
  lru_run os s = Val (ans, s1) -> lru_step o s1 = Val (a, s2) -> lru_run (os ++ [o]) s = Val (ans ++ [a], s2).
Proof.
  revert s ans. induction os as [|o' os IH]; intros s ans; cbn [FreeLRUTheorems.lru_run app].
  - intros [= <- <-] Ho. by rewrite (bind_run _ _ _ _ _ Ho).
  - destruct (lru_step o' s) as [[a' s']| |] eqn:Ea; unfold bind at 1; rewrite Ea; [|done..].
    destruct (lru_run os s') as [[l s'']| |] eqn:El; unfold bind at 1; rewrite El; [|done..].
    intros [= <- <-] Ho. rewrite (bind_run _ _ _ _ _ Ea), (bind_run _ _ _ _ _ (IH _ _ El Ho)). done.
Qed.

(** ** The invariant *)

Definition same_mode (m m' : lock_mode) : nat :=
  match m, m' with Shared, Shared | Exclusive, Exclusive => 1 | _, _ => 0 end.
Definition inside (m : lock_mode) t : nat :=
  match t_todo t, t_phase t with
  | o :: _, Inside _ _ => same_mode (m_mode (method_of o)) m
  | _, _ => 0
  end.
Definition insiders (m : lock_mode) (ths : list (thread K V)) : nat := sum_list_with (inside m) ths.

(** The mutex knows who is inside: one writer, or readers only. *)
Definition mutex_ok (mu : RWMutex) (ths : list (thread K V)) : Prop :=
  insiders Exclusive ths = (if mu_writer mu then 1%nat else 0%nat) /\ insiders Shared ths = mu_readers mu
  /\ (mu_writer mu = true -> mu_readers mu = 0%nat).

(** What a goroutine holds is still true of the shared cache. *)
Definition thread_ok s t : Prop :=
  match t_phase t, t_todo t with
  | Idle, _ => True
  | Waiting h, o :: _ => h = hash_of emptyKey emptyValue s o
  | Inside h s0, o :: _ => h = hash_of emptyKey emptyValue s o /\ s0 = s
  | _, [] => False
  end.

Record SInv (s0 : LRU) (programs : list (list op)) st : Prop := {
  si_mutex : mutex_ok (mu (shared st)) (threads st);
  si_threads : Forall (thread_ok (lru (shared st))) (threads st);
  si_run : lru_run ((fun c => c.1.2) <$> history st) s0 = Val ((fun c => c.2) <$> history st, lru (shared st));
  si_rep : exists c, Rep (lru (shared st)) c;
  si_programs : forall i p, programs !! i = Some p ->
    exists t, threads st !! i = Some t /\ calls_of i (history st) ++ t_todo t = p;
  si_length : length (threads st) = length programs;
}.

Lemma insiders_insert m ths i t t' : ths !! i = Some t ->
  (insiders m (<[i := t']> ths) + inside m t = insiders m ths + inside m t')%nat.
Proof. apply sum_insert. Qed.

(** Entering and leaving keep the mutex in step. *)
Lemma mutex_enter mu mu' ths i o os h s :
  mutex_ok mu ths -> ths !! i = Some (mkThread (o :: os) (Waiting h)) ->
  acquire (m_mode (method_of o)) mu = Some mu' ->
  mutex_ok mu' (<[i := mkThread (o :: os) (Inside h s)]> ths).
Proof.
  intros (HE & HS & HW) Hi Hacq. unfold mutex_ok.
  pose proof (insiders_insert Exclusive ths i _ (mkThread (o :: os) (Inside h s)) Hi) as IE.
  pose proof (insiders_insert Shared ths i _ (mkThread (o :: os) (Inside h s)) Hi) as IS.
  cbn in IE, IS. unfold acquire in Hacq.
  destruct (m_mode (method_of o)); destruct (mu_writer mu); try done; cbn in *.
  - injection Hacq as <-. cbn. split_and!; [lia|lia|done].
  - destruct (Nat.eqb_spec (mu_readers mu) 0); [|done]. injection Hacq as <-. cbn. split_and!; [lia|lia|done].
Qed.

Lemma mutex_leave mu mu' ths i o os h s :
  mutex_ok mu ths -> ths !! i = Some (mkThread (o :: os) (Inside h s)) ->
  release (m_mode (method_of o)) mu = Some mu' ->
  mutex_ok mu' (<[i := mkThread os Idle]> ths).
Proof.
  intros (HE & HS & HW) Hi Hrel. unfold mutex_ok.
  pose proof (insiders_insert Exclusive ths i _ (mkThread os Idle) Hi) as IE.
  pose proof (insiders_insert Shared ths i _ (mkThread os Idle) Hi) as IS.
  assert (forall m, inside m (mkThread os Idle) = 0%nat) as E0 by (by destruct os). rewrite E0 in IE, IS.
  cbn in IE, IS. unfold release in Hrel.
  destruct (m_mode (method_of o)).
  - destruct (mu_readers mu) as [|n] eqn:En; [done|]. injection Hrel as <-. cbn in *.
    destruct (mu_writer mu); [by specialize (HW eq_refl)|]. split_and!; [lia|lia|done].
  - destruct (mu_writer mu); [|done]. injection Hrel as <-. cbn in *. specialize (HW eq_refl). split_and!; [lia|lia|done].
Qed.

(** Nobody else is inside with a writer. *)
Lemma exclusive_alone mu ths i j o os h s t :
  mutex_ok mu ths -> ths !! i = Some (mkThread (o :: os) (Inside h s)) -> m_mode (method_of o) = Exclusive ->
  ths !! j = Some t -> i <> j -> inside Exclusive t = 0%nat /\ inside Shared t = 0%nat.
Proof.
  intros (HE & HS & HW) Hi Ho Hj Hne.
  assert (inside Exclusive (mkThread (o :: os) (Inside h s)) = 1%nat) as E1 by (cbn; by rewrite Ho).
  pose proof (sum_lookup_2 (inside Exclusive) ths i j _ t Hi Hj Hne) as H1. rewrite E1 in H1.
  fold (insiders Exclusive ths) in H1. pose proof (sum_lookup (inside Shared) ths j t Hj) as H2.
  fold (insiders Shared ths) in H2. destruct (mu_writer mu); [specialize (HW eq_refl)|]; lia.
Qed.

(** Leaving with a changed cache hurts nobody: the others are not inside. *)
Lemma thread_ok_outside s s' t :
  hash s' = hash s -> thread_ok s t -> inside Exclusive t = 0%nat -> inside Shared t = 0%nat -> thread_ok s' t.
Proof.
  intros Hh. unfold thread_ok, inside. destruct (t_phase t) as [|h|h f], (t_todo t) as [|o os]; try done.
  - intros -> _ _. symmetry. by apply hash_of_stable.
  - intros _. by destruct (m_mode (method_of o)).
Qed.

Lemma calls_of_snoc i j (o : op) (a : answer) hist :
  calls_of i (hist ++ [(j, o, a)]) = if decide (j = i) then calls_of i hist ++ [o] else calls_of i hist.
Proof.
  unfold calls_of. rewrite filter_app, fmap_app. destruct (decide (j = i)) as [->|Hne].
  - by rewrite filter_cons_True.
  - rewrite filter_cons_False by done. cbn. apply app_nil_r.
Qed.

(** The goroutine that moved is the only one whose program matters. *)
Lemma programs_insert (programs : list (list op)) (ths : list (thread K V)) i t t' hist hist' :
  ths !! i = Some t ->
  (forall j p, programs !! j = Some p -> exists t, ths !! j = Some t /\ calls_of j hist ++ t_todo t = p) ->
  (forall j, j <> i -> calls_of j hist' = calls_of j hist) ->
  calls_of i hist' ++ t_todo t' = calls_of i hist ++ t_todo t ->
  forall j p, programs !! j = Some p -> exists t, <[i := t']> ths !! j = Some t /\ calls_of j hist' ++ t_todo t = p.
Proof.
  intros Hi Hp Hne Heq j p Hj. destruct (Hp j p Hj) as (u & Hu & E). destruct (decide (j = i)) as [->|Hd].
  - simplify_eq. exists t'. rewrite list_lookup_insert_eq by (by eapply lookup_lt_Some). split; [done|]. congruence.
  - exists u. rewrite list_lookup_insert_ne by done. rewrite Hne by done. done.
Qed.

Lemma sinv_step prefer s0 programs st st' : sstep prefer st st' -> SInv s0 programs st -> SInv s0 programs st'.
Proof.
  intros Hstep [Hmu Hths Hrun Hrep Hprog Hlen].
  destruct Hstep as [sh ths hist i o os Hi|mu mu' s ths hist i o os h Hi Hacq _|mu mu' s f s' ths hist i o os h a Hi Hbody Hrel];
    cbn [shared threads history Synced.mu lru] in *.
  - split; cbn [shared threads history]; [..|done|done| |by rewrite length_insert].
    + unfold mutex_ok in *. pose proof (insiders_insert Exclusive ths i _ (mkThread (o :: os) (Waiting (hash_of emptyKey emptyValue (lru sh) o))) Hi) as IE.
      pose proof (insiders_insert Shared ths i _ (mkThread (o :: os) (Waiting (hash_of emptyKey emptyValue (lru sh) o))) Hi) as IS.
      cbn in IE, IS. destruct Hmu as (? & ? & ?). split_and!; [lia|lia|done].
    + by apply Forall_insert.
    + by apply (programs_insert _ _ _ _ _ hist hist Hi).
  - split; cbn [shared threads history Synced.mu lru]; [..|done|done| |by rewrite length_insert].
    + by apply (mutex_enter mu).
    + apply Forall_insert; [done|]. split; [|done]. apply (Forall_lookup_1 _ _ _ _ Hths Hi).
    + by apply (programs_insert _ _ _ _ _ hist hist Hi).
  - destruct (Forall_lookup_1 _ _ _ _ Hths Hi) as [Hh Hf]; cbn in Hh, Hf. subst f h.
    rewrite body_step in Hbody. pose proof (stable_step emptyKey emptyValue o _ _ _ Hbody) as Hst.
    split; cbn [shared threads history Synced.mu lru]; [| | | | |by rewrite length_insert].
    + by apply (mutex_leave mu _ _ _ o _ _ _ Hmu Hi).
    + apply Forall_lookup. intros j t Hj. destruct (decide (i = j)) as [->|Hne].
      { rewrite list_lookup_insert_eq in Hj by (by eapply lookup_lt_Some). by injection Hj as <-. }
      rewrite list_lookup_insert_ne in Hj by done. pose proof (Forall_lookup_1 _ _ _ _ Hths Hj) as Ht.
      destruct (m_mode (method_of o)) eqn:Em.
      * pose proof (shared_reads o Em) as ->. by injection Hbody as _ <-.
      * destruct (exclusive_alone _ _ _ _ _ _ _ _ _ Hmu Hi Em Hj Hne). by apply (thread_ok_outside s).
    + rewrite !fmap_app. by apply (lru_run_snoc _ _ _ _ _ _ _ Hrun).
    + destruct Hrep as [c HR]. destruct (step_refines emptyKey emptyValue s c o HR) as (s1 & Hs1 & HR1).
      rewrite Hbody in Hs1. injection Hs1 as _ ->. by eexists.
    + apply (programs_insert _ _ _ _ _ hist _ Hi Hprog).
      * intros j Hj. rewrite calls_of_snoc. by rewrite decide_False.
      * rewrite calls_of_snoc, decide_True by done. by rewrite <- app_assoc.
Qed.

Lemma sinv_start sh programs :
  mu sh = mkMutex false 0 -> (exists c, Rep (lru sh) c) -> SInv (lru sh) programs (start sh programs).
Proof.
  intros Hmu Hrep. assert (forall m, insiders m ((fun p => mkThread p Idle) <$> programs) = 0%nat) as H0.
  { intros m. unfold insiders. induction programs as [|p ps IH]; [done|]. cbn [fmap list_fmap sum_list_with].
    rewrite IH. by destruct p. }
  split; cbn [shared threads history start]; [|..|by rewrite length_fmap].
  - rewrite Hmu. split_and!; [apply H0..|done].
  - by apply Forall_fmap, Forall_forall.
  - done.
  - done.
  - intros i p Hp. exists (mkThread p Idle). by rewrite list_lookup_fmap, Hp.
Qed.

Lemma sinv_steps prefer s0 programs n st st' : ssteps prefer n st st' -> SInv s0 programs st -> SInv s0 programs st'.
Proof. induction 1 as [st|n st st1 st2 _ IH Hstep]; [done|]. intros HI. by apply (sinv_step _ _ _ _ _ Hstep), IH. Qed.

Lemma NewSynced_inv cap size h sh programs :
  0 <= cap < 2 ^ 32 -> 0 <= size < 2 ^ 32 -> (forall k, 0 <= h k < 2 ^ 32) ->
  NewSyncedWithSize emptyKey emptyValue cap size (Some h) = Ok sh ->
  NewWithSize emptyKey emptyValue cap size (Some h) = Ok (lru sh) /\ SInv (lru sh) programs (start sh programs).
Proof.
  intros Hc Hs Hh. unfold NewSyncedWithSize. destruct (NewWithSize _ _ _ _ _) as [s|] eqn:E; [|done].
  intros [= <-]. split; [done|]. apply sinv_start; [done|].
  destruct (NewWithSize_Ok emptyKey emptyValue cap size (Some h) s Hc Hs E) as (h' & [= <-] & H1 & H2 & ->).
  exists (empty_cache cap). by apply initLRU_rep.
Qed.

(** ** The properties *)

(** C10: The synchronised cache is linearizable.  Whatever operations goroutines run
    on a new cache and however they interleave, in every state they reach the
    calls completed so far have the answers of the abstract cache run by a single
    caller in the order the calls unlocked, the array-backed cache has the state
    this run leaves, every goroutine's calls come in its program's order, and
    while a goroutine is inside with Lock no other is inside at all. *)
Theorem synced_linearizable prefer cap size h sh programs n st :
  0 <= cap < 2 ^ 32 -> 0 <= size < 2 ^ 32 -> (forall k, 0 <= h k < 2 ^ 32) ->
  NewSyncedWithSize emptyKey emptyValue cap size (Some h) = Ok sh ->
  ssteps prefer n (start sh programs) st ->
  let calls := (fun c => c.1.2) <$> history st in
  (fun c => c.2) <$> history st = (cache_run emptyKey emptyValue calls (empty_cache cap)).1
  /\ lru_run calls (lru sh) = Val ((fun c => c.2) <$> history st, lru (shared st))
  /\ (forall i p, programs !! i = Some p -> calls_of i (history st) `prefix_of` p)
  /\ (forall i j t u, threads st !! i = Some t -> threads st !! j = Some u -> inside Exclusive t = 1%nat ->
       i <> j -> inside Exclusive u = 0%nat /\ inside Shared u = 0%nat).
Proof.
  intros Hc Hs Hh Hnew Hsteps calls. destruct (NewSynced_inv cap size h sh programs Hc Hs Hh Hnew) as [Hlru HI].
  apply (sinv_steps _ _ _ _ _ _ Hsteps) in HI as [Hmu _ Hrun _ Hprog _]. fold calls in Hrun.
  destruct (new_run emptyKey emptyValue cap size h (lru sh) calls Hc Hs Hh Hlru) as (s' & Hrun' & _).
  rewrite Hrun in Hrun'. injection Hrun' as Ha _. split_and!; [done|done| |].
  - intros i p Hp. destruct (Hprog i p Hp) as (t & _ & <-). by eexists.
  - intros i j [[|o os] [|g|g f]] u Hi Hj Hin Hne; try done.
    apply (exclusive_alone _ _ i j o os g f u Hmu Hi); try done. cbn in Hin. by destruct (m_mode (method_of o)).
Qed.

(** *** Progress *)

Definition steps_left t : nat :=
  match t_phase t with Idle => 3 * length (t_todo t) | Waiting _ => 3 * length (t_todo t) - 1 | Inside _ _ => 3 * length (t_todo t) - 2 end.
Definition total_left st : nat := sum_list_with steps_left (threads st).

Lemma step_measure prefer st st' : sstep prefer st st' -> (total_left st = S (total_left st'))%nat.
Proof.
  destruct 1 as [sh ths hist i o os Hi|mu mu' s ths hist i o os h Hi _ _|mu mu' s f s' ths hist i o os h a Hi _ _];
    unfold total_left; cbn [threads].
  - pose proof (sum_insert steps_left ths i _ (mkThread (o :: os) (Waiting (hash_of emptyKey emptyValue (lru sh) o))) Hi) as E.
    unfold steps_left in E at 2 4. cbn in E. lia.
  - pose proof (sum_insert steps_left ths i _ (mkThread (o :: os) (Inside h s)) Hi) as E. unfold steps_left in E at 2 4. cbn in E. lia.
  - pose proof (sum_insert steps_left ths i _ (mkThread os Idle) Hi) as E. unfold steps_left in E at 2 4. cbn in E. lia.
Qed.

Lemma steps_measure prefer n st st' : ssteps prefer n st st' -> (n + total_left st' = total_left st)%nat.
Proof. induction 1 as [st|n st st1 st2 _ IH Hstep]; [done|]. apply step_measure in Hstep. lia. Qed.

(** Whoever is inside can leave. *)
Lemma inside_steps prefer s0 programs st i o os h f :
  SInv s0 programs st -> threads st !! i = Some (mkThread (o :: os) (Inside h f)) -> exists st', sstep prefer st st'.
Proof.
  intros [Hmu Hths _ [c HR] _ _] Hi. destruct st as [[mu s] ths hist]. cbn in *.
  destruct (Forall_lookup_1 _ _ _ _ Hths Hi) as [-> ->].
  destruct (step_refines emptyKey emptyValue s c o HR) as (s1 & Hs1 & _). rewrite <- body_step in Hs1.
  assert (exists mu', release (m_mode (method_of o)) mu = Some mu') as [mu' Hrel].
  { destruct Hmu as (HE & HS & _). pose proof (sum_lookup (inside Exclusive) ths i _ Hi) as H1.
    pose proof (sum_lookup (inside Shared) ths i _ Hi) as H2. fold (insiders Exclusive ths) in H1.
    fold (insiders Shared ths) in H2. cbn in H1, H2. unfold release. destruct (m_mode (method_of o)); cbn in H1, H2.
    - destruct (mu_readers mu); [lia|by eexists].
    - destruct (mu_writer mu); [by eexists|lia]. }
  eexists. by apply (step_unlock emptyKey emptyValue prefer mu mu' s s s1 ths hist i o os _ _ Hi Hs1).
Qed.

Definition is_inside t : Prop := match t_phase t with Inside _ _ => True | _ => False end.
#[local] Instance is_inside_dec t : Decision (is_inside t).
Proof. unfold is_inside. destruct (t_phase t); apply _. Defined.
#[local] Instance waits_exclusive_dec t : Decision (waits_exclusive emptyKey emptyValue t).
Proof. unfold waits_exclusive. destruct (t_todo t), (t_phase t); apply _. Defined.
#[local] Instance idle_dec t : Decision (t_todo t = [] /\ t_phase t = Idle).
Proof.
  destruct t as [[|o os] [|h|h f]]; cbn; first [left; done|right; by intros [? ?]].
Defined.

#[local] Instance finished_dec st : Decision (finished st).
Proof. unfold finished. apply _. Defined.

Lemma not_Forall_lookup {A} (P : A -> Prop) `{!forall x, Decision (P x)} (l : list A) :
  ~ Forall P l -> exists i x, l !! i = Some x /\ ~ P x.
Proof.
  intros Hf. destruct (Exists_exists (fun x => ~ P x) l) as [He _].
  destruct He as (x & Hx & Hp); [by apply not_Forall_Exists|]. apply list_elem_of_lookup in Hx as [i Hi]. eauto.
Qed.

(** Nobody inside: the mutex is free. *)
Lemma free_mutex mu ths : mutex_ok mu ths -> Forall (fun t => ~ is_inside t) ths -> mu = mkMutex false 0.
Proof.
  intros (HE & HS & _) Hf. assert (forall m, insiders m ths = 0%nat) as H0.
  { clear HE HS. intros m. unfold insiders. induction Hf as [|t ths Ht _ IH]; [done|]. cbn [sum_list_with]. rewrite IH.
    unfold inside, is_inside in *. destruct (t_todo t); [done|]. by destruct (t_phase t). }
  rewrite H0 in HE, HS. destruct mu as [[] r]; [done|]. cbn in HS. by subst.
Qed.

Lemma progress prefer s0 programs st : SInv s0 programs st -> ~ finished st -> exists st', sstep prefer st st'.
Proof.
  intros HI Hfin. pose proof HI as [Hmu Hths _ _ _ _].
  destruct (decide (Forall (fun t => ~ is_inside t) (threads st))) as [Hout|Hin].
  2:{ apply not_Forall_lookup in Hin as (i & t & Hi & Ht); [|apply _].
      pose proof (Forall_lookup_1 _ _ _ _ Hths Hi) as Hok. destruct t as [todo ph]. cbn in Ht.
      destruct ph as [|h|h f]; cbn in Ht; try tauto. destruct todo as [|o os]; [done|]. by apply (inside_steps prefer s0 programs st i o os h f). }
  pose proof (free_mutex _ _ Hmu Hout) as Hfree. destruct st as [[mu s] ths hist]. cbn in *. subst mu.
  assert (forall i o os h, ths !! i = Some (mkThread (o :: os) (Waiting h)) ->
    (m_mode (method_of o) = Shared -> prefer = true -> Forall (fun t => ~ waits_exclusive emptyKey emptyValue t) ths) ->
    exists st', sstep prefer (mkMachine (mkSynced (mkMutex false 0) s) ths hist) st') as Henter.
  { intros i o os h Hi Hp. assert (exists mu', acquire (m_mode (method_of o)) (mkMutex false 0) = Some mu') as [mu' Hmu'].
    { destruct (m_mode (method_of o)); by eexists. }
    eexists. by apply (step_lock emptyKey emptyValue prefer _ mu' s ths hist i o os h). }
  destruct (decide (Forall (fun t => ~ waits_exclusive emptyKey emptyValue t) ths)) as [Hw|Hw].
  - apply not_Forall_lookup in Hfin as (i & [todo ph] & Hi & Ht); [|apply _].
    pose proof (Forall_lookup_1 _ _ _ _ Hths Hi) as Hok. pose proof (Forall_lookup_1 _ _ _ _ Hout Hi) as Ho.
    destruct ph as [|h|h f], todo as [|o os]; cbn in *; try tauto.
    + eexists. by apply step_hash with (o := o) (os := os) (i := i).
    + by apply (Henter i o os h).
  - apply not_Forall_lookup in Hw as (i & [todo ph] & Hi & Ht); [|apply _].
    destruct todo as [|o os], ph as [|h|h f]; cbn in Ht; try tauto.
    apply (Henter i o os h Hi). intros E. exfalso. apply Ht. intros E'. congruence.
Qed.

(** C33: The goroutines all finish.  No state they reach is a deadlock: as long as a
    goroutine has something left to do, one of them can take a step, under either
    policy of the lock; and no run is longer than three steps per call, so every
    run that is never stuck ends with all calls completed. *)
Theorem synced_progress prefer cap size h sh programs n st :
  0 <= cap < 2 ^ 32 -> 0 <= size < 2 ^ 32 -> (forall k, 0 <= h k < 2 ^ 32) ->
  NewSyncedWithSize emptyKey emptyValue cap size (Some h) = Ok sh ->
  ssteps prefer n (start sh programs) st ->
  (n <= 3 * sum_list_with length programs)%nat
  /\ (finished st \/ exists st', sstep prefer st st')
  /\ (n = 3 * sum_list_with length programs -> finished st)%nat
  /\ (finished st -> forall i p, programs !! i = Some p -> calls_of i (history st) = p).
Proof.
  intros Hc Hs Hh Hnew Hsteps. destruct (NewSynced_inv cap size h sh programs Hc Hs Hh Hnew) as [_ HI].
  apply (sinv_steps _ _ _ _ _ _ Hsteps) in HI. clear Hnew Hc Hs Hh.
  assert (n + total_left st = 3 * sum_list_with length programs)%nat as Hn.
  { assert (total_left (start sh programs) = 3 * sum_list_with length programs)%nat as <-.
    { unfold total_left. cbn [threads start]. clear. induction programs as [|p ps IH]; [done|].
      cbn [fmap list_fmap sum_list_with]. rewrite IH. unfold steps_left. cbn. lia. }
    by apply (steps_measure prefer). }
  pose proof (progress prefer _ _ _ HI) as Hp. split_and!.
  - lia.
  - destruct (decide (finished st)) as [?|Hf]; [by left|right; by apply Hp].
  - intros E. destruct (decide (finished st)) as [?|Hf]; [done|]. destruct (Hp Hf) as [st' Hst].
    pose proof (step_measure _ _ _ Hst). lia.
  - intros Hf i p Hp'. destruct (si_programs _ _ _ HI i p Hp') as (t & Ht & <-).
    destruct (Forall_lookup_1 _ _ _ _ Hf Ht) as [-> _]. by rewrite app_nil_r.
Qed.
End Theorems.

(** ** Witnesses: two goroutines on a cache of two entries *)

Definition two_programs : list (list (op Z Z)) := [[OAdd 10 1 100; OLen]; [OGet 10 1]].
Definition small_synced : SyncedLRU Z Z :=
  match NewSynced 0 0 2 (Some small_hash) with Ok s => s | Err _ => mkSynced (mkMutex false 0) (initLRU 1 1 small_hash [] []) end.

(** The first goroutine adds its key while the second waits in Lock. *)
Definition waiting_state (s s' : @LRU Z Z) : machine Z Z :=
  mkMachine (mkSynced (mkMutex false 0) s')
    [mkThread [OLen] Idle; mkThread [OGet 10 1] (Waiting (hash s 1))] [(0%nat, OAdd 10 1 100, ABool false)].

Lemma waiting_steps s s' :
  lru_step 0 0 (OAdd 10 1 100) s = Val (ABool false, s') ->
  ssteps 0 0 true 4 (start (mkSynced (mkMutex false 0) s) two_programs) (waiting_state s s').
Proof.
  intros Hs. eapply ssteps_step; [eapply ssteps_step; [eapply ssteps_step; [eapply ssteps_step; [apply ssteps_refl|]|]|]|].
  - by apply (step_hash 0 0 true _ _ _ 0 (OAdd 10 1 100) [OLen]).
  - by apply (step_hash 0 0 true _ _ _ 1 (OGet 10 1) []).
  - by apply (step_lock 0 0 true _ (mkMutex true 0) _ _ _ 0 (OAdd 10 1 100) [OLen] (hash s 1)).
  - by apply (step_unlock 0 0 true (mkMutex true 0) (mkMutex false 0) s s s'
      [mkThread [OAdd 10 1 100; OLen] (Inside (hash s 1) s); mkThread [OGet 10 1] (Waiting (hash s 1))] [] 0
      (OAdd 10 1 100) [OLen] (hash s 1) (ABool false)).
Qed.

Definition after_add : @LRU Z Z :=
  match lru_step 0 0 (OAdd 10 1 100) (lru small_synced) with Val (_, s) => s | _ => lru small_synced end.
Definition some_state : machine Z Z := waiting_state (lru small_synced) after_add.

Lemma some_steps : ssteps 0 0 true 4 (start small_synced two_programs) some_state.
Proof.
  apply (waiting_steps (lru small_synced) after_add).
  destruct (step_refines 0 0 (lru small_synced) (empty_cache 2) (OAdd 10 1 100)) as (s' & Hs & _).
  - apply initLRU_rep; [lia|done|exact (fun k => u32_range k)].
  - unfold after_add. by rewrite Hs.
Qed.

Lemma synced_linearizable_witness :
  let calls := (fun c => c.1.2) <$> history some_state in
  (fun c => c.2) <$> history some_state = (cache_run 0 0 calls (empty_cache 2)).1
  /\ lru_run 0 0 calls (lru small_synced) = Val ((fun c => c.2) <$> history some_state, lru (shared some_state))
  /\ (forall i p, two_programs !! i = Some p -> calls_of i (history some_state) `prefix_of` p)
  /\ (forall i j t u, threads some_state !! i = Some t -> threads some_state !! j = Some u -> inside 0 0 Exclusive t = 1%nat ->
       i <> j -> inside 0 0 Exclusive u = 0%nat /\ inside 0 0 Shared u = 0%nat).
Proof.
  apply (synced_linearizable 0 0 true 2 2 small_hash small_synced two_programs 4 some_state);
    [lia|lia|exact (fun k => u32_range k)|reflexivity|exact some_steps].
Defined.

Lemma synced_progress_witness :
  (4 <= 3 * sum_list_with length two_programs)%nat
  /\ (finished some_state \/ exists st', sstep 0 0 true some_state st')
  /\ (4 = 3 * sum_list_with length two_programs -> finished some_state)%nat
  /\ (finished some_state -> forall i p, two_programs !! i = Some p -> calls_of i (history some_state) = p).
Proof.
  apply (synced_progress 0 0 true 2 2 small_hash small_synced two_programs 4 some_state);
    [lia|lia|exact (fun k => u32_range k)|reflexivity|exact some_steps].
Defined.
