(* ===== verification/Buf.v ===== *)
(** * common/buf: the byte buffer and its allocator

    A [Buffer] is a window [start, end) into a byte array with room up to
    [capacity].  The array is modelled with its whole capacity ([data] is the
    slice up to cap, [dlen] its len), because Go checks a slice expression
    against cap and an index against len.  Methods that return a slice return
    the range of the array it views, so that writes through it can be
    modelled. *)

From S2P Require Import Prelude GoBits GoIO.
#[local] Open Scope go_scope.

Definition ErrShortBuffer : error := ErrNew "short buffer".
Definition ErrIncorrectSize : error := ErrNew "allocator Put() incorrect buffer size".

(** ** Allocator (alloc.go, pool.go)

    A pooled buffer is an array whose capacity is the size of its pool; what the
    pool hands out is arbitrary bytes of that size. *)

Definition MaxPooledBufferSize : Z := Z.shiftl 1 16 + Z.shiftl 1 13.
Definition BufferSize : Z := 32 * 1024.
Definition UDPBufferSize : Z := 16 * 1024.

Definition msb (size : Z) : Z := u16 (Len32 (u32 size) - 1).

(** The array sizes of the twelve pools. *)
Definition pool_size (index : Z) : option Z :=
  if decide (0 <= index <= 10) then Some (Z.shiftl 1 (index + 6))
  else if decide (index = 11) then Some MaxPooledBufferSize else None.

Definition pool_index (size : Z) : Z :=
  if decide (size > 64) then
    if decide (size > Z.shiftl 1 16) then 11
    else
      let index := msb size in
      let index := if decide (size <> Z.shiftl 1 index) then u16 (index + 1) else index in
      u16 (index - 6)
  else 0.

(** [Get size] as the capacity of the slice it returns, [None] for nil; the
    slice has length [size]. *)
Definition alloc_Get (size : Z) : outcome (option Z) :=
  if decide (size <= 0 \/ size > MaxPooledBufferSize) then Val None
  else
    match pool_size (pool_index size) with
    | Some c => if decide (size <= c) then Val (Some c) else Panic
    | None => Panic
    end.

(** [Put buf] for a slice of capacity [c]; converting a slice to an array
    pointer panics when the slice is shorter than the array. *)
Definition alloc_Put (c : Z) : outcome (option error) :=
  let index := msb c in
  let put index :=
    match pool_size index with
    | Some n => if decide (n <= c) then Val None else Panic
    | None => Panic
    end in
  if decide (c = MaxPooledBufferSize) then put 11
  else if decide (c < 64 \/ c > 65536 \/ c <> Z.shiftl 1 index) then Val (Some ErrIncorrectSize)
  else put (u16 (index - 6)).

Definition Get (size : Z) : outcome (option Z) :=
  if decide (size = 0) then Val None else alloc_Get size.
Definition Put (c : Z) : outcome (option error) := alloc_Put c.

(** ** Buffer (buffer.go) *)

Record Buffer := mkBuffer {
  data : list Z; dlen : Z;
  b_start : Z; b_end : Z; capacity : Z; refs : Z; managed : bool }.

Definition zeroBuffer : Buffer := mkBuffer [] 0 0 0 0 0 false.
Definition with_data d b := mkBuffer d (dlen b) (b_start b) (b_end b) (capacity b) (refs b) (managed b).
Definition with_start i b := mkBuffer (data b) (dlen b) i (b_end b) (capacity b) (refs b) (managed b).
Definition with_end i b := mkBuffer (data b) (dlen b) (b_start b) i (capacity b) (refs b) (managed b).
Definition with_capacity n b := mkBuffer (data b) (dlen b) (b_start b) (b_end b) n (refs b) (managed b).
Definition with_refs n b := mkBuffer (data b) (dlen b) (b_start b) (b_end b) (capacity b) n (managed b).

Abbreviation M := (GoM Buffer).

(** A slice of the buffer's array: the positions from [v_lo] up to [v_hi]. *)
Definition view : Type := Z * Z.
Definition view_bytes (v : view) (d : list Z) : list Z :=
  take (Z.to_nat (v.2 - v.1)) (drop (Z.to_nat v.1) d).

(** [b.data[lo:hi]]. *)
Definition slice (lo hi : Z) : M view := fun b =>
  if decide (0 <= lo <= hi /\ hi <= zlen (data b)) then Val ((lo, hi), b) else Panic.

(** [b.data[i]] and [b.data[i] = x]. *)
Definition index (i : Z) : M Z := fun b =>
  if decide (0 <= i < dlen b) then lift (at_ (data b) i) b else Panic.
Definition set_index (i x : Z) : M unit := fun b =>
  if decide (0 <= i < dlen b)
  then match set_at (data b) i x with Some d => Val (tt, with_data d b) | None => Panic end
  else Panic.

(** Overwriting the bytes from position [lo] on. *)
Definition splice (d : list Z) (lo : Z) (bs : list Z) : list Z :=
  take (Z.to_nat lo) d ++ bs ++ drop (Z.to_nat lo + length bs) d.

(** [copy(v, src)]. *)
Definition copy_to (v : view) (src : list Z) : M Z := fun b =>
  let n := Nat.min (Z.to_nat (v.2 - v.1)) (length src) in
  Val (Z.of_nat n, with_data (splice (data b) v.1 (take n src)) b).

(** [As] and [With] of a slice with bytes [p] and capacity bytes [rest] behind it. *)
Definition As (p rest : list Z) : Buffer := mkBuffer (p ++ rest) (zlen p) 0 (zlen p) (zlen p) 0 false.
Definition With (p rest : list Z) : Buffer := mkBuffer (p ++ rest) (zlen p) 0 0 (zlen p) 0 false.

(** A buffer on a pooled array; [junk] is what the pool hands out. *)
Definition pooled (junk : Z -> list Z) (size c : Z) : Buffer :=
  mkBuffer (junk c) size 0 0 size 0 true.

Definition New (junk : Z -> list Z) : outcome Buffer :=
  let! d := Get BufferSize in
  Val (match d with Some c => pooled junk BufferSize c | None => mkBuffer [] 0 0 0 BufferSize 0 true end).
Definition NewPacket (junk : Z -> list Z) : outcome Buffer :=
  let! d := Get UDPBufferSize in
  Val (match d with Some c => pooled junk UDPBufferSize c | None => mkBuffer [] 0 0 0 UDPBufferSize 0 true end).
Definition NewSize (junk : Z -> list Z) (size : Z) : outcome Buffer :=
  if decide (size = 0) then Val zeroBuffer
  else
    let! d := Get size in
    match d with
    | None => if makeslice_ok 1 size
              then Val (mkBuffer (replicate (Z.to_nat size) 0) size 0 0 size 0 false) else Panic
    | Some c => Val (pooled junk size c)
    end.

(** *** Reading the window *)

Definition Start : M Z := gets b_start.
Definition Len : M Z := gets (fun b => i64 (b_end b - b_start b)).
Definition Cap : M Z := gets capacity.
Definition RawCap : M Z := gets dlen.
Definition FreeLen : M Z := gets (fun b => i64 (capacity b - b_end b)).
Definition IsEmpty (b : Buffer) : bool := bool_decide (i64 (b_end b - b_start b) = 0).
Definition IsFull (b : Buffer) : bool := bool_decide (b_end b = capacity b).

Definition Bytes : M view := s <- gets b_start ;; e <- gets b_end ;; slice s e.
Definition From (n : Z) : M view := s <- gets b_start ;; e <- gets b_end ;; slice (i64 (s + n)) e.
Definition To (n : Z) : M view := s <- gets b_start ;; slice s (i64 (s + n)).
Definition Range (lo hi : Z) : M view := s <- gets b_start ;; slice (i64 (s + lo)) (i64 (s + hi)).
Definition Index (n : Z) : M view := s <- gets b_start ;; slice (i64 (s + n)) (i64 (s + n)).
Definition FreeBytes : M view := e <- gets b_end ;; c <- gets capacity ;; slice e c.
Definition Byte (i : Z) : M Z := s <- gets b_start ;; index (i64 (s + i)).
Definition SetByte (i x : Z) : M unit := s <- gets b_start ;; set_index (i64 (s + i)) x.

(** *** Moving the window *)

Definition Extend (n : Z) : M view :=
  e <- gets b_end ;; c <- gets capacity ;;
  let e' := i64 (e + n) in
  if decide (e' > c) then panic
  else ext <- slice e e' ;; modify (with_end e') ;; ret ext.

Definition Advance (from : Z) : M unit :=
  modify (fun b => with_start (i64 (b_start b + from)) b) ;;
  modify (fun b => if decide (b_end b < b_start b) then with_end (b_start b) b else b).

Definition Truncate (to : Z) : M unit := modify (fun b => with_end (i64 (b_start b + to)) b).

Definition ExtendHeader (n : Z) : M view :=
  s <- gets b_start ;;
  if decide (s < n) then panic
  else
    modify (fun b => with_start (i64 (b_start b - n)) b) ;;
    s <- gets b_start ;; slice s (i64 (s + n)).

Definition Resize (s e : Z) : M unit :=
  modify (with_start s) ;; modify (fun b => with_end (i64 (b_start b + e)) b).

Definition Reserve (n : Z) : M unit :=
  c <- gets capacity ;;
  if decide (n > c) then panic else modify (with_capacity (i64 (c - n))).

Definition OverCap (n : Z) : M unit :=
  c <- gets capacity ;; l <- gets dlen ;;
  if decide (i64 (c + n) > l) then panic else modify (with_capacity (i64 (c + n))).

Definition Reset : M unit :=
  modify (with_start 0) ;; modify (with_end 0) ;; modify (fun b => with_capacity (dlen b) b).
Definition FullReset : M unit := Reset.

(** *** Writing *)

Definition Write (p : list Z) : M (Z * option error) :=
  if decide (length p = 0%nat) then ret (0, None)
  else
    full <- gets IsFull ;;
    if full : bool then ret (0, Some ErrShortBuffer)
    else
      v <- FreeBytes ;;
      n <- copy_to v p ;;
      modify (fun b => with_end (i64 (b_end b + n)) b) ;;
      ret (n, None).

Definition WriteString (p : list Z) : M (Z * option error) :=
  if decide (length p = 0%nat) then ret (0, None)
  else
    full <- gets IsFull ;;
    if full : bool then ret (0, Some ErrShortBuffer)
    else
      v <- FreeBytes ;;
      n <- copy_to v p ;;
      modify (fun b => with_end (i64 (b_end b + n)) b) ;;
      ret (n, None).

Definition WriteRune (r : Z) : M (Z * option error) := Write [u8 r].

Definition WriteByte (d : Z) : M (option error) :=
  full <- gets IsFull ;;
  if full : bool then ret (Some ErrShortBuffer)
  else
    e <- gets b_end ;; set_index e d ;;
    modify (fun b => with_end (i64 (b_end b + 1)) b) ;; ret None.

Definition WriteZero : M (option error) :=
  full <- gets IsFull ;;
  if full : bool then ret (Some ErrShortBuffer)
  else
    e <- gets b_end ;; set_index e 0 ;;
    modify (fun b => with_end (i64 (b_end b + 1)) b) ;; ret None.

Definition WriteZeroN (n : Z) : M (option error) :=
  e <- gets b_end ;; c <- gets capacity ;;
  if decide (i64 (e + n) > c) then ret (Some ErrShortBuffer)
  else v <- Extend n ;; copy_to v (replicate (Z.to_nat n) 0) ;; ret None.

(** [random] is what crypto/rand fills the slice with. *)
Definition WriteRandom (random : list Z) (size : Z) : M view :=
  v <- Extend size ;; copy_to v random ;; ret v.

(** *** Reading *)

Definition ReadByte : M (Z * option error) :=
  empty <- gets IsEmpty ;;
  if empty : bool then ret (0, Some EOF)
  else
    s <- gets b_start ;; nb <- index s ;;
    modify (fun b => with_start (i64 (b_start b + 1)) b) ;; ret (nb, None).

Definition ReadBytes (n : Z) : M (option view * option error) :=
  l <- Len ;;
  if decide (l < n) then ret (None, Some EOF)
  else
    s <- gets b_start ;; v <- slice s (i64 (s + n)) ;;
    modify (fun b => with_start (i64 (b_start b + n)) b) ;; ret (Some v, None).

(** [Read] into a slice of length [n]: the bytes copied into it. *)
Definition Read (n : nat) : M (list Z * option error) :=
  empty <- gets IsEmpty ;;
  if empty : bool then ret ([], Some EOF)
  else
    v <- Bytes ;;
    bs <- gets (fun b => take n (view_bytes v (data b))) ;;
    modify (fun b => with_start (i64 (b_start b + zlen bs)) b) ;;
    ret (bs, None).

Definition WriteTo (w : writer) : M (option error * writer) :=
  v <- Bytes ;; gets (fun b => WriteBytes (view_bytes v (data b)) w).

(** *** Reading from an io.Reader

    A reader is a state and a step: asked for at most [n] bytes it delivers some
    bytes and possibly an error. *)

Class Reader (R : Type) := rd_step : R -> nat -> (list Z * option error) * R.

Section ReadFrom.
Context {R : Type} `{Reader R}.

Definition ReadOnceFrom (r : R) : M (Z * option error * R) :=
  full <- gets IsFull ;;
  if full : bool then ret (0, Some ErrShortBuffer, r)
  else
    v <- FreeBytes ;;
    let '((bs, err), r') := rd_step r (Z.to_nat (v.2 - v.1)) in
    copy_to v bs ;;
    modify (fun b => with_end (i64 (b_end b + zlen bs)) b) ;;
    ret (zlen bs, err, r').

(** [io.ReadAtLeast(r, buf, min)] for a buffer of [room] bytes: reads until
    [min] bytes have arrived or an error occurs. *)
Fixpoint ReadAtLeast (fuel : nat) (r : R) (room min : nat) (acc : list Z)
    : outcome (list Z * option error * R) :=
  match fuel with
  | O => OutOfFuel
  | S f =>
      if decide (min <= length acc)%nat then Val (acc, None, r)
      else
        let '((bs, err), r') := rd_step r (room - length acc) in
        let acc := acc ++ bs in
        match err with
        | None => ReadAtLeast f r' room min acc
        | Some e =>
            Val (acc, (if decide (min <= length acc)%nat then None
                       else if decide (e = EOF /\ (0 < length acc)%nat) then Some ErrUnexpectedEOF
                       else Some e), r')
        end
  end.

Definition ReadFullFrom (fuel : nat) (r : R) (size : Z) : M (Z * option error * R) :=
  e <- gets b_end ;; c <- gets capacity ;;
  if decide (i64 (e + size) > c) then ret (0, Some ErrShortBuffer, r)
  else
    v <- slice e (i64 (e + size)) ;;
    fun b =>
      let n := Z.to_nat (v.2 - v.1) in
      match ReadAtLeast fuel r n n [] with
      | Val (bs, err, r') =>
          (copy_to v bs ;; modify (fun b => with_end (i64 (b_end b + zlen bs)) b) ;;
           ret (zlen bs, err, r')) b
      | Panic => Panic
      | OutOfFuel => OutOfFuel
      end.

Definition ReadAtLeastFrom (fuel : nat) (r : R) (min : Z) : M (Z * option error * R) :=
  if decide (min <= 0) then ReadOnceFrom r
  else
    full <- gets IsFull ;;
    if full : bool then ret (0, Some ErrShortBuffer, r)
    else
      v <- FreeBytes ;;
      if decide (v.2 - v.1 < min) then ret (0, Some ErrShortBuffer, r)   (* io.ReadAtLeast *)
      else fun b =>
        match ReadAtLeast fuel r (Z.to_nat (v.2 - v.1)) (Z.to_nat min) [] with
        | Val (bs, err, r') =>
            (copy_to v bs ;; modify (fun b => with_end (i64 (b_end b + zlen bs)) b) ;;
             ret (zlen bs, err, r')) b
        | Panic => Panic
        | OutOfFuel => OutOfFuel
        end.

(** The loop of ReadFrom, with the count [n] of the bytes read so far. *)
Fixpoint ReadFrom_loop (fuel : nat) (r : R) (n : Z) : M (Z * option error * R) :=
  match fuel with
  | O => fun _ => OutOfFuel
  | S f =>
      full <- gets IsFull ;;
      if full : bool then ret (0, Some ErrShortBuffer, r)
      else
        v <- FreeBytes ;;
        let '((bs, err), r') := rd_step r (Z.to_nat (v.2 - v.1)) in
        copy_to v bs ;;
        modify (fun b => with_end (i64 (b_end b + zlen bs)) b) ;;
        let n := i64 (n + zlen bs) in
        match err with
        | None => ReadFrom_loop f r' n
        | Some EOF => ret (n, None, r')
        | Some e => ret (n, Some e, r')
        end
  end.

Definition ReadFrom (fuel : nat) (r : R) : M (Z * option error * R) := ReadFrom_loop fuel r 0.
End ReadFrom.

(** *** References and release *)

Definition IncRef : M unit := modify (fun b => with_refs (i32 (refs b + 1)) b).
Definition DecRef : M unit := modify (fun b => with_refs (i32 (refs b - 1)) b).

(** The second component tells whether the array went back to the pool. *)
Definition Release : M bool := fun b =>
  if negb (managed b) then Val (false, b)
  else if decide (refs b > 0) then Val (false, b)
  else
    match Put (zlen (data b)) with
    | Val None => Val (true, zeroBuffer)
    | Val (Some _) => Panic
    | Panic => Panic
    | OutOfFuel => OutOfFuel
    end.

Definition ToOwned (junk : Z -> list Z) (b : Buffer) : outcome Buffer :=
  let! n := NewSize junk (dlen b) in
  let! dst := slice (b_start b) (b_end b) n in
  let! src := slice (b_start b) (b_end b) b in
  let! r := copy_to dst.1 (view_bytes src.1 (data b)) n in
  Val (with_capacity (capacity b) (with_end (b_end b) (with_start (b_start b) r.2))).

(** *** Several buffers (multi.go) *)

Fixpoint LenMulti_from (n : Z) (buffers : list Buffer) : Z :=
  match buffers with
  | [] => n
  | b :: bs => LenMulti_from (i64 (n + i64 (b_end b - b_start b))) bs
  end.
Definition LenMulti (buffers : list Buffer) : Z := LenMulti_from 0 buffers.

Fixpoint ToSliceMulti (buffers : list Buffer) : outcome (list (list Z)) :=
  match buffers with
  | [] => Val []
  | b :: bs =>
      let! v := Bytes b in
      let! l := ToSliceMulti bs in Val (view_bytes v.1 (data b) :: l)
  end.

(** [CopyMulti] into a slice holding [to]: the new contents and the count. *)
Fixpoint CopyMulti_from (n : Z) (to : list Z) (buffers : list Buffer) : outcome (list Z * Z) :=
  match buffers with
  | [] => Val (to, n)
  | b :: bs =>
      if decide (0 <= n <= zlen to) then
        let! v := Bytes b in
        let src := view_bytes v.1 (data b) in
        let k := Nat.min (length to - Z.to_nat n) (length src) in
        CopyMulti_from (i64 (n + Z.of_nat k)) (splice to n (take k src)) bs
      else Panic
  end.
Definition CopyMulti (to : list Z) (buffers : list Buffer) : outcome (list Z * Z) :=
  CopyMulti_from 0 to buffers.
