(* ===== verification/BufTheorems.v ===== *)
(** * common/buf: a buffer is four stretches of bytes

    A well-formed buffer is its array cut at start, end and capacity.  Every
    method is a rewriting of the four pieces, which is the abstract buffer below;
    the theorems say that the methods of Buf.v do exactly that. *)

From S2P Require Import Prelude GoBits GoIO Buf.
#[local] Open Scope go_scope.

(** The consumed bytes (headroom), the content, the free room, what [Reserve] has
    put out of reach, and the capacity of the array behind its length. *)
Record window := mkWindow {
  before : list Z; content : list Z; free : list Z; reserved : list Z; spare : list Z }.

Record Rep (b : Buffer) (z : window) : Prop := {
  rep_data : data b = before z ++ content z ++ free z ++ reserved z ++ spare z;
  rep_start : b_start b = zlen (before z);
  rep_end : b_end b = zlen (before z) + zlen (content z);
  rep_capacity : capacity b = zlen (before z) + zlen (content z) + zlen (free z);
  rep_dlen : dlen b = zlen (before z) + zlen (content z) + zlen (free z) + zlen (reserved z);
  rep_small : zlen (data b) <= maxAlloc;
}.

Inductive bop :=
  | BWrite (p : list Z) | BWriteString (p : list Z) | BWriteByte (d : Z) | BWriteZero
  | BWriteZeroN (n : Z) | BWriteRandom (random : list Z)
  | BExtend (n : Z) | BExtendHeader (n : Z) | BAdvance (n : Z) | BTruncate (n : Z)
  | BResize (s e : Z) | BReserve (n : Z) | BOverCap (n : Z) | BReset
  | BRead (n : nat) | BReadByte | BReadBytes (n : Z)
  | BBytes | BFrom (n : Z) | BTo (n : Z) | BRange (lo hi : Z) | BByte (i : Z) | BSetByte (i x : Z)
  | BLen | BFreeLen | BCap | BFreeBytes.

(** What a method answers: the bytes of the slice it returns, a number, an error. *)
Record bres := mkRes { r_bytes : list Z; r_num : Z; r_err : option error }.
Definition done_ : bres := mkRes [] 0 None.

Definition viewed (m : GoM Buffer view) : GoM Buffer bres :=
  v <- m ;; bs <- gets (fun b => view_bytes v (data b)) ;; ret (mkRes bs 0 None).

Definition buf_step (o : bop) : GoM Buffer bres :=
  match o with
  | BWrite p => r <- Write p ;; ret (mkRes [] r.1 r.2)
  | BWriteString p => r <- WriteString p ;; ret (mkRes [] r.1 r.2)
  | BWriteByte d => e <- WriteByte d ;; ret (mkRes [] 0 e)
  | BWriteZero => e <- WriteZero ;; ret (mkRes [] 0 e)
  | BWriteZeroN n => e <- WriteZeroN n ;; ret (mkRes [] 0 e)
  | BWriteRandom random => viewed (WriteRandom random (zlen random))
  | BExtend n => viewed (Extend n)
  | BExtendHeader n => viewed (ExtendHeader n)
  | BAdvance n => Advance n ;; ret done_
  | BTruncate n => Truncate n ;; ret done_
  | BResize s e => Resize s e ;; ret done_
  | BReserve n => Reserve n ;; ret done_
  | BOverCap n => OverCap n ;; ret done_
  | BReset => Reset ;; ret done_
  | BRead n => r <- Read n ;; ret (mkRes r.1 0 r.2)
  | BReadByte => r <- ReadByte ;; ret (mkRes [] r.1 r.2)
  | BReadBytes n =>
      r <- ReadBytes n ;;
      bs <- gets (fun b => match r.1 with Some v => view_bytes v (data b) | None => [] end) ;;
      ret (mkRes bs 0 r.2)
  | BBytes => viewed Bytes
  | BFrom n => viewed (From n)
  | BTo n => viewed (To n)
  | BRange lo hi => viewed (Range lo hi)
  | BByte i => x <- Byte i ;; ret (mkRes [] x None)
  | BSetByte i x => SetByte i x ;; ret done_
  | BLen => n <- Len ;; ret (mkRes [] n None)
  | BFreeLen => n <- FreeLen ;; ret (mkRes [] n None)
  | BCap => n <- Cap ;; ret (mkRes [] n None)
  | BFreeBytes => viewed FreeBytes
  end.

(** The same on the four pieces; [None] when the request does not fit, which
    the code does not allow its callers. *)
Definition fits (n : Z) (l : list Z) : Prop := 0 <= n <= zlen l.
#[export] Instance fits_dec n l : Decision (fits n l).
Proof. unfold fits. apply _. Defined.

(** Appending [p] in place of the first free bytes. *)
Definition push (p : list Z) (z : window) : window :=
  mkWindow (before z) (content z ++ p) (zdrop (zlen p) (free z)) (reserved z) (spare z).
(** Consuming [n] bytes of content. *)
Definition pop (n : Z) (z : window) : window :=
  mkWindow (before z ++ ztake n (content z)) (zdrop n (content z)) (free z) (reserved z) (spare z).

Definition write_step (p : list Z) (z : window) : bres * window :=
  if decide (length p = 0%nat) then (done_, z)
  else if decide (zlen (free z) = 0) then (mkRes [] 0 (Some ErrShortBuffer), z)
  else let p' := ztake (Z.min (zlen (free z)) (zlen p)) p in (mkRes [] (zlen p') None, push p' z).

Definition write_all (p : list Z) (z : window) : bres * window :=
  if decide (zlen p <= zlen (free z)) then (done_, push p z)
  else (mkRes [] 0 (Some ErrShortBuffer), z).

Definition window_step (o : bop) (z : window) : option (bres * window) :=
  match o with
  | BWrite p => Some (write_step p z)
  | BWriteString p => Some (write_step p z)
  | BWriteByte d => Some (write_all [d] z)
  | BWriteZero => Some (write_all [0] z)
  | BWriteZeroN n => if decide (0 <= n <= maxAlloc) then Some (write_all (replicate (Z.to_nat n) 0) z) else None
  | BWriteRandom random =>
      if decide (zlen random <= zlen (free z)) then Some (mkRes random 0 None, push random z) else None
  | BExtend n =>
      if decide (fits n (free z))
      then Some (mkRes (ztake n (free z)) 0 None, push (ztake n (free z)) z) else None
  | BExtendHeader n =>
      if decide (fits n (before z)) then
        let k := zlen (before z) - n in
        Some (mkRes (zdrop k (before z)) 0 None,
              mkWindow (ztake k (before z)) (zdrop k (before z) ++ content z) (free z) (reserved z) (spare z))
      else None
  | BAdvance n => if decide (fits n (content z)) then Some (done_, pop n z) else None
  | BTruncate n =>
      if decide (fits n (content z)) then
        Some (done_, mkWindow (before z) (ztake n (content z)) (zdrop n (content z) ++ free z) (reserved z) (spare z))
      else None
  | BResize s e =>
      let all := before z ++ content z ++ free z in
      if decide (0 <= s /\ 0 <= e /\ s + e <= zlen all) then
        Some (done_, mkWindow (ztake s all) (ztake e (zdrop s all)) (zdrop (s + e) all) (reserved z) (spare z))
      else None
  | BReserve n =>
      if decide (fits n (free z)) then
        let k := zlen (free z) - n in
        Some (done_, mkWindow (before z) (content z) (ztake k (free z)) (zdrop k (free z) ++ reserved z) (spare z))
      else None
  | BOverCap n =>
      if decide (fits n (reserved z)) then
        Some (done_, mkWindow (before z) (content z) (free z ++ ztake n (reserved z))
                       (zdrop n (reserved z)) (spare z))
      else None
  | BReset =>
      Some (done_, mkWindow [] [] (before z ++ content z ++ free z ++ reserved z) [] (spare z))
  | BRead n =>
      if decide (zlen (content z) = 0) then Some (mkRes [] 0 (Some EOF), z)
      else let k := Z.min (Z.of_nat n) (zlen (content z)) in
           Some (mkRes (ztake k (content z)) 0 None, pop k z)
  | BReadByte =>
      match content z with
      | [] => Some (mkRes [] 0 (Some EOF), z)
      | x :: _ => Some (mkRes [] x None, pop 1 z)
      end
  | BReadBytes n =>
      if decide (zlen (content z) < n) then Some (mkRes [] 0 (Some EOF), z)
      else if decide (0 <= n) then Some (mkRes (ztake n (content z)) 0 None, pop n z) else None
  | BBytes => Some (mkRes (content z) 0 None, z)
  | BFrom n => if decide (fits n (content z)) then Some (mkRes (zdrop n (content z)) 0 None, z) else None
  | BTo n => if decide (fits n (content z)) then Some (mkRes (ztake n (content z)) 0 None, z) else None
  | BRange lo hi =>
      if decide (0 <= lo <= hi /\ hi <= zlen (content z))
      then Some (mkRes (ztake (hi - lo) (zdrop lo (content z))) 0 None, z) else None
  | BByte i => match at_ (content z) i with Some x => Some (mkRes [] x None, z) | None => None end
  | BSetByte i x =>
      match set_at (content z) i x with
      | Some c => Some (done_, mkWindow (before z) c (free z) (reserved z) (spare z))
      | None => None
      end
  | BLen => Some (mkRes [] (zlen (content z)) None, z)
  | BFreeLen => Some (mkRes [] (zlen (free z)) None, z)
  | BCap => Some (mkRes [] (zlen (before z) + zlen (content z) + zlen (free z)) None, z)
  | BFreeBytes => Some (mkRes (free z) 0 None, z)
  end.

(** ** Cutting the array *)

Lemma view_cut A M C lo hi :
  lo = zlen A -> hi = zlen A + zlen M -> view_bytes (lo, hi) (A ++ M ++ C) = M.
Proof.
  intros -> ->. unfold view_bytes, zlen. cbn [fst snd].
  rewrite Nat2Z.id, drop_app_length. rewrite take_app_le by lia. apply take_ge. lia.
Qed.

Lemma splice_cut A M M' C lo :
  lo = zlen A -> length M' = length M -> splice (A ++ M ++ C) lo M' = A ++ M' ++ C.
Proof.
  intros -> E. unfold splice, zlen. rewrite Nat2Z.id, take_app_length, E. f_equal. f_equal.
  by rewrite app_assoc, <- length_app, drop_app_length.
Qed.

Lemma slice_run b lo hi : 0 <= lo <= hi -> hi <= zlen (data b) -> slice lo hi b = Val ((lo, hi), b).
Proof. intros H1 H2. unfold slice. by rewrite decide_True. Qed.

(** Normal form of lengths. *)
Ltac lens :=
  autorewrite with lens in *;
  repeat match goal with
  | |- context [zlen ?l] => lazymatch goal with H : 0 <= zlen l |- _ => fail | _ => pose proof (zlen_nonneg l) end
  | H : context [zlen ?l] |- _ => lazymatch goal with H : 0 <= zlen l |- _ => fail | _ => pose proof (zlen_nonneg l) end
  end.

Ltac bcbn := cbn [data dlen b_start b_end capacity refs managed with_data with_start with_end with_capacity
  before content free reserved spare fst snd].
Ltac blia := bcbn; unfold maxAlloc, fits in *; lens; lia.

(** A represented buffer, spelled out. *)
Lemma rep_inv b z :
  Rep b z ->
  exists r m, b = mkBuffer (before z ++ content z ++ free z ++ reserved z ++ spare z)
      (zlen (before z) + zlen (content z) + zlen (free z) + zlen (reserved z))
      (zlen (before z)) (zlen (before z) + zlen (content z))
      (zlen (before z) + zlen (content z) + zlen (free z)) r m
    /\ zlen (before z) + zlen (content z) + zlen (free z) + zlen (reserved z) + zlen (spare z) <= maxAlloc.
Proof.
  intros []. destruct b; cbn in *; subst. eexists _, _. split; [done|].
  rewrite !zlen_app in *. lia.
Qed.

Lemma rep_mk z d l s e c r m :
  d = before z ++ content z ++ free z ++ reserved z ++ spare z ->
  s = zlen (before z) -> e = s + zlen (content z) -> c = e + zlen (free z) ->
  l = c + zlen (reserved z) -> zlen d <= maxAlloc ->
  Rep (mkBuffer d l s e c r m) z.
Proof. intros; subst. by split; cbn; try lia. Qed.

(** What a method does, for a represented buffer. *)
Definition does {A} (m : GoM Buffer A) b (a : A) z : Prop := exists b', m b = Val (a, b') /\ Rep b' z.

Lemma does_intro {A} (m : GoM Buffer A) b b' (a a' : A) z :
  m b = Val (a', b') -> a' = a -> Rep b' z -> does m b a z.
Proof. intros Hm <- HR. by exists b'. Qed.

Ltac open_rep H :=
  apply rep_inv in H as (?r & ?m & -> & ?Hsmall);
  match goal with z : window |- _ => destruct z as [B C F R S]; cbn [before content free reserved spare] in * end.

(** Equal lists up to cutting. *)
Ltac recut := rewrite <- ?app_assoc; cbn [app]; rewrite ?zdrop_zlen_ztake, ?ztake_zdrop_app, ?ztake_zdrop, ?app_nil_r; rewrite <- ?app_assoc; reflexivity.

(** One statement of a method on a spelled-out buffer. *)
Ltac bstep :=
  first
  [ rewrite bind_gets | rewrite bind_ret | rewrite bind_modify | rewrite bind_bind
  | erewrite bind_run by (apply slice_run; bcbn; blia)
  | rewrite slice_run by (bcbn; blia)
  | rewrite i64_small by blia
  | rewrite decide_True by blia | rewrite decide_False by blia ];
  cbv beta zeta; bcbn.
Ltac brun := repeat bstep; try reflexivity.

(** The buffer of the goal represents the window of the goal. *)
Ltac rep_now := bcbn; repeat (rewrite i64_small by blia); apply rep_mk; bcbn; cbn [push pop before content free reserved spare];
  try blia; try recut.

(** The bytes a slice views, [A] being what lies in front of it. *)
Ltac view_now A M K :=
  f_equal; match goal with |- view_bytes _ ?d = _ => replace d with (A ++ M ++ K) by recut end;
  apply view_cut; blia.

Lemma Extend_does b z n :
  Rep b z -> fits n (free z) ->
  does (viewed (Extend n)) b (mkRes (ztake n (free z)) 0 None) (push (ztake n (free z)) z).
Proof.
  intros HR Hn. open_rep HR. unfold viewed, Extend. eapply does_intro; [brun| |].
  - view_now (B ++ C) (ztake n F) (zdrop n F ++ R ++ S).
  - rep_now.
Qed.

Lemma ExtendHeader_does b z n :
  Rep b z -> fits n (before z) ->
  let k := zlen (before z) - n in
  does (viewed (ExtendHeader n)) b (mkRes (zdrop k (before z)) 0 None)
    (mkWindow (ztake k (before z)) (zdrop k (before z) ++ content z) (free z) (reserved z) (spare z)).
Proof.
  intros HR Hn k. subst k. open_rep HR. unfold viewed, ExtendHeader. eapply does_intro; [brun| |].
  - view_now (ztake (zlen B - n) B) (zdrop (zlen B - n) B) (C ++ F ++ R ++ S).
  - rep_now.
Qed.

Lemma Advance_does b z n : Rep b z -> fits n (content z) -> does (Advance n) b tt (pop n z).
Proof.
  intros HR Hn. open_rep HR. unfold Advance. eapply does_intro; [|done|].
  - brun.
  - rewrite decide_False by blia. rep_now.
Qed.

Lemma Truncate_does b z n :
  Rep b z -> fits n (content z) ->
  does (Truncate n) b tt
    (mkWindow (before z) (ztake n (content z)) (zdrop n (content z) ++ free z) (reserved z) (spare z)).
Proof.
  intros HR Hn. open_rep HR. unfold Truncate, modify. eapply does_intro; [brun|done|]. rep_now.
Qed.

Lemma Resize_does b z s e :
  Rep b z ->
  let all := before z ++ content z ++ free z in
  0 <= s -> 0 <= e -> s + e <= zlen all ->
  does (Resize s e) b tt
    (mkWindow (ztake s all) (ztake e (zdrop s all)) (zdrop (s + e) all) (reserved z) (spare z)).
Proof.
  intros HR all Hs He Hse. subst all. open_rep HR. unfold Resize, modify.
  eapply does_intro; [brun|done|].
  rep_now. replace (zdrop (s + e) (B ++ C ++ F)) with (zdrop e (zdrop s (B ++ C ++ F))); [recut|].
  unfold zdrop. rewrite drop_drop. f_equal. lia.
Qed.

Lemma Reserve_does b z n :
  Rep b z -> fits n (free z) ->
  let k := zlen (free z) - n in
  does (Reserve n) b tt
    (mkWindow (before z) (content z) (ztake k (free z)) (zdrop k (free z) ++ reserved z) (spare z)).
Proof.
  intros HR Hn k. subst k. open_rep HR. unfold Reserve, modify. eapply does_intro; [brun|done|]. rep_now.
Qed.

Lemma OverCap_does b z n :
  Rep b z -> fits n (reserved z) ->
  does (OverCap n) b tt
    (mkWindow (before z) (content z) (free z ++ ztake n (reserved z)) (zdrop n (reserved z)) (spare z)).
Proof.
  intros HR Hn. open_rep HR. unfold OverCap, modify. eapply does_intro; [brun|done|]. rep_now.
Qed.

Lemma Reset_does b z :
  Rep b z ->
  does Reset b tt (mkWindow [] [] (before z ++ content z ++ free z ++ reserved z) [] (spare z)).
Proof.
  intros HR. open_rep HR. unfold Reset, modify. eapply does_intro; [brun|done|]. rep_now.
Qed.

(** ** Writing *)

Lemma splice_window B C F K p lo :
  lo = zlen B + zlen C -> zlen p <= zlen F ->
  splice (B ++ C ++ F ++ K) lo p = B ++ (C ++ p) ++ zdrop (zlen p) F ++ K.
Proof.
  intros -> Hp. rewrite <- (ztake_zdrop (zlen p) F) at 1.
  replace (B ++ C ++ (ztake (zlen p) F ++ zdrop (zlen p) F) ++ K)
    with ((B ++ C) ++ ztake (zlen p) F ++ zdrop (zlen p) F ++ K) by recut.
  rewrite splice_cut with (M' := p); [recut|by rewrite zlen_app|].
  unfold ztake, zlen. rewrite length_take. unfold zlen in Hp. lia.
Qed.

(** Copying as much of [p] as fits into the free room. *)
Lemma copy_free B C F K p lo hi b :
  data b = B ++ C ++ F ++ K -> lo = zlen B + zlen C -> hi = lo + zlen F ->
  let p' := ztake (Z.min (zlen F) (zlen p)) p in
  copy_to (lo, hi) p b = Val (zlen p', with_data (B ++ (C ++ p') ++ zdrop (zlen p') F ++ K) b).
Proof.
  intros Hd -> -> p'. unfold copy_to. cbn [fst snd]. rewrite Hd.
  replace (take (Nat.min _ _) p) with p' by (unfold p', ztake, zlen; f_equal; lia).
  rewrite splice_window; [|done|subst p'; blia].
  f_equal. f_equal. subst p'. unfold zlen, ztake. rewrite length_take. lia.
Qed.

Ltac bcopy B C F K :=
  erewrite bind_run by (apply (copy_free B C F K); bcbn; [recut|blia|blia]); cbv beta zeta; bcbn.

Lemma Write_does b z p :
  Rep b z ->
  does (Write p) b (r_num (write_step p z).1, r_err (write_step p z).1) (write_step p z).2.
Proof.
  intros HR. open_rep HR. unfold Write, write_step. cbn [free].
  destruct (decide (length p = 0%nat)) as [E|E]; [by eapply does_intro; [brun|done|rep_now]|].
  destruct (decide (zlen F = 0)) as [HF|HF].
  { eapply does_intro; [|reflexivity|].
    - bstep. unfold IsFull. bcbn. rewrite bool_decide_eq_true_2 by lia. brun.
    - rep_now. }
  eapply does_intro; [|reflexivity|].
  - bstep. unfold IsFull. bcbn. rewrite bool_decide_eq_false_2 by lia. unfold FreeBytes.
    repeat bstep. bcopy B C F (R ++ S). brun.
  - rep_now.
Qed.

Lemma WriteString_does b z p :
  Rep b z ->
  does (WriteString p) b (r_num (write_step p z).1, r_err (write_step p z).1) (write_step p z).2.
Proof. apply Write_does. Qed.

(** Writing one byte at the end of the content. *)
Lemma set_end_run B C x F K b d :
  data b = B ++ C ++ (x :: F) ++ K -> zlen B + zlen C < dlen b ->
  set_index (zlen B + zlen C) d b = Val (tt, with_data (B ++ (C ++ [d]) ++ F ++ K) b).
Proof.
  intros Hd Hl. unfold set_index. rewrite decide_True by blia. rewrite Hd.
  replace (B ++ C ++ (x :: F) ++ K) with ((B ++ C) ++ x :: (F ++ K)) by recut.
  rewrite <- zlen_app, set_at_middle. f_equal. f_equal. f_equal. recut.
Qed.

Lemma write_byte_does b z d (m : GoM Buffer (option error)) :
  m = (full <- gets IsFull ;;
       if full : bool then ret (Some ErrShortBuffer)
       else
         e <- gets b_end ;; set_index e d ;;
         modify (fun b => with_end (i64 (b_end b + 1)) b) ;; ret None) ->
  Rep b z -> does m b (r_err (write_all [d] z).1) (write_all [d] z).2.
Proof.
  intros -> HR. open_rep HR. unfold write_all. cbn [free]. destruct F as [|x F].
  - rewrite decide_False by blia. eapply does_intro; [|reflexivity|].
    + bstep. unfold IsFull. bcbn. rewrite bool_decide_eq_true_2 by blia. brun.
    + rep_now.
  - rewrite decide_True by blia. eapply does_intro; [|reflexivity|].
    + bstep. unfold IsFull. bcbn. rewrite bool_decide_eq_false_2 by blia. bstep.
      erewrite bind_run by (apply (set_end_run B C x F (R ++ S)); bcbn; [recut|blia]). brun.
    + rep_now.
Qed.

Lemma WriteZeroN_does b z n :
  Rep b z -> 0 <= n <= maxAlloc ->
  let p := replicate (Z.to_nat n) 0 in
  does (WriteZeroN n) b (r_err (write_all p z).1) (write_all p z).2.
Proof.
  intros HR Hn p. open_rep HR. unfold write_all. cbn [free].
  assert (zlen p = n) as Hp by (apply zlen_replicate; lia).
  unfold WriteZeroN. destruct (decide (zlen p <= zlen F)) as [Hf|Hf].
  - eapply does_intro; [|reflexivity|].
    + repeat bstep. unfold Extend. repeat bstep. fold p.
      erewrite bind_run by (unfold copy_to; bcbn; reflexivity). cbv beta. brun.
    + rewrite (splice_window B C F (R ++ S)); [|blia|].
      * replace (take _ p) with p by (symmetry; apply take_ge; unfold zlen in *; lia). rep_now.
      * unfold zlen in *. rewrite length_take. lia.
  - eapply does_intro; [|reflexivity|].
    + bstep. bstep. rewrite i64_small by blia. rewrite decide_True by blia. brun.
    + rep_now.
Qed.

Lemma WriteRandom_does b z p :
  Rep b z -> zlen p <= zlen (free z) ->
  does (viewed (WriteRandom p (zlen p))) b (mkRes p 0 None) (push p z).
Proof.
  intros HR Hf. open_rep HR. unfold viewed, WriteRandom, Extend. eapply does_intro.
  - repeat bstep. erewrite bind_run by (unfold copy_to; bcbn; reflexivity). cbv beta. brun.
  - rewrite (splice_window B C F (R ++ S)); [|blia|unfold zlen in *; rewrite length_take; lia].
    replace (take _ p) with p by (symmetry; apply take_ge; unfold zlen in *; lia).
    view_now (B ++ C) p (zdrop (zlen p) F ++ R ++ S).
  - rewrite (splice_window B C F (R ++ S)); [|blia|unfold zlen in *; rewrite length_take; lia].
    replace (take _ p) with p by (symmetry; apply take_ge; unfold zlen in *; lia). rep_now.
Qed.

(** ** Reading *)

Lemma IsEmpty_spec B C F R S r m l c :
  zlen B + zlen C <= maxAlloc ->
  IsEmpty (mkBuffer (B ++ C ++ F ++ R ++ S) l (zlen B) (zlen B + zlen C) c r m) = bool_decide (zlen C = 0).
Proof. intros H. unfold IsEmpty. bcbn. rewrite i64_small by blia. apply bool_decide_ext. lia. Qed.

Lemma Read_does b z n :
  Rep b z ->
  match window_step (BRead n) z with
  | Some (r, z') => does (Read n) b (r_bytes r, r_err r) z'
  | None => False
  end.
Proof.
  intros HR. open_rep HR. unfold Read, window_step. cbn [content].
  destruct (decide (zlen C = 0)) as [E|E].
  - eapply does_intro; [|reflexivity|].
    + bstep. rewrite IsEmpty_spec, bool_decide_eq_true_2 by blia. brun.
    + rep_now.
  - set (k := Z.min (Z.of_nat n) (zlen C)). eapply does_intro.
    + bstep. rewrite IsEmpty_spec, bool_decide_eq_false_2 by blia. unfold Bytes. repeat bstep. reflexivity.
    + cbn [r_bytes r_err]. f_equal.
      replace (B ++ C ++ F ++ R ++ S) with (B ++ C ++ (F ++ R ++ S)) by recut.
      rewrite view_cut by blia. unfold k, ztake, zlen. rewrite Z2Nat.inj_min, !Nat2Z.id.
      destruct (decide (n <= length C)%nat); [by rewrite Nat.min_l|]. rewrite Nat.min_r, !take_ge by lia. done.
    + bcbn. replace (B ++ C ++ F ++ R ++ S) with (B ++ C ++ (F ++ R ++ S)) by recut.
      rewrite view_cut by blia.
      assert (zlen (take n C) = k) as -> by (unfold k, zlen; rewrite length_take; lia).
      assert (0 <= k <= zlen C) by (subst k; blia). clearbody k. rep_now.
Qed.

(** The byte at position [i] of the content. *)
Lemma content_index B C K i x b :
  data b = B ++ C ++ K -> at_ C i = Some x -> zlen B + zlen C <= dlen b ->
  index (zlen B + i) b = Val (x, b).
Proof.
  intros Hd Hx Hl. pose proof (at_Some_lt _ _ _ Hx). unfold index.
  rewrite decide_True by blia. rewrite Hd. unfold lift, at_ in *. rewrite decide_True in Hx by blia.
  rewrite decide_True by blia.
  replace (Z.to_nat (zlen B + i)) with (length B + Z.to_nat i)%nat by (unfold zlen in *; lia).
  rewrite lookup_app_r, Nat.add_comm, Nat.add_sub by lia.
  rewrite lookup_app_l by (unfold zlen in *; lia). by rewrite Hx.
Qed.

Lemma head_index B x C K b :
  data b = B ++ (x :: C) ++ K -> zlen B + zlen (x :: C) <= dlen b -> index (zlen B) b = Val (x, b).
Proof.
  intros Hd Hl. rewrite <- (Z.add_0_r (zlen B)). by apply (content_index B (x :: C) K).
Qed.

Lemma ReadByte_does b z :
  Rep b z ->
  match window_step BReadByte z with
  | Some (r, z') => does ReadByte b (r_num r, r_err r) z'
  | None => False
  end.
Proof.
  intros HR. open_rep HR. unfold ReadByte, window_step. cbn [content]. destruct C as [|x C].
  - eapply does_intro; [|reflexivity|].
    + bstep. rewrite IsEmpty_spec, bool_decide_eq_true_2 by blia. brun.
    + rep_now.
  - eapply does_intro; [|reflexivity|].
    + bstep. rewrite IsEmpty_spec, bool_decide_eq_false_2 by blia. bstep.
      erewrite bind_run by (apply (head_index B x C (F ++ R ++ S)); [done|blia]). cbv beta. brun.
    + rep_now.
Qed.

Lemma ReadBytes_does b z n :
  Rep b z ->
  match window_step (BReadBytes n) z with
  | Some (r, z') => does (buf_step (BReadBytes n)) b r z'
  | None => True
  end.
Proof.
  intros HR. open_rep HR. unfold buf_step, ReadBytes, window_step, Len. cbn [content].
  destruct (decide (zlen C < n)) as [E|E]; [|destruct (decide (0 <= n)); [|done]].
  - eapply does_intro; [brun|done|]. rep_now.
  - eapply does_intro; [brun| |].
    + cbn [fst snd]. view_now B (ztake n C) (zdrop n C ++ F ++ R ++ S).
    + rep_now.
Qed.

(** Slices of the content. *)
Lemma view_does b z (m : GoM Buffer view) lo hi :
  Rep b z -> 0 <= lo <= hi -> hi <= zlen (content z) ->
  m b = slice (zlen (before z) + lo) (zlen (before z) + hi) b ->
  does (viewed m) b (mkRes (ztake (hi - lo) (zdrop lo (content z))) 0 None) z.
Proof.
  intros HR Hlo Hhi. pose proof HR as HR'. open_rep HR. intros Hm. unfold viewed. eapply does_intro; [| |exact HR'].
  - erewrite bind_run; [|rewrite Hm; apply slice_run; bcbn; blia]. reflexivity.
  - view_now (B ++ ztake lo C) (ztake (hi - lo) (zdrop lo C)) (zdrop (hi - lo) (zdrop lo C) ++ F ++ R ++ S).
Qed.

Lemma FreeBytes_does b z : Rep b z -> does (viewed FreeBytes) b (mkRes (free z) 0 None) z.
Proof.
  intros HR. pose proof HR as HR'. open_rep HR. unfold viewed, FreeBytes. eapply does_intro; [brun| |exact HR'].
  view_now (B ++ C) F (R ++ S).
Qed.

Lemma SetByte_does b z i x c :
  Rep b z -> set_at (content z) i x = Some c ->
  does (SetByte i x) b tt (mkWindow (before z) c (free z) (reserved z) (spare z)).
Proof.
  intros HR. open_rep HR. unfold set_at. destruct (decide _) as [Hi|]; [|done]. intros [= <-].
  fold (zlen C) in Hi. unfold SetByte. eapply does_intro; [|done|].
  - bstep. rewrite i64_small by blia. unfold set_index. bcbn. rewrite decide_True by blia.
    rewrite set_at_Some by blia. reflexivity.
  - bcbn. assert (zlen (<[Z.to_nat i:=x]> C) = zlen C) as Hl by (unfold zlen; by rewrite length_insert).
    assert (<[Z.to_nat (zlen B + i):=x]> (B ++ C ++ F ++ R ++ S)
      = B ++ <[Z.to_nat i:=x]> C ++ F ++ R ++ S) as ->.
    { replace (Z.to_nat (zlen B + i)) with (length B + Z.to_nat i)%nat by (unfold zlen in *; lia).
      rewrite insert_app_r, insert_app_l; [done|]. unfold zlen in *. lia. }
    apply rep_mk; bcbn; rewrite ?Hl; try blia. recut.
Qed.

(** ** All methods *)

Lemma does_map {A B} (m : GoM Buffer A) (f : A -> B) b a z :
  does m b a z -> does (x <- m ;; ret (f x)) b (f a) z.
Proof. intros (b' & Hm & HR). exists b'. by rewrite (bind_run _ _ _ _ _ Hm). Qed.

Lemma step_does b z o r z' : Rep b z -> window_step o z = Some (r, z') -> does (buf_step o) b r z'.
Proof.
  intros HR Hs. pose proof HR as HR0. destruct o; cbn in Hs; try (case_decide; [|done]); simplify_eq.
  - pose proof (does_map _ (fun r => mkRes [] r.1 r.2) _ _ _ (Write_does b z p HR)) as Hd.
    revert Hd Hs. unfold write_step.
    destruct (decide _); [|destruct (decide _)]; intros Hd [= <- <-]; exact Hd.
  - pose proof (does_map _ (fun r => mkRes [] r.1 r.2) _ _ _ (WriteString_does b z p HR)) as Hd.
    revert Hd Hs. unfold write_step.
    destruct (decide _); [|destruct (decide _)]; intros Hd [= <- <-]; exact Hd.
  - pose proof (does_map _ (fun e => mkRes [] 0 e) _ _ _ (write_byte_does b z d _ eq_refl HR)) as Hd.
    revert Hd Hs. unfold write_all. destruct (decide _); intros Hd [= <- <-]; exact Hd.
  - pose proof (does_map _ (fun e => mkRes [] 0 e) _ _ _ (write_byte_does b z 0 _ eq_refl HR)) as Hd.
    revert Hd Hs. unfold write_all. destruct (decide _); intros Hd [= <- <-]; exact Hd.
  - pose proof (does_map _ (fun e => mkRes [] 0 e) _ _ _ (WriteZeroN_does b z n HR ltac:(done))) as Hd.
    revert Hd Hs. unfold write_all. destruct (decide _); intros Hd [= <- <-]; exact Hd.
  - by apply WriteRandom_does.
  - by apply Extend_does.
  - by apply ExtendHeader_does.
  - by apply (does_map _ (fun _ => done_) _ tt), Advance_does.
  - by apply (does_map _ (fun _ => done_) _ tt), Truncate_does.
  - apply (does_map _ (fun _ => done_) _ tt). apply Resize_does; tauto.
  - by apply (does_map _ (fun _ => done_) _ tt), Reserve_does.
  - by apply (does_map _ (fun _ => done_) _ tt), OverCap_does.
  - by apply (does_map _ (fun _ => done_) _ tt), Reset_does.
  - pose proof (Read_does b z n HR) as Hd. unfold window_step in Hd. revert Hd Hs.
    destruct (decide _); intros Hd [= <- <-]; exact (does_map _ (fun r => mkRes r.1 0 r.2) _ _ _ Hd).
  - pose proof (ReadByte_does b z HR) as Hd. unfold window_step in Hd. revert Hd Hs.
    destruct (content z); intros Hd [= <- <-]; exact (does_map _ (fun r => mkRes [] r.1 r.2) _ _ _ Hd).
  - pose proof (ReadBytes_does b z n HR) as Hd. unfold window_step in Hd. revert Hd Hs.
    destruct (decide _); [by intros Hd [= <- <-]|]. destruct (decide _); [by intros Hd [= <- <-]|done].
  - replace (content z') with (ztake (zlen (content z') - 0) (zdrop 0 (content z'))).
    + apply view_does; [done|blia|blia|]. destruct HR. unfold Bytes. rewrite !bind_gets. f_equal; lia.
    + unfold ztake, zdrop. rewrite drop_0. apply take_ge. unfold zlen. lia.
  - replace (zdrop n (content z')) with (ztake (zlen (content z') - n) (zdrop n (content z'))).
    + apply view_does; [done|blia|blia|]. destruct HR, (rep_inv _ _ HR0) as (? & ? & _ & ?).
      unfold From. rewrite !bind_gets, rep_start0, rep_end0, i64_small by blia. done.
    + unfold ztake, zdrop. apply take_ge. rewrite length_drop. unfold fits, zlen in *. lia.
  - replace (ztake n (content z')) with (ztake (n - 0) (zdrop 0 (content z'))) by (by rewrite Z.sub_0_r).
    apply view_does; [done|blia|blia|]. destruct HR, (rep_inv _ _ HR0) as (? & ? & _ & ?).
    unfold To. rewrite !bind_gets, rep_start0, i64_small by blia. by rewrite Z.add_0_r.
  - apply view_does; [done|blia|blia|]. destruct HR, (rep_inv _ _ HR0) as (? & ? & _ & ?).
    unfold Range. rewrite !bind_gets, rep_start0, !i64_small by blia. done.
  - destruct (at_ (content z) i) as [x|] eqn:E; [|done]. injection Hs as <- <-.
    pose proof (at_Some_lt _ _ _ E). destruct HR, (rep_inv _ _ HR0) as (? & ? & _ & ?).
    apply (does_map _ (fun x => mkRes [] x None)). exists b. split; [|done].
    unfold Byte. rewrite bind_gets, rep_start0, i64_small by blia.
    apply (content_index (before z) (content z) (free z ++ reserved z ++ spare z)); [done|done|].
    rewrite rep_dlen0. blia.
  - destruct (set_at (content z) i x) as [c|] eqn:E; [|done]. injection Hs as <- <-.
    by apply (does_map _ (fun _ => done_) _ tt), SetByte_does.
  - apply (does_map _ (fun n => mkRes [] n None)). exists b. split; [|done].
    destruct HR, (rep_inv _ _ HR0) as (? & ? & _ & ?). unfold Len, gets.
    rewrite rep_start0, rep_end0, i64_small by blia. do 2 f_equal. lia.
  - apply (does_map _ (fun n => mkRes [] n None)). exists b. split; [|done].
    destruct HR, (rep_inv _ _ HR0) as (? & ? & _ & ?). unfold FreeLen, gets.
    rewrite rep_capacity0, rep_end0, i64_small by blia. do 2 f_equal. lia.
  - apply (does_map _ (fun n => mkRes [] n None)). exists b. split; [|done].
    destruct HR. unfold Cap, gets. by rewrite rep_capacity0.
  - by apply FreeBytes_does.
Qed.

Fixpoint buf_run (os : list bop) : GoM Buffer (list bres) :=
  match os with
  | [] => ret []
  | o :: os => r <- buf_step o ;; l <- buf_run os ;; ret (r :: l)
  end.

Fixpoint window_run (os : list bop) (z : window) : option (list bres * window) :=
  match os with
  | [] => Some ([], z)
  | o :: os =>
      match window_step o z with
      | None => None
      | Some (r, z1) =>
          match window_run os z1 with
          | None => None
          | Some (l, z2) => Some (r :: l, z2)
          end
      end
  end.

Lemma run_does os b z l z' : Rep b z -> window_run os z = Some (l, z') -> does (buf_run os) b l z'.
Proof.
  revert b z l. induction os as [|o os IH]; intros b z l HR Hr; cbn in Hr; [simplify_eq; by exists b|].
  destruct (window_step o z) as [[r z1]|] eqn:E; [|done].
  destruct (window_run os z1) as [[l2 z2]|] eqn:E2; [|done]. simplify_eq.
  destruct (step_does _ _ _ _ _ HR E) as (b1 & Hm & HR1).
  destruct (IH b1 z1 l2 HR1 E2) as (b2 & Hm2 & HR2).
  exists b2. cbn [buf_run]. by rewrite (bind_run _ _ _ _ _ Hm), (bind_run _ _ _ _ _ Hm2).
Qed.

(** ** The allocator *)

Lemma msb_log2 size : 0 < size < 2 ^ 32 -> msb size = Z.log2 size.
Proof.
  intros Hs. unfold msb, Len32. rewrite u32_small, decide_False by lia.
  assert (Z.log2 size < 32) by (apply Z.log2_lt_pow2; lia). pose proof (Z.log2_nonneg size).
  rewrite u16_small; lia.
Qed.

Lemma shiftl_1 n : 0 <= n -> Z.shiftl 1 n = 2 ^ n.
Proof. intros Hn. rewrite Z.shiftl_mul_pow2 by done. lia. Qed.

(** The pool a request goes to, and the size of its arrays. *)
Lemma pool_index_spec size :
  0 < size <= MaxPooledBufferSize ->
  exists c, pool_size (pool_index size) = Some c /\ size <= c /\ 64 <= c
    /\ (c = MaxPooledBufferSize \/ (exists k, 6 <= k <= 16 /\ c = 2 ^ k /\ (size <= 64 \/ c < 2 * size))).
Proof.
  change MaxPooledBufferSize with 73728. intros Hs. unfold pool_index.
  change (Z.shiftl 1 16) with 65536.
  destruct (decide (size > 64)) as [H64|H64]; [|exists 64; split_and!; try lia; [done|right; exists 6; lia]].
  destruct (decide (size > 65536)) as [Hb|Hb]; [exists 73728; split_and!; try lia; done|].
  cbv zeta. rewrite msb_log2 by lia. pose proof (Z.log2_spec size ltac:(lia)) as [Hlo Hhi].
  assert (6 <= Z.log2 size) by (apply (Z.log2_le_mono 64); lia).
  assert (Z.log2 size <= 16) by (apply (Z.log2_le_mono _ 65536); lia).
  rewrite shiftl_1 by lia. set (k := Z.log2 size) in *.
  destruct (decide (size <> 2 ^ k)) as [Hne|He].
  - assert (k < 16). { destruct (decide (k = 16)) as [E|]; [|subst k; lia]. rewrite E in *. change (2 ^ 16) with 65536 in *. lia. }
    exists (2 ^ (k + 1)). rewrite (u16_small (k + 1)), u16_small by lia. unfold pool_size. rewrite decide_True by lia.
    rewrite shiftl_1 by lia. replace (k + 1 - 6 + 6) with (k + 1) by lia.
    rewrite <- Z.add_1_r in Hhi. assert (2 ^ (k + 1) = 2 * 2 ^ k) by (rewrite Z.pow_add_r; lia).
    split_and!; [done|lia|lia|]. right. exists (k + 1). lia.
  - assert (size = 2 ^ k) as E by lia. exists (2 ^ k). rewrite u16_small by lia. unfold pool_size.
    rewrite decide_True by lia. rewrite shiftl_1 by lia. replace (k - 6 + 6) with k by lia.
    split_and!; [done|lia|lia|]. right. exists k. lia.
Qed.

Lemma alloc_Get_spec size :
  0 < size <= MaxPooledBufferSize ->
  exists c, Get size = Val (Some c) /\ size <= c /\ Put c = Val None
    /\ (c = MaxPooledBufferSize \/ (exists k, 6 <= k <= 16 /\ c = 2 ^ k /\ (size <= 64 \/ c < 2 * size))).
Proof.
  intros Hs. destruct (pool_index_spec size Hs) as (c & Hp & Hle & Hmin & Hc).
  exists c. unfold Get, alloc_Get. rewrite !decide_False, Hp, decide_True by lia.
  split_and!; [done|done| |done]. unfold Put, alloc_Put.
  destruct Hc as [->|(k & Hk & -> & _)]; [done|].
  assert (2 ^ k <= 65536) by (apply (Z.pow_le_mono_r 2 k 16); lia).
  rewrite decide_False by (change MaxPooledBufferSize with 73728; lia).
  rewrite msb_log2, Z.log2_pow2 by lia. rewrite shiftl_1 by lia. rewrite decide_False by lia.
  rewrite u16_small by lia. unfold pool_size. rewrite decide_True by lia.
  rewrite shiftl_1 by lia. replace (k - 6 + 6) with k by lia. by rewrite decide_True by lia.
Qed.

(** Whatever the pool hands out for a capacity has that many bytes. *)
Definition pool_ok (junk : Z -> list Z) : Prop := forall c, 0 <= c -> zlen (junk c) = c.

Lemma NewSize_rep junk size :
  pool_ok junk -> 0 <= size <= maxAlloc ->
  exists b z, NewSize junk size = Val b /\ Rep b z /\ before z = [] /\ content z = []
    /\ zlen (free z) = size /\ reserved z = [].
Proof.
  intros Hj Hs. unfold NewSize. destruct (decide (size = 0)) as [->|Hne].
  { exists zeroBuffer, (mkWindow [] [] [] [] []). split_and!; try done. }
  destruct (decide (size <= MaxPooledBufferSize)) as [Hp|Hp].
  - destruct (alloc_Get_spec size ltac:(lia)) as (c & -> & Hle & _ & Hc). cbn [obind].
    assert (c <= 73728) as Hc'.
    { destruct Hc as [->|(k & Hk & -> & _)]; [done|]. assert (2 ^ k <= 2 ^ 16); [|lia].
      apply Z.pow_le_mono_r; lia. }
    eexists _, (mkWindow [] [] (ztake size (junk c)) [] (zdrop size (junk c))).
    pose proof (Hj c ltac:(lia)) as Hjc.
    split_and!; [reflexivity| |done|done|cbn; autorewrite with lens; lia|done].
    apply rep_mk; cbn [before content free reserved spare]; rewrite ?zlen_nil, ?zlen_ztake; try blia.
    cbn [app]. by rewrite ztake_zdrop.
  - unfold Get, alloc_Get. rewrite decide_False by lia.
    rewrite decide_True by (unfold maxAlloc in *; lia). cbn [obind].
    unfold makeslice_ok. rewrite bool_decide_eq_true_2 by lia.
    eexists _, (mkWindow [] [] (replicate (Z.to_nat size) 0) [] []).
    split_and!; [reflexivity| |done|done|cbn; apply zlen_replicate; lia|done].
    apply rep_mk; cbn [before content free reserved spare]; rewrite ?zlen_nil, ?zlen_replicate by lia; try lia; try done.
    by rewrite app_nil_r.
Qed.


Lemma splice_app d k p lo :
  0 <= lo -> lo + zlen p <= zlen d -> splice (d ++ k) lo p = ztake lo d ++ p ++ zdrop (lo + zlen p) d ++ k.
Proof.
  intros Hlo Hp. unfold splice, ztake, zdrop, zlen in *. rewrite take_app_le, drop_app_le by lia.
  do 3 f_equal. f_equal. lia.
Qed.

Lemma ToOwned_rep junk b z :
  pool_ok junk -> Rep b z ->
  exists n zn, ToOwned junk b = Val n /\ Rep n zn /\ content zn = content z
    /\ zlen (before zn) = zlen (before z) /\ zlen (free zn) = zlen (free z).
Proof.
  intros Hj HR. open_rep HR. unfold ToOwned. bcbn.
  set (l := zlen B + zlen C + zlen F + zlen R).
  destruct (NewSize_rep junk l Hj ltac:(subst l; blia)) as (n & zn & -> & HRn & Hb & Hc & Hf & Hrs).
  cbn [obind]. destruct zn as [B' C' F' R' S']; cbn in Hb, Hc, Hf, Hrs; subst B' C' R'.
  destruct n as [d dl s e c rf mg]. pose proof (rep_data _ _ HRn) as Hd. cbn in Hd. subst d.
  pose proof (rep_small _ _ HRn) as Hsm. pose proof (rep_dlen _ _ HRn) as Hdl.
  cbn [data dlen before content free reserved] in Hsm, Hdl.
  assert (zlen F' = l) as HF' by exact Hf.
  rewrite !slice_run by (subst l; blia). cbn [obind fst snd].
  rewrite (view_cut B C (F ++ R ++ S)) by lia.
  unfold copy_to. bcbn.
  replace (take _ C) with C by (rewrite take_ge; [done|unfold zlen in *; lia]).
  eexists _, (mkWindow (ztake (zlen B) F') C (ztake (zlen F) (zdrop (zlen B + zlen C) F'))
    (zdrop (zlen B + zlen C + zlen F) F') S').
  cbn [content before free]. split_and!; [reflexivity| |done|subst l; blia..].
  assert (splice (F' ++ S') (zlen B) C = ztake (zlen B) F' ++ C
    ++ ztake (zlen F) (zdrop (zlen B + zlen C) F') ++ zdrop (zlen B + zlen C + zlen F) F' ++ S') as Hd.
  { rewrite splice_app by (subst l; blia). do 2 f_equal.
    rewrite <- (zdrop_zdrop (zlen F) (zlen B + zlen C)) by (pose proof (zlen_nonneg B); pose proof (zlen_nonneg C); pose proof (zlen_nonneg F); lia). recut. }
  apply rep_mk; cbn [before content free reserved spare]; bcbn; try exact Hd; try (subst l; blia).
  rewrite Hd. subst l. blia.
Qed.

(** ** The theorems *)

(** The constructors: NewSize gives an empty buffer with exactly [size] free
    bytes for every size from 0 on (New and NewPacket likewise with theirs), As
    wraps its slice as content and With as free room, and ToOwned copies any
    buffer to a fresh array with the same window and the same content. *)
Theorem buffer_constructors junk size p rest b z :
  pool_ok junk -> 0 <= size <= maxAlloc -> zlen (p ++ rest) <= maxAlloc -> Rep b z ->
  (exists n zn, NewSize junk size = Val n /\ Rep n zn /\ content zn = [] /\ zlen (free zn) = size)
  /\ (exists n zn, New junk = Val n /\ Rep n zn /\ content zn = [] /\ zlen (free zn) = 32768)
  /\ (exists n zn, NewPacket junk = Val n /\ Rep n zn /\ content zn = [] /\ zlen (free zn) = 16384)
  /\ Rep (As p rest) (mkWindow [] p [] [] rest)
  /\ Rep (With p rest) (mkWindow [] [] p [] rest)
  /\ (exists n zn, ToOwned junk b = Val n /\ Rep n zn /\ content zn = content z
       /\ zlen (before zn) = zlen (before z) /\ zlen (free zn) = zlen (free z)).
Proof.
  intros Hj Hs Hp HR. split_and!.
  - destruct (NewSize_rep junk size Hj Hs) as (n & zn & H1 & H2 & _ & H3 & H4 & _). by exists n, zn.
  - destruct (NewSize_rep junk 32768 Hj ltac:(unfold maxAlloc; lia)) as (n & zn & H1 & H2 & _ & H3 & H4 & _).
    exists n, zn. split_and!; try done.
  - destruct (NewSize_rep junk 16384 Hj ltac:(unfold maxAlloc; lia)) as (n & zn & H1 & H2 & _ & H3 & H4 & _).
    exists n, zn. split_and!; try done.
  - apply rep_mk; cbn [before content free reserved spare app]; rewrite ?zlen_nil; try lia; done.
  - apply rep_mk; cbn [before content free reserved spare app]; rewrite ?zlen_nil; try lia; done.
  - by apply ToOwned_rep.
Qed.

(** C11: A buffer behaves as its four stretches of bytes: every sequence of method
    calls that asks for no more than is there runs without panicking, answers
    what the abstract buffer answers (the bytes of the returned slices included)
    and leaves the array cut at start, end and capacity as the abstract buffer
    says. *)
Theorem buffer_refines_window os b z l z' :
  Rep b z -> window_run os z = Some (l, z') -> exists b', buf_run os b = Val (l, b') /\ Rep b' z'.
Proof. apply run_does. Qed.

(** Reads and writes at the two ends of the window. *)
Definition queue_op (o : bop) : bool :=
  match o with
  | BWrite _ | BWriteString _ | BWriteByte _ | BWriteZero | BRead _ | BReadByte
  | BBytes | BLen | BFreeLen | BCap | BFreeBytes => true
  | BWriteZeroN n => bool_decide (0 <= n <= maxAlloc)
  | BReadBytes n => bool_decide (0 <= n)
  | _ => false
  end.

(** The bytes an operation reports as written, and as read. *)
Definition written (o : bop) (r : bres) : list Z :=
  match o, r_err r with
  | BWrite p, None | BWriteString p, None => ztake (r_num r) p
  | BWriteByte d, None => [d]
  | BWriteZero, None => [0]
  | BWriteZeroN n, None => replicate (Z.to_nat n) 0
  | _, _ => []
  end.
Definition taken (o : bop) (r : bres) : list Z :=
  match o, r_err r with
  | BRead _, None | BReadBytes _, None => r_bytes r
  | BReadByte, None => [r_num r]
  | _, _ => []
  end.

Lemma write_all_fifo p z :
  exists r z', write_all p z = (r, z')
    /\ content z ++ (match r_err r with None => p | Some _ => [] end) = content z'.
Proof. unfold write_all. destruct (decide _); eexists _, _; (split; [reflexivity|]); cbn; by rewrite ?app_nil_r. Qed.

Lemma write_step_fifo p z :
  exists r z', write_step p z = (r, z')
    /\ content z ++ (match r_err r with None => ztake (r_num r) p | Some _ => [] end) = content z'.
Proof.
  unfold write_step. destruct (decide _) as [E|E]; [|destruct (decide _)];
    eexists _, _; (split; [reflexivity|]); cbn; rewrite ?app_nil_r; try done.
  f_equal. unfold ztake, zlen. rewrite length_take, Nat2Z.id. f_equal. lia.
Qed.

Lemma queue_step o z :
  queue_op o = true ->
  exists r z', window_step o z = Some (r, z') /\ content z ++ written o r = taken o r ++ content z'.
Proof.
  destruct o; intros Hq; try done; cbn in Hq |- *; try apply bool_decide_eq_true_1 in Hq.
  - destruct (write_step_fifo p z) as (r & z' & -> & E). by exists r, z'.
  - destruct (write_step_fifo p z) as (r & z' & -> & E). by exists r, z'.
  - destruct (write_all_fifo [d] z) as (r & z' & -> & E). exists r, z'.
    split; [done|]. unfold taken. by destruct (r_err r).
  - destruct (write_all_fifo [0] z) as (r & z' & -> & E). exists r, z'.
    split; [done|]. unfold taken. by destruct (r_err r).
  - rewrite decide_True by done. destruct (write_all_fifo (replicate (Z.to_nat n) 0) z) as (r & z' & -> & E).
    exists r, z'. split; [done|]. unfold taken. by destruct (r_err r).
  - destruct (decide _); eexists _, _; (split; [reflexivity|]); cbn; [by rewrite app_nil_r|].
    by rewrite app_nil_r, ztake_zdrop.
  - destruct (content z) as [|x c] eqn:E; eexists _, _; (split; [reflexivity|]); cbn; rewrite ?E; [done|].
    cbn. rewrite app_nil_r. by unfold zdrop.
  - destruct (decide _); [|rewrite decide_True by done]; eexists _, _; (split; [reflexivity|]); cbn;
      rewrite app_nil_r; [done|by rewrite ztake_zdrop].
  - eexists _, _; (split; [reflexivity|]); cbn; by rewrite app_nil_r.
  - eexists _, _; (split; [reflexivity|]); cbn; by rewrite app_nil_r.
  - eexists _, _; (split; [reflexivity|]); cbn; by rewrite app_nil_r.
  - eexists _, _; (split; [reflexivity|]); cbn; by rewrite app_nil_r.
  - eexists _, _; (split; [reflexivity|]); cbn; by rewrite app_nil_r.
Qed.

Lemma queue_run os z :
  forallb queue_op os = true ->
  exists l z', window_run os z = Some (l, z')
    /\ content z ++ concat (zip_with written os l) = concat (zip_with taken os l) ++ content z'.
Proof.
  revert z. induction os as [|o os IH]; intros z Hq; cbn in *.
  - exists [], z. by rewrite app_nil_r.
  - apply andb_true_iff in Hq as [Ho Hos].
    destruct (queue_step o z Ho) as (r & z1 & -> & E1). destruct (IH z1 Hos) as (l & z2 & -> & E2).
    exists (r :: l), z2. split; [done|]. cbn. by rewrite app_assoc, E1, <- app_assoc, E2, app_assoc.
Qed.

(** First in, first out: in any sequence of reads and writes on a buffer, of any
    sizes and whether they fail for lack of room or data or not, nothing panics
    and the bytes reported as written are exactly the bytes read so far followed
    by the bytes the buffer still holds. *)
Theorem buffer_fifo junk size os :
  pool_ok junk -> 0 <= size <= maxAlloc -> forallb queue_op os = true ->
  exists b l b' v, NewSize junk size = Val b /\ buf_run os b = Val (l, b') /\ Bytes b' = Val (v, b')
    /\ concat (zip_with written os l) = concat (zip_with taken os l) ++ view_bytes v (data b').
Proof.
  intros Hj Hs Hq. destruct (NewSize_rep junk size Hj Hs) as (b & z & Hb & HR & _ & Hc & _).
  destruct (queue_run os z Hq) as (l & z' & Hr & Hfifo).
  destruct (run_does os b z l z' HR Hr) as (b' & Hrun & HR').
  destruct (step_does b' z' BBytes _ _ HR' eq_refl) as (b2 & Hv & _).
  cbn in Hv. unfold viewed, bind, gets, ret in Hv.
  destruct (Bytes b') as [[v b3]| |] eqn:E; [|done..]. injection Hv as Hv <-.
  assert (b3 = b') as ->.
  { unfold Bytes, slice, bind, gets in E. destruct (decide _); [|done]. by injection E. }
  exists b, l, b', v. split_and!; [done..|]. rewrite Hc in Hfifo. by rewrite Hv.
Qed.

(** The checks of the panicking methods are exact for every int argument: Extend
    panics unless the request fits into the free room, ExtendHeader unless it
    fits into the headroom, OverCap (for a count below 2^62) unless it fits into what was
    reserved.  Reserve only compares with the capacity: with more than the free
    room it does not panic, and the next write does. *)
Theorem buffer_overflow_checks b z n :
  Rep b z -> - 2 ^ 63 <= n < 2 ^ 63 ->
  (Extend n b = Panic <-> ~ fits n (free z))
  /\ (ExtendHeader n b = Panic <-> ~ fits n (before z))
  /\ (0 <= n < 2 ^ 62 -> OverCap n b = Panic <-> ~ fits n (reserved z))
  /\ (Reserve n b = Panic <-> n > capacity b)
  /\ (forall p, zlen (free z) < n <= capacity b -> p <> [] ->
        exists b', Reserve n b = Val (tt, b') /\ Write p b' = Panic).
Proof.
  intros HR Hn. split_and!.
  - split.
    + intros Hp Hf. destruct (step_does b z (BExtend n) _ _ HR ltac:(by cbn; rewrite decide_True)) as (b' & Hr & _).
      cbn in Hr. unfold viewed, bind in Hr. by rewrite Hp in Hr.
    + intros Hf. open_rep HR. unfold Extend. rewrite !bind_gets. bcbn. cbv zeta.
      destruct (decide (_ > _)) as [|Hle]; [done|].
      unfold bind, slice. bcbn. rewrite decide_False; [done|].
      intros [Hlo _]. apply Hf. unfold fits, i64, maxAlloc in *. lens.
      destruct (decide (zlen B + zlen C + n < 2 ^ 63)).
      * rewrite Z.mod_small in * by lia. lia.
      * pose proof (i64_wrap (zlen B + zlen C + n)) as E. unfold i64 in E. lia.
  - split.
    + intros Hp Hf. destruct (step_does b z (BExtendHeader n) _ _ HR ltac:(by cbn; rewrite decide_True)) as (b' & Hr & _).
      cbn in Hr. unfold viewed, bind in Hr. by rewrite Hp in Hr.
    + intros Hf. open_rep HR. unfold ExtendHeader. rewrite bind_gets. bcbn.
      destruct (decide (_ < _)) as [|Hge]; [done|]. rewrite bind_modify, bind_gets. bcbn.
      unfold slice. bcbn. rewrite decide_False; [done|]. intros [Hlo _].
      destruct (decide (zlen B - n < 2 ^ 63)) as [Hlt|Hlt].
      * rewrite (i64_small (zlen B - n)), i64_small in Hlo by blia. apply Hf. blia.
      * assert (i64 (zlen B - n) = zlen B - n - 2 ^ 64) as E by (apply i64_wrap; blia).
        rewrite E in Hlo. blia.
  - intros Hn0. split.
    + intros Hp Hf. destruct (step_does b z (BOverCap n) _ _ HR ltac:(by cbn; rewrite decide_True)) as (b' & Hr & _).
      cbn in Hr. unfold bind in Hr. by rewrite Hp in Hr.
    + intros Hf. open_rep HR. unfold OverCap. rewrite !bind_gets. bcbn.
      rewrite i64_small by blia. by rewrite decide_True by blia.
  - open_rep HR. unfold Reserve. rewrite bind_gets. bcbn. destruct (decide (n > _)); split; (done || lia).
  - intros p Hc Hp. open_rep HR. bcbn. exists (mkBuffer (B ++ C ++ F ++ R ++ S)
      (zlen B + zlen C + zlen F + zlen R) (zlen B) (zlen B + zlen C) (zlen B + zlen C + zlen F - n) r m).
    cbn [capacity] in Hc. split.
    + unfold Reserve. rewrite bind_gets. bcbn. rewrite decide_False by blia. rewrite i64_small by blia. done.
    + unfold Write. rewrite decide_False by (by destruct p).
      rewrite bind_gets. unfold IsFull. bcbn. rewrite bool_decide_eq_false_2 by blia.
      unfold FreeBytes. rewrite bind_bind, bind_gets, bind_bind, bind_gets. bcbn.
      unfold bind at 1, slice. bcbn. rewrite decide_False by blia. done.
Qed.

(** ** Filling a buffer from an io.Reader *)

Section ReadFrom.
Context {Src : Type} `{!Reader Src}.

(** The contract of io.Reader: at most as many bytes as asked for, and some
    bytes or an error when asked for any. *)
Class ReaderLaws : Prop := {
  reader_len : forall r n bs e r', rd_step r n = ((bs, e), r') -> (length bs <= n)%nat;
  reader_progress : forall r n bs r',
    rd_step r n = ((bs, None), r') -> (0 < n)%nat -> (0 < length bs)%nat;
}.

(** The bytes successive reads deliver, and the error that ended them. *)
Inductive delivered : Src -> list Z -> option error -> Src -> Prop :=
  | delivered_nil r : delivered r [] None r
  | delivered_last r n bs e r' : rd_step r n = ((bs, Some e), r') -> delivered r bs (Some e) r'
  | delivered_step r n bs r1 bs' e r' :
      rd_step r n = ((bs, None), r1) -> delivered r1 bs' e r' -> delivered r (bs ++ bs') e r'.

Lemma push_app p q z : push q (push p z) = push (p ++ q) z.
Proof.
  unfold push. cbn. rewrite <- app_assoc. f_equal. unfold zdrop. rewrite drop_drop. f_equal.
  unfold zlen. rewrite length_app. lia.
Qed.

Lemma push_nil z : push [] z = z.
Proof. destruct z. unfold push. cbn. rewrite app_nil_r. by unfold zdrop. Qed.

(** One read into the free room. *)
Lemma fill_step b z (bs : list Z) {A} (k : GoM Buffer A) :
  Rep b z -> zlen bs <= zlen (free z) ->
  exists b', Rep b' (push bs z) /\
    (copy_to (zlen (before z) + zlen (content z), zlen (before z) + zlen (content z) + zlen (free z)) bs ;;
     modify (fun b => with_end (i64 (b_end b + zlen bs)) b) ;; k) b = k b'.
Proof.
  intros HR Hl. open_rep HR. eexists. split; cycle 1.
  - bcopy B C F (R ++ S). repeat bstep. reflexivity.
  - replace (ztake (Z.min (zlen F) (zlen bs)) bs) with bs
      by (unfold ztake; rewrite take_ge; [done|unfold zlen in *; lia]).
    rep_now.
Qed.

Lemma ReadFrom_loop_spec `{!ReaderLaws} fuel r n b z :
  Rep b z -> (length (free z) < fuel)%nat -> 0 <= n -> n + zlen (free z) <= maxAlloc ->
  exists bs e r' b', delivered r bs e r' /\ Rep b' (push bs z) /\
    match e with
    | None => zlen bs = zlen (free z) /\ ReadFrom_loop fuel r n b = Val ((0, Some ErrShortBuffer, r'), b')
    | Some e => zlen bs <= zlen (free z)
        /\ ReadFrom_loop fuel r n b = Val ((n + zlen bs, if decide (e = EOF) then None else Some e, r'), b')
    end.
Proof.
  revert r n b z. induction fuel as [|f IH]; intros r n b z HR Hf Hn Hmax; [lia|].
  cbn [ReadFrom_loop]. pose proof HR as HR0. apply rep_inv in HR0 as (rf & mg & Eb & Hsmall).
  rewrite bind_gets. cbv beta. unfold IsFull. rewrite (rep_end _ _ HR), (rep_capacity _ _ HR).
  destruct (decide (zlen (free z) = 0)) as [E|E].
  - exists [], None, r, b. split_and!; [constructor|by rewrite push_nil|done|].
    by rewrite bool_decide_eq_true_2 by lia.
  - rewrite bool_decide_eq_false_2 by lia. unfold FreeBytes.
    rewrite bind_bind, bind_gets, bind_bind, bind_gets.
    rewrite (rep_end _ _ HR), (rep_capacity _ _ HR).
    erewrite bind_run by (apply slice_run; rewrite ?(rep_data _ _ HR); blia). cbn [fst snd].
    replace (Z.to_nat _) with (length (free z)) by (unfold zlen; lia).
    destruct (rd_step r (length (free z))) as [[bs e] r1] eqn:Er.
    pose proof (reader_len _ _ _ _ _ Er) as Hl.
    destruct (fill_step b z bs (match e with
      | None => ReadFrom_loop f r1 (i64 (n + zlen bs))
      | Some EOF => ret (i64 (n + zlen bs), None, r1)
      | Some e => ret (i64 (n + zlen bs), Some e, r1)
      end) HR ltac:(unfold zlen; lia)) as (b' & HR' & Hrun).
    assert (i64 (n + zlen bs) = n + zlen bs) as Ei by (apply i64_small; unfold maxAlloc, zlen in *; lia).
    destruct e as [e|].
    + exists bs, (Some e), r1, b'. split_and!; [by econstructor|done|unfold zlen; lia|].
      etransitivity; [exact Hrun|]. rewrite Ei. by destruct e.
    + pose proof (reader_progress _ _ _ _ Er ltac:(unfold zlen in *; lia)) as Hpos.
      destruct (IH r1 (n + zlen bs) b' (push bs z) HR') as (bs2 & e2 & r2 & b2 & Hd & HR2 & Hres).
      { unfold push. cbn [free]. unfold zdrop, zlen. rewrite length_drop. lia. }
      { pose proof (zlen_nonneg bs). lia. }
      { unfold push. cbn [free]. rewrite zlen_zdrop. unfold zlen in *. lia. }
      assert (zlen (free (push bs z)) = zlen (free z) - zlen bs) as Hfree.
      { unfold push. cbn [free]. rewrite zlen_zdrop. unfold zlen in *. lia. }
      exists (bs ++ bs2), e2, r2, b2. split_and!; [by econstructor|by rewrite <- push_app|].
      destruct e2; destruct Hres as [H1 H2]; rewrite zlen_app; (split; [lia|]);
        (etransitivity; [exact Hrun|]); rewrite Ei, H2; [|done]. do 4 f_equal. lia.
Qed.
End ReadFrom.

(** ReadFrom terminates on every reader that keeps io.Reader's contract and
    appends exactly the bytes the reader delivered.  It stops at the reader's
    error, answering the byte count and no error for io.EOF, or when the buffer
    is full; then it answers io.ErrShortBuffer and the count 0, although every
    free byte has been filled. *)
Theorem buffer_read_from {R} `{!Reader R, !ReaderLaws} fuel (r : R) b z :
  Rep b z -> (length (free z) < fuel)%nat ->
  exists bs e r' b', delivered r bs e r' /\ Rep b' (push bs z) /\
    match e with
    | None => zlen bs = zlen (free z) /\ ReadFrom fuel r b = Val ((0, Some ErrShortBuffer, r'), b')
    | Some e => zlen bs <= zlen (free z)
        /\ ReadFrom fuel r b = Val ((zlen bs, if decide (e = EOF) then None else Some e, r'), b')
    end.
Proof.
  intros HR Hf. unfold ReadFrom. pose proof (rep_inv _ _ HR) as (rf & mg & _ & Hsmall).
  apply (ReadFrom_loop_spec fuel r 0 b z HR Hf); [lia|blia].
Qed.

(** A pooled array goes back to its pool: for every size the pools serve, Get
    returns an array of at least that size and (above the smallest pool) of less
    than twice the size unless it is the largest one, and Put of that array is
    accepted; so Release of a buffer from NewSize never panics. *)
Theorem pool_get_put junk size :
  pool_ok junk -> 0 < size <= MaxPooledBufferSize ->
  exists c b, Get size = Val (Some c) /\ size <= c /\ Put c = Val None
    /\ (c = MaxPooledBufferSize \/ (exists k, 6 <= k <= 16 /\ c = 2 ^ k /\ (size <= 64 \/ c < 2 * size)))
    /\ NewSize junk size = Val b /\ Release b = Val (true, zeroBuffer).
Proof.
  intros Hj Hs. destruct (alloc_Get_spec size Hs) as (c & Hg & Hle & Hp & Hc).
  exists c, (pooled junk size c). split_and!; [done..| |].
  - unfold NewSize. rewrite decide_False by lia. by rewrite Hg.
  - unfold Release, pooled. cbn. rewrite Hj by lia. by rewrite Hp.
Qed.

(** ** Witnesses *)

Definition sevens (c : Z) : list Z := replicate (Z.to_nat c) 7.
Lemma sevens_ok : pool_ok sevens.
Proof. intros c Hc. by apply zlen_replicate. Qed.

Definition small_buffer : Buffer := With [9; 9; 9; 9; 9; 9] [0; 0].
Definition small_window : window := mkWindow [] [] [9; 9; 9; 9; 9; 9] [] [0; 0].
Lemma small_rep : Rep small_buffer small_window.
Proof. by split. Qed.

Lemma buffer_constructors_witness :
  (exists n zn, NewSize sevens 70000 = Val n /\ Rep n zn /\ content zn = [] /\ zlen (free zn) = 70000)
  /\ (exists n zn, ToOwned sevens (As [1; 2; 3] [4]) = Val n /\ Rep n zn /\ content zn = [1; 2; 3]
       /\ zlen (before zn) = 0 /\ zlen (free zn) = 0).
Proof.
  assert (Rep (As [1; 2; 3] [4]) (mkWindow [] [1; 2; 3] [] [] [4])) as HR by (by split).
  destruct (buffer_constructors sevens 70000 [1] [2] _ _ sevens_ok
    ltac:(unfold maxAlloc; lia) ltac:(unfold maxAlloc, zlen; cbn; lia) HR) as (H1 & _ & _ & _ & _ & H2).
  split; [exact H1|exact H2].
Defined.

Lemma buffer_refines_window_witness :
  exists b', buf_run [BReserve 1; BWrite [1; 2; 3]; BReadByte; BExtend 2; BExtendHeader 1; BWrite [8];
                      BOverCap 1; BTo 2; BLen] small_buffer
    = Val ([done_; mkRes [] 3 None; mkRes [] 1 None; mkRes [9; 9] 0 None; mkRes [1] 0 None;
            mkRes [] 0 (Some ErrShortBuffer); done_; mkRes [1; 2] 0 None; mkRes [] 5 None], b')
    /\ Rep b' (mkWindow [] [1; 2; 3; 9; 9] [9] [] [0; 0]).
Proof. apply (buffer_refines_window _ _ _ _ _ small_rep). vm_compute. reflexivity. Defined.

Lemma buffer_fifo_witness :
  exists b l b' v, NewSize sevens 5 = Val b
    /\ buf_run [BWrite [1; 2; 3; 4; 5; 6]; BRead 2; BWriteByte 7; BReadBytes 1; BReadByte] b = Val (l, b')
    /\ Bytes b' = Val (v, b')
    /\ concat (zip_with written [BWrite [1; 2; 3; 4; 5; 6]; BRead 2; BWriteByte 7; BReadBytes 1; BReadByte] l)
       = concat (zip_with taken [BWrite [1; 2; 3; 4; 5; 6]; BRead 2; BWriteByte 7; BReadBytes 1; BReadByte] l)
         ++ view_bytes v (data b').
Proof. apply (buffer_fifo sevens 5 _ sevens_ok); [unfold maxAlloc; lia|reflexivity]. Defined.

Lemma buffer_overflow_checks_witness :
  (Extend 7 small_buffer = Panic <-> ~ fits 7 (free small_window))
  /\ (ExtendHeader 1 small_buffer = Panic <-> ~ fits 1 (before small_window)).
Proof.
  destruct (buffer_overflow_checks small_buffer small_window 7 small_rep ltac:(lia)) as (H1 & _).
  destruct (buffer_overflow_checks small_buffer small_window 1 small_rep ltac:(lia)) as (_ & H2 & _).
  split; [exact H1|exact H2].
Defined.

(** A reader that delivers chunks and then io.EOF. *)
#[export] Instance chunk_reader : Reader (list (list Z)) := fun r n =>
  match r with
  | [] => (([], Some EOF), [])
  | c :: cs => if decide (length c = 0%nat) then (([], Some EOF), cs)
               else ((take n c, None), if decide (length c <= n)%nat then cs else drop n c :: cs)
  end.
#[export] Instance chunk_reader_laws : ReaderLaws (Src := list (list Z)).
Proof.
  split.
  - intros [|c cs] n bs e r'; cbn; [intros [= <- _ _]; cbn; lia|].
    destruct (decide _); intros [= <- _ _]; [cbn; lia|]. rewrite length_take. lia.
  - intros [|c cs] n bs r'; cbn; [done|].
    destruct (decide _); [done|]. intros [= <- _] Hn. rewrite length_take. lia.
Qed.

Lemma buffer_read_from_witness :
  exists bs e r' b', delivered [[1; 2]; [3; 4; 5]] bs e r' /\ Rep b' (push bs small_window) /\
    match e with
    | None => zlen bs = 6
        /\ ReadFrom 7 [[1; 2]; [3; 4; 5]] small_buffer = Val ((0, Some ErrShortBuffer, r'), b')
    | Some e => zlen bs <= 6
        /\ ReadFrom 7 [[1; 2]; [3; 4; 5]] small_buffer
           = Val ((zlen bs, if decide (e = EOF) then None else Some e, r'), b')
    end.
Proof. apply (buffer_read_from 7 [[1; 2]; [3; 4; 5]] small_buffer small_window small_rep). cbn. lia. Defined.

Lemma pool_get_put_witness :
  exists c b, Get 100 = Val (Some c) /\ 100 <= c /\ Put c = Val None
    /\ (c = MaxPooledBufferSize \/ (exists k, 6 <= k <= 16 /\ c = 2 ^ k /\ (100 <= 64 \/ c < 2 * 100)))
    /\ NewSize sevens 100 = Val b /\ Release b = Val (true, zeroBuffer).
Proof. apply (pool_get_put sevens 100 sevens_ok). by vm_compute. Defined.
