(* ===== verification/BufWriter.v ===== *)
(** * Messages built in a buffer

    The encoders of the program fill a temporary buffer of the right size, write
    it out in one call and release it.  The first part is this pattern with the
    ways errors are handled in it, the second its laws: what filling a buffer
    with room does, and that the release never panics. *)

From S2P Require Import Prelude GoIO Buf BufTheorems.
#[local] Open Scope go_scope.

(** Code that writes to a buffer and returns an error. *)
Abbreviation W := (GoM Buffer (option error)).

(** common.Error of a result with a count. *)
Definition errors_only (m : GoM Buffer (Z * option error)) : W := r <- m ;; ret r.2.
(** [if err != nil { return err }]. *)
Definition andthen (m k : W) : W := e <- m ;; match e with Some e => ret (Some e) | None => k end.
(** binary.Write of an integer: one Write, whose count is not looked at. *)
Definition write_be (n : nat) (x : Z) : W := errors_only (Write (be n x)).

(** common.Must: the arguments are evaluated first, the first error panics. *)
Fixpoint evaluate (ms : list W) : GoM Buffer (list (option error)) :=
  match ms with
  | [] => ret []
  | m :: ms => e <- m ;; es <- evaluate ms ;; ret (e :: es)
  end.
Definition Must (ms : list W) : GoM Buffer unit :=
  es <- evaluate ms ;; if decide (Exists is_Some es) then panic else ret tt.

(** What a buffer holds. *)
Definition contents (b : Buffer) : outcome (list Z) :=
  let! v := Bytes b in Val (view_bytes v.1 (data b)).

(** [buffer := buf.NewSize(size); defer buffer.Release()], [fill], and
    [writer.Write(buffer.Bytes())] unless [fill] returned an error. *)
Definition buffered (junk : Z -> list Z) (size : Z) (fill : W) (w : writer) : outcome (option error * writer) :=
  let! buffer := NewSize junk size in
  let! p := fill buffer in
  let '(err, buffer) := (p : option error * Buffer) in
  let! r := match err with
            | Some e => Val (Some e, w)
            | None => let! bs := contents buffer in Val (WriteBytes bs w)
            end in
  let! _ := Release buffer in
  Val r.

(** ** Ownership: writing changes neither the references nor the pool *)

#[export] Typeclasses Opaque bind ret gets modify panic slice index set_index copy_to.

Class KeepsOwner {A} (m : GoM Buffer A) : Prop :=
  keeps_owner b a b' : m b = Val (a, b') -> managed b' = managed b /\ refs b' = refs b.

#[export] Instance keeps_ret {A} (a : A) : KeepsOwner (ret a).
Proof. by intros b a' b' [= _ <-]. Qed.
#[export] Instance keeps_gets {A} (f : Buffer -> A) : KeepsOwner (gets f).
Proof. by intros b a' b' [= _ <-]. Qed.
#[export] Instance keeps_panic {A} : KeepsOwner (A := A) panic.
Proof. by intros b a' b' ?. Qed.
#[export] Instance keeps_bind {A B} (m : GoM Buffer A) (k : A -> GoM Buffer B) :
  KeepsOwner m -> (forall a, KeepsOwner (k a)) -> KeepsOwner (bind m k).
Proof.
  intros Hm Hk b a b' Hr. unfold bind in Hr. destruct (m b) as [[x b1]| |] eqn:E; [|done..].
  destruct (Hm _ _ _ E) as [<- <-]. by apply (Hk x _ _ _ Hr).
Qed.
#[export] Instance keeps_slice lo hi : KeepsOwner (slice lo hi).
Proof. intros b a b'. unfold slice. destruct (decide _); [by intros [= _ <-]|done]. Qed.
#[export] Instance keeps_set_index i x : KeepsOwner (set_index i x).
Proof.
  intros b a b'. unfold set_index. destruct (decide _); [|done]. destruct (set_at _ _ _); [by intros [= _ <-]|done].
Qed.
#[export] Instance keeps_copy_to v src : KeepsOwner (copy_to v src).
Proof. by intros b a b' [= _ <-]. Qed.
#[export] Instance keeps_with_end (f : Buffer -> Z) : KeepsOwner (modify (fun b => with_end (f b) b)).
Proof. by intros b a b' [= _ <-]. Qed.
#[export] Instance keeps_with_end' (e : Z) : KeepsOwner (modify (with_end e)).
Proof. by intros b a b' [= _ <-]. Qed.
#[export] Instance keeps_decide {A} (P : Prop) `{Decision P} (m1 m2 : GoM Buffer A) :
  KeepsOwner m1 -> KeepsOwner m2 -> KeepsOwner (if decide P then m1 else m2).
Proof. by destruct (decide P). Qed.
#[export] Instance keeps_if {A} (c : bool) (m1 m2 : GoM Buffer A) :
  KeepsOwner m1 -> KeepsOwner m2 -> KeepsOwner (if c then m1 else m2).
Proof. by destruct c. Qed.
#[export] Instance keeps_option {A B} (o : option B) (m1 : B -> GoM Buffer A) (m2 : GoM Buffer A) :
  (forall x, KeepsOwner (m1 x)) -> KeepsOwner m2 -> KeepsOwner (match o with Some x => m1 x | None => m2 end).
Proof. by destruct o. Qed.

#[export] Instance keeps_Write p : KeepsOwner (Write p).
Proof. unfold Write, FreeBytes. apply _. Qed.
#[export] Instance keeps_WriteString p : KeepsOwner (WriteString p).
Proof. apply keeps_Write. Qed.
#[export] Instance keeps_WriteByte d : KeepsOwner (WriteByte d).
Proof. unfold WriteByte. apply _. Qed.
#[export] Instance keeps_WriteZero : KeepsOwner WriteZero.
Proof. unfold WriteZero. apply _. Qed.
#[export] Instance keeps_WriteZeroN n : KeepsOwner (WriteZeroN n).
Proof. unfold WriteZeroN, Extend. apply _. Qed.
#[export] Instance keeps_errors_only m : KeepsOwner m -> KeepsOwner (errors_only m).
Proof. unfold errors_only. apply _. Qed.
#[export] Instance keeps_andthen m k : KeepsOwner m -> KeepsOwner k -> KeepsOwner (andthen m k).
Proof. unfold andthen. apply _. Qed.
#[export] Instance keeps_write_be n x : KeepsOwner (write_be n x).
Proof. unfold write_be. apply _. Qed.
Class KeepAll (ms : list W) : Prop := keep_all : Forall KeepsOwner ms.
#[export] Instance keep_nil : KeepAll [].
Proof. constructor. Qed.
#[export] Instance keep_cons m ms : KeepsOwner m -> KeepAll ms -> KeepAll (m :: ms).
Proof. by constructor. Qed.
#[export] Instance keeps_Must ms : KeepAll ms -> KeepsOwner (Must ms).
Proof.
  intros Hms. unfold Must. apply keeps_bind; [|apply _].
  induction Hms as [|m ms Hm _ IH]; cbn [evaluate]; apply _.
Qed.

(** A buffer whose release is safe. *)
Definition releasable (b : Buffer) : Prop := managed b = true -> refs b = 0 /\ Put (zlen (data b)) = Val None.

Lemma Release_ok b : releasable b -> exists x b', Release b = Val (x, b').
Proof.
  unfold releasable, Release. destruct (managed b); [|by eexists _, _].
  intros [-> ->]; [done|]. by eexists _, _.
Qed.

Definition size_of (z : window) : Z := zlen (before z) + zlen (content z) + zlen (free z) + zlen (reserved z) + zlen (spare z).

Lemma size_push p z : zlen p <= zlen (free z) -> size_of (push p z) = size_of z.
Proof.
  intros Hp. unfold size_of, push. cbn. rewrite zlen_app, zlen_zdrop. pose proof (zlen_nonneg p). lia.
Qed.

Lemma rep_size b z : Rep b z -> zlen (data b) = size_of z.
Proof. intros []. rewrite rep_data, !zlen_app. unfold size_of. lia. Qed.

Lemma releasable_keeps {A} (m : GoM Buffer A) `{!KeepsOwner m} b a b' z p :
  m b = Val (a, b') -> Rep b z -> Rep b' (push p z) -> zlen p <= zlen (free z) -> releasable b -> releasable b'.
Proof.
  intros Hm HR HR' Hp Hrel Hmg. destruct (keeps_owner _ _ _ Hm) as [E1 E2].
  rewrite (rep_size _ _ HR'), size_push, <- (rep_size _ _ HR), E2 by done. apply Hrel. by rewrite <- E1.
Qed.

Lemma NewSize_fresh junk size :
  pool_ok junk -> 0 <= size <= maxAlloc ->
  exists b z, NewSize junk size = Val b /\ Rep b z /\ before z = [] /\ content z = [] /\ zlen (free z) = size /\ releasable b.
Proof.
  intros Hj Hs. destruct (NewSize_rep junk size Hj Hs) as (b & z & Hnew & HR & Hb & Hc & Hf & _).
  exists b, z. split_and!; try done. revert Hnew. unfold NewSize. destruct (decide (size = 0)) as [->|Hne].
  { by intros [= <-]. }
  destruct (decide (size <= MaxPooledBufferSize)) as [Hp|Hp].
  - destruct (alloc_Get_spec size ltac:(lia)) as (c & -> & Hle & Hput & _). cbn [obind]. intros [= <-] _. cbn.
    by rewrite Hj by lia.
  - unfold Get, alloc_Get. rewrite decide_False by lia. rewrite decide_True by lia. cbn [obind].
    unfold makeslice_ok. rewrite bool_decide_eq_true_2 by lia. by intros [= <-].
Qed.

(** ** Filling *)

(** With room for [bs], [m] appends [bs] and returns nil. *)
Definition Fills (m : W) (bs : list Z) : Prop :=
  forall b z, Rep b z -> zlen bs <= zlen (free z) -> does m b None (push bs z).
(** [m] returns [e], whatever it has appended. *)
Definition Fails (m : W) (e : error) : Prop :=
  forall b z, Rep b z -> exists p, zlen p <= zlen (free z) /\ does m b (Some e) (push p z).

Lemma fills_nil : Fills (ret None) [].
Proof. intros b z HR _. rewrite push_nil. by exists b. Qed.

Lemma fills_WriteByte d : Fills (WriteByte d) [d].
Proof.
  intros b z HR Hr. pose proof (write_byte_does b z d _ eq_refl HR) as Hd. unfold write_all in Hd.
  by rewrite decide_True in Hd by done.
Qed.
Lemma fills_WriteZero : Fills WriteZero [0].
Proof.
  intros b z HR Hr. pose proof (write_byte_does b z 0 _ eq_refl HR) as Hd. unfold write_all in Hd.
  by rewrite decide_True in Hd by done.
Qed.

Lemma fills_Write p : Fills (errors_only (Write p)) p.
Proof.
  intros b z HR Hr.
  pose proof (does_map _ snd _ _ _ (Write_does b z p HR)) as Hd. unfold write_step in Hd.
  destruct (decide (length p = 0%nat)) as [E|E].
  - apply nil_length_inv in E as ->. by rewrite push_nil.
  - assert (zlen p <> 0) by (unfold zlen; lia). pose proof (zlen_nonneg p).
    rewrite decide_False in Hd by lia. rewrite Z.min_r in Hd by done.
    assert (ztake (zlen p) p = p) as Ep by (unfold ztake, zlen; rewrite Nat2Z.id; by apply take_ge).
    rewrite Ep in Hd. exact Hd.
Qed.
Lemma fills_WriteString p : Fills (errors_only (WriteString p)) p.
Proof. apply fills_Write. Qed.
Lemma fills_write_be n x : Fills (write_be n x) (be n x).
Proof. apply fills_Write. Qed.
Lemma fills_WriteZeroN n : 0 <= n <= maxAlloc -> Fills (WriteZeroN n) (replicate (Z.to_nat n) 0).
Proof.
  intros Hn b z HR Hr. pose proof (WriteZeroN_does b z n HR Hn) as Hd. unfold write_all in Hd. cbv zeta in Hd.
  by rewrite decide_True in Hd by done.
Qed.

Lemma free_push p z : zlen p <= zlen (free z) -> zlen (free (push p z)) = zlen (free z) - zlen p.
Proof. intros Hp. cbn. rewrite zlen_zdrop. pose proof (zlen_nonneg p). lia. Qed.

Lemma does_bind {A B} (m : GoM Buffer A) (k : A -> GoM Buffer B) b a z c z' :
  does m b a z -> (forall b', Rep b' z -> does (k a) b' c z') -> does (bind m k) b c z'.
Proof.
  intros (b1 & Hm & HR) Hk. destruct (Hk b1 HR) as (b2 & Hk2 & HR2). exists b2. split; [|done].
  by rewrite (bind_run _ _ _ _ _ Hm).
Qed.

Lemma fills_andthen m k bs bs' : Fills m bs -> Fills k bs' -> Fills (andthen m k) (bs ++ bs').
Proof.
  intros Hm Hk b z HR Hr. rewrite zlen_app in Hr. pose proof (zlen_nonneg bs). pose proof (zlen_nonneg bs').
  apply (does_bind _ _ _ _ _ _ _ (Hm b z HR ltac:(lia))). intros b' HR'.
  rewrite <- push_app. apply Hk; [done|]. rewrite free_push by lia. lia.
Qed.

Lemma fills_evaluate ms bss b z :
  Forall2 Fills ms bss -> Rep b z -> zlen (concat bss) <= zlen (free z) ->
  does (evaluate ms) b (replicate (length ms) None) (push (concat bss) z).
Proof.
  intros Hf. revert b z. induction Hf as [|m bs ms bss Hm _ IH]; intros b z HR Hr; cbn [evaluate concat] in *.
  - rewrite push_nil. by exists b.
  - rewrite zlen_app in Hr. pose proof (zlen_nonneg bs). pose proof (zlen_nonneg (concat bss)).
    apply (does_bind _ _ _ _ _ _ _ (Hm b z HR ltac:(lia))). intros b' HR'.
    rewrite <- push_app. apply (does_map _ (cons None)). apply IH; [done|]. rewrite free_push by lia. lia.
Qed.

(** The same for a step without a result. *)
Definition FillsU (m : GoM Buffer unit) (bs : list Z) : Prop :=
  forall b z, Rep b z -> zlen bs <= zlen (free z) -> does m b tt (push bs z).

Lemma fillsU_Must ms bss : Forall2 Fills ms bss -> FillsU (Must ms) (concat bss).
Proof.
  intros Hms b z HR Hr. apply (does_bind _ _ _ _ _ _ _ (fills_evaluate ms bss b z Hms HR Hr)). intros b' HR'.
  rewrite decide_False; [by exists b'|]. rewrite Exists_exists. intros (x & Hx & []).
  apply elem_of_replicate in Hx as [-> _]. done.
Qed.

Lemma fillsU_one m bs : Fills m bs -> FillsU (Must [m]) bs.
Proof. intros Hm. pose proof (fillsU_Must [m] [bs]) as H. cbn [concat] in H. rewrite app_nil_r in H. apply H. by repeat constructor. Qed.

Lemma fills_then m k bs bs' : FillsU m bs -> Fills k bs' -> Fills (m ;; k) (bs ++ bs').
Proof.
  intros Hm Hk b z HR Hr. rewrite zlen_app in Hr. pose proof (zlen_nonneg bs). pose proof (zlen_nonneg bs').
  apply (does_bind _ _ _ _ _ _ _ (Hm b z HR ltac:(lia))). intros b' HR'.
  rewrite <- push_app. apply Hk; [done|]. rewrite free_push by lia. lia.
Qed.
Lemma fillsU_then m k bs bs' : FillsU m bs -> FillsU k bs' -> FillsU (m ;; k) (bs ++ bs').
Proof.
  intros Hm Hk b z HR Hr. rewrite zlen_app in Hr. pose proof (zlen_nonneg bs). pose proof (zlen_nonneg bs').
  apply (does_bind _ _ _ _ _ _ _ (Hm b z HR ltac:(lia))). intros b' HR'.
  rewrite <- push_app. apply Hk; [done|]. rewrite free_push by lia. lia.
Qed.

Lemma fills_Must ms bss k bs : Forall2 Fills ms bss -> Fills k bs -> Fills (Must ms ;; k) (concat bss ++ bs).
Proof. intros Hms Hk. apply fills_then; [by apply fillsU_Must|done]. Qed.

Lemma fails_ret e : Fails (ret (Some e)) e.
Proof. intros b z HR. exists []. split; [apply zlen_nonneg|]. rewrite push_nil. by exists b. Qed.

Lemma Rep_contents b z : Rep b z -> contents b = Val (content z).
Proof.
  intros HR. destruct (step_does b z BBytes _ z HR eq_refl) as (b' & Hb & _). cbn [buf_step] in Hb.
  unfold viewed, bind, gets, ret in Hb. unfold contents.
  destruct (Bytes b) as [[v b1]| |] eqn:E; [|done..]. cbn [obind fst].
  assert (b1 = b) as ->. { unfold Bytes, bind, gets, slice in E. destruct (decide _); [by injection E|done]. }
  injection Hb as Hb _. by rewrite Hb.
Qed.

(** The whole pattern. *)
Lemma buffered_fills junk size m bs w `{!KeepsOwner m} :
  pool_ok junk -> 0 <= size <= maxAlloc -> Fills m bs -> zlen bs <= size ->
  buffered junk size m w = Val (WriteBytes bs w).
Proof.
  intros Hj Hs Hm Hl. destruct (NewSize_fresh junk size Hj Hs) as (b & z & Hnew & HR & Hb & Hc & Hf & Hrel).
  unfold buffered. rewrite Hnew. cbn [obind].
  destruct (Hm b z HR ltac:(lia)) as (b' & Hrun & HR'). rewrite Hrun. cbn [obind].
  rewrite (Rep_contents _ _ HR'). cbn [obind push content]. rewrite Hc. cbn [app].
  destruct (Release_ok b') as (x & b'' & Hrel'); [apply (releasable_keeps m b None b' z bs); try done; lia|].
  by rewrite Hrel'.
Qed.

Lemma buffered_fails junk size m e w `{!KeepsOwner m} :
  pool_ok junk -> 0 <= size <= maxAlloc -> Fails m e -> buffered junk size m w = Val (Some e, w).
Proof.
  intros Hj Hs Hm. destruct (NewSize_fresh junk size Hj Hs) as (b & z & Hnew & HR & Hb & Hc & Hf & Hrel).
  unfold buffered. rewrite Hnew. cbn [obind]. destruct (Hm b z HR) as (p & Hp & b' & Hrun & HR'). rewrite Hrun. cbn [obind].
  destruct (Release_ok b') as (x & b'' & Hrel'); [by apply (releasable_keeps m b (Some e) b' z p)|]. by rewrite Hrel'.
Qed.
#[export] Hint Resolve fills_nil fills_WriteByte fills_WriteZero fills_Write fills_WriteString fills_write_be fills_andthen : fills.
