(* ===== verification/GoNet.v ===== *)
(** * Addresses: the parts of Go's net, net/netip and strconv the modelled code uses

    A netip.Addr is invalid, a 32-bit IPv4 address or a 128-bit IPv6 address with
    a zone.  [ParseAddr] and [Addr_String] follow net/netip, [SplitHostPort] and
    [JoinHostPort] package net, [Itoa] and [Atoi] package strconv; strings are
    lists of bytes. *)

From S2P Require Import Prelude GoIO.
#[local] Open Scope go_scope.

(** ** Bytes of a string *)

Definition is_digit (c : Z) : bool := bool_decide (48 <= c <= 57).
Definition colon : Z := 58.
Definition period : Z := 46.
Definition percent : Z := 37.
Definition lbracket : Z := 91.
Definition rbracket : Z := 93.

(** strings.IndexByte and strings.LastIndexByte; -1 for none. *)
Fixpoint IndexByte_from (i : Z) (s : list Z) (c : Z) : Z :=
  match s with
  | [] => -1
  | x :: s => if decide (x = c) then i else IndexByte_from (i + 1) s c
  end.
Definition IndexByte (s : list Z) (c : Z) : Z := IndexByte_from 0 s c.
Fixpoint LastIndexByte_from (i last : Z) (s : list Z) (c : Z) : Z :=
  match s with
  | [] => last
  | x :: s => LastIndexByte_from (i + 1) (if decide (x = c) then i else last) s c
  end.
Definition LastIndexByte (s : list Z) (c : Z) : Z := LastIndexByte_from 0 (-1) s c.

(** A string as an error message carries it. *)
Definition text (bs : list Z) : string :=
  foldr (fun b s => String (Ascii.ascii_of_N (Z.to_N b)) s) EmptyString bs.

(** ** strconv *)

Fixpoint digits (fuel : nat) (n : Z) (acc : list Z) : list Z :=
  match fuel with
  | O => acc
  | S f => let acc := 48 + n mod 10 :: acc in if decide (n / 10 = 0) then acc else digits f (n / 10) acc
  end.
(** Twenty digits are enough for an int. *)
Definition Itoa (n : Z) : list Z := if decide (n < 0) then 45 :: digits 20 (- n) [] else digits 20 n [].

(** ParseUint in base 10: [None] for a syntax error, the largest uint64 as soon as
    the value leaves the range. *)
Fixpoint parse_uint (s : list Z) (acc : Z) : option Z :=
  match s with
  | [] => Some acc
  | c :: s =>
      if is_digit c then
        let n := acc * 10 + (c - 48) in
        if decide (2 ^ 64 <= n) then Some (2 ^ 64 - 1) else parse_uint s n
      else None
  end.

(** The value Atoi returns, whether with an error or not. *)
Definition Atoi (s : list Z) : Z :=
  let neg := bool_decide (head s = Some 45) in
  let s := if decide (head s = Some 45 \/ head s = Some 43) then tail s else s in
  if decide (s = []) then 0 else
  match parse_uint s 0 with
  | None => 0
  | Some n => if neg then Z.max (- n) (- 2 ^ 63) else Z.min n (2 ^ 63 - 1)
  end.

(** ** netip.Addr *)

Inductive Addr :=
  | AddrInvalid
  | Addr4 (a : Z)
  | Addr6 (a : Z) (zone : list Z).
#[export] Instance Addr_eq_dec : EqDecision Addr.
Proof. solve_decision. Defined.

Definition IsValid (a : Addr) : bool := match a with AddrInvalid => false | _ => true end.
Definition Is4 (a : Addr) : bool := match a with Addr4 _ => true | _ => false end.
Definition Is6 (a : Addr) : bool := match a with Addr6 _ _ => true | _ => false end.
Definition Is4In6 (a : Addr) : bool := match a with Addr6 a _ => bool_decide (a / 2 ^ 32 = 0xFFFF) | _ => false end.
Definition Zone (a : Addr) : list Z := match a with Addr6 _ z => z | _ => [] end.
Definition AsSlice (a : Addr) : list Z :=
  match a with AddrInvalid => [] | Addr4 a => be 4 a | Addr6 a _ => be 16 a end.
Definition AddrFrom4 (bs : list Z) : Addr := Addr4 (unbe bs).
Definition AddrFrom16 (bs : list Z) : Addr := Addr6 (unbe bs) [].
(** The address is IPv4 or IPv4 in IPv6 where this is called, where As4 does not panic. *)
Definition As4 (a : Addr) : list Z :=
  match a with AddrInvalid => [] | Addr4 a => be 4 a | Addr6 a _ => be 4 (a mod 2 ^ 32) end.
Definition AddrFromSlice (bs : list Z) : Addr :=
  if decide (length bs = 4%nat) then AddrFrom4 bs
  else if decide (length bs = 16%nat) then AddrFrom16 bs else AddrInvalid.
Definition Unmap (a : Addr) : Addr := if Is4In6 a then AddrFrom4 (As4 a) else a.

(** An address as the run time can hold it. *)
Definition addr_ok (a : Addr) : Prop :=
  match a with
  | AddrInvalid => True
  | Addr4 a => 0 <= a < 2 ^ 32
  | Addr6 a z => 0 <= a < 2 ^ 128 /\ bytes_ok z
  end.
#[export] Instance addr_ok_dec a : Decision (addr_ok a).
Proof. destruct a; cbn; apply _. Defined.

(** IsPrivate and IsGlobalUnicast of net/netip. *)
Definition byte_of (n : nat) (a i : Z) : Z := Z.land (Z.shiftr a (8 * (Z.of_nat n - 1 - i))) 255.
Definition IsPrivate (a : Addr) : bool :=
  match Unmap a with
  | AddrInvalid => false
  | Addr4 a =>
      bool_decide (byte_of 4 a 0 = 10 \/ byte_of 4 a 0 = 172 /\ Z.land (byte_of 4 a 1) 0xF0 = 16
                   \/ byte_of 4 a 0 = 192 /\ byte_of 4 a 1 = 168)
  | Addr6 a _ => bool_decide (Z.land (byte_of 16 a 0) 0xFE = 0xFC)
  end.
Definition IsGlobalUnicast (a : Addr) : bool :=
  match Unmap a with
  | AddrInvalid => false
  | Addr4 a =>
      (* not 0.0.0.0, 255.255.255.255, loopback, multicast or link local *)
      bool_decide (a <> 0 /\ a <> 0xFFFFFFFF /\ byte_of 4 a 0 <> 127 /\ Z.land (byte_of 4 a 0) 0xF0 <> 0xE0
                   /\ ~ (byte_of 4 a 0 = 169 /\ byte_of 4 a 1 = 254))
  | Addr6 v z =>
      (* neither ::, ::1, multicast nor link local *)
      bool_decide (~ (v = 0 /\ z = []) /\ v <> 1 /\ byte_of 16 v 0 <> 0xFF
                   /\ Z.land (byte_of 16 v 0 * 256 + byte_of 16 v 1) 0xFFC0 <> 0xFE80)
  end.

(** *** Parsing *)

(** parseIPv4Fields: [pos] fields are done, [acc] is their value; [val] and
    [digLen] are those of the current one, [prev] the byte before. *)
Fixpoint parseIPv4Fields (s : list Z) (prev : Z) (acc val pos digLen : Z) : option Z :=
  match s with
  | [] => if decide (pos < 3) then None else Some (acc * 256 + val)
  | c :: s =>
      if is_digit c then
        if decide (digLen = 1 /\ val = 0) then None
        else
          let val := val * 10 + (c - 48) in
          if decide (val > 255) then None else parseIPv4Fields s c acc val pos (digLen + 1)
      else if decide (c = period) then
        if decide (prev = period \/ s = []) then None
        else if decide (pos = 3) then None
        else parseIPv4Fields s c (acc * 256 + val) 0 (pos + 1) 0
      else None
  end.
(** The first byte counts as preceded by a dot: it must not be one. *)
Definition parseIPv4 (s : list Z) : option Z := parseIPv4Fields s period 0 0 0 0.

Definition hex_digit (c : Z) : option Z :=
  if decide (48 <= c <= 57) then Some (c - 48)
  else if decide (97 <= c <= 102) then Some (c - 97 + 10)
  else if decide (65 <= c <= 70) then Some (c - 65 + 10) else None.

(** The hexadecimal number at the front: its value, its length and the rest;
    [None] when it has more than four digits. *)
Fixpoint hex_group (off : nat) (acc : Z) (s : list Z) : option (Z * nat * list Z) :=
  match s with
  | [] => Some (acc, off, [])
  | c :: s' =>
      match hex_digit c with
      | Some d => if decide (3 < off)%nat then None else hex_group (S off) (acc * 16 + d) s'
      | None => Some (acc, off, s)
      end
  end.

(** The loop of parseIPv6: [groups] are the 16-bit groups found (two for an
    embedded IPv4 address), [ellipsis] the number of groups before "::". *)
Fixpoint parse_groups (fuel : nat) (s : list Z) (groups : list Z) (ellipsis : option nat)
    : option (list Z * list Z * option nat) :=
  match fuel with
  | O => None
  | S f =>
      if decide (8 <= length groups)%nat then Some (s, groups, ellipsis) else
      match hex_group 0 0 s with
      | None => None
      | Some (acc, off, rest) =>
          if decide (off = 0%nat) then None else
          match rest with
          | [] => Some ([], groups ++ [acc], ellipsis)
          | c :: rest' =>
              if decide (c = period) then
                if decide (ellipsis = None /\ length groups <> 6%nat) then None
                else if decide (6 < length groups)%nat then None
                else match parseIPv4 s with
                     | None => None
                     | Some a => Some ([], groups ++ [a / 2 ^ 16; a mod 2 ^ 16], ellipsis)
                     end
              else if decide (c <> colon \/ rest' = []) then None
              else
                let groups := groups ++ [acc] in
                match rest' with
                | c' :: rest'' =>
                    if decide (c' = colon) then
                      match ellipsis with
                      | Some _ => None
                      | None =>
                          match rest'' with
                          | [] => Some ([], groups, Some (length groups))
                          | _ => parse_groups f rest'' groups (Some (length groups))
                          end
                      end
                    else parse_groups f rest' groups ellipsis
                | [] => None
                end
          end
      end
  end.

Definition of_groups (groups : list Z) : Z := foldl (fun a g => a * 2 ^ 16 + g) 0 groups.

Definition parseIPv6 (s : list Z) : option Addr :=
  let i := IndexByte s percent in
  let '(s, zone, bad) := if decide (i = -1) then (s, [], false)
                         else (ztake i s, zdrop (i + 1) s, bool_decide (zdrop (i + 1) s = [])) in
  if bad : bool then None else
  let '(s, ellipsis) := if decide (take 2 s = [colon; colon]) then (drop 2 s, Some 0%nat) else (s, None) in
  if decide (ellipsis = Some 0%nat /\ s = []) then Some (Addr6 0 zone) else
  match parse_groups 9 s [] ellipsis with
  | None => None
  | Some (s, groups, ellipsis) =>
      if decide (s <> []) then None
      else if decide (length groups < 8)%nat then
        match ellipsis with
        | None => None
        | Some e =>
            Some (Addr6 (of_groups (take e groups ++ replicate (8 - length groups) 0 ++ drop e groups)) zone)
        end
      else match ellipsis with
           | Some _ => None
           | None => Some (Addr6 (of_groups groups) zone)
           end
  end.

(** ParseAddr: [None] for an error.  The first of '.', ':' and '%' decides. *)
Fixpoint addr_kind (s : list Z) : option Z :=
  match s with
  | [] => None
  | c :: s => if decide (c = period \/ c = colon \/ c = percent) then Some c else addr_kind s
  end.
Definition ParseAddr (s : list Z) : option Addr :=
  match addr_kind s with
  | None => None
  | Some c =>
      if decide (c = period) then Addr4 <$> parseIPv4 s
      else if decide (c = colon) then parseIPv6 s else None
  end.

(** *** Printing *)

Definition string4 (a : Z) : list Z :=
  Itoa (byte_of 4 a 0) ++ [period] ++ Itoa (byte_of 4 a 1) ++ [period]
    ++ Itoa (byte_of 4 a 2) ++ [period] ++ Itoa (byte_of 4 a 3).

Definition hex_char (d : Z) : Z := if decide (d < 10) then 48 + d else 87 + d.
(** appendHex: no leading zeros. *)
Definition append_hex (x : Z) : list Z :=
  (if decide (x >= 0x1000) then [hex_char (x / 0x1000)] else [])
    ++ (if decide (x >= 0x100) then [hex_char (x / 0x100 mod 16)] else [])
    ++ (if decide (x >= 0x10) then [hex_char (x / 0x10 mod 16)] else []) ++ [hex_char (x mod 16)].

Definition v6u16 (a : Z) (i : nat) : Z := a / 2 ^ (16 * (7 - Z.of_nat i)) mod 2 ^ 16.

(** The length of the run of zero groups at the front. *)
Fixpoint zero_run (groups : list Z) : nat :=
  match groups with
  | [] => 0
  | g :: gs => if decide (g = 0) then S (zero_run gs) else 0
  end.
(** The first longest run of at least two zero groups: its start and its end. *)
Fixpoint longest_run (groups : list Z) (i : nat) (best : nat * nat) : nat * nat :=
  match groups with
  | [] => best
  | g :: gs =>
      let l := zero_run (g :: gs) in
      longest_run gs (S i) (if decide (2 <= l /\ best.2 - best.1 < l)%nat then (i, i + l) else best)%nat
  end.

(** Groups separated by colons. *)
Fixpoint join_groups (groups : list Z) : list Z :=
  match groups with
  | [] => []
  | [g] => append_hex g
  | g :: gs => append_hex g ++ [colon] ++ join_groups gs
  end.

Definition string6 (a : Z) : list Z :=
  let groups := v6u16 a <$> seq 0 8 in
  let '(s, e) := longest_run groups 0 (0, 0)%nat in
  if decide (s = e) then join_groups groups
  else join_groups (take s groups) ++ [colon; colon] ++ join_groups (drop e groups).

Definition with_zone (zone s : list Z) : list Z := match zone with [] => s | _ => s ++ [percent] ++ zone end.

Definition Addr_String (a : Addr) : list Z :=
  match a with
  | AddrInvalid => [105; 110; 118; 97; 108; 105; 100; 32; 73; 80]   (* "invalid IP" *)
  | Addr4 a => string4 a
  | Addr6 v z =>
      with_zone z (if Is4In6 a then [58; 58; 102; 102; 102; 102; 58] ++ string4 (v mod 2 ^ 32) else string6 v)
  end.

(** ** net.SplitHostPort and net.JoinHostPort *)

(** [None] for any of its errors, which the modelled code does not tell apart. *)
Definition SplitHostPort (hostport : list Z) : option (list Z * list Z) :=
  let i := LastIndexByte hostport colon in
  if decide (i < 0) then None else
  if decide (head hostport = Some lbracket) then
      let e := IndexByte hostport rbracket in
      if decide (e < 0) then None
      else if decide (e + 1 <> i) then None
      else if decide (IndexByte (zdrop 1 hostport) lbracket >= 0) then None
      else if decide (IndexByte (zdrop (e + 1) hostport) rbracket >= 0) then None
      else Some (ztake (e - 1) (zdrop 1 hostport), zdrop (i + 1) hostport)
  else
      let host := ztake i hostport in
      if decide (IndexByte host colon >= 0) then None
      else if decide (IndexByte hostport lbracket >= 0) then None
      else if decide (IndexByte hostport rbracket >= 0) then None
      else Some (host, zdrop (i + 1) hostport).

Definition JoinHostPort (host port : list Z) : list Z :=
  if decide (IndexByte host colon >= 0) then [lbracket] ++ host ++ [rbracket; colon] ++ port
  else host ++ [colon] ++ port.

(** ** net.isDomainName *)

Definition is_letter (c : Z) : bool := bool_decide (97 <= c <= 122 \/ 65 <= c <= 90 \/ c = 95).
Fixpoint domain_name_loop (s : list Z) (prev : Z) (nonNumeric : bool) (partlen : Z) : bool :=
  match s with
  | [] => if decide (prev = 45 \/ partlen > 63) then false else nonNumeric
  | c :: s =>
      if is_letter c then domain_name_loop s c true (partlen + 1)
      else if is_digit c then domain_name_loop s c nonNumeric (partlen + 1)
      else if decide (c = 45) then
        if decide (prev = period) then false else domain_name_loop s c true (partlen + 1)
      else if decide (c = period) then
        if decide (prev = period \/ prev = 45) then false
        else if decide (partlen > 63 \/ partlen = 0) then false
        else domain_name_loop s c nonNumeric 0
      else false
  end.
Definition isDomainName (s : list Z) : bool :=
  if decide (s = [period]) then true
  else if decide (zlen s = 0 \/ zlen s > 254 \/ zlen s = 254 /\ at_ s 253 <> Some period) then false
  else domain_name_loop s period false 0.

(** ** net.Addr values

    The addresses of package net with their String methods; [NAOther] stands for
    the types of other packages, of which only the string matters. *)

Section NetAddr.
(** A type of the program itself that implements net.Addr. *)
Context {A : Type} (A_string : A -> list Z).

Inductive net_addr :=
  | NAOwn (a : A)
  | NATCP (ip : list Z) (port : Z) (zone : list Z)
  | NAUDP (ip : list Z) (port : Z) (zone : list Z)
  | NAIP (ip : list Z) (zone : list Z)
  | NAIPNet (ip mask : list Z) (string : list Z)
  | NAOther (string : list Z).

(** net.IP.String; anything but 4 or 16 bytes prints as "?" and its bytes in hexadecimal. *)
Definition IP_String (ip : list Z) : list Z :=
  match AddrFromSlice ip with
  | AddrInvalid => [63] ++ (ip ≫= fun b => [hex_char (b / 16); hex_char (b mod 16)])
  | a => Addr_String (Unmap a)
  end.
Definition ipEmptyString (ip : list Z) : list Z := match ip with [] => [] | _ => IP_String ip end.

Definition net_addr_String (a : net_addr) : list Z :=
  match a with
  | NAOwn a => A_string a
  | NATCP ip port zone | NAUDP ip port zone => JoinHostPort (with_zone zone (ipEmptyString ip)) (Itoa port)
  | NAIP ip zone => with_zone zone (ipEmptyString ip)
  | NAIPNet _ _ s => s
  | NAOther s => s
  end.
End NetAddr.
Arguments net_addr : clear implicits.

(** IPMask.Size: the number of leading ones, 0 for a mask with ones behind a zero. *)
Fixpoint ones_of_byte (k : nat) (v : Z) : Z * Z :=
  match k with
  | O => (0, v)
  | S k' => if decide (Z.land v 0x80 <> 0) then let '(n, v) := ones_of_byte k' (u8 (v * 2)) in (n + 1, v) else (0, v)
  end.
Fixpoint simpleMaskLength (mask : list Z) : Z :=
  match mask with
  | [] => 0
  | v :: rest =>
      if decide (v = 0xff) then let n := simpleMaskLength rest in if decide (n = -1) then -1 else n + 8
      else let '(n, v) := ones_of_byte 8 v in
           if decide (v <> 0 \/ Exists (fun b => b <> 0) rest) then -1 else n
  end.
Definition mask_Size (mask : list Z) : Z := let n := simpleMaskLength mask in if decide (n = -1) then 0 else n.

(** netip.PrefixFrom: the address without its zone, -1 for an impossible length. *)
Definition PrefixFrom (a : Addr) (bits : Z) : Addr * Z :=
  let max := match a with AddrInvalid => -1 | Addr4 _ => 32 | Addr6 _ _ => 128 end in
  (match a with Addr6 v _ => Addr6 v [] | a => a end, if decide (0 <= bits <= max) then bits else -1).

(** ** Examples *)

Definition str (s : string) : list Z := (fun c => Z.of_N (Ascii.N_of_ascii c)) <$> String.list_ascii_of_string s.

Example parse_v4 : ParseAddr (str "192.168.0.1") = Some (Addr4 (192 * 2 ^ 24 + 168 * 2 ^ 16 + 1)).
Proof. vm_compute. reflexivity. Qed.
Example parse_bad : ParseAddr <$> [str "1.2.3"; str "1.2.3.4.5"; str "1.2.3.256"; str "01.2.3.4"; str ".1.2.3"; str "1..2.3";
    str "1.2.3."; str "example.org"; str "fe80::1::2"; str "1:2:3:4:5:6:7:8:9"; str "::%"; str ""] = replicate 12 None.
Proof. vm_compute. reflexivity. Qed.
Example parse_v6 : ParseAddr (str "2001:db8::ff00:42:8329") = Some (Addr6 0x20010db8000000000000ff0000428329 []).
Proof. vm_compute. reflexivity. Qed.
Example parse_v6' : (ParseAddr <$> [str "::"; str "::1%eth0"; str "::ffff:1.2.3.4"; str "1::"])
  = [Some (Addr6 0 []); Some (Addr6 1 (str "eth0")); Some (Addr6 0xffff01020304 []); Some (Addr6 (2 ^ 112) [])].
Proof. vm_compute. reflexivity. Qed.
Example print_v6 : (Addr_String <$> [Addr6 0x20010db8000000000000ff0000428329 []; Addr6 0 []; Addr6 1 (str "eth0"); Addr6 0xffff01020304 []; Addr6 (2 ^ 112) []])
  = [str "2001:db8::ff00:42:8329"; str "::"; str "::1%eth0"; str "::ffff:1.2.3.4"; str "1::"].
Proof. vm_compute. reflexivity. Qed.
Example split_ok : SplitHostPort <$> [str "a.b:80"; str "[::1]:53"; str "::1"; str "a.b"; str "[::1]"; str "[a]b:1"]
  = [Some (str "a.b", str "80"); Some (str "::1", str "53"); None; None; None; None].
Proof. vm_compute. reflexivity. Qed.
Example domain_names : isDomainName <$> [str "example.org"; str "a_b.c."; str "."; str "1.2.3.4"; str "a..b"; str "-a"; str "a-."; str ""]
  = [true; true; true; false; false; false; false; false].
Proof. vm_compute. reflexivity. Qed.
Example masks : mask_Size <$> [[255; 255; 0; 0]; [255; 240; 0; 0]; [255; 0; 255; 0]; [0; 0; 0; 1]] = [16; 12; 0; 0].
Proof. vm_compute. reflexivity. Qed.
