(* ===== verification/GoNetTheorems.v ===== *)
(** * Laws of the address functions of GoNet.v

    Decimal numbers, IPv4 literals and host:port strings read back what was
    printed; whatever parses is an address in range. *)

From S2P Require Import Prelude GoIO GoNet.
#[local] Open Scope go_scope.

(** ** Searching *)

Lemma IndexByte_from_none i s c : c ∉ s -> IndexByte_from i s c = -1.
Proof.
  revert i. induction s as [|x s IH]; intros i Hc; [done|]. apply not_elem_of_cons in Hc as [? ?].
  cbn. rewrite decide_False by congruence. by apply IH.
Qed.
Lemma IndexByte_from_app i s c t : c ∉ s -> IndexByte_from i (s ++ c :: t) c = i + zlen s.
Proof.
  revert i. induction s as [|x s IH]; intros i Hc.
  - cbn. rewrite decide_True by done. unfold zlen. cbn. lia.
  - apply not_elem_of_cons in Hc as [? ?]. cbn. rewrite decide_False by congruence. rewrite IH by done.
    rewrite zlen_cons. lia.
Qed.
Lemma LastIndexByte_from_none i last s c : c ∉ s -> LastIndexByte_from i last s c = last.
Proof.
  revert i last. induction s as [|x s IH]; intros i last Hc; [done|]. apply not_elem_of_cons in Hc as [? ?].
  cbn. rewrite decide_False by congruence. by apply IH.
Qed.
Lemma LastIndexByte_from_app i last s c t : c ∉ t -> LastIndexByte_from i last (s ++ c :: t) c = i + zlen s.
Proof.
  revert i last. induction s as [|x s IH]; intros i last Hc.
  - cbn. rewrite decide_True by done. rewrite LastIndexByte_from_none by done. unfold zlen. cbn. lia.
  - cbn. rewrite IH by done. rewrite zlen_cons. lia.
Qed.

(** ** Decimal numbers *)

(** The value of a string of digits behind [acc]. *)
Definition dec_value (acc : Z) (s : list Z) : Z := foldl (fun a c => a * 10 + (c - 48)) acc s.
Definition all_digits (s : list Z) : Prop := Forall (fun c => 48 <= c <= 57) s.

Lemma dec_value_app a s t : dec_value a (s ++ t) = dec_value (dec_value a s) t.
Proof. apply foldl_app. Qed.

Lemma digits_acc f n acc : digits f n acc = digits f n [] ++ acc.
Proof.
  revert n acc. induction f as [|f IH]; intros n acc; [done|]. cbn [digits].
  destruct (decide (n / 10 = 0)); [done|]. rewrite IH, (IH _ [_]), <- app_assoc. done.
Qed.

Lemma digits_step f n : 0 <= n -> digits (S f) n [] = (if decide (n / 10 = 0) then [] else digits f (n / 10) []) ++ [48 + n mod 10].
Proof. intros Hn. cbn [digits]. destruct (decide (n / 10 = 0)); [done|]. by rewrite digits_acc. Qed.

Lemma digits_spec f n : 0 <= n < 10 ^ Z.of_nat f -> all_digits (digits f n []) /\ dec_value 0 (digits f n []) = n.
Proof.
  revert n. induction f as [|f IH]; intros n Hn.
  - change (10 ^ Z.of_nat 0) with 1 in Hn. split; [constructor|]. cbn. lia.
  - rewrite digits_step by lia. rewrite dec_value_app. pose proof (Z.mod_pos_bound n 10 ltac:(lia)).
    pose proof (Z.div_mod n 10 ltac:(lia)). rewrite Nat2Z.inj_succ, Z.pow_succ_r in Hn by lia.
    destruct (decide (n / 10 = 0)) as [E|E]; cbn.
    + split; [repeat constructor; lia|lia].
    + destruct (IH (n / 10)) as [H1 H2]; [split; [apply Z.div_pos; lia|apply Z.div_lt_upper_bound; lia]|].
      rewrite H2. split; [|lia]. apply Forall_app. split; [done|]. repeat constructor; lia.
Qed.

Lemma digits_nonempty f n acc : digits (S f) n acc <> [].
Proof.
  cbn [digits]. destruct (decide (n / 10 = 0)); [done|]. rewrite digits_acc. by intros [_ ?]%app_eq_nil.
Qed.

Lemma is_digit_true c : 48 <= c <= 57 -> is_digit c = true.
Proof. intros H. unfold is_digit. by apply bool_decide_eq_true_2. Qed.
Lemma is_digit_false c : ~ 48 <= c <= 57 -> is_digit c = false.
Proof. intros H. unfold is_digit. by apply bool_decide_eq_false_2. Qed.

Lemma dec_value_mono s a : all_digits s -> 0 <= a -> a <= dec_value a s.
Proof.
  intros Hs. revert a. induction Hs as [|c s Hc _ IH]; intros a Ha; cbn; [lia|].
  unfold dec_value in IH. specialize (IH (a * 10 + (c - 48)) ltac:(lia)). lia.
Qed.

Lemma parse_uint_digits s acc : all_digits s -> 0 <= acc -> dec_value acc s < 2 ^ 64 -> parse_uint s acc = Some (dec_value acc s).
Proof.
  intros Hs. revert acc. induction Hs as [|c s Hc Hs IH]; intros acc Ha Hv; [done|]. cbn [parse_uint].
  rewrite is_digit_true by done. change (dec_value acc (c :: s)) with (dec_value (acc * 10 + (c - 48)) s) in *.
  pose proof (dec_value_mono s (acc * 10 + (c - 48)) Hs ltac:(lia)). rewrite decide_False by lia. apply IH; [lia|done].
Qed.

Lemma Itoa_digits n : 0 <= n < 2 ^ 63 -> all_digits (Itoa n) /\ dec_value 0 (Itoa n) = n /\ Itoa n <> [].
Proof.
  intros Hn. unfold Itoa. rewrite decide_False by lia.
  destruct (digits_spec 20 n) as [H1 H2]; [assert (2 ^ 63 < 10 ^ Z.of_nat 20) by done; lia|].
  split_and!; [done|done|apply digits_nonempty].
Qed.

Lemma Atoi_Itoa n : 0 <= n < 2 ^ 63 -> Atoi (Itoa n) = n.
Proof.
  intros Hn. destruct (Itoa_digits n Hn) as (Hd & Hv & Hne). revert Hd Hv Hne. generalize (Itoa n) as s.
  intros s Hd Hv Hne. unfold Atoi. destruct s as [|c s]; [done|].
  assert (48 <= c <= 57) as Hc by (by apply Forall_cons in Hd as [? _]).
  cbv zeta. cbn [head]. rewrite bool_decide_eq_false_2 by (intros [= ->]; lia).
  rewrite !(decide_False (P := Some c = Some 45 \/ Some c = Some 43)) by (intros [[= ->]|[= ->]]; lia).
  rewrite decide_False by done.
  rewrite parse_uint_digits by (done || lia). rewrite Hv. lia.
Qed.

Lemma Itoa_no_char n c : 0 <= n < 2 ^ 63 -> ~ 48 <= c <= 57 -> c ∉ Itoa n.
Proof.
  intros Hn Hc Hin. destruct (Itoa_digits n Hn) as (Hd & _). unfold all_digits in Hd. rewrite Forall_forall in Hd.
  by apply Hc, Hd.
Qed.

(** ** IPv4 literals *)

(** A byte in decimal takes one, two or three digits, the first not zero. *)
Lemma Itoa_byte n : 0 <= n < 256 ->
  Itoa n = (if decide (n < 10) then [48 + n] else if decide (n < 100) then [48 + n / 10; 48 + n mod 10]
            else [48 + n / 100; 48 + n / 10 mod 10; 48 + n mod 10]).
Proof.
  intros Hn. assert (forall k, Forall (fun n => Itoa n = (if decide (n < 10) then [48 + n] else if decide (n < 100) then [48 + n / 10; 48 + n mod 10]
            else [48 + n / 100; 48 + n / 10 mod 10; 48 + n mod 10])) (Z.of_nat <$> seq 0 k) -> (Z.to_nat n < k)%nat ->
            Itoa n = (if decide (n < 10) then [48 + n] else if decide (n < 100) then [48 + n / 10; 48 + n mod 10]
            else [48 + n / 100; 48 + n / 10 mod 10; 48 + n mod 10])) as Hall.
  { intros k Hf Hk. rewrite Forall_forall in Hf. apply Hf. apply list_elem_of_fmap. exists (Z.to_nat n).
    split; [lia|]. apply elem_of_seq. lia. }
  apply (Hall 256%nat); [|lia]. apply (bool_decide_eq_true_1 _). vm_compute. reflexivity.
Qed.

(** One octet of parseIPv4Fields. *)
Lemma parse_octet b rest prev acc pos :
  0 <= b < 256 -> (forall c r, rest = c :: r -> ~ 48 <= c <= 57) ->
  exists prev' k, prev' <> period /\ parseIPv4Fields (Itoa b ++ rest) prev acc 0 pos 0 = parseIPv4Fields rest prev' acc b pos k.
Proof.
  intros Hb Hrest. rewrite Itoa_byte by done.
  pose proof (Z.div_mod b 10 ltac:(lia)). pose proof (Z.mod_pos_bound b 10 ltac:(lia)).
  pose proof (Z.div_mod (b / 10) 10 ltac:(lia)). pose proof (Z.mod_pos_bound (b / 10) 10 ltac:(lia)).
  assert (b / 100 = b / 10 / 10) as E100 by (rewrite Z.div_div by lia; done).
  destruct (decide (b < 10)) as [H10|H10]; [|destruct (decide (b < 100)) as [H100|H100]].
  - exists (48 + b), 1. split; [unfold period; lia|]. cbn [app parseIPv4Fields].
    rewrite is_digit_true by lia. rewrite decide_False by lia. rewrite decide_False by lia. f_equal; lia.
  - exists (48 + b mod 10), 2. split; [unfold period; lia|]. cbn [app parseIPv4Fields].
    rewrite !is_digit_true by lia. repeat (rewrite decide_False by lia). f_equal; lia.
  - exists (48 + b mod 10), 3. split; [unfold period; lia|]. cbn [app parseIPv4Fields].
    rewrite !is_digit_true by lia. repeat (rewrite decide_False by lia). f_equal; lia.
Qed.

Lemma parse_dot rest prev acc val pos k :
  prev <> period -> rest <> [] -> pos <> 3 ->
  parseIPv4Fields (period :: rest) prev acc val pos k = parseIPv4Fields rest period (acc * 256 + val) 0 (pos + 1) 0.
Proof.
  intros Hp Hr Hpos. cbn [parseIPv4Fields]. rewrite is_digit_false by (unfold period; lia).
  rewrite decide_True by done. by rewrite !decide_False by tauto.
Qed.

Lemma byte_of_spec n a i : 0 <= i < Z.of_nat n -> byte_of n a i = a / 2 ^ (8 * (Z.of_nat n - 1 - i)) mod 256.
Proof.
  intros Hi. unfold byte_of. change 255 with (2 ^ 8 - 1). rewrite Z_land_ones', Z.shiftr_div_pow2 by lia. done.
Qed.

Lemma bytes_of_v4 a : 0 <= a < 2 ^ 32 ->
  a = ((byte_of 4 a 0 * 256 + byte_of 4 a 1) * 256 + byte_of 4 a 2) * 256 + byte_of 4 a 3
  /\ forall i, 0 <= byte_of 4 a i < 256.
Proof.
  intros Ha. split.
  - rewrite !byte_of_spec by lia. change (Z.of_nat 4) with 4.
    change (2 ^ (8 * (4 - 1 - 0))) with (256 * 256 * 256). change (2 ^ (8 * (4 - 1 - 1))) with (256 * 256).
    change (2 ^ (8 * (4 - 1 - 2))) with 256. change (2 ^ (8 * (4 - 1 - 3))) with 1. rewrite Z.div_1_r.
    rewrite <- !Z.div_div by lia.
    pose proof (Z.div_mod a 256 ltac:(lia)). pose proof (Z.div_mod (a / 256) 256 ltac:(lia)).
    pose proof (Z.div_mod (a / 256 / 256) 256 ltac:(lia)).
    rewrite (Z.mod_small (a / 256 / 256 / 256)); [lia|].
    split; [apply Z.div_pos; [apply Z.div_pos; [apply Z.div_pos|]|]; lia|].
    repeat (apply Z.div_lt_upper_bound; [lia|]). lia.
  - intros i. unfold byte_of. change 255 with (2 ^ 8 - 1). rewrite Z_land_ones' by lia. apply Z.mod_pos_bound. lia.
Qed.

Lemma parse_string4 a : 0 <= a < 2 ^ 32 -> parseIPv4 (string4 a) = Some a.
Proof.
  intros Ha. destruct (bytes_of_v4 a Ha) as [E Hb]. unfold parseIPv4, string4.
  revert E. generalize (Hb 0), (Hb 1), (Hb 2), (Hb 3). generalize (byte_of 4 a 0), (byte_of 4 a 1), (byte_of 4 a 2), (byte_of 4 a 3).
  intros b0 b1 b2 b3 H0 H1 H2 H3 E. cbn [app].
  assert (forall n s, 0 <= n < 256 -> Itoa n ++ s <> []) as Hne.
  { intros n s Hn [? _]%app_eq_nil. destruct (Itoa_digits n ltac:(lia)) as (_ & _ & ?). done. }
  assert (forall t c r, period :: t = c :: r -> ~ 48 <= c <= 57) as Hdot by (intros t c r [= <- _]; unfold period; lia).
  destruct (parse_octet b0 (period :: Itoa b1 ++ period :: Itoa b2 ++ period :: Itoa b3) period 0 0 H0 ltac:(apply Hdot)) as (p0 & k0 & Hp0 & ->).
  rewrite parse_dot by (done || by apply Hne).
  destruct (parse_octet b1 (period :: Itoa b2 ++ period :: Itoa b3) period (0 * 256 + b0) (0 + 1) H1 ltac:(apply Hdot)) as (p1 & k1 & Hp1 & ->).
  rewrite parse_dot by (done || by apply Hne).
  destruct (parse_octet b2 (period :: Itoa b3) period ((0 * 256 + b0) * 256 + b1) (0 + 1 + 1) H2 ltac:(apply Hdot)) as (p2 & k2 & Hp2 & ->).
  rewrite parse_dot by (done || (rewrite <- (app_nil_r (Itoa b3)); by apply Hne)).
  rewrite <- (app_nil_r (Itoa b3)).
  destruct (parse_octet b3 [] period (((0 * 256 + b0) * 256 + b1) * 256 + b2) (0 + 1 + 1 + 1) H3 ltac:(done)) as (p3 & k3 & Hp3 & ->).
  cbn. f_equal. lia.
Qed.

(** *** What decides the kind of a literal *)

Lemma addr_kind_skip s t : (forall c, c ∈ s -> c <> period /\ c <> colon /\ c <> percent) -> addr_kind (s ++ t) = addr_kind t.
Proof.
  induction s as [|x s IH]; intros Hs; [done|]. cbn. destruct (Hs x ltac:(by left)) as (? & ? & ?).
  rewrite decide_False by tauto. apply IH. intros c Hc. apply Hs. by right.
Qed.

Lemma ParseAddr_string4 a : 0 <= a < 2 ^ 32 -> ParseAddr (string4 a) = Some (Addr4 a).
Proof.
  intros Ha. unfold ParseAddr. assert (addr_kind (string4 a) = Some period) as ->.
  { unfold string4. rewrite addr_kind_skip.
    - cbn. by rewrite decide_True by (by left).
    - intros c Hc. destruct (bytes_of_v4 a Ha) as [_ Hb].
      assert (forall d, ~ 48 <= d <= 57 -> c <> d) as Hne.
      { intros d Hd ->. apply (Itoa_no_char (byte_of 4 a 0) d); [specialize (Hb 0); lia|done|done]. }
      unfold period, colon, percent. split_and!; apply Hne; lia. }
  rewrite decide_True by done. by rewrite parse_string4.
Qed.

(** A name with a character that is neither a digit nor a dot, and without a
    colon, is not an address. *)
Lemma parseIPv4Fields_chars s prev acc val pos k a :
  parseIPv4Fields s prev acc val pos k = Some a -> Forall (fun c => 48 <= c <= 57 \/ c = period) s.
Proof.
  revert prev acc val pos k. induction s as [|c s IH]; intros prev acc val pos k; [constructor|]. cbn [parseIPv4Fields].
  unfold is_digit. destruct (bool_decide (48 <= c <= 57)) eqn:Ed.
  - apply bool_decide_eq_true in Ed. repeat (destruct (decide _); [done|]). intros Hs. constructor; [by left|by apply IH in Hs].
  - destruct (decide (c = period)) as [->|]; [|done]. repeat (destruct (decide _); [done|]). intros Hs.
    constructor; [by right|by apply IH in Hs].
Qed.

Lemma addr_kind_no_colon s c : addr_kind s = Some c -> colon ∉ s -> c <> colon.
Proof.
  induction s as [|x s IH]; [done|]. cbn. rewrite not_elem_of_cons. intros Hk [Hx Hs].
  destruct (decide _); [injection Hk as <-; congruence|by apply IH].
Qed.

Lemma ParseAddr_name s c : colon ∉ s -> c ∈ s -> ~ 48 <= c <= 57 -> c <> period -> ParseAddr s = None.
Proof.
  intros Hcol Hin Hd Hp. unfold ParseAddr. destruct (addr_kind s) as [k|] eqn:Ek; [|done].
  pose proof (addr_kind_no_colon _ _ Ek Hcol). destruct (decide (k = period)).
  - destruct (parseIPv4 s) as [a|] eqn:E; [|done]. apply parseIPv4Fields_chars in E.
    rewrite Forall_forall in E. destruct (E c Hin); [done|congruence].
  - by rewrite decide_False.
Qed.

(** *** What parses is in range *)

Lemma parseIPv4Fields_range s prev acc val pos k a :
  parseIPv4Fields s prev acc val pos k = Some a -> 0 <= val < 256 -> 0 <= pos <= 3 -> 0 <= acc < 256 ^ pos ->
  0 <= a < 2 ^ 32.
Proof.
  revert prev acc val pos k. induction s as [|c s IH]; intros prev acc val pos k Hs Hv Hp Ha; cbn [parseIPv4Fields] in Hs.
  - destruct (decide (pos < 3)); [done|]. injection Hs as <-. assert (pos = 3) as -> by lia.
    change (256 ^ 3) with 16777216 in Ha. lia.
  - unfold is_digit in Hs. destruct (bool_decide (48 <= c <= 57)) eqn:Ed.
    + apply bool_decide_eq_true in Ed. destruct (decide _); [done|]. destruct (decide (_ > 255)); [done|].
      apply IH in Hs; lia.
    + destruct (decide (c = period)); [|done]. destruct (decide _); [done|]. destruct (decide (pos = 3)); [done|].
      apply IH in Hs; try lia. rewrite Z.pow_add_r by lia. change (256 ^ 1) with 256. nia.
Qed.

Lemma parseIPv4_range s a : parseIPv4 s = Some a -> 0 <= a < 2 ^ 32.
Proof. intros H. apply parseIPv4Fields_range in H; lia. Qed.

Lemma hex_group_range s : forall off acc v k rest,
  hex_group off acc s = Some (v, k, rest) -> (off <= 4)%nat -> 0 <= acc < 16 ^ Z.of_nat off -> 0 <= v < 2 ^ 16.
Proof.
  assert (forall off acc, (off <= 4)%nat -> 0 <= acc < 16 ^ Z.of_nat off -> 0 <= acc < 2 ^ 16) as Hmono.
  { intros off acc Ho Ha. assert (16 ^ Z.of_nat off <= 16 ^ 4) by (apply Z.pow_le_mono_r; lia). lia. }
  induction s as [|c s IH]; intros off acc v k rest; cbn [hex_group].
  - intros [= <- _ _] Ho Ha. by apply (Hmono off).
  - destruct (hex_digit c) as [d|] eqn:Eh; [|intros [= <- _ _] Ho Ha; by apply (Hmono off)].
    destruct (decide (3 < off)%nat); [done|]. intros Hs Ho Ha. apply (IH _ _ _ _ _ Hs); [lia|].
    rewrite Nat2Z.inj_succ, Z.pow_succ_r by lia. unfold hex_digit in Eh.
    repeat (destruct (decide _) in Eh; [injection Eh as <-; lia|]). done.
Qed.

Definition group_ok (g : Z) : Prop := 0 <= g < 2 ^ 16.

Lemma parse_groups_range f s gs e s' gs' e' :
  parse_groups f s gs e = Some (s', gs', e') -> Forall group_ok gs -> (length gs <= 8)%nat ->
  (forall n, e = Some n -> (n <= length gs)%nat) ->
  Forall group_ok gs' /\ (length gs' <= 8)%nat /\ (forall n, e' = Some n -> (n <= length gs')%nat).
Proof.
  revert s gs e. induction f as [|f IH]; intros s gs e; [done|]. cbn [parse_groups].
  destruct (decide (8 <= length gs)%nat); [by intros [= _ <- <-]|].
  destruct (hex_group 0 0 s) as [[[acc off] rest]|] eqn:Eh; [|done].
  pose proof (hex_group_range s 0 0 _ _ _ Eh ltac:(lia) ltac:(cbn; lia)) as Hacc.
  destruct (decide (off = 0%nat)); [done|]. destruct rest as [|c rest].
  { intros [= _ <- <-] Hg Hl He. rewrite length_app. cbn [length]. split_and!; [|lia|].
    - apply Forall_app. split; [done|by apply Forall_singleton].
    - intros n' ->. specialize (He n' eq_refl). lia. }
  destruct (decide (c = period)).
  { destruct (decide _); [done|]. destruct (decide (6 < length gs)%nat); [done|].
    destruct (parseIPv4 s) as [a|] eqn:Ea; [|done]. apply parseIPv4_range in Ea.
    intros [= _ <- <-] Hg Hl He. rewrite length_app. cbn [length]. split_and!; [|lia|].
    - apply Forall_app. split; [done|]. apply Forall_cons. split; [|apply Forall_singleton].
      + split; [apply Z.div_pos; lia|apply Z.div_lt_upper_bound; lia].
      + apply Z.mod_pos_bound. lia.
    - intros n' ->. specialize (He n' eq_refl). lia. }
  destruct (decide _); [done|]. intros Hs Hg Hl He.
  assert (Forall group_ok (gs ++ [acc])) as Hg' by (apply Forall_app; split; [done|by apply Forall_singleton]).
  assert (length (gs ++ [acc]) = S (length gs)) as El by (rewrite length_app; cbn; lia).
  destruct rest as [|c' rest]; [done|]. destruct (decide (c' = colon)).
  - destruct e; [done|]. destruct rest as [|c'' rest].
    + injection Hs as <- <- <-. split_and!; [done|lia|]. by intros n' [= <-].
    + apply IH in Hs; [done|done|lia|]. by intros n' [= <-].
  - apply IH in Hs; [done|done|lia|]. intros n' ->. specialize (He n' eq_refl). lia.
Qed.

Lemma of_groups_range gs : Forall group_ok gs -> forall acc k, 0 <= acc < 2 ^ (16 * k) -> 0 <= k ->
  0 <= foldl (fun a g => a * 2 ^ 16 + g) acc gs < 2 ^ (16 * (k + zlen gs)).
Proof.
  induction 1 as [|g gs Hg _ IH]; intros acc k Ha Hk; cbn [foldl].
  - unfold zlen. cbn. by rewrite Z.add_0_r.
  - rewrite zlen_cons, Z.add_assoc. apply IH; [|lia]. replace (16 * (k + 1)) with (16 * k + 16) by lia.
    rewrite Z.pow_add_r by lia. unfold group_ok in Hg. nia.
Qed.

Lemma ParseAddr_ok s a : bytes_ok s -> ParseAddr s = Some a -> addr_ok a /\ a <> AddrInvalid.
Proof.
  intros Hb. unfold ParseAddr. destruct (addr_kind s) as [c|]; [|done]. destruct (decide (c = period)).
  { destruct (parseIPv4 s) as [v|] eqn:E; [|done]. intros [= <-]. split; [by apply (parseIPv4_range s)|done]. }
  destruct (decide (c = colon)); [|done]. unfold parseIPv6.
  assert (forall i, bytes_ok (zdrop i s)) as Hz by (intros i; by apply Forall_drop).
  destruct (if decide (IndexByte s percent = -1) then _ else _) as [[s1 zone] bad] eqn:E.
  assert (bytes_ok zone) as Hzone.
  { destruct (decide _) in E; injection E as <- <- <-; [constructor|apply Hz]. }
  destruct bad; [done|].
  destruct (if decide (take 2 s1 = _) then _ else _) as [s2 ell] eqn:E2.
  assert (forall n, ell = Some n -> (n <= length (@nil Z))%nat) as He.
  { assert (ell = None \/ ell = Some 0%nat) as [->| ->]; [|done|by intros n' [= <-]].
    destruct (decide _) in E2; injection E2 as _ <-; tauto. }
  destruct (decide (ell = _ /\ _)) as [|_]; [by intros [= <-]|].
  destruct (parse_groups 9 s2 [] ell) as [[[s3 gs] e3]|] eqn:Eg; [|done].
  apply parse_groups_range in Eg as (Hg & Hl & He3); [|constructor|cbn; lia|exact He].
  destruct (decide (s3 <> [])); [done|].
  assert (forall gs', Forall group_ok gs' -> length gs' = 8%nat -> addr_ok (Addr6 (of_groups gs') zone)) as Hok.
  { intros gs' Hg' Hl'. split; [|done]. pose proof (of_groups_range gs' Hg' 0 0 ltac:(lia) ltac:(lia)) as Hr.
    unfold zlen in Hr. rewrite Hl' in Hr. exact Hr. }
  destruct (decide (length gs < 8)%nat).
  - destruct e3 as [e'|]; [|done]. intros [= <-]. split; [|done]. specialize (He3 e' eq_refl). apply Hok.
    + rewrite !Forall_app. split_and!; [by apply Forall_take| |by apply Forall_drop]. apply Forall_replicate. split; lia.
    + rewrite !length_app, length_take, length_drop, length_replicate. lia.
  - destruct e3; [done|]. intros [= <-]. split; [|done]. apply Hok; [done|lia].
Qed.

(** ** host:port *)

Lemma zdrop_cons {A} (x : A) l : zdrop 1 (x :: l) = l.
Proof. done. Qed.

Lemma Split_Join host n :
  0 <= n < 2 ^ 63 -> colon ∉ host -> lbracket ∉ host -> rbracket ∉ host ->
  SplitHostPort (JoinHostPort host (Itoa n)) = Some (host, Itoa n).
Proof.
  intros Hn Hc Hl Hr. unfold JoinHostPort, IndexByte. rewrite IndexByte_from_none by done.
  rewrite decide_False by lia. cbn [app].
  assert (forall c, ~ 48 <= c <= 57 -> c <> colon -> c ∉ host -> c ∉ host ++ colon :: Itoa n) as Hnot.
  { intros c Hd Hcc Hh. rewrite elem_of_app, elem_of_cons. intros [?|[?|?]]; [done|done|].
    by apply (Itoa_no_char n c). }
  assert (LastIndexByte (host ++ colon :: Itoa n) colon = zlen host) as Hlast.
  { unfold LastIndexByte. rewrite LastIndexByte_from_app; [lia|]. apply Itoa_no_char; [done|unfold colon; lia]. }
  unfold SplitHostPort. rewrite Hlast. pose proof (zlen_nonneg host). rewrite decide_False by lia.
  assert (ztake (zlen host) (host ++ colon :: Itoa n) = host) as Ht by apply ztake_app.
  assert (zdrop (zlen host + 1) (host ++ colon :: Itoa n) = Itoa n) as Hd.
  { replace (zlen host + 1) with (zlen (host ++ [colon])) by (rewrite zlen_app; unfold zlen; cbn; lia).
    replace (host ++ colon :: Itoa n) with ((host ++ [colon]) ++ Itoa n) by (by rewrite <- app_assoc). apply zdrop_app. }
  rewrite decide_False.
  2:{ intros Hh. apply (Hnot lbracket); [unfold lbracket; lia|done|done|]. destruct (host ++ colon :: Itoa n); [done|]. injection Hh as ->. by left. }
  unfold IndexByte. rewrite Ht, Hd. rewrite !IndexByte_from_none; [|by apply Hnot; [unfold rbracket; lia| |]|by apply Hnot; [unfold lbracket; lia| |]|done].
  by rewrite !decide_False by lia.
Qed.
