(* ===== verification/AdGuard.v ===== *)
(** * The AdGuard matcher: common/domain/adguard_matcher.go

    Rules of the forms ||name, |name, name^ with [*] in the name.  A rule becomes
    a reversed string with a mark in front ('\n' below a domain, '\r' anywhere)
    and behind ('\b' anything may follow); '*' and '\b' are wildcards of the
    search in the succinct set. *)

From S2P Require Import Prelude GoStrings GoIO GoNet Succinct Domain.
#[local] Open Scope go_scope.

Definition bar : Z := 124.    (* '|' *)
Definition caret : Z := 94.   (* '^' *)

(** strings.HasPrefix, strings.HasSuffix and strings.TrimSuffix. *)
Definition HasPrefix (s p : list Z) : bool := bool_decide (take (length p) s = p).
Definition HasSuffix (s p : list Z) : bool :=
  bool_decide (length p <= length s)%nat && bool_decide (drop (length s - length p) s = p).
Definition TrimSuffix (s p : list Z) : list Z := if HasSuffix s p then take (length s - length p) s else s.

(** The string of a rule, before it is reversed. *)
Definition rule_string (ruleLine : list Z) : list Z :=
  let isSuffix := HasPrefix ruleLine [bar; bar] in
  let hasStart := negb isSuffix && HasPrefix ruleLine [bar] in
  let ruleLine := if isSuffix then drop 2 ruleLine else if hasStart then drop 1 ruleLine else ruleLine in
  let hasEnd := HasSuffix ruleLine [caret] in
  let ruleLine := if hasEnd then take (length ruleLine - 1) ruleLine else ruleLine in
  let ruleLine := if isSuffix then rootLabel :: ruleLine
                  else if negb hasStart then prefixLabel :: ruleLine else ruleLine in
  if hasEnd then ruleLine else TrimSuffix ruleLine [dot] ++ [suffixLabel].

Fixpoint rule_list (ruleLines : list (list Z)) : outcome (list (list Z)) :=
  match ruleLines with
  | [] => Val []
  | ruleLine :: rest =>
      let! k := reverseDomain (rule_string ruleLine) in
      let! ks := rule_list rest in Val (k :: ks)
  end.

(** common.Uniq. *)
Fixpoint Uniq (seen : gset (list Z)) (arr : list (list Z)) : list (list Z) :=
  match arr with
  | [] => []
  | item :: arr => if decide (item ∈ seen) then Uniq seen arr else item :: Uniq ({[item]} ∪ seen) arr
  end.

(** An AdGuardMatcher is its set. *)
Definition NewAdGuardMatcher (ruleLines : list (list Z)) : outcome succinctSet :=
  let! ruleList := rule_list ruleLines in
  newSuccinctSet (sort_strings (Uniq ∅ ruleList)).
Definition ReadAdGuardMatcher (r : reader) : outcome (result succinctSet * reader) := readSuccinctSet r.
Definition AdGuard_Write (m : succinctSet) (w : writer) : outcome (option error * writer) := Write m w.

(** ** hasWithDepth

    [levels] is the number of levels of recursion still allowed, maxDepth + 1 at
    the start; [rec] is the next level. *)
Definition maxDepth : nat := 100.

Section Level.
Context (ss : succinctSet) (rec : list Z -> Z -> Z -> outcome bool).

(** The recursion on [key] and on every proper suffix of it. *)
Fixpoint any_suffix (key : list Z) (nodeId bmIdx : Z) : outcome bool :=
  let! b := rec key nodeId bmIdx in
  if b : bool then Val true
  else match key with [] => Val false | _ :: key => any_suffix key nodeId bmIdx end.

(** The loop over the labels for the first character of [key]: [inl b] when the
    function returns, [inr bmIdx] at the break. *)
Fixpoint glob_scan (fuel : nat) (currentChar : Z) (key : list Z) (nodeId bmIdx : Z) : outcome (bool + Z) :=
  match fuel with
  | O => OutOfFuel
  | S f =>
      let! b := getBit (labelBitmap ss) bmIdx in
      if decide (b <> 0) then Val (inl false) else
      let! nextLabel := idx (labels ss) (bmIdx - nodeId) in
      if decide (nextLabel = prefixLabel) then Val (inl true) else
      let! found :=
        if decide (nextLabel = rootLabel) then
          let! nextNodeId := countZeros (labelBitmap ss) (ranks ss) (bmIdx + 1) in
          let! hasNext := getBit (leaves ss) nextNodeId in
          Val (bool_decide (currentChar = dot) && bool_decide (hasNext <> 0))
        else Val false in
      if found : bool then Val (inl true)
      else if decide (nextLabel = currentChar) then Val (inr bmIdx)
      else
        let! found :=
          if decide (nextLabel = anyLabel \/ nextLabel = suffixLabel) then
            let! next := child_of ss bmIdx in any_suffix key next.1 next.2
          else Val false in
        if found : bool then Val (inl true) else glob_scan f currentChar key nodeId (bmIdx + 1)
  end.

(** The loop after the last character. *)
Fixpoint glob_end (fuel : nat) (nodeId bmIdx : Z) : outcome bool :=
  match fuel with
  | O => OutOfFuel
  | S f =>
      let! b := getBit (labelBitmap ss) bmIdx in
      if decide (b <> 0) then Val false else
      let! nextLabel := idx (labels ss) (bmIdx - nodeId) in
      if decide (nextLabel = prefixLabel \/ nextLabel = rootLabel \/ nextLabel = suffixLabel) then Val true
      else if decide (nextLabel = anyLabel) then let! next := child_of ss bmIdx in rec [] next.1 next.2
      else glob_end f nodeId (bmIdx + 1)
  end.

Fixpoint glob_walk (key : list Z) (nodeId bmIdx : Z) : outcome bool :=
  match key with
  | [] =>
      let! leaf := getBit (leaves ss) nodeId in
      if decide (leaf <> 0) then Val true else glob_end (scan_fuel ss) nodeId bmIdx
  | currentChar :: key' =>
      let! r := glob_scan (scan_fuel ss) currentChar key nodeId bmIdx in
      match r with
      | inl b => Val b
      | inr bmIdx => let! next := child_of ss bmIdx in glob_walk key' next.1 next.2
      end
  end.
End Level.

Fixpoint hasWithDepth (levels : nat) (ss : succinctSet) (key : list Z) (nodeId bmIdx : Z) : outcome bool :=
  match levels with
  | O => Val false
  | S levels => glob_walk ss (hasWithDepth levels ss) key nodeId bmIdx
  end.
Definition has (ss : succinctSet) (key : list Z) : outcome bool := hasWithDepth (S maxDepth) ss key 0 0.

(** The loop of Match: [key] without its first label, time after time. *)
Fixpoint match_loop (fuel : nat) (ss : succinctSet) (key : list Z) : outcome bool :=
  match fuel with
  | O => OutOfFuel
  | S f =>
      let! b := has ss (suffixLabel :: key) in
      if b : bool then Val true
      else
        let i := IndexByte key dot in
        if decide (i = -1) then Val false else match_loop f ss (zdrop (i + 1) key)
  end.
Definition Match (ss : succinctSet) (domain : list Z) : outcome bool :=
  let! key := reverseDomain domain in
  let! b := has ss key in
  if b : bool then Val true else match_loop (S (length key)) ss key.

(** ** Dump *)

Definition dump_line (k : list Z) : outcome (list Z) :=
  let! key := reverseDomain k in
  let! c := idx key 0 in
  let isSuffix := bool_decide (c = rootLabel) in
  let hasStart := bool_decide (c <> prefixLabel /\ c <> rootLabel) in
  let key := if decide (c = prefixLabel \/ c = rootLabel) then drop 1 key else key in
  let! last := idx key (zlen key - 1) in
  let hasEnd := bool_decide (last <> suffixLabel) in
  let key := if decide (last = suffixLabel) then ztake (zlen key - 1) key else key in
  let key := if isSuffix then bar :: bar :: key else if hasStart then bar :: key else key in
  Val (if hasEnd then key ++ [caret] else key).
Fixpoint dump_lines (ks : list (list Z)) : outcome (list (list Z)) :=
  match ks with
  | [] => Val []
  | k :: ks => let! l := dump_line k in let! ls := dump_lines ks in Val (l :: ls)
  end.
Definition Dump (ss : succinctSet) : outcome (list (list Z)) := let! ks := keys ss in dump_lines ks.
