(* ===== verification/AdGuardTheorems.v ===== *)
(** * What the AdGuard matcher matches

    The recursion of hasWithDepth is a search in the trie of the reversed rules;
    the search decides [matches], and [matches] on reversed strings is the
    wildcard matching of the rules. *)

From Stdlib Require Import Sorted.
From S2P Require Import Prelude GoBits GoStrings GoIO GoNet GoNetTheorems Succinct SuccinctBits SuccinctTrie Domain DomainTheorems DomainProps.
From S2P Require Import AdGuard.

(** ** The search in the trie *)

Section Search.
Context (rec : list Z -> node -> bool).

Fixpoint any_suffix_node (key : list Z) (nd : node) : bool :=
  rec key nd || match key with [] => false | _ :: key => any_suffix_node key nd end.

Fixpoint glob_scan_node (c : Z) (key : list Z) (gs : list (Z * node)) : bool + node :=
  match gs with
  | [] => inl false
  | (l, g) :: gs =>
      if decide (l = prefixLabel) then inl true
      else if bool_decide (l = rootLabel) && bool_decide (c = dot) && leaf g then inl true
      else if decide (l = c) then inr g
      else if bool_decide (l = anyLabel \/ l = suffixLabel) && any_suffix_node key g then inl true
      else glob_scan_node c key gs
  end.

Fixpoint glob_end_node (gs : list (Z * node)) : bool :=
  match gs with
  | [] => false
  | (l, g) :: gs =>
      if decide (l = prefixLabel \/ l = rootLabel \/ l = suffixLabel) then true
      else if decide (l = anyLabel) then rec [] g
      else glob_end_node gs
  end.

Fixpoint glob_walk_node (key : list Z) (nd : node) : bool :=
  match key with
  | [] => leaf nd || glob_end_node (groups nd)
  | c :: key' => match glob_scan_node c key (groups nd) with inl b => b | inr g => glob_walk_node key' g end
  end.
End Search.

Fixpoint glob_node (levels : nat) (key : list Z) (nd : node) : bool :=
  match levels with O => false | S levels => glob_walk_node (glob_node levels) key nd end.

(** *** The code performs it *)

Section Walk.
Context {root : node} {ss : succinctSet} {Q : list node} (HT : Trie root ss Q).

Section Level.
Context (rec : list Z -> Z -> Z -> outcome bool) (nrec : list Z -> node -> bool).
Context (Hrec : forall key i nd, Q !! i = Some nd -> rec key (Z.of_nat i) (Z.of_nat (pos Q i + 0)) = Val (nrec key nd)).

Lemma any_suffix_spec key i nd :
  Q !! i = Some nd -> any_suffix rec key (Z.of_nat i) (Z.of_nat (pos Q i + 0)) = Val (any_suffix_node nrec key nd).
Proof.
  intros Hi. induction key as [|c key IH]; cbn [any_suffix any_suffix_node]; rewrite (Hrec _ _ _ Hi); cbn [obind];
    destruct (nrec _ nd); cbn [orb]; done.
Qed.

Lemma glob_scan_spec fuel i nd m c key :
  Q !! i = Some nd -> (m <= length (groups nd))%nat -> (length (groups nd) < fuel + m)%nat ->
  match glob_scan_node nrec c key (drop m (groups nd)) with
  | inl b => glob_scan ss rec fuel c key (Z.of_nat i) (Z.of_nat (pos Q i + m)) = Val (inl b)
  | inr g => exists m', groups nd !! m' = Some (c, g)
      /\ glob_scan ss rec fuel c key (Z.of_nat i) (Z.of_nat (pos Q i + m)) = Val (inr (Z.of_nat (pos Q i + m')))
  end.
Proof.
  intros Hi. revert m. induction fuel as [|f IH]; intros m Hm Hf; [lia|]. cbn [glob_scan].
  destruct (bitmap_bit HT i nd m Hi Hm) as (x & -> & Hx). cbn [obind].
  destruct (decide (m = length (groups nd))) as [->|Hne].
  { rewrite drop_ge by lia. cbn [glob_scan_node]. by rewrite decide_True by (by apply Hx). }
  rewrite decide_False by (intros Hx0; by apply Hne, Hx).
  destruct (lookup_lt_is_Some_2 (groups nd) m) as [[l g] Hg]; [lia|].
  rewrite (drop_S _ _ _ Hg), (label_at HT i nd m l g Hi Hg). cbn [obind glob_scan_node].
  destruct (decide (l = prefixLabel)); [done|].
  rewrite (root_test HT i nd m l g c Hi Hg). cbn [obind]. destruct (_ && _ && _); [done|].
  destruct (decide (l = c)) as [->|Hc]; [by exists m|].
  destruct (child_of_spec HT i nd m l g Hi Hg) as (i' & Hi' & Hchild).
  assert ((if decide (l = anyLabel \/ l = suffixLabel)
           then obind (child_of ss (Z.of_nat (pos Q i + m))) (fun next => any_suffix rec key next.1 next.2) else Val false)
          = Val (bool_decide (l = anyLabel \/ l = suffixLabel) && any_suffix_node nrec key g)) as ->.
  { destruct (decide (l = anyLabel \/ l = suffixLabel)); [|by rewrite bool_decide_false].
    rewrite Hchild. cbn [obind fst snd]. rewrite bool_decide_true by done. by apply any_suffix_spec. }
  cbn [obind]. destruct (_ && any_suffix_node _ _ _); [done|].
  replace (Z.of_nat (pos Q i + m) + 1) with (Z.of_nat (pos Q i + S m)) by lia. apply IH; lia.
Qed.

Lemma glob_end_spec fuel i nd m :
  Q !! i = Some nd -> (m <= length (groups nd))%nat -> (length (groups nd) < fuel + m)%nat ->
  glob_end ss rec fuel (Z.of_nat i) (Z.of_nat (pos Q i + m)) = Val (glob_end_node nrec (drop m (groups nd))).
Proof.
  intros Hi. revert m. induction fuel as [|f IH]; intros m Hm Hf; [lia|]. cbn [glob_end].
  destruct (bitmap_bit HT i nd m Hi Hm) as (x & -> & Hx). cbn [obind].
  destruct (decide (m = length (groups nd))) as [->|Hne].
  { rewrite drop_ge by lia. by rewrite decide_True by (by apply Hx). }
  rewrite decide_False by (intros Hx0; by apply Hne, Hx).
  destruct (lookup_lt_is_Some_2 (groups nd) m) as [[l g] Hg]; [lia|].
  rewrite (drop_S _ _ _ Hg), (label_at HT i nd m l g Hi Hg). cbn [obind glob_end_node].
  destruct (decide (_ \/ _)); [done|]. destruct (decide (l = anyLabel)).
  - destruct (child_of_spec HT i nd m l g Hi Hg) as (i' & Hi' & ->). cbn [obind fst snd]. by apply Hrec.
  - replace (Z.of_nat (pos Q i + m) + 1) with (Z.of_nat (pos Q i + S m)) by lia. apply IH; lia.
Qed.

Lemma glob_walk_spec key i nd :
  Q !! i = Some nd -> glob_walk ss rec key (Z.of_nat i) (Z.of_nat (pos Q i + 0)) = Val (glob_walk_node nrec key nd).
Proof.
  revert i nd. induction key as [|c key IH]; intros i nd Hi; cbn [glob_walk glob_walk_node];
    pose proof (groups_lt_fuel HT i nd Hi) as Hfuel.
  - destruct (leaf_bit HT i nd Hi) as (x & -> & Hx). cbn [obind].
    rewrite (glob_end_spec (scan_fuel ss) i nd 0 Hi ltac:(lia) Hfuel), drop_0.
    destruct (leaf nd); [by rewrite decide_True by (by apply Hx)|rewrite decide_False; [done|]].
    intros H. by apply Hx in H.
  - pose proof (glob_scan_spec (scan_fuel ss) i nd 0 c (c :: key) Hi ltac:(lia) Hfuel) as Hs. rewrite drop_0 in Hs.
    destruct (glob_scan_node nrec c (c :: key) (groups nd)) as [b|g]; [by rewrite Hs|].
    destruct Hs as (m & Hm & ->). cbn [obind]. destruct (child_of_spec HT i nd m c g Hi Hm) as (i' & Hi' & ->).
    cbn [obind fst snd]. by apply IH.
Qed.
End Level.

Lemma hasWithDepth_spec levels key i nd :
  Q !! i = Some nd -> hasWithDepth levels ss key (Z.of_nat i) (Z.of_nat (pos Q i + 0)) = Val (glob_node levels key nd).
Proof.
  revert key i nd. induction levels as [|n IH]; intros key i nd Hi; [done|]. cbn [hasWithDepth glob_node].
  by apply glob_walk_spec.
Qed.

Lemma has_glob key : has ss key = Val (glob_node (S maxDepth) key root).
Proof. apply (hasWithDepth_spec (S maxDepth) key 0 root). by rewrite (bfs_root _ _ (tr_bfs _ _ _ HT)). Qed.
End Walk.

(** ** What the search decides

    [matches k key]: the reversed rule string [k] matches the reversed domain. *)
Definition wild (l : Z) : Prop := l = anyLabel \/ l = suffixLabel.
#[export] Instance wild_dec l : Decision (wild l).
Proof. unfold wild. apply _. Defined.

Inductive matches : list Z -> list Z -> Prop :=
  | m_nil : matches [] []
  | m_prefix k key : matches (prefixLabel :: k) key
  | m_root_dot key : matches [rootLabel] (dot :: key)
  | m_root_end k : matches (rootLabel :: k) []
  | m_suffix_end k : matches (suffixLabel :: k) []
  | m_char c k key : matches k key -> matches (c :: k) (c :: key)
  | m_wild l k s key : wild l -> matches k key -> matches (l :: k) (s ++ key).

(** The levels of recursion a rule needs. *)
Definition stars (k : list Z) : nat := length (filter wild k).

Lemma any_suffix_true rec key nd :
  any_suffix_node rec key nd = true <-> exists s t, key = s ++ t /\ rec t nd = true.
Proof.
  induction key as [|c key IH]; cbn [any_suffix_node]; rewrite orb_true_iff.
  - split; [intros [H|]; [by exists [], []|done]|].
    intros (s & t & [-> ->]%eq_sym%app_eq_nil & H). by left.
  - rewrite IH. split.
    + intros [H|(s & t & -> & H)]; [by exists [], (c :: key)|by exists (c :: s), t].
    + intros ([|x s] & t & E & H); cbn in E; [left; by rewrite E|]. injection E as <- ->. right. by exists s, t.
Qed.

Section Decides.
Context (rec : list Z -> node -> bool).

Lemma scan_sound c key gs :
  match glob_scan_node rec c key gs with
  | inl true => (exists g, (prefixLabel, g) ∈ gs) \/ (c = dot /\ exists g, (rootLabel, g) ∈ gs /\ leaf g = true)
      \/ (exists l g, (l, g) ∈ gs /\ wild l /\ any_suffix_node rec key g = true)
  | inl false => True
  | inr g => (c, g) ∈ gs
  end.
Proof.
  induction gs as [|[l g] gs IH]; cbn [glob_scan_node]; [done|].
  destruct (decide (l = prefixLabel)) as [->|Hp]; [left; exists g; by left|].
  destruct (bool_decide (l = rootLabel) && bool_decide (c = dot) && leaf g) eqn:Hroot.
  { apply andb_true_iff in Hroot as [[->%bool_decide_eq_true ->%bool_decide_eq_true]%andb_true_iff ?].
    right; left. split; [done|]. exists g. split; [by left|done]. }
  destruct (decide (l = c)) as [->|Hc]; [by left|].
  destruct (bool_decide (l = anyLabel \/ l = suffixLabel) && any_suffix_node rec key g) eqn:Hany.
  { apply andb_true_iff in Hany as [Hw%bool_decide_eq_true Hs]. right; right. exists l, g. split; [by left|done]. }
  destruct (glob_scan_node rec c key gs) as [[]|g']; [|done|by right].
  destruct IH as [[g' H]|[[-> (g' & H & Hl)]|(l' & g' & H & Hw & Hs)]]; [left; exists g'; by right|..].
  - right; left. split; [done|]. exists g'. split; [by right|done].
  - right; right. exists l', g'. split; [by right|done].
Qed.

(** The labels with a meaning come before the characters of a name, so that a
    scan that reaches one of these has tried them all. *)
Lemma scan_complete c key gs :
  anyLabel < c -> StronglySorted Z.lt (fst <$> gs) -> glob_scan_node rec c key gs <> inl true ->
  (forall g, (prefixLabel, g) ∉ gs) /\ (c = dot -> forall g, (rootLabel, g) ∈ gs -> leaf g = false)
  /\ (forall l g, (l, g) ∈ gs -> wild l -> any_suffix_node rec key g = false)
  /\ forall g, (c, g) ∈ gs -> exists g', glob_scan_node rec c key gs = inr g'.
Proof.
  unfold anyLabel. intros Hc Hs. induction gs as [|[l g] gs IH]; cbn [glob_scan_node]; intros Hno.
  { split_and!; [intros g|intros _ g|intros l g|intros g]; by intros ?%not_elem_of_nil. }
  cbn [fmap list_fmap fst] in Hs. apply StronglySorted_inv in Hs as [Hs Hl]. rewrite Forall_forall in Hl.
  assert (forall l' g', (l', g') ∈ gs -> l < l') as Hlt.
  { intros l' g' Hin. apply Hl, list_elem_of_fmap. by exists (l', g'). }
  destruct (decide (l = prefixLabel)) as [->|Hp]; [done|].
  destruct (bool_decide (l = rootLabel) && bool_decide (c = dot) && leaf g) eqn:Hroot; [done|].
  assert (l = rootLabel -> c = dot -> leaf g = false) as Hroot'.
  { intros -> ->. by rewrite !bool_decide_true in Hroot by done. }
  unfold prefixLabel, rootLabel in *.
  destruct (decide (l = c)) as [->|Hne].
  { split_and!.
    - intros g' [[= ? _]|Hin]%elem_of_cons; [lia|]. specialize (Hlt _ _ Hin). lia.
    - intros _ g' [[= ? _]|Hin]%elem_of_cons; [lia|]. specialize (Hlt _ _ Hin). lia.
    - unfold wild, anyLabel, suffixLabel. intros l' g' [[= ? _]|Hin]%elem_of_cons Hw; [lia|]. specialize (Hlt _ _ Hin). lia.
    - intros g' _. by exists g. }
  destruct (bool_decide (l = anyLabel \/ l = suffixLabel) && any_suffix_node rec key g) eqn:Hany; [done|].
  destruct (IH Hs Hno) as (H1 & H2 & H3 & H4). split_and!.
  - intros g' [[= E _]|Hin]%elem_of_cons; [congruence|by apply H1 in Hin].
  - intros Ec g' [[= E ->]|Hin]%elem_of_cons; [by apply Hroot'|by apply H2].
  - intros l' g' [[= -> ->]|Hin]%elem_of_cons Hw; [|by apply (H3 l')].
    unfold wild in Hw. by rewrite bool_decide_true in Hany by done.
  - intros g' [[= E _]|Hin]%elem_of_cons; [congruence|by apply (H4 g')].
Qed.

Lemma end_sound gs :
  glob_end_node rec gs = true ->
  (exists l g, (l, g) ∈ gs /\ (l = prefixLabel \/ l = rootLabel \/ l = suffixLabel)) \/ (exists g, (anyLabel, g) ∈ gs /\ rec [] g = true).
Proof.
  induction gs as [|[l g] gs IH]; cbn [glob_end_node]; [done|].
  destruct (decide (_ \/ _)); [intros _; left; exists l, g; split; [by left|done]|].
  destruct (decide (l = anyLabel)) as [->|]; [intros H; right; exists g; split; [by left|done]|].
  intros [(l' & g' & Hin & H)|(g' & Hin & H)]%IH; [left; exists l', g'|right; exists g']; (split; [by right|done]).
Qed.

Lemma end_complete gs :
  StronglySorted Z.lt (fst <$> gs) -> glob_end_node rec gs = false ->
  (forall l g, (l, g) ∈ gs -> l <> prefixLabel /\ l <> rootLabel /\ l <> suffixLabel) /\ (forall g, (anyLabel, g) ∈ gs -> rec [] g = false).
Proof.
  intros Hs. induction gs as [|[l g] gs IH]; cbn [glob_end_node].
  { intros _. split; [intros l g|intros g]; by intros ?%not_elem_of_nil. }
  cbn [fmap list_fmap fst] in Hs. apply StronglySorted_inv in Hs as [Hs Hl]. rewrite Forall_forall in Hl.
  assert (forall l' g', (l', g') ∈ gs -> l < l') as Hlt.
  { intros l' g' Hin. apply Hl, list_elem_of_fmap. by exists (l', g'). }
  destruct (decide (_ \/ _)) as [|Hn]; [done|]. destruct (decide (l = anyLabel)) as [->|Hne].
  - intros Hr. unfold prefixLabel, rootLabel, suffixLabel, anyLabel in *. split.
    + intros l g' [[= -> _]|Hin]%elem_of_cons; [lia|]. specialize (Hlt _ _ Hin). lia.
    + intros g' [[= ->]|Hin]%elem_of_cons; [done|]. specialize (Hlt _ _ Hin). lia.
  - intros [H1 H2]%IH; [|done]. split.
    + intros l' g' [[= -> _]|Hin]%elem_of_cons; [tauto|by apply (H1 l' g')].
    + intros g' [[= E _]|Hin]%elem_of_cons; [congruence|by apply H2].
Qed.
End Decides.

(** *** The children of a node *)

Lemma group_sorted nd l g : StronglySorted str_lt nd -> (l, g) ∈ groups nd -> StronglySorted str_lt g /\ g <> [].
Proof.
  intros Hs Hin. destruct (groups_good nd Hs) as [Hg _]. rewrite Forall_forall in Hg.
  destruct (Hg g); [|done]. apply list_elem_of_fmap. by exists (l, g).
Qed.
Lemma group_member nd l g : StronglySorted str_lt nd -> (l, g) ∈ groups nd -> exists k, l :: k ∈ nd.
Proof.
  intros Hs Hin. destruct (group_sorted nd l g Hs Hin) as [_ Hne]. destruct g as [|k g]; [done|].
  exists k. apply groups_elem. exists (k :: g). split; [done|by left].
Qed.

(** The search finds only matching keys. *)
Lemma glob_sound levels key nd :
  StronglySorted str_lt nd -> glob_node levels key nd = true -> exists k, k ∈ nd /\ matches k key.
Proof.
  revert key nd. induction levels as [|n IHn]; intros key nd; [done|]. cbn [glob_node].
  revert nd. induction key as [|c key IH]; intros nd Hs; cbn [glob_walk_node].
  - rewrite orb_true_iff. intros [H|H].
    + exists []. split; [by apply leaf_elem|constructor].
    + apply end_sound in H as [(l & g & Hin & Hl)|(g & Hin & Hr)].
      * destruct (group_member nd l g Hs Hin) as [k Hk]. exists (l :: k). split; [done|].
        destruct Hl as [->|[->| ->]]; constructor.
      * apply IHn in Hr as (k & Hk & Hm); [|by apply (group_sorted nd anyLabel)]. exists (anyLabel :: k).
        split; [apply groups_elem; by exists g|]. apply (m_wild _ _ [] []); [by left|done].
  - pose proof (scan_sound (glob_node n) c (c :: key) (groups nd)) as Hscan.
    destruct (glob_scan_node (glob_node n) c (c :: key) (groups nd)) as [[]|g]; [intros _|done|intros Hw].
    + destruct Hscan as [[g Hin]|[[-> (g & Hin & Hl)]|(l & g & Hin & Hw & Hs')]].
      * destruct (group_member nd _ g Hs Hin) as [k Hk]. exists (prefixLabel :: k). split; [done|constructor].
      * exists [rootLabel]. split; [|constructor]. apply groups_elem. exists g. split; [done|].
        apply leaf_elem; [by apply (group_sorted nd rootLabel)|done].
      * apply any_suffix_true in Hs' as (s & t & E & Hr). apply IHn in Hr as (k & Hk & Hm); [|by apply (group_sorted nd l)].
        exists (l :: k). split; [apply groups_elem; by exists g|]. rewrite E. by apply m_wild.
    + apply IH in Hw as (k & Hk & Hm); [|by apply (group_sorted nd c)].
      exists (c :: k). split; [apply groups_elem; by exists g|]. by constructor.
Qed.

(** And every matching key with few enough wildcards, for keys of characters
    above '*'. *)
Lemma glob_complete levels key nd k :
  StronglySorted str_lt nd -> Forall (fun c => anyLabel < c) key -> k ∈ nd -> matches k key -> (stars k < levels)%nat ->
  glob_node levels key nd = true.
Proof.
  revert key nd k. induction levels as [|n IHn]; intros key nd k Hs Hkey Hk Hm Hst; [lia|]. cbn [glob_node].
  assert (forall l k', wild l -> k = l :: k' -> (stars k' < n)%nat) as Hstars.
  { intros l k' Hw ->. unfold stars in *. rewrite filter_cons_True in Hst by done. cbn [length] in Hst. lia. }
  revert nd k Hs Hk Hm Hst Hstars. induction Hkey as [|c key Hc Hkey IH]; intros nd k Hs Hk Hm Hst Hstars; cbn [glob_walk_node].
  - rewrite orb_true_iff. destruct (groups_good nd Hs) as [_ Hl].
    destruct (glob_end_node (glob_node n) (groups nd)) eqn:He; [by right|left].
    destruct (end_complete _ _ Hl He) as [H1 H2]. apply leaf_elem; [done|].
    inversion Hm as [|k'|key'|k'|k'|c' k' key'|l k' s key' Hw Hm' Ek Ekey]; subst; [done|..].
    + apply groups_elem in Hk as (g & Hg & _). by apply H1 in Hg as [? _].
    + apply groups_elem in Hk as (g & Hg & _). by apply H1 in Hg as (_ & ? & _).
    + apply groups_elem in Hk as (g & Hg & _). by apply H1 in Hg as (_ & _ & ?).
    + apply app_eq_nil in Ekey as [-> ->]. pose proof Hk as (g & Hg & Hkg)%groups_elem.
      destruct Hw as [-> | ->]; [|by apply H1 in Hg as (_ & _ & ?)].
      assert (glob_node n [] g = true) as Hg'; [|by rewrite (H2 g Hg) in Hg'].
      apply (IHn [] g k'); [by apply (group_sorted nd anyLabel)|constructor|done|done|by apply (Hstars anyLabel); [left|]].
  - destruct (groups_good nd Hs) as [_ Hl].
    destruct (decide (glob_scan_node (glob_node n) c (c :: key) (groups nd) = inl true)) as [->|Hno]; [done|].
    destruct (scan_complete (glob_node n) c (c :: key) (groups nd) Hc Hl Hno) as (H1 & H2 & H3 & H4).
    assert (forall l k' s t, wild l -> k = l :: k' -> c :: key = s ++ t -> matches k' t -> False) as Hwild.
    { intros l k' s t Hw -> E Hm'. pose proof Hk as (g & Hg & Hkg)%groups_elem.
      assert (any_suffix_node (glob_node n) (c :: key) g = true) as Ht; [|by rewrite (H3 l g) in Ht].
      apply any_suffix_true. exists s, t. split; [done|]. apply (IHn t g k'); [by apply (group_sorted nd l)| |done|done|by apply (Hstars l)].
      assert (Forall (fun c => anyLabel < c) (s ++ t)) as Hall by (rewrite <- E; by constructor). by apply Forall_app in Hall as [_ ?]. }
    inversion Hm as [|k'|key'|k'|k'|c' k' key' Hm'|l k' s key' Hw Hm' Ek Ekey]; subst.
    + apply groups_elem in Hk as (g & Hg & _). by apply H1 in Hg.
    + apply groups_elem in Hk as (g & Hg & Hk'). apply leaf_elem in Hk'; [|by apply (group_sorted nd rootLabel)].
      by rewrite (H2 eq_refl g Hg) in Hk'.
    + pose proof Hk as (g & Hg & Hkg)%groups_elem. destruct (H4 g Hg) as [g' Hg'].
      pose proof (scan_sound (glob_node n) c (c :: key) (groups nd)) as Hin. rewrite Hg' in Hin |- *.
      rewrite (groups_unique nd c g' g) by done.
      assert (stars k' <= stars (c :: k'))%nat as Hle.
      { unfold stars. rewrite filter_cons. destruct (decide (wild c)); cbn [length]; lia. }
      apply (IH g k'); [by apply (group_sorted nd c)|done|done|lia|].
      intros l k'' Hw ->. unfold stars in *. rewrite filter_cons_True in Hle by done. cbn [length] in Hle. lia.
    + exfalso. by apply (Hwild l k' s key').
Qed.

(** ** Rules *)

Inductive anchor := Anywhere | AtStart | BelowDomain.
(** A rule line: how it starts, the name with its wildcards, whether it ends in '^'. *)
Record rule := mkRule { r_anchor : anchor; r_name : list Z; r_closed : bool }.
Definition render (r : rule) : list Z :=
  (match r_anchor r with Anywhere => [] | AtStart => [bar] | BelowDomain => [bar; bar] end)
    ++ r_name r ++ (if r_closed r then [caret] else []).

Definition domain_ok (d : list Z) : Prop := Forall (fun c => anyLabel < c < 128) d.
Definition name_ok (p : list Z) : Prop := Forall (fun c => anyLabel <= c < 128 /\ c <> bar /\ c <> caret) p.
#[export] Instance domain_ok_dec d : Decision (domain_ok d).
Proof. unfold domain_ok. apply _. Defined.
#[export] Instance name_ok_dec p : Decision (name_ok p).
Proof. unfold name_ok. apply _. Defined.
(** The recursion of the search is bounded by maxDepth. *)
Definition rule_ok (r : rule) : Prop :=
  name_ok (r_name r) /\ (stars (r_name r) + (if r_closed r then 0 else 1) <= maxDepth)%nat.

(** What it says.  A name without '^' is open at its end, where one dot is not
    looked at. *)
Definition pattern (r : rule) : list Z := if r_closed r then r_name r else TrimSuffix (r_name r) [dot].
Inductive glob : list Z -> list Z -> Prop :=
  | g_nil : glob [] []
  | g_char c p d : c <> anyLabel -> glob p d -> glob (c :: p) (c :: d)
  | g_any p s d : glob p d -> glob (anyLabel :: p) (s ++ d).
Definition rule_covers (r : rule) (d : list Z) : Prop :=
  exists pre mid post, d = pre ++ mid ++ post /\ glob (pattern r) mid
    /\ (match r_anchor r with
        | Anywhere => True
        | AtStart => pre = []
        | BelowDomain => pre = [] \/ last pre = Some dot
        end)
    /\ (r_closed r = true -> post = []).

(** *** The string of a rule *)

Definition mark (r : rule) : list Z :=
  match r_anchor r with Anywhere => [prefixLabel] | AtStart => [] | BelowDomain => [rootLabel] end.
Definition rule_key (r : rule) : list Z :=
  (if r_closed r then [] else [suffixLabel]) ++ rev (pattern r) ++ mark r.

Lemma HasSuffix_snoc s c x : HasSuffix (s ++ [x]) [c] = bool_decide (x = c).
Proof.
  unfold HasSuffix. rewrite length_app. cbn [length]. rewrite bool_decide_true by lia. cbn [andb].
  rewrite drop_app_ge by lia. replace (length s + 1 - 1 - length s)%nat with 0%nat by lia. rewrite drop_0.
  apply bool_decide_ext. split; [by intros [= ->]|by intros ->].
Qed.
Lemma HasSuffix_nil c : HasSuffix [] [c] = false.
Proof. done. Qed.
Lemma HasSuffix_none s c : c ∉ s -> HasSuffix s [c] = false.
Proof.
  destruct s as [|x s] using rev_ind; [done|]. intros Hc. rewrite HasSuffix_snoc. apply bool_decide_false.
  intros ->. apply Hc, elem_of_app. right. by left.
Qed.
Lemma TrimSuffix_cons c s x : c <> x -> TrimSuffix (c :: s) [x] = c :: TrimSuffix s [x].
Proof.
  intros Hx. unfold TrimSuffix. destruct s as [|y s] using rev_ind.
  - rewrite HasSuffix_nil. change [c] with ([] ++ [c]) at 1. by rewrite HasSuffix_snoc, bool_decide_false.
  - rewrite app_comm_cons, !HasSuffix_snoc. destruct (bool_decide _); [|by rewrite ?app_comm_cons]. rewrite !length_app. cbn [length].
    replace (S (length s) + 1 - 1)%nat with (length (c :: s)) by (cbn; lia).
    rewrite take_app_length. replace (length s + 1 - 1)%nat with (length s) by lia. by rewrite take_app_length.
Qed.

Lemma rule_string_render r : name_ok (r_name r) -> rule_string (render r) = rev (mark r) ++ pattern r ++ (if r_closed r then [] else [suffixLabel]).
Proof.
  intros Hn. assert (caret ∉ r_name r) as Hcaret.
  { intros H. unfold name_ok in Hn. rewrite Forall_forall in Hn. by apply Hn in H as (_ & _ & ?). }
  assert (HasPrefix (r_name r ++ (if r_closed r then [caret] else [])) [bar] = false) as Hbar.
  { unfold HasPrefix. apply bool_decide_false. destruct (r_name r) as [|c p]; [by destruct (r_closed r)|].
    apply Forall_cons in Hn as [(_ & H & _) _]. cbn. congruence. }
  assert (HasPrefix (r_name r ++ (if r_closed r then [caret] else [])) [bar; bar] = false) as Hbars.
  { unfold HasPrefix in *. apply bool_decide_eq_false in Hbar. apply bool_decide_false. intros E. apply Hbar.
    apply (f_equal (take 1)) in E. rewrite take_take in E. exact E. }
  set (l := r_name r ++ (if r_closed r then [caret] else [])) in *.
  assert (HasSuffix l [caret] = r_closed r) as Hend.
  { unfold l. destruct (r_closed r); [by rewrite HasSuffix_snoc, bool_decide_true|]. rewrite app_nil_r. by apply HasSuffix_none. }
  assert ((if r_closed r then take (length l - 1) l else l) = r_name r) as Hname.
  { unfold l. destruct (r_closed r); [|apply app_nil_r]. rewrite length_app. cbn [length].
    replace (length (r_name r) + 1 - 1)%nat with (length (r_name r)) by lia. apply take_app_length. }
  assert (HasPrefix (bar :: l) [bar; bar] = false) as Hb2.
  { unfold HasPrefix in *. apply bool_decide_eq_false in Hbar. apply bool_decide_false. cbn. intros [= E]. by apply Hbar. }
  assert (HasPrefix (bar :: l) [bar] = true) as Hb1 by (by apply bool_decide_true).
  assert (HasPrefix (bar :: bar :: l) [bar; bar] = true) as Hb3 by (by apply bool_decide_true).
  unfold rule_string, render, mark, pattern. fold l. cbv zeta.
  destruct (r_anchor r); cbn [app rev]; rewrite ?Hbars, ?Hbar, ?Hb2, ?Hb1, ?Hb3; cbn [negb andb drop]; rewrite ?Hbar; cbn [negb];
    rewrite ?drop_0, Hend, Hname; destruct (r_closed r); rewrite ?app_nil_r, ?TrimSuffix_cons by done; done.
Qed.

(** *** Wildcards, forwards and backwards *)

Lemma glob_app p p' d d' : glob p d -> glob p' d' -> glob (p ++ p') (d ++ d').
Proof. intros H H'. induction H; cbn [app]; rewrite <- ?app_assoc; by constructor || done. Qed.
Lemma glob_rev p d : glob p d -> glob (rev p) (rev d).
Proof.
  induction 1 as [|c p d Hc _ IH|p s d _ IH]; cbn [rev]; [constructor|..].
  - apply glob_app; [done|]. apply g_char; [done|constructor].
  - rewrite rev_app_distr. apply glob_app; [done|]. rewrite <- (app_nil_r (rev s)). apply g_any. constructor.
Qed.
Lemma glob_rev_iff p d : glob (rev p) d <-> glob p (rev d).
Proof. split; intros H%glob_rev; by rewrite rev_involutive in H. Qed.

Lemma matches_pattern p m key :
  Forall (fun c => anyLabel <= c) p -> Forall (fun c => anyLabel < c) key ->
  matches (p ++ m) key <-> exists mid rest, key = mid ++ rest /\ glob p mid /\ matches m rest.
Proof.
  intros Hp Hkey. split.
  - revert key Hkey. induction Hp as [|c p Hc Hp IH]; intros key Hkey Hm; [exists [], key; by repeat constructor|].
    unfold anyLabel in *. cbn [app] in Hm.
    inversion Hm as [|k'|key'|k'|k'|c' k' key' Hm'|l k' s key' Hw Hm' Ek Ekey]; subst;
      unfold prefixLabel, rootLabel, suffixLabel in *; try lia.
    + apply Forall_cons in Hkey as [Hc' Hkey]. destruct (IH key' Hkey Hm') as (mid & rest & -> & Hg & Hr).
      exists (c :: mid), rest. split_and!; [done| |done]. constructor; [unfold anyLabel; lia|done].
    + apply Forall_app in Hkey as [_ Hkey]. destruct (IH key' Hkey Hm') as (mid & rest & -> & Hg & Hr).
      assert (c = anyLabel) as -> by (destruct Hw as [->|E]; [done|unfold suffixLabel in E; lia]).
      exists (s ++ mid), rest. split_and!; [by rewrite <- app_assoc|by constructor|done].
  - intros (mid & rest & -> & Hg & Hr). clear Hp Hkey. induction Hg as [|c p d Hc _ IH|p s d _ IH]; cbn [app]; [done|by constructor|].
    rewrite <- app_assoc. apply m_wild; [by left|done].
Qed.

Lemma matches_open k key :
  Forall (fun c => anyLabel < c) key ->
  matches (suffixLabel :: k) key <-> key = [] \/ exists s t, key = s ++ t /\ matches k t.
Proof.
  intros Hkey. split.
  - intros Hm. inversion Hm as [|k'|key'|k'|k'|c' k' key' Hm'|l k' s key' Hw Hm' Ek Ekey]; subst; [by left| |right; by exists s, key'].
    apply Forall_cons in Hkey as [? _]. unfold anyLabel, suffixLabel in *. lia.
  - intros [->|(s & t & -> & Hm)]; [constructor|]. apply m_wild; [by right|done].
Qed.

Lemma matches_mark r rest :
  Forall (fun c => anyLabel < c) rest ->
  matches (mark r) rest <-> match r_anchor r with
                           | Anywhere => True
                           | AtStart => rev rest = []
                           | BelowDomain => rev rest = [] \/ last (rev rest) = Some dot
                           end.
Proof.
  intros Hr. unfold mark. destruct (r_anchor r).
  - split; [done|constructor].
  - split; [by inversion 1|]. intros E%(f_equal (@rev Z)). rewrite rev_involutive in E. rewrite E. constructor.
  - split.
    + intros Hm. inversion Hm as [|k'|key'|k'|k'|c' k' key' Hm'|l k' s key' Hw Hm' Ek Ekey]; subst.
      * right. cbn [rev]. apply last_snoc.
      * by left.
      * apply Forall_cons in Hr as [? _]. unfold anyLabel, rootLabel in *. lia.
      * by destruct Hw.
    + destruct rest as [|c rest]; [intros _; constructor|]. cbn [rev]. rewrite last_snoc.
      intros [E|[= ->]]; [by apply app_eq_nil in E as [_ ?]|constructor].
Qed.

Lemma pattern_chars r : name_ok (r_name r) -> Forall (fun c => anyLabel <= c < 128) (pattern r).
Proof.
  intros Hn. assert (Forall (fun c => anyLabel <= c < 128) (r_name r)) as H by (eapply Forall_impl; [exact Hn|]; cbn; tauto).
  unfold pattern, TrimSuffix. destruct (r_closed r); [done|]. destruct (HasSuffix _ _); [by apply Forall_take|done].
Qed.

(** On reversed strings the key of a rule matches exactly what the rule covers,
    except that an open rule matches the empty name. *)
Lemma rule_key_covers r d :
  name_ok (r_name r) -> domain_ok d -> r_closed r = true \/ d <> [] ->
  matches (rule_key r) (rev d) <-> rule_covers r d.
Proof.
  intros Hn Hd Hne. pose proof (pattern_chars r Hn) as Hp.
  assert (Forall (fun c => anyLabel <= c) (rev (pattern r))) as Hrp.
  { apply Forall_rev. eapply Forall_impl; [exact Hp|]. cbn. lia. }
  assert (forall t, Forall (fun c => anyLabel < c) t -> matches (rev (pattern r) ++ mark r) t <->
    exists mid rest, t = mid ++ rest /\ glob (pattern r) (rev mid) /\ match r_anchor r with
      | Anywhere => True | AtStart => rev rest = [] | BelowDomain => rev rest = [] \/ last (rev rest) = Some dot end) as Hbody.
  { intros t Ht. rewrite matches_pattern by done.
    split; intros (mid & rest & -> & Hg & Hr); apply Forall_app in Ht as [_ Ht]; exists mid, rest;
      (split_and!; [done|by apply glob_rev_iff|by apply matches_mark]). }
  assert (Forall (fun c => anyLabel < c) (rev d)) as Hrd.
  { apply Forall_rev. eapply Forall_impl; [exact Hd|]. cbn. lia. }
  unfold rule_key, rule_covers. destruct (r_closed r); cbn [app].
  - rewrite Hbody by done. split.
    + intros (mid & rest & E & Hg & Hr). exists (rev rest), (rev mid), []. split_and!; [|done..].
      apply (f_equal (@rev Z)) in E. by rewrite rev_involutive, rev_app_distr in E; rewrite app_nil_r.
    + intros (pre & mid & post & -> & Hg & Hr & Hpost). rewrite (Hpost eq_refl), app_nil_r, rev_app_distr in *.
      exists (rev mid), (rev pre). rewrite !rev_involutive. done.
  - rewrite matches_open by done. split.
    + intros [E|(s & t & E & Hm)].
      { apply (f_equal (@rev Z)) in E. rewrite rev_involutive in E. by destruct Hne. }
      rewrite E in Hrd. apply Forall_app in Hrd as [_ Ht]. apply Hbody in Hm as (mid & rest & -> & Hg & Hr); [|done].
      exists (rev rest), (rev mid), (rev s). split_and!; [|done..].
      apply (f_equal (@rev Z)) in E. rewrite rev_involutive, !rev_app_distr in E. by rewrite <- app_assoc in E.
    + intros (pre & mid & post & -> & Hg & Hr & _). right. rewrite !rev_app_distr, <- app_assoc in *.
      exists (rev post), (rev mid ++ rev pre). split; [done|]. apply Forall_app in Hrd as [_ Ht].
      apply Hbody; [done|]. exists (rev mid), (rev pre). by rewrite !rev_involutive.
Qed.

(** A rule that matches a name without its last labels, with the mark in front,
    matches the name. *)
Lemma matches_marked k t : suffixLabel ∉ tail k -> matches k (suffixLabel :: t) -> forall s, matches k (s ++ t).
Proof.
  induction k as [|c k IH]; intros Hk Hm s; [by inversion Hm|]. cbn [tail] in Hk.
  inversion Hm as [|k'|key'|k'|k'|c' k' key' Hm'|l k' s' key' Hw Hm' Ek Ekey]; subst.
  - constructor.
  - apply m_wild; [by right|done].
  - destruct s' as [|x s']; cbn [app] in Ekey.
    + subst key'. apply (m_wild _ _ []); [done|]. apply IH; [|done]. intros H. apply Hk. destruct k; [by apply elem_of_nil in H|by right].
    + injection Ekey as -> <-. rewrite app_assoc. by apply m_wild.
Qed.

(** ** The matcher *)

Lemma ascii_utf8 s : Forall (fun c => 0 <= c < 128) s -> utf8 s = s.
Proof.
  induction 1 as [|c s Hc _ IH]; [done|]. rewrite utf8_cons, IH. unfold EncodeRune. by rewrite decide_True by lia.
Qed.
Lemma reverseDomain_ascii s : Forall (fun c => 0 <= c < 128) s -> reverseDomain s = Val (rev s).
Proof.
  intros Hs. rewrite <- (ascii_utf8 s) at 1 by done. rewrite reverseDomain_utf8.
  - by rewrite ascii_utf8 by (by apply Forall_rev).
  - eapply Forall_impl; [exact Hs|]. intros c Hc. left. cbn in Hc. lia.
Qed.

Lemma rule_reversed r : name_ok (r_name r) -> reverseDomain (rule_string (render r)) = Val (rule_key r).
Proof.
  intros Hn. rewrite rule_string_render by done. pose proof (pattern_chars r Hn) as Hp.
  rewrite reverseDomain_ascii.
  - f_equal. unfold rule_key. rewrite !rev_app_distr, rev_involutive, <- app_assoc. by destruct (r_closed r).
  - rewrite !Forall_app. split_and!.
    + unfold mark. destruct (r_anchor r); repeat constructor; done.
    + eapply Forall_impl; [exact Hp|]. unfold anyLabel. cbn. lia.
    + destruct (r_closed r); repeat constructor; done.
Qed.

Lemma rule_list_spec R : Forall rule_ok R -> rule_list (render <$> R) = Val (rule_key <$> R).
Proof.
  induction 1 as [|r R [Hr _] _ IH]; [done|]. rewrite !fmap_cons. cbn [rule_list]. rewrite rule_reversed by done.
  cbn [obind]. by rewrite IH.
Qed.

Lemma Uniq_spec seen arr : NoDup (Uniq seen arr) /\ forall x, x ∈ Uniq seen arr <-> x ∈ arr /\ x ∉ seen.
Proof.
  revert seen. induction arr as [|y arr IH]; intros seen; cbn [Uniq].
  - split; [constructor|]. intros x. rewrite elem_of_nil. tauto.
  - destruct (decide (y ∈ seen)) as [Hy|Hy].
    + destruct (IH seen) as [H1 H2]. split; [done|]. intros x. rewrite H2, elem_of_cons. naive_solver.
    + destruct (IH ({[y]} ∪ seen)) as [H1 H2]. split.
      * constructor; [|done]. rewrite H2. set_solver.
      * intros x. rewrite elem_of_cons, H2, elem_of_cons, elem_of_union, elem_of_singleton. destruct (decide (x = y)); naive_solver.
Qed.
Lemma Uniq_size seen arr : (bytes_total (Uniq seen arr) <= bytes_total arr)%nat.
Proof.
  revert seen. induction arr as [|y arr IH]; intros seen; cbn [Uniq]; [done|].
  assert (forall x l, bytes_total (x :: l) = (length x + bytes_total l)%nat) as Hcons by done.
  rewrite (Hcons y arr). destruct (decide (y ∈ seen)); rewrite ?Hcons; [specialize (IH seen)|specialize (IH ({[y]} ∪ seen))]; lia.
Qed.

Lemma stars_app k k' : stars (k ++ k') = (stars k + stars k')%nat.
Proof. unfold stars. by rewrite filter_app, length_app. Qed.
Lemma stars_rev k : stars (rev k) = stars k.
Proof.
  induction k as [|c k IH]; [done|]. cbn [rev]. rewrite stars_app, IH. change (c :: k) with ([c] ++ k). rewrite stars_app. lia.
Qed.
Lemma stars_pattern r : (stars (pattern r) <= stars (r_name r))%nat.
Proof.
  unfold pattern, TrimSuffix. destruct (r_closed r); [done|]. destruct (HasSuffix _ _); [|done].
  pose proof (stars_app (take (length (r_name r) - length [dot]) (r_name r)) (drop (length (r_name r) - length [dot]) (r_name r))) as E.
  rewrite take_drop in E. lia.
Qed.
Lemma stars_key r : rule_ok r -> (stars (rule_key r) < S maxDepth)%nat.
Proof.
  intros [_ Hs]. unfold rule_key. rewrite !stars_app, stars_rev. pose proof (stars_pattern r).
  assert (stars (mark r) = 0%nat) as -> by (unfold mark; by destruct (r_anchor r)).
  destruct (r_closed r); [change (stars []) with 0%nat|change (stars [suffixLabel]) with 1%nat]; lia.
Qed.
Lemma key_unmarked r : name_ok (r_name r) -> suffixLabel ∉ tail (rule_key r).
Proof.
  intros Hn. assert (suffixLabel ∉ rev (pattern r) ++ mark r) as H.
  { pose proof (pattern_chars r Hn) as Hp. rewrite Forall_forall in Hp. intros [H|H]%elem_of_app.
    - apply list_elem_of_In, in_rev, list_elem_of_In in H. apply Hp in H. unfold anyLabel, suffixLabel in H. lia.
    - unfold mark in H. destruct (r_anchor r); repeat (apply elem_of_cons in H as [H|H]; [done|]); by apply elem_of_nil in H. }
  unfold rule_key. destruct (r_closed r); cbn [app tail]; [|done].
  intros Hin. apply H. destruct (rev (pattern r) ++ mark r); [by apply elem_of_nil in Hin|by right].
Qed.

Section Match.
Context (R : list rule) (HR : Forall rule_ok R) {ss : succinctSet} {Q : list node}.
Context (nd : node) (Hs : StronglySorted str_lt nd) (Hnd : forall k, k ∈ nd <-> exists r, r ∈ R /\ k = rule_key r).
Context (HT : Trie nd ss Q).

Lemma has_rules key : Forall (fun c => anyLabel < c) key ->
  exists b, has ss key = Val b /\ (b = true <-> exists r, r ∈ R /\ matches (rule_key r) key).
Proof.
  intros Hk. rewrite (has_glob HT). eexists. split; [done|]. split.
  - intros (k & Hin & Hm)%glob_sound; [|done]. apply Hnd in Hin as (r & Hr & ->). by exists r.
  - intros (r & Hr & Hm). apply (glob_complete _ _ _ (rule_key r)); [done|done|apply Hnd; by exists r|done|].
    rewrite Forall_forall in HR. by apply stars_key, HR.
Qed.

Lemma match_loop_spec fuel key s :
  (length key < fuel)%nat ->
  exists b, match_loop fuel ss key = Val b /\ (b = true -> exists r, r ∈ R /\ matches (rule_key r) (s ++ key)).
Proof.
  revert key s. induction fuel as [|f IH]; intros key s Hf; [lia|]. cbn [match_loop].
  rewrite (has_glob HT). cbn [obind]. destruct (glob_node (S maxDepth) (suffixLabel :: key) nd) eqn:Hg.
  { exists true. split; [done|]. intros _. apply glob_sound in Hg as (k & Hin & Hm); [|done].
    apply Hnd in Hin as (r & Hr & ->). exists r. split; [done|]. apply matches_marked; [|done].
    rewrite Forall_forall in HR. by apply key_unmarked, HR. }
  destruct (decide (IndexByte key dot = -1)) as [Hi|Hi]; [by exists false|].
  assert (exists a b, key = a ++ dot :: b /\ IndexByte key dot = zlen a) as (a & b & -> & Ha).
  { destruct (decide (dot ∈ key)) as [Hin|Hin].
    - apply list_elem_of_split_l in Hin as (a & b & -> & Hna). exists a, b. split; [done|].
      unfold IndexByte. by rewrite IndexByte_from_app.
    - exfalso. apply Hi. unfold IndexByte. by apply IndexByte_from_none. }
  rewrite Ha. assert (zdrop (zlen a + 1) (a ++ dot :: b) = b) as ->.
  { replace (a ++ dot :: b) with ((a ++ [dot]) ++ b) by (by rewrite <- app_assoc).
    replace (zlen a + 1) with (zlen (a ++ [dot])) by (rewrite zlen_app; done). apply zdrop_app. }
  destruct (IH b (s ++ a ++ [dot])) as (x & Hx & Hr).
  { rewrite length_app in Hf. cbn [length] in Hf. lia. }
  exists x. split; [done|]. intros Hb. destruct (Hr Hb) as (r & Hin & Hm). exists r. split; [done|].
  by rewrite <- !app_assoc in Hm.
Qed.

Lemma Match_rules d :
  domain_ok d -> exists b, Match ss d = Val b /\ (b = true <-> exists r, r ∈ R /\ matches (rule_key r) (rev d)).
Proof.
  intros Hd. assert (Forall (fun c => anyLabel < c) (rev d)) as Hrd.
  { apply Forall_rev. eapply Forall_impl; [exact Hd|]. cbn. lia. }
  unfold Match. rewrite reverseDomain_ascii by (eapply Forall_impl; [exact Hd|]; unfold anyLabel; cbn; lia). cbn [obind].
  destruct (has_rules (rev d) Hrd) as (b & -> & Hb). cbn [obind]. destruct b; [by exists true|].
  destruct (match_loop_spec (S (length (rev d))) (rev d) [] ltac:(lia)) as (b & -> & Hl). exists b. split; [done|].
  split; [apply Hl|]. intros H. by apply Hb in H.
Qed.
End Match.


(** *** Witness *)

(** "||example.org^", "|ads*.net^" and "track". *)
Definition some_rules : list rule :=
  [mkRule BelowDomain (str "example.org") true; mkRule AtStart (str "ads*.net") true; mkRule Anywhere (str "track") false].

