(* ===== verification/Metadata.v ===== *)
(** * Socket addresses: common/metadata

    A [Socksaddr] is an IP address or a domain name with a port.  The first half
    follows addr.go (conversions, parsing), the second serializer.go: the address
    format of SOCKS and its relatives, parametrised by the bytes of the address
    families and the order of address and port. *)

From S2P Require Import Prelude GoIO GoNet BufWriter.
From S2P Require Buf.
#[local] Open Scope go_scope.

(** ** addr.go *)

Record Socksaddr := mkAddr { sa_Addr : Addr; sa_Port : Z; sa_Fqdn : list Z }.
#[export] Instance Socksaddr_eq_dec : EqDecision Socksaddr.
Proof. solve_decision. Defined.
Definition zeroAddr : Socksaddr := mkAddr AddrInvalid 0 [].
Definition with_Port (p : Z) (a : Socksaddr) : Socksaddr := mkAddr (sa_Addr a) p (sa_Fqdn a).

Definition Network : string := "socks".
Definition IsIP (ap : Socksaddr) : bool := GoNet.IsValid (sa_Addr ap).
Definition IsIPv4 (ap : Socksaddr) : bool := Is4 (sa_Addr ap).
Definition IsIPv6 (ap : Socksaddr) : bool := Is6 (sa_Addr ap).
Definition Unwrap (ap : Socksaddr) : Socksaddr :=
  if Is4In6 (sa_Addr ap) then mkAddr (AddrFrom4 (As4 (sa_Addr ap))) (sa_Port ap) [] else ap.
Definition IsFqdn (ap : Socksaddr) : bool := isDomainName (sa_Fqdn ap).
Definition IsDomain (ap : Socksaddr) : bool := bool_decide (sa_Fqdn ap <> []).
Definition IsValid (ap : Socksaddr) : bool := IsIP ap || IsDomain ap.

(** In a build without the debug tag; with it CheckBadAddr runs first. *)
Definition AddrString (ap : Socksaddr) : list Z :=
  if GoNet.IsValid (sa_Addr ap) then Addr_String (sa_Addr ap) else sa_Fqdn ap.
Definition netaddr : Type := net_addr Socksaddr.
Definition IPAddr (ap : Socksaddr) : netaddr := NAIP (AsSlice (sa_Addr ap)) (Zone (sa_Addr ap)).
Definition TCPAddr (ap : Socksaddr) : netaddr := NATCP (AsSlice (sa_Addr ap)) (sa_Port ap) (Zone (sa_Addr ap)).
Definition UDPAddr (ap : Socksaddr) : netaddr := NAUDP (AsSlice (sa_Addr ap)) (sa_Port ap) (Zone (sa_Addr ap)).
(** A netip.AddrPort is a pair; the unsafe cast reads the first two fields. *)
Definition AddrPort (ap : Socksaddr) : Addr * Z := (sa_Addr ap, sa_Port ap).
Definition Socksaddr_String (ap : Socksaddr) : list Z := JoinHostPort (AddrString ap) (Itoa (sa_Port ap)).
Definition CheckBadAddr (ap : Socksaddr) : outcome unit :=
  if Is4In6 (sa_Addr ap) || GoNet.IsValid (sa_Addr ap) && bool_decide (sa_Fqdn ap <> []) then Panic else Val tt.

Definition AddrFromIP (ip : list Z) : Addr := AddrFromSlice ip.
Definition AddrPortFrom (ip : list Z) (port : Z) : Addr * Z := (AddrFromIP ip, port).
Definition SocksaddrFromNetIP (ap : Addr * Z) : Socksaddr := mkAddr ap.1 ap.2 [].
Definition SocksaddrFrom (addr : Addr) (port : Z) : Socksaddr := SocksaddrFromNetIP (addr, port).

Definition unwrapIPv6Address (address : list Z) : list Z :=
  if decide (zlen address > 2 /\ at_ address 0 = Some lbracket /\ at_ address (zlen address - 1) = Some rbracket)
  then ztake (zlen address - 2) (zdrop 1 address) else address.

(** ParseAddr: the zero Addr on an error. *)
Definition M_ParseAddr (address : list Z) : Addr :=
  match GoNet.ParseAddr (unwrapIPv6Address address) with Some a => a | None => AddrInvalid end.
Definition ParseSocksaddrHostPort (host : list Z) (port : Z) : Socksaddr :=
  match GoNet.ParseAddr (unwrapIPv6Address host) with
  | None => mkAddr AddrInvalid port host
  | Some netAddr => mkAddr netAddr port []
  end.
Definition ParseSocksaddrHostPortStr (host portStr : list Z) : Socksaddr :=
  let port := Atoi portStr in
  match GoNet.ParseAddr (unwrapIPv6Address host) with
  | None => mkAddr AddrInvalid (u16 port) host
  | Some netAddr => mkAddr netAddr (u16 port) []
  end.
Definition ParseSocksaddr (address : list Z) : Socksaddr :=
  match SplitHostPort address with
  | None => ParseSocksaddrHostPort address 0
  | Some (host, port) => ParseSocksaddrHostPortStr host port
  end.

Definition AddrPortFromNet (netAddr : netaddr) : Addr * Z :=
  match netAddr with
  | NAOwn addr => AddrPort addr
  | NATCP ip port _ => (AddrFromIP ip, u16 port)
  | NAUDP ip port _ => (AddrFromIP ip, u16 port)
  | NAIP ip _ => (AddrFromIP ip, 0)
  | NAIPNet _ _ _ | NAOther _ => (AddrFromIP [], 0)
  end.
Definition AddrFromNet (netAddr : netaddr) : Addr :=
  let addr := AddrPortFromNet netAddr in
  if GoNet.IsValid addr.1 then addr.1
  else match netAddr with
       | NAOwn addr => sa_Addr addr
       | NAIP ip _ => AddrFromIP ip
       | NAIPNet ip _ _ => AddrFromIP ip
       | _ => AddrInvalid
       end.
Definition PrefixFromNet (netAddr : netaddr) : Addr * Z :=
  match netAddr with
  | NAIPNet ip mask _ => PrefixFrom (Unmap (AddrFromIP ip)) (mask_Size mask)
  | _ => (AddrInvalid, 0)
  end.
(** [None] is the nil interface. *)
Definition SocksaddrFromNet (ap : option netaddr) : Socksaddr :=
  match ap with
  | None => zeroAddr
  | Some (NAOwn socksAddr) => socksAddr
  | Some ap =>
      let addr := SocksaddrFromNetIP (AddrPortFromNet ap) in
      if IsValid addr then addr else ParseSocksaddr (net_addr_String Socksaddr_String ap)
  end.

(** ** serializer.go *)

Definition AddressFamilyIPv4 : Z := 0x01.
Definition AddressFamilyIPv6 : Z := 0x04.
Definition AddressFamilyFqdn : Z := 0x03.
Definition AddressFamilyEmpty : Z := 0xff.
Definition MaxSocksaddrLength : Z := 2 + 255 + 2.
Definition MaxIPSocksaddrLength : Z := 1 + 16 + 2.

Record Serializer := mkSerializer {
  familyMap : gmap Z Z; familyByteMap : gmap Z Z; portFirst : bool }.
Definition SerializerOption : Type := Serializer -> Serializer.
Definition AddressFamilyByte (b f : Z) : SerializerOption := fun s =>
  mkSerializer (<[b := f]> (familyMap s)) (<[f := b]> (familyByteMap s)) (portFirst s).
Definition PortThenAddress : SerializerOption := fun s =>
  mkSerializer (familyMap s) (familyByteMap s) true.
Definition NewSerializer (options : list SerializerOption) : Serializer :=
  foldl (fun s option => option s) (mkSerializer ∅ ∅ false) options.

(** *** Writing into a buffer *)

Definition WriteSocksString (str : list Z) : W :=
  let strLen := zlen str in
  if decide (strLen > 255) then ret (Some (ErrNew "fqdn too long"))
  else andthen (Buf.WriteByte (u8 strLen)) (errors_only (Buf.WriteString str)).

Definition family_of (addr : Socksaddr) : Z :=
  if negb (IsValid addr) then AddressFamilyEmpty
  else if IsIPv4 addr then AddressFamilyIPv4
  else if IsIPv6 addr then AddressFamilyIPv6
  else AddressFamilyFqdn.

Section Serializer.
Context (s : Serializer).

Definition WriteAddress (addr : Socksaddr) : W :=
  let af := family_of addr in
  match familyByteMap s !! af with
  | None => ret (Some (ErrNew "unsupported address"))
  | Some afByte =>
      andthen (Buf.WriteByte afByte)
        (if decide (af = AddressFamilyIPv4 \/ af = AddressFamilyIPv6)
         then errors_only (Buf.Write (AsSlice (sa_Addr addr)))
         else if decide (af = AddressFamilyFqdn) then WriteSocksString (sa_Fqdn addr)
         else ret None)
  end.

Definition AddressLen (addr : Socksaddr) : Z :=
  if negb (IsValid addr) then 1
  else if IsIPv4 addr then 5
  else if IsIPv6 addr then 17
  else 2 + zlen (sa_Fqdn addr).

Definition WritePort (port : Z) : W := write_be 2 port.

Definition AddrPortLen (destination : Socksaddr) : Z :=
  if IsValid destination then AddressLen destination + 2 else AddressLen destination.

(** WriteAddrPort on a buffer. *)
Definition WriteAddrPort (destination : Socksaddr) : W :=
  andthen (if portFirst s then WritePort (sa_Port destination) else WriteAddress destination)
    (if portFirst s then WriteAddress destination
     else if IsValid destination then WritePort (sa_Port destination)
     else ret None).

(** WriteAddrPort on any other writer. *)
Definition WriteAddrPort_to (junk : Z -> list Z) (destination : Socksaddr) (w : writer) : outcome (option error * writer) :=
  buffered junk (AddrPortLen destination) (WriteAddrPort destination) w.

(** *** Reading *)

(** E.Cause around a failure. *)
Definition caused {A} (msg : string) (m : result A * reader) : result A * reader :=
  match m with
  | (Err e, r) => (Err (ErrCause msg e), r)
  | m => m
  end.
Definition read_be (n : nat) (r : reader) : result Z * reader :=
  rd_bind (ReadFull n r) (fun bs r => (Ok (unbe bs), r)).

Definition ReadSockString (r : reader) : result (list Z) * reader :=
  rd_bind (read_be 1 r) (fun strLen r => ReadFull (Z.to_nat strLen) r).

Definition ReadAddress (r : reader) : result Socksaddr * reader :=
  rd_bind (read_be 1 r) (fun af r =>
  let family := default 0 (familyMap s !! af) in
  if decide (family = AddressFamilyFqdn) then
    rd_bind (caused "read fqdn" (ReadSockString r)) (fun fqdn r => (Ok (ParseSocksaddrHostPort fqdn 0), r))
  else if decide (family = AddressFamilyIPv4) then
    rd_bind (caused "read ipv4 address" (ReadFull 4 r)) (fun addr r => (Ok (mkAddr (AddrFrom4 addr) 0 []), r))
  else if decide (family = AddressFamilyIPv6) then
    rd_bind (caused "read ipv6 address" (ReadFull 16 r)) (fun addr r => (Ok (Unwrap (mkAddr (AddrFrom16 addr) 0 [])), r))
  else if decide (family = AddressFamilyEmpty) then (Ok zeroAddr, r)
  else (Err (ErrNew ("unknown address family: " ++ text (Itoa af))%string), r)).

Definition ReadPort (r : reader) : result Z * reader := caused "read port" (read_be 2 r).

Definition ReadAddrPort (r : reader) : result Socksaddr * reader :=
  if portFirst s then
    rd_bind (ReadPort r) (fun port r =>
    rd_bind (ReadAddress r) (fun addr r => (Ok (with_Port port addr), r)))
  else
    rd_bind (ReadAddress r) (fun addr r =>
    rd_bind (if IsValid addr then ReadPort r else (Ok 0, r)) (fun port r => (Ok (with_Port port addr), r))).
End Serializer.

(** ** The serializers of the program: socksaddr.go and uot/protocol.go *)

Definition SocksaddrSerializer : Serializer := NewSerializer
  [AddressFamilyByte 0x01 AddressFamilyIPv4; AddressFamilyByte 0x04 AddressFamilyIPv6;
   AddressFamilyByte 0x03 AddressFamilyFqdn].
Definition AddrParser : Serializer := NewSerializer
  [AddressFamilyByte 0x00 AddressFamilyIPv4; AddressFamilyByte 0x01 AddressFamilyIPv6;
   AddressFamilyByte 0x02 AddressFamilyFqdn].
