(* ===== verification/MetadataTheorems.v ===== *)
(** * Socket addresses: the theorems

    The wire format of addresses: exact length, round trip for every serializer
    whose family bytes are distinct, errors, truncated input, and what an address
    read from the wire can be.  Printing and parsing of host:port. *)

From S2P Require Import Prelude GoIO GoNet GoNetTheorems Buf BufTheorems BufWriter Metadata.
#[local] Open Scope go_scope.

#[export] Typeclasses Opaque andthen errors_only write_be Must WriteSocksString WriteAddress WriteAddrPort.

(** ** The format *)

(** The address part and the whole. *)
Definition encode_address (s : Serializer) (a : Socksaddr) : list Z :=
  default 0 (familyByteMap s !! family_of a) ::
  (if IsIP a then AsSlice (sa_Addr a)
   else if IsDomain a then zlen (sa_Fqdn a) :: sa_Fqdn a else []).
Definition encode (s : Serializer) (a : Socksaddr) : list Z :=
  if portFirst s then be 2 (sa_Port a) ++ encode_address s a
  else encode_address s a ++ (if IsValid a then be 2 (sa_Port a) else []).

(** Every family byte is a byte and names its family. *)
Definition lawful (s : Serializer) : Prop :=
  map_Forall (fun f b => is_byte b /\ familyMap s !! b = Some f) (familyByteMap s).

Lemma lawful_byte s f b : lawful s -> familyByteMap s !! f = Some b -> is_byte b /\ familyMap s !! b = Some f.
Proof. intros Hl. apply (map_Forall_lookup_1 _ _ f b Hl). Qed.

(** The address is a plain IP address, a name that no IP literal shadows, or
    empty; the family is known to the serializer. *)
Record encodable (s : Serializer) (a : Socksaddr) : Prop := {
  enc_family : is_Some (familyByteMap s !! family_of a);
  enc_port : 0 <= sa_Port a < 2 ^ 16;
  enc_addr : addr_ok (sa_Addr a) /\ Zone (sa_Addr a) = [] /\ Is4In6 (sa_Addr a) = false;
  enc_ip : IsIP a = true -> sa_Fqdn a = [];
  enc_fqdn : IsIP a = false -> bytes_ok (sa_Fqdn a) /\ zlen (sa_Fqdn a) <= 255
             /\ (sa_Fqdn a <> [] -> GoNet.ParseAddr (unwrapIPv6Address (sa_Fqdn a)) = None);
  enc_empty : IsValid a = false -> portFirst s = false -> sa_Port a = 0;
}.

Lemma length_AsSlice a : zlen (AsSlice a) = match a with AddrInvalid => 0 | Addr4 _ => 4 | Addr6 _ _ => 16 end.
Proof. unfold zlen. destruct a; cbn [AsSlice]; rewrite ?length_be; done. Qed.

Lemma address_length s a : zlen (encode_address s a) = AddressLen a.
Proof.
  unfold encode_address, AddressLen, IsValid, IsIPv4, IsIPv6, IsIP, IsDomain. rewrite zlen_cons.
  destruct (sa_Addr a) eqn:E; cbn [GoNet.IsValid Is4 Is6 orb negb]; rewrite ?length_AsSlice; [|done..].
  destruct (bool_decide (sa_Fqdn a <> [])) eqn:Ef; cbn [orb negb]; [|done]. rewrite zlen_cons. lia.
Qed.

(** With the port in front, an empty address is longer than AddrPortLen says. *)
Lemma encode_length s a :
  zlen (encode s a) = AddrPortLen a + (if portFirst s && negb (IsValid a) then 2 else 0).
Proof.
  assert (zlen (be 2 (sa_Port a)) = 2) as Hp by (unfold zlen; by rewrite length_be).
  unfold encode, AddrPortLen. destruct (portFirst s); cbn [andb]; rewrite zlen_app, address_length, ?Hp.
  - destruct (IsValid a); cbn [negb]; lia.
  - destruct (IsValid a); cbn [negb]; rewrite ?Hp, ?zlen_nil; lia.
Qed.

Lemma family_cases a :
  (family_of a = AddressFamilyEmpty /\ IsValid a = false)
  \/ (exists v, family_of a = AddressFamilyIPv4 /\ sa_Addr a = Addr4 v)
  \/ (exists v z, family_of a = AddressFamilyIPv6 /\ sa_Addr a = Addr6 v z)
  \/ (family_of a = AddressFamilyFqdn /\ sa_Addr a = AddrInvalid /\ sa_Fqdn a <> []).
Proof.
  unfold family_of, IsValid, IsIPv4, IsIPv6, IsIP, IsDomain.
  destruct (sa_Addr a) as [|v|v z]; cbn [GoNet.IsValid orb negb Is4 Is6]; [|right; left; by eexists|right; right; left; by eexists _, _].
  destruct (bool_decide (sa_Fqdn a <> [])) eqn:E; cbn [negb]; [|by left].
  right. right. right. apply bool_decide_eq_true in E. done.
Qed.

(** ** Writing *)

Lemma fills_SocksString str : zlen str <= 255 -> Fills (WriteSocksString str) (zlen str :: str).
Proof.
  intros Hl. unfold WriteSocksString. rewrite decide_False by lia. pose proof (zlen_nonneg str).
  rewrite u8_small by lia. apply (fills_andthen _ _ [zlen str] str); [apply fills_WriteByte|apply fills_WriteString].
Qed.

Lemma fills_WriteAddress s a : encodable s a -> Fills (WriteAddress s a) (encode_address s a).
Proof.
  intros [[b Hb] _ _ Hip Hf _]. unfold WriteAddress, encode_address. rewrite Hb. cbn [default from_option].
  apply (fills_andthen _ _ [b]); [apply fills_WriteByte|].
  destruct (family_cases a) as [[E Hv]|[(v & E & Ha)|[(v & z & E & Ha)|(E & Ha & Hne)]]]; rewrite E.
  - unfold IsValid in Hv. apply orb_false_iff in Hv as [-> ->]. apply fills_nil.
  - rewrite decide_True by (by left). unfold IsIP. rewrite Ha. apply fills_Write.
  - rewrite decide_True by (by right). unfold IsIP. rewrite Ha. apply fills_Write.
  - rewrite decide_False by (by intros [?|?]). rewrite decide_True by done.
    assert (IsIP a = false) as Hi by (unfold IsIP; by rewrite Ha). destruct (Hf Hi) as (_ & Hl & _).
    rewrite Hi. unfold IsDomain. rewrite bool_decide_eq_true_2 by done. by apply fills_SocksString.
Qed.

Lemma fills_WriteAddrPort s a : encodable s a -> Fills (WriteAddrPort s a) (encode s a).
Proof.
  intros He. unfold WriteAddrPort, encode, WritePort. destruct (portFirst s).
  - apply fills_andthen; [apply fills_write_be|by apply fills_WriteAddress].
  - apply fills_andthen; [by apply fills_WriteAddress|]. destruct (IsValid a); [apply fills_write_be|apply fills_nil].
Qed.

#[export] Instance keeps_SocksString str : KeepsOwner (WriteSocksString str).
Proof. unfold WriteSocksString. apply _. Qed.
#[export] Instance keeps_WriteAddress s a : KeepsOwner (WriteAddress s a).
Proof. unfold WriteAddress. apply _. Qed.
#[export] Instance keeps_WriteAddrPort s a : KeepsOwner (WriteAddrPort s a).
Proof. unfold WriteAddrPort, WritePort. apply _. Qed.

(** ** Reading *)

Lemma rd_bind_Ok {A B} (a : A) r (k : A -> reader -> result B * reader) : rd_bind (Ok a, r) k = k a r.
Proof. done. Qed.

Lemma read_be_spec n x rest e :
  0 <= x < 2 ^ (8 * Z.of_nat n) -> read_be n (mkReader (be n x ++ rest) e) = (Ok x, mkReader rest e).
Proof. apply (codec_decode_encode (Codec := be_codec n)). Qed.

Lemma read_byte b rest e : is_byte b -> read_be 1 (mkReader (b :: rest) e) = (Ok b, mkReader rest e).
Proof.
  intros Hb. assert (be 1 b = [b]) as E.
  { cbn [be]. change (8 * Z.of_nat 0) with 0. rewrite Z.shiftr_0_r. change 255 with (2 ^ 8 - 1).
    rewrite Z_land_ones', Z.mod_small by (unfold is_byte in Hb; lia). done. }
  pose proof (read_be_spec 1 b rest e Hb) as H. rewrite E in H. exact H.
Qed.

Lemma ReadSockString_spec str rest e :
  zlen str <= 255 -> ReadSockString (mkReader (zlen str :: str ++ rest) e) = (Ok str, mkReader rest e).
Proof.
  intros Hl. unfold ReadSockString. pose proof (zlen_nonneg str). rewrite read_byte by (unfold is_byte; lia).
  rewrite rd_bind_Ok. rewrite (ReadFull_app' _ str) by (unfold zlen; lia). done.
Qed.

Lemma ReadAddress_spec s a rest e :
  lawful s -> encodable s a ->
  ReadAddress s (mkReader (encode_address s a ++ rest) e) = (Ok (with_Port 0 a), mkReader rest e).
Proof.
  intros Hl [[b Hb] _ (Hok & Hz & H46) Hip Hf _]. destruct (lawful_byte s _ _ Hl Hb) as [Hbyte Hfam].
  unfold ReadAddress, encode_address. rewrite Hb. cbn [default from_option app]. unfold id. rewrite read_byte by done.
  rewrite rd_bind_Ok, Hfam. cbn [default from_option]. unfold id.
  destruct (family_cases a) as [[E Hv]|[(v & E & Ha)|[(v & z & E & Ha)|(E & Ha & Hne)]]]; rewrite E.
  - do 3 (rewrite decide_False by done). rewrite decide_True by done.
    unfold IsValid in Hv. apply orb_false_iff in Hv as [Hi Hd]. rewrite Hi, Hd. cbn [app].
    destruct a as [[] p f]; [|done..]. unfold IsDomain in Hd. cbn in Hd. apply bool_decide_eq_false in Hd.
    by destruct f.
  - rewrite decide_False, decide_True by done. unfold IsIP. rewrite Ha in *. cbn [GoNet.IsValid AsSlice].
    rewrite (ReadFull_app' 4) by apply length_be. cbn [caused]. rewrite rd_bind_Ok. unfold AddrFrom4.
    rewrite unbe_be by exact Hok. unfold with_Port. by rewrite Ha, Hip by (unfold IsIP; by rewrite Ha).
  - rewrite decide_False, decide_False, decide_True by done. unfold IsIP. rewrite Ha in *. cbn [GoNet.IsValid AsSlice].
    rewrite (ReadFull_app' 16) by apply length_be. cbn [caused]. rewrite rd_bind_Ok. unfold AddrFrom16.
    rewrite unbe_be by (by destruct Hok). cbn in Hz. subst z. unfold Unwrap. cbn [sa_Addr]. rewrite H46.
    unfold with_Port. by rewrite Ha, Hip by (unfold IsIP; by rewrite Ha).
  - rewrite decide_True by done. assert (IsIP a = false) as Hi by (unfold IsIP; by rewrite Ha).
    destruct (Hf Hi) as (_ & Hlen & Hlit). rewrite Hi. unfold IsDomain. rewrite bool_decide_eq_true_2 by done.
    cbn [app]. rewrite ReadSockString_spec by done. cbn [caused]. rewrite rd_bind_Ok. unfold ParseSocksaddrHostPort.
    rewrite Hlit by done. unfold with_Port. by rewrite Ha.
Qed.

Lemma IsValid_port p a : IsValid (with_Port p a) = IsValid a.
Proof. done. Qed.

Lemma with_Port_id p a : with_Port (sa_Port a) (with_Port p a) = a.
Proof. by destruct a. Qed.

Lemma ReadPort_spec p rest e : 0 <= p < 2 ^ 16 -> ReadPort (mkReader (be 2 p ++ rest) e) = (Ok p, mkReader rest e).
Proof. intros Hp. unfold ReadPort. by rewrite read_be_spec. Qed.

Lemma ReadAddrPort_spec s a rest e :
  lawful s -> encodable s a -> ReadAddrPort s (mkReader (encode s a ++ rest) e) = (Ok a, mkReader rest e).
Proof.
  intros Hl He. unfold ReadAddrPort, encode. destruct (portFirst s) eqn:Ep; rewrite <- app_assoc.
  - rewrite ReadPort_spec by apply He. rewrite rd_bind_Ok, ReadAddress_spec by done. rewrite rd_bind_Ok.
    by rewrite with_Port_id.
  - rewrite ReadAddress_spec by done. rewrite rd_bind_Ok, IsValid_port. destruct (IsValid a) eqn:Ev.
    + rewrite ReadPort_spec by apply He. rewrite rd_bind_Ok. by rewrite with_Port_id.
    + cbn [app]. rewrite rd_bind_Ok. rewrite <- (enc_empty _ _ He Ev Ep) at 1. by rewrite with_Port_id.
Qed.

Lemma encode_bytes s a : lawful s -> encodable s a -> bytes_ok (encode s a).
Proof.
  intros Hl He. pose proof He as [[b Hb] _ (Hok & _) _ Hf _]. destruct (lawful_byte s _ _ Hl Hb) as [Hbyte _].
  assert (bytes_ok (encode_address s a)) as Ha.
  { unfold encode_address. rewrite Hb. apply Forall_cons. split; [done|]. destruct (IsIP a) eqn:Ei.
    - destruct (sa_Addr a); cbn [AsSlice]; [constructor|apply be_bytes..].
    - destruct (Hf eq_refl) as (Hb' & Hlen & _). destruct (IsDomain a); [|constructor]. constructor; [|done].
      pose proof (zlen_nonneg (sa_Fqdn a)). unfold is_byte. lia. }
  unfold encode. destruct (portFirst s); apply Forall_app; split; try done; try apply be_bytes.
  destruct (IsValid a); [apply be_bytes|constructor].
Qed.

(** The interface the protocols use. *)
#[export] Instance addr_codec s : lawful s -> Codec Socksaddr (encodable s) (encode s) (ReadAddrPort s).
Proof.
  intros Hl. split; [by intros a; apply encode_bytes|]. intros a rest e He. by apply ReadAddrPort_spec.
Qed.

Lemma SocksaddrSerializer_lawful : lawful SocksaddrSerializer.
Proof. unfold lawful. by apply (bool_decide_eq_true_1 _). Qed.
Lemma AddrParser_lawful : lawful AddrParser.
Proof. unfold lawful. by apply (bool_decide_eq_true_1 _). Qed.
#[export] Hint Resolve SocksaddrSerializer_lawful AddrParser_lawful : golang.

Lemma encode_max s a : encodable s a -> zlen (encode s a) <= MaxSocksaddrLength.
Proof.
  intros He. rewrite encode_length. unfold AddrPortLen, AddressLen, MaxSocksaddrLength.
  destruct (IsValid a) eqn:Ev; [|by destruct (portFirst s)]. rewrite andb_false_r. cbn [negb].
  destruct (IsIPv4 a) eqn:E4; [lia|]. destruct (IsIPv6 a) eqn:E6; [lia|].
  assert (IsIP a = false) as Hi by (unfold IsIP, IsIPv4, IsIPv6 in *; by destruct (sa_Addr a)).
  destruct (enc_fqdn _ _ He Hi) as (_ & Hl & _). lia.
Qed.

(** ** The properties *)

(** C13: Addresses survive the wire.  With any serializer whose family bytes are
    distinct (the two of the program among them) every plain address of a known
    family is written as exactly [encode], into a buffer with room or through a
    temporary buffer of AddrPortLen bytes to any writer, and ReadAddrPort gives
    it back, leaving what follows. *)
Theorem socksaddr_roundtrip s a junk :
  lawful s -> encodable s a -> pool_ok junk -> IsValid a = true ->
  zlen (encode s a) = AddrPortLen a /\ AddrPortLen a <= MaxSocksaddrLength
  /\ (forall b z, Rep b z -> AddrPortLen a <= zlen (free z) ->
       exists b', WriteAddrPort s a b = Val (None, b') /\ Rep b' (push (encode s a) z))
  /\ (forall w, WriteAddrPort_to s junk a w = Val (WriteBytes (encode s a) w))
  /\ (forall rest e, ReadAddrPort s (mkReader (encode s a ++ rest) e) = (Ok a, mkReader rest e)).
Proof.
  intros Hl He Hj Hv. pose proof (encode_length s a) as Hlen. rewrite Hv, andb_false_r, Z.add_0_r in Hlen.
  pose proof (encode_max s a He) as Hmax. rewrite Hlen in Hmax. split_and!; [done|done|..].
  - intros b z HR Hr. apply (fills_WriteAddrPort s a He); [done|lia].
  - intros w. apply buffered_fills; [apply _|done| |by apply fills_WriteAddrPort|lia].
    pose proof (zlen_nonneg (encode s a)). unfold maxAlloc, MaxSocksaddrLength in *. lia.
  - intros rest e. by apply ReadAddrPort_spec.
Qed.

(** ** Errors *)

(** A failing fill of a buffer of this size leaves the writer alone. *)
Lemma buffered_error junk size m e w `{!KeepsOwner m} :
  pool_ok junk -> 0 <= size <= maxAlloc ->
  (forall b z, Rep b z -> zlen (free z) = size -> exists p, zlen p <= zlen (free z) /\ does m b (Some e) (push p z)) ->
  buffered junk size m w = Val (Some e, w).
Proof.
  intros Hj Hs Hm. destruct (NewSize_fresh junk size Hj Hs) as (b & z & Hnew & HR & Hb & Hc & Hf & Hrel).
  unfold buffered. rewrite Hnew. cbn [obind]. destruct (Hm b z HR Hf) as (p & Hp & b' & Hrun & HR'). rewrite Hrun. cbn [obind].
  destruct (Release_ok b') as (x & b'' & Hrel'); [by apply (releasable_keeps m b (Some e) b' z p)|]. by rewrite Hrel'.
Qed.

(** The first part fills, the second fails. *)
Lemma andthen_fails m k bs e b z :
  Fills m bs -> zlen bs <= zlen (free z) -> Rep b z ->
  (forall b', Rep b' (push bs z) -> exists p, zlen p <= zlen (free (push bs z)) /\ does k b' (Some e) (push p (push bs z))) ->
  exists p, zlen p <= zlen (free z) /\ does (andthen m k) b (Some e) (push p z).
Proof.
  intros Hm Hr HR Hk. destruct (Hm b z HR Hr) as (b1 & Hrun & HR1). destruct (Hk b1 HR1) as (p & Hp & b2 & Hrun2 & HR2).
  rewrite free_push in Hp by done. exists (bs ++ p). rewrite zlen_app, <- push_app. split; [lia|]. exists b2. split; [|done].
  unfold andthen. by rewrite (bind_run _ _ _ _ _ Hrun).
Qed.

Lemma andthen_first m k e b z :
  (exists p, zlen p <= zlen (free z) /\ does m b (Some e) (push p z)) ->
  exists p, zlen p <= zlen (free z) /\ does (andthen m k) b (Some e) (push p z).
Proof.
  intros (p & Hp & b1 & Hrun & HR1). exists p. split; [done|]. exists b1. split; [|done].
  unfold andthen. by rewrite (bind_run _ _ _ _ _ Hrun).
Qed.

(** What WriteAddress rejects. *)
Definition rejected (s : Serializer) (a : Socksaddr) (e : error) : Prop :=
  familyByteMap s !! family_of a = None /\ e = ErrNew "unsupported address"
  \/ is_Some (familyByteMap s !! family_of a) /\ family_of a = AddressFamilyFqdn /\ zlen (sa_Fqdn a) > 255
     /\ e = ErrNew "fqdn too long".

Lemma WriteAddress_rejects s a e b z :
  rejected s a e -> Rep b z -> 1 <= zlen (free z) ->
  exists p, zlen p <= zlen (free z) /\ does (WriteAddress s a) b (Some e) (push p z).
Proof.
  intros [[Hf ->]|([fb Hf] & E & Hl & ->)] HR Hr; unfold WriteAddress; rewrite Hf.
  - apply (fails_ret _ b z HR).
  - apply (andthen_fails _ _ [fb] _ _ _ (fills_WriteByte fb) Hr HR). intros b' HR'.
    rewrite E, decide_False, decide_True by (by (intros [?|?]) || done). unfold WriteSocksString.
    rewrite decide_True by lia. apply (fails_ret _ b' _ HR').
Qed.

(** A Write of more than the room stores what fits and returns nil. *)
Lemma Write_partial p b z :
  Rep b z -> 0 < zlen (free z) <= zlen p ->
  does (errors_only (Write p)) b None (push (ztake (zlen (free z)) p) z).
Proof.
  intros HR Hr. pose proof (does_map _ snd _ _ _ (Write_does b z p HR)) as Hd. unfold write_step in Hd.
  rewrite decide_False in Hd by (unfold zlen in *; lia).
  rewrite decide_False, Z.min_l in Hd by lia. exact Hd.
Qed.

(** Errors of the encoder.  An unsupported family and a name longer than 255
    bytes are reported and nothing reaches the writer; but an empty address in
    the port-first format does not fit the buffer WriteAddrPort allocates for it,
    and a name that does not fit the caller's buffer is cut off without an error. *)
Theorem socksaddr_write_errors s junk :
  pool_ok junk ->
  (forall a e w, rejected s a e -> IsValid a = true -> AddrPortLen a <= maxAlloc ->
     WriteAddrPort_to s junk a w = Val (Some e, w))
  /\ (forall a w, portFirst s = true -> IsValid a = false -> is_Some (familyByteMap s !! family_of a) ->
     WriteAddrPort_to s junk a w = Val (Some ErrShortBuffer, w))
  /\ (forall a b z, encodable s a -> IsDomain a = true -> IsIP a = false -> Rep b z ->
     2 < zlen (free z) < zlen (encode_address s a) ->
     exists b', WriteAddress s a b = Val (None, b')
       /\ Rep b' (push (ztake (zlen (free z)) (encode_address s a)) z)).
Proof.
  intros Hj. split_and!.
  - intros a e w Hrej Hv Hmax. assert (AddressLen a >= 2) as Hlen.
    { unfold AddressLen. rewrite Hv. cbn [negb]. destruct (IsIPv4 a), (IsIPv6 a); pose proof (zlen_nonneg (sa_Fqdn a)); lia. }
    unfold WriteAddrPort_to. apply buffered_error; [apply _|done|unfold AddrPortLen in *; rewrite Hv in *; lia|].
    intros b z HR Hf. unfold AddrPortLen in Hf. rewrite Hv in Hf. unfold WriteAddrPort.
    assert (zlen (be 2 (sa_Port a)) = 2) as Hp by (unfold zlen; by rewrite length_be).
    destruct (portFirst s).
    + apply (andthen_fails _ _ (be 2 (sa_Port a))); [apply fills_write_be|lia|done|].
      intros b' HR'. apply WriteAddress_rejects; [done|done|]. rewrite free_push; lia.
    + apply andthen_first. apply WriteAddress_rejects; [done|done|lia].
  - intros a w Hpf Hv [fb Hf]. unfold WriteAddrPort_to. apply buffered_error; [apply _|done| |].
    { unfold AddrPortLen, AddressLen, maxAlloc. rewrite Hv. cbn. lia. }
    intros b z HR Hr. unfold AddrPortLen, AddressLen in Hr. rewrite Hv in Hr. cbn in Hr. unfold WriteAddrPort. rewrite Hpf.
    assert (zlen (be 2 (sa_Port a)) = 2) as Hp by (unfold zlen; by rewrite length_be).
    destruct (Write_partial (be 2 (sa_Port a)) b z HR ltac:(lia)) as (b1 & Hrun & HR1).
    set (p := ztake (zlen (free z)) (be 2 (sa_Port a))) in *.
    assert (zlen p = 1) as Hp1 by (unfold p; rewrite zlen_ztake; lia).
    assert (zlen (free (push p z)) = 0) as Hz by (rewrite free_push; lia).
    pose proof (write_byte_does b1 _ fb _ eq_refl HR1) as (b2 & Hb2 & HR2). unfold write_all in Hb2, HR2.
    rewrite decide_False in Hb2, HR2 by (unfold zlen at 1; cbn [length]; lia). cbn [fst snd r_err] in Hb2, HR2.
    exists p. split; [lia|]. exists b2. split; [|done]. unfold andthen at 1. rewrite (bind_run _ _ _ _ _ Hrun).
    unfold WriteAddress. rewrite Hf. unfold andthen. by rewrite (bind_run _ _ _ _ _ Hb2).
  - intros a b z He Hd Hi HR Hr. pose proof (enc_fqdn _ _ He Hi) as (_ & Hl & _).
    destruct (enc_family _ _ He) as [fb Hfb]. revert Hr. unfold encode_address. rewrite Hi, Hd, Hfb, !zlen_cons.
    cbn [default from_option]. unfold id. intros Hr. unfold WriteAddress. rewrite Hfb.
    destruct (family_cases a) as [[_ Hv]|[(v & _ & Ha)|[(v & z' & _ & Ha)|(E & _ & Hne)]]].
    1: unfold IsValid in Hv; rewrite Hd, orb_true_r in Hv; done. 1-2: unfold IsIP in Hi; by rewrite Ha in Hi.
    rewrite E, decide_False, decide_True by (by (intros [?|?]) || done). unfold WriteSocksString.
    rewrite decide_False by lia. pose proof (zlen_nonneg (sa_Fqdn a)). rewrite u8_small by lia.
    assert (forall x : Z, zlen [x] = 1) as H1 by done.
    destruct (fills_WriteByte fb b z HR) as (b1 & Hb1 & HR1); [rewrite H1; lia|].
    assert (zlen (free (push [fb] z)) = zlen (free z) - 1) as F1 by (rewrite free_push, H1; rewrite ?H1; lia).
    destruct (fills_WriteByte (zlen (sa_Fqdn a)) b1 _ HR1) as (b2 & Hb2 & HR2); [rewrite H1, F1; lia|].
    assert (zlen (free (push [zlen (sa_Fqdn a)] (push [fb] z))) = zlen (free z) - 2) as F2.
    { rewrite free_push; rewrite F1, H1; lia. }
    destruct (Write_partial (sa_Fqdn a) b2 _ HR2 ltac:(lia)) as (b3 & Hb3 & HR3).
    exists b3. split.
    + unfold andthen at 1. rewrite (bind_run _ _ _ _ _ Hb1). unfold andthen. rewrite (bind_run _ _ _ _ _ Hb2). exact Hb3.
    + rewrite F2, !push_app in HR3.
      assert (ztake (zlen (free z)) (fb :: zlen (sa_Fqdn a) :: sa_Fqdn a) = ([fb] ++ [zlen (sa_Fqdn a)]) ++ ztake (zlen (free z) - 2) (sa_Fqdn a)) as ->; [|done].
      unfold ztake. replace (Z.to_nat (zlen (free z))) with (S (S (Z.to_nat (zlen (free z) - 2)))) by lia. done.
Qed.

(** ** What comes from the wire *)

#[export] Instance monotone_read_be n : Monotone (read_be n).
Proof. unfold read_be. apply _. Qed.
#[export] Instance monotone_caused {A} msg (m : reader -> result A * reader) : Monotone m -> Monotone (fun r => caused msg (m r)).
Proof.
  intros Hm bs e a bs' e' Hr. unfold caused in Hr. destruct (m (mkReader bs e)) as [[a1|] r1] eqn:E; [|done].
  injection Hr as -> ->. destruct (Hm _ _ _ _ _ E) as [-> Hm']. split; [done|]. intros rest e2. unfold caused. by rewrite Hm'.
Qed.
#[export] Instance monotone_ReadSockString : Monotone ReadSockString.
Proof. unfold ReadSockString. apply _. Qed.
#[export] Instance monotone_ReadAddress s : Monotone (ReadAddress s).
Proof.
  unfold ReadAddress. apply monotone_bind; [apply _|]. intros af. cbv zeta.
  do 4 (apply monotone_decide; [apply _|]). apply _.
Qed.
#[export] Instance monotone_ReadAddrPort s : Monotone (ReadAddrPort s).
Proof.
  unfold ReadAddrPort, ReadPort. apply monotone_if; [apply _|]. apply monotone_bind; [apply _|]. intros a.
  apply monotone_bind; [apply monotone_if|]; apply _.
Qed.

(** Input that ends inside an address is an error, whatever the error of the
    stream is: no proper prefix of an encoding is read as an address. *)
Theorem socksaddr_truncated s a p q e :
  lawful s -> encodable s a -> encode s a = p ++ q -> q <> [] ->
  exists err r, ReadAddrPort s (mkReader p e) = (Err err, r).
Proof. intros Hl He. pose proof (addr_codec s Hl). by apply codec_truncated. Qed.

Lemma rd_bind_inv {A B} (m : result A * reader) (k : A -> reader -> result B * reader) b r :
  rd_bind m k = (Ok b, r) -> exists a r1, m = (Ok a, r1) /\ k a r1 = (Ok b, r).
Proof. destruct m as [[a|] r1]; [|done]. intros H. by exists a, r1. Qed.
Lemma caused_inv {A} msg (m : result A * reader) a r : caused msg m = (Ok a, r) -> m = (Ok a, r).
Proof. destruct m as [[]]; [done|done]. Qed.

Lemma read_be_inv n bs e x r :
  bytes_ok bs -> read_be n (mkReader bs e) = (Ok x, r) ->
  0 <= x < 2 ^ (8 * Z.of_nat n) /\ exists bs', r = mkReader bs' e /\ bytes_ok bs'.
Proof.
  intros Hb (v & r1 & Hr & Hk)%rd_bind_inv. apply ReadFull_inv in Hr as (-> & Hl & ->). injection Hk as <- <-. split.
  - pose proof (unbe_range (take n bs) ltac:(by apply Forall_take)) as Hu. by rewrite Hl in Hu.
  - eexists. split; [done|]. by apply Forall_drop.
Qed.

Lemma bytes_ztake n bs : bytes_ok bs -> bytes_ok (ztake n bs).
Proof. apply Forall_take. Qed.
Lemma bytes_unwrap s : bytes_ok s -> bytes_ok (unwrapIPv6Address s).
Proof. intros Hs. unfold unwrapIPv6Address. destruct (decide _); [|done]. by apply bytes_ztake, Forall_drop. Qed.

(** A well-formed address: in range, never an IP address and a name at once. *)
Definition well_formed (a : Socksaddr) : Prop :=
  addr_ok (sa_Addr a) /\ 0 <= sa_Port a < 2 ^ 16 /\ bytes_ok (sa_Fqdn a) /\ zlen (sa_Fqdn a) <= 255
  /\ (sa_Addr a = AddrInvalid \/ sa_Fqdn a = []).

Lemma wf_addr a p : addr_ok a -> 0 <= p < 2 ^ 16 -> well_formed (mkAddr a p []).
Proof. intros Ha Hp. split; [done|]. split; [done|]. split; [constructor|]. split; [done|by right]. Qed.
Lemma wf_name f p : bytes_ok f -> zlen f <= 255 -> 0 <= p < 2 ^ 16 -> well_formed (mkAddr AddrInvalid p f).
Proof. intros Hb Hl Hp. split; [done|]. split; [done|]. split; [done|]. split; [done|by left]. Qed.

Lemma parse_well_formed host port :
  bytes_ok host -> zlen host <= 255 -> 0 <= port < 2 ^ 16 -> well_formed (ParseSocksaddrHostPort host port).
Proof.
  intros Hb Hl Hp. unfold ParseSocksaddrHostPort. destruct (GoNet.ParseAddr _) as [a|] eqn:E; [|by apply wf_name].
  apply ParseAddr_ok in E as [Ha _]; [|by apply bytes_unwrap]. by apply wf_addr.
Qed.

Lemma Unwrap_well_formed a : well_formed a -> well_formed (Unwrap a) /\ Is4In6 (sa_Addr (Unwrap a)) = false.
Proof.
  intros Hw. pose proof Hw as (Ha & Hp & _). unfold Unwrap. destruct (Is4In6 (sa_Addr a)) eqn:E; [|by split].
  split; [|done]. apply wf_addr; [|done]. destruct (sa_Addr a) as [| |v z]; try done.
  change (addr_ok (Addr4 (unbe (be 4 (v mod 2 ^ 32))))). unfold addr_ok. rewrite unbe_be by (apply Z.mod_pos_bound; lia). apply Z.mod_pos_bound. lia.
Qed.

Lemma ReadAddress_well_formed s bs e a r :
  bytes_ok bs -> ReadAddress s (mkReader bs e) = (Ok a, r) ->
  well_formed a /\ (exists bs', r = mkReader bs' e /\ bytes_ok bs')
  /\ (Is4In6 (sa_Addr a) = true ->
      exists fqdn, GoNet.ParseAddr (unwrapIPv6Address fqdn) = Some (sa_Addr a)).
Proof.
  intros Hb (af & r1 & Haf & Hk)%rd_bind_inv. apply read_be_inv in Haf as (_ & bs1 & -> & Hb1); [|done]. cbv zeta in Hk.
  destruct (decide (_ = AddressFamilyFqdn)); [|destruct (decide (_ = AddressFamilyIPv4)); [|destruct (decide (_ = AddressFamilyIPv6))]].
  - apply rd_bind_inv in Hk as (f & r2 & Hf%caused_inv & [= <- <-]).
    apply rd_bind_inv in Hf as (n & r3 & Hn & Hf). apply read_be_inv in Hn as (Hrange & bs3 & -> & Hb3); [|done].
    apply ReadFull_inv in Hf as (-> & Hl & ->). change (2 ^ (8 * Z.of_nat 1)) with 256 in Hrange.
    assert (bytes_ok (take (Z.to_nat n) bs3)) as Hbt by (by apply Forall_take). split_and!.
    + apply parse_well_formed; [done|unfold zlen; lia|lia].
    + eexists. split; [done|]. by apply Forall_drop.
    + unfold ParseSocksaddrHostPort. destruct (GoNet.ParseAddr _) as [v|] eqn:E; [|done]. cbn. intros _. by eexists.
  - apply rd_bind_inv in Hk as (f & r2 & Hf%caused_inv & [= <- <-]). apply ReadFull_inv in Hf as (-> & Hl & ->).
    split_and!; [|eexists; split; [done|]; by apply Forall_drop|done].
    apply wf_addr; [|lia]. pose proof (unbe_range (take 4 bs1) ltac:(by apply Forall_take)) as Hu. by rewrite Hl in Hu.
  - apply rd_bind_inv in Hk as (f & r2 & Hf%caused_inv & [= <- <-]). apply ReadFull_inv in Hf as (-> & Hl & ->).
    destruct (Unwrap_well_formed (mkAddr (AddrFrom16 (take 16 bs1)) 0 [])) as [Hw H46].
    { apply wf_addr; [|lia]. split; [|constructor].
      pose proof (unbe_range (take 16 bs1) ltac:(by apply Forall_take)) as Hu. by rewrite Hl in Hu. }
    split_and!; [done|eexists; split; [done|]; by apply Forall_drop|]. by rewrite H46.
  - destruct (decide _); [|done]. injection Hk as <- <-. split_and!; [by apply wf_addr|by eexists|done].
Qed.


(** ** host:port *)

(** Printing and parsing.  An IPv4 address, or a name without ':', '[' and ']'
    that is not an IP literal, with its port, is read back from what String
    prints; a port that does not fit 16 bits is cut to its low bits without an
    error. *)
Theorem socksaddr_string_roundtrip a :
  0 <= sa_Port a < 2 ^ 63 ->
  (exists v, 0 <= v < 2 ^ 32 /\ sa_Addr a = Addr4 v /\ sa_Fqdn a = [])
  \/ (sa_Addr a = AddrInvalid /\ colon ∉ sa_Fqdn a /\ lbracket ∉ sa_Fqdn a /\ rbracket ∉ sa_Fqdn a
      /\ GoNet.ParseAddr (sa_Fqdn a) = None) ->
  ParseSocksaddr (Socksaddr_String a) = with_Port (sa_Port a mod 2 ^ 16) a.
Proof.
  intros Hp Ha. unfold ParseSocksaddr, Socksaddr_String.
  assert (colon ∉ AddrString a /\ lbracket ∉ AddrString a /\ rbracket ∉ AddrString a
          /\ GoNet.ParseAddr (AddrString a) = (if GoNet.IsValid (sa_Addr a) then Some (sa_Addr a) else None)) as (H1 & H2 & H3 & H4).
  { unfold AddrString. destruct Ha as [(v & Hv & -> & _)|(-> & ?)]; [|done]. cbn [GoNet.IsValid Addr_String].
    rewrite ParseAddr_string4 by done. destruct (bytes_of_v4 v Hv) as [_ Hb].
    assert (forall c, ~ 48 <= c <= 57 -> c <> period -> c ∉ string4 v) as Hn.
    { intros c Hc Hne. unfold string4. rewrite !not_elem_of_app, !list_elem_of_singleton.
      assert (forall i, c ∉ Itoa (byte_of 4 v i)) as Hi by (intros i; apply Itoa_no_char; [specialize (Hb i); lia|done]).
      by repeat split. }
    split_and!; try done; apply Hn; unfold colon, lbracket, rbracket, period; lia. }
  rewrite Split_Join by done. unfold ParseSocksaddrHostPortStr. rewrite Atoi_Itoa by done.
  assert (unwrapIPv6Address (AddrString a) = AddrString a) as ->.
  { unfold unwrapIPv6Address. destruct (decide _) as [(_ & Hl & _)|]; [|done]. exfalso. apply H2.
    unfold at_ in Hl. rewrite decide_True in Hl by lia. by apply (list_elem_of_lookup_2 _ (Z.to_nat 0)). }
  rewrite H4. unfold with_Port, u16. destruct Ha as [(v & Hv & Hva & Hf)|(Hva & _)].
  - rewrite Hva, Hf. done.
  - unfold AddrString. by rewrite Hva.
Qed.

(** ** Witnesses *)

Definition some_name : Socksaddr := mkAddr AddrInvalid 443 (str "example.org").
Definition some_v4 : Socksaddr := mkAddr (Addr4 0x7f000001) 8080 [].
(** A port-first serializer that knows the empty family. *)
Definition port_first : Serializer := NewSerializer [PortThenAddress; AddressFamilyByte 0xff AddressFamilyEmpty].

Lemma some_name_ok : encodable SocksaddrSerializer some_name.
Proof. split; [by eexists|done|done|done| |done]. intros _. split_and!; [by apply (bool_decide_eq_true_1 _)|done|done]. Qed.

Lemma socksaddr_roundtrip_witness :
  zlen (encode SocksaddrSerializer some_name) = AddrPortLen some_name /\ AddrPortLen some_name <= MaxSocksaddrLength
  /\ (forall b z, Rep b z -> AddrPortLen some_name <= zlen (free z) ->
       exists b', WriteAddrPort SocksaddrSerializer some_name b = Val (None, b')
         /\ Rep b' (push (encode SocksaddrSerializer some_name) z))
  /\ (forall w, WriteAddrPort_to SocksaddrSerializer sevens some_name w = Val (WriteBytes (encode SocksaddrSerializer some_name) w))
  /\ (forall rest e, ReadAddrPort SocksaddrSerializer (mkReader (encode SocksaddrSerializer some_name ++ rest) e)
       = (Ok some_name, mkReader rest e)).
Proof.
  apply (socksaddr_roundtrip SocksaddrSerializer some_name sevens);
    [exact SocksaddrSerializer_lawful|exact some_name_ok|exact sevens_ok|reflexivity].
Defined.

Lemma socksaddr_write_errors_witness :
  (forall w, WriteAddrPort_to AddrParser sevens (mkAddr AddrInvalid 80 (replicate 256 97)) w
     = Val (Some (ErrNew "fqdn too long"), w))
  /\ (forall w, WriteAddrPort_to port_first sevens zeroAddr w = Val (Some ErrShortBuffer, w)).
Proof.
  destruct (socksaddr_write_errors AddrParser sevens sevens_ok) as (H1 & _ & _).
  destruct (socksaddr_write_errors port_first sevens sevens_ok) as (_ & H2 & _). split.
  - intros w. apply (H1 (mkAddr AddrInvalid 80 (replicate 256 97))); [|reflexivity|vm_compute; discriminate].
    right. split_and!; [by eexists|reflexivity|vm_compute; reflexivity|reflexivity].
  - intros w. apply H2; [reflexivity|reflexivity|by eexists].
Defined.

Lemma socksaddr_truncated_witness :
  exists err r, ReadAddrPort SocksaddrSerializer (mkReader (take 5 (encode SocksaddrSerializer some_name)) EOF) = (Err err, r).
Proof.
  apply (socksaddr_truncated SocksaddrSerializer some_name (take 5 (encode SocksaddrSerializer some_name))
    (drop 5 (encode SocksaddrSerializer some_name)) EOF);
    [exact SocksaddrSerializer_lawful|exact some_name_ok|symmetry; apply take_drop|vm_compute; discriminate].
Defined.

Definition some_wire : list Z := [1; 10; 0; 0; 1; 0; 80; 7].

Lemma socksaddr_string_roundtrip_witness :
  ParseSocksaddr (Socksaddr_String some_v4) = some_v4
  /\ ParseSocksaddr (Socksaddr_String (with_Port 65616 some_name)) = with_Port 80 some_name.
Proof.
  split.
  - apply (socksaddr_string_roundtrip some_v4); [vm_compute; split; discriminate || reflexivity|].
    left. exists 0x7f000001. split_and!; [vm_compute; discriminate|reflexivity|reflexivity|reflexivity].
  - apply (socksaddr_string_roundtrip (with_Port 65616 some_name)); [vm_compute; split; discriminate || reflexivity|].
    right. split_and!; [reflexivity|apply (bool_decide_eq_true_1 _); reflexivity..|reflexivity].
Defined.
