(* ===== verification/Socks5.v ===== *)
(** * SOCKS5: protocol/socks/socks5/protocol.go

    The six messages of RFC 1928 and RFC 1929, each with its writer and reader.
    A writer builds the message in a buffer; common.Must makes its errors panics. *)

From S2P Require Import Prelude GoIO GoNet BufWriter Metadata.
From S2P Require Buf.
#[local] Open Scope go_scope.

Definition Version : Z := 5.
Definition AuthTypeNotRequired : Z := 0x00.
Definition AuthTypeGSSAPI : Z := 0x01.
Definition AuthTypeUsernamePassword : Z := 0x02.
Definition AuthTypeNoAcceptedMethods : Z := 0xFF.
Definition UsernamePasswordStatusSuccess : Z := 0x00.
Definition UsernamePasswordStatusFailure : Z := 0x01.
Definition CommandConnect : Z := 0x01.
Definition CommandBind : Z := 0x02.
Definition CommandUDPAssociate : Z := 0x03.
Definition ReplyCodeSuccess : Z := 0.
Definition ReplyCodeFailure : Z := 1.
Definition ReplyCodeNotAllowed : Z := 2.
Definition ReplyCodeNetworkUnreachable : Z := 3.
Definition ReplyCodeHostUnreachable : Z := 4.
Definition ReplyCodeConnectionRefused : Z := 5.
Definition ReplyCodeTTLExpired : Z := 6.
Definition ReplyCodeUnsupported : Z := 7.
Definition ReplyCodeAddressTypeUnsupported : Z := 8.

(** The error numbers of Linux. *)
Definition EPERM : error := ErrErrno 1.
Definition ENETUNREACH : error := ErrErrno 101.
Definition ECONNREFUSED : error := ErrErrno 111.
Definition EHOSTUNREACH : error := ErrErrno 113.

Definition ReplyCodeForError (err : error) : Z :=
  if errors_Is err ENETUNREACH then ReplyCodeNetworkUnreachable
  else if errors_Is err EHOSTUNREACH then ReplyCodeHostUnreachable
  else if errors_Is err ECONNREFUSED then ReplyCodeConnectionRefused
  else if errors_Is err EPERM then ReplyCodeNotAllowed
  else ReplyCodeFailure.

(** [version, err := reader.ReadByte()] and the check that it is [v]. *)
Definition expect (v : Z) (msg : string) (r : reader) : result unit * reader :=
  rd_bind (ReadByte r) (fun version r =>
  if decide (version <> v) then (Err (ErrNew (msg ++ text (Itoa version))%string), r) else (Ok tt, r)).

(** ** Authentication *)

Record AuthRequest := mkAuthRequest { ar_Methods : list Z }.

Definition WriteAuthRequest (junk : Z -> list Z) (request : AuthRequest) (w : writer) : outcome (option error * writer) :=
  buffered junk (zlen (ar_Methods request) + 2)
    (Must [Buf.WriteByte Version; Buf.WriteByte (u8 (zlen (ar_Methods request)));
           errors_only (Buf.Write (ar_Methods request))] ;; ret None) w.

Definition ReadAuthRequest0 (r : reader) : result AuthRequest * reader :=
  rd_bind (ReadByte r) (fun methodLen r =>
  rd_bind (ReadFull (Z.to_nat methodLen) r) (fun methods r => (Ok (mkAuthRequest methods), r))).
Definition ReadAuthRequest (r : reader) : result AuthRequest * reader :=
  rd_bind (expect Version "expected socks version 5, got " r) (fun _ r => ReadAuthRequest0 r).

Record AuthResponse := mkAuthResponse { ap_Method : Z }.

Definition WriteAuthResponse (response : AuthResponse) (w : writer) : outcome (option error * writer) :=
  Val (WriteBytes [Version; ap_Method response] w).
Definition ReadAuthResponse (r : reader) : result AuthResponse * reader :=
  rd_bind (expect Version "expected socks version 5, got " r) (fun _ r =>
  rd_bind (ReadByte r) (fun method r => (Ok (mkAuthResponse method), r))).

Record UsernamePasswordAuthRequest := mkUserPass { up_Username : list Z; up_Password : list Z }.

Definition WriteUsernamePasswordAuthRequest (junk : Z -> list Z) (request : UsernamePasswordAuthRequest) (w : writer)
    : outcome (option error * writer) :=
  buffered junk (3 + zlen (up_Username request) + zlen (up_Password request))
    (Must [Buf.WriteByte 1; WriteSocksString (up_Username request); WriteSocksString (up_Password request)] ;; ret None) w.
Definition ReadUsernamePasswordAuthRequest (r : reader) : result UsernamePasswordAuthRequest * reader :=
  rd_bind (expect 1 "excepted password request version 1, got " r) (fun _ r =>
  rd_bind (ReadSockString r) (fun username r =>
  rd_bind (ReadSockString r) (fun password r => (Ok (mkUserPass username password), r)))).

Record UsernamePasswordAuthResponse := mkUserPassResponse { ur_Status : Z }.

Definition WriteUsernamePasswordAuthResponse (response : UsernamePasswordAuthResponse) (w : writer)
    : outcome (option error * writer) :=
  Val (WriteBytes [1; ur_Status response] w).
Definition ReadUsernamePasswordAuthResponse (r : reader) : result UsernamePasswordAuthResponse * reader :=
  rd_bind (expect 1 "excepted password request version 1, got " r) (fun _ r =>
  rd_bind (ReadByte r) (fun status r => (Ok (mkUserPassResponse status), r))).

(** ** Requests *)

Record Request := mkRequest { rq_Command : Z; rq_Destination : Socksaddr }.

Definition WriteRequest (junk : Z -> list Z) (request : Request) (w : writer) : outcome (option error * writer) :=
  buffered junk (3 + AddrPortLen (rq_Destination request))
    (Must [Buf.WriteByte Version; Buf.WriteByte (rq_Command request); Buf.WriteZero] ;;
     WriteAddrPort SocksaddrSerializer (rq_Destination request)) w.
Definition ReadRequest (r : reader) : result Request * reader :=
  rd_bind (expect Version "expected socks version 5, got " r) (fun _ r =>
  rd_bind (ReadByte r) (fun command r =>
  rd_bind (ReadByte r) (fun _ r =>
  rd_bind (ReadAddrPort SocksaddrSerializer r) (fun destination r => (Ok (mkRequest command destination), r))))).

Record Response := mkResponse { rs_ReplyCode : Z; rs_Bind : Socksaddr }.

(** The address a response is written with. *)
Definition bind_of (response : Response) : Socksaddr :=
  if IsValid (rs_Bind response) then rs_Bind response else mkAddr (Addr4 0) 0 [].
Definition WriteResponse (junk : Z -> list Z) (response : Response) (w : writer) : outcome (option error * writer) :=
  let bind := bind_of response in
  buffered junk (3 + AddrPortLen bind)
    (Must [Buf.WriteByte Version; Buf.WriteByte (rs_ReplyCode response); Buf.WriteZero] ;;
     WriteAddrPort SocksaddrSerializer bind) w.
Definition ReadResponse (r : reader) : result Response * reader :=
  rd_bind (expect Version "expected socks version 5, got " r) (fun _ r =>
  rd_bind (ReadByte r) (fun replyCode r =>
  rd_bind (ReadByte r) (fun _ r =>
  rd_bind (ReadAddrPort SocksaddrSerializer r) (fun bind r => (Ok (mkResponse replyCode bind), r))))).
