(* ===== verification/Socks5Theorems.v ===== *)
(** * SOCKS5: the messages survive the wire *)

From S2P Require Import Prelude Buf BufTheorems BufWriter GoIO GoNet GoNetTheorems Metadata MetadataTheorems Socks5.
#[local] Open Scope go_scope.

#[export] Typeclasses Opaque expect.

(** ** Reading *)

Lemma ReadByte_cons b rest e : ReadByte (mkReader (b :: rest) e) = (Ok b, mkReader rest e).
Proof. done. Qed.

Lemma expect_ok v msg rest e : expect v msg (mkReader (v :: rest) e) = (Ok tt, mkReader rest e).
Proof. unfold expect. rewrite ReadByte_cons, rd_bind_Ok. by rewrite decide_False by tauto. Qed.

Lemma expect_other v b msg rest e :
  b <> v -> expect v msg (mkReader (b :: rest) e) = (Err (ErrNew (msg ++ text (Itoa b))%string), mkReader rest e).
Proof. intros Hb. unfold expect. rewrite ReadByte_cons, rd_bind_Ok. by rewrite decide_True. Qed.

#[export] Instance monotone_expect v msg : Monotone (expect v msg).
Proof.
  unfold expect. apply monotone_bind; [apply _|]. intros version. apply monotone_decide; apply _.
Qed.

(** ** The bytes of the messages *)

Definition enc_AuthRequest (m : AuthRequest) : list Z := Version :: zlen (ar_Methods m) :: ar_Methods m.
Definition enc_AuthResponse (m : AuthResponse) : list Z := [Version; ap_Method m].
Definition enc_UserPass (m : UsernamePasswordAuthRequest) : list Z :=
  1 :: (zlen (up_Username m) :: up_Username m) ++ zlen (up_Password m) :: up_Password m.
Definition enc_UserPassResponse (m : UsernamePasswordAuthResponse) : list Z := [1; ur_Status m].
Definition enc_Request (m : Request) : list Z :=
  Version :: rq_Command m :: 0 :: encode SocksaddrSerializer (rq_Destination m).
Definition enc_Response (m : Response) : list Z :=
  Version :: rs_ReplyCode m :: 0 :: encode SocksaddrSerializer (bind_of m).

Definition userpass_ok (m : UsernamePasswordAuthRequest) : Prop :=
  zlen (up_Username m) <= 255 /\ zlen (up_Password m) <= 255.
Definition address_ok (a : Socksaddr) : Prop := encodable SocksaddrSerializer a /\ IsValid a = true.

(** *** Writers *)

Lemma fills_message ms bss : Forall2 Fills ms bss -> Fills (Must ms ;; ret None) (concat bss).
Proof. intros H. rewrite <- (app_nil_r (concat bss)). apply fills_Must; [done|apply fills_nil]. Qed.

#[export] Instance keeps_then {B} (m : GoM Buffer unit) (k : GoM Buffer B) : KeepsOwner m -> KeepsOwner k -> KeepsOwner (m ;; k).
Proof. intros Hm Hk. apply keeps_bind; [done|by intros _]. Qed.

Section Writers.
Context (junk : Z -> list Z) (Hj : pool_ok junk).

Lemma WriteAuthRequest_spec m w :
  zlen (ar_Methods m) <= 255 -> WriteAuthRequest junk m w = Val (WriteBytes (enc_AuthRequest m) w).
Proof.
  intros Hl. unfold WriteAuthRequest. pose proof (zlen_nonneg (ar_Methods m)). rewrite u8_small by lia.
  apply buffered_fills; [apply _|done|unfold maxAlloc; lia| |unfold enc_AuthRequest; rewrite !zlen_cons; lia].
  assert (enc_AuthRequest m = concat [[Version]; [zlen (ar_Methods m)]; ar_Methods m]) as ->.
  { cbn. by rewrite app_nil_r. }
  apply fills_message. repeat constructor; auto with fills.
Qed.

Lemma WriteUserPass_spec m w :
  userpass_ok m -> WriteUsernamePasswordAuthRequest junk m w = Val (WriteBytes (enc_UserPass m) w).
Proof.
  intros [Hu Hp]. unfold WriteUsernamePasswordAuthRequest.
  pose proof (zlen_nonneg (up_Username m)). pose proof (zlen_nonneg (up_Password m)).
  apply buffered_fills; [apply _|done|unfold maxAlloc; lia| |unfold enc_UserPass; rewrite !zlen_cons, zlen_app, !zlen_cons; lia].
  assert (enc_UserPass m = concat [[1]; zlen (up_Username m) :: up_Username m; zlen (up_Password m) :: up_Password m]) as ->.
  { cbn. by rewrite app_nil_r. }
  apply fills_message. repeat constructor; auto using fills_WriteByte, fills_SocksString.
Qed.

Lemma write_addressed v c a w :
  address_ok a ->
  buffered junk (3 + AddrPortLen a)
    (Must [Buf.WriteByte v; Buf.WriteByte c; Buf.WriteZero] ;; WriteAddrPort SocksaddrSerializer a) w
  = Val (WriteBytes (v :: c :: 0 :: encode SocksaddrSerializer a) w).
Proof.
  intros [He Hv]. pose proof (encode_length SocksaddrSerializer a) as Hl. cbn [portFirst] in Hl.
  rewrite Hv, andb_false_r, Z.add_0_r in Hl. pose proof (encode_max _ _ He). pose proof (zlen_nonneg (encode SocksaddrSerializer a)).
  unfold MaxSocksaddrLength in *.
  apply buffered_fills; [apply _|done|unfold maxAlloc; lia| |rewrite !zlen_cons; lia].
  change (v :: c :: 0 :: encode SocksaddrSerializer a) with (concat [[v]; [c]; [0]] ++ encode SocksaddrSerializer a).
  apply fills_Must; [|by apply fills_WriteAddrPort]. repeat constructor; auto with fills.
Qed.

Lemma bind_ok m : (IsValid (rs_Bind m) = true -> address_ok (rs_Bind m)) -> address_ok (bind_of m).
Proof.
  unfold bind_of. destruct (IsValid (rs_Bind m)); [by auto|]. intros _. split; [|done].
  by split.
Qed.
End Writers.

(** *** Readers *)

Lemma ReadAuthRequest0_spec m rest e :
  ReadAuthRequest0 (mkReader (zlen (ar_Methods m) :: ar_Methods m ++ rest) e) = (Ok m, mkReader rest e).
Proof.
  unfold ReadAuthRequest0. rewrite ReadByte_cons, rd_bind_Ok, (ReadFull_app' _ (ar_Methods m)) by (unfold zlen; lia).
  by destruct m.
Qed.

Lemma ReadUserPass_spec m rest e :
  userpass_ok m -> ReadUsernamePasswordAuthRequest (mkReader (enc_UserPass m ++ rest) e) = (Ok m, mkReader rest e).
Proof.
  intros [Hu Hp]. unfold ReadUsernamePasswordAuthRequest, enc_UserPass. cbn [app].
  rewrite expect_ok, rd_bind_Ok, <- app_assoc. rewrite ReadSockString_spec by done. rewrite rd_bind_Ok. cbn [app].
  rewrite ReadSockString_spec by done. by destruct m.
Qed.

Lemma ReadRequest_spec m rest e :
  encodable SocksaddrSerializer (rq_Destination m) -> ReadRequest (mkReader (enc_Request m ++ rest) e) = (Ok m, mkReader rest e).
Proof.
  intros He. unfold ReadRequest, enc_Request. cbn [app]. rewrite expect_ok, rd_bind_Ok, ReadByte_cons, rd_bind_Ok, ReadByte_cons, rd_bind_Ok.
  rewrite ReadAddrPort_spec by (done || apply SocksaddrSerializer_lawful). by destruct m.
Qed.

Lemma ReadResponse_spec m rest e :
  address_ok (bind_of m) ->
  ReadResponse (mkReader (enc_Response m ++ rest) e) = (Ok (mkResponse (rs_ReplyCode m) (bind_of m)), mkReader rest e).
Proof.
  intros [He _]. unfold ReadResponse, enc_Response. cbn [app]. rewrite expect_ok, rd_bind_Ok, ReadByte_cons, rd_bind_Ok, ReadByte_cons, rd_bind_Ok.
  by rewrite ReadAddrPort_spec by (done || apply SocksaddrSerializer_lawful).
Qed.

(** ** The properties *)

(** C31: Every SOCKS5 message survives the wire: method offers of at most 255 methods,
    method choices, credentials of at most 255 bytes each, their verdict, and
    requests and responses with a plain address (an invalid bind address is sent
    as 0.0.0.0:0) are written without panic as exactly their bytes, and read
    back with what follows left alone. *)
Theorem socks5_messages_roundtrip junk rest e w :
  pool_ok junk ->
  (forall m, zlen (ar_Methods m) <= 255 ->
     WriteAuthRequest junk m w = Val (WriteBytes (enc_AuthRequest m) w)
     /\ ReadAuthRequest (mkReader (enc_AuthRequest m ++ rest) e) = (Ok m, mkReader rest e))
  /\ (forall m, WriteAuthResponse m w = Val (WriteBytes (enc_AuthResponse m) w)
     /\ ReadAuthResponse (mkReader (enc_AuthResponse m ++ rest) e) = (Ok m, mkReader rest e))
  /\ (forall m, userpass_ok m ->
     WriteUsernamePasswordAuthRequest junk m w = Val (WriteBytes (enc_UserPass m) w)
     /\ ReadUsernamePasswordAuthRequest (mkReader (enc_UserPass m ++ rest) e) = (Ok m, mkReader rest e))
  /\ (forall m, WriteUsernamePasswordAuthResponse m w = Val (WriteBytes (enc_UserPassResponse m) w)
     /\ ReadUsernamePasswordAuthResponse (mkReader (enc_UserPassResponse m ++ rest) e) = (Ok m, mkReader rest e))
  /\ (forall m, address_ok (rq_Destination m) ->
     WriteRequest junk m w = Val (WriteBytes (enc_Request m) w)
     /\ ReadRequest (mkReader (enc_Request m ++ rest) e) = (Ok m, mkReader rest e))
  /\ (forall m, (IsValid (rs_Bind m) = true -> address_ok (rs_Bind m)) ->
     WriteResponse junk m w = Val (WriteBytes (enc_Response m) w)
     /\ ReadResponse (mkReader (enc_Response m ++ rest) e) = (Ok (mkResponse (rs_ReplyCode m) (bind_of m)), mkReader rest e)).
Proof.
  intros Hj. split_and!.
  - intros m Hl. split; [by apply WriteAuthRequest_spec|]. unfold ReadAuthRequest, enc_AuthRequest. cbn [app].
    by rewrite expect_ok, rd_bind_Ok, ReadAuthRequest0_spec.
  - intros m. split; [done|]. unfold ReadAuthResponse, enc_AuthResponse. cbn [app]. rewrite expect_ok. by destruct m.
  - intros m Hm. split; [by apply WriteUserPass_spec|by apply ReadUserPass_spec].
  - intros m. split; [done|]. unfold ReadUsernamePasswordAuthResponse, enc_UserPassResponse. cbn [app].
    rewrite expect_ok. by destruct m.
  - intros m Hm. split; [by apply write_addressed|]. by apply ReadRequest_spec, Hm.
  - intros m Hm. apply bind_ok in Hm. split; [by apply write_addressed|by apply ReadResponse_spec].
Qed.

(** *** What the writers cannot take *)

(** The encoder of credentials panics on a user name longer than 255 bytes, and
    the encoder of method offers writes a wrong count, without an error, for
    more than 255 methods: the bytes cannot be read back. *)
Theorem socks5_writer_limits junk w :
  pool_ok junk ->
  (forall u p, 255 < zlen u -> zlen u + zlen p <= maxAlloc - 3 -> zlen p <= 255 ->
     WriteUsernamePasswordAuthRequest junk (mkUserPass u p) w = Panic)
  /\ (forall ms, 255 < zlen ms <= maxAlloc - 2 ->
     WriteAuthRequest junk (mkAuthRequest ms) w = Val (WriteBytes (Version :: u8 (zlen ms) :: ms) w)
     /\ forall rest e, ReadAuthRequest (mkReader (Version :: u8 (zlen ms) :: ms ++ rest) e) <> (Ok (mkAuthRequest ms), mkReader rest e)).
Proof.
  intros Hj. split.
  - intros u p Hu Hmax Hp. unfold WriteUsernamePasswordAuthRequest, buffered. cbn [up_Username up_Password].
    pose proof (zlen_nonneg p). destruct (NewSize_fresh junk (3 + zlen u + zlen p) Hj ltac:(lia)) as (b & z & Hnew & HR & _ & _ & Hf & _).
    rewrite Hnew. cbn [obind].
    assert (((Must [Buf.WriteByte 1; WriteSocksString u; WriteSocksString p] ;; ret None) : W) b = Panic) as ->; [|done].
    destruct (fills_WriteByte 1 b z HR ltac:(change (zlen [1]) with 1; lia)) as (b1 & Hb1 & HR1).
    unfold Must. cbn [evaluate]. rewrite !bind_bind, (bind_run _ _ _ _ _ Hb1), !bind_bind.
    assert (WriteSocksString u = ret (Some (ErrNew "fqdn too long"))) as ->.
    { unfold WriteSocksString. by rewrite decide_True by lia. }
    rewrite bind_ret, !bind_bind.
    destruct (fills_SocksString p Hp b1 _ HR1) as (b2 & Hb2 & _).
    { rewrite zlen_cons, free_push by (change (zlen [1]) with 1; lia). change (zlen [1]) with 1. lia. }
    rewrite (bind_run _ _ _ _ _ Hb2), !bind_bind, !bind_ret. unfold bind. rewrite decide_True; [done|].
    right. by left.
  - intros ms Hms. split.
    + unfold WriteAuthRequest. cbn [ar_Methods].
      apply buffered_fills; [apply _|done|lia| |rewrite !zlen_cons; lia].
      assert (Version :: u8 (zlen ms) :: ms = concat [[Version]; [u8 (zlen ms)]; ms]) as ->.
      { cbn. by rewrite app_nil_r. }
      apply fills_message. repeat constructor; auto with fills.
    + intros rest e. unfold ReadAuthRequest. rewrite expect_ok, rd_bind_Ok. unfold ReadAuthRequest0.
      rewrite ReadByte_cons, rd_bind_Ok. intros (v & r1 & Hv & [= Hm Hr])%rd_bind_inv. subst.
      apply ReadFull_inv in Hv as (_ & Hl & _). pose proof (u8_is_byte (zlen ms)) as Hb. unfold is_byte, zlen in *. lia.
Qed.

(** ** Witnesses *)

Lemma some_address_ok : address_ok some_name.
Proof. split; [apply some_name_ok|done]. Qed.

Lemma socks5_messages_roundtrip_witness : let w := mkWriter [] 1000 EOF in
  WriteRequest sevens (mkRequest CommandConnect some_name) w
    = Val (WriteBytes (enc_Request (mkRequest CommandConnect some_name)) w)
  /\ ReadRequest (mkReader (enc_Request (mkRequest CommandConnect some_name) ++ [1; 2]) EOF)
    = (Ok (mkRequest CommandConnect some_name), mkReader [1; 2] EOF).
Proof.
  intros w. destruct (socks5_messages_roundtrip sevens [1; 2] EOF w sevens_ok) as (_ & _ & _ & _ & H & _).
  apply (H (mkRequest CommandConnect some_name)). exact some_address_ok.
Defined.

Lemma socks5_writer_limits_witness :
  WriteUsernamePasswordAuthRequest sevens (mkUserPass (replicate 256 97) []) (mkWriter [] 1000 EOF) = Panic.
Proof.
  destruct (socks5_writer_limits sevens (mkWriter [] 1000 EOF) sevens_ok) as (H & _).
  apply H; vm_compute; first [reflexivity|discriminate].
Defined.
