(* ===== verification/Socks4.v ===== *)
(** * SOCKS4: protocol/socks/socks4/protocol.go

    Requests and responses of SOCKS4 and SOCKS4A, where a name follows the user
    name and the address is 0.0.0.x. *)

From S2P Require Import Prelude GoIO GoNet BufWriter Metadata Socks5.
From S2P Require Buf.
#[local] Open Scope go_scope.

Definition Version : Z := 4.
Definition CommandConnect : Z := 1.
Definition CommandBind : Z := 2.
Definition ReplyCodeGranted : Z := 90.
Definition ReplyCodeRejectedOrFailed : Z := 91.
Definition ReplyCodeCannotConnectToIdentd : Z := 92.
Definition ReplyCodeIdentdReportDifferentUserID : Z := 93.

(** [readString]: up to the next NUL; every round reads a byte. *)
Fixpoint read_string (fuel : nat) (acc : list Z) (r : reader) : outcome (result (list Z) * reader) :=
  match fuel with
  | O => OutOfFuel
  | S f =>
      match ReadByte r with
      | (Err e, r) => Val (Err e, r)
      | (Ok b, r) =>
          if decide (b = 0) then Val (Ok acc, r)
          else if decide (zlen (acc ++ [b]) > 255) then Val (Err (ErrNew "string too long"), r)
          else read_string f (acc ++ [b]) r
      end
  end.
Definition readString (r : reader) : outcome (result (list Z) * reader) := read_string 257 [] r.

Record Request := mkRequest { rq_Command : Z; rq_Destination : Socksaddr; rq_Username : list Z }.

(** E.Cause around a failing [readString]. *)
Definition caused_by (msg : string) (m : outcome (result (list Z) * reader)) : outcome (result (list Z) * reader) :=
  let! p := m in Val (caused msg p).

Definition ReadRequest0 (r : reader) : outcome (result Request * reader) :=
  obindr (Val (ReadByte r)) (fun command r =>
  obindr (Val (read_be 2 r)) (fun port r =>
  obindr (Val (ReadFull 4 r)) (fun dstIP r =>
  let readHostName := bool_decide (take 3 dstIP = [0; 0; 0] /\ dstIP !! 3%nat <> Some 0) in
  obindr (caused_by "reading username" (readString r)) (fun username r =>
  if readHostName then
    obindr (caused_by "reading hostname" (readString r)) (fun fqdn r =>
    Val (Ok (mkRequest command (Unwrap (ParseSocksaddrHostPort fqdn port)) username), r))
  else Val (Ok (mkRequest command (mkAddr (AddrFrom4 dstIP) port []) username), r))))).

Definition ReadRequest (r : reader) : outcome (result Request * reader) :=
  obindr (Val (expect 4 "excepted socks version 4, got " r)) (fun _ r => ReadRequest0 r).

Definition request_len (request : Request) : Z :=
  1 + 1 + 2 + 4 + 1
    + (if IsIPv4 (rq_Destination request) then 0 else zlen (AddrString (rq_Destination request)) + 1)
    + (if decide (rq_Username request = []) then 0 else zlen (rq_Username request)).

(** common.Must1 and common.Must of one call. *)
Definition must (m : W) (k : W) : W := Must [m] ;; k.

Definition WriteRequest (junk : Z -> list Z) (request : Request) (w : writer) : outcome (option error * writer) :=
  let destination := rq_Destination request in
  buffered junk (request_len request)
    (Must [Buf.WriteByte Version; Buf.WriteByte (rq_Command request); write_be 2 (sa_Port destination)] ;;
     (if IsIPv4 destination then Must [errors_only (Buf.Write (AsSlice (sa_Addr destination)))]
      else Must [Buf.WriteZeroN 3] ;; Must [Buf.WriteByte 1]) ;;
     let rest :=
       must Buf.WriteZero
         (if negb (IsIPv4 destination) then
            if decide (zlen (AddrString destination) > 255) then ret (Some (ErrNew "destination hostname too long"))
            else must (errors_only (Buf.WriteString (AddrString destination))) (must Buf.WriteZero (ret None))
          else ret None) in
     if decide (rq_Username request <> []) then
       if decide (zlen (rq_Username request) > 255) then ret (Some (ErrNew "username too long"))
       else must (errors_only (Buf.WriteString (rq_Username request))) rest
     else rest) w.

Record Response := mkResponse { rs_ReplyCode : Z; rs_Destination : Socksaddr }.

Definition ReadResponse (r : reader) : result Response * reader :=
  rd_bind (expect 0 "excepted socks4 response version 0, got " r) (fun _ r =>
  rd_bind (ReadByte r) (fun replyCode r =>
  rd_bind (read_be 2 r) (fun port r =>
  rd_bind (ReadFull 4 r) (fun dstIP r => (Ok (mkResponse replyCode (mkAddr (AddrFrom4 dstIP) port [])), r))))).

Definition WriteResponse (junk : Z -> list Z) (response : Response) (w : writer) : outcome (option error * writer) :=
  buffered junk 8
    (Must [Buf.WriteByte 0; Buf.WriteByte (rs_ReplyCode response); write_be 2 (sa_Port (rs_Destination response));
           errors_only (Buf.Write (AsSlice (sa_Addr (rs_Destination response))))] ;; ret None) w.
