(* ===== verification/Socks4Theorems.v ===== *)
(** * SOCKS4: the messages, and the rejection nobody can read *)

From S2P Require Import Prelude Buf BufTheorems BufWriter GoIO GoNet GoNetTheorems Metadata MetadataTheorems Socks5 Socks5Theorems Socks4.
#[local] Open Scope go_scope.

(** ** Strings up to a NUL *)

Lemma read_string_spec fuel acc s rest e :
  0 ∉ s -> zlen acc + zlen s <= 255 -> (length s < fuel)%nat ->
  read_string fuel acc (mkReader (s ++ 0 :: rest) e) = Val (Ok (acc ++ s), mkReader rest e).
Proof.
  revert acc s. induction fuel as [|f IH]; intros acc s Hs Hl Hf; [lia|]. cbn [read_string].
  destruct s as [|b s]; cbn [app]; rewrite ReadByte_cons.
  - rewrite decide_True by done. by rewrite app_nil_r.
  - apply not_elem_of_cons in Hs as [Hb Hs]. rewrite zlen_cons in Hl. pose proof (zlen_nonneg s).
    rewrite decide_False by congruence. rewrite decide_False by (rewrite zlen_app; unfold zlen at 2; cbn [length]; lia).
    cbn [length] in Hf. rewrite IH; [by rewrite <- app_assoc|done| |lia].
    rewrite zlen_app. unfold zlen at 2. cbn [length]. lia.
Qed.

Lemma readString_spec s rest e :
  0 ∉ s -> zlen s <= 255 -> readString (mkReader (s ++ 0 :: rest) e) = Val (Ok s, mkReader rest e).
Proof. intros Hs Hl. unfold readString. apply read_string_spec; [done|done|unfold zlen in Hl; lia]. Qed.

(** The loop always ends: a string that is too long is an error. *)
Lemma read_string_total fuel acc r :
  (256 < fuel + length acc)%nat -> (length acc <= 255)%nat -> exists p, read_string fuel acc r = Val p.
Proof.
  revert acc r. induction fuel as [|f IH]; intros acc r Hf Ha; [lia|]. cbn [read_string].
  destruct (ReadByte r) as [[b|] r1]; [|by eexists]. destruct (decide (b = 0)); [by eexists|].
  destruct (decide _) as [|Hl]; [by eexists|]. unfold zlen in Hl. rewrite length_app in Hl. cbn [length] in Hl.
  apply IH; rewrite length_app; cbn [length]; lia.
Qed.

(** ** Requests *)

Definition enc_Request (m : Request) : list Z :=
  [Version; rq_Command m] ++ be 2 (sa_Port (rq_Destination m))
    ++ (if IsIPv4 (rq_Destination m) then AsSlice (sa_Addr (rq_Destination m)) else [0; 0; 0; 1])
    ++ rq_Username m ++ [0]
    ++ (if IsIPv4 (rq_Destination m) then [] else AddrString (rq_Destination m) ++ [0]).

Record request_fits (m : Request) : Prop := {
  rf_user : zlen (rq_Username m) <= 255;
  rf_name : IsIPv4 (rq_Destination m) = false -> zlen (AddrString (rq_Destination m)) <= 255;
}.

(** An IPv4 address outside 0.0.0.0/24 (but for 0.0.0.0 itself), or a name that is
    no IP literal; no NUL in the strings. *)
Record request_ok (m : Request) : Prop := {
  rk_user : 0 ∉ rq_Username m;
  rk_port : 0 <= sa_Port (rq_Destination m) < 2 ^ 16;
  rk_dest : (exists v, sa_Addr (rq_Destination m) = Addr4 v /\ (v = 0 \/ 256 <= v < 2 ^ 32) /\ sa_Fqdn (rq_Destination m) = [])
    \/ (sa_Addr (rq_Destination m) = AddrInvalid /\ 0 ∉ sa_Fqdn (rq_Destination m)
        /\ GoNet.ParseAddr (unwrapIPv6Address (sa_Fqdn (rq_Destination m))) = None);
}.

Lemma fills_must m k bs bs' : Fills m bs -> Fills k bs' -> Fills (must m k) (bs ++ bs').
Proof.
  intros Hm Hk. apply fills_then; [by apply fillsU_one|done].
Qed.
#[export] Instance keeps_must m k : KeepsOwner m -> KeepsOwner k -> KeepsOwner (must m k).
Proof. intros Hm Hk. apply keeps_then; [apply _|done]. Qed.

Lemma WriteRequest_spec junk m w :
  pool_ok junk -> request_fits m -> WriteRequest junk m w = Val (WriteBytes (enc_Request m) w).
Proof.
  intros Hj [Hu Hn]. unfold WriteRequest. set (a := rq_Destination m) in *. set (u := rq_Username m) in *.
  assert (zlen (be 2 (sa_Port a)) = 2) as Hp by (unfold zlen; by rewrite length_be).
  pose proof (zlen_nonneg u). pose proof (zlen_nonneg (AddrString a)).
  assert (zlen (enc_Request m) = request_len m) as Hlen.
  { unfold enc_Request, request_len. fold a u. rewrite !zlen_app, Hp. change (zlen [Version; rq_Command m]) with 2.
    change (zlen [0]) with 1. destruct (IsIPv4 a) eqn:E4.
    - rewrite length_AsSlice. unfold IsIPv4 in E4. destruct (sa_Addr a); try done. rewrite zlen_nil.
      destruct (decide (u = [])) as [->|]; [rewrite zlen_nil|]; lia.
    - rewrite zlen_app. change (zlen [0; 0; 0; 1]) with 4. change (zlen [0]) with 1.
      destruct (decide (u = [])) as [->|]; [rewrite zlen_nil|]; lia. }
  apply buffered_fills; [|done| | |lia].
  - apply keeps_then; [apply _|]. apply keeps_then; [destruct (IsIPv4 a); [|apply keeps_then]; apply _|].
    cbv zeta. destruct (IsIPv4 a); cbn [negb]; apply _.
  - unfold request_len. fold a u. unfold maxAlloc. destruct (IsIPv4 a) eqn:E4; [|specialize (Hn eq_refl)];
      destruct (decide (u = [])); lia.
  - unfold enc_Request. fold a u.
    assert ([Version; rq_Command m] ++ be 2 (sa_Port a) = concat [[Version]; [rq_Command m]; be 2 (sa_Port a)]) as E.
    { cbn [concat app]. by rewrite app_nil_r. }
    rewrite app_assoc, E. apply fills_then; [apply fillsU_Must; repeat constructor; auto with fills|].
    apply fills_then.
    { destruct (IsIPv4 a).
      - apply fillsU_one, fills_Write.
      - apply (fillsU_then _ _ [0; 0; 0] [1]).
        + apply fillsU_one, (fills_WriteZeroN 3). unfold maxAlloc. lia.
        + apply fillsU_one, fills_WriteByte. }
    assert (Fills (must WriteZero
         (if negb (IsIPv4 a) then
            if decide (zlen (AddrString a) > 255) then ret (Some (ErrNew "destination hostname too long"))
            else must (errors_only (WriteString (AddrString a))) (must WriteZero (ret None))
          else ret None)) ([0] ++ (if IsIPv4 a then [] else AddrString a ++ [0]))) as Hrest.
    { apply fills_must; [apply fills_WriteZero|]. destruct (IsIPv4 a) eqn:E4; cbn [negb]; [apply fills_nil|].
      rewrite decide_False by (specialize (Hn eq_refl); lia). apply fills_must; [apply fills_WriteString|].
      apply (fills_must _ _ [0] []); [apply fills_WriteZero|apply fills_nil]. }
    cbv zeta. destruct (decide (u <> [])) as [Hne|He].
    + rewrite decide_False by lia. apply fills_must; [apply fills_WriteString|exact Hrest].
    + assert (u = []) as Eu by (by apply dec_stable). rewrite Eu. exact Hrest.
Qed.

Lemma be_4_host v : 0 <= v < 2 ^ 32 -> (v = 0 \/ 256 <= v) -> ~ (take 3 (be 4 v) = [0; 0; 0] /\ be 4 v !! 3%nat <> Some 0).
Proof.
  intros Hv Hr [H1 H2]. pose proof (unbe_be 4 v Hv) as Hu.
  assert (be 4 v = [0; 0; 0] ++ drop 3 (be 4 v)) as E by (rewrite <- H1; symmetry; apply take_drop).
  assert (length (drop 3 (be 4 v)) = 1%nat) as Hl by (by rewrite length_drop, length_be).
  pose proof (be_bytes 4 v) as Hb. destruct (drop 3 (be 4 v)) as [|x [|]]; try done. rewrite E in Hu, H2, Hb.
  apply Forall_app in Hb as [_ Hb]. apply Forall_cons in Hb as [Hb _]. unfold is_byte in Hb. cbn in H2.
  assert (unbe ([0; 0; 0] ++ [x]) = x) as E2 by done. rewrite E2 in Hu. subst x.
  destruct Hr as [->|]; [done|lia].
Qed.

Lemma obindr_Ok {A B} (a : A) r (k : A -> reader -> outcome (result B * reader)) : obindr (Val (Ok a, r)) k = k a r.
Proof. done. Qed.

Lemma ReadRequest0_spec m rest e :
  request_fits m -> request_ok m ->
  ReadRequest0 (mkReader (tail (enc_Request m) ++ rest) e) = Val (Ok m, mkReader rest e).
Proof.
  intros [Hu Hn] [Hnul Hp Hd]. unfold ReadRequest0, enc_Request. cbn [tail app].
  rewrite ReadByte_cons, obindr_Ok, <- !app_assoc. rewrite read_be_spec by exact Hp. rewrite obindr_Ok.
  destruct m as [c [a p f] u]. cbn [Socks4.rq_Destination Socks4.rq_Command Socks4.rq_Username sa_Port sa_Addr sa_Fqdn] in *.
  unfold IsIPv4, AddrString. cbn [sa_Addr sa_Fqdn].
  destruct Hd as [(v & -> & Hv & ->)|(-> & Hf & Hlit)]; cbn [Is4 GoNet.IsValid].
  - assert (0 <= v < 2 ^ 32) as Hv' by lia. rewrite (ReadFull_app' 4) by (cbn [AsSlice]; apply length_be).
    rewrite obindr_Ok. cbn [AsSlice]. rewrite bool_decide_eq_false_2 by (apply be_4_host; [done|lia]).
    cbn [app]. rewrite readString_spec by done. cbn [caused_by obind caused].
    rewrite obindr_Ok. unfold AddrFrom4. by rewrite unbe_be by exact Hv'.
  - rewrite (ReadFull_app' 4 [0; 0; 0; 1]) by done. rewrite obindr_Ok, bool_decide_eq_true_2 by done.
    cbn [app]. rewrite readString_spec by done. cbn [caused_by obind caused]. rewrite obindr_Ok.
    rewrite <- app_assoc. cbn [app]. rewrite readString_spec; [|done|by apply Hn]. cbn [caused_by obind caused]. rewrite obindr_Ok.
    unfold ParseSocksaddrHostPort. by rewrite Hlit.
Qed.

(** ** Responses *)

Lemma WriteResponse_spec junk c p bs a f w :
  pool_ok junk -> AsSlice a = bs -> zlen bs <= 4 ->
  WriteResponse junk (mkResponse c (mkAddr a p f)) w = Val (WriteBytes ([0; c] ++ be 2 p ++ bs) w).
Proof.
  intros Hj Ha Hl. unfold WriteResponse. cbn [Socks4.rs_ReplyCode Socks4.rs_Destination sa_Port sa_Addr]. rewrite Ha.
  assert (zlen (be 2 p) = 2) as Hp by (unfold zlen; by rewrite length_be).
  apply buffered_fills; [apply _|done|unfold maxAlloc; lia| |rewrite !zlen_app, Hp; change (zlen [0; c]) with 2; lia].
  assert ([0; c] ++ be 2 p ++ bs = concat [[0]; [c]; be 2 p; bs]) as -> by (cbn [concat app]; by rewrite app_nil_r).
  apply fills_message. repeat constructor; auto with fills.
Qed.

(** ** The properties *)

(** C37: SOCKS4 requests survive the wire: a request whose user name and name have no
    NUL and at most 255 bytes, for an IPv4 address (outside 0.0.0.1 to 0.0.0.255,
    which mean "a name follows") or for a name, is written as exactly its bytes
    without panic and read back; so is a response with an IPv4 address. *)
Theorem socks4_messages_roundtrip junk m rest e w :
  pool_ok junk -> request_fits m -> request_ok m ->
  WriteRequest junk m w = Val (WriteBytes (enc_Request m) w)
  /\ ReadRequest (mkReader (enc_Request m ++ rest) e) = Val (Ok m, mkReader rest e)
  /\ (forall c v p, 0 <= v < 2 ^ 32 -> 0 <= p < 2 ^ 16 ->
       let r := mkResponse c (mkAddr (Addr4 v) p []) in
       exists bs, WriteResponse junk r w = Val (WriteBytes bs w)
         /\ ReadResponse (mkReader (bs ++ rest) e) = (Ok r, mkReader rest e)).
Proof.
  intros Hj Hf Hok. split_and!.
  - by apply WriteRequest_spec.
  - unfold ReadRequest. pose proof (ReadRequest0_spec m rest e Hf Hok) as Hr.
    unfold enc_Request in *. cbn [tail app] in *. rewrite expect_ok, obindr_Ok. exact Hr.
  - intros c v p Hv Hp r. exists ([0; c] ++ be 2 p ++ be 4 v). split.
    + apply WriteResponse_spec; [done|done|unfold zlen; by rewrite length_be].
    + unfold ReadResponse. cbn [app]. rewrite expect_ok, rd_bind_Ok, ReadByte_cons, rd_bind_Ok, <- app_assoc.
      rewrite read_be_spec by exact Hp. rewrite rd_bind_Ok, (ReadFull_app' 4) by apply length_be. rewrite rd_bind_Ok.
      unfold AddrFrom4. by rewrite unbe_be by exact Hv.
Qed.

(** A rejection cannot be read.  The responses the server and LazyConn send to
    refuse a request carry no address; such a response is written, without an
    error, as four bytes instead of eight, and ReadResponse answers an error for
    them instead of the reply code, also when the connection is closed behind
    them. *)
Theorem socks4_rejection_truncated junk c w e :
  pool_ok junk ->
  WriteResponse junk (mkResponse c zeroAddr) w = Val (WriteBytes [0; c; 0; 0] w)
  /\ ReadResponse (mkReader [0; c; 0; 0] e) = (Err e, mkReader [] e).
Proof.
  intros Hj. split.
  - by apply (WriteResponse_spec junk c 0 [] AddrInvalid []).
  - unfold ReadResponse. rewrite expect_ok, rd_bind_Ok, ReadByte_cons, rd_bind_Ok.
    change [0; 0] with (be 2 0 ++ []). rewrite read_be_spec by lia. rewrite rd_bind_Ok. unfold ReadFull. cbn [rd_bytes rd_err length].
    rewrite decide_False by lia. rewrite decide_False by (by intros [? _]). done.
Qed.

(** ** Witnesses *)

Definition some_request : Request := mkRequest CommandConnect some_name (str "user").

Lemma socks4_messages_roundtrip_witness : let w := mkWriter [] 1000 EOF in
  WriteRequest sevens some_request w = Val (WriteBytes (enc_Request some_request) w)
  /\ ReadRequest (mkReader (enc_Request some_request ++ [9]) EOF) = Val (Ok some_request, mkReader [9] EOF).
Proof.
  intros w. destruct (socks4_messages_roundtrip sevens some_request [9] EOF w) as (H1 & H2 & _);
    [exact sevens_ok|split; [done|done]| |by split].
  split; [apply (bool_decide_eq_true_1 _); reflexivity|split; [vm_compute; discriminate|vm_compute; reflexivity]|].
  right. split_and!; [reflexivity|apply (bool_decide_eq_true_1 _); reflexivity|reflexivity].
Defined.

Lemma socks4_rejection_truncated_witness : let w := mkWriter [] 1000 EOF in
  WriteResponse sevens (mkResponse ReplyCodeRejectedOrFailed zeroAddr) w = Val (WriteBytes [0; 91; 0; 0] w)
  /\ ReadResponse (mkReader [0; 91; 0; 0] EOF) = (Err EOF, mkReader [] EOF).
Proof. intros w. exact (socks4_rejection_truncated sevens ReplyCodeRejectedOrFailed w EOF sevens_ok). Defined.
