(* ===== verification/Packets.v ===== *)
(** * Packets with an address: protocol/socks/packet*.go

    SOCKS5 puts a header of three zero bytes and the address in front of every
    datagram of a UDP association, with the serializer of Metadata.v. *)

From S2P Require Import Prelude GoIO GoNet BufWriter Metadata.
From S2P Require Buf.
#[local] Open Scope go_scope.

(** [buffer := buf.NewSize(size); defer buffer.Release()] and [fill]; the bytes
    of the buffer when [fill] returned nil. *)
Definition build (junk : Z -> list Z) (size : Z) (fill : W) : outcome (result (list Z)) :=
  let! buffer := Buf.NewSize junk size in
  let! p := fill buffer in
  let! r := match p.1 with
            | Some e => Val (Err e)
            | None => let! bs := contents p.2 in Val (Ok bs)
            end in
  let! _ := Buf.Release p.2 in
  Val r.

(** A decoder that reads from a buffer, which ends with io.EOF. *)
Definition reading {A} (dec : reader -> result A * reader) : GoM Buf.Buffer (result A) := fun b =>
  let! bs := contents b in
  let '(a, r) := dec (mkReader bs EOF) in
  Val (a, Buf.with_start (i64 (Buf.b_start b + (zlen bs - zlen (rd_bytes r)))) b).

(** [header := buf.With(buffer.ExtendHeader(n))] and [fill] on the header,
    which is a slice of the buffer's own array. *)
Definition with_header {A} (n : Z) (fill : GoM Buf.Buffer A) : GoM Buf.Buffer A := fun b =>
  let! p := Buf.ExtendHeader n b in
  let '(v, b) := p in
  let! q := fill (Buf.With (Buf.view_bytes v (Buf.data b)) (zdrop v.2 (Buf.data b))) in
  Val (q.1, Buf.with_data (Buf.splice (Buf.data b) v.1 (Buf.data q.2)) b).

(** ** Datagrams of a SOCKS5 association: packet.go *)

(** A connection of datagrams: a Read takes one, cut to the room there is, a
    Write sends one. *)
Record dconn := mkD { d_in : list (list Z); d_err : error; d_out : list (list Z); d_fail : option error }.
#[export] Instance dconn_Reader : Buf.Reader dconn := fun c n =>
  match d_in c with
  | [] => (([], Some (d_err c)), c)
  | p :: ps => ((take n p, None), mkD ps (d_err c) (d_out c) (d_fail c))
  end.
Definition d_Write (p : list Z) (c : dconn) : (Z * option error) * dconn :=
  match d_fail c with
  | Some e => ((0, Some e), c)
  | None => ((zlen p, None), mkD (d_in c) (d_err c) (d_out c ++ [p]) (d_fail c))
  end.

Definition ErrInvalidPacket : error := ErrNew "socks5: invalid packet".

Record AssociatePacketConn := mkAssociate { ac_conn : dconn; ac_remoteAddr : Socksaddr }.
Definition NewAssociatePacketConn (conn : dconn) (remoteAddr : Socksaddr) : AssociatePacketConn :=
  mkAssociate conn remoteAddr.
Abbreviation P := (GoM AssociatePacketConn).

(** ReadFrom into a slice of [n] bytes: what it holds afterwards and the source. *)
Definition ReadFrom (n : nat) : P (result (list Z * netaddr)) := fun c =>
  let '((p, err), conn) := Buf.rd_step (ac_conn c) n in
  let c := mkAssociate conn (ac_remoteAddr c) in
  match err with
  | Some e => Val (Err e, c)
  | None =>
      if decide (zlen p < 3) then Val (Err ErrInvalidPacket, c)
      else
        let '(destination, r) := ReadAddrPort SocksaddrSerializer (mkReader (zdrop 3 p) EOF) in
        match destination with
        | Err e => Val (Err e, c)
        | Ok destination =>
            let index := 3 + zlen (zdrop 3 p) - zlen (rd_bytes r) in
            Val (Ok (zdrop index p, UDPAddr destination), mkAssociate (ac_conn c) destination)
        end
  end.

(** What WriteTo puts in its buffer. *)
Definition datagram (destination : Socksaddr) (p : list Z) : W :=
  Must [Buf.WriteZeroN 3] ;;
  andthen (WriteAddrPort SocksaddrSerializer destination) (errors_only (Buf.Write p)).

Definition WriteTo (junk : Z -> list Z) (p : list Z) (addr : option netaddr) : P (Z * option error) := fun c =>
  let destination := SocksaddrFromNet addr in
  let! r := build junk (3 + AddrPortLen destination + zlen p) (datagram destination p) in
  match r with
  | Err e => Val ((0, Some e), c)
  | Ok bs => let '(res, conn) := d_Write bs (ac_conn c) in Val (res, mkAssociate conn (ac_remoteAddr c))
  end.

(** The header of a datagram in a buffer. *)
Definition decode_packet : GoM Buf.Buffer (result Socksaddr) :=
  l <- Buf.Len ;;
  if decide (l < 3) then ret (Err ErrInvalidPacket)
  else Buf.Advance 3 ;; reading (ReadAddrPort SocksaddrSerializer).

(** ReadPacket; ReadBuffer is one Read into the free bytes of the buffer. *)
Definition ReadPacket : GoM (AssociatePacketConn * Buf.Buffer) (result Socksaddr) := fun s =>
  let! q := Buf.ReadOnceFrom (ac_conn s.1) s.2 in
  let '(((_, err), conn), b) := q in
  let c := mkAssociate conn (ac_remoteAddr s.1) in
  match err with
  | Some e => Val (Err e, (c, b))
  | None =>
      let! d := decode_packet b in
      match d.1 with
      | Err e => Val (Err e, (c, d.2))
      | Ok destination => Val (Ok destination, (mkAssociate (ac_conn c) destination, d.2))
      end
  end.

(** WritePacket; WriteBuffer writes the bytes of the buffer and releases it. *)
Definition header (destination : Socksaddr) : W :=
  Must [Buf.WriteZeroN 3] ;; WriteAddrPort SocksaddrSerializer destination.
Definition WriteBuffer (b : Buf.Buffer) : P (option error) := fun c =>
  let! bs := contents b in
  let '(res, conn) := d_Write bs (ac_conn c) in
  let! _ := Buf.Release b in
  Val (res.2, mkAssociate conn (ac_remoteAddr c)).
Definition WritePacket (b : Buf.Buffer) (destination : Socksaddr) : P (option error) := fun c =>
  let! q := with_header (3 + AddrPortLen destination) (header destination) b in
  match q.1 with
  | Some e => Val (Some e, c)
  | None => WriteBuffer q.2 c
  end.

(** WriteVectorisedPacket: the header in a buffer of its own, sent in one
    datagram with the buffers. *)
Definition WriteVectorisedPacket (junk : Z -> list Z) (buffers : list Buf.Buffer) (destination : Socksaddr) : P (option error) := fun c =>
  let! h := build junk (3 + AddrPortLen destination) (header destination) in
  match h with
  | Err e => Val (Some e, c)
  | Ok bs =>
      let! l := Buf.ToSliceMulti buffers in
      let '(res, conn) := d_Write (bs ++ concat l) (ac_conn c) in
      Val (res.2, mkAssociate conn (ac_remoteAddr c))
  end.

Definition Read (n : nat) : P (result (list Z)) := fun c =>
  let! q := ReadFrom n c in Val (match q.1 with Ok x => Ok x.1 | Err e => Err e end, q.2).
Definition Write (junk : Z -> list Z) (p : list Z) : P (Z * option error) := fun c =>
  WriteTo junk p (Some (NAOwn (ac_remoteAddr c))) c.
Definition RemoteAddr (c : AssociatePacketConn) : netaddr := UDPAddr (ac_remoteAddr c).
Definition FrontHeadroom : Z := 3 + MaxSocksaddrLength.

(** WaitReadPacket of packet_wait.go, on the buffer the inner waiter returned. *)
Definition WaitReadPacket (waited : result Buf.Buffer) : P (result (Buf.Buffer * Socksaddr)) := fun c =>
  match waited with
  | Err e => Val (Err e, c)
  | Ok buffer =>
      let! d := decode_packet buffer in
      match d.1 with
      | Err e => let! _ := Buf.Release d.2 in Val (Err e, c)
      | Ok destination => Val (Ok (d.2, destination), mkAssociate (ac_conn c) destination)
      end
  end.
