(* ===== verification/PacketsTheorems.v ===== *)
(** * Datagrams of a SOCKS5 association survive the wire *)

From S2P Require Import Prelude Buf BufTheorems BufWriter GoIO GoNet GoNetTheorems Metadata MetadataTheorems Socks5 Socks5Theorems Packets.
#[local] Open Scope go_scope.

(** ** Messages in buffers *)

Lemma build_fills junk size m bs `{!KeepsOwner m} :
  pool_ok junk -> 0 <= size <= maxAlloc -> Fills m bs -> zlen bs <= size -> build junk size m = Val (Ok bs).
Proof.
  intros Hj Hs Hm Hl. destruct (NewSize_fresh junk size Hj Hs) as (b & z & Hnew & HR & Hb & Hc & Hf & Hrel).
  unfold build. rewrite Hnew. cbn [obind]. destruct (Hm b z HR ltac:(lia)) as (b' & Hrun & HR'). rewrite Hrun. cbn [obind fst snd].
  rewrite (Rep_contents _ _ HR'). cbn [obind push content]. rewrite Hc. cbn [app].
  destruct (Release_ok b') as (x & b'' & Hrel'); [apply (releasable_keeps m b None b' z bs); try done; lia|]. by rewrite Hrel'.
Qed.

Lemma build_fails junk size m e `{!KeepsOwner m} :
  pool_ok junk -> 0 <= size <= maxAlloc -> Fails m e -> build junk size m = Val (Err e).
Proof.
  intros Hj Hs Hm. destruct (NewSize_fresh junk size Hj Hs) as (b & z & Hnew & HR & Hb & Hc & Hf & Hrel).
  unfold build. rewrite Hnew. cbn [obind]. destruct (Hm b z HR) as (p & Hp & b' & Hrun & HR'). rewrite Hrun. cbn [obind fst snd].
  destruct (Release_ok b') as (x & b'' & Hrel'); [by apply (releasable_keeps m b (Some e) b' z p)|]. by rewrite Hrel'.
Qed.

(** What a decoder reads from a buffer it takes off its content. *)
Lemma reading_does {A} (dec : reader -> result A * reader) b z a p r :
  Rep b z -> dec (mkReader (content z) EOF) = (a, r) -> content z = p ++ rd_bytes r ->
  does (reading dec) b a (pop (zlen p) z).
Proof.
  intros HR Hd Hp. assert (fits (zlen p) (content z)) as Hfit.
  { unfold fits. rewrite Hp, zlen_app. pose proof (zlen_nonneg p). pose proof (zlen_nonneg (rd_bytes r)). lia. }
  unfold reading, does. rewrite (Rep_contents _ _ HR). cbn [obind]. rewrite Hd. eexists. split; [done|].
  assert (zlen (content z) - zlen (rd_bytes r) = zlen p) as -> by (rewrite Hp, zlen_app; lia).
  clear Hd Hp. open_rep HR. rep_now.
Qed.

Lemma With_rep p rest : zlen (p ++ rest) <= maxAlloc -> Rep (With p rest) (mkWindow [] [] p [] rest).
Proof. intros Hp. apply rep_mk; cbn [before content free reserved spare app]; rewrite ?zlen_nil; try lia; done. Qed.

Lemma ExtendHeader_run b z n :
  Rep b z -> fits n (before z) ->
  let k := zlen (before z) - n in
  ExtendHeader n b = Val ((k, zlen (before z)), with_start k b).
Proof.
  intros HR Hn k. subst k. open_rep HR. unfold ExtendHeader. brun.
  first [rewrite slice_run by blia|idtac]; do 4 f_equal; lia.
Qed.

Lemma with_header_does b z m bs :
  Rep b z -> Fills m bs -> zlen bs <= zlen (before z) ->
  exists b', with_header (zlen bs) m b = Val (None, b')
    /\ Rep b' (mkWindow (ztake (zlen (before z) - zlen bs) (before z)) (bs ++ content z) (free z) (reserved z) (spare z))
    /\ managed b' = managed b /\ refs b' = refs b.
Proof.
  intros HR Hm Hl. pose proof (zlen_nonneg bs). unfold with_header.
  rewrite (ExtendHeader_run b z) by (done || unfold fits; lia). cbn [obind fst snd].
  open_rep HR. bcbn. set (K := C ++ F ++ R ++ S). set (k := zlen B - zlen bs).
  assert (view_bytes (k, zlen B) (B ++ K) = zdrop k B) as ->.
  { transitivity (view_bytes (k, zlen B) (ztake k B ++ zdrop k B ++ K)); [f_equal; recut|]. apply view_cut; subst k; blia. }
  assert (zdrop (zlen B) (B ++ K) = K) as -> by apply zdrop_app.
  assert (zlen (zdrop k B ++ K) <= maxAlloc) as HK by (subst k K; blia).
  destruct (Hm (With (zdrop k B) K) _ (With_rep _ _ HK)) as (h & -> & HRh).
  { cbn [free]. subst k. blia. }
  cbn [obind fst snd]. apply rep_data in HRh. cbn [push before content free reserved spare app] in HRh.
  rewrite zdrop_all in HRh by (subst k; blia). cbn [app] in HRh. rewrite HRh.
  eexists. split; [done|]. split_and!; [|done..].
  assert (splice (B ++ K) k (bs ++ K) = ztake k B ++ bs ++ K) as ->.
  { unfold splice. rewrite drop_ge by (subst k K; unfold zlen in *; rewrite ?length_app in *; lia).
    rewrite app_nil_r. f_equal. unfold ztake. apply take_app_le. subst k. unfold zlen in *. lia. }
  subst k K. rep_now.
Qed.

(** ** The header *)

Lemma header_length d : address_ok d -> zlen (encode SocksaddrSerializer d) = AddrPortLen d.
Proof. intros [_ Hv]. rewrite encode_length, Hv, andb_false_r. lia. Qed.

Lemma header_max d : address_ok d -> 0 <= AddrPortLen d <= MaxSocksaddrLength.
Proof.
  intros Hd. rewrite <- header_length by done. destruct Hd as [He _]. split; [apply zlen_nonneg|by apply encode_max].
Qed.

Lemma fills_header d : encodable SocksaddrSerializer d -> Fills (header d) ([0; 0; 0] ++ encode SocksaddrSerializer d).
Proof.
  intros Hd. unfold header. change [0; 0; 0] with (concat [replicate (Z.to_nat 3) 0]).
  apply fills_Must; [|by apply fills_WriteAddrPort]. repeat constructor. apply fills_WriteZeroN. unfold maxAlloc. lia.
Qed.

Definition wire (d : Socksaddr) (p : list Z) : list Z := [0; 0; 0] ++ encode SocksaddrSerializer d ++ p.

Lemma wire_length d p : address_ok d -> zlen (wire d p) = 3 + AddrPortLen d + zlen p.
Proof. intros Hd. unfold wire. rewrite !zlen_app, header_length by done. change (zlen [0; 0; 0]) with 3. lia. Qed.

Lemma fills_datagram d p : encodable SocksaddrSerializer d -> Fills (datagram d p) (wire d p).
Proof.
  intros Hd. unfold datagram, wire. change [0; 0; 0] with (concat [replicate (Z.to_nat 3) 0]).
  apply fills_Must; [repeat constructor; apply fills_WriteZeroN; unfold maxAlloc; lia|].
  apply fills_andthen; [by apply fills_WriteAddrPort|apply fills_Write].
Qed.

(** *** Sending *)

Definition sent (bs : list Z) (c : AssociatePacketConn) : AssociatePacketConn :=
  mkAssociate (mkD (d_in (ac_conn c)) (d_err (ac_conn c)) (d_out (ac_conn c) ++ [bs]) (d_fail (ac_conn c))) (ac_remoteAddr c).

Lemma d_Write_ok bs c : d_fail c = None -> d_Write bs c = ((zlen bs, None), mkD (d_in c) (d_err c) (d_out c ++ [bs]) (d_fail c)).
Proof. intros Hf. unfold d_Write. by rewrite Hf. Qed.

Lemma WriteTo_spec junk c d p addr :
  pool_ok junk -> d_fail (ac_conn c) = None -> SocksaddrFromNet addr = d -> address_ok d -> zlen (wire d p) <= maxAlloc ->
  WriteTo junk p addr c = Val ((zlen (wire d p), None), sent (wire d p) c).
Proof.
  intros Hj Hf Ha Hd Hp. unfold WriteTo. cbv zeta. rewrite Ha.
  pose proof (header_max d Hd). pose proof (zlen_nonneg p). pose proof (wire_length d p Hd).
  rewrite (build_fills _ _ _ (wire d p)); [|done|lia|by apply fills_datagram, Hd|lia]. cbn [obind].
  by rewrite d_Write_ok.
Qed.

Lemma WritePacket_spec c b z d :
  d_fail (ac_conn c) = None -> address_ok d -> Rep b z -> releasable b -> 3 + AddrPortLen d <= zlen (before z) ->
  WritePacket b d c = Val (None, sent (wire d (content z)) c).
Proof.
  intros Hf Hd HR Hrel Hh. unfold WritePacket.
  set (hd := [0; 0; 0] ++ encode SocksaddrSerializer d).
  assert (3 + AddrPortLen d = zlen hd) as E.
  { unfold hd. rewrite zlen_app, header_length by done. done. }
  rewrite E in *. destruct (with_header_does b z (header d) hd HR (fills_header d ltac:(apply Hd)) Hh) as (b' & -> & HR' & Hm & Hr).
  cbn [obind fst snd]. unfold WriteBuffer. rewrite (Rep_contents _ _ HR'). cbn [obind content].
  rewrite d_Write_ok by done. destruct (Release_ok b') as (x & b'' & ->); [|cbn [obind]].
  { intros Hmg. rewrite Hm in Hmg. destruct (Hrel Hmg) as [Hr0 Hput]. split; [by rewrite Hr|].
    rewrite (rep_size _ _ HR) in Hput. rewrite (rep_size _ _ HR'). rewrite <- Hput. f_equal.
    unfold size_of. cbn [before content free reserved spare]. rewrite zlen_app, zlen_ztake. pose proof (zlen_nonneg hd). lia. }
  unfold sent, wire, hd. by rewrite <- app_assoc.
Qed.

(** *** Receiving *)

(** The first three bytes are not looked at. *)
Lemma decode_packet_spec b z x y f d p :
  encodable SocksaddrSerializer d -> Rep b z -> content z = [x; y; f] ++ encode SocksaddrSerializer d ++ p ->
  exists b' z', decode_packet b = Val (Ok d, b') /\ Rep b' z' /\ content z' = p.
Proof.
  intros Hd HR Hc. unfold decode_packet. pose proof HR as HR0. apply rep_inv in HR0 as (rf & mg & Eb & Hsmall).
  assert (Len b = Val (zlen (content z), b)) as HL.
  { unfold Len, gets. rewrite (rep_end _ _ HR), (rep_start _ _ HR), i64_small by blia. do 2 f_equal. lia. }
  rewrite (bind_run _ _ _ _ _ HL). assert (3 <= zlen (content z)) as H3.
  { rewrite Hc, zlen_app. change (zlen [x; y; f]) with 3. pose proof (zlen_nonneg (encode SocksaddrSerializer d ++ p)). lia. }
  rewrite decide_False by lia. destruct (Advance_does b z 3 HR) as (b1 & H1 & HR1); [unfold fits; lia|].
  rewrite (bind_run _ _ _ _ _ H1).
  assert (content (pop 3 z) = encode SocksaddrSerializer d ++ p) as Hc1.
  { cbn [pop content]. rewrite Hc. change 3 with (zlen [x; y; f]). apply zdrop_app. }
  destruct (reading_does (ReadAddrPort SocksaddrSerializer) b1 (pop 3 z) (Ok d) (encode SocksaddrSerializer d) (mkReader p EOF) HR1) as (b2 & H2 & HR2).
  { rewrite Hc1. apply ReadAddrPort_spec; [apply SocksaddrSerializer_lawful|done]. }
  { done. }
  exists b2, (pop (zlen (encode SocksaddrSerializer d)) (pop 3 z)). split_and!; [done|done|].
  change (zdrop (zlen (encode SocksaddrSerializer d)) (content (pop 3 z)) = p). rewrite Hc1. apply zdrop_app.
Qed.

Definition arriving (bs : list Z) (ds : list (list Z)) (e : error) (out : list (list Z)) (fail : option error) : dconn :=
  mkD (bs :: ds) e out fail.

Lemma ReadFrom_spec n x y f d p ds e out fl remote :
  encodable SocksaddrSerializer d -> let bs := [x; y; f] ++ encode SocksaddrSerializer d ++ p in
  zlen bs <= Z.of_nat n ->
  ReadFrom n (mkAssociate (arriving bs ds e out fl) remote)
  = Val (Ok (p, UDPAddr d), mkAssociate (mkD ds e out fl) d).
Proof.
  intros Hd bs Hn. unfold ReadFrom, rd_step, dconn_Reader, arriving. cbn [ac_conn ac_remoteAddr d_in d_err d_out d_fail].
  rewrite take_ge by (unfold zlen in Hn; lia).
  assert (zlen bs = 3 + zlen (encode SocksaddrSerializer d) + zlen p) as Hl.
  { unfold bs. rewrite !zlen_app. change (zlen [x; y; f]) with 3. lia. }
  pose proof (zlen_nonneg (encode SocksaddrSerializer d)). pose proof (zlen_nonneg p).
  rewrite decide_False by lia.
  assert (zdrop 3 bs = encode SocksaddrSerializer d ++ p) as -> by (unfold bs; change 3 with (zlen [x; y; f]); apply zdrop_app).
  rewrite ReadAddrPort_spec by (done || apply SocksaddrSerializer_lawful). cbn [rd_bytes].
  do 4 f_equal. replace (3 + _ - _) with (zlen ([x; y; f] ++ encode SocksaddrSerializer d)).
  - unfold bs. rewrite app_assoc. apply zdrop_app.
  - rewrite !zlen_app. change (zlen [x; y; f]) with 3. lia.
Qed.

Lemma ReadOnceFrom_spec bs ds e out fl b z :
  Rep b z -> 0 < zlen (free z) -> zlen bs <= zlen (free z) ->
  exists b', ReadOnceFrom (arriving bs ds e out fl) b = Val ((zlen bs, None, mkD ds e out fl), b') /\ Rep b' (push bs z).
Proof.
  intros HR Hf Hl. pose proof HR as HR0. apply rep_inv in HR0 as (rf & mg & Eb & Hsmall).
  unfold ReadOnceFrom. rewrite bind_gets. cbv beta. unfold IsFull. rewrite (rep_end _ _ HR), (rep_capacity _ _ HR).
  rewrite bool_decide_eq_false_2 by lia. unfold FreeBytes. rewrite bind_bind, bind_gets, bind_bind, bind_gets.
  rewrite (rep_end _ _ HR), (rep_capacity _ _ HR). erewrite bind_run by (apply slice_run; rewrite ?(rep_data _ _ HR); blia).
  unfold rd_step, dconn_Reader, arriving. cbn [fst snd d_in d_err d_out d_fail].
  rewrite take_ge by (unfold zlen in *; lia).
  destruct (fill_step b z bs (ret (zlen bs, None : option error, mkD ds e out fl)) HR Hl) as (b' & HR' & Hrun). by exists b'.
Qed.

Lemma ReadPacket_spec x y f d p ds e out fl remote b z :
  encodable SocksaddrSerializer d -> let bs := [x; y; f] ++ encode SocksaddrSerializer d ++ p in
  Rep b z -> content z = [] -> zlen bs <= zlen (free z) ->
  exists b' z', ReadPacket (mkAssociate (arriving bs ds e out fl) remote, b)
    = Val (Ok d, (mkAssociate (mkD ds e out fl) d, b')) /\ Rep b' z' /\ content z' = p.
Proof.
  intros Hd bs HR Hc Hl. assert (0 < zlen bs) as H0.
  { unfold bs. rewrite zlen_app. change (zlen [x; y; f]) with 3. pose proof (zlen_nonneg (encode SocksaddrSerializer d ++ p)). lia. }
  destruct (ReadOnceFrom_spec bs ds e out fl b z HR ltac:(lia) Hl) as (b1 & H1 & HR1).
  destruct (decode_packet_spec b1 (push bs z) x y f d p Hd HR1) as (b2 & z2 & H2 & HR2 & Hc2).
  { cbn [push content]. by rewrite Hc. }
  exists b2, z2. split_and!; [|done|done].
  unfold ReadPacket. cbn [fst snd ac_conn ac_remoteAddr]. rewrite H1. cbn [obind]. by rewrite H2.
Qed.

(** *** The properties *)

(** C30: A datagram of an association survives the wire.  WriteTo, WritePacket (which
    puts the header into the buffer's headroom, in place) and
    WriteVectorisedPacket all send the header and the payload as one datagram;
    FrontHeadroom is enough for every address.  ReadFrom and ReadPacket, on
    slices and buffers with room for it, return the payload and the address and
    remember it as the remote address, whatever the first three bytes are: a
    fragment is taken for a whole packet.  WriteTo answers the length of the
    datagram, which is more than it was asked to write. *)
Theorem socks_datagram_roundtrip junk c d p ds e x y f remote :
  pool_ok junk -> d_fail (ac_conn c) = None -> address_ok d -> zlen (wire d p) <= maxAlloc ->
  WriteTo junk p (Some (NAOwn d)) c = Val ((zlen (wire d p), None), sent (wire d p) c)
  /\ zlen p < zlen (wire d p)
  /\ (forall b z, Rep b z -> releasable b -> FrontHeadroom <= zlen (before z) -> content z = p ->
        WritePacket b d c = Val (None, sent (wire d p) c))
  /\ (forall bufs ps, ToSliceMulti bufs = Val ps -> concat ps = p ->
        WriteVectorisedPacket junk bufs d c = Val (None, sent (wire d p) c))
  /\ let bs := [x; y; f] ++ encode SocksaddrSerializer d ++ p in
     let conn := mkAssociate (mkD (bs :: ds) e [] None) remote in
     let after := mkAssociate (mkD ds e [] None) d in
     (forall n, zlen bs <= Z.of_nat n -> ReadFrom n conn = Val (Ok (p, UDPAddr d), after))
     /\ (forall b z, Rep b z -> content z = [] -> zlen bs <= zlen (free z) ->
          exists b' z', ReadPacket (conn, b) = Val (Ok d, (after, b')) /\ Rep b' z' /\ content z' = p).
Proof.
  intros Hj Hf Hd Hl. pose proof (header_max d Hd). split_and!.
  - by apply WriteTo_spec.
  - rewrite wire_length by done. lia.
  - intros b z HR Hrel Hh <-. apply WritePacket_spec; try done. unfold FrontHeadroom in Hh. lia.
  - intros bufs ps Hb Hps. unfold WriteVectorisedPacket.
    set (hd := [0; 0; 0] ++ encode SocksaddrSerializer d).
    assert (zlen hd = 3 + AddrPortLen d) as E by (unfold hd; rewrite zlen_app, header_length by done; done).
    rewrite (build_fills _ _ _ hd); [|done|unfold maxAlloc, MaxSocksaddrLength in *; lia|by apply fills_header, Hd|lia].
    cbn [obind]. rewrite Hb. cbn [obind]. rewrite d_Write_ok by done. unfold sent, wire, hd. by rewrite Hps, <- app_assoc.
  - intros bs conn after. split.
    + intros n Hn. by apply ReadFrom_spec; [apply Hd|].
    + intros b z HR Hc Hr. apply (ReadPacket_spec x y f d p ds e [] None remote b z); [apply Hd|done..].
Qed.

Lemma ReadFrom_short n bs ds e out fl remote :
  zlen (take n bs) < 3 ->
  ReadFrom n (mkAssociate (arriving bs ds e out fl) remote) = Val (Err ErrInvalidPacket, mkAssociate (mkD ds e out fl) remote).
Proof. intros Hl. unfold ReadFrom, rd_step, dconn_Reader. cbn [ac_conn d_in arriving]. by rewrite decide_True. Qed.

(** A datagram that ends inside its header, on the wire or because the reader's
    slice is too short, is an error, and the remote address stays as it was. *)
Theorem socks_datagram_truncated x y f d q more ds e out fl remote :
  encodable SocksaddrSerializer d -> more <> [] -> q ++ more = [x; y; f] ++ encode SocksaddrSerializer d ->
  let after := mkAssociate (mkD ds e out fl) remote in
  (forall n bs, take n bs = q ->
     exists err, ReadFrom n (mkAssociate (arriving bs ds e out fl) remote) = Val (Err err, after))
  /\ (forall b z, Rep b z -> content z = [] -> 0 < zlen q <= zlen (free z) ->
     exists err b', ReadPacket (mkAssociate (arriving q ds e out fl) remote, b) = Val (Err err, (after, b'))).
Proof.
  intros Hd Hm E after.
  assert (3 <= zlen q -> exists err r, ReadAddrPort SocksaddrSerializer (mkReader (zdrop 3 q) EOF) = (Err err, r)) as Herr.
  { intros H3. pose proof (addr_codec _ SocksaddrSerializer_lawful). apply (codec_truncated d _ more); [done| |done].
    rewrite <- (zdrop_app [x; y; f] (encode SocksaddrSerializer d)). change (zlen [x; y; f]) with 3. rewrite <- E.
    unfold zdrop. rewrite drop_app_le; [done|]. unfold zlen in H3. lia. }
  split.
  - intros n bs Hq. destruct (decide (zlen q < 3)) as [Hs|Hs].
    + exists ErrInvalidPacket. apply ReadFrom_short. by rewrite Hq.
    + destruct (Herr ltac:(lia)) as (err & r & Hr). exists err.
      unfold ReadFrom, rd_step, dconn_Reader. cbn [ac_conn d_in arriving]. rewrite Hq, decide_False by done. by rewrite Hr.
  - intros b z HR Hc Hq. destruct (ReadOnceFrom_spec q ds e out fl b z HR ltac:(lia) ltac:(lia)) as (b1 & H1 & HR1).
    assert (content (push q z) = q) as Hc1 by (cbn [push content]; by rewrite Hc).
    pose proof (rep_inv _ _ HR1) as (rf & mg & _ & Hsmall).
    assert (exists err b2, decode_packet b1 = Val (Err err, b2)) as (err & b2 & H2).
    { unfold decode_packet, Len. rewrite bind_gets. cbv beta.
      rewrite (rep_end _ _ HR1), (rep_start _ _ HR1), i64_small by blia. rewrite Hc1.
      destruct (decide (zlen q < 3)) as [Hs|Hs]; [rewrite decide_True by lia; by eexists _, _|rewrite decide_False by lia].
      destruct (Advance_does b1 _ 3 HR1) as (b2 & H2 & HR2); [unfold fits; rewrite Hc1; lia|].
      destruct (Herr ltac:(lia)) as (err & r & Hr). eexists err, _. rewrite (bind_run _ _ _ _ _ H2).
      unfold reading. rewrite (Rep_contents _ _ HR2). cbn [obind pop content]. by rewrite Hc1, Hr. }
    exists err, b2. unfold ReadPacket. cbn [fst snd ac_conn ac_remoteAddr]. rewrite H1. cbn [obind]. by rewrite H2.
Qed.

(** ** Witnesses *)

Definition some_dconn : dconn := mkD [] EOF [] None.

Lemma socks_datagram_roundtrip_witness : let c := NewAssociatePacketConn some_dconn zeroAddr in
  WriteTo sevens [1; 2; 3] (Some (NAOwn some_name)) c
    = Val ((zlen (wire some_name [1; 2; 3]), None), sent (wire some_name [1; 2; 3]) c)
  /\ ReadFrom 100 (mkAssociate (mkD [wire some_name [1; 2; 3]] EOF [] None) zeroAddr)
    = Val (Ok ([1; 2; 3], UDPAddr some_name), mkAssociate (mkD [] EOF [] None) some_name).
Proof.
  intros c. destruct (socks_datagram_roundtrip sevens c some_name [1; 2; 3] [] EOF 0 0 0 zeroAddr sevens_ok)
    as (H1 & _ & _ & _ & H2 & _); [done|exact some_address_ok|by vm_compute|].
  split; [exact H1|]. apply H2. by vm_compute.
Defined.

Lemma socks_datagram_truncated_witness :
  exists err, ReadFrom 9 (mkAssociate (arriving (wire some_name [1; 2; 3]) [] EOF [] None) zeroAddr)
    = Val (Err err, mkAssociate (mkD [] EOF [] None) zeroAddr).
Proof.
  destruct (socks_datagram_truncated 0 0 0 some_name (take 9 (wire some_name [])) (drop 9 (wire some_name [])) [] EOF [] None zeroAddr) as (H & _).
  - exact (proj1 some_address_ok).
  - by vm_compute.
  - rewrite take_drop. by vm_compute.
  - apply (H 9%nat). by vm_compute.
Defined.
