(* ===== verification/UoT.v ===== *)
(** * UDP over TCP: common/uot

    The request that opens a stream, the packets on it, the client connection
    that sends the request with its first write, and the server's loop that
    turns the packets of the stream into datagrams. *)

From S2P Require Import Prelude GoIO GoNet BufWriter Metadata Packets.
From S2P Require Buf.
#[local] Open Scope go_scope.

Definition Version : Z := 2.
Definition LegacyVersion : Z := 1.
Definition MagicAddress : list Z := str "sp.v2.udp-over-tcp.arpa".
Definition LegacyMagicAddress : list Z := str "sp.udp-over-tcp.arpa".
Definition RequestDestination (version : Z) : Socksaddr :=
  if decide (version = 0 \/ version = Version) then mkAddr AddrInvalid 0 MagicAddress
  else mkAddr AddrInvalid 0 LegacyMagicAddress.

(** ** The request: protocol.go *)

Record Request := mkRequest { rq_IsConnect : bool; rq_Destination : Socksaddr }.

(** binary.Read and binary.Write of a bool. *)
Definition read_bool (r : reader) : result bool * reader :=
  rd_bind (ReadFull 1 r) (fun bs r => (Ok (bool_decide (bs <> [0])), r)).
Definition bool_byte (b : bool) : Z := if b then 1 else 0.

Definition ReadRequest (r : reader) : result Request * reader :=
  rd_bind (read_bool r) (fun isConnect r =>
  rd_bind (ReadAddrPort SocksaddrSerializer r) (fun destination r => (Ok (mkRequest isConnect destination), r))).

(** EncodeRequest; the buffer it returns is not released on success. *)
Definition EncodeRequest (junk : Z -> list Z) (request : Request) : outcome (result Buf.Buffer) :=
  let! buffer := Buf.NewSize junk (1 + AddrPortLen (rq_Destination request)) in
  let! p := (Must [errors_only (Buf.Write [bool_byte (rq_IsConnect request)])] ;;
             WriteAddrPort SocksaddrSerializer (rq_Destination request)) buffer in
  match p.1 with
  | Some e => let! _ := Buf.Release p.2 in Val (Err e)
  | None => Val (Ok p.2)
  end.
Definition WriteRequest (junk : Z -> list Z) (request : Request) (w : writer) : outcome (option error * writer) :=
  let! b := EncodeRequest junk request in
  match b with
  | Err e => Val (Some e, w)
  | Ok buffer => let! bs := contents buffer in let! _ := Buf.Release buffer in Val (WriteBytes bs w)
  end.

(** ** The packets: conn.go

    [uc_vectorised] tells whether the connection below has a writer for several
    buffers; such a writer sends them one after the other. *)
Record Conn := mkConn { uc_in : reader; uc_out : writer; uc_isConnect : bool; uc_destination : Socksaddr; uc_vectorised : bool }.
Abbreviation U := (GoM Conn).
Definition NewConn (r : reader) (w : writer) (vectorised : bool) (request : Request) : Conn :=
  mkConn r w (rq_IsConnect request) (rq_Destination request) vectorised.
Definition with_in (r : reader) (c : Conn) : Conn := mkConn r (uc_out c) (uc_isConnect c) (uc_destination c) (uc_vectorised c).
Definition with_out (w : writer) (c : Conn) : Conn := mkConn (uc_in c) w (uc_isConnect c) (uc_destination c) (uc_vectorised c).

(** The destination and the length in front of a packet. *)
Definition read_header (isConnect : bool) (destination : Socksaddr) (r : reader) : result (Socksaddr * Z) * reader :=
  rd_bind (if isConnect then (Ok destination, r) else ReadAddrPort AddrParser r) (fun destination r =>
  rd_bind (read_be 2 r) (fun length r => (Ok (destination, length), r))).

Definition ReadFrom (n : nat) : U (result (list Z * netaddr)) := fun c =>
  let '(a, r) :=
    rd_bind (read_header (uc_isConnect c) (uc_destination c) (uc_in c)) (fun h r =>
    if decide (Z.of_nat n < h.2) then (Err (ErrCause "UoT read" Buf.ErrShortBuffer), r)
    else rd_bind (ReadFull (Z.to_nat h.2) r) (fun p r => (Ok (p, UDPAddr h.1), r))) in
  Val (a, with_in r c).

(** Reads from the stream deliver what has been asked for while there are bytes
    left, so that two of them decide any io.ReadFull. *)
#[export] Instance reader_Reader : Buf.Reader reader := fun r n =>
  match rd_bytes r with
  | [] => (([], Some (rd_err r)), r)
  | bs => ((take n bs, None), mkReader (drop n bs) (rd_err r))
  end.
Definition read_fuel : nat := 3.

Definition ReadPacket : GoM (Conn * Buf.Buffer) (result Socksaddr) := fun s =>
  let c := s.1 in
  let '(h, r) := read_header (uc_isConnect c) (uc_destination c) (uc_in c) in
  match h with
  | Err e => Val (Err e, (with_in r c, s.2))
  | Ok (destination, length) =>
      let! q := Buf.ReadFullFrom read_fuel r length s.2 in
      let '(((_, err), r), b) := q in
      Val (match err with Some e => Err (ErrCause "UoT read" e) | None => Ok destination end, (with_in r c, b))
  end.

(** What is put in front of a packet of [n] bytes, and the size of the buffer
    for it. *)
Definition packet_header (c : Conn) (destination : Socksaddr) (n : Z) : W :=
  andthen (if uc_isConnect c then ret None else WriteAddrPort AddrParser destination)
    (Must [write_be 2 (u16 n)] ;; ret None).
Definition header_len (c : Conn) (destination : Socksaddr) (n : Z) : Z :=
  (if uc_isConnect c then 0 else AddrPortLen destination) + 2 + (if uc_vectorised c then 0 else n).

(** Both writers: the packet goes into the same buffer, or behind it. *)
Definition write_packet (junk : Z -> list Z) (p : list Z) (destination : Socksaddr) : U (Z * option error) := fun c =>
  let whole : W :=
    andthen (packet_header c destination (zlen p))
      (if uc_vectorised c then ret None else Must [errors_only (Buf.Write p)] ;; ret None) in
  let! h := build junk (header_len c destination (zlen p)) whole in
  match h with
  | Err e => Val ((0, Some e), c)
  | Ok bs =>
      let out := if uc_vectorised c then bs ++ p else bs in
      let '(err, w) := WriteBytes out (uc_out c) in
      let n := if uc_vectorised c then (match err with None => zlen p | Some _ => 0 end)
               else Z.min (zlen out) (Z.of_nat (w_room (uc_out c))) in
      Val ((n, err), with_out w c)
  end.

Definition WriteTo (junk : Z -> list Z) (p : list Z) (addr : option netaddr) : U (Z * option error) :=
  write_packet junk p (SocksaddrFromNet addr).
Definition WritePacket (junk : Z -> list Z) (b : Buf.Buffer) (destination : Socksaddr) : U (option error) := fun c =>
  let! bs := contents b in
  let! q := write_packet junk bs destination c in
  Val (q.1.2, q.2).
Definition Read (n : nat) : U (result (list Z)) := fun c =>
  let! q := ReadFrom n c in Val (match q.1 with Ok x => Ok x.1 | Err e => Err e end, q.2).
Definition Write (junk : Z -> list Z) (p : list Z) : U (Z * option error) := fun c =>
  WriteTo junk p (Some (NAOwn (uc_destination c))) c.

(** ** The first write of a client: lazy.go *)

Record LazyClientConn := mkLazy { lc_out : writer; lc_request : Request; lc_requestWritten : bool }.
Definition NewLazyClientConn (w : writer) (request : Request) : LazyClientConn := mkLazy w request false.

Definition lazy_send (bs : list Z) (c : LazyClientConn) : option error * LazyClientConn :=
  let '(err, w) := WriteBytes bs (lc_out c) in (err, mkLazy w (lc_request c) (lc_requestWritten c)).
Definition writeVectorised (junk : Z -> list Z) (buffers : list Z) : GoM LazyClientConn (option error) := fun c =>
  if lc_requestWritten c then Val (lazy_send buffers c)
  else
    let! b := EncodeRequest junk (lc_request c) in
    match b with
    | Err e => Val (Some e, c)
    | Ok request =>
        let! bs := contents request in
        let '(err, c) := lazy_send (bs ++ buffers) c in
        match err with
        | Some e => Val (Some e, c)
        | None => Val (None, mkLazy (lc_out c) (lc_request c) true)
        end
    end.
Definition WriteVectorised (junk : Z -> list Z) (buffers : list Z) : GoM LazyClientConn (option error) := fun c =>
  if lc_requestWritten c then Val (lazy_send buffers c) else writeVectorised junk buffers c.
Definition lazy_Write (junk : Z -> list Z) (p : list Z) : GoM LazyClientConn (option error) := fun c =>
  if lc_requestWritten c then Val (lazy_send p c) else writeVectorised junk p c.
Definition NeedHandshake (c : LazyClientConn) : bool := negb (lc_requestWritten c).

(** ** The server: server.go *)

Section Server.
(** Name resolution and the errors of the datagram socket. *)
Context (resolve : list Z -> option netaddr) (refuse : list Z -> netaddr -> option error).

(** The loop of loopInput with the datagrams sent so far; it ends with a break,
    which closes the connection. *)
Fixpoint input_loop (fuel : nat) (isConnect : bool) (destination : Socksaddr) (buffer : Buf.Buffer) (r : reader)
    (sent : list (list Z * netaddr)) : outcome (list (list Z * netaddr) * reader) :=
  match fuel with
  | O => OutOfFuel
  | S f =>
      let '(d, r) := if isConnect then (Ok destination, r) else ReadAddrPort AddrParser r in
      match d with
      | Err _ => Val (sent, r)
      | Ok d =>
          let resolved := if IsDomain d then
                            match resolve (Socksaddr_String d) with
                            | None => None
                            | Some addr => Some (SocksaddrFromNet (Some addr))
                            end
                          else Some d in
          match resolved with
          | None => input_loop f isConnect destination buffer r sent
          | Some d =>
              let '(length, r) := read_be 2 r in
              match length with
              | Err _ => Val (sent, r)
              | Ok length =>
                  let! q := (Buf.Reset ;; Buf.ReadFullFrom read_fuel r length) buffer in
                  let '(((_, err), r), buffer) := q in
                  match err with
                  | Some _ => Val (sent, r)
                  | None =>
                      let! bs := contents buffer in
                      match refuse bs (UDPAddr d) with
                      | Some _ => Val (sent, r)
                      | None => input_loop f isConnect destination buffer r (sent ++ [(bs, UDPAddr d)])
                      end
                  end
              end
          end
      end
  end.

Definition loopInput (junk : Z -> list Z) (fuel : nat) (version : Z) (r : reader) : outcome (list (list Z * netaddr) * reader) :=
  let '(request, r) := if decide (version = Version) then ReadRequest r else (Ok (mkRequest false zeroAddr), r) in
  match request with
  | Err _ => Val ([], r)
  | Ok request =>
      let! buffer := Buf.NewPacket junk in
      input_loop fuel (rq_IsConnect request) (rq_Destination request) buffer r []
  end.
End Server.
