(* ===== verification/UoTTheorems.v ===== *)
(** * UDP over TCP: the stream of packets *)

From S2P Require Import Prelude Buf BufTheorems BufWriter GoIO GoNet GoNetTheorems Metadata MetadataTheorems Socks5 Socks5Theorems Packets PacketsTheorems UoT.
#[local] Open Scope go_scope.

#[export] Typeclasses Opaque packet_header.

(** ** One packet *)

(** A packet with the length [n] in its header. *)
Definition enc_header (isConnect : bool) (d : Socksaddr) (n : Z) : list Z :=
  (if isConnect then [] else encode AddrParser d) ++ be 2 n.
Definition enc_packet (isConnect : bool) (dp : Socksaddr * list Z) : list Z :=
  enc_header isConnect dp.1 (zlen dp.2) ++ dp.2.
Definition addressed (isConnect : bool) (d : Socksaddr) : Prop := isConnect = false -> encodable AddrParser d.
Definition packet_ok (isConnect : bool) (dp : Socksaddr * list Z) : Prop :=
  addressed isConnect dp.1 /\ zlen dp.2 < 2 ^ 16.

#[export] Instance keeps_packet_header c d n : KeepsOwner (packet_header c d n).
Proof. unfold packet_header. apply _. Qed.

Lemma fills_packet_header c d n :
  addressed (uc_isConnect c) d -> Fills (packet_header c d n) (enc_header (uc_isConnect c) d (u16 n)).
Proof.
  intros Hd. unfold packet_header, enc_header. apply fills_andthen.
  - destruct (uc_isConnect c); [apply fills_nil|by apply fills_WriteAddrPort, Hd].
  - replace (be 2 (u16 n)) with (concat [be 2 (u16 n)]) by apply app_nil_r. apply fills_message. repeat constructor. apply fills_write_be.
Qed.

Lemma enc_header_length c d n :
  addressed (uc_isConnect c) d -> zlen (enc_header (uc_isConnect c) d n) = header_len c d 0
  /\ header_len c d 0 <= 2 + MaxSocksaddrLength.
Proof.
  intros Hd. unfold enc_header, header_len. rewrite zlen_app. assert (zlen (be 2 n) = 2) as -> by (unfold zlen; by rewrite length_be).
  assert ((if uc_vectorised c then 0 else 0) = 0) as -> by (by destruct (uc_vectorised c)).
  unfold addressed in *. destruct (uc_isConnect c); [rewrite zlen_nil; unfold MaxSocksaddrLength; lia|].
  pose proof (encode_max _ _ (Hd eq_refl)) as Hm. rewrite encode_length in *.
  change (portFirst AddrParser) with false in *. cbn [andb] in *. lia.
Qed.

(** What is written for a payload of any length. *)
Lemma write_packet_spec junk p d c :
  pool_ok junk -> addressed (uc_isConnect c) d -> 2 + MaxSocksaddrLength + zlen p <= maxAlloc ->
  let bs := enc_header (uc_isConnect c) d (u16 (zlen p)) ++ p in
  (length bs <= w_room (uc_out c))%nat ->
  write_packet junk p d c
  = Val ((if uc_vectorised c then zlen p else zlen bs, None), with_out (WriteBytes bs (uc_out c)).2 c).
Proof.
  intros Hj Hd Hmax bs Hroom. unfold write_packet. cbv zeta. pose proof (zlen_nonneg p).
  destruct (enc_header_length c d (u16 (zlen p)) Hd) as [Hh Hhm]. pose proof (zlen_nonneg (enc_header (uc_isConnect c) d (u16 (zlen p)))).
  pose proof (fills_packet_header c d (zlen p) Hd) as Hf. rewrite (WriteBytes_room bs) by done. cbn [snd].
  unfold header_len in *. destruct (uc_vectorised c) eqn:Ev.
  - rewrite (build_fills _ _ _ (enc_header (uc_isConnect c) d (u16 (zlen p)) ++ [])); [|done|lia|by apply fills_andthen; [|apply fills_nil]|rewrite app_nil_r; lia].
    cbn [obind]. rewrite app_nil_r. by rewrite (WriteBytes_room bs).
  - rewrite (build_fills _ _ _ bs); [|done|lia| |unfold bs; rewrite zlen_app; lia].
    + cbn [obind]. rewrite (WriteBytes_room bs) by done. do 3 f_equal. unfold zlen. lia.
    + apply fills_andthen; [done|]. replace p with (concat [p]) at 2 by apply app_nil_r. apply fills_message.
      repeat constructor. apply fills_Write.
Qed.

Lemma read_header_spec isConnect dst d n rest e :
  addressed isConnect d -> 0 <= n < 2 ^ 16 ->
  read_header isConnect dst (mkReader (enc_header isConnect d n ++ rest) e)
  = (Ok (if isConnect then dst else d, n), mkReader rest e).
Proof.
  intros Hd Hn. unfold read_header, enc_header. rewrite <- app_assoc. destruct isConnect.
  - cbn [app]. by rewrite rd_bind_Ok, read_be_spec.
  - rewrite ReadAddrPort_spec by (apply AddrParser_lawful || by apply Hd). by rewrite rd_bind_Ok, read_be_spec.
Qed.

Lemma ReadFrom_packet n c d p rest e :
  packet_ok (uc_isConnect c) (d, p) -> zlen p <= Z.of_nat n -> uc_in c = mkReader (enc_packet (uc_isConnect c) (d, p) ++ rest) e ->
  ReadFrom n c = Val (Ok (p, UDPAddr (if uc_isConnect c then uc_destination c else d)), with_in (mkReader rest e) c).
Proof.
  intros [Hd Hp] Hn Hin. unfold ReadFrom. rewrite Hin. unfold enc_packet. cbn [fst snd] in *. rewrite <- app_assoc.
  pose proof (zlen_nonneg p). rewrite read_header_spec by (done || lia). rewrite rd_bind_Ok. cbn [fst snd].
  rewrite decide_False by lia. by rewrite (ReadFull_app' _ p) by (unfold zlen; lia).
Qed.

(** *** Into a buffer *)

Lemma copy_to_narrow lo hi hi' src b :
  zlen src <= hi - lo -> zlen src <= hi' - lo -> copy_to (lo, hi) src b = copy_to (lo, hi') src b.
Proof. intros H1 H2. unfold copy_to. cbn [fst snd]. unfold zlen in *. by rewrite !Nat.min_r by lia. Qed.

Lemma ReadFullFrom_spec p rest e b z :
  Rep b z -> zlen p <= zlen (free z) ->
  exists b', ReadFullFrom read_fuel (mkReader (p ++ rest) e) (zlen p) b = Val ((zlen p, None, mkReader rest e), b')
    /\ Rep b' (push p z).
Proof.
  intros HR Hl. pose proof HR as HR0. apply rep_inv in HR0 as (rf & mg & Eb & Hsmall). pose proof (zlen_nonneg p).
  unfold ReadFullFrom. rewrite !bind_gets. rewrite (rep_end _ _ HR), (rep_capacity _ _ HR).
  rewrite i64_small by blia. rewrite decide_False by lia.
  erewrite bind_run by (apply slice_run; rewrite ?(rep_data _ _ HR); blia). cbn [fst snd].
  replace (Z.to_nat _) with (length p) by (unfold zlen; lia).
  assert (ReadAtLeast read_fuel (mkReader (p ++ rest) e) (length p) (length p) [] = Val (p, None, mkReader rest e)) as ->.
  { unfold read_fuel. cbn [ReadAtLeast length]. destruct p as [|x p]; [done|]. rewrite decide_False by (cbn; lia).
    unfold rd_step, reader_Reader. cbn [rd_bytes rd_err app]. rewrite Nat.sub_0_r.
    change (x :: p ++ rest) with ((x :: p) ++ rest). rewrite take_app_length, drop_app_length. cbn [app].
    by rewrite decide_True by lia. }
  destruct (fill_step b z p (ret (zlen p, None : option error, mkReader rest e)) HR Hl) as (b' & HR' & Hrun). exists b'. split; [|done].
  etransitivity; [|exact Hrun]. unfold bind at 1 3. by rewrite (copy_to_narrow _ _ (zlen (before z) + zlen (content z) + zlen (free z))) by lia.
Qed.

Lemma ReadPacket_packet c d p rest e b z :
  packet_ok (uc_isConnect c) (d, p) -> uc_in c = mkReader (enc_packet (uc_isConnect c) (d, p) ++ rest) e ->
  Rep b z -> zlen p <= zlen (free z) ->
  exists b', ReadPacket (c, b) = Val (Ok (if uc_isConnect c then uc_destination c else d), (with_in (mkReader rest e) c, b'))
    /\ Rep b' (push p z).
Proof.
  intros [Hd Hp] Hin HR Hl. unfold ReadPacket. cbn [fst snd] in *. rewrite Hin. unfold enc_packet. cbn [fst snd]. rewrite <- app_assoc.
  pose proof (zlen_nonneg p). rewrite read_header_spec by (done || lia).
  destruct (ReadFullFrom_spec p rest e b z HR Hl) as (b' & Hr & HR'). rewrite Hr. cbn [obind]. by exists b'.
Qed.

(** ** Streams of packets *)

(** Writing and reading packet after packet. *)
Fixpoint write_all (junk : Z -> list Z) (ps : list (Socksaddr * list Z)) : GoM Conn (list (option error)) :=
  match ps with
  | [] => ret []
  | (d, p) :: ps => r <- write_packet junk p d ;; rs <- write_all junk ps ;; ret (r.2 :: rs)
  end.
Fixpoint read_all (n : nat) (k : nat) : GoM Conn (list (result (list Z * netaddr))) :=
  match k with
  | O => ret []
  | S k => r <- ReadFrom n ;; rs <- read_all n k ;; ret (r :: rs)
  end.
Definition stream (isConnect : bool) (ps : list (Socksaddr * list Z)) : list Z := concat (map (enc_packet isConnect) ps).
Definition source (c : Conn) (d : Socksaddr) : netaddr := UDPAddr (if uc_isConnect c then uc_destination c else d).

Lemma write_all_spec junk ps c :
  pool_ok junk -> Forall (packet_ok (uc_isConnect c)) ps -> (length (stream (uc_isConnect c) ps) <= w_room (uc_out c))%nat ->
  write_all junk ps c = Val (replicate (length ps) None, with_out (WriteBytes (stream (uc_isConnect c) ps) (uc_out c)).2 c).
Proof.
  intros Hj Hps. revert c Hps. induction ps as [|[d p] ps IH]; intros c Hps Hroom.
  - cbn. destruct c as [r [o n e] ? ? ?]. unfold WriteBytes, with_out. cbn. by rewrite app_nil_r, Nat.sub_0_r.
  - apply Forall_cons in Hps as [[Hd Hp] Hps]. cbn [fst snd] in *. cbn [write_all length replicate].
    unfold stream in *. cbn [map concat] in *. rewrite length_app in Hroom. pose proof (zlen_nonneg p).
    assert (enc_packet (uc_isConnect c) (d, p) = enc_header (uc_isConnect c) d (u16 (zlen p)) ++ p) as E.
    { unfold enc_packet. cbn [fst snd]. by rewrite u16_small. }
    assert (write_packet junk p d c = Val ((if uc_vectorised c then zlen p else zlen (enc_packet (uc_isConnect c) (d, p)), None),
              with_out (WriteBytes (enc_packet (uc_isConnect c) (d, p)) (uc_out c)).2 c)) as Hw.
    { rewrite E in *. apply write_packet_spec; [done..| |lia]. unfold maxAlloc, MaxSocksaddrLength. lia. }
    rewrite (bind_run _ _ _ _ _ Hw). rewrite WriteBytes_room by lia. cbn [snd].
    erewrite bind_run by (apply IH; cbn [with_out uc_isConnect uc_out w_room]; [done|lia]).
    cbn [with_out uc_isConnect uc_out uc_in uc_destination uc_vectorised].
    rewrite !WriteBytes_room by (cbn [w_room]; rewrite ?length_app; lia).
    unfold ret, with_out. cbn [uc_isConnect uc_in uc_destination uc_vectorised snd w_out w_room w_err].
    rewrite <- app_assoc, length_app. rewrite Nat.sub_add_distr. reflexivity.
Qed.

Lemma read_all_spec n ps c rest e :
  Forall (packet_ok (uc_isConnect c)) ps -> Forall (fun dp => zlen dp.2 <= Z.of_nat n) ps ->
  uc_in c = mkReader (stream (uc_isConnect c) ps ++ rest) e ->
  read_all n (length ps) c = Val (map (fun dp => Ok (dp.2, source c dp.1)) ps, with_in (mkReader rest e) c).
Proof.
  intros Hps Hn. revert c Hps. induction Hn as [|[d p] ps Hp Hn IH]; intros c Hps Hin.
  - cbn in *. destruct c. cbn in *. by subst.
  - apply Forall_cons in Hps as [Hdp Hps]. cbn [read_all length map fst snd] in *.
    unfold stream in Hin. cbn [map concat] in Hin. rewrite <- app_assoc in Hin.
    rewrite (bind_run _ _ _ _ _ (ReadFrom_packet n c d p _ e Hdp Hp Hin)).
    by rewrite (bind_run _ _ _ _ _ (IH (with_in _ c) Hps eq_refl)).
Qed.

(** C14: UDP over TCP carries packets.  Any sequence of packets of less than 64 KiB,
    written to a connection with room, vectorised or not, is read back on the
    other side packet by packet with the same boundaries, payloads and
    addresses (in connect mode the fixed destination), in the same order, and
    what follows in the stream is left alone; reading a packet into a buffer
    appends exactly its payload. *)
Theorem uot_stream_fifo junk ps c n s rest e :
  pool_ok junk -> uc_isConnect s = uc_isConnect c -> Forall (packet_ok (uc_isConnect c)) ps ->
  (length (stream (uc_isConnect c) ps) <= w_room (uc_out c))%nat ->
  exists bs, write_all junk ps c
    = Val (replicate (length ps) None, with_out (mkWriter (w_out (uc_out c) ++ bs) (w_room (uc_out c) - length bs) (w_err (uc_out c))) c)
  /\ (Forall (fun dp => zlen dp.2 <= Z.of_nat n) ps -> uc_in s = mkReader (bs ++ rest) e ->
        read_all n (length ps) s = Val (map (fun dp => Ok (dp.2, source s dp.1)) ps, with_in (mkReader rest e) s))
  /\ (forall d p b z, ps = [(d, p)] -> uc_in s = mkReader (bs ++ rest) e -> Rep b z -> zlen p <= zlen (free z) ->
        exists b', ReadPacket (s, b) = Val (Ok (if uc_isConnect s then uc_destination s else d), (with_in (mkReader rest e) s, b'))
          /\ Rep b' (push p z)).
Proof.
  intros Hj Hc Hps Hroom. exists (stream (uc_isConnect c) ps). rewrite <- Hc in *. split_and!.
  - rewrite write_all_spec by (by rewrite <- ?Hc). rewrite <- Hc. by rewrite WriteBytes_room.
  - intros Hn Hin. by apply read_all_spec.
  - intros d p b z -> Hin HR Hr. apply Forall_cons in Hps as [Hdp _]. apply ReadPacket_packet; try done.
    rewrite Hin. unfold stream. cbn [map concat]. by rewrite app_nil_r.
Qed.

(** *** Outside the limits *)

(** C38: The length field has 16 bits and nobody checks it.  A payload of 64 KiB or
    more is written whole, without an error, behind its length modulo 2^16: the
    other side reads that many bytes as the packet and takes the rest of the
    payload for the header of the next one.  A reader whose slice is too small
    gets an error and leaves the payload in the stream, with the same effect. *)
Theorem uot_stream_limits junk p d c s n rest e :
  pool_ok junk -> addressed (uc_isConnect c) d -> 2 + MaxSocksaddrLength + zlen p <= maxAlloc ->
  uc_isConnect s = uc_isConnect c ->
  let bs := enc_header (uc_isConnect c) d (u16 (zlen p)) ++ p in
  (length bs <= w_room (uc_out c))%nat -> uc_in s = mkReader (bs ++ rest) e ->
  (exists k, write_packet junk p d c = Val ((k, None), with_out (WriteBytes bs (uc_out c)).2 c))
  /\ (2 ^ 16 <= zlen p -> u16 (zlen p) <= Z.of_nat n ->
      ReadFrom n s = Val (Ok (ztake (u16 (zlen p)) p, source s d), with_in (mkReader (zdrop (u16 (zlen p)) p ++ rest) e) s)
      /\ zdrop (u16 (zlen p)) p <> [])
  /\ (Z.of_nat n < zlen p < 2 ^ 16 ->
      ReadFrom n s = Val (Err (ErrCause "UoT read" ErrShortBuffer), with_in (mkReader (p ++ rest) e) s)).
Proof.
  intros Hj Hd Hmax Hs bs Hroom Hin. pose proof (zlen_nonneg p).
  assert (0 <= u16 (zlen p) < 2 ^ 16) as Hu by (unfold u16; apply Z.mod_pos_bound; lia).
  assert (read_header (uc_isConnect s) (uc_destination s) (uc_in s)
    = (Ok (if uc_isConnect s then uc_destination s else d, u16 (zlen p)), mkReader (p ++ rest) e)) as Hh.
  { rewrite Hin, Hs. unfold bs. rewrite <- app_assoc. by apply read_header_spec. }
  split_and!.
  - eexists. by apply write_packet_spec.
  - intros Hp Hn. split.
    + unfold ReadFrom. rewrite Hh, rd_bind_Ok. cbn [fst snd]. rewrite decide_False by lia.
      assert (u16 (zlen p) <= zlen p) as Hle by lia.
      rewrite <- (ztake_zdrop (u16 (zlen p)) p) at 2. rewrite <- app_assoc.
      rewrite (ReadFull_app' _ (ztake (u16 (zlen p)) p)); [done|].
      unfold ztake. rewrite length_take. unfold zlen in *. lia.
    + intros E. pose proof (zlen_zdrop (u16 (zlen p)) p) as El. rewrite E, zlen_nil in El. lia.
  - intros Hn. unfold ReadFrom. rewrite Hh, rd_bind_Ok, u16_small by lia. cbn [fst snd]. by rewrite decide_True by lia.
Qed.

(** ** The request *)

Definition enc_request (m : Request) : list Z := bool_byte (rq_IsConnect m) :: encode SocksaddrSerializer (rq_Destination m).

Lemma request_length m :
  encodable SocksaddrSerializer (rq_Destination m) ->
  zlen (enc_request m) = 1 + AddrPortLen (rq_Destination m) /\ 0 <= AddrPortLen (rq_Destination m) <= MaxSocksaddrLength.
Proof.
  intros Hd. unfold enc_request. pose proof (encode_max _ _ Hd) as Hm. pose proof (zlen_nonneg (encode SocksaddrSerializer (rq_Destination m))).
  rewrite zlen_cons, encode_length in *. change (portFirst SocksaddrSerializer) with false in *. cbn [andb] in *. lia.
Qed.

Lemma EncodeRequest_spec junk m :
  pool_ok junk -> encodable SocksaddrSerializer (rq_Destination m) ->
  exists b, EncodeRequest junk m = Val (Ok b) /\ contents b = Val (enc_request m) /\ releasable b.
Proof.
  intros Hj Hd. destruct (request_length m Hd) as [Hl Hmax].
  destruct (NewSize_fresh junk (1 + AddrPortLen (rq_Destination m)) Hj) as (b & z & Hnew & HR & Hb & Hc & Hf & Hrel).
  { unfold maxAlloc, MaxSocksaddrLength in *. lia. }
  assert (Fills (Must [errors_only (Buf.Write [bool_byte (rq_IsConnect m)])] ;; WriteAddrPort SocksaddrSerializer (rq_Destination m)) (enc_request m)) as Hm.
  { change (enc_request m) with (concat [[bool_byte (rq_IsConnect m)]] ++ encode SocksaddrSerializer (rq_Destination m)).
    apply fills_Must; [repeat constructor; apply fills_Write|by apply fills_WriteAddrPort]. }
  destruct (Hm b z HR ltac:(lia)) as (b' & Hrun & HR'). exists b'. split_and!.
  - unfold EncodeRequest. rewrite Hnew. cbn [obind]. by rewrite Hrun.
  - rewrite (Rep_contents _ _ HR'). cbn [push content]. by rewrite Hc.
  - eapply releasable_keeps; [|exact Hrun|exact HR|exact HR'|lia|done]. apply _.
Qed.

Lemma uot_request_written junk m w :
  pool_ok junk -> encodable SocksaddrSerializer (rq_Destination m) ->
  WriteRequest junk m w = Val (WriteBytes (enc_request m) w).
Proof.
  intros Hj Hd. destruct (EncodeRequest_spec junk m Hj Hd) as (b & Hb & Hc & Hrel).
  unfold WriteRequest. rewrite Hb. cbn [obind]. rewrite Hc. cbn [obind].
  by destruct (Release_ok b Hrel) as (x & b' & ->).
Qed.

Lemma uot_request_read m rest e :
  encodable SocksaddrSerializer (rq_Destination m) -> ReadRequest (mkReader (enc_request m ++ rest) e) = (Ok m, mkReader rest e).
Proof.
  intros Hd. unfold ReadRequest, read_bool, enc_request. cbn [app].
  change (bool_byte (rq_IsConnect m) :: ?l) with ([bool_byte (rq_IsConnect m)] ++ l).
  rewrite (ReadFull_app' 1) by done. rewrite !rd_bind_Ok.
  rewrite ReadAddrPort_spec by (done || apply SocksaddrSerializer_lawful). rewrite rd_bind_Ok.
  destruct m as [[] d]; done.
Qed.

(** The writes of a lazy client. *)
Fixpoint lazy_writes (junk : Z -> list Z) (ws : list (list Z)) : GoM LazyClientConn (list (option error)) :=
  match ws with
  | [] => ret []
  | w :: ws => r <- lazy_Write junk w ;; rs <- lazy_writes junk ws ;; ret (r :: rs)
  end.

Lemma lazy_writes_done junk ws c :
  lc_requestWritten c = true -> (length (concat ws) <= w_room (lc_out c))%nat ->
  lazy_writes junk ws c = Val (replicate (length ws) None, mkLazy (WriteBytes (concat ws) (lc_out c)).2 (lc_request c) true).
Proof.
  revert c. induction ws as [|p ws IH]; intros c Hc Hroom.
  - cbn in *. destruct c as [[o n e] ? ?]. cbn in *. subst. unfold WriteBytes. cbn. by rewrite app_nil_r, Nat.sub_0_r.
  - cbn [lazy_writes concat length replicate] in *. rewrite length_app in Hroom.
    assert (lazy_Write junk p c = Val (None, mkLazy (WriteBytes p (lc_out c)).2 (lc_request c) true)) as Hw.
    { unfold lazy_Write, lazy_send. rewrite Hc. by rewrite WriteBytes_room by lia. }
    rewrite (bind_run _ _ _ _ _ Hw). rewrite !WriteBytes_room by (rewrite ?length_app; lia). cbn [snd].
    erewrite bind_run by (apply IH; cbn [lc_requestWritten lc_out w_room]; [done|lia]).
    cbn [lc_out lc_request]. rewrite !WriteBytes_room by (cbn [w_room]; lia). cbn [snd w_out w_room w_err].
    by rewrite <- app_assoc, length_app, Nat.sub_add_distr.
Qed.

(** The request opens the stream exactly once.  A request with a writable
    destination is read back by the server with the rest of the stream left
    alone, and a lazy client sends it in front of its first write, in the same
    write, and never again: whatever is written, the server sees the request and
    then the written bytes. *)
Theorem uot_request_once junk m w ws rest e :
  pool_ok junk -> encodable SocksaddrSerializer (rq_Destination m) -> ws <> [] ->
  (length (enc_request m ++ concat ws) <= w_room w)%nat ->
  WriteRequest junk m w = Val (WriteBytes (enc_request m) w)
  /\ ReadRequest (mkReader (enc_request m ++ rest) e) = (Ok m, mkReader rest e)
  /\ exists c, lazy_writes junk ws (NewLazyClientConn w m) = Val (replicate (length ws) None, c)
       /\ w_out (lc_out c) = w_out w ++ enc_request m ++ concat ws
       /\ NeedHandshake c = false /\ NeedHandshake (NewLazyClientConn w m) = true.
Proof.
  intros Hj Hd Hws Hroom. split_and!; [by apply uot_request_written|by apply uot_request_read|].
  destruct ws as [|p ws]; [done|]. cbn [concat] in Hroom.
  assert (length (enc_request m) + length p + length (concat ws) <= w_room w)%nat as Hr by (rewrite !length_app in Hroom; lia).
  destruct (EncodeRequest_spec junk m Hj Hd) as (b & Hb & Hc & _).
  assert (lazy_Write junk p (NewLazyClientConn w m)
    = Val (None, mkLazy (WriteBytes (enc_request m ++ p) w).2 m true)) as Hw.
  { unfold lazy_Write, writeVectorised. cbn [NewLazyClientConn lc_requestWritten lc_request]. rewrite Hb. cbn [obind].
    rewrite Hc. cbn [obind]. unfold lazy_send, NewLazyClientConn. cbn [lc_out]. by rewrite WriteBytes_room by (rewrite length_app; lia). }
  eexists. cbn [lazy_writes length replicate]. rewrite (bind_run _ _ _ _ _ Hw).
  rewrite WriteBytes_room by (rewrite length_app; lia). cbn [snd].
  erewrite bind_run by (apply lazy_writes_done; cbn [lc_requestWritten lc_out w_room]; rewrite ?length_app; [done|lia]).
  split_and!; [done| |done..]. cbn [lc_out]. rewrite WriteBytes_room by (cbn [w_room]; rewrite length_app; lia).
  cbn [snd lc_out w_out concat]. by rewrite <- !app_assoc.
Qed.

(** ** The server *)

Section Server.
Context (resolve : list Z -> option netaddr) (refuse : list Z -> netaddr -> option error).

(** Where a datagram for [d] goes. *)
Definition target (d : Socksaddr) : option Socksaddr :=
  if IsDomain d then option_map (fun addr => SocksaddrFromNet (Some addr)) (resolve (Socksaddr_String d)) else Some d.
Definition dest (isConnect : bool) (dst d : Socksaddr) : Socksaddr := if isConnect then dst else d.
Definition relayed (isConnect : bool) (dst : Socksaddr) (dp : Socksaddr * list Z) : list Z * netaddr :=
  (dp.2, UDPAddr (default zeroAddr (target (dest isConnect dst dp.1)))).
(** A packet that reaches its target. *)
Definition deliverable (isConnect : bool) (dst : Socksaddr) (dp : Socksaddr * list Z) : Prop :=
  packet_ok isConnect dp /\ zlen dp.2 <= UDPBufferSize /\ is_Some (target (dest isConnect dst dp.1))
  /\ refuse dp.2 (relayed isConnect dst dp).2 = None.

Lemma resolved_target d :
  (if IsDomain d then match resolve (Socksaddr_String d) with None => None | Some addr => Some (SocksaddrFromNet (Some addr)) end
   else Some d) = target d.
Proof. unfold target, option_map. by destruct (IsDomain d), (resolve (Socksaddr_String d)). Qed.

Lemma input_loop_end f isConnect dst b sent :
  (isConnect = true -> is_Some (target dst)) ->
  input_loop resolve refuse (S f) isConnect dst b (mkReader [] EOF) sent = Val (sent, mkReader [] EOF).
Proof.
  intros Hc. cbn [input_loop]. destruct isConnect; [|done]. rewrite resolved_target. destruct (Hc eq_refl) as [t ->]. done.
Qed.

Lemma input_loop_step f isConnect dst b z dp rest sent :
  Rep b z -> dlen b = UDPBufferSize -> deliverable isConnect dst dp ->
  exists b' z', Rep b' z' /\ dlen b' = UDPBufferSize /\
  input_loop resolve refuse (S f) isConnect dst b (mkReader (enc_packet isConnect dp ++ rest) EOF) sent
  = input_loop resolve refuse f isConnect dst b' (mkReader rest EOF) (sent ++ [relayed isConnect dst dp]).
Proof.
  intros HR Hb ((Hd & Hp) & Hl & [t Ht] & Hsend). destruct dp as [d p]. cbn [fst snd] in *.
  destruct (Reset_does b z HR) as (b1 & H1 & HR1). set (z1 := mkWindow _ _ _ _ _) in HR1. pose proof (zlen_nonneg p).
  assert (zlen (free z1) = UDPBufferSize) as Hf.
  { rewrite <- Hb, (rep_dlen _ _ HR). subst z1. cbn [free]. rewrite !zlen_app. lia. }
  destruct (ReadFullFrom_spec p rest EOF b1 z1 HR1 ltac:(lia)) as (b2 & H2 & HR2).
  exists b2, (push p z1). split_and!; [done| |].
  { rewrite (rep_dlen _ _ HR2). cbn [push before content free reserved]. rewrite zlen_zdrop, zlen_app.
    subst z1. cbn [before content free reserved] in *. rewrite !zlen_nil. lia. }
  cbn [input_loop]. pose proof (read_header_spec isConnect dst d (zlen p) (p ++ rest) EOF Hd ltac:(lia)) as Hh.
  unfold enc_packet. cbn [fst snd]. rewrite <- app_assoc. unfold read_header in Hh.
  destruct (if isConnect then _ else _) as [[d'|] r] eqn:E; [|done].
  rewrite rd_bind_Ok in Hh. apply rd_bind_inv in Hh as (n & r1 & Hn & [= -> -> ->]).
  rewrite resolved_target. fold (dest isConnect dst d). rewrite Ht, Hn. rewrite (bind_run _ _ _ _ _ H1), H2. cbn [obind].
  rewrite (Rep_contents _ _ HR2). cbn [obind push content]. subst z1. cbn [content app].
  unfold relayed in *. cbn [fst snd] in *. rewrite Ht in *. change (default zeroAddr (Some t)) with t in *. by rewrite Hsend.
Qed.

Lemma input_loop_relays fuel isConnect dst b z ps sent :
  Rep b z -> dlen b = UDPBufferSize -> (isConnect = true -> is_Some (target dst)) ->
  Forall (deliverable isConnect dst) ps -> (length ps < fuel)%nat ->
  input_loop resolve refuse fuel isConnect dst b (mkReader (stream isConnect ps) EOF) sent
  = Val (sent ++ map (relayed isConnect dst) ps, mkReader [] EOF).
Proof.
  intros HR Hb Hc Hps. revert fuel b z sent HR Hb. induction Hps as [|dp ps Hdp _ IH]; intros [|f] b z sent HR Hb Hf; cbn [length] in Hf; try lia.
  - cbn [map stream concat]. rewrite app_nil_r. by apply input_loop_end.
  - unfold stream. cbn [map concat].
    destruct (input_loop_step f isConnect dst b z dp (stream isConnect ps) sent HR Hb Hdp) as (b' & z' & HR' & Hb' & E).
    etransitivity; [exact E|]. rewrite (IH f b' z') by (done || lia). by rewrite <- app_assoc.
Qed.

Lemma NewPacket_fresh junk : pool_ok junk -> exists b z, NewPacket junk = Val b /\ Rep b z /\ dlen b = UDPBufferSize.
Proof.
  intros Hj. destruct (NewSize_rep junk UDPBufferSize Hj ltac:(unfold maxAlloc; vm_compute; done)) as (n & zn & H1 & H2 & _).
  exists n, zn. split_and!; [done|done|]. vm_compute in H1. by injection H1 as <-.
Qed.

(** C29: The server relays the stream.  It sends every packet, up to the size of its
    buffer and as long as the socket takes them, as one datagram with the
    packet's payload to the packet's address, names being resolved, in the order
    of the stream, and stops at the end of the stream; with version 2 the request
    comes first and can fix the destination. *)
Theorem uot_server_relays junk fuel m ps :
  pool_ok junk -> (length ps < fuel)%nat ->
  (Forall (deliverable false zeroAddr) ps ->
     loopInput resolve refuse junk fuel LegacyVersion (mkReader (stream false ps) EOF)
     = Val (map (relayed false zeroAddr) ps, mkReader [] EOF))
  /\ (encodable SocksaddrSerializer (rq_Destination m) -> (rq_IsConnect m = true -> is_Some (target (rq_Destination m))) ->
      Forall (deliverable (rq_IsConnect m) (rq_Destination m)) ps ->
      loopInput resolve refuse junk fuel Version (mkReader (enc_request m ++ stream (rq_IsConnect m) ps) EOF)
      = Val (map (relayed (rq_IsConnect m) (rq_Destination m)) ps, mkReader [] EOF)).
Proof.
  intros Hj Hf. destruct (NewPacket_fresh junk Hj) as (b & z & Hb & HR & Hl). split.
  - intros Hps. unfold loopInput. rewrite decide_False by done. rewrite Hb. cbn [obind rq_IsConnect rq_Destination].
    by rewrite (input_loop_relays fuel false zeroAddr b z ps []).
  - intros Hd Hc Hps. unfold loopInput. rewrite decide_True by done. rewrite uot_request_read by done. rewrite Hb. cbn [obind].
    by rewrite (input_loop_relays fuel _ _ b z ps []).
Qed.

(** C35: A name that cannot be resolved breaks the server.  In connect mode the loop
    then never ends and reads nothing any more; otherwise it goes on without
    skipping the length and the payload, which it takes for the address of the
    next packet. *)
Theorem uot_server_unresolved :
  (forall fuel dst b r sent, target dst = None -> input_loop resolve refuse fuel true dst b r sent = OutOfFuel)
  /\ (forall f dst d p rest b sent, encodable AddrParser d -> target d = None ->
        input_loop resolve refuse (S f) false dst b (mkReader (enc_packet false (d, p) ++ rest) EOF) sent
        = input_loop resolve refuse f false dst b (mkReader (be 2 (zlen p) ++ p ++ rest) EOF) sent).
Proof.
  split.
  - intros fuel dst b r sent Ht. induction fuel as [|f IH]; [done|]. cbn [input_loop]. by rewrite resolved_target, Ht.
  - intros f dst d p rest b sent Hd Ht. cbn [input_loop]. unfold enc_packet, enc_header. cbn [fst snd]. rewrite <- !app_assoc.
    rewrite ReadAddrPort_spec by (done || apply AddrParser_lawful). by rewrite resolved_target, Ht.
Qed.
End Server.

(** ** Witnesses *)

Lemma uot_name_ok : encodable AddrParser some_name.
Proof. split; [by eexists|done|done|done| |done]. intros _. split_and!; [by apply (bool_decide_eq_true_1 _)|done|done]. Qed.
Lemma uot_v4_ok : encodable AddrParser some_v4.
Proof. split; [by eexists|done| |done|done|done]. split_and!; [split; done|done|done]. Qed.

Definition two_packets : list (Socksaddr * list Z) := [(some_v4, [1; 2; 3]); (some_name, [])].
Lemma two_packets_ok : Forall (packet_ok false) two_packets.
Proof.
  apply Forall_cons; split; [split; [intros _; exact uot_v4_ok|done]|].
  apply Forall_cons; split; [split; [intros _; exact uot_name_ok|done]|constructor].
Qed.
Definition some_conn (r : reader) : Conn := NewConn r (mkWriter [] 1000 EOF) false (mkRequest false zeroAddr).

Lemma uot_stream_fifo_witness :
  exists bs c', write_all sevens two_packets (some_conn (mkReader [] EOF)) = Val ([None; None], c')
  /\ read_all 10 2 (some_conn (mkReader (bs ++ [9]) EOF))
     = Val ([Ok ([1; 2; 3], UDPAddr some_v4); Ok ([], UDPAddr some_name)], some_conn (mkReader [9] EOF)).
Proof.
  exists (stream false two_packets).
  destruct (uot_stream_fifo sevens two_packets (some_conn (mkReader [] EOF)) 10 (some_conn (mkReader (stream false two_packets ++ [9]) EOF)) [9] EOF sevens_ok
    eq_refl two_packets_ok) as (bs & H1 & H2 & _); [by vm_compute; lia|].
  eexists. split; [exact H1|].
  assert (bs = stream false two_packets) as E.
  { vm_compute in H1. injection H1 as H1. rewrite <- H1. by vm_compute. }
  rewrite E in H2. apply (H2 ltac:(repeat constructor; vm_compute; discriminate) eq_refl).
Defined.

Lemma uot_stream_limits_witness :
  let p := replicate 5 7 in let c := some_conn (mkReader [] EOF) in
  let bs := enc_header false some_v4 (u16 (zlen p)) ++ p in
  let s := some_conn (mkReader (bs ++ [9]) EOF) in
  ReadFrom 3 s = Val (Err (ErrCause "UoT read" ErrShortBuffer), with_in (mkReader (p ++ [9]) EOF) s).
Proof.
  intros p c bs s. destruct (uot_stream_limits sevens p some_v4 c s 3 [9] EOF sevens_ok) as (_ & _ & H).
  - intros _. exact uot_v4_ok.
  - by vm_compute.
  - reflexivity.
  - vm_compute. lia.
  - reflexivity.
  - apply H. by vm_compute.
Defined.

Lemma uot_request_once_witness :
  let m := mkRequest true some_name in
  ReadRequest (mkReader (enc_request m ++ [9]) EOF) = (Ok m, mkReader [9] EOF)
  /\ exists c, lazy_writes sevens [[1; 2]; [3]] (NewLazyClientConn (mkWriter [] 1000 EOF) m) = Val ([None; None], c)
       /\ w_out (lc_out c) = enc_request m ++ [1; 2; 3] /\ NeedHandshake c = false.
Proof.
  intros m. destruct (uot_request_once sevens m (mkWriter [] 1000 EOF) [[1; 2]; [3]] [9] EOF sevens_ok some_name_ok)
    as (_ & H1 & c & H2 & H3 & H4 & _); [discriminate|vm_compute; lia|].
  split; [exact H1|]. exists c. split_and!; [exact H2|exact H3|exact H4].
Defined.

(** A resolver that knows every name, and a socket that takes every datagram. *)
Definition to_v4 (_ : list Z) : option netaddr := Some (NAOwn some_v4).
Definition takes (_ : list Z) (_ : netaddr) : option error := None.

Lemma uot_server_relays_witness :
  loopInput to_v4 takes sevens 3 LegacyVersion (mkReader (stream false two_packets) EOF)
  = Val ([([1; 2; 3], UDPAddr some_v4); ([], UDPAddr some_v4)], mkReader [] EOF).
Proof.
  destruct (uot_server_relays to_v4 takes sevens 3 (mkRequest false zeroAddr) two_packets sevens_ok) as (H & _); [cbn; lia|].
  etransitivity; [apply H|reflexivity].
  apply Forall_cons; split; [|apply Forall_cons; split; [|constructor]].
  - split_and!; [split; [intros _; exact uot_v4_ok|vm_compute; reflexivity]|vm_compute; discriminate|eexists; reflexivity|reflexivity].
  - split_and!; [split; [intros _; exact uot_name_ok|vm_compute; reflexivity]|vm_compute; discriminate|eexists; reflexivity|reflexivity].
Defined.

Lemma uot_server_unresolved_witness :
  input_loop (fun _ => None) takes 20 true some_name zeroBuffer (mkReader [] EOF) [] = OutOfFuel.
Proof. apply (proj1 (uot_server_unresolved (fun _ => None) takes)); reflexivity. Defined.
