(* ===== verification/Handshake.v ===== *)
(** * The SOCKS handshakes: protocol/socks and common/auth

    Both ends of a SOCKS connection as programs over a connection, what comes in
    and what goes out: ClientHandshake4 and ClientHandshake5, HandleConnectionEx
    up to the point where the connection is handed to the application, and
    LazyConn, which sends the server's reply with the first use of the connection.
    A function that returns a response together with an error returns only the
    error here. *)

From S2P Require Import Prelude GoIO GoNet BufWriter Metadata.
From S2P Require Socks4 Socks5 Packets.
From S2P Require Buf.
#[local] Open Scope go_scope.

(** ** common/auth *)

Record User := mkUser { us_Username : list Z; us_Password : list Z }.
Definition Authenticator : Type := gmap (list Z) (list (list Z)).

(** [None] is the nil pointer: no authentication. *)
Definition NewAuthenticator (users : list User) : option Authenticator :=
  if decide (users = []) then None
  else Some (foldl (fun au u => <[us_Username u := default [] (au !! us_Username u) ++ [us_Password u]]> au) ∅ users).
Definition Verify (au : Authenticator) (username password : list Z) : bool :=
  match au !! username with
  | Some passwordList => bool_decide (password ∈ passwordList)
  | None => false
  end.

(** ** A connection *)

Record conn := mkConn { c_in : reader; c_out : writer }.
Abbreviation M := (GoM conn).

Definition receive {A} (dec : reader -> result A * reader) : M (result A) := fun c =>
  let '(a, r) := dec (c_in c) in Val (a, mkConn r (c_out c)).
Definition receive' {A} (dec : reader -> outcome (result A * reader)) : M (result A) := fun c =>
  let! p := dec (c_in c) in Val (p.1, mkConn p.2 (c_out c)).
Definition send (enc : writer -> outcome (option error * writer)) : M (result unit) := fun c =>
  let! p := enc (c_out c) in
  Val (match p.1 with Some e => Err e | None => Ok tt end, mkConn (c_in c) p.2).
(** [if err != nil { return err }]. *)
Definition try {A B} (m : M (result A)) (k : A -> M (result B)) : M (result B) :=
  r <- m ;; match r with Ok a => k a | Err e => ret (Err e) end.
Definition fail {A} (msg : string) : M (result A) := ret (Err (ErrNew msg)).
(** [if err != nil { return E.Cause(err, msg) }]. *)
Definition causing {A} (msg : string) (m : M (result A)) : M (result A) :=
  r <- m ;; ret (match r with Ok a => Ok a | Err e => Err (ErrCause msg e) end).

Section Handshake.
Context (junk : Z -> list Z).

(** ** The client: handshake.go *)

Definition ClientHandshake4 (command : Z) (destination : Socksaddr) (username : list Z) : M (result Socks4.Response) :=
  try (send (Socks4.WriteRequest junk (Socks4.mkRequest command destination username))) (fun _ =>
  try (receive Socks4.ReadResponse) (fun response =>
  if decide (Socks4.rs_ReplyCode response <> Socks4.ReplyCodeGranted)
  then fail ("socks4: request rejected, code= " ++ text (Itoa (Socks4.rs_ReplyCode response)))%string
  else ret (Ok response))).

(** The destination a UDP association is asked for. *)
Definition udp_destination (destination : Socksaddr) : Socksaddr :=
  let a := sa_Addr destination in
  let a := if IsPrivate a then (if Is6 a then Addr4 0x7f000001 else Addr6 1 [])
           else if IsGlobalUnicast a then (if Is6 a then Addr6 0 [] else Addr4 0)
           else Addr6 0 [] in
  mkAddr a 0 (sa_Fqdn destination).

(** The last step, the request. *)
Definition request5 (command : Z) (destination : Socksaddr) : M (result Socks5.Response) :=
  let destination := if decide (command = Socks5.CommandUDPAssociate) then udp_destination destination else destination in
  try (send (Socks5.WriteRequest junk (Socks5.mkRequest command destination))) (fun _ =>
  try (receive Socks5.ReadResponse) (fun response =>
  if decide (Socks5.rs_ReplyCode response <> Socks5.ReplyCodeSuccess)
  then fail ("socks5: request rejected, code=" ++ text (Itoa (Socks5.rs_ReplyCode response)))%string
  else ret (Ok response))).

Definition ClientHandshake5 (command : Z) (destination : Socksaddr) (username password : list Z) : M (result Socks5.Response) :=
  let method := if decide (username = []) then Socks5.AuthTypeNotRequired else Socks5.AuthTypeUsernamePassword in
  try (send (Socks5.WriteAuthRequest junk (Socks5.mkAuthRequest [method]))) (fun _ =>
  try (receive Socks5.ReadAuthResponse) (fun authResponse =>
  if decide (Socks5.ap_Method authResponse = Socks5.AuthTypeUsernamePassword) then
    try (send (Socks5.WriteUsernamePasswordAuthRequest junk (Socks5.mkUserPass username password))) (fun _ =>
    try (receive Socks5.ReadUsernamePasswordAuthResponse) (fun usernamePasswordResponse =>
    if decide (Socks5.ur_Status usernamePasswordResponse <> Socks5.UsernamePasswordStatusSuccess)
    then fail "socks5: incorrect user name or password"
    else request5 command destination))
  else if decide (Socks5.ap_Method authResponse <> Socks5.AuthTypeNotRequired)
  then fail ("socks5: unsupported auth method: " ++ text (Itoa (Socks5.ap_Method authResponse)))%string
  else request5 command destination)).

(** ** The server: handshake.go

    How HandleConnectionEx ends when it does not return an error: it hands the
    connection to the handler, with the user of the context if there is one, or
    the packet connection of a UDP association with its first packet. *)
Inductive event :=
  | NewConnection (user : option (list Z)) (version : Z) (destination : Socksaddr)
  | NewPacketConnection (user : option (list Z)) (destination : Socksaddr) (packet : list Z).

Definition ErrInvalid : error := ErrNew "invalid argument".

Definition handle4 (authenticator : option Authenticator) : M (result event) :=
  let reject msg :=
    try (send (Socks4.WriteResponse junk (Socks4.mkResponse Socks4.ReplyCodeRejectedOrFailed zeroAddr))) (fun _ => fail msg) in
  try (receive' Socks4.ReadRequest0) (fun request =>
  let username := Socks4.rq_Username request in
  if decide (Socks4.rq_Command request = Socks4.CommandConnect) then
    if match authenticator with Some au => negb (Verify au username []) | None => false end
    then reject ("socks4: authentication failed, username=" ++ text username)%string
    else ret (Ok (NewConnection (Some username) Socks4.Version (Socks4.rq_Destination request)))
  else reject ("socks4: unsupported command " ++ text (Itoa (Socks4.rq_Command request)))%string).

(** The UDP association.  [listen] is what ListenPacket returns, with the local
    address of the socket, and [udp] what the socket receives; its deadline,
    which is part of the timeout, is an error of [udp]. *)
Section Associate.
Context (listen : result (option netaddr)) (udp : Packets.dconn).

Definition associate (user : option (list Z)) : M (result event) :=
  try (causing "socks5: listen udp" (ret listen)) (fun local =>
  try (causing "socks5: write response"
         (send (Socks5.WriteResponse junk (Socks5.mkResponse Socks5.ReplyCodeSuccess (Unwrap (SocksaddrFromNet local)))))) (fun _ =>
  try (causing "socks5: read first packet" (fun c =>
         let! firstPacket := Buf.NewPacket junk in
         let! q := Packets.ReadPacket (Packets.NewAssociatePacketConn udp zeroAddr, firstPacket) in
         match q.1 with
         | Err e => Val (Err e, c)
         | Ok destination => let! bs := contents q.2.2 in Val (Ok (destination, bs), c)
         end)) (fun packet =>
  ret (Ok (NewPacketConnection user packet.1 packet.2))))).

(** The request, for the user of the context. *)
Definition serve5 (user : option (list Z)) : M (result event) :=
  try (receive Socks5.ReadRequest) (fun request =>
  if decide (Socks5.rq_Command request = Socks5.CommandConnect)
  then ret (Ok (NewConnection user Socks5.Version (Socks5.rq_Destination request)))
  else if decide (Socks5.rq_Command request = Socks5.CommandUDPAssociate) then associate user
  else
    try (send (Socks5.WriteResponse junk (Socks5.mkResponse Socks5.ReplyCodeUnsupported zeroAddr))) (fun _ =>
    fail ("socks5: unsupported command " ++ text (Itoa (Socks5.rq_Command request)))%string)).

(** Credentials, when there is an authenticator. *)
Definition authenticate5 (authenticator : option Authenticator) : M (result event) :=
  match authenticator with
  | None => serve5 None
  | Some au =>
      try (receive Socks5.ReadUsernamePasswordAuthRequest) (fun up =>
      let username := Socks5.up_Username up in
      let password := Socks5.up_Password up in
      let status := if Verify au username password then Socks5.UsernamePasswordStatusSuccess
                    else Socks5.UsernamePasswordStatusFailure in
      try (send (Socks5.WriteUsernamePasswordAuthResponse (Socks5.mkUserPassResponse status))) (fun _ =>
      if decide (status <> Socks5.UsernamePasswordStatusSuccess)
      then fail ("socks5: authentication failed, username=" ++ text username ++ ", password=" ++ text password)%string
      else serve5 (Some username)))
  end.

Definition handle5 (authenticator : option Authenticator) : M (result event) :=
  try (receive Socks5.ReadAuthRequest0) (fun authRequest =>
  try (if decide (is_Some authenticator /\ Socks5.AuthTypeUsernamePassword ∉ Socks5.ar_Methods authRequest)
       then send (Socks5.WriteAuthResponse (Socks5.mkAuthResponse Socks5.AuthTypeNoAcceptedMethods))
       else ret (Ok tt)) (fun _ =>
  let authMethod := match authenticator with
                    | Some _ => Socks5.AuthTypeUsernamePassword
                    | None => Socks5.AuthTypeNotRequired
                    end in
  try (send (Socks5.WriteAuthResponse (Socks5.mkAuthResponse authMethod))) (fun _ =>
  authenticate5 authenticator))).

Definition HandleConnectionEx (authenticator : option Authenticator) : M (result event) :=
  try (receive ReadByte) (fun version =>
  if decide (version = Socks4.Version) then handle4 authenticator
  else if decide (version = Socks5.Version) then handle5 authenticator
  else ret (Err ErrInvalid)).
End Associate.

(** ** LazyConn: lazy.go *)

Record LazyConn := mkLazy { lz_Conn : conn; lz_socksVersion : Z; lz_responseWritten : bool }.
Abbreviation L := (GoM LazyConn).
Definition NewLazyConn (c : conn) (socksVersion : Z) : LazyConn := mkLazy c socksVersion false.

(** A call on the underlying connection. *)
Definition on_conn {A} (m : M A) : L A := fun lz =>
  let! p := m (lz_Conn lz) in Val (p.1, mkLazy p.2 (lz_socksVersion lz) (lz_responseWritten lz)).
(** The deferred assignment. *)
Definition written {A} (m : L A) : L A :=
  a <- m ;; modify (fun lz => mkLazy (lz_Conn lz) (lz_socksVersion lz) true) ;; ret a.

(** [addr] is the local address of the outgoing connection. *)
Definition ConnHandshakeSuccess (addr : option netaddr) : L (result unit) :=
  done <- gets lz_responseWritten ;;
  if done : bool then ret (Ok tt)
  else written (
    version <- gets lz_socksVersion ;;
    let bind := Unwrap (SocksaddrFromNet addr) in
    if decide (version = Socks4.Version)
    then on_conn (send (Socks4.WriteResponse junk (Socks4.mkResponse Socks4.ReplyCodeGranted bind)))
    else if decide (version = Socks5.Version)
    then on_conn (send (Socks5.WriteResponse junk (Socks5.mkResponse Socks5.ReplyCodeSuccess bind)))
    else panic).

Definition HandshakeFailure (err : error) : L (result unit) :=
  done <- gets lz_responseWritten ;;
  if done : bool then ret (Err ErrInvalid)
  else written (
    version <- gets lz_socksVersion ;;
    if decide (version = Socks4.Version)
    then on_conn (send (Socks4.WriteResponse junk (Socks4.mkResponse Socks4.ReplyCodeRejectedOrFailed zeroAddr)))
    else if decide (version = Socks5.Version)
    then on_conn (send (Socks5.WriteResponse junk (Socks5.mkResponse (Socks5.ReplyCodeForError err) zeroAddr)))
    else panic).

(** Read and Write with their implicit success; [local] is the local address of
    the client's connection.  A connection's Read delivers up to [n] bytes. *)
Definition if_new (local : option netaddr) : L (result unit) :=
  done <- gets lz_responseWritten ;; if done : bool then ret (Ok tt) else ConnHandshakeSuccess local.
Definition lz_Read (local : option netaddr) (n : nat) : L (result (list Z)) :=
  r <- if_new local ;;
  match r with
  | Err e => ret (Err e)
  | Ok _ => on_conn (receive (fun rd =>
      match rd_bytes rd with
      | [] => (Err (rd_err rd), rd)
      | bs => (Ok (take n bs), mkReader (drop n bs) (rd_err rd))
      end))
  end.
Definition lz_Write (local : option netaddr) (p : list Z) : L (result unit) :=
  r <- if_new local ;;
  match r with
  | Err e => ret (Err e)
  | Ok _ => on_conn (send (fun w => Val (WriteBytes p w)))
  end.
Definition ReaderReplaceable (lz : LazyConn) : bool := lz_responseWritten lz.
Definition WriterReplaceable (lz : LazyConn) : bool := lz_responseWritten lz.
End Handshake.
