(* ===== verification/HandshakeTheorems.v ===== *)
(** * The SOCKS handshakes: client and server agree *)

From S2P Require Import Prelude Buf BufTheorems BufWriter GoIO GoNet GoNetTheorems Metadata MetadataTheorems.
From S2P Require Import Socks5Theorems Packets PacketsTheorems Handshake.
From S2P Require Socks4 Socks5 Socks4Theorems.
#[local] Open Scope go_scope.

(** ** Programs over a connection *)

Definition wrote (bs : list Z) (w : writer) : writer := mkWriter (w_out w ++ bs) (w_room w - length bs) (w_err w).
Lemma wrote_app a b w : wrote b (wrote a w) = wrote (a ++ b) w.
Proof. unfold wrote. cbn. by rewrite <- app_assoc, length_app, Nat.sub_add_distr. Qed.
Lemma wrote_nil w : wrote [] w = w.
Proof. destruct w. unfold wrote. cbn. by rewrite app_nil_r, Nat.sub_0_r. Qed.

(** [m] reads exactly [i], writes exactly [o] and answers [a]. *)
Definition talks {A} (m : GoM conn A) (i o : list Z) (a : A) : Prop :=
  forall rest e w, (length o <= w_room w)%nat ->
    m (mkConn (mkReader (i ++ rest) e) w) = Val (a, mkConn (mkReader rest e) (wrote o w)).

Lemma talks_ret {A} (a : A) : talks (ret a) [] [] a.
Proof. intros rest e w _. by rewrite wrote_nil. Qed.
Lemma talks_try {A B} (m : GoM conn (result A)) (k : A -> GoM conn (result B)) i o i' o' a b :
  talks m i o (Ok a) -> talks (k a) i' o' b -> talks (try m k) (i ++ i') (o ++ o') b.
Proof.
  intros Hm Hk rest e w Hr. rewrite length_app in Hr. unfold try. rewrite <- app_assoc.
  rewrite (bind_run _ _ _ _ _ (Hm (i' ++ rest) e w ltac:(lia))). cbv beta iota.
  etransitivity; [apply Hk; cbn; lia|]. by rewrite wrote_app.
Qed.
Lemma talks_try_err {A B} (m : GoM conn (result A)) (k : A -> GoM conn (result B)) i o e0 :
  talks m i o (Err e0) -> talks (try m k) i o (Err e0).
Proof. intros Hm rest e w Hr. unfold try. by rewrite (bind_run _ _ _ _ _ (Hm rest e w Hr)). Qed.
Lemma talks_send enc bs : (forall w, enc w = Val (WriteBytes bs w)) -> talks (send enc) [] bs (Ok tt).
Proof.
  intros He rest e w Hr. unfold send. cbn [c_in c_out app]. rewrite He. cbn [obind]. by rewrite WriteBytes_room.
Qed.
Lemma talks_receive {A} (dec : reader -> result A * reader) i a :
  (forall rest e, dec (mkReader (i ++ rest) e) = (Ok a, mkReader rest e)) -> talks (receive dec) i [] (Ok a).
Proof. intros Hd rest e w _. unfold receive. cbn [c_in c_out]. by rewrite Hd, wrote_nil. Qed.
Lemma talks_receive' {A} (dec : reader -> outcome (result A * reader)) i a :
  (forall rest e, dec (mkReader (i ++ rest) e) = Val (Ok a, mkReader rest e)) -> talks (receive' dec) i [] (Ok a).
Proof. intros Hd rest e w _. unfold receive'. cbn [c_in c_out]. rewrite Hd. cbn [obind fst snd]. by rewrite wrote_nil. Qed.
Lemma talks_fail {A} msg : talks (@fail A msg) [] [] (Err (ErrNew msg)).
Proof. apply talks_ret. Qed.
Lemma talks_send_then {B} enc bs (k : unit -> GoM conn (result B)) i o b :
  (forall w, enc w = Val (WriteBytes bs w)) -> talks (k tt) i o b -> talks (try (send enc) k) i (bs ++ o) b.
Proof. intros He Hk. apply (talks_try (send enc) k [] bs i o tt b); [by apply talks_send|done]. Qed.
Lemma talks_receive_then {A B} (dec : reader -> result A * reader) i a (k : A -> GoM conn (result B)) i' o b :
  (forall rest e, dec (mkReader (i ++ rest) e) = (Ok a, mkReader rest e)) -> talks (k a) i' o b ->
  talks (try (receive dec) k) (i ++ i') o b.
Proof. intros Hd Hk. apply (talks_try (receive dec) k i [] i' o a b); [by apply talks_receive|done]. Qed.
Lemma talks_cast {A} (m : GoM conn A) i o i' o' a : talks m i o a -> i = i' -> o = o' -> talks m i' o' a.
Proof. by intros ? <- <-. Qed.

Section Handshakes.
Context (junk : Z -> list Z) (Hj : pool_ok junk).
Context (listen : result (option netaddr)) (udp : dconn).

(** ** SOCKS5 *)

(** What the two sides say until the server has read the request: with an
    authenticator the server asks for credentials, whatever was offered. *)
Definition offered (username : list Z) : Z :=
  if decide (username = []) then Socks5.AuthTypeNotRequired else Socks5.AuthTypeUsernamePassword.
Definition client_hello (username : list Z) : list Z := enc_AuthRequest (Socks5.mkAuthRequest [offered username]).
Definition credentials (username password : list Z) : list Z := enc_UserPass (Socks5.mkUserPass username password).
Definition client5 (au : option Authenticator) (username password : list Z) (command : Z) (destination : Socksaddr) : list Z :=
  client_hello username ++ (match au with Some _ => credentials username password | None => [] end)
    ++ enc_Request (Socks5.mkRequest command destination).
Definition server5 (au : option Authenticator) : list Z :=
  match au with Some _ => [5; 2; 1; 0] | None => [5; 0] end.
(** The client's name and password satisfy the server. *)
Definition accepted (au : option Authenticator) (username password : list Z) : Prop :=
  match au with
  | Some a => username <> [] /\ Verify a username password = true
  | None => True
  end.
Definition asked (command : Z) (destination : Socksaddr) : Socksaddr :=
  if decide (command = Socks5.CommandUDPAssociate) then udp_destination destination else destination.

Lemma read_method m rest e : Socks5.ReadAuthResponse (mkReader ([5; m] ++ rest) e) = (Ok (Socks5.mkAuthResponse m), mkReader rest e).
Proof. done. Qed.
Lemma read_status s rest e :
  Socks5.ReadUsernamePasswordAuthResponse (mkReader ([1; s] ++ rest) e) = (Ok (Socks5.mkUserPassResponse s), mkReader rest e).
Proof. done. Qed.

Definition answer (response : Socks5.Response) : result Socks5.Response :=
  if decide (Socks5.rs_ReplyCode response = Socks5.ReplyCodeSuccess)
  then Ok (Socks5.mkResponse Socks5.ReplyCodeSuccess (Socks5.bind_of response))
  else Err (ErrNew ("socks5: request rejected, code=" ++ text (Itoa (Socks5.rs_ReplyCode response)))%string).

Lemma request5_run command destination response :
  address_ok (asked command destination) -> address_ok (Socks5.bind_of response) ->
  talks (request5 junk command destination) (enc_Response response)
    (enc_Request (Socks5.mkRequest command (asked command destination))) (answer response).
Proof.
  intros Hd Hb. unfold request5. cbv zeta. fold (asked command destination).
  eapply talks_cast; [apply talks_send_then; [intros w; by apply write_addressed|]|reflexivity|apply app_nil_r].
  eapply talks_cast; [eapply talks_receive_then; [intros rest e; by apply ReadResponse_spec|]|apply app_nil_r|reflexivity].
  cbn [Socks5.rs_ReplyCode]. unfold answer. destruct (decide (Socks5.rs_ReplyCode response = Socks5.ReplyCodeSuccess)) as [->|Hne].
  - rewrite decide_False by tauto. apply talks_ret.
  - rewrite decide_True by done. apply talks_fail.
Qed.

Lemma hello_run username password command destination i o b :
  talks (try (receive Socks5.ReadAuthResponse) (fun authResponse =>
    if decide (Socks5.ap_Method authResponse = Socks5.AuthTypeUsernamePassword) then
      try (send (Socks5.WriteUsernamePasswordAuthRequest junk (Socks5.mkUserPass username password))) (fun _ =>
      try (receive Socks5.ReadUsernamePasswordAuthResponse) (fun usernamePasswordResponse =>
      if decide (Socks5.ur_Status usernamePasswordResponse <> Socks5.UsernamePasswordStatusSuccess)
      then fail "socks5: incorrect user name or password"
      else request5 junk command destination))
    else if decide (Socks5.ap_Method authResponse <> Socks5.AuthTypeNotRequired)
    then fail ("socks5: unsupported auth method: " ++ text (Itoa (Socks5.ap_Method authResponse)))%string
    else request5 junk command destination)) i o b ->
  talks (ClientHandshake5 junk command destination username password) i (client_hello username ++ o) b.
Proof.
  intros Hk. unfold ClientHandshake5. cbv zeta. fold (offered username). apply talks_send_then; [|exact Hk].
  intros w. apply WriteAuthRequest_spec; [done|]. change (1 <= 255). lia.
Qed.

Lemma client5_run au username password command destination response :
  userpass_ok (Socks5.mkUserPass username password) -> accepted au username password ->
  address_ok (asked command destination) -> address_ok (Socks5.bind_of response) ->
  talks (ClientHandshake5 junk command destination username password)
    (server5 au ++ enc_Response response) (client5 au username password command (asked command destination)) (answer response).
Proof.
  intros Hup Hacc Hd Hb. unfold client5. apply hello_run. destruct au as [a|]; cbn [server5 accepted] in *.
  - eapply (talks_receive_then _ [5; 2] _ _ ([1; 0] ++ _)); [apply read_method|].
    cbn [Socks5.ap_Method]. rewrite decide_True by done. apply talks_send_then; [intros w; by apply WriteUserPass_spec|].
    eapply talks_receive_then; [apply read_status|].
    cbn [Socks5.ur_Status]. rewrite decide_False by tauto. by apply request5_run.
  - eapply (talks_receive_then _ [5; 0]); [apply read_method|].
    cbn [Socks5.ap_Method app]. rewrite decide_False by done. rewrite decide_False by tauto. by apply request5_run.
Qed.

(** The server, for a client that offered the method [m]. *)
Lemma handle5_run au m i o b :
  (is_Some au -> m = Socks5.AuthTypeUsernamePassword) -> talks (authenticate5 junk listen udp au) i o b ->
  talks (HandleConnectionEx junk listen udp au) (enc_AuthRequest (Socks5.mkAuthRequest [m]) ++ i)
    ([5; match au with Some _ => 2 | None => 0 end] ++ o) b.
Proof.
  intros Hm Hk. unfold HandleConnectionEx, handle5.
  eapply (talks_receive_then _ [5] _ _ ([1; m] ++ i)); [done|]. cbv zeta. rewrite decide_False by done. rewrite decide_True by done.
  eapply (talks_receive_then _ [1; m]); [intros rest e; apply (ReadAuthRequest0_spec (Socks5.mkAuthRequest [m]))|].
  rewrite decide_False by (cbn; intros [Hs Hn]; apply Hn; rewrite (Hm Hs); by left).
  eapply (talks_try _ _ [] [] i _ tt); [apply talks_ret|].
  eapply (talks_send_then _ [5; match au with Some _ => 2 | None => 0 end]); [|exact Hk]. intros w. by destruct au.
Qed.

Lemma authenticate5_run a username password i o b :
  userpass_ok (Socks5.mkUserPass username password) -> Verify a username password = true ->
  talks (serve5 junk listen udp (Some username)) i o b ->
  talks (authenticate5 junk listen udp (Some a)) (credentials username password ++ i) ([1; 0] ++ o) b.
Proof.
  intros Hup Hv Hk. unfold authenticate5. eapply talks_receive_then; [intros rest e; by apply ReadUserPass_spec|].
  cbv zeta. cbn [Socks5.up_Username Socks5.up_Password]. rewrite Hv.
  eapply (talks_send_then _ [1; 0]); [done|]. rewrite decide_False by tauto. exact Hk.
Qed.

Definition user_of (au : option Authenticator) (username : list Z) : option (list Z) :=
  match au with Some _ => Some username | None => None end.

Lemma serve5_run user command d i o b :
  address_ok d ->
  talks (if decide (command = Socks5.CommandConnect) then ret (Ok (NewConnection user Socks5.Version d))
         else if decide (command = Socks5.CommandUDPAssociate) then associate junk listen udp user
         else try (send (Socks5.WriteResponse junk (Socks5.mkResponse Socks5.ReplyCodeUnsupported zeroAddr))) (fun _ =>
              fail ("socks5: unsupported command " ++ text (Itoa command))%string)) i o b ->
  talks (serve5 junk listen udp user) (enc_Request (Socks5.mkRequest command d) ++ i) o b.
Proof.
  intros [Hd _] Hk. unfold serve5. eapply talks_receive_then; [intros rest e; by apply ReadRequest_spec|]. exact Hk.
Qed.

Lemma server5_run au username password command d i o b :
  userpass_ok (Socks5.mkUserPass username password) -> accepted au username password ->
  talks (serve5 junk listen udp (user_of au username)) (enc_Request (Socks5.mkRequest command d) ++ i) o b ->
  talks (HandleConnectionEx junk listen udp au) (client5 au username password command d ++ i) (server5 au ++ o) b.
Proof.
  intros Hup Hacc Hk. unfold client5, client_hello. destruct au as [a|]; cbn [user_of accepted server5] in *.
  - destruct Hacc as [Hne Hv]. rewrite <- !app_assoc. apply (handle5_run (Some a)).
    + intros _. unfold offered. by rewrite decide_False.
    + by apply authenticate5_run.
  - rewrite <- !app_assoc. apply (handle5_run None); [by intros [? ?]|]. exact Hk.
Qed.

(** A UDP association that is granted: the socket has the local address [local]
    and receives [p] for [d] first. *)
Lemma associate_run user local d p x y f ds e fl :
  let bs := [x; y; f] ++ encode SocksaddrSerializer d ++ p in
  let response := Socks5.mkResponse Socks5.ReplyCodeSuccess (Unwrap (SocksaddrFromNet local)) in
  listen = Ok local -> address_ok (Socks5.bind_of response) -> encodable SocksaddrSerializer d -> zlen bs <= UDPBufferSize ->
  udp = mkD (bs :: ds) e [] fl ->
  talks (associate junk listen udp user) [] (enc_Response response) (Ok (NewPacketConnection user d p)).
Proof.
  intros bs response Hl Hb Hd Hlen Hudp rest er w Hr. unfold associate, causing, try. rewrite Hl, Hudp.
  cbn [app]. rewrite !bind_bind, bind_ret, bind_ret, !bind_bind.
  erewrite bind_run by (apply (talks_send _ (enc_Response response)); [intros w'; by apply write_addressed|done]).
  rewrite bind_ret, !bind_bind. destruct (NewSize_rep junk UDPBufferSize Hj ltac:(unfold maxAlloc; vm_compute; done)) as (b & z & Hb' & HR & _ & Hc & Hf & _).
  destruct (ReadPacket_spec x y f d p ds e [] fl zeroAddr b z Hd HR Hc ltac:(rewrite Hf; exact Hlen)) as (b1 & z1 & H1 & HR1 & Hc1).
  unfold bind at 1. change (NewPacket junk) with (NewSize junk UDPBufferSize). rewrite Hb'. cbn [obind].
  unfold NewAssociatePacketConn. fold bs in H1. unfold arriving in H1. rewrite H1. cbn [obind fst snd].
  rewrite (Rep_contents _ _ HR1), Hc1. done.
Qed.

#[local] Opaque talks.

(** *** The properties *)

(** C12: Client and server of SOCKS5 understand each other.  When the server wants no
    credentials, or the client has a user name and they are right, each side, fed
    with what the other one sends, reads exactly that and sends what the other
    side needs: a CONNECT ends with the server handing the connection on for the
    requested destination and the authenticated user, and with the client
    answering the reply (its code being success or not); a UDP association ends
    with the packet connection and the first packet. *)
Theorem socks5_handshake au username password d response :
  userpass_ok (Socks5.mkUserPass username password) -> accepted au username password -> address_ok (Socks5.bind_of response) ->
  (address_ok d ->
     let said := client5 au username password Socks5.CommandConnect d in
     talks (HandleConnectionEx junk listen udp au) said (server5 au)
       (Ok (NewConnection (user_of au username) Socks5.Version d))
     /\ talks (ClientHandshake5 junk Socks5.CommandConnect d username password) (server5 au ++ enc_Response response) said (answer response))
  /\ (forall local d' p x y f ds e fl,
     let granted := Socks5.mkResponse Socks5.ReplyCodeSuccess (Unwrap (SocksaddrFromNet local)) in
     let datagram := [x; y; f] ++ encode SocksaddrSerializer d' ++ p in
     let said := client5 au username password Socks5.CommandUDPAssociate (udp_destination d) in
     listen = Ok local -> udp = mkD (datagram :: ds) e [] fl -> encodable SocksaddrSerializer d' -> zlen datagram <= UDPBufferSize ->
     address_ok (udp_destination d) -> address_ok (Socks5.bind_of granted) ->
     talks (HandleConnectionEx junk listen udp au) said (server5 au ++ enc_Response granted)
       (Ok (NewPacketConnection (user_of au username) d' p))
     /\ talks (ClientHandshake5 junk Socks5.CommandUDPAssociate d username password) (server5 au ++ enc_Response granted) said
          (Ok (Socks5.mkResponse Socks5.ReplyCodeSuccess (Socks5.bind_of granted)))).
Proof.
  intros Hup Hacc Hb. split.
  - intros Hd said. split.
    + rewrite <- (app_nil_r (server5 au)), <- (app_nil_r said). apply server5_run; [done..|]. apply serve5_run; [done|]. rewrite decide_True by done. apply talks_ret.
    + apply (client5_run au); done.
  - intros local d' p x y f ds e fl granted datagram said Hl Hudp Hd' Hlen Hd Hg. split.
    + rewrite <- (app_nil_r said). apply server5_run; [done..|]. apply serve5_run; [done|]. rewrite decide_False by done. rewrite decide_True by done.
      by apply (associate_run _ local d' p x y f ds e fl).
    + exact (client5_run au username password Socks5.CommandUDPAssociate d granted Hup Hacc Hd Hg).
Qed.

(** C39: Wrong credentials end the handshake on both sides.  But a client that offers
    no credentials at all is only told so: after 0xFF the server sends a second
    choice, that of credentials, and goes on to accept a client that ignores the
    refusal, while the client of this package takes it as the end. *)
Theorem socks5_refusals a username password d :
  userpass_ok (Socks5.mkUserPass username password) -> username <> [] ->
  (Verify a username password = false ->
     let said := client_hello username ++ credentials username password in
     talks (HandleConnectionEx junk listen udp (Some a)) said [5; 2; 1; 1]
       (Err (ErrNew ("socks5: authentication failed, username=" ++ text username ++ ", password=" ++ text password)%string))
     /\ talks (ClientHandshake5 junk Socks5.CommandConnect d username password) [5; 2; 1; 1] said
       (Err (ErrNew "socks5: incorrect user name or password")))
  /\ talks (ClientHandshake5 junk Socks5.CommandConnect d [] password) [5; 255] (client_hello [])
       (Err (ErrNew "socks5: unsupported auth method: 255"))
  /\ (Verify a username password = true -> address_ok d ->
     talks (HandleConnectionEx junk listen udp (Some a))
       (client_hello [] ++ credentials username password ++ enc_Request (Socks5.mkRequest Socks5.CommandConnect d))
       [5; 255; 5; 2; 1; 0] (Ok (NewConnection (Some username) Socks5.Version d))).
Proof.
  intros Hup Hne. split_and!.
  - intros Hv said. split.
    + apply (handle5_run (Some a)); [intros _; unfold offered; by rewrite decide_False|].
      unfold authenticate5. rewrite <- (app_nil_r (credentials _ _)).
      eapply (talks_receive_then _ _ _ _ [] [1; 1]); [intros rest e; by apply ReadUserPass_spec|].
      cbv zeta. cbn [Socks5.up_Username Socks5.up_Password]. rewrite Hv.
      apply (talks_send_then _ [1; 1] _ [] []); [done|]. rewrite decide_True by done. apply talks_fail.
    + apply hello_run. eapply (talks_receive_then _ [5; 2] _ _ [1; 1]); [apply read_method|].
      cbn [Socks5.ap_Method]. rewrite decide_True by done. rewrite <- (app_nil_r (credentials _ _)).
      apply talks_send_then; [intros w; by apply WriteUserPass_spec|].
      eapply (talks_receive_then _ [1; 1] _ _ [] []); [apply read_status|]. cbn [Socks5.ur_Status]. rewrite decide_True by done. apply talks_fail.
  - rewrite <- (app_nil_r (client_hello [])). apply hello_run.
    eapply (talks_receive_then _ [5; 255] _ _ [] []); [apply read_method|]. cbn [Socks5.ap_Method].
    rewrite decide_False by done. rewrite decide_True by done. apply talks_fail.
  - intros Hv Hd. unfold HandleConnectionEx, handle5.
    eapply (talks_receive_then _ [5] _ _ ([1; 0] ++ _)); [done|]. cbv zeta. rewrite decide_False by done. rewrite decide_True by done.
    eapply (talks_receive_then _ [1; 0]); [intros rest e; apply (ReadAuthRequest0_spec (Socks5.mkAuthRequest [0]))|].
    rewrite decide_True by (split; [by eexists|cbn; intros [?|[]%elem_of_nil]%elem_of_cons; done]).
    apply (talks_send_then _ [5; 255] _ _ [5; 2; 1; 0]); [done|]. cbv zeta.
    apply (talks_send_then _ [5; 2] _ _ [1; 0]); [done|].
    apply (authenticate5_run _ _ _ _ []); [done..|]. rewrite <- (app_nil_r (enc_Request _)).
    apply serve5_run; [done|]. rewrite decide_True by done. apply talks_ret.
Qed.

End Handshakes.

(** ** No connection without credentials *)

Section Safety.
Context (junk : Z -> list Z) (listen : result (option netaddr)) (udp : dconn).

Lemma try_inv {A B} (m : GoM conn (result A)) (k : A -> GoM conn (result B)) c b c' :
  try m k c = Val (Ok b, c') -> exists a c1, m c = Val (Ok a, c1) /\ k a c1 = Val (Ok b, c').
Proof.
  unfold try, bind. destruct (m c) as [[[a|] c1]| |]; [|done..]. intros H. by exists a, c1.
Qed.
Lemma try_fail {A B} (m : GoM conn (result A)) msg c b c' : try m (fun _ => @fail B msg) c = Val (Ok b, c') -> False.
Proof. by intros (? & ? & _ & ?)%try_inv. Qed.

Definition event_user (ev : event) : option (list Z) :=
  match ev with NewConnection user _ _ => user | NewPacketConnection user _ _ => user end.

Lemma serve5_user user c ev c' : serve5 junk listen udp user c = Val (Ok ev, c') -> event_user ev = user.
Proof.
  unfold serve5. intros (req & c1 & _ & Hk)%try_inv. destruct (decide _); [by injection Hk as <- _|].
  destruct (decide _); [|by apply try_fail in Hk].
  unfold associate in Hk. apply try_inv in Hk as (l & c2 & _ & Hk). apply try_inv in Hk as (? & c3 & _ & Hk).
  apply try_inv in Hk as (p & c4 & _ & Hk). by injection Hk as <- _.
Qed.

Lemma authenticated au c ev c' :
  HandleConnectionEx junk listen udp (Some au) c = Val (Ok ev, c') ->
  exists username password, event_user ev = Some username /\ Verify au username password = true.
Proof.
  unfold HandleConnectionEx. intros (version & c1 & _ & Hk)%try_inv.
  destruct (decide (version = Socks4.Version)) as [E4|E4].
  - unfold handle4 in Hk. apply try_inv in Hk as (req & c2 & _ & Hk). cbv zeta in Hk.
    destruct (decide _); [|by apply try_fail in Hk].
    destruct (Verify au (Socks4.rq_Username req) []) eqn:Hv; cbn [negb] in Hk; [|by apply try_fail in Hk].
    injection Hk as <- _. by exists (Socks4.rq_Username req), [].
  - destruct (decide (version = Socks5.Version)); [|done]. unfold handle5 in Hk.
    apply try_inv in Hk as (ar & c2 & _ & Hk). apply try_inv in Hk as (? & c3 & _ & Hk). cbv zeta in Hk.
    apply try_inv in Hk as (? & c4 & _ & Hk). unfold authenticate5 in Hk.
    apply try_inv in Hk as (up & c5 & _ & Hk). cbv zeta in Hk. apply try_inv in Hk as (? & c6 & _ & Hk).
    destruct (Verify au (Socks5.up_Username up) (Socks5.up_Password up)) eqn:Hv; [|by rewrite decide_True in Hk].
    rewrite decide_False in Hk by tauto. apply serve5_user in Hk. by eexists _, _.
Qed.

Lemma add_users (users : list User) (au : Authenticator) u p :
  Verify (foldl (fun (au : Authenticator) u => <[us_Username u := default [] (au !! us_Username u) ++ [us_Password u]]> au) au users) u p = true
  <-> Verify au u p = true \/ mkUser u p ∈ users.
Proof.
  revert au. induction users as [|[u' p'] users IH]; intros au; cbn [foldl us_Username us_Password].
  - set_solver.
  - rewrite IH, elem_of_cons. unfold Verify, Authenticator in *. destruct (decide (u' = u)) as [->|Hne].
    + rewrite lookup_insert_eq. rewrite bool_decide_eq_true, elem_of_app, list_elem_of_singleton.
      assert (mkUser u p = mkUser u p' <-> p = p') as -> by (split; [by intros [= ?]|by intros ->]).
      destruct (au !! u) as [ps|]; cbn [default from_option id]; rewrite ?bool_decide_eq_true; [tauto|].
      pose proof (not_elem_of_nil p). intuition congruence.
    + rewrite lookup_insert_ne by done. split; intros [H|H]; try tauto. destruct H as [H|H]; [congruence|tauto].
Qed.

Lemma Verify_spec users au u p : NewAuthenticator users = Some au -> Verify au u p = true <-> mkUser u p ∈ users.
Proof.
  unfold NewAuthenticator. destruct (decide (users = [])); [done|]. intros [= <-]. rewrite add_users.
  unfold Verify at 1. split; [by intros [?|?]|by right].
Qed.


End Safety.

(** ** SOCKS4 *)

Section Handshake4.
Context (junk : Z -> list Z) (Hj : pool_ok junk) (listen : result (option netaddr)) (udp : dconn).

Definition request4 (d : Socksaddr) (username : list Z) : Socks4.Request := Socks4.mkRequest Socks4.CommandConnect d username.

Lemma client4_run d username i o b :
  Socks4Theorems.request_fits (request4 d username) ->
  talks (try (receive Socks4.ReadResponse) (fun response =>
    if decide (Socks4.rs_ReplyCode response <> Socks4.ReplyCodeGranted)
    then fail ("socks4: request rejected, code= " ++ text (Itoa (Socks4.rs_ReplyCode response)))%string
    else ret (Ok response))) i o b ->
  talks (ClientHandshake4 junk Socks4.CommandConnect d username) i (Socks4Theorems.enc_Request (request4 d username) ++ o) b.
Proof.
  intros Hf Hk. unfold ClientHandshake4. apply talks_send_then; [|exact Hk].
  intros w. by apply Socks4Theorems.WriteRequest_spec.
Qed.

(** C40: The same for SOCKS4: with no authenticator, or one that knows the user with
    an empty password, a CONNECT is handed on for the requested address or name
    and the client reads the address of the reply.  Otherwise the server ends the
    handshake; but its answer is cut short, and the client reports the end of the
    stream instead of the rejection. *)
Theorem socks4_handshake au d username :
  Socks4Theorems.request_fits (request4 d username) -> Socks4Theorems.request_ok (request4 d username) ->
  let said := Socks4Theorems.enc_Request (request4 d username) in
  let welcome := match au with Some a => Verify a username [] | None => true end in
  (welcome = true -> forall v p, 0 <= v < 2 ^ 32 -> 0 <= p < 2 ^ 16 ->
     talks (HandleConnectionEx junk listen udp au) said [] (Ok (NewConnection (Some username) Socks4.Version d))
     /\ talks (ClientHandshake4 junk Socks4.CommandConnect d username) ([0; 90] ++ be 2 p ++ be 4 v) said
          (Ok (Socks4.mkResponse 90 (mkAddr (Addr4 v) p []))))
  /\ (welcome = false ->
     talks (HandleConnectionEx junk listen udp au) said [0; 91; 0; 0]
       (Err (ErrNew ("socks4: authentication failed, username=" ++ text username)%string))
     /\ forall w e, (length said <= w_room w)%nat ->
          ClientHandshake4 junk Socks4.CommandConnect d username (mkConn (mkReader [0; 91; 0; 0] e) w)
          = Val (Err e, mkConn (mkReader [] e) (wrote said w))).
Proof.
  intros Hf Hok said welcome.
  assert (forall i o b, talks (if match au with Some a => negb (Verify a username []) | None => false end
      then try (send (Socks4.WriteResponse junk (Socks4.mkResponse Socks4.ReplyCodeRejectedOrFailed zeroAddr)))
             (fun _ => fail ("socks4: authentication failed, username=" ++ text username)%string)
      else ret (Ok (NewConnection (Some username) Socks4.Version d))) i o b ->
    talks (HandleConnectionEx junk listen udp au) (said ++ i) o b) as Hserver.
  { intros i o b Hk. unfold HandleConnectionEx, said, Socks4Theorems.enc_Request. cbn [app].
    eapply (talks_receive_then _ [4]); [done|]. cbv zeta. rewrite decide_True by done. unfold handle4.
    match goal with |- talks _ (?c :: ?t ++ i) _ _ => change (c :: t ++ i) with ((c :: t) ++ i) end.
    eapply (talks_try _ _ _ [] i o (request4 d username)).
    { apply talks_receive'. intros rest e. apply (Socks4Theorems.ReadRequest0_spec (request4 d username)); done. }
    cbv zeta. cbn [request4 Socks4.rq_Command Socks4.rq_Username Socks4.rq_Destination]. rewrite decide_True by done. exact Hk. }
  split.
  - intros Hw v p Hv Hp. split.
    + rewrite <- (app_nil_r said). apply Hserver. unfold welcome in Hw.
      destruct au as [a|]; [rewrite Hw; cbn [negb]|]; apply talks_ret.
    + rewrite <- (app_nil_r said). apply client4_run; [done|]. rewrite <- (app_nil_r (_ ++ be 2 p ++ _)).
      eapply (talks_receive_then _ _ (Socks4.mkResponse 90 (mkAddr (Addr4 v) p [])) _ [] []).
      * intros rest e. rewrite <- !app_assoc. unfold Socks4.ReadResponse. cbn [app]. rewrite expect_ok, rd_bind_Ok, ReadByte_cons, rd_bind_Ok.
        rewrite read_be_spec by exact Hp. rewrite rd_bind_Ok, (ReadFull_app' 4) by apply length_be. rewrite rd_bind_Ok.
        unfold AddrFrom4. by rewrite unbe_be by exact Hv.
      * cbn [Socks4.rs_ReplyCode]. rewrite decide_False by (intros H; by apply H). apply talks_ret.
  - intros Hw. split.
    + rewrite <- (app_nil_r said). apply Hserver. unfold welcome in Hw. destruct au as [a|]; [|done]. rewrite Hw. cbn [negb].
      apply (talks_send_then _ [0; 91; 0; 0] _ [] []); [|apply talks_fail].
      intros w. by apply (Socks4Theorems.WriteResponse_spec junk _ 0 [] AddrInvalid []).
    + Transparent talks. intros w e Hr. unfold ClientHandshake4, try.
      pose proof (talks_send (Socks4.WriteRequest junk (request4 d username)) said ltac:(intros w'; by apply Socks4Theorems.WriteRequest_spec)
        [0; 91; 0; 0] e w Hr) as Hs.
      erewrite bind_run by exact Hs. done. Opaque talks.
Qed.
End Handshake4.

(** ** LazyConn *)

Inductive lop :=
  | LSuccess (addr : option netaddr) | LFailure (err : error) | LRead (n : nat) | LWrite (p : list Z).

Section Lazy.
Context (junk : Z -> list Z) (Hj : pool_ok junk) (local : option netaddr).

Definition use (o : lop) : GoM LazyConn unit :=
  match o with
  | LSuccess addr => ConnHandshakeSuccess junk addr ;; ret tt
  | LFailure err => HandshakeFailure junk err ;; ret tt
  | LRead n => lz_Read junk local n ;; ret tt
  | LWrite p => lz_Write junk local p ;; ret tt
  end.
Fixpoint uses (os : list lop) : GoM LazyConn unit :=
  match os with [] => ret tt | o :: os => use o ;; uses os end.

(** What the operation sends when it is the first, and what it sends as data. *)
Definition success (version : Z) (addr : option netaddr) : list Z :=
  let bind := Unwrap (SocksaddrFromNet addr) in
  if decide (version = Socks4.Version) then [0; Socks4.ReplyCodeGranted] ++ be 2 (sa_Port bind) ++ AsSlice (sa_Addr bind)
  else enc_Response (Socks5.mkResponse Socks5.ReplyCodeSuccess bind).
Definition reply (version : Z) (o : lop) : list Z :=
  match o with
  | LSuccess addr => success version addr
  | LFailure err =>
      if decide (version = Socks4.Version) then [0; Socks4.ReplyCodeRejectedOrFailed; 0; 0]
      else enc_Response (Socks5.mkResponse (Socks5.ReplyCodeForError err) zeroAddr)
  | LRead _ | LWrite _ => success version local
  end.
Definition payload (o : lop) : list Z := match o with LWrite p => p | _ => [] end.

(** The address a success is sent with fits the protocol. *)
Definition sendable (version : Z) (addr : option netaddr) : Prop :=
  let bind := Unwrap (SocksaddrFromNet addr) in
  if decide (version = Socks4.Version) then zlen (AsSlice (sa_Addr bind)) <= 4
  else IsValid bind = true -> address_ok bind.
Definition reply_ok (version : Z) (o : lop) : Prop :=
  match o with LSuccess addr => sendable version addr | LFailure _ => True | LRead _ | LWrite _ => sendable version local end.

Lemma send_run enc bs c :
  enc (c_out c) = Val (WriteBytes bs (c_out c)) -> (length bs <= w_room (c_out c))%nat ->
  send enc c = Val (Ok tt, mkConn (c_in c) (wrote bs (c_out c))).
Proof. intros He Hr. unfold send. rewrite He. cbn [obind]. by rewrite WriteBytes_room. Qed.

Definition replied (bs : list Z) (lz : LazyConn) : LazyConn :=
  mkLazy (mkConn (c_in (lz_Conn lz)) (wrote bs (c_out (lz_Conn lz)))) (lz_socksVersion lz) true.

Lemma written_send enc bs lz :
  (forall w, enc w = Val (WriteBytes bs w)) -> (length bs <= w_room (c_out (lz_Conn lz)))%nat ->
  written (on_conn (send enc)) lz = Val (Ok tt, replied bs lz).
Proof.
  intros He Hr. unfold written, on_conn, bind, modify, ret. rewrite (send_run enc bs) by done. done.
Qed.

Lemma success_run addr lz :
  lz_socksVersion lz = Socks4.Version \/ lz_socksVersion lz = Socks5.Version -> lz_responseWritten lz = false ->
  sendable (lz_socksVersion lz) addr -> (length (success (lz_socksVersion lz) addr) <= w_room (c_out (lz_Conn lz)))%nat ->
  ConnHandshakeSuccess junk addr lz = Val (Ok tt, replied (success (lz_socksVersion lz) addr) lz).
Proof.
  intros Hv Hw Hs Hr. unfold ConnHandshakeSuccess. rewrite bind_gets, Hw. cbv beta iota.
  unfold written. rewrite bind_bind, bind_gets. cbv zeta. unfold success, sendable in *. cbv zeta in *.
  destruct (decide (lz_socksVersion lz = Socks4.Version)) as [E4|E4].
  - apply written_send; [|done]. intros w. destruct (Unwrap (SocksaddrFromNet addr)) as [a p f].
    by apply Socks4Theorems.WriteResponse_spec.
  - rewrite decide_True by tauto. apply written_send; [|done]. intros w. apply write_addressed; [done|]. by apply bind_ok.
Qed.

Lemma failure_run err lz :
  lz_socksVersion lz = Socks4.Version \/ lz_socksVersion lz = Socks5.Version -> lz_responseWritten lz = false ->
  (length (reply (lz_socksVersion lz) (LFailure err)) <= w_room (c_out (lz_Conn lz)))%nat ->
  HandshakeFailure junk err lz = Val (Ok tt, replied (reply (lz_socksVersion lz) (LFailure err)) lz).
Proof.
  intros Hv Hw Hr. unfold HandshakeFailure. rewrite bind_gets, Hw. cbv beta iota.
  unfold written. rewrite bind_bind, bind_gets. cbv zeta. unfold reply in *.
  destruct (decide (lz_socksVersion lz = Socks4.Version)) as [E4|E4].
  - apply written_send; [|done]. intros w. by apply (Socks4Theorems.WriteResponse_spec junk _ 0 [] AddrInvalid []).
  - rewrite decide_True by tauto. apply written_send; [|done]. intros w. apply write_addressed; [done|]. by apply bind_ok.
Qed.

(** Once the reply is out, operations only move data. *)
Lemma use_later o lz :
  lz_responseWritten lz = true -> (length (payload o) <= w_room (c_out (lz_Conn lz)))%nat ->
  exists lz', use o lz = Val (tt, lz') /\ lz_responseWritten lz' = true
    /\ c_out (lz_Conn lz') = wrote (payload o) (c_out (lz_Conn lz)).
Proof.
  intros Hw Hr. destruct o as [addr|err|n|p]; cbn [use payload] in *.
  - exists lz. split_and!; [|done|by rewrite wrote_nil]. unfold ConnHandshakeSuccess. rewrite bind_bind, bind_gets, Hw. by rewrite bind_ret.
  - exists lz. split_and!; [|done|by rewrite wrote_nil]. unfold HandshakeFailure. rewrite bind_bind, bind_gets, Hw. by rewrite bind_ret.
  - unfold lz_Read, if_new. rewrite !bind_bind, bind_gets, Hw. cbv beta iota. rewrite bind_ret. cbv beta iota.
    unfold bind, on_conn, receive. destruct (rd_bytes (c_in (lz_Conn lz))); cbn [obind fst snd]; eexists; (split_and!; [done|done|by rewrite wrote_nil]).
  - unfold lz_Write, if_new. rewrite !bind_bind, bind_gets, Hw. cbv beta iota. rewrite bind_ret. cbv beta iota.
    unfold bind, on_conn. rewrite (send_run _ p) by done. cbn [obind fst snd]. by eexists.
Qed.

Lemma use_first o lz :
  lz_socksVersion lz = Socks4.Version \/ lz_socksVersion lz = Socks5.Version -> lz_responseWritten lz = false ->
  reply_ok (lz_socksVersion lz) o ->
  (length (reply (lz_socksVersion lz) o ++ payload o) <= w_room (c_out (lz_Conn lz)))%nat ->
  exists lz', use o lz = Val (tt, lz') /\ lz_responseWritten lz' = true
    /\ c_out (lz_Conn lz') = wrote (reply (lz_socksVersion lz) o ++ payload o) (c_out (lz_Conn lz)).
Proof.
  intros Hv Hw Ho Hr. rewrite length_app in Hr.
  assert (if_new junk local lz = ConnHandshakeSuccess junk local lz) as Hnew by (unfold if_new; by rewrite bind_gets, Hw).
  destruct o as [addr|err|n|p]; cbn [use payload] in *; rewrite ?app_nil_r in *.
  - cbn [reply reply_ok] in *. rewrite (bind_run _ _ _ _ _ (success_run addr lz Hv Hw Ho ltac:(lia))). by eexists.
  - rewrite (bind_run _ _ _ _ _ (failure_run err lz Hv Hw ltac:(lia))). by eexists.
  - cbn [reply reply_ok] in *. unfold lz_Read. rewrite bind_bind.
    rewrite (bind_run _ _ _ _ _ (eq_trans Hnew (success_run local lz Hv Hw Ho ltac:(lia)))). cbv beta iota.
    unfold bind, on_conn, receive. destruct (rd_bytes _); cbn [obind fst snd]; by eexists.
  - cbn [reply reply_ok] in *. unfold lz_Write. rewrite bind_bind.
    rewrite (bind_run _ _ _ _ _ (eq_trans Hnew (success_run local lz Hv Hw Ho ltac:(lia)))). cbv beta iota.
    unfold bind, on_conn. rewrite (send_run _ p) by (done || cbn; lia). cbn [obind fst snd replied lz_Conn c_out].
    eexists. split_and!; [done|done|]. cbn [lz_Conn c_out]. by rewrite wrote_app.
Qed.

Lemma uses_later os lz :
  lz_responseWritten lz = true -> (length (concat (map payload os)) <= w_room (c_out (lz_Conn lz)))%nat ->
  exists lz', uses os lz = Val (tt, lz') /\ lz_responseWritten lz' = true
    /\ c_out (lz_Conn lz') = wrote (concat (map payload os)) (c_out (lz_Conn lz)).
Proof.
  revert lz. induction os as [|o os IH]; intros lz Hw Hr; cbn [uses map concat] in *.
  - exists lz. by rewrite wrote_nil.
  - rewrite length_app in Hr. destruct (use_later o lz Hw ltac:(lia)) as (lz1 & H1 & Hw1 & Ho1).
    destruct (IH lz1 Hw1) as (lz2 & H2 & Hw2 & Ho2); [rewrite Ho1; cbn; lia|].
    exists lz2. split_and!; [by rewrite (bind_run _ _ _ _ _ H1)|done|]. by rewrite Ho2, Ho1, wrote_app.
Qed.

(** C16: LazyConn replies once and first.  Whatever mix of successes, failures, reads
    and writes a new connection is used for, the client receives one reply, the
    one of the first operation (reads and writes imply success, with the local
    address of the connection), and then exactly the data written, in order; the
    connection may be replaced by the bare one only after that.  A failure
    reported later is refused and sends nothing. *)
Theorem lazy_replies_once c version o os :
  version = Socks4.Version \/ version = Socks5.Version -> reply_ok version o ->
  (length (reply version o ++ concat (map payload (o :: os))) <= w_room (c_out c))%nat ->
  WriterReplaceable (NewLazyConn c version) = false
  /\ exists lz, uses (o :: os) (NewLazyConn c version) = Val (tt, lz)
    /\ w_out (c_out (lz_Conn lz)) = w_out (c_out c) ++ reply version o ++ concat (map payload (o :: os))
    /\ WriterReplaceable lz = true
    /\ forall err, HandshakeFailure junk err lz = Val (Err ErrInvalid, lz).
Proof.
  intros Hv Ho Hr. split; [done|]. cbn [map concat uses] in *. rewrite !length_app in Hr.
  destruct (use_first o (NewLazyConn c version) Hv eq_refl Ho) as (lz1 & H1 & Hw1 & Ho1); [cbn; rewrite length_app; lia|].
  cbn [NewLazyConn lz_socksVersion lz_Conn] in *.
  destruct (uses_later os lz1 Hw1) as (lz2 & H2 & Hw2 & Ho2); [rewrite Ho1; cbn; rewrite length_app; lia|].
  exists lz2. split_and!; [by rewrite (bind_run _ _ _ _ _ H1)| |done|].
  - rewrite Ho2, Ho1, wrote_app. cbn [wrote w_out]. by rewrite <- !app_assoc.
  - intros err. unfold HandshakeFailure. by rewrite bind_gets, Hw2.
Qed.
End Lazy.

(** ** Witnesses *)

Definition alice : User := mkUser (str "alice") (str "secret").
Definition some_users : Authenticator := default ∅ (NewAuthenticator [alice]).
Definition granted : Socks5.Response := Socks5.mkResponse Socks5.ReplyCodeSuccess zeroAddr.
Definition no_listener : result (option netaddr) := Err EOF.

Lemma granted_ok : address_ok (Socks5.bind_of granted).
Proof. by apply bind_ok. Qed.

Lemma socks5_handshake_witness :
  let said := client5 (Some some_users) (str "alice") (str "secret") Socks5.CommandConnect some_name in
  talks (HandleConnectionEx sevens no_listener some_dconn (Some some_users)) said [5; 2; 1; 0]
    (Ok (NewConnection (Some (str "alice")) 5 some_name))
  /\ talks (ClientHandshake5 sevens Socks5.CommandConnect some_name (str "alice") (str "secret"))
       ([5; 2; 1; 0] ++ enc_Response granted) said (Ok (Socks5.mkResponse 0 (mkAddr (Addr4 0) 0 []))).
Proof.
  intros said.
  destruct (socks5_handshake sevens sevens_ok no_listener some_dconn (Some some_users) (str "alice") (str "secret") some_name granted) as [H _].
  - split; vm_compute; discriminate.
  - split; [discriminate|vm_compute; reflexivity].
  - exact granted_ok.
  - exact (H some_address_ok).
Defined.

Lemma socks5_refusals_witness :
  talks (HandleConnectionEx sevens no_listener some_dconn (Some some_users))
    (client_hello [] ++ credentials (str "alice") (str "secret") ++ enc_Request (Socks5.mkRequest Socks5.CommandConnect some_name))
    [5; 255; 5; 2; 1; 0] (Ok (NewConnection (Some (str "alice")) 5 some_name)).
Proof.
  destruct (socks5_refusals sevens sevens_ok no_listener some_dconn some_users (str "alice") (str "secret") some_name) as (_ & _ & H).
  - split; vm_compute; discriminate.
  - discriminate.
  - apply H; [vm_compute; reflexivity|exact some_address_ok].
Defined.


Lemma socks4_handshake_witness :
  let said := Socks4Theorems.enc_Request (request4 some_name (str "bob")) in
  talks (HandleConnectionEx sevens no_listener some_dconn None) said [] (Ok (NewConnection (Some (str "bob")) 4 some_name))
  /\ talks (HandleConnectionEx sevens no_listener some_dconn (Some some_users)) said [0; 91; 0; 0]
       (Err (ErrNew ("socks4: authentication failed, username=" ++ text (str "bob"))%string)).
Proof.
  intros said.
  assert (Socks4Theorems.request_fits (request4 some_name (str "bob"))) as Hf by (split; [by vm_compute|intros _; by vm_compute]).
  assert (Socks4Theorems.request_ok (request4 some_name (str "bob"))) as Hok.
  { split; [apply (bool_decide_eq_true_1 _); reflexivity|split; [vm_compute; discriminate|vm_compute; reflexivity]|].
    right. split_and!; [reflexivity|apply (bool_decide_eq_true_1 _); reflexivity|reflexivity]. }
  split.
  - apply (proj1 (socks4_handshake sevens sevens_ok no_listener some_dconn None some_name (str "bob") Hf Hok) eq_refl 0 0); lia.
  - apply (proj2 (socks4_handshake sevens sevens_ok no_listener some_dconn (Some some_users) some_name (str "bob") Hf Hok)); vm_compute; reflexivity.
Defined.

Lemma lazy_replies_once_witness : let c := mkConn (mkReader [] EOF) (mkWriter [] 100 EOF) in
  exists lz, uses sevens (Some (NAOwn some_v4)) [LWrite [1; 2]; LFailure EOF; LWrite [3]] (NewLazyConn c 5) = Val (tt, lz)
    /\ w_out (c_out (lz_Conn lz)) = [5; 0; 0; 1; 127; 0; 0; 1; 31; 144; 1; 2; 3].
Proof.
  intros c.
  destruct (lazy_replies_once sevens sevens_ok (Some (NAOwn some_v4)) c 5 (LWrite [1; 2]) [LFailure EOF; LWrite [3]]) as (_ & lz & H1 & H2 & _).
  - by right.
  - intros _. split; [|reflexivity]. split; [by eexists|done| |done|done|done]. split_and!; [split; done|done|done].
  - vm_compute. lia.
  - exists lz. split; [exact H1|]. rewrite H2. reflexivity.
Defined.
