(* ===== verification/LinkedList.v ===== *)
(** * Doubly linked lists: common/x/list

    A [List] is a ring of [Element]s through a sentinel that is part of the
    list itself; lists and elements are objects that the program shares by
    pointer, so the model is a heap.  A list has the address of its sentinel.
    Every field is a map from addresses; a field that is absent holds the zero
    value, which for a pointer is nil. *)

From S2P Require Import Prelude.

Notation addr := positive.
Notation ptr := (option addr).

Record heap (T : Type) := mkHeap {
  next : gmap addr addr;
  prev : gmap addr addr;
  list_ : gmap addr addr;
  Value : gmap addr T;
  len : gmap addr Z;
  used : gset addr }.
Arguments mkHeap {T}.
Arguments next {T}.
Arguments prev {T}.
Arguments list_ {T}.
Arguments Value {T}.
Arguments len {T}.
Arguments used {T}.

(** A heap without any object. *)
Definition empty_heap {T} : heap T := mkHeap ∅ ∅ ∅ ∅ ∅ ∅.

Section LinkedList.
Context {T : Type} (zero : T).
Implicit Types (e mark : ptr) (l : addr) (v : T).
Local Open Scope go_scope.
Local Notation M := (GoM (heap T)).

(** ** Memory: dereferencing nil panics *)

Definition get_next e : M ptr := a <- lift e ;; gets (fun s => next s !! a).
Definition get_prev e : M ptr := a <- lift e ;; gets (fun s => prev s !! a).
Definition get_list e : M ptr := a <- lift e ;; gets (fun s => list_ s !! a).
Definition get_Value e : M T := a <- lift e ;; gets (fun s => default zero (Value s !! a)).
Definition get_len l : M Z := gets (fun s => default 0 (len s !! l)).
Definition set_next e (p : ptr) : M unit :=
  a <- lift e ;; modify (fun s => mkHeap (partial_alter (fun _ => p) a (next s)) (prev s) (list_ s) (Value s) (len s) (used s)).
Definition set_prev e (p : ptr) : M unit :=
  a <- lift e ;; modify (fun s => mkHeap (next s) (partial_alter (fun _ => p) a (prev s)) (list_ s) (Value s) (len s) (used s)).
Definition set_list e (p : ptr) : M unit :=
  a <- lift e ;; modify (fun s => mkHeap (next s) (prev s) (partial_alter (fun _ => p) a (list_ s)) (Value s) (len s) (used s)).
Definition set_Value e v : M unit :=
  a <- lift e ;; modify (fun s => mkHeap (next s) (prev s) (list_ s) (<[a := v]> (Value s)) (len s) (used s)).
Definition set_len l (n : Z) : M unit :=
  modify (fun s => mkHeap (next s) (prev s) (list_ s) (Value s) (<[l := n]> (len s)) (used s)).
(** A new zero object; its address has not been in use. *)
Definition new_object : M addr := fun s =>
  let a := fresh (used s) in
  Val (a, mkHeap (next s) (prev s) (list_ s) (Value s) (len s) ({[a]} ∪ used s)).

(** ** Elements *)

Definition Next e : M ptr :=
  p <- get_next e ;; o <- get_list e ;;
  ret (match o with
       | Some root => if decide (p = Some root) then None else p
       | None => None
       end).
Definition Prev e : M ptr :=
  p <- get_prev e ;; o <- get_list e ;;
  ret (match o with
       | Some root => if decide (p = Some root) then None else p
       | None => None
       end).
Definition List_ e : M ptr := get_list e.

(** ** Lists *)

Definition Init l : M unit :=
  set_next (Some l) (Some l) ;; set_prev (Some l) (Some l) ;; set_len l 0.
Definition Len l : M Z := get_len l.
Definition Front l : M ptr :=
  n <- get_len l ;; if decide (n = 0) then ret None else get_next (Some l).
Definition Back l : M ptr :=
  n <- get_len l ;; if decide (n = 0) then ret None else get_prev (Some l).
Definition lazyInit l : M unit :=
  p <- get_next (Some l) ;; match p with None => Init l | Some _ => ret tt end.

Definition insert l e (at_ : ptr) : M ptr :=
  set_prev e at_ ;;
  n <- get_next at_ ;; set_next e n ;;
  p <- get_prev e ;; set_next p e ;;
  n <- get_next e ;; set_prev n e ;;
  set_list e (Some l) ;;
  k <- get_len l ;; set_len l (k + 1) ;;
  ret e.
Definition insertValue l v (at_ : ptr) : M ptr :=
  a <- new_object ;; set_Value (Some a) v ;; insert l (Some a) at_.

Definition remove l e : M unit :=
  p <- get_prev e ;; n <- get_next e ;; set_next p n ;;
  n <- get_next e ;; p <- get_prev e ;; set_prev n p ;;
  set_next e None ;; set_prev e None ;; set_list e None ;;
  k <- get_len l ;; set_len l (k - 1).

Definition move l e (at_ : ptr) : M unit :=
  if decide (e = at_) then ret tt else
  p <- get_prev e ;; n <- get_next e ;; set_next p n ;;
  n <- get_next e ;; p <- get_prev e ;; set_prev n p ;;
  set_prev e at_ ;;
  n <- get_next at_ ;; set_next e n ;;
  p <- get_prev e ;; set_next p e ;;
  n <- get_next e ;; set_prev n e.

Definition Remove l e : M T :=
  o <- get_list e ;;
  (if decide (o = Some l) then remove l e else ret tt) ;;
  get_Value e.
Definition PushFront l v : M ptr := lazyInit l ;; insertValue l v (Some l).
Definition PushBack l v : M ptr :=
  lazyInit l ;; p <- get_prev (Some l) ;; insertValue l v p.
Definition InsertBefore l v mark : M ptr :=
  o <- get_list mark ;;
  if decide (o <> Some l) then ret None else p <- get_prev mark ;; insertValue l v p.
Definition InsertAfter l v mark : M ptr :=
  o <- get_list mark ;;
  if decide (o <> Some l) then ret None else insertValue l v mark.
Definition MoveToFront l e : M unit :=
  o <- get_list e ;; n <- get_next (Some l) ;;
  if decide (o <> Some l \/ n = e) then ret tt else move l e (Some l).
Definition MoveToBack l e : M unit :=
  o <- get_list e ;; p <- get_prev (Some l) ;;
  if decide (o <> Some l \/ p = e) then ret tt else move l e p.
Definition MoveBefore l e mark : M unit :=
  o <- get_list e ;;
  if decide (o <> Some l \/ e = mark) then ret tt else
  o' <- get_list mark ;;
  if decide (o' <> Some l) then ret tt else p <- get_prev mark ;; move l e p.
Definition MoveAfter l e mark : M unit :=
  o <- get_list e ;;
  if decide (o <> Some l \/ e = mark) then ret tt else
  o' <- get_list mark ;;
  if decide (o' <> Some l) then ret tt else move l e mark.

(** The loops count the elements down, so they need no fuel. *)
Fixpoint push_back_loop (i : nat) l e : M unit :=
  match i with
  | O => ret tt
  | S i => v <- get_Value e ;; p <- get_prev (Some l) ;; insertValue l v p ;;
           e' <- Next e ;; push_back_loop i l e'
  end.
Definition PushBackList l other : M unit :=
  lazyInit l ;; i <- Len other ;; e <- Front other ;; push_back_loop (Z.to_nat i) l e.
Fixpoint push_front_loop (i : nat) l e : M unit :=
  match i with
  | O => ret tt
  | S i => v <- get_Value e ;; insertValue l v (Some l) ;;
           e' <- Prev e ;; push_front_loop i l e'
  end.
Definition PushFrontList l other : M unit :=
  lazyInit l ;; i <- Len other ;; e <- Back other ;; push_front_loop (Z.to_nat i) l e.

(** The assignment of a zero List to [*l]. *)
Definition zero_list l : M unit :=
  set_next (Some l) None ;; set_prev (Some l) None ;; set_len l 0.

(** ** The additions of cond.go *)

Definition Size l : M Z := get_len l.
Definition IsEmpty l : M bool := n <- get_len l ;; ret (bool_decide (n = 0)).
Definition PopBack l : M T :=
  n <- get_len l ;;
  if decide (n = 0) then ret zero else
  entry <- get_prev (Some l) ;; remove l entry ;; get_Value entry.
Definition PopFront l : M T :=
  n <- get_len l ;;
  if decide (n = 0) then ret zero else
  entry <- get_next (Some l) ;; remove l entry ;; get_Value entry.

(** [for element := l.Front(); element != nil; element = element.Next()] *)
Fixpoint each (fuel : nat) (e : ptr) (acc : list T) : M (list T) :=
  match e with
  | None => ret acc
  | Some _ =>
      match fuel with
      | O => fun _ => OutOfFuel
      | S fuel => v <- get_Value e ;; e' <- Next e ;; each fuel e' (acc ++ [v])
      end
  end.
Definition values l : M (list T) :=
  n <- get_len l ;; e <- Front l ;; each (S (Z.to_nat n)) e [].
Definition Array l : M (list T) :=
  n <- get_len l ;; if decide (n = 0) then ret [] else values l.
End LinkedList.
