(* ===== verification/LinkedListSpec.v ===== *)
(** * What the linked lists of common/x/list promise

    The abstract state holds for every list the addresses of its elements in
    order, for every element the list it is in ([home]) and its value.
    [list_step] says what each method answers and what it leaves. *)

From S2P Require Import Prelude LinkedList.

(** ** Lists of addresses *)

Definition without (e : addr) (ns : list addr) : list addr := filter (fun x => x <> e) ns.
Definition put_after (m e : addr) (ns : list addr) : list addr :=
  flat_map (fun x => if decide (x = m) then [x; e] else [x]) ns.
Definition put_before (m e : addr) (ns : list addr) : list addr :=
  flat_map (fun x => if decide (x = m) then [e; x] else [x]) ns.
(** The element that follows [e]. *)
Fixpoint after (e : addr) (ns : list addr) : ptr :=
  match ns with
  | [] => None
  | x :: r => if decide (x = e) then head r else after e r
  end.

Lemma without_app e l1 l2 : without e (l1 ++ l2) = without e l1 ++ without e l2.
Proof. apply filter_app. Qed.
Lemma without_cons e x ns : without e (x :: ns) = if decide (x = e) then without e ns else x :: without e ns.
Proof.
  unfold without. case_decide; [rewrite filter_cons_False by tauto|rewrite filter_cons_True by done]; done.
Qed.
Lemma without_absent e ns : e ∉ ns -> without e ns = ns.
Proof.
  induction ns as [|x ns IH]; intros H; [done|]. rewrite without_cons, decide_False by set_solver.
  f_equal. apply IH. set_solver.
Qed.
Lemma without_middle e l1 l2 : NoDup (l1 ++ e :: l2) -> without e (l1 ++ e :: l2) = l1 ++ l2.
Proof.
  intros (_ & H & [? _]%NoDup_cons)%NoDup_app. rewrite without_app, without_cons, decide_True by done.
  rewrite !without_absent by set_solver. done.
Qed.
Lemma put_after_absent m e ns : m ∉ ns -> put_after m e ns = ns.
Proof.
  induction ns as [|x ns IH]; intros H; [done|]. cbn. rewrite decide_False by set_solver.
  cbn. f_equal. apply IH. set_solver.
Qed.
Lemma put_before_absent m e ns : m ∉ ns -> put_before m e ns = ns.
Proof.
  induction ns as [|x ns IH]; intros H; [done|]. cbn. rewrite decide_False by set_solver.
  cbn. f_equal. apply IH. set_solver.
Qed.
Lemma put_after_middle m e l1 l2 :
  NoDup (l1 ++ m :: l2) -> put_after m e (l1 ++ m :: l2) = l1 ++ m :: e :: l2.
Proof.
  intros (_ & H & [? _]%NoDup_cons)%NoDup_app. unfold put_after. rewrite flat_map_app. cbn.
  rewrite decide_True by done. fold (put_after m e l1) (put_after m e l2).
  rewrite !put_after_absent by set_solver. done.
Qed.
Lemma put_before_middle m e l1 l2 :
  NoDup (l1 ++ m :: l2) -> put_before m e (l1 ++ m :: l2) = l1 ++ e :: m :: l2.
Proof.
  intros (_ & H & [? _]%NoDup_cons)%NoDup_app. unfold put_before. rewrite flat_map_app. cbn.
  rewrite decide_True by done. fold (put_before m e l1) (put_before m e l2).
  rewrite !put_before_absent by set_solver. done.
Qed.
Lemma after_middle e l1 l2 : e ∉ l1 -> after e (l1 ++ e :: l2) = head l2.
Proof.
  induction l1 as [|x l1 IH]; intros H; cbn; [by rewrite decide_True|].
  rewrite decide_False by set_solver. apply IH. set_solver.
Qed.
Lemma before_middle e l1 l2 : e ∉ l2 -> after e (reverse (l1 ++ e :: l2)) = last l1.
Proof.
  intros H. rewrite reverse_app, reverse_cons, <- app_assoc. cbn.
  rewrite after_middle by (by rewrite elem_of_reverse).
  destruct l1 as [|x l1 _] using rev_ind; [done|]. by rewrite reverse_snoc, last_snoc.
Qed.

(** ** The abstract machine *)

Section Spec.
Context {T : Type} (zero : T).

Record world := mkWorld {
  lists : gmap addr (list addr);
  home : gmap addr addr;
  vals : gmap addr T;
  addrs : gset addr }.

Inductive list_op :=
  | ONew | OInit (l : addr) | OLen (l : addr) | OFront (l : addr) | OBack (l : addr)
  | ONext (e : addr) | OPrev (e : addr) | OList (e : addr)
  | OPushFront (l : addr) (v : T) | OPushBack (l : addr) (v : T)
  | OInsertBefore (l : addr) (v : T) (m : addr) | OInsertAfter (l : addr) (v : T) (m : addr)
  | ORemove (l e : addr) | OMoveToFront (l e : addr) | OMoveToBack (l e : addr)
  | OMoveBefore (l e m : addr) | OMoveAfter (l e m : addr)
  | OPushBackList (l other : addr) | OPushFrontList (l other : addr)
  | OPopBack (l : addr) | OPopFront (l : addr) | OArray (l : addr).

Inductive answer := ANone | APtr (p : ptr) | AVal (v : T) | ANum (n : Z) | AVals (vs : list T).

Definition elems (w : world) (l : addr) : list addr := default [] (lists w !! l).
Definition val (w : world) (e : addr) : T := default zero (vals w !! e).
Definition with_list (l : addr) (ns : list addr) (w : world) : world :=
  mkWorld (<[l := ns]> (lists w)) (home w) (vals w) (addrs w).
(** The list [l] becomes [ns], which has the new element [e] with value [v]. *)
Definition with_new (l : addr) (ns : list addr) (e : addr) (v : T) (w : world) : world :=
  mkWorld (<[l := ns]> (lists w)) (<[e := l]> (home w)) (<[e := v]> (vals w)) ({[e]} ∪ addrs w).
Definition take_out (l e : addr) (w : world) : world :=
  mkWorld (<[l := without e (elems w l)]> (lists w)) (delete e (home w)) (vals w) (addrs w).

Definition push_back (l : addr) (v : T) (w : world) : world :=
  let e := fresh (addrs w) in with_new l (elems w l ++ [e]) e v w.
Definition push_front (l : addr) (v : T) (w : world) : world :=
  let e := fresh (addrs w) in with_new l (e :: elems w l) e v w.

Definition list_step (o : list_op) (w : world) : answer * world :=
  let new := fresh (addrs w) in
  match o with
  | ONew => (APtr (Some new), mkWorld (<[new := []]> (lists w)) (home w) (vals w) ({[new]} ∪ addrs w))
  | OInit l => (ANone, with_list l [] w)
  | OLen l => (ANum (zlen (elems w l)), w)
  | OFront l => (APtr (head (elems w l)), w)
  | OBack l => (APtr (last (elems w l)), w)
  | ONext e => (APtr (match home w !! e with Some l => after e (elems w l) | None => None end), w)
  | OPrev e => (APtr (match home w !! e with Some l => after e (reverse (elems w l)) | None => None end), w)
  | OList e => (APtr (home w !! e), w)
  | OPushFront l v => (APtr (Some new), push_front l v w)
  | OPushBack l v => (APtr (Some new), push_back l v w)
  | OInsertBefore l v m =>
      if decide (home w !! m = Some l)
      then (APtr (Some new), with_new l (put_before m new (elems w l)) new v w) else (APtr None, w)
  | OInsertAfter l v m =>
      if decide (home w !! m = Some l)
      then (APtr (Some new), with_new l (put_after m new (elems w l)) new v w) else (APtr None, w)
  | ORemove l e =>
      (AVal (val w e), if decide (home w !! e = Some l) then take_out l e w else w)
  | OMoveToFront l e =>
      (ANone, if decide (home w !! e = Some l) then with_list l (e :: without e (elems w l)) w else w)
  | OMoveToBack l e =>
      (ANone, if decide (home w !! e = Some l) then with_list l (without e (elems w l) ++ [e]) w else w)
  | OMoveBefore l e m =>
      (ANone, if decide (home w !! e = Some l /\ home w !! m = Some l /\ e <> m)
              then with_list l (put_before m e (without e (elems w l))) w else w)
  | OMoveAfter l e m =>
      (ANone, if decide (home w !! e = Some l /\ home w !! m = Some l /\ e <> m)
              then with_list l (put_after m e (without e (elems w l))) w else w)
  | OPushBackList l other =>
      (ANone, fold_left (fun w x => push_back l (val w x) w) (elems w other) w)
  | OPushFrontList l other =>
      (ANone, fold_left (fun w x => push_front l (val w x) w) (reverse (elems w other)) w)
  | OPopBack l =>
      match last (elems w l) with
      | None => (AVal zero, w)
      | Some e => (AVal (val w e), take_out l e w)
      end
  | OPopFront l =>
      match head (elems w l) with
      | None => (AVal zero, w)
      | Some e => (AVal (val w e), take_out l e w)
      end
  | OArray l => (AVals (val w <$> elems w l), w)
  end.

(** The lists an operation works on exist; Init is called on an empty list. *)
Definition allowed (o : list_op) (w : world) : Prop :=
  match o with
  | OInit l => lists w !! l = Some []
  | OLen l | OFront l | OBack l | OPushFront l _ | OPushBack l _ | OInsertBefore l _ _
  | OInsertAfter l _ _ | ORemove l _ | OMoveToFront l _ | OMoveToBack l _ | OMoveBefore l _ _
  | OMoveAfter l _ _ | OPopBack l | OPopFront l | OArray l => is_Some (lists w !! l)
  | OPushBackList l other | OPushFrontList l other => is_Some (lists w !! l) /\ is_Some (lists w !! other)
  | ONew | ONext _ | OPrev _ | OList _ => True
  end.

Fixpoint list_steps (os : list list_op) (w : world) : list answer * world :=
  match os with
  | [] => ([], w)
  | o :: os => let (a, w') := list_step o w in let (a', w'') := list_steps os w' in (a :: a', w'')
  end.
Fixpoint all_allowed (os : list list_op) (w : world) : Prop :=
  match os with
  | [] => True
  | o :: os => allowed o w /\ all_allowed os (list_step o w).2
  end.
Definition empty_world : world := mkWorld ∅ ∅ ∅ ∅.

(** ** The methods behind the operations *)

Local Open Scope go_scope.
Local Notation M := (GoM (heap T)).

Definition list_run (o : list_op) : M answer :=
  match o with
  | ONew => l <- new_object ;; ret (APtr (Some l))
  | OInit l => Init l ;; ret ANone
  | OLen l => n <- Len l ;; ret (ANum n)
  | OFront l => p <- Front l ;; ret (APtr p)
  | OBack l => p <- Back l ;; ret (APtr p)
  | ONext e => p <- Next (Some e) ;; ret (APtr p)
  | OPrev e => p <- Prev (Some e) ;; ret (APtr p)
  | OList e => p <- List_ (Some e) ;; ret (APtr p)
  | OPushFront l v => p <- PushFront l v ;; ret (APtr p)
  | OPushBack l v => p <- PushBack l v ;; ret (APtr p)
  | OInsertBefore l v m => p <- InsertBefore l v (Some m) ;; ret (APtr p)
  | OInsertAfter l v m => p <- InsertAfter l v (Some m) ;; ret (APtr p)
  | ORemove l e => v <- Remove zero l (Some e) ;; ret (AVal v)
  | OMoveToFront l e => MoveToFront l (Some e) ;; ret ANone
  | OMoveToBack l e => MoveToBack l (Some e) ;; ret ANone
  | OMoveBefore l e m => MoveBefore l (Some e) (Some m) ;; ret ANone
  | OMoveAfter l e m => MoveAfter l (Some e) (Some m) ;; ret ANone
  | OPushBackList l other => PushBackList zero l other ;; ret ANone
  | OPushFrontList l other => PushFrontList zero l other ;; ret ANone
  | OPopBack l => v <- PopBack zero l ;; ret (AVal v)
  | OPopFront l => v <- PopFront zero l ;; ret (AVal v)
  | OArray l => vs <- Array zero l ;; ret (AVals vs)
  end.
Fixpoint list_runs (os : list list_op) : M (list answer) :=
  match os with
  | [] => ret []
  | o :: os => a <- list_run o ;; a' <- list_runs os ;; ret (a :: a')
  end.
End Spec.
