(* ===== verification/LinkedListTheorems.v ===== *)
(** * Doubly linked lists: the methods are list operations

    [is_list s l ns]: in the heap [s] the list at address [l] has the elements
    [ns].  Every method of LinkedList.v is an operation on [ns], and leaves the
    other lists of the heap alone. *)

From S2P Require Import Prelude Ring LinkedList LinkedListSpec.

(** ** Rings in the heap *)

Section Links.
Implicit Types (n p : gmap addr addr) (ns : list addr).

Definition link n (a : addr) : addr := default a (n !! a).
Definition ringed n p ns : Prop :=
  ring (link n) (link p) ns /\ Forall (fun a => is_Some (n !! a) /\ is_Some (p !! a)) ns /\ NoDup ns.

Lemma exists_last_or_nil ns : ns = [] \/ exists pre a, ns = pre ++ [a].
Proof. destruct ns as [|a ns _] using rev_ind; eauto. Qed.

Lemma exists_head_or_nil ns : ns = [] \/ exists a post, ns = a :: post.
Proof. destruct ns; eauto. Qed.

Lemma link_insert n a b q : link (<[a := b]> n) q = if decide (q = a) then b else link n q.
Proof.
  unfold link. case_decide; [subst; by rewrite lookup_insert_eq|by rewrite lookup_insert_ne].
Qed.
Lemma link_Some n a b : n !! a = Some b -> link n a = b.
Proof. unfold link. by intros ->. Qed.

Lemma ringed_app_comm n p l1 l2 : ringed n p (l1 ++ l2) <-> ringed n p (l2 ++ l1).
Proof.
  unfold ringed. by rewrite ring_app_comm, (Permutation_app_comm l1 l2).
Qed.

Lemma ringed_linked n p ns a :
  ringed n p ns -> a ∈ ns -> n !! a = Some (link n a) /\ p !! a = Some (link p a).
Proof.
  intros (_ & Hl & _) Ha. rewrite Forall_forall in Hl. destruct (Hl a Ha) as [[b Hb] [c Hc]].
  unfold link. by rewrite Hb, Hc.
Qed.

(** The successor of a node in the middle. *)
Lemma ringed_next n p l1 a b l2 :
  ringed n p (l1 ++ a :: b :: l2) -> n !! a = Some b /\ p !! b = Some a.
Proof.
  intros Hr. pose proof Hr as Hr'. apply ringed_app_comm in Hr as (Hr & _ & _). cbn in Hr.
  destruct Hr as (Hn & Hp & _).
  destruct (ringed_linked _ _ _ a Hr') as [-> _]; [set_solver|].
  destruct (ringed_linked _ _ _ b Hr') as [_ ->]; [set_solver|]. by rewrite Hn, Hp.
Qed.

(** The ends of the list that starts with the sentinel [l]. *)
Lemma ringed_wrap n p l ns a :
  ringed n p (l :: ns ++ [a]) -> n !! a = Some l /\ p !! l = Some a.
Proof.
  intros Hr. change (ringed n p ((l :: ns) ++ [a])) in Hr. apply ringed_app_comm in Hr.
  by apply (ringed_next n p [] a l ns).
Qed.

Lemma ringed_ext n p n' p' ns :
  (forall a, a ∈ ns -> n' !! a = n !! a /\ p' !! a = p !! a) -> ringed n p ns -> ringed n' p' ns.
Proof.
  intros H (Hr & Hl & Hnd). split_and!; [|rewrite Forall_forall in Hl |- *|done].
  - revert Hr. apply ring_ext; intros a Ha; unfold link; destruct (H a Ha) as [H1 H2]; by rewrite ?H1, ?H2.
  - intros a Ha. destruct (H a Ha) as [-> ->]. by apply Hl.
Qed.

Lemma ringed_insert n p l1 a l2 e b :
  ringed n p (l1 ++ a :: l2) -> e ∉ l1 ++ a :: l2 -> n !! a = Some b ->
  ringed (<[a := e]> (<[e := b]> n)) (<[b := e]> (<[e := a]> p)) (l1 ++ a :: e :: l2).
Proof.
  intros Hr He Hb.
  assert (b ∈ l1 ++ a :: l2) as Hbin.
  { rewrite <- (link_Some _ _ _ Hb). eapply (proj1 (ring_closed (link n) (link p) _ a (proj1 Hr) ltac:(set_solver))). }
  assert (e <> a /\ e <> b) as [Hea Heb] by (split; intros <-; set_solver).
  assert (exists L, (l2 ++ l1) ++ [a] = b :: L /\ link p b = a) as (L & HL & Hpb).
  { pose proof (ringed_app_comm n p (l1 ++ [a]) l2) as Hc. rewrite <- app_assoc in Hc. apply Hc in Hr.
    rewrite app_assoc in Hr. destruct (l2 ++ l1) as [|x r].
    - destruct Hr as (Hr & _). apply ring_singleton in Hr as [Hn Hp].
      exists []. rewrite (link_Some _ _ _ Hb) in Hn. subst b. done.
    - cbn in Hr. apply ringed_wrap in Hr as [Hn Hp]. exists (r ++ [a]).
      rewrite Hb in Hn. injection Hn as ->. split; [done|]. by apply link_Some. }
  destruct Hr as (Hr & Hl & Hnd).
  assert (forall x, x ∈ b :: L <-> x ∈ l1 ++ a :: l2) as Hperm by (intros x; rewrite <- HL; set_solver).
  assert (b :: L ≡ₚ l1 ++ a :: l2) as HP by (rewrite <- HL; solve_Permutation).
  split_and!.
  - replace (l1 ++ a :: e :: l2) with ((l1 ++ [a; e]) ++ l2) by (by rewrite <- app_assoc).
    apply ring_app_comm. rewrite app_assoc.
    replace ((l2 ++ l1) ++ [a; e]) with (((l2 ++ l1) ++ [a]) ++ [e]) by (by rewrite <- app_assoc).
    rewrite HL. cbn [app]. apply (ring_link (link n) (link p)).
    + by rewrite HP.
    + by rewrite HP.
    + rewrite <- HL, <- app_assoc. apply ring_app_comm. rewrite <- app_assoc. done.
    + rewrite !link_insert. rewrite decide_False, decide_True by done. done.
    + rewrite !link_insert. rewrite decide_False, decide_True by done. by rewrite Hpb.
    + intros q Hq. rewrite !link_insert, Hpb. repeat case_decide; subst; try done.
      by apply Hperm in Hq.
    + intros q Hq. rewrite !link_insert. repeat case_decide; subst; try done. by apply Hperm in Hq.
  - rewrite Forall_forall in Hl |- *. intros x Hx. rewrite !lookup_insert_is_Some'.
    destruct (decide (x = e)) as [->|]; [tauto|].
    assert (x ∈ l1 ++ a :: l2) as Hx'%Hl by set_solver. tauto.
  - assert (l1 ++ a :: e :: l2 ≡ₚ e :: l1 ++ a :: l2) as -> by solve_Permutation.
    by apply NoDup_cons.
Qed.

Lemma ringed_delete n p l1 e l2 a b :
  ringed n p (l1 ++ e :: l2) -> l1 ++ l2 <> [] -> p !! e = Some a -> n !! e = Some b ->
  a ∈ l1 ++ l2 /\ b ∈ l1 ++ l2 /\ ringed (<[a := b]> n) (<[b := a]> p) (l1 ++ l2).
Proof.
  intros Hr Hne Ha Hb. destruct Hr as (Hr & Hl & Hnd).
  assert (a ∈ l1 ++ l2 /\ b ∈ l1 ++ l2) as [Hain Hbin].
  { apply ring_app_comm in Hr. cbn in Hr. rewrite <- (link_Some _ _ _ Ha), <- (link_Some _ _ _ Hb).
    rewrite !(elem_of_app l1), (or_comm (_ ∈ l1)), (or_comm (_ ∈ l1)), <- !elem_of_app.
    assert (l2 ++ l1 <> []) as Hne' by (intros [-> ->]%app_nil; done).
    destruct (l2 ++ l1) as [|x L]; [done|].
    destruct (ring_next _ _ _ _ _ Hr) as [-> _].
    split; [|set_solver]. destruct (exists_last (l := x :: L)) as (L' & z & E); [done|].
    rewrite E in *. apply ring_links in Hr as [_ ->]. set_solver. }
  split; [done|]. split; [done|]. split_and!; [|rewrite Forall_forall in Hl |- *|].
  - apply (ring_unlink_mid (link n) (link p) _ _ l1 e l2); try done;
      intros q; rewrite link_insert, (link_Some _ _ _ Ha), (link_Some _ _ _ Hb); done.
  - intros x Hx. rewrite !lookup_insert_is_Some'. assert (x ∈ l1 ++ e :: l2) as Hx'%Hl by set_solver.
    tauto.
  - assert (l1 ++ e :: l2 ≡ₚ e :: l1 ++ l2) as HP by solve_Permutation. rewrite HP in Hnd.
    by apply NoDup_cons in Hnd as [_ Hnd].
Qed.
End Links.

(** ** The pointer surgery of the methods *)

Section LinkedListTheorems.
Context {T : Type} (zero : T).
Implicit Types (s : heap T) (l e a b : addr) (ns pre post : list addr) (v : T).

Section Run.
Context {A : Type}.
Implicit Types (k : ptr -> GoM (heap T) A) (h : unit -> GoM (heap T) A).
Lemma run_get_next k s a : bind (get_next (Some a)) k s = k (next s !! a) s.
Proof. done. Qed.
Lemma run_get_prev k s a : bind (get_prev (Some a)) k s = k (prev s !! a) s.
Proof. done. Qed.
Lemma run_get_list k s a : bind (get_list (Some a)) k s = k (list_ s !! a) s.
Proof. done. Qed.
Lemma run_get_Value (k : T -> GoM (heap T) A) s a :
  bind (get_Value zero (Some a)) k s = k (default zero (Value s !! a)) s.
Proof. done. Qed.
Lemma run_get_len (k : Z -> GoM (heap T) A) s l : bind (get_len l) k s = k (default 0 (len s !! l)) s.
Proof. done. Qed.
Lemma run_set_next h s a b : bind (set_next (Some a) (Some b)) h s =
  h tt (mkHeap (<[a := b]> (next s)) (prev s) (list_ s) (Value s) (len s) (used s)).
Proof. done. Qed.
Lemma run_set_prev h s a b : bind (set_prev (Some a) (Some b)) h s =
  h tt (mkHeap (next s) (<[a := b]> (prev s)) (list_ s) (Value s) (len s) (used s)).
Proof. done. Qed.
Lemma run_set_list h s a b : bind (set_list (Some a) (Some b)) h s =
  h tt (mkHeap (next s) (prev s) (<[a := b]> (list_ s)) (Value s) (len s) (used s)).
Proof. done. Qed.
Lemma run_set_next_nil h s a : bind (set_next (Some a) None) h s =
  h tt (mkHeap (delete a (next s)) (prev s) (list_ s) (Value s) (len s) (used s)).
Proof. done. Qed.
Lemma run_set_prev_nil h s a : bind (set_prev (Some a) None) h s =
  h tt (mkHeap (next s) (delete a (prev s)) (list_ s) (Value s) (len s) (used s)).
Proof. done. Qed.
Lemma run_set_list_nil h s a : bind (set_list (Some a) None) h s =
  h tt (mkHeap (next s) (prev s) (delete a (list_ s)) (Value s) (len s) (used s)).
Proof. done. Qed.
Lemma run_set_len h s l n : bind (set_len l n) h s =
  h tt (mkHeap (next s) (prev s) (list_ s) (Value s) (<[l := n]> (len s)) (used s)).
Proof. done. Qed.
Lemma run_set_Value h s a v : bind (set_Value (Some a) v) h s =
  h tt (mkHeap (next s) (prev s) (list_ s) (<[a := v]> (Value s)) (len s) (used s)).
Proof. done. Qed.
End Run.

(** Runs straight-line code on the heap: a pointer that is read after it has been
    written gives what was written. *)
Ltac step_heap :=
  lazymatch goal with
  | |- bind (get_next _) _ _ = _ => rewrite run_get_next
  | |- bind (get_prev _) _ _ = _ => rewrite run_get_prev
  | |- bind (get_list _) _ _ = _ => rewrite run_get_list
  | |- bind (get_Value _ _) _ _ = _ => rewrite run_get_Value
  | |- bind (get_len _) _ _ = _ => rewrite run_get_len
  | |- bind (set_next _ None) _ _ = _ => rewrite run_set_next_nil
  | |- bind (set_prev _ None) _ _ = _ => rewrite run_set_prev_nil
  | |- bind (set_list _ None) _ _ = _ => rewrite run_set_list_nil
  | |- bind (set_next _ _) _ _ = _ => rewrite run_set_next
  | |- bind (set_prev _ _) _ _ = _ => rewrite run_set_prev
  | |- bind (set_list _ _) _ _ = _ => rewrite run_set_list
  | |- bind (set_Value _ _) _ _ = _ => rewrite run_set_Value
  | |- bind (set_len _ _) _ _ = _ => rewrite run_set_len
  | |- bind (ret _) _ _ = _ => rewrite bind_ret
  end.
Ltac run_heap :=
  repeat (step_heap; cbn beta; cbn [next prev list_ Value len used];
    repeat first [rewrite lookup_insert_eq | rewrite lookup_insert_ne by done]).

Lemma insert_links s l e a b :
  next s !! a = Some b -> e <> a ->
  insert l (Some e) (Some a) s = Val (Some e,
    mkHeap (<[a := e]> (<[e := b]> (next s))) (<[b := e]> (<[e := a]> (prev s))) (<[e := l]> (list_ s))
      (Value s) (<[l := default 0 (len s !! l) + 1]> (len s)) (used s)).
Proof.
  intros Hb Hne. unfold insert. run_heap. rewrite Hb. run_heap. done.
Qed.

Lemma remove_links s l e a b :
  prev s !! e = Some a -> next s !! e = Some b -> a <> e -> b <> e ->
  remove l (Some e) s = Val (tt,
    mkHeap (delete e (<[a := b]> (next s))) (delete e (<[b := a]> (prev s))) (delete e (list_ s))
      (Value s) (<[l := default 0 (len s !! l) - 1]> (len s)) (used s)).
Proof.
  intros Ha Hb Hne1 Hne2. unfold remove. run_heap. rewrite Ha, Hb. run_heap. rewrite Ha, Hb.
  run_heap. done.
Qed.

Lemma move_links s l e a b at_ c :
  prev s !! e = Some a -> next s !! e = Some b -> a <> e -> at_ <> e ->
  <[a := b]> (next s) !! at_ = Some c ->
  move l (Some e) (Some at_) s = Val (tt,
    mkHeap (<[at_ := e]> (<[e := c]> (<[a := b]> (next s)))) (<[c := e]> (<[e := at_]> (<[b := a]> (prev s))))
      (list_ s) (Value s) (len s) (used s)).
Proof.
  intros Ha Hb Hne1 Hne2 Hc. unfold move. rewrite decide_False by congruence.
  run_heap. rewrite Ha, Hb. run_heap. rewrite Ha, Hb. run_heap. rewrite Hc. run_heap. done.
Qed.

(** ** Heaps of lists *)

Record is_list s l ns : Prop := {
  il_ring : ringed (next s) (prev s) (l :: ns) \/ (ns = [] /\ next s !! l = None /\ prev s !! l = None);
  il_member : forall e, e ∈ ns -> list_ s !! e = Some l;
  il_root : list_ s !! l = None;
  il_len : default 0 (len s !! l) = zlen ns;
  il_used : l ∈ used s /\ forall e, e ∈ ns -> e ∈ used s }.

Record Rep s (w : gmap addr (list addr)) : Prop := {
  rep_list : forall l ns, w !! l = Some ns -> is_list s l ns;
  rep_fresh : forall a, a ∉ used s ->
    next s !! a = None /\ prev s !! a = None /\ list_ s !! a = None /\ len s !! a = None }.

Lemma is_list_disjoint s l ns l' ns' a :
  is_list s l ns -> is_list s l' ns' -> l' <> l -> a ∈ l' :: ns' -> a ∉ l :: ns.
Proof.
  intros H H' Hne [->|Ha']%elem_of_cons [->|Ha]%elem_of_cons.
  - done.
  - apply (il_member _ _ _ H) in Ha. by rewrite (il_root _ _ _ H') in Ha.
  - apply (il_member _ _ _ H') in Ha'. by rewrite (il_root _ _ _ H) in Ha'.
  - apply (il_member _ _ _ H) in Ha. apply (il_member _ _ _ H') in Ha'. congruence.
Qed.

(** One list is rewired: its old nodes and fresh ones may change, nothing else does. *)
Lemma Rep_rewire s w l ns ns' n' p' o' V k u' :
  Rep s w -> w !! l = Some ns -> ringed n' p' (l :: ns') ->
  (forall a, a ∉ l :: ns -> a ∉ ns' ->
     n' !! a = next s !! a /\ p' !! a = prev s !! a /\ o' !! a = list_ s !! a) ->
  (forall e, e ∈ ns' -> o' !! e = Some l /\ e ∈ u' /\ (e ∈ ns \/ e ∉ used s)) ->
  o' !! l = None -> k = zlen ns' -> used s ⊆ u' ->
  Rep (mkHeap n' p' o' V (<[l := k]> (len s)) u') (<[l := ns']> w).
Proof.
  intros HR Hl Hr Hout Hin Hroot -> Hu. pose proof (rep_list _ _ HR _ _ Hl) as HL.
  destruct (il_used _ _ _ HL) as [Hlu Hnsu]. split.
  - intros l' ns2 Hl2. destruct (decide (l = l')) as [<-|Hne].
    + rewrite lookup_insert_eq in Hl2. injection Hl2 as <-. split; cbn.
      * by left.
      * intros e He. by apply Hin.
      * done.
      * by rewrite lookup_insert_eq.
      * split; [set_solver|]. intros e He. by apply Hin.
    + rewrite lookup_insert_ne in Hl2 by done. pose proof (rep_list _ _ HR _ _ Hl2) as HL2.
      assert (forall a, a ∈ l' :: ns2 -> n' !! a = next s !! a /\ p' !! a = prev s !! a /\ o' !! a = list_ s !! a)
        as Hsame.
      { intros a Ha. pose proof (is_list_disjoint _ _ _ _ _ _ HL HL2 ltac:(done) Ha) as Ha'.
        apply Hout; [done|]. intros Hns. destruct (Hin a Hns) as (_ & _ & [|Hnew]); [set_solver|].
        apply Hnew. destruct (il_used _ _ _ HL2). set_solver. }
      destruct HL2 as [Hring Hmem Hroot2 Hlen [Hu1 Hu2]]. split; cbn.
      * destruct Hring as [Hring|(-> & ? & ?)]; [left|right].
        -- revert Hring. apply ringed_ext. intros a Ha. destruct (Hsame a Ha) as (? & ? & _). done.
        -- destruct (Hsame l' ltac:(set_solver)) as (-> & -> & _). done.
      * intros e He. destruct (Hsame e ltac:(set_solver)) as (_ & _ & ->). by apply Hmem.
      * destruct (Hsame l' ltac:(set_solver)) as (_ & _ & ->). done.
      * by rewrite lookup_insert_ne.
      * set_solver.
  - intros a Ha. cbn in *. rewrite lookup_insert_ne by set_solver.
    destruct (Hout a) as (-> & -> & ->).
    + set_solver.
    + intros Hns. by destruct (Hin a Hns) as (_ & ? & _).
    + destruct (rep_fresh _ _ HR a) as (? & ? & ? & ?); [set_solver|done].
Qed.

(** What a method does besides rewiring: values, owners, allocated addresses. *)
Definition payload s (V : gmap addr T) (o : gmap addr addr) (u : gset addr) : Prop :=
  Value s = V /\ list_ s = o /\ used s = u.
Definition same_payload s s' : Prop := payload s' (Value s) (list_ s) (used s).

Lemma len_present s l ns : is_list s l ns -> ns <> [] -> <[l := zlen ns]> (len s) = len s.
Proof.
  intros [_ _ _ Hl _] Hne. apply insert_id. destruct (len s !! l); cbn in Hl; [by subst|].
  destruct ns; [done|]. rewrite zlen_cons in Hl. pose proof (zlen_nonneg ns). lia.
Qed.

Lemma is_list_ring s l ns : is_list s l ns -> next s !! l <> None \/ ns <> [] -> ringed (next s) (prev s) (l :: ns).
Proof. intros [[?|(-> & ? & ?)] _ _ _ _] [?|?]; done. Qed.

Lemma is_list_nodup s l ns : is_list s l ns -> NoDup (l :: ns).
Proof. intros [[(_ & _ & ?)|(-> & _)] _ _ _ _]; [done|apply NoDup_singleton]. Qed.

Lemma Init_run s l : Init l s = Val (tt,
  mkHeap (<[l := l]> (next s)) (<[l := l]> (prev s)) (list_ s) (Value s) (<[l := 0]> (len s)) (used s)).
Proof. done. Qed.

(** Init on an empty list. *)
Lemma Init_rep s w l : Rep s w -> w !! l = Some [] -> exists s', Init l s = Val (tt, s') /\ Rep s' w
    /\ ringed (next s') (prev s') [l] /\ same_payload s s'.
Proof.
  intros HR Hl. pose proof (rep_list _ _ HR _ _ Hl) as HL. rewrite Init_run.
  eexists. split; [reflexivity|]. assert (forall n p : gmap addr addr,
    ringed (<[l := l]> n) (<[l := l]> p) [l]) as Hring.
  { intros n p. split_and!; [|rewrite Forall_singleton|apply NoDup_singleton].
    - apply ring_singleton. by rewrite !link_insert, !decide_True.
    - rewrite !lookup_insert_eq. eauto. }
  split_and!; [|apply Hring|done]. rewrite <- (insert_id w l []) by done.
  apply (Rep_rewire s w l [] []); try done; [|intros e He; by apply elem_of_nil in He|apply (il_root _ _ _ HL)].
  intros a Ha _. rewrite !lookup_insert_ne by set_solver. done.
Qed.

(** A list may be replaced by a zero list; its elements still believe to be in it. *)
Lemma zero_list_rep s w l ns : Rep s w -> w !! l = Some ns -> exists s', zero_list l s = Val (tt, s')
    /\ Rep s' (<[l := []]> w) /\ same_payload s s'.
Proof.
  intros HR Hl. pose proof (rep_list _ _ HR _ _ Hl) as HL. destruct (il_used _ _ _ HL) as [Hlu _].
  exists (mkHeap (delete l (next s)) (delete l (prev s)) (list_ s) (Value s) (<[l := 0]> (len s)) (used s)).
  split; [done|]. split; [|done]. split; cbn.
  - intros l' ns' [(<- & <-)|(Hne & E)]%lookup_insert_Some.
    + split; cbn; [right; by rewrite !lookup_delete_eq|by intros e ?%elem_of_nil|apply (il_root _ _ _ HL)|
        by rewrite lookup_insert_eq|split; [done|by intros e ?%elem_of_nil]].
    + pose proof (rep_list _ _ HR _ _ E) as HL'.
      assert (l ∉ l' :: ns') as Hn.
      { intros Hin. by apply (is_list_disjoint _ _ _ _ _ _ HL HL') in Hin; [set_solver|]. }
      destruct HL' as [Hr Hm Hroot Hlen Hu']. split; cbn; [|done|done|by rewrite lookup_insert_ne|done].
      destruct Hr as [Hr|(-> & ? & ?)]; [left|right; rewrite !lookup_delete_ne by set_solver; done].
      revert Hr. apply ringed_ext. intros a Ha. rewrite !lookup_delete_ne by set_solver. done.
  - intros a Ha. rewrite !lookup_delete_ne, lookup_insert_ne by set_solver. by apply (rep_fresh _ _ HR).
Qed.

Lemma set_Value_rep s w e v : Rep s w -> Rep (mkHeap (next s) (prev s) (list_ s) (<[e := v]> (Value s)) (len s) (used s)) w.
Proof. intros [HL Hf]. split; [|done]. intros l ns Hl. by destruct (HL l ns Hl). Qed.

Lemma lazyInit_rep s w l ns :
  Rep s w -> w !! l = Some ns -> exists s', lazyInit l s = Val (tt, s') /\ Rep s' w
    /\ ringed (next s') (prev s') (l :: ns) /\ same_payload s s'.
Proof.
  intros HR Hl. pose proof (rep_list _ _ HR _ _ Hl) as HL. unfold lazyInit. rewrite run_get_next.
  destruct (next s !! l) as [b|] eqn:E.
  - exists s. split_and!; [done|done| |done]. apply is_list_ring; [done|]. left. congruence.
  - destruct (il_ring _ _ _ HL) as [Hr|(-> & _ & _)]; [|by apply Init_rep].
    apply (ringed_linked _ _ _ l) in Hr as [Hr _]; [congruence|set_solver].
Qed.

(** A new element behind the node [a]. *)
Lemma insertValue_rep s w l ns ns' v pre a post :
  let e := fresh (used s) in
  Rep s w -> w !! l = Some ns -> ringed (next s) (prev s) (l :: ns) ->
  l :: ns = pre ++ a :: post -> l :: ns' = pre ++ a :: e :: post ->
  exists s', insertValue l v (Some a) s = Val (Some e, s') /\ Rep s' (<[l := ns']> w)
    /\ ringed (next s') (prev s') (l :: ns')
    /\ payload s' (<[e := v]> (Value s)) (<[e := l]> (list_ s)) ({[e]} ∪ used s).
Proof.
  intros e HR Hl Hring Hns Hns'. pose proof (rep_list _ _ HR _ _ Hl) as HL.
  destruct (il_used _ _ _ HL) as [Hlu Hnsu].
  assert (e ∉ used s) as Hfresh by apply is_fresh.
  assert (e ∉ l :: ns) as He by set_solver.
  assert (a ∈ l :: ns) as Ha by (rewrite Hns; set_solver).
  assert (forall x, x ∈ ns' <-> x ∈ ns \/ x = e) as Hmem.
  { pose proof (is_list_nodup _ _ _ HL) as Hnd. rewrite Hns in Hnd.
    assert (l :: ns' ≡ₚ e :: l :: ns) as HP by (rewrite Hns', Hns; solve_Permutation).
    assert (ns' ≡ₚ e :: ns) as HP'.
    { apply (Permutation_cons_inv (a := l)). rewrite HP. solve_Permutation. }
    intros x. rewrite HP'. set_solver. }
  destruct (ringed_linked _ _ _ a Hring Ha) as [Hb _].
  set (b := link (next s) a) in *.
  assert (b ∈ l :: ns) as Hbin by (apply (ring_closed _ _ _ a (proj1 Hring) Ha)).
  unfold insertValue, new_object. unfold bind at 1. fold e. cbn beta iota. rewrite run_set_Value.
  rewrite (insert_links _ l e a b) by (cbn; congruence || set_solver). cbn.
  eexists. split; [reflexivity|]. rewrite Hns in Hring.
  assert (ringed (<[a := e]> (<[e := b]> (next s))) (<[b := e]> (<[e := a]> (prev s))) (l :: ns')) as Hring'.
  { rewrite Hns'. apply ringed_insert; [done| |done]. by rewrite <- Hns. }
  split; [|done].
  apply (Rep_rewire s w l ns ns'); try done.
  - intros x Hx Hx'. rewrite Hmem in Hx'. rewrite !lookup_insert_ne by set_solver. done.
  - intros x Hx%Hmem. split_and!; [|set_solver|set_solver]. destruct (decide (x = e)) as [->|Hne].
    + by rewrite lookup_insert_eq.
    + rewrite lookup_insert_ne by done. apply (il_member _ _ _ HL). set_solver.
  - rewrite lookup_insert_ne by set_solver. apply (il_root _ _ _ HL).
  - rewrite (il_len _ _ _ HL). assert (zlen (l :: ns') = zlen (l :: ns) + 1) as E.
    { rewrite Hns', Hns, !zlen_app, !zlen_cons. lia. }
    rewrite !zlen_cons in E. lia.
  - set_solver.
Qed.

Lemma remove_rep s w l (l1 : list addr) e (l2 : list addr) :
  Rep s w -> w !! l = Some (l1 ++ e :: l2) ->
  exists s', remove l (Some e) s = Val (tt, s') /\ Rep s' (<[l := l1 ++ l2]> w)
    /\ payload s' (Value s) (delete e (list_ s)) (used s).
Proof.
  intros HR Hl. pose proof (rep_list _ _ HR _ _ Hl) as HL.
  pose proof (is_list_nodup _ _ _ HL) as Hnd.
  assert (ringed (next s) (prev s) ((l :: l1) ++ e :: l2)) as Hring.
  { apply (is_list_ring _ _ _ HL). right. by destruct l1. }
  destruct (ringed_linked _ _ _ e Hring) as [Hb Ha]; [set_solver|].
  destruct (ringed_delete _ _ _ _ _ _ _ Hring ltac:(done) Ha Hb) as (Hain & Hbin & Hring').
  assert (e ∉ (l :: l1) ++ l2) as He.
  { change (l :: l1 ++ e :: l2) with ((l :: l1) ++ e :: l2) in Hnd.
    rewrite NoDup_app in Hnd. destruct Hnd as (_ & H1 & [H2 _]%NoDup_cons). set_solver. }
  rewrite (remove_links _ _ _ _ _ Ha Hb) by (intros E; rewrite E in *; done).
  eexists. split; [reflexivity|]. split; [|done].
  apply (Rep_rewire s w l (l1 ++ e :: l2) (l1 ++ l2)); try done.
  - revert Hring'. apply ringed_ext. intros x Hx. cbn in Hx.
    rewrite !lookup_delete_ne by (intros <-; done). done.
  - intros x Hx Hx'. assert (x <> link (prev s) e /\ x <> link (next s) e /\ x <> e) as (? & ? & ?).
    { split_and!; intros ->; set_solver. }
    rewrite !lookup_delete_ne, !lookup_insert_ne by done. done.
  - intros x Hx. assert (x <> e) by (intros ->; set_solver). rewrite lookup_delete_ne by done.
    destruct (il_used _ _ _ HL) as [_ Hu]. split_and!; [|apply Hu; set_solver|left; set_solver].
    apply (il_member _ _ _ HL). set_solver.
  - rewrite lookup_delete_ne by (intros <-; set_solver). apply (il_root _ _ _ HL).
  - rewrite (il_len _ _ _ HL), !zlen_app, zlen_cons. lia.
Qed.

Lemma move_rep s w l (l1 : list addr) e (l2 : list addr) ns' pre a post :
  Rep s w -> w !! l = Some (l1 ++ e :: l2) ->
  l :: l1 ++ l2 = pre ++ a :: post -> l :: ns' = pre ++ a :: e :: post ->
  exists s', move l (Some e) (Some a) s = Val (tt, s') /\ Rep s' (<[l := ns']> w) /\ same_payload s s'.
Proof.
  intros HR Hl Hns Hns'. pose proof (rep_list _ _ HR _ _ Hl) as HL.
  pose proof (is_list_nodup _ _ _ HL) as Hnd.
  assert (ringed (next s) (prev s) ((l :: l1) ++ e :: l2)) as Hring.
  { apply (is_list_ring _ _ _ HL). right. by destruct l1. }
  destruct (ringed_linked _ _ _ e Hring) as [Hb Hp]; [set_solver|].
  destruct (ringed_delete _ _ _ _ _ _ _ Hring ltac:(done) Hp Hb) as (Hpin & Hbin & Hring').
  set (p := link (prev s) e) in *. set (b := link (next s) e) in *.
  cbn [app] in Hring', Hpin, Hbin. 
  assert (e ∉ l :: l1 ++ l2) as He.
  { change (l :: l1 ++ e :: l2) with ((l :: l1) ++ e :: l2) in Hnd.
    rewrite NoDup_app in Hnd. destruct Hnd as (_ & H1 & [H2 _]%NoDup_cons). set_solver. }
  assert (l :: ns' ≡ₚ l :: l1 ++ e :: l2) as HP.
  { rewrite Hns'. assert (pre ++ a :: e :: post ≡ₚ e :: pre ++ a :: post) as -> by solve_Permutation.
    rewrite <- Hns. solve_Permutation. }
  apply Permutation_cons_inv in HP.
  rewrite Hns in Hring', Hpin, Hbin, He.
  destruct (ringed_linked _ _ _ a Hring') as [Hc _]; [set_solver|].
  set (c := link (<[p:=b]> (next s)) a) in *.
  assert (c ∈ pre ++ a :: post) as Hcin by (apply (ring_closed _ _ _ a (proj1 Hring')); set_solver).
  rewrite (move_links _ _ _ p b a c) by (try done; intros E; rewrite E in *; set_solver).
  eexists. split; [reflexivity|]. split; [|done].
  assert (zlen ns' = zlen (l1 ++ e :: l2)) as Hlen by (unfold zlen; by rewrite HP).
  rewrite <- (len_present s l (l1 ++ e :: l2)) by (done || by destruct l1).
  apply (Rep_rewire s w l (l1 ++ e :: l2) ns'); try done.
  - rewrite Hns'. by apply ringed_insert.
  - intros x Hx _. assert (x ∉ pre ++ a :: post) by (rewrite <- Hns; set_solver).
    assert (x <> e) by set_solver.
    rewrite !lookup_insert_ne by (intros <-; set_solver). done.
  - intros x Hx. rewrite HP in Hx. destruct (il_used _ _ _ HL) as [_ Hu].
    split_and!; [by apply (il_member _ _ _ HL)|by apply Hu|by left].
  - apply (il_root _ _ _ HL).
Qed.

(** ** Reading a list *)

Section Reading.
Context s w l ns (HR : Rep s w) (Hl : w !! l = Some ns).

Let HL : is_list s l ns := rep_list _ _ HR _ _ Hl.

Lemma Len_rep : Len l s = Val (zlen ns, s).
Proof. unfold Len, get_len, gets. by rewrite (il_len _ _ _ HL). Qed.

Lemma get_len_bind {A} (k : Z -> GoM (heap T) A) : bind (get_len l) k s = k (zlen ns) s.
Proof. by rewrite run_get_len, (il_len _ _ _ HL). Qed.

Lemma first_node b post : ns = b :: post -> next s !! l = Some b.
Proof.
  intros ->. apply (ringed_next (next s) (prev s) [] l b post). cbn. apply (is_list_ring _ _ _ HL). by right.
Qed.

Lemma last_node pre b : ns = pre ++ [b] -> prev s !! l = Some b.
Proof.
  intros ->. apply (ringed_wrap (next s) (prev s) l pre b). apply (is_list_ring _ _ _ HL). right. by destruct pre.
Qed.

Lemma Front_rep : Front l s = Val (head ns, s).
Proof.
  unfold Front. rewrite get_len_bind. destruct (exists_head_or_nil ns) as [E|(b & post & E)]; rewrite E; [done|].
  rewrite decide_False by (rewrite zlen_cons; pose proof (zlen_nonneg post); lia).
  unfold get_next, bind, lift, gets. by rewrite (first_node b post).
Qed.

Lemma Back_rep : Back l s = Val (last ns, s).
Proof.
  unfold Back. rewrite get_len_bind. destruct (exists_last_or_nil ns) as [E|(pre & b & E)]; rewrite E; [done|].
  rewrite decide_False by (rewrite zlen_app, zlen_cons, zlen_nil; pose proof (zlen_nonneg pre); lia).
  unfold get_prev, bind, lift, gets. by rewrite (last_node pre b), last_snoc.
Qed.

Context (pre : list addr) (e : addr) (post : list addr) (Hns : ns = pre ++ e :: post).

Let Hring : ringed (next s) (prev s) (l :: pre ++ e :: post).
Proof. subst ns. apply (is_list_ring _ _ _ HL). right. by destruct pre. Qed.

Let Hroot : forall x, x ∈ pre ++ e :: post -> x <> l.
Proof. destruct Hring as (_ & _ & [H _]%NoDup_cons). by intros x Hx ->. Qed.

Lemma next_in : next s !! e = Some (default l (head post)).
Proof.
  pose proof Hring as Hr. destruct (exists_head_or_nil post) as [E|(b & r & E)]; rewrite E in Hr |- *.
  - change (ringed (next s) (prev s) (l :: pre ++ [e])) in Hr. by apply ringed_wrap in Hr as [? _].
  - by apply (ringed_next (next s) (prev s) (l :: pre) e b r).
Qed.

Lemma prev_in : prev s !! e = Some (default l (last pre)).
Proof.
  pose proof Hring as Hr. destruct (exists_last_or_nil pre) as [E|(r & b & E)]; rewrite E in Hr |- *.
  - by apply (ringed_next (next s) (prev s) [] l e post).
  - rewrite last_snoc. cbn. apply (ringed_next (next s) (prev s) (l :: r) b e post).
    replace ((l :: r) ++ b :: e :: post) with (l :: (r ++ [b]) ++ e :: post); [done|].
    cbn. by rewrite <- app_assoc.
Qed.

Lemma list_in : list_ s !! e = Some l.
Proof. apply (il_member _ _ _ HL). subst ns. set_solver. Qed.

Lemma Next_rep : Next (Some e) s = Val (head post, s).
Proof.
  unfold Next. rewrite run_get_next, run_get_list, next_in, list_in.
  pose proof Hroot as Hr. destruct (exists_head_or_nil post) as [E|(b & r & E)]; rewrite E in Hr |- *; cbn.
  { by rewrite decide_True. }
  rewrite decide_False; [done|].
  intros [= ->]. apply (Hr l); [set_solver|done].
Qed.

Lemma Prev_rep : Prev (Some e) s = Val (last pre, s).
Proof.
  unfold Prev. rewrite run_get_prev, run_get_list, prev_in, list_in.
  pose proof Hroot as Hr. destruct (exists_last_or_nil pre) as [E|(r & b & E)]; rewrite E in Hr |- *; cbn.
  { by rewrite decide_True. }
  rewrite last_snoc. cbn. rewrite decide_False; [done|].
  intros [= ->]. apply (Hr l); [set_solver|done].
Qed.
End Reading.

(** ** Changing a list *)

Lemma PushFront_rep s w l ns v :
  let e := fresh (used s) in
  Rep s w -> w !! l = Some ns -> exists s', PushFront l v s = Val (Some e, s')
    /\ Rep s' (<[l := e :: ns]> w)
    /\ payload s' (<[e := v]> (Value s)) (<[e := l]> (list_ s)) ({[e]} ∪ used s).
Proof.
  intros e HR Hl. destruct (lazyInit_rep s w l ns HR Hl) as (s1 & E1 & HR1 & Hr1 & HV & Ho & Hu).
  unfold PushFront. rewrite (bind_run _ _ _ _ _ E1). subst e. rewrite <- Hu, <- HV, <- Ho.
  destruct (insertValue_rep s1 w l ns (fresh (used s1) :: ns) v [] l ns) as (s2 & E2 & HR2 & _ & HP); eauto.
Qed.

Lemma PushBack_rep s w l ns v :
  let e := fresh (used s) in
  Rep s w -> w !! l = Some ns -> exists s', PushBack l v s = Val (Some e, s')
    /\ Rep s' (<[l := ns ++ [e]]> w)
    /\ payload s' (<[e := v]> (Value s)) (<[e := l]> (list_ s)) ({[e]} ∪ used s).
Proof.
  intros e HR Hl. destruct (lazyInit_rep s w l ns HR Hl) as (s1 & E1 & HR1 & Hr1 & HV & Ho & Hu).
  unfold PushBack. rewrite (bind_run _ _ _ _ _ E1), run_get_prev.
  subst e. rewrite <- Hu, <- HV, <- Ho.
  assert (exists pre a, l :: ns = pre ++ [a] /\ prev s1 !! l = Some a) as (pre & a & Hns & ->).
  { destruct (exists_last_or_nil ns) as [->|(pre & a & ->)].
    - exists [], l. split; [done|]. destruct (ringed_linked _ _ _ l Hr1) as [_ ->]; [set_solver|].
      destruct Hr1 as ([_ Hp]%ring_singleton & _). by rewrite Hp.
    - exists (l :: pre), a. split; [done|]. by apply ringed_wrap in Hr1 as [_ ?]. }
  destruct (insertValue_rep s1 w l ns (ns ++ [fresh (used s1)]) v pre a []) as (s2 & E2 & HR2 & _ & HP); eauto.
  change (l :: ns ++ [fresh (used s1)]) with ((l :: ns) ++ [fresh (used s1)]). rewrite Hns.
  by rewrite <- app_assoc.
Qed.

Lemma InsertAfter_rep s w l pre m post v :
  let e := fresh (used s) in
  Rep s w -> w !! l = Some (pre ++ m :: post) -> exists s', InsertAfter l v (Some m) s = Val (Some e, s')
    /\ Rep s' (<[l := pre ++ m :: e :: post]> w)
    /\ payload s' (<[e := v]> (Value s)) (<[e := l]> (list_ s)) ({[e]} ∪ used s).
Proof.
  intros e HR Hl. pose proof (rep_list _ _ HR _ _ Hl) as HL. unfold InsertAfter.
  rewrite run_get_list, (list_in s w l _ HR Hl pre m post), decide_False by (done || naive_solver).
  destruct (insertValue_rep s w l _ (pre ++ m :: e :: post) v (l :: pre) m post HR Hl)
    as (s2 & E2 & HR2 & _ & HP); eauto.
  apply (is_list_ring _ _ _ HL). right. by destruct pre.
Qed.

Lemma InsertBefore_rep s w l pre m post v :
  let e := fresh (used s) in
  Rep s w -> w !! l = Some (pre ++ m :: post) -> exists s', InsertBefore l v (Some m) s = Val (Some e, s')
    /\ Rep s' (<[l := pre ++ e :: m :: post]> w)
    /\ payload s' (<[e := v]> (Value s)) (<[e := l]> (list_ s)) ({[e]} ∪ used s).
Proof.
  intros e HR Hl. pose proof (rep_list _ _ HR _ _ Hl) as HL. unfold InsertBefore.
  rewrite run_get_list, (list_in s w l _ HR Hl pre m post), decide_False by (done || naive_solver).
  rewrite run_get_prev, (prev_in s w l _ HR Hl pre m post) by done.
  assert (exists q, l :: pre = q ++ [default l (last pre)]) as [q Hq].
  { destruct (exists_last_or_nil pre) as [->|(q & b & ->)]; [by exists []|].
    exists (l :: q). by rewrite last_snoc. }
  destruct (insertValue_rep s w l _ (pre ++ e :: m :: post) v q (default l (last pre)) (m :: post) HR Hl)
    as (s2 & E2 & HR2 & _ & HP); eauto.
  - apply (is_list_ring _ _ _ HL). right. by destruct pre.
  - rewrite app_comm_cons, Hq, <- app_assoc. done.
  - rewrite app_comm_cons, Hq, <- app_assoc. done.
Qed.

(** A mark that is not an element of the list. *)
Lemma Insert_foreign s l v m : list_ s !! m <> Some l ->
  InsertBefore l v (Some m) s = Val (None, s) /\ InsertAfter l v (Some m) s = Val (None, s).
Proof.
  intros H. unfold InsertBefore, InsertAfter. by rewrite !run_get_list, !decide_True.
Qed.

Lemma Remove_rep s w l pre e post :
  Rep s w -> w !! l = Some (pre ++ e :: post) -> exists s', Remove zero l (Some e) s = Val (default zero (Value s !! e), s')
    /\ Rep s' (<[l := pre ++ post]> w) /\ payload s' (Value s) (delete e (list_ s)) (used s).
Proof.
  intros HR Hl. destruct (remove_rep s w l pre e post HR Hl) as (s1 & E1 & HR1 & HP).
  unfold Remove. rewrite run_get_list, (list_in s w l _ HR Hl pre e post), decide_True by done.
  rewrite (bind_run _ _ _ _ _ E1). exists s1. split; [|done].
  unfold get_Value, bind, lift, gets. by rewrite (proj1 HP).
Qed.

Lemma Remove_foreign s l e : list_ s !! e <> Some l ->
  Remove zero l (Some e) s = Val (default zero (Value s !! e), s).
Proof. intros H. unfold Remove. by rewrite run_get_list, decide_False. Qed.

Lemma PopFront_rep s w l e post :
  Rep s w -> w !! l = Some (e :: post) -> exists s', PopFront zero l s = Val (default zero (Value s !! e), s')
    /\ Rep s' (<[l := post]> w) /\ payload s' (Value s) (delete e (list_ s)) (used s).
Proof.
  intros HR Hl. destruct (remove_rep s w l [] e post HR Hl) as (s1 & E1 & HR1 & HP).
  unfold PopFront. rewrite (get_len_bind s w l _ HR Hl).
  rewrite decide_False by (rewrite zlen_cons; pose proof (zlen_nonneg post); lia).
  rewrite run_get_next, (first_node s w l _ HR Hl e post) by done.
  rewrite (bind_run _ _ _ _ _ E1). exists s1. split; [|done].
  unfold get_Value, bind, lift, gets. by rewrite (proj1 HP).
Qed.

Lemma PopBack_rep s w l pre e :
  Rep s w -> w !! l = Some (pre ++ [e]) -> exists s', PopBack zero l s = Val (default zero (Value s !! e), s')
    /\ Rep s' (<[l := pre]> w) /\ payload s' (Value s) (delete e (list_ s)) (used s).
Proof.
  intros HR Hl. destruct (remove_rep s w l pre e [] HR Hl) as (s1 & E1 & HR1 & HP).
  rewrite app_nil_r in HR1. unfold PopBack. rewrite (get_len_bind s w l _ HR Hl).
  rewrite decide_False by (rewrite zlen_app, zlen_cons, zlen_nil; pose proof (zlen_nonneg pre); lia).
  rewrite run_get_prev, (last_node s w l _ HR Hl pre e) by done.
  rewrite (bind_run _ _ _ _ _ E1). exists s1. split; [|done].
  unfold get_Value, bind, lift, gets. by rewrite (proj1 HP).
Qed.

Lemma Pop_empty s w l : Rep s w -> w !! l = Some [] ->
  PopFront zero l s = Val (zero, s) /\ PopBack zero l s = Val (zero, s).
Proof.
  intros HR Hl. unfold PopFront, PopBack. by rewrite !(get_len_bind s w l _ HR Hl), !decide_True.
Qed.

Lemma MoveToFront_rep s w l pre e post :
  Rep s w -> w !! l = Some (pre ++ e :: post) -> exists s', MoveToFront l (Some e) s = Val (tt, s')
    /\ Rep s' (<[l := e :: pre ++ post]> w) /\ same_payload s s'.
Proof.
  intros HR Hl. unfold MoveToFront.
  rewrite run_get_list, run_get_next, (list_in s w l _ HR Hl pre e post) by done.
  destruct pre as [|b pre].
  - rewrite (first_node s w l _ HR Hl e post), decide_True by auto. exists s. cbn.
    by rewrite insert_id.
  - rewrite (first_node s w l _ HR Hl b (pre ++ e :: post)) by done. rewrite decide_False.
    + by apply (move_rep s w l (b :: pre) e post (e :: (b :: pre) ++ post) [] l ((b :: pre) ++ post)).
    + pose proof (is_list_nodup _ _ _ (rep_list _ _ HR _ _ Hl)) as [_ [H _]%NoDup_cons]%NoDup_cons.
      intros [?|[= ->]]; [done|]. set_solver.
Qed.

Lemma MoveToBack_rep s w l pre e post :
  Rep s w -> w !! l = Some (pre ++ e :: post) -> exists s', MoveToBack l (Some e) s = Val (tt, s')
    /\ Rep s' (<[l := (pre ++ post) ++ [e]]> w) /\ same_payload s s'.
Proof.
  intros HR Hl. unfold MoveToBack.
  rewrite run_get_list, run_get_prev, (list_in s w l _ HR Hl pre e post) by done.
  destruct (exists_last_or_nil post) as [->|(r & b & ->)].
  - rewrite (last_node s w l _ HR Hl pre e), decide_True by auto. exists s.
    by rewrite app_nil_r, insert_id.
  - rewrite (last_node s w l _ HR Hl (pre ++ e :: r) b) by (by rewrite <- app_assoc).
    rewrite decide_False.
    + apply (move_rep s w l pre e (r ++ [b]) _ (l :: pre ++ r) b []); [done|done|..];
        cbn; by rewrite <- !app_assoc.
    + pose proof (is_list_nodup _ _ _ (rep_list _ _ HR _ _ Hl)) as [_ H]%NoDup_cons.
      apply NoDup_app in H as (_ & _ & [H _]%NoDup_cons). intros [?|[= ->]]; [done|]. set_solver.
Qed.

Lemma split_in s w l ns e : Rep s w -> w !! l = Some ns -> e ∈ ns -> exists pre post,
  ns = pre ++ e :: post /\ NoDup ns /\ without e ns = pre ++ post /\ e ∉ pre /\ e ∉ post.
Proof.
  intros HR Hl (pre & post & ->)%list_elem_of_split. exists pre, post.
  pose proof (is_list_nodup _ _ _ (rep_list _ _ HR _ _ Hl)) as [_ Hnd]%NoDup_cons.
  split_and!; [done|done|by apply without_middle|..]; apply NoDup_app in Hnd as (_ & H & [H' _]%NoDup_cons);
    set_solver.
Qed.

Lemma MoveAfter_rep s w l ns e m :
  Rep s w -> w !! l = Some ns -> e ∈ ns -> m ∈ ns -> e <> m ->
  exists s', MoveAfter l (Some e) (Some m) s = Val (tt, s')
    /\ Rep s' (<[l := put_after m e (without e ns)]> w) /\ same_payload s s'.
Proof.
  intros HR Hl He Hm Hne. destruct (split_in s w l ns e HR Hl He) as (pre & post & -> & Hnd & Hw & _).
  assert (m ∈ pre ++ post) as (p1 & p2 & Hp)%list_elem_of_split by set_solver.
  unfold MoveAfter. rewrite !run_get_list, (list_in s w l _ HR Hl pre e post) by done.
  rewrite decide_False by naive_solver. rewrite !run_get_list.
  rewrite (il_member _ _ _ (rep_list _ _ HR _ _ Hl)) by done. rewrite decide_False by naive_solver.
  rewrite Hw, Hp, put_after_middle.
  - apply (move_rep s w l pre e post _ (l :: p1) m p2); [done|done|by rewrite Hp|done].
  - rewrite <- Hp, <- Hw. by apply NoDup_filter.
Qed.

Lemma MoveBefore_rep s w l ns e m :
  Rep s w -> w !! l = Some ns -> e ∈ ns -> m ∈ ns -> e <> m ->
  exists s', MoveBefore l (Some e) (Some m) s = Val (tt, s')
    /\ Rep s' (<[l := put_before m e (without e ns)]> w) /\ same_payload s s'.
Proof.
  intros HR Hl He Hm Hne. unfold MoveBefore.
  rewrite run_get_list, (il_member _ _ _ (rep_list _ _ HR _ _ Hl) e He), decide_False by naive_solver.
  rewrite run_get_list, (il_member _ _ _ (rep_list _ _ HR _ _ Hl) m Hm), decide_False by naive_solver.
  destruct (split_in s w l ns m HR Hl Hm) as (p1 & p2 & -> & Hnd & _ & Hm1 & Hm2).
  rewrite run_get_prev, (prev_in s w l _ HR Hl p1 m p2) by done.
  rewrite without_app, without_cons, decide_False by done.
  assert (forall q, m ∉ q -> m ∉ without e q) as Hq by (intros q Hmq [_ ?]%list_elem_of_filter; done).
  assert (put_before m e (without e p1 ++ m :: without e p2) = without e p1 ++ e :: m :: without e p2) as ->.
  { unfold put_before. rewrite flat_map_app. cbn. rewrite decide_True by done.
    fold (put_before m e (without e p1)) (put_before m e (without e p2)).
    rewrite !put_before_absent by auto. done. }
  destruct (exists_last_or_nil p1) as [->|(r & b & ->)]; [|rewrite last_snoc; cbn [default]; destruct (decide (b = e)) as [->|Hb]].
  - destruct (split_in s w l _ e HR Hl He) as (pre & post & E & _ & Hw & Hn & Hn').
    apply (move_rep s w l pre e post _ [] l (m :: without e p2)); [done|by rewrite Hl, E| |done].
    rewrite <- Hw. cbn [app]. by rewrite without_cons, decide_False.
  - unfold move. rewrite decide_True by done. exists s. split; [done|]. split; [|done].
    rewrite <- app_assoc in Hnd. apply NoDup_app in Hnd as (_ & H1 & [H2 _]%NoDup_cons).
    rewrite without_app, without_cons, decide_True by done.
    rewrite !without_absent by set_solver. cbn. rewrite app_nil_r, insert_id; [done|].
    by rewrite Hl, <- app_assoc.
  - destruct (split_in s w l _ e HR Hl He) as (pre & post & E & _ & Hw & Hn & Hn').
    apply (move_rep s w l pre e post _ (l :: without e r) b (m :: without e p2)); [done|by rewrite Hl, E| |].
    + rewrite <- Hw, !without_app, !without_cons, !decide_False by done.
      cbn. by rewrite <- app_assoc.
    + rewrite without_app, without_cons, decide_False by done. cbn. by rewrite <- app_assoc.
Qed.

(** The values from the element [e] on. *)
Lemma each_rep fuel s w l ns pre post acc :
  Rep s w -> w !! l = Some ns -> ns = pre ++ post -> (length post < fuel)%nat ->
  each zero fuel (head post) acc s = Val (acc ++ ((fun e => default zero (Value s !! e)) <$> post), s).
Proof.
  intros HR Hl. revert pre post acc. induction fuel as [|fuel IH]; intros pre post acc Hns Hf; [lia|].
  destruct post as [|e post]; [cbn; by rewrite app_nil_r|]. cbn [each head length] in *.
  rewrite run_get_Value. rewrite (bind_run _ _ _ _ _ (Next_rep s w l ns HR Hl pre e post Hns)).
  rewrite (IH (pre ++ [e]) post) by (subst ns; rewrite <- ?app_assoc; done || lia).
  by rewrite <- app_assoc.
Qed.

Lemma values_rep s w l ns : Rep s w -> w !! l = Some ns ->
  values zero l s = Val ((fun e => default zero (Value s !! e)) <$> ns, s).
Proof.
  intros HR Hl. unfold values. rewrite (get_len_bind s w l ns HR Hl).
  rewrite (bind_run _ _ _ _ _ (Front_rep s w l ns HR Hl)).
  rewrite (each_rep _ s w l ns [] ns) by (done || (unfold zlen; lia)). done.
Qed.

Lemma Array_rep s w l ns : Rep s w -> w !! l = Some ns ->
  Array zero l s = Val ((fun e => default zero (Value s !! e)) <$> ns, s).
Proof.
  intros HR Hl. unfold Array. rewrite (get_len_bind s w l ns HR Hl). case_decide as H.
  - apply zlen_0 in H as ->. done.
  - by apply (values_rep s w).
Qed.
End LinkedListTheorems.
