(* ===== verification/LinkedListProps.v ===== *)
(** * Doubly linked lists: the methods refine the abstract machine

    [Sim s w]: the heap [s] represents the abstract state [w] of LinkedListSpec.v.
    Every sequence of calls gives the answers of the abstract machine. *)

From S2P Require Import Prelude Ring LinkedList LinkedListSpec LinkedListTheorems.

Section LinkedListProps.
Context {T : Type} (zero : T).
Implicit Types (s : heap T) (w : world (T := T)) (l e m : addr) (ns pre post : list addr) (v : T).

(** ** The methods refine the abstract machine *)

Record Sim s w : Prop := {
  sim_rep : Rep s (lists w);
  sim_payload : payload s (vals w) (home w) (addrs w);
  sim_home : forall e l, home w !! e = Some l -> exists ns, lists w !! l = Some ns /\ e ∈ ns }.

Lemma Sim_elems w l ns : lists w !! l = Some ns -> elems w l = ns.
Proof. unfold elems. by intros ->. Qed.

Lemma Sim_home s w e l : Sim s w -> home w !! e = Some l -> lists w !! l = Some (elems w l) /\ e ∈ elems w l.
Proof. intros HS H. destruct (sim_home _ _ HS _ _ H) as (ns & Hl & He). by rewrite (Sim_elems _ _ _ Hl). Qed.

(** The three ways a method changes the abstract state. *)
Lemma Sim_new s s' w l ns' e v :
  Sim s w -> e ∈ ns' -> (forall x, x ∈ elems w l -> x ∈ ns') ->
  Rep s' (<[l := ns']> (lists w)) ->
  payload s' (<[e := v]> (Value s)) (<[e := l]> (list_ s)) ({[e]} ∪ used s) ->
  Sim s' (with_new l ns' e v w).
Proof.
  intros [_ (HV & Ho & Hu) Hh] He Hsub HR HP. rewrite HV, Ho, Hu in HP.
  split; [done|done|]. cbn. intros x l' [(-> & ->)|(Hne & Hx)]%lookup_insert_Some.
  - exists ns'. by rewrite lookup_insert_eq.
  - destruct (Hh _ _ Hx) as (ns & Hl & Hin). destruct (decide (l = l')) as [->|].
    + exists ns'. rewrite lookup_insert_eq. split; [done|]. apply Hsub. by rewrite (Sim_elems _ _ _ Hl).
    + exists ns. by rewrite lookup_insert_ne.
Qed.

Lemma Sim_take_out s s' w l e :
  Sim s w -> Rep s' (<[l := without e (elems w l)]> (lists w)) ->
  payload s' (Value s) (delete e (list_ s)) (used s) -> Sim s' (take_out l e w).
Proof.
  intros [_ (HV & Ho & Hu) Hh] HR HP. rewrite HV, Ho, Hu in HP. split; [done|done|].
  cbn. intros x l' [Hne Hx]%lookup_delete_Some. destruct (Hh _ _ Hx) as (ns & Hl & Hin).
  destruct (decide (l = l')) as [->|].
  - eexists. rewrite lookup_insert_eq. split; [done|]. rewrite (Sim_elems _ _ _ Hl).
    apply list_elem_of_filter. done.
  - exists ns. by rewrite lookup_insert_ne.
Qed.

Lemma Sim_with_list s s' w l ns' :
  Sim s w -> (forall x, x ∈ elems w l -> x ∈ ns') -> Rep s' (<[l := ns']> (lists w)) ->
  same_payload s s' -> Sim s' (with_list l ns' w).
Proof.
  intros [_ (HV & Ho & Hu) Hh] Hsub HR HP. unfold same_payload in HP. rewrite HV, Ho, Hu in HP.
  split; [done|done|]. cbn. intros x l' Hx. destruct (Hh _ _ Hx) as (ns & Hl & Hin).
  destruct (decide (l = l')) as [->|].
  - exists ns'. rewrite lookup_insert_eq. split; [done|]. apply Hsub. by rewrite (Sim_elems _ _ _ Hl).
  - exists ns. by rewrite lookup_insert_ne.
Qed.

Definition refines {A} (m : GoM (heap T) A) s (a : A) w : Prop :=
  exists s', m s = Val (a, s') /\ Sim s' w.

Lemma refines_ret {A B} (m : GoM (heap T) A) (f : A -> B) s (a : A) w :
  refines m s a w -> refines (bind m (fun x => ret (f x))) s (f a) w.
Proof. intros (s' & E & HS). exists s'. by rewrite (bind_run _ _ _ _ _ E). Qed.

Lemma refines_read {A} (m : GoM (heap T) A) s (a : A) w : m s = Val (a, s) -> Sim s w -> refines m s a w.
Proof. intros E HS. by exists s. Qed.

Lemma PushBack_refines s w l v :
  Sim s w -> is_Some (lists w !! l) -> refines (PushBack l v) s (Some (fresh (addrs w))) (push_back l v w).
Proof.
  intros HS [ns Hl]. pose proof (sim_payload _ _ HS) as (_ & _ & Hu).
  destruct (PushBack_rep s _ l ns v (sim_rep _ _ HS) Hl) as (s' & E & HR & HP).
  exists s'. rewrite E, Hu in *. split; [done|]. unfold push_back. rewrite (Sim_elems _ _ _ Hl).
  apply (Sim_new s); [done|set_solver| |done|by rewrite Hu].
  intros x. rewrite (Sim_elems _ _ _ Hl). set_solver.
Qed.

Lemma PushFront_refines s w l v :
  Sim s w -> is_Some (lists w !! l) -> refines (PushFront l v) s (Some (fresh (addrs w))) (push_front l v w).
Proof.
  intros HS [ns Hl]. pose proof (sim_payload _ _ HS) as (_ & _ & Hu).
  destruct (PushFront_rep s _ l ns v (sim_rep _ _ HS) Hl) as (s' & E & HR & HP).
  exists s'. rewrite E, Hu in *. split; [done|]. unfold push_front. rewrite (Sim_elems _ _ _ Hl).
  apply (Sim_new s); [done|set_solver| |done|by rewrite Hu].
  intros x. rewrite (Sim_elems _ _ _ Hl). set_solver.
Qed.

Lemma Insert_refines s w l v m :
  let e := fresh (addrs w) in
  Sim s w -> home w !! m = Some l ->
  refines (InsertBefore l v (Some m)) s (Some e) (with_new l (put_before m e (elems w l)) e v w)
  /\ refines (InsertAfter l v (Some m)) s (Some e) (with_new l (put_after m e (elems w l)) e v w).
Proof.
  intros e HS Hm. pose proof (sim_payload _ _ HS) as (_ & _ & Hu). destruct (Sim_home _ _ _ _ HS Hm) as [Hl Hin].
  destruct (split_in s _ l _ m (sim_rep _ _ HS) Hl Hin) as (pre & post & E & Hnd & _).
  rewrite E in Hl, Hnd |- *. rewrite put_before_middle, put_after_middle by done. subst e. split.
  - destruct (InsertBefore_rep s _ l pre m post v (sim_rep _ _ HS) Hl) as (s' & E1 & HR & HP).
    rewrite Hu in *. exists s'. split; [done|]. apply (Sim_new s); [done|set_solver| |done|by rewrite Hu].
    intros x. rewrite E. set_solver.
  - destruct (InsertAfter_rep s _ l pre m post v (sim_rep _ _ HS) Hl) as (s' & E1 & HR & HP).
    rewrite Hu in *. exists s'. split; [done|]. apply (Sim_new s); [done|set_solver| |done|by rewrite Hu].
    intros x. rewrite E. set_solver.
Qed.

Lemma val_payload s w e : Sim s w -> default zero (Value s !! e) = val zero w e.
Proof. intros HS. unfold val. by destruct (sim_payload _ _ HS) as (-> & _). Qed.

Lemma Remove_refines s w l e : Sim s w -> home w !! e = Some l ->
  refines (Remove zero l (Some e)) s (val zero w e) (take_out l e w).
Proof.
  intros HS He. destruct (Sim_home _ _ _ _ HS He) as [Hl Hin].
  destruct (split_in s _ l _ e (sim_rep _ _ HS) Hl Hin) as (pre & post & E & _ & Hw & _).
  pose proof Hl as Hl'. rewrite E in Hl'.
  destruct (Remove_rep zero s _ l pre e post (sim_rep _ _ HS) Hl') as (s' & E1 & HR & HP).
  exists s'. rewrite E1, (val_payload s w) by done. split; [done|].
  apply (Sim_take_out s); [done|by rewrite Hw|done].
Qed.

Lemma Pop_refines s w l e : Sim s w -> is_Some (lists w !! l) ->
  (last (elems w l) = Some e -> refines (PopBack zero l) s (val zero w e) (take_out l e w))
  /\ (head (elems w l) = Some e -> refines (PopFront zero l) s (val zero w e) (take_out l e w)).
Proof.
  intros HS [ns Hl]. rewrite (Sim_elems _ _ _ Hl). rewrite <- (val_payload s w) by done.
  pose proof (is_list_nodup _ _ _ (rep_list _ _ (sim_rep _ _ HS) _ _ Hl)) as [_ Hnd]%NoDup_cons. split; intros He.
  - apply last_Some in He as [pre ->].
    destruct (PopBack_rep zero s _ l pre e (sim_rep _ _ HS) Hl) as (s' & E1 & HR & HP).
    exists s'. split; [done|]. apply (Sim_take_out s); [done| |done].
    by rewrite (Sim_elems _ _ _ Hl), without_middle, app_nil_r.
  - destruct ns as [|x post]; [done|]. injection He as ->.
    destruct (PopFront_rep zero s _ l e post (sim_rep _ _ HS) Hl) as (s' & E1 & HR & HP).
    exists s'. split; [done|]. apply (Sim_take_out s); [done| |done].
    rewrite (Sim_elems _ _ _ Hl). by rewrite (without_middle e [] post Hnd : without e (e :: post) = post).
Qed.

Lemma Move_refines s w l e : Sim s w -> home w !! e = Some l ->
  refines (MoveToFront l (Some e)) s tt (with_list l (e :: without e (elems w l)) w)
  /\ refines (MoveToBack l (Some e)) s tt (with_list l (without e (elems w l) ++ [e]) w).
Proof.
  intros HS He. destruct (Sim_home _ _ _ _ HS He) as [Hl Hin].
  destruct (split_in s _ l _ e (sim_rep _ _ HS) Hl Hin) as (pre & post & E & _ & Hw & _).
  pose proof Hl as Hl'. rewrite E in Hl'. rewrite Hw. split.
  - destruct (MoveToFront_rep s _ l pre e post (sim_rep _ _ HS) Hl') as (s' & E1 & HR & HP).
    exists s'. split; [done|]. apply (Sim_with_list s); [done| |done|done]. rewrite E. set_solver.
  - destruct (MoveToBack_rep s _ l pre e post (sim_rep _ _ HS) Hl') as (s' & E1 & HR & HP).
    exists s'. split; [done|]. apply (Sim_with_list s); [done| |done|done]. rewrite E. set_solver.
Qed.

Lemma MoveNext_refines s w l e m : Sim s w -> home w !! e = Some l -> home w !! m = Some l -> e <> m ->
  refines (MoveBefore l (Some e) (Some m)) s tt (with_list l (put_before m e (without e (elems w l))) w)
  /\ refines (MoveAfter l (Some e) (Some m)) s tt (with_list l (put_after m e (without e (elems w l))) w).
Proof.
  intros HS He Hm Hne. destruct (Sim_home _ _ _ _ HS He) as [Hl Hin].
  destruct (Sim_home _ _ _ _ HS Hm) as [_ Hinm].
  assert (forall x, x ∈ elems w l -> x ∈ put_before m e (without e (elems w l))
    /\ x ∈ put_after m e (without e (elems w l))) as Hsub.
  { intros x Hx. unfold put_before, put_after. rewrite !list_elem_of_In, !in_flat_map.
    destruct (decide (x = e)) as [->|].
    - split; exists m; (split; [apply list_elem_of_In, list_elem_of_filter; done|]);
        rewrite decide_True by done; cbn; tauto.
    - split; exists x; (split; [apply list_elem_of_In, list_elem_of_filter; done|]);
        case_decide; cbn; tauto. }
  split.
  - destruct (MoveBefore_rep s _ l _ e m (sim_rep _ _ HS) Hl Hin Hinm Hne) as (s' & E1 & HR & HP).
    exists s'. split; [done|]. apply (Sim_with_list s); [done| |done|done]. intros x Hx. by apply Hsub.
  - destruct (MoveAfter_rep s _ l _ e m (sim_rep _ _ HS) Hl Hin Hinm Hne) as (s' & E1 & HR & HP).
    exists s'. split; [done|]. apply (Sim_with_list s); [done| |done|done]. intros x Hx. by apply Hsub.
Qed.

(** ** Copying a list *)

Lemma push_keeps w l v l' : is_Some (lists w !! l') ->
  is_Some (lists (push_back l v w) !! l') /\ is_Some (lists (push_front l v w) !! l').
Proof. intros H. cbn. rewrite !lookup_insert_is_Some'. tauto. Qed.

Lemma next_present s w l : Sim s w -> is_Some (lists w !! l) -> elems w l <> [] -> next s !! l <> None.
Proof.
  intros HS [ns Hl] Hne. rewrite (Sim_elems _ _ _ Hl) in Hne.
  pose proof (rep_list _ _ (sim_rep _ _ HS) _ _ Hl) as HL.
  destruct (ringed_linked _ _ _ l (is_list_ring _ _ _ HL (or_intror Hne))) as [-> _]; [set_solver|done].
Qed.

(** Once the list has been initialised, the loop body is PushBack or PushFront. *)
Lemma lazyInit_done s l : next s !! l <> None -> lazyInit l s = Val (tt, s).
Proof. intros H. unfold lazyInit. rewrite run_get_next. by destruct (next s !! l). Qed.

Definition push_backs l (xs : list addr) w : world := fold_left (fun w x => push_back l (val zero w x) w) xs w.
Definition push_fronts l (xs : list addr) w : world := fold_left (fun w x => push_front l (val zero w x) w) xs w.

Lemma elems_push_back w l v l' : exists k, elems (push_back l v w) l' = elems w l' ++ k.
Proof.
  unfold elems at 1. cbn. destruct (decide (l = l')) as [->|].
  - rewrite lookup_insert_eq. cbn. eauto.
  - rewrite lookup_insert_ne by done. exists []. by rewrite app_nil_r.
Qed.
Lemma elems_push_front w l v l' : exists k, elems (push_front l v w) l' = k ++ elems w l'.
Proof.
  unfold elems at 1. cbn. destruct (decide (l = l')) as [->|].
  - rewrite lookup_insert_eq. cbn. exists [fresh (addrs w)]. done.
  - rewrite lookup_insert_ne by done. by exists [].
Qed.
Lemma elems_Some w l : is_Some (lists w !! l) -> lists w !! l = Some (elems w l).
Proof. intros [ns H]. by rewrite (Sim_elems _ _ _ H). Qed.

Lemma push_back_loop_refines post : forall s w l other pre extra,
  Sim s w -> is_Some (lists w !! l) -> is_Some (lists w !! other) -> next s !! l <> None ->
  elems w other = pre ++ post ++ extra ->
  refines (push_back_loop zero (length post) l (head (post ++ extra))) s tt (push_backs l post w).
Proof.
  induction post as [|x post IH]; intros s w l other pre extra HS Hl Ho Hn Hpost.
  - by apply refines_read.
  - cbn [length push_back_loop head app]. set (v := val zero w x).
    destruct (PushBack_refines s w l v HS Hl) as (s1 & E1 & HS1).
    unfold PushBack in E1. rewrite (bind_run _ _ _ _ _ (lazyInit_done s l Hn)), run_get_prev in E1.
    destruct (push_keeps w l v l Hl) as [Hl1 _]. destruct (push_keeps w l v other Ho) as [Ho1 _].
    destruct (elems_push_back w l v other) as [k Hk]. 
    assert (elems (push_back l v w) other = pre ++ x :: post ++ extra ++ k) as Hk'.
    { rewrite Hk, Hpost, <- app_assoc. cbn. by rewrite <- app_assoc. }
    clear Hk; rename Hk' into Hk.
    assert (next s1 !! l <> None) as Hn1.
    { apply (next_present s1 (push_back l v w)); [done..|]. unfold elems. cbn. rewrite lookup_insert_eq.
      cbn. by intros [_ ?]%app_nil. }
    destruct (IH s1 (push_back l v w) l other (pre ++ [x]) (extra ++ k)) as (s2 & E2 & HS2); try done.
    { by rewrite Hk, <- app_assoc. }
    exists s2. split; [|done]. rewrite run_get_Value, (val_payload s w), run_get_prev by done.
    fold v. rewrite (bind_run _ _ _ _ _ E1).
    rewrite (bind_run _ _ _ _ _ (Next_rep s1 _ other _ (sim_rep _ _ HS1) (elems_Some _ _ Ho1) pre x _ Hk)).
    done.
Qed.

Lemma push_front_loop_refines post : forall s w l other extra suff,
  Sim s w -> is_Some (lists w !! l) -> is_Some (lists w !! other) -> next s !! l <> None ->
  elems w other = extra ++ reverse post ++ suff ->
  refines (push_front_loop zero (length post) l (last (extra ++ reverse post))) s tt (push_fronts l post w).
Proof.
  induction post as [|x post IH]; intros s w l other extra suff HS Hl Ho Hn Hpost.
  - by apply refines_read.
  - cbn [length push_front_loop]. set (v := val zero w x).
    destruct (PushFront_refines s w l v HS Hl) as (s1 & E1 & HS1).
    unfold PushFront in E1. rewrite (bind_run _ _ _ _ _ (lazyInit_done s l Hn)) in E1.
    destruct (push_keeps w l v l Hl) as [_ Hl1]. destruct (push_keeps w l v other Ho) as [_ Ho1].
    destruct (elems_push_front w l v other) as [k Hk].
    rewrite Hpost, reverse_cons, <- app_assoc in Hk. cbn [app] in Hk.
    rewrite !app_assoc in Hk.
    assert (next s1 !! l <> None) as Hn1.
    { apply (next_present s1 (push_front l v w)); [done..|]. unfold elems. cbn. by rewrite lookup_insert_eq. }
    destruct (IH s1 (push_front l v w) l other (k ++ extra) (x :: suff)) as (s2 & E2 & HS2); try done.
    { by rewrite Hk, <- app_assoc. }
    exists s2. split; [|done]. rewrite reverse_cons, app_assoc, last_snoc.
    rewrite run_get_Value, (val_payload s w) by done. fold v. rewrite (bind_run _ _ _ _ _ E1).
    rewrite (bind_run _ _ _ _ _ (Prev_rep s1 _ other _ (sim_rep _ _ HS1) (elems_Some _ _ Ho1) _ x suff Hk)).
    done.
Qed.

Lemma lazyInit_refines s w l : Sim s w -> is_Some (lists w !! l) ->
  exists s', lazyInit l s = Val (tt, s') /\ Sim s' w /\ next s' !! l <> None.
Proof.
  intros HS [ns Hl]. destruct (lazyInit_rep s _ l ns (sim_rep _ _ HS) Hl) as (s' & E & HR & Hr & HP).
  exists s'. split_and!; [done| |].
  - destruct HS as [_ (HV & Ho & Hu) Hh]. split; [done| |done]. unfold same_payload in HP.
    by rewrite HV, Ho, Hu in HP.
  - destruct (ringed_linked _ _ _ l Hr) as [-> _]; [set_solver|done].
Qed.

Lemma PushList_refines s w l other :
  Sim s w -> is_Some (lists w !! l) -> is_Some (lists w !! other) ->
  refines (PushBackList zero l other) s tt (push_backs l (elems w other) w)
  /\ refines (PushFrontList zero l other) s tt (push_fronts l (reverse (elems w other)) w).
Proof.
  intros HS Hl Ho. destruct (lazyInit_refines s w l HS Hl) as (s1 & E1 & HS1 & Hn).
  pose proof (sim_rep _ _ HS1) as HR1. pose proof (elems_Some _ _ Ho) as Hlook. split.
  - destruct (push_back_loop_refines (elems w other) s1 w l other [] [] HS1 Hl Ho Hn)
      as (s2 & E2 & HS2); [by rewrite app_nil_r|].
    exists s2. split; [|done]. unfold PushBackList. rewrite (bind_run _ _ _ _ _ E1).
    rewrite (bind_run _ _ _ _ _ (Len_rep s1 _ other _ HR1 Hlook)).
    rewrite (bind_run _ _ _ _ _ (Front_rep s1 _ other _ HR1 Hlook)).
    unfold zlen. by rewrite Nat2Z.id, app_nil_r in *.
  - destruct (push_front_loop_refines (reverse (elems w other)) s1 w l other [] [] HS1 Hl Ho Hn)
      as (s2 & E2 & HS2); [by rewrite reverse_involutive, app_nil_r|].
    exists s2. split; [|done]. unfold PushFrontList. rewrite (bind_run _ _ _ _ _ E1).
    rewrite (bind_run _ _ _ _ _ (Len_rep s1 _ other _ HR1 Hlook)).
    rewrite (bind_run _ _ _ _ _ (Back_rep s1 _ other _ HR1 Hlook)).
    unfold zlen. rewrite Nat2Z.id. by rewrite reverse_involutive, length_reverse in E2.
Qed.

(** ** Every call *)

Lemma new_refines s w : Sim s w ->
  refines (list_run zero ONew) s (list_step zero ONew w).1 (list_step zero ONew w).2.
Proof.
  intros [HR (HV & Ho & Hu) Hh]. eexists. split; [cbn; by rewrite <- Hu|]. cbn.
  pose proof (is_fresh (used s)) as Hf. set (l := fresh (used s)) in *.
  destruct (rep_fresh _ _ HR l Hf) as (H1 & H2 & H3 & H4).
  assert (lists w !! l = None) as Hl.
  { destruct (lists w !! l) as [ns|] eqn:E; [|done].
    by destruct (il_used _ _ _ (rep_list _ _ HR _ _ E)) as [? _]. }
  rewrite <- Hu. fold l. split; [split|by split|]; cbn.
  - intros l' ns [(<- & <-)|(Hne & E)]%lookup_insert_Some.
    + split; cbn; [by right|by intros e ?%elem_of_nil|done|by rewrite H4|].
      split; [set_solver|by intros e ?%elem_of_nil].
    + destruct (rep_list _ _ HR _ _ E) as [? ? ? ? [? ?]]. split; cbn; [done..|]. set_solver.
  - intros a Ha. apply (rep_fresh _ _ HR). set_solver.
  - intros e l' He. destruct (Hh e l' He) as (ns & E & Hin). exists ns.
    by rewrite lookup_insert_ne by congruence.
Qed.

Lemma Init_refines s w l : Sim s w -> lists w !! l = Some [] ->
  refines (list_run zero (OInit l)) s ANone (with_list l [] w).
Proof.
  intros HS Hl. destruct (Init_rep s _ l (sim_rep _ _ HS) Hl) as (s' & E & HR & _ & HP).
  exists s'. split; [cbn [list_run]; by rewrite (bind_run _ _ _ _ _ E)|]. apply (Sim_with_list s); [done| |by rewrite insert_id|done].
  by rewrite (Sim_elems _ _ _ Hl).
Qed.

Lemma payload_home s w e : Sim s w -> list_ s !! e = home w !! e.
Proof. intros HS. by destruct (sim_payload _ _ HS) as (_ & -> & _). Qed.

Lemma around_refines s w e : Sim s w ->
  Next (Some e) s = Val (match home w !! e with Some l => after e (elems w l) | None => None end, s)
  /\ Prev (Some e) s = Val (match home w !! e with Some l => after e (reverse (elems w l)) | None => None end, s).
Proof.
  intros HS. destruct (home w !! e) as [l|] eqn:He.
  - destruct (Sim_home _ _ _ _ HS He) as [Hl Hin].
    destruct (split_in s _ l _ e (sim_rep _ _ HS) Hl Hin) as (pre & post & E & Hnd & _ & Hn & Hn').
    rewrite (Next_rep s _ l _ (sim_rep _ _ HS) Hl pre e post E), (Prev_rep s _ l _ (sim_rep _ _ HS) Hl pre e post E).
    rewrite E, after_middle, before_middle by done. done.
  - unfold Next, Prev. rewrite run_get_next, run_get_prev, !run_get_list, (payload_home s w), He by done. done.
Qed.

Lemma skip_refines s w (A : Type) (m : GoM (heap T) A) (a : A) : Sim s w -> m s = Val (a, s) -> refines m s a w.
Proof. intros HS E. by exists s. Qed.

(** Calls about a mark or an element of another list change nothing. *)
Lemma foreign_refines s w l e : Sim s w -> home w !! e <> Some l ->
  Remove zero l (Some e) s = Val (val zero w e, s) /\ MoveToFront l (Some e) s = Val (tt, s)
  /\ MoveToBack l (Some e) s = Val (tt, s)
  /\ (forall v, InsertBefore l v (Some e) s = Val (None, s) /\ InsertAfter l v (Some e) s = Val (None, s)).
Proof.
  intros HS He. rewrite <- (payload_home s) in He by done.
  split_and!; [by rewrite Remove_foreign, (val_payload s w)| | |intros v; by apply Insert_foreign].
  - unfold MoveToFront. rewrite run_get_list, run_get_next, decide_True by auto. done.
  - unfold MoveToBack. rewrite run_get_list, run_get_prev, decide_True by auto. done.
Qed.

Lemma foreign_move s w l e m : Sim s w -> ~ (home w !! e = Some l /\ home w !! m = Some l /\ e <> m) ->
  MoveBefore l (Some e) (Some m) s = Val (tt, s) /\ MoveAfter l (Some e) (Some m) s = Val (tt, s).
Proof.
  intros HS H. rewrite <- !(payload_home s) in H by done. unfold MoveBefore, MoveAfter.
  rewrite !run_get_list. case_decide as H1; [done|].
  assert (list_ s !! m <> Some l) as H2.
  { intros H2. apply H. split; [destruct (decide (list_ s !! e = Some l)); tauto|].
    split; [done|]. intros ->. auto. }
  by rewrite !run_get_list, !decide_True by done.
Qed.

Lemma list_step_refines o s w : Sim s w -> allowed o w ->
  refines (list_run zero o) s (list_step zero o w).1 (list_step zero o w).2.
Proof.
  intros HS. pose proof (sim_rep _ _ HS) as HR.
  assert (forall l, is_Some (lists w !! l) -> lists w !! l = Some (elems w l)) as Hel by apply elems_Some.
  destruct o; cbn [allowed list_run list_step fst snd]; intros Hal.
  - by apply (new_refines s w).
  - by apply Init_refines.
  - apply refines_ret, refines_read; [|done]. apply (Len_rep s _ l _ HR (Hel _ Hal)).
  - apply refines_ret, refines_read; [|done]. apply (Front_rep s _ l _ HR (Hel _ Hal)).
  - apply refines_ret, refines_read; [|done]. apply (Back_rep s _ l _ HR (Hel _ Hal)).
  - apply refines_ret, refines_read; [|done]. by apply around_refines.
  - apply refines_ret, refines_read; [|done]. by apply around_refines.
  - apply refines_ret, refines_read; [|done]. unfold List_, get_list, bind, lift, gets. by rewrite (payload_home s w).
  - by apply (refines_ret _ APtr), PushFront_refines.
  - by apply (refines_ret _ APtr), PushBack_refines.
  - case_decide as H; apply (refines_ret _ APtr); [apply (Insert_refines s w l v m HS H)|].
    apply refines_read; [|done]. destruct (foreign_refines s w l m HS H) as (_ & _ & _ & Hf). exact (proj1 (Hf v)).
  - case_decide as H; apply (refines_ret _ APtr); [apply (Insert_refines s w l v m HS H)|].
    apply refines_read; [|done]. destruct (foreign_refines s w l m HS H) as (_ & _ & _ & Hf). exact (proj2 (Hf v)).
  - apply (refines_ret _ AVal). case_decide as H; [by apply Remove_refines|].
    apply refines_read; [|done]. by apply foreign_refines.
  - apply (refines_ret _ (fun _ => ANone) s tt). case_decide as H; [by apply Move_refines|].
    apply refines_read; [|done]. by apply (foreign_refines s w).
  - apply (refines_ret _ (fun _ => ANone) s tt). case_decide as H; [by apply Move_refines|].
    apply refines_read; [|done]. by apply (foreign_refines s w).
  - apply (refines_ret _ (fun _ => ANone) s tt). case_decide as H; [destruct H as (? & ? & ?); by apply MoveNext_refines|].
    apply refines_read; [|done]. by apply (foreign_move s w).
  - apply (refines_ret _ (fun _ => ANone) s tt). case_decide as H; [destruct H as (? & ? & ?); by apply MoveNext_refines|].
    apply refines_read; [|done]. by apply (foreign_move s w).
  - apply (refines_ret _ (fun _ => ANone) s tt). destruct Hal. by apply PushList_refines.
  - apply (refines_ret _ (fun _ => ANone) s tt). destruct Hal. by apply PushList_refines.
  - destruct (last (elems w l)) as [e|] eqn:E; cbn; apply (refines_ret _ AVal); [by apply (Pop_refines s w l e HS Hal)|].
    apply refines_read; [|done]. apply (Pop_empty zero s (lists w)); [done|]. rewrite (Hel _ Hal). by apply last_None in E as ->.
  - destruct (head (elems w l)) as [e|] eqn:E; cbn; apply (refines_ret _ AVal); [by apply (Pop_refines s w l e HS Hal)|].
    apply refines_read; [|done]. apply (Pop_empty zero s (lists w)); [done|]. rewrite (Hel _ Hal). by destruct (elems w l).
  - apply (refines_ret _ AVals), refines_read; [|done].
    rewrite (Array_rep zero s _ l _ HR (Hel _ Hal)). do 2 f_equal. apply list_fmap_ext.
    intros _ e _. by apply val_payload.
Qed.

Lemma list_steps_refine os : forall s w, Sim s w -> all_allowed zero os w ->
  refines (list_runs zero os) s (list_steps zero os w).1 (list_steps zero os w).2.
Proof.
  induction os as [|o os IH]; intros s w HS Hal; [by apply refines_read|].
  destruct Hal as [Hal1 Hal2]. destruct (list_step_refines o s w HS Hal1) as (s1 & E1 & HS1).
  destruct (IH s1 _ HS1 Hal2) as (s2 & E2 & HS2). cbn [list_runs list_steps].
  destruct (list_step zero o w) as [a w1]. cbn [fst snd] in *.
  destruct (list_steps zero os w1) as [a' w2]. exists s2.
  by rewrite (bind_run _ _ _ _ _ E1), (bind_run _ _ _ _ _ E2).
Qed.
End LinkedListProps.

Lemma Sim_empty {T} : Sim (empty_heap (T := T)) empty_world.
Proof. split; [split|done|]; cbn; intros ??; rewrite ?lookup_empty; done. Qed.


(** Two lists; elements 3, 4, 5 in the first; the second gets a copy and loses its ends. *)
Definition sample_ops : list (list_op (T := Z)) :=
  [ONew; ONew; OPushBack 1 10; OPushFront 1 20; OInsertAfter 1 30 4; OMoveToFront 1 3; OMoveBefore 1 5 3;
   ORemove 2 5; OPushFrontList 2 1; OPushBackList 1 1; OPopFront 2; OPopBack 2; ONext 5; OArray 1; OArray 2].

