(* ===== verification/LinkedHashMap.v ===== *)
(** * An ordered map: common/x/linkedhashmap

    A [Map] keeps its entries in a linked list, in the order in which the keys
    came in, and finds them through a Go map from keys to list elements. *)

From S2P Require Import Prelude LinkedList.

(** collections.MapEntry *)
Record MapEntry (K V : Type) := mkEntry { Key : K; EValue : V }.
Arguments mkEntry {K V}.
Arguments Key {K V}.
Arguments EValue {K V}.

Section LinkedHashMap.
Context {K V : Type} `{Countable K} (zeroK : K) (zeroV : V).
Local Notation entry := (MapEntry K V).
Local Open Scope go_scope.

(** The list is part of the map; [raw] is its address, [hp] the heap it lives in.
    [rawMap] is nil until [init] has run. *)
Record Map := mkMap { hp : heap entry; raw : addr; rawMap : option (gmap K addr) }.
Local Notation M := (GoM Map).

Definition zeroEntry : entry := mkEntry zeroK zeroV.
Definition on_list {A} (f : addr -> GoM (heap entry) A) : M A := fun m =>
  let! (a, h) := f (raw m) (hp m) in Val (a, mkMap h (raw m) (rawMap m)).
Definition set_rawMap (r : option (gmap K addr)) : M unit :=
  modify (fun m => mkMap (hp m) (raw m) r).
(** Assigning to a nil map panics. *)
Definition store_rawMap (key : K) (e : ptr) : M unit :=
  r <- gets rawMap ;;
  match r with
  | None => panic
  | Some r => set_rawMap (Some (partial_alter (fun _ => e) key r))
  end.
Definition load_rawMap (key : K) : M ptr := gets (fun m => default ∅ (rawMap m) !! key).
Definition delete_rawMap (key : K) : M unit := modify (fun m => mkMap (hp m) (raw m) (delete key <$> rawMap m)).

Definition init : M unit :=
  r <- gets rawMap ;; match r with None => set_rawMap (Some ∅) | Some _ => ret tt end.

Definition Size : M Z := on_list LinkedList.Size.
Definition IsEmpty : M bool := on_list LinkedList.IsEmpty.
Definition ContainsKey (key : K) : M bool :=
  init ;; e <- load_rawMap key ;; ret (bool_decide (is_Some e)).
Definition Get (key : K) : M (V * bool) :=
  init ;; e <- load_rawMap key ;;
  match e with
  | Some _ => v <- on_list (fun _ => get_Value zeroEntry e) ;; ret (EValue v, true)
  | None => ret (zeroV, false)
  end.
(** [entry.Value.Value = value] *)
Definition set_value (e : ptr) (value : V) : M unit :=
  on_list (fun _ => v <- get_Value zeroEntry e ;; set_Value e (mkEntry (Key v) value)).
Definition Put (key : K) (value : V) : M V :=
  init ;; e <- load_rawMap key ;;
  match e with
  | Some _ =>
      oldValue <- on_list (fun _ => get_Value zeroEntry e) ;;
      set_value e value ;; ret (EValue oldValue)
  | None =>
      e <- on_list (fun l => PushBack l (mkEntry key value)) ;;
      store_rawMap key e ;; ret zeroV
  end.
Definition Remove (key : K) : M bool :=
  init ;; e <- load_rawMap key ;;
  match e with
  | None => ret false
  | Some _ => on_list (fun l => LinkedList.Remove zeroEntry l e) ;; delete_rawMap key ;; ret true
  end.
(** [other.Entries()] of another implementation of collections.Map is a list of entries. *)
Fixpoint PutAll_loop (entries : list entry) : M unit :=
  match entries with
  | [] => ret tt
  | item :: entries =>
      e <- load_rawMap (Key item) ;;
      (match e with
       | Some _ => set_value e (EValue item)
       | None => e <- on_list (fun l => PushBack l item) ;; store_rawMap (Key item) e
       end) ;;
      PutAll_loop entries
  end.
Definition PutAll (other_Entries : list entry) : M unit := init ;; PutAll_loop other_Entries.
Definition Clear : M unit := on_list zero_list ;; set_rawMap None.
Definition Entries : M (list entry) := on_list (values zeroEntry).
Definition Keys : M (list K) := es <- Entries ;; ret (Key <$> es).
Definition Values : M (list V) := es <- Entries ;; ret (EValue <$> es).

(** A new map in a heap. *)
Definition new_Map (h : heap entry) : Map :=
  match new_object h with Val (a, h) => mkMap h a None | _ => mkMap h 1%positive None end.
End LinkedHashMap.
