(* ===== verification/LinkedHashMapTheorems.v ===== *)
(** * The ordered map refines a list of entries with distinct keys

    [MRep m al]: the map [m] holds the entries [al], in this order. *)

From S2P Require Import Prelude LinkedList LinkedListSpec LinkedListTheorems LinkedHashMap.

Section LinkedHashMapTheorems.
Context {K V : Type} `{Countable K} (zeroK : K) (zeroV : V).
Local Notation entry := (MapEntry K V).
Local Notation Map := (Map (K := K) (V := V)).
Implicit Types (m : Map) (al : list entry) (key : K) (value : V).

(** ** The specification *)

Definition find_key key al : option entry := head (filter (fun x => Key x = key) al).
Definition aput key value al : list entry :=
  match find_key key al with
  | Some _ => (fun x => if decide (Key x = key) then mkEntry (Key x) value else x) <$> al
  | None => al ++ [mkEntry key value]
  end.

Inductive map_op :=
  | MSize | MIsEmpty | MContainsKey (key : K) | MGet (key : K) | MPut (key : K) (value : V)
  | MRemove (key : K) | MPutAll (entries : list entry) | MClear | MKeys | MValues | MEntries.
Inductive map_answer :=
  | AUnit | ASize (n : Z) | ABool (b : bool) | AValue (v : V) | AFound (v : V) (b : bool)
  | AKeys (ks : list K) | AValues (vs : list V) | AEntries (es : list entry).

Definition map_step (o : map_op) al : map_answer * list entry :=
  match o with
  | MSize => (ASize (zlen al), al)
  | MIsEmpty => (ABool (bool_decide (al = [])), al)
  | MContainsKey key => (ABool (bool_decide (is_Some (find_key key al))), al)
  | MGet key => (match find_key key al with Some x => AFound (EValue x) true | None => AFound zeroV false end, al)
  | MPut key value => (AValue (match find_key key al with Some x => EValue x | None => zeroV end), aput key value al)
  | MRemove key => (ABool (bool_decide (is_Some (find_key key al))), filter (fun x => Key x <> key) al)
  | MPutAll es => (AUnit, fold_left (fun al x => aput (Key x) (EValue x) al) es al)
  | MClear => (AUnit, [])
  | MKeys => (AKeys (Key <$> al), al)
  | MValues => (AValues (EValue <$> al), al)
  | MEntries => (AEntries al, al)
  end.
Fixpoint map_steps (os : list map_op) al : list map_answer * list entry :=
  match os with
  | [] => ([], al)
  | o :: os => let (a, al) := map_step o al in let (a', al) := map_steps os al in (a :: a', al)
  end.

Local Open Scope go_scope.
Definition map_run (o : map_op) : GoM Map map_answer :=
  match o with
  | MSize => n <- Size ;; ret (ASize n)
  | MIsEmpty => b <- IsEmpty ;; ret (ABool b)
  | MContainsKey key => b <- ContainsKey key ;; ret (ABool b)
  | MGet key => r <- Get zeroK zeroV key ;; ret (AFound r.1 r.2)
  | MPut key value => v <- Put zeroK zeroV key value ;; ret (AValue v)
  | MRemove key => b <- Remove zeroK zeroV key ;; ret (ABool b)
  | MPutAll es => PutAll zeroK zeroV es ;; ret AUnit
  | MClear => Clear ;; ret AUnit
  | MKeys => ks <- Keys zeroK zeroV ;; ret (AKeys ks)
  | MValues => vs <- Values zeroK zeroV ;; ret (AValues vs)
  | MEntries => es <- Entries zeroK zeroV ;; ret (AEntries es)
  end.
Fixpoint map_runs (os : list map_op) : GoM Map (list map_answer) :=
  match os with
  | [] => ret []
  | o :: os => a <- map_run o ;; a' <- map_runs os ;; ret (a :: a')
  end.

(** ** Representation *)

Definition entry_at m (e : addr) : entry := default (zeroEntry zeroK zeroV) (Value (hp m) !! e).

Definition MapsTo m (ns : list addr) al : Prop :=
  Rep (hp m) {[raw m := ns]} /\ al = entry_at m <$> ns
  /\ (forall key e, default ∅ (rawMap m) !! key = Some e <-> e ∈ ns /\ Key (entry_at m e) = key).
Definition MRep m al : Prop := exists ns, MapsTo m ns al.

Lemma MapsTo_unique m ns al x y : MapsTo m ns al -> x ∈ ns -> y ∈ ns ->
  Key (entry_at m x) = Key (entry_at m y) -> x = y.
Proof.
  intros (_ & _ & Hm) Hx Hy E. assert (Some x = Some y) as [= ->]; [|done].
  rewrite <- (proj2 (Hm (Key (entry_at m x)) x)) by done. by apply Hm.
Qed.

Lemma MapsTo_find m ns al key : MapsTo m ns al ->
  find_key key al = entry_at m <$> (default ∅ (rawMap m) !! key).
Proof.
  intros HM. pose proof HM as (_ & -> & Hm). unfold find_key.
  destruct (default ∅ (rawMap m) !! key) as [e|] eqn:E; cbn.
  - apply Hm in E as (He & Hk). destruct (filter _ _) as [|x r] eqn:Ef; cbn.
    + exfalso. assert (entry_at m e ∈ filter (fun x => Key x = key) (entry_at m <$> ns)) as Hin.
      { apply list_elem_of_filter. split; [done|]. by apply list_elem_of_fmap_2. }
      rewrite Ef in Hin. by apply elem_of_nil in Hin.
    + assert (x ∈ filter (fun x => Key x = key) (entry_at m <$> ns)) as Hin by (rewrite Ef; set_solver).
      apply list_elem_of_filter in Hin as (Hk' & (e' & -> & He')%list_elem_of_fmap).
      by rewrite (MapsTo_unique m ns _ e' e HM He' He) by congruence.
  - destruct (filter _ _) as [|x r] eqn:Ef; [done|]. exfalso.
    assert (x ∈ filter (fun x => Key x = key) (entry_at m <$> ns)) as Hin by (rewrite Ef; set_solver).
    apply list_elem_of_filter in Hin as (Hk' & (e' & -> & He')%list_elem_of_fmap).
    rewrite (proj2 (Hm key e')) in E by done. done.
Qed.

Lemma on_list_run {A B} (f : addr -> GoM (heap entry) A) (k : A -> GoM Map B) m a h :
  f (raw m) (hp m) = Val (a, h) -> bind (on_list f) k m = k a (mkMap h (raw m) (rawMap m)).
Proof. intros E. unfold bind, on_list. by rewrite E. Qed.

Lemma init_run {A} (k : unit -> GoM Map A) m :
  bind init k m = k tt (mkMap (hp m) (raw m) (Some (default ∅ (rawMap m)))).
Proof. by destruct m as [h r [|]]. Qed.

Lemma init_rep m ns al : MapsTo m ns al ->
  MapsTo (mkMap (hp m) (raw m) (Some (default ∅ (rawMap m)))) ns al.
Proof. done. Qed.

Lemma load_rawMap_run {A} key (k : ptr -> GoM Map A) m :
  bind (load_rawMap key) k m = k (default ∅ (rawMap m) !! key) m.
Proof. done. Qed.

Lemma init_load_run {A} key (k : ptr -> GoM Map A) m :
  bind init (fun _ => bind (load_rawMap key) k) m
  = k (default ∅ (rawMap m) !! key) (mkMap (hp m) (raw m) (Some (default ∅ (rawMap m)))).
Proof. by rewrite init_run. Qed.

(** [entry.Value.Value = value] for the entry of [key]. *)
Lemma set_value_rep m ns al key e value : MapsTo m ns al -> default ∅ (rawMap m) !! key = Some e ->
  exists m', set_value zeroK zeroV (Some e) value m = Val (tt, m')
    /\ MapsTo m' ns (aput key value al) /\ is_Some (rawMap m') = is_Some (rawMap m).
Proof.
  intros HM Hk. pose proof (MapsTo_find m ns al key HM) as Hf. rewrite Hk in Hf.
  pose proof HM as (HR & -> & Hm). apply Hm in Hk as [He Hkey].
  eexists. split; [reflexivity|]. split; [|done].
  assert (forall x, entry_at (mkMap (mkHeap (next (hp m)) (prev (hp m)) (list_ (hp m))
    (<[e := mkEntry (Key (entry_at m e)) value]> (Value (hp m))) (len (hp m)) (used (hp m))) (raw m) (rawMap m)) x
    = if decide (x = e) then mkEntry key value else entry_at m x) as Hat.
  { intros x. unfold entry_at at 1. cbn. rewrite Hkey. case_decide; [subst; by rewrite lookup_insert_eq|].
    by rewrite lookup_insert_ne. }
  split_and!; cbn.
  - by apply set_Value_rep.
  - unfold aput. rewrite Hf. cbn. rewrite <- list_fmap_compose. apply list_fmap_ext.
    intros i x Hx%list_elem_of_lookup_2. cbn. etransitivity; [|symmetry; apply Hat].
    destruct (decide (x = e)) as [->|Hne].
    + by rewrite decide_True, Hkey.
    + rewrite decide_False; [done|]. intros Ek. apply Hne, (MapsTo_unique m ns _ x e HM Hx He). congruence.
  - intros k x. rewrite Hm. etransitivity; [|symmetry; apply and_iff_compat_l; by rewrite Hat].
    case_decide as Hx; [by rewrite Hx, Hkey|done].
Qed.

Lemma MapsTo_list m ns al : MapsTo m ns al -> ({[raw m := ns]} : gmap addr (list addr)) !! raw m = Some ns.
Proof. intros _. apply lookup_singleton_eq. Qed.

(** A key that is not there yet comes last. *)
Lemma append_rep m ns al key value : MapsTo m ns al -> is_Some (rawMap m) ->
  default ∅ (rawMap m) !! key = None -> exists m' ns',
  bind (on_list (fun l => PushBack l (mkEntry key value))) (store_rawMap key) m = Val (tt, m')
    /\ MapsTo m' ns' (aput key value al) /\ is_Some (rawMap m').
Proof.
  intros HM [r Hr] Hk. pose proof (MapsTo_find m ns al key HM) as Hf. rewrite Hk in Hf.
  pose proof HM as (HR & -> & Hm).
  destruct (PushBack_rep (hp m) _ (raw m) ns (mkEntry key value) HR (MapsTo_list _ _ _ HM)) as (h & E & HR' & HV & _).
  set (e := fresh (used (hp m))) in *. rewrite (on_list_run _ _ _ _ _ E). unfold store_rawMap.
  rewrite bind_gets. cbn. rewrite Hr.
  eexists _, (ns ++ [e]). split; [reflexivity|]. split; [|cbn; eauto].
  assert (e ∉ ns) as He.
  { intros Hin. apply (is_fresh (used (hp m))).
    destruct (il_used _ _ _ (rep_list _ _ HR _ _ (MapsTo_list _ _ _ HM))) as [_ Hu]. by apply Hu. }
  assert (forall q x, entry_at (mkMap h (raw m) q) x = if decide (x = e) then mkEntry key value else entry_at m x) as Hat.
  { intros q x. unfold entry_at. cbn. rewrite HV. case_decide; [subst; by rewrite lookup_insert_eq|].
    by rewrite lookup_insert_ne. }
  split_and!; cbn.
  - by rewrite insert_singleton_eq in HR'.
  - unfold aput. rewrite Hf. cbn. rewrite fmap_app. cbn. rewrite Hat, decide_True by done. f_equal.
    apply list_fmap_ext. intros i x Hx%list_elem_of_lookup_2. rewrite Hat, decide_False; [done|]. by intros ->.
  - intros k x. change (<[key := e]> r !! k = Some x <-> x ∈ ns ++ [e] /\ Key (entry_at (mkMap h (raw m) (Some (<[key := e]> r))) x) = k).
    rewrite Hat, lookup_insert_Some, elem_of_app, list_elem_of_singleton.
    rewrite Hr in Hm, Hk. cbn in Hm, Hk. rewrite Hm. case_decide as Hx; [rewrite Hx; cbn; naive_solver|].
    assert (x ∈ ns -> Key (entry_at m x) <> key) as Hkey.
    { intros Hin Ek. rewrite (proj2 (Hm key x)) in Hk by done. done. }
    naive_solver.
Qed.

(** The body of Put and of the loop of PutAll. *)
Lemma put_rep m ns al key value : MapsTo m ns al -> is_Some (rawMap m) -> exists m' ns',
  bind (load_rawMap key) (fun e => match e with
    | Some _ => set_value zeroK zeroV e value
    | None => bind (on_list (fun l => PushBack l (mkEntry key value))) (store_rawMap key)
    end) m = Val (tt, m') /\ MapsTo m' ns' (aput key value al) /\ is_Some (rawMap m').
Proof.
  intros HM Hr. rewrite load_rawMap_run. destruct (_ !! key) as [e|] eqn:E.
  - destruct (set_value_rep m ns al key e value HM E) as (m' & E' & HM' & Hr'). exists m', ns. by rewrite Hr'.
  - by apply (append_rep m ns al).
Qed.

Lemma PutAll_rep es : forall m ns al, MapsTo m ns al -> is_Some (rawMap m) -> exists m' ns',
  PutAll_loop zeroK zeroV es m = Val (tt, m')
    /\ MapsTo m' ns' (fold_left (fun al x => aput (Key x) (EValue x) al) es al).
Proof.
  induction es as [|x es IH]; intros m ns al HM Hr; [by exists m, ns|].
  destruct (put_rep m ns al (Key x) (EValue x) HM Hr) as (m1 & ns1 & E1 & HM1 & Hr1).
  destruct (IH m1 ns1 _ HM1 Hr1) as (m2 & ns2 & E2 & HM2). exists m2, ns2. split; [|done].
  cbn [PutAll_loop]. rewrite load_rawMap_run in E1 |- *. rewrite <- E2.
  destruct x as [k v]; cbn [Key EValue] in *.
  exact (bind_run _ (fun _ => PutAll_loop zeroK zeroV es) _ _ _ E1).
Qed.

Lemma Remove_map_rep m ns al key e : MapsTo m ns al -> default ∅ (rawMap m) !! key = Some e -> exists m' ns',
  bind (on_list (fun l => LinkedList.Remove (zeroEntry zeroK zeroV) l (Some e))) (fun _ => delete_rawMap key) m = Val (tt, m')
    /\ MapsTo m' ns' (filter (fun x => Key x <> key) al).
Proof.
  intros HM Hk. pose proof HM as (HR & -> & Hm). pose proof Hk as [He Hkey]%Hm.
  destruct (split_in (hp m) _ (raw m) ns e HR (MapsTo_list _ _ _ HM) He) as (pre & post & Hns & Hnd & Hw & Hpre & Hpost).
  subst ns.
  destruct (Remove_rep (zeroEntry zeroK zeroV) (hp m) _ (raw m) pre e post HR (MapsTo_list _ _ _ HM)) as (h & E & HR' & HV & _).
  rewrite (on_list_run _ _ _ _ _ E). eexists _, (pre ++ post). split; [reflexivity|].
  assert (forall q x, entry_at (mkMap h (raw m) q) x = entry_at m x) as Hat.
  { intros q x. unfold entry_at. cbn. by rewrite HV. }
  assert (forall x, x ∈ pre ++ post -> Key (entry_at m x) <> key) as Hother.
  { intros x Hx Ek. assert (x = e) as ->; [|set_solver].
    apply (MapsTo_unique m (pre ++ e :: post) _ x e HM); [set_solver|set_solver|congruence]. }
  split_and!; cbn.
  - by rewrite insert_singleton_eq in HR'.
  - rewrite fmap_app, fmap_cons, filter_app, filter_cons_False by tauto.
    rewrite <- filter_app, <- fmap_app. rewrite filter_every.
    + apply list_fmap_ext. intros i x _. symmetry. apply Hat.
    + intros y (x & -> & Hx)%list_elem_of_fmap. by apply Hother.
  - intros k x. rewrite Hat. specialize (Hm k x). destruct (rawMap m) as [r|]; cbn in *; [|set_solver].
    rewrite lookup_delete_Some, Hm. split.
    + intros (Hne & Hx & Hkx). split; [|done]. assert (x <> e) by (intros ->; congruence). set_solver.
    + intros [Hx Hkx]. split_and!; [|set_solver|done]. intros ->. by apply (Hother x).
Qed.

Lemma Clear_rep m ns al : MapsTo m ns al -> exists m', Clear m = Val (tt, m') /\ MapsTo m' [] [].
Proof.
  intros HM. pose proof HM as (HR & -> & Hm).
  destruct (zero_list_rep (hp m) _ (raw m) ns HR (MapsTo_list _ _ _ HM)) as (h & E & HR' & _).
  unfold Clear. rewrite (on_list_run _ _ _ _ _ E). eexists. split; [reflexivity|]. split_and!; cbn.
  - by rewrite insert_singleton_eq in HR'.
  - done.
  - intros k x. rewrite lookup_empty. set_solver.
Qed.

(** ** Every call *)

Definition map_refines {A} (c : GoM Map A) m (a : A) al : Prop :=
  exists m', c m = Val (a, m') /\ MRep m' al.

Lemma map_refines_ret {A B} (c : GoM Map A) (f : A -> B) m (a : A) al :
  map_refines c m a al -> map_refines (bind c (fun x => ret (f x))) m (f a) al.
Proof. intros (m' & E & HM). exists m'. by rewrite (bind_run _ _ _ _ _ E). Qed.

Lemma Entries_refines m al : MRep m al -> map_refines (Entries zeroK zeroV) m al al.
Proof.
  intros [ns HM]. pose proof HM as (HR & E & Hm). exists m. split; [|by exists ns].
  unfold Entries, on_list.
  rewrite (values_rep (zeroEntry zeroK zeroV) (hp m) _ (raw m) ns HR (MapsTo_list _ _ _ HM)).
  cbn. rewrite E. by destruct m.
Qed.

Lemma Size_refines m al : MRep m al -> map_refines Size m (zlen al) al /\ map_refines IsEmpty m (bool_decide (al = [])) al.
Proof.
  intros [ns HM]. pose proof HM as (HR & E & Hm).
  pose proof (Len_rep (hp m) _ (raw m) ns HR (MapsTo_list _ _ _ HM)) as HL.
  assert (zlen ns = zlen al) as Hlen by (rewrite E; unfold zlen; by rewrite length_fmap).
  split; exists m; (split; [|by exists ns]).
  - unfold Size, on_list. change LinkedList.Size with (@Len (MapEntry K V)). rewrite HL, Hlen. by destruct m.
  - unfold IsEmpty, on_list, LinkedList.IsEmpty.
    rewrite (get_len_bind (hp m) _ (raw m) ns HR (MapsTo_list _ _ _ HM)), Hlen. cbn.
    rewrite (bool_decide_ext _ (al = [])); [by destruct m|].
    split; [apply zlen_0|by intros ->].
Qed.

Lemma find_present m ns al key : MapsTo m ns al ->
  bool_decide (is_Some (find_key key al)) = bool_decide (is_Some (default ∅ (rawMap m) !! key)).
Proof. intros HM. rewrite (MapsTo_find m ns al key HM). apply bool_decide_ext, fmap_is_Some. Qed.

Lemma map_Get_refines m al key : MRep m al ->
  map_refines (ContainsKey key) m (bool_decide (is_Some (find_key key al))) al
  /\ map_refines (Get zeroK zeroV key) m
       (match find_key key al with Some x => (EValue x, true) | None => (zeroV, false) end) al.
Proof.
  intros [ns HM]. pose proof (init_rep m ns al HM) as HM'. split.
  - eexists. unfold ContainsKey. rewrite init_run, load_rawMap_run. cbn.
    split; [by rewrite (find_present m ns)|by exists ns].
  - unfold Get, map_refines. rewrite init_run, load_rawMap_run, (MapsTo_find m ns al key HM). cbn.
    destruct (_ !! key) as [e|] eqn:E; cbn; [|by eexists; split; [done|exists ns]].
    by eexists; split; [done|exists ns].
Qed.

Lemma Put_refines m al key value : MRep m al ->
  map_refines (Put zeroK zeroV key value) m
    (match find_key key al with Some x => EValue x | None => zeroV end) (aput key value al).
Proof.
  intros [ns HM]. apply init_rep in HM as HM'. unfold Put, map_refines. rewrite init_load_run, (MapsTo_find m ns al key HM).
  destruct (put_rep _ ns al key value HM') as (m' & ns' & E & HM2 & _); [done|].
  rewrite load_rawMap_run in E. cbn [rawMap] in E. change (default ∅ (Some ?r)) with r in E.
  destruct (default ∅ (rawMap m) !! key) as [e|]; cbn [fmap option_fmap option_map].
  - rewrite (on_list_run _ _ _ (entry_at m e) (hp m)) by done. cbn [raw rawMap].
    rewrite (bind_run _ _ _ _ _ E). exists m'. by split; [|exists ns'].
  - exists m'. split; [|by exists ns']. rewrite <- bind_bind.
    change (bind (bind (on_list (fun l => PushBack l (mkEntry key value))) (store_rawMap key)) (fun _ => ret zeroV)
      (mkMap (hp m) (raw m) (Some (default ∅ (rawMap m)))) = Val (zeroV, m')).
    by rewrite (bind_run _ _ _ _ _ E).
Qed.

Lemma Remove_refines_map m al key : MRep m al ->
  map_refines (Remove zeroK zeroV key) m (bool_decide (is_Some (find_key key al)))
    (filter (fun x => Key x <> key) al).
Proof.
  intros [ns HM]. apply init_rep in HM as HM'. unfold Remove, map_refines. rewrite init_load_run, (find_present m ns al key HM).
  destruct (default ∅ (rawMap m) !! key) as [e|] eqn:E; cbn [is_Some].
  - destruct (Remove_map_rep _ ns al key e HM' E) as (m' & ns' & E' & HM2). exists m'.
    split; [|by exists ns']. rewrite <- bind_bind, (bind_run _ _ _ _ _ E'). by rewrite bool_decide_eq_true_2 by eauto.
  - eexists. split; [by rewrite bool_decide_eq_false_2 by (intros [? ?]; done)|]. exists ns.
    rewrite filter_every; [done|]. intros x Hx Ek. destruct HM as (_ & -> & Hm).
    apply list_elem_of_fmap in Hx as (y & -> & Hy). by rewrite (proj2 (Hm key y)) in E.
Qed.

Lemma map_step_refines o m al : MRep m al -> map_refines (map_run o) m (map_step o al).1 (map_step o al).2.
Proof.
  intros HM. destruct o; cbn [map_run map_step fst snd].
  - by apply map_refines_ret, Size_refines.
  - by apply map_refines_ret, Size_refines.
  - by apply map_refines_ret, map_Get_refines.
  - pose proof (map_refines_ret _ (fun r => AFound r.1 r.2) _ _ _ (proj2 (map_Get_refines m al key HM))) as Hg.
    by destruct (find_key key al).
  - by apply map_refines_ret, Put_refines.
  - by apply map_refines_ret, Remove_refines_map.
  - apply (map_refines_ret _ (fun _ => AUnit) m tt). destruct HM as [ns HM%init_rep].
    destruct (PutAll_rep entries _ ns al HM) as (m' & ns' & E & HM'); [done|].
    exists m'. split; [|by exists ns']. unfold PutAll. by rewrite init_run.
  - apply (map_refines_ret _ (fun _ => AUnit) m tt). destruct HM as [ns HM].
    destruct (Clear_rep m ns al HM) as (m' & E & HM'). exists m'. split; [done|by exists []].
  - by apply (map_refines_ret _ AKeys), map_refines_ret, Entries_refines.
  - by apply (map_refines_ret _ AValues), map_refines_ret, Entries_refines.
  - by apply map_refines_ret, Entries_refines.
Qed.

Lemma map_steps_refine os : forall m al, MRep m al ->
  map_refines (map_runs os) m (map_steps os al).1 (map_steps os al).2.
Proof.
  induction os as [|o os IH]; intros m al HM; [by exists m|].
  destruct (map_step_refines o m al HM) as (m1 & E1 & HM1). destruct (IH m1 _ HM1) as (m2 & E2 & HM2).
  cbn [map_runs map_steps]. destruct (map_step o al) as [a al1]. cbn [fst snd] in *.
  destruct (map_steps os al1) as [a' al2]. exists m2.
  by rewrite (bind_run _ _ _ _ _ E1), (bind_run _ _ _ _ _ E2).
Qed.

Lemma new_Map_rep (h : heap entry) : Rep h ∅ -> MRep (new_Map h) [].
Proof.
  intros HR. exists []. pose proof (is_fresh (used h)) as Hf. cbn. set (a := fresh (used h)) in *.
  destruct (rep_fresh _ _ HR a Hf) as (H1 & H2 & H3 & H4). split_and!; [|done|].
  - split; cbn.
    + intros l ns [<- <-]%lookup_singleton_Some. split; cbn; [by right|by intros e ?%elem_of_nil|done|by rewrite H4|].
      split; [set_solver|by intros e ?%elem_of_nil].
    + intros b Hb. apply (rep_fresh _ _ HR). set_solver.
  - intros k e. cbn. rewrite lookup_empty. set_solver.
Qed.

(** C27: any sequence of calls on a new map gives the answers of a list of entries
    with distinct keys: a new key goes to the end, a known key keeps its place. *)
Theorem linked_map_refines (os : list map_op) (h : heap entry) : Rep h ∅ ->
  exists m, map_runs os (new_Map h) = Val ((map_steps os []).1, m) /\ MRep m (map_steps os []).2.
Proof. intros HR. by apply map_steps_refine, new_Map_rep. Qed.
End LinkedHashMapTheorems.

(** Keys 1, 2 and 3; 2 is updated, 1 is removed and comes back last. *)
Definition sample_map_ops : list (map_op (K := Z) (V := Z)) :=
  [MPut 1 10; MPut 2 20; MPut 3 30; MPut 2 21; MRemove 1; MPutAll [mkEntry 1 11; mkEntry 3 31]; MKeys; MGet 3;
   MEntries; MClear; MSize; MPut 5 50; MValues].

Lemma linked_map_refines_witness :
  exists m, map_runs 0 0 sample_map_ops (new_Map empty_heap) = Val ((map_steps 0 sample_map_ops []).1, m)
    /\ MRep 0 0 m (map_steps 0 sample_map_ops []).2.
Proof.
  apply (linked_map_refines 0 0 sample_map_ops empty_heap).
  split; cbn; intros ??; rewrite ?lookup_empty; done.
Defined.
