(* ===== verification/LruCache.v ===== *)
(** * The LRU cache on a linked list: common/cache/lrucache.go

    A [LruCache] is a Go map from keys to elements of a linked list; an element
    holds a pointer to an entry.  Lists, elements and entries live in the memory
    [mem], because CloneTo makes two caches share entries.  The calls of
    time.Now in a method are its arguments [now1], [now2], ... in the order of
    the text (Unix seconds); the calls of the eviction callback are recorded in
    [evicted].  The mutex makes a method one step, with one exception: Load and
    LoadWithExpire read the entry after get has released the mutex. *)

From S2P Require Import Prelude LinkedList.

Record entry (K V : Type) := mkEntry { e_key : K; e_value : V; e_expires : Z }.
Arguments mkEntry {K V}.
Arguments e_key {K V}.
Arguments e_value {K V}.
Arguments e_expires {K V}.

Record LruCache (K V : Type) `{Countable K} := mkLruCache {
  maxAge : Z;
  maxSize : Z;
  cache : gmap K addr;
  lru : addr;
  updateAgeOnGet : bool;
  staleReturn : bool;
  onEvict : bool;
  evicted : list (K * V) }.
Arguments mkLruCache {K V _ _}.
Arguments maxAge {K V _ _}.
Arguments maxSize {K V _ _}.
Arguments cache {K V _ _}.
Arguments lru {K V _ _}.
Arguments updateAgeOnGet {K V _ _}.
Arguments staleReturn {K V _ _}.
Arguments onEvict {K V _ _}.
Arguments evicted {K V _ _}.

(** The heap of the lists and the entries the elements point to. *)
Record mem (K V : Type) := mkMem { hp : heap addr; entries : gmap addr (entry K V) }.
Arguments mkMem {K V}.
Arguments hp {K V}.
Arguments entries {K V}.

Section LruCache.
Context {K V : Type} `{Countable K} (zeroK : K) (zeroV : V).
Local Open Scope go_scope.
Local Notation state := (mem K V * LruCache K V)%type.
Local Notation M := (GoM state).

(** ** Options and New *)

Definition Option : Type := LruCache K V -> LruCache K V.
Definition WithEvict : Option := fun l =>
  mkLruCache (maxAge l) (maxSize l) (cache l) (lru l) (updateAgeOnGet l) (staleReturn l) true (evicted l).
Definition WithUpdateAgeOnGet : Option := fun l =>
  mkLruCache (maxAge l) (maxSize l) (cache l) (lru l) true (staleReturn l) (onEvict l) (evicted l).
Definition WithAge (age : Z) : Option := fun l =>
  mkLruCache age (maxSize l) (cache l) (lru l) (updateAgeOnGet l) (staleReturn l) (onEvict l) (evicted l).
Definition WithSize (size : Z) : Option := fun l =>
  mkLruCache (maxAge l) size (cache l) (lru l) (updateAgeOnGet l) (staleReturn l) (onEvict l) (evicted l).
Definition WithStale (stale : bool) : Option := fun l =>
  mkLruCache (maxAge l) (maxSize l) (cache l) (lru l) (updateAgeOnGet l) stale (onEvict l) (evicted l).

Definition New (options : list Option) (m : mem K V) : outcome state :=
  let! (l, h) := new_object (hp m) in
  Val (mkMem h (entries m), fold_left (fun lc option => option lc) options (mkLruCache 0 0 ∅ l false false false [])).

(** ** Memory *)

Definition on_list {A} (f : addr -> GoM (heap addr) A) : M A := fun s =>
  let! (a, h) := f (lru s.2) (hp s.1) in Val (a, (mkMem h (entries s.1), s.2)).
Definition zeroEntry : entry K V := mkEntry zeroK zeroV 0.
(** [le.Value] of an element and the entry it points to; nil panics. *)
Definition get_Value (le : ptr) : M addr := on_list (fun _ => LinkedList.get_Value 1%positive le).
Definition get_entry (p : addr) : M (entry K V) := gets (fun s => default zeroEntry (entries s.1 !! p)).
Definition set_entry (p : addr) (e : entry K V) : M unit :=
  modify (fun s => (mkMem (hp s.1) (<[p := e]> (entries s.1)), s.2)).
Definition new_entry (e : entry K V) : M addr := fun s =>
  let p := fresh (dom (entries s.1)) in
  Val (p, (mkMem (hp s.1) (<[p := e]> (entries s.1)), s.2)).
Definition load_cache (key : K) : M ptr := gets (fun s => cache s.2 !! key).
Definition set_cache (f : gmap K addr -> gmap K addr) : M unit :=
  modify (fun s => (s.1, let c := s.2 in
    mkLruCache (maxAge c) (maxSize c) (f (cache c)) (lru c) (updateAgeOnGet c) (staleReturn c) (onEvict c) (evicted c))).
Definition call_onEvict (key : K) (value : V) : M unit :=
  modify (fun s => (s.1, let c := s.2 in
    if onEvict c
    then mkLruCache (maxAge c) (maxSize c) (cache c) (lru c) (updateAgeOnGet c) (staleReturn c) (onEvict c) (evicted c ++ [(key, value)])
    else c)).

(** ** Deleting *)

Definition deleteElement (le : ptr) : M unit :=
  on_list (fun l => Remove 1%positive l le) ;;
  p <- get_Value le ;; e <- get_entry p ;;
  set_cache (delete (e_key e)) ;;
  call_onEvict (e_key e) (e_value e).

(** The loop over the expired elements at the front; [fuel] bounds their number. *)
Fixpoint delete_expired (fuel : nat) (now : Z) (le : ptr) : M unit :=
  match le with
  | None => ret tt
  | Some _ =>
      p <- get_Value le ;; e <- get_entry p ;;
      if decide (e_expires e <= now) then
        match fuel with
        | O => fun _ => OutOfFuel
        | S fuel => deleteElement le ;; le <- on_list Front ;; delete_expired fuel now le
        end
      else ret tt
  end.

Definition maybeDeleteOldest (now : Z) : M unit :=
  c <- gets snd ;;
  (if negb (staleReturn c) && bool_decide (maxAge c > 0) then
     n <- on_list Len ;; le <- on_list Front ;; delete_expired (Z.to_nat n) now le
   else ret tt) ;;
  (if decide (maxSize c > 0) then
     n <- on_list Len ;;
     if decide (n > maxSize c) then le <- on_list Front ;; deleteElement le else ret tt
   else ret tt).

(** ** Looking up *)

Definition get (key : K) (now1 now2 : Z) : M (option addr) :=
  c <- gets snd ;; le <- load_cache key ;;
  match le with
  | None => ret None
  | Some _ =>
      p <- get_Value le ;; e <- get_entry p ;;
      if decide (staleReturn c = false /\ maxAge c > 0 /\ e_expires e <= now1) then
        deleteElement le ;; maybeDeleteOldest now2 ;; ret None
      else
        on_list (fun l => MoveToBack l le) ;;
        p <- get_Value le ;; e <- get_entry p ;;
        (if decide (maxAge c > 0 /\ updateAgeOnGet c = true)
         then set_entry p (mkEntry (e_key e) (e_value e) (i64 (now2 + maxAge c))) else ret tt) ;;
        ret (Some p)
  end.

Definition Load (key : K) (now1 now2 : Z) : M (V * bool) :=
  p <- get key now1 now2 ;;
  match p with
  | None => ret (zeroV, false)
  | Some p => e <- get_entry p ;; ret (e_value e, true)
  end.
(** The zero time.Time is [None]. *)
Definition LoadWithExpire (key : K) (now1 now2 : Z) : M (V * option Z * bool) :=
  p <- get key now1 now2 ;;
  match p with
  | None => ret (zeroV, None, false)
  | Some p => e <- get_entry p ;; ret (e_value e, Some (e_expires e), true)
  end.

Definition Exist (key : K) : M bool := le <- load_cache key ;; ret (bool_decide (is_Some le)).

(** ** Storing *)

(** [if le, ok := c.cache[key]; ok { ... } else { ... }]: the entry of the key is
    overwritten and moved to the back, or a new one is pushed. *)
Definition put (key : K) (value : V) (expires new_expires : Z) : M unit :=
  le <- load_cache key ;;
  match le with
  | Some _ =>
      on_list (fun l => MoveToBack l le) ;;
      p <- get_Value le ;; e <- get_entry p ;;
      set_entry p (mkEntry (e_key e) value expires)
  | None =>
      p <- new_entry (mkEntry key value new_expires) ;;
      le <- on_list (fun l => PushBack l p) ;;
      set_cache (partial_alter (fun _ => le) key)
  end.

Definition StoreWithExpire (key : K) (value : V) (expires : Z) (now : Z) : M unit :=
  put key value expires expires ;; maybeDeleteOldest now.
Definition Store (key : K) (value : V) (now1 now2 : Z) : M unit :=
  c <- gets snd ;;
  StoreWithExpire key value (if decide (maxAge c > 0) then i64 (now1 + maxAge c) else 0) now2.

(** What LoadOrStore and LoadOrStoreWithAge share; [age] is the age they give to a
    known key and [now1], [now2], [now3] the three times they may read.  The
    constructor runs under the mutex, so it cannot change the cache. *)
Definition load_or_store (key : K) (constructor : V) (age : LruCache K V -> Z) (now1 now2 now3 : Z) : M (V * bool) :=
  c <- gets snd ;; le <- load_cache key ;;
  let create : M (V * bool) :=
    put key constructor (i64 (now2 + age c)) (i64 (now2 + maxAge c)) ;;
    maybeDeleteOldest now3 ;; ret (constructor, false) in
  match le with
  | Some _ =>
      p <- get_Value le ;; e <- get_entry p ;;
      if decide (maxAge c > 0 /\ e_expires e <= now1) then deleteElement le ;; create
      else
        on_list (fun l => MoveToBack l le) ;;
        p <- get_Value le ;; e <- get_entry p ;;
        (if decide (maxAge c > 0 /\ updateAgeOnGet c = true)
         then set_entry p (mkEntry (e_key e) (e_value e) (i64 (now2 + age c))) else ret tt) ;;
        ret (e_value e, true)
  | None => create
  end.
Definition LoadOrStore (key : K) (constructor : V) : Z -> Z -> Z -> M (V * bool) :=
  load_or_store key constructor maxAge.
Definition LoadOrStoreWithAge (key : K) (age : Z) (constructor : V) : Z -> Z -> Z -> M (V * bool) :=
  load_or_store key constructor (fun c => if decide (age = 0) then maxAge c else age).

(** ** The rest *)

Definition Delete (key : K) : M unit :=
  le <- load_cache key ;; match le with Some _ => deleteElement le | None => ret tt end.

(** [for element := c.lru.Front(); element != nil; element = element.Next()] *)
Fixpoint clear_loop (fuel : nat) (element : ptr) : M unit :=
  match element with
  | None => ret tt
  | Some _ =>
      match fuel with
      | O => fun _ => OutOfFuel
      | S fuel => deleteElement element ;; element <- on_list (fun _ => Next element) ;; clear_loop fuel element
      end
  end.
Definition Clear : M unit :=
  n <- on_list Len ;; element <- on_list Front ;; clear_loop (Z.to_nat n) element.

(** The calls of [block], in order. *)
Fixpoint entries_of (ps : list addr) : M (list (entry K V)) :=
  match ps with
  | [] => ret []
  | p :: ps => e <- get_entry p ;; es <- entries_of ps ;; ret (e :: es)
  end.
Definition Range : M (list (K * V)) :=
  ps <- on_list (fun l => values 1%positive l) ;; es <- entries_of ps ;;
  ret ((fun e => (e_key e, e_value e)) <$> es).

(** [n.cache[elm.key] = n.lru.PushBack(elm)] for every entry pointer [elm] of [c]. *)
Fixpoint clone_loop (ps : list addr) : M unit :=
  match ps with
  | [] => ret tt
  | p :: ps =>
      e <- get_entry p ;; le <- on_list (fun l => PushBack l p) ;;
      set_cache (partial_alter (fun _ => le) (e_key e)) ;; clone_loop ps
  end.
(** Run on the cache [n], with the list of [c] as an argument. *)
Definition CloneTo (c : LruCache K V) : M unit :=
  on_list zero_list ;; set_cache (fun _ => ∅) ;;
  ps <- on_list (fun _ => values 1%positive (lru c)) ;; clone_loop ps.
End LruCache.
