(* ===== verification/LruCacheTheorems.v ===== *)
(** * The LRU cache on a linked list refines a list of entries

    The abstract cache holds its entries with the least recently used one first.
    Its methods are those of lrucache.go, Clear included, which removes a single
    entry. *)

From S2P Require Import Prelude LinkedList LinkedListSpec LinkedListTheorems LruCache.

Section LruCacheTheorems.
Context {K V : Type} `{Countable K} (zeroK : K) (zeroV : V).
Local Notation entry := (entry K V).
Local Notation state := (mem K V * LruCache K V)%type.
Implicit Types (s : state) (e : addr) (ns pre post : list addr) (key : K) (value : V) (x : entry).

(** ** The specification *)

Record spec := mkSpec {
  sp_maxAge : Z; sp_maxSize : Z; sp_update : bool; sp_stale : bool; sp_notify : bool;
  sp_items : list entry; sp_evicted : list (K * V) }.
Implicit Types (a : spec).

Definition with_items (items : list entry) a : spec :=
  mkSpec (sp_maxAge a) (sp_maxSize a) (sp_update a) (sp_stale a) (sp_notify a) items (sp_evicted a).
Definition notify x a : spec :=
  mkSpec (sp_maxAge a) (sp_maxSize a) (sp_update a) (sp_stale a) (sp_notify a) (sp_items a)
    (if sp_notify a then sp_evicted a ++ [(e_key x, e_value x)] else sp_evicted a).
Definition find_key key (items : list entry) : option entry := head (filter (fun x => e_key x = key) items).
Definition without_key key (items : list entry) : list entry := filter (fun x => e_key x <> key) items.

(** The oldest entry leaves. *)
Definition drop_oldest a : spec :=
  match sp_items a with [] => a | x :: r => notify x (with_items r a) end.
Fixpoint drop_expired (n : nat) (now : Z) a : spec :=
  match n with
  | O => a
  | S n => match sp_items a with
           | x :: _ => if decide (e_expires x <= now) then drop_expired n now (drop_oldest a) else a
           | [] => a
           end
  end.
Definition trim (now : Z) a : spec :=
  let a := if negb (sp_stale a) && bool_decide (sp_maxAge a > 0)
           then drop_expired (length (sp_items a)) now a else a in
  if decide (sp_maxSize a > 0 /\ zlen (sp_items a) > sp_maxSize a) then drop_oldest a else a.
Definition delete_key key a : spec :=
  match find_key key (sp_items a) with
  | Some x => notify x (with_items (without_key key (sp_items a)) a)
  | None => a
  end.
(** The entry becomes the most recently used one. *)
Definition refresh x a : spec := with_items (without_key (e_key x) (sp_items a) ++ [x]) a.
Definition aged x (age now : Z) a : entry :=
  if decide (sp_maxAge a > 0 /\ sp_update a = true) then mkEntry (e_key x) (e_value x) (i64 (now + age)) else x.

Definition spec_get key (now1 now2 : Z) a : option entry * spec :=
  match find_key key (sp_items a) with
  | None => (None, a)
  | Some x =>
      if decide (sp_stale a = false /\ sp_maxAge a > 0 /\ e_expires x <= now1)
      then (None, trim now2 (delete_key key a))
      else let x := aged x (sp_maxAge a) now2 a in (Some x, refresh x a)
  end.
Definition spec_store key value (expires now : Z) a : spec := trim now (refresh (mkEntry key value expires) a).
Definition spec_load_or_store key value (age now1 now2 now3 : Z) a : V * bool * spec :=
  match find_key key (sp_items a) with
  | Some x =>
      if decide (sp_maxAge a > 0 /\ e_expires x <= now1)
      then (value, false, spec_store key value (i64 (now2 + sp_maxAge a)) now3 (delete_key key a))
      else (e_value x, true, refresh (aged x age now2 a) a)
  | None => (value, false, spec_store key value (i64 (now2 + sp_maxAge a)) now3 a)
  end.

Inductive cache_op :=
  | CLoad key (now1 now2 : Z) | CLoadWithExpire key (now1 now2 : Z) | CExist key
  | CStore key value (now1 now2 : Z) | CStoreWithExpire key value (expires now : Z)
  | CLoadOrStore key value (now1 now2 now3 : Z) | CLoadOrStoreWithAge key (age : Z) value (now1 now2 now3 : Z)
  | CDelete key | CClear | CRange.
Inductive cache_answer :=
  | AUnit | ABool (b : bool) | AValue (v : V) (b : bool) | ATimed (v : V) (t : option Z) (b : bool)
  | AItems (l : list (K * V)).

Definition cache_step (o : cache_op) a : cache_answer * spec :=
  match o with
  | CLoad key now1 now2 =>
      let (x, a') := spec_get key now1 now2 a in
      (match x with Some x => AValue (e_value x) true | None => AValue zeroV false end, a')
  | CLoadWithExpire key now1 now2 =>
      let (x, a') := spec_get key now1 now2 a in
      (match x with Some x => ATimed (e_value x) (Some (e_expires x)) true | None => ATimed zeroV None false end, a')
  | CExist key => (ABool (bool_decide (is_Some (find_key key (sp_items a)))), a)
  | CStore key value now1 now2 =>
      (AUnit, spec_store key value (if decide (sp_maxAge a > 0) then i64 (now1 + sp_maxAge a) else 0) now2 a)
  | CStoreWithExpire key value expires now => (AUnit, spec_store key value expires now a)
  | CLoadOrStore key value now1 now2 now3 =>
      let '(v, b, a') := spec_load_or_store key value (sp_maxAge a) now1 now2 now3 a in (AValue v b, a')
  | CLoadOrStoreWithAge key age value now1 now2 now3 =>
      let '(v, b, a') := spec_load_or_store key value (if decide (age = 0) then sp_maxAge a else age) now1 now2 now3 a in
      (AValue v b, a')
  | CDelete key => (AUnit, delete_key key a)
  | CClear => (AUnit, drop_oldest a)
  | CRange => (AItems ((fun x => (e_key x, e_value x)) <$> sp_items a), a)
  end.
Fixpoint cache_steps (os : list cache_op) a : list cache_answer * spec :=
  match os with
  | [] => ([], a)
  | o :: os => let (r, a) := cache_step o a in let (r', a) := cache_steps os a in (r :: r', a)
  end.

Local Open Scope go_scope.
Definition cache_run (o : cache_op) : GoM state cache_answer :=
  match o with
  | CLoad key now1 now2 => r <- Load zeroK zeroV key now1 now2 ;; ret (AValue r.1 r.2)
  | CLoadWithExpire key now1 now2 => r <- LoadWithExpire zeroK zeroV key now1 now2 ;; ret (ATimed r.1.1 r.1.2 r.2)
  | CExist key => b <- Exist key ;; ret (ABool b)
  | CStore key value now1 now2 => Store zeroK zeroV key value now1 now2 ;; ret AUnit
  | CStoreWithExpire key value expires now => StoreWithExpire zeroK zeroV key value expires now ;; ret AUnit
  | CLoadOrStore key value now1 now2 now3 =>
      r <- LoadOrStore zeroK zeroV key value now1 now2 now3 ;; ret (AValue r.1 r.2)
  | CLoadOrStoreWithAge key age value now1 now2 now3 =>
      r <- LoadOrStoreWithAge zeroK zeroV key age value now1 now2 now3 ;; ret (AValue r.1 r.2)
  | CDelete key => Delete zeroK zeroV key ;; ret AUnit
  | CClear => Clear zeroK zeroV ;; ret AUnit
  | CRange => r <- Range zeroK zeroV ;; ret (AItems r)
  end.
Fixpoint cache_runs (os : list cache_op) : GoM state (list cache_answer) :=
  match os with
  | [] => ret []
  | o :: os => r <- cache_run o ;; r' <- cache_runs os ;; ret (r :: r')
  end.

(** ** Representation *)

Definition ptr_of s e : addr := default 1%positive (Value (hp s.1) !! e).
Definition entry_of s e : entry := default (zeroEntry zeroK zeroV) (entries s.1 !! ptr_of s e).

Record CMaps s (w : gmap addr (list addr)) ns : Prop := {
  cm_rep : Rep (hp s.1) w;
  cm_lru : w !! lru s.2 = Some ns;
  cm_nodup : NoDup (ptr_of s <$> ns);
  cm_alloc : forall e, e ∈ ns -> is_Some (entries s.1 !! ptr_of s e);
  cm_cache : forall key e, cache s.2 !! key = Some e <-> e ∈ ns /\ e_key (entry_of s e) = key }.

Definition spec_of s ns : spec :=
  let c := s.2 in
  mkSpec (maxAge c) (maxSize c) (updateAgeOnGet c) (staleReturn c) (onEvict c) (entry_of s <$> ns) (evicted c).
Definition CSim s a : Prop := exists w ns, CMaps s w ns /\ a = spec_of s ns.

Lemma CMaps_unique s w ns y z : CMaps s w ns -> y ∈ ns -> z ∈ ns ->
  e_key (entry_of s y) = e_key (entry_of s z) -> y = z.
Proof.
  intros HM Hy Hz E. assert (Some y = Some z) as [= ->]; [|done].
  rewrite <- (proj2 (cm_cache _ _ _ HM (e_key (entry_of s y)) y)) by done. by apply (cm_cache _ _ _ HM).
Qed.

Lemma CMaps_find s w ns key : CMaps s w ns ->
  find_key key (entry_of s <$> ns) = entry_of s <$> (cache s.2 !! key).
Proof.
  intros HM. pose proof (cm_cache _ _ _ HM) as Hm. unfold find_key.
  assert (forall x, x ∈ filter (fun x => e_key x = key) (entry_of s <$> ns) ->
    exists e, x = entry_of s e /\ cache s.2 !! key = Some e) as Hin.
  { intros x (Hk & (e & -> & He)%list_elem_of_fmap)%list_elem_of_filter. exists e.
    split; [done|]. by apply Hm. }
  destruct (filter _ _) as [|x r] eqn:Ef; cbn.
  - destruct (cache s.2 !! key) as [e|] eqn:E; [|done]. exfalso. apply Hm in E as (He & Hk).
    assert (entry_of s e ∈ filter (fun x => e_key x = key) (entry_of s <$> ns)) as Hx.
    { apply list_elem_of_filter. split; [done|]. by apply list_elem_of_fmap_2. }
    rewrite Ef in Hx. by apply elem_of_nil in Hx.
  - destruct (Hin x ltac:(set_solver)) as (e & -> & ->). done.
Qed.

Lemma CMaps_split s w ns e : CMaps s w ns -> e ∈ ns -> exists pre post, ns = pre ++ e :: post
  /\ without e ns = pre ++ post /\ e ∉ pre ++ post
  /\ without_key (e_key (entry_of s e)) (entry_of s <$> ns) = entry_of s <$> pre ++ post.
Proof.
  intros HM He. destruct (split_in _ _ _ ns e (cm_rep _ _ _ HM) (cm_lru _ _ _ HM) He)
    as (pre & post & Hns & _ & Hw & Hpre & Hpost).
  exists pre, post. split_and!; [done|done|set_solver|].
  assert (forall y, y ∈ pre ++ post -> e_key (entry_of s y) <> e_key (entry_of s e)) as Hother.
  { intros y Hy Ek. assert (y = e) as ->; [|set_solver].
    apply (CMaps_unique s w ns y e HM); [set_solver|done|done]. }
  rewrite Hns, fmap_app, fmap_cons. unfold without_key. rewrite filter_app, filter_cons_False by tauto.
  rewrite <- filter_app, <- fmap_app, filter_every; [done|].
  intros x (y & -> & Hy)%list_elem_of_fmap. by apply Hother.
Qed.

(** Only the list, the cache map and the settings matter beyond what the lists say. *)
Lemma CMaps_change s s' w w' ns ns' :
  CMaps s w ns -> Rep (hp s'.1) w' -> w' !! lru s'.2 = Some ns' -> Value (hp s'.1) = Value (hp s.1) ->
  entries s'.1 = entries s.1 -> NoDup (ptr_of s <$> ns') -> (forall e, e ∈ ns' -> e ∈ ns) ->
  (forall key e, cache s'.2 !! key = Some e <-> e ∈ ns' /\ e_key (entry_of s e) = key) ->
  CMaps s' w' ns' /\ (forall e, entry_of s' e = entry_of s e) /\ (forall e, ptr_of s' e = ptr_of s e).
Proof.
  intros HM HR Hl HV He Hnd Hsub Hc.
  assert (forall e, ptr_of s' e = ptr_of s e) as Hp by (intros e; unfold ptr_of; by rewrite HV).
  assert (forall e, entry_of s' e = entry_of s e) as Hen by (intros e; unfold entry_of; by rewrite Hp, He).
  split_and!; [|done|done]. split.
  - done.
  - done.
  - rewrite (list_fmap_ext (ptr_of s') (ptr_of s) ns'); [done|]. intros ? e _. apply Hp.
  - intros e Hin. rewrite He, Hp. apply (cm_alloc _ _ _ HM). by apply Hsub.
  - intros key e. by rewrite Hen.
Qed.

Lemma on_list_bind {A B} (f : addr -> GoM (heap addr) A) (k : A -> GoM state B) s r h :
  f (lru s.2) (hp s.1) = Val (r, h) -> bind (on_list f) k s = k r (mkMem h (entries s.1), s.2).
Proof. intros E. unfold bind, on_list. by rewrite E. Qed.
Lemma get_Value_bind {B} (k : addr -> GoM state B) s e : bind (get_Value (Some e)) k s = k (ptr_of s e) s.
Proof. by destruct s as [[h es] c]. Qed.
Lemma get_entry_bind {B} (k : entry -> GoM state B) s e :
  bind (get_entry zeroK zeroV (ptr_of s e)) k s = k (entry_of s e) s.
Proof. done. Qed.
Lemma load_cache_bind {B} (k : ptr -> GoM state B) s key : bind (load_cache key) k s = k (cache s.2 !! key) s.
Proof. done. Qed.

(** *** Deleting an element *)
Lemma deleteElement_maps s w ns e : CMaps s w ns -> e ∈ ns -> exists s',
  deleteElement zeroK zeroV (Some e) s = Val (tt, s')
  /\ CMaps s' (<[lru s.2 := without e ns]> w) (without e ns)
  /\ spec_of s' (without e ns) = notify (entry_of s e)
       (with_items (without_key (e_key (entry_of s e)) (entry_of s <$> ns)) (spec_of s ns))
  /\ lru s'.2 = lru s.2 /\ list_ (hp s'.1) !! e = None
  /\ (forall y, ptr_of s' y = ptr_of s y) /\ entries s'.1 = entries s.1.
Proof.
  intros HM He. destruct (CMaps_split s w ns e HM He) as (pre & post & Hns & Hw & Hnin & Hwk).
  pose proof (cm_lru _ _ _ HM) as Hl. rewrite Hns in Hl.
  destruct (Remove_rep 1%positive (hp s.1) w (lru s.2) pre e post (cm_rep _ _ _ HM) Hl) as (h & E & HR & HV & Ho & Hu).
  set (c := s.2). set (x := entry_of s e) in *.
  set (s' := (mkMem h (entries s.1),
    mkLruCache (maxAge c) (maxSize c) (delete (e_key x) (cache c)) (lru c) (updateAgeOnGet c) (staleReturn c) (onEvict c)
      (if onEvict c then evicted c ++ [(e_key x, e_value x)] else evicted c))).
  destruct (CMaps_change s s' w (<[lru s.2 := without e ns]> w) ns (without e ns)) as (HM' & Hen & Hp); try done.
  - by rewrite Hw.
  - cbn. by rewrite lookup_insert_eq.
  - rewrite Hw. pose proof (cm_nodup _ _ _ HM) as Hnd. rewrite Hns, !fmap_app, fmap_cons in *.
    apply NoDup_app in Hnd as (? & ? & [? ?]%NoDup_cons). apply NoDup_app. set_solver.
  - rewrite Hw, Hns. set_solver.
  - intros key y. cbn. rewrite lookup_delete_Some. unfold c. rewrite (cm_cache _ _ _ HM). rewrite Hw. split.
    + intros (Hne & Hy & Hk). split; [|done]. assert (y <> e) by (intros ->; done). set_solver.
    + intros [Hy Hk]. split_and!; [|set_solver|done]. intros Ek. assert (y = e) as ->; [|done].
      apply (CMaps_unique s w ns y e HM); [set_solver|done|by rewrite Hk, <- Ek].
  - exists s'. split_and!; try done.
    + unfold deleteElement. rewrite (on_list_bind _ _ _ _ _ E).
      assert (ptr_of (mkMem h (entries s.1), s.2) e = ptr_of s e) as Hpe by (unfold ptr_of; cbn; by rewrite HV).
      assert (entry_of (mkMem h (entries s.1), s.2) e = x) as Hxe by (unfold entry_of; by rewrite Hpe).
      rewrite get_Value_bind, get_entry_bind, Hxe. unfold set_cache, call_onEvict. rewrite bind_modify.
      unfold modify, s', c. cbn. by destruct (onEvict s.2).
    + unfold spec_of, notify, with_items. cbn. f_equal. rewrite Hwk, Hw.
      apply list_fmap_ext. intros ? y _. apply Hen.
    + cbn. rewrite Ho. apply lookup_delete_eq.
Qed.

(** *** Using an entry *)

(** Overwriting the entry of an element with one of the same key. *)
Lemma set_entry_maps s w ns e x : CMaps s w ns -> e ∈ ns -> e_key x = e_key (entry_of s e) ->
  let s' := (mkMem (hp s.1) (<[ptr_of s e := x]> (entries s.1)), s.2) in
  CMaps s' w ns /\ forall y, y ∈ ns -> entry_of s' y = if decide (y = e) then x else entry_of s y.
Proof.
  intros HM He Hk s'.
  assert (forall y, y ∈ ns -> entry_of s' y = if decide (y = e) then x else entry_of s y) as Hen.
  { intros y Hy. unfold entry_of. change (ptr_of s' y) with (ptr_of s y). cbn. case_decide as Hye.
    - by rewrite Hye, lookup_insert_eq.
    - rewrite lookup_insert_ne; [done|]. intros Ep. apply Hye.
      pose proof (cm_nodup _ _ _ HM) as Hnd. apply list_elem_of_lookup in Hy as [i Hi], He as [j Hj].
      assert (i = j) as <-; [|congruence].
      eapply NoDup_lookup; [apply Hnd|by rewrite list_lookup_fmap, Hi|].
      rewrite list_lookup_fmap, Hj. cbn. by rewrite Ep. }
  split; [|done]. split; try apply HM.
  - intros y Hy. cbn. change (ptr_of s' y) with (ptr_of s y). rewrite lookup_insert_is_Some'. right.
    by apply (cm_alloc _ _ _ HM).
  - intros key y. change (cache s'.2) with (cache s.2). rewrite (cm_cache _ _ _ HM). split; intros [Hy Hky]; (split; [done|]); rewrite Hen in * by done;
      case_decide as Hye; try done; subst y; congruence.
Qed.

(** [MoveToBack], then reading the entry, then perhaps overwriting it. *)
Lemma touch_maps s w ns e x (act : addr -> entry -> GoM state unit) : CMaps s w ns -> e ∈ ns ->
  e_key x = e_key (entry_of s e) ->
  (forall s1, act (ptr_of s e) (entry_of s e) s1 = Val (tt, s1) /\ x = entry_of s e
    \/ act (ptr_of s e) (entry_of s e) s1 = Val (tt, (mkMem (hp s1.1) (<[ptr_of s e := x]> (entries s1.1)), s1.2))) ->
  exists s1 s', CMaps s' (<[lru s.2 := without e ns ++ [e]]> w) (without e ns ++ [e])
    /\ spec_of s' (without e ns ++ [e]) = refresh x (spec_of s ns)
    /\ entries s'.1 !! ptr_of s e = Some x
    /\ act (ptr_of s e) (entry_of s e) s1 = Val (tt, s')
    /\ forall B (k : addr -> entry -> GoM state B),
      bind (on_list (fun l => MoveToBack l (Some e))) (fun _ => bind (get_Value (Some e)) (fun p =>
        bind (get_entry zeroK zeroV p) (fun y => k p y))) s
      = k (ptr_of s e) (entry_of s e) s1.
Proof.
  intros HM He Hk Hact. destruct (CMaps_split s w ns e HM He) as (pre & post & Hns & Hw & Hnin & Hwk).
  pose proof (cm_lru _ _ _ HM) as Hl. rewrite Hns in Hl.
  destruct (MoveToBack_rep (hp s.1) w (lru s.2) pre e post (cm_rep _ _ _ HM) Hl) as (h & E & HR & HV & Ho & Hu).
  set (s1 := (mkMem h (entries s.1), s.2)). rewrite Hw.
  assert ((pre ++ post) ++ [e] ≡ₚ ns) as HP by (rewrite Hns; solve_Permutation).
  destruct (CMaps_change s s1 w (<[lru s.2 := (pre ++ post) ++ [e]]> w) ns ((pre ++ post) ++ [e])) as (HM1 & Hen & Hp); try done.
  - cbn. by rewrite lookup_insert_eq.
  - rewrite HP. apply (cm_nodup _ _ _ HM).
  - intros y. by rewrite HP.
  - intros key y. rewrite HP. apply (cm_cache _ _ _ HM).
  - assert (e ∈ (pre ++ post) ++ [e]) as He1 by set_solver.
    assert (forall y, y ∈ pre ++ post -> y <> e) as Hne by (intros y Hy ->; done).
    destruct (Hact s1) as [[Ha ->]|Ha].
    + exists s1, s1. split_and!; [done| | |done|].
      * unfold refresh, with_items, spec_of. cbn [sp_items]. rewrite Hwk. cbn. f_equal.
        rewrite fmap_app. cbn. rewrite Hen. f_equal. apply list_fmap_ext. intros ? y _. apply Hen.
      * destruct (cm_alloc _ _ _ HM e He) as [x Hx]. unfold entry_of. cbn. by rewrite Hx.
      * intros B k. rewrite (on_list_bind _ _ _ _ _ E), get_Value_bind, get_entry_bind. fold s1.
        by rewrite Hen, Hp.
    + destruct (set_entry_maps s1 _ _ e x HM1 He1) as [HM2 Hen2]; [by rewrite Hen|].
      rewrite Hp in HM2, Hen2. exists s1. eexists. split_and!; [exact HM2| | |exact Ha|].
      * unfold refresh, with_items, spec_of. cbn [sp_items]. rewrite Hk, Hwk. cbn. f_equal.
        rewrite fmap_app. cbn. rewrite Hen2, decide_True by done. f_equal.
        apply list_fmap_ext. intros ? y Hy%list_elem_of_lookup_2.
        rewrite Hen2 by set_solver. rewrite decide_False by auto. apply Hen.
      * cbn. by rewrite lookup_insert_eq.
      * intros B k. rewrite (on_list_bind _ _ _ _ _ E), get_Value_bind, get_entry_bind. fold s1.
        by rewrite Hen, Hp.
Qed.

(** A fresh entry does not disturb the others. *)
Lemma new_entry_maps s w ns x : let p := fresh (dom (entries s.1)) in CMaps s w ns ->
  let s' := (mkMem (hp s.1) (<[p := x]> (entries s.1)), s.2) in
  CMaps s' w ns /\ p ∉ ptr_of s <$> ns /\ forall y, y ∈ ns -> entry_of s' y = entry_of s y.
Proof.
  intros p HM s'. pose proof (is_fresh (dom (entries s.1))) as Hf%not_elem_of_dom. fold p in Hf.
  assert (forall y, y ∈ ns -> ptr_of s y <> p) as Hpn.
  { intros y Hy Ep. destruct (cm_alloc _ _ _ HM y Hy) as [z Hz]. congruence. }
  assert (forall y, y ∈ ns -> entry_of s' y = entry_of s y) as Hen.
  { intros y Hy. unfold entry_of. cbn. rewrite lookup_insert_ne; [done|]. intros Ep. by apply (Hpn y Hy). }
  split_and!; [|intros (y & Hp & Hy)%list_elem_of_fmap; by apply (Hpn y)|done].
  split; try apply HM.
  - intros y Hy. cbn. rewrite lookup_insert_is_Some'. right. by apply (cm_alloc _ _ _ HM).
  - intros key y. change (cache s'.2) with (cache s.2). rewrite (cm_cache _ _ _ HM).
    split; intros [Hy Hk]; (split; [done|]); by rewrite Hen in *.
Qed.

(** A pointer that is not in the list yet, with a key that is not in the cache. *)
Lemma push_ptr_maps s w ns p x : CMaps s w ns -> entries s.1 !! p = Some x -> p ∉ ptr_of s <$> ns ->
  cache s.2 !! e_key x = None -> let e := fresh (used (hp s.1)) in exists s',
  bind (on_list (fun l => PushBack l p)) (fun le => set_cache (partial_alter (fun _ => le) (e_key x))) s = Val (tt, s')
  /\ CMaps s' (<[lru s.2 := ns ++ [e]]> w) (ns ++ [e]) /\ entry_of s' <$> ns ++ [e] = (entry_of s <$> ns) ++ [x]
  /\ spec_of s' (ns ++ [e]) = refresh x (spec_of s ns)
  /\ entries s'.1 = entries s.1 /\ Value (hp s'.1) = <[e := p]> (Value (hp s.1)) /\ lru s'.2 = lru s.2
  /\ ptr_of s' <$> ns ++ [e] = (ptr_of s <$> ns) ++ [p].
Proof.
  intros HM Hx Hpn Hk e.
  destruct (PushBack_rep (hp s.1) w (lru s.2) ns p (cm_rep _ _ _ HM) (cm_lru _ _ _ HM)) as (h & E & HR & HV & Ho & Hu).
  fold e in E, HR, HV, Ho, Hu. set (c := s.2).
  assert (e ∉ ns) as He.
  { intros Hin. apply (is_fresh (used (hp s.1))). fold e.
    destruct (il_used _ _ _ (rep_list _ _ (cm_rep _ _ _ HM) _ _ (cm_lru _ _ _ HM))) as [_ Hu']. by apply Hu'. }
  assert (forall y, y ∈ ns -> y <> e) as Hne by (intros y Hy ->; done).
  set (s' := (mkMem h (entries s.1),
    mkLruCache (maxAge c) (maxSize c) (<[e_key x := e]> (cache c)) (lru c) (updateAgeOnGet c) (staleReturn c) (onEvict c) (evicted c))).
  assert (forall y, ptr_of s' y = if decide (y = e) then p else ptr_of s y) as Hp.
  { intros y. unfold ptr_of. cbn. rewrite HV. case_decide; [subst; by rewrite lookup_insert_eq|].
    by rewrite lookup_insert_ne. }
  assert (forall y, entry_of s' y = if decide (y = e) then x else entry_of s y) as Hen.
  { intros y. unfold entry_of. rewrite Hp. case_decide; [cbn; by rewrite Hx|done]. }
  assert (ptr_of s' <$> ns ++ [e] = (ptr_of s <$> ns) ++ [p]) as Hptr.
  { rewrite fmap_app. cbn. rewrite Hp, decide_True by done. f_equal. apply list_fmap_ext.
    intros ? y Hy%list_elem_of_lookup_2. by rewrite Hp, decide_False by auto. }
  assert (entry_of s' <$> ns ++ [e] = (entry_of s <$> ns) ++ [x]) as Hitems.
  { rewrite fmap_app. cbn. rewrite Hen, decide_True by done. f_equal. apply list_fmap_ext.
    intros ? y Hy%list_elem_of_lookup_2. by rewrite Hen, decide_False by auto. }
  exists s'. split_and!; try done.
  - by rewrite (on_list_bind _ _ _ _ _ E).
  - split; [done| | | |].
    + cbn. by rewrite lookup_insert_eq.
    + rewrite Hptr. apply NoDup_app. split_and!; [apply HM| |apply NoDup_singleton]. set_solver.
    + intros y Hy. rewrite Hp. cbn. case_decide; [by eexists|]. apply (cm_alloc _ _ _ HM). set_solver.
    + intros key y. cbn. unfold c. rewrite lookup_insert_Some, (cm_cache _ _ _ HM), elem_of_app, list_elem_of_singleton, Hen.
      split.
      * intros [[<- <-]|(Hkey & Hy & Hky)]; [by rewrite decide_True; auto|]. rewrite decide_False by auto. auto.
      * intros [Hy Hky]. case_decide as Hye; [auto|]. right. destruct Hy as [Hy|]; [|done].
        split_and!; [|done|done]. intros <-. by rewrite (proj2 (cm_cache _ _ _ HM _ y)) in Hk.
  - unfold refresh, with_items, spec_of. cbn. f_equal. rewrite Hitems. f_equal. unfold without_key. rewrite filter_every; [done|].
    intros z (y & -> & Hy)%list_elem_of_fmap Ek. by rewrite (proj2 (cm_cache _ _ _ HM _ y)) in Hk.
Qed.

(** A new entry at the back. *)
Lemma push_maps s w ns x : CMaps s w ns -> cache s.2 !! e_key x = None -> exists s' w' ns',
  bind (new_entry x) (fun p => bind (on_list (fun l => PushBack l p)) (fun le => set_cache (partial_alter (fun _ => le) (e_key x)))) s
    = Val (tt, s')
  /\ CMaps s' w' ns' /\ spec_of s' ns' = refresh x (spec_of s ns).
Proof.
  intros HM Hk. destruct (new_entry_maps s w ns x HM) as (HM1 & Hpn & Hen). set (p := fresh (dom (entries s.1))) in *.
  set (s1 := (mkMem (hp s.1) (<[p := x]> (entries s.1)), s.2)) in *.
  destruct (push_ptr_maps s1 w ns p x HM1) as (s' & E & HM' & _ & Hs & _); [apply lookup_insert_eq|done|done|].
  eexists s', _, _. split_and!; [exact E|exact HM'|]. rewrite Hs. f_equal. unfold spec_of. cbn. f_equal.
  apply list_fmap_ext. intros ? y Hy%list_elem_of_lookup_2. by apply Hen.
Qed.

(** *** Evicting *)

Lemma Front_bind {B} (k : ptr -> GoM state B) s w ns : CMaps s w ns -> bind (on_list Front) k s = k (head ns) s.
Proof.
  intros HM. rewrite (on_list_bind _ _ _ _ _ (Front_rep _ _ _ _ (cm_rep _ _ _ HM) (cm_lru _ _ _ HM))).
  by destruct s as [[h es] c].
Qed.
Lemma Len_bind {B} (k : Z -> GoM state B) s w ns : CMaps s w ns -> bind (on_list Len) k s = k (zlen ns) s.
Proof.
  intros HM. rewrite (on_list_bind _ _ _ _ _ (Len_rep _ _ _ _ (cm_rep _ _ _ HM) (cm_lru _ _ _ HM))).
  by destruct s as [[h es] c].
Qed.

Lemma drop_maps s w e post : CMaps s w (e :: post) -> exists s' w',
  deleteElement zeroK zeroV (Some e) s = Val (tt, s') /\ CMaps s' w' post
  /\ spec_of s' post = drop_oldest (spec_of s (e :: post)) /\ list_ (hp s'.1) !! e = None.
Proof.
  intros HM. destruct (deleteElement_maps s w _ e HM) as (s' & E & HM' & Hs & _ & Hn & _); [set_solver|].
  destruct (CMaps_split s w _ e HM) as (pre & post' & Hns & Hw & Hnin & Hwk); [set_solver|].
  assert (pre = [] /\ post' = post) as [-> ->].
  { destruct pre as [|y pre]; cbn in Hns; injection Hns as ->; [done|]. set_solver. }
  cbn [app] in *. rewrite Hw in *. exists s'. eexists. split_and!; [done|done| |done].
  rewrite Hs, Hwk. done.
Qed.

Lemma delete_expired_maps fuel now : forall s w ns, CMaps s w ns -> (length ns <= fuel)%nat -> exists s' w' ns',
  delete_expired zeroK zeroV fuel now (head ns) s = Val (tt, s') /\ CMaps s' w' ns'
  /\ spec_of s' ns' = drop_expired (length ns) now (spec_of s ns).
Proof.
  induction fuel as [|fuel IH]; intros s w ns HM Hf.
  - destruct ns; [|cbn in Hf; lia]. by exists s, w, [].
  - destruct ns as [|e post]; [by exists s, w, []|].
    destruct (drop_maps s w e post HM) as (s1 & w1 & E1 & HM1 & Hs1 & _).
    cbn [head delete_expired length drop_expired]. rewrite get_Value_bind, get_entry_bind.
    cbn [spec_of sp_items fmap list_fmap]. case_decide as Hexp; [|by exists s, w, (e :: post)].
    destruct (IH s1 w1 post HM1) as (s2 & w2 & ns2 & E2 & HM2 & Hs2); [cbn in Hf; lia|].
    exists s2, w2, ns2. split_and!; [|done|by rewrite Hs2, Hs1].
    by rewrite (bind_run _ _ _ _ _ E1), (Front_bind _ _ _ _ HM1).
Qed.

Lemma drop_expired_maxSize n now : forall a, sp_maxSize (drop_expired n now a) = sp_maxSize a.
Proof.
  induction n as [|n IH]; intros a; cbn; [done|]. destruct (sp_items a) as [|x r] eqn:Ei; [done|].
  case_decide; [|done]. rewrite IH. unfold drop_oldest. by rewrite Ei.
Qed.

Lemma trim_maps s w ns now : CMaps s w ns -> exists s' w' ns',
  maybeDeleteOldest zeroK zeroV now s = Val (tt, s') /\ CMaps s' w' ns' /\ spec_of s' ns' = trim now (spec_of s ns).
Proof.
  intros HM. unfold maybeDeleteOldest, trim. rewrite bind_gets.
  cbn [sp_stale sp_maxAge sp_maxSize spec_of sp_items].
  assert (exists s1 w1 ns1, (if negb (staleReturn s.2) && bool_decide (maxAge s.2 > 0)
      then bind (on_list Len) (fun n => bind (on_list Front) (fun le => delete_expired zeroK zeroV (Z.to_nat n) now le))
      else ret tt) s = Val (tt, s1) /\ CMaps s1 w1 ns1
    /\ spec_of s1 ns1 = (if negb (staleReturn s.2) && bool_decide (maxAge s.2 > 0)
         then drop_expired (length (entry_of s <$> ns)) now (spec_of s ns) else spec_of s ns)) as (s1 & w1 & ns1 & E1 & HM1 & Hs1).
  { destruct (negb _ && _); [|by exists s, w, ns].
    rewrite (Len_bind _ _ _ _ HM), (Front_bind _ _ _ _ HM), length_fmap. unfold zlen. rewrite Nat2Z.id.
    by apply (delete_expired_maps _ now s w ns HM). }
  rewrite (bind_run _ _ _ _ _ E1). fold (spec_of s ns). rewrite <- Hs1.
  assert (maxSize s1.2 = maxSize s.2) as Hsize.
  { change (maxSize s1.2) with (sp_maxSize (spec_of s1 ns1)). rewrite Hs1. destruct (_ && _); [by rewrite drop_expired_maxSize|done]. }
  cbn [spec_of sp_maxSize sp_items]. unfold zlen. rewrite length_fmap. fold (zlen ns1). rewrite Hsize.
  destruct (decide (maxSize s.2 > 0)) as [H1|H1].
  - rewrite (Len_bind _ _ _ _ HM1). destruct (decide (zlen ns1 > maxSize s.2)) as [H2|H2].
    + rewrite decide_True by done. rewrite (Front_bind _ _ _ _ HM1). destruct ns1 as [|e post].
      { change (zlen (@nil addr)) with 0 in H2. lia. }
      destruct (drop_maps s1 w1 e post HM1) as (s2 & w2 & E2 & HM2 & Hs2 & _). by exists s2, w2, post.
    + rewrite decide_False by tauto. by exists s1, w1, ns1.
  - rewrite decide_False by tauto. by exists s1, w1, ns1.
Qed.

(** ** The methods *)

Definition c_refines {A} (m : GoM state A) s (r : A) a : Prop := exists s', m s = Val (r, s') /\ CSim s' a.
Lemma c_refines_bind {A B} (m : GoM state A) (k : A -> GoM state B) s r a r' a' :
  c_refines m s r a -> (forall s', CSim s' a -> c_refines (k r) s' r' a') -> c_refines (bind m k) s r' a'.
Proof. intros (s' & E & HS) Hk. destruct (Hk s' HS) as (s2 & E2 & HS2). exists s2. by rewrite (bind_run _ _ _ _ _ E). Qed.
Lemma c_refines_ret {A} s (r : A) a : CSim s a -> c_refines (ret r) s r a.
Proof. intros HS. by exists s. Qed.

Lemma trim_refines s a now : CSim s a -> c_refines (maybeDeleteOldest zeroK zeroV now) s tt (trim now a).
Proof.
  intros (w & ns & HM & ->). destruct (trim_maps s w ns now HM) as (s' & w' & ns' & E & HM' & Hs).
  exists s'. split; [done|]. by exists w', ns'.
Qed.

Lemma delete_refines s w ns key e : CMaps s w ns -> cache s.2 !! key = Some e ->
  c_refines (deleteElement zeroK zeroV (Some e)) s tt (delete_key key (spec_of s ns)).
Proof.
  intros HM Hk. pose proof Hk as [He Hkey]%(cm_cache _ _ _ HM).
  destruct (deleteElement_maps s w ns e HM He) as (s' & E & HM' & Hs & _). exists s'. split; [done|].
  eexists _, _. split; [done|]. rewrite Hs. unfold delete_key. cbn [sp_items spec_of].
  rewrite (CMaps_find s w ns key HM), Hk. cbn. by rewrite Hkey.
Qed.

Lemma get_refines s a key now1 now2 : CSim s a -> exists s', CSim s' (spec_get key now1 now2 a).2
  /\ match (spec_get key now1 now2 a).1 with
     | None => get zeroK zeroV key now1 now2 s = Val (None, s')
     | Some x => exists p, get zeroK zeroV key now1 now2 s = Val (Some p, s') /\ entries s'.1 !! p = Some x
     end.
Proof.
  intros (w & ns & HM & ->). unfold get, spec_get. rewrite bind_gets, load_cache_bind.
  cbn [sp_items spec_of sp_stale sp_maxAge]. rewrite (CMaps_find s w ns key HM).
  destruct (cache s.2 !! key) as [e|] eqn:Hk; cbn [fmap option_fmap option_map]; [|exists s; split; [by exists w, ns|done]].
  rewrite get_Value_bind, get_entry_bind. pose proof Hk as [He Hkey]%(cm_cache _ _ _ HM).
  case_decide as Hexp; cbn [fst snd].
  - destruct (delete_refines s w ns key e HM Hk) as (s1 & E1 & HS1).
    destruct (trim_refines s1 _ now2 HS1) as (s2 & E2 & HS2). exists s2. split; [done|].
    by rewrite (bind_run _ _ _ _ _ E1), (bind_run _ _ _ _ _ E2).
  - destruct (touch_maps s w ns e (aged (entry_of s e) (maxAge s.2) now2 (spec_of s ns))
      (fun p y => if decide (maxAge s.2 > 0 /\ updateAgeOnGet s.2 = true)
        then set_entry p (mkEntry (e_key y) (e_value y) (i64 (now2 + maxAge s.2))) else ret tt) HM He)
      as (s0 & s1 & HM1 & Hs1 & Hx & Hact & Hrun).
    + unfold aged. by case_decide.
    + intros s1. unfold aged. cbn [sp_maxAge sp_update spec_of]. case_decide; [by right|by left].
    + exists s1. split; [eexists _, _; split; [exact HM1|by rewrite Hs1]|]. exists (ptr_of s e).
      split; [|done]. by rewrite Hrun, (bind_run _ _ _ _ _ Hact).
Qed.

(** Overwriting the entry of a known key, or pushing a new one. *)
Lemma put_refines s a key value expires new_expires : CSim s a ->
  c_refines (put zeroK zeroV key value expires new_expires) s tt
    (refresh (mkEntry key value (match find_key key (sp_items a) with Some _ => expires | None => new_expires end)) a).
Proof.
  intros (w & ns & HM & ->). unfold put, c_refines. rewrite load_cache_bind. cbn [sp_items spec_of].
  rewrite (CMaps_find s w ns key HM).
  destruct (cache s.2 !! key) as [e|] eqn:Hk; cbn [fmap option_fmap option_map].
  - pose proof Hk as [He Hkey]%(cm_cache _ _ _ HM).
    destruct (touch_maps s w ns e (mkEntry key value expires)
      (fun p y => set_entry p (mkEntry (e_key y) value expires)) HM He) as (s0 & s1 & HM1 & Hs1 & _ & Hact & Hrun).
    + by rewrite Hkey.
    + intros s1. right. by rewrite Hkey.
    + exists s1. split; [by rewrite Hrun|]. eexists _, _. split; [exact HM1|by rewrite Hs1].
  - destruct (push_maps s w ns (mkEntry key value new_expires) HM Hk) as (s1 & w1 & ns1 & E & HM1 & Hs1).
    exists s1. split; [done|]. by exists w1, ns1.
Qed.

Lemma cache_store_refines s a key value expires now : CSim s a ->
  c_refines (StoreWithExpire zeroK zeroV key value expires now) s tt (spec_store key value expires now a).
Proof.
  intros HS. unfold StoreWithExpire, spec_store. eapply c_refines_bind; [by apply put_refines|].
  intros s' HS'. by destruct (find_key key (sp_items a)); apply trim_refines.
Qed.

(** What the shared code of LoadOrStore and LoadOrStoreWithAge does after a miss. *)
Lemma create_refines s a key value (e1 e2 : Z) now : CSim s a -> find_key key (sp_items a) = None ->
  c_refines (bind (put zeroK zeroV key value e1 e2) (fun _ => bind (maybeDeleteOldest zeroK zeroV now)
    (fun _ => ret (value, false)))) s (value, false) (spec_store key value e2 now a).
Proof.
  intros HS Hf. eapply c_refines_bind; [by apply put_refines|]. rewrite Hf. intros s1 HS1.
  eapply c_refines_bind; [by apply trim_refines|]. intros s2 HS2. by apply c_refines_ret.
Qed.

Lemma find_without key (items : list entry) : find_key key (without_key key items) = None.
Proof.
  unfold find_key, without_key. rewrite list_filter_filter. rewrite filter_none; [done|]. intros x _. naive_solver.
Qed.

Lemma delete_find key a : find_key key (sp_items (delete_key key a)) = None.
Proof.
  unfold delete_key. destruct (find_key key (sp_items a)) eqn:E; [|done]. cbn. apply find_without.
Qed.

Lemma load_or_store_refines s a key value age now1 now2 now3 : CSim s a ->
  let r := spec_load_or_store key value (age s.2) now1 now2 now3 a in
  c_refines (load_or_store zeroK zeroV key value age now1 now2 now3) s r.1 r.2.
Proof.
  intros (w & ns & HM & ->) r. unfold r, load_or_store, spec_load_or_store. clear r.
  pose proof (CMaps_find s w ns key HM) as Hf. cbn [sp_items spec_of sp_maxAge].
  assert (CSim s (spec_of s ns)) as HS by (by exists w, ns).
  unfold c_refines. rewrite bind_gets, load_cache_bind, Hf.
  destruct (cache s.2 !! key) as [e|] eqn:Hk; cbn [fmap option_fmap option_map] in *.
  - rewrite get_Value_bind, get_entry_bind. pose proof Hk as [He Hkey]%(cm_cache _ _ _ HM).
    destruct (decide (maxAge s.2 > 0 /\ e_expires (entry_of s e) <= now1)) as [Hexp|Hexp]; cbn [fst snd].
    + apply (c_refines_bind (deleteElement zeroK zeroV (Some e)) _ s tt (delete_key key (spec_of s ns)));
        [by apply (delete_refines s w ns key e)|].
      intros s1 HS1. apply create_refines; [done|apply delete_find].
    + destruct (touch_maps s w ns e (aged (entry_of s e) (age s.2) now2 (spec_of s ns))
        (fun p y => if decide (maxAge s.2 > 0 /\ updateAgeOnGet s.2 = true)
          then set_entry p (mkEntry (e_key y) (e_value y) (i64 (now2 + age s.2))) else ret tt) HM He)
        as (s0 & s1 & HM1 & Hs1 & Hx & Hact & Hrun).
      * unfold aged. by case_decide.
      * intros s1. unfold aged. cbn [sp_maxAge sp_update spec_of]. case_decide; [by right|by left].
      * exists s1. split; [by rewrite Hrun, (bind_run _ _ _ _ _ Hact)|].
        eexists _, _. split; [exact HM1|by rewrite Hs1].
  - cbn [fst snd]. by apply create_refines.
Qed.

Lemma entries_of_run ps s : entries_of zeroK zeroV ps s
  = Val ((fun p => default (zeroEntry zeroK zeroV) (entries s.1 !! p)) <$> ps, s).
Proof.
  induction ps as [|p ps IH]; [done|]. cbn [entries_of]. unfold get_entry. rewrite bind_gets.
  by rewrite (bind_run _ _ _ _ _ IH).
Qed.

Lemma Range_refines s a : CSim s a ->
  c_refines (Range zeroK zeroV) s ((fun x => (e_key x, e_value x)) <$> sp_items a) a.
Proof.
  intros (w & ns & HM & ->). exists s. split; [|by exists w, ns]. unfold Range.
  rewrite (on_list_bind _ _ _ _ _ (values_rep 1%positive _ _ _ _ (cm_rep _ _ _ HM) (cm_lru _ _ _ HM))).
  rewrite (bind_run _ _ _ _ _ (entries_of_run _ _)). cbn [spec_of sp_items].
  destruct s as [[h es] c]. cbn. by rewrite <- !list_fmap_compose.
Qed.

Lemma Clear_refines s a : CSim s a -> c_refines (Clear zeroK zeroV) s tt (drop_oldest a).
Proof.
  intros (w & ns & HM & ->). unfold Clear, c_refines. rewrite (Len_bind _ _ _ _ HM), (Front_bind _ _ _ _ HM).
  destruct ns as [|e post]; [exists s; split; [done|by exists w, []]|].
  destruct (drop_maps s w e post HM) as (s1 & w1 & E1 & HM1 & Hs1 & Hn).
  exists s1. split; [|by exists w1, post]. unfold zlen. rewrite Nat2Z.id. cbn [length head clear_loop].
  rewrite (bind_run _ _ _ _ _ E1). rewrite (on_list_bind (fun _ => Next (Some e)) _ s1 None (hp s1.1)).
  - destruct s1 as [[h1 es1] c1]. by destruct (length post).
  - unfold Next. by rewrite run_get_next, run_get_list, Hn.
Qed.

Lemma Delete_refines s a key : CSim s a -> c_refines (Delete zeroK zeroV key) s tt (delete_key key a).
Proof.
  intros (w & ns & HM & ->). unfold Delete, c_refines. rewrite load_cache_bind.
  destruct (cache s.2 !! key) as [e|] eqn:Hk; [by apply (delete_refines s w)|].
  exists s. split; [done|]. exists w, ns. split; [done|]. unfold delete_key. cbn [spec_of sp_items].
  by rewrite (CMaps_find s w ns key HM), Hk.
Qed.

Lemma c_refines_map {A B} (m : GoM state A) (f : A -> B) s (r : A) a :
  c_refines m s r a -> c_refines (bind m (fun y => ret (f y))) s (f r) a.
Proof. intros (s' & E & HS). exists s'. by rewrite (bind_run _ _ _ _ _ E). Qed.

Lemma settings s a : CSim s a -> maxAge s.2 = sp_maxAge a.
Proof. by intros (w & ns & HM & ->). Qed.

Lemma Load_refines s a key now1 now2 : CSim s a ->
  c_refines (Load zeroK zeroV key now1 now2) s
    (match (spec_get key now1 now2 a).1 with Some x => (e_value x, true) | None => (zeroV, false) end)
    (spec_get key now1 now2 a).2
  /\ c_refines (LoadWithExpire zeroK zeroV key now1 now2) s
    (match (spec_get key now1 now2 a).1 with Some x => (e_value x, Some (e_expires x), true) | None => (zeroV, None, false) end)
    (spec_get key now1 now2 a).2.
Proof.
  intros HS. destruct (get_refines s a key now1 now2 HS) as (s' & HS' & Hg).
  unfold Load, LoadWithExpire. destruct (spec_get key now1 now2 a) as [[x|] a']; cbn [fst snd] in *.
  - destruct Hg as (p & E & Hx). split; exists s'; (split; [|done]); rewrite (bind_run _ _ _ _ _ E);
      unfold get_entry; rewrite bind_gets, Hx; done.
  - split; exists s'; (split; [|done]); by rewrite (bind_run _ _ _ _ _ Hg).
Qed.

Lemma cache_step_refines o s a : CSim s a ->
  c_refines (cache_run o) s (cache_step o a).1 (cache_step o a).2.
Proof.
  intros HS. pose proof (settings s a HS) as Hage. destruct o; cbn [cache_run cache_step].
  - pose proof (c_refines_map _ (fun r => AValue r.1 r.2) _ _ _ (proj1 (Load_refines s a key now1 now2 HS))) as HL.
    by destruct (spec_get key now1 now2 a) as [[x|] a'].
  - pose proof (c_refines_map _ (fun r => ATimed r.1.1 r.1.2 r.2) _ _ _ (proj2 (Load_refines s a key now1 now2 HS))) as HL.
    by destruct (spec_get key now1 now2 a) as [[x|] a'].
  - apply (c_refines_map _ ABool). destruct HS as (w & ns & HM & ->). exists s. split; [|by exists w, ns].
    unfold Exist. rewrite load_cache_bind. cbn [spec_of sp_items]. rewrite (CMaps_find s w ns key HM).
    unfold ret. do 2 f_equal. apply bool_decide_ext. symmetry. apply fmap_is_Some.
  - apply (c_refines_map _ (fun _ => AUnit) s tt). unfold Store, c_refines. rewrite bind_gets, Hage. by apply cache_store_refines.
  - by apply (c_refines_map _ (fun _ => AUnit) s tt), cache_store_refines.
  - pose proof (c_refines_map _ (fun r => AValue r.1 r.2) _ _ _
      (load_or_store_refines s a key value maxAge now1 now2 now3 HS)) as HL. rewrite Hage in HL.
    by destruct (spec_load_or_store _ _ _ _ _ _ _) as [[v b] a'].
  - pose proof (c_refines_map _ (fun r => AValue r.1 r.2) _ _ _
      (load_or_store_refines s a key value (fun c => if decide (age = 0) then maxAge c else age) now1 now2 now3 HS)) as HL.
    cbn beta in HL. rewrite Hage in HL.
    by destruct (spec_load_or_store _ _ _ _ _ _ _) as [[v b] a'].
  - by apply (c_refines_map _ (fun _ => AUnit) s tt), Delete_refines.
  - by apply (c_refines_map _ (fun _ => AUnit) s tt), Clear_refines.
  - by apply (c_refines_map _ AItems), Range_refines.
Qed.

Lemma cache_steps_refine os : forall s a, CSim s a -> c_refines (cache_runs os) s (cache_steps os a).1 (cache_steps os a).2.
Proof.
  induction os as [|o os IH]; intros s a HS; [by exists s|].
  destruct (cache_step_refines o s a HS) as (s1 & E1 & HS1). destruct (IH s1 _ HS1) as (s2 & E2 & HS2).
  cbn [cache_runs cache_steps]. destruct (cache_step o a) as [r a1]. cbn [fst snd] in *.
  destruct (cache_steps os a1) as [r' a2]. exists s2.
  by rewrite (bind_run _ _ _ _ _ E1), (bind_run _ _ _ _ _ E2).
Qed.
End LruCacheTheorems.
