(* ===== verification/LruCacheProps.v ===== *)
(** * The LRU cache on a linked list: the properties

    Runs of the methods on a new cache, Clear, the size bound and CloneTo. *)

From S2P Require Import Prelude LinkedList LinkedListSpec LinkedListTheorems LruCache LruCacheTheorems.

Section LruCacheProps.
Context {K V : Type} `{Countable K} (zeroK : K) (zeroV : V).
Local Notation entry := (entry K V).
Local Notation state := (mem K V * LruCache K V)%type.
Local Notation CSim := (CSim zeroK zeroV).
Local Notation CMaps := (CMaps zeroK zeroV).
Local Notation ptr_of := (ptr_of (K := K) (V := V)).
Local Notation entry_of := (entry_of zeroK zeroV).
Local Notation cache_runs := (cache_runs zeroK zeroV).
Local Notation cache_steps := (cache_steps zeroV).
Implicit Types (s : state) (m : mem K V) (c n : LruCache K V) (a : spec (K := K) (V := V)) (ns : list addr).

(** ** New *)

Inductive setting := SEvict | SUpdateAgeOnGet | SAge (age : Z) | SSize (size : Z) | SStale (stale : bool).
Definition option_of (o : setting) : Option (K := K) (V := V) :=
  match o with
  | SEvict => WithEvict
  | SUpdateAgeOnGet => WithUpdateAgeOnGet
  | SAge age => WithAge age
  | SSize size => WithSize size
  | SStale stale => WithStale stale
  end.
Definition set_spec a (o : setting) : spec (K := K) (V := V) :=
  match o with
  | SEvict => mkSpec (sp_maxAge a) (sp_maxSize a) (sp_update a) (sp_stale a) true (sp_items a) (sp_evicted a)
  | SUpdateAgeOnGet => mkSpec (sp_maxAge a) (sp_maxSize a) true (sp_stale a) (sp_notify a) (sp_items a) (sp_evicted a)
  | SAge age => mkSpec age (sp_maxSize a) (sp_update a) (sp_stale a) (sp_notify a) (sp_items a) (sp_evicted a)
  | SSize size => mkSpec (sp_maxAge a) size (sp_update a) (sp_stale a) (sp_notify a) (sp_items a) (sp_evicted a)
  | SStale stale => mkSpec (sp_maxAge a) (sp_maxSize a) (sp_update a) stale (sp_notify a) (sp_items a) (sp_evicted a)
  end.
Definition new_spec (os : list setting) : spec (K := K) (V := V) :=
  fold_left set_spec os (mkSpec 0 0 false false false [] []).

Lemma options_maps os : forall m c w, CMaps (m, c) w [] ->
  let c' := fold_left (fun lc option => option lc) (option_of <$> os) c in
  CMaps (m, c') w [] /\ lru c' = lru c
  /\ spec_of zeroK zeroV (m, c') [] = fold_left set_spec os (spec_of zeroK zeroV (m, c) []).
Proof.
  induction os as [|o os IH]; intros m c w HM; [done|]. cbn.
  destruct (IH m (option_of o c) w) as (H1 & H2 & H3).
  - destruct HM. destruct o; by split.
  - split_and!; [done| |].
    + rewrite H2. by destruct o.
    + rewrite H3. f_equal. by destruct o.
Qed.

(** A new cache, next to the lists that are in memory already. *)
Lemma New_maps os m w : Rep (hp m) w -> let l := fresh (used (hp m)) in exists s,
  New (option_of <$> os) m = Val s /\ w !! l = None /\ CMaps s (<[l := []]> w) [] /\ lru s.2 = l
  /\ spec_of zeroK zeroV s [] = new_spec os /\ entries s.1 = entries m /\ Value (hp s.1) = Value (hp m).
Proof.
  intros HR l. pose proof (is_fresh (used (hp m))) as Hf. fold l in Hf.
  destruct (rep_fresh _ _ HR l Hf) as (H1 & H2 & H3 & H4).
  assert (w !! l = None) as Hl.
  { destruct (w !! l) as [ns|] eqn:E; [|done]. by destruct (il_used _ _ _ (rep_list _ _ HR _ _ E)) as [? _]. }
  set (h := mkHeap (next (hp m)) (prev (hp m)) (list_ (hp m)) (Value (hp m)) (len (hp m)) ({[l]} ∪ used (hp m))).
  assert (Rep h (<[l := []]> w)) as HR'.
  { split; cbn.
    - intros l' ns [(<- & <-)|(Hne & E)]%lookup_insert_Some.
      + split; cbn; [by right|by intros e ?%elem_of_nil|done|by rewrite H4|].
        split; [set_solver|by intros e ?%elem_of_nil].
      + destruct (rep_list _ _ HR _ _ E) as [? ? ? ? [? ?]]. split; cbn; [done..|]. set_solver.
    - intros b Hb. apply (rep_fresh _ _ HR). set_solver. }
  destruct (options_maps os (mkMem h (entries m)) (mkLruCache 0 0 ∅ l false false false []) (<[l := []]> w))
    as (HM & Hlru & Hs).
  - split; cbn; [done|by rewrite lookup_insert_eq|apply NoDup_nil_2|by intros e ?%elem_of_nil|].
    intros key e. rewrite lookup_empty. set_solver.
  - eexists. split; [unfold New, new_object; cbn; reflexivity|]. split_and!; [done|exact HM|done|exact Hs|done|done].
Qed.

Lemma New_sim os (h : heap addr) : Rep h ∅ -> exists s,
  New (option_of <$> os) (mkMem h ∅) = Val s /\ CSim s (new_spec os).
Proof.
  intros HR. destruct (New_maps os (mkMem h ∅) ∅ HR) as (s & E & _ & HM & _ & Hs & _).
  exists s. split; [done|]. eexists _, _. by split.
Qed.

(** ** The size bound and Clear *)

Lemma cache_steps_app ops ops' a :
  cache_steps (ops ++ ops') a = let (r, a1) := cache_steps ops a in let (r', a2) := cache_steps ops' a1 in (r ++ r', a2).
Proof.
  revert a. induction ops as [|o ops IH]; intros a; cbn; [by destruct (cache_steps ops' a)|].
  destruct (cache_step zeroV o a) as [r a1]. rewrite IH. destruct (cache_steps ops a1) as [r1 a2].
  by destruct (cache_steps ops' a2).
Qed.

(** Clear removes the least recently used entry and nothing else. *)
Theorem lrucache_clear os (ops : list cache_op) (h : heap addr) : Rep h ∅ -> exists s0 s answers items,
  New (option_of <$> os) (mkMem h ∅) = Val s0
  /\ cache_runs (ops ++ [CRange; CClear; CRange]) s0
     = Val (answers ++ [AItems items; AUnit; AItems (tail items)], s)
  /\ answers = (cache_steps ops (new_spec os)).1.
Proof.
  intros HR. destruct (New_sim os h HR) as (s0 & E & HS).
  destruct (cache_steps_refine zeroK zeroV (ops ++ [CRange; CClear; CRange]) s0 _ HS) as (s & E' & _).
  rewrite cache_steps_app in E'. destruct (cache_steps ops (new_spec os)) as [r a]. exists s0, s, r.
  eexists. split; [done|]. split; [|done]. rewrite E'. cbn. do 4 f_equal. unfold drop_oldest.
  destruct (sp_items a) as [|x r0] eqn:Ei; [by rewrite Ei|done].
Qed.

(** *** The number of entries *)

Definition bounded a : Prop := sp_maxSize a > 0 -> zlen (sp_items a) <= sp_maxSize a.

Lemma drop_expired_items k now : forall a, zlen (sp_items (drop_expired k now a)) <= zlen (sp_items a).
Proof.
  induction k as [|k IH]; intros a; cbn; [lia|]. destruct (sp_items a) as [|x r] eqn:Ei; [by rewrite Ei|].
  case_decide; [|rewrite Ei; lia]. etransitivity; [apply IH|]. unfold drop_oldest. rewrite Ei. cbn.
  rewrite zlen_cons. lia.
Qed.

Lemma trim_bounded now a : zlen (sp_items a) <= sp_maxSize a + 1 -> bounded (trim now a).
Proof.
  intros Hlen. unfold trim. set (a1 := if _ && _ then _ else a).
  assert (zlen (sp_items a1) <= zlen (sp_items a) /\ sp_maxSize a1 = sp_maxSize a) as [H1 H2].
  { unfold a1. destruct (_ && _); [|lia]. split; [apply drop_expired_items|apply drop_expired_maxSize]. }
  clearbody a1. case_decide as Hc; intros Hpos.
  - unfold drop_oldest in *. destruct (sp_items a1) as [|x r] eqn:Ei.
    + rewrite Ei, zlen_nil. lia.
    + rewrite ?Ei, ?zlen_cons in Hc. rewrite ?Ei, ?zlen_cons in H1.
      cbn [notify with_items sp_items sp_maxSize] in *. lia.
  - destruct (decide (zlen (sp_items a1) > sp_maxSize a1)); [exfalso; tauto|lia].
Qed.

Lemma zlen_filter {A} (P : A -> Prop) `{!forall x, Decision (P x)} (l : list A) : zlen (filter P l) <= zlen l.
Proof. unfold zlen. pose proof (length_filter P l). lia. Qed.

Lemma delete_key_bounds key a : zlen (sp_items (delete_key key a)) <= zlen (sp_items a)
  /\ sp_maxSize (delete_key key a) = sp_maxSize a.
Proof.
  unfold delete_key. destruct (find_key key (sp_items a)); [|split; [lia|done]]. split; [|done]. apply zlen_filter.
Qed.

(** An entry that is used again takes the place it had. *)
Lemma refresh_length a (x y : entry) : find_key (e_key x) (sp_items a) = Some y ->
  zlen (sp_items (refresh x a)) <= zlen (sp_items a).
Proof.
  intros Hf. unfold refresh, with_items. cbn. rewrite zlen_app, zlen_cons, zlen_nil. unfold find_key in Hf.
  unfold without_key. generalize (sp_items a) Hf. clear Hf. intros items. induction items as [|z items IH]; [done|].
  destruct (decide (e_key z = e_key x)) as [Ez|Ez].
  - intros _. rewrite filter_cons_False by tauto. rewrite zlen_cons. pose proof (zlen_filter (fun w => e_key w <> e_key x) items). lia.
  - rewrite filter_cons_False, filter_cons_True by done. intros Hf%IH. rewrite !zlen_cons. lia.
Qed.

Lemma find_key_Some key (items : list entry) x : find_key key items = Some x -> e_key x = key.
Proof.
  unfold find_key. intros Hh. assert (x ∈ filter (fun x => e_key x = key) items) as [? _]%list_elem_of_filter; [|done].
  destruct (filter _ _); [done|]. injection Hh as ->. set_solver.
Qed.

Lemma store_bounded key value expires now a : (sp_maxSize a > 0 -> zlen (sp_items a) <= sp_maxSize a) ->
  bounded (spec_store key value expires now a).
Proof.
  intros Hb. unfold spec_store. destruct (decide (sp_maxSize a > 0)) as [Hpos|Hpos].
  - apply trim_bounded. unfold refresh, with_items. cbn. rewrite zlen_app, zlen_cons, zlen_nil. specialize (Hb Hpos).
    unfold without_key. pose proof (zlen_filter (fun w => e_key w <> key) (sp_items a)). lia.
  - assert (sp_maxSize (trim now (refresh (mkEntry key value expires) a)) = sp_maxSize a) as E; [|intros ?; lia].
    unfold trim. rewrite (decide_False (P := _ > 0 /\ _)).
    + destruct (_ && _); [by rewrite drop_expired_maxSize|done].
    + destruct (_ && _); rewrite ?drop_expired_maxSize; cbn; lia.
Qed.

Lemma step_bounded o a : bounded a -> bounded (cache_step zeroV o a).2.
Proof.
  intros Hb.
  assert (forall key now1 now2, bounded (spec_get key now1 now2 a).2) as Hget.
  { intros key now1 now2. unfold spec_get. destruct (find_key key (sp_items a)) as [x|] eqn:Ef; [|done].
    destruct (delete_key_bounds key a) as [H1 H2]. case_decide as Hd; cbn [snd].
    - destruct (decide (sp_maxSize a > 0)) as [Hpos|Hpos].
      + apply trim_bounded. specialize (Hb Hpos). lia.
      + intros Hp. exfalso. revert Hp. unfold trim. destruct (_ && _); rewrite decide_False;
          rewrite ?drop_expired_maxSize; cbn; lia.
    - intros Hpos. specialize (Hb Hpos). change (sp_maxSize (refresh _ a)) with (sp_maxSize a).
      etransitivity; [|exact Hb]. apply (refresh_length _ _ x). apply find_key_Some in Ef as Ek.
      unfold aged. case_decide; cbn [e_key]; by rewrite Ek. }
  assert (forall key value age now1 now2 now3, bounded (spec_load_or_store key value age now1 now2 now3 a).2) as Hlos.
  { intros key value age now1 now2 now3. unfold spec_load_or_store.
    destruct (find_key key (sp_items a)) as [x|] eqn:Ef; [|by apply store_bounded]. case_decide as Hd; cbn [snd].
    - apply store_bounded. destruct (delete_key_bounds key a) as [H1 ->]. intros Hpos. specialize (Hb Hpos). lia.
    - intros Hpos. specialize (Hb Hpos). change (sp_maxSize (refresh _ a)) with (sp_maxSize a).
      etransitivity; [|exact Hb]. apply (refresh_length _ _ x). apply find_key_Some in Ef as Ek.
      unfold aged. case_decide; cbn [e_key]; by rewrite Ek. }
  destruct o; cbn [cache_step].
  - specialize (Hget key now1 now2). by destruct (spec_get key now1 now2 a).
  - specialize (Hget key now1 now2). by destruct (spec_get key now1 now2 a).
  - done.
  - by apply store_bounded.
  - by apply store_bounded.
  - specialize (Hlos key value (sp_maxAge a) now1 now2 now3). by destruct (spec_load_or_store _ _ _ _ _ _ _) as [[? ?] ?].
  - specialize (Hlos key value (if decide (age = 0) then sp_maxAge a else age) now1 now2 now3).
    by destruct (spec_load_or_store _ _ _ _ _ _ _) as [[? ?] ?].
  - destruct (delete_key_bounds key a) as [H1 H2]. intros Hpos. cbn [snd] in *. rewrite H2 in *. specialize (Hb Hpos). lia.
  - intros Hpos. cbn [snd] in *. unfold drop_oldest in *. destruct (sp_items a) as [|x r] eqn:Ei; [by apply Hb|].
    cbn in *. specialize (Hb Hpos). rewrite Ei, zlen_cons in Hb. lia.
  - done.
Qed.

(** The list never holds more than maxSize entries. *)
Lemma lrucache_bounded (ops : list cache_op) a : bounded a -> bounded (cache_steps ops a).2.
Proof.
  revert a. induction ops as [|o ops IH]; intros a Hb; [done|]. cbn.
  pose proof (step_bounded o a Hb) as Hb'. destruct (cache_step zeroV o a) as [r a1]. cbn in Hb'.
  specialize (IH a1 Hb'). by destruct (cache_steps ops a1).
Qed.

Lemma options_items os : forall a, sp_items (fold_left set_spec os a) = sp_items a.
Proof. induction os as [|o os IH]; intros a; [done|]. cbn. rewrite IH. by destruct o. Qed.

Lemma new_bounded os : bounded (new_spec os).
Proof. unfold bounded, new_spec. rewrite options_items. intros Hpos. cbn [sp_items]. unfold zlen. cbn [length]. lia. Qed.

(** C24: every sequence of calls on a new cache with any options gives the answers
    of the list of entries from the least to the most recently used; no call
    panics or diverges, and a positive size bounds the number of entries. *)
Theorem lrucache_refines os (ops : list cache_op) (h : heap addr) : Rep h ∅ -> exists s0 s,
  New (option_of <$> os) (mkMem h ∅) = Val s0
  /\ cache_runs ops s0 = Val ((cache_steps ops (new_spec os)).1, s)
  /\ CSim s (cache_steps ops (new_spec os)).2 /\ bounded (cache_steps ops (new_spec os)).2.
Proof.
  intros HR. destruct (New_sim os h HR) as (s0 & E & HS).
  destruct (cache_steps_refine zeroK zeroV ops s0 _ HS) as (s & E' & HS'). exists s0, s.
  split_and!; [done|done|done|]. apply lrucache_bounded, new_bounded.
Qed.

(** ** CloneTo *)

(** What a change of another list keeps. *)
Lemma CMaps_frame m c w ns h' w' : CMaps (m, c) w ns -> Rep h' w' -> w' !! lru c = Some ns ->
  (forall e, e ∈ ns -> Value h' !! e = Value (hp m) !! e) -> CMaps (mkMem h' (entries m), c) w' ns.
Proof.
  intros HM HR Hl HV.
  assert (forall e, e ∈ ns -> ptr_of (mkMem h' (entries m), c) e = ptr_of (m, c) e) as Hp.
  { intros e He. unfold LruCacheTheorems.ptr_of. cbn. by rewrite HV. }
  split; [done|done| | |].
  - rewrite (list_fmap_ext _ (ptr_of (m, c)) ns); [apply HM|]. intros ? e He%list_elem_of_lookup_2. by apply Hp.
  - intros e He. rewrite Hp by done. cbn. by apply (cm_alloc _ _ _ _ _ HM).
  - intros key e. cbn. rewrite (cm_cache _ _ _ _ _ HM). split; intros [He Hk]; (split; [done|]);
      revert Hk; unfold LruCacheTheorems.entry_of; by rewrite Hp.
Qed.

Lemma spec_frame m c ns h' : (forall e, e ∈ ns -> Value h' !! e = Value (hp m) !! e) ->
  spec_of zeroK zeroV (mkMem h' (entries m), c) ns = spec_of zeroK zeroV (m, c) ns.
Proof.
  intros HV. unfold spec_of. cbn. f_equal. apply list_fmap_ext. intros ? e He%list_elem_of_lookup_2.
  unfold LruCacheTheorems.entry_of, LruCacheTheorems.ptr_of. cbn. by rewrite HV.
Qed.

Section Clone.
Context (c : LruCache K V) (nsc : list addr).

(** The cache [c] next to the cache of the state. *)
Record beside s w : Prop := { bs_maps : CMaps (s.1, c) w nsc; bs_apart : lru c <> lru s.2 }.

(** The entries behind the pointers [ps] have keys of their own. *)
Definition key_at s (p : addr) : K := e_key (default (zeroEntry zeroK zeroV) (entries s.1 !! p)).
Definition entry_at s (p : addr) : entry := default (zeroEntry zeroK zeroV) (entries s.1 !! p).

Lemma clone_loop_maps ps : forall s w ns, CMaps s w ns -> beside s w ->
  (forall p, p ∈ ps -> is_Some (entries s.1 !! p) /\ p ∉ ptr_of s <$> ns /\ cache s.2 !! key_at s p = None) ->
  NoDup ps -> NoDup (key_at s <$> ps) ->
  exists s' w' ns', clone_loop zeroK zeroV ps s = Val (tt, s') /\ CMaps s' w' ns' /\ beside s' w'
    /\ entries s'.1 = entries s.1 /\ (forall e, e ∈ nsc -> Value (hp s'.1) !! e = Value (hp s.1) !! e)
    /\ ptr_of s' <$> ns' = (ptr_of s <$> ns) ++ ps
    /\ spec_of zeroK zeroV s' ns' = with_items ((entry_of s <$> ns) ++ (entry_at s <$> ps)) (spec_of zeroK zeroV s ns).
Proof.
  induction ps as [|p ps IH]; intros s w ns HM HB Hps Hnd Hkeys.
  - exists s, w, ns. split_and!; [done|done|done|done|done|by rewrite app_nil_r|].
    unfold spec_of, with_items. cbn. by rewrite app_nil_r.
  - destruct HB as [HMc Hne]. destruct (Hps p) as ([x Hx] & Hpn & Hk); [set_solver|].
    unfold key_at in Hk. rewrite Hx in Hk. cbn in Hk.
    destruct (push_ptr_maps zeroK zeroV s w ns p x HM Hx Hpn Hk) as (s1 & E1 & HM1 & Hit1 & Hs1 & Hen1 & HV1 & Hl1 & Hp1).
    set (e := fresh (used (hp s.1))) in *.
    assert (e ∉ nsc) as Hec.
    { intros Hin. apply (is_fresh (used (hp s.1))). fold e.
      destruct (il_used _ _ _ (rep_list _ _ (cm_rep _ _ _ _ _ HMc) _ _ (cm_lru _ _ _ _ _ HMc))) as [_ Hu']. by apply Hu'. }
    assert (forall y, y ∈ nsc -> Value (hp s1.1) !! y = Value (hp s.1) !! y) as HVc.
    { intros y Hy. rewrite HV1, lookup_insert_ne; [done|]. by intros ->. }
    assert (beside s1 (<[lru s.2 := ns ++ [e]]> w)) as HB1.
    { split; [|by rewrite Hl1]. destruct s1 as [[h1 es1] c1]. cbn in *. subst es1.
      apply (CMaps_frame s.1 c w nsc h1); [done|apply HM1| |done].
      cbn. rewrite lookup_insert_ne by done. apply (cm_lru _ _ _ _ _ HMc). }
    apply NoDup_cons in Hnd as [Hpps Hnd]. cbn in Hkeys. apply NoDup_cons in Hkeys as [Hkps Hkeys].
    destruct (IH s1 _ _ HM1 HB1) as (s2 & w2 & ns2 & E2 & HM2 & HB2 & Hen2 & HV2 & Hp2 & Hs2).
    + intros q Hq. rewrite Hen1, Hp1. destruct (Hps q) as (Hal & Hqn & Hqk); [set_solver|]. split_and!; [done|set_solver|].
      destruct (cache s1.2 !! key_at s1 q) as [y|] eqn:Ey; [|done]. exfalso.
      apply (cm_cache _ _ _ _ _ HM1) in Ey as [Hy Hky].
      assert (entry_of s1 y ∈ entry_of s1 <$> ns ++ [e]) as Hin by by apply list_elem_of_fmap_2.
      rewrite Hit1, elem_of_app, list_elem_of_singleton in Hin. unfold key_at in Hky. rewrite Hen1 in Hky. destruct Hin as [Hin|Hin].
      * apply list_elem_of_fmap in Hin as (z & Hz & Hzin). rewrite Hz in Hky.
        unfold key_at in Hqk. by rewrite (proj2 (cm_cache _ _ _ _ _ HM _ z)) in Hqk.
      * rewrite Hin in Hky. apply Hkps. apply list_elem_of_fmap. exists q. split; [|done].
        unfold key_at. by rewrite Hx, <- Hky.
    + done.
    + rewrite (list_fmap_ext (key_at s1) (key_at s)); [done|]. intros ? q _. unfold key_at. by rewrite Hen1.
    + exists s2, w2, ns2. split_and!; [|done|done|congruence| | |].
      * cbn [clone_loop]. unfold get_entry. rewrite bind_gets, Hx. cbn [default]. change (id x) with x.
        destruct (bind_inv _ _ _ _ _ E1) as (le & sa & Ea & Eb). rewrite (bind_run _ _ _ _ _ Ea).
        by rewrite (bind_run _ _ _ _ _ Eb).
      * intros y Hy. by rewrite HV2, HVc.
      * by rewrite Hp2, Hp1, <- app_assoc.
      * rewrite Hs2, Hs1, Hit1. unfold refresh, with_items, spec_of. cbn. f_equal. rewrite <- app_assoc. cbn.
        unfold entry_at at 2. rewrite Hx. cbn. do 2 f_equal. apply list_fmap_ext. intros ? q _. unfold entry_at. by rewrite Hen1.
Qed.
End Clone.

Lemma clone_maps m c n w nsc nsn : CMaps (m, c) w nsc -> w !! lru n = Some nsn -> lru c <> lru n -> exists m' n' w' ns',
  CloneTo zeroK zeroV c (m, n) = Val (tt, (m', n'))
  /\ CMaps (m', n') w' ns' /\ CMaps (m', c) w' nsc
  /\ spec_of zeroK zeroV (m', c) nsc = spec_of zeroK zeroV (m, c) nsc
  /\ spec_of zeroK zeroV (m', n') ns' = with_items (entry_of (m, c) <$> nsc) (spec_of zeroK zeroV (m, n) ns')
  /\ ptr_of (m', n') <$> ns' = ptr_of (m', c) <$> nsc.
Proof.
  intros HMc Hn Hne.
  destruct (zero_list_rep (hp m) w (lru n) nsn (cm_rep _ _ _ _ _ HMc) Hn) as (h1 & E1 & HR1 & HV1 & _).
  set (w1 := <[lru n := []]> w) in *.
  set (n1 := mkLruCache (maxAge n) (maxSize n) ∅ (lru n) (updateAgeOnGet n) (staleReturn n) (onEvict n) (evicted n)).
  set (s1 := (mkMem h1 (entries m), n1)).
  assert (w1 !! lru c = Some nsc) as Hc1.
  { unfold w1. rewrite lookup_insert_ne by congruence. apply (cm_lru _ _ _ _ _ HMc). }
  assert (CMaps s1 w1 []) as HM1.
  { split; [done|by apply lookup_insert_eq|apply NoDup_nil_2|by intros e ?%elem_of_nil|].
    intros key e. cbn. rewrite lookup_empty. set_solver. }
  assert (CMaps (s1.1, c) w1 nsc) as HMc1 by (apply (CMaps_frame m c w nsc h1); [done|done|done|by rewrite HV1]).
  set (ps := ptr_of (s1.1, c) <$> nsc).
  assert (forall e, e ∈ nsc -> entry_at s1 (ptr_of (s1.1, c) e) = entry_of (m, c) e) as Hent.
  { intros e He. unfold entry_at, LruCacheTheorems.entry_of, LruCacheTheorems.ptr_of. cbn. by rewrite HV1. }
  pose proof (is_list_nodup _ _ _ (rep_list _ _ (cm_rep _ _ _ _ _ HMc) _ _ (cm_lru _ _ _ _ _ HMc))) as [_ Hndc]%NoDup_cons.
  destruct (clone_loop_maps c nsc ps s1 w1 [] HM1) as (s2 & w2 & ns2 & E2 & HM2 & HB2 & Hen2 & HV2 & Hp2 & Hs2).
  - by split.
  - intros p (e & -> & He)%list_elem_of_fmap. split_and!; [by apply (cm_alloc _ _ _ _ _ HMc1)|set_solver|done].
  - apply (cm_nodup _ _ _ _ _ HMc1).
  - unfold ps. rewrite <- list_fmap_compose. apply NoDup_fmap_2_strong; [|done]. intros y z Hy Hz Eyz.
    apply (CMaps_unique zeroK zeroV (m, c) w nsc y z HMc Hy Hz). rewrite <- !Hent by done. done.
  - destruct s2 as [m2 n2]. cbn [fst snd] in *. exists m2, n2, w2, ns2.
    assert (spec_of zeroK zeroV (m2, c) nsc = spec_of zeroK zeroV (m, c) nsc) as Hsc.
    { destruct m2 as [h2 es2]. cbn in Hen2. subst es2. apply (spec_frame m c nsc h2).
      intros e He. cbn in HV2. by rewrite HV2, HV1. }
    split_and!; [|done|apply (bs_maps _ _ _ _ HB2)|done| |].
    + unfold CloneTo. rewrite (on_list_bind _ _ (m, n) _ _ E1). unfold set_cache at 1. rewrite bind_modify.
      cbn [fst snd]. fold n1. fold s1.
      rewrite (on_list_bind (fun _ => values 1%positive (lru c)) _ s1 ps h1); [exact E2|].
      apply (values_rep 1%positive h1 w1 (lru c) nsc HR1 Hc1).
    + rewrite Hs2. unfold with_items, spec_of. cbn [sp_items sp_maxAge sp_maxSize sp_update sp_stale sp_notify sp_evicted fst snd].
      cbn [fmap list_fmap app]. f_equal. unfold ps. rewrite <- list_fmap_compose. apply list_fmap_ext.
      intros ? e He%list_elem_of_lookup_2. by apply Hent.
    + rewrite Hp2. cbn [fmap list_fmap app]. unfold ps. apply list_fmap_ext. intros ? e He%list_elem_of_lookup_2.
      unfold LruCacheTheorems.ptr_of. cbn. by rewrite HV2.
Qed.

(** Two lists of elements with the same pointers find a key at the same entry. *)
Lemma shared_entry m c n w nsc ns key e e' : CMaps (m, c) w nsc -> CMaps (m, n) w ns ->
  ptr_of (m, n) <$> ns = ptr_of (m, c) <$> nsc -> cache c !! key = Some e -> cache n !! key = Some e' ->
  ptr_of (m, n) e' = ptr_of (m, c) e.
Proof.
  intros HMc HMn Hp [He Hk]%(cm_cache _ _ _ _ _ HMc) [He' Hk']%(cm_cache _ _ _ _ _ HMn).
  assert (ptr_of (m, n) e' ∈ ptr_of (m, c) <$> nsc) as (y & Ey & Hy)%list_elem_of_fmap.
  { rewrite <- Hp. by apply list_elem_of_fmap_2. }
  rewrite Ey. f_equal. apply (CMaps_unique zeroK zeroV (m, c) w nsc y e HMc Hy He).
  rewrite Hk, <- Hk'. unfold LruCacheTheorems.entry_of. cbn. by rewrite Ey.
Qed.

(** CloneTo gives the target the entries of the source in the same order and
    leaves the source as it is; for every key both caches point to the same entry. *)
Theorem lrucache_clone os os' (ops : list cache_op) (h : heap addr) : Rep h ∅ ->
  let a := (cache_steps ops (new_spec os)).2 in exists s0 m c m2 n m3 n',
  New (option_of <$> os) (mkMem h ∅) = Val s0
  /\ cache_runs ops s0 = Val ((cache_steps ops (new_spec os)).1, (m, c))
  /\ New (option_of <$> os') m = Val (m2, n) /\ CloneTo zeroK zeroV c (m2, n) = Val (tt, (m3, n'))
  /\ CSim (m3, c) a /\ CSim (m3, n') (with_items (sp_items a) (new_spec os'))
  /\ forall key e e', cache c !! key = Some e -> cache n' !! key = Some e' -> ptr_of (m3, n') e' = ptr_of (m3, c) e.
Proof.
  intros HR a. destruct (New_sim os h HR) as (s0 & E0 & HS0).
  destruct (cache_steps_refine zeroK zeroV ops s0 _ HS0) as ([m c] & E1 & (w & ns & HM & Ha)).
  destruct (New_maps os' m w (cm_rep _ _ _ _ _ HM)) as ([m2 n] & E2 & Hl & HMn & Hlru & Hsn & Hen & HV).
  cbn [fst snd] in *.
  assert (lru c <> lru n) as Hne by (rewrite Hlru; pose proof (cm_lru _ _ _ _ _ HM) as Hc; intros E; cbn in Hc; rewrite E, Hl in Hc; done).
  assert (CMaps (m2, c) (<[lru n := []]> w) ns) as HM2.
  { destruct m2 as [h2 es2]. cbn in Hen, HV. subst es2. apply (CMaps_frame m c w ns h2); [done| | |by rewrite HV].
    - rewrite Hlru. apply (cm_rep _ _ _ _ _ HMn).
    - rewrite lookup_insert_ne by congruence. apply (cm_lru _ _ _ _ _ HM). }
  destruct (clone_maps m2 c n _ ns [] HM2 (lookup_insert_eq _ _ _) Hne)
    as (m3 & n3 & w3 & ns3 & E3 & HMn3 & HMc3 & Hsc & Hsn3 & Hp).
  assert (spec_of zeroK zeroV (m2, c) ns = a) as Ha2.
  { unfold a. rewrite Ha. destruct m2 as [h2 es2]. cbn in Hen, HV. subst es2. apply spec_frame. by rewrite HV. }
  exists s0, m, c, m2, n, m3, n3. split_and!; [done|done|done|done| | |].
  - exists w3, ns. split; [done|]. by rewrite Hsc, Ha2.
  - exists w3, ns3. split; [done|]. rewrite Hsn3, <- Ha2, <- Hsn. done.
  - intros key e e'. by apply (shared_entry m3 c n3 w3 ns ns3).
Qed.
End LruCacheProps.

Lemma Rep_empty {T} : Rep (empty_heap (T := T)) ∅.
Proof. split; cbn; intros ??; rewrite ?lookup_empty; done. Qed.

(** Two entries at most, ages of ten seconds; key 2 expires, key 1 is pushed out. *)
Definition sample_cache_ops : list (cache_op (K := Z) (V := Z)) :=
  [CStore 1 10 100 100; CStoreWithExpire 2 20 105 101; CLoad 1 102 102; CLoad 2 106 106;
   CLoadOrStore 3 30 107 107 107; CLoadOrStoreWithAge 1 60 11 108 108 108; CLoadOrStoreWithAge 4 60 40 109 109 109;
   CExist 1; CExist 3; CRange; CDelete 4; CLoadWithExpire 1 110 110; CClear; CRange].

Lemma lrucache_refines_witness : exists s0 s,
  New (option_of <$> [SEvict; SAge 10; SSize 2; SUpdateAgeOnGet]) (mkMem empty_heap ∅) = Val s0
  /\ cache_runs 0 0 sample_cache_ops s0
     = Val ((cache_steps 0 sample_cache_ops (new_spec [SEvict; SAge 10; SSize 2; SUpdateAgeOnGet])).1, s)
  /\ CSim 0 0 s (cache_steps 0 sample_cache_ops (new_spec [SEvict; SAge 10; SSize 2; SUpdateAgeOnGet])).2
  /\ bounded (cache_steps 0 sample_cache_ops (new_spec [SEvict; SAge 10; SSize 2; SUpdateAgeOnGet])).2.
Proof. exact (lrucache_refines 0 0 _ sample_cache_ops empty_heap Rep_empty). Defined.

Lemma lrucache_clear_witness : exists s0 s answers items,
  New (option_of <$> [SSize 5]) (mkMem empty_heap ∅) = Val s0
  /\ cache_runs 0 0 (sample_cache_ops ++ [CRange; CClear; CRange]) s0
     = Val (answers ++ [AItems items; AUnit; AItems (tail items)], s)
  /\ answers = (cache_steps 0 sample_cache_ops (new_spec [SSize 5])).1.
Proof. exact (lrucache_clear 0 0 _ sample_cache_ops empty_heap Rep_empty). Defined.

Lemma lrucache_clone_witness :
  let a := (cache_steps 0 (take 6 sample_cache_ops) (new_spec [SAge 10])).2 in exists s0 m c m2 n m3 n',
  New (option_of <$> [SAge 10]) (mkMem empty_heap ∅) = Val s0
  /\ cache_runs 0 0 (take 6 sample_cache_ops) s0 = Val ((cache_steps 0 (take 6 sample_cache_ops) (new_spec [SAge 10])).1, (m, c))
  /\ New (option_of <$> [SSize 9]) m = Val (m2, n) /\ CloneTo 0 0 c (m2, n) = Val (tt, (m3, n'))
  /\ CSim 0 0 (m3, c) a /\ CSim 0 0 (m3, n') (with_items (sp_items a) (new_spec [SSize 9]))
  /\ forall key e e', cache c !! key = Some e -> cache n' !! key = Some e' ->
       ptr_of (m3, n') e' = ptr_of (m3, c) e.
Proof. exact (lrucache_clone 0 0 [SAge 10] [SSize 9] (take 6 sample_cache_ops) empty_heap Rep_empty). Defined.
