(* ===== verification/JsonScanner.v ===== *)
(** * The JSON scanner: common/json/internal/contextjson/scanner.go

    A state machine that reads JSON with comments and trailing commas one byte at
    a time.  A state of the machine is the function the scanner calls for the next
    byte; the type [state] names these functions and [run_step] calls them.  The
    stack [parseState] is a list with its top in front. *)

From S2P Require Import Prelude.
From Stdlib Require Import Ascii.

(** A byte literal. *)
Notation CH a := (ltac:(let x := eval vm_compute in (Z.of_N (N_of_ascii a%char)) in exact x)) (only parsing).

(** ** Opcodes and states *)

Definition scanContinue : Z := 0.
Definition scanBeginLiteral : Z := 1.
Definition scanBeginObject : Z := 2.
Definition scanObjectKey : Z := 3.
Definition scanObjectValue : Z := 4.
Definition scanEndObject : Z := 5.
Definition scanBeginArray : Z := 6.
Definition scanArrayValue : Z := 7.
Definition scanEndArray : Z := 8.
Definition scanSkipSpace : Z := 9.
Definition scanEnd : Z := 10.
Definition scanError : Z := 11.

Definition parseObjectKey : Z := 0.
Definition parseObjectValue : Z := 1.
Definition parseArrayValue : Z := 2.

Definition maxNestingDepth : Z := 10000.

Definition scannerNoComment : Z := 0.
Definition scannerLineComment : Z := 1.
Definition scannerBlockComment : Z := 2.

Inductive state :=
  | sMaybeComment | sInLineComment | sInBlockComment | sInBlockCommentStar
  | sBeginValueOrEmpty | sBeginValue | sBeginStringOrEmpty | sBeginString | sEndValue | sEndTop
  | sInString | sInStringEsc | sInStringEscU | sInStringEscU1 | sInStringEscU12 | sInStringEscU123
  | sNeg | s1 | s0 | sDot | sDot0 | sE | sESign | sE0
  | sT | sTr | sTru | sF | sFa | sFal | sFals | sN | sNu | sNul | sError.
#[export] Instance state_eq_dec : EqDecision state.
Proof. solve_decision. Defined.

(** A SyntaxError: the message is "invalid character", the quoted byte and the
    context, or one of the two messages of eof. *)
Inductive SyntaxError :=
  | InvalidCharacter (c : Z) (context : string) (offset : Z)
  | UnexpectedEnd (msg : string) (offset : Z).

Record scanner := mkScanner {
  step : state;
  endTop : bool;
  parseState : list Z;
  err : option SyntaxError;
  bytes : Z;
  commentStep : option state;
  commentMode : Z }.

Local Open Scope go_scope.
Local Notation M := (GoM scanner).

Definition set_step (f : state) : M unit :=
  modify (fun s => mkScanner f (endTop s) (parseState s) (err s) (bytes s) (commentStep s) (commentMode s)).
Definition set_endTop (b : bool) : M unit :=
  modify (fun s => mkScanner (step s) b (parseState s) (err s) (bytes s) (commentStep s) (commentMode s)).
Definition set_parseState (p : list Z) : M unit :=
  modify (fun s => mkScanner (step s) (endTop s) p (err s) (bytes s) (commentStep s) (commentMode s)).
(** [e] is given the number of bytes read. *)
Definition set_err (e : Z -> SyntaxError) : M unit :=
  modify (fun s => mkScanner (step s) (endTop s) (parseState s) (Some (e (bytes s))) (bytes s) (commentStep s) (commentMode s)).
Definition set_comment (next : option state) (mode : Z) : M unit :=
  modify (fun s => mkScanner (step s) (endTop s) (parseState s) (err s) (bytes s) next mode).
Definition set_bytes (n : Z) (s : scanner) : scanner :=
  mkScanner (step s) (endTop s) (parseState s) (err s) n (commentStep s) (commentMode s).

Definition error (c : Z) (context : string) : M Z :=
  set_step sError ;; set_err (InvalidCharacter c context) ;; ret scanError.

(** reset leaves [bytes] alone. *)
Definition reset (s : scanner) : scanner := mkScanner sBeginValue false [] None (bytes s) None 0.
(** A scanner from the pool may have any content. *)
Definition newScanner (pooled : scanner) : scanner := reset (set_bytes 0 pooled).

(** What freeScanner puts back into the pool. *)
Definition freeScanner (s : scanner) : scanner :=
  if decide (zlen (parseState s) > 1024)
  then mkScanner (step s) (endTop s) [] (err s) (bytes s) (commentStep s) (commentMode s) else s.

Definition pushParseState (c newParseState successState : Z) : M Z :=
  p <- gets parseState ;;
  set_parseState (newParseState :: p) ;;
  if decide (zlen (newParseState :: p) <= maxNestingDepth) then ret successState
  else error c "exceeded max depth".

(** Popping the empty stack panics. *)
Definition popParseState : M unit :=
  p <- gets parseState ;;
  match p with
  | [] => panic
  | _ :: p =>
      set_parseState p ;;
      if decide (p = []) then set_step sEndTop ;; set_endTop true else set_step sEndValue
  end.

Definition isSpace (c : Z) : bool :=
  bool_decide (c <= 32 /\ (c = 32 \/ c = 9 \/ c = 13 \/ c = 10)).

(** ** Comments *)

Definition stateBeginComment (c : Z) (next : state) : M Z :=
  if decide (c = CH "#") then
    m <- gets commentMode ;; set_comment (Some next) m ;;
    set_comment (Some next) scannerLineComment ;; set_step sInLineComment ;; ret scanSkipSpace
  else if decide (c = CH "/") then
    m <- gets commentMode ;; set_comment (Some next) m ;; set_step sMaybeComment ;; ret scanSkipSpace
  else ret (-1).
Definition stateMaybeComment (c : Z) : M Z :=
  n <- gets commentStep ;;
  if decide (c = CH "/") then set_comment n scannerLineComment ;; set_step sInLineComment ;; ret scanSkipSpace
  else if decide (c = CH "*") then set_comment n scannerBlockComment ;; set_step sInBlockComment ;; ret scanSkipSpace
  else error (CH "/") "looking for beginning of comment".
(** [s.step = s.commentStep; s.commentStep = nil; s.commentMode = scannerNoComment];
    calling a nil step panics, which here happens at once. *)
Definition end_comment : M unit :=
  n <- gets commentStep ;; n <- lift n ;; set_step n ;; set_comment None scannerNoComment.
Definition stateInLineComment (c : Z) : M Z :=
  (if decide (c = 10 \/ c = 13) then end_comment else ret tt) ;; ret scanSkipSpace.
Definition stateInBlockComment (c : Z) : M Z :=
  (if decide (c = CH "*") then set_step sInBlockCommentStar else ret tt) ;; ret scanSkipSpace.
Definition stateInBlockCommentStar (c : Z) : M Z :=
  (if decide (c = CH "/") then end_comment
   else if decide (c = CH "*") then ret tt else set_step sInBlockComment) ;; ret scanSkipSpace.

(** [if isSpace(c) { return scanSkipSpace }] and [if op := stateBeginComment(s, c, next); op >= 0 { return op }]. *)
Definition skipping (c : Z) (next : state) (k : M Z) : M Z :=
  if isSpace c then ret scanSkipSpace else
  op <- stateBeginComment c next ;; if decide (op >= 0) then ret op else k.

(** ** Values *)

Definition stateEndTop (c : Z) : M Z :=
  if isSpace c then ret scanEnd else
  op <- stateBeginComment c sEndTop ;;
  if decide (op >= 0) then ret op else
  (if negb (isSpace c) then error c "after top-level value" else ret scanError) ;; ret scanEnd.

Definition stateEndValue (c : Z) : M Z :=
  p <- gets parseState ;;
  match p with
  | [] => set_step sEndTop ;; set_endTop true ;; stateEndTop c
  | ps :: p =>
      if isSpace c then set_step sEndValue ;; ret scanSkipSpace else
      op <- stateBeginComment c sEndValue ;;
      if decide (op >= 0) then ret op else
      if decide (ps = parseObjectKey) then
        if decide (c = CH ":") then
          set_parseState (parseObjectValue :: p) ;; set_step sBeginValue ;; ret scanObjectKey
        else error c "after object key"
      else if decide (ps = parseObjectValue) then
        if decide (c = CH ",") then
          set_parseState (parseObjectKey :: p) ;; set_step sBeginStringOrEmpty ;; ret scanObjectValue
        else if decide (c = CH "}") then popParseState ;; ret scanEndObject
        else error c "after object key:value pair"
      else if decide (ps = parseArrayValue) then
        if decide (c = CH ",") then set_step sBeginValueOrEmpty ;; ret scanArrayValue
        else if decide (c = CH "]") then popParseState ;; ret scanEndArray
        else error c "after array element"
      else error c ""
  end.

Definition stateBeginValue (c : Z) : M Z :=
  skipping c sBeginValue (
  if decide (c = CH "{") then
    set_step sBeginStringOrEmpty ;; pushParseState c parseObjectKey scanBeginObject
  else if decide (c = CH "[") then
    set_step sBeginValueOrEmpty ;; pushParseState c parseArrayValue scanBeginArray
  else if decide (c = 34) then set_step sInString ;; ret scanBeginLiteral
  else if decide (c = CH "-") then set_step sNeg ;; ret scanBeginLiteral
  else if decide (c = CH "0") then set_step s0 ;; ret scanBeginLiteral
  else if decide (c = CH "t") then set_step sT ;; ret scanBeginLiteral
  else if decide (c = CH "f") then set_step sF ;; ret scanBeginLiteral
  else if decide (c = CH "n") then set_step sN ;; ret scanBeginLiteral
  else if decide (CH "1" <= c <= CH "9") then set_step s1 ;; ret scanBeginLiteral
  else error c "looking for beginning of value").

Definition stateBeginValueOrEmpty (c : Z) : M Z :=
  skipping c sBeginValueOrEmpty (
  if decide (c = CH "]") then stateEndValue c else stateBeginValue c).

Definition stateBeginString (c : Z) : M Z :=
  skipping c sBeginString (
  if decide (c = 34) then set_step sInString ;; ret scanBeginLiteral
  else error c "looking for beginning of object key string").

Definition stateBeginStringOrEmpty (c : Z) : M Z :=
  skipping c sBeginStringOrEmpty (
  if decide (c = CH "}") then
    p <- gets parseState ;;
    match p with
    | [] => panic
    | _ :: p => set_parseState (parseObjectValue :: p) ;; stateEndValue c
    end
  else stateBeginString c).

(** ** Strings *)

Definition stateInString (c : Z) : M Z :=
  if decide (c = 34) then set_step sEndValue ;; ret scanContinue
  else if decide (c = 92) then set_step sInStringEsc ;; ret scanContinue
  else if decide (c < 32) then error c "in string literal"
  else ret scanContinue.
Definition stateInStringEsc (c : Z) : M Z :=
  if decide (c = CH "b" \/ c = CH "f" \/ c = CH "n" \/ c = CH "r" \/ c = CH "t" \/ c = 92 \/ c = CH "/" \/ c = 34)
  then set_step sInString ;; ret scanContinue
  else if decide (c = CH "u") then set_step sInStringEscU ;; ret scanContinue
  else error c "in string escape code".
Definition is_hex (c : Z) : bool :=
  bool_decide (CH "0" <= c <= CH "9" \/ CH "a" <= c <= CH "f" \/ CH "A" <= c <= CH "F").
Definition hex_digit (next : state) (c : Z) : M Z :=
  if is_hex c then set_step next ;; ret scanContinue
  else error c "in \u hexadecimal character escape".
Definition stateInStringEscU : Z -> M Z := hex_digit sInStringEscU1.
Definition stateInStringEscU1 : Z -> M Z := hex_digit sInStringEscU12.
Definition stateInStringEscU12 : Z -> M Z := hex_digit sInStringEscU123.
Definition stateInStringEscU123 : Z -> M Z := hex_digit sInString.

(** ** Numbers *)

Definition is_digit (c : Z) : bool := bool_decide (CH "0" <= c <= CH "9").
Definition stateNeg (c : Z) : M Z :=
  if decide (c = CH "0") then set_step s0 ;; ret scanContinue
  else if decide (CH "1" <= c <= CH "9") then set_step s1 ;; ret scanContinue
  else error c "in numeric literal".
Definition state0 (c : Z) : M Z :=
  if decide (c = CH ".") then set_step sDot ;; ret scanContinue
  else if decide (c = CH "e" \/ c = CH "E") then set_step sE ;; ret scanContinue
  else stateEndValue c.
Definition state1 (c : Z) : M Z :=
  if is_digit c then set_step s1 ;; ret scanContinue else state0 c.
Definition stateDot (c : Z) : M Z :=
  if is_digit c then set_step sDot0 ;; ret scanContinue
  else error c "after decimal point in numeric literal".
Definition stateDot0 (c : Z) : M Z :=
  if is_digit c then ret scanContinue
  else if decide (c = CH "e" \/ c = CH "E") then set_step sE ;; ret scanContinue
  else stateEndValue c.
Definition stateESign (c : Z) : M Z :=
  if is_digit c then set_step sE0 ;; ret scanContinue
  else error c "in exponent of numeric literal".
Definition stateE (c : Z) : M Z :=
  if decide (c = CH "+" \/ c = CH "-") then set_step sESign ;; ret scanContinue else stateESign c.
Definition stateE0 (c : Z) : M Z :=
  if is_digit c then ret scanContinue else stateEndValue c.

(** ** Literals *)

Definition expect (x : Z) (next : state) (context : string) (c : Z) : M Z :=
  if decide (c = x) then set_step next ;; ret scanContinue else error c context.
Definition stateT := expect (CH "r") sTr "in literal true (expecting 'r')".
Definition stateTr := expect (CH "u") sTru "in literal true (expecting 'u')".
Definition stateTru := expect (CH "e") sEndValue "in literal true (expecting 'e')".
Definition stateF := expect (CH "a") sFa "in literal false (expecting 'a')".
Definition stateFa := expect (CH "l") sFal "in literal false (expecting 'l')".
Definition stateFal := expect (CH "s") sFals "in literal false (expecting 's')".
Definition stateFals := expect (CH "e") sEndValue "in literal false (expecting 'e')".
Definition stateN := expect (CH "u") sNu "in literal null (expecting 'u')".
Definition stateNu := expect (CH "l") sNul "in literal null (expecting 'l')".
Definition stateNul := expect (CH "l") sEndValue "in literal null (expecting 'l')".
Definition stateError (c : Z) : M Z := ret scanError.

(** [s.step(s, c)] *)
Definition run_step (c : Z) : M Z :=
  f <- gets step ;;
  match f with
  | sMaybeComment => stateMaybeComment c
  | sInLineComment => stateInLineComment c
  | sInBlockComment => stateInBlockComment c
  | sInBlockCommentStar => stateInBlockCommentStar c
  | sBeginValueOrEmpty => stateBeginValueOrEmpty c
  | sBeginValue => stateBeginValue c
  | sBeginStringOrEmpty => stateBeginStringOrEmpty c
  | sBeginString => stateBeginString c
  | sEndValue => stateEndValue c
  | sEndTop => stateEndTop c
  | sInString => stateInString c
  | sInStringEsc => stateInStringEsc c
  | sInStringEscU => stateInStringEscU c
  | sInStringEscU1 => stateInStringEscU1 c
  | sInStringEscU12 => stateInStringEscU12 c
  | sInStringEscU123 => stateInStringEscU123 c
  | sNeg => stateNeg c
  | s1 => state1 c
  | s0 => state0 c
  | sDot => stateDot c
  | sDot0 => stateDot0 c
  | sE => stateE c
  | sESign => stateESign c
  | sE0 => stateE0 c
  | sT => stateT c
  | sTr => stateTr c
  | sTru => stateTru c
  | sF => stateF c
  | sFa => stateFa c
  | sFal => stateFal c
  | sFals => stateFals c
  | sN => stateN c
  | sNu => stateNu c
  | sNul => stateNul c
  | sError => stateError c
  end.

Definition eof : M Z :=
  s <- gets id ;;
  match err s with
  | Some _ => ret scanError
  | None =>
      if decide (commentMode s = scannerBlockComment) then
        set_err (UnexpectedEnd "unexpected end of JSON comment") ;; ret scanError
      else
        (if decide (commentMode s = scannerLineComment) then end_comment else ret tt) ;;
        if endTop s then ret scanEnd else
        run_step 32 ;;
        s <- gets id ;;
        if endTop s then ret scanEnd else
        (if decide (err s = None) then set_err (UnexpectedEnd "unexpected end of JSON input") else ret tt) ;;
        ret scanError
  end.

(** ** Whole inputs *)

(** The loop of checkValid and eof; the answer is the error. *)
Fixpoint checkValid_loop (data : list Z) : M (option SyntaxError) :=
  match data with
  | [] => r <- eof ;; if decide (r = scanError) then gets err else ret None
  | c :: data =>
      modify (fun s => set_bytes (bytes s + 1) s) ;;
      r <- run_step c ;;
      if decide (r = scanError) then gets err else checkValid_loop data
  end.
Definition checkValid (data : list Z) : M (option SyntaxError) := modify reset ;; checkValid_loop data.
Definition Valid (pooled : scanner) (data : list Z) : outcome bool :=
  let! (e, _) := checkValid data (newScanner pooled) in Val (bool_decide (e = None)).
