(* ===== verification/JsonGrammar.v ===== *)
(** * A reference grammar of the JSON that contextjson reads

    Recursive descent over whole lists of bytes: values with [#], [//] and block
    comments and blanks between tokens, and with a comma allowed before a closing
    bracket.  Each reader returns the bytes it keeps (the token without blanks and
    comments) and the rest of the input, or [None] for a syntax error. *)

From S2P Require Import Prelude.
From S2P Require Import JsonScanner.
From Stdlib Require Import Ascii.

Notation reader_of := (list Z -> option (list Z * list Z)).

(** [k1] then [k2], keeping both. *)
Definition seq_read (p : reader_of) (q : reader_of) : reader_of :=
  fun bs => '(k1, r1) ← p bs; '(k2, r2) ← q r1; Some (k1 ++ k2, r2).
Notation "p ~~ q" := (seq_read p q) (at level 60, right associativity).

Definition eat (c : Z) : reader_of :=
  fun bs => match bs with b :: r => if decide (b = c) then Some ([c], r) else None | [] => None end.
Fixpoint eat_word (w : list Z) : reader_of :=
  fun bs => match w with [] => Some ([], bs) | c :: w => (eat c ~~ eat_word w) bs end.

(** ** Blanks and comments *)

Fixpoint after_line (bs : list Z) : list Z :=
  match bs with [] => [] | c :: r => if decide (c = 10 \/ c = 13) then r else after_line r end.
(** After the first [*/]. *)
Fixpoint after_block (bs : list Z) : option (list Z) :=
  match bs with
  | [] => None
  | c :: r =>
      match r with
      | [] => None
      | d :: r' => if decide (c = CH "*" /\ d = CH "/") then Some r' else after_block r
      end
  end.

(** One blank or comment, if there is one; a lone [/] at the end of the input is
    skipped as well. *)
Inductive gap := NoGap | BadGap | Gap (r : list Z).
Definition one_gap (bs : list Z) : gap :=
  match bs with
  | [] => NoGap
  | c :: r =>
      if isSpace c then Gap r
      else if decide (c = CH "#") then Gap (after_line r)
      else if decide (c = CH "/") then
        match r with
        | [] => Gap []
        | d :: r =>
            if decide (d = CH "/") then Gap (after_line r)
            else if decide (d = CH "*") then match after_block r with Some r => Gap r | None => BadGap end
            else BadGap
        end
      else NoGap
  end.
Fixpoint skip_fuel (n : nat) (bs : list Z) : option (list Z) :=
  match one_gap bs, n with
  | NoGap, _ => Some bs
  | Gap r, S n => skip_fuel n r
  | _, _ => None
  end.
Definition skip (bs : list Z) : option (list Z) := skip_fuel (length bs) bs.
Definition skipped : reader_of := fun bs => r ← skip bs; Some ([], r).

(** ** Strings, after the opening quote *)

Definition is_escape (c : Z) : bool :=
  bool_decide (c = CH "b" \/ c = CH "f" \/ c = CH "n" \/ c = CH "r" \/ c = CH "t" \/ c = 92 \/ c = CH "/" \/ c = 34).
Definition eat_hex : reader_of :=
  fun bs => match bs with c :: r => if is_hex c then Some ([c], r) else None | [] => None end.
Definition escape : reader_of :=
  fun bs =>
    match bs with
    | [] => None
    | e :: r =>
        if is_escape e then Some ([e], r)
        else if decide (e = CH "u") then
          (eat e ~~ eat_hex ~~ eat_hex ~~ eat_hex ~~ eat_hex) bs
        else None
    end.
Fixpoint string_fuel (n : nat) : reader_of :=
  fun bs =>
    match n, bs with
    | S n, c :: r =>
        if decide (c = 34) then Some ([c], r)
        else if decide (c = 92) then (eat c ~~ escape ~~ string_fuel n) bs
        else if decide (c < 32) then None
        else (eat c ~~ string_fuel n) bs
    | _, _ => None
    end.
Definition read_string : reader_of := fun bs => string_fuel (length bs) bs.

(** ** Numbers *)

Fixpoint digits (bs : list Z) : list Z * list Z :=
  match bs with
  | [] => ([], [])
  | c :: r => if is_digit c then let '(k, r) := digits r in (c :: k, r) else ([], bs)
  end.
Definition digits0 : reader_of := fun bs => Some (digits bs).
Definition digits1 : reader_of :=
  fun bs => match digits bs with ([], _) => None | (k, r) => Some (k, r) end.
(** [p] if the input starts with a byte of [cs], or nothing. *)
Definition optional (cs : list Z) (p : reader_of) : reader_of :=
  fun bs => match bs with c :: _ => if decide (c ∈ cs) then p bs else Some ([], bs) | [] => Some ([], bs) end.
Definition one_of (cs : list Z) : reader_of :=
  fun bs => match bs with c :: r => if decide (c ∈ cs) then Some ([c], r) else None | [] => None end.
Definition exponent : reader_of :=
  optional [CH "e"; CH "E"] (one_of [CH "e"; CH "E"] ~~ optional [CH "+"; CH "-"] (one_of [CH "+"; CH "-"]) ~~ digits1).
Definition fraction : reader_of := optional [CH "."] (eat (CH ".") ~~ digits1).
Definition integer : reader_of :=
  fun bs => match bs with
            | c :: r => if decide (c = CH "0") then Some ([c], r) else digits1 bs
            | [] => None
            end.
Definition number : reader_of :=
  optional [CH "-"] (eat (CH "-")) ~~ integer ~~ fraction ~~ exponent.

(** ** Values

    [d] is the nesting depth left.  A value starts right after blanks; the two
    other readers follow an opening bracket and read up to its closing one. *)

Inductive what := Value | Elements | Members.

Definition literal (bs : list Z) : option (list Z * list Z) :=
  match bs with
  | [] => None
  | c :: r =>
      if decide (c = 34) then (eat c ~~ read_string) bs
      else if decide (c = CH "t") then eat_word [CH "t"; CH "r"; CH "u"; CH "e"] bs
      else if decide (c = CH "f") then eat_word [CH "f"; CH "a"; CH "l"; CH "s"; CH "e"] bs
      else if decide (c = CH "n") then eat_word [CH "n"; CH "u"; CH "l"; CH "l"] bs
      else number bs
  end.

(** The end of a bracket, or a comma and more of its contents. *)
Definition close (c : Z) (more : reader_of) : reader_of :=
  fun bs => match bs with
            | b :: _ => if decide (b = c) then eat c bs else (eat (CH ",") ~~ more) bs
            | [] => None
            end.
Definition bracket (d c : Z) (inner : reader_of) : reader_of :=
  if decide (d <= 0) then fun _ => None else eat c ~~ inner.
Definition value_body (d : Z) (elements members : reader_of) : reader_of :=
  fun bs => match bs with
            | [] => None
            | c :: _ =>
                if decide (c = CH "{") then bracket d c members bs
                else if decide (c = CH "[") then bracket d c elements bs
                else literal bs
            end.
(** Nothing before the closing bracket [c], or [items]. *)
Definition or_empty (c : Z) (items : reader_of) : reader_of :=
  fun bs => match bs with [] => None | b :: _ => if decide (b = c) then eat c bs else items bs end.
Definition member (value : reader_of) : reader_of :=
  eat 34 ~~ read_string ~~ skipped ~~ eat (CH ":") ~~ value.

Fixpoint parse (n : nat) (w : what) (d : Z) (bs : list Z) : option (list Z * list Z) :=
  match n with
  | O => None
  | S n =>
      match w with
      | Value => (skipped ~~ value_body d (parse n Elements (d - 1)) (parse n Members (d - 1))) bs
      | Elements => (skipped ~~ or_empty (CH "]") (parse n Value d ~~ skipped ~~ close (CH "]") (parse n Elements d))) bs
      | Members => (skipped ~~ or_empty (CH "}") (member (parse n Value d) ~~ skipped ~~ close (CH "}") (parse n Members d))) bs
      end
  end.

(** A whole document: one value, and only blanks and comments after it.  What is
    kept of it is the document in compact form. *)
Definition document (bs : list Z) : option (list Z) :=
  '(k, r) ← parse (2 * length bs + 2) Value maxNestingDepth bs;
  r ← skip r; if decide (r = []) then Some k else None.
