(* ===== verification/JsonScannerTheorems.v ===== *)
(** * The JSON scanner accepts exactly the documents of the reference grammar

    The scanner's run over an input is compared, token by token, with the readers
    of JsonGrammar.v: [runs f p g] says that the machine [f] reads what [p] reads,
    keeps the bytes [p] keeps and goes on as [g]. *)

From S2P Require Import Prelude.
From S2P Require Import JsonScanner.
From S2P Require Import JsonGrammar.
From Stdlib Require Import Ascii.

(** ** A run, and the bytes it keeps

    [scan s bs]: the bytes of [bs] whose opcode is not a space's, if no step and
    not the end of the input is an error. *)
Fixpoint scan (s : scanner) (bs : list Z) : option (list Z) :=
  match bs with
  | [] => match eof s with Val (r, _) => if decide (r = scanError) then None else Some [] | _ => None end
  | c :: bs =>
      match run_step c s with
      | Val (op, s) =>
          if decide (op = scanError) then None
          else if decide (op < scanSkipSpace) then cons c <$> scan s bs else scan s bs
      | _ => None
      end
  end.

Lemma scan_keeps c s s' op bs :
  run_step c s = Val (op, s') -> op < scanSkipSpace -> scan s (c :: bs) = cons c <$> scan s' bs.
Proof. intros Hr Ho. cbn [scan]. rewrite Hr. unfold scanSkipSpace, scanError in *. by rewrite decide_False, decide_True by lia. Qed.
Lemma scan_skips c s s' op bs :
  run_step c s = Val (op, s') -> op = scanSkipSpace \/ op = scanEnd -> scan s (c :: bs) = scan s' bs.
Proof.
  intros Hr Ho. cbn [scan]. rewrite Hr. unfold scanSkipSpace, scanEnd, scanError in *. by rewrite !decide_False by lia.
Qed.
Lemma scan_fails c s s' bs : run_step c s = Val (scanError, s') -> scan s (c :: bs) = None.
Proof. intros Hr. cbn [scan]. by rewrite Hr. Qed.
Lemma scan_same c s s' bs : run_step c s = run_step c s' -> scan s (c :: bs) = scan s' (c :: bs).
Proof. intros Hr. cbn [scan]. by rewrite Hr. Qed.

(** ** Readers against machines *)

Notation machine := (list Z -> option (list Z)).

Definition runs_at (f : machine) (p : reader_of) (g : machine) (bs : list Z) : Prop :=
  f bs = match p bs with Some (k, r) => app k <$> g r | None => None end.
Definition runs (f : machine) (p : reader_of) (g : machine) : Prop := forall bs, runs_at f p g bs.

Lemma app_nil_fmap (o : option (list Z)) : app [] <$> o = o.
Proof. by destruct o. Qed.

Lemma runs_at_seq f p g q h bs :
  runs_at f p g bs -> (forall k r, p bs = Some (k, r) -> runs_at g q h r) -> runs_at f (p ~~ q) h bs.
Proof.
  unfold runs_at, seq_read. intros -> Hg. destruct (p bs) as [[k r]|]; [|done]. cbn.
  rewrite (Hg k r eq_refl). destruct (q r) as [[k2 r2]|]; [|done]. cbn.
  destruct (h r2); [|done]. cbn. by rewrite app_assoc.
Qed.
Lemma runs_seq f p g q h : runs f p g -> runs g q h -> runs f (p ~~ q) h.
Proof. intros Hf Hg bs. eapply runs_at_seq; [apply Hf|]. intros. apply Hg. Qed.

(** A machine that reads one byte [c] and nothing else. *)
Lemma runs_eat c f g :
  f [] = None -> (forall r, f (c :: r) = cons c <$> g r) -> (forall b r, b <> c -> f (b :: r) = None) -> runs f (eat c) g.
Proof.
  intros H0 H1 H2 [|b r]; unfold runs_at; cbn; [done|]. case_decide; [subst|]; cbn; auto.
Qed.

(** ** The scanner between two tokens *)

Definition cfg (st : state) (p : list Z) : scanner := mkScanner st false p None 0 None 0.
Definition top : scanner := mkScanner sEndTop true [] None 0 None 0.
(** After a value: the machine popParseState leaves. *)
Definition fin (p : list Z) : scanner := if decide (p = []) then top else cfg sEndValue p.

(** The scanner skips gaps here. *)
Inductive between : state -> bool -> list Z -> Prop :=
  | between_value p : between sBeginValue false p
  | between_value_or_empty p : between sBeginValueOrEmpty false p
  | between_string p : between sBeginString false p
  | between_string_or_empty p : between sBeginStringOrEmpty false p
  | between_end a p : between sEndValue false (a :: p)
  | between_top : between sEndTop true [].

Definition wait (st : state) (e : bool) (p : list Z) (next : option state) (mode : Z) : scanner :=
  mkScanner st e p None 0 next mode.

Lemma isSpace_true c : isSpace c = true <-> c = 32 \/ c = 9 \/ c = 13 \/ c = 10.
Proof. unfold isSpace. rewrite bool_decide_eq_true. lia. Qed.
Lemma isSpace_false c : isSpace c = false <-> c <> 32 /\ c <> 9 /\ c <> 13 /\ c <> 10.
Proof. unfold isSpace. rewrite bool_decide_eq_false. lia. Qed.

(** Runs a step of the machine on a byte known up to linear arithmetic. *)
Ltac known := repeat match goal with
  | |- context [decide (?P)] => first [rewrite (decide_True (P := P)) by (done || lia) | rewrite (decide_False (P := P)) by (done || lia)]
  | H : isSpace ?c = _ |- context [isSpace ?c] => rewrite H
  | H : is_digit ?c = _ |- context [is_digit ?c] => rewrite H
  | H : is_hex ?c = _ |- context [is_hex ?c] => rewrite H
  end.
Ltac step := unfold run_step; rewrite ?bind_gets; cbn [JsonScanner.step wait cfg top fin].

Lemma after_line_shrinks bs : (length (after_line bs) <= length bs)%nat.
Proof. induction bs as [|c bs IH]; cbn; [done|]. case_decide; cbn; lia. Qed.
Lemma after_block_shrinks bs r : after_block bs = Some r -> (length r < length bs)%nat.
Proof.
  induction bs as [|c bs IH]; cbn; [done|]. destruct bs as [|d bs]; [done|].
  case_decide; [intros [= ->]; cbn; lia|]. intros Hr%IH. cbn in *. lia.
Qed.
Lemma one_gap_shrinks bs r : one_gap bs = Gap r -> (length r < length bs)%nat.
Proof.
  destruct bs as [|c bs]; [done|]. cbn. pose proof (after_line_shrinks bs) as Ha.
  destruct (isSpace c); [intros [= <-]; lia|]. case_decide; [intros [= <-]; lia|].
  case_decide; [|done]. destruct bs as [|d bs]; [intros [= <-]; cbn; lia|].
  pose proof (after_line_shrinks bs) as Hl. clear Ha. cbn. case_decide; [intros [= <-]; lia|]. case_decide; [|done].
  destruct (after_block bs) eqn:E; [|done]. apply after_block_shrinks in E. intros [= <-]. lia.
Qed.

Lemma skip_fuel_no_gap n bs r : skip_fuel n bs = Some r -> one_gap r = NoGap.
Proof.
  revert bs. induction n as [|n IH]; intros bs; cbn [skip_fuel]; destruct (one_gap bs) eqn:E; try done.
  - by intros [= <-].
  - by intros [= <-].
  - apply IH.
Qed.
Lemma no_gap_head c r : one_gap (c :: r) = NoGap -> isSpace c = false /\ c <> CH "#" /\ c <> CH "/".
Proof.
  cbn. destruct (isSpace c); [done|]. case_decide; [done|]. case_decide; [|done].
  destruct r; [done|]. repeat case_decide; try done. by destruct (after_block r).
Qed.
Lemma no_gap_other c r : isSpace c = false -> c <> CH "#" -> c <> CH "/" -> one_gap (c :: r) = NoGap.
Proof. intros Hs ??. cbn. by rewrite Hs, !decide_False. Qed.
(** A byte that starts no gap is handled by the rest of the step. *)
Lemma beginComment_other c next s : c <> CH "#" -> c <> CH "/" -> stateBeginComment c next s = Val (-1, s).
Proof. intros. unfold stateBeginComment. by rewrite !decide_False. Qed.
Lemma skipping_other c r next k s : one_gap (c :: r) = NoGap -> skipping c next k s = k s.
Proof.
  intros (Hs & Hh & Hl)%no_gap_head. unfold skipping. rewrite Hs.
  by erewrite bind_run; [|by apply beginComment_other].
Qed.
Lemma no_gap_digit c r : CH "0" <= c <= CH "9" -> one_gap (c :: r) = NoGap.
Proof. intros. apply no_gap_other; [apply isSpace_false|..]; lia. Qed.

Definition quiet (st : state) (e : bool) (p : list Z) : scanner := wait st e p None 0.

Section Gaps.
Context (st : state) (e : bool) (p : list Z) (Hb : between st e p).
Local Notation here := (quiet st e p).

Lemma run_blank c : isSpace c = true ->
  exists op, run_step c here = Val (op, here) /\ (op = scanSkipSpace \/ op = scanEnd).
Proof.
  intros Hc. destruct Hb; unfold quiet; step.
  all: unfold stateBeginValue, stateBeginValueOrEmpty, stateBeginString, stateBeginStringOrEmpty,
    stateEndValue, stateEndTop, skipping; rewrite ?bind_gets; cbn [parseState wait]; known; eauto.
Qed.

Lemma run_hash : run_step (CH "#") here = Val (scanSkipSpace, wait sInLineComment e p (Some st) scannerLineComment).
Proof. by destruct Hb. Qed.
Lemma run_slash : run_step (CH "/") here = Val (scanSkipSpace, wait sMaybeComment e p (Some st) 0).
Proof. by destruct Hb. Qed.
Lemma scan_blank c bs : isSpace c = true -> scan here (c :: bs) = scan here bs.
Proof. intros Hc. destruct (run_blank c Hc) as (op & Hr & Ho). by apply (scan_skips _ _ _ op). Qed.

Lemma eof_line : scan (wait sInLineComment e p (Some st) scannerLineComment) [] = scan here [].
Proof. by destruct Hb. Qed.
Lemma eof_slash : scan (wait sMaybeComment e p (Some st) 0) [] = scan here [].
Proof. by destruct Hb. Qed.

Lemma scan_line bs : scan (wait sInLineComment e p (Some st) scannerLineComment) bs = scan here (after_line bs).
Proof.
  induction bs as [|c bs IH]; [apply eof_line|]. cbn [after_line].
  destruct (decide (c = 10 \/ c = 13)) as [Hc|Hc].
  - apply (scan_skips _ _ _ scanSkipSpace); [|by left]. step. unfold stateInLineComment. by rewrite decide_True.
  - rewrite <- IH. apply (scan_skips _ _ _ scanSkipSpace); [|by left]. step. unfold stateInLineComment.
    by rewrite decide_False.
Qed.

Lemma scan_block bs :
  (scan (wait sInBlockComment e p (Some st) scannerBlockComment) bs =
   match after_block bs with Some r => scan here r | None => None end) /\
  (scan (wait sInBlockCommentStar e p (Some st) scannerBlockComment) bs =
   match after_block (CH "*" :: bs) with Some r => scan here r | None => None end).
Proof.
  induction bs as [|c bs [IH1 IH2]]; [done|]. split.
  - destruct (decide (c = CH "*")) as [->|Hc].
    + rewrite <- IH2. apply (scan_skips _ _ _ scanSkipSpace); [|by left]. done.
    + etrans; [apply (scan_skips _ _ (wait sInBlockComment e p (Some st) scannerBlockComment) scanSkipSpace); [|by left]|].
      { step. unfold stateInBlockComment. by rewrite decide_False. }
      rewrite IH1. cbn [after_block]. destruct bs as [|d bs]; [done|]. by rewrite decide_False by tauto.
  - cbn [after_block]. destruct (decide (c = CH "/")) as [->|Hs].
    { apply (scan_skips _ _ _ scanSkipSpace); [|by left]. done. }
    rewrite decide_False by tauto. destruct (decide (c = CH "*")) as [->|Hc].
    { cbn [after_block] in IH2. rewrite <- IH2. apply (scan_skips _ _ _ scanSkipSpace); [|by left]. done. }
    etrans; [apply (scan_skips _ _ (wait sInBlockComment e p (Some st) scannerBlockComment) scanSkipSpace); [|by left]|].
    { step. unfold stateInBlockCommentStar. by rewrite !decide_False. }
    rewrite IH1. cbn [after_block]. destruct bs as [|d bs]; [done|]. by rewrite decide_False by tauto.
Qed.

Lemma scan_comment bs :
  scan (wait sMaybeComment e p (Some st) 0) bs =
  match one_gap (CH "/" :: bs) with Gap r => scan here r | _ => None end.
Proof.
  destruct bs as [|d bs]; [apply eof_slash|]. cbn [one_gap]. rewrite (proj2 (isSpace_false 47)) by lia.
  rewrite decide_False, (decide_True (P := CH "/" = CH "/")) by done.
  destruct (decide (d = CH "/")) as [->|Hd].
  { etrans; [apply (scan_skips _ _ (wait sInLineComment e p (Some st) scannerLineComment) scanSkipSpace); [done|by left]|].
    apply scan_line. }
  destruct (decide (d = CH "*")) as [->|Hd'].
  { etrans; [apply (scan_skips _ _ (wait sInBlockComment e p (Some st) scannerBlockComment) scanSkipSpace); [done|by left]|].
    etrans; [apply scan_block|].
    by destruct (after_block bs). }
  apply (scan_fails _ _ (mkScanner sError e p (Some (InvalidCharacter (CH "/") "looking for beginning of comment" 0)) 0 (Some st) 0)).
  step. unfold stateMaybeComment. rewrite bind_gets. known. done.
Qed.

Lemma scan_gap bs :
  scan here bs = match one_gap bs with NoGap => scan here bs | BadGap => None | Gap r => scan here r end.
Proof.
  destruct bs as [|c bs]; [done|]. destruct (decide (c = CH "/")) as [->|Hs].
  { etrans; [eapply (scan_skips _ _ _ scanSkipSpace); [apply run_slash|by left]|]. rewrite scan_comment.
    destruct (one_gap (CH "/" :: bs)) eqn:E; try done. exfalso. revert E. cbn.
    destruct bs as [|d bs]; [done|]. repeat case_decide; try done. by destruct (after_block bs). }
  cbn [one_gap]. destruct (isSpace c) eqn:Hc; [by apply scan_blank|].
  destruct (decide (c = CH "#")) as [->|Hh]; [|by rewrite decide_False].
  etrans; [eapply (scan_skips _ _ _ scanSkipSpace); [apply run_hash|by left]|]. apply scan_line.
Qed.

(** Between tokens the scanner reads what [skipped] reads, and goes on at a byte
    that starts no gap. *)
Lemma scan_skip_fuel n bs : (length bs <= n)%nat ->
  scan here bs = match skip_fuel n bs with Some r => scan here r | None => None end.
Proof.
  revert bs. induction n as [|n IH]; intros bs Hn; rewrite scan_gap; cbn [skip_fuel].
  - destruct bs; [done|cbn in Hn; lia].
  - destruct (one_gap bs) as [| |r] eqn:E; [done|done|].
    rewrite IH; [done|]. apply one_gap_shrinks in E. lia.
Qed.
Lemma runs_skipped : runs (scan here) skipped (scan here).
Proof.
  intros bs. unfold runs_at. rewrite (scan_skip_fuel (length bs)) by done. unfold skipped, skip.
  destruct (skip_fuel (length bs) bs); [|done]. cbn. by rewrite app_nil_fmap.
Qed.
End Gaps.

(** ** Strings, literals and numbers *)

(** The readers do not lengthen the input. *)
Class Shrinks (q : reader_of) : Prop :=
  shrinks : forall bs k r, q bs = Some (k, r) -> (length r <= length bs)%nat.
#[export] Hint Mode Shrinks ! : typeclass_instances.
#[export] Instance shrinks_seq q1 q2 : Shrinks q1 -> Shrinks q2 -> Shrinks (q1 ~~ q2).
Proof.
  intros H1 H2 bs k r. unfold seq_read. destruct (q1 bs) as [[k1 r1]|] eqn:E1; [|done]. cbn.
  destruct (q2 r1) as [[k2 r2]|] eqn:E2; [|done]. cbn. intros [= <- <-]. apply H1 in E1. apply H2 in E2. lia.
Qed.
#[export] Instance shrinks_eat c : Shrinks (eat c).
Proof. intros [|b bs] k r; cbn; [done|]. case_decide; [|done]. intros [= <- <-]. lia. Qed.
#[export] Instance shrinks_hex : Shrinks eat_hex.
Proof. intros [|b bs] k r; cbn; [done|]. destruct (is_hex b); [|done]. intros [= <- <-]. lia. Qed.
#[export] Instance shrinks_escape : Shrinks escape.
Proof.
  intros [|b bs] k r; [done|]. cbn [escape]. destruct (is_escape b); [intros [= <- <-]; cbn; lia|].
  case_decide; [|done]. apply shrinks.
Qed.

Section Tokens.
Context (p : list Z).
Local Notation at_ st := (scan (cfg st p)).

Lemma scan_end bs : at_ sEndValue bs = scan (fin p) bs.
Proof. unfold fin. case_decide as Hp; [subst|done]. by destruct bs. Qed.

(** At the end of the input the scanner tries a space. *)
Lemma scan_nil st :
  at_ st [] = match run_step 32 (cfg st p) with Val (_, s) => if endTop s then Some [] else None | _ => None end.
Proof.
  cbn [scan]. unfold eof. rewrite bind_gets. cbn [id err cfg commentMode]. rewrite !decide_False by done.
  rewrite bind_ret. change (endTop (cfg st p)) with false. unfold bind at 1.
  destruct (run_step 32 _) as [[op s]| |]; [|done..]. rewrite bind_gets. cbn [id].
  destruct (endTop s); [done|]. by destruct (decide (err s = None)).
Qed.
(** A state that has not finished a token rejects the end of the input. *)
Lemma scan_eof st : (forall s, run_step 32 (cfg st p) = Val s -> endTop (s.2) = false) -> at_ st [] = None.
Proof.
  intros Hs. rewrite scan_nil. destruct (run_step 32 _) as [[op s]| |]; [|done..].
  by rewrite (Hs (op, s) eq_refl : endTop s = false).
Qed.

Lemma error_run c context st : error c context (cfg st p) =
  Val (scanError, mkScanner sError false p (Some (InvalidCharacter c context 0)) 0 None 0).
Proof. done. Qed.

(** A step that moves to [st'] or fails, as [ok] says. *)
Lemma scan_move st (ok : Z -> option state) context :
  (forall c, run_step c (cfg st p) =
     match ok c with Some st' => Val (scanContinue, cfg st' p) | None => error c context (cfg st p) end) ->
  at_ st [] = None /\ forall c bs, at_ st (c :: bs) = match ok c with Some st' => cons c <$> at_ st' bs | None => None end.
Proof.
  intros Hr. split.
  - apply scan_eof. intros s. rewrite Hr. destruct (ok 32); intros [= <-]; done.
  - intros c bs. specialize (Hr c). destruct (ok c) as [st'|].
    + by apply (scan_keeps _ _ _ _ _ Hr).
    + rewrite error_run in Hr. by apply (scan_fails _ _ _ _ Hr).
Qed.

Definition test (b : bool) (st : state) : option state := if b then Some st else None.
Definition in_string (c : Z) : option state :=
  if decide (c = 34) then Some sEndValue else if decide (c = 92) then Some sInStringEsc
  else test (bool_decide (32 <= c)) sInString.
Definition in_escape (c : Z) : option state :=
  if is_escape c then Some sInString else test (bool_decide (c = CH "u")) sInStringEscU.

Lemma scan_string : at_ sInString [] = None /\
  forall c bs, at_ sInString (c :: bs) = match in_string c with Some st => cons c <$> at_ st bs | None => None end.
Proof.
  apply (scan_move _ _ "in string literal"). intros c. step. unfold stateInString, in_string, test.
  case_decide; [done|]. case_decide; [done|].
  case_decide; [rewrite bool_decide_eq_false_2 by lia|rewrite bool_decide_eq_true_2 by lia]; done.
Qed.
Lemma scan_escape : at_ sInStringEsc [] = None /\
  forall c bs, at_ sInStringEsc (c :: bs) = match in_escape c with Some st => cons c <$> at_ st bs | None => None end.
Proof.
  apply (scan_move _ _ "in string escape code"). intros c. step. unfold stateInStringEsc, in_escape, test, is_escape.
  case_decide as Hc; [by rewrite bool_decide_eq_true_2|]. rewrite bool_decide_eq_false_2 by done.
  case_decide; [by rewrite bool_decide_eq_true_2|by rewrite bool_decide_eq_false_2].
Qed.

(** One byte that passes a test. *)
Lemma runs_one st st' (ok : Z -> bool) (read : reader_of) :
  (forall bs, read bs = match bs with c :: r => if ok c then Some ([c], r) else None | [] => None end) ->
  (at_ st [] = None /\ forall c bs, at_ st (c :: bs) = match test (ok c) st' with Some st' => cons c <$> at_ st' bs | None => None end) ->
  runs (at_ st) read (at_ st').
Proof.
  intros Hread [H0 H1] [|c bs]; unfold runs_at; rewrite Hread; [done|]. rewrite H1. unfold test.
  by destruct (ok c).
Qed.
Lemma runs_hex st st' :
  (forall c, run_step c (cfg st p) = hex_digit st' c (cfg st p)) -> runs (at_ st) eat_hex (at_ st').
Proof.
  intros Hr. apply (runs_one _ _ is_hex); [by intros []|].
  apply (scan_move _ _ "in \u hexadecimal character escape"). intros c. rewrite Hr. unfold hex_digit, test.
  by destruct (is_hex c).
Qed.
Lemma runs_hexes : runs (at_ sInStringEscU) (eat_hex ~~ eat_hex ~~ eat_hex ~~ eat_hex) (at_ sInString).
Proof. by repeat first [eapply runs_seq; [by apply runs_hex|]|apply runs_hex]. Qed.

Lemma runs_expect st st' x context :
  (forall c, run_step c (cfg st p) = expect x st' context c (cfg st p)) -> runs (at_ st) (eat x) (at_ st').
Proof.
  intros Hr. apply (runs_one _ _ (fun c => bool_decide (c = x))).
  { intros [|b r]; [done|]. cbn. case_decide; [subst; by rewrite bool_decide_eq_true_2|by rewrite bool_decide_eq_false_2]. }
  apply (scan_move _ _ context). intros c. rewrite Hr. unfold expect, test.
  case_decide; [by rewrite bool_decide_eq_true_2|by rewrite bool_decide_eq_false_2].
Qed.

Lemma runs_escape : runs (at_ sInStringEsc) escape (at_ sInString).
Proof.
  intros [|e r]; unfold runs_at; cbn [escape]; [apply scan_escape|]. rewrite (proj2 scan_escape). unfold in_escape, test.
  destruct (is_escape e); [done|]. case_decide as He; [|by rewrite bool_decide_eq_false_2]. subst e.
  rewrite bool_decide_eq_true_2 by done.
  unfold seq_read at 1. cbn [eat]. rewrite decide_True by done. cbn [mbind option_bind].
  rewrite runs_hexes. destruct ((_ ~~ _) r) as [[k r']|]; [|done]. cbn. by destruct (at_ sInString r').
Qed.

Lemma eat_self f g c bs : f (c :: bs) = cons c <$> g bs -> runs_at f (eat c) g (c :: bs).
Proof. intros Hf. unfold runs_at. cbn. rewrite decide_True by done. by rewrite Hf. Qed.
Lemma eat_Some c bs k r : eat c bs = Some (k, r) -> bs = c :: r /\ k = [c].
Proof. destruct bs as [|b bs]; cbn; [done|]. case_decide; [|done]. intros [= <- <-]. by subst. Qed.

Lemma runs_string bs : runs_at (at_ sInString) read_string (scan (fin p)) bs.
Proof.
  unfold runs_at, read_string. generalize (Nat.le_refl (length bs)). generalize (length bs) at 2 3. intros n.
  revert bs. induction n as [|n IH]; intros bs Hn.
  { destruct bs; [|cbn in Hn; lia]. apply scan_string. }
  destruct bs as [|c bs]; [apply scan_string|]. cbn [string_fuel]. cbn in Hn.
  pose proof (proj2 scan_string c bs) as Hc. unfold in_string, test in Hc.
  case_decide as H34; [subst; rewrite Hc, scan_end; done|].
  case_decide as H92.
  - subst. refine (runs_at_seq _ (eat 92) (at_ sInStringEsc) _ _ _ (eat_self _ _ _ _ Hc) _).
    intros k r [[= <-] _]%eat_Some.
    eapply runs_at_seq; [apply runs_escape|]. intros k' r' Hr. apply IH. apply shrinks in Hr. lia.
  - destruct (decide (c < 32)) as [H32|H32]; [by rewrite bool_decide_eq_false_2 in Hc by lia|].
    rewrite bool_decide_eq_true_2 in Hc by lia.
    refine (runs_at_seq _ (eat c) (at_ sInString) _ _ _ (eat_self _ _ _ _ Hc) _).
    intros k r [[= <-] _]%eat_Some. apply IH. lia.
Qed.

(** stateEndValue always sets [step]. *)
Lemma stateEndValue_any st c : stateEndValue c (cfg st p) = stateEndValue c (cfg sEndValue p).
Proof.
  unfold stateEndValue. rewrite !bind_gets. cbn [parseState cfg]. destruct p as [|ps q]; [done|].
  destruct (isSpace c); [done|].
  unfold stateBeginComment. destruct (decide (c = CH "#")); [done|]. destruct (decide (c = CH "/")); [done|].
  rewrite !bind_ret, !(decide_False (P := -1 >= 0)) by lia.
  destruct (decide (ps = parseObjectKey)); [by case_decide|].
  destruct (decide (ps = parseObjectValue)).
  - case_decide; [done|]. case_decide; [|done]. by destruct q.
  - case_decide; [|done]. case_decide; [done|]. case_decide; [|done]. by destruct q.
Qed.
Lemma stateEndValue_any2 st st' c : stateEndValue c (cfg st p) = stateEndValue c (cfg st' p).
Proof. by rewrite (stateEndValue_any st), (stateEndValue_any st'). Qed.
Lemma scan_end_value st c bs :
  run_step c (cfg st p) = stateEndValue c (cfg st p) -> at_ st (c :: bs) = scan (fin p) (c :: bs).
Proof. intros Hr. rewrite <- scan_end. apply scan_same. rewrite Hr. apply stateEndValue_any. Qed.
Lemma scan_end_value_nil st : run_step 32 (cfg st p) = stateEndValue 32 (cfg st p) -> at_ st [] = scan (fin p) [].
Proof.
  intros Hr. rewrite scan_nil, Hr. rewrite <- scan_end. rewrite scan_nil.
  change (run_step 32 (cfg sEndValue p)) with (stateEndValue 32 (cfg sEndValue p)). by rewrite stateEndValue_any.
Qed.

(** The rest of a number is handed on: at [e] or [E] to the exponent, else to
    what follows the value. *)
Definition to_exponent : machine := fun bs =>
  match bs with
  | c :: r => if decide (c ∈ [CH "e"; CH "E"]) then cons c <$> at_ sE r else scan (fin p) bs
  | [] => scan (fin p) []
  end.
Definition no_digit (bs : list Z) : Prop := match bs with c :: _ => is_digit c = false | [] => True end.

Lemma runs_digits0 st g :
  (forall c r, is_digit c = true -> at_ st (c :: r) = cons c <$> at_ st r) ->
  (forall bs, no_digit bs -> at_ st bs = g bs) -> runs (at_ st) digits0 g.
Proof.
  intros Hd Hg bs. unfold runs_at, digits0. induction bs as [|c bs IH].
  { cbn [digits]. by rewrite app_nil_fmap, Hg. }
  cbn [digits]. destruct (is_digit c) eqn:E; [|by rewrite app_nil_fmap, Hg].
  rewrite Hd, IH by done. destruct (digits bs) as [k r]. by destruct (g r).
Qed.
Lemma runs_digits1 st st' g :
  (forall c r, is_digit c = true -> at_ st (c :: r) = cons c <$> at_ st' r) ->
  (forall bs, no_digit bs -> at_ st bs = None) -> runs (at_ st') digits0 g -> runs (at_ st) digits1 g.
Proof.
  intros Hd Hn Hr [|c bs]; unfold runs_at; [by apply Hn|]. unfold digits1. cbn [digits].
  destruct (is_digit c) eqn:E; [|by apply Hn]. rewrite Hd by done. rewrite Hr. unfold digits0.
  destruct (digits bs) as [k r]. by destruct (g r).
Qed.

Lemma run_keeps st st' c r : run_step c (cfg st p) = Val (scanContinue, cfg st' p) -> at_ st (c :: r) = cons c <$> at_ st' r.
Proof. intros Hr. by apply (scan_keeps _ _ _ _ _ Hr). Qed.
Lemma run_error st c r context : run_step c (cfg st p) = error c context (cfg st p) -> at_ st (c :: r) = None.
Proof. intros Hr. rewrite error_run in Hr. by apply (scan_fails _ _ _ _ Hr). Qed.
(** A state inside a number that is not complete. *)
Lemma eof_error st context : run_step 32 (cfg st p) = error 32 context (cfg st p) -> at_ st [] = None.
Proof. intros Hr. apply scan_eof. intros s. rewrite Hr. by intros [= <-]. Qed.

Lemma runs_E0 : runs (at_ sE0) digits0 (scan (fin p)).
Proof.
  apply runs_digits0.
  - intros c r Hc. apply run_keeps. step. unfold stateE0. by rewrite Hc.
  - intros [|c r] Hc; [by apply scan_end_value_nil|]. apply scan_end_value. step. unfold stateE0. by rewrite Hc.
Qed.
Lemma runs_ESign : runs (at_ sESign) digits1 (scan (fin p)).
Proof.
  apply (runs_digits1 _ sE0); [| |apply runs_E0].
  - intros c r Hc. apply run_keeps. step. unfold stateESign. by rewrite Hc.
  - intros [|c r] Hc; [by eapply eof_error|]. eapply run_error. step. unfold stateESign. by rewrite Hc.
Qed.
Lemma optional_one f cs g :
  (f [] = g []) -> (forall c r, c ∈ cs -> f (c :: r) = cons c <$> g r) -> (forall c r, c ∉ cs -> f (c :: r) = g (c :: r)) ->
  runs f (optional cs (one_of cs)) g.
Proof.
  intros H0 H1 H2 [|c r]; unfold runs_at; cbn; [by rewrite app_nil_fmap|].
  case_decide; [by rewrite H1|by rewrite app_nil_fmap, H2].
Qed.
Lemma in2 (c a b : Z) : c ∈ [a; b] <-> c = a \/ c = b.
Proof. rewrite !elem_of_cons, elem_of_nil. tauto. Qed.
Lemma runs_E : runs (at_ sE) (optional [CH "+"; CH "-"] (one_of [CH "+"; CH "-"]) ~~ digits1) (scan (fin p)).
Proof.
  eapply runs_seq; [|apply runs_ESign]. apply optional_one.
  - rewrite (eof_error sE "in exponent of numeric literal"), (eof_error sESign "in exponent of numeric literal"); done.
  - intros c r Hc%in2. apply run_keeps. step. unfold stateE. by rewrite decide_True.
  - intros c r Hc. apply scan_same. rewrite in2 in Hc. step. unfold stateE. rewrite decide_False by done.
    unfold stateESign. by destruct (is_digit c).
Qed.
Lemma runs_exponent : runs to_exponent exponent (scan (fin p)).
Proof.
  intros [|c r]; unfold runs_at, exponent; cbn [optional]; [by rewrite app_nil_fmap|].
  destruct (decide (c ∈ [CH "e"; CH "E"])) as [Hc|Hc].
  - apply (runs_at_seq to_exponent _ (at_ sE)); [|intros; apply runs_E].
    unfold runs_at, one_of. cbn [to_exponent]. rewrite !(decide_True (P := c ∈ _)) by done. by destruct (at_ sE r).
  - cbn [to_exponent]. by rewrite decide_False, app_nil_fmap.
Qed.

Lemma to_exponent_at st : run_step 32 (cfg st p) = stateEndValue 32 (cfg st p) ->
  (forall c r, c = CH "e" \/ c = CH "E" -> at_ st (c :: r) = cons c <$> at_ sE r) ->
  forall bs, (forall c r, bs = c :: r -> ~ (c = CH "e" \/ c = CH "E") -> run_step c (cfg st p) = stateEndValue c (cfg st p)) ->
  at_ st bs = to_exponent bs.
Proof.
  intros Hn He [|c r] Hr; [by apply scan_end_value_nil|]. cbn [to_exponent].
  case_decide as Hc; rewrite in2 in Hc; [by apply He|]. apply scan_end_value. by apply (Hr c r).
Qed.
Lemma runs_Dot0 : runs (at_ sDot0) digits0 to_exponent.
Proof.
  apply runs_digits0.
  - intros c r Hc. apply run_keeps. step. unfold stateDot0. by rewrite Hc.
  - intros bs Hd. apply to_exponent_at; [done| |].
    + intros c r Hc. apply run_keeps. step. unfold stateDot0. rewrite decide_True by done. by destruct Hc as [-> | ->].
    + intros c r -> Hc. step. unfold stateDot0. cbn in Hd. by rewrite Hd, decide_False.
Qed.
Lemma runs_Dot : runs (at_ sDot) digits1 to_exponent.
Proof.
  apply (runs_digits1 _ sDot0); [| |apply runs_Dot0].
  - intros c r Hc. apply run_keeps. step. unfold stateDot. by rewrite Hc.
  - intros [|c r] Hc; [by eapply eof_error|]. eapply run_error. step. unfold stateDot. by rewrite Hc.
Qed.
Lemma s0_exponent bs : head bs <> Some (CH ".") -> at_ s0 bs = to_exponent bs.
Proof.
  intros Hh. apply to_exponent_at; [done| |].
  - intros c r Hc. apply run_keeps. by destruct Hc as [-> | ->].
  - intros c r -> Hc. cbn in Hh. step. unfold state0. by rewrite !decide_False by congruence.
Qed.
Lemma runs_fraction : runs (at_ s0) fraction to_exponent.
Proof.
  intros [|c r]; unfold runs_at, fraction; cbn [optional].
  { rewrite app_nil_fmap. by apply s0_exponent. }
  destruct (decide (c = CH ".")) as [->|Hc].
  - rewrite decide_True by set_solver.
    apply (runs_at_seq (at_ s0) _ (at_ sDot)); [|intros; apply runs_Dot]. apply eat_self. by apply run_keeps.
  - rewrite decide_False by set_solver. rewrite app_nil_fmap. apply s0_exponent. cbn. congruence.
Qed.
Lemma runs_1 : runs (at_ s1) digits0 (at_ s0).
Proof.
  apply runs_digits0.
  - intros c r Hc. apply run_keeps. step. unfold state1. by rewrite Hc.
  - intros [|c r] Hc.
    { rewrite !scan_nil. change (run_step 32 (cfg s1 p)) with (stateEndValue 32 (cfg s1 p)).
      by rewrite (stateEndValue_any2 s1 s0). } apply scan_same. step. unfold state1. cbn in Hc. rewrite Hc.
    unfold state0. case_decide; [done|]. case_decide; [done|]. apply stateEndValue_any2.
Qed.

(** [-] has been read. *)
Lemma digit_split c : is_digit c = true -> c = CH "0" \/ CH "1" <= c <= CH "9".
Proof. unfold is_digit. rewrite bool_decide_eq_true. lia. Qed.
Lemma runs_leading st :
  (forall c r, c = CH "0" -> at_ st (c :: r) = cons c <$> at_ s0 r) ->
  (forall c r, CH "1" <= c <= CH "9" -> at_ st (c :: r) = cons c <$> at_ s1 r) ->
  forall bs, (forall c r, bs = c :: r -> is_digit c = false -> at_ st bs = None) -> (bs = [] -> at_ st [] = None) ->
  runs_at (at_ st) integer (at_ s0) bs.
Proof.
  intros H0 H1 [|c r] Hn He; unfold runs_at; cbn [integer]; [by apply He|].
  destruct (decide (c = CH "0")) as [Hc|Hc]; [rewrite H0 by done; by destruct (at_ s0 r)|].
  unfold digits1. cbn [digits]. destruct (is_digit c) eqn:E; [|by rewrite (Hn c r)].
  rewrite H1 by (apply digit_split in E; lia). rewrite runs_1. unfold digits0.
  destruct (digits r) as [k r']. by destruct (at_ s0 r').
Qed.
Lemma runs_Neg : runs (at_ sNeg) integer (at_ s0).
Proof.
  intros bs. apply runs_leading.
  - intros c r ->. by apply run_keeps.
  - intros c r Hc. apply run_keeps. step. unfold stateNeg. by rewrite decide_False, decide_True by lia.
  - intros c r -> Hc. eapply run_error. step. unfold stateNeg. unfold is_digit in Hc. apply bool_decide_eq_false in Hc.
    by rewrite !decide_False by lia.
  - intros _. by eapply eof_error.
Qed.
Lemma runs_number_tail : runs (at_ s0) (fraction ~~ exponent) (scan (fin p)).
Proof. eapply runs_seq; [apply runs_fraction|apply runs_exponent]. Qed.

(** ** Literals *)

Lemma begin_other c r : one_gap (c :: r) = NoGap ->
  c <> CH "{" -> c <> CH "[" -> c <> 34 -> c <> CH "t" -> c <> CH "f" -> c <> CH "n" ->
  run_step c (cfg sBeginValue p) =
  (if decide (c = CH "-") then set_step sNeg ;; ret scanBeginLiteral
   else if decide (c = CH "0") then set_step s0 ;; ret scanBeginLiteral
   else if decide (CH "1" <= c <= CH "9") then set_step s1 ;; ret scanBeginLiteral
   else error c "looking for beginning of value")%go (cfg sBeginValue p).
Proof.
  intros Hg ??????. step. unfold stateBeginValue. rewrite (skipping_other _ r) by done.
  by repeat (case_decide; [done|]).
Qed.

Lemma runs_number_at bs c r : bs = c :: r -> one_gap bs = NoGap ->
  c <> CH "{" -> c <> CH "[" -> c <> 34 -> c <> CH "t" -> c <> CH "f" -> c <> CH "n" ->
  runs_at (at_ sBeginValue) number (scan (fin p)) bs.
Proof.
  intros -> Hg ??????. pose proof (begin_other c r Hg) as Hb. unfold number.
  destruct (decide (c = CH "-")) as [->|Hc].
  - apply (runs_at_seq _ _ (at_ sNeg)).
    + unfold runs_at. cbn [optional]. rewrite decide_True by set_solver. apply eat_self.
      apply (scan_keeps _ _ _ scanBeginLiteral); [|done]. rewrite Hb by done. done.
    + intros k r' _. apply runs_at_seq with (g := at_ s0); [apply runs_Neg|]. intros. apply runs_number_tail.
  - apply (runs_at_seq _ _ (at_ sBeginValue)).
    { unfold runs_at. cbn [optional]. rewrite decide_False by set_solver. by rewrite app_nil_fmap. }
    intros k r'. cbn [optional]. rewrite decide_False by set_solver. intros [= _ <-].
    apply runs_at_seq with (g := at_ s0); [|intros; apply runs_number_tail].
    assert (forall c r st, run_step c (cfg sBeginValue p) = Val (scanBeginLiteral, cfg st p) ->
      at_ sBeginValue (c :: r) = cons c <$> at_ st r) as Hk.
    { intros c' r'' st Hr. by apply (scan_keeps _ _ _ _ _ Hr). }
    apply runs_leading.
    + intros c' r'' ->. by apply Hk.
    + intros c' r'' Hd. apply Hk. rewrite (begin_other c' r''); [|apply no_gap_digit; lia|lia..].
      by rewrite !decide_False, decide_True by lia.
    + intros c' r'' [= <- <-] Hd. eapply run_error. rewrite Hb by done. unfold is_digit in Hd.
      apply bool_decide_eq_false in Hd. by rewrite !decide_False by lia.
    + done.
Qed.
Lemma runs_done : runs (at_ sEndValue) (eat_word []) (scan (fin p)).
Proof. intros bs. unfold runs_at. cbn [eat_word]. by rewrite app_nil_fmap, scan_end. Qed.
Ltac word := repeat (eapply runs_seq; [eapply runs_expect; reflexivity|]); apply runs_done.
Lemma runs_true : runs (at_ sT) (eat_word [CH "r"; CH "u"; CH "e"]) (scan (fin p)).
Proof. word. Qed.
Lemma runs_false : runs (at_ sF) (eat_word [CH "a"; CH "l"; CH "s"; CH "e"]) (scan (fin p)).
Proof. word. Qed.
Lemma runs_null : runs (at_ sN) (eat_word [CH "u"; CH "l"; CH "l"]) (scan (fin p)).
Proof. word. Qed.

Lemma runs_begin st c r (q : reader_of) h :
  run_step c (cfg sBeginValue p) = Val (scanBeginLiteral, cfg st p) -> runs_at (at_ st) q h r ->
  runs_at (at_ sBeginValue) (eat c ~~ q) h (c :: r).
Proof.
  intros Hr Hq. apply (runs_at_seq _ _ (at_ st)).
  - apply eat_self. by apply (scan_keeps _ _ _ _ _ Hr).
  - by intros k r' [[= <-] _]%eat_Some.
Qed.
Lemma runs_literal_at c r : one_gap (c :: r) = NoGap -> c <> CH "{" -> c <> CH "[" ->
  runs_at (at_ sBeginValue) literal (scan (fin p)) (c :: r).
Proof.
  intros Hg ??. unfold runs_at, literal.
  destruct (decide (c = 34)) as [->|?]; [by apply (runs_begin sInString), runs_string|].
  destruct (decide (c = CH "t")) as [->|?]; [by apply (runs_begin sT), runs_true|].
  destruct (decide (c = CH "f")) as [->|?]; [by apply (runs_begin sF), runs_false|].
  destruct (decide (c = CH "n")) as [->|?]; [by apply (runs_begin sN), runs_null|].
  by apply (runs_number_at (c :: r) c r).
Qed.
End Tokens.
