(* ===== verification/JsonScannerProps.v ===== *)
(** * Whole documents: the scanner's verdict and the reference grammar *)

From S2P Require Import Prelude.
From S2P Require Import JsonScanner.
From S2P Require Import JsonGrammar.
From S2P Require Import JsonScannerTheorems.
From Stdlib Require Import Ascii.

(** ** Objects and arrays *)

Notation at_state st p := (scan (cfg st p)) (only parsing).

(** What follows blanks and comments starts none. *)
Lemma skipped_Some bs k r : skipped bs = Some (k, r) -> one_gap r = NoGap.
Proof. unfold skipped, skip. destruct (skip_fuel _ bs) eqn:E; [|done]. intros [= _ <-]. by eapply skip_fuel_no_gap. Qed.
Lemma runs_after_gap st p (q : reader_of) g bs : between st false p ->
  (forall k r, skipped bs = Some (k, r) -> one_gap r = NoGap -> runs_at (at_state st p) q g r) ->
  runs_at (at_state st p) (skipped ~~ q) g bs.
Proof.
  intros Hb Hq. apply (runs_at_seq _ _ (at_state st p)); [apply (runs_skipped st false p Hb)|].
  intros k r Hk. apply (Hq k r Hk). by eapply skipped_Some.
Qed.

(** The two brackets: the byte, the state inside, the mark on the stack. *)
Inductive bracket_of : Z -> Z -> state -> Z -> what -> Prop :=
  | bracket_object : bracket_of (CH "{") (CH "}") sBeginStringOrEmpty parseObjectKey Members
  | bracket_array : bracket_of (CH "[") (CH "]") sBeginValueOrEmpty parseArrayValue Elements.
(** The mark at the end of an item. *)
Definition item_mark (ps : Z) : Z := if decide (ps = parseObjectKey) then parseObjectValue else ps.

Lemma open_bracket c e st ps w p r : bracket_of c e st ps w ->
  scan (cfg sBeginValue p) (c :: r) =
  if decide (zlen p < maxNestingDepth) then cons c <$> scan (cfg st (ps :: p)) r else None.
Proof.
  intros Hb.
  assert (exists op, op < scanSkipSpace /\ run_step c (cfg sBeginValue p) =
    (if decide (zlen (ps :: p) <= maxNestingDepth) then ret op else error c "exceeded max depth")%go (cfg st (ps :: p)))
    as (op & Ho & Hr) by (destruct Hb; [by exists scanBeginObject|by exists scanBeginArray]).
  rewrite zlen_cons in Hr. destruct (decide (zlen p < maxNestingDepth)).
  - rewrite decide_True in Hr by lia. by apply (scan_keeps _ _ _ op).
  - rewrite decide_False in Hr by lia. rewrite error_run in Hr. by apply (scan_fails _ _ _ _ Hr).
Qed.

Lemma runs_bracket c e st ps w p inner r : bracket_of c e st ps w ->
  runs_at (scan (cfg st (ps :: p))) inner (scan (fin p)) r ->
  runs_at (scan (cfg sBeginValue p)) (bracket (maxNestingDepth - zlen p) c inner) (scan (fin p)) (c :: r).
Proof.
  intros Hc Hi. unfold bracket. pose proof (open_bracket c e st ps w p r Hc) as Ho.
  destruct (decide (zlen p < maxNestingDepth)).
  - rewrite decide_False by lia. apply (runs_at_seq _ _ (scan (cfg st (ps :: p)))); [by apply eat_self|].
    by intros k r' [[= <-] _]%eat_Some.
  - by rewrite decide_True by lia.
Qed.

(** stateEndValue at a byte that starts no gap. *)
Lemma end_value_step ps p c r : one_gap (c :: r) = NoGap ->
  run_step c (cfg sEndValue (ps :: p)) =
  (if decide (ps = parseObjectKey) then
     if decide (c = CH ":") then set_parseState (parseObjectValue :: p) ;; set_step sBeginValue ;; ret scanObjectKey
     else error c "after object key"
   else if decide (ps = parseObjectValue) then
     if decide (c = CH ",") then
       set_parseState (parseObjectKey :: p) ;; set_step sBeginStringOrEmpty ;; ret scanObjectValue
     else if decide (c = CH "}") then popParseState ;; ret scanEndObject
     else error c "after object key:value pair"
   else if decide (ps = parseArrayValue) then
     if decide (c = CH ",") then set_step sBeginValueOrEmpty ;; ret scanArrayValue
     else if decide (c = CH "]") then popParseState ;; ret scanEndArray
     else error c "after array element"
   else error c "")%go (cfg sEndValue (ps :: p)).
Proof.
  intros (Hs & Hh & Hl)%no_gap_head. step. unfold stateEndValue. rewrite bind_gets. cbn [parseState cfg].
  rewrite Hs. by erewrite bind_run; [|by apply beginComment_other].
Qed.

Lemma pop_run ps p (op : Z) st : (popParseState ;; ret op)%go (cfg st (ps :: p)) = Val (op, fin p).
Proof. by destruct p. Qed.

(** The closing bracket, in the state after an item. *)
Lemma close_here c e st ps w p r : bracket_of c e st ps w ->
  scan (cfg sEndValue (item_mark ps :: p)) (e :: r) = cons e <$> scan (fin p) r.
Proof.
  intros Hb. apply (scan_keeps _ _ _ (if decide (ps = parseObjectKey) then scanEndObject else scanEndArray)).
  - destruct Hb; rewrite (end_value_step _ _ _ r) by done; apply pop_run.
  - by destruct Hb.
Qed.

Lemma comma_here c e st ps w p r : bracket_of c e st ps w ->
  scan (cfg sEndValue (item_mark ps :: p)) (CH "," :: r) = cons (CH ",") <$> scan (cfg st (ps :: p)) r.
Proof.
  intros Hb. apply (scan_keeps _ _ _ (if decide (ps = parseObjectKey) then scanObjectValue else scanArrayValue)).
  - by destruct Hb; rewrite (end_value_step _ _ _ r) by done.
  - by destruct Hb.
Qed.
Lemma other_here c e st ps w p b r : bracket_of c e st ps w -> one_gap (b :: r) = NoGap -> b <> e -> b <> CH "," ->
  scan (cfg sEndValue (item_mark ps :: p)) (b :: r) = None.
Proof.
  intros Hb Hg He Hc. destruct Hb; eapply run_error; rewrite (end_value_step _ _ _ r) by done.
  - by rewrite (decide_False (P := b = CH ",")), (decide_False (P := b = CH "}")) by done.
  - by rewrite !(decide_False (P := b = CH ",")), (decide_False (P := b = CH "]")) by done.
Qed.
Lemma colon_here p : forall r, one_gap r = NoGap -> r <> [] ->
  runs_at (at_state sEndValue (parseObjectKey :: p)) (eat (CH ":")) (at_state sBeginValue (parseObjectValue :: p)) r.
Proof.
  intros [|c r] Hg Hr; [done|]. destruct (decide (c = CH ":")) as [->|Hc].
  - apply eat_self. apply (scan_keeps _ _ _ scanObjectKey); [|done]. by rewrite (end_value_step _ _ _ r).
  - unfold runs_at. cbn [eat]. rewrite decide_False by done. eapply run_error.
    rewrite (end_value_step _ _ _ r), decide_True, decide_False by done. done.
Qed.

Lemma end_eof ps p : scan (cfg sEndValue (ps :: p)) [] = None.
Proof. done. Qed.

(** An item is over: a comma and more, or the closing bracket. *)
Lemma runs_close c e st ps w p more bs : bracket_of c e st ps w -> one_gap bs = NoGap ->
  (forall r, (length r < length bs)%nat -> runs_at (at_state st (ps :: p)) more (scan (fin p)) r) ->
  runs_at (at_state sEndValue (item_mark ps :: p)) (close e more) (scan (fin p)) bs.
Proof.
  intros Hb Hg Hm. destruct bs as [|b r]; [done|]. unfold runs_at. cbn [close]. destruct (decide (b = e)) as [->|He].
  { rewrite (close_here c e st ps w p r Hb). cbn. by rewrite decide_True. }
  destruct (decide (b = CH ",")) as [->|Hc].
  - apply (runs_at_seq _ _ (at_state st (ps :: p))); [apply eat_self; by apply (comma_here c e st ps w)|].
    intros k r' [[= <-] _]%eat_Some. apply Hm. cbn. lia.
  - rewrite (other_here c e st ps w) by done. unfold seq_read. cbn. by rewrite decide_False.
Qed.

(** ** The readers never lengthen the input *)

#[export] Instance shrinks_skipped : Shrinks skipped.
Proof.
  intros bs k r. unfold skipped, skip. destruct (skip_fuel _ bs) as [r'|] eqn:E; [|done]. intros [= <- <-].
  revert E. generalize (length bs) at 1. intros n. revert bs. induction n as [|n IH]; intros bs; cbn [skip_fuel].
  - destruct (one_gap bs); try done. intros [= <-]. done.
  - destruct (one_gap bs) as [| |r] eqn:E; [intros [= <-]; done|done|]. intros H%IH. apply one_gap_shrinks in E. lia.
Qed.
#[export] Instance shrinks_string : Shrinks read_string.
Proof.
  intros bs. unfold read_string. generalize (length bs) at 1. intros n. revert bs.
  induction n as [|n IH]; intros bs k r; [done|]. cbn [string_fuel]. destruct bs as [|c bs]; [done|].
  case_decide; [intros [= <- <-]; cbn; lia|]. fold (string_fuel n) in *.
  case_decide; [|case_decide; [done|]].
  - apply (shrinks_seq _ _ _ (shrinks_seq _ _ _ IH)).
  - apply (shrinks_seq _ _ _ IH).
Qed.
#[export] Instance shrinks_word w : Shrinks (eat_word w).
Proof.
  induction w as [|c w IH]; [|apply (shrinks_seq (eat c) (eat_word w)); apply _].
  intros bs k r [= <- <-]. done.
Qed.
Lemma digits_shrink bs : (length (digits bs).2 <= length bs)%nat.
Proof. induction bs as [|c bs IH]; cbn; [done|]. destruct (is_digit c); [|done]. destruct (digits bs). cbn in *. lia. Qed.
#[export] Instance shrinks_digits1 : Shrinks digits1.
Proof.
  intros bs k r. unfold digits1. pose proof (digits_shrink bs). destruct (digits bs) as [[] r']; [done|].
  by intros [= <- <-].
Qed.
#[export] Instance shrinks_optional cs q : Shrinks q -> Shrinks (optional cs q).
Proof. intros Hq [|c bs] k r; cbn; [by intros [= <- <-]|]. case_decide; [apply Hq|by intros [= <- <-]]. Qed.
#[export] Instance shrinks_one_of cs : Shrinks (one_of cs).
Proof. intros [|c bs] k r; cbn; [done|]. case_decide; [|done]. intros [= <- <-]. lia. Qed.
#[export] Instance shrinks_integer : Shrinks integer.
Proof. intros [|c bs] k r; cbn [integer]; [done|]. case_decide; [intros [= <- <-]; cbn; lia|apply shrinks]. Qed.
#[export] Instance shrinks_number : Shrinks number.
Proof. unfold number, fraction, exponent. apply _. Qed.
#[export] Instance shrinks_literal : Shrinks literal.
Proof. intros [|c bs] k r; unfold literal; [done|]. repeat (case_decide; [apply shrinks|]). apply shrinks. Qed.
#[export] Instance shrinks_bracket d c q : Shrinks q -> Shrinks (bracket d c q).
Proof. intros Hq. unfold bracket. case_decide; [by intros bs k r|apply _]. Qed.
#[export] Instance shrinks_close e q : Shrinks q -> Shrinks (close e q).
Proof. intros Hq [|c bs] k r; cbn [close]; [done|]. case_decide; apply shrinks. Qed.
#[export] Instance shrinks_or_empty e q : Shrinks q -> Shrinks (or_empty e q).
Proof. intros Hq [|c bs] k r; cbn [or_empty]; [done|]. case_decide; apply shrinks. Qed.
#[export] Instance shrinks_body d q1 q2 : Shrinks q1 -> Shrinks q2 -> Shrinks (value_body d q1 q2).
Proof. intros H1 H2 [|c bs] k r; cbn [value_body]; [done|]. repeat case_decide; apply shrinks. Qed.
#[export] Instance shrinks_parse n w d : Shrinks (parse n w d).
Proof.
  revert w d. induction n as [|n IH]; intros w d; [by intros bs k r|]. destruct w; cbn [parse]; unfold member.
  all: intros bs; apply (shrinks_seq skipped); apply _.
Qed.

(** ** Values *)

Lemma empty_here c e st ps w p r : bracket_of c e st ps w ->
  scan (cfg st (ps :: p)) (e :: r) = cons e <$> scan (fin p) r.
Proof.
  intros Hb. apply (scan_keeps _ _ _ (if decide (ps = parseObjectKey) then scanEndObject else scanEndArray)).
  - destruct Hb; by destruct p.
  - by destruct Hb.
Qed.
Lemma bracket_between c e st ps w p : bracket_of c e st ps w -> between st false (ps :: p).
Proof. intros Hb. destruct Hb; constructor. Qed.

Lemma runs_or_empty c e st ps w p items bs : bracket_of c e st ps w ->
  (bs <> [] -> head bs <> Some e -> runs_at (at_state st (ps :: p)) items (scan (fin p)) bs) ->
  runs_at (at_state st (ps :: p)) (or_empty e items) (scan (fin p)) bs.
Proof.
  intros Hb Hr. destruct bs as [|b r]; [by destruct Hb|]. unfold runs_at. cbn [or_empty].
  destruct (decide (b = e)) as [->|He]; [|apply Hr; cbn; congruence].
  rewrite (empty_here c e st ps w p r Hb). cbn. by rewrite decide_True.
Qed.

(** Inside an array that does not end, the scanner is at the beginning of a value;
    inside such an object, at a quote. *)
Lemma element_here p c r : one_gap (c :: r) = NoGap -> c <> CH "]" ->
  scan (cfg sBeginValueOrEmpty p) (c :: r) = scan (cfg sBeginValue p) (c :: r).
Proof.
  intros Hg Hc. apply scan_same. step. unfold stateBeginValueOrEmpty. rewrite (skipping_other _ r) by done.
  rewrite decide_False by done. unfold stateBeginValue. rewrite !(skipping_other _ r) by done.
  by repeat (case_decide; [done|]).
Qed.
Lemma member_here p c r : one_gap (c :: r) = NoGap -> c <> CH "}" ->
  runs_at (at_state sBeginStringOrEmpty p) (eat 34) (at_state sInString p) (c :: r).
Proof.
  intros Hg Hc.
  assert (run_step c (cfg sBeginStringOrEmpty p) =
    (if decide (c = 34) then set_step sInString ;; ret scanBeginLiteral
     else error c "looking for beginning of object key string")%go (cfg sBeginStringOrEmpty p)) as Hr.
  { step. unfold stateBeginStringOrEmpty. rewrite (skipping_other _ r), decide_False by done.
    unfold stateBeginString. by rewrite (skipping_other _ r). }
  unfold runs_at. cbn [eat]. destruct (decide (c = 34)) as [->|H34].
  - rewrite (scan_keeps _ _ (cfg sInString p) _ r Hr) by done.
    by destruct (scan (cfg sInString p) r).
  - by apply (run_error _ _ _ _ _ Hr).
Qed.

Lemma fin_cons a p : fin (a :: p) = cfg sEndValue (a :: p).
Proof. done. Qed.

(** [n] is enough for a value or the contents of a bracket. *)
Definition enough (w : what) (bs : list Z) (n : nat) : Prop :=
  (2 * length bs + (if w is Value then 1 else 2) <= n)%nat.
Definition reads_at (n : nat) (w : what) (bs : list Z) : Prop :=
  enough w bs n ->
  match w with
  | Value => forall p, runs_at (at_state sBeginValue p) (parse n Value (maxNestingDepth - zlen p)) (scan (fin p)) bs
  | _ => forall c e st ps p, bracket_of c e st ps w ->
      runs_at (at_state st (ps :: p)) (parse n w (maxNestingDepth - zlen (ps :: p))) (scan (fin p)) bs
  end.

Section Step.
Context (n : nat) (IH : forall w bs, reads_at n w bs).

Lemma reads_inner c e st ps w p r : bracket_of c e st ps w -> (2 * length r + 2 <= n)%nat ->
  runs_at (at_state st (ps :: p)) (parse n w (maxNestingDepth - zlen p - 1)) (scan (fin p)) r.
Proof.
  intros Hb Hn. replace (maxNestingDepth - zlen p - 1) with (maxNestingDepth - zlen (ps :: p)) by (rewrite zlen_cons; lia).
  specialize (IH w r). unfold reads_at, enough in IH. destruct w; [by inversion Hb|by eapply IH..].
Qed.

Lemma reads_value bs : reads_at (S n) Value bs.
Proof.
  intros Hn p. unfold enough in Hn. cbn [parse]. apply runs_after_gap; [constructor|]. intros k bs' Hs Hg.
  apply shrinks in Hs. destruct bs' as [|c r]; [done|]. cbn in Hs. unfold runs_at. cbn [value_body].
  destruct (decide (c = CH "{")) as [->|Ho].
  { eapply runs_bracket; [constructor|]. apply (reads_inner _ _ _ _ _ _ _ bracket_object). lia. }
  destruct (decide (c = CH "[")) as [->|Ha].
  { eapply runs_bracket; [constructor|]. apply (reads_inner _ _ _ _ _ _ _ bracket_array). lia. }
  by apply runs_literal_at.
Qed.

Lemma reads_rest c e st ps w p bs : bracket_of c e st ps w -> (2 * length bs + 2 <= S n)%nat ->
  runs_at (at_state sEndValue (item_mark ps :: p))
    (skipped ~~ close e (parse n w (maxNestingDepth - zlen (ps :: p)))) (scan (fin p)) bs.
Proof.
  intros Hb Hn. apply runs_after_gap; [constructor|]. intros k r Hs Hg. apply shrinks in Hs.
  eapply runs_close; [done..|]. intros r' Hr. rewrite zlen_cons.
  replace (maxNestingDepth - (1 + zlen p)) with (maxNestingDepth - zlen p - 1) by lia.
  eapply reads_inner; [done|]. lia.
Qed.

Lemma reads_elements bs : reads_at (S n) Elements bs.
Proof.
  intros Hn c e st ps p Hb. unfold enough in Hn. inversion Hb; subst c e st ps. cbn [parse].
  apply runs_after_gap; [constructor|]. intros k r Hs Hg. apply shrinks in Hs.
  apply (runs_or_empty _ _ _ _ _ _ _ _ bracket_array). intros Hr He. destruct r as [|b r]; [done|].
  unfold runs_at. rewrite element_here; [|done|cbn in He; congruence].
  apply (runs_at_seq _ _ (scan (fin (parseArrayValue :: p)))); [apply (IH Value); unfold enough; lia|].
  intros k' r' Hk. apply shrinks in Hk. apply (reads_rest _ _ _ _ _ p r' bracket_array). lia.
Qed.

Lemma reads_members bs : reads_at (S n) Members bs.
Proof.
  intros Hn c e st ps p Hb. unfold enough in Hn. inversion Hb; subst c e st ps. cbn [parse].
  apply runs_after_gap; [constructor|]. intros k r Hs Hg. apply shrinks in Hs.
  apply (runs_or_empty _ _ _ _ _ _ _ _ bracket_object). intros Hr He. destruct r as [|b r]; [done|].
  apply (runs_at_seq _ _ (scan (fin (parseObjectValue :: p)))).
  - unfold member. replace (maxNestingDepth - zlen (parseObjectKey :: p)) with (maxNestingDepth - zlen (parseObjectValue :: p))
      by (by rewrite !zlen_cons).
    apply (runs_at_seq _ _ (at_state sInString (parseObjectKey :: p))); [apply member_here; [done|cbn in He; congruence]|].
    intros k1 r1 H1. apply shrinks in H1.
    apply (runs_at_seq _ _ (at_state sEndValue (parseObjectKey :: p))); [apply (runs_string (parseObjectKey :: p))|].
    intros k2 r2 H2. apply shrinks in H2.
    apply runs_after_gap; [constructor|]. intros k3 r3 H3 Hg3. apply shrinks in H3.
    apply (runs_at_seq _ _ (at_state sBeginValue (parseObjectValue :: p))).
    { destruct r3; [done|]. by apply colon_here. }
    intros k4 r4 H4. apply shrinks in H4. apply (IH Value). unfold enough. cbn in *. lia.
  - intros k' r' Hk. apply shrinks in Hk. apply (reads_rest _ _ _ _ _ p r' bracket_object). lia.
Qed.
End Step.

Lemma parse_reads n w bs : reads_at n w bs.
Proof.
  revert w bs. induction n as [|n IH]; intros w bs.
  - unfold reads_at, enough. destruct w; lia.
  - destruct w; [by apply reads_value|by apply reads_elements|by apply reads_members].
Qed.

(** The scanner keeps of a document what the grammar keeps of it; any fuel from twice
    the length on is enough. *)
Lemma scan_document_fuel n bs : (2 * length bs + 1 <= n)%nat -> scan (cfg sBeginValue []) bs =
  ('(k, r) ← parse n Value maxNestingDepth bs; r ← skip r; if decide (r = []) then Some k else None).
Proof.
  intros Hn. assert (runs_at (at_state sBeginValue []) (parse n Value maxNestingDepth) (scan top) bs) as ->.
  { by apply (parse_reads n Value bs). }
  destruct (parse n Value _ bs) as [[k r]|]; [|done]. cbn.
  rewrite (runs_skipped sEndTop true [] between_top : runs (scan top) skipped (scan top)).
  unfold skipped. destruct (skip r) as [r'|] eqn:Hr; [|done]. cbn. rewrite app_nil_fmap.
  apply skip_fuel_no_gap in Hr. destruct r' as [|c r'].
  { change (app k <$> Some [] = Some k). cbn. by rewrite app_nil_r. }
  rewrite decide_False by done. apply no_gap_head in Hr as (Hs & Hh & Hl).
  assert (run_step c top = (error c "after top-level value" ;; ret scanEnd)%go top) as He.
  { unfold run_step. rewrite bind_gets. cbn [JsonScanner.step top]. unfold stateEndTop. rewrite Hs.
    by erewrite bind_run; [|by apply beginComment_other]. }
  rewrite (scan_skips _ _ _ _ _ He) by (by right). by destruct r'.
Qed.
Lemma scan_document bs : scan (cfg sBeginValue []) bs = document bs.
Proof. apply scan_document_fuel. lia. Qed.

(** ** The number of bytes read does not matter

    Two scanners that differ in [bytes] and in the offset of the error take the
    same steps. *)

Record same_scanner (x1 x2 : scanner) : Prop := mkSame {
  same_step : JsonScanner.step x1 = JsonScanner.step x2;
  same_endTop : endTop x1 = endTop x2;
  same_stack : parseState x1 = parseState x2;
  same_err : err x1 = None <-> err x2 = None;
  same_comment : commentStep x1 = commentStep x2;
  same_mode : commentMode x1 = commentMode x2 }.

#[export] Instance same_equivalence : Equivalence same_scanner.
Proof.
  split.
  - by intros s.
  - by intros s t []; split.
  - intros s t u [] []. split; try congruence. by etrans.
Qed.

Definition same_outcome {A} (o1 o2 : outcome (A * scanner)) : Prop :=
  match o1, o2 with
  | Val (a1, x1), Val (a2, x2) => a1 = a2 /\ same_scanner x1 x2
  | Panic, Panic | OutOfFuel, OutOfFuel => True
  | _, _ => False
  end.

Class Agnostic {A} (m : GoM scanner A) : Prop :=
  agnostic : forall x1 x2, same_scanner x1 x2 -> same_outcome (m x1) (m x2).

#[export] Instance agnostic_ret {A} (a : A) : Agnostic (ret a).
Proof. by intros x1 x2. Qed.
#[export] Instance agnostic_panic {A} : Agnostic (A := A) panic.
Proof. by intros x1 x2. Qed.
#[export] Instance agnostic_lift {A} (o : option A) : Agnostic (lift o).
Proof. intros x1 x2 Hs. by destruct o. Qed.
#[export] Instance agnostic_bind {A B} (m : GoM scanner A) (k : A -> GoM scanner B) :
  Agnostic m -> (forall a, Agnostic (k a)) -> Agnostic (bind m k).
Proof.
  intros Hm Hk x1 x2 Hs. specialize (Hm x1 x2 Hs). unfold bind.
  destruct (m x1) as [[a1 t1]| |], (m x2) as [[a2 t2]| |]; try done. destruct Hm as [-> Ht]. by apply Hk.
Qed.
#[export] Instance agnostic_decide {A} P `{Decision P} (m1 m2 : GoM scanner A) :
  Agnostic m1 -> Agnostic m2 -> Agnostic (if decide P then m1 else m2).
Proof. intros ??. by destruct (decide P). Qed.
#[export] Instance agnostic_if {A} (b : bool) (m1 m2 : GoM scanner A) :
  Agnostic m1 -> Agnostic m2 -> Agnostic (if b then m1 else m2).
Proof. by destruct b. Qed.
#[export] Instance agnostic_set_step f : Agnostic (set_step f).
Proof. by intros x1 x2 []. Qed.
#[export] Instance agnostic_set_endTop b : Agnostic (set_endTop b).
Proof. by intros x1 x2 []. Qed.
#[export] Instance agnostic_set_parseState p : Agnostic (set_parseState p).
Proof. by intros x1 x2 []. Qed.
#[export] Instance agnostic_set_comment n m : Agnostic (set_comment n m).
Proof. by intros x1 x2 []. Qed.
#[export] Instance agnostic_set_err e : Agnostic (set_err e).
Proof. by intros x1 x2 []. Qed.
#[export] Instance agnostic_step : Agnostic (gets JsonScanner.step).
Proof. by intros x1 x2 []. Qed.
#[export] Instance agnostic_stack : Agnostic (gets parseState).
Proof. by intros x1 x2 []. Qed.
#[export] Instance agnostic_comment : Agnostic (gets commentStep).
Proof. by intros x1 x2 []. Qed.
#[export] Instance agnostic_mode : Agnostic (gets commentMode).
Proof. by intros x1 x2 []. Qed.
#[export] Hint Extern 1 (Agnostic (match ?p with [] => _ | _ :: _ => _ end)) => destruct p : typeclass_instances.
#[export] Hint Extern 1 (Agnostic (match ?f with sMaybeComment => _ | _ => _ end)) => destruct f : typeclass_instances.

#[export] Instance agnostic_error c context : Agnostic (error c context).
Proof. unfold error. apply _. Qed.
#[export] Instance agnostic_beginComment c next : Agnostic (stateBeginComment c next).
Proof. unfold stateBeginComment. apply _. Qed.
#[export] Instance agnostic_end_comment : Agnostic end_comment.
Proof. unfold end_comment. apply _. Qed.
#[export] Instance agnostic_pop : Agnostic popParseState.
Proof. unfold popParseState. apply _. Qed.
#[export] Instance agnostic_push c p o : Agnostic (pushParseState c p o).
Proof. unfold pushParseState. apply _. Qed.
#[export] Instance agnostic_endTop c : Agnostic (stateEndTop c).
Proof. unfold stateEndTop. apply _. Qed.
#[export] Instance agnostic_endValue c : Agnostic (stateEndValue c).
Proof. unfold stateEndValue. apply _. Qed.
#[export] Instance agnostic_skipping c n k : Agnostic k -> Agnostic (skipping c n k).
Proof. intros ?. unfold skipping. apply _. Qed.
#[export] Instance agnostic_beginValue c : Agnostic (stateBeginValue c).
Proof. unfold stateBeginValue. apply _. Qed.
#[export] Instance agnostic_beginString c : Agnostic (stateBeginString c).
Proof. unfold stateBeginString. apply _. Qed.
#[export] Instance agnostic_run_step c : Agnostic (run_step c).
Proof.
  unfold run_step, stateMaybeComment, stateInLineComment, stateInBlockComment, stateInBlockCommentStar,
    stateBeginValueOrEmpty, stateBeginStringOrEmpty, stateInString, stateInStringEsc, stateInStringEscU,
    stateInStringEscU1, stateInStringEscU12, stateInStringEscU123, hex_digit, stateNeg, state1, state0, stateDot,
    stateDot0, stateE, stateESign, stateE0, stateT, stateTr, stateTru, stateF, stateFa, stateFal, stateFals,
    stateN, stateNu, stateNul, expect, stateError, state0, stateESign.
  apply _.
Qed.
(** The end of eof: the error after the step on a space. *)
Lemma agnostic_after_space : Agnostic (s <- gets id ;;
  if endTop s then ret scanEnd else
  (if decide (err s = None) then set_err (UnexpectedEnd "unexpected end of JSON input") else ret tt) ;;
  ret scanError)%go.
Proof.
  intros x1 x2 Hs. rewrite !bind_gets. cbn [id]. pose proof (same_err _ _ Hs) as He.
  rewrite (same_endTop _ _ Hs). destruct (endTop x2); [done|].
  destruct (decide (err x1 = None)) as [E|E]; [rewrite decide_True by tauto|rewrite decide_False by tauto; done].
  by destruct Hs.
Qed.
#[export] Instance agnostic_eof : Agnostic eof.
Proof.
  intros x1 x2 Hs. unfold eof. rewrite !bind_gets. cbn [id].
  pose proof (same_err _ _ Hs) as He. rewrite (same_endTop _ _ Hs), (same_mode _ _ Hs).
  destruct (err x1), (err x2); [done|by destruct He as [_ He]; specialize (He eq_refl)
    |by destruct He as [He _]; specialize (He eq_refl)|].
  pose proof agnostic_after_space. generalize (commentMode x2) (endTop x2). intros m e.
  match goal with |- same_outcome (?f x1) (?f x2) => enough (Agnostic f) as Hf by by apply Hf end.
  apply _.
Qed.

(** ** The scanner never panics

    The invariant: a comment has a state to return to, an object that has just
    been opened or continued is on the stack, and a scanner that has failed has an
    error. *)

Definition on_stack (st : state) (p : list Z) : Prop := st = sBeginStringOrEmpty -> p <> [].
Definition is_comment (st : state) : bool :=
  match st with sMaybeComment | sInLineComment | sInBlockComment | sInBlockCommentStar => true | _ => false end.
Record sane (s : scanner) : Prop := mkSane {
  sane_comment : is_comment (JsonScanner.step s) = true ->
    exists next, commentStep s = Some next /\ is_comment next = false /\ on_stack next (parseState s) /\ next <> sError;
  sane_stack : on_stack (JsonScanner.step s) (parseState s);
  sane_error : JsonScanner.step s = sError <-> err s <> None;
  sane_mode : commentMode s = scannerLineComment -> err s = None -> is_comment (JsonScanner.step s) = true }.

(** A step succeeds and keeps the invariant; the opcode of an error comes with
    one. *)
Definition steps_well (o : outcome (Z * scanner)) : Prop :=
  match o with Val (op, s) => sane s /\ (op = scanError -> err s <> None) | _ => False end.

Lemma steps_decide P `{Decision P} (m1 m2 : GoM scanner Z) s :
  steps_well (m1 s) -> steps_well (m2 s) -> steps_well ((if decide P then m1 else m2) s).
Proof. by destruct (decide P). Qed.
Lemma steps_if (b : bool) (m1 m2 : GoM scanner Z) s :
  steps_well (m1 s) -> steps_well (m2 s) -> steps_well ((if b then m1 else m2) s).
Proof. by destruct b. Qed.

Record outside (s : scanner) : Prop := mkOutside {
  outside_comment : is_comment (JsonScanner.step s) = false;
  outside_mode : commentMode s <> scannerLineComment;
  outside_err : err s = None }.
Lemma sane_outside s : sane s -> is_comment (JsonScanner.step s) = false -> JsonScanner.step s <> sError -> outside s.
Proof.
  intros Hs Hc He. assert (err s = None) as Hn by (destruct (err s) eqn:E; [|done]; exfalso; apply He, (sane_error s Hs); congruence).
  split; [done| |done]. intros Hm. pose proof (sane_mode s Hs Hm Hn). congruence.
Qed.

Ltac branches := repeat match goal with
  | |- steps_well ((if decide _ then _ else _) _) => apply steps_decide end.

(** A machine state outside comments: what a step leaves. *)
Lemma sane_at st e p n cs m : is_comment st = false -> st <> sError -> on_stack st p -> m <> scannerLineComment ->
  sane (mkScanner st e p None n cs m).
Proof. intros Hc He Hs Hm. split; cbn; [congruence|done|naive_solver|congruence]. Qed.
Lemma sane_failed e p x n cs m : sane (mkScanner sError e p (Some x) n cs m).
Proof. by split. Qed.
Lemma sane_in st next e p n m : is_comment st = true -> is_comment next = false -> next <> sError -> on_stack next p ->
  sane (mkScanner st e p None n (Some next) m).
Proof. intros Hc Hn He Hs. split; cbn; [eauto|by intros ->|by intros; split; [intros ->|]|done]. Qed.

Lemma steps_error c context s : steps_well (error c context s).
Proof. split; [apply sane_failed|done]. Qed.
Lemma steps_goto st op s : outside s -> is_comment st = false -> st <> sError ->
  on_stack st (parseState s) -> op <> scanError -> steps_well ((set_step st ;; ret op)%go s).
Proof. intros Ho Hc Hst He Hop. split; [|done]. cbn. rewrite (outside_err s Ho). apply sane_at; try done. apply Ho. Qed.

Lemma steps_comment c next k s : outside s -> is_comment next = false -> next <> sError -> on_stack next (parseState s) ->
  steps_well (k s) -> steps_well ((op <- stateBeginComment c next ;; if decide (op >= 0) then ret op else k)%go s).
Proof.
  intros Ho Hc He Hn Hk. unfold stateBeginComment. pose proof (outside_err s Ho) as Hs.
  destruct (decide (c = CH "#")); [split; [|done]; cbn; rewrite Hs; by apply sane_in|].
  destruct (decide (c = CH "/")); [split; [|done]; cbn; rewrite Hs; by apply sane_in|].
  exact Hk.
Qed.

Lemma steps_pop (op : Z) ps p s : outside s -> parseState s = ps :: p -> op <> scanError ->
  steps_well ((popParseState ;; ret op)%go s).
Proof.
  intros Ho Hp Hop. unfold popParseState. rewrite bind_bind, bind_gets, Hp. pose proof (outside_mode s Ho).
  destruct p; (split; [|done]); cbn; rewrite (outside_err s Ho); by apply sane_at.
Qed.
Lemma steps_endTop c s : sane s -> outside s -> steps_well (stateEndTop c s).
Proof.
  intros Hs Ho. unfold stateEndTop. destruct (isSpace c); [by split|].
  apply steps_comment; [done..|]. split; [apply sane_failed|done].
Qed.
Lemma steps_endValue c s : outside s -> steps_well (stateEndValue c s).
Proof.
  intros Ho. unfold stateEndValue. rewrite bind_gets. destruct (parseState s) as [|ps p] eqn:Hp.
  { destruct Ho as [Hc Hm He]. destruct s as [st e q er b cs m]. cbn in *. subst.
    apply (steps_endTop c (mkScanner sEndTop true [] None b cs m)); [by apply sane_at|by split]. }
  apply steps_if; [by apply steps_goto|]. apply steps_comment; [done..|]. pose proof (outside_mode s Ho).
  branches; try by apply steps_error.
  - split; [|done]. cbn. rewrite (outside_err s Ho). by apply sane_at.
  - split; [|done]. cbn. rewrite (outside_err s Ho). by apply sane_at.
  - by apply (steps_pop _ ps p).
  - by apply steps_goto.
  - by apply (steps_pop _ ps p).
Qed.
Lemma steps_push c ps op st s : outside s -> op <> scanError -> st <> sError -> is_comment st = false ->
  steps_well ((set_step st ;; pushParseState c ps op)%go s).
Proof.
  intros Ho Hop He Hst. unfold pushParseState. pose proof (outside_mode s Ho).
  change (steps_well ((if decide (zlen (ps :: parseState s) <= maxNestingDepth) then ret op
    else error c "exceeded max depth")%go (mkScanner st (endTop s) (ps :: parseState s) (err s) (bytes s) (commentStep s) (commentMode s)))).
  apply steps_decide; [|by apply steps_error]. split; [|done]. rewrite (outside_err s Ho). by apply sane_at.
Qed.
Lemma steps_skipping c st k s : sane s -> outside s -> is_comment st = false -> st <> sError -> on_stack st (parseState s) ->
  steps_well (k s) -> steps_well (skipping c st k s).
Proof.
  intros Hs Ho Hc He Hst Hk. unfold skipping. apply steps_if; [|by apply steps_comment].
  split; [done|]. by rewrite (outside_err s Ho).
Qed.
Lemma steps_beginValue c s : sane s -> outside s -> steps_well (stateBeginValue c s).
Proof.
  intros Hs Ho. unfold stateBeginValue. apply steps_skipping; [done..|].
  branches; try (by apply steps_goto); try (by apply steps_push); by apply steps_error.
Qed.
Lemma steps_beginString c s : sane s -> outside s -> steps_well (stateBeginString c s).
Proof.
  intros Hs Ho. unfold stateBeginString. apply steps_skipping; [done..|].
  apply steps_decide; [by apply steps_goto|by apply steps_error].
Qed.

(** ** Steps inside a comment *)

Lemma end_comment_well s : sane s -> is_comment (JsonScanner.step s) = true -> err s = None ->
  exists s', end_comment s = Val (tt, s') /\ sane s' /\ err s' = None /\ endTop s' = endTop s.
Proof.
  intros Hs Hc He. destruct (sane_comment s Hs Hc) as (n & Hn & Hnc & Hst & Hne).
  exists (mkScanner n (endTop s) (parseState s) None (bytes s) None scannerNoComment). split.
  - unfold end_comment. rewrite bind_gets, Hn. cbn. by rewrite He.
  - split; [by apply sane_at|done].
Qed.

Lemma run_comment_well c s : sane s -> is_comment (JsonScanner.step s) = true -> steps_well (run_step c s).
Proof.
  intros Hs Hc. pose proof (sane_comment s Hs Hc) as (n & Hn & Hnc & Hst & Hne).
  assert (err s = None) as He.
  { destruct (err s) eqn:E; [|done]. assert (JsonScanner.step s = sError) as Hx by (apply (sane_error s Hs); congruence).
    by rewrite Hx in Hc. }
  destruct (end_comment_well s Hs Hc He) as (s' & Hr & Hs' & He' & _).
  assert (steps_well ((end_comment ;; ret scanSkipSpace)%go s)) as Hend.
  { erewrite bind_run by apply Hr. split; [done|]. by rewrite He'. }
  assert (forall st m, is_comment st = true -> sane (mkScanner st (endTop s) (parseState s) (err s) (bytes s) (commentStep s) m)) as Hin.
  { intros st m Hst'. rewrite He, Hn. by apply sane_in. }
  unfold run_step. rewrite bind_gets. destruct (JsonScanner.step s) eqn:E; try done.
  - unfold stateMaybeComment. rewrite bind_gets. branches; [..|apply steps_error].
    + split; [by apply Hin|]. done.
    + split; [by apply Hin|]. done.
  - unfold stateInLineComment. destruct (decide _); [done|]. by split.
  - unfold stateInBlockComment. destruct (decide _); [|by split]. split; [by apply Hin|done].
  - unfold stateInBlockCommentStar. destruct (decide _); [done|]. destruct (decide _); [by split|].
    split; [by apply Hin|done].
Qed.

Lemma steps_hex next c s : outside s -> is_comment next = false -> next <> sError -> on_stack next (parseState s) ->
  steps_well (hex_digit next c s).
Proof. intros. unfold hex_digit. destruct (is_hex c); [by apply steps_goto|apply steps_error]. Qed.
Lemma steps_expect x next context c s : outside s -> is_comment next = false -> next <> sError -> on_stack next (parseState s) ->
  steps_well (expect x next context c s).
Proof. intros. unfold expect. destruct (decide _); [by apply steps_goto|apply steps_error]. Qed.

Lemma steps_continue s (op : Z) : sane s -> outside s -> op <> scanError -> steps_well (ret op s).
Proof. intros Hs Ho Hop. by split. Qed.

Lemma run_token_well c s : sane s -> outside s -> steps_well (run_step c s).
Proof.
  intros Hs Ho. pose proof (sane_stack s Hs) as Hst. unfold run_step. rewrite bind_gets.
  pose proof (steps_endValue c s Ho) as Hend. pose proof (outside_comment s Ho) as Hoc.
  assert (steps_well (state0 c s)) as H0.
  { unfold state0. branches; [by apply steps_goto|by apply steps_goto|done]. }
  assert (steps_well (stateESign c s)) as HE.
  { unfold stateESign. destruct (is_digit c); [by apply steps_goto|apply steps_error]. }
  destruct (JsonScanner.step s) eqn:E; try done.
  all: try (by apply steps_hex); try (by apply steps_expect).
  - unfold stateBeginValueOrEmpty. apply steps_skipping; [done..|]. apply steps_decide; [done|by apply steps_beginValue].
  - by apply steps_beginValue.
  - unfold stateBeginStringOrEmpty. apply steps_skipping; [done..|]. apply steps_decide; [|by apply steps_beginString].
    rewrite bind_gets. destruct (parseState s) as [|a p]; [by specialize (Hst eq_refl)|].
    unfold set_parseState. rewrite bind_modify. pose proof (outside_mode s Ho). apply steps_endValue.
    split; [cbn; by rewrite E|done|apply (outside_err s Ho)].
  - by apply steps_beginString.
  - by apply steps_endTop.
  - unfold stateInString. branches; [by apply steps_goto|by apply steps_goto|apply steps_error|by split].
  - unfold stateInStringEsc. branches; [by apply steps_goto|by apply steps_goto|apply steps_error].
  - unfold stateNeg. branches; [by apply steps_goto|by apply steps_goto|apply steps_error].
  - unfold state1. destruct (is_digit c); [by apply steps_goto|done].
  - unfold stateDot. destruct (is_digit c); [by apply steps_goto|apply steps_error].
  - unfold stateDot0. destruct (is_digit c); [by split|]. branches; [by apply steps_goto|done].
  - unfold stateE. branches; [by apply steps_goto|done].
  - unfold stateE0. destruct (is_digit c); [by split|done].
  - exfalso. assert (err s <> None) as He by by apply (sane_error s Hs). apply He, (outside_err s Ho).
Qed.

(** Every step of a sane scanner succeeds and leaves a sane one. *)
Lemma run_step_well c s : sane s -> steps_well (run_step c s).
Proof.
  intros Hs. destruct (is_comment (JsonScanner.step s)) eqn:Hc; [by apply run_comment_well|].
  destruct (decide (JsonScanner.step s = sError)) as [He|He]; [|apply run_token_well; [done|by apply sane_outside]].
  unfold run_step. rewrite bind_gets, He. split; [done|]. intros _. by apply (sane_error s Hs).
Qed.

(** The end of the input leaves the error it reports. *)
Lemma eof_well s : sane s -> match eof s with Val (op, s') => op = scanError -> err s' <> None | _ => False end.
Proof.
  intros Hs. unfold eof. rewrite bind_gets. cbn [id]. destruct (err s) eqn:He; [by cbn; rewrite He|].
  destruct (decide (commentMode s = scannerBlockComment)); [done|].
  assert (exists s', (if decide (commentMode s = scannerLineComment) then end_comment else ret tt) s = Val (tt, s') /\ sane s')
    as (s' & Hr & Hs').
  { case_decide as Hm; [|by eexists]. pose proof (sane_mode s Hs Hm He) as Hc.
    destruct (end_comment_well s Hs Hc He) as (s' & Hr & Hs' & _). eauto. }
  erewrite bind_run by apply Hr. destruct (endTop s); [done|].
  pose proof (run_step_well 32 s' Hs') as Hw. unfold bind at 1. destruct (run_step 32 s') as [[op s2]| |]; [|done..].
  rewrite bind_gets. cbn [id]. destruct (endTop s2); [done|].
  destruct (decide (err s2 = None)) as [E|E]; [done|by intros _].
Qed.

(** ** checkValid *)

Lemma reset_sane s : sane (reset s).
Proof. by apply sane_at. Qed.
Lemma set_bytes_sane n s : sane s -> sane (set_bytes n s).
Proof. by intros []. Qed.

Lemma checkValid_loop_scan bs x y : sane x -> same_scanner x y ->
  exists e s, checkValid_loop bs x = Val (e, s) /\ (e = None <-> is_Some (scan y bs)).
Proof.
  revert x y. induction bs as [|c bs IH]; intros x y Hx Hxy.
  - pose proof (eof_well x Hx) as Hw. pose proof (agnostic_eof x y Hxy) as Ha. cbn [checkValid_loop scan]. unfold bind.
    destruct (eof x) as [[op x']| |], (eof y) as [[op' y']| |]; try done. destruct Ha as [<- Ha].
    destruct (decide (op = scanError)) as [Ho|Ho]; do 2 eexists; (split; [reflexivity|]); [|by split].
    split; [by intros ?%Hw|by intros []].
  - cbn [checkValid_loop scan]. rewrite bind_modify.
    assert (same_scanner (set_bytes (bytes x + 1) x) y) as Hb by (by rewrite <- Hxy).
    pose proof (run_step_well c _ (set_bytes_sane (bytes x + 1) x Hx)) as Hw.
    pose proof (agnostic_run_step c _ y Hb) as Ha. unfold bind.
    destruct (run_step c (set_bytes _ x)) as [[op x']| |], (run_step c y) as [[op' y']| |]; try done.
    destruct Ha as [<- Ha]. destruct Hw as [Hw He].
    destruct (decide (op = scanError)) as [Ho|Ho].
    { do 2 eexists. split; [reflexivity|]. split; [by intros ?%He|by intros []]. }
    destruct (IH x' y' Hw Ha) as (e & s & Hr & Hi). exists e, s. split; [done|]. rewrite Hi.
    destruct (decide (op < scanSkipSpace)); [by rewrite fmap_is_Some|done].
Qed.

Lemma checkValid_scan data s : exists e s', checkValid data s = Val (e, s') /\ (e = None <-> is_Some (document data)).
Proof.
  unfold checkValid. rewrite bind_modify, <- scan_document. apply checkValid_loop_scan; [apply reset_sane|by split].
Qed.

(** C2: Valid never panics and accepts exactly the documents of the reference
    grammar, whatever the pooled scanner it starts from held before. *)
Theorem json_valid_grammar (pooled : scanner) (data : list Z) :
  Valid pooled data = Val (bool_decide (is_Some (document data))).
Proof.
  unfold Valid. destruct (checkValid_scan data (newScanner pooled)) as (e & s & -> & He). cbn.
  f_equal. by apply bool_decide_ext.
Qed.
