(* ===== verification/JsonGrammarProps.v ===== *)
(** * What a reader keeps, it reads again

    A reader of the reference grammar gives back, on the bytes it kept, the same
    bytes: a document in compact form is its own compact form. *)

From S2P Require Import Prelude.
From S2P Require Import JsonScanner.
From S2P Require Import JsonGrammar.
From S2P Require Import JsonScannerTheorems.
From S2P Require Import JsonScannerProps.
From Stdlib Require Import Ascii.

(** Before an input in [P] the reader reads again what it kept, and what it kept
    followed by such an input is in [Q]. *)
Class Stable (q : reader_of) (P Q : list Z -> Prop) : Prop :=
  stable : forall bs k r r', q bs = Some (k, r) -> P r' -> q (k ++ r') = Some (k, r') /\ Q (k ++ r').

Lemma stable_weaken q (P P' Q Q' : list Z -> Prop) : Stable q P Q -> (forall r, P' r -> P r) -> (forall r, Q r -> Q' r) -> Stable q P' Q'.
Proof. intros Hq HP HQ bs k r r' Hr Hp. destruct (Hq bs k r r' Hr) as [? ?]; auto. Qed.

Lemma seq_Some p q bs k r : (p ~~ q) bs = Some (k, r) ->
  exists k1 r1 k2, p bs = Some (k1, r1) /\ q r1 = Some (k2, r) /\ k = k1 ++ k2.
Proof.
  unfold seq_read. destruct (p bs) as [[k1 r1]|]; [|done]. cbn. destruct (q r1) as [[k2 r2]|] eqn:E; [|done]. cbn.
  intros [= <- <-]. exists k1, r1, k2. done.
Qed.
Lemma stable_seq q1 q2 P1 P2 Q1 : Stable q1 P1 Q1 -> Stable q2 P2 P1 -> Stable (q1 ~~ q2) P2 Q1.
Proof.
  intros H1 H2 bs k r r' (k1 & r1 & k2 & E1 & E2 & ->)%seq_Some Hp.
  destruct (H2 _ _ _ r' E2 Hp) as [E2' Hp2]. destruct (H1 _ _ _ (k2 ++ r') E1 Hp2) as [E1' Hq].
  rewrite <- app_assoc. split; [|done]. unfold seq_read. rewrite E1'. cbn. rewrite E2'. done.
Qed.

(** The first byte. *)
Definition heads (A : Z -> Prop) (bs : list Z) : Prop := match bs with c :: _ => A c | [] => False end.
(** The end, or a first byte. *)
Definition ends (A : Z -> Prop) (bs : list Z) : Prop := match bs with c :: _ => A c | [] => True end.
Definition any (bs : list Z) : Prop := True.

Lemma heads_impl (A B : Z -> Prop) r : (forall c, A c -> B c) -> heads A r -> heads B r.
Proof. destruct r; cbn; auto. Qed.
Lemma ends_impl (A B : Z -> Prop) r : (forall c, A c -> B c) -> ends A r -> ends B r.
Proof. destruct r; cbn; auto. Qed.
Lemma heads_ends (A : Z -> Prop) r : heads A r -> ends A r.
Proof. by destruct r. Qed.

(** A test on one byte, [c] being the byte read. *)
Lemma stable_byte (ok : Z -> Prop) (q : reader_of) :
  (forall bs k r, q bs = Some (k, r) -> exists c, k = [c] /\ ok c /\ forall r', q (c :: r') = Some ([c], r')) ->
  Stable q any (heads ok).
Proof. intros Hq bs k r r' (c & -> & Hc & Hr)%Hq _. split; [apply Hr|done]. Qed.
Lemma stable_eat c : Stable (eat c) any (heads (fun b => b = c)).
Proof.
  apply stable_byte. intros bs k r [-> ->]%eat_Some. exists c. split; [done|]. split; [done|]. intros r'. cbn. by rewrite decide_True.
Qed.
Lemma stable_hex : Stable eat_hex any any.
Proof.
  eapply stable_weaken; [apply (stable_byte (fun _ => True))|done|done].
  intros [|b bs] k r; cbn; [done|]. destruct (is_hex b) eqn:E; [|done]. intros [= <- <-]. exists b. split; [done|].
  split; [done|]. intros r'. cbn. by rewrite E.
Qed.
Lemma stable_one_of cs : Stable (one_of cs) any (heads (fun b => b ∈ cs)).
Proof.
  apply stable_byte. intros [|b bs] k r; cbn; [done|]. case_decide as E; [|done]. intros [= <- <-]. exists b. split; [done|].
  split; [done|]. intros r'. cbn. by rewrite decide_True.
Qed.
Lemma stable_word c w : Stable (eat_word (c :: w)) any (heads (fun b => b = c)).
Proof.
  revert c. induction w as [|d w IH]; intros c.
  - intros bs k r r' H _. apply seq_Some in H as (k1 & r1 & k2 & [-> ->]%eat_Some & E & ->).
    injection E as <- <-. cbn. by rewrite decide_True.
  - apply (stable_seq (eat c) (eat_word (d :: w)) any); [apply stable_eat|].
    by eapply stable_weaken; [apply IH| |].
Qed.

(** Blanks and comments are not kept; what starts none is not skipped. *)
Lemma skip_no_gap r : one_gap r = NoGap -> skipped r = Some ([], r).
Proof. intros Hr. unfold skipped, skip. destruct (length r); cbn; by rewrite Hr. Qed.
Lemma stable_skipped (P : list Z -> Prop) : (forall r, P r -> one_gap r = NoGap) -> Stable skipped P P.
Proof.
  intros HP bs k r r'. unfold skipped at 1. destruct (skip bs); [|done]. intros [= <- <-] Hr. split; [|done].
  by apply skip_no_gap, HP.
Qed.

(** ** Strings *)

Lemma escape_stable : Stable escape any any.
Proof.
  intros [|e bs] k r r'; [done|]. cbn [escape]. destruct (is_escape e) eqn:E.
  { intros [= <- <-] _. cbn. by rewrite E. }
  case_decide as Hu; [|done]. subst e. intros H _.
  assert (Stable (eat (CH "u") ~~ eat_hex ~~ eat_hex ~~ eat_hex ~~ eat_hex) any (heads (fun b => b = CH "u"))) as Hst.
  { eapply stable_seq; [apply stable_eat|]. repeat (eapply stable_seq; [apply stable_hex|]). apply stable_hex. }
  destruct (Hst _ _ _ r' H I) as [Hk Hh]. destruct (k ++ r') as [|b kr] eqn:Ek; [done|]. cbn in Hh. subst b. by split.
Qed.
Lemma string_fuel_stable n bs k r r' m : string_fuel n bs = Some (k, r) -> (length (k ++ r') <= m)%nat ->
  string_fuel m (k ++ r') = Some (k, r').
Proof.
  revert bs k m. induction n as [|n IH]; intros bs k m; [done|]. cbn [string_fuel]. destruct bs as [|c bs]; [done|].
  destruct (decide (c = 34)) as [->|H34].
  { intros [= <- <-] Hm. destruct m; [cbn in Hm; lia|]. cbn. by rewrite decide_True. }
  destruct (decide (c = 92)) as [->|H92].
  - intros (k1 & r1 & k2 & [E ->]%eat_Some & H2 & ->)%seq_Some Hm. injection E as <-.
    apply seq_Some in H2 as (k3 & r3 & k4 & H3 & H4 & ->). destruct m as [|m]; [cbn in Hm; lia|].
    cbn in Hm. rewrite <- !app_assoc in *. cbn [app string_fuel]. rewrite decide_False, decide_True by done.
    unfold seq_read at 1. cbn [eat]. rewrite decide_True by done. cbn [mbind option_bind]. unfold seq_read.
    destruct (escape_stable _ _ _ (k4 ++ r') H3 I) as [-> _]. cbn [mbind option_bind].
    rewrite (IH _ _ m H4); [done|]. rewrite !length_app in *. lia.
  - destruct (decide (c < 32)); [done|]. intros (k1 & r1 & k2 & [E ->]%eat_Some & H2 & ->)%seq_Some Hm. injection E as <-.
    destruct m as [|m]; [cbn in Hm; lia|]. cbn in Hm. cbn [app string_fuel]. rewrite !decide_False by done.
    unfold seq_read. cbn [eat]. rewrite decide_True by done. cbn [mbind option_bind]. rewrite (IH _ _ m H2); [done|lia].
Qed.
Lemma string_stable : Stable read_string any any.
Proof. intros bs k r r' H _. split; [|done]. unfold read_string in *. by eapply string_fuel_stable. Qed.

(** ** Numbers *)

Definition digit (c : Z) : Prop := is_digit c = true.
Definition not_digit (c : Z) : Prop := is_digit c = false.
Definition not_fraction (c : Z) : Prop := is_digit c = false /\ c <> CH ".".
(** A byte that cannot continue a number. *)
Definition not_number (c : Z) : Prop := is_digit c = false /\ c <> CH "." /\ c <> CH "e" /\ c <> CH "E".

Lemma digits_stable bs k r r' : digits bs = (k, r) -> ends not_digit r' -> digits (k ++ r') = (k, r').
Proof.
  revert k. induction bs as [|c bs IH]; intros k; cbn [digits].
  { intros [= <- <-] Hr. destruct r' as [|b r']; [done|]. cbn in *. by rewrite Hr. }
  destruct (is_digit c) eqn:E.
  - destruct (digits bs) as [k' r1]. intros [= <- <-] Hr. cbn. by rewrite E, (IH k').
  - intros [= <- <-] Hr. destruct r' as [|b r']; [done|]. cbn in *. by rewrite Hr.
Qed.
Lemma digits_all bs k r : digits bs = (k, r) -> Forall digit k.
Proof.
  revert k. induction bs as [|c bs IH]; intros k; cbn [digits]; [by intros [= <- <-]|].
  destruct (is_digit c) eqn:E; [|by intros [= <- <-]]. destruct (digits bs) as [k' r1]. intros [= <- <-].
  constructor; [done|]. by apply IH.
Qed.
Lemma digits1_stable : Stable digits1 (ends not_digit) (heads digit).
Proof.
  intros bs k r r'. unfold digits1. destruct (digits bs) as [[|c k'] r1] eqn:E; [done|]. intros [= <- <-] Hr.
  rewrite (digits_stable _ _ _ _ E Hr). split; [done|]. apply digits_all in E. by apply Forall_cons in E as [? _].
Qed.
Lemma optional_stable cs q P (Q : list Z -> Prop) :
  Stable q P (heads (fun c => c ∈ cs)) -> (forall r, P r -> ends (fun c => c ∉ cs) r) ->
  (forall r, P r -> Q r) -> (forall r, heads (fun c => c ∈ cs) r -> Q r) -> Stable (optional cs q) P Q.
Proof.
  intros Hq HP HQ1 HQ2 bs k r r' Hr Hp.
  assert (q bs = Some (k, r) /\ k <> [] \/ k = []) as [[Hk _]| ->].
  { destruct bs as [|c bs]; cbn in Hr; [injection Hr as <- <-; by right|].
    case_decide; [|injection Hr as <- <-; by right]. destruct k as [|b k]; [by right|left; done]. }
  - destruct (Hq _ _ _ r' Hk Hp) as [Hk' Hh]. split; [|by apply HQ2].
    destruct (k ++ r') as [|b kr]; [done|]. cbn in *. by rewrite decide_True.
  - cbn. split; [|by apply HQ1]. specialize (HP r' Hp). destruct r' as [|b r']; [done|]. cbn in *. by rewrite decide_False.
Qed.

Lemma digit_not c d : digit c -> is_digit d = false -> c <> d.
Proof. unfold digit. congruence. Qed.

Lemma exponent_stable : Stable exponent (ends not_number) (ends not_fraction).
Proof.
  apply optional_stable.
  - eapply stable_seq; [apply stable_one_of|]. eapply stable_weaken with (P := ends not_digit) (Q := any); [|..|done].
    + eapply stable_seq; [|apply digits1_stable]. apply optional_stable; [by eapply stable_weaken; [apply stable_one_of|..]|..].
      * intros r Hr. apply heads_ends. eapply heads_impl; [|exact Hr]. intros c Hc Hin%in2.
        destruct Hin as [-> | ->]; by unfold digit in Hc.
      * done.
      * done.
    + intros r. apply ends_impl. by intros c [? _].
  - intros r. apply ends_impl. intros c (_ & _ & ? & ?) Hin%in2. naive_solver.
  - intros r. apply ends_impl. intros c (? & ? & _). done.
  - intros r Hr. apply heads_ends. eapply heads_impl; [|exact Hr]. intros c Hin%in2. by destruct Hin as [-> | ->].
Qed.
Lemma fraction_stable : Stable fraction (ends not_fraction) (ends not_digit).
Proof.
  apply optional_stable.
  - eapply stable_weaken; [eapply stable_seq; [apply stable_eat|]|..].
    + by eapply stable_weaken with (Q' := any); [apply digits1_stable|..].
    + intros r. apply ends_impl. by intros c [? _].
    + intros r. apply heads_impl. intros c ->. by left.
  - intros r. apply ends_impl. intros c [_ ?]. by intros ->%list_elem_of_singleton.
  - intros r. apply ends_impl. by intros c [? _].
  - intros r Hr. apply heads_ends. eapply heads_impl; [|exact Hr]. by intros c ->%list_elem_of_singleton.
Qed.
Lemma integer_stable : Stable integer (ends not_digit) (heads digit).
Proof.
  intros [|c bs] k r r' H Hr; [done|]. cbn [integer] in H. destruct (decide (c = CH "0")) as [->|Hc].
  { injection H as <- <-. by split. }
  destruct (digits1_stable _ _ _ r' H Hr) as [Hk Hh]. split; [|done].
  unfold digits1 in H. cbn [digits] in H. destruct (is_digit c); [|done]. destruct (digits bs). injection H as <- <-.
  cbn [app integer] in *. by rewrite decide_False.
Qed.
Lemma number_stable : Stable number (ends not_number) (heads (fun c => digit c \/ c = CH "-")).
Proof.
  unfold number. eapply stable_seq; [|eapply stable_seq; [apply integer_stable|]; eapply stable_seq; [apply fraction_stable|apply exponent_stable]].
  apply optional_stable.
  - eapply stable_weaken; [apply stable_eat|done|]. intros r. apply heads_impl. intros c ->. by left.
  - intros r Hr. apply heads_ends. eapply heads_impl; [|exact Hr]. intros c Hc ->%list_elem_of_singleton. done.
  - intros r. apply heads_impl. by left.
  - intros r. apply heads_impl. intros c ->%list_elem_of_singleton. by right.
Qed.

(** ** Values *)

Definition literal_byte (c : Z) : Prop :=
  c = 34 \/ c = CH "t" \/ c = CH "f" \/ c = CH "n" \/ digit c \/ c = CH "-".
Definition value_byte (c : Z) : Prop := c = CH "{" \/ c = CH "[" \/ literal_byte c.
(** What may follow a value in compact form. *)
Definition after_value (c : Z) : Prop := c = CH "," \/ c = CH "}" \/ c = CH "]".

Lemma digit_range c : digit c -> CH "0" <= c <= CH "9".
Proof. unfold digit, is_digit. by rewrite bool_decide_eq_true. Qed.
Lemma literal_byte_range c : literal_byte c -> c = 34 \/ c = 45 \/ 48 <= c <= 57 \/ c = 102 \/ c = 110 \/ c = 116.
Proof. intros [->|[->|[->|[->|[Hd| ->]]]]]; try lia. apply digit_range in Hd. lia. Qed.
Lemma value_byte_range c : value_byte c ->
  c = 34 \/ c = 45 \/ 48 <= c <= 57 \/ c = 91 \/ c = 102 \/ c = 110 \/ c = 116 \/ c = 123.
Proof. intros [->|[->|H%literal_byte_range]]; lia. Qed.
Lemma no_gap_ends (A : Z -> Prop) r : (forall c, A c -> isSpace c = false /\ c <> CH "#" /\ c <> CH "/") ->
  ends A r -> one_gap r = NoGap.
Proof. intros HA. destruct r as [|c r]; [done|]. cbn [ends]. intros (? & ? & ?)%HA. by apply no_gap_other. Qed.
Lemma after_value_gap r : ends after_value r -> one_gap r = NoGap.
Proof. apply no_gap_ends. intros c Hc. rewrite isSpace_false. destruct Hc as [->|[->| ->]]; lia. Qed.
Lemma value_byte_gap r : heads value_byte r -> one_gap r = NoGap.
Proof.
  intros Hr%heads_ends. revert Hr. apply no_gap_ends. intros c Hc%value_byte_range. rewrite isSpace_false. lia.
Qed.

(** A reader that only accepts a first byte [c] and dispatches on it. *)
Lemma stable_at c q bs k r r' (P : list Z -> Prop) : Stable q P (heads (fun b => b = c)) -> q bs = Some (k, r) -> P r' ->
  exists k', k ++ r' = c :: k' /\ q (k ++ r') = Some (k, r').
Proof.
  intros Hq Hr Hp. destruct (Hq _ _ _ r' Hr Hp) as [Hk Hh]. destruct (k ++ r') as [|b kr]; [done|].
  cbn in Hh. subst b. by exists kr.
Qed.
Lemma literal_stable : Stable literal (ends not_number) (heads literal_byte).
Proof.
  intros [|c bs] k r r' H Hr; [done|]. unfold literal in H.
  destruct (decide (c = 34)) as [->|].
  { assert (Stable (eat 34 ~~ read_string) any (heads (fun b => b = 34))) as Hst
      by (eapply stable_seq; [apply stable_eat|apply string_stable]).
    destruct (stable_at 34 _ _ _ _ r' any Hst H I) as (k' & Hk & Hq). rewrite Hk in *.
    split; [|by left]. unfold literal. by rewrite decide_True. }
  assert (forall w b, b <> 34 -> (b = CH "t" \/ b = CH "f" \/ b = CH "n") ->
    eat_word (b :: w) (c :: bs) = Some (k, r) ->
    (forall k', literal (b :: k') = eat_word (b :: w) (b :: k')) -> literal (k ++ r') = Some (k, r') /\ heads literal_byte (k ++ r')) as Hword.
  { intros w b Hb1 Hb2 Hw Hl.
    destruct (stable_at b _ _ _ _ r' any (stable_word b w) Hw I) as (k' & Hk & Hq). rewrite Hk in *. rewrite Hl.
    split; [done|]. unfold heads, literal_byte. tauto. }
  destruct (decide (c = CH "t")) as [->|]; [by eapply Hword; [..|exact H|]; [|tauto|]|].
  destruct (decide (c = CH "f")) as [->|]; [by eapply Hword; [..|exact H|]; [|tauto|]|].
  destruct (decide (c = CH "n")) as [->|]; [by eapply Hword; [..|exact H|]; [|tauto|]|].
  destruct (number_stable _ _ _ r' H Hr) as [Hk Hh]. destruct (k ++ r') as [|b kr]; [done|]. cbn [heads] in *.
  split; [|unfold literal_byte; tauto]. unfold literal.
  assert (b = 45 \/ 48 <= b <= 57) as Hb by (destruct Hh as [Hd| ->]; [apply digit_range in Hd|]; lia).
  by rewrite !decide_False by lia.
Qed.

Lemma bracket_stable d c q : Stable q any any -> Stable (bracket d c q) any (heads (fun b => b = c)).
Proof.
  intros Hq. unfold bracket. destruct (decide (d <= 0)); [by intros bs k r r'|].
  by eapply stable_seq; [apply stable_eat|].
Qed.
Lemma close_stable e more : after_value e -> Stable more any any -> Stable (close e more) any (heads after_value).
Proof.
  intros He Hm [|b bs] k r r' H _; [done|]. cbn [close] in H. destruct (decide (b = e)) as [->|Hb].
  { apply eat_Some in H as [[= <-] ->]. cbn. rewrite !decide_True by done. by split. }
  destruct (decide (e = CH ",")) as [->|Hne].
  { exfalso. apply seq_Some in H as (k1 & r1 & k2 & [[= ->] ->]%eat_Some & _ & _). done. }
  assert (Stable (eat (CH ",") ~~ more) any (heads (fun b => b = CH ","))) as Hst by (by eapply stable_seq; [apply stable_eat|]).
  destruct (stable_at (CH ",") _ _ _ _ r' any Hst H I) as (k' & Hk & Hq). rewrite Hk in *.
  split; [|by left]. cbn [close]. by rewrite decide_False by congruence.
Qed.
Lemma or_empty_stable e items : after_value e -> Stable items any (heads value_byte) ->
  Stable (or_empty e items) any (fun r => one_gap r = NoGap).
Proof.
  intros He Hi [|b bs] k r r' H _; [done|]. cbn [or_empty] in H. destruct (decide (b = e)) as [->|Hb].
  { apply eat_Some in H as [[= <-] ->]. cbn [app or_empty]. rewrite decide_True by done. split.
    - cbn. by rewrite decide_True.
    - apply after_value_gap. by cbn. }
  destruct (Hi _ _ _ r' H I) as [Hk Hh]. pose proof (value_byte_gap _ Hh) as Hg. split; [|done].
  destruct (k ++ r') as [|c kr]; [done|]. cbn [or_empty]. cbn in Hh. apply value_byte_range in Hh.
  rewrite decide_False; [done|]. intros ->. destruct He as [->|[->| ->]]; lia.
Qed.
Lemma body_stable d q1 q2 : Stable q1 any any -> Stable q2 any any ->
  Stable (value_body d q1 q2) (ends after_value) (heads value_byte).
Proof.
  intros H1 H2 [|c bs] k r r' H Hr; [done|]. cbn [value_body] in H.
  destruct (decide (c = CH "{")) as [->|].
  { destruct (stable_at (CH "{") _ _ _ _ r' any (bracket_stable _ _ _ H2) H I) as (k' & Hk & Hq). rewrite Hk in *.
    split; [done|by left]. }
  destruct (decide (c = CH "[")) as [->|].
  { destruct (stable_at (CH "[") _ _ _ _ r' any (bracket_stable _ _ _ H1) H I) as (k' & Hk & Hq). rewrite Hk in *.
    split; [done|by right; left]. }
  destruct (literal_stable _ _ _ r' H) as [Hk Hh].
  { revert Hr. apply ends_impl. intros b Hb. unfold not_number, is_digit. rewrite bool_decide_eq_false. destruct Hb as [->|[->| ->]]; lia. }
  destruct (k ++ r') as [|b kr]; [done|]. cbn [heads] in Hh. split; [|by right; right].
  cbn [value_body]. apply literal_byte_range in Hh. by rewrite !decide_False by lia.
Qed.

Lemma member_stable value P Q : Stable value P Q -> Stable (member value) P (heads (fun b => b = 34)).
Proof.
  intros Hv. unfold member. eapply stable_seq; [apply stable_eat|]. eapply stable_weaken with (P := P) (Q := any); [|done..].
  eapply stable_seq; [apply string_stable|].
  eapply stable_weaken with (P := P) (Q := fun r => one_gap r = NoGap); [|done..].
  eapply stable_seq; [by apply (stable_skipped (fun r => one_gap r = NoGap))|].
  eapply stable_weaken; [eapply stable_seq; [apply stable_eat|]| |].
  - by eapply stable_weaken with (P := P) (Q := Q) (Q' := any); [exact Hv|..].
  - done.
  - intros r Hr%heads_ends. revert Hr. apply no_gap_ends. intros c ->. rewrite isSpace_false. lia.
Qed.

(** What a reader of the grammar can be followed by, and starts with. *)
Definition follow (w : what) : list Z -> Prop := if w is Value then ends after_value else any.
Definition starts (w : what) : list Z -> Prop := if w is Value then heads value_byte else any.
Lemma parse_stable n w d : Stable (parse n w d) (follow w) (starts w).
Proof.
  revert w d. induction n as [|n IH]; intros w d; [by intros bs k r r'|].
  assert (forall e, after_value e -> forall w, w <> Value ->
    Stable (skipped ~~ close e (parse n w d)) any (ends after_value)) as Hrest.
  { intros e He w' Hw. eapply stable_weaken with (P := any) (Q := heads after_value); [|done|apply heads_ends].
    eapply stable_seq; [apply stable_skipped|apply close_stable]; [|done|].
    - intros r Hr. by apply after_value_gap, heads_ends.
    - by specialize (IH w' d); destruct w'. }
  destruct w; cbn [parse].
  - apply (stable_seq skipped _ (heads value_byte)); [apply stable_skipped; apply value_byte_gap|].
    apply body_stable; [apply (IH Elements (d - 1))|apply (IH Members (d - 1))].
  - eapply stable_weaken with (P := any) (Q := fun r => one_gap r = NoGap); [|done|done].
    eapply stable_seq; [by apply (stable_skipped (fun r => one_gap r = NoGap))|].
    apply or_empty_stable; [by right; right|]. eapply stable_seq; [apply (IH Value)|]. by apply Hrest; [right; right|].
  - eapply stable_weaken with (P := any) (Q := fun r => one_gap r = NoGap); [|done|done].
    eapply stable_seq; [by apply (stable_skipped (fun r => one_gap r = NoGap))|].
    apply or_empty_stable; [by right; left|]. eapply stable_seq; [|by apply Hrest; [right; left|]].
    eapply stable_weaken; [apply (member_stable _ _ _ (IH Value d))|done|].
    intros r. apply heads_impl. intros c ->. right; right; by left.
Qed.

(** A document in compact form is its own compact form. *)
Lemma scan_length s bs k : scan s bs = Some k -> (length k <= length bs)%nat.
Proof.
  revert s k. induction bs as [|c bs IH]; intros s k; cbn [scan].
  { destruct (eof s) as [[op s']| |]; [case_decide|..]; intros [= <-]. done. }
  destruct (run_step c s) as [[op s']| |]; [|done..]. case_decide; [done|]. case_decide.
  - intros (k' & Hk & ->)%fmap_Some. apply IH in Hk. cbn. lia.
  - intros Hk%IH. cbn. lia.
Qed.
Lemma document_idempotent bs k : document bs = Some k -> document k = Some k.
Proof.
  intros Hd. pose proof Hd as Hl. rewrite <- scan_document in Hl. apply scan_length in Hl. unfold document in Hd.
  destruct (parse (2 * length bs + 2) Value maxNestingDepth bs) as [[k1 r]|] eqn:E; [|done]. cbn in Hd.
  destruct (skip r); [|done]. cbn in Hd. case_decide; [|done]. injection Hd as ->.
  destruct (parse_stable _ Value maxNestingDepth _ _ _ [] E I) as [Hk _]. rewrite app_nil_r in Hk.
  rewrite <- (scan_document k).
  assert (runs_at (scan (cfg sBeginValue [])) (parse (2 * length bs + 2) Value maxNestingDepth) (scan top) k) as Hr.
  { apply (parse_reads (2 * length bs + 2) Value k). unfold enough. lia. }
  unfold runs_at in Hr. rewrite Hk in Hr. rewrite Hr. change (scan top []) with (Some (@nil Z)). cbn. by rewrite app_nil_r.
Qed.
