(* ===== verification/JsonIndent.v ===== *)
(** * Compact, HTMLEscape and Indent: common/json/internal/contextjson/indent.go

    A [[]byte] is its list of bytes and an index into [src] is a [Z]; [slice src a b]
    is the slice expression [src[a:b]].  The strings [prefix] and [indent] are lists
    of bytes too. *)

From S2P Require Import Prelude.
From S2P Require Import JsonScanner.
From Stdlib Require Import Ascii.

Local Open Scope go_scope.

(** [src[a:b]]; the slices here are cut at their length. *)
Definition slice (src : list Z) (a b : Z) : option (list Z) :=
  if decide (0 <= a <= b /\ b <= zlen src) then Some (ztake (b - a) (zdrop a src)) else None.

(** ** HTML escapes *)

(** [hex[n]] *)
Definition hex (n : Z) : Z := if decide (n < 10) then 48 + n else 87 + n.
Definition is_html (c : Z) : bool := bool_decide (c = CH "<" \/ c = CH ">" \/ c = CH "&").
Definition html_code (c : Z) : list Z :=
  [92; CH "u"; CH "0"; CH "0"; hex (Z.shiftr c 4); hex (Z.land c 15)].
(** [c == 0xE2 && i+2 < len(src) && src[i+1] == 0x80 && src[i+2]&^1 == 0xA8]; the
    answer is [src[i+2]]. *)
Definition line_separator (src : list Z) (i c : Z) : option Z :=
  if decide (c = 226 /\ i + 2 < zlen src) then
    match at_ src (i + 1), at_ src (i + 2) with
    | Some d, Some x => if decide (d = 128 /\ Z.ldiff x 1 = 168) then Some x else None
    | _, _ => None
    end
  else None.
Definition separator_code (x : Z) : list Z := [92; CH "u"; CH "2"; CH "0"; CH "2"; hex (Z.land x 15)].

(** The loops over [src]: [rest] are the bytes from index [i] on. *)
Fixpoint html_loop (src rest : list Z) (i start : Z) (dst : list Z) : option (list Z * Z) :=
  match rest with
  | [] => Some (dst, start)
  | c :: rest =>
      '(dst, start) ← (if is_html c then seg ← slice src start i; Some (dst ++ seg ++ html_code c, i + 1)
                       else Some (dst, start));
      '(dst, start) ← (match line_separator src i c with
                       | Some x => seg ← slice src start i; Some (dst ++ seg ++ separator_code x, i + 3)
                       | None => Some (dst, start)
                       end);
      html_loop src rest (i + 1) start dst
  end.
Definition appendHTMLEscape (dst src : list Z) : option (list Z) :=
  '(dst, start) ← html_loop src src 0 0 dst;
  seg ← slice src start (zlen src); Some (dst ++ seg).

(** ** Compact *)

(** [if start < i { dst = append(dst, src[start:i]...) }] *)
Definition flush (src : list Z) (start i : Z) (dst : list Z) : option (list Z) :=
  if decide (start < i) then seg ← slice src start i; Some (dst ++ seg) else Some dst.

Definition of_option {A} (o : option A) : outcome A := match o with Some a => Val a | None => Panic end.

(** The loop ends at the end of [src] or at an error. *)
Fixpoint compact_loop (src : list Z) (esc : bool) (rest : list Z) (i start : Z) (dst : list Z) (scan : scanner)
    : outcome (list Z * Z * scanner) :=
  match rest with
  | [] => Val (dst, start, scan)
  | c :: rest =>
      let! (dst, start) := of_option
        (if esc && is_html c then dst ← flush src start i dst; Some (dst ++ html_code c, i + 1)
         else Some (dst, start)) in
      let! (dst, start) := of_option
        (match (if esc then line_separator src i c else None) with
         | Some x => dst ← flush src start i dst; Some (dst ++ separator_code x, i + 3)
         | None => Some (dst, start)
         end) in
      let! (v, scan) := run_step c scan in
      if decide (v >= scanSkipSpace) then
        if decide (v = scanError) then Val (dst, start, scan)
        else
          let! dst := of_option (flush src start i dst) in
          compact_loop src esc rest (i + 1) (i + 1) dst scan
      else compact_loop src esc rest (i + 1) start dst scan
  end.
(** [pooled] is the scanner the pool gives. *)
Definition appendCompact (pooled : scanner) (dst src : list Z) (esc : bool)
    : outcome (list Z * option SyntaxError) :=
  let! (dst', start, scan) := compact_loop src esc src 0 0 dst (newScanner pooled) in
  let! (r, scan) := eof scan in
  if decide (r = scanError) then Val (dst, err scan)
  else let! dst' := of_option (flush src start (zlen src) dst') in Val (dst', None).

(** ** Comments *)

Inductive CommentKind := CommentKindLine | CommentKindHash | CommentKindBlock.
#[export] Instance CommentKind_eq_dec : EqDecision CommentKind.
Proof. solve_decision. Defined.

Record jsonCommentToken := mkToken { kind : CommentKind; text : list Z; tend : Z; closed : bool }.

Definition is_line_end (c : Z) : bool := bool_decide (c = 10 \/ c = 13).
(** The bytes before the end of the line. *)
Fixpoint line_text (bs : list Z) : list Z :=
  match bs with c :: r => if is_line_end c then [] else c :: line_text r | [] => [] end.
(** The bytes before the first [*/]. *)
Fixpoint block_text (bs : list Z) : option (list Z) :=
  match bs with
  | c :: r =>
      match r with
      | d :: _ => if decide (c = CH "*" /\ d = CH "/") then Some [] else cons c <$> block_text r
      | [] => None
      end
  | [] => None
  end.
Definition consumeLineEnd (src : list Z) (i : Z) : Z :=
  match at_ src i with
  | None => i
  | Some c =>
      if decide (c = 13) then
        if decide (at_ src (i + 1) = Some 10) then i + 2 else i + 1
      else if decide (c = 10) then i + 1 else i
  end.
Definition line_token (k : CommentKind) (src : list Z) (textStart : Z) : jsonCommentToken :=
  let text := line_text (zdrop textStart src) in
  mkToken k text (consumeLineEnd src (textStart + zlen text)) true.
Definition readJSONComment (src : list Z) (start : Z) : option jsonCommentToken :=
  match at_ src start with
  | None => None
  | Some c =>
      if decide (c = CH "#") then Some (line_token CommentKindHash src (start + 1))
      else if decide (c = CH "/") then
        match at_ src (start + 1) with
        | None => None
        | Some d =>
            if decide (d = CH "/") then Some (line_token CommentKindLine src (start + 2))
            else if decide (d = CH "*") then
              match block_text (zdrop (start + 2) src) with
              | Some t => Some (mkToken CommentKindBlock t (start + 2 + zlen t + 2) true)
              | None => Some (mkToken CommentKindBlock (zdrop (start + 2) src) (zlen src) false)
              end
            else None
        end
      else None
  end.

Definition appendLineBreak (dst : list Z) : list Z := dst ++ [10].
Definition appendIndentPrefix (dst prefix indent : list Z) (depth : Z) : list Z :=
  dst ++ prefix ++ concat (replicate (Z.to_nat depth) indent).
Definition containsLineBreak (value : list Z) : bool := existsb is_line_end value.
(** The first byte at [i] or after that is neither a space nor a tab decides. *)
Fixpoint after_blanks (bs : list Z) : list Z :=
  match bs with c :: r => if decide (c = 32 \/ c = 9) then after_blanks r else bs | [] => [] end.
Definition nextCommentInline (src : list Z) (i : Z) : bool :=
  let rest := after_blanks (zdrop i src) in
  match rest with
  | c :: _ =>
      if is_line_end c then false
      else match readJSONComment src (zlen src - zlen rest) with
           | Some comment =>
               closed comment && (bool_decide (kind comment <> CommentKindBlock) || negb (containsLineBreak (text comment)))
           | None => false
           end
  | [] => false
  end.

Definition appendSpaceBeforeInlineComment (dst : list Z) : list Z :=
  match last dst with
  | None => dst
  | Some c => if isSpace c then dst else dst ++ [32]
  end.
Definition lastNonSpaceByte (value : list Z) : Z :=
  default 0 (List.find (fun c => negb (isSpace c)) (rev value)).
Definition appendCommentMarker (dst : list Z) (k : CommentKind) : list Z :=
  match k with
  | CommentKindHash => dst ++ [CH "#"]
  | CommentKindBlock => dst ++ [CH "/"; CH "*"]
  | CommentKindLine => dst ++ [CH "/"; CH "/"]
  end.

Fixpoint splitCommentLines (text : list Z) : list (list Z) :=
  match text with
  | [] => [[]]
  | c :: r =>
      if decide (c = 13) then
        match r with
        | d :: r' => [] :: splitCommentLines (if decide (d = 10) then r' else r)
        | [] => [] :: splitCommentLines r
        end
      else if decide (c = 10) then [] :: splitCommentLines r
      else match splitCommentLines r with l :: ls => (c :: l) :: ls | [] => [[c]] end
  end.
Fixpoint leadingCommentIndent (line : list Z) : Z :=
  match line with c :: r => if decide (c = 32 \/ c = 9) then 1 + leadingCommentIndent r else 0 | [] => 0 end.
(** [lines[1:]]; [lines] is never empty. *)
Definition blockCommentTrim (lines : list (list Z)) : Z :=
  let minIndent := foldl (fun minIndent line =>
    let indent := leadingCommentIndent line in
    if decide (zlen line = 0 \/ indent = zlen line) then minIndent
    else if decide (minIndent < 0 \/ indent < minIndent) then indent else minIndent) (-1) (tail lines) in
  if decide (minIndent <= 1) then 0 else minIndent - 1.
Definition trimBlockCommentLine (line : list Z) (trim : Z) : list Z :=
  if decide (trim = 0) then line
  else let indent := leadingCommentIndent line in
       if decide (indent < trim) then zdrop indent line else zdrop trim line.
Definition appendMultilineBlockComment (dst text prefix indent : list Z) (depth : Z) : list Z :=
  let lines := splitCommentLines text in
  let trim := blockCommentTrim lines in
  let body := match lines with
    | [] => dst ++ [CH "/"; CH "*"]
    | line :: lines =>
        foldl (fun dst line => appendIndentPrefix (appendLineBreak dst) prefix indent depth ++ trimBlockCommentLine line trim)
          ((dst ++ [CH "/"; CH "*"]) ++ line) lines
    end in
  body ++ [CH "*"; CH "/"].

(** The answers are [dst], [atLineStart] and [lineHasContent]. *)
Definition appendBlockJSONComment (dst text prefix indent : list Z) (depth : Z) (atLineStart lineHasContent : bool)
    : list Z * bool * bool :=
  if negb (containsLineBreak text) then
    let leading := negb lineHasContent in
    let inlineAfterComma := lineHasContent && bool_decide (lastNonSpaceByte dst = CH ",") in
    let dst := if lineHasContent then appendSpaceBeforeInlineComment dst
               else if atLineStart then appendIndentPrefix dst prefix indent depth else dst in
    let dst := ((dst ++ [CH "/"; CH "*"]) ++ text) ++ [CH "*"; CH "/"] in
    if leading || inlineAfterComma then (appendLineBreak dst, true, false) else (dst, false, true)
  else
    let '(dst, atLineStart) := if lineHasContent then (appendLineBreak dst, true) else (dst, atLineStart) in
    let dst := if atLineStart then appendIndentPrefix dst prefix indent depth else dst in
    let dst := appendMultilineBlockComment dst text prefix indent depth in
    (appendLineBreak dst, true, false).
Definition appendJSONComment (dst : list Z) (comment : jsonCommentToken) (prefix indent : list Z) (depth : Z)
    (atLineStart lineHasContent : bool) : list Z * bool * bool :=
  if decide (kind comment = CommentKindBlock) then
    appendBlockJSONComment dst (text comment) prefix indent depth atLineStart lineHasContent
  else
    let dst := if lineHasContent then appendSpaceBeforeInlineComment dst
               else if atLineStart then appendIndentPrefix dst prefix indent depth else dst in
    let dst := appendCommentMarker dst (kind comment) in
    (appendLineBreak (dst ++ text comment), true, false).

(** ** Indent *)

Definition indentGrowthFactor : Z := 2.

Record indenter := mkIndenter {
  dst : list Z;
  needIndent : bool;
  depth : Z;
  atLineStart : bool;
  lineHasContent : bool }.
Definition start_line (w : indenter) : indenter :=
  mkIndenter (appendLineBreak (dst w)) (needIndent w) (depth w) true false.
(** [if atLineStart { dst = appendIndentPrefix(dst, prefix, indent, depth); atLineStart = false }] *)
Definition start_text (prefix indent : list Z) (w : indenter) : indenter :=
  if atLineStart w then mkIndenter (appendIndentPrefix (dst w) prefix indent (depth w)) (needIndent w) (depth w) false (lineHasContent w)
  else w.
Definition emit (bs : list Z) (w : indenter) : indenter :=
  mkIndenter (dst w ++ bs) (needIndent w) (depth w) (atLineStart w) true.
Definition with_need (b : bool) (w : indenter) : indenter :=
  mkIndenter (dst w) b (depth w) (atLineStart w) (lineHasContent w).
Definition add_depth (n : Z) (w : indenter) : indenter :=
  mkIndenter (dst w) (needIndent w) (depth w + n) (atLineStart w) (lineHasContent w).

(** A byte [c] at [i] with opcode [v], which is neither a space nor an error. *)
Definition indent_byte (src prefix indent : list Z) (i c v : Z) (w : indenter) : indenter :=
  let w := if decide (needIndent w = true /\ v <> scanEndObject /\ v <> scanEndArray)
           then start_line (with_need false w) else w in
  if decide (v = scanContinue) then emit [c] (start_text prefix indent w)
  else if decide (c = CH "{" \/ c = CH "[") then
    add_depth 1 (emit [c] (with_need true (start_text prefix indent w)))
  else if decide (c = CH ",") then
    let w := emit [c] w in
    if nextCommentInline src (i + 1) then w else start_line w
  else if decide (c = CH ":") then
    let w := emit [c; 32] w in mkIndenter (dst w) (needIndent w) (depth w) false (lineHasContent w)
  else if decide (c = CH "}" \/ c = CH "]") then
    let w := add_depth (-1) w in
    let w := if needIndent w then with_need false w else if lineHasContent w then start_line w else w in
    emit [c] (start_text prefix indent w)
  else emit [c] (start_text prefix indent w).
(** A comment of the source that is closed. *)
Definition indent_comment (prefix indent : list Z) (comment : jsonCommentToken) (w : indenter) : indenter :=
  let w := if needIndent w then start_line (with_need false w) else w in
  let '(d, a, l) := appendJSONComment (dst w) comment prefix indent (depth w) (atLineStart w) (lineHasContent w) in
  mkIndenter d (needIndent w) (depth w) a l.

(** [for j := i + 1; j < comment.end; j++]: the bytes of the comment go through the
    scanner; the answer says whether none was an error. *)
Fixpoint scan_comment_bytes (bs : list Z) (scan : scanner) : outcome (bool * scanner) :=
  match bs with
  | [] => Val (true, scan)
  | c :: bs =>
      let! (v, scan) := run_step c (set_bytes (bytes scan + 1) scan) in
      if decide (v = scanError) then Val (false, scan) else scan_comment_bytes bs scan
  end.
(** The loop; [n] bounds the bytes left. *)
Fixpoint indent_loop (n : nat) (src prefix indent : list Z) (i : Z) (w : indenter) (scan : scanner)
    : outcome (indenter * scanner) :=
  match at_ src i, n with
  | None, _ => Val (w, scan)
  | Some _, O => OutOfFuel
  | Some c, S n =>
      let! (v, scan) := run_step c (set_bytes (bytes scan + 1) scan) in
      if decide (v = scanSkipSpace) then
        match readJSONComment src i with
        | None => indent_loop n src prefix indent (i + 1) w scan
        | Some comment =>
            let! bs := of_option (slice src (i + 1) (tend comment)) in
            let! (ok, scan) := scan_comment_bytes bs scan in
            if negb ok then Val (w, scan)
            else if negb (closed comment) then indent_loop n src prefix indent (tend comment) w scan
            else indent_loop n src prefix indent (tend comment) (indent_comment prefix indent comment w) scan
        end
      else if decide (v = scanError) then Val (w, scan)
      else indent_loop n src prefix indent (i + 1) (indent_byte src prefix indent i c v w) scan
  end.
Definition appendIndent (pooled : scanner) (dst0 src prefix indent : list Z) : outcome (list Z * option SyntaxError) :=
  let! (w, scan) := indent_loop (length src) src prefix indent 0 (mkIndenter dst0 false 0 true false) (newScanner pooled) in
  let! (r, scan) := eof scan in
  if decide (r = scanError) then Val (dst0, err scan) else Val (dst w, None).

(** ** The exported wrappers

    A bytes.Buffer is the bytes it holds; [Grow] makes room, and what is appended to
    its [AvailableBuffer] is written behind them. *)
Definition HTMLEscape (buffer src : list Z) : option (list Z) :=
  b ← appendHTMLEscape [] src; Some (buffer ++ b).
Definition Compact (pooled : scanner) (buffer src : list Z) : outcome (list Z * option SyntaxError) :=
  let! (b, e) := appendCompact pooled [] src false in Val (buffer ++ b, e).
Definition Indent (pooled : scanner) (buffer src prefix indent : list Z) : outcome (list Z * option SyntaxError) :=
  let! (b, e) := appendIndent pooled [] src prefix indent in Val (buffer ++ b, e).
