(* ===== verification/JsonIndentTheorems.v ===== *)
(** * Compact and HTMLEscape: what they write *)

From S2P Require Import Prelude.
From S2P Require Import JsonScanner.
From S2P Require Import JsonGrammar.
From S2P Require Import JsonScannerTheorems.
From S2P Require Import JsonScannerProps.
From S2P Require Import JsonGrammarProps.
From S2P Require Import JsonIndent.
From Stdlib Require Import Ascii.

(** ** Specification *)

Definition is_separator (c d x : Z) : bool := bool_decide (c = 226 /\ d = 128 /\ Z.ldiff x 1 = 168).
(** [<], [>], [&] and the two line separators, escaped. *)
Fixpoint html_escape (bs : list Z) : list Z :=
  match bs with
  | [] => []
  | c :: r =>
      if is_html c then html_code c ++ html_escape r
      else match r with
           | d :: (x :: r') => if is_separator c d x then separator_code x ++ html_escape r' else c :: html_escape r
           | _ => c :: html_escape r
           end
  end.

(** ** Slices of a source read up to an index *)

(** [rest] is what [src] has from index [i] on. *)
Definition from (src : list Z) (i : Z) (rest : list Z) : Prop := 0 <= i <= zlen src /\ zdrop i src = rest.

Lemma from_start src : from src 0 src.
Proof. split; [pose proof (zlen_nonneg src); lia|done]. Qed.
Lemma from_app src i rest : from src i rest -> exists pre, src = pre ++ rest /\ i = zlen pre.
Proof.
  intros [Hi Hr]. exists (ztake i src). rewrite <- Hr, ztake_zdrop. split; [done|]. rewrite zlen_ztake. lia.
Qed.
Lemma from_pre pre rest : from (pre ++ rest) (zlen pre) rest.
Proof. split; [rewrite zlen_app; pose proof (zlen_nonneg pre); pose proof (zlen_nonneg rest); lia|apply zdrop_app]. Qed.
Lemma from_next src i c rest : from src i (c :: rest) -> from src (i + 1) rest.
Proof.
  intros (pre & -> & ->)%from_app. pose proof (from_pre (pre ++ [c]) rest) as Hf.
  by rewrite <- app_assoc, zlen_app in Hf.
Qed.
Lemma from_end src i : from src i [] -> i = zlen src.
Proof. intros (pre & -> & ->)%from_app. by rewrite app_nil_r. Qed.

Lemma slice_app (pre seg post : list Z) a b : a = zlen pre -> b = zlen pre + zlen seg ->
  slice (pre ++ seg ++ post) a b = Some seg.
Proof.
  intros -> ->. unfold slice. pose proof (zlen_nonneg pre). pose proof (zlen_nonneg seg). pose proof (zlen_nonneg post).
  rewrite decide_True by (rewrite !zlen_app; lia). f_equal. rewrite zdrop_app.
  replace (zlen pre + zlen seg - zlen pre) with (zlen seg) by lia. apply ztake_app.
Qed.
Lemma slice_Some src a b seg : slice src a b = Some seg ->
  exists pre post, src = pre ++ seg ++ post /\ a = zlen pre /\ b = zlen pre + zlen seg.
Proof.
  unfold slice. case_decide as Hab; [|done]. intros [= <-].
  exists (ztake a src), (zdrop (b - a) (zdrop a src)). rewrite !ztake_zdrop.
  rewrite !zlen_ztake, zlen_zdrop. split; [done|]. lia.
Qed.
Lemma slice_empty src i rest : from src i rest -> slice src i i = Some [].
Proof. intros (pre & -> & ->)%from_app. apply (slice_app pre [] rest); [done|]. rewrite zlen_nil. lia. Qed.
Lemma slice_next src a i seg c rest : slice src a i = Some seg -> from src i (c :: rest) -> slice src a (i + 1) = Some (seg ++ [c]).
Proof.
  intros (pre & post & -> & -> & ->)%slice_Some [_ Hf].
  rewrite <- zlen_app, app_assoc, zdrop_app in Hf. rewrite Hf.
  replace (pre ++ seg ++ c :: rest) with (pre ++ (seg ++ [c]) ++ rest) by (by rewrite <- app_assoc).
  apply slice_app; [done|]. rewrite zlen_app, zlen_cons, zlen_nil. lia.
Qed.
Lemma slice_le src a b seg : slice src a b = Some seg -> 0 <= a <= b /\ b <= zlen src.
Proof. unfold slice. by case_decide. Qed.
Lemma flush_slice src a b seg dst : slice src a b = Some seg -> flush src a b dst = Some (dst ++ seg).
Proof.
  intros Hs. unfold flush. case_decide; [by rewrite Hs|].
  destruct (slice_Some src a b seg Hs) as (pre & post & _ & -> & ->). pose proof (zlen_nonneg seg).
  rewrite (zlen_0 seg) by lia. by rewrite app_nil_r.
Qed.
Lemma at_app (pre : list Z) c post : at_ (pre ++ c :: post) (zlen pre) = Some c.
Proof. unfold at_. rewrite decide_True by apply zlen_nonneg. unfold zlen. rewrite Nat2Z.id. by apply list_lookup_middle. Qed.
Lemma at_app_r (pre post : list Z) n : 0 <= n -> at_ (pre ++ post) (zlen pre + n) = at_ post n.
Proof.
  intros Hn. unfold at_. pose proof (zlen_nonneg pre). rewrite !decide_True by lia. unfold zlen.
  rewrite lookup_app_r by lia. f_equal. lia.
Qed.

(** The separator that starts [c :: rest]. *)
Definition separator_at (c : Z) (rest : list Z) : option Z :=
  match rest with d :: x :: _ => if is_separator c d x then Some x else None | _ => None end.
Lemma separator_from src i c rest : from src i (c :: rest) -> line_separator src i c = separator_at c rest.
Proof.
  intros (pre & -> & ->)%from_app. unfold line_separator, separator_at, is_separator. rewrite zlen_app, !zlen_cons.
  rewrite !at_app_r by lia. destruct rest as [|d [|x r]]; rewrite ?zlen_cons, ?zlen_nil.
  - by rewrite decide_False by lia.
  - by rewrite decide_False by lia.
  - change (at_ (c :: d :: x :: r) 1) with (Some d). change (at_ (c :: d :: x :: r) 2) with (Some x).
    pose proof (zlen_nonneg r). destruct (decide (c = 226)) as [->|].
    + rewrite decide_True by lia. case_decide; [rewrite bool_decide_eq_true_2 by tauto|rewrite bool_decide_eq_false_2 by tauto]; done.
    + rewrite decide_False by tauto. by rewrite bool_decide_eq_false_2 by tauto.
Qed.

Lemma separator_plain c d x : is_separator c d x = true ->
  c = 226 /\ d = 128 /\ (x = 168 \/ x = 169).
Proof.
  unfold is_separator. rewrite bool_decide_eq_true. intros (-> & -> & Hx). split; [done|]. split; [done|].
  assert (x = Z.lor 168 (Z.land x 1)) as Hl.
  { rewrite <- Hx. apply Z.bits_inj'. intros n Hn. rewrite Z.lor_spec, Z.ldiff_spec, Z.land_spec.
    by destruct (Z.testbit x n), (Z.testbit 1 n). }
  assert (Z.land x 1 = x mod 2) as Ho by (apply (Z.land_ones x 1); lia). rewrite Ho in Hl.
  pose proof (Z.mod_pos_bound x 2 ltac:(lia)) as Hm.
  assert (x mod 2 = 0 \/ x mod 2 = 1) as [E|E] by lia; rewrite E in Hl; cbn in Hl; auto.
Qed.

Lemma separator_Some c rest x : separator_at c rest = Some x ->
  exists r, rest = 128 :: x :: r /\ c = 226 /\ (x = 168 \/ x = 169) /\ html_escape (c :: rest) = separator_code x ++ html_escape r.
Proof.
  destruct rest as [|d [|y r]]; cbn [separator_at]; [done..|]. destruct (is_separator c d y) eqn:E; [|done]. intros [= ->].
  exists r. cbn [html_escape]. rewrite E. apply separator_plain in E as (-> & -> & Hx).
  split; [done|]. split; [done|]. split; [done|]. by destruct Hx as [-> | ->].
Qed.
Lemma separator_None c rest : separator_at c rest = None -> is_html c = false -> html_escape (c :: rest) = c :: html_escape rest.
Proof.
  intros Hs Hh. cbn [html_escape]. rewrite Hh. destruct rest as [|d [|x r]]; [done..|]. cbn in Hs.
  by destruct (is_separator c d x).
Qed.
Lemma separator_html c rest : is_html c = true -> separator_at c rest = None.
Proof.
  intros Hh. destruct rest as [|d [|x r]]; [done..|]. cbn. destruct (is_separator c d x) eqn:E; [|done].
  by apply separator_plain in E as [-> _].
Qed.
Lemma separator_other c rest : c <> 226 -> separator_at c rest = None.
Proof.
  intros Hh. destruct rest as [|d [|x r]]; [done..|]. cbn. destruct (is_separator c d x) eqn:E; [|done].
  by apply separator_plain in E as [-> _].
Qed.

(** ** HTMLEscape *)

(** [seg] has been read and is not written yet. *)
Lemma html_loop_spec n src rest i start seg dst : (length rest <= n)%nat ->
  from src i rest -> slice src start i = Some seg ->
  exists d st seg', html_loop src rest i start dst = Some (d, st) /\ slice src st (zlen src) = Some seg' /\
    d ++ seg' = dst ++ seg ++ html_escape rest.
Proof.
  revert rest i start seg dst. induction n as [|n IH]; intros rest i start seg dst Hn Hf Hs.
  { destruct rest; [|cbn in Hn; lia]. apply from_end in Hf as ->. exists dst, start, seg. by rewrite app_nil_r. }
  destruct rest as [|c rest].
  { apply from_end in Hf as ->. exists dst, start, seg. by rewrite app_nil_r. }
  cbn in Hn. pose proof (from_next _ _ _ _ Hf) as Hf'. cbn [html_loop]. rewrite (separator_from _ _ _ _ Hf).
  destruct (is_html c) eqn:Hh.
  { rewrite Hs. cbn. rewrite (separator_html c) by done. cbn [mbind option_bind].
    destruct (IH rest (i + 1) (i + 1) [] (dst ++ seg ++ html_code c)) as (d & st & seg' & -> & Hs' & Hd);
      [lia|done|by eapply slice_empty|].
    exists d, st, seg'. split; [done|]. split; [done|]. rewrite Hd, Hh, <- !app_assoc. done. }
  destruct (separator_at c rest) as [x|] eqn:Hx.
  - cbn [mbind option_bind]. rewrite Hs. cbn [mbind option_bind]. apply separator_Some in Hx as (r & -> & -> & Hx & ->).
    pose proof (from_next _ _ _ _ Hf') as Hf2. pose proof (from_next _ _ _ _ Hf2) as Hf3.
    cbn [html_loop]. rewrite (separator_from _ _ _ _ Hf'), (separator_from _ _ _ _ Hf2).
    rewrite (separator_other 128), (separator_other x) by (destruct Hx; lia).
    assert (is_html x = false) as -> by by destruct Hx as [-> | ->].
    change (is_html 128) with false. cbn [mbind option_bind].
    replace (i + 3) with (i + 1 + 1 + 1) by lia.
    destruct (IH r (i + 1 + 1 + 1) (i + 1 + 1 + 1) [] (dst ++ seg ++ separator_code x)) as (d & st & seg' & -> & Hs' & Hd);
      [cbn in Hn; lia|done|by eapply slice_empty|].
    exists d, st, seg'. split; [done|]. split; [done|]. by rewrite Hd, <- !app_assoc.
  - cbn [mbind option_bind]. rewrite separator_None by done.
    destruct (IH rest (i + 1) start (seg ++ [c]) dst) as (d & st & seg' & -> & Hs' & Hd); [lia|done|by eapply slice_next|].
    exists d, st, seg'. split; [done|]. split; [done|]. by rewrite Hd, <- !app_assoc.
Qed.

(** HTMLEscape never panics and appends the escaped source. *)
Lemma html_escape_correct dst src : appendHTMLEscape dst src = Some (dst ++ html_escape src).
Proof.
  unfold appendHTMLEscape.
  destruct (html_loop_spec (length src) src src 0 0 [] dst) as (d & st & seg & -> & Hs & Hd);
    [done|apply from_start|eapply slice_empty, from_start|].
  cbn. rewrite Hs. cbn. by rewrite Hd.
Qed.

(** ** Bytes from 128 on are kept in strings only *)

Create HintDb high.
Definition drops (o : outcome (Z * scanner)) : Prop :=
  match o with Val (op, _) => scanSkipSpace <= op | _ => True end.
Lemma drops_error c context s : drops (error c context s).
Proof. done. Qed.

Section HighBytes.
Context (c : Z) (Hc : 128 <= c).
Ltac far := repeat match goal with
  | |- context [decide (?P)] => rewrite (decide_False (P := P)) by lia end.

Lemma high_space : isSpace c = false.
Proof. apply isSpace_false. lia. Qed.
Lemma high_digit : is_digit c = false.
Proof. unfold is_digit. apply bool_decide_eq_false. lia. Qed.
Lemma high_hex : is_hex c = false.
Proof. unfold is_hex. apply bool_decide_eq_false. lia. Qed.
Lemma high_endTop s : drops (stateEndTop c s).
Proof.
  unfold stateEndTop. rewrite high_space. erewrite bind_run by (apply beginComment_other; lia). done.
Qed.
Lemma high_skipping next k s : drops (k s) -> drops (skipping c next k s).
Proof.
  intros Hk. unfold skipping. rewrite high_space. by erewrite bind_run by (apply beginComment_other; lia).
Qed.
Lemma high_endValue s : drops (stateEndValue c s).
Proof.
  unfold stateEndValue. rewrite bind_gets. destruct (parseState s) as [|ps p]; [apply high_endTop|].
  rewrite high_space. erewrite bind_run by (apply beginComment_other; lia). far.
  destruct (decide (ps = parseObjectKey)); [done|]. destruct (decide (ps = parseObjectValue)); [done|].
  by destruct (decide (ps = parseArrayValue)).
Qed.
Lemma high_beginValue s : drops (stateBeginValue c s).
Proof. unfold stateBeginValue. apply high_skipping. by far. Qed.
Lemma high_beginString s : drops (stateBeginString c s).
Proof. unfold stateBeginString. apply high_skipping. by far. Qed.
Lemma high_expect x next context s : x < 128 -> drops (expect x next context c s).
Proof. intros Hx. unfold expect. by rewrite decide_False by lia. Qed.
Lemma high_hex_digit next s : drops (hex_digit next c s).
Proof. unfold hex_digit. by rewrite high_hex. Qed.
Lemma high_state0 s : drops (state0 c s).
Proof. unfold state0. far. apply high_endValue. Qed.
Lemma high_ESign s : drops (stateESign c s).
Proof. unfold stateESign. by rewrite high_digit. Qed.
End HighBytes.
#[export] Hint Resolve high_endTop high_endValue high_beginValue high_beginString high_expect high_hex_digit
  high_state0 high_ESign high_skipping : high.

Lemma high_run_step c s : 128 <= c -> JsonScanner.step s <> sInString -> drops (run_step c s).
Proof.
  intros Hc Hs. unfold run_step. rewrite bind_gets. destruct (JsonScanner.step s) eqn:E; try done.
  all: try (solve [auto with high]); try (apply high_expect; lia); try (by apply high_hex_digit).
  - unfold stateMaybeComment. by rewrite bind_gets, !decide_False by lia.
  - unfold stateInLineComment. by rewrite decide_False by lia.
  - unfold stateInBlockComment. by rewrite decide_False by lia.
  - unfold stateInBlockCommentStar. by rewrite !decide_False by lia.
  - unfold stateBeginValueOrEmpty. rewrite decide_False by lia. auto with high.
  - unfold stateBeginStringOrEmpty. rewrite decide_False by lia. auto with high.
  - unfold stateInStringEsc. by rewrite !decide_False by lia.
  - unfold stateNeg. by rewrite !decide_False by lia.
  - unfold state1. rewrite (high_digit c Hc). auto with high.
  - unfold stateDot. by rewrite (high_digit c Hc).
  - unfold stateDot0. rewrite (high_digit c Hc), decide_False by lia. auto with high.
  - unfold stateE. rewrite decide_False by lia. auto with high.
  - unfold stateE0. rewrite (high_digit c Hc). auto with high.
Qed.
Lemma high_kept c s op s' : 128 <= c -> run_step c s = Val (op, s') -> op < scanSkipSpace -> JsonScanner.step s = sInString.
Proof.
  intros Hc Hr Ho. destruct (decide (JsonScanner.step s = sInString)) as [|Hne]; [done|].
  pose proof (high_run_step c s Hc Hne) as Hd. rewrite Hr in Hd. cbn in Hd. lia.
Qed.
Lemma string_high c s : JsonScanner.step s = sInString -> 128 <= c -> run_step c s = Val (scanContinue, s).
Proof. intros Hs Hc. unfold run_step. rewrite bind_gets, Hs. unfold stateInString. by rewrite !decide_False by lia. Qed.
(** In a string every byte is kept, and one from 128 on changes nothing. *)
Lemma string_step s : JsonScanner.step s = sInString -> forall d r k, scan s (d :: r) = Some k ->
  exists k', k = d :: k' /\ (128 <= d -> run_step d s = Val (scanContinue, s) /\ scan s r = Some k').
Proof.
  intros Hs d r k. cbn [scan]. unfold run_step. rewrite bind_gets, Hs. unfold stateInString.
  destruct (decide (d = 34)) as [->|]; [cbn; intros (k' & ? & ->)%fmap_Some; exists k'; split; [done|lia]|].
  destruct (decide (d = 92)) as [->|]; [cbn; intros (k' & ? & ->)%fmap_Some; exists k'; split; [done|lia]|].
  destruct (decide (d < 32)); [done|]. cbn. intros (k' & ? & ->)%fmap_Some. exists k'. done.
Qed.

(** ** Compact *)

(** The bytes of a run that are not kept: blanks and comments. *)
Fixpoint gaps (s : scanner) (bs : list Z) : list Z :=
  match bs with
  | [] => []
  | c :: bs =>
      match run_step c s with
      | Val (op, s) => if decide (op < scanSkipSpace) then gaps s bs else c :: gaps s bs
      | _ => []
      end
  end.
(** A byte that is never escaped. *)
Definition plain (c : Z) : Prop := is_html c = false /\ c <> 226.

(** The loop ends without a panic, in a scanner that accepts the end of the input
    exactly when the whole run is accepted. *)
Definition loop_ok (src : list Z) (k : option (list Z)) (o : outcome (list Z * Z * scanner)) : Prop :=
  match o with
  | Val (d, st, s) => 0 <= st /\
      match eof s with Val (op, s') => (op = scanError <-> k = None) /\ (op = scanError -> err s' <> None) | _ => False end
  | _ => False
  end.

Lemma flush_ok src start i dst rest : from src i rest -> 0 <= start -> exists d, flush src start i dst = Some d.
Proof.
  intros [Hi _] Hs. unfold flush. case_decide; [|by eexists]. unfold slice. rewrite decide_True by lia. by eexists.
Qed.
Lemma eof_failed s : err s <> None -> eof s = Val (scanError, s).
Proof. intros He. unfold eof. rewrite bind_gets. cbn [id]. by destruct (err s). Qed.

Lemma compact_loop_ok src esc rest i start dst s : sane s -> from src i rest -> 0 <= start ->
  loop_ok src (scan s rest) (compact_loop src esc rest i start dst s).
Proof.
  revert i start dst s. induction rest as [|c rest IH]; intros i start dst s Hs Hf Hst.
  { pose proof (eof_well s Hs) as Hw. cbn [compact_loop scan loop_ok]. split; [done|].
    destruct (eof s) as [[op s']| |]; [|done..]. split; [|done]. by case_decide. }
  pose proof (from_next _ _ _ _ Hf) as Hf'. assert (0 <= i) as Hi by apply Hf. cbn [compact_loop scan].
  assert (exists d1 st1, (if esc && is_html c then dst ← flush src start i dst; Some (dst ++ html_code c, i + 1)
    else Some (dst, start)) = Some (d1, st1) /\ 0 <= st1) as (d1 & st1 & -> & Hst1).
  { destruct (esc && is_html c); [|by eauto]. destruct (flush_ok src start i dst _ Hf Hst) as [d ->].
    do 2 eexists. split; [done|lia]. }
  cbn [of_option obind].
  assert (exists d2 st2, (match (if esc then line_separator src i c else None) with
    | Some x => dst ← flush src st1 i d1; Some (dst ++ separator_code x, i + 3) | None => Some (d1, st1) end) = Some (d2, st2)
    /\ 0 <= st2) as (d2 & st2 & -> & Hst2).
  { destruct (if esc then line_separator src i c else None); [|by eauto].
    destruct (flush_ok src st1 i d1 _ Hf Hst1) as [d ->]. do 2 eexists. split; [done|lia]. }
  cbn [of_option obind]. pose proof (run_step_well c s Hs) as Hw.
  destruct (run_step c s) as [[v s']| |]; [|done..]. destruct Hw as [Hs' He]. cbn [obind].
  destruct (decide (v = scanError)) as [->|Hv].
  { rewrite decide_True by done. cbn [loop_ok]. split; [done|]. rewrite eof_failed by auto. split; [done|auto]. }
  destruct (decide (v >= scanSkipSpace)).
  - destruct (flush_ok src st2 i d2 _ Hf Hst2) as [d ->]. cbn [of_option obind]. rewrite decide_False by lia.
    apply IH; [done|done|lia].
  - rewrite decide_True by lia. specialize (IH (i + 1) st2 d2 s' Hs' Hf' Hst2). unfold loop_ok in *.
    destruct (compact_loop _ _ _ _ _ _ _) as [[[d st] s2]| |]; [|done..]. destruct IH as [Hd IH]. split; [done|].
    destruct (eof s2) as [[op s3]| |]; [|done..]. destruct IH as [IH1 IH2]. split; [|done]. rewrite IH1.
    by destruct (scan s' rest).
Qed.

(** The whole of a separator is kept when its first byte is. *)
Lemma separator_kept c s rest k : JsonScanner.step s = sInString -> 128 <= c -> scan s rest = Some k ->
  separator_at c rest = None -> separator_at c k = None.
Proof.
  intros Hs Hc Hk Hr. destruct rest as [|d r]; [cbn [scan] in Hk; by destruct (eof s) as [[op s']| |]; [case_decide|..]; simplify_eq|].
  destruct (string_step s Hs d r k Hk) as (k' & -> & Hd).
  destruct (decide (d = 128)) as [->|Hd'].
  - destruct Hd as [_ Hk']; [lia|]. destruct r as [|x r].
    { cbn [scan] in Hk'. by destruct (eof s) as [[op s']| |]; [case_decide|..]; simplify_eq. }
    destruct (string_step s Hs x r k' Hk') as (k2 & -> & _). exact Hr.
  - destruct k' as [|x k']; [done|]. cbn. destruct (is_separator c d x) eqn:E; [|done].
    by apply separator_plain in E as (_ & ? & _).
Qed.

Definition escaped (esc : bool) (k : list Z) : list Z := if esc then html_escape k else k.

Lemma scan_nil_Some s k : scan s [] = Some k -> k = [].
Proof. cbn [scan]. destruct (eof s) as [[op s']| |]; [case_decide|..]; by intros [= <-]. Qed.
Lemma escaped_html esc c k : esc && is_html c = true -> escaped esc (c :: k) = html_code c ++ escaped esc k.
Proof. destruct esc; [|done]. cbn [andb escaped html_escape]. by intros ->. Qed.
Lemma escaped_other (esc : bool) c k : esc && is_html c = false -> (esc = true -> separator_at c k = None) ->
  escaped esc (c :: k) = c :: escaped esc k.
Proof. destruct esc; [|done]. cbn [andb escaped]. intros Hh Hs. by apply separator_None; auto. Qed.

(** What the loop writes for the rest of the source. *)
Definition writes (src : list Z) (o : outcome (list Z * Z * scanner)) (out : list Z) : Prop :=
  exists d st s seg, o = Val (d, st, s) /\ slice src st (zlen src) = Some seg /\ d ++ seg = out.

Lemma writes_eq src o out out' : writes src o out -> out = out' -> writes src o out'.
Proof. by intros ? ->. Qed.

Section Writes.
Context (src : list Z) (esc : bool) (n : nat).
Definition loop_writes (m : nat) : Prop := forall rest i start seg dst s k, (length rest <= m)%nat ->
  from src i rest -> slice src start i = Some seg -> scan s rest = Some k -> (esc = true -> Forall plain (gaps s rest)) ->
  writes src (compact_loop src esc rest i start dst s) (dst ++ seg ++ escaped esc k).
Context (IH : loop_writes n).

(** A byte that is dropped. *)
Lemma writes_dropped c rest i start seg dst s s' v k : (length rest <= n)%nat ->
  from src i (c :: rest) -> slice src start i = Some seg -> run_step c s = Val (v, s') -> scanSkipSpace <= v -> v <> scanError ->
  scan s' rest = Some k -> (esc = true -> plain c /\ Forall plain (gaps s' rest)) ->
  writes src (compact_loop src esc (c :: rest) i start dst s) (dst ++ seg ++ escaped esc k).
Proof.
  intros Hn Hf Hs Hr Hv Hv' Hk Hg. cbn [compact_loop].
  assert (esc && is_html c = false) as -> by (destruct esc; [|done]; apply Hg; done).
  assert ((if esc then line_separator src i c else None) = None) as ->.
  { destruct esc; [|done]. rewrite (separator_from _ _ _ _ Hf). by apply separator_other, Hg. }
  cbn [of_option obind]. rewrite Hr. cbn [obind]. rewrite decide_True, decide_False by (done || lia).
  rewrite (flush_slice _ _ _ _ _ Hs). cbn [of_option obind].
  pose proof (from_next _ _ _ _ Hf) as Hf'.
  eapply writes_eq; [apply (IH rest (i + 1) (i + 1) [] (dst ++ seg) s' k);
      [done|done|by eapply slice_empty|done|intros He; by apply Hg]|];
      by rewrite <- ?app_assoc.
Qed.

(** A byte that is kept. *)
Lemma writes_kept c rest i start seg dst s s' v k : (length rest <= n)%nat ->
  from src i (c :: rest) -> slice src start i = Some seg -> run_step c s = Val (v, s') -> v < scanSkipSpace ->
  scan s' rest = Some k -> (esc = true -> Forall plain (gaps s' rest)) ->
  writes src (compact_loop src esc (c :: rest) i start dst s) (dst ++ seg ++ escaped esc (c :: k)).
Proof.
  intros Hn Hf Hs Hr Hv Hk Hg. cbn [compact_loop]. pose proof (from_next _ _ _ _ Hf) as Hf'.
  destruct (esc && is_html c) eqn:Hh.
  { assert ((if esc then line_separator src i c else None) = None) as ->.
    { destruct esc; [|done]. rewrite (separator_from _ _ _ _ Hf). by apply separator_html. }
    rewrite (flush_slice _ _ _ _ _ Hs). cbn [mbind option_bind of_option obind]. rewrite Hr. cbn [obind].
    rewrite decide_False by lia. rewrite escaped_html by done.
    eapply writes_eq; [apply (IH rest (i + 1) (i + 1) [] ((dst ++ seg) ++ html_code c) s' k);
      [done|done|by eapply slice_empty|done|done]|];
      by rewrite <- ?app_assoc. }
  cbn [of_option obind].
  destruct (if esc then line_separator src i c else None) as [x|] eqn:Hx.
  - assert (esc = true) as Hesc by by destruct esc. rewrite Hesc, (separator_from _ _ _ _ Hf) in Hx.
    rewrite (flush_slice _ _ _ _ _ Hs). cbn [mbind option_bind of_option obind]. rewrite Hr. cbn [obind].
    rewrite decide_False by lia. pose proof Hx as Hsep. apply separator_Some in Hx as (r & -> & -> & Hx & _).
    pose proof (high_kept 226 s v s' ltac:(lia) Hr Hv) as Hst. rewrite (string_high 226 s) in Hr by (done || lia).
    injection Hr as <- <-. pose proof (from_next _ _ _ _ Hf') as Hf2. pose proof (from_next _ _ _ _ Hf2) as Hf3.
    assert (128 <= x) as Hx' by (destruct Hx; lia).
    destruct (string_step s Hst _ _ _ Hk) as (k1 & -> & Hk1). destruct Hk1 as [Hr1 Hk1]; [lia|].
    destruct (string_step s Hst _ _ _ Hk1) as (k2 & -> & Hk2). destruct Hk2 as [Hr2 Hk2]; [done|].
    cbn [gaps] in Hg. rewrite Hr1 in Hg. rewrite (decide_True (P := scanContinue < scanSkipSpace)) in Hg by done.
    rewrite Hr2 in Hg. rewrite (decide_True (P := scanContinue < scanSkipSpace)) in Hg by done.
    assert (separator_at 226 (128 :: x :: k2) = Some x) as Hsk by exact Hsep.
    apply separator_Some in Hsk as (k3 & [= <-] & _ & _ & He).
    assert (escaped esc (226 :: 128 :: x :: k2) = separator_code x ++ escaped esc k2) as -> by by rewrite Hesc.
    cbn [compact_loop]. change (is_html 128) with false. assert (is_html x = false) as -> by by destruct Hx as [-> | ->].
    rewrite (separator_from _ _ _ _ Hf'), (separator_from _ _ _ _ Hf2), (separator_other 128), (separator_other x)
      by (destruct Hx; lia).
    rewrite !andb_false_r. assert ((if esc then None else None) = @None Z) as -> by by destruct esc.
    cbn [of_option obind]. rewrite Hr1. cbn [obind].
    rewrite (decide_False (P := scanContinue >= scanSkipSpace)) by (unfold scanContinue, scanSkipSpace; lia). rewrite Hr2.
    cbn [obind]. rewrite (decide_False (P := scanContinue >= scanSkipSpace)) by (unfold scanContinue, scanSkipSpace; lia). replace (i + 3) with (i + 1 + 1 + 1) by lia.
    eapply writes_eq; [apply (IH r (i + 1 + 1 + 1) (i + 1 + 1 + 1) [] ((dst ++ seg) ++ separator_code x) s k2);
      [cbn in Hn; lia|done|by eapply slice_empty|done|done]|];
      by rewrite <- ?app_assoc.
  - cbn [of_option obind]. rewrite Hr. cbn [obind]. rewrite decide_False by lia. rewrite escaped_other; [|done|].
    + eapply writes_eq; [apply (IH rest (i + 1) start (seg ++ [c]) dst s' k);
      [done|done|by eapply slice_next|done|done]|];
      by rewrite <- ?app_assoc.
    + intros ->. rewrite (separator_from _ _ _ _ Hf) in Hx.
      destruct (decide (c = 226)) as [->|]; [|by apply separator_other].
      pose proof (high_kept 226 s v s' ltac:(lia) Hr Hv) as Hst. rewrite (string_high 226 s) in Hr by (done || lia).
      injection Hr as <- <-. apply (separator_kept 226 s rest); [done|lia|done|done].
Qed.
End Writes.

Lemma compact_loop_writes src esc n : loop_writes src esc n.
Proof.
  induction n as [|n IH]; intros rest i start seg dst s k Hn Hf Hs Hk Hg.
  all: destruct rest as [|c rest]; [|cbn in Hn].
  1, 3: apply from_end in Hf as ->; apply scan_nil_Some in Hk as ->; exists dst, start, s, seg;
    (split; [done|]); (split; [done|]); by destruct esc; cbn; rewrite app_nil_r.
  - lia.
  - cbn [scan gaps] in Hk, Hg. destruct (run_step c s) as [[v s']| |] eqn:Hr; [|done..].
    destruct (decide (v = scanError)) as [|Hv]; [done|].
    destruct (decide (v < scanSkipSpace)) as [Hkeep|Hdrop].
    + apply fmap_Some in Hk as (k' & Hk & ->). eapply (writes_kept src esc n IH); try done. lia.
    + eapply (writes_dropped src esc n IH); try done; [lia|lia|]. intros He. by apply Forall_cons, Hg.
Qed.

Lemma compact_document pooled dst src esc k : (esc = true -> Forall plain (gaps (newScanner pooled) src)) ->
  document src = Some k -> appendCompact pooled dst src esc = Val (dst ++ escaped esc k, None).
Proof.
  intros Hg Hk. rewrite <- scan_document in Hk. unfold appendCompact.
  change (newScanner pooled) with (cfg sBeginValue []) in *.
  assert (sane (cfg sBeginValue [])) as Hs by by apply sane_at.
  pose proof (compact_loop_ok src esc src 0 0 dst _ Hs (from_start src) ltac:(lia)) as Hok. unfold loop_ok in Hok.
  destruct (compact_loop_writes src esc (length src) src 0 0 [] dst (cfg sBeginValue []) k)
    as (d & st & s & seg & Hl & Hseg & Hd); [done|apply from_start|eapply slice_empty, from_start|done|done|].
  rewrite Hl in *. cbn [obind]. destruct Hok as [_ Hok]. destruct (eof s) as [[op s']| |]; [|done..].
  destruct Hok as [Ho _]. cbn [obind]. rewrite decide_False by (intros ?%Ho; congruence).
  rewrite (flush_slice _ _ _ _ _ Hseg). cbn. by rewrite Hd.
Qed.
Lemma compact_error pooled dst src esc : document src = None -> exists e, appendCompact pooled dst src esc = Val (dst, Some e).
Proof.
  intros Hk. rewrite <- scan_document in Hk. unfold appendCompact. change (newScanner pooled) with (cfg sBeginValue []).
  assert (sane (cfg sBeginValue [])) as Hs by by apply sane_at.
  pose proof (compact_loop_ok src esc src 0 0 dst _ Hs (from_start src) ltac:(lia)) as Hok. unfold loop_ok in Hok.
  destruct (compact_loop _ _ _ _ _ _ _) as [[[d st] s]| |]; [|done..]. destruct Hok as [_ Hok]. cbn [obind].
  destruct (eof s) as [[op s']| |]; [|done..]. destruct Hok as [Ho He]. cbn [obind].
  rewrite decide_True by (by apply Ho). destruct (err s') as [e|] eqn:E; [by exists e|]. by destruct (He (proj2 Ho Hk)).
Qed.


(** [["<" /* c */]] and its escaped compact form. *)
Definition sample : list Z := [91; 34; 60; 34; 32; 47; 42; 99; 42; 47; 93].
Definition used_scanner : scanner := mkScanner sInBlockComment true [parseObjectKey] (Some (UnexpectedEnd "x" 3)) 9 None 2.

(** what Compact writes is a valid document that Compact leaves as it is. *)
Theorem compact_idempotent (pooled pooled' : scanner) (src out : list Z) :
  appendCompact pooled [] src false = Val (out, None) ->
  Valid pooled' out = Val true /\ appendCompact pooled' [] out false = Val (out, None).
Proof.
  intros Hc. destruct (document src) as [k|] eqn:Hk;
    [|destruct (compact_error pooled [] src false Hk) as [e He]; congruence].
  rewrite (compact_document pooled [] src false k) in Hc by done. injection Hc as <-.
  apply document_idempotent in Hk. cbn [escaped app]. split; [|by rewrite (compact_document _ _ _ _ k)].
  unfold Valid. destruct (checkValid_scan k (newScanner pooled')) as (e & s & -> & He). cbn.
  by rewrite bool_decide_eq_true_2 by (apply He; eauto).
Qed.
Lemma compact_idempotent_witness :
  appendCompact used_scanner [] sample false = Val ([91; 34; 60; 34; 93], None) /\
  appendCompact used_scanner [] [91; 34; 60; 34; 93] false = Val ([91; 34; 60; 34; 93], None).
Proof.
  assert (appendCompact used_scanner [] sample false = Val ([91; 34; 60; 34; 93], None)) as H by (vm_compute; reflexivity).
  split; [exact H|]. exact (proj2 (compact_idempotent used_scanner used_scanner sample _ H)).
Defined.
