(* ===== verification/JsonIndentRun.v ===== *)
(** * Runs of the scanner over pieces of a source

    For Indent, which takes a document apart and writes it again with other blanks:
    what the scanner does, byte by byte, between and inside tokens. *)

From S2P Require Import Prelude.
From S2P Require Import JsonScanner.
From S2P Require Import JsonGrammar.
From S2P Require Import JsonScannerTheorems.
From S2P Require Import JsonScannerProps.
From S2P Require Import JsonIndent.
From Stdlib Require Import Ascii.

(** ** Runs *)

(** The kept bytes and the scanner after [bs], if no step is an error. *)
Fixpoint run (s : scanner) (bs : list Z) : option (list Z * scanner) :=
  match bs with
  | [] => Some ([], s)
  | c :: bs =>
      match run_step c s with
      | Val (op, s) =>
          if decide (op = scanError) then None
          else '(k, t) ← run s bs; Some (if decide (op < scanSkipSpace) then c :: k else k, t)
      | _ => None
      end
  end.
Lemma scan_run s bs : scan s bs = '(k, t) ← run s bs; app k <$> scan t [].
Proof.
  revert s. induction bs as [|c bs IH]; intros s; [cbn [run mbind option_bind]; by rewrite app_nil_fmap|].
  cbn [scan run]. destruct (run_step c s) as [[op s']| |]; [|done..]. destruct (decide (op = scanError)); [done|].
  rewrite IH. destruct (run s' bs) as [[k t]|]; [|by destruct (decide (op < scanSkipSpace))]. cbn [mbind option_bind].
  destruct (decide (op < scanSkipSpace)); [|done]. cbn [scan]. by destruct (eof t) as [[r u]| |]; [case_decide|..].
Qed.
Lemma run_app s a b : run s (a ++ b) = '(k, t) ← run s a; '(k', u) ← run t b; Some (k ++ k', u).
Proof.
  revert s. induction a as [|c a IH]; intros s; cbn [app run].
  { cbn [mbind option_bind]. by destruct (run s b) as [[k u]|]. }
  destruct (run_step c s) as [[op s']| |]; [|done..]. destruct (decide (op = scanError)); [done|].
  rewrite IH. destruct (run s' a) as [[k t]|]; [|done]. cbn [mbind option_bind].
  destruct (run t b) as [[k' u]|]; [|done]. cbn [mbind option_bind]. by destruct (decide (op < scanSkipSpace)).
Qed.
Lemma run_cons s c s' op bs : run_step c s = Val (op, s') -> op <> scanError ->
  run s (c :: bs) = '(k, t) ← run s' bs; Some (if decide (op < scanSkipSpace) then c :: k else k, t).
Proof. intros Hr Ho. cbn [run]. by rewrite Hr, decide_False. Qed.
Lemma run_skip s c s' op bs : run_step c s = Val (op, s') -> op = scanSkipSpace \/ op = scanEnd -> run s (c :: bs) = run s' bs.
Proof.
  intros Hr Ho. unfold scanSkipSpace, scanEnd in Ho. rewrite (run_cons s c s' op bs Hr) by (unfold scanError; lia).
  unfold scanSkipSpace. destruct (run s' bs) as [[k t]|]; [|done]. cbn [mbind option_bind]. by rewrite decide_False by lia.
Qed.
Lemma run_one s c s' op : run_step c s = Val (op, s') -> op <> scanError ->
  run s [c] = Some (if decide (op < scanSkipSpace) then [c] else [], s').
Proof. intros Hr Ho. by rewrite (run_cons s c s' op [] Hr). Qed.

(** ** Between and inside tokens *)

(** The states in a string, number or literal, and the one after a string. *)
Definition is_token (st : state) : bool :=
  match st with
  | sInString | sInStringEsc | sInStringEscU | sInStringEscU1 | sInStringEscU12 | sInStringEscU123
  | sNeg | s1 | s0 | sDot | sDot0 | sE | sESign | sE0
  | sT | sTr | sTru | sF | sFa | sFal | sFals | sN | sNu | sNul | sEndValue => true
  | _ => false
  end.
(** A value may end here. *)
Definition may_end (st : state) : bool :=
  match st with s1 | s0 | sDot0 | sE0 | sEndValue => true | _ => false end.
(** The scanner after a blank. *)
Definition settle (s : scanner) : scanner := if may_end (JsonScanner.step s) then fin (parseState s) else s.
Definition calm (s : scanner) : Prop := exists st e p, between st e p /\ s = quiet st e p.
Definition tidy (s : scanner) : Prop := calm s \/ exists st p, is_token st = true /\ s = cfg st p.

Lemma calm_fin p : calm (fin p).
Proof.
  unfold fin. case_decide; [exists sEndTop, true, []; split; [constructor|done]|].
  destruct p as [|a p]; [done|]. exists sEndValue, false, (a :: p). split; [constructor|done].
Qed.
Lemma settle_calm s : calm s -> settle s = s.
Proof. intros (st & e & p & Hb & ->). by destruct Hb. Qed.
Lemma settle_token st p : may_end st = true -> settle (cfg st p) = fin p.
Proof. intros Hm. unfold settle. cbn [JsonScanner.step cfg parseState]. by rewrite Hm. Qed.
Lemma settle_settle s : settle (settle s) = settle s.
Proof.
  unfold settle at 2 3. destruct (may_end _) eqn:E; [apply settle_calm, calm_fin|]. unfold settle. by rewrite E.
Qed.

(** What one step from a tidy state can be. *)
Inductive step_case (s : scanner) (c : Z) : outcome (Z * scanner) -> Prop :=
  | case_token st st' p : s = cfg st p -> is_token st = true -> is_token st' = true -> st <> sEndValue ->
      step_case s c (Val (scanContinue, cfg st' p))
  | case_error op s' : op = scanError \/ op = scanEnd -> err s' <> None -> step_case s c (Val (op, s'))
  | case_blank op : isSpace c = true -> calm (settle s) -> op = scanSkipSpace \/ op = scanEnd ->
      step_case s c (Val (op, settle s))
  | case_hash st e p : c = CH "#" -> between st e p -> settle s = quiet st e p ->
      step_case s c (Val (scanSkipSpace, wait sInLineComment e p (Some st) scannerLineComment))
  | case_slash st e p : c = CH "/" -> between st e p -> settle s = quiet st e p ->
      step_case s c (Val (scanSkipSpace, wait sMaybeComment e p (Some st) 0))
  | case_mark op s' : op < scanSkipSpace -> op <> scanContinue -> calm (settle s) -> isSpace c = false -> calm s' ->
      run_step c (settle s) = Val (op, s') -> step_case s c (Val (op, s'))
  | case_begin st p : calm s -> isSpace c = false -> is_token st = true ->
      c <> CH "," -> c <> CH ":" -> c <> CH "{" -> c <> CH "[" -> c <> CH "}" -> c <> CH "]" ->
      step_case s c (Val (scanBeginLiteral, cfg st p)).

(** Inside a token a byte continues it, ends it, or is an error. *)
Definition continues (p : list Z) (c : Z) (st : state) (o : outcome (Z * scanner)) : Prop :=
  (exists st', st <> sEndValue /\ is_token st' = true /\ o = Val (scanContinue, cfg st' p)) \/
  (exists context, o = error c context (cfg st p)) \/
  (may_end st = true /\ o = stateEndValue c (cfg st p)).

Lemma continues_goto p c st st' : st <> sEndValue -> is_token st' = true -> continues p c st ((set_step st' ;; ret scanContinue)%go (cfg st p)).
Proof. left. by exists st'. Qed.
Lemma continues_same p c st : st <> sEndValue -> is_token st = true -> continues p c st (ret scanContinue (cfg st p)).
Proof. left. by exists st. Qed.
Lemma continues_error p c st context : continues p c st (error c context (cfg st p)).
Proof. right; left. by exists context. Qed.
Lemma continues_end p c st : may_end st = true -> continues p c st (stateEndValue c (cfg st p)).
Proof. by right; right. Qed.
Lemma continues_decide p c st P `{Decision P} (m1 m2 : GoM scanner Z) s :
  continues p c st (m1 s) -> continues p c st (m2 s) -> continues p c st ((if decide P then m1 else m2) s).
Proof. by destruct (decide P). Qed.
Lemma continues_if p c st (b : bool) (m1 m2 : GoM scanner Z) s :
  continues p c st (m1 s) -> continues p c st (m2 s) -> continues p c st ((if b then m1 else m2) s).
Proof. by destruct b. Qed.
Ltac cont := repeat first [apply continues_decide|apply continues_if]; 
  first [by apply continues_goto|by apply continues_same|apply continues_error|by apply continues_end].

Lemma token_step st p c : is_token st = true -> continues p c st (run_step c (cfg st p)).
Proof.
  intros Hst. unfold run_step. rewrite bind_gets. cbn [JsonScanner.step cfg].
  destruct st; try done.
  all: unfold stateInString, stateInStringEsc, stateInStringEscU, stateInStringEscU1, stateInStringEscU12, stateInStringEscU123,
    hex_digit, stateNeg, state1, state0, stateDot, stateDot0, stateE, stateESign, stateE0, stateT, stateTr, stateTru, stateF,
    stateFa, stateFal, stateFals, stateN, stateNu, stateNul, expect.
  all: cont.
Qed.

(** ** The cases *)

Lemma case_failed s c context t : step_case s c (error c context t).
Proof. apply case_error; [by left|done]. Qed.
Lemma not_hash_slash c r : isSpace c = false -> c <> CH "#" -> c <> CH "/" -> one_gap (c :: r) = NoGap.
Proof. apply no_gap_other. Qed.

Lemma case_end s p c : settle s = fin p -> step_case s c (stateEndValue c (cfg sEndValue p)).
Proof.
  intros Hs. assert (calm (settle s)) as Hc by (rewrite Hs; apply calm_fin).
  destruct p as [|a p].
  { change (stateEndValue c (cfg sEndValue [])) with (stateEndTop c top). unfold stateEndTop.
    destruct (isSpace c) eqn:E; [change top with (fin []); rewrite <- Hs; apply case_blank; auto|].
    destruct (decide (c = CH "#")) as [->|]; [by apply (case_hash _ _ sEndTop true []); [|constructor|]|].
    destruct (decide (c = CH "/")) as [->|]; [by apply (case_slash _ _ sEndTop true []); [|constructor|]|].
    erewrite bind_run by (by apply beginComment_other). apply case_error; [by right|done]. }
  destruct (isSpace c) eqn:E.
  { unfold stateEndValue. rewrite bind_gets. cbn [parseState cfg]. rewrite E.
    change (fin (a :: p)) with (cfg sEndValue (a :: p)) in Hs.
    change ((set_step sEndValue ;; ret scanSkipSpace)%go (cfg sEndValue (a :: p))) with (Val (scanSkipSpace, cfg sEndValue (a :: p))).
    rewrite <- Hs. apply case_blank; auto. }
  destruct (decide (c = CH "#")) as [->|]; [by apply (case_hash _ _ sEndValue false (a :: p)); [|constructor|]|].
  destruct (decide (c = CH "/")) as [->|]; [by apply (case_slash _ _ sEndValue false (a :: p)); [|constructor|]|].
  pose proof (end_value_step a p c [] ltac:(by apply no_gap_other)) as Hr.
  change (run_step c (cfg sEndValue (a :: p))) with (stateEndValue c (cfg sEndValue (a :: p))) in Hr.
  assert (forall op s', op < scanSkipSpace -> op <> scanContinue -> calm s' ->
    stateEndValue c (cfg sEndValue (a :: p)) = Val (op, s') -> step_case s c (stateEndValue c (cfg sEndValue (a :: p)))) as Hmark.
  { intros op s' Ho Ho' Hs' He. rewrite He. apply case_mark; try done. by rewrite Hs. }
  assert (forall context, stateEndValue c (cfg sEndValue (a :: p)) = error c context (cfg sEndValue (a :: p)) ->
    step_case s c (stateEndValue c (cfg sEndValue (a :: p)))) as Herr by (intros context ->; apply case_failed).
  assert (forall st q, between st false q -> calm (cfg st q)) as Hcalm by (intros st q Hb; by exists st, false, q).
  repeat (destruct (decide _) in Hr; [|]); eauto.
  - apply (Hmark scanObjectKey (cfg sBeginValue (parseObjectValue :: p))); try done. apply Hcalm. constructor.
  - apply (Hmark scanObjectValue (cfg sBeginStringOrEmpty (parseObjectKey :: p))); try done. apply Hcalm. constructor.
  - rewrite pop_run in Hr. apply (Hmark scanEndObject (fin p)); try done. apply calm_fin.
  - apply (Hmark scanArrayValue (cfg sBeginValueOrEmpty (a :: p))); try done. apply Hcalm. constructor.
  - rewrite pop_run in Hr. apply (Hmark scanEndArray (fin p)); try done. apply calm_fin.
Qed.

(** A state in which a value or a string may begin. *)
Lemma case_skipping s st p c k : s = cfg st p -> between st false p ->
  (isSpace c = false -> c <> CH "#" -> c <> CH "/" -> step_case s c (k s)) -> step_case s c (skipping c st k s).
Proof.
  intros -> Hb Hk. assert (calm (cfg st p)) as Hc by by exists st, false, p.
  unfold skipping. destruct (isSpace c) eqn:E.
  { change (ret scanSkipSpace (cfg st p)) with (Val (scanSkipSpace, cfg st p)). rewrite <- (settle_calm _ Hc) at 2.
    apply case_blank; auto. by rewrite settle_calm. }
  destruct (decide (c = CH "#")) as [->|]; [by apply (case_hash _ _ st false p); [| |apply settle_calm]|].
  destruct (decide (c = CH "/")) as [->|]; [by apply (case_slash _ _ st false p); [| |apply settle_calm]|].
  erewrite bind_run by (by apply beginComment_other). by apply Hk.
Qed.
Lemma case_open s st st' p c e ps w op : s = cfg st p -> between st false p -> isSpace c = false -> bracket_of c e st' ps w ->
  op < scanSkipSpace -> op <> scanContinue ->
  run_step c s = (set_step st' ;; pushParseState c ps op)%go s ->
  step_case s c ((set_step st' ;; pushParseState c ps op)%go s).
Proof.
  intros -> Hb Hc Hbr Ho Ho' Hr. assert (calm (cfg st p)) as Hs by by exists st, false, p.
  pose proof Hr as Hr'. revert Hr'.
  change ((set_step st' ;; pushParseState c ps op)%go (cfg st p)) with
    ((if decide (zlen (ps :: p) <= maxNestingDepth) then ret op else error c "exceeded max depth")%go (cfg st' (ps :: p))) in *.
  case_decide; [|intros _; apply case_failed]. intros Hr'. apply case_mark; try done.
  - by rewrite settle_calm.
  - exists st', false, (ps :: p). split; [|done]. destruct Hbr; constructor.
  - by rewrite settle_calm.
Qed.

Lemma case_literal s st p c (op : Z) : calm s -> isSpace c = false -> is_token st = true ->
  c <> CH "," -> c <> CH ":" -> c <> CH "{" -> c <> CH "[" -> c <> CH "}" -> c <> CH "]" ->
  s = cfg sBeginValue p \/ s = cfg sBeginValueOrEmpty p \/ s = cfg sBeginString p \/ s = cfg sBeginStringOrEmpty p ->
  step_case s c ((set_step st ;; ret scanBeginLiteral)%go s).
Proof. intros Hc Hs Ht H1 H2 H3 H4 H5 H6 Hp. destruct Hp as [->|[->|[->| ->]]]; by apply (case_begin _ _ st p). Qed.

Lemma case_value s p c : s = cfg sBeginValue p \/ s = cfg sBeginValueOrEmpty p -> one_gap [c] = NoGap ->
  run_step c s = stateBeginValue c s -> step_case s c (stateBeginValue c s).
Proof.
  intros Hp Hg Hr. assert (calm s /\ exists st, s = cfg st p /\ between st false p) as [Hc (st & Hst & Hb)].
  { destruct Hp as [->| ->]; (split; [by eexists _, false, p; split; [constructor|]|by eexists; split; [|constructor]]). }
  pose proof (no_gap_head _ _ Hg) as (Hs & _ & _).
  unfold stateBeginValue in *. rewrite (skipping_other _ []) in * by done.
  assert (forall t, is_token t = true -> c <> CH "," -> c <> CH ":" -> c <> CH "{" -> c <> CH "[" -> c <> CH "}" -> c <> CH "]" ->
    step_case s c ((set_step t ;; ret scanBeginLiteral)%go s)) as Hlit.
  { intros t Ht H1 H2 H3 H4 H5 H6. apply (case_literal s t p c 0); try done. tauto. }
  destruct (decide (c = CH "{")) as [->|]; [by eapply (case_open s st); [..|constructor| | |]|].
  destruct (decide (c = CH "[")) as [->|]; [by eapply (case_open s st); [..|constructor| | |]|].
  repeat (case_decide; [apply Hlit; [done|lia..]|]). apply case_failed.
Qed.
Lemma case_string s p c : s = cfg sBeginString p \/ s = cfg sBeginStringOrEmpty p -> one_gap [c] = NoGap ->
  step_case s c (stateBeginString c s).
Proof.
  intros Hp Hg. assert (calm s) as Hc by (destruct Hp as [->| ->]; eexists _, false, p; (split; [constructor|done])).
  pose proof (no_gap_head _ _ Hg) as (Hs & _ & _). unfold stateBeginString. rewrite (skipping_other _ []) by done.
  case_decide; [|apply case_failed]. apply (case_literal s sInString p c 0); try done; [lia..|tauto].
Qed.

(** A closing bracket right after an opening one or a comma. *)
Lemma case_closing_array s p : s = cfg sBeginValueOrEmpty p -> step_case s (CH "]") (run_step (CH "]") s).
Proof.
  intros ->. assert (calm (cfg sBeginValueOrEmpty p)) as Hc by (exists sBeginValueOrEmpty, false, p; split; [constructor|done]).
  assert (run_step (CH "]") (cfg sBeginValueOrEmpty p) = stateEndValue (CH "]") (cfg sEndValue p)) as Hr.
  { rewrite <- (stateEndValue_any p sBeginValueOrEmpty). done. }
  destruct p as [|a q]; [rewrite Hr; apply case_error; [by right|done]|].
  pose proof (end_value_step a q (CH "]") [] eq_refl) as He.
  change (run_step (CH "]") (cfg sEndValue (a :: q))) with (stateEndValue (CH "]") (cfg sEndValue (a :: q))) in He.
  rewrite <- Hr in He. do 2 (destruct (decide _) in He; [rewrite He; apply case_failed|]).
  destruct (decide _) in He; [|rewrite He; apply case_failed]. rewrite !decide_False, decide_True in He by done.
  rewrite pop_run in He. rewrite He. apply case_mark; [done|done|by rewrite settle_calm|done|apply calm_fin|by rewrite settle_calm].
Qed.
Lemma case_closing_object s p : s = cfg sBeginStringOrEmpty p -> p <> [] -> step_case s (CH "}") (run_step (CH "}") s).
Proof.
  intros -> Hp. assert (calm (cfg sBeginStringOrEmpty p)) as Hc by (exists sBeginStringOrEmpty, false, p; split; [constructor|done]).
  destruct p as [|a q]; [done|]. assert (run_step (CH "}") (cfg sBeginStringOrEmpty (a :: q)) = Val (scanEndObject, fin q)) as Hr
    by by destruct q.
  rewrite Hr. apply case_mark; [done|done|by rewrite settle_calm|done|apply calm_fin|by rewrite settle_calm].
Qed.

Lemma step_cases s c : tidy s -> sane s -> step_case s c (run_step c s).
Proof.
  intros [(st & e & p & Hb & ->)|(st & p & Ht & ->)] Hsane.
  - assert (forall st', between st' false p -> quiet st' false p = cfg st' p) as Hq by done.
    destruct Hb as [p|p|p|p|a p|].
    + rewrite Hq by constructor. apply (case_skipping _ sBeginValue p); [done|constructor|]. intros H1 H2 H3.
      pose proof (no_gap_other c [] H1 H2 H3) as Hg. pose proof (case_value (cfg sBeginValue p) p c ltac:(tauto) Hg eq_refl) as Hv.
      unfold stateBeginValue in Hv. by rewrite (skipping_other _ []) in Hv.
    + rewrite Hq by constructor. apply (case_skipping _ sBeginValueOrEmpty p); [done|constructor|]. intros H1 H2 H3.
      pose proof (no_gap_other c [] H1 H2 H3) as Hg. destruct (decide (c = CH "]")) as [->|].
      * exact (case_closing_array _ p eq_refl).
      * apply (case_value _ p); [by right|done|]. unfold run_step. rewrite bind_gets. cbn [JsonScanner.step cfg].
        unfold stateBeginValueOrEmpty. by rewrite (skipping_other _ []), decide_False.
    + rewrite Hq by constructor. apply (case_skipping _ sBeginString p); [done|constructor|]. intros H1 H2 H3.
      pose proof (no_gap_other c [] H1 H2 H3) as Hg. pose proof (case_string (cfg sBeginString p) p c ltac:(tauto) Hg) as Hv.
      unfold stateBeginString in Hv. by rewrite (skipping_other _ []) in Hv.
    + rewrite Hq by constructor. apply (case_skipping _ sBeginStringOrEmpty p); [done|constructor|]. intros H1 H2 H3.
      pose proof (no_gap_other c [] H1 H2 H3) as Hg. destruct (decide (c = CH "}")) as [->|]; [|].
      * apply (case_closing_object _ p eq_refl). by apply (sane_stack _ Hsane).
      * by apply (case_string _ p); [right|].
    + rewrite Hq by constructor. apply case_end. apply settle_calm. by eexists _, false, _; split; [constructor|].
    + apply (case_end top []). done.
  - destruct (token_step st p c Ht) as [(st' & Hne & Ht' & ->)|[[context ->]|[Hm ->]]].
    + by eapply case_token.
    + apply case_failed.
    + rewrite (stateEndValue_any p st c). apply case_end. by apply settle_token.
Qed.

(** ** Blanks and the scanner after them *)

Lemma may_end_step st p c : may_end st = true -> is_digit c = false -> c <> CH "." -> c <> CH "e" -> c <> CH "E" ->
  run_step c (cfg st p) = stateEndValue c (cfg sEndValue p).
Proof.
  intros Hm Hd H1 H2 H3. rewrite <- (stateEndValue_any p st). unfold run_step. rewrite bind_gets. cbn [JsonScanner.step cfg].
  destruct st; try done; unfold state1, state0, stateDot0, stateE0; rewrite ?Hd, ?decide_False by (done || tauto); done.
Qed.
Lemma fin_step p c : run_step c (fin p) = stateEndValue c (cfg sEndValue p).
Proof. by destruct p. Qed.
Lemma space_no_number c : isSpace c = true -> is_digit c = false /\ c <> CH "." /\ c <> CH "e" /\ c <> CH "E".
Proof. rewrite isSpace_true. unfold is_digit. rewrite bool_decide_eq_false. lia. Qed.
Lemma fin_blank p c : isSpace c = true -> exists op, run_step c (fin p) = Val (op, fin p) /\ (op = scanSkipSpace \/ op = scanEnd).
Proof.
  intros Hc. destruct (calm_fin p) as (st & e & q & Hb & Hq). rewrite Hq. by apply run_blank.
Qed.

(** A state that blanks may follow. *)
Lemma resting_inv t : tidy t -> calm (settle t) -> calm t \/ exists st p, may_end st = true /\ t = cfg st p /\ settle t = fin p.
Proof.
  intros [Hc|(st & p & Ht & ->)] Hs; [by left|]. destruct (may_end st) eqn:E.
  - right. exists st, p. split; [done|]. split; [done|]. by apply settle_token.
  - left. unfold settle in Hs. cbn [JsonScanner.step cfg] in Hs. by rewrite E in Hs.
Qed.
Lemma resting_blank t c : tidy t -> calm (settle t) -> isSpace c = true ->
  exists op, run_step c t = Val (op, settle t) /\ (op = scanSkipSpace \/ op = scanEnd).
Proof.
  intros Ht Hs Hc. destruct (resting_inv t Ht Hs) as [Hcalm|(st & p & Hm & -> & ->)].
  - rewrite settle_calm by done. destruct Hcalm as (st & e & p & Hb & ->). by apply run_blank.
  - destruct (space_no_number c Hc) as (? & ? & ? & ?). rewrite may_end_step, <- fin_step by done. by apply fin_blank.
Qed.

Definition blanks (bs : list Z) : Prop := Forall (fun c => isSpace c = true) bs.
Lemma run_blanks_calm t B : calm t -> blanks B -> run t B = Some ([], t).
Proof.
  intros Ht HB. induction HB as [|c B Hc HB IH]; [done|]. destruct (Ht) as (st & e & p & Hb & Heq).
  destruct (run_blank st e p Hb c Hc) as (op & Hr & Ho). rewrite <- Heq in Hr. by rewrite (run_skip _ _ _ _ _ Hr Ho).
Qed.
Lemma run_blanks t B : tidy t -> calm (settle t) -> blanks B ->
  run t B = Some ([], if decide (B = []) then t else settle t).
Proof.
  intros Ht Hs HB. destruct B as [|c B]; [done|]. apply Forall_cons in HB as [Hc HB]. rewrite decide_False by done.
  destruct (resting_blank t c Ht Hs Hc) as (op & Hr & Ho). rewrite (run_skip _ _ _ _ _ Hr Ho). by apply run_blanks_calm.
Qed.

(** Two scanners that differ by a blank after a value. *)
Definition near (t s : scanner) : Prop := t = s \/ (s = settle t /\ calm s).
Lemma near_settle t s : near t s -> settle t = settle s.
Proof. intros [->|[-> _]]; [done|]. by rewrite settle_settle. Qed.

(** The bytes after a value. *)
Lemma fin_chars p c op s' : run_step c (fin p) = Val (op, s') -> err s' = None ->
  is_digit c = false /\ c <> CH "." /\ c <> CH "e" /\ c <> CH "E".
Proof.
  intros Hr He. destruct (isSpace c) eqn:E; [by apply space_no_number|].
  destruct (decide (c = CH "#")) as [->|H1]; [done|]. destruct (decide (c = CH "/")) as [->|H2]; [done|].
  assert (c = CH ":" \/ c = CH "," \/ c = CH "}" \/ c = CH "]") as Hc.
  { destruct p as [|a p].
    - exfalso. rewrite fin_step in Hr. change (stateEndValue c (cfg sEndValue [])) with (stateEndTop c top) in Hr.
      unfold stateEndTop in Hr. rewrite E in Hr. erewrite bind_run in Hr by (by apply beginComment_other).
      injection Hr as <- <-. done.
    - change (fin (a :: p)) with (cfg sEndValue (a :: p)) in Hr. rewrite (end_value_step a p c []) in Hr by (by apply no_gap_other).
      repeat (destruct (decide _) in Hr; [try tauto|]); injection Hr as <- <-; done. }
  unfold is_digit. rewrite bool_decide_eq_false. lia.
Qed.
Lemma near_step t s c op s' : tidy t -> near t s -> run_step c s = Val (op, s') -> err s' = None ->
  run_step c t = Val (op, s').
Proof.
  intros Ht [->|[-> Hc]] Hr He; [done|].
  destruct (resting_inv t Ht Hc) as [Hcalm|(st & p & Hm & -> & Hfin)]; [by rewrite settle_calm in Hr|].
  rewrite Hfin in Hr. destruct (fin_chars p c op s' Hr He) as (? & ? & ? & ?). by rewrite may_end_step, <- fin_step.
Qed.

(** ** Comments *)

(** Reading [bs] from a state that blanks may follow leaves what a blank leaves. *)
Definition passes (bs : list Z) : Prop := forall t, tidy t -> calm (settle t) -> run t bs = Some ([], settle t).

Lemma calm_tidy s : calm s -> tidy s.
Proof. by left. Qed.
Lemma calm_settle s : calm s -> calm (settle s).
Proof. intros Hs. by rewrite settle_calm. Qed.
Lemma passes_blanks_r bs B : passes bs -> blanks B -> passes (bs ++ B).
Proof.
  intros Hb HB t Ht Hs. rewrite run_app, Hb by done. cbn [mbind option_bind]. by rewrite run_blanks_calm.
Qed.

(** The first byte of a comment, from a state that blanks may follow. *)
Lemma resting_hash t : tidy t -> calm (settle t) -> exists st e p, between st e p /\ settle t = quiet st e p /\
  run_step (CH "#") t = Val (scanSkipSpace, wait sInLineComment e p (Some st) scannerLineComment) /\
  run_step (CH "/") t = Val (scanSkipSpace, wait sMaybeComment e p (Some st) 0).
Proof.
  intros Ht Hs. destruct Hs as (st & e & p & Hb & Hq). exists st, e, p. split; [done|]. split; [done|].
  assert (forall c op s', run_step c (settle t) = Val (op, s') -> err s' = None -> run_step c t = Val (op, s')) as Hstep.
  { intros c op s'. apply near_step; [done|]. right. split; [done|]. exists st, e, p. done. }
  split; apply Hstep; try done; rewrite Hq; [by apply run_hash|by apply run_slash].
Qed.

Definition no_line_end (bs : list Z) : Prop := Forall (fun c => is_line_end c = false) bs.
Lemma run_line_text e p st text : no_line_end text ->
  run (wait sInLineComment e p (Some st) scannerLineComment) text = Some ([], wait sInLineComment e p (Some st) scannerLineComment).
Proof.
  intros Ht. induction Ht as [|c text Hc Ht IH]; [done|]. unfold is_line_end in Hc. apply bool_decide_eq_false in Hc.
  rewrite (run_skip _ c (wait sInLineComment e p (Some st) scannerLineComment) scanSkipSpace); [done| |by left].
  step. unfold stateInLineComment. by rewrite decide_False.
Qed.
Lemma run_line_end e p st c : is_line_end c = true ->
  run (wait sInLineComment e p (Some st) scannerLineComment) [c] = Some ([], quiet st e p).
Proof.
  unfold is_line_end. rewrite bool_decide_eq_true. intros Hc.
  rewrite (run_skip _ c (quiet st e p) scanSkipSpace); [done| |by left]. step. unfold stateInLineComment. by rewrite decide_True.
Qed.

(** The two marks of a line comment. *)
Definition line_mark (m : list Z) : Prop := m = [CH "#"] \/ m = [CH "/"; CH "/"].
Lemma run_line_mark m t : line_mark m -> tidy t -> calm (settle t) -> exists st e p, between st e p /\ settle t = quiet st e p /\
  run t m = Some ([], wait sInLineComment e p (Some st) scannerLineComment).
Proof.
  intros Hm Ht Hs. destruct (resting_hash t Ht Hs) as (st & e & p & Hb & Hq & Hh & Hl). exists st, e, p.
  split; [done|]. split; [done|]. destruct Hm as [->| ->].
  - by rewrite (run_skip _ _ _ _ [] Hh) by by left.
  - rewrite (run_skip _ _ _ _ _ Hl) by by left.
    by rewrite (run_skip _ _ (wait sInLineComment e p (Some st) scannerLineComment) scanSkipSpace) by (done || by left).
Qed.
Lemma line_comment_passes m text c : line_mark m -> no_line_end text -> is_line_end c = true -> passes (m ++ text ++ [c]).
Proof.
  intros Hm Htext Hc t Ht Hs. destruct (run_line_mark m t Hm Ht Hs) as (st & e & p & Hb & Hq & Hr).
  rewrite !run_app, Hr. cbn [mbind option_bind]. rewrite run_app, run_line_text by done. cbn [mbind option_bind].
  by rewrite run_line_end, Hq.
Qed.

(** A block comment: [star b bs] reads [bs], [b] saying whether a star has just been
    read; [None] once the comment has ended. *)
Fixpoint star (b : bool) (bs : list Z) : option bool :=
  match bs with
  | [] => Some b
  | c :: bs => if decide (c = CH "*") then star true bs
               else if b && bool_decide (c = CH "/") then None else star false bs
  end.
Definition in_block (b : bool) (st : state) (e : bool) (p : list Z) : scanner :=
  wait (if b then sInBlockCommentStar else sInBlockComment) e p (Some st) scannerBlockComment.
Lemma run_star b b' st e p bs : star b bs = Some b' -> run (in_block b st e p) bs = Some ([], in_block b' st e p).
Proof.
  revert b. induction bs as [|c bs IH]; intros b; cbn [star]; [by intros [= ->]|].
  destruct (decide (c = CH "*")) as [->|Hc].
  { intros Hs. rewrite <- (IH true Hs). apply (run_skip _ _ _ scanSkipSpace); [by destruct b|by left]. }
  destruct (b && bool_decide (c = CH "/")) eqn:E; [done|]. intros Hs. rewrite <- (IH false Hs).
  apply (run_skip _ _ _ scanSkipSpace); [|by left]. unfold in_block. step. destruct b; step.
  - cbn [andb] in E. apply bool_decide_eq_false in E. unfold stateInBlockCommentStar. by rewrite !decide_False.
  - unfold stateInBlockComment. by rewrite decide_False.
Qed.
Definition open_text (text : list Z) : Prop := is_Some (star false text).
Lemma block_comment_passes text : open_text text -> passes ([CH "/"; CH "*"] ++ text ++ [CH "*"; CH "/"]).
Proof.
  intros [b Hb] t Ht Hs. destruct (resting_hash t Ht Hs) as (st & e & p & Hbt & Hq & _ & Hl).
  cbn [app]. rewrite (run_skip _ _ _ _ _ Hl) by by left.
  rewrite (run_skip _ _ (in_block false st e p) scanSkipSpace) by (done || by left).
  rewrite run_app, (run_star false b) by done. cbn [mbind option_bind].
  rewrite (run_skip _ _ (in_block true st e p) scanSkipSpace); [|by destruct b|by left].
  rewrite (run_skip _ _ (quiet st e p) scanSkipSpace); [|done|by left]. by rewrite Hq.
Qed.
