(* ===== verification/JsonIndentProps.v ===== *)
(** * Indent leaves the document as it is

    With a prefix and an indentation of blanks, the output of Indent is a document
    with the same compact form as the source. *)

From S2P Require Import Prelude.
From S2P Require Import JsonScanner.
From S2P Require Import JsonGrammar.
From S2P Require Import JsonScannerTheorems.
From S2P Require Import JsonScannerProps.
From S2P Require Import JsonIndent.
From S2P Require Import JsonIndentTheorems.
From S2P Require Import JsonIndentRun.
From Stdlib Require Import Ascii.

(** ** The text of a comment, written again *)

Lemma star_app b x y : star b (x ++ y) = b' ← star b x; star b' y.
Proof.
  revert b. induction x as [|c x IH]; intros b; [done|]. cbn [app star]. case_decide; [apply IH|].
  destruct (b && bool_decide (c = CH "/")); [done|apply IH].
Qed.
Lemma star_blank b c bs : c <> CH "*" -> c <> CH "/" -> star b (c :: bs) = star false bs.
Proof. intros H1 H2. cbn [star]. rewrite decide_False, bool_decide_eq_false_2 by done. by rewrite andb_false_r. Qed.
Lemma space_star c : isSpace c = true -> c <> CH "*" /\ c <> CH "/".
Proof. rewrite isSpace_true. lia. Qed.
Lemma star_blanks B bs : blanks B -> star false (B ++ bs) = star false bs.
Proof.
  intros HB. induction HB as [|c B Hc HB IH]; [done|]. destruct (space_star c Hc). cbn [app]. by rewrite star_blank.
Qed.
Lemma star_line_end b c bs : is_line_end c = true -> star b (c :: bs) = star false bs.
Proof. unfold is_line_end. rewrite bool_decide_eq_true. intros Hc. apply star_blank; lia. Qed.

Lemma split_lines n text : (length text <= n)%nat -> forall b, is_Some (star b text) ->
  exists l ls, splitCommentLines text = l :: ls /\ is_Some (star b l) /\ Forall open_text ls.
Proof.
  revert text. induction n as [|n IH]; intros text Hn b Hs.
  { destruct text; [|cbn in Hn; lia]. exists [], []. done. }
  destruct text as [|c r]; [exists [], []; done|]. cbn in Hn.
  assert (forall r', (length r' <= n)%nat -> is_Some (star false r') ->
    exists l ls, [] :: splitCommentLines r' = l :: ls /\ is_Some (star b l) /\ Forall open_text ls) as Hend.
  { intros r' Hr' Hs'. destruct (IH r' Hr' false Hs') as (l & ls & Hl & Hsl & Hls). exists [], (l :: ls). rewrite Hl.
    split; [done|]. split; [done|]. by constructor. }
  cbn [splitCommentLines]. destruct (decide (c = 13)) as [->|H13].
  { rewrite star_line_end in Hs by done. destruct r as [|d r]; [exact (Hend [] ltac:(cbn; lia) Hs)|].
    destruct (decide (d = 10)) as [->|]; [|exact (Hend (d :: r) ltac:(lia) Hs)].
    rewrite star_line_end in Hs by done. exact (Hend r ltac:(cbn in Hn; lia) Hs). }
  destruct (decide (c = 10)) as [->|H10]; [rewrite star_line_end in Hs by done; exact (Hend r ltac:(lia) Hs)|].
  cbn [star] in Hs. destruct (decide (c = CH "*")) as [->|Hc].
  - destruct (IH r ltac:(lia) true Hs) as (l & ls & -> & Hsl & Hls). by exists (42 :: l), ls.
  - destruct (b && bool_decide (c = CH "/")) eqn:E; [by destruct Hs|].
    destruct (IH r ltac:(lia) false Hs) as (l & ls & -> & Hsl & Hls). exists (c :: l), ls. split; [done|]. split; [|done].
    cbn [star]. by rewrite decide_False, E.
Qed.

Lemma leading_blanks line : exists B, blanks B /\ zlen B = leadingCommentIndent line /\
  line = B ++ zdrop (leadingCommentIndent line) line.
Proof.
  induction line as [|c line (B & HB & Hl & IH)]; [exists []; by split; [constructor|]|]. cbn [leadingCommentIndent]. case_decide as Hc.
  - exists (c :: B). split; [constructor; [apply isSpace_true; tauto|done]|]. rewrite zlen_cons. split; [lia|].
    cbn [app]. f_equal. rewrite IH at 1. f_equal. unfold zdrop. replace (Z.to_nat (1 + leadingCommentIndent line)) with (S (Z.to_nat (leadingCommentIndent line))).
    + done.
    + pose proof (zlen_nonneg B). lia.
  - exists []. by split; [constructor|].
Qed.
Lemma trim_blanks line n : 0 <= n -> exists B, blanks B /\ line = B ++ trimBlockCommentLine line n.
Proof.
  intros Hn. unfold trimBlockCommentLine. case_decide; [exists []; by split; [constructor|]|].
  destruct (leading_blanks line) as (B & HB & Hl & He). case_decide; [by exists B|].
  exists (ztake n B). split; [by apply Forall_take|].
  remember (zdrop _ line) as r eqn:Hr. clear Hr. rewrite <- Hl in *. subst line. unfold ztake, zdrop.
  rewrite drop_app_le by (unfold zlen in *; lia). by rewrite app_assoc, take_drop.
Qed.
Lemma trim_nonneg lines : 0 <= blockCommentTrim lines.
Proof. unfold blockCommentTrim. case_decide; lia. Qed.

Ltac list_eq := unfold appendLineBreak; do 3 (cbn [app]; rewrite <- ?app_assoc); cbn [app].

Section Blank.
Context (prefix indent : list Z) (Hprefix : blanks prefix) (Hindent : blanks indent).

Lemma prefix_blanks dst depth : exists B, blanks B /\ appendIndentPrefix dst prefix indent depth = dst ++ B.
Proof.
  eexists. split; [|done]. apply Forall_app. split; [done|]. apply Forall_concat, Forall_replicate. done.
Qed.

Lemma multiline_written dst text depth : open_text text ->
  exists body, open_text body /\ appendMultilineBlockComment dst text prefix indent depth = dst ++ [CH "/"; CH "*"] ++ body ++ [CH "*"; CH "/"].
Proof.
  intros Ht. unfold appendMultilineBlockComment.
  destruct (split_lines (length text) text ltac:(done) false Ht) as (l & ls & -> & Hl & Hls).
  pose proof (trim_nonneg (l :: ls)) as Hn. revert Hn. generalize (blockCommentTrim (l :: ls)). intros n Hn.
  assert (exists body, open_text body /\ foldl (fun dst line => appendIndentPrefix (appendLineBreak dst) prefix indent depth ++ trimBlockCommentLine line n)
    ((dst ++ [CH "/"; CH "*"]) ++ l) ls = (dst ++ [CH "/"; CH "*"]) ++ body) as (body & Hb & ->).
  - assert (open_text l) as Hacc by exact Hl. clear Hl. revert l Hacc.
    induction Hls as [|x ls Hx Hls IH]; intros acc Hacc; [by exists acc|]. cbn [foldl].
    destruct (prefix_blanks (appendLineBreak ((dst ++ [CH "/"; CH "*"]) ++ acc)) depth) as (B & HB & ->).
    destruct (trim_blanks x n Hn) as (B' & HB' & Hxe). unfold appendLineBreak. rewrite <- !(app_assoc (dst ++ _)).
    rewrite <- !app_assoc. rewrite (app_assoc dst). apply IH. unfold open_text in *. rewrite star_app.
    destruct Hacc as [b ->]. cbn [mbind option_bind app]. rewrite star_line_end, star_blanks by done.
    rewrite Hxe, star_blanks in Hx by done. done.
  - exists body. split; [done|]. by rewrite <- !app_assoc.
Qed.

(** A comment token whose text is the text of a comment. *)
Definition good_token (cm : jsonCommentToken) : Prop :=
  if decide (kind cm = CommentKindBlock) then open_text (text cm) else no_line_end (text cm).
(** What is appended: blanks and then bytes a scanner passes. *)
Definition appends (dst dst' : list Z) : Prop := exists B body, blanks B /\ passes body /\ dst' = dst ++ B ++ body.

Lemma appends_intro dst B body dst' : blanks B -> passes body -> dst' = (dst ++ B) ++ body -> appends dst dst'.
Proof. intros HB Hb ->. exists B, body. by rewrite <- app_assoc. Qed.
Lemma blanks_nil : blanks [].
Proof. constructor. Qed.
Lemma space_before_blanks dst : exists B, blanks B /\ appendSpaceBeforeInlineComment dst = dst ++ B.
Proof.
  unfold appendSpaceBeforeInlineComment. destruct (last dst) as [c|]; [destruct (isSpace c)|].
  - exists []. split; [constructor|by rewrite app_nil_r].
  - exists [32]. split; [by repeat constructor|done].
  - exists []. split; [constructor|by rewrite app_nil_r].
Qed.
Lemma lead_blanks dst depth (lhc als : bool) : exists B, blanks B /\
  (if lhc then appendSpaceBeforeInlineComment dst else if als then appendIndentPrefix dst prefix indent depth else dst) = dst ++ B.
Proof.
  destruct lhc; [apply space_before_blanks|]. destruct als; [apply prefix_blanks|].
  exists []. split; [constructor|by rewrite app_nil_r].
Qed.
Lemma block_passes text dst depth als lhc : open_text text ->
  appends dst (appendBlockJSONComment dst text prefix indent depth als lhc).1.1.
Proof.
  intros Ht. unfold appendBlockJSONComment. destruct (containsLineBreak text) eqn:Hbr; cbn [negb].
  - assert (exists B, blanks B /\ (let '(dst, als) := if lhc then (appendLineBreak dst, true) else (dst, als) in
      if als then appendIndentPrefix dst prefix indent depth else dst) = dst ++ B) as (B & HB & HeB).
    { destruct lhc.
      - destruct (prefix_blanks (appendLineBreak dst) depth) as (B & HB & ->). exists ([10] ++ B).
        split; [by constructor|]. unfold appendLineBreak. by rewrite <- app_assoc.
      - destruct als; [apply prefix_blanks|]. exists []. split; [constructor|by rewrite app_nil_r]. }
    destruct (if lhc then _ else _) as [dst1 als1]. rewrite HeB.
    destruct (multiline_written (dst ++ B) text depth Ht) as (body & Hb & ->). cbn.
    eapply (appends_intro _ B (([CH "/"; CH "*"] ++ body ++ [CH "*"; CH "/"]) ++ [10])); [done| |].
    + apply passes_blanks_r; [by apply block_comment_passes|by repeat constructor].
    + by list_eq.
  - destruct (lead_blanks dst depth lhc als) as (B & HB & ->).
    pose proof (block_comment_passes text Ht) as Hp. destruct (negb lhc || _); cbn.
    + eapply (appends_intro _ B (([CH "/"; CH "*"] ++ text ++ [CH "*"; CH "/"]) ++ [10])); [done| |].
      * apply passes_blanks_r; [done|by repeat constructor].
      * by list_eq.
    + eapply (appends_intro _ B ([CH "/"; CH "*"] ++ text ++ [CH "*"; CH "/"])); [done|done|]. by list_eq.
Qed.
Lemma comment_written cm dst depth als lhc : good_token cm ->
  appends dst (appendJSONComment dst cm prefix indent depth als lhc).1.1.
Proof.
  intros Hg. unfold good_token in Hg. unfold appendJSONComment. destruct (decide (kind cm = CommentKindBlock)) as [|Hk]; [by apply block_passes|].
  destruct (lead_blanks dst depth lhc als) as (B & HB & ->). cbn.
  assert (exists m, line_mark m /\ appendCommentMarker (dst ++ B) (kind cm) = (dst ++ B) ++ m) as (m & Hm & ->).
  { destruct (kind cm); try done; eexists; (split; [|done]); [by right|by left]. }
  eapply (appends_intro _ B (m ++ text cm ++ [10])); [done|by apply line_comment_passes|].
  by list_eq.
Qed.
End Blank.

(** ** The comments of the source *)

Lemma line_text_split bs : exists tl, bs = line_text bs ++ tl /\ no_line_end (line_text bs) /\
  match tl with c :: _ => is_line_end c = true | [] => True end.
Proof.
  induction bs as [|c bs (tl & He & Ht & Hc)]; [exists []; by split; [|split; [constructor|]]|]. cbn [line_text].
  destruct (is_line_end c) eqn:E.
  - exists (c :: bs). split; [done|]. split; [constructor|done].
  - exists tl. split; [cbn; by rewrite <- He|]. split; [by constructor|done].
Qed.
Lemma block_text_split bs t : block_text bs = Some t -> forall b, (b = true -> head bs <> Some (CH "/")) ->
  exists r, bs = t ++ CH "*" :: CH "/" :: r /\ is_Some (star b t).
Proof.
  revert t. induction bs as [|c bs IH]; intros t; [done|]. cbn [block_text]. destruct bs as [|d bs]; [done|].
  destruct (decide (c = CH "*" /\ d = CH "/")) as [[-> ->]|Hcd].
  { intros [= <-] b Hb. exists bs. split; [done|by cbn]. }
  intros (t' & Ht & ->)%fmap_Some b Hb. cbn [star]. destruct (decide (c = CH "*")) as [->|Hc].
  - destruct (IH t' Ht true) as (r & He & Hs); [cbn; intros _ [= ->]; by apply Hcd|]. exists r. split; [by rewrite He|done].
  - destruct (IH t' Ht false) as (r & He & Hs); [done|]. exists r. split; [by rewrite He|].
    assert (b && bool_decide (c = CH "/") = false) as ->; [|done].
    destruct b; [|done]. cbn in Hb. apply bool_decide_eq_false. intros ->. by apply Hb.
Qed.

Lemma from_app_r src i a b : from src i (a ++ b) -> from src (i + zlen a) b /\ slice src i (i + zlen a) = Some a.
Proof.
  intros (pre & -> & ->)%from_app. split; [|by apply slice_app].
  pose proof (from_pre (pre ++ a) b) as Hf. by rewrite <- app_assoc, zlen_app in Hf.
Qed.
Lemma at_from src i rest n : from src i rest -> 0 <= n -> at_ src (i + n) = at_ rest n.
Proof. intros (pre & -> & ->)%from_app Hn. by apply at_app_r. Qed.
Lemma zdrop_from src i rest : from src i rest -> zdrop i src = rest.
Proof. by intros [_ ?]. Qed.

(** The end of a line at [i]. *)
Lemma consume_end src i tl : from src i tl -> match tl with c :: _ => is_line_end c = true | [] => True end ->
  exists nl r, tl = nl ++ r /\ from src (consumeLineEnd src i) r /\ consumeLineEnd src i = i + zlen nl /\
    (nl = [] /\ r = [] \/ exists c B, nl = c :: B /\ is_line_end c = true /\ blanks B).
Proof.
  intros Hf Hc. unfold consumeLineEnd.
  assert (at_ src i = at_ tl 0) as -> by (rewrite <- (at_from _ _ _ 0 Hf) by lia; f_equal; lia).
  destruct tl as [|c tl]; [change (at_ [] 0) with (@None Z)|change (at_ (c :: tl) 0) with (Some c)]; cbn iota.
  { exists [], []. rewrite zlen_nil. split; [done|]. split; [done|]. split; [lia|by left]. }
  assert (forall B r, tl = B ++ r -> blanks B -> exists nl r', c :: tl = nl ++ r' /\ from src (i + zlen (c :: B)) r' /\
    i + zlen (c :: B) = i + zlen nl /\ (nl = [] /\ r' = [] \/ exists c' B', nl = c' :: B' /\ is_line_end c' = true /\ blanks B')) as Hnl.
  { intros B r -> HB. exists (c :: B), r. split; [done|]. split; [by apply (from_app_r src i (c :: B) r)|].
    split; [done|]. right. by exists c, B. }
  unfold is_line_end in Hc. apply bool_decide_eq_true in Hc.
  destruct (decide (c = 13)) as [->|].
  - rewrite (at_from _ _ _ 1 Hf) by lia. destruct tl as [|d tl].
    + rewrite decide_False by done. apply (Hnl [] []); [done|constructor].
    + change (at_ (13 :: d :: tl) 1) with (Some d). destruct (decide (Some d = Some 10)) as [[= ->]|].
      * apply (Hnl [10] tl); [done|by repeat constructor].
      * apply (Hnl [] (d :: tl)); [done|constructor].
  - rewrite decide_True by lia. apply (Hnl [] tl); [done|constructor].
Qed.

(** What the scanner makes of a comment of the source. *)
Inductive comment_run (s : scanner) (rest : list Z) (bs : list Z) : Prop :=
  | run_passes : run s bs = Some ([], settle s) -> comment_run s rest bs
  | run_to_end st e p : rest = [] -> between st e p -> settle s = quiet st e p ->
      run s bs = Some ([], wait sInLineComment e p (Some st) scannerLineComment) -> comment_run s rest bs.

Lemma line_comment_run m src i rest k s : line_mark m -> from src i (m ++ rest) -> k <> CommentKindBlock ->
  tidy s -> calm (settle s) ->
  let cm := line_token k src (i + zlen m) in
  exists bytes rest', rest = bytes ++ rest' /\ from src (tend cm) rest' /\ tend cm = i + zlen m + zlen bytes /\
    good_token cm /\ comment_run s rest' (m ++ bytes).
Proof.
  intros Hm Hf Hk Hs Hc cm. destruct (from_app_r src i m rest Hf) as [Hf1 _].
  destruct (line_text_split rest) as (tl & He & Ht & Htl).
  unfold cm, line_token. rewrite (zdrop_from _ _ _ Hf1). cbn [tend kind text].
  rewrite He in Hf1. destruct (from_app_r _ _ _ _ Hf1) as [Hf2 _].
  destruct (consume_end _ _ _ Hf2 Htl) as (nl & r & -> & Hf3 & Hz & Hnl).
  exists (line_text rest ++ nl), r. split; [by rewrite <- app_assoc|]. split; [done|].
  rewrite zlen_app. split; [lia|]. split; [unfold good_token; cbn; by rewrite decide_False|].
  destruct Hnl as [[-> ->]|(c & B & -> & Hc' & HB)].
  - destruct (run_line_mark m s Hm Hs Hc) as (st & e & p & Hb & Hq & Hr). apply (run_to_end _ _ _ st e p); try done.
    rewrite app_nil_r, run_app, Hr. cbn [mbind option_bind]. by rewrite run_line_text.
  - apply run_passes. pose proof (passes_blanks_r _ B (line_comment_passes m (line_text rest) c Hm Ht Hc') HB s Hs Hc) as Hp.
    rewrite <- Hp. f_equal. by list_eq.
Qed.

Lemma after_block_none bs : block_text bs = None -> after_block bs = None.
Proof.
  induction bs as [|c bs IH]; [done|]. cbn [block_text after_block]. destruct bs as [|d bs]; [done|].
  case_decide; [done|]. intros Hn. apply IH. by destruct (block_text (d :: bs)).
Qed.

(** The bytes that readJSONComment covers after the first. *)
Definition covers (src : list Z) (i : Z) (c : Z) (rest : list Z) (cm : jsonCommentToken) (s : scanner) : Prop :=
  exists bytes rest', rest = bytes ++ rest' /\ slice src (i + 1) (tend cm) = Some bytes /\ from src (tend cm) rest' /\
    if closed cm then good_token cm /\ comment_run s rest' (c :: bytes) else rest' = [] /\ scan s (c :: rest) = None.

Lemma covers_line m c m' src i rest k s : m = c :: m' -> line_mark m -> from src i (m ++ rest) -> k <> CommentKindBlock ->
  tidy s -> calm (settle s) -> covers src i c (m' ++ rest) (line_token k src (i + zlen m)) s.
Proof.
  intros -> Hm Hf Hk Hs Hc. destruct (line_comment_run _ src i rest k s Hm Hf Hk Hs Hc) as (bytes & r & -> & Hf' & Hz & Hg & Hr).
  exists (m' ++ bytes), r. split; [by rewrite app_assoc|]. split; [|split; [done|by split]].
  pose proof (from_next src i c (m' ++ bytes ++ r) Hf) as Hn. rewrite app_assoc in Hn.
  destruct (from_app_r _ _ _ _ Hn) as [_ Hsl]. rewrite Hz, zlen_cons.
  by replace (i + (1 + zlen m') + zlen bytes) with (i + 1 + zlen (m' ++ bytes)) by (rewrite zlen_app; lia).
Qed.

Lemma read_comment src i c rest cm s : from src i (c :: rest) -> readJSONComment src i = Some cm ->
  tidy s -> calm (settle s) -> (c = CH "#" \/ c = CH "/") /\ covers src i c rest cm s.
Proof.
  intros Hf Hr Hs Hc. unfold readJSONComment in Hr.
  assert (at_ src i = Some c) as Hat by (replace i with (i + 0) by lia; by rewrite (at_from _ _ _ 0 Hf)).
  rewrite Hat, (at_from _ _ _ 1 Hf) in Hr by lia. revert Hr.
  destruct (decide (c = CH "#")) as [->|Hh].
  { intros [= <-]. split; [by left|]. apply (covers_line [CH "#"] _ []); try done. by left. }
  destruct (decide (c = CH "/")) as [->|Hsl]; [|done]. intros Hr. split; [by right|]. revert Hr.
  destruct rest as [|d rest]; [done|]. change (at_ (CH "/" :: d :: rest) 1) with (Some d). cbn iota.
  destruct (decide (d = CH "/")) as [->|Hd].
  { intros [= <-]. apply (covers_line [CH "/"; CH "/"] _ [CH "/"]); try done. by right. }
  destruct (decide (d = CH "*")) as [->|]; [|done].
  destruct (from_app_r src i [CH "/"; CH "*"] rest Hf) as [Hf2 _]. change (zlen [CH "/"; CH "*"]) with 2 in Hf2.
  rewrite (zdrop_from _ _ _ Hf2). pose proof (from_next _ _ _ _ Hf) as Hf1.
  destruct (block_text rest) as [t|] eqn:Ht; intros [= <-].
  - destruct (block_text_split rest t Ht false ltac:(done)) as (r & -> & Hst).
    exists ([CH "*"] ++ t ++ [CH "*"; CH "/"]), r. cbn [tend closed].
    assert (CH "*" :: t ++ CH "*" :: CH "/" :: r = ([CH "*"] ++ t ++ [CH "*"; CH "/"]) ++ r) as He by by list_eq.
    rewrite He in *. destruct (from_app_r _ _ _ _ Hf1) as [Hf3 Hsl].
    replace (i + 2 + zlen t + 2) with (i + 1 + zlen ([CH "*"] ++ t ++ [CH "*"; CH "/"]))
      by (rewrite !zlen_app; cbn; unfold zlen; cbn; lia).
    split; [done|]. split; [done|]. split; [done|]. split; [done|]. apply run_passes. by apply block_comment_passes.
  - exists (CH "*" :: rest), []. cbn [tend closed]. pose proof (from_app_r src (i + 1) (CH "*" :: rest) []) as Hf3.
    rewrite app_nil_r in Hf3. destruct (Hf3 Hf1) as [Hf4 Hsl]. pose proof (from_end _ _ Hf4) as Hlen. rewrite <- Hlen.
    split; [by rewrite app_nil_r|]. split; [done|]. split; [done|]. split; [done|].
    destruct (resting_hash s Hs Hc) as (st & e & p & Hb & Hq & _ & Hl).
    rewrite (scan_skips _ _ _ _ _ Hl) by by left.
    rewrite (scan_skips _ _ (wait sInBlockComment e p (Some st) scannerBlockComment) scanSkipSpace) by (done || by left).
    rewrite (proj1 (scan_block st e p rest)). by rewrite after_block_none.
Qed.

(** ** One byte of the source *)

Definition fresh (w : indenter) : Prop := needIndent w = false /\ atLineStart w = false.

Section Bytes.
Context (prefix indent : list Z) (Hprefix : blanks prefix) (Hindent : blanks indent).

Lemma start_line_dst w : dst (start_line w) = dst w ++ [10].
Proof. done. Qed.
Lemma start_text_dst w : exists B, blanks B /\ dst (start_text prefix indent w) = dst w ++ B.
Proof.
  unfold start_text. destruct (atLineStart w); [|exists []; split; [constructor|by rewrite app_nil_r]].
  apply (prefix_blanks prefix indent Hprefix Hindent).
Qed.
Lemma start_text_fresh w : atLineStart (start_text prefix indent w) = false.
Proof. unfold start_text. by destruct (atLineStart w) eqn:E. Qed.
Lemma start_text_need w : needIndent (start_text prefix indent w) = needIndent w.
Proof. unfold start_text. by destruct (atLineStart w). Qed.

(** The state before the byte is written: the pending line break is written. *)
Definition pending (v : Z) (w : indenter) : indenter :=
  if decide (needIndent w = true /\ v <> scanEndObject /\ v <> scanEndArray) then start_line (with_need false w) else w.
Lemma pending_dst v w : exists B, blanks B /\ dst (pending v w) = dst w ++ B.
Proof.
  unfold pending. case_decide; [exists [10]; split; [by repeat constructor|done]|].
  exists []. split; [constructor|by rewrite app_nil_r].
Qed.
Lemma pending_need v w : v <> scanEndObject -> v <> scanEndArray -> needIndent (pending v w) = false.
Proof. intros H1 H2. unfold pending. case_decide as H; [done|]. destruct (needIndent w); [|done]. tauto. Qed.
Lemma pending_fresh v w : fresh w -> pending v w = w.
Proof. intros [Hn _]. unfold pending. rewrite decide_False; [done|]. by rewrite Hn; intros [? _]. Qed.

Lemma blanks_app A B : blanks A -> blanks B -> blanks (A ++ B).
Proof. intros. by apply Forall_app. Qed.

(** Blanks, the byte and blanks after a comma or colon. *)
Definition writes_byte (src : list Z) (i c v : Z) (w : indenter) : Prop :=
  exists B B2, blanks B /\ blanks B2 /\ dst (indent_byte src prefix indent i c v w) = dst w ++ B ++ [c] ++ B2 /\
    (c <> CH "," -> c <> CH ":" -> B2 = []).

Lemma text_written v w w' c : dst w' = dst (pending v w) -> exists B, blanks B /\
  dst (emit [c] (start_text prefix indent w')) = dst w ++ B ++ [c] ++ [].
Proof.
  intros Hw. destruct (start_text_dst w') as (B & HB & HeB). destruct (pending_dst v w) as (B1 & HB1 & HeB1).
  exists (B1 ++ B). split; [by apply blanks_app|]. cbn. rewrite HeB, Hw, HeB1. by list_eq.
Qed.
Lemma indent_byte_writes src i c v w : v <> scanContinue -> writes_byte src i c v w.
Proof.
  intros Hv. unfold writes_byte, indent_byte. fold (pending v w). rewrite decide_False by done.
  destruct (pending_dst v w) as (B1 & HB1 & HeB1).
  assert (forall w', dst w' = dst (pending v w) -> exists B B2, blanks B /\ blanks B2 /\
    dst (emit [c] (start_text prefix indent w')) = dst w ++ B ++ [c] ++ B2 /\ (c <> CH "," -> c <> CH ":" -> B2 = [])) as Htext.
  { intros w' Hw'. destruct (text_written v w w' c Hw') as (B & HB & HeB). exists B, []. split; [done|]. split; [constructor|done]. }
  case_decide; [exact (Htext (pending v w) eq_refl)|].
  case_decide as Hcomma; [|case_decide as Hcolon; [|case_decide as Hclose]].
  - exists B1, (if nextCommentInline src (i + 1) then [] else [10]). split; [done|].
    split; [destruct (nextCommentInline _ _); by repeat constructor|]. split; [|done].
    destruct (nextCommentInline _ _); cbn; rewrite HeB1; by list_eq.
  - exists B1, [32]. split; [done|]. split; [by repeat constructor|]. split; [|done]. cbn. rewrite HeB1. by list_eq.
  - set (w1 := add_depth (-1) (pending v w)).
    assert (exists B0, blanks B0 /\ dst (if needIndent w1 then with_need false w1 else if lineHasContent w1 then start_line w1 else w1)
      = dst (pending v w) ++ B0) as (B0 & HB0 & HeB0).
    { destruct (needIndent w1); [exists []; split; [constructor|by rewrite app_nil_r]|].
      destruct (lineHasContent w1); [exists [10]; split; [by repeat constructor|done]|].
      exists []. split; [constructor|by rewrite app_nil_r]. }
    set (w2 := if needIndent w1 then _ else _) in *. destruct (start_text_dst w2) as (B & HB & HeB).
    exists (B1 ++ B0 ++ B), []. split; [by repeat apply blanks_app|]. split; [constructor|]. split; [|done].
    cbn. rewrite HeB, HeB0, HeB1. by list_eq.
  - exact (Htext (pending v w) eq_refl).
Qed.

(** Inside a token the byte is written as it is. *)
Lemma indent_byte_token src i c w : fresh w ->
  dst (indent_byte src prefix indent i c scanContinue w) = dst w ++ [c] /\ fresh (indent_byte src prefix indent i c scanContinue w).
Proof.
  intros Hw. unfold indent_byte. fold (pending scanContinue w). rewrite pending_fresh, decide_True by done.
  destruct Hw as [Hn Ha]. unfold start_text. rewrite Ha. by split.
Qed.
(** At the beginning of a token. *)
Lemma indent_byte_begin src i c w :
  c <> CH "," -> c <> CH ":" -> c <> CH "{" -> c <> CH "[" -> c <> CH "}" -> c <> CH "]" ->
  fresh (indent_byte src prefix indent i c scanBeginLiteral w).
Proof.
  intros H1 H2 H3 H4 H5 H6. unfold indent_byte. fold (pending scanBeginLiteral w). rewrite !decide_False by (done || tauto).
  split; cbn; [rewrite start_text_need; by apply pending_need|apply start_text_fresh].
Qed.
End Bytes.

(** ** The loop *)

Lemma failed_scan s bs : sane s -> err s <> None -> scan s bs = None.
Proof.
  intros Hs He. destruct bs as [|c bs]; [cbn [scan]; by rewrite eof_failed|].
  apply (scan_fails _ _ s). unfold run_step. rewrite bind_gets. by rewrite (proj2 (sane_error s Hs) He).
Qed.
Lemma calm_err s : calm s -> err s = None.
Proof. by intros (st & e & p & _ & ->). Qed.
Lemma tidy_err s : tidy s -> err s = None.
Proof. intros [Hc|(st & p & _ & ->)]; [by apply calm_err|done]. Qed.
Lemma scan_settle t : tidy t -> scan (settle t) [] = scan t [].
Proof.
  intros [Hc|(st & p & Ht & ->)]; [by rewrite settle_calm|]. unfold settle. cbn [JsonScanner.step cfg parseState].
  destruct (may_end st) eqn:Hm; [|done]. symmetry. destruct (decide (st = sEndValue)) as [->|Hne]; [apply scan_end|].
  apply scan_end_value_nil. rewrite (may_end_step st p 32) by done. by rewrite (stateEndValue_any p st).
Qed.
Lemma token_not_calm st p : is_token st = true -> st <> sEndValue -> ~ calm (cfg st p).
Proof. intros Ht Hne (st' & e & q & Hb & [= -> _ _]). by destruct Hb. Qed.

Lemma scan_comment_run bs x s s' k : same_scanner x s -> run s bs = Some (k, s') ->
  exists x', scan_comment_bytes bs x = Val (true, x') /\ same_scanner x' s'.
Proof.
  revert x s k. induction bs as [|c bs IH]; intros x s k Hx; cbn [run scan_comment_bytes]; [intros [= <- <-]; eauto|].
  assert (same_scanner (set_bytes (bytes x + 1) x) s) as Hb by by rewrite <- Hx.
  pose proof (agnostic_run_step c _ s Hb) as Ha. destruct (run_step c s) as [[op s1]| |]; [|done..].
  destruct (run_step c (set_bytes _ x)) as [[op' x1]| |]; [|done..]. destruct Ha as [-> Ha]. cbn [obind].
  destruct (decide (op = scanError)); [done|].
  destruct (run s1 bs) as [[k1 t]|] eqn:Hr; [|done]. intros [= <- <-]. by apply (IH x1 s1 k1).
Qed.

Section Loop.
Context (src prefix indent : list Z) (Hprefix : blanks prefix) (Hindent : blanks indent).

(** The loop at [i], with [rest] to read: [s] has read the source, [t] the output so
    far, of which [K] is kept; [x] is the scanner of the program. *)
Record loop_state (i : Z) (rest : list Z) (w : indenter) (x s t : scanner) (K : list Z) : Prop := mkLoop {
  loop_from : from src i rest;
  loop_tidy : tidy s;
  loop_sane : sane s;
  loop_same : same_scanner x s;
  loop_near : near t s;
  loop_out : tidy t;
  loop_fresh : calm s \/ fresh w;
  loop_run : run (cfg sBeginValue []) (dst w) = Some (K, t) }.

(** The loop ends where the source is accepted, with an output that is. *)
Definition loop_done (o : outcome (indenter * scanner)) (K : list Z) : Prop :=
  exists w x t, o = Val (w, x) /\ (exists y op y', same_scanner x y /\ eof y = Val (op, y') /\ op <> scanError) /\
    run (cfg sBeginValue []) (dst w) = Some (K, t) /\ scan t [] = Some [].

Lemma scan_nil_eof s k : scan s [] = Some k -> k = [] /\ exists op s', eof s = Val (op, s') /\ op <> scanError.
Proof.
  intros Hk. split; [by eapply scan_nil_Some|]. cbn [scan] in Hk. destruct (eof s) as [[op s']| |]; [|done..].
  case_decide; [done|]. eauto.
Qed.
Lemma near_accepts t s k : tidy t -> near t s -> scan s [] = Some k -> scan t [] = Some [].
Proof.
  intros Ht Hn Hk. pose proof (scan_nil_Some _ _ Hk) as ->. destruct Hn as [->|[-> _]]; [done|]. by rewrite scan_settle in Hk.
Qed.
Lemma loop_end i w x s t K k n : loop_state i [] w x s t K -> scan s [] = Some k ->
  loop_done (indent_loop n src prefix indent i w x) (K ++ k).
Proof.
  intros H Hk. pose proof (near_accepts t s k (loop_out _ _ _ _ _ _ _ H) (loop_near _ _ _ _ _ _ _ H) Hk) as Hacc.
  destruct (scan_nil_eof s k Hk) as [-> (op & s' & He & Ho)].
  assert (at_ src i = None) as Hat.
  { replace i with (i + 0) by lia. rewrite (at_from _ _ _ 0 (loop_from _ _ _ _ _ _ _ H)) by lia. done. }
  exists w, x, t. split; [destruct n; cbn [indent_loop]; by rewrite Hat|]. split.
  - exists s, op, s'. split; [apply H|done].
  - rewrite app_nil_r. split; [apply H|done].
Qed.

Context (n : nat).
Definition loop_goal (m : nat) : Prop := forall i rest w x s t K k, (length rest <= m)%nat ->
  loop_state i rest w x s t K -> scan s rest = Some k -> loop_done (indent_loop m src prefix indent i w x) (K ++ k).
Context (IH : loop_goal n).

(** The step of the program's scanner. *)
Lemma loop_step i c rest w x s t K op s' : loop_state i (c :: rest) w x s t K -> run_step c s = Val (op, s') ->
  exists x', run_step c (set_bytes (bytes x + 1) x) = Val (op, x') /\ same_scanner x' s' /\ sane s' /\
    at_ src i = Some c /\ from src (i + 1) rest.
Proof.
  intros H Hr. assert (same_scanner (set_bytes (bytes x + 1) x) s) as Hb by (rewrite <- (loop_same _ _ _ _ _ _ _ H); done).
  pose proof (agnostic_run_step c _ s Hb) as Ha. rewrite Hr in Ha.
  pose proof (run_step_well c s (loop_sane _ _ _ _ _ _ _ H)) as Hw. rewrite Hr in Hw.
  destruct (run_step c (set_bytes _ x)) as [[op' x']| |]; [|done..]. destruct Ha as [-> Ha].
  exists x'. split; [done|]. split; [done|]. split; [apply Hw|]. pose proof (loop_from _ _ _ _ _ _ _ H) as Hf.
  split; [|by eapply from_next]. replace i with (i + 0) by lia. by rewrite (at_from _ _ _ 0 Hf).
Qed.

(** A byte that is written. *)
Lemma loop_byte i c rest w x s t K k op s' : loop_state i (c :: rest) w x s t K -> (length rest <= n)%nat ->
  run_step c s = Val (op, s') -> op <> scanSkipSpace -> op <> scanError -> tidy s' -> scan s' rest = Some k ->
  (calm s' \/ fresh (indent_byte src prefix indent i c op w)) ->
  run (cfg sBeginValue []) (dst (indent_byte src prefix indent i c op w)) =
    Some (K ++ (if decide (op < scanSkipSpace) then [c] else []), s') ->
  loop_done (indent_loop (S n) src prefix indent i w x) (K ++ (if decide (op < scanSkipSpace) then c :: k else k)).
Proof.
  intros H Hn Hr Ho Ho' Ht Hk Hf Hrun. destruct (loop_step _ _ _ _ _ _ _ _ _ _ H Hr) as (x' & Hx & Hs & Hsane & Hat & Hfrom).
  cbn [indent_loop]. rewrite Hat, Hx. cbn [obind]. rewrite !decide_False by done.
  replace (K ++ (if decide (op < scanSkipSpace) then c :: k else k)) with
    ((K ++ (if decide (op < scanSkipSpace) then [c] else [])) ++ k) by (case_decide; by list_eq).
  apply (IH _ rest _ _ s' s'); [done| |done]. split; try done. by left.
Qed.

Lemma blank_after i c rest w x s t K B : loop_state i (c :: rest) w x s t K -> calm (settle s) -> blanks B ->
  run (cfg sBeginValue []) (dst w ++ B) = Some (K, if decide (B = []) then t else settle s).
Proof.
  intros H Hc HB. pose proof (near_settle t s (loop_near _ _ _ _ _ _ _ H)) as Hset.
  rewrite run_app, (loop_run _ _ _ _ _ _ _ H). cbn [mbind option_bind].
  rewrite run_blanks; [|apply H|by rewrite Hset|done]. cbn [mbind option_bind]. by rewrite app_nil_r, Hset.
Qed.

(** A byte outside tokens: blanks may come before it. *)
Lemma loop_written i c rest w x s t K op s' : loop_state i (c :: rest) w x s t K -> run_step c s = Val (op, s') ->
  op <> scanContinue -> op <> scanError -> calm (settle s) -> tidy s' -> run_step c (settle s) = Val (op, s') ->
  (calm s' \/ (c <> CH "," /\ c <> CH ":")) ->
  run (cfg sBeginValue []) (dst (indent_byte src prefix indent i c op w)) =
    Some (K ++ (if decide (op < scanSkipSpace) then [c] else []), s').
Proof.
  intros H Hr Ho Ho' Hc Ht Hset Hend.
  destruct (indent_byte_writes prefix indent Hprefix Hindent src i c op w Ho) as (B & B2 & HB & HB2 & -> & HB2').
  rewrite app_assoc, run_app, (blank_after _ _ _ _ _ _ _ _ B H Hc HB). cbn [mbind option_bind].
  assert (run_step c (if decide (B = []) then t else settle s) = Val (op, s')) as Hrt.
  { case_decide; [|done]. apply (near_step t s); [apply H|apply H|done|by apply tidy_err]. }
  rewrite run_app, (run_one _ _ _ _ Hrt) by done. cbn [mbind option_bind].
  assert (run s' B2 = Some ([], s')) as ->; [|cbn [mbind option_bind]; by rewrite app_nil_r].
  destruct Hend as [Hcalm|[H1 H2]]; [by apply run_blanks_calm|]. by rewrite HB2'.
Qed.

Lemma no_comment i c rest : from src i (c :: rest) -> c <> CH "#" -> c <> CH "/" -> readJSONComment src i = None.
Proof.
  intros Hf H1 H2. unfold readJSONComment. replace i with (i + 0) at 1 by lia. rewrite (at_from _ _ _ 0 Hf) by lia.
  change (at_ (c :: rest) 0) with (Some c). cbn iota. by rewrite !decide_False.
Qed.

(** A blank that is dropped. *)
Lemma loop_blank i c rest w x s t K k : loop_state i (c :: rest) w x s t K -> (length rest <= n)%nat ->
  isSpace c = true -> calm (settle s) -> run_step c s = Val (scanSkipSpace, settle s) -> scan (settle s) rest = Some k ->
  loop_done (indent_loop (S n) src prefix indent i w x) (K ++ k).
Proof.
  intros H Hn Hsp Hc Hr Hk. destruct (loop_step _ _ _ _ _ _ _ _ _ _ H Hr) as (x' & Hx & Hs & Hsane & Hat & Hfrom).
  cbn [indent_loop]. rewrite Hat, Hx. cbn [obind]. rewrite decide_True by done.
  rewrite (no_comment i c rest); [|apply H|intros ->; done|intros ->; done].
  apply (IH _ rest _ _ (settle s) t); [done| |done]. split; try done; try apply H; [by left| |by left].
  pose proof (near_settle t s (loop_near _ _ _ _ _ _ _ H)) as Hset. right. split; [by rewrite Hset|done].
Qed.

Lemma settle_sane s : sane s -> sane (settle s).
Proof.
  intros Hs. unfold settle. destruct (may_end _); [|done]. unfold fin. case_decide; by apply sane_at.
Qed.
Lemma comment_written_run i c rest w x s t K cm : loop_state i (c :: rest) w x s t K -> calm (settle s) -> good_token cm ->
  run (cfg sBeginValue []) (dst (indent_comment prefix indent cm w)) = Some (K, settle s).
Proof.
  intros H Hc Hg. unfold indent_comment. set (w1 := if needIndent w then _ else w).
  assert (exists B0, blanks B0 /\ dst w1 = dst w ++ B0) as (B0 & HB0 & HeB0).
  { unfold w1. destruct (needIndent w); [exists [10]; split; [by repeat constructor|done]|].
    exists []. split; [constructor|by rewrite app_nil_r]. }
  pose proof (comment_written prefix indent Hprefix Hindent cm (dst w1) (depth w1) (atLineStart w1) (lineHasContent w1) Hg) as Ha.
  destruct (appendJSONComment _ _ _ _ _ _ _) as [[d a] l]. destruct Ha as (B & body & HB & Hp & Hd). cbn in Hd. subst d. cbn [dst].
  rewrite HeB0, <- (app_assoc (dst w)), (app_assoc B0), app_assoc.
  rewrite run_app, (blank_after _ _ _ _ _ _ _ _ (B0 ++ B) H Hc) by by apply blanks_app. cbn [mbind option_bind].
  pose proof (near_settle t s (loop_near _ _ _ _ _ _ _ H)) as Hset.
  case_decide.
  - rewrite (Hp t); [|apply H|by rewrite Hset]. cbn [mbind option_bind]. by rewrite app_nil_r, Hset.
  - rewrite (Hp (settle s)); [|by left|by rewrite settle_settle]. cbn [mbind option_bind]. by rewrite app_nil_r, settle_settle.
Qed.

(** A comment. *)
Lemma loop_comment i c rest w x s t K k cm s' : loop_state i (c :: rest) w x s t K -> (length rest <= n)%nat ->
  run_step c s = Val (scanSkipSpace, s') -> calm (settle s) -> scan s (c :: rest) = Some k -> readJSONComment src i = Some cm ->
  loop_done (indent_loop (S n) src prefix indent i w x) (K ++ k).
Proof.
  intros H Hn Hr Hc Hk Hcm. destruct (loop_step _ _ _ _ _ _ _ _ _ _ H Hr) as (x' & Hx & Hs & Hsane & Hat & Hfrom).
  destruct (read_comment src i c rest cm s) as [_ (bytes & r & -> & Hsl & Hf & Hcl)]; [apply H|done|apply H|done|].
  cbn [indent_loop]. rewrite Hat, Hx. cbn [obind]. rewrite decide_True by done. rewrite Hcm, Hsl. cbn [of_option obind].
  destruct (closed cm) eqn:Ecl; [|by destruct Hcl as [_ Hcl]; rewrite Hcl in Hk]. destruct Hcl as [Hg Hrun].
  assert (exists u, run s (c :: bytes) = Some ([], u) /\ (u = settle s \/ r = [] /\ scan u [] = scan (settle s) []))
    as (u & Hu & Hu').
  { destruct Hrun as [Hrun|st e p Hr0 Hb Hq Hrun]; [eauto|]. eexists. split; [done|]. right. split; [done|].
    rewrite Hq. by apply eof_line. }
  assert (scan u r = Some k) as Hk'.
  { rewrite scan_run in Hk. change (c :: bytes ++ r) with ((c :: bytes) ++ r) in Hk. rewrite run_app, Hu in Hk.
    cbn [mbind option_bind] in Hk. rewrite scan_run. destruct (run u r) as [[k2 u2]|]; [|done]. done. }
  assert (run s' bytes = Some ([], u)) as Hu2.
  { rewrite (run_skip _ _ _ _ _ Hr) in Hu by by left. done. }
  destruct (scan_comment_run bytes x' s' u [] Hs Hu2) as (x2 & -> & Hs2). cbn [obind negb].
  assert (exists w', w' = indent_comment prefix indent cm w /\ run (cfg sBeginValue []) (dst w') = Some (K, settle s)) as (w' & <- & Hw').
  { eexists. split; [done|]. by apply (comment_written_run i c (bytes ++ r) w x s t). }
  destruct Hu' as [->|[-> Heq]].
  - apply (IH _ r _ _ (settle s) (settle s)); [rewrite length_app in Hn; lia| |done].
    assert (tidy (settle s)) as Ht by by left. split; try done; [by apply settle_sane, H|by left|by left].
  - rewrite Heq in Hk'. assert (at_ src (tend cm) = None) as Hnone.
    { replace (tend cm) with (tend cm + 0) by lia. by rewrite (at_from _ _ _ 0 Hf). }
    rewrite <- Heq in Hk'. destruct (scan_nil_eof u k Hk') as [-> (op & u' & He & Ho)]. rewrite app_nil_r.
    exists w', x2, (settle s). split; [destruct n; cbn [indent_loop]; by rewrite Hnone|]. split; [by exists u, op, u'|].
    split; [done|]. by rewrite <- Heq.
Qed.

(** A slash that begins no comment. *)
Lemma slash_alone i rest : from src i (CH "/" :: rest) -> readJSONComment src i = None ->
  one_gap (CH "/" :: rest) = match rest with [] => Gap [] | _ => BadGap end.
Proof.
  intros Hf. unfold readJSONComment. replace i with (i + 0) at 1 by lia. rewrite (at_from _ _ _ 0 Hf) by lia.
  change (at_ (CH "/" :: rest) 0) with (Some (CH "/")). cbn iota. rewrite decide_False, decide_True by done.
  rewrite (at_from _ _ _ 1 Hf) by lia. destruct rest as [|d rest]; [done|].
  change (at_ (CH "/" :: d :: rest) 1) with (Some d). cbn iota. cbn [one_gap].
  destruct (decide (d = CH "/")); [done|]. destruct (decide (d = CH "*")); [|done].
  by destruct (block_text _).
Qed.
Lemma loop_slash i rest w x s t K k st e p : loop_state i (CH "/" :: rest) w x s t K -> (length rest <= n)%nat ->
  between st e p -> settle s = quiet st e p -> run_step (CH "/") s = Val (scanSkipSpace, wait sMaybeComment e p (Some st) 0) ->
  scan s (CH "/" :: rest) = Some k -> readJSONComment src i = None ->
  loop_done (indent_loop (S n) src prefix indent i w x) (K ++ k).
Proof.
  intros H Hn Hb Hq Hr Hk Hcm. destruct (loop_step _ _ _ _ _ _ _ _ _ _ H Hr) as (x' & Hx & Hs & Hsane & Hat & Hfrom).
  rewrite (scan_skips _ _ _ _ _ Hr), scan_comment in Hk by (done || by left).
  rewrite (slash_alone i rest) in Hk by (done || apply H). destruct rest as [|d rest]; [|done].
  pose proof (eof_slash st e p Hb) as Heof. rewrite <- Heof in Hk.
  destruct (scan_nil_eof _ k Hk) as [-> (op & u' & He & Ho)]. rewrite app_nil_r.
  assert (at_ src (i + 1) = None) as Hnone.
  { replace (i + 1) with (i + 1 + 0) by lia. by rewrite (at_from _ _ _ 0 Hfrom). }
  exists w, x', t. split.
  - cbn [indent_loop]. rewrite Hat, Hx. cbn [obind]. rewrite decide_True, Hcm by done. destruct n; cbn [indent_loop]; by rewrite Hnone.
  - split; [by eexists _, op, u'|]. split; [apply H|]. rewrite Heof, <- Hq in Hk.
    rewrite <- (near_settle t s) in Hk by apply H. by rewrite scan_settle in Hk by apply H.
Qed.

(** The bytes that are written, once more: those outside tokens. *)
Lemma loop_outside i c rest w x s t K k op s' : loop_state i (c :: rest) w x s t K -> (length rest <= n)%nat ->
  run_step c s = Val (op, s') -> op <> scanContinue -> op <> scanSkipSpace -> op <> scanError -> calm (settle s) -> tidy s' ->
  run_step c (settle s) = Val (op, s') -> (calm s' \/ (c <> CH "," /\ c <> CH ":" /\ fresh (indent_byte src prefix indent i c op w))) ->
  scan s' rest = Some k ->
  loop_done (indent_loop (S n) src prefix indent i w x) (K ++ (if decide (op < scanSkipSpace) then c :: k else k)).
Proof.
  intros H Hn Hr H1 H2 H3 Hc Ht Hset Hend Hk. apply (loop_byte i c rest w x s t K k op s'); try done; [tauto|].
  apply (loop_written i c rest w x s t K op s'); try done. tauto.
Qed.

Lemma loop_token i c rest w x st st' p t K k : loop_state i (c :: rest) w x (cfg st p) t K -> (length rest <= n)%nat ->
  run_step c (cfg st p) = Val (scanContinue, cfg st' p) -> is_token st = true -> is_token st' = true -> st <> sEndValue ->
  scan (cfg st' p) rest = Some k ->
  loop_done (indent_loop (S n) src prefix indent i w x) (K ++ c :: k).
Proof.
  intros H Hn Hr Ht Ht' Hne Hk. pose proof (token_not_calm st p Ht Hne) as Hnc.
  assert (fresh w) as Hf by by destruct (loop_fresh _ _ _ _ _ _ _ H).
  destruct (indent_byte_token prefix indent src i c w Hf) as [Hd Hf'].
  assert (t = cfg st p) as -> by by destruct (loop_near _ _ _ _ _ _ _ H) as [|[_ Hc]].
  apply (loop_byte i c rest w x (cfg st p) (cfg st p) K k scanContinue (cfg st' p)); try done; [by right; exists st', p|by right|].
  rewrite Hd, run_app, (loop_run _ _ _ _ _ _ _ H). cbn [mbind option_bind]. by rewrite (run_one _ _ _ _ Hr).
Qed.

Lemma loop_any i c rest w x s t K k : (length rest <= n)%nat -> loop_state i (c :: rest) w x s t K -> scan s (c :: rest) = Some k ->
  loop_done (indent_loop (S n) src prefix indent i w x) (K ++ k).
Proof.
  intros Hn H Hk. pose proof (step_cases s c (loop_tidy _ _ _ _ _ _ _ H) (loop_sane _ _ _ _ _ _ _ H)) as Hcase.
  pose proof (run_step_well c s (loop_sane _ _ _ _ _ _ _ H)) as Hwell.
  remember (run_step c s) as o eqn:Hr. symmetry in Hr.
  destruct Hcase as [st st' p -> Ht Ht' Hne|op s' Ho He|op Hsp Hc Ho|st e p -> Hb Hq|st e p -> Hb Hq|op s' Ho Ho' Hc Hsp Hc' Hset
    |st p Hc Hsp Ht H1 H2 H3 H4 H5 H6].
  - rewrite (scan_keeps _ _ _ _ _ Hr) in Hk by done. apply fmap_Some in Hk as (k' & Hk & ->). by eapply loop_token.
  - exfalso. destruct Ho as [->| ->]; [by rewrite (scan_fails _ _ _ _ Hr) in Hk|].
    rewrite (scan_skips _ _ _ _ _ Hr) in Hk by by right. destruct Hwell as [Hw _]. by rewrite failed_scan in Hk.
  - pose proof Hk as Hk'. rewrite (scan_skips _ _ _ _ _ Hr) in Hk' by done. destruct Ho as [->| ->]; [by eapply loop_blank|].
    assert (run_step c (settle s) = Val (scanEnd, settle s)) as Hset.
    { destruct (resting_inv s (loop_tidy _ _ _ _ _ _ _ H) Hc) as [Hcalm|(st & p & Hm & -> & Hfin)]; [by rewrite settle_calm in * |].
      destruct (space_no_number c Hsp) as (? & ? & ? & ?). rewrite Hfin in *. by rewrite fin_step, <- (may_end_step st). }
    apply (loop_outside i c rest w x s t K k scanEnd (settle s)); try done; by left.
  - destruct (readJSONComment src i) as [cm|] eqn:Hcm.
    + eapply loop_comment; try done. by exists st, e, p.
    + exfalso. revert Hcm. unfold readJSONComment. replace i with (i + 0) at 1 by lia.
      rewrite (at_from _ _ _ 0 (loop_from _ _ _ _ _ _ _ H)) by lia. done.
  - destruct (readJSONComment src i) as [cm|] eqn:Hcm; [|by eapply loop_slash].
    eapply loop_comment; try done. by exists st, e, p.
  - rewrite (scan_keeps _ _ _ _ _ Hr Ho) in Hk. apply fmap_Some in Hk as (k' & Hk & ->).
    pose proof (loop_outside i c rest w x s t K k' op s' H Hn Hr Ho') as Hl. rewrite decide_True in Hl by done.
    apply Hl; try done; [unfold scanSkipSpace in *; lia|unfold scanSkipSpace, scanError in *; lia|by left|by left].
  - rewrite (scan_keeps _ _ _ _ _ Hr) in Hk by done. apply fmap_Some in Hk as (k' & Hk & ->).
    apply (loop_outside i c rest w x s t K k' scanBeginLiteral (cfg st p) H Hn Hr); try done.
    + by rewrite settle_calm.
    + right. by exists st, p.
    + by rewrite settle_calm.
    + right. split; [done|]. split; [done|]. by apply indent_byte_begin.
Qed.
End Loop.

Lemma indent_loop_runs src prefix indent n : blanks prefix -> blanks indent -> loop_goal src prefix indent n.
Proof.
  intros Hp Hi. induction n as [|n IH]; intros i rest w x s t K k Hn H Hk.
  all: destruct rest as [|c rest]; [by eapply loop_end|cbn in Hn; try lia].
  eapply loop_any; try done. lia.
Qed.

Lemma indent_document pooled dst0 src prefix indent k : blanks prefix -> blanks indent -> dst0 = [] -> document src = Some k ->
  exists out, appendIndent pooled dst0 src prefix indent = Val (out, None) /\ document out = Some k.
Proof.
  intros Hp Hi -> Hk. rewrite <- scan_document in Hk. unfold appendIndent. change (newScanner pooled) with (cfg sBeginValue []).
  assert (calm (cfg sBeginValue [])) as Hc by (exists sBeginValue, false, []; split; [constructor|done]).
  destruct (indent_loop_runs src prefix indent (length src) Hp Hi 0 src (mkIndenter [] false 0 true false)
    (cfg sBeginValue []) (cfg sBeginValue []) (cfg sBeginValue []) [] k) as (w & x & t & -> & (y & op & y' & Hxy & He & Ho) & Hrun & Hacc).
  - done.
  - split; try done; first [apply from_start|by left|by apply sane_at].
  - done.
  - cbn [obind]. pose proof (agnostic_eof x y Hxy) as Ha. rewrite He in Ha. destruct (eof x) as [[op' x']| |]; [|done..].
    destruct Ha as [-> _]. cbn [obind]. rewrite decide_False by done. exists (dst w). split; [done|].
    rewrite <- scan_document, scan_run, Hrun. cbn [mbind option_bind]. rewrite Hacc. cbn. by rewrite app_nil_r.
Qed.


(** ** Every source: no panic, and an error for what is no document *)

Lemma scan_agnostic x y bs : same_scanner x y -> scan x bs = scan y bs.
Proof.
  revert x y. induction bs as [|c bs IH]; intros x y H; cbn [scan].
  - pose proof (agnostic_eof x y H) as Ha. destruct (eof x) as [[op x']| |], (eof y) as [[op' y']| |]; try done.
    by destruct Ha as [-> _].
  - pose proof (agnostic_run_step c x y H) as Ha.
    destruct (run_step c x) as [[op x']| |], (run_step c y) as [[op' y']| |]; try done. destruct Ha as [-> Ha].
    by rewrite (IH x' y').
Qed.
Lemma same_bytes x n : same_scanner (set_bytes n x) x.
Proof. by split. Qed.
Lemma scan_next x c bs op x' : run_step c x = Val (op, x') -> op <> scanError -> (scan x (c :: bs) = None <-> scan x' bs = None).
Proof.
  intros Hr Ho. cbn [scan]. rewrite Hr, decide_False by done. case_decide; [|done]. by destruct (scan x' bs).
Qed.

Lemma scan_comment_total bs r x : sane x -> exists ok x', scan_comment_bytes bs x = Val (ok, x') /\ sane x' /\
  if ok then (scan x (bs ++ r) = None <-> scan x' r = None) else scan x (bs ++ r) = None /\ err x' <> None.
Proof.
  revert x. induction bs as [|c bs IH]; intros x Hx; [by exists true, x|]. cbn [scan_comment_bytes app].
  pose proof (set_bytes_sane (bytes x + 1) x Hx) as Hx1. pose proof (run_step_well c _ Hx1) as Hw.
  rewrite <- (scan_agnostic _ x _ (same_bytes x (bytes x + 1))).
  destruct (run_step c (set_bytes _ x)) as [[op x']| |] eqn:Hr; [|done..]. destruct Hw as [Hs He]. cbn [obind].
  destruct (decide (op = scanError)) as [->|Ho]; [exists false, x'; by rewrite (scan_fails _ _ _ _ Hr); auto|].
  destruct (IH x' Hs) as (ok & x2 & -> & Hs2 & Hok). exists ok, x2. split; [done|]. split; [done|].
  pose proof (scan_next _ c (bs ++ r) op x' Hr Ho) as Hn. destruct ok; [by rewrite Hn|]. by rewrite Hn.
Qed.
Lemma comment_extent src i c rest cm : from src i (c :: rest) -> readJSONComment src i = Some cm ->
  exists bytes r, rest = bytes ++ r /\ slice src (i + 1) (tend cm) = Some bytes /\ from src (tend cm) r.
Proof.
  intros Hf Hr. assert (calm top) as Hc by (exists sEndTop, true, []; by split; [constructor|]).
  destruct (read_comment src i c rest cm top Hf Hr) as [_ (bytes & r & ? & ? & ? & _)]; [by left|done|eauto].
Qed.

Definition ends_as (bs : option (list Z)) (o : outcome (indenter * scanner)) : Prop :=
  match o with
  | Val (_, x) => match eof x with Val (op, x') => (op = scanError <-> bs = None) /\ (op = scanError -> err x' <> None) | _ => False end
  | _ => False
  end.
Lemma ends_as_failed w x : err x <> None -> ends_as None (Val (w, x)).
Proof. intros He. cbn [ends_as]. by rewrite eof_failed. Qed.
Lemma ends_as_iff bs bs' o : (bs = None <-> bs' = None) -> ends_as bs o -> ends_as bs' o.
Proof.
  intros Hb. destruct o as [[w x]| |]; [|done..]. cbn [ends_as]. destruct (eof x) as [[op x']| |]; [|done..]. by rewrite Hb.
Qed.

Lemma indent_loop_total src prefix indent n i rest w x : (length rest <= n)%nat -> from src i rest -> sane x ->
  ends_as (scan x rest) (indent_loop n src prefix indent i w x).
Proof.
  revert i rest w x. induction n as [|n IH]; intros i rest w x Hn Hf Hx.
  all: assert (at_ src i = head rest) as Hat
    by (replace i with (i + 0) by lia; rewrite (at_from _ _ _ 0 Hf) by lia; by destruct rest).
  all: cbn [indent_loop]; rewrite Hat; destruct rest as [|c rest]; cbn [head]; [|cbn in Hn; try lia].
  1, 2: pose proof (eof_well x Hx) as Hw; cbn [ends_as scan]; destruct (eof x) as [[op x']| |]; [|done..];
    (split; [by case_decide|done]).
  pose proof (set_bytes_sane (bytes x + 1) x Hx) as Hx1. pose proof (run_step_well c _ Hx1) as Hw.
  rewrite <- (scan_agnostic _ x _ (same_bytes x (bytes x + 1))).
  destruct (run_step c (set_bytes _ x)) as [[op x']| |] eqn:Hr; [|done..]. destruct Hw as [Hs He]. cbn [obind].
  pose proof (from_next _ _ _ _ Hf) as Hf'.
  destruct (decide (op = scanSkipSpace)) as [->|Ho].
  - apply (ends_as_iff (scan x' rest)); [by rewrite (scan_next _ _ _ _ _ Hr)|].
    destruct (readJSONComment src i) as [cm|] eqn:Hcm; [|apply IH; [lia|done|done]].
    destruct (comment_extent src i c rest cm Hf Hcm) as (bs & r & -> & -> & Hr'). cbn [of_option obind].
    destruct (scan_comment_total bs r x' Hs) as (ok & x2 & -> & Hs2 & Hok). cbn [obind]. rewrite length_app in Hn.
    destruct ok; cbn [negb]; [|destruct Hok as [-> Hok]; by apply ends_as_failed].
    apply (ends_as_iff (scan x2 r)); [by rewrite Hok|]. destruct (closed cm); cbn [negb]; apply IH; try done; lia.
  - destruct (decide (op = scanError)) as [->|Ho'].
    { rewrite (scan_fails _ _ _ _ Hr). apply ends_as_failed. auto. }
    apply (ends_as_iff (scan x' rest)); [by rewrite (scan_next _ _ _ _ _ Hr)|]. apply IH; [lia|done|done].
Qed.


(** An array of two numbers with a comment behind each of them, and a source that
    ends inside its array. *)
Definition commented : list Z :=
  [CH "["; CH "1"; CH ","; CH "/"; CH "*"; CH "a"; CH "*"; CH "/"; CH "2"; CH "#"; CH "b"; 10; CH "]"].
