(* ===== verification/JsonString.v ===== *)
(** * JSON string literals: [appendString] of encode.go, [unquoteBytes] and [getu4] of
    decode.go, the tables of tables.go (common/json/internal/contextjson)

    A Go string and a [[]byte] are lists of bytes. *)

From S2P Require Import Prelude.
From S2P Require Import GoStrings.
From S2P Require Import JsonScanner.
From S2P Require Import JsonIndent.
From Stdlib Require Import Ascii.

Local Open Scope go_scope.

(** ** unicode/utf16 *)

Definition IsSurrogate (r : Z) : bool := bool_decide (0xD800 <= r < 0xE000).
Definition DecodeRune16 (r1 r2 : Z) : Z :=
  if decide (0xD800 <= r1 < 0xDC00 /\ 0xDC00 <= r2 < 0xE000)
  then Z.lor (Z.shiftl (r1 - 0xD800) 10) (r2 - 0xDC00) + 0x10000
  else RuneError.

(** ** Quoting *)

Definition RuneSelf : Z := 0x80.
Definition UTFMax : Z := 4.

(** The tables have an entry for each byte below [RuneSelf]. *)
Definition safeSet (b : Z) : bool := bool_decide (32 <= b < RuneSelf /\ b <> 34 /\ b <> 92).
Definition htmlSafeSet (b : Z) : bool := safeSet b && negb (is_html b).

(** The switch over a byte that is not safe. *)
Definition escape_code (b : Z) : list Z :=
  if decide (b = 92 \/ b = 34) then [92; b]
  else if decide (b = 8) then [92; CH "b"]
  else if decide (b = 12) then [92; CH "f"]
  else if decide (b = 10) then [92; CH "n"]
  else if decide (b = 13) then [92; CH "r"]
  else if decide (b = 9) then [92; CH "t"]
  else html_code b.
(** What is written instead of a rune [c] of [size] bytes. *)
Definition rune_code (c size : Z) : option (list Z) :=
  if decide (c = RuneError /\ size = 1) then Some [92; CH "u"; CH "f"; CH "f"; CH "f"; CH "d"]
  else if decide (c = 0x2028 \/ c = 0x2029) then Some (separator_code c)
  else None.

(** The loop; [n] bounds the bytes left. *)
Fixpoint quote_loop (n : nat) (src : list Z) (escapeHTML : bool) (i start : Z) (dst : list Z)
    : option (list Z * Z) :=
  match at_ src i, n with
  | None, _ => Some (dst, start)
  | Some _, O => None
  | Some b, S n =>
      if decide (b < RuneSelf) then
        if htmlSafeSet b || (negb escapeHTML && safeSet b) then quote_loop n src escapeHTML (i + 1) start dst
        else seg ← slice src start i; quote_loop n src escapeHTML (i + 1) (i + 1) (dst ++ seg ++ escape_code b)
      else
        part ← slice src i (i + Z.min (zlen src - i) UTFMax);
        let '(c, size) := DecodeRune part in
        match rune_code c size with
        | Some code =>
            seg ← slice src start i; quote_loop n src escapeHTML (i + size) (i + size) (dst ++ seg ++ code)
        | None => quote_loop n src escapeHTML (i + size) start dst
        end
  end.
Definition appendString (dst src : list Z) (escapeHTML : bool) : option (list Z) :=
  '(dst, start) ← quote_loop (length src) src escapeHTML 0 0 (dst ++ [34]);
  seg ← slice src start (zlen src); Some ((dst ++ seg) ++ [34]).

(** ** Unquoting *)

(** The value of a hexadecimal digit. *)
Definition hex_value (c : Z) : option Z :=
  if decide (CH "0" <= c <= CH "9") then Some (c - CH "0")
  else if decide (CH "a" <= c <= CH "f") then Some (c - CH "a" + 10)
  else if decide (CH "A" <= c <= CH "F") then Some (c - CH "A" + 10)
  else None.
Fixpoint getu4_loop (cs : list Z) (r : Z) : Z :=
  match cs with
  | [] => r
  | c :: cs => match hex_value c with Some c => getu4_loop cs (r * 16 + c) | None => -1 end
  end.
Definition getu4 (s : list Z) : Z :=
  match s with
  | a :: b :: cs => if decide (zlen s < 6 \/ a <> 92 \/ b <> CH "u") then -1 else getu4_loop (ztake 4 cs) 0
  | _ => -1
  end.

(** The bytes from [r] on that stand for themselves. *)
Fixpoint plain_loop (n : nat) (s : list Z) (r : Z) : option Z :=
  match at_ s r, n with
  | None, _ => Some r
  | Some _, O => None
  | Some c, S n =>
      if decide (c = 92 \/ c = 34 \/ c < 32) then Some r
      else if decide (c < RuneSelf) then plain_loop n s (r + 1)
      else let '(rr, size) := DecodeRune (zdrop r s) in
           if decide (rr = RuneError /\ size = 1) then Some r else plain_loop n s (r + size)
  end.

(** One character: the bytes written for it and the bytes of [s] it takes; [None] if
    it is invalid.  [s[r:]] is never cut beyond the end of [s]. *)
Definition unquote_escape (s : list Z) (r : Z) : option (list Z * Z) :=
  match at_ s (r + 1) with
  | None => None
  | Some e =>
      if decide (e = 34 \/ e = 92 \/ e = CH "/" \/ e = 39) then Some ([e], 2)
      else if decide (e = CH "b") then Some ([8], 2)
      else if decide (e = CH "f") then Some ([12], 2)
      else if decide (e = CH "n") then Some ([10], 2)
      else if decide (e = CH "r") then Some ([13], 2)
      else if decide (e = CH "t") then Some ([9], 2)
      else if decide (e = CH "u") then
        let rr := getu4 (zdrop r s) in
        if decide (rr < 0) then None
        else if IsSurrogate rr then
          let dec := DecodeRune16 rr (getu4 (zdrop (r + 6) s)) in
          if decide (dec <> RuneError) then Some (EncodeRune dec, 12)
          else Some (EncodeRune RuneError, 6)
        else Some (EncodeRune rr, 6)
      else None
  end.
Definition unquote_char (s : list Z) (r c : Z) : option (list Z * Z) :=
  if decide (c = 92) then unquote_escape s r
  else if decide (c = 34 \/ c < 32) then None
  else if decide (c < RuneSelf) then Some ([c], 1)
  else let '(rr, size) := DecodeRune (zdrop r s) in Some (EncodeRune rr, size).
(** [out] is [b[0:w]] and [blen] is [len(b)]; a write beyond the end of [b] panics. *)
Fixpoint unquote_loop (n : nat) (s : list Z) (r blen : Z) (out : list Z) : outcome (option (list Z)) :=
  match at_ s r, n with
  | None, _ => Val (Some out)
  | Some _, O => OutOfFuel
  | Some c, S n =>
      let blen := if decide (zlen out >= blen - 2 * UTFMax) then (blen + UTFMax) * 2 else blen in
      match unquote_char s r c with
      | None => Val None
      | Some (bs, k) =>
          if decide (zlen out + zlen bs <= blen) then unquote_loop n s (r + k) blen (out ++ bs) else Panic
      end
  end.
Definition unquoteBytes (s : list Z) : outcome (option (list Z)) :=
  if decide (zlen s < 2 \/ head s <> Some 34 \/ last s <> Some 34) then Val None
  else
    let s := ztake (zlen s - 2) (zdrop 1 s) in
    match plain_loop (length s) s 0 with
    | None => OutOfFuel
    | Some r =>
        if decide (r = zlen s) then Val (Some s)
        else unquote_loop (length s) s r (zlen s + 2 * UTFMax) (ztake r s)
    end.
(** [ok] is whether there is a string; the string next to [false] is never used. *)
Definition unquote (s : list Z) : outcome (option (list Z)) := unquoteBytes s.
