(* ===== verification/JsonStringTheorems.v ===== *)
(** * Theorems about JSON string literals: what is quoted reads back *)

From S2P Require Import Prelude.
From S2P Require Import GoStrings.
From S2P Require Import JsonScanner.
From S2P Require Import JsonGrammar.
From S2P Require Import JsonIndent.
From S2P Require Import JsonIndentTheorems.
From S2P Require Import JsonString.
From Stdlib Require Import Ascii.

(** ** Decoding runes *)

Lemma first_byte_Some b sz lo hi : first_byte b = Some (sz, lo, hi) ->
  0x80 <= lo /\ hi <= 0xBF /\
  (sz = 2 /\ 0xC2 <= b <= 0xDF \/
   sz = 3 /\ 0xE0 <= b <= 0xEF /\ (b = 0xE0 -> lo = 0xA0) /\ (b = 0xED -> hi = 0x9F) \/
   sz = 4 /\ 0xF0 <= b <= 0xF4 /\ (b = 0xF0 -> lo = 0x90) /\ (b = 0xF4 -> hi = 0x8F)).
Proof. unfold first_byte. repeat (case_decide; [intros [= <- <- <-]; lia|]). done. Qed.

(** A byte with six bits of payload. *)
Lemma cont_payload x : 0x80 <= x <= 0xBF -> exists y, x = 128 + y /\ 0 <= y < 64.
Proof. exists (x - 128). lia. Qed.

Lemma zdrop_succ {A} (x : A) l n : 0 <= n -> zdrop (1 + n) (x :: l) = zdrop n l.
Proof. intros. unfold zdrop. by replace (Z.to_nat (1 + n)) with (S (Z.to_nat n)) by lia. Qed.
Lemma ztake_succ {A} (x : A) l n : 0 <= n -> ztake (1 + n) (x :: l) = x :: ztake n l.
Proof. intros. unfold ztake. by replace (Z.to_nat (1 + n)) with (S (Z.to_nat n)) by lia. Qed.

(** The encoding of a rune of two, three and four bytes, from its payloads. *)
Lemma encode_2 a b : 2 <= a < 32 -> 0 <= b < 64 -> EncodeRune (a * 64 + b) = [192 + a; 128 + b].
Proof.
  intros Ha Hb. unfold EncodeRune. rewrite decide_False, decide_True by lia. rewrite cont_byte by lia.
  rewrite Z.shiftr_div_pow2, (lor_high 6 5) by (Z.to_euclidean_division_equations; lia).
  f_equal; [|f_equal]; Z.to_euclidean_division_equations; lia.
Qed.
Lemma encode_3 a b c : 0 <= a < 16 -> 0 <= b < 64 -> 0 <= c < 64 -> 0x800 <= a * 4096 + b * 64 ->
  ~ (0xD800 <= a * 4096 + b * 64 + c <= 0xDFFF) ->
  EncodeRune (a * 4096 + b * 64 + c) = [224 + a; 128 + b; 128 + c].
Proof.
  intros Ha Hb Hc Hlo Hs. unfold EncodeRune. rewrite decide_False, decide_False by lia.
  rewrite (decide_True (P := valid_rune _)), decide_True by (unfold valid_rune, MaxRune; lia). rewrite !cont_byte by lia.
  rewrite Z.shiftr_div_pow2, (lor_high 14 4) by (Z.to_euclidean_division_equations; lia).
  f_equal; [|f_equal; [|f_equal]]; Z.to_euclidean_division_equations; lia.
Qed.
Lemma encode_4 a b c d : 0 <= a < 8 -> 0 <= b < 64 -> 0 <= c < 64 -> 0 <= d < 64 ->
  0x10000 <= a * 262144 + b * 4096 + c * 64 + d <= MaxRune ->
  EncodeRune (a * 262144 + b * 4096 + c * 64 + d) = [240 + a; 128 + b; 128 + c; 128 + d].
Proof.
  intros Ha Hb Hc Hd Hr. unfold EncodeRune. rewrite decide_False, decide_False by lia.
  rewrite (decide_True (P := valid_rune _)), decide_False by (unfold valid_rune, MaxRune in *; lia). rewrite !cont_byte by lia.
  rewrite Z.shiftr_div_pow2, (lor_high 30 3) by (Z.to_euclidean_division_equations; lia).
  f_equal; [|f_equal; [|f_equal; [|f_equal]]]; Z.to_euclidean_division_equations; lia.
Qed.

(** What DecodeRune finds: an invalid byte, or the encoding of a rune. *)
Lemma Decode_inv b s : 0 <= b -> DecodeRune (b :: s) = (RuneError, 1) /\ 128 <= b \/
  exists r rest, valid_rune r /\ b :: s = EncodeRune r ++ rest /\ DecodeRune (b :: s) = (r, zlen (EncodeRune r)).
Proof.
  intros Hb. cbn [DecodeRune]. destruct (decide (b < 0x80)) as [Hlt|Hge].
  { right. exists b, s. unfold EncodeRune. rewrite decide_True by lia. split; [left; lia|done]. }
  destruct (first_byte b) as [[[sz lo] hi]|] eqn:Hf; [|left; split; [done|lia]].
  apply first_byte_Some in Hf as (Hlo & Hhi & Hf).
  destruct s as [|s1 s]; [left; split; [done|lia]|].
  case_decide as H1; [left; split; [done|lia]|]. destruct (cont_payload s1) as (y1 & -> & Hy1); [lia|].
  case_decide as H2.
  { right. subst sz. assert (exists a, b = 192 + a /\ 2 <= a < 32) as (a & -> & Ha) by (exists (b - 192); lia).
    exists (a * 64 + y1), s. rewrite encode_2 by done. split; [left; lia|]. split; [done|].
    pose proof (DecodeRune_2 a y1 s Ha Hy1) as Hd. cbn [DecodeRune] in Hd. rewrite decide_False in Hd by lia.
    f_equal. change 0x1F with (2 ^ 5 - 1). rewrite (land_low 6 5), cont_bits, Z.shiftl_mul_pow2, (lor_high a 6) by lia. done. }
  destruct s as [|s2 s]; [left; split; [done|lia]|].
  case_decide as H3; [left; split; [done|lia]|]. destruct (cont_payload s2) as (y2 & -> & Hy2); [lia|].
  case_decide as H4.
  { right. subst sz. assert (exists a, b = 224 + a /\ 0 <= a < 16) as (a & -> & Ha) by (exists (b - 224); lia).
    exists (a * 4096 + y1 * 64 + y2), s. rewrite encode_3 by lia. split; [unfold valid_rune, MaxRune; lia|]. split; [done|].
    f_equal. change 0x0F with (2 ^ 4 - 1). rewrite (land_low 14 4), !cont_bits, !Z.shiftl_mul_pow2, (lor_high a 12) by lia.
    replace (a * 2 ^ 12 + y1 * 2 ^ 6) with ((a * 64 + y1) * 2 ^ 6) by lia. rewrite lor_high by lia. lia. }
  destruct s as [|s3 s]; [left; split; [done|lia]|].
  case_decide as H5; [left; split; [done|lia]|]. destruct (cont_payload s3) as (y3 & -> & Hy3); [lia|].
  right. assert (exists a, b = 240 + a /\ 0 <= a < 8) as (a & -> & Ha) by (exists (b - 240); lia).
  exists (a * 262144 + y1 * 4096 + y2 * 64 + y3), s. rewrite encode_4 by (unfold MaxRune; lia).
  split; [unfold valid_rune, MaxRune; lia|]. split; [done|]. f_equal. change 0x07 with (2 ^ 3 - 1).
  rewrite (land_low 30 3), !cont_bits, !Z.shiftl_mul_pow2, (lor_high a 18) by lia.
  replace (a * 2 ^ 18 + y1 * 2 ^ 12) with ((a * 64 + y1) * 2 ^ 12) by lia. rewrite lor_high by lia.
  replace ((a * 64 + y1) * 2 ^ 12 + y2 * 2 ^ 6) with ((a * 4096 + y1 * 64 + y2) * 2 ^ 6) by lia.
  rewrite lor_high by lia. lia.
Qed.

Lemma encode_short r : zlen (EncodeRune r) <= 4.
Proof. unfold EncodeRune. repeat case_decide; unfold zlen; cbn; lia. Qed.

Lemma RuneError_3 : zlen (EncodeRune RuneError) = 3.
Proof. reflexivity. Qed.
Lemma rune_not_bad r rest s : valid_rune r -> s = EncodeRune r ++ rest -> DecodeRune s <> (RuneError, 1).
Proof.
  intros Hr -> Hd. destruct (Decode_Encode r rest Hr) as [He _]. rewrite He in Hd. injection Hd as -> Hl.
  by rewrite RuneError_3 in Hl.
Qed.
(** Four bytes are enough to decode a rune. *)
Lemma Decode_take b s : 0 <= b -> DecodeRune (ztake UTFMax (b :: s)) = DecodeRune (b :: s).
Proof.
  intros Hb. assert (ztake UTFMax (b :: s) = b :: ztake 3 s) as Ht by by apply (ztake_succ b s 3).
  destruct (Decode_inv b s Hb) as [[Hd _]|(r & rest & Hr & He & Hd)]; rewrite Hd.
  - destruct (Decode_inv b (ztake 3 s) Hb) as [[Hd' _]|(r & rest & Hr & He & _)]; [by rewrite Ht|].
    exfalso. apply (rune_not_bad r (rest ++ zdrop 3 s) (b :: s) Hr); [|done].
    by rewrite app_assoc, <- He, <- (ztake_zdrop 3 s) at 1.
  - rewrite He. unfold ztake. rewrite take_app_ge.
    + by destruct (Decode_Encode r (take (Z.to_nat UTFMax - length (EncodeRune r)) rest) Hr).
    + pose proof (encode_short r) as Hs. unfold zlen, UTFMax in *. lia.
Qed.

(** ** A string as its runes and invalid bytes *)

Inductive decoded : list Z -> list (option Z) -> Prop :=
  | decoded_nil : decoded [] []
  | decoded_bad b s rs : is_byte b -> 128 <= b -> DecodeRune (b :: s) = (RuneError, 1) -> decoded s rs ->
      decoded (b :: s) (None :: rs)
  | decoded_rune r s rs : valid_rune r -> decoded s rs -> decoded (EncodeRune r ++ s) (Some r :: rs).
Definition item_bytes (o : option Z) : list Z := EncodeRune (default RuneError o).

Lemma decoded_total s : bytes_ok s -> exists rs, decoded s rs.
Proof.
  induction s as [s IH] using (well_founded_induction (well_founded_ltof _ (@length Z))). unfold ltof in IH.
  intros Hs. destruct s as [|b s]; [by exists []; constructor|]. inversion Hs as [|? ? Hb Hs']; subst.
  assert (0 <= b) as Hb0 by (unfold is_byte in Hb; lia).
  destruct (Decode_inv b s Hb0) as [[Hd Hge]|(r & rest & Hr & He & _)].
  - destruct (IH s) as [rs Hrs]; [cbn; lia|done|]. by exists (None :: rs); constructor.
  - rewrite He in *. pose proof (EncodeRune_ne r) as Hne. destruct (IH rest) as [rs Hrs].
    + destruct (EncodeRune r); [done|]. cbn. rewrite length_app. lia.
    + by apply Forall_app in Hs as [_ Hs].
    + by exists (Some r :: rs); constructor.
Qed.

(** The string with U+FFFD for each invalid byte. *)
Fixpoint to_valid_fuel (n : nat) (s : list Z) : list Z :=
  match n, s with
  | S n, _ :: _ => let '(r, size) := DecodeRune s in EncodeRune r ++ to_valid_fuel n (zdrop size s)
  | _, _ => []
  end.
Definition to_valid (s : list Z) : list Z := to_valid_fuel (length s) s.

Lemma to_valid_fuel_decoded n s rs : decoded s rs -> (length s <= n)%nat -> to_valid_fuel n s = rs ≫= item_bytes.
Proof.
  intros Hd. revert n. induction Hd as [|b s rs Hb Hge Hd Hs IH|r s rs Hr Hs IH]; intros n Hn; [by destruct n|..].
  - destruct n as [|n]; cbn in Hn; [lia|]. cbn [to_valid_fuel]. rewrite Hd.
    change (zdrop 1 (b :: s)) with s. by rewrite (IH n) by lia.
  - pose proof (EncodeRune_ne r) as Hne. destruct (Decode_Encode r s Hr) as [Hd _].
    pose proof (zdrop_app (EncodeRune r) s) as Hz. remember (EncodeRune r ++ s) as t eqn:Et.
    destruct t as [|b t]; [by destruct (EncodeRune r)|].
    destruct n as [|n]; cbn in Hn; [lia|]. cbn [to_valid_fuel]. rewrite Hd, Hz.
    rewrite (IH n); [done|]. assert (length (b :: t) = length (EncodeRune r ++ s)) as Hl by by rewrite Et.
    rewrite length_app in Hl. cbn in Hl. destruct (EncodeRune r); [done|]. cbn in Hl. lia.
Qed.
Lemma to_valid_decoded s rs : decoded s rs -> to_valid s = rs ≫= item_bytes.
Proof. intros Hd. by apply to_valid_fuel_decoded. Qed.
Lemma utf8_decoded rs : Forall valid_rune rs -> decoded (utf8 rs) (Some <$> rs).
Proof. induction 1 as [|r rs Hr Hrs IH]; [constructor|]. rewrite utf8_cons. cbn. by constructor. Qed.
Lemma to_valid_utf8 rs : Forall valid_rune rs -> to_valid (utf8 rs) = utf8 rs.
Proof. intros Hrs. rewrite (to_valid_decoded _ _ (utf8_decoded rs Hrs)). induction rs; [done|]. inversion Hrs; subst. cbn. by rewrite IHrs. Qed.

(** ** Quoting *)

Definition quote_item (esc : bool) (o : option Z) : list Z :=
  match o with
  | None => [92; CH "u"; CH "f"; CH "f"; CH "f"; CH "d"]
  | Some r =>
      if decide (r < RuneSelf) then if htmlSafeSet r || (negb esc && safeSet r) then [r] else escape_code r
      else if decide (r = 0x2028 \/ r = 0x2029) then separator_code r else EncodeRune r
  end.
Definition quoted (esc : bool) (rs : list (option Z)) : list Z := rs ≫= quote_item esc.

Lemma slice_more src a i seg k rest : slice src a i = Some seg -> from src i (k ++ rest) ->
  slice src a (i + zlen k) = Some (seg ++ k).
Proof.
  revert i seg. induction k as [|c k IH]; intros i seg Hs Hf.
  - by rewrite zlen_nil, Z.add_0_r, app_nil_r.
  - rewrite zlen_cons, Z.add_assoc. replace (seg ++ c :: k) with ((seg ++ [c]) ++ k) by by rewrite <- app_assoc.
    apply IH; [by eapply slice_next|by eapply from_next].
Qed.
Lemma from_more src i k rest : from src i (k ++ rest) -> from src (i + zlen k) rest.
Proof. intros (pre & -> & ->)%from_app. rewrite app_assoc, <- zlen_app. apply from_pre. Qed.
Lemma from_slice src i k rest : from src i (k ++ rest) -> slice src i (i + zlen k) = Some k.
Proof. intros Hf. by apply (slice_more src i i [] k rest); [apply (slice_empty _ _ (k ++ rest))|]. Qed.
Lemma from_at src i c rest : from src i (c :: rest) -> at_ src i = Some c.
Proof. intros (pre & -> & ->)%from_app. apply at_app. Qed.
Lemma from_at_end src i : from src i [] -> at_ src i = None.
Proof. intros (pre & -> & ->)%from_app. rewrite <- (Z.add_0_r (zlen pre)). by rewrite at_app_r. Qed.
Lemma from_len src i rest : from src i rest -> zlen src - i = zlen rest.
Proof. intros (pre & -> & ->)%from_app. rewrite zlen_app. lia. Qed.
(** The bytes a rune is decoded from. *)
Lemma from_part src i c rest : from src i (c :: rest) ->
  slice src i (i + Z.min (zlen src - i) UTFMax) = Some (ztake UTFMax (c :: rest)).
Proof.
  intros Hf. rewrite (from_len _ _ _ Hf). rewrite <- (ztake_zdrop UTFMax (c :: rest)) in Hf.
  apply from_slice in Hf. rewrite zlen_ztake in Hf. unfold UTFMax in *. rewrite <- Hf. f_equal.
  pose proof (zlen_nonneg (c :: rest)). lia.
Qed.

(** One rune: its bytes are left for later, or its code is written. *)
Lemma quote_step n src esc i start dst seg r rest : valid_rune r -> from src i (EncodeRune r ++ rest) ->
  slice src start i = Some seg ->
  let i' := i + zlen (EncodeRune r) in
  quote_item esc (Some r) = EncodeRune r /\ quote_loop (S n) src esc i start dst = quote_loop n src esc i' start dst \/
  quote_loop (S n) src esc i start dst = quote_loop n src esc i' i' (dst ++ seg ++ quote_item esc (Some r)).
Proof.
  intros Hr Hf Hs. destruct (Decode_Encode r rest Hr) as [Hd Hpos]. cbn zeta.
  destruct (EncodeRune r) as [|b t] eqn:Er; [by rewrite zlen_nil in Hpos|].
  assert (0 <= b) as Hb0.
  { destruct (EncodeRune_bytes r b Hr) as [[-> _]|]; [rewrite Er; by left|unfold valid_rune in Hr; lia|lia]. }
  cbn [quote_loop]. rewrite (from_at _ _ _ _ Hf). destruct (decide (r < RuneSelf)) as [Hlt|Hge].
  - assert (b = r /\ t = []) as [-> ->].
    { revert Er. unfold EncodeRune. unfold RuneSelf, valid_rune in *. rewrite decide_True by lia. by intros [= -> ->]. }
    rewrite decide_True by done. change (zlen [r]) with 1. cbn [quote_item]. rewrite (decide_True (P := r < RuneSelf)) by done.
    destruct (htmlSafeSet r || _); [by left|]. right. by rewrite Hs.
  - assert (128 <= b) as Hb.
    { destruct (EncodeRune_bytes r b Hr) as [[_ ?]|]; [rewrite Er; by left|unfold RuneSelf in *; lia|lia]. }
    rewrite decide_False by (unfold RuneSelf; lia). rewrite (from_part src i b (t ++ rest) Hf). cbn [mbind option_bind].
    rewrite Decode_take by done. change (DecodeRune (b :: t ++ rest)) with (DecodeRune ((b :: t) ++ rest)). rewrite Hd.
    unfold rune_code. cbn [quote_item]. rewrite (decide_False (P := r < RuneSelf)) by done.
    rewrite (decide_False (P := r = RuneError /\ _)); [|intros [-> Hl]; rewrite <- Er in Hl; by rewrite RuneError_3 in Hl].
    case_decide; [right; by rewrite Hs|left; by rewrite Er].
Qed.
Lemma quote_step_bad n src esc i start dst seg b rest : 128 <= b -> DecodeRune (b :: rest) = (RuneError, 1) ->
  from src i (b :: rest) -> slice src start i = Some seg ->
  quote_loop (S n) src esc i start dst = quote_loop n src esc (i + 1) (i + 1) (dst ++ seg ++ quote_item esc None).
Proof.
  intros Hb Hd Hf Hs. cbn [quote_loop]. rewrite (from_at _ _ _ _ Hf), decide_False by (unfold RuneSelf; lia).
  rewrite (from_part _ _ _ _ Hf). cbn [mbind option_bind]. rewrite Decode_take, Hd by lia.
  unfold rune_code. rewrite decide_True by done. by rewrite Hs.
Qed.

Lemma quote_loop_spec n src esc i start dst seg rest rs : (length rest <= n)%nat ->
  from src i rest -> slice src start i = Some seg -> decoded rest rs ->
  exists d st seg', quote_loop n src esc i start dst = Some (d, st) /\ slice src st (zlen src) = Some seg' /\
    d ++ seg' = dst ++ seg ++ quoted esc rs.
Proof.
  intros Hn Hf Hs Hd. revert n i start dst seg Hn Hf Hs.
  induction Hd as [|b rest rs Hb Hge Hd Hrs IH|r rest rs Hr Hrs IH]; intros n i start dst seg Hn Hf Hs.
  - exists dst, start, seg. rewrite <- (from_end _ _ Hf), app_nil_r. split; [|done].
    destruct n; cbn [quote_loop]; by rewrite (from_at_end _ _ Hf).
  - destruct n as [|n]; cbn in Hn; [lia|]. rewrite (quote_step_bad n src esc i start dst seg b rest) by done.
    destruct (IH n (i + 1) (i + 1) (dst ++ seg ++ quote_item esc None) []) as (d & st & seg' & -> & Hst & He);
      [lia|by eapply from_next|by eapply slice_empty, from_next|].
    exists d, st, seg'. split; [done|]. split; [done|]. by rewrite He, <- !app_assoc.
  - destruct (Decode_Encode r rest Hr) as [_ Hpos]. rewrite length_app in Hn. unfold zlen in Hpos.
    pose proof (from_more _ _ _ _ Hf) as Hf'. destruct n as [|n]; [lia|].
    destruct (quote_step n src esc i start dst seg r rest Hr Hf Hs) as [[Hq ->]| ->].
    + destruct (IH n (i + zlen (EncodeRune r)) start dst (seg ++ EncodeRune r)) as (d & st & seg' & -> & Hst & He);
        [lia|done|by eapply slice_more|].
      exists d, st, seg'. split; [done|]. split; [done|]. rewrite He. unfold quoted. cbn [mbind list_bind]. by rewrite Hq, <- !app_assoc.
    + destruct (IH n (i + zlen (EncodeRune r)) (i + zlen (EncodeRune r)) (dst ++ seg ++ quote_item esc (Some r)) [])
        as (d & st & seg' & -> & Hst & He); [lia|done|by eapply slice_empty|].
      exists d, st, seg'. split; [done|]. split; [done|]. by rewrite He, <- !app_assoc.
Qed.

Lemma appendString_quoted dst src esc rs : decoded src rs ->
  appendString dst src esc = Some (dst ++ 34 :: quoted esc rs ++ [34]).
Proof.
  intros Hd. unfold appendString.
  destruct (quote_loop_spec (length src) src esc 0 0 (dst ++ [34]) [] src rs) as (d & st & seg & -> & Hs & He);
    [done|apply from_start|by apply (slice_empty src 0 src), from_start|done|].
  cbn [mbind option_bind]. rewrite Hs. cbn [mbind option_bind]. by rewrite He, <- !app_assoc.
Qed.

(** ** Unquoting *)

Lemma at_zdrop (s : list Z) r i : 0 <= r -> 0 <= i -> at_ (zdrop r s) i = at_ s (r + i).
Proof. intros. unfold at_, zdrop. rewrite !decide_True by lia. rewrite lookup_drop. f_equal. lia. Qed.
(** A character is found in the bytes from its index on. *)
Lemma unquote_char_from s r c rest : from s r rest -> unquote_char s r c = unquote_char rest 0 c.
Proof.
  intros [Hr <-]. unfold unquote_char, unquote_escape. rewrite at_zdrop by lia. cbn [Z.add].
  change (zdrop 0 (zdrop r s)) with (zdrop r s). by rewrite zdrop_zdrop by lia.
Qed.

Lemma getu4_length s : 0 <= getu4 s -> 6 <= zlen s.
Proof. destruct s as [|a [|b cs]]; cbn [getu4]; [lia..|]. case_decide; lia. Qed.
Lemma DecodeRune16_pair r1 r2 : DecodeRune16 r1 r2 <> RuneError -> 0 <= r2.
Proof. unfold DecodeRune16. case_decide; [lia|done]. Qed.

(** At most four bytes are written for a character. *)
Lemma unquote_char_bounds c rest bs k : unquote_char (c :: rest) 0 c = Some (bs, k) ->
  zlen bs <= 4 /\ 1 <= k <= zlen (c :: rest).
Proof.
  unfold unquote_char. pose proof (zlen_nonneg rest) as Hl. case_decide as H1.
  - unfold unquote_escape. change (at_ (c :: rest) (0 + 1)) with (at_ rest 0).
    destruct rest as [|e rest]; [done|]. change (at_ (e :: rest) 0) with (Some e). cbn iota.
    pose proof (zlen_nonneg rest) as Hl'. rewrite !zlen_cons.
    do 6 (case_decide; [intros [= <- <-]; rewrite !zlen_cons, zlen_nil; lia|]). case_decide; [|done].
    change (zdrop 0 (c :: e :: rest)) with (c :: e :: rest). case_decide as Hu; [done|].
    pose proof (getu4_length (c :: e :: rest) ltac:(lia)) as Hlen. rewrite !zlen_cons in Hlen.
    assert (forall r, zlen (EncodeRune r) <= 4) as He by apply encode_short.
    destruct (IsSurrogate _); [|intros [= <- <-]; split; [done|lia]].
    case_decide as Hd; [|intros [= <- <-]; split; [done|lia]].
    apply DecodeRune16_pair, getu4_length in Hd. rewrite zlen_zdrop, !zlen_cons in Hd. intros [= <- <-]. split; [done|lia].
  - case_decide as H2; [done|]. case_decide as H3.
    + intros [= <- <-]. rewrite !zlen_cons, zlen_nil. lia.
    + change (zdrop 0 (c :: rest)) with (c :: rest). assert (0 <= c) as Hc by (unfold RuneSelf in *; lia).
      destruct (Decode_inv c rest Hc) as [[Hd _]|(r & t & Hr & He & Hd)]; rewrite Hd; intros [= <- <-].
      * split; [done|]. rewrite zlen_cons. lia.
      * split; [apply encode_short|]. rewrite He, zlen_app. destruct (Decode_Encode r t Hr) as [_ ?].
        pose proof (zlen_nonneg t). lia.
Qed.

(** The characters of a literal and the bytes they stand for. *)
Inductive spells : list Z -> list Z -> Prop :=
  | spells_nil : spells [] []
  | spells_char c rest bs k t : unquote_char (c :: rest) 0 c = Some (bs, k) -> spells (zdrop k (c :: rest)) t ->
      spells (c :: rest) (bs ++ t).

Lemma from_zdrop (s : list Z) r rest k : from s r rest -> 0 <= k <= zlen rest -> from s (r + k) (zdrop k rest).
Proof.
  intros [Hr <-] Hk. rewrite zlen_zdrop in Hk. split; [lia|]. by rewrite zdrop_zdrop by lia.
Qed.

Lemma unquote_loop_spells n s r blen out rest t : spells rest t -> from s r rest -> (length rest <= n)%nat ->
  8 <= blen -> zlen out <= blen -> unquote_loop n s r blen out = Val (Some (out ++ t)).
Proof.
  intros Ht. revert n r blen out. induction Ht as [|c rest bs k t Hc Ht IH]; intros n r blen out Hf Hn Hb Ho.
  - rewrite app_nil_r. destruct n; cbn [unquote_loop]; by rewrite (from_at_end _ _ Hf).
  - destruct n as [|n]; cbn [length] in Hn; [lia|]. cbn [unquote_loop].
    rewrite (from_at _ _ _ _ Hf), (unquote_char_from _ _ _ _ Hf), Hc.
    destruct (unquote_char_bounds _ _ _ _ Hc) as [Hbs Hk]. pose proof (zlen_nonneg out). unfold UTFMax.
    assert (length (zdrop k (c :: rest)) <= n)%nat as Hn'.
    { unfold zdrop. rewrite length_drop. cbn [length]. lia. }
    pose proof (from_zdrop _ _ _ k Hf ltac:(lia)) as Hf'. rewrite app_assoc.
    destruct (decide (zlen out >= _)); rewrite decide_True by lia; apply IH; try done; rewrite ?zlen_app; lia.
Qed.

Lemma plain_loop_spells n s r rest t : spells rest t -> from s r rest -> (length rest <= n)%nat ->
  exists pre rest' t', plain_loop n s r = Some (r + zlen pre) /\ rest = pre ++ rest' /\ t = pre ++ t' /\ spells rest' t'.
Proof.
  intros Ht. revert n r. induction Ht as [|c rest bs k t Hc Ht IH]; intros n r Hf Hn.
  - exists [], [], []. split; [|by repeat split; constructor].
    rewrite zlen_nil, Z.add_0_r. destruct n; cbn [plain_loop]; by rewrite (from_at_end _ _ Hf).
  - destruct n as [|n]; cbn [length] in Hn; [lia|]. cbn [plain_loop]. rewrite (from_at _ _ _ _ Hf).
    pose proof (unquote_char_bounds _ _ _ _ Hc) as [_ Hk]. pose proof (from_zdrop _ _ _ k Hf ltac:(lia)) as Hf'.
    assert (length (zdrop k (c :: rest)) <= n)%nat as Hn' by (unfold zdrop; rewrite length_drop; cbn [length]; lia).
    assert (exists pre rest' t', Some r = Some (r + zlen pre) /\ c :: rest = pre ++ rest' /\ bs ++ t = pre ++ t' /\ spells rest' t') as Hstop.
    { exists [], (c :: rest), (bs ++ t). rewrite zlen_nil, Z.add_0_r. repeat split. by apply (spells_char _ _ _ k). }
    assert (bs = ztake k (c :: rest) -> exists pre rest' t', plain_loop n s (r + k) = Some (r + zlen pre) /\
      c :: rest = pre ++ rest' /\ bs ++ t = pre ++ t' /\ spells rest' t') as Hgo.
    { intros ->. destruct (IH n (r + k) Hf' Hn') as (pre & rest' & t' & Hp & Hr & -> & Hs).
      exists (ztake k (c :: rest) ++ pre), rest', t'. rewrite Hp, zlen_app, zlen_ztake.
      split; [f_equal; lia|]. rewrite <- !app_assoc, <- Hr, ztake_zdrop. done. }
    destruct (decide (c = 92 \/ c = 34 \/ c < 32)) as [|Hne]; [done|]. revert Hc. unfold unquote_char.
    rewrite decide_False, decide_False by lia. destruct (decide (c < RuneSelf)) as [Hlt|Hge].
    + intros [= <- <-]. by apply Hgo.
    + destruct Hf as [Hr0 Hz]. rewrite Hz. change (zdrop 0 (c :: rest)) with (c :: rest).
      assert (0 <= c) as Hc0 by (unfold RuneSelf in *; lia).
      destruct (Decode_inv c rest Hc0) as [[Hd _]|(rr & t2 & Hr & He & Hd)]; rewrite Hd; intros [= <- <-].
      * by rewrite decide_True.
      * rewrite decide_False by (intros [-> Hl]; by rewrite RuneError_3 in Hl). apply Hgo. rewrite He. by rewrite ztake_app.
Qed.

Lemma unquote_inner b : ztake (zlen (34 :: b ++ [34]) - 2) (zdrop 1 (34 :: b ++ [34])) = b.
Proof.
  change (zdrop 1 (34 :: b ++ [34])) with (b ++ [34]). rewrite zlen_cons, zlen_app, zlen_cons, zlen_nil.
  replace (1 + (zlen b + (1 + 0)) - 2) with (zlen b) by lia. apply ztake_app.
Qed.
Lemma unquote_spells b t : spells b t -> unquoteBytes (34 :: b ++ [34]) = Val (Some t).
Proof.
  intros Ht. unfold unquoteBytes. pose proof (zlen_nonneg b). rewrite decide_False.
  2:{ rewrite zlen_cons, zlen_app, zlen_cons, zlen_nil. rewrite app_comm_cons, last_snoc. intros [?|[?|?]]; [lia|done..]. }
  rewrite unquote_inner.
  destruct (plain_loop_spells (length b) b 0 b t Ht (from_start b) ltac:(done)) as (pre & rest & t' & Hp & Hr & -> & Hs).
  rewrite Hp, Z.add_0_l. case_decide as Hl.
  - rewrite Hr, zlen_app in Hl. assert (rest = []) as -> by (apply zlen_0; lia). inversion Hs; subst. by rewrite !app_nil_r.
  - rewrite Hr at 4. rewrite ztake_app. apply (unquote_loop_spells _ _ _ _ _ rest); try done.
    + rewrite Hr. apply from_pre.
    + rewrite Hr, length_app. lia.
    + unfold UTFMax. lia.
    + rewrite Hr, zlen_app. pose proof (zlen_nonneg rest). unfold UTFMax. lia.
Qed.
