(* ===== verification/JsonStringProps.v ===== *)
(** * Round trip of JSON string literals, and their grammar *)

From S2P Require Import Prelude.
From S2P Require Import GoStrings.
From S2P Require Import JsonScanner.
From S2P Require Import JsonGrammar.
From S2P Require Import JsonIndent.
From S2P Require Import JsonIndentTheorems.
From S2P Require Import JsonString.
From S2P Require Import JsonStringTheorems.
From Stdlib Require Import Ascii.

(** ** Unquoting returns *)

Lemma unquote_loop_total n s r blen out rest : from s r rest -> (length rest <= n)%nat -> 8 <= blen -> zlen out <= blen ->
  exists o, unquote_loop n s r blen out = Val o.
Proof.
  revert r blen out rest. induction n as [|n IH]; intros r blen out rest Hf Hn Hb Ho.
  all: destruct rest as [|c rest]; cbn [length] in Hn; try lia; cbn [unquote_loop].
  1, 2: rewrite (from_at_end _ _ Hf); by eexists.
  rewrite (from_at _ _ _ _ Hf), (unquote_char_from _ _ _ _ Hf).
  destruct (unquote_char (c :: rest) 0 c) as [[bs k]|] eqn:Hc; [|by eexists].
  destruct (unquote_char_bounds _ _ _ _ Hc) as [Hbs Hk]. pose proof (zlen_nonneg out). unfold UTFMax.
  destruct (decide (zlen out >= _)); rewrite decide_True by lia.
  all: apply (IH _ _ _ (zdrop k (c :: rest))); [by apply from_zdrop; [|lia]| |lia|rewrite zlen_app; lia].
  all: unfold zdrop; rewrite length_drop; cbn [length]; lia.
Qed.
Lemma plain_loop_total n s r rest : from s r rest -> (length rest <= n)%nat ->
  exists r', plain_loop n s r = Some r' /\ 0 <= r' <= zlen s.
Proof.
  revert r rest. induction n as [|n IH]; intros r rest Hf Hn.
  all: destruct rest as [|c rest]; cbn [length] in Hn; try lia; cbn [plain_loop].
  1, 2: rewrite (from_at_end _ _ Hf); exists r; split; [done|apply Hf].
  rewrite (from_at _ _ _ _ Hf). destruct (decide (c = 92 \/ c = 34 \/ c < 32)); [exists r; split; [done|apply Hf]|].
  destruct (decide (c < RuneSelf)) as [|Hge]; [apply (IH _ rest); [by eapply from_next|lia]|].
  assert (0 <= c) as Hc by (unfold RuneSelf in *; lia). pose proof Hf as [Hr0 Hz]. rewrite Hz.
  destruct (Decode_inv c rest Hc) as [[Hd _]|(rr & t & Hr & He & Hd)]; rewrite Hd.
  - rewrite decide_True by done. by exists r.
  - rewrite decide_False by (intros [-> Hl]; by rewrite RuneError_3 in Hl). rewrite He in Hf.
    destruct (Decode_Encode rr t Hr) as [_ Hpos].
    apply (IH _ t); [by apply from_more|]. assert (length (c :: rest) = length (EncodeRune rr ++ t)) as Hl by by rewrite He.
    rewrite length_app in Hl. cbn [length] in Hl. unfold zlen in Hpos. lia.
Qed.
Lemma unquote_total s : exists o, unquoteBytes s = Val o.
Proof.
  unfold unquoteBytes. case_decide as Hs; [by eexists|]. set (b := ztake _ _).
  destruct (plain_loop_total (length b) b 0 b (from_start b) ltac:(done)) as (r & -> & Hr). case_decide; [by eexists|].
  pose proof (zlen_nonneg b). apply (unquote_loop_total _ _ _ _ _ (zdrop r b)); unfold UTFMax; [done| |lia|rewrite zlen_ztake; lia].
  unfold zdrop. rewrite length_drop. lia.
Qed.

(** ** What is quoted spells the string *)

Lemma check_small (P : Z -> bool) : forallb P (seqZ 0 128) = true -> forall r, 0 <= r < 128 -> P r = true.
Proof. intros Hp r Hr. rewrite forallb_forall in Hp. apply Hp, list_elem_of_In, elem_of_seqZ. lia. Qed.

Lemma getu4_code a b c d rest : getu4 (92 :: CH "u" :: a :: b :: c :: d :: rest) = getu4_loop [a; b; c; d] 0.
Proof. cbn [getu4]. rewrite decide_False; [done|]. rewrite !zlen_cons. pose proof (zlen_nonneg rest). lia. Qed.
Lemma getu4_html r : 0 <= r < 128 -> getu4_loop [CH "0"; CH "0"; hex (Z.shiftr r 4); hex (Z.land r 15)] 0 = r.
Proof.
  intros Hr. apply Z.eqb_eq.
  by apply (check_small (fun r => (getu4_loop [CH "0"; CH "0"; hex (Z.shiftr r 4); hex (Z.land r 15)] 0 =? r))).
Qed.
(** A code of six bytes for a rune that is no surrogate. *)
Lemma unquote_code a b c d rest r : getu4_loop [a; b; c; d] 0 = r -> 0 <= r -> IsSurrogate r = false ->
  unquote_char (92 :: CH "u" :: a :: b :: c :: d :: rest) 0 92 = Some (EncodeRune r, 6).
Proof.
  intros Hg Hr Hs. unfold unquote_char. rewrite decide_True by done. unfold unquote_escape.
  change (at_ _ (0 + 1)) with (Some (CH "u")). cbn iota. rewrite !decide_False by lia. rewrite decide_True by done.
  change (zdrop 0 ?l) with l. rewrite getu4_code, Hg. cbn zeta. by rewrite decide_False, Hs by lia.
Qed.
Lemma encode_small r : 0 <= r < 128 -> EncodeRune r = [r].
Proof. intros. unfold EncodeRune. by rewrite decide_True by lia. Qed.

Lemma unquote_escape_code r rest : 0 <= r < 128 -> safeSet r = false \/ is_html r = true ->
  exists c code, escape_code r = c :: code /\ unquote_char (escape_code r ++ rest) 0 c = Some ([r], zlen (escape_code r)).
Proof.
  intros Hr Hs. unfold escape_code.
  do 6 (destruct (decide _) as [E|?]; [eexists _, _; split; [done|]; destruct_or? E; subst; reflexivity|]). eexists _, _. split; [done|].
  unfold html_code. cbn [app]. rewrite (unquote_code _ _ _ _ _ r); [by rewrite encode_small|by apply getu4_html|lia|].
  unfold IsSurrogate. apply bool_decide_eq_false. lia.
Qed.
Lemma safe_plain r : safeSet r = true -> 32 <= r < 128 /\ r <> 34 /\ r <> 92.
Proof. unfold safeSet, RuneSelf. by intros ?%bool_decide_eq_true. Qed.

Lemma unquote_item esc o rest : (forall r, o = Some r -> valid_rune r) ->
  exists c code, quote_item esc o = c :: code /\
    unquote_char (quote_item esc o ++ rest) 0 c = Some (item_bytes o, zlen (quote_item esc o)).
Proof.
  intros Ho. destruct o as [r|].
  2:{ eexists _, _. split; [done|]. cbn [quote_item app]. by rewrite (unquote_code _ _ _ _ _ RuneError). }
  specialize (Ho r eq_refl). cbn [quote_item item_bytes default].
  destruct (decide (r < RuneSelf)) as [Hlt|Hge].
  - assert (0 <= r < 128) as Hr by (unfold RuneSelf, valid_rune in *; lia). unfold item_bytes. cbn [default]. rewrite encode_small by done.
    unfold htmlSafeSet. destruct (safeSet r) eqn:Es; cbn [andb].
    + pose proof (safe_plain r Es) as Hp. destruct (is_html r) eqn:Eh; cbn [negb orb andb].
      * destruct esc; cbn [negb orb andb]; [apply unquote_escape_code; auto|].
        eexists _, _. split; [done|]. unfold unquote_char. cbn [app]. rewrite !decide_False by lia. by rewrite decide_True.
      * eexists _, _. split; [done|]. unfold unquote_char. cbn [app]. rewrite !decide_False by lia. by rewrite decide_True.
    + rewrite andb_false_r. cbn [orb]. apply unquote_escape_code; auto.
  - destruct (decide (r = 0x2028 \/ r = 0x2029)) as [Hl|].
    { eexists _, _. split; [done|]. cbn [separator_code app].
      destruct Hl as [-> | ->]; [by rewrite (unquote_code _ _ _ _ _ 0x2028)|by rewrite (unquote_code _ _ _ _ _ 0x2029)]. }
    destruct (Decode_Encode r rest Ho) as [Hd Hpos]. destruct (EncodeRune r) as [|c code] eqn:Er; [by rewrite zlen_nil in Hpos|].
    exists c, code. split; [done|]. assert (128 <= c) as Hc.
    { destruct (EncodeRune_bytes r c Ho) as [[_ ?]|]; [rewrite Er; by left|unfold RuneSelf in *; lia|lia]. }
    unfold unquote_char. rewrite !decide_False by (unfold RuneSelf; lia). change (zdrop 0 ?l) with l. rewrite Hd.
    done.
Qed.

Lemma decoded_valid s rs : decoded s rs -> Forall (fun o => forall r, o = Some r -> valid_rune r) rs.
Proof. induction 1; constructor; try done. by intros ? [= <-]. Qed.
Lemma quoted_spells esc rs : Forall (fun o => forall r, o = Some r -> valid_rune r) rs ->
  spells (quoted esc rs) (rs ≫= item_bytes).
Proof.
  induction 1 as [|o rs Ho Hrs IH]; [constructor|]. unfold quoted. cbn [mbind list_bind]. fold (quoted esc rs).
  destruct (unquote_item esc o (quoted esc rs) Ho) as (c & code & Hq & Hu).
  pose proof (zdrop_app (quote_item esc o) (quoted esc rs)) as Hz. rewrite Hq in *. cbn [app] in *.
  eapply spells_char; [done|]. by rewrite Hz.
Qed.

(** ** The grammar of string literals *)

(** What stands between the quotes. *)
Inductive body : list Z -> Prop :=
  | body_nil : body []
  | body_plain c b : 32 <= c -> c <> 34 -> c <> 92 -> body b -> body (c :: b)
  | body_escape e b : is_escape e = true -> body b -> body (92 :: e :: b)
  | body_code h1 h2 h3 h4 b : Forall (fun h => is_hex h = true) [h1; h2; h3; h4] -> body b ->
      body (92 :: CH "u" :: h1 :: h2 :: h3 :: h4 :: b).

Lemma eat_read c bs k r : eat c bs = Some (k, r) -> k = [c] /\ bs = c :: r.
Proof. destruct bs as [|b bs]; [done|]. cbn. case_decide; [|done]. intros [= <- <-]. by subst. Qed.
Lemma eat_hex_Some bs k r : eat_hex bs = Some (k, r) -> exists h, k = [h] /\ bs = h :: r /\ is_hex h = true.
Proof. destruct bs as [|h bs]; [done|]. cbn. destruct (is_hex h) eqn:E; [|done]. intros [= <- <-]. eauto. Qed.
Lemma seq_read_inv (p q : list Z -> option (list Z * list Z)) bs k r : (p ~~ q) bs = Some (k, r) ->
  exists k1 r1 k2, p bs = Some (k1, r1) /\ q r1 = Some (k2, r) /\ k = k1 ++ k2.
Proof.
  unfold seq_read. destruct (p bs) as [[k1 r1]|]; [|done]. cbn [mbind option_bind].
  destruct (q r1) as [[k2 r2]|] eqn:E; [|done]. intros [= <- <-]. eauto 10.
Qed.

Lemma escape_Some bs k r : escape bs = Some (k, r) ->
  bs = k ++ r /\ forall b, body b -> body (92 :: k ++ b).
Proof.
  destruct bs as [|e bs]; [done|]. cbn [escape]. destruct (is_escape e) eqn:E.
  - intros [= <- <-]. split; [done|]. intros b Hb. by apply body_escape.
  - case_decide as Hu; [|done]. subst e.
    intros (k1 & r1 & k2 & [-> [= <-]]%eat_read & (k3 & r3 & k4 & (h1 & -> & -> & Hh1)%eat_hex_Some & (k5 & r5 & k6 &
      (h2 & -> & -> & Hh2)%eat_hex_Some & (k7 & r7 & k8 & (h3 & -> & -> & Hh3)%eat_hex_Some & (h4 & -> & -> & Hh4)%eat_hex_Some & ->)%seq_read_inv
      & ->)%seq_read_inv & ->)%seq_read_inv & ->)%seq_read_inv.
    split; [done|]. intros b Hb. cbn [app]. apply body_code; [by repeat constructor|done].
Qed.
Lemma string_body n bs k r : string_fuel n bs = Some (k, r) -> exists b, k = b ++ [34] /\ bs = k ++ r /\ body b.
Proof.
  revert bs k r. induction n as [|n IH]; [done|]. intros [|c bs] k r; [done|]. cbn [string_fuel].
  case_decide as H34; [intros [= <- <-]; subst; exists []; by repeat split; constructor|]. case_decide as H92.
  - subst c. intros (k1 & r1 & k2 & [-> [= <-]]%eat_read & (k3 & r3 & k4 & He & (b & -> & -> & Hb)%IH & ->)%seq_read_inv & ->)%seq_read_inv.
    apply escape_Some in He as [-> He]. exists (92 :: k3 ++ b). cbn [app]. rewrite <- !app_assoc. split; [done|]. split; [done|]. by apply He.
  - case_decide; [done|]. intros (k1 & r1 & k2 & [-> [= <-]]%eat_read & (b & -> & -> & Hb)%IH & ->)%seq_read_inv.
    exists (c :: b). split; [done|]. split; [done|]. apply body_plain; [lia|done..].
Qed.

Lemma eat_hex_run h r : is_hex h = true -> eat_hex (h :: r) = Some ([h], r).
Proof. intros Hh. cbn. by rewrite Hh. Qed.
Lemma eat_run c r : eat c (c :: r) = Some ([c], r).
Proof. cbn. by rewrite decide_True. Qed.
Lemma seq_run (p q : list Z -> option (list Z * list Z)) bs k1 r1 k2 r :
  p bs = Some (k1, r1) -> q r1 = Some (k2, r) -> (p ~~ q) bs = Some (k1 ++ k2, r).
Proof. intros Hp Hq. unfold seq_read. rewrite Hp. cbn. by rewrite Hq. Qed.

Lemma body_string n b r : body b -> (length b < n)%nat -> string_fuel n (b ++ 34 :: r) = Some (b ++ [34], r).
Proof.
  intros Hb. revert n. induction Hb as [|c b Hc H34 H92 Hb IH|e b He Hb IH|h1 h2 h3 h4 b Hh Hb IH]; intros n Hn.
  all: destruct n as [|n]; cbn [length] in Hn; [lia|]; cbn [app string_fuel].
  - done.
  - rewrite !decide_False by lia. apply (seq_run (eat c) _ _ [c] (b ++ 34 :: r)); [apply eat_run|apply IH; lia].
  - rewrite decide_False, decide_True by done. apply (seq_run (eat 92) _ _ [92] (e :: b ++ 34 :: r)); [done|].
    apply (seq_run escape _ _ [e] (b ++ 34 :: r)); [cbn [escape]; by rewrite He|apply IH; lia].
  - rewrite decide_False, decide_True by done. apply (seq_run (eat 92) _ _ [92] (CH "u" :: h1 :: h2 :: h3 :: h4 :: b ++ 34 :: r)); [done|].
    apply (seq_run escape _ _ [CH "u"; h1; h2; h3; h4] (b ++ 34 :: r)); [|apply IH; lia].
    rewrite !Forall_cons in Hh. destruct Hh as (Hh1 & Hh2 & Hh3 & Hh4 & _). cbn [escape]. rewrite decide_True by done.
    change (if is_escape (CH "u") then ?a else ?b) with b. unfold seq_read. rewrite eat_run. cbn [mbind option_bind].
    do 4 (rewrite eat_hex_run by done; cbn [mbind option_bind]). done.
Qed.

Lemma body_high e b : Forall (fun c => 128 <= c) e -> body (e ++ b) <-> body b.
Proof.
  induction 1 as [|c e Hc He IH]; [done|]. rewrite <- IH. cbn [app]. split; [|intros; apply body_plain; [lia..|done]].
  intros Hb. inversion Hb; subst; [done|lia..].
Qed.
Lemma hex_value_Some c : is_hex c = true -> exists v, hex_value c = Some v /\ 0 <= v.
Proof.
  unfold is_hex. intros ?%bool_decide_eq_true. unfold hex_value.
  repeat (case_decide; [eexists; split; [done|lia]|]). lia.
Qed.
Lemma getu4_hex h1 h2 h3 h4 : Forall (fun h => is_hex h = true) [h1; h2; h3; h4] -> 0 <= getu4_loop [h1; h2; h3; h4] 0.
Proof.
  rewrite !Forall_cons. intros (H1 & H2 & H3 & H4 & _).
  apply hex_value_Some in H1 as (v1 & E1 & ?), H2 as (v2 & E2 & ?), H3 as (v3 & E3 & ?), H4 as (v4 & E4 & ?).
  cbn [getu4_loop]. rewrite E1, E2, E3, E4. lia.
Qed.

(** A string literal always spells a string. *)
Lemma body_spells b : body b -> exists t, spells b t.
Proof.
  induction b as [b IH] using (well_founded_induction (well_founded_ltof _ (@length Z))). unfold ltof in IH.
  intros Hb. destruct Hb as [|c b Hc H34 H92 Hb|e b He Hb|h1 h2 h3 h4 b Hh Hb]; [by exists []; constructor|..].
  - destruct (decide (c < RuneSelf)) as [Hlt|Hge].
    + destruct (IH b) as [t Ht]; [cbn; lia|done|]. exists ([c] ++ t). apply (spells_char c b [c] 1); [|done].
      unfold unquote_char. rewrite !decide_False by lia. by rewrite decide_True.
    + destruct (Decode_inv c b ltac:(lia)) as [[Hd _]|(r & rest & Hr & He & Hd)].
      * destruct (IH b) as [t Ht]; [cbn; lia|done|]. exists (EncodeRune RuneError ++ t). apply (spells_char c b _ 1); [|done].
        unfold unquote_char. rewrite !decide_False by (unfold RuneSelf in *; lia). change (zdrop 0 ?l) with l. by rewrite Hd.
      * pose proof (EncodeRune_ne r) as Hne. assert (body (EncodeRune r ++ rest)) as Hb' by (rewrite <- He; by apply body_plain).
        apply body_high in Hb' as Hrest.
        -- destruct (IH rest) as [t Ht]; [rewrite He, length_app; destruct (EncodeRune r); [done|cbn; lia]|done|].
           exists (EncodeRune r ++ t). apply (spells_char c b _ (zlen (EncodeRune r))); [|by rewrite He, zdrop_app].
           unfold unquote_char. rewrite !decide_False by (unfold RuneSelf in *; lia). change (zdrop 0 ?l) with l. by rewrite Hd.
        -- apply Forall_forall. intros x Hx. destruct (EncodeRune_bytes r x Hr Hx) as [[-> Hs]|]; [|lia].
           unfold valid_rune in Hr. rewrite encode_small in He by lia. injection He as -> _. unfold RuneSelf in *. lia.
  - destruct (IH b) as [t Ht]; [cbn; lia|done|].
    assert (exists bs, unquote_char (92 :: e :: b) 0 92 = Some (bs, 2)) as [bs Hu].
    { revert He. unfold is_escape. intros He%bool_decide_eq_true. destruct_or? He; subst; by eexists. }
    exists (bs ++ t). by apply (spells_char _ _ _ 2).
  - assert (exists bs k, unquote_char (92 :: CH "u" :: h1 :: h2 :: h3 :: h4 :: b) 0 92 = Some (bs, k) /\
      (k = 6 \/ k = 12 /\ 0 <= getu4 b)) as (bs & k & Hu & Hk).
    { unfold unquote_char, unquote_escape. rewrite decide_True by done. change (at_ _ (0 + 1)) with (Some (CH "u")). cbn iota.
      rewrite !decide_False by lia. rewrite decide_True by done. change (zdrop 0 ?l) with l. rewrite getu4_code. cbn zeta.
      pose proof (getu4_hex _ _ _ _ Hh). rewrite decide_False by lia. change (zdrop (0 + 6) _) with b.
      destruct (IsSurrogate _); [|eauto]. case_decide as Hd; [|eauto]. apply DecodeRune16_pair in Hd. eauto 10. }
    assert (body (zdrop k (92 :: CH "u" :: h1 :: h2 :: h3 :: h4 :: b)) /\ 6 <= k) as [Hb' Hk'].
    { destruct Hk as [->|[-> Hg]]; [by split|]. split; [|lia]. revert Hg. change (zdrop 12 _) with (zdrop 6 b).
      destruct Hb as [|c b Hc ? H92 Hb|e b He Hb|g1 g2 g3 g4 b Hg Hb]; [done|..]; intros Hg'.
      - exfalso. destruct b as [|d b]; cbn [getu4] in Hg'; [done|]. rewrite decide_True in Hg' by auto. lia.
      - exfalso. destruct b as [|d b]; cbn [getu4] in Hg'; rewrite decide_True in Hg'; try lia; right; right; by intros ->.
      - done. }
    destruct (IH (zdrop k (92 :: CH "u" :: h1 :: h2 :: h3 :: h4 :: b))) as [t Ht]; [|done|exists (bs ++ t); by apply (spells_char _ _ _ k)].
    unfold zdrop. rewrite length_drop. cbn [length]. lia.
Qed.

Lemma quote_item_high r : valid_rune r -> RuneSelf <= r -> Forall (fun c => 128 <= c) (EncodeRune r).
Proof.
  intros Hr Hge. apply Forall_forall. intros x Hx.
  destruct (EncodeRune_bytes r x Hr Hx) as [[_ ?]|]; [unfold RuneSelf in *; lia|lia].
Qed.
Lemma hex_is_hex n : 0 <= n < 16 -> is_hex (hex n) = true.
Proof. intros Hn. unfold is_hex, hex. apply bool_decide_eq_true. case_decide; lia. Qed.
Lemma html_code_body r b : 0 <= r < 128 -> body b -> body (html_code r ++ b).
Proof.
  intros Hr Hb. unfold html_code. cbn [app]. apply body_code; [|done].
  assert (0 <= Z.shiftr r 4 < 16) by (rewrite Z.shiftr_div_pow2 by lia; Z.to_euclidean_division_equations; lia).
  assert (0 <= Z.land r 15 < 16) by (change 15 with (2 ^ 4 - 1); rewrite Z_land_ones' by lia; Z.to_euclidean_division_equations; lia).
  repeat constructor; by apply hex_is_hex.
Qed.
Lemma quote_item_body esc o b : (forall r, o = Some r -> valid_rune r) -> body b -> body (quote_item esc o ++ b).
Proof.
  intros Ho Hb. destruct o as [r|]; [|by apply body_code; [repeat constructor|]]. specialize (Ho r eq_refl). cbn [quote_item].
  destruct (decide (r < RuneSelf)) as [Hlt|Hge].
  - assert (0 <= r < 128) as Hr by (unfold RuneSelf, valid_rune in *; lia).
    destruct (htmlSafeSet r || _) eqn:Es.
    + assert (safeSet r = true) as (? & ? & ?)%safe_plain by (unfold htmlSafeSet in Es; by destruct (safeSet r), esc).
      by apply body_plain; [lia|..].
    + unfold escape_code. do 6 (destruct (decide _) as [E|?]; [destruct_or? E; subst; by apply body_escape|]).
      by apply html_code_body.
  - destruct (decide (r = 0x2028 \/ r = 0x2029)) as [[-> | ->]|]; [by apply body_code; [repeat constructor|]..|].
    apply body_high; [|done]. apply quote_item_high; [done|lia].
Qed.
Lemma quoted_body esc rs : Forall (fun o => forall r, o = Some r -> valid_rune r) rs -> body (quoted esc rs).
Proof. induction 1; [constructor|]. by apply quote_item_body. Qed.

Lemma html_high c : 128 <= c -> is_html c = false.
Proof. intros. apply bool_decide_eq_false. lia. Qed.
Lemma quote_item_html o : (forall r, o = Some r -> valid_rune r) -> Forall (fun c => is_html c = false) (quote_item true o).
Proof.
  intros Ho. destruct o as [r|]; [|by repeat constructor]. specialize (Ho r eq_refl). cbn [quote_item].
  destruct (decide (r < RuneSelf)) as [Hlt|Hge].
  - assert (0 <= r < 128) as Hr by (unfold RuneSelf, valid_rune in *; lia).
    apply Forall_forall. intros c Hc. apply (list_elem_of_lookup_1) in Hc as [i Hi].
    pose proof (check_small (fun r => forallb (fun c => negb (is_html c)) (if htmlSafeSet r || (negb true && safeSet r) then [r] else escape_code r))
      ltac:(by vm_compute) r Hr) as Hall. rewrite forallb_forall in Hall.
    specialize (Hall c (proj1 (list_elem_of_In _ _) (list_elem_of_lookup_2 _ _ _ Hi))). by destruct (is_html c).
  - destruct (decide (r = 0x2028 \/ r = 0x2029)) as [[-> | ->]|]; [by repeat constructor..|].
    eapply Forall_impl; [apply quote_item_high; [done|lia]|]. apply html_high.
Qed.

Lemma document_literal bs : (exists c r, bs = c :: r /\ one_gap bs = NoGap /\ c <> CH "{" /\ c <> CH "[") ->
  literal bs = Some (bs, []) -> document bs = Some bs.
Proof.
  intros (c & r & -> & Hg & H1 & H2) Hl. unfold document.
  replace (2 * length (c :: r) + 2)%nat with (S (2 * length (c :: r) + 1))%nat by lia. cbn [parse].
  unfold seq_read at 1, skipped at 1. unfold skip. cbn [length skip_fuel]. rewrite Hg. cbn [mbind option_bind value_body].
  rewrite !decide_False by done. by rewrite Hl.
Qed.

Lemma unquoted_literal b : body b -> exists t, unquote (34 :: b ++ [34]) = Val (Some t).
Proof. intros (t & Ht)%body_spells. exists t. by apply unquote_spells. Qed.

(** C23: A string that appendString has quoted is a JSON document, without [<], [>] and
    [&] when these are to be escaped, and unquote reads the string back from it: exactly
    if it was valid UTF-8, and with U+FFFD for each invalid byte otherwise. *)
Theorem string_roundtrip (dst s : list Z) (esc : bool) : bytes_ok s ->
  exists out, appendString dst s esc = Some (dst ++ out) /\ document out = Some out /\
    unquote out = Val (Some (to_valid s)) /\
    (forall rs, Forall valid_rune rs -> s = utf8 rs -> unquote out = Val (Some s)) /\
    (esc = true -> Forall (fun c => is_html c = false) out).
Proof.
  intros (rs & Hrs)%decoded_total. pose proof (decoded_valid _ _ Hrs) as Hv.
  exists (34 :: quoted esc rs ++ [34]). split; [by apply appendString_quoted|].
  assert (unquote (34 :: quoted esc rs ++ [34]) = Val (Some (to_valid s))) as Hu.
  { rewrite (to_valid_decoded _ _ Hrs). by apply unquote_spells, quoted_spells. }
  split; [|split; [done|split]].
  - apply document_literal; [by eexists _, _|]. cbn [literal]. rewrite decide_True by done.
    apply (seq_run (eat 34) _ _ [34] (quoted esc rs ++ [34])); [done|]. unfold read_string.
    apply (body_string _ _ []); [by apply quoted_body|]. rewrite length_app. cbn. lia.
  - intros rs' Hrs' ->. by rewrite Hu, to_valid_utf8.
  - intros ->. constructor; [done|]. apply Forall_app. split; [|by repeat constructor].
    clear Hu Hrs. induction Hv; [constructor|]. apply Forall_app. split; [by apply quote_item_html|done].
Qed.
Lemma string_roundtrip_witness : bytes_ok [60; 10; 195; 164; 200] /\
  exists out, appendString [44] [60; 10; 195; 164; 200] true = Some ([44] ++ out) /\ document out = Some out /\
    unquote out = Val (Some [60; 10; 195; 164; 239; 191; 189]) /\
    (forall rs, Forall valid_rune rs -> [60; 10; 195; 164; 200] = utf8 rs -> unquote out = Val (Some [60; 10; 195; 164; 200])) /\
    (true = true -> Forall (fun c => is_html c = false) out).
Proof.
  assert (bytes_ok [60; 10; 195; 164; 200]) as H by (by apply (bool_decide_unpack _)).
  split; [exact H|]. exact (string_roundtrip [44] [60; 10; 195; 164; 200] true H).
Defined.

(** unquote never panics, whatever bytes it is given, and finds a string in every
    literal that the grammar accepts. *)
Theorem unquote_literals (s bs k r : list Z) :
  (exists o, unquote s = Val o) /\ (read_string bs = Some (k, r) -> exists t, unquote (34 :: k) = Val (Some t)).
Proof.
  split; [apply unquote_total|]. intros (b & -> & _ & Hb)%string_body. by apply unquoted_literal.
Qed.
Lemma unquote_literals_witness : read_string [92; CH "n"; 34; 32] = Some ([92; CH "n"; 34], [32]) /\
  exists t, unquote (34 :: [92; CH "n"; 34]) = Val (Some t).
Proof. split; [reflexivity|]. exact (proj2 (unquote_literals [] [92; CH "n"; 34; 32] [92; CH "n"; 34] [32]) eq_refl). Defined.
