(* ===== verification/JsonLex.v ===== *)
(** * Sources that differ in blanks and comments between tokens only

    [same a b]: the two inputs are the same tokens with different gaps between them.
    They are the same document: the reference grammar keeps the same bytes of both. *)

From S2P Require Import Prelude.
From S2P Require Import JsonScanner.
From S2P Require Import JsonGrammar.
From S2P Require Import JsonScannerTheorems.
From S2P Require Import JsonScannerProps.
From S2P Require Import JsonStringProps.
From Stdlib Require Import Ascii.

(** ** Gaps *)

Lemma skip_fuel_enough n m bs : (length bs <= n)%nat -> (length bs <= m)%nat -> skip_fuel n bs = skip_fuel m bs.
Proof.
  revert m bs. induction n as [|n IH]; intros m bs Hn Hm.
  - destruct bs; cbn in Hn; [|lia]. by destruct m.
  - destruct m as [|m]; [destruct bs; cbn in Hm; [done|lia]|]. cbn [skip_fuel].
    destruct (one_gap bs) as [| |r] eqn:E; [done|done|]. apply one_gap_shrinks in E. apply IH; lia.
Qed.
Lemma skip_unfold bs : skip bs = match one_gap bs with NoGap => Some bs | BadGap => None | Gap r => skip r end.
Proof.
  unfold skip. destruct bs as [|c bs]; [done|]. cbn [length skip_fuel].
  destruct (one_gap (c :: bs)) as [| |r] eqn:E; [done|done|]. apply one_gap_shrinks in E. cbn in E.
  apply skip_fuel_enough; lia.
Qed.
Lemma skip_tok bs r : skip bs = Some r -> one_gap r = NoGap.
Proof. apply skip_fuel_no_gap. Qed.

(** A gap that is there; the lone slash at the end of an input is not one. *)
Definition gap_to (a a' : list Z) : Prop := one_gap a = Gap a' /\ a <> [CH "/"].

(** ** The relation *)

(** The bytes that literals are made of. *)
Definition is_run (c : Z) : bool :=
  negb (isSpace c) && negb (bool_decide (c ∈ [34; CH "#"; CH "/"; CH ","; CH ":"; CH "{"; CH "}"; CH "["; CH "]"])).
Definition starts_run (bs : list Z) : bool := match bs with c :: _ => is_run c | [] => false end.
Definition glued (a b : list Z) : Prop := starts_run a = starts_run b.

(** The rest of a string behind its opening quote, up to the quote that closes it. *)
Inductive closed_string : list Z -> Prop :=
  | closed_end : closed_string [34]
  | closed_escape e q : closed_string q -> closed_string (92 :: e :: q)
  | closed_byte c q : c <> 34 -> c <> 92 -> closed_string q -> closed_string (c :: q).

Inductive same : list Z -> list Z -> Prop :=
  | same_refl a : same a a
  | same_bad a b : one_gap a = BadGap -> one_gap b = BadGap -> same a b
  | same_left a a' b : gap_to a a' -> same a' b -> same a b
  | same_right a b b' : gap_to b b' -> same a b' -> same a b
  | same_byte c a b : c <> 34 -> c <> CH "#" -> c <> CH "/" -> isSpace c = false -> same a b ->
      (is_run c = true -> glued a b) -> same (c :: a) (c :: b)
  | same_string q a b : closed_string q -> same a b -> same (34 :: q ++ a) (34 :: q ++ b).

Lemma same_sym a b : same a b -> same b a.
Proof.
  induction 1 as [a|a b Ha Hb|a a' b Hg H IH|a b b' Hg H IH|c a b ? ? ? ? H IH Hr|q a b Hq H IH].
  - apply same_refl.
  - by apply same_bad.
  - by eapply same_right.
  - by eapply same_left.
  - apply same_byte; try done. intros Hc. symmetry. by apply Hr.
  - by apply same_string.
Qed.

Lemma same_skip a b a' : same a b -> skip a = Some a' -> exists b', skip b = Some b' /\ same a' b'.
Proof.
  induction 1 as [a|a b Ha Hb|a a0 b [Hg _] H IH|a b b0 [Hg _] H IH|c a b ? ? ? ? H IH Hr|q a b Hq H IH]; intros Hs.
  - exists a'. split; [done|apply same_refl].
  - by rewrite skip_unfold, Ha in Hs.
  - rewrite skip_unfold, Hg in Hs. by apply IH.
  - rewrite skip_unfold, Hg. by apply IH.
  - rewrite skip_unfold, no_gap_other in * by done. injection Hs as <-. exists (c :: b). split; [done|]. by apply same_byte.
  - rewrite skip_unfold, no_gap_other in * by done. injection Hs as <-. exists (34 :: q ++ b). split; [done|]. by apply same_string.
Qed.
Lemma same_skipped a b k r : same a b -> skipped a = Some (k, r) ->
  exists r', skipped b = Some (k, r') /\ same r r' /\ one_gap r = NoGap /\ one_gap r' = NoGap.
Proof.
  intros H. unfold skipped. destruct (skip a) as [a'|] eqn:E; [|done]. intros [= <- <-].
  destruct (same_skip _ _ _ H E) as (b' & Hb & H'). rewrite Hb. exists b'. split; [done|]. split; [done|].
  by split; eapply skip_tok.
Qed.

(** Where no gap is ahead, the two inputs start with the same token. *)
Inductive token_ahead : list Z -> list Z -> Prop :=
  | ahead_equal a : token_ahead a a
  | ahead_byte c a b : c <> 34 -> same a b -> (is_run c = true -> glued a b) -> token_ahead (c :: a) (c :: b)
  | ahead_string q a b : closed_string q -> same a b -> token_ahead (34 :: q ++ a) (34 :: q ++ b).
Lemma same_token a b : same a b -> one_gap a = NoGap -> one_gap b = NoGap -> token_ahead a b.
Proof.
  intros H. destruct H as [a|a b Ha Hb|a a' b [Hg _] H|a b b' [Hg _] H|c a b ? ? ? ? H Hr|q a b Hq H]; try congruence.
  - constructor.
  - by constructor.
  - by constructor.
Qed.

Lemma is_run_false c : is_run c = true -> one_gap [c] = NoGap /\ c <> 34 /\ isSpace c = false /\ c <> CH "#" /\ c <> CH "/".
Proof.
  unfold is_run. rewrite andb_true_iff, !negb_true_iff, bool_decide_eq_false. intros [Hs Hc].
  assert (c <> 34 /\ c <> CH "#" /\ c <> CH "/") as (? & ? & ?) by (split_and!; intros ->; apply Hc; set_solver).
  split; [by apply no_gap_other|done].
Qed.
Lemma gap_no_run a a' : gap_to a a' -> starts_run a = false.
Proof.
  intros [Hg _]. destruct a as [|c a]; [done|]. cbn [starts_run]. destruct (is_run c) eqn:E; [|done].
  apply is_run_false in E as (_ & _ & ? & ? & ?). by rewrite no_gap_other in Hg.
Qed.
Lemma bad_no_run a : one_gap a = BadGap -> starts_run a = false.
Proof.
  intros Hg. destruct a as [|c a]; [done|]. cbn [starts_run]. destruct (is_run c) eqn:E; [|done].
  apply is_run_false in E as (_ & _ & ? & ? & ?). by rewrite no_gap_other in Hg.
Qed.

(** Inside a literal. *)
Inductive run_ahead : list Z -> list Z -> Prop :=
  | run_equal a : run_ahead a a
  | run_over a b : starts_run a = false -> starts_run b = false -> run_ahead a b
  | run_byte c a b : is_run c = true -> same a b -> glued a b -> run_ahead (c :: a) (c :: b).
Lemma same_run a b : same a b -> glued a b -> run_ahead a b.
Proof.
  intros H Hg. destruct H as [a|a b Ha Hb|a a' b Hl H|a b b' Hl H|c a b ? ? ? ? H Hr|q a b Hq H].
  - constructor.
  - apply run_over; by apply bad_no_run.
  - pose proof (gap_no_run _ _ Hl) as Hn. apply run_over; [done|]. by rewrite <- Hg.
  - pose proof (gap_no_run _ _ Hl) as Hn. apply run_over; [|done]. by rewrite Hg.
  - destruct (is_run c) eqn:E; [apply run_byte; auto|by apply run_over].
  - by apply run_over.
Qed.

(** ** Literals *)

Class Run_reader (p : reader_of) : Prop :=
  run_reader : forall a b k r, same a b -> glued a b -> p a = Some (k, r) ->
    exists r', p b = Some (k, r') /\ same r r' /\ glued r r'.

#[export] Instance run_seq p q : Run_reader p -> Run_reader q -> Run_reader (p ~~ q).
Proof.
  intros Hp Hq a b k r H Hg (k1 & r1 & k2 & H1 & H2 & ->)%seq_read_inv.
  destruct (Hp _ _ _ _ H Hg H1) as (r1' & H1' & Hs & Hg1). destruct (Hq _ _ _ _ Hs Hg1 H2) as (r' & H2' & Hs' & Hg').
  exists r'. split; [by eapply seq_run|done].
Qed.
(** A test of the first byte that only bytes of literals pass. *)
Lemma run_byte_reader (ok : Z -> bool) (p : reader_of) :
  (forall c, ok c = true -> is_run c = true) ->
  (forall bs, p bs = match bs with c :: r => if ok c then Some ([c], r) else None | [] => None end) -> Run_reader p.
Proof.
  intros Hok Hp a b k r H Hg. rewrite !Hp. destruct (same_run a b H Hg) as [a|a b Ha Hb|c a b Hc Hs Hg'].
  - intros Hr. exists r. rewrite Hr. split; [done|]. by split; [apply same_refl|].
  - destruct a as [|c a]; [done|]. destruct (ok c) eqn:E; [|done]. apply Hok in E. cbn in Ha. congruence.
  - destruct (ok c); [|done]. intros [= <- <-]. by exists b.
Qed.
#[export] Instance run_eat c : is_run c = true -> Run_reader (eat c).
Proof.
  intros Hc. apply (run_byte_reader (fun b => bool_decide (b = c))).
  - by intros b ->%bool_decide_eq_true.
  - intros [|b r]; [done|]. cbn [eat]. case_decide; [by subst; rewrite bool_decide_true|by rewrite bool_decide_false].
Qed.
#[export] Instance run_one_of cs : Forall (fun c => is_run c = true) cs -> Run_reader (one_of cs).
Proof.
  intros Hc. apply (run_byte_reader (fun b => bool_decide (b ∈ cs))).
  - intros b Hb%bool_decide_eq_true. by rewrite Forall_forall in Hc; apply Hc.
  - intros [|b r]; [done|]. cbn [one_of]. case_decide; [by rewrite bool_decide_true|by rewrite bool_decide_false].
Qed.
Lemma run_word w : Forall (fun c => is_run c = true) w -> Run_reader (eat_word w).
Proof.
  induction 1 as [|c w Hc Hw IH]; [intros a b k r H Hg [= <- <-]; by exists b|].
  apply (run_seq (eat c) (eat_word w)); [by apply run_eat|done].
Qed.

Lemma digit_run c : is_digit c = true -> is_run c = true.
Proof.
  unfold is_digit. intros ?%bool_decide_eq_true. unfold is_run. apply andb_true_iff. split.
  - apply negb_true_iff, isSpace_false. lia.
  - apply negb_true_iff, bool_decide_eq_false. rewrite !elem_of_cons, elem_of_nil. lia.
Qed.
Lemma run_digits a b k r : same a b -> glued a b -> digits a = (k, r) ->
  exists r', digits b = (k, r') /\ same r r' /\ glued r r'.
Proof.
  revert b k r. induction a as [|c a IH]; intros b k r H Hg Hd; pose proof (same_run _ _ H Hg) as Hrun;
    inversion Hrun as [a1|a1 b1 Ha Hb|c1 a1 b1 Hc Hs Hg']; subst.
  - exists r. split; [done|]. by split; [apply same_refl|].
  - injection Hd as <- <-. exists b. split; [|done]. destruct b as [|c b]; [done|]. cbn [digits].
    destruct (is_digit c) eqn:E; [|done]. apply digit_run in E. cbn in Hb. congruence.
  - exists r. split; [done|]. by split; [apply same_refl|].
  - cbn [digits] in Hd. destruct (is_digit c) eqn:E; [apply digit_run in E; cbn in Ha; congruence|]. injection Hd as <- <-.
    exists b. split; [|done]. destruct b as [|d b]; [done|]. cbn [digits].
    destruct (is_digit d) eqn:E'; [|done]. apply digit_run in E'. cbn in Hb. congruence.
  - cbn [digits] in *. destruct (is_digit c) eqn:E.
    + destruct (digits a) as [k1 r1] eqn:Ed. injection Hd as <- <-.
      destruct (IH b1 k1 r1 Hs Hg' eq_refl) as (r' & -> & Hs' & Hg2). by exists r'.
    + injection Hd as <- <-. exists (c :: b1). split; [done|]. by split.
Qed.
#[export] Instance run_digits1 : Run_reader digits1.
Proof.
  intros a b k r H Hg. unfold digits1. destruct (digits a) as [k1 r1] eqn:Ed.
  destruct (run_digits _ _ _ _ H Hg Ed) as (r' & -> & Hs). destruct k1; [done|]. intros [= <- <-]. by exists r'.
Qed.
#[export] Instance run_optional cs p : Forall (fun c => is_run c = true) cs -> Run_reader p -> Run_reader (optional cs p).
Proof.
  intros Hcs Hp a b k r H Hg. rewrite Forall_forall in Hcs.
  assert (forall bs, starts_run bs = false -> optional cs p bs = Some ([], bs)) as Hno.
  { intros [|c bs] Hn; [done|]. cbn. rewrite decide_False; [done|]. intros Hin%Hcs. cbn in Hn. congruence. }
  destruct (same_run _ _ H Hg) as [a|a b Ha Hb|c a b Hc Hs Hg'].
  - intros Hr. exists r. split; [done|]. by split; [apply same_refl|].
  - rewrite !Hno by done. intros [= <- <-]. by exists b.
  - cbn [optional]. case_decide; [by apply Hp|]. intros [= <- <-]. by exists (c :: b).
Qed.
#[export] Instance run_integer : Run_reader integer.
Proof.
  intros a b k r H Hg. destruct (same_run _ _ H Hg) as [a|a b Ha Hb|c a b Hc Hs Hg'].
  - intros Hr. exists r. split; [done|]. by split; [apply same_refl|].
  - destruct a as [|c a]; [done|]. cbn [integer]. cbn in Ha. case_decide as E; [by subst|]. unfold digits1. cbn [digits].
    destruct (is_digit c) eqn:E'; [apply digit_run in E'; congruence|done].
  - cbn [integer]. case_decide; [intros [= <- <-]; by exists b|]. by apply run_digits1.
Qed.
#[export] Instance run_number : Run_reader number.
Proof.
  unfold number, fraction, exponent.
  repeat first [apply run_seq|apply run_optional; [by repeat constructor|]|apply run_eat; done|apply run_one_of; by repeat constructor|apply _].
Qed.

(** ** Tokens *)

Lemma closed_body q b a r : closed_string q -> body b -> q ++ a = b ++ 34 :: r -> q = b ++ [34] /\ a = r.
Proof.
  intros Hq Hb. revert q Hq. induction Hb as [|c b Hc H34 H92 Hb IH|e b He Hb IH|h1 h2 h3 h4 b Hh Hb IH]; intros q Hq E.
  - destruct Hq as [|e q Hq|d q ? ? Hq]; cbn in E; [by injection E as ->|done|congruence].
  - destruct Hq as [|e q Hq|d q ? ? Hq]; cbn [app] in E; [congruence..|]. injection E as -> E.
    destruct (IH q Hq E) as [-> ->]. done.
  - destruct Hq as [|e' q Hq|d q ? ? Hq]; cbn [app] in E; [congruence| |congruence]. injection E as -> E. destruct (IH q Hq E) as [-> ->]. done.
  - assert (forall h q bs, is_hex h = true -> closed_string q -> q ++ a = h :: bs -> exists q', q = h :: q' /\ closed_string q' /\ q' ++ a = bs) as Hpeel.
    { clear. intros h q bs Hh Hq E. revert Hh. unfold is_hex. intros Hh%bool_decide_eq_true. assert (h <> 34 /\ h <> 92) as [H34 H92] by lia.
      destruct Hq as [|e q Hq|d q ? ? Hq]; cbn [app] in E; [congruence..|]. injection E as -> E. eauto. }
    destruct Hq as [|e' q Hq|d q ? ? Hq]; cbn [app] in E; [congruence| |congruence]. injection E as -> E.
    rewrite !Forall_cons in Hh. destruct Hh as (H1 & H2 & H3 & H4 & _).
    destruct (Hpeel _ _ _ H1 Hq E) as (q1 & -> & Hq1 & E1). destruct (Hpeel _ _ _ H2 Hq1 E1) as (q2 & -> & Hq2 & E2).
    destruct (Hpeel _ _ _ H3 Hq2 E2) as (q3 & -> & Hq3 & E3). destruct (Hpeel _ _ _ H4 Hq3 E3) as (q4 & -> & Hq4 & E4).
    destruct (IH q4 Hq4 E4) as [-> ->]. done.
Qed.
Lemma closed_read q a b k r : closed_string q -> read_string (q ++ a) = Some (k, r) -> r = a /\ read_string (q ++ b) = Some (k, b).
Proof.
  intros Hq (bd & -> & E & Hb)%string_body. rewrite <- app_assoc in E.
  destruct (closed_body q bd a r Hq Hb E) as [-> ->]. split; [done|]. unfold read_string. rewrite <- app_assoc.
  apply body_string; [done|]. rewrite length_app. cbn. lia.
Qed.

(** Readers of one token, and readers that skip gaps first. *)
Class Token_reader (p : reader_of) : Prop :=
  token_reader : forall a b k r, same a b -> token_ahead a b -> p a = Some (k, r) -> exists r', p b = Some (k, r') /\ same r r'.
Class Gap_reader (p : reader_of) : Prop :=
  gap_reader : forall a b k r, same a b -> p a = Some (k, r) -> exists r', p b = Some (k, r') /\ same r r'.

Lemma token_gap p : Gap_reader p -> Token_reader p.
Proof. intros Hp a b k r H _. by apply Hp. Qed.
Lemma token_seq p q : Token_reader p -> Gap_reader q -> Token_reader (p ~~ q).
Proof.
  intros Hp Hq a b k r Hab H (k1 & r1 & k2 & H1 & H2 & ->)%seq_read_inv.
  destruct (Hp _ _ _ _ Hab H H1) as (r1' & H1' & Hs). destruct (Hq _ _ _ _ Hs H2) as (r' & H2' & Hs').
  exists r'. split; [by eapply seq_run|done].
Qed.
Lemma gap_seq p q : Gap_reader p -> Gap_reader q -> Gap_reader (p ~~ q).
Proof.
  intros Hp Hq a b k r H (k1 & r1 & k2 & H1 & H2 & ->)%seq_read_inv.
  destruct (Hp _ _ _ _ H H1) as (r1' & H1' & Hs). destruct (Hq _ _ _ _ Hs H2) as (r' & H2' & Hs').
  exists r'. split; [by eapply seq_run|done].
Qed.
Lemma gap_skipped q : Token_reader q -> Gap_reader (skipped ~~ q).
Proof.
  intros Hq a b k r H (k1 & r1 & k2 & H1 & H2 & ->)%seq_read_inv.
  destruct (same_skipped _ _ _ _ H H1) as (r1' & H1' & Hs & Hg & Hg').
  destruct (Hq _ _ _ _ Hs (same_token _ _ Hs Hg Hg') H2) as (r' & H2' & Hs').
  exists r'. split; [by eapply seq_run|done].
Qed.

Lemma token_eat c : c <> 34 -> Token_reader (eat c).
Proof.
  intros Hc a b k r _ H. destruct H as [a|d a b Hd H Hr|q a b Hq H].
  - intros Hr. exists r. split; [done|apply same_refl].
  - cbn [eat]. case_decide; [|done]. intros [= <- <-]. eauto.
  - cbn [eat]. by rewrite decide_False by done.
Qed.
Lemma token_string q : Gap_reader q -> Token_reader (eat 34 ~~ read_string ~~ q).
Proof.
  intros Hq a b k r _ H (k1 & r1 & k2 & [-> ->]%eat_read & (k3 & r3 & k4 & H3 & H4 & ->)%seq_read_inv & ->)%seq_read_inv.
  inversion H as [a'|c a' b' Hc H'|s a' b' Hs H']; subst; [|done|].
  - exists r. split; [|apply same_refl]. by do 2 (eapply seq_run; [done|]).
  - destruct (closed_read s a' b' k3 r3 Hs H3) as [-> H3']. destruct (Hq _ _ _ _ H' H4) as (r' & H4' & Hr).
    exists r'. split; [|done]. by do 2 (eapply seq_run; [done|]).
Qed.
Lemma gap_nothing : Gap_reader (fun bs => Some ([], bs)).
Proof. intros a b k r H [= <- <-]. by exists b. Qed.
Lemma token_quoted : Token_reader (eat 34 ~~ read_string).
Proof.
  intros a b k r Hs H Hr. assert ((eat 34 ~~ read_string ~~ (fun bs => Some ([], bs))) a = Some (k, r)) as Hr'.
  { apply seq_read_inv in Hr as (k1 & r1 & k2 & H1 & H2 & ->). eapply seq_run; [done|]. rewrite <- (app_nil_r k2). by eapply seq_run. }
  destruct (token_string _ gap_nothing _ _ _ _ Hs H Hr') as (r' & Hb & Hs'). exists r'. split; [|done].
  apply seq_read_inv in Hb as (k1 & r1 & k2 & H1 & (k3 & r3 & k4 & H3 & [= <- <-] & ->)%seq_read_inv & ->).
  rewrite app_nil_r in *. by eapply seq_run.
Qed.

Lemma number_starts c a : is_run c = false -> number (c :: a) = None.
Proof.
  intros Hc. unfold number, seq_read at 1. cbn [optional]. rewrite decide_False by by intros ->%list_elem_of_singleton.
  cbn [mbind option_bind]. unfold seq_read at 1. cbn [integer]. rewrite decide_False by by intros ->.
  unfold digits1. cbn [digits]. destruct (is_digit c) eqn:E; [apply digit_run in E; congruence|done].
Qed.
Lemma token_literal : Token_reader literal.
Proof.
  intros a b k r Hs H. destruct H as [a|c a b Hc H Hg|q a b Hq H].
  - intros Hr. exists r. split; [done|apply same_refl].
  - unfold literal. rewrite !(decide_False (P := c = 34)) by done. destruct (is_run c) eqn:E.
    + assert (forall p, Run_reader p -> p (c :: a) = Some (k, r) -> exists r', p (c :: b) = Some (k, r') /\ same r r') as Hp.
      { intros p Hp Hr. destruct (Hp _ _ _ _ Hs eq_refl Hr) as (r' & ? & ? & _). eauto. }
      repeat (case_decide; [apply Hp, run_word; by repeat constructor|]). apply Hp, _.
    + rewrite !decide_False by by intros ->. by rewrite number_starts.
  - unfold literal. rewrite !(decide_True (P := 34 = 34)) by done. by apply token_quoted; [|constructor].
Qed.

(** ** Values *)

Lemma token_none : Token_reader (fun _ => None).
Proof. by intros a b k r. Qed.
Lemma token_bracket d c q : c <> 34 -> Gap_reader q -> Token_reader (bracket d c q).
Proof.
  intros Hc Hq. unfold bracket. case_decide; [apply token_none|]. apply token_seq; [by apply token_eat|done].
Qed.
(** A choice by the first byte. *)
Lemma token_choice c (p q : reader_of) (pick : reader_of) :
  (forall bs, pick bs = match bs with [] => None | b :: _ => if decide (b = c) then p bs else q bs end) ->
  Token_reader p -> Token_reader q -> Token_reader pick.
Proof.
  intros Hpick Hp Hq a b k r Hs H. rewrite !Hpick.
  destruct a as [|x a]; [done|]. destruct b as [|y b]; [inversion H|].
  assert (x = y) as <- by by inversion H. case_decide; [by apply Hp|by apply Hq].
Qed.
Lemma token_close e more : e <> 34 -> Gap_reader more -> Token_reader (close e more).
Proof.
  intros He Hm. apply (token_choice e (eat e) (eat (CH ",") ~~ more)); [by intros []|by apply token_eat|].
  apply token_seq; [by apply token_eat|done].
Qed.
Lemma token_or_empty e items : e <> 34 -> Token_reader items -> Token_reader (or_empty e items).
Proof. intros He Hi. apply (token_choice e (eat e) items); [by intros []|by apply token_eat|done]. Qed.
Lemma token_body d elements members : Gap_reader elements -> Gap_reader members -> Token_reader (value_body d elements members).
Proof.
  intros He Hm. apply (token_choice (CH "{") (bracket d (CH "{") members)
    (fun bs => match bs with [] => None | c :: _ => if decide (c = CH "[") then bracket d (CH "[") elements bs else literal bs end)).
  - intros [|c bs]; [done|]. cbn [value_body]. case_decide; [by subst|]. case_decide; [by subst|done].
  - by apply token_bracket.
  - apply (token_choice (CH "[") (bracket d (CH "[") elements) literal); [by intros []|by apply token_bracket|apply token_literal].
Qed.

Lemma gap_parse n w d : Gap_reader (parse n w d).
Proof.
  revert w d. induction n as [|n IH]; intros w d; [by intros a b k r|].
  destruct w; cbn [parse]; apply gap_skipped.
  - by apply token_body.
  - apply token_or_empty; [done|]. apply token_seq; [by apply token_gap|]. by apply gap_skipped, token_close.
  - apply token_or_empty; [done|]. apply token_seq; [|by apply gap_skipped, token_close].
    apply token_string, gap_skipped, token_seq; [by apply token_eat|done].
Qed.

(** ** Documents *)

Lemma same_document_1 a b k : same a b -> document a = Some k -> document b = Some k.
Proof.
  intros H. rewrite <- !scan_document. set (n := (2 * (length a + length b) + 1)%nat).
  rewrite (scan_document_fuel n a), (scan_document_fuel n b) by lia.
  destruct (parse n Value maxNestingDepth a) as [[k1 r]|] eqn:E; [|done]. cbn [mbind option_bind].
  destruct (gap_parse _ _ _ _ _ _ _ H E) as (r' & -> & Hr). cbn [mbind option_bind].
  destruct (skip r) as [s|] eqn:Es; [|done]. cbn [mbind option_bind]. case_decide as Hn; [|done]. subst s.
  destruct (same_skip _ _ _ Hr Es) as (s' & Es' & Hs). rewrite Es'. cbn [mbind option_bind].
  pose proof (skip_tok _ _ Es') as Hg. pose proof (same_token _ _ Hs eq_refl Hg) as Ht. by inversion Ht; subst.
Qed.
Lemma same_document a b : same a b -> document a = document b.
Proof.
  intros H. destruct (document a) as [k|] eqn:Ea; [symmetry; by eapply same_document_1|].
  destruct (document b) as [k|] eqn:Eb; [|done]. apply same_sym in H. by rewrite (same_document_1 _ _ _ H Eb) in Ea.
Qed.
