(* ===== verification/JsonComment.v ===== *)
(** * Comments: common/json/internal/contextjson/comment.go

    Comments are taken out of a source before it is decoded, placed at the values of
    the document, and put back into an encoded document.  A [*CommentSet] is an
    [option] of its list; offsets are [Z].  [room] is what a backing array holds behind
    the end of a slice, up to its capacity: a slice expression may reach into it. *)

From S2P Require Import Prelude.
From S2P Require Import JsonScanner.
From S2P Require Import JsonIndent.
From S2P Require Import JsonString.
From Stdlib Require Import Ascii.

Local Open Scope go_scope.

(** ** Data *)

(** [CommentPlacementNone] is the empty string of a new comment. *)
Inductive CommentPlacement :=
  CommentPlacementNone | CommentPlacementLeading | CommentPlacementTrailing | CommentPlacementInner.
#[export] Instance CommentPlacement_eq_dec : EqDecision CommentPlacement.
Proof. solve_decision. Defined.

Inductive CommentPathSegment := CommentPathKey (Key : list Z) | CommentPathIndex (Index : Z).
#[export] Instance CommentPathSegment_eq_dec : EqDecision CommentPathSegment.
Proof. solve_decision. Defined.
Notation CommentPath := (list CommentPathSegment).

Record CommentPosition := mkPosition { Offset : Z; Line : Z; Column : Z }.
Record Comment := mkComment {
  Kind : CommentKind;
  Placement : CommentPlacement;
  Path : CommentPath;
  Text : list Z;
  Start : CommentPosition;
  End_ : CommentPosition }.
Notation CommentSet := (list Comment).

Record commentNode := mkNode { path : CommentPath; start : Z; end_ : Z }.
Definition noNode : commentNode := mkNode [] 0 0.

Definition commentPathHasPrefix (path prefix : CommentPath) : bool :=
  if decide (zlen prefix > zlen path) then false
  else bool_decide (ztake (zlen prefix) path = prefix).
Definition appendCommentPathKey (path : CommentPath) (key : list Z) : CommentPath := path ++ [CommentPathKey key].
Definition appendCommentPathIndex (path : CommentPath) (index : Z) : CommentPath := path ++ [CommentPathIndex index].

Definition Add (s : option CommentSet) (comment : Comment) : option CommentSet :=
  match s with None => None | Some l => Some (l ++ [comment]) end.
Definition Empty (s : option CommentSet) : bool :=
  match s with None => true | Some l => bool_decide (l = []) end.
Definition ForPath (s : option CommentSet) (path : CommentPath) : option CommentSet :=
  match s with
  | None => None
  | Some l =>
      let filtered := flat_map (fun comment =>
        if negb (commentPathHasPrefix (Path comment) path) then []
        else [mkComment (Kind comment) (Placement comment) (zdrop (zlen path) (Path comment)) (Text comment)
                (Start comment) (End_ comment)]) l in
      if decide (zlen filtered = 0) then None else Some filtered
  end.

(** ** Positions *)

(** sort.Search: the loop between [i] and [j]; [n] bounds their distance. *)
Fixpoint Search_loop (n : nat) (f : Z -> bool) (i j : Z) : option Z :=
  if decide (i < j) then
    match n with
    | O => None
    | S n =>
        let h := Z.shiftr (i + j) 1 in
        if negb (f h) then Search_loop n f (h + 1) j else Search_loop n f i h
    end
  else Some i.
Definition Search (n : Z) (f : Z -> bool) : option Z := Search_loop (Z.to_nat n) f 0 n.

Fixpoint line_starts (data : list Z) (i : Z) : list Z :=
  match data with
  | [] => []
  | c :: data => if decide (c = 10) then (i + 1) :: line_starts data (i + 1) else line_starts data (i + 1)
  end.
Definition buildLineStarts (data : list Z) : list Z := 0 :: line_starts data 0.
(** [sort.Search] only asks for indices of [lineStarts]. *)
Definition commentPosition (offset : Z) (lineStarts : list Z) : option CommentPosition :=
  line ← Search (zlen lineStarts) (fun i => bool_decide (default 0 (at_ lineStarts i) > offset));
  if decide (line = 0) then Some (mkPosition offset 1 (offset + 1))
  else lineStart ← at_ lineStarts (line - 1); Some (mkPosition offset line (offset - lineStart + 1)).

Definition newComment (kind : CommentKind) (text : list Z) (start end_ : Z) (lineStarts : list Z) : option Comment :=
  s ← commentPosition start lineStarts;
  e ← commentPosition end_ lineStarts;
  Some (mkComment kind CommentPlacementNone [] text s e).

(** ** Stripping *)

(** The index behind the closing quote, or at least the length of the data. *)
Fixpoint skip_string (n : nat) (data : list Z) (i : Z) : option Z :=
  match at_ data i, n with
  | None, _ => Some i
  | Some _, O => None
  | Some c, S n =>
      if decide (c = 92) then skip_string n data (i + 2)
      else if decide (c = 34) then Some (i + 1)
      else skip_string n data (i + 1)
  end.
Definition skipJSONString (data : list Z) (start : Z) : option Z := skip_string (length data) data (start + 1).

Definition blank (c : Z) : Z := if is_line_end c then c else 32.
Definition blankComment (data : list Z) (start end_ : Z) : option (list Z) :=
  pre ← slice data 0 start; mid ← slice data start end_; post ← slice data end_ (zlen data);
  Some (pre ++ map blank mid ++ post).

(** The comment that starts at [i], its kind, the start and the end of its text and
    its own end. *)
Inductive found := FoundNothing | FoundUnended | FoundComment (k : CommentKind) (textStart textEnd end_ : Z).
Definition line_comment (k : CommentKind) (data : list Z) (textStart : Z) : found :=
  let e := textStart + zlen (line_text (zdrop textStart data)) in FoundComment k textStart e e.
Definition find_comment (data : list Z) (i c : Z) : found :=
  if decide (c = CH "#") then line_comment CommentKindHash data (i + 1)
  else if decide (c = CH "/") then
    match at_ data (i + 1) with
    | None => FoundNothing
    | Some d =>
        if decide (d = CH "/") then line_comment CommentKindLine data (i + 2)
        else if decide (d = CH "*") then
          match block_text (zdrop (i + 2) data) with
          | None => FoundUnended
          | Some t => FoundComment CommentKindBlock (i + 2) (i + 2 + zlen t) (i + 2 + zlen t + 2)
          end
        else FoundNothing
    end
  else FoundNothing.

(** The loop; [n] bounds the bytes left. *)
Fixpoint strip_loop (n : nat) (data lineStarts : list Z) (i : Z) (clean : list Z) (comments : list Comment)
    : outcome (list Z * list Comment + SyntaxError) :=
  match at_ data i, n with
  | None, _ => Val (inl (clean, comments))
  | Some _, O => OutOfFuel
  | Some c, S n =>
      if decide (c = 34) then
        let! i := of_option (skipJSONString data i) in strip_loop n data lineStarts i clean comments
      else
        match find_comment data i c with
        | FoundNothing => strip_loop n data lineStarts (i + 1) clean comments
        | FoundUnended => Val (inr (UnexpectedEnd "unexpected end of JSON comment" i))
        | FoundComment k textStart textEnd e =>
            let! comment := of_option (text ← slice data textStart textEnd; newComment k text i e lineStarts) in
            let! clean := of_option (blankComment clean i e) in
            strip_loop n data lineStarts e clean (comments ++ [comment])
        end
  end.

(** ** The values of a document and where they are *)

Fixpoint spaces (bs : list Z) : Z :=
  match bs with c :: bs => if isSpace c then 1 + spaces bs else 0 | [] => 0 end.
Definition skipSpaces (data : list Z) (i : Z) : Z := i + spaces (zdrop i data).
Fixpoint literal_length (bs : list Z) : Z :=
  match bs with
  | [] => 0
  | c :: bs =>
      if isSpace c || bool_decide (c = CH "," \/ c = CH "}" \/ c = CH "]" \/ c = CH ":") then 0
      else 1 + literal_length bs
  end.
Definition parseLiteralEnd (data : list Z) (i : Z) : Z := i + literal_length (zdrop i data).

(** The state of a commentNodeParser is the list of its nodes. *)
Definition add_node (node : commentNode) : GoM (list commentNode) unit := modify (fun nodes => nodes ++ [node]).
Definition fails {S A} : GoM S A := fun _ => OutOfFuel.

(** parseObject and parseArray are called behind the opening bracket here, and call
    themselves for the next turn of their loop; [n] bounds the calls. *)
Fixpoint parseValue (n : nat) (data room : list Z) (i : Z) (path : CommentPath) (anchor : Z)
    : GoM (list commentNode) (commentNode * Z * bool) :=
  match n with
  | O => fails
  | S n =>
      let i := skipSpaces data i in
      let anchor := if decide (anchor < 0) then i else anchor in
      match at_ data i with
      | None => ret (noNode, i, false)
      | Some c =>
          if decide (c = CH "{") then parseObject n data room (i + 1) path anchor
          else if decide (c = CH "[") then parseArray n data room (i + 1) path anchor 0
          else if decide (c = 34) then
            e <- lift (skipJSONString data i) ;;
            let node := mkNode path anchor e in add_node node ;; ret (node, e, true)
          else
            let e := parseLiteralEnd data i in
            if decide (e = i) then ret (noNode, i + 1, false)
            else let node := mkNode path anchor e in add_node node ;; ret (node, e, true)
      end
  end
with parseObject (n : nat) (data room : list Z) (i : Z) (path : CommentPath) (anchor : Z)
    : GoM (list commentNode) (commentNode * Z * bool) :=
  match n with
  | O => fails
  | S n =>
      let i := skipSpaces data i in
      match at_ data i with
      | None => ret (noNode, i, false)
      | Some c =>
          if decide (c = CH "}") then
            let node := mkNode path anchor (i + 1) in add_node node ;; ret (node, i + 1, true)
          else
            keyEnd <- lift (skipJSONString data i) ;;
            item <- lift (slice (data ++ room) i keyEnd) ;;
            key <- (fun nodes => match unquote item with Val key => Val (key, nodes) | Panic => Panic | OutOfFuel => OutOfFuel end) ;;
            match key with
            | None => ret (noNode, keyEnd, false)
            | Some key =>
                let j := skipSpaces data keyEnd in
                let j := if decide (at_ data j = Some (CH ":")) then j + 1 else j in
                v <- parseValue n data room j (appendCommentPathKey path key) i ;;
                let j := skipSpaces data (snd (fst v)) in
                parseObject n data room (if decide (at_ data j = Some (CH ",")) then j + 1 else j) path anchor
            end
      end
  end
with parseArray (n : nat) (data room : list Z) (i : Z) (path : CommentPath) (anchor index : Z)
    : GoM (list commentNode) (commentNode * Z * bool) :=
  match n with
  | O => fails
  | S n =>
      let i := skipSpaces data i in
      match at_ data i with
      | None => ret (noNode, i, false)
      | Some c =>
          if decide (c = CH "]") then
            let node := mkNode path anchor (i + 1) in add_node node ;; ret (node, i + 1, true)
          else
            v <- parseValue n data room i (appendCommentPathIndex path index) i ;;
            let j := skipSpaces data (snd (fst v)) in
            parseArray n data room (if decide (at_ data j = Some (CH ",")) then j + 1 else j) path anchor (index + 1)
      end
  end.
Definition node_fuel (data : list Z) : nat := 2 * length data + 2.
Definition collectCommentNodes (data room : list Z) : outcome (list commentNode) :=
  let i := skipSpaces data 0 in
  if decide (i < zlen data) then
    let! (_, nodes) := parseValue (node_fuel data) data room i [] i [] in Val nodes
  else Val [].

(** ** The value a comment stands at *)

Definition isInlineTrailing (data : list Z) (from to : Z) : bool :=
  if decide (from > to \/ from < 0 \/ to > zlen data) then false
  else
    (fix loop (cs : list Z) (seenComma : bool) : bool :=
      match cs with
      | [] => true
      | c :: cs =>
          if is_line_end c then false
          else if decide (c = 32 \/ c = 9) then loop cs seenComma
          else if decide (c = CH ",") then if seenComma then false else loop cs true
          else false
      end) (ztake (to - from) (zdrop from data)) false.

(** The best of the nodes that are eligible: [better node best]. *)
Definition pick (eligible : commentNode -> bool) (better : commentNode -> commentNode -> bool)
    (nodes : list commentNode) : option commentNode :=
  foldl (fun best node =>
    if eligible node then
      match best with None => Some node | Some b => if better node b then Some node else best end
    else best) None nodes.
Definition deeper (a b : commentNode) : bool := bool_decide (zlen (path a) > zlen (path b)).
Definition within (containing : option commentNode) (node : commentNode) : bool :=
  match containing with None => true | Some c => commentPathHasPrefix (path node) (path c) end.

Definition classifyComment (data : list Z) (nodes : list commentNode) (comment : Comment) : CommentPlacement * CommentPath :=
  let s := Offset (Start comment) in
  let e := Offset (End_ comment) in
  let containing := pick (fun node => bool_decide (start node <= s /\ e <= end_ node)) deeper nodes in
  let previous := pick (fun node => bool_decide (end_ node <= s) && within containing node)
    (fun a b => bool_decide (end_ a > end_ b) || bool_decide (end_ a = end_ b) && deeper a b) nodes in
  match (match previous with
         | Some p => if isInlineTrailing data (end_ p) s then Some (path p) else None
         | None => None
         end) with
  | Some path => (CommentPlacementTrailing, path)
  | None =>
      let next := pick (fun node => bool_decide (e <= start node) && within containing node)
        (fun a b => bool_decide (start a < start b) || bool_decide (start a = start b) && deeper a b) nodes in
      match next, containing with
      | Some n, _ => (CommentPlacementLeading, path n)
      | None, Some c => (CommentPlacementInner, path c)
      | None, None => (CommentPlacementLeading, [])
      end
  end.
Definition assign_comment (original : list Z) (nodes : list commentNode) (lineStarts : list Z) (c : Comment) : option Comment :=
  let '(placement, path) := classifyComment original nodes c in
  s ← commentPosition (Offset (Start c)) lineStarts;
  e ← commentPosition (Offset (End_ c)) lineStarts;
  Some (mkComment (Kind c) placement path (Text c) s e).
Definition assignCommentPaths (original clean room : list Z) (comments : list Comment) (lineStarts : list Z)
    : outcome CommentSet :=
  let! nodes := collectCommentNodes clean room in
  of_option (mapM (assign_comment original nodes lineStarts) comments).

(** [room] is behind the copy that [append] makes. *)
Definition stripJSONComments (data room : list Z) : outcome (list Z * option CommentSet + SyntaxError) :=
  let lineStarts := buildLineStarts data in
  let! r := strip_loop (length data) data lineStarts 0 data [] in
  match r with
  | inr e => Val (inr e)
  | inl (clean, comments) =>
      if decide (zlen comments = 0) then Val (inl (clean, None))
      else let! commentSet := assignCommentPaths data clean room comments lineStarts in
           Val (inl (clean, Some commentSet))
  end.

(** ** Putting comments back *)

Definition formatComment (comment : Comment) : list Z :=
  let trailing := bool_decide (Placement comment = CommentPlacementTrailing) in
  match Kind comment with
  | CommentKindHash => if trailing then [32; CH "#"] ++ Text comment ++ [10] else [CH "#"] ++ Text comment ++ [10]
  | CommentKindBlock =>
      if trailing then [32; CH "/"; CH "*"] ++ Text comment ++ [CH "*"; CH "/"]
      else [CH "/"; CH "*"] ++ Text comment ++ [CH "*"; CH "/"; 10]
  | CommentKindLine =>
      if trailing then [32; CH "/"; CH "/"] ++ Text comment ++ [10] else [CH "/"; CH "/"] ++ Text comment ++ [10]
  end.
Fixpoint trailing_loop (bs : list Z) (i offset : Z) : Z :=
  match bs with
  | [] => offset
  | c :: bs =>
      if decide (c = 32 \/ c = 9) then trailing_loop bs (i + 1) offset
      else if decide (c = CH ",") then i + 1 else offset
  end.
Definition trailingCommentInsertOffset (data : list Z) (offset : Z) : Z := trailing_loop (zdrop offset data) offset offset.
Definition findCommentNode (nodes : list commentNode) (p : CommentPath) : option commentNode :=
  List.find (fun node => bool_decide (zlen (path node) = zlen p) && commentPathHasPrefix (path node) p) nodes.
Definition commentInsertOffset (data : list Z) (nodes : list commentNode) (comment : Comment) : option Z :=
  match findCommentNode nodes (Path comment) with
  | None => Some (if decide (Placement comment = CommentPlacementTrailing) then zlen data else 0)
  | Some node =>
      match Placement comment with
      | CommentPlacementTrailing => Some (trailingCommentInsertOffset data (end_ node))
      | CommentPlacementInner =>
          if decide (end_ node > start node) then
            c ← at_ data (start node);
            Some (if decide (c = CH "{" \/ c = CH "[") then start node + 1 else start node)
          else Some (start node)
      | _ => Some (start node)
      end
  end.

Fixpoint insertions_of (data : list Z) (nodes : list commentNode) (comments : CommentSet)
    (insertions : gmap Z (list (list Z))) : option (gmap Z (list (list Z))) :=
  match comments with
  | [] => Some insertions
  | comment :: comments =>
      offset ← commentInsertOffset data nodes comment;
      insertions_of data nodes comments
        (<[offset := default [] (insertions !! offset) ++ [formatComment comment]]> insertions)
  end.
(** The bytes from index [i] on. *)
Fixpoint write_with (insertions : gmap Z (list (list Z))) (bs : list Z) (i : Z) : list Z :=
  concat (default [] (insertions !! i)) ++
  match bs with [] => [] | c :: bs => c :: write_with insertions bs (i + 1) end.
Definition insertJSONComments (data room : list Z) (comments : option CommentSet) : outcome (list Z) :=
  match comments with
  | None | Some [] => Val data
  | Some comments =>
      let! nodes := collectCommentNodes data room in
      let! insertions := of_option (insertions_of data nodes comments ∅) in
      Val (write_with insertions data 0)
  end.
