(* ===== verification/JsonCommentTheorems.v ===== *)
(** * Theorems about comments: positions, and stripping *)

From S2P Require Import Prelude.
From S2P Require Import JsonScanner.
From S2P Require Import JsonGrammar.
From S2P Require Import JsonScannerTheorems.
From S2P Require Import JsonIndent.
From S2P Require Import JsonIndentTheorems.
From S2P Require Import JsonIndentProps.
From S2P Require Import JsonString.
From S2P Require Import JsonStringTheorems.
From S2P Require Import JsonStringProps.
From S2P Require Import JsonLex.
From S2P Require Import JsonComment.
From Stdlib Require Import Ascii.

(** ** Lines and columns *)

(** The reference: walking over the bytes before an offset. *)
Definition walk (lc : Z * Z) (c : Z) : Z * Z := if decide (c = 10) then (fst lc + 1, 1) else (fst lc, snd lc + 1).
Definition position_of (data : list Z) (offset : Z) : CommentPosition :=
  let '(l, c) := foldl walk (1, 1) (ztake offset data) in mkPosition offset l c.

Lemma Search_loop_split n f i j a : 0 <= i <= a -> a <= j -> (Z.to_nat (j - i) <= n)%nat ->
  (forall h, i <= h < a -> f h = false) -> (forall h, a <= h < j -> f h = true) -> Search_loop n f i j = Some a.
Proof.
  revert i j. induction n as [|n IH]; intros i j Hi Hj Hn Hlo Hhi; cbn [Search_loop].
  - rewrite decide_False by lia. f_equal. lia.
  - case_decide as Hlt; [|f_equal; lia]. rewrite Z.shiftr_div_pow2 by lia. change (2 ^ 1) with 2.
    assert (i <= (i + j) / 2 < j) as Hh by (Z.to_euclidean_division_equations; lia).
    destruct (decide ((i + j) / 2 < a)).
    + rewrite (Hlo ((i + j) / 2)) by lia. cbn [negb]. apply IH; try lia; intros; [apply Hlo|apply Hhi]; lia.
    + rewrite (Hhi ((i + j) / 2)) by lia. cbn [negb]. apply IH; try lia; intros; [apply Hlo|apply Hhi]; lia.
Qed.
Lemma Search_split n f a : 0 <= a <= n -> (forall h, 0 <= h < a -> f h = false) -> (forall h, a <= h < n -> f h = true) ->
  Search n f = Some a.
Proof. intros. apply Search_loop_split; auto; lia. Qed.

Lemma line_starts_app a b i : line_starts (a ++ b) i = line_starts a i ++ line_starts b (i + zlen a).
Proof.
  revert i. induction a as [|c a IH]; intros i; cbn [app line_starts]; [by rewrite zlen_nil, Z.add_0_r|].
  rewrite zlen_cons, !IH. replace (i + 1 + zlen a) with (i + (1 + zlen a)) by lia. by case_decide.
Qed.
Lemma line_starts_range a i : Forall (fun s => i < s <= i + zlen a) (line_starts a i).
Proof.
  revert i. induction a as [|c a IH]; intros i; cbn [line_starts]; [constructor|]. rewrite zlen_cons. pose proof (zlen_nonneg a).
  assert (Forall (fun s => i < s <= i + (1 + zlen a)) (line_starts a (i + 1))) by (eapply Forall_impl; [apply IH|]; cbn; lia).
  case_decide; [constructor; [lia|done]|done].
Qed.
Lemma walk_starts a l c i : exists s, last (i + 1 - c :: line_starts a i) = Some s /\
  foldl walk (l, c) a = (l + zlen (line_starts a i), i + zlen a - s + 1).
Proof.
  revert l c i. induction a as [|x a IH]; intros l c i; cbn [foldl line_starts].
  - exists (i + 1 - c). split; [done|]. rewrite !zlen_nil. f_equal; lia.
  - unfold walk at 2. rewrite zlen_cons. case_decide; cbn [fst snd].
    + destruct (IH (l + 1) 1 (i + 1)) as (s & Hs & ->). exists s. replace (i + 1 + 1 - 1) with (i + 1) in Hs by lia.
      split; [by rewrite last_cons, Hs|]. rewrite zlen_cons. f_equal; lia.
    + destruct (IH l (c + 1) (i + 1)) as (s & Hs & ->). exists s. replace (i + 1 + 1 - (c + 1)) with (i + 1 - c) in Hs by lia.
      split; [done|]. f_equal. lia.
Qed.

Lemma commentPosition_walk data offset : 0 <= offset <= zlen data ->
  commentPosition offset (buildLineStarts data) = Some (position_of data offset).
Proof.
  intros Ho. unfold commentPosition, position_of.
  set (p := ztake offset data). assert (zlen p = offset) as Hp by (unfold p; rewrite zlen_ztake; lia).
  pose proof (line_starts_range p 0) as Hlo. pose proof (line_starts_range (zdrop offset data) offset) as Hhi.
  set (A := 0 :: line_starts p 0). set (B := line_starts (zdrop offset data) offset) in *.
  assert (buildLineStarts data = A ++ B) as ->.
  { unfold buildLineStarts, A, B. rewrite <- (ztake_zdrop offset data) at 1. fold p. by rewrite line_starts_app, Z.add_0_l, Hp. }
  assert (Forall (fun s => s <= offset) A) as HA by (constructor; [lia|eapply Forall_impl; [exact Hlo|cbn; lia]]).
  assert (1 <= zlen A) as H1 by (unfold A; rewrite zlen_cons; pose proof (zlen_nonneg (line_starts p 0)); lia).
  rewrite (Search_split _ _ (zlen A)).
  - cbn [mbind option_bind]. rewrite decide_False by lia.
    destruct (walk_starts p 1 1 0) as (s & Hs & Hw). change (last A = Some s) in Hs. rewrite Hw.
    assert (at_ (A ++ B) (zlen A - 1) = Some s) as ->.
    { unfold at_. rewrite decide_True by lia. unfold zlen in *. rewrite lookup_app_l by lia. rewrite <- Hs.
      rewrite last_lookup. f_equal. lia. }
    cbn [mbind option_bind]. f_equal. f_equal; [unfold A; by rewrite zlen_cons|lia].
  - rewrite zlen_app. pose proof (zlen_nonneg B). lia.
  - intros h Hh. apply bool_decide_eq_false. unfold at_. rewrite decide_True by lia. unfold zlen in *.
    rewrite lookup_app_l by lia. destruct (lookup_lt_is_Some_2 A (Z.to_nat h)) as [x Hx]; [lia|]. rewrite Hx.
    rewrite Forall_lookup in HA. specialize (HA _ _ Hx). cbn. lia.
  - intros h Hh. apply bool_decide_eq_true. rewrite zlen_app in Hh. unfold at_. rewrite decide_True by lia. unfold zlen in *.
    rewrite lookup_app_r by lia. destruct (lookup_lt_is_Some_2 B (Z.to_nat h - length A)) as [x Hx]; [lia|]. rewrite Hx.
    rewrite Forall_lookup in Hhi. specialize (Hhi _ _ Hx). cbn in *. lia.
Qed.

(** ** The comments of a source *)

Definition opening (k : CommentKind) : list Z := appendCommentMarker [] k.
Definition closing (k : CommentKind) : list Z := if decide (k = CommentKindBlock) then [CH "*"; CH "/"] else [].

Lemma after_line_text bs tl : bs = line_text bs ++ tl -> after_line bs = tail tl.
Proof.
  induction bs as [|c bs IH]; cbn [line_text after_line]; [by destruct tl|].
  unfold is_line_end. case_decide as Hc.
  - rewrite bool_decide_true by done. intros E. cbn [app] in E. by rewrite <- E.
  - rewrite bool_decide_false by done. intros [= E]. by apply IH.
Qed.
Lemma after_block_text bs t r : block_text bs = Some t -> bs = t ++ CH "*" :: CH "/" :: r -> after_block bs = Some r.
Proof.
  revert t. induction bs as [|c bs IH]; intros t; [done|]. cbn [block_text after_block]. destruct bs as [|d bs]; [done|].
  case_decide as Hcd; [intros [= <-]; by intros [= _ _ ->]|]. intros (t' & Ht & ->)%fmap_Some. cbn [app]. intros [= E]. by apply (IH t').
Qed.

(** What find_comment answers at a byte outside strings. *)
Definition finds (data : list Z) (i c : Z) (rest : list Z) (f : found) : Prop :=
  match f with
  | FoundNothing => c <> CH "#" /\ (c = CH "/" -> match rest with [] => True | d :: _ => d <> CH "/" /\ d <> CH "*" end)
  | FoundUnended => c = CH "/" /\ exists r, rest = CH "*" :: r /\ block_text r = None
  | FoundComment k ts te e => exists text r, c :: rest = opening k ++ text ++ closing k ++ r /\
      ts = i + zlen (opening k) /\ te = ts + zlen text /\ e = te + zlen (closing k) /\
      (c = CH "#" \/ c = CH "/") /\
      exists r', one_gap (c :: rest) = Gap r' /\ (r' = r \/ exists nl, r = nl :: r' /\ isSpace nl = true)
  end.
Lemma line_end_space c : is_line_end c = true -> isSpace c = true.
Proof. unfold is_line_end, isSpace. rewrite !bool_decide_eq_true. lia. Qed.

Lemma finds_line data i c rest k m : m = opening k -> k <> CommentKindBlock -> (c = CH "#" \/ c = CH "/") ->
  forall r0, c :: rest = m ++ r0 -> from data i (m ++ r0) -> one_gap (c :: rest) = Gap (after_line r0) ->
  finds data i c rest (line_comment k data (i + zlen m)).
Proof.
  intros -> Hk Hc r0 E Hf Hg. unfold line_comment. destruct (from_app_r _ _ _ _ Hf) as [Hf' _].
  rewrite (zdrop_from _ _ _ Hf'). destruct (line_text_split r0) as (tl & Hs & _ & Htl).
  assert (closing k = []) as Hcl by (unfold closing; by rewrite decide_False).
  exists (line_text r0), tl. rewrite Hcl. cbn [app]. rewrite <- Hs. split; [done|]. split; [done|]. split; [done|].
  split; [rewrite zlen_nil; lia|]. split; [done|]. exists (after_line r0). split; [done|]. rewrite (after_line_text r0 tl Hs).
  destruct tl as [|nl r]; [by left|right]. exists nl. split; [done|]. by apply line_end_space.
Qed.
Lemma find_comment_finds data i c rest : from data i (c :: rest) -> finds data i c rest (find_comment data i c).
Proof.
  intros Hf. unfold find_comment. case_decide as Hh.
  { subst c. apply (finds_line data i _ rest CommentKindHash [CH "#"] eq_refl ltac:(done) ltac:(by left) rest); done. }
  case_decide as Hs; [|done]. subst c. rewrite (at_from _ _ _ 1 Hf) by lia.
  change (at_ (CH "/" :: rest) 1) with (at_ rest 0). destruct rest as [|d rest]; [done|]. change (at_ (d :: rest) 0) with (Some d). cbn iota.
  case_decide as Hd.
  { subst d. apply (finds_line data i _ _ CommentKindLine [CH "/"; CH "/"] eq_refl ltac:(done) ltac:(by right) rest); done. }
  case_decide as Hb; [|by split]. subst d.
  destruct (from_app_r data i [CH "/"; CH "*"] rest Hf) as [Hf' _]. change (zlen [CH "/"; CH "*"]) with 2 in Hf'.
  rewrite (zdrop_from _ _ _ Hf'). destruct (block_text rest) as [t|] eqn:Ht; [|split; [done|by exists rest]].
  destruct (block_text_split rest t Ht false) as (r & He & _); [done|].
  exists t, r. split; [by rewrite He|]. split; [done|]. split; [done|]. split; [done|]. split; [by right|].
  exists r. split; [|by left]. cbn [one_gap]. change (isSpace (CH "/")) with false. cbn iota. rewrite !decide_False, !decide_True by done.
  by rewrite (after_block_text _ _ _ Ht He).
Qed.

(** ** Gaps and their blanks *)

Lemma gap_cancel a a' b : same a b -> gap_to a a' -> same a' b.
Proof.
  induction 1 as [a|a b Ha Hb|a a0 b [Hg Hn] H IH|a b b0 Hg H IH|c a b ? ? ? ? H IH Hr|q a b Hq H IH]; intros [Hg' Hn'].
  - eapply same_right; [by split|apply same_refl].
  - congruence.
  - rewrite Hg in Hg'. by injection Hg' as <-.
  - eapply same_right; [done|]. by apply IH.
  - by rewrite no_gap_other in Hg'.
  - by rewrite no_gap_other in Hg'.
Qed.
Lemma space_gap c a : isSpace c = true -> gap_to (c :: a) a.
Proof. intros Hc. split; [cbn; by rewrite Hc|]. by intros [= -> ->]. Qed.
Lemma blank_space c : isSpace (blank c) = true.
Proof. unfold blank. destruct (is_line_end c) eqn:E; [by apply line_end_space|done]. Qed.
Lemma same_blanks a b cm : same a b -> same a (map blank cm ++ b).
Proof.
  intros H. induction cm as [|c cm IH]; [done|]. cbn [map app]. eapply same_right; [apply space_gap, blank_space|done].
Qed.

(** What stands first: the same byte, or a blank where a comment was. *)
Definition heads_match (a b : list Z) : Prop :=
  head a = head b \/ exists x, head b = Some x /\ isSpace x = true /\ (head a = Some (CH "#") \/ head a = Some (CH "/")).
Lemma heads_glued a b : heads_match a b -> glued a b.
Proof.
  unfold glued. intros [H|(x & H & Hx & Ha)].
  - destruct a, b; try done. by injection H as ->.
  - destruct b as [|y b]; [done|]. injection H as ->. destruct a as [|z a]; [by destruct Ha|]. cbn [starts_run].
    unfold is_run at 2. rewrite Hx. destruct Ha as [[= ->]|[= ->]]; reflexivity.
Qed.

(** One byte outside strings and comments. *)
Lemma same_plain c a b : c <> 34 -> c <> CH "#" ->
  (c = CH "/" -> match a with [] => True | d :: _ => d <> CH "/" /\ d <> CH "*" end) ->
  (a = [] -> b = []) -> heads_match a b -> same a b -> same (c :: a) (c :: b).
Proof.
  intros H34 Hh Hs Hnil Hm H. destruct (decide (c = CH "/")) as [->|Hc].
  - specialize (Hs eq_refl). destruct a as [|d a]; [rewrite Hnil by done; apply same_refl|]. destruct Hs as [Hd1 Hd2].
    assert (exists e b', b = e :: b' /\ e <> CH "/" /\ e <> CH "*") as (e & b' & -> & He1 & He2).
    { destruct Hm as [Hm|(x & Hx & Hsp & Ha)]; (destruct b as [|e b']; [done|]); exists e, b'; (split; [done|]).
      - by injection Hm as <-.
      - injection Hx as ->. by split; intros ->. }
    apply same_bad; cbn [one_gap]; change (isSpace (CH "/")) with false; cbn iota; by rewrite !decide_False, decide_True, !decide_False by done.
  - destruct (isSpace c) eqn:Hsp.
    + eapply same_left; [by apply space_gap|]. eapply same_right; [by apply space_gap|done].
    + apply same_byte; try done. intros _. by apply heads_glued.
Qed.

(** ** Strings *)

Inductive unclosed : list Z -> Prop :=
  | unclosed_nil : unclosed []
  | unclosed_backslash : unclosed [92]
  | unclosed_escape e t : unclosed t -> unclosed (92 :: e :: t)
  | unclosed_byte c t : c <> 34 -> c <> 92 -> unclosed t -> unclosed (c :: t).
Lemma closed_unclosed q a : closed_string q -> ~ unclosed (q ++ a).
Proof. intros Hq. induction Hq; cbn [app]; intros Hu; inversion Hu; subst; try done; by apply IHHq. Qed.

Lemma last_snoc_from data i c : from data i [c] -> last data = Some c.
Proof. intros (pre & -> & _)%from_app. apply last_snoc. Qed.
Lemma at_beyond (data : list Z) j : zlen data <= j -> at_ data j = None.
Proof. intros Hj. destruct (at_ data j) eqn:E; [|done]. apply at_Some_lt in E. lia. Qed.

Definition string_end (data : list Z) (i : Z) (t : list Z) (j : Z) : Prop :=
  (exists q a, t = q ++ a /\ closed_string q /\ j = i + zlen q) \/
  unclosed t /\ zlen data <= j <= zlen data + 1 /\ (j = zlen data + 1 -> last data = Some 92).
Lemma string_end_more data i pre t j : string_end data (i + zlen pre) t j ->
  (forall q, closed_string q -> closed_string (pre ++ q)) -> (unclosed t -> unclosed (pre ++ t)) ->
  string_end data i (pre ++ t) j.
Proof.
  intros [(q & a & -> & Hq & ->)|(Hu & Hj)] Hc Hun.
  - left. exists (pre ++ q), a. split; [by rewrite app_assoc|]. split; [by apply Hc|]. rewrite zlen_app. lia.
  - right. split; [by apply Hun|done].
Qed.
Lemma skip_string_spec n data i t : from data i t -> (length t <= n)%nat ->
  exists j, skip_string n data i = Some j /\ string_end data i t j.
Proof.
  revert n i. induction t as [t IH] using (well_founded_induction (well_founded_ltof _ (@length Z))). unfold ltof in IH.
  intros n i Hf Hn. destruct t as [|c t].
  { exists i. split; [destruct n; cbn [skip_string]; by rewrite (from_at_end _ _ Hf)|]. right. rewrite (from_end _ _ Hf).
    split; [constructor|]. split; [lia|]. lia. }
  destruct n as [|n]; cbn [length] in Hn; [lia|]. cbn [skip_string]. rewrite (from_at _ _ _ _ Hf).
  pose proof (from_next _ _ _ _ Hf) as Hf1. destruct (decide (c = 92)) as [->|H92].
  - destruct t as [|e t].
    + pose proof (from_end _ _ Hf1) as He. exists (i + 2). split; [destruct n; cbn [skip_string]; by rewrite at_beyond by lia|].
      right. split; [constructor|]. split; [lia|]. intros _. by eapply last_snoc_from.
    + pose proof (from_next _ _ _ _ Hf1) as Hf2. rewrite <- Z.add_assoc in Hf2. cbn [length] in Hn.
      destruct (IH t ltac:(cbn; lia) n (i + 2) Hf2 ltac:(lia)) as (j & -> & Hj). exists j. split; [done|].
      apply (string_end_more data i [92; e] t j Hj); intros; by constructor.
  - destruct (decide (c = 34)) as [->|H34].
    + exists (i + 1). split; [done|]. left. exists [34], t. split; [done|]. split; [constructor|done].
    + destruct (IH t ltac:(cbn; lia) n (i + 1) Hf1 ltac:(lia)) as (j & -> & Hj). exists j. split; [done|].
      apply (string_end_more data i [c] t j Hj); intros; by constructor.
Qed.
Lemma skipJSONString_spec data i c t : from data i (c :: t) ->
  exists j, skipJSONString data i = Some j /\ string_end data (i + 1) t j.
Proof.
  intros Hf. pose proof (from_next _ _ _ _ Hf) as Hf1. apply skip_string_spec; [done|].
  apply from_app in Hf as (pre & -> & _). rewrite length_app. cbn. lia.
Qed.

(** ** The stripping loop *)

(** A source without comments. *)
Inductive quiet : list Z -> Prop :=
  | quiet_nil : quiet []
  | quiet_byte c a : c <> 34 -> c <> CH "#" ->
      (c = CH "/" -> match a with [] => True | d :: _ => d <> CH "/" /\ d <> CH "*" end) -> quiet a -> quiet (c :: a)
  | quiet_string q a : closed_string q -> quiet a -> quiet (34 :: q ++ a)
  | quiet_unclosed t : unclosed t -> quiet (34 :: t).

Record stripped (a b : list Z) : Prop := mkStripped {
  stripped_len : zlen b = zlen a;
  stripped_same : same a b;
  stripped_heads : heads_match a b;
  stripped_quiet : quiet b;
  stripped_last : last b = Some 92 -> last a = Some 92 }.

(** The last byte, behind a part that keeps its last byte if that is a backslash. *)
Lemma last_behind k k' (a b : list Z) : zlen b = zlen a -> (last k' = Some 92 -> last k = Some 92) ->
  (last b = Some 92 -> last a = Some 92) -> last (k' ++ b) = Some 92 -> last (k ++ a) = Some 92.
Proof.
  intros Hl Hk Hb. destruct b as [|x b].
  - assert (a = []) as -> by by apply zlen_0. by rewrite !app_nil_r.
  - destruct a as [|y a]; [rewrite zlen_cons, zlen_nil in Hl; pose proof (zlen_nonneg b); lia|].
    assert (forall (l : list Z) z m, last (l ++ z :: m) = last (z :: m)) as Happ.
    { intros l z m. induction l as [|w l IH]; [done|]. cbn [app]. rewrite last_cons, IH. by destruct (last (z :: m)) eqn:E; [|by apply last_None in E]. }
    by rewrite !Happ.
Qed.
Lemma blank_not_last cm : last (map blank cm) <> Some 92.
Proof.
  rewrite last_lookup, list_lookup_fmap. destruct (cm !! _) as [c|]; [|done]. intros [= E]. pose proof (blank_space c) as Hs. by rewrite E in Hs.
Qed.

Definition comment_at (data : list Z) (c : Comment) : Prop :=
  slice data (Offset (Start c)) (Offset (End_ c)) = Some (opening (Kind c) ++ Text c ++ closing (Kind c)) /\
  Start c = position_of data (Offset (Start c)) /\ End_ c = position_of data (Offset (End_ c)).

Definition no_end : string := "unexpected end of JSON comment".
Definition unended (data : list Z) (e : SyntaxError) : Prop :=
  exists j r, e = UnexpectedEnd no_end j /\ from data j (CH "/" :: CH "*" :: r) /\ block_text r = None.
Definition strip_goal (data p rest : list Z) (comments : list Comment) (o : outcome (list Z * list Comment + SyntaxError)) : Prop :=
  match o with
  | Val (inl (clean, l)) => exists rest' new, clean = p ++ rest' /\ l = comments ++ new /\ stripped rest rest' /\ Forall (comment_at data) new
  | Val (inr e) => unended data e
  | _ => False
  end.

Lemma position_offset data o : Offset (position_of data o) = o.
Proof. unfold position_of. by destruct (foldl _ _ _). Qed.
Lemma newComment_at data i k text : from data i (opening k ++ text ++ closing k) \/
    (exists r, from data i (opening k ++ text ++ closing k ++ r)) ->
  exists c, newComment k text i (i + zlen (opening k) + zlen text + zlen (closing k)) (buildLineStarts data) = Some c /\ comment_at data c.
Proof.
  intros Hf. assert (exists r, from data i ((opening k ++ text ++ closing k) ++ r)) as [r Hr].
  { destruct Hf as [Hf|[r Hf]]; [exists []; by rewrite app_nil_r|exists r; by rewrite <- !app_assoc]. }
  clear Hf. destruct (from_app_r _ _ _ _ Hr) as [He Hs]. rewrite !zlen_app in He, Hs. destruct Hr as [Hi _], He as [He _].
  unfold newComment. rewrite commentPosition_walk by lia. cbn [mbind option_bind].
  replace (i + zlen (opening k) + zlen text + zlen (closing k)) with (i + (zlen (opening k) + (zlen text + zlen (closing k)))) by lia.
  rewrite commentPosition_walk by lia. cbn [mbind option_bind]. eexists. split; [done|].
  unfold comment_at. cbn [Start End_ Kind Text]. by rewrite !position_offset.
Qed.

Lemma slice_all (data : list Z) p a r : data = p ++ a ++ r ->
  slice data 0 (zlen p) = Some p /\ slice data (zlen p) (zlen p + zlen a) = Some a /\ slice data (zlen p + zlen a) (zlen data) = Some r.
Proof.
  intros ->. split; [apply (slice_app [] p (a ++ r)); reflexivity|]. split; [by apply slice_app|].
  pose proof (slice_app (p ++ a) r [] (zlen p + zlen a) (zlen (p ++ a ++ r))) as Hs. rewrite app_nil_r, <- app_assoc in Hs.
  apply Hs; rewrite !zlen_app; lia.
Qed.
Lemma blankComment_app p a r : blankComment (p ++ a ++ r) (zlen p) (zlen p + zlen a) = Some (p ++ map blank a ++ r).
Proof. unfold blankComment. by destruct (slice_all _ p a r eq_refl) as (-> & -> & ->). Qed.
Lemma zlen_map {A B} (f : A -> B) l : zlen (map f l) = zlen l.
Proof. unfold zlen. by rewrite length_map. Qed.

Lemma quiet_blanks cm b : quiet b -> quiet (map blank cm ++ b).
Proof.
  intros Hb. induction cm as [|c cm IH]; [done|]. cbn [map app]. pose proof (blank_space c) as Hs.
  assert (blank c <> 34 /\ blank c <> CH "#" /\ blank c <> CH "/") as (? & ? & ?).
  { split_and!; intros E; by rewrite E in Hs. }
  by apply quiet_byte.
Qed.

Lemma heads_same_byte c (a b : list Z) : heads_match (c :: a) (c :: b).
Proof. by left. Qed.
Lemma strip_goal_more data p k k' rest comments new o : zlen k' = zlen k -> Forall (comment_at data) new ->
  (forall rest', stripped rest rest' -> stripped (k ++ rest) (k' ++ rest')) ->
  strip_goal data (p ++ k') rest (comments ++ new) o -> strip_goal data p (k ++ rest) comments o.
Proof.
  intros Hk Hnew Hs. destruct o as [[[clean l]|e]| |]; [|done..]. cbn [strip_goal].
  intros (rest' & new' & -> & -> & Hr & Hn). exists (k' ++ rest'), (new ++ new'). rewrite <- !app_assoc.
  split; [done|]. split; [done|]. split; [by apply Hs|]. by apply Forall_app.
Qed.

(** A comment at [i], blanked. *)
Lemma stripped_comment c rest cm r r' rest' : c :: rest = cm ++ r -> cm <> [] -> c :: rest <> [CH "/"] -> (c = CH "#" \/ c = CH "/") ->
  one_gap (c :: rest) = Gap r' -> (r' = r \/ exists nl, r = nl :: r' /\ isSpace nl = true) ->
  stripped r rest' -> stripped (cm ++ r) (map blank cm ++ rest').
Proof.
  intros He Hne Hsl Hc Hg Hr' [Hl Hs Hh Hq Hlast]. split.
  - rewrite !zlen_app, zlen_map. lia.
  - rewrite <- He. eapply same_left; [split; [exact Hg|done]|].
    destruct Hr' as [->|(nl & -> & Hnl)]; [by apply same_blanks|]. apply same_blanks. eapply gap_cancel; [done|by apply space_gap].
  - right. destruct cm as [|x cm]; [done|]. injection He as <- He. exists (blank c). split; [done|]. split; [apply blank_space|].
    destruct Hc as [->| ->]; [by left|by right].
  - by apply quiet_blanks.
  - apply last_behind; [done| |done]. intros E. by destruct (blank_not_last cm).
Qed.

Lemma strip_loop_spec n data i rest p comments : from data i rest -> (length rest <= n)%nat -> zlen p = i ->
  strip_goal data p rest comments (strip_loop n data (buildLineStarts data) i (p ++ rest) comments).
Proof.
  revert n i p comments. induction rest as [rest IH] using (well_founded_induction (well_founded_ltof _ (@length Z))).
  unfold ltof in IH. intros n i p comments Hf Hn Hp.
  assert (forall r, zlen data <= r -> stripped rest rest ->
    strip_goal data p rest comments (strip_loop (pred n) data (buildLineStarts data) r (p ++ rest) comments)) as Hstop.
  { intros r Hr Hst. assert (strip_loop (pred n) data (buildLineStarts data) r (p ++ rest) comments = Val (inl (p ++ rest, comments))) as ->.
    { destruct (pred n); cbn [strip_loop]; by rewrite at_beyond. }
    exists rest, []. split; [done|]. split; [by rewrite app_nil_r|]. split; [done|constructor]. }
  assert (quiet rest -> stripped rest rest) as Hid.
  { intros Hq. by split; [done|apply same_refl|left|..]. }
  destruct rest as [|c rest].
  { destruct n; cbn [strip_loop]; rewrite (from_at_end _ _ Hf); exists [], []; rewrite !app_nil_r; (split; [done|]; split; [done|]);
      (split; [apply Hid; constructor|constructor]). }
  destruct n as [|n]; cbn [length] in Hn; [lia|]. cbn [strip_loop]. rewrite (from_at _ _ _ _ Hf).
  destruct (decide (c = 34)) as [->|H34].
  - destruct (skipJSONString_spec _ _ _ _ Hf) as (j & -> & Hj). cbn [of_option obind].
    destruct Hj as [(q & a & -> & Hq & ->)|(Hu & Hj & _)].
    + pose proof (from_more _ _ _ _ (from_next _ _ _ _ Hf)) as Hf'.
      replace (p ++ 34 :: q ++ a) with ((p ++ 34 :: q) ++ a) by by rewrite <- app_assoc.
      change (34 :: q ++ a) with ((34 :: q) ++ a).
      apply (strip_goal_more data p (34 :: q) (34 :: q) a comments []); [done|constructor| |].
      * intros rest' [Hl Hs Hh Hqt Hlast]. split; [rewrite !zlen_app; lia|by apply same_string|by left|by apply quiet_string|by apply last_behind].
      * rewrite app_nil_r. apply IH; [cbn; rewrite length_app; lia|done|rewrite length_app in Hn; lia|rewrite zlen_app, zlen_cons; lia].
    + apply (Hstop j); [lia|]. by apply Hid, quiet_unclosed.
  - pose proof (find_comment_finds _ _ _ _ Hf) as Hfind.
    destruct (find_comment data i c) as [| |k ts te e]; cbn [finds] in Hfind.
    + destruct Hfind as [Hh Hsl]. replace (p ++ c :: rest) with ((p ++ [c]) ++ rest) by by rewrite <- app_assoc.
      apply (strip_goal_more data p [c] [c] rest comments []); [done|constructor| |].
      * intros rest' [Hl Hs Hm Hqt Hlast].
        assert (rest = [] -> rest' = []) as Hnil by (intros ->; by apply zlen_0).
        split; [rewrite !zlen_app; lia|by apply same_plain|by left| |by apply last_behind]. apply quiet_byte; try done. intros Hc.
        destruct rest as [|d rest]; [by rewrite Hnil|]. destruct (Hsl Hc) as [Hd1 Hd2].
        destruct Hm as [Hm|(x & Hx & Hsp & Ha)]; (destruct rest' as [|e b']; [done|]).
        -- by injection Hm as <-.
        -- injection Hx as ->. by split; intros ->.
      * rewrite app_nil_r. apply IH; [cbn; lia|by eapply from_next|lia|]. rewrite zlen_app, zlen_cons, zlen_nil. lia.
    + destruct Hfind as (-> & r & -> & Hr). by exists i, r.
    + destruct Hfind as (text & r & He & -> & -> & -> & Hc & r' & Hg & Hr').
      set (cm := opening k ++ text ++ closing k).
      assert (c :: rest = cm ++ r) as Hcm by (unfold cm; by rewrite He, <- !app_assoc).
      assert (opening k <> []) as Hop by by destruct k.
      destruct (newComment_at data i k text) as (cmt & Hnew & Hat); [right; exists r; by rewrite <- He|].
      rewrite He in Hf. destruct (from_app_r _ _ _ _ Hf) as [Hf1 _]. destruct (from_app_r _ _ _ _ Hf1) as [_ Hsl].
      rewrite Hsl. cbn [mbind option_bind]. rewrite Hnew. cbn [of_option obind].
      rewrite Hcm. assert (i + zlen (opening k) + zlen text + zlen (closing k) = zlen p + zlen cm) as Hend
        by (unfold cm; rewrite !zlen_app; lia).
      rewrite Hend. rewrite <- Hp at 1. rewrite blankComment_app. cbn [of_option obind].
      apply (strip_goal_more data p cm (map blank cm) r comments [cmt]); [apply zlen_map|by constructor| |].
      * intros rest' Hst. apply (stripped_comment c rest _ _ r'); try done.
        -- unfold cm. by destruct k.
        -- rewrite He. by destruct k.
      * rewrite app_assoc. apply IH.
        -- rewrite Hcm, length_app. destruct cm eqn:E; [|cbn; lia]. unfold cm in E. by apply app_eq_nil in E as [? _].
        -- rewrite <- He, Hcm in Hf. apply from_more in Hf. by rewrite <- Hp in Hf.
        -- assert (length (c :: rest) = length (cm ++ r)) as Hl by by rewrite Hcm.
           rewrite length_app in Hl. cbn [length] in Hl.
           assert (0 < length cm)%nat; [|lia]. destruct cm eqn:E; [|cbn; lia]. unfold cm in E. by apply app_eq_nil in E as [? _].
        -- rewrite zlen_app, zlen_map. done.
Qed.
