(* ===== verification/JsonCommentProps.v ===== *)
(** * Comments: the node parser returns, and stripping keeps the document *)

From S2P Require Import Prelude.
From S2P Require Import JsonScanner.
From S2P Require Import JsonGrammar.
From S2P Require Import JsonScannerTheorems.
From S2P Require Import JsonIndent.
From S2P Require Import JsonIndentTheorems.
From S2P Require Import JsonIndentProps.
From S2P Require Import JsonString.
From S2P Require Import JsonStringTheorems.
From S2P Require Import JsonStringProps.
From S2P Require Import JsonLex.
From S2P Require Import JsonComment.
From S2P Require Import JsonCommentTheorems.
From Stdlib Require Import Ascii.

(** ** A source without comments is left alone *)

Lemma closed_unique q a q' a' : closed_string q -> closed_string q' -> q ++ a = q' ++ a' -> q' = q /\ a' = a.
Proof.
  intros Hc. revert q'. induction Hc as [|e q Hc IH|d q ? ? Hc IH]; intros q' Hc' E.
  - destruct Hc' as [|e' q' Hc'|d' q' ? ? Hc']; cbn [app] in E; [by injection E as ->|done|congruence].
  - destruct Hc' as [|e' q' Hc'|d' q' ? ? Hc']; cbn [app] in E; [done| |congruence]. injection E as -> E. by destruct (IH q' Hc' E) as [-> ->].
  - destruct Hc' as [|e' q' Hc'|d' q' ? ? Hc']; cbn [app] in E; [congruence..|]. injection E as -> E. by destruct (IH q' Hc' E) as [-> ->].
Qed.
Lemma quiet_behind_string q a : closed_string q -> quiet (34 :: q ++ a) -> quiet a.
Proof.
  intros Hc Hq. inversion Hq as [|c b H34 ? ? ? [E1 E2]|q' a' Hc' Hq' [E]|t Hu [E]]; subst; [done| |].
  - by destruct (closed_unique q a q' a' Hc Hc' ltac:(congruence)) as [_ ->].
  - by destruct (closed_unclosed q a Hc).
Qed.
Lemma quiet_behind c a : c <> 34 -> quiet (c :: a) -> quiet a.
Proof. intros Hc Hq. by inversion Hq. Qed.
Lemma quiet_loop n data ls i rest clean comments : quiet rest -> from data i rest -> (length rest <= n)%nat ->
  strip_loop n data ls i clean comments = Val (inl (clean, comments)).
Proof.
  intros Hq. revert n i. induction Hq as [|c a H34 Hh Hs Hq IH|q a Hc Hq IH|t Hu]; intros n i Hf Hn.
  - destruct n; cbn [strip_loop]; by rewrite (from_at_end _ _ Hf).
  - destruct n as [|n]; cbn [length] in Hn; [lia|]. cbn [strip_loop]. rewrite (from_at _ _ _ _ Hf), decide_False by done.
    assert (find_comment data i c = FoundNothing) as ->.
    { unfold find_comment. rewrite decide_False by done. case_decide as E; [|done]. specialize (Hs E).
      rewrite (at_from _ _ _ 1 Hf) by lia. change (at_ (c :: a) 1) with (at_ a 0).
      destruct a as [|d a]; [done|]. change (at_ (d :: a) 0) with (Some d). cbn iota. destruct Hs. by rewrite !decide_False. }
    apply IH; [by eapply from_next|lia].
  - destruct n as [|n]; cbn [length] in Hn; [lia|]. cbn [strip_loop]. rewrite (from_at _ _ _ _ Hf), decide_True by done.
    destruct (skipJSONString_spec _ _ _ _ Hf) as (j & -> & Hj). cbn [of_option obind].
    destruct Hj as [(q' & a' & E & Hc' & ->)|(Hu & _)]; [|by destruct (closed_unclosed q a Hc)].
    destruct (closed_unique q a q' a' Hc Hc' E) as [-> ->].
    rewrite length_app in Hn. apply IH; [|lia]. eapply from_more, from_next, Hf.
  - destruct n as [|n]; cbn [length] in Hn; [lia|]. cbn [strip_loop]. rewrite (from_at _ _ _ _ Hf), decide_True by done.
    destruct (skipJSONString_spec _ _ _ _ Hf) as (j & -> & Hj). cbn [of_option obind].
    destruct Hj as [(q' & a' & -> & Hc' & ->)|(_ & Hj & _)]; [by destruct (closed_unclosed q' a' Hc')|].
    destruct n; cbn [strip_loop]; by rewrite at_beyond by lia.
Qed.

(** ** The node parser returns

    The only panic is the slice expression of a key that is cut off behind a backslash
    at the end of the data, when there is no room behind it. *)

Section Nodes.
Context (data room : list Z).
Definition cut_off : Prop := room = [] /\ last data = Some 92.
Definition left_over (i : Z) : nat := Z.to_nat (zlen data - i).
(** The call got to [lo] at least. *)
Definition returns (lo : Z) (o : outcome (commentNode * Z * bool * list commentNode)) : Prop :=
  match o with Val (_, e, _, _) => lo <= e | Panic => cut_off | OutOfFuel => False end.

Lemma spaces_nonneg bs : 0 <= spaces bs.
Proof. induction bs as [|c bs IH]; cbn [spaces]; [lia|]. destruct (isSpace c); lia. Qed.
Lemma skipSpaces_ge i : i <= skipSpaces data i.
Proof. unfold skipSpaces. pose proof (spaces_nonneg (zdrop i data)). lia. Qed.
Lemma spaces_stop bs : spaces (zdrop (spaces bs) bs) = 0.
Proof.
  induction bs as [|c bs IH]; cbn [spaces]; [done|]. destruct (isSpace c) eqn:E.
  - rewrite zdrop_succ by apply spaces_nonneg. done.
  - change (zdrop 0 (c :: bs)) with (c :: bs). cbn [spaces]. by rewrite E.
Qed.
Lemma skipSpaces_twice i : 0 <= i -> skipSpaces data (skipSpaces data i) = skipSpaces data i.
Proof.
  intros Hi. unfold skipSpaces at 1. unfold skipSpaces at 2. rewrite <- zdrop_zdrop by (try apply spaces_nonneg; lia).
  rewrite spaces_stop. lia.
Qed.
Lemma literal_nonneg bs : 0 <= literal_length bs.
Proof. induction bs as [|c bs IH]; cbn [literal_length]; [lia|]. destruct (isSpace c || _); lia. Qed.
Lemma zdrop_at i c : at_ data i = Some c -> exists t, from data i (c :: t).
Proof.
  intros Ha. pose proof (at_Some_lt _ _ _ Ha) as Hi. exists (zdrop (i + 1) data).
  split; [lia|]. unfold at_ in Ha. rewrite decide_True in Ha by lia. unfold zdrop. rewrite (drop_S _ _ _ Ha). do 2 f_equal. lia.
Qed.
Lemma skipJSONString_returns i c : at_ data i = Some c -> exists j, skipJSONString data i = Some j /\ i + 1 <= j <= zlen data + 1 /\
  (j = zlen data + 1 -> last data = Some 92).
Proof.
  intros Ha. pose proof (at_Some_lt _ _ _ Ha) as Hi. destruct (zdrop_at _ _ Ha) as (t & Hf).
  destruct (skipJSONString_spec _ _ _ _ Hf) as (j & Hj & Hs). exists j. split; [done|].
  destruct Hs as [(q & a & -> & _ & ->)|(_ & Hlen & Hl)]; [|split; [lia|done]].
  apply from_len in Hf. rewrite zlen_cons, zlen_app in Hf. pose proof (zlen_nonneg a). pose proof (zlen_nonneg q). split; lia.
Qed.

Definition value_returns (n : nat) : Prop := forall i path anchor nodes, 0 <= i -> (2 * left_over i + 1 <= n)%nat ->
  returns (if decide (skipSpaces data i < zlen data) then i + 1 else i) (parseValue n data room i path anchor nodes).
Definition object_returns (n : nat) : Prop := forall i path anchor nodes, 0 <= i -> (2 * left_over i + 2 <= n)%nat ->
  returns i (parseObject n data room i path anchor nodes).
Definition array_returns (n : nat) : Prop := forall i path anchor index nodes, 0 <= i -> (2 * left_over i + 2 <= n)%nat ->
  returns i (parseArray n data room i path anchor index nodes).

Lemma returns_weaken lo lo' o : lo' <= lo -> returns lo o -> returns lo' o.
Proof. intros Hl. destruct o as [[[[? e] ?] ?]| |]; cbn; lia || done. Qed.
Lemma bind_returns lo lo' (m : GoM (list commentNode) (commentNode * Z * bool)) k nodes :
  returns lo (m nodes) -> (forall v nodes', lo <= snd (fst v) -> returns lo' (k v nodes')) -> returns lo' (bind m k nodes).
Proof. unfold bind. destruct (m nodes) as [[[[nd e] ok] nodes']| |]; cbn; [|done..]. intros He Hk. by apply Hk. Qed.

Lemma step_over (P : Prop) `{!Decision P} x : x <= (if decide P then x + 1 else x).
Proof. case_decide; lia. Qed.
Lemma value_step n : object_returns n -> array_returns n -> value_returns (S n).
Proof.
  intros Ho Ha i path anchor nodes Hi Hn. cbn [parseValue]. pose proof (skipSpaces_ge i) as Hs. set (j := skipSpaces data i) in *.
  destruct (at_ data j) as [c|] eqn:Ec.
  2:{ case_decide; [|cbn; lia]. destruct (at_is_Some data j); [lia|congruence]. }
  pose proof (at_Some_lt _ _ _ Ec) as Hj. rewrite decide_True by lia.
  case_decide; [apply (returns_weaken (j + 1)); [lia|]; apply Ho; [lia|unfold left_over in *; lia]|].
  case_decide; [apply (returns_weaken (j + 1)); [lia|]; apply Ha; [lia|unfold left_over in *; lia]|].
  case_decide.
  - destruct (skipJSONString_returns _ _ Ec) as (e & -> & He & _). cbn. lia.
  - pose proof (literal_nonneg (zdrop j data)). unfold parseLiteralEnd. case_decide; cbn; lia.
Qed.
Lemma object_step n : value_returns n -> object_returns n -> object_returns (S n).
Proof.
  intros Hv Ho i path anchor nodes Hi Hn. cbn [parseObject]. pose proof (skipSpaces_ge i) as Hs. set (j := skipSpaces data i) in *.
  destruct (at_ data j) as [c|] eqn:Ec; [|cbn; lia]. pose proof (at_Some_lt _ _ _ Ec) as Hj.
  case_decide; [cbn; lia|]. destruct (skipJSONString_returns _ _ Ec) as (e & -> & He & Hlast).
  cbn [lift bind]. unfold bind at 1. unfold lift at 1.
  destruct (slice (data ++ room) j e) as [item|] eqn:Esl.
  2:{ unfold slice in Esl. case_decide as Hc; [done|]. rewrite zlen_app in Hc. pose proof (zlen_nonneg room). split; [|apply Hlast; lia].
      apply zlen_0. lia. }
  unfold lift, bind at 1. destruct (unquote_total item) as [o Hu]. unfold bind at 1. change (unquote item) with (unquoteBytes item). rewrite Hu.
  destruct o as [key|]; [|cbn; lia].
  pose proof (skipSpaces_ge e) as Hk. set (j' := if decide _ then _ else _).
  assert (e <= j') as Hj' by (unfold j'; case_decide; lia).
  eapply bind_returns; [apply Hv; [lia|unfold left_over in *; lia]|].
  intros [[nd e'] ok] nodes' He'. cbn [fst snd] in *. pose proof (skipSpaces_ge e') as Hk'.
  assert (j' <= e') by (revert He'; case_decide; lia).
  set (j2 := if decide (at_ data _ = _) then _ else _). pose proof (step_over (at_ data (skipSpaces data e') = Some (CH ",")) (skipSpaces data e')) as Hj2. fold j2 in Hj2.
  apply (returns_weaken j2); [lia|]. apply Ho; [lia|unfold left_over in *; lia].
Qed.
Lemma array_step n : value_returns n -> array_returns n -> array_returns (S n).
Proof.
  intros Hv Ha i path anchor index nodes Hi Hn. cbn [parseArray]. pose proof (skipSpaces_ge i) as Hs. set (j := skipSpaces data i) in *.
  destruct (at_ data j) as [c|] eqn:Ec; [|cbn; lia]. pose proof (at_Some_lt _ _ _ Ec) as Hj.
  case_decide; [cbn; lia|]. eapply bind_returns; [apply Hv; [lia|unfold left_over in *; lia]|].
  intros [[nd e] ok] nodes' He. cbn [fst snd] in *. pose proof (skipSpaces_ge e) as Hk.
  assert (skipSpaces data j = j) as Hjj by by apply skipSpaces_twice. rewrite Hjj, decide_True in He by lia.
  set (j2 := if decide (at_ data _ = _) then _ else _). pose proof (step_over (at_ data (skipSpaces data e) = Some (CH ",")) (skipSpaces data e)) as Hj2. fold j2 in Hj2.
  apply (returns_weaken j2); [lia|]. apply Ha; [lia|unfold left_over in *; lia].
Qed.

Lemma parser_returns n : value_returns n /\ object_returns n /\ array_returns n.
Proof.
  induction n as [|n (Hv & Ho & Ha)].
  - split_and!; intros i; intros; unfold left_over in *; lia.
  - split_and!; [by apply value_step|by apply object_step|by apply array_step].
Qed.
Lemma collect_returns : match collectCommentNodes data room with Val _ => True | Panic => cut_off | OutOfFuel => False end.
Proof.
  unfold collectCommentNodes. case_decide as Hi; [|done]. pose proof (skipSpaces_ge 0) as Hs.
  pose proof (proj1 (parser_returns (node_fuel data)) (skipSpaces data 0) [] (skipSpaces data 0) []) as Hr.
  unfold node_fuel, left_over in Hr. unfold zlen in *. specialize (Hr ltac:(lia) ltac:(lia)). unfold node_fuel.
  by destruct (parseValue _ _ _ _ _ _ _) as [[[[? ?] ?] ?]| |].
Qed.
End Nodes.

(** ** Stripping *)

Lemma slice_range src a b seg : slice src a b = Some seg -> 0 <= a <= zlen src /\ 0 <= b <= zlen src.
Proof. intros H%slice_le. lia. Qed.
Lemma assign_at data nodes c : comment_at data c ->
  exists c', assign_comment data nodes (buildLineStarts data) c = Some c' /\ comment_at data c'.
Proof.
  intros (Hs & Hst & He). pose proof (slice_range _ _ _ _ Hs) as [H1 H2]. unfold assign_comment.
  destruct (classifyComment _ _ _) as [pl pa]. rewrite !commentPosition_walk by done. cbn [mbind option_bind].
  eexists. split; [done|]. unfold comment_at. cbn [Start End_ Kind Text]. by rewrite !position_offset.
Qed.
Lemma assign_all data nodes l : Forall (comment_at data) l ->
  exists l', mapM (assign_comment data nodes (buildLineStarts data)) l = Some l' /\ Forall (comment_at data) l'.
Proof.
  induction 1 as [|c l Hc Hl (l' & Hm & Hl')]; [by exists []|].
  destruct (assign_at data nodes c Hc) as (c' & Ha & Hc'). exists (c' :: l'). split; [|by constructor].
  cbn [mapM]. rewrite Ha. cbn [mbind option_bind]. by rewrite Hm.
Qed.

Lemma strip_quiet data room : quiet data -> stripJSONComments data room = Val (inl (data, None)).
Proof.
  intros Hq. unfold stripJSONComments. by rewrite (quiet_loop _ data _ 0 data data [] Hq (from_start data)).
Qed.

Lemma strip_total (data room : list Z) : room <> [] \/ last data <> Some 92 ->
  match stripJSONComments data room with
  | Val (inl (clean, comments)) =>
      zlen clean = zlen data /\ same data clean /\ quiet clean /\ Forall (comment_at data) (default [] comments)
  | Val (inr e) => unended data e
  | _ => False
  end.
Proof.
  intros Hroom. unfold stripJSONComments.
  pose proof (strip_loop_spec (length data) data 0 data [] [] (from_start data) ltac:(done) ltac:(done)) as Hl.
  cbn [app] in Hl. destruct (strip_loop _ _ _ _ _ _) as [[[clean l]|e]| |]; [|done..]. cbn [strip_goal obind] in *.
  destruct Hl as (rest' & new & Hclean & Hnew & [Hlen Hs _ Hq Hlast] & Hat). cbn [app] in Hclean, Hnew. subst rest' new.
  case_decide as Hz; [done|].
  unfold assignCommentPaths. pose proof (collect_returns clean room) as Hc.
  destruct (collectCommentNodes clean room) as [nodes| |]; [| |done].
  - cbn [obind]. destruct (assign_all data nodes l Hat) as (l' & -> & Hl'). by cbn.
  - exfalso. destruct Hc as [Hr Hb]. destruct Hroom as [|Hn]; [done|]. by apply Hn, Hlast.
Qed.

(** C20: Unless the source ends in a backslash and its copy has no spare room,
    stripJSONComments does not panic.  It answers with an error only where a block
    comment does not end; otherwise with as many bytes as the source has, which are the
    same document as the source, which have no comment left in them, and with comments
    that are found in the source between their offsets, at the lines and columns one
    counts by walking there. *)
Theorem strip_correct (data room room' : list Z) : room <> [] \/ last data <> Some 92 ->
  match stripJSONComments data room with
  | Val (inl (clean, comments)) =>
      zlen clean = zlen data /\ document clean = document data /\
      stripJSONComments clean room' = Val (inl (clean, None)) /\ Forall (comment_at data) (default [] comments)
  | Val (inr e) => unended data e
  | _ => False
  end.
Proof.
  intros Hroom. pose proof (strip_total data room Hroom) as Hs.
  destruct (stripJSONComments data room) as [[[clean comments]|e]| |]; try done. destruct Hs as (Hlen & Hsame & Hq & Hat).
  split; [done|]. split; [symmetry; by apply same_document|]. split; [by apply strip_quiet|done].
Qed.
(** [[1/*a*/,]], a line end and [2]#]. *)
Definition noted : list Z :=
  [CH "["; CH "1"; CH "/"; CH "*"; CH "a"; CH "*"; CH "/"; CH ","; 10; CH "2"; CH "]"; CH "#"].
Lemma strip_correct_witness : last noted <> Some 92 /\
  match stripJSONComments noted [] with
  | Val (inl (clean, comments)) =>
      zlen clean = zlen noted /\ document clean = document noted /\
      stripJSONComments clean [] = Val (inl (clean, None)) /\ Forall (comment_at noted) (default [] comments)
  | Val (inr e) => unended noted e
  | _ => False
  end.
Proof.
  assert (last noted <> Some 92) as H by done. split; [exact H|].
  exact (strip_correct noted [] [] (or_intror H)).
Defined.

(** The panic: a comment, then an object whose first key is cut off behind a backslash,
    eight bytes in all, which [append] copies into an array of exactly eight bytes. *)
Lemma strip_panics :
  stripJSONComments [CH "/"; CH "*"; CH "*"; CH "/"; 32; CH "{"; 34; 92] [] = Panic.
Proof. reflexivity. Qed.
