(* ===== verification/JsonDecode.v ===== *)
(** * Decoding into an empty interface: decode.go, decode_context.go and unmarshal.go of
    common/json/internal/contextjson

    The part of the decoder that works without reflection: a value decoded into an
    [any].  [ParseFloat] of package strconv is an argument, with the type of the
    numbers it gives; [None] is its error. *)

From S2P Require Import Prelude.
From S2P Require Import JsonScanner.
From S2P Require Import JsonIndent.
From S2P Require Import JsonString.
From S2P Require Import JsonComment.
From Stdlib Require Import Ascii.

Local Open Scope go_scope.

(** ** Data *)

(** The dynamic values of an [any]; [VNull] is nil. *)
Inductive value (F : Type) :=
  | VNull
  | VBool (b : bool)
  | VNumber (n : list Z)
  | VFloat (f : F)
  | VString (s : list Z)
  | VArray (l : list (value F))
  | VObject (m : gmap (list Z) (value F)).
Arguments VNull {F}.
Arguments VBool {F} b.
Arguments VNumber {F} n.
Arguments VFloat {F} f.
Arguments VString {F} s.
Arguments VArray {F} l.
Arguments VObject {F} m.

Inductive decodePathSegment := decodePathKey (key : list Z) | decodePathIndex (index : Z).
#[export] Instance decodePathSegment_eq_dec : EqDecision decodePathSegment.
Proof. solve_decision. Defined.

(** The UnmarshalTypeError of convertNumber, in the contextError that saveError puts
    around it where the context is not empty. *)
Record numberError := mkNumberError { literal_ : list Z; errOffset : Z; errContext : list decodePathSegment }.

Record decodeState := mkDecodeState {
  data : list Z;
  off : Z;
  opcode : Z;
  scan : scanner;
  savedError : option numberError;
  useNumber : bool;
  context : list decodePathSegment;
  comments : option (list Comment) }.

Section Decode.
Context {F : Type} (ParseFloat : list Z -> option F).
Local Notation M := (GoM decodeState).

(** ** The state *)

Definition readIndex : M Z := gets (fun d => off d - 1).
Definition init (bs : list Z) (d : decodeState) : decodeState :=
  mkDecodeState bs 0 (opcode d) (scan d) None (useNumber d) [] (comments d).
Definition set_off (n : Z) : M unit := modify (fun d =>
  mkDecodeState (data d) n (opcode d) (scan d) (savedError d) (useNumber d) (context d) (comments d)).
Definition set_opcode (op : Z) : M unit := modify (fun d =>
  mkDecodeState (data d) (off d) op (scan d) (savedError d) (useNumber d) (context d) (comments d)).
Definition set_context (c : list decodePathSegment) : M unit := modify (fun d =>
  mkDecodeState (data d) (off d) (opcode d) (scan d) (savedError d) (useNumber d) c (comments d)).
(** A call of the scanner. *)
Definition scanning {A} (m : GoM scanner A) : M A := fun d =>
  match m (scan d) with
  | Val (a, s) => Val (a, mkDecodeState (data d) (off d) (opcode d) s (savedError d) (useNumber d) (context d) (comments d))
  | Panic => Panic
  | OutOfFuel => OutOfFuel
  end.

Definition pushContextKey (key : list Z) : M unit := c <- gets context ;; set_context (c ++ [decodePathKey key]).
Definition pushContextIndex (index : Z) : M unit := c <- gets context ;; set_context (c ++ [decodePathIndex index]).
Definition popContext (length : Z) : M unit := c <- gets context ;; set_context (ztake length c).
Definition saveError (e : list decodePathSegment -> numberError) : M unit := modify (fun d =>
  match savedError d with
  | Some _ => d
  | None => mkDecodeState (data d) (off d) (opcode d) (scan d) (Some (e (context d))) (useNumber d) (context d) (comments d)
  end).

(** ** Scanning *)

Definition scanNext : M unit :=
  d <- gets id ;;
  match at_ (data d) (off d) with
  | Some c => op <- scanning (run_step c) ;; set_opcode op ;; set_off (off d + 1)
  | None => op <- scanning eof ;; set_opcode op ;; set_off (zlen (data d) + 1)
  end.
(** The loop over the bytes from index [i] on. *)
Fixpoint scanWhile_loop (op : Z) (bs : list Z) (i : Z) : M unit :=
  match bs with
  | [] => d <- gets id ;; set_off (zlen (data d) + 1) ;; op <- scanning eof ;; set_opcode op
  | c :: bs =>
      newOp <- scanning (run_step c) ;;
      if decide (newOp <> op) then set_opcode newOp ;; set_off (i + 1) else scanWhile_loop op bs (i + 1)
  end.
Definition scanWhile (op : Z) : M unit := d <- gets id ;; scanWhile_loop op (zdrop (off d) (data d)) (off d).

(** skip: beyond the end of the data the index panics. *)
Fixpoint skip_loop (bs : list Z) (i depth : Z) : M unit :=
  match bs with
  | [] => panic
  | c :: bs =>
      op <- scanning (run_step c) ;;
      d <- gets id ;;
      if decide (zlen (parseState (scan d)) < depth) then set_off (i + 1) ;; set_opcode op
      else skip_loop bs (i + 1) depth
  end.
Definition skip : M unit :=
  d <- gets id ;; skip_loop (zdrop (off d) (data d)) (off d) (zlen (parseState (scan d))).

(** The bytes of a string after the opening quote, and of a number after its first. *)
Fixpoint string_rest (bs : list Z) : Z :=
  match bs with
  | [] => 0
  | c :: r =>
      if decide (c = 92) then match r with [] => 2 | _ :: r => 2 + string_rest r end
      else if decide (c = 34) then 1 else 1 + string_rest r
  end.
Definition is_number_byte (c : Z) : bool :=
  is_digit c || bool_decide (c = CH "." \/ c = CH "e" \/ c = CH "E" \/ c = CH "+" \/ c = CH "-").
Fixpoint number_rest (bs : list Z) : Z :=
  match bs with c :: r => if is_number_byte c then 1 + number_rest r else 0 | [] => 0 end.
(** [c] is [data[i-1]]. *)
Definition literal_rest (c : Z) (rest : list Z) : Z :=
  if decide (c = 34) then string_rest rest
  else if is_digit c || bool_decide (c = CH "-") then number_rest rest
  else if decide (c = CH "t") then 3
  else if decide (c = CH "f") then 4
  else if decide (c = CH "n") then 3
  else 0.
Definition rescanLiteral : M unit :=
  d <- gets id ;;
  c <- lift (at_ (data d) (off d - 1)) ;;
  let i := off d + literal_rest c (zdrop (off d) (data d)) in
  match at_ (data d) i with
  | Some b => op <- scanning (stateEndValue b) ;; set_opcode op
  | None => set_opcode scanEnd
  end ;;
  set_off (i + 1).

(** ** Values *)

(** The value, and whether there was an error, whose offset is given. *)
Definition convertNumber (s : list Z) : M (value F * bool) :=
  d <- gets id ;;
  if useNumber d then ret (VNumber s, false)
  else match ParseFloat s with Some f => ret (VFloat f, false) | None => ret (VNull, true) end.

Definition unquote_or_panic (item : list Z) : M (list Z) := fun d =>
  match unquote item with Val (Some s) => Val (s, d) | Val None => Panic | Panic => Panic | OutOfFuel => OutOfFuel end.

Definition literalInterface : M (value F) :=
  start <- readIndex ;;
  rescanLiteral ;;
  e <- readIndex ;;
  d <- gets id ;;
  item <- lift (slice (data d) start e) ;;
  c <- lift (at_ item 0) ;;
  if decide (c = CH "n") then ret VNull
  else if decide (c = CH "t" \/ c = CH "f") then ret (VBool (bool_decide (c = CH "t")))
  else if decide (c = 34) then s <- unquote_or_panic item ;; ret (VString s)
  else if decide (c <> CH "-" /\ (c < CH "0" \/ c > CH "9")) then panic
  else
    n <- convertNumber item ;;
    (if snd n then saveError (mkNumberError item (off d)) else ret tt) ;;
    ret (fst n).

(** valueInterface, and the loops of arrayInterface and objectInterface over the values
    they have; [n] bounds the calls. *)
Definition fails {A} : M A := fun _ => OutOfFuel.
Fixpoint valueInterface (n : nat) : M (value F) :=
  match n with
  | O => fails
  | S n =>
      op <- gets opcode ;;
      if decide (op = scanBeginArray) then
        c <- gets context ;; l <- arrayInterface n (zlen c) [] ;; scanNext ;; ret (VArray l)
      else if decide (op = scanBeginObject) then
        c <- gets context ;; m <- objectInterface n (zlen c) ∅ ;; scanNext ;; ret (VObject m)
      else if decide (op = scanBeginLiteral) then literalInterface
      else panic
  end
with arrayInterface (n : nat) (contextLength : Z) (v : list (value F)) : M (list (value F)) :=
  match n with
  | O => fails
  | S n =>
      scanWhile scanSkipSpace ;;
      op <- gets opcode ;;
      if decide (op = scanEndArray) then popContext contextLength ;; ret v
      else
        pushContextIndex (zlen v) ;;
        x <- valueInterface n ;;
        popContext contextLength ;;
        op <- gets opcode ;;
        (if decide (op = scanSkipSpace) then scanWhile scanSkipSpace else ret tt) ;;
        op <- gets opcode ;;
        if decide (op = scanEndArray) then popContext contextLength ;; ret (v ++ [x])
        else if decide (op <> scanArrayValue) then panic
        else arrayInterface n contextLength (v ++ [x])
  end
with objectInterface (n : nat) (contextLength : Z) (m : gmap (list Z) (value F)) : M (gmap (list Z) (value F)) :=
  match n with
  | O => fails
  | S n =>
      scanWhile scanSkipSpace ;;
      op <- gets opcode ;;
      if decide (op = scanEndObject) then popContext contextLength ;; ret m
      else if decide (op <> scanBeginLiteral) then panic
      else
        start <- readIndex ;;
        rescanLiteral ;;
        e <- readIndex ;;
        d <- gets id ;;
        item <- lift (slice (data d) start e) ;;
        key <- unquote_or_panic item ;;
        pushContextKey key ;;
        op <- gets opcode ;;
        (if decide (op = scanSkipSpace) then scanWhile scanSkipSpace else ret tt) ;;
        op <- gets opcode ;;
        (if decide (op <> scanObjectKey) then panic else ret tt) ;;
        scanWhile scanSkipSpace ;;
        x <- valueInterface n ;;
        popContext contextLength ;;
        op <- gets opcode ;;
        (if decide (op = scanSkipSpace) then scanWhile scanSkipSpace else ret tt) ;;
        op <- gets opcode ;;
        if decide (op = scanEndObject) then popContext contextLength ;; ret (<[key := x]> m)
        else if decide (op <> scanObjectValue) then panic
        else objectInterface n contextLength (<[key := x]> m)
  end.
(** The value of a quoted literal or null; [None] is unquotedValue. *)
Definition valueQuoted : M (option (value F)) :=
  op <- gets opcode ;;
  if decide (op = scanBeginArray \/ op = scanBeginObject) then skip ;; scanNext ;; ret None
  else if decide (op = scanBeginLiteral) then
    v <- literalInterface ;;
    match v with VNull | VString _ => ret (Some v) | _ => ret None end
  else panic.
Definition value_fuel (bs : list Z) : nat := 2 * length bs + 2.

(** unmarshal into a pointer to a nil interface.  [d.value] calls arrayInterface and
    objectInterface for it; the cases of literalStore for an interface give what
    literalInterface gives. *)
Definition unmarshal : M (value F * option numberError) :=
  scanning (modify reset) ;;
  scanWhile scanSkipSpace ;;
  d <- gets id ;;
  v <- valueInterface (value_fuel (data d)) ;;
  e <- gets savedError ;;
  ret (v, e).

(** UnmarshalContext into such a pointer.  [room] is behind the copy that
    stripJSONComments makes.  A [decodeState] of its own has a zero scanner. *)
Definition zeroScanner : scanner := mkScanner sError false [] None 0 None 0.
Definition UnmarshalContext (room bs : list Z)
    : outcome (value F * option numberError + SyntaxError) :=
  let! r := stripJSONComments bs room in
  match r with
  | inr e => Val (inr e)
  | inl (bs, comments) =>
      let! (e, s) := checkValid bs zeroScanner in
      match e with
      | Some e => Val (inr e)
      | None =>
          let d := init bs (mkDecodeState [] 0 0 s None false [] comments) in
          let! (r, _) := unmarshal d in Val (inl r)
      end
  end.
End Decode.
