(* ===== verification/JsonValue.v ===== *)
(** * The value of a document: a reference for the decoder

    Recursive descent with the readers of JsonGrammar.v, without a scanner, opcodes or
    offsets into the data: the value of a document and the numbers in it that cannot be
    converted, each with the end of its literal and the keys and indices it is at. *)

From S2P Require Import Prelude.
From S2P Require Import JsonScanner.
From S2P Require Import JsonGrammar.
From S2P Require Import JsonString.
From S2P Require Import JsonDecode.
From Stdlib Require Import Ascii.

Section Value.
Context {F : Type} (ParseFloat : list Z -> option F) (useNumber : bool).
(** The length of the document. *)
Context (len : Z).

(** The value of a literal; [None] for a number that cannot be converted. *)
Definition number_value (k : list Z) : option (value F) :=
  if useNumber then Some (VNumber k) else VFloat <$> ParseFloat k.
Definition literal_value (k : list Z) : option (value F) :=
  match k with
  | [] => None
  | c :: _ =>
      if decide (c = CH "n") then Some VNull
      else if decide (c = CH "t") then Some (VBool true)
      else if decide (c = CH "f") then Some (VBool false)
      else if decide (c = 34) then match unquote k with Val (Some s) => Some (VString s) | _ => None end
      else number_value k
  end.

Notation answer A := (option (A * list numberError * list Z)).

Fixpoint value_at (n : nat) (path : list decodePathSegment) (bs : list Z) : answer (value F) :=
  match n with
  | O => None
  | S n =>
      bs ← JsonGrammar.skip bs;
      match bs with
      | [] => None
      | c :: r =>
          if decide (c = CH "{") then '(m, es, r) ← members_at n path ∅ r; Some (VObject m, es, r)
          else if decide (c = CH "[") then '(l, es, r) ← elements_at n path [] r; Some (VArray l, es, r)
          else
            '(k, r) ← literal bs;
            Some (match literal_value k with
                  | Some v => (v, [], r)
                  | None => (VNull, [mkNumberError k (len - zlen r + 1) path], r)
                  end)
      end
  end
with elements_at (n : nat) (path : list decodePathSegment) (acc : list (value F)) (bs : list Z) : answer (list (value F)) :=
  match n with
  | O => None
  | S n =>
      bs ← JsonGrammar.skip bs;
      match bs with
      | [] => None
      | c :: r =>
          if decide (c = CH "]") then Some (acc, [], r)
          else
            '(v, es, r) ← value_at n (path ++ [decodePathIndex (zlen acc)]) bs;
            r ← JsonGrammar.skip r;
            match r with
            | [] => None
            | c :: r =>
                if decide (c = CH "]") then Some (acc ++ [v], es, r)
                else if decide (c = CH ",") then
                  '(l, es', r) ← elements_at n path (acc ++ [v]) r; Some (l, es ++ es', r)
                else None
            end
      end
  end
with members_at (n : nat) (path : list decodePathSegment) (acc : gmap (list Z) (value F)) (bs : list Z)
    : answer (gmap (list Z) (value F)) :=
  match n with
  | O => None
  | S n =>
      bs ← JsonGrammar.skip bs;
      match bs with
      | [] => None
      | c :: r =>
          if decide (c = CH "}") then Some (acc, [], r)
          else
            '(k, r) ← (eat 34 ~~ read_string) bs;
            key ← (match unquote k with Val key => key | _ => None end);
            r ← JsonGrammar.skip r;
            '(_, r) ← eat (CH ":") r;
            '(v, es, r) ← value_at n (path ++ [decodePathKey key]) r;
            r ← JsonGrammar.skip r;
            match r with
            | [] => None
            | c :: r =>
                if decide (c = CH "}") then Some (<[key := v]> acc, es, r)
                else if decide (c = CH ",") then
                  '(m, es', r) ← members_at n path (<[key := v]> acc) r; Some (m, es ++ es', r)
                else None
            end
      end
  end.
End Value.

(** The value of a whole document, and its first number that cannot be converted. *)
Definition document_value {F} (ParseFloat : list Z -> option F) (useNumber : bool) (bs : list Z)
    : option (value F * option numberError) :=
  _ ← document bs;
  '(v, es, _) ← value_at ParseFloat useNumber (zlen bs) (value_fuel bs) [] bs;
  Some (v, head es).
