(* ===== verification/JsonDecodeTheorems.v ===== *)
(** * The decoder's steps: scanning over blanks, literals and marks *)

From S2P Require Import Prelude.
From S2P Require Import JsonScanner.
From S2P Require Import JsonGrammar.
From S2P Require Import JsonScannerTheorems.
From S2P Require Import JsonScannerProps.
From S2P Require Import JsonIndent.
From S2P Require Import JsonIndentTheorems.
From S2P Require Import JsonString.
From S2P Require Import JsonStringTheorems.
From S2P Require Import JsonStringProps.
From S2P Require Import JsonLex.
From S2P Require Import JsonComment.
From S2P Require Import JsonCommentTheorems.
From S2P Require Import JsonCommentProps.
From S2P Require Import JsonDecode.
From S2P Require Import JsonValue.
From Stdlib Require Import Ascii.

Local Open Scope go_scope.

(** ** Steps of the scanner *)

Definition opened (c : Z) : Z := if decide (c = CH "{") then scanBeginObject else scanBeginArray.
Lemma open_step c e st ps w p : bracket_of c e st ps w -> zlen p < maxNestingDepth ->
  run_step c (cfg sBeginValue p) = Val (opened c, cfg st (ps :: p)).
Proof.
  intros Hb Hp. assert (run_step c (cfg sBeginValue p) =
    (if decide (zlen (ps :: p) <= maxNestingDepth) then ret (opened c) else error c "exceeded max depth") (cfg st (ps :: p))) as ->
    by by destruct Hb.
  rewrite zlen_cons, decide_True by lia. done.
Qed.
Definition closed_op (ps : Z) : Z := if decide (ps = parseObjectKey) then scanEndObject else scanEndArray.
Definition comma_op (ps : Z) : Z := if decide (ps = parseObjectKey) then scanObjectValue else scanArrayValue.
Lemma close_step c e st ps w p : bracket_of c e st ps w ->
  run_step e (cfg sEndValue (item_mark ps :: p)) = Val (closed_op ps, fin p).
Proof. intros Hb. destruct Hb; rewrite (end_value_step _ _ _ []) by done; apply pop_run. Qed.
Lemma comma_step c e st ps w p : bracket_of c e st ps w ->
  run_step (CH ",") (cfg sEndValue (item_mark ps :: p)) = Val (comma_op ps, cfg st (ps :: p)).
Proof. intros Hb. by destruct Hb; rewrite (end_value_step _ _ _ []) by done. Qed.
Lemma empty_step c e st ps w p : bracket_of c e st ps w -> run_step e (cfg st (ps :: p)) = Val (closed_op ps, fin p).
Proof. intros Hb. destruct Hb; by destruct p. Qed.
Lemma colon_step p : run_step (CH ":") (cfg sEndValue (parseObjectKey :: p)) = Val (scanObjectKey, cfg sBeginValue (parseObjectValue :: p)).
Proof. by rewrite (end_value_step _ _ _ []) by done. Qed.
Lemma quote_step_here p : run_step 34 (cfg sBeginStringOrEmpty p) = Val (scanBeginLiteral, cfg sInString p).
Proof. done. Qed.
Lemma element_step p c r : one_gap (c :: r) = NoGap -> c <> CH "]" ->
  run_step c (cfg sBeginValueOrEmpty p) = run_step c (cfg sBeginValue p).
Proof.
  intros Hg Hc. step. unfold stateBeginValueOrEmpty. rewrite (skipping_other _ r) by done.
  rewrite decide_False by done. unfold stateBeginValue. rewrite !(skipping_other _ r) by done.
  by repeat (case_decide; [done|]).
Qed.
(** The first byte of a literal. *)
Lemma literal_step p c r : one_gap (c :: r) = NoGap -> c <> CH "{" -> c <> CH "[" ->
  c = 34 \/ c = CH "t" \/ c = CH "f" \/ c = CH "n" \/ c = CH "-" \/ is_digit c = true ->
  exists st, run_step c (cfg sBeginValue p) = Val (scanBeginLiteral, cfg st p).
Proof.
  intros Hg H1 H2 Hc. step. unfold stateBeginValue. rewrite (skipping_other _ r), !decide_False by done.
  repeat (case_decide; [by eexists|]). exfalso. unfold is_digit in Hc. rewrite bool_decide_eq_true in Hc. lia.
Qed.

(** stateEndValue, wherever the scanner is: what it does after a value. *)
Lemma end_value_any c st p : stateEndValue c (cfg st p) = run_step c (fin p).
Proof.
  destruct p as [|ps p]; [done|]. rewrite fin_cons. unfold run_step. rewrite bind_gets.
  cbn [JsonScanner.step cfg]. unfold stateEndValue. rewrite !bind_gets. cbn [parseState cfg].
  destruct (isSpace c); [done|]. unfold stateBeginComment. destruct (decide (c = CH "#")); [done|].
  destruct (decide (c = CH "/")); [done|]. rewrite !bind_ret. cbv beta. rewrite !(decide_False (P := -1 >= 0)) by lia.
  repeat (case_decide; [try done|]); try done; by destruct p.
Qed.

Lemma space_step_between c st p : isSpace c = true -> between st false p -> run_step c (cfg st p) = Val (scanSkipSpace, cfg st p).
Proof. intros Hs Hb. inversion Hb; subst; step; unfold stateBeginValue, stateBeginValueOrEmpty, stateBeginString, stateBeginStringOrEmpty, stateEndValue, skipping; rewrite ?bind_gets; cbn [parseState cfg]; by rewrite Hs. Qed.

(** Two scanners in the same state take the same step. *)
Lemma step_same c x y op y' : same_scanner x y -> run_step c y = Val (op, y') -> exists x', run_step c x = Val (op, x') /\ same_scanner x' y'.
Proof.
  intros Hs Hr. pose proof (agnostic_run_step c x y Hs) as Ha. rewrite Hr in Ha.
  destruct (run_step c x) as [[op' x']| |]; [|done..]. destruct Ha as [-> Ha]. eauto.
Qed.
Lemma end_value_same c x st p op y' : same_scanner x (cfg st p) -> run_step c (fin p) = Val (op, y') ->
  exists x', stateEndValue c x = Val (op, x') /\ same_scanner x' y'.
Proof.
  intros Hs Hr. pose proof (agnostic_endValue c x _ Hs) as Ha. rewrite end_value_any, Hr in Ha.
  destruct (stateEndValue c x) as [[op' x']| |]; [|done..]. destruct Ha as [-> Ha]. eauto.
Qed.

(** ** Literals *)

Lemma body_closed b : body b -> closed_string (b ++ [34]).
Proof.
  induction 1 as [|c b ? ? ? Hb IH|e b He Hb IH|h1 h2 h3 h4 b Hh Hb IH]; cbn [app].
  - constructor.
  - by constructor.
  - by constructor.
  - rewrite !Forall_cons in Hh. destruct Hh as (H1 & H2 & H3 & H4 & _).
    assert (forall h, is_hex h = true -> h <> 34 /\ h <> 92) as Hhex.
    { intros h. unfold is_hex. intros ?%bool_decide_eq_true. lia. }
    constructor. apply Hhex in H1 as [], H2 as [], H3 as [], H4 as []. by do 4 (apply closed_byte; [done..|]).
Qed.
Lemma closed_rest q a : closed_string q -> string_rest (q ++ a) = zlen q.
Proof.
  induction 1 as [|e q Hq IH|c q H34 H92 Hq IH]; cbn [app string_rest].
  - done.
  - rewrite decide_True, IH, !zlen_cons by done. lia.
  - rewrite !decide_False, IH, !zlen_cons by done. lia.
Qed.

Definition ends_number (r : list Z) : Prop := match r with [] => True | c :: _ => is_number_byte c = false end.
Lemma number_rest_app k r : Forall (fun c => is_number_byte c = true) k -> ends_number r -> number_rest (k ++ r) = zlen k.
Proof.
  intros Hk Hr. induction Hk as [|c k Hc Hk IH]; cbn [app number_rest].
  - destruct r as [|c r]; [done|]. cbn in *. by rewrite Hr.
  - rewrite Hc, IH, zlen_cons. lia.
Qed.

(** A reader of bytes of numbers. *)
Class Numeric (p : reader_of) : Prop :=
  numeric : forall a k r, p a = Some (k, r) -> a = k ++ r /\ Forall (fun c => is_number_byte c = true) k.
#[export] Instance numeric_seq p q : Numeric p -> Numeric q -> Numeric (p ~~ q).
Proof.
  intros Hp Hq a k r (k1 & r1 & k2 & [-> H1]%Hp & [-> H2]%Hq & ->)%seq_read_inv.
  split; [by rewrite app_assoc|by apply Forall_app].
Qed.
#[export] Instance numeric_eat c : is_number_byte c = true -> Numeric (eat c).
Proof. intros Hc a k r [-> ->]%eat_read. split; [done|by constructor]. Qed.
#[export] Instance numeric_one_of cs : Forall (fun c => is_number_byte c = true) cs -> Numeric (one_of cs).
Proof.
  intros Hc [|b a] k r; cbn [one_of]; [done|]. case_decide as Hb; [|done]. intros [= <- <-]. split; [done|].
  rewrite Forall_forall in Hc. by constructor; [apply Hc|].
Qed.
#[export] Instance numeric_optional cs p : Numeric p -> Numeric (optional cs p).
Proof.
  intros Hp [|b a] k r; cbn [optional]; [by intros [= <- <-]|]. case_decide; [apply Hp|]. by intros [= <- <-].
Qed.
Lemma digit_number c : is_digit c = true -> is_number_byte c = true.
Proof. unfold is_number_byte. by intros ->. Qed.
Lemma digits_numeric a k r : digits a = (k, r) -> a = k ++ r /\ Forall (fun c => is_number_byte c = true) k.
Proof.
  revert k r. induction a as [|c a IH]; intros k r; cbn [digits]; [by intros [= <- <-]|].
  destruct (is_digit c) eqn:E; [|by intros [= <- <-]]. destruct (digits a) as [k1 r1]. intros [= <- <-].
  destruct (IH k1 r1 eq_refl) as [-> Hk]. split; [done|]. constructor; [by apply digit_number|done].
Qed.
#[export] Instance numeric_digits1 : Numeric digits1.
Proof.
  intros a k r. unfold digits1. destruct (digits a) as [k1 r1] eqn:E. apply digits_numeric in E as [-> Hk].
  destruct k1; [done|]. by intros [= <- <-].
Qed.
#[export] Instance numeric_integer : Numeric integer.
Proof.
  intros [|c a] k r; cbn [integer]; [done|]. case_decide as Hc; [|apply numeric_digits1]. intros [= <- <-]. subst c.
  split; [done|by constructor].
Qed.
#[export] Instance numeric_number : Numeric number.
Proof.
  unfold number, fraction, exponent.
  repeat first [apply numeric_seq|apply numeric_optional|apply numeric_eat; done|apply numeric_one_of; by repeat constructor|apply _].
Qed.
Lemma word_read w a k r : eat_word w a = Some (k, r) -> k = w /\ a = w ++ r.
Proof.
  revert a k r. induction w as [|c w IH]; intros a k r; [by intros [= <- <-]|].
  intros (k1 & r1 & k2 & [-> ->]%eat_read & [-> ->]%IH & ->)%seq_read_inv. done.
Qed.

Lemma quiet_plain k r : Forall (fun c => c <> 34) k -> quiet (k ++ r) -> quiet r.
Proof. induction 1 as [|c k Hc Hk IH]; [done|]. intros Hq. apply IH. by apply (quiet_behind c). Qed.
Lemma number_not_quote k : Forall (fun c => is_number_byte c = true) k -> Forall (fun c => c <> 34) k.
Proof. intros Hk. eapply Forall_impl; [exact Hk|]. cbn. intros c Hc ->. by vm_compute in Hc. Qed.

(** What rescanLiteral needs to know of a literal [c :: k']. *)
Definition literal_found (c : Z) (rest k r : list Z) : Prop :=
  exists k', k = c :: k' /\ rest = k' ++ r /\ literal_rest c rest = zlen k' /\ quiet r /\
    (c = 34 \/ c = CH "t" \/ c = CH "f" \/ c = CH "n" \/ c = CH "-" \/ is_digit c = true).
Lemma literal_word c w rest k r : eat_word (c :: w) (c :: rest) = Some (k, r) -> Forall (fun c => c <> 34) (c :: w) ->
  literal_rest c rest = zlen w -> c = CH "t" \/ c = CH "f" \/ c = CH "n" -> quiet (c :: rest) -> literal_found c rest k r.
Proof.
  intros [-> E]%word_read Hw Hl Hc Hq. injection E as ->. exists w. split; [done|]. split; [done|]. split; [done|].
  split; [|tauto]. by apply (quiet_plain (c :: w)).
Qed.
Lemma number_head a k r : number a = Some (k, r) -> exists c k', k = c :: k' /\ (c = CH "-" \/ is_digit c = true).
Proof.
  unfold number. intros (k1 & r1 & k2 & H1 & (k3 & r3 & k4 & H3 & _ & ->)%seq_read_inv & ->)%seq_read_inv.
  assert (k1 = [CH "-"] \/ k1 = []) as [->| ->].
  { destruct a as [|b a]; cbn [optional] in H1; [injection H1 as <- <-; by right|]. case_decide.
    - apply eat_read in H1 as [-> _]. by left.
    - injection H1 as <- <-. by right. }
  - eexists _, _. split; [done|]. by left.
  - destruct r1 as [|b r1]; cbn [integer] in H3; [done|]. case_decide as Hb.
    + injection H3 as <- <-. subst b. eexists _, _. split; [done|]. by right.
    + unfold digits1 in H3. cbn [digits] in H3. destruct (is_digit b) eqn:E; [|done]. destruct (digits r1).
      injection H3 as <- <-. eexists _, _. split; [done|]. by right.
Qed.
Lemma literal_finds c rest k r : literal (c :: rest) = Some (k, r) -> quiet (c :: rest) -> ends_number r -> literal_found c rest k r.
Proof.
  intros Hl Hq Hr. unfold literal in Hl. case_decide as H34.
  { subst c. apply seq_read_inv in Hl as (k1 & r1 & k2 & [-> [= <-]]%eat_read & (b & -> & -> & Hb)%string_body & ->).
    pose proof (body_closed b Hb) as Hc. exists (b ++ [34]). split; [done|]. split; [done|].
    split; [unfold literal_rest; rewrite decide_True by done; by apply closed_rest|].
    split; [by eapply quiet_behind_string|by left]. }
  case_decide; [subst c; eapply literal_word; [done|by repeat constructor|done|tauto|done]|].
  case_decide; [subst c; eapply literal_word; [done|by repeat constructor|done|tauto|done]|].
  case_decide; [subst c; eapply literal_word; [done|by repeat constructor|done|tauto|done]|].
  destruct (number_head _ _ _ Hl) as (c' & k' & -> & Hc). destruct (numeric_number _ _ _ Hl) as [E Hk].
  injection E as <- ->. exists k'. split; [done|]. split; [done|]. split; [|split; [|tauto]].
  - unfold literal_rest. rewrite decide_False by done.
    assert (is_digit c || bool_decide (c = CH "-") = true) as ->.
    { destruct Hc as [->|Hc]; [done|by rewrite Hc]. }
    apply number_rest_app; [by inversion Hk|done].
  - apply (quiet_plain (c :: k')); [by apply number_not_quote|done].
Qed.
