(* ===== verification/JsonDecodeProps.v ===== *)
(** * The decoder gives the value of the document *)

From S2P Require Import Prelude.
From S2P Require Import JsonScanner.
From S2P Require Import JsonGrammar.
From S2P Require Import JsonScannerTheorems.
From S2P Require Import JsonScannerProps.
From S2P Require Import JsonIndent.
From S2P Require Import JsonIndentTheorems.
From S2P Require Import JsonString.
From S2P Require Import JsonStringTheorems.
From S2P Require Import JsonStringProps.
From S2P Require Import JsonLex.
From S2P Require Import JsonComment.
From S2P Require Import JsonCommentTheorems.
From S2P Require Import JsonCommentProps.
From S2P Require Import JsonDecode.
From S2P Require Import JsonValue.
From S2P Require Import JsonDecodeTheorems.
From Stdlib Require Import Ascii.

Local Open Scope go_scope.

(** ** Blanks in a source without comments *)

Lemma skip_here c r : one_gap (c :: r) = NoGap -> JsonGrammar.skip (c :: r) = Some (c :: r).
Proof. unfold JsonGrammar.skip. cbn [length skip_fuel]. by intros ->. Qed.
Lemma skip_blanks n bs c r : quiet bs -> skip_fuel n bs = Some (c :: r) ->
  exists sp, bs = sp ++ c :: r /\ Forall (fun b => isSpace b = true) sp /\ quiet (c :: r) /\ one_gap (c :: r) = NoGap.
Proof.
  revert bs. induction n as [|n IH]; intros bs Hq Hs.
  { assert (bs = c :: r) as -> by (cbn in Hs; destruct (one_gap bs); congruence). exists [].
    split; [done|]. split; [constructor|]. split; [done|]. by eapply skip_fuel_no_gap. }
  cbn [skip_fuel] in Hs. destruct (one_gap bs) as [| |r'] eqn:E; [|done|].
  { injection Hs as ->. exists []. split; [done|]. split; [constructor|done]. }
  destruct bs as [|b bs]; [done|]. cbn [one_gap] in E. destruct (isSpace b) eqn:Eb.
  { injection E as <-. assert (quiet bs) as Hq'.
    { apply (quiet_behind b); [|done]. intros ->. by vm_compute in Eb. }
    destruct (IH bs Hq' Hs) as (sp & -> & Hsp & ? & ?). exists (b :: sp). split; [done|]. split; [by constructor|done]. }
  exfalso. inversion Hq as [|? ? H34 Hh Hc|q a' Hst Hq'|t Hu]; subst; [|done..].
  rewrite decide_False in E by done. case_decide as Hc'; [|done]. specialize (Hc Hc'). destruct bs as [|d a].
  - injection E as <-. by destruct n.
  - destruct Hc as [H1 H2]. by rewrite !decide_False in E by done.
Qed.

Lemma ends_at r c r' : JsonGrammar.skip r = Some (c :: r') -> is_number_byte c = false -> ends_number r.
Proof.
  destruct r as [|b r]; [done|]. cbn [ends_number]. intros Hs Hc. destruct (is_number_byte b) eqn:E; [|done].
  assert (one_gap (b :: r) = NoGap) as Hg.
  { unfold is_number_byte, is_digit in E. apply no_gap_other; [apply isSpace_false|..];
      apply orb_true_iff in E as [E%bool_decide_eq_true|E%bool_decide_eq_true]; lia. }
  rewrite (skip_here _ _ Hg) in Hs. injection Hs as <- <-. congruence.
Qed.
Lemma ends_at_end r : JsonGrammar.skip r = Some [] -> ends_number r.
Proof.
  destruct r as [|b r]; [done|]. cbn [ends_number]. intros Hs. destruct (is_number_byte b) eqn:E; [|done].
  assert (one_gap (b :: r) = NoGap) as Hg.
  { unfold is_number_byte, is_digit in E. apply no_gap_other; [apply isSpace_false|..];
      apply orb_true_iff in E as [E%bool_decide_eq_true|E%bool_decide_eq_true]; lia. }
  by rewrite (skip_here _ _ Hg) in Hs.
Qed.

(** ** The decoder between tokens *)

Section Decoder.
Context {F : Type} (ParseFloat : list Z -> option F) (src : list Z) (un : bool) (cm : option (list Comment)).
Local Notation dec off op sc e cx := (mkDecodeState src off op sc e un cx cm).

(** The decoder has read the first byte of [r], which the scanner read from [y]. *)
Definition reads_next (off op : Z) (sc : scanner) (r : list Z) (y : scanner) : Prop :=
  match r with
  | [] => True
  | c :: _ => from src (off - 1) r /\ exists y', run_step c y = Val (op, y') /\ same_scanner sc y'
  end.

Lemma scanning_run off op sc e cx {A} (m : GoM scanner A) a sc' : m sc = Val (a, sc') ->
  scanning m (dec off op sc e cx) = Val (a, dec off op sc' e cx).
Proof. unfold scanning. cbn [scan]. by intros ->. Qed.

Lemma scanWhile_loop_blanks sp off i op sc e cx st q c r op' y' : Forall (fun b => isSpace b = true) sp ->
  between st false q -> same_scanner sc (cfg st q) -> run_step c (cfg st q) = Val (op', y') -> op' <> scanSkipSpace ->
  exists sc', scanWhile_loop scanSkipSpace (sp ++ c :: r) i (dec off op sc e cx) =
    Val (tt, dec (i + zlen sp + 1) op' sc' e cx) /\ same_scanner sc' y'.
Proof.
  intros Hsp Hb Hs Hr Ho. revert i sc Hs. induction Hsp as [|b sp Hbl Hsp IH]; intros i sc Hs; cbn [app scanWhile_loop].
  - destruct (step_same _ _ _ _ _ Hs Hr) as (x' & Hx & Hsx). erewrite bind_run; [|by apply scanning_run].
    rewrite decide_True by done. exists x'. split; [|done]. rewrite zlen_nil, Z.add_0_r. done.
  - destruct (step_same _ _ _ _ _ Hs (space_step_between _ _ _ Hbl Hb)) as (x' & Hx & Hsx).
    erewrite bind_run; [|by apply scanning_run]. rewrite decide_False by tauto.
    destruct (IH (i + 1) x' Hsx) as (sc' & -> & Hs'). exists sc'. split; [|done]. rewrite zlen_cons. do 2 f_equal. f_equal. lia.
Qed.
Lemma scanWhile_blanks off op sc e cx bs st q c r op' y' : from src off bs -> quiet bs -> JsonGrammar.skip bs = Some (c :: r) ->
  between st false q -> same_scanner sc (cfg st q) -> run_step c (cfg st q) = Val (op', y') -> op' <> scanSkipSpace ->
  exists off' sc', scanWhile scanSkipSpace (dec off op sc e cx) = Val (tt, dec off' op' sc' e cx) /\
    from src (off' - 1) (c :: r) /\ same_scanner sc' y' /\ quiet (c :: r).
Proof.
  intros Hf Hq Hs Hb Hsc Hr Ho. destruct (skip_blanks _ _ _ _ Hq Hs) as (sp & -> & Hsp & Hq' & _).
  unfold scanWhile. rewrite bind_gets. cbn [id data JsonDecode.off]. rewrite (proj2 Hf).
  destruct (scanWhile_loop_blanks sp off off op sc e cx st q c r op' y' Hsp Hb Hsc Hr Ho) as (sc' & -> & Hs').
  exists (off + zlen sp + 1), sc'. split; [done|]. split; [|done].
  replace (off + zlen sp + 1 - 1) with (off + zlen sp) by lia. apply from_app in Hf as (pre & -> & ->).
  rewrite app_assoc, <- zlen_app. apply from_pre.
Qed.

(** After a value or a key: the next byte, or the first one behind blanks. *)
Lemma look_ahead {B} (k : GoM decodeState B) off op sc e cx r a q c r' op' y' :
  reads_next off op sc r (cfg sEndValue (a :: q)) -> quiet r -> JsonGrammar.skip r = Some (c :: r') ->
  run_step c (cfg sEndValue (a :: q)) = Val (op', y') -> op' <> scanSkipSpace ->
  exists off' sc', (o <- gets opcode ;; (if decide (o = scanSkipSpace) then scanWhile scanSkipSpace else ret tt) ;; k) (dec off op sc e cx)
    = k (dec off' op' sc' e cx) /\ from src (off' - 1) (c :: r') /\ same_scanner sc' y' /\ quiet (c :: r').
Proof.
  intros Hn Hq Hs Hr Ho. destruct (skip_blanks _ _ _ _ Hq Hs) as (sp & -> & Hsp & Hq' & Hg).
  rewrite bind_gets. cbn [opcode]. destruct Hsp as [|b sp Hbl Hsp]; cbn [app] in *.
  - destruct Hn as (Hf & y & Hy & Hsc). rewrite Hr in Hy. injection Hy as <- <-. rewrite decide_False by done.
    exists off, sc. rewrite bind_ret. done.
  - destruct Hn as (Hf & y & Hy & Hsc). rewrite (space_step_between _ _ _ Hbl (between_end a q)) in Hy. injection Hy as <- <-.
    rewrite decide_True by done. apply from_next in Hf. replace (off - 1 + 1) with off in Hf by lia.
    assert (JsonGrammar.skip (sp ++ c :: r') = Some (c :: r')) as Hs'.
    { unfold JsonGrammar.skip in Hs. cbn [length skip_fuel one_gap] in Hs. by rewrite Hbl in Hs. }
    assert (quiet (sp ++ c :: r')) as Hqs by (apply (quiet_behind b); [intros ->; by vm_compute in Hbl|done]).
    destruct (scanWhile_blanks off scanSkipSpace sc e cx _ _ _ _ _ _ _ Hf Hqs Hs' (between_end a q) Hsc Hr Ho) as (off' & sc' & Hw & ? & ? & ?).
    exists off', sc'. erewrite bind_run by exact Hw. done.
Qed.

(** ** Literals *)

Lemma from_left i r : from src i r -> i = zlen src - zlen r.
Proof. intros (pre & -> & ->)%from_app. rewrite zlen_app. lia. Qed.

Lemma fin_steps b p : exists op y, run_step b (fin p) = Val (op, y).
Proof.
  assert (sane (fin p)) as Hs by (unfold fin; case_decide; by apply sane_at).
  pose proof (run_step_well b _ Hs) as Hw. destruct (run_step b (fin p)) as [[op y]| |]; [eauto|done..].
Qed.
Lemma rescan_spec off op sc e cx c rest k r st p : from src (off - 1) (c :: rest) -> literal_found c rest k r ->
  same_scanner sc (cfg st p) -> exists off' op' sc', rescanLiteral (dec off op sc e cx) = Val (tt, dec off' op' sc' e cx) /\
    slice src (off - 1) (off' - 1) = Some k /\ reads_next off' op' sc' r (fin p) /\ quiet r /\ off' = zlen src - zlen r + 1.
Proof.
  intros Hf (k' & -> & -> & Hl & Hq & _) Hs. pose proof (from_at _ _ _ _ Hf) as Hat.
  pose proof (from_slice src (off - 1) (c :: k') r Hf) as Hsl. pose proof (from_more src (off - 1) (c :: k') r Hf) as Hr.
  pose proof (from_next _ _ _ _ Hf) as Hn. rewrite zlen_cons in Hsl, Hr.
  replace (off - 1 + (1 + zlen k')) with (off + zlen k') in Hsl, Hr by lia. replace (off - 1 + 1) with off in Hn by lia.
  unfold rescanLiteral. rewrite bind_gets. cbn [id data JsonDecode.off]. rewrite Hat.
  erewrite bind_run; [|reflexivity]. cbv beta zeta. rewrite (proj2 Hn), Hl. pose proof (from_left _ _ Hr) as Hlen.
  destruct r as [|b r].
  - rewrite (from_at_end _ _ Hr). eexists _, _, _. split; [reflexivity|].
    replace (off + zlen k' + 1 - 1) with (off + zlen k') by lia. split; [done|]. split; [done|]. split; [done|]. lia.
  - rewrite (from_at _ _ _ _ Hr). destruct (fin_steps b p) as (op1 & y1 & Hy).
    destruct (end_value_same b sc st p op1 y1 Hs Hy) as (x' & Hx & Hsx).
    exists (off + zlen k' + 1), op1, x'. split; [by unfold bind; rewrite (scanning_run _ _ _ _ _ _ _ _ Hx)|].
    replace (off + zlen k' + 1 - 1) with (off + zlen k') by lia. split; [done|]. split; [|split; [done|lia]].
    cbn [reads_next]. replace (off + zlen k' + 1 - 1) with (off + zlen k') by lia. eauto.
Qed.

(** The error the decoder keeps. *)
Definition first (e : option numberError) (es : list numberError) : option numberError :=
  match e with Some _ => e | None => head es end.
Lemma first_app e es es' : first (first e es) es' = first e (es ++ es').
Proof. destruct e as [|]; [done|]. by destruct es. Qed.
Lemma first_nil e : first e [] = e.
Proof. by destruct e. Qed.
(** The value of a literal [k] that [r] follows, and its error. *)
Definition literal_answer (k r : list Z) (cx : list decodePathSegment) : value F * list numberError :=
  match literal_value ParseFloat un k with
  | Some v => (v, [])
  | None => (VNull, [mkNumberError k (zlen src - zlen r + 1) cx])
  end.
Lemma quote_unquotes c rest k r : literal (c :: rest) = Some (k, r) -> c = 34 -> exists s, unquote k = Val (Some s).
Proof.
  intros Hl ->. unfold literal in Hl. rewrite decide_True in Hl by done.
  apply seq_read_inv in Hl as (k1 & r1 & k2 & [-> _]%eat_read & (b & -> & _ & Hb)%string_body & ->). by apply unquoted_literal.
Qed.
Lemma literalInterface_spec off op sc e cx c rest k r st p : from src (off - 1) (c :: rest) -> quiet (c :: rest) ->
  literal (c :: rest) = Some (k, r) -> ends_number r -> same_scanner sc (cfg st p) ->
  exists off' op' sc', literalInterface ParseFloat (dec off op sc e cx) =
      Val ((literal_answer k r cx).1, dec off' op' sc' (first e (literal_answer k r cx).2) cx) /\
    reads_next off' op' sc' r (fin p) /\ quiet r.
Proof.
  intros Hf Hq Hl He Hs. pose proof (literal_finds _ _ _ _ Hl Hq He) as Hfound.
  destruct (rescan_spec off op sc e cx c rest k r st p Hf Hfound Hs) as (off' & op' & sc' & Hr & Hsl & Hn & Hq' & Hoff).
  destruct Hfound as (k' & -> & _ & _ & _ & Hc). exists off', op', sc'. split; [|done].
  unfold literalInterface, readIndex. rewrite bind_gets. cbn [JsonDecode.off]. erewrite bind_run by exact Hr.
  rewrite !bind_gets. cbn [id data JsonDecode.off]. rewrite Hsl. erewrite bind_run by reflexivity.
  erewrite bind_run by reflexivity. unfold literal_answer, literal_value, number_value.
  destruct (decide (c = CH "n")) as [->|Hcn]; [by rewrite first_nil|].
  destruct (decide (c = CH "t")) as [->|Hct]; [by rewrite first_nil|].
  destruct (decide (c = CH "f")) as [->|Hcf]; [by rewrite first_nil|].
  rewrite (decide_False (P := c = CH "t" \/ c = CH "f")) by tauto.
  destruct (decide (c = 34)) as [->|H34].
  { destruct (quote_unquotes _ _ _ _ Hl eq_refl) as (s & Hu). rewrite Hu. erewrite bind_run; [|by unfold unquote_or_panic; rewrite Hu].
    cbn [fst snd]. by rewrite first_nil. }
  rewrite decide_False by (unfold is_digit in Hc; rewrite bool_decide_eq_true in Hc; lia).
  unfold convertNumber. rewrite bind_bind, bind_gets. cbn [id useNumber]. destruct un; [by rewrite bind_ret, first_nil|].
  destruct (ParseFloat (c :: k')); [by rewrite bind_ret, first_nil|]. rewrite bind_ret. cbn [fst snd fmap option_fmap option_map].
  unfold saveError. rewrite bind_modify. cbn [savedError]. subst off'. by destruct e.
Qed.

(** ** Values *)

Definition value_ok (n : nat) : Prop := forall p c rest k r off op sc y e cx,
  parse n Value (maxNestingDepth - zlen p) (c :: rest) = Some (k, r) -> one_gap (c :: rest) = NoGap -> ends_number r ->
  from src (off - 1) (c :: rest) -> quiet (c :: rest) ->
  run_step c (cfg sBeginValue p) = Val (op, y) -> same_scanner sc y ->
  exists v es off' op' sc', value_at ParseFloat un (zlen src) n cx (c :: rest) = Some (v, es, r) /\
    valueInterface ParseFloat n (dec off op sc e cx) = Val (v, dec off' op' sc' (first e es) cx) /\
    reads_next off' op' sc' r (fin p) /\ quiet r.
(** The contents of a bracket, behind its opening one or a comma. *)
Definition contents_ok {A} (w : what) (st : state) (ps : Z) (n : nat) (reference : list decodePathSegment -> A -> list Z -> option (A * list numberError * list Z))
    (m : Z -> A -> GoM decodeState A) : Prop := forall p bs k r off op sc e cx acc,
  parse n w (maxNestingDepth - zlen (ps :: p)) bs = Some (k, r) -> from src off bs -> quiet bs ->
  same_scanner sc (cfg st (ps :: p)) ->
  exists l es off' op' sc', reference cx acc bs = Some (l, es, r) /\
    m (zlen cx) acc (dec off op sc e cx) = Val (l, dec off' op' sc' (first e es) cx) /\
    from src off' r /\ same_scanner sc' (fin p) /\ quiet r.
Definition elements_ok (n : nat) : Prop := contents_ok Elements sBeginValueOrEmpty parseArrayValue n
  (elements_at ParseFloat un (zlen src) n) (arrayInterface ParseFloat n).
Definition members_ok (n : nat) : Prop := contents_ok Members sBeginStringOrEmpty parseObjectKey n
  (members_at ParseFloat un (zlen src) n) (objectInterface ParseFloat n).

Lemma literal_head c rest k r : literal (c :: rest) = Some (k, r) ->
  c = 34 \/ c = CH "t" \/ c = CH "f" \/ c = CH "n" \/ c = CH "-" \/ is_digit c = true.
Proof.
  unfold literal. repeat (case_decide; [tauto|]). intros Hn. destruct (number_head _ _ _ Hn) as (c' & k' & -> & Hc).
  destruct (numeric_number _ _ _ Hn) as [E _]. injection E as <- _. tauto.
Qed.
Lemma value_inv n d c rest k r : parse (S n) Value d (c :: rest) = Some (k, r) -> one_gap (c :: rest) = NoGap ->
  (0 < d /\ exists w k', (c = CH "{" /\ w = Members \/ c = CH "[" /\ w = Elements) /\ parse n w (d - 1) rest = Some (k', r)) \/
  c <> CH "{" /\ c <> CH "[" /\ literal (c :: rest) = Some (k, r).
Proof.
  intros Hp Hg. cbn [parse] in Hp. apply seq_read_inv in Hp as (k1 & r1 & k2 & Hs & Hb & ->).
  unfold skipped in Hs. rewrite (skip_here _ _ Hg) in Hs. injection Hs as <- <-. cbn [value_body app] in *.
  assert (forall w, bracket d c (parse n w (d - 1)) (c :: rest) = Some (k2, r) -> 0 < d /\ exists k', parse n w (d - 1) rest = Some (k', r)) as Hbr.
  { intros w. unfold bracket. destruct (decide (d <= 0)); [done|].
    intros (k1 & r1 & k3 & [-> [= <-]]%eat_read & Hi & ->)%seq_read_inv. split; [lia|eauto]. }
  case_decide as Ho; [left; apply Hbr in Hb as (Hd & k' & Hk'); eauto 10|].
  case_decide as Ha; [left; apply Hbr in Hb as (Hd & k' & Hk'); eauto 10|]. by right.
Qed.
(** The opcode at the first byte of a value. *)
Lemma value_begins n p c rest k r : parse n Value (maxNestingDepth - zlen p) (c :: rest) = Some (k, r) -> one_gap (c :: rest) = NoGap ->
  exists op y, run_step c (cfg sBeginValue p) = Val (op, y) /\ (op = scanBeginObject \/ op = scanBeginArray \/ op = scanBeginLiteral).
Proof.
  destruct n as [|n]; [done|]. intros Hp Hg. destruct (value_inv _ _ _ _ _ _ Hp Hg) as [(Hd & w & k' & Hc & _)|(H1 & H2 & Hl)].
  - destruct Hc as [[-> _]|[-> _]]; eexists _, _.
    + split; [apply (open_step _ _ _ _ _ _ bracket_object); lia|by left].
    + split; [apply (open_step _ _ _ _ _ _ bracket_array); lia|by right; left].
  - destruct (literal_step p c rest Hg H1 H2 (literal_head _ _ _ _ Hl)) as (st & Hst). eauto 10.
Qed.
Lemma scanNext_spec off op sc e cx r p : from src off r -> same_scanner sc (fin p) ->
  exists off' op' sc', scanNext (dec off op sc e cx) = Val (tt, dec off' op' sc' e cx) /\ reads_next off' op' sc' r (fin p).
Proof.
  intros Hf Hs. unfold scanNext. rewrite bind_gets. cbn [id data JsonDecode.off]. destruct r as [|c r].
  - rewrite (from_at_end _ _ Hf). assert (sane (fin p)) as Hsa by (unfold fin; case_decide; by apply sane_at).
    pose proof (eof_well _ Hsa) as Hw. pose proof (agnostic_eof sc _ Hs) as Ha.
    destruct (eof (fin p)) as [[op1 y]| |]; [|done..]. destruct (eof sc) as [[op2 x]| |] eqn:Ex; [|done..].
    eexists _, _, _. split; [|done]. unfold bind. by rewrite (scanning_run _ _ _ _ _ _ _ _ Ex).
  - rewrite (from_at _ _ _ _ Hf). destruct (fin_steps c p) as (op1 & y1 & Hy). destruct (step_same _ _ _ _ _ Hs Hy) as (x' & Hx & Hsx).
    exists (off + 1), op1, x'. split; [by unfold bind; rewrite (scanning_run _ _ _ _ _ _ _ _ Hx)|].
    cbn [reads_next]. replace (off + 1 - 1) with off by lia. eauto.
Qed.

(** One call of the reference and one of the decoder. *)
Local Ltac one_call :=
  cbn [value_at elements_at members_at valueInterface arrayInterface objectInterface];
  fold (members_at ParseFloat un (zlen src)) (elements_at ParseFloat un (zlen src)) (value_at ParseFloat un (zlen src))
    (valueInterface ParseFloat) (arrayInterface ParseFloat) (objectInterface ParseFloat).
Lemma value_ok_step n : elements_ok n -> members_ok n -> value_ok (S n).
Proof.
  intros He Hm p c rest k r off op sc y e cx Hp Hg Hend Hf Hq Hr Hs.
  assert (quiet rest \/ c = 34) as Hqr.
  { destruct (decide (c = 34)); [by right|left; by apply (quiet_behind c)]. }
  assert (from src off rest) as Hf' by (apply from_next in Hf; by replace (off - 1 + 1) with off in Hf by lia).
  one_call. rewrite (skip_here _ _ Hg). cbn [mbind option_bind]. rewrite bind_gets. cbn [opcode].
  destruct (value_inv _ _ _ _ _ _ Hp Hg) as [(Hd & w & k' & [[-> ->]|[-> ->]] & Hk)|(H1 & H2 & Hl)].
  - rewrite (open_step _ _ _ _ _ _ bracket_object) in Hr by lia. injection Hr as <- <-.
    destruct Hqr as [Hqr|]; [|done].
    replace (maxNestingDepth - zlen p - 1) with (maxNestingDepth - zlen (parseObjectKey :: p)) in Hk by (rewrite zlen_cons; lia).
    destruct (Hm p rest k' r off scanBeginObject sc e cx ∅ Hk Hf' Hqr Hs) as (l & es & off' & op' & sc' & Hat & Hrun & Hfr & Hsc & Hqr').
    destruct (scanNext_spec off' op' sc' (first e es) cx r p Hfr Hsc) as (off2 & op2 & sc2 & Hnx & Hrn).
    change (opened (CH "{")) with scanBeginObject.
    rewrite (decide_True (P := CH "{" = CH "{")), Hat by done. rewrite decide_False, decide_True by done.
    exists (VObject l), es, off2, op2, sc2. split; [done|]. split; [|done].
    rewrite bind_gets. cbn [context]. erewrite bind_run by exact Hrun. by erewrite bind_run by exact Hnx.
  - rewrite (open_step _ _ _ _ _ _ bracket_array) in Hr by lia. injection Hr as <- <-.
    destruct Hqr as [Hqr|]; [|done].
    replace (maxNestingDepth - zlen p - 1) with (maxNestingDepth - zlen (parseArrayValue :: p)) in Hk by (rewrite zlen_cons; lia).
    destruct (He p rest k' r off scanBeginArray sc e cx [] Hk Hf' Hqr Hs) as (l & es & off' & op' & sc' & Hat & Hrun & Hfr & Hsc & Hqr').
    destruct (scanNext_spec off' op' sc' (first e es) cx r p Hfr Hsc) as (off2 & op2 & sc2 & Hnx & Hrn).
    change (opened (CH "[")) with scanBeginArray.
    rewrite (decide_False (P := CH "[" = CH "{")), decide_True, Hat by done. rewrite decide_True by done.
    exists (VArray l), es, off2, op2, sc2. split; [done|]. split; [|done].
    rewrite bind_gets. cbn [context]. erewrite bind_run by exact Hrun. by erewrite bind_run by exact Hnx.
  - destruct (literal_step p c rest Hg H1 H2 (literal_head _ _ _ _ Hl)) as (st & Hst). rewrite Hst in Hr. injection Hr as <- <-.
    destruct (literalInterface_spec off scanBeginLiteral sc e cx c rest k r st p Hf Hq Hl Hend Hs) as (off' & op' & sc' & Hrun & Hn & Hq').
    rewrite !decide_False by done. rewrite Hl. rewrite decide_True by done. cbn [mbind option_bind].
    exists (literal_answer k r cx).1, (literal_answer k r cx).2, off', op', sc'. split; [|done].
    unfold literal_answer. by destruct (literal_value _ _ _).
Qed.

(** What follows an item: the end of the bracket, or a comma. *)
Lemma close_inv c e st ps w (q : reader_of) r k r' : bracket_of c e st ps w -> (skipped ~~ close e q) r = Some (k, r') ->
  ends_number r /\ (JsonGrammar.skip r = Some (e :: r') \/
    exists r1 k', JsonGrammar.skip r = Some (CH "," :: r1) /\ q r1 = Some (k', r')).
Proof.
  intros Hb (k1 & r1 & k2 & Hs & Hc & _)%seq_read_inv. unfold skipped in Hs.
  destruct (JsonGrammar.skip r) as [r2|] eqn:E; [|done]. injection Hs as <- <-. destruct r2 as [|b r2]; [done|]. cbn [close] in Hc.
  destruct (decide (b = e)) as [->|Hbe].
  - apply eat_read in Hc as [_ [= <-]]. split; [|by left]. eapply ends_at; [exact E|]. by destruct Hb.
  - apply seq_read_inv in Hc as (k3 & r3 & k4 & [-> [= -> <-]]%eat_read & Hq & _). split; [|eauto].
    by eapply ends_at; [exact E|].
Qed.
Definition items_rest {A} (ps : Z) (n : Z) (more : A -> GoM decodeState A) (acc : A) : GoM decodeState A :=
  popContext n ;;
  op <- gets opcode ;;
  (if decide (op = scanSkipSpace) then scanWhile scanSkipSpace else ret tt) ;;
  op <- gets opcode ;;
  if decide (op = closed_op ps) then popContext n ;; ret acc
  else if decide (op <> comma_op ps) then panic
  else more acc.
Lemma pop_run_context n off op sc e cx x : n = zlen cx -> popContext n (dec off op sc e (cx ++ x)) = Val (tt, dec off op sc e cx).
Proof. intros ->. unfold popContext. rewrite bind_gets. cbn [context]. by rewrite ztake_app. Qed.
Lemma pop_run_here n off op sc e cx : n = zlen cx -> popContext n (dec off op sc e cx) = Val (tt, dec off op sc e cx).
Proof. intros Hn. pose proof (pop_run_context n off op sc e cx [] Hn) as Hp. by rewrite app_nil_r in Hp. Qed.
Lemma items_rest_ok {A} c0 e0 st ps w n reference (m : Z -> A -> GoM decodeState A) p r k r' off op sc e cx x acc :
  bracket_of c0 e0 st ps w -> contents_ok w st ps n reference m ->
  (skipped ~~ close e0 (parse n w (maxNestingDepth - zlen (ps :: p)))) r = Some (k, r') ->
  reads_next off op sc r (fin (item_mark ps :: p)) -> quiet r ->
  exists l es off' op' sc', items_rest ps (zlen cx) (m (zlen cx)) acc (dec off op sc e (cx ++ x)) = Val (l, dec off' op' sc' (first e es) cx) /\
    from src off' r' /\ same_scanner sc' (fin p) /\ quiet r' /\
    (JsonGrammar.skip r = Some (e0 :: r') /\ l = acc /\ es = [] \/
     exists r1, JsonGrammar.skip r = Some (CH "," :: r1) /\ reference cx acc r1 = Some (l, es, r')).
Proof.
  intros Hb Hm Hc Hn Hq. rewrite fin_cons in Hn. unfold items_rest.
  erewrite bind_run by (by apply pop_run_context). apply (close_inv _ _ _ _ _ _ _ _ _ Hb) in Hc as [_ [Hs|(r1 & k' & Hs & Hp)]].
  - destruct (look_ahead (o <- gets opcode ;; if decide (o = closed_op ps) then popContext (zlen cx) ;; ret acc
        else if decide (o <> comma_op ps) then panic else m (zlen cx) acc) off op sc e cx r _ _ _ _ _ _ Hn Hq Hs (close_step _ _ _ _ _ _ Hb))
      as (off' & sc' & -> & Hf & Hsc & Hq'); [by destruct Hb|].
    exists acc, [], (off'), (closed_op ps), sc'. rewrite bind_gets. cbn [opcode]. rewrite decide_True by done.
    erewrite bind_run by (by apply pop_run_here). rewrite first_nil. split; [done|].
    apply from_next in Hf. replace (off' - 1 + 1) with off' in Hf by lia. split; [done|]. split; [done|].
    split; [apply (quiet_behind e0); [by destruct Hb|done]|]. by left.
  - destruct (look_ahead (o <- gets opcode ;; if decide (o = closed_op ps) then popContext (zlen cx) ;; ret acc
        else if decide (o <> comma_op ps) then panic else m (zlen cx) acc) off op sc e cx r _ _ _ _ _ _ Hn Hq Hs (comma_step _ _ _ _ _ _ Hb))
      as (off' & sc' & -> & Hf & Hsc & Hq'); [by destruct Hb|].
    rewrite bind_gets. cbn [opcode]. rewrite decide_False by (by destruct Hb). rewrite decide_False by tauto.
    apply from_next in Hf. replace (off' - 1 + 1) with off' in Hf by lia. apply quiet_behind in Hq'; [|done].
    destruct (Hm p r1 k' r' off' (comma_op ps) sc' e cx acc Hp Hf Hq' Hsc) as (l & es & off2 & op2 & sc2 & Href & Hrun & ? & ? & ?).
    exists l, es, off2, op2, sc2. split; [done|]. split; [done|]. split; [done|]. split; [done|]. right. eauto.
Qed.

Lemma elements_ok_step n : value_ok n -> elements_ok n -> elements_ok (S n).
Proof.
  intros Hv He p bs k r off op sc e cx acc Hp Hf Hq Hs. cbn [parse] in Hp.
  apply seq_read_inv in Hp as (k1 & r1 & k2 & Hsk & Hi & _). unfold skipped in Hsk.
  destruct (JsonGrammar.skip bs) as [r2|] eqn:E; [|done]. injection Hsk as <- <-. destruct r2 as [|b r2]; [done|].
  assert (one_gap (b :: r2) = NoGap) as Hg by (by eapply skip_fuel_no_gap). cbn [or_empty] in Hi. one_call. rewrite E. cbn [mbind option_bind].
  destruct (decide (b = CH "]")) as [->|Hb].
  { apply eat_read in Hi as [-> [= <-]].
    destruct (scanWhile_blanks off op sc e cx bs _ _ _ _ _ _ Hf Hq E (between_value_or_empty _) Hs (empty_step _ _ _ _ _ p bracket_array))
      as (off' & sc' & Hw & Hf' & Hsc & Hq'); [done|].
    exists acc, [], off', scanEndArray, sc'. split; [done|]. erewrite bind_run by exact Hw. rewrite bind_gets. cbn [opcode].
    change (closed_op parseArrayValue) with scanEndArray. rewrite decide_True by done.
    erewrite bind_run by (by apply pop_run_here). rewrite first_nil. apply from_next in Hf'. replace (off' - 1 + 1) with off' in Hf' by lia.
    split; [done|]. split; [done|]. split; [done|]. by apply (quiet_behind (CH "]")). }
  apply seq_read_inv in Hi as (k3 & r3 & k4 & Hval & Hcl & _).
  destruct (value_begins _ _ _ _ _ _ Hval Hg) as (op1 & y1 & Hstep & Hop).
  pose proof (element_step (parseArrayValue :: p) b r2 Hg Hb) as Hel. rewrite Hstep in Hel.
  destruct (scanWhile_blanks off op sc e cx bs _ _ _ _ _ _ Hf Hq E (between_value_or_empty _) Hs Hel)
    as (off' & sc' & Hw & Hf' & Hsc & Hq'); [by destruct Hop as [->|[->| ->]]|].
  destruct (close_inv _ _ _ _ _ _ _ _ _ bracket_array Hcl) as [Hend _].
  destruct (Hv (parseArrayValue :: p) b r2 k3 r3 off' op1 sc' y1 e (cx ++ [decodePathIndex (zlen acc)]) Hval Hg Hend Hf' Hq' Hstep Hsc)
    as (v & es & off2 & op2 & sc2 & Hat & Hrun & Hn & Hq2).
  destruct (items_rest_ok _ _ _ _ _ _ _ _ p r3 k4 r off2 op2 sc2 (first e es) cx [decodePathIndex (zlen acc)] (acc ++ [v]) bracket_array He Hcl Hn Hq2)
    as (l & es' & off3 & op3 & sc3 & Hrest & Hf3 & Hsc3 & Hq3 & Hcases).
  exists l, (es ++ es'), off3, op3, sc3. rewrite Hat. cbn [mbind option_bind]. split.
  { destruct Hcases as [(Hs3 & -> & ->)|(r4 & Hs3 & Href)]; rewrite Hs3; cbn [mbind option_bind].
    - by rewrite decide_True, app_nil_r.
    - rewrite decide_False, decide_True by done. by rewrite Href. }
  split; [|done]. erewrite bind_run by exact Hw. rewrite bind_gets. cbn [opcode].
  rewrite decide_False by (by destruct Hop as [->|[->| ->]]). unfold pushContextIndex.
  rewrite bind_bind, bind_gets. cbn [context]. rewrite <- first_app, <- Hrest. unfold set_context. rewrite bind_modify.
  cbn [context data JsonDecode.off opcode JsonDecode.scan savedError useNumber JsonDecode.comments]. by erewrite bind_run by exact Hrun.
Qed.

(** A key, from its quote to the first byte of its value. *)
Lemma value_skip n d r k r' : parse n Value d r = Some (k, r') -> exists c r1,
  JsonGrammar.skip r = Some (c :: r1) /\ one_gap (c :: r1) = NoGap /\ parse n Value d (c :: r1) = Some (k, r') /\
  forall cx, value_at ParseFloat un (zlen src) n cx r = value_at ParseFloat un (zlen src) n cx (c :: r1).
Proof.
  destruct n as [|n]; [done|]. intros Hp. cbn [parse] in Hp. apply seq_read_inv in Hp as (k1 & r1 & k2 & Hs & Hb & ->).
  unfold skipped in Hs. destruct (JsonGrammar.skip r) as [r2|] eqn:E; [|done]. injection Hs as <- <-. destruct r2 as [|c r2]; [done|].
  assert (one_gap (c :: r2) = NoGap) as Hg by (by eapply skip_fuel_no_gap). exists c, r2. split; [done|]. split; [done|]. split.
  - cbn [parse]. apply (seq_run _ _ _ [] (c :: r2)); [|done]. unfold skipped. by rewrite (skip_here _ _ Hg).
  - intros cx. cbn [value_at]. by rewrite E, (skip_here _ _ Hg).
Qed.
Definition key_part {B} (value : list Z -> GoM decodeState B) : GoM decodeState B :=
  start <- readIndex ;;
  rescanLiteral ;;
  e <- readIndex ;;
  d <- gets id ;;
  item <- lift (slice (data d) start e) ;;
  key <- unquote_or_panic item ;;
  pushContextKey key ;;
  op <- gets opcode ;;
  (if decide (op = scanSkipSpace) then scanWhile scanSkipSpace else ret tt) ;;
  op <- gets opcode ;;
  (if decide (op <> scanObjectKey) then panic else ret tt) ;;
  scanWhile scanSkipSpace ;;
  value key.
Lemma key_part_ok {B} (value : list Z -> GoM decodeState B) off op sc e cx p rest ks r1 r2 c r3 op1 y1 :
  from src (off - 1) (34 :: rest) -> quiet (34 :: rest) -> read_string rest = Some (ks, r1) ->
  same_scanner sc (cfg sInString (parseObjectKey :: p)) -> JsonGrammar.skip r1 = Some (CH ":" :: r2) ->
  JsonGrammar.skip r2 = Some (c :: r3) -> run_step c (cfg sBeginValue (parseObjectValue :: p)) = Val (op1, y1) -> op1 <> scanSkipSpace ->
  exists key off' sc', unquote (34 :: ks) = Val (Some key) /\
    key_part value (dec off op sc e cx) = value key (dec off' op1 sc' e (cx ++ [decodePathKey key])) /\
    from src (off' - 1) (c :: r3) /\ same_scanner sc' y1 /\ quiet (c :: r3).
Proof.
  intros Hf Hq Hstr Hs Hs1 Hs2 Hstep Hop.
  assert (literal (34 :: rest) = Some (34 :: ks, r1)) as Hl.
  { unfold literal. rewrite decide_True by done. by apply (seq_run (eat 34) _ (34 :: rest) [34] rest ks r1). }
  assert (ends_number r1) as Hend by (by eapply ends_at; [exact Hs1|]).
  destruct (quote_unquotes _ _ _ _ Hl eq_refl) as (key & Hu).
  destruct (rescan_spec off op sc e cx _ _ _ _ _ _ Hf (literal_finds _ _ _ _ Hl Hq Hend) Hs) as (off1 & op2 & sc1 & Hr & Hsl & Hn & Hq1 & _).
  rewrite fin_cons in Hn. exists key. unfold key_part, readIndex. rewrite bind_gets. cbn [JsonDecode.off].
  erewrite bind_run by exact Hr. rewrite !bind_gets. cbn [id data JsonDecode.off]. rewrite Hsl.
  erewrite bind_run by reflexivity. erewrite bind_run by (unfold unquote_or_panic; by rewrite Hu).
  unfold pushContextKey. rewrite bind_bind, bind_gets. cbn [context]. unfold set_context. rewrite bind_modify.
  cbn [context data JsonDecode.off opcode JsonDecode.scan savedError useNumber JsonDecode.comments].
  match goal with |- context [bind (gets opcode) (fun op => bind _ (fun _ => ?k))] =>
    destruct (look_ahead k off1 op2 sc1 e (cx ++ [decodePathKey key]) r1 _ _ _ _ _ _ Hn Hq1 Hs1 (colon_step p)) as (off2 & sc2 & -> & Hf2 & Hsc2 & Hq2); [done|] end.
  rewrite bind_gets. cbn [opcode]. rewrite decide_False by tauto. rewrite bind_ret.
  apply from_next in Hf2. replace (off2 - 1 + 1) with off2 in Hf2 by lia. apply quiet_behind in Hq2; [|done].
  destruct (scanWhile_blanks off2 scanObjectKey sc2 e (cx ++ [decodePathKey key]) _ _ _ _ _ _ _ Hf2 Hq2 Hs2 (between_value _) Hsc2 Hstep Hop)
    as (off3 & sc3 & Hw & Hf3 & Hsc3 & Hq3).
  exists off3, sc3. split; [done|]. split; [|done]. by erewrite bind_run by exact Hw.
Qed.

Lemma members_ok_step n : value_ok n -> members_ok n -> members_ok (S n).
Proof.
  intros Hv Hm p bs k r off op sc e cx acc Hp Hf Hq Hs. cbn [parse] in Hp.
  apply seq_read_inv in Hp as (k1 & r1 & k2 & Hsk & Hi & _). unfold skipped in Hsk.
  destruct (JsonGrammar.skip bs) as [r2|] eqn:E; [|done]. injection Hsk as <- <-. destruct r2 as [|b r2]; [done|].
  cbn [or_empty] in Hi. one_call. rewrite E. cbn [mbind option_bind].
  destruct (decide (b = CH "}")) as [->|Hb].
  { apply eat_read in Hi as [-> [= <-]].
    destruct (scanWhile_blanks off op sc e cx bs _ _ _ _ _ _ Hf Hq E (between_string_or_empty _) Hs (empty_step _ _ _ _ _ p bracket_object))
      as (off' & sc' & Hw & Hf' & Hsc & Hq'); [done|].
    exists acc, [], off', scanEndObject, sc'. split; [done|]. erewrite bind_run by exact Hw. rewrite bind_gets. cbn [opcode].
    change (closed_op parseObjectKey) with scanEndObject. rewrite decide_True by done.
    erewrite bind_run by (by apply pop_run_here). rewrite first_nil. apply from_next in Hf'. replace (off' - 1 + 1) with off' in Hf' by lia.
    split; [done|]. split; [done|]. split; [done|]. by apply (quiet_behind (CH "}")). }
  apply seq_read_inv in Hi as (k3 & r3 & k4 & (k5 & r5 & k6 & [-> [= -> ->]]%eat_read & (ks & ra & k7 & Hstr & (k8 & rb & k9 & Hska & (k10 & rc & kv & [-> ->]%eat_read
    & Hval & ->)%seq_read_inv & ->)%seq_read_inv & ->)%seq_read_inv & ->)%seq_read_inv & Hcl & _).
  unfold skipped in Hska. destruct (JsonGrammar.skip ra) as [rb'|] eqn:Ea; [|done]. injection Hska as <- ->.
  replace (maxNestingDepth - zlen (parseObjectKey :: p)) with (maxNestingDepth - zlen (parseObjectValue :: p)) in Hval by (by rewrite !zlen_cons).
  destruct (value_skip _ _ _ _ _ Hval) as (c & rd & Ec & Hg & Hval' & Hskip).
  destruct (value_begins _ _ _ _ _ _ Hval' Hg) as (op1 & y1 & Hstep & Hop).
  destruct (scanWhile_blanks off op sc e cx bs _ _ _ _ _ _ Hf Hq E (between_string_or_empty _) Hs (quote_step_here _))
    as (off' & sc' & Hw & Hf' & Hsc & Hq'); [done|].
  destruct (close_inv _ _ _ _ _ _ _ _ _ bracket_object Hcl) as [Hend _].
  destruct (key_part_ok (fun key => x <- valueInterface ParseFloat n ;;
      items_rest parseObjectKey (zlen cx) (objectInterface ParseFloat n (zlen cx)) (<[key := x]> acc))
      off' scanBeginLiteral sc' e cx p r5 ks ra rc c rd op1 y1 Hf' Hq' Hstr Hsc Ea Ec Hstep) as (key & off2 & sc2 & Hu & Hkey & Hf2 & Hsc2 & Hq2);
    [by destruct Hop as [->|[->| ->]]|].
  destruct (Hv (parseObjectValue :: p) c rd kv r3 off2 op1 sc2 y1 e (cx ++ [decodePathKey key]) Hval' Hg Hend Hf2 Hq2 Hstep Hsc2)
    as (v & es & off3 & op3 & sc3 & Hat & Hrun & Hn & Hq3).
  destruct (items_rest_ok _ _ _ _ _ _ _ _ p r3 k4 r off3 op3 sc3 (first e es) cx [decodePathKey key] (<[key := v]> acc) bracket_object Hm Hcl Hn Hq3)
    as (l & es' & off4 & op4 & sc4 & Hrest & Hf4 & Hsc4 & Hq4 & Hcases).
  exists l, (es ++ es'), off4, op4, sc4. split.
  { rewrite (seq_run (eat 34) read_string (34 :: r5) [34] r5 ks ra) by done. cbn [mbind option_bind app]. rewrite Hu. cbn [mbind option_bind].
    rewrite Ea. cbn [mbind option_bind eat]. rewrite decide_True by done. cbn [mbind option_bind]. rewrite Hskip, Hat. cbn [mbind option_bind].
    destruct Hcases as [(Hs3 & -> & ->)|(r4 & Hs3 & Href)]; rewrite Hs3; cbn [mbind option_bind].
    - by rewrite decide_True, app_nil_r.
    - rewrite decide_False, decide_True by done. by rewrite Href. }
  split; [|done]. erewrite bind_run by exact Hw. rewrite bind_gets. cbn [opcode]. rewrite decide_False by done. rewrite decide_False by tauto.
  rewrite <- first_app, <- Hrest. etrans; [exact Hkey|]. by erewrite bind_run by exact Hrun.
Qed.

Lemma decoder_ok n : value_ok n /\ elements_ok n /\ members_ok n.
Proof.
  induction n as [|n (Hv & He & Hm)]; [by split_and!|].
  split_and!; [by apply value_ok_step|by apply elements_ok_step|by apply members_ok_step].
Qed.

(** ** Documents *)

Lemma unmarshal_quiet off op sc e cx : quiet src -> is_Some (document src) ->
  exists v e' d', unmarshal ParseFloat (init src (mkDecodeState [] off op sc e un cx cm)) = Val (v, e', d') /\
    document_value ParseFloat un src = Some (v, e') /\ useNumber d' = un.
Proof.
  intros Hq Hdoc. unfold document_value, value_fuel. destruct Hdoc as [kept Hdoc]. rewrite Hdoc. unfold document in Hdoc.
  destruct (parse (2 * length src + 2) Value maxNestingDepth src) as [[k r]|] eqn:Hp; [|done]. cbn [mbind option_bind] in *.
  destruct (JsonGrammar.skip r) as [r'|] eqn:Hr; [|done]. cbn [mbind option_bind] in Hdoc. case_decide as Hnil; [|done]. subst r'.
  destruct (value_skip _ _ _ _ _ Hp) as (c & r1 & Hs & Hg & Hp' & Hskip).
  destruct (value_begins _ [] c r1 k r Hp' Hg) as (op1 & y1 & Hstep & Hop).
  assert (same_scanner (reset sc) (cfg sBeginValue [])) as Hreset by by split.
  destruct (scanWhile_blanks 0 op (reset sc) None [] src _ _ _ _ _ _ (from_start src) Hq Hs (between_value []) Hreset Hstep)
    as (off1 & sc1 & Hw & Hf & Hsc & Hq1); [by destruct Hop as [->|[->| ->]]|].
  destruct (proj1 (decoder_ok (2 * length src + 2)) [] c r1 k r off1 op1 sc1 y1 None [] Hp' Hg (ends_at_end _ Hr) Hf Hq1 Hstep Hsc)
    as (v & es & off2 & op2 & sc2 & Hat & Hrun & _).
  exists v, (head es), (dec off2 op2 sc2 (head es) []). rewrite Hskip, Hat. split; [|by split].
  unfold unmarshal, init. cbn [opcode JsonDecode.scan useNumber JsonDecode.comments].
  erewrite bind_run by (by apply scanning_run). erewrite bind_run by exact Hw. rewrite bind_gets. cbn [id data].
  unfold value_fuel. erewrite bind_run by exact Hrun. done.
Qed.
End Decoder.

(** ** The value of a document does not depend on blanks and comments *)

Definition forget_offset (e : numberError) : list Z * list decodePathSegment := (literal_ e, errContext e).

Lemma skip_same a b c r : same a b -> JsonGrammar.skip a = Some (c :: r) -> exists r', JsonGrammar.skip b = Some (c :: r') /\
  same (c :: r) (c :: r') /\ token_ahead (c :: r) (c :: r') /\ (c <> 34 -> same r r').
Proof.
  intros H Hs. destruct (same_skip _ _ _ H Hs) as (b' & Hb & Hs'). pose proof (skip_tok _ _ Hs) as Hg. pose proof (skip_tok _ _ Hb) as Hg'.
  pose proof (same_token _ _ Hs' Hg Hg') as Ht. inversion Ht as [x|x y z Hx Hxy Hglue|q y z Hq Hyz]; subst.
  - exists r. split; [done|]. split; [done|]. split; [done|]. intros _. apply same_refl.
  - exists z. split; [done|]. split; [done|]. by split.
  - eexists. split; [done|]. split; [done|]. by split.
Qed.

Section Reference.
Context {F : Type} (ParseFloat : list Z -> option F) (un : bool) (len len' : Z).
Local Notation forget := (map forget_offset).

(** Two readers that give the same of sources that have the same tokens. *)
Definition agree {A} (f g : list Z -> option (A * list numberError * list Z)) : Prop := forall a b x es r,
  same a b -> f a = Some (x, es, r) -> exists es' r', g b = Some (x, es', r') /\ same r r' /\ forget es = forget es'.
Definition values_agree (n : nat) : Prop := forall path,
  agree (value_at ParseFloat un len n path) (value_at ParseFloat un len' n path).
Definition elements_agree (n : nat) : Prop := forall path acc,
  agree (elements_at ParseFloat un len n path acc) (elements_at ParseFloat un len' n path acc).
Definition members_agree (n : nat) : Prop := forall path acc,
  agree (members_at ParseFloat un len n path acc) (members_at ParseFloat un len' n path acc).
Local Ltac one_call :=
  cbn [value_at elements_at members_at];
  fold (members_at ParseFloat un len) (elements_at ParseFloat un len) (value_at ParseFloat un len)
    (members_at ParseFloat un len') (elements_at ParseFloat un len') (value_at ParseFloat un len').
(** Some byte is ahead, behind a gap, and it is the same in the other source. *)
Local Ltac ahead H Hs := match goal with |- context [JsonGrammar.skip ?a] =>
  let E := fresh "E" in let c := fresh "head" in let r := fresh "rest" in
  destruct (JsonGrammar.skip a) as [[|c r]|] eqn:E; [done| |done];
  destruct (skip_same _ _ _ _ H E) as (? & -> & ? & ? & Hs); cbn [mbind option_bind] end.

Lemma value_agrees n : elements_agree n -> members_agree n -> values_agree (S n).
Proof.
  intros He Hm path a b v es r H. one_call. ahead H Hs. case_decide as Ho; [|case_decide as Ha].
  - destruct (members_at _ _ _ _ _ _ _) as [[[m es1] r1]|] eqn:Em; [|done]. intros [= <- <- <-].
    destruct (Hm _ _ _ _ _ _ _ (Hs ltac:(by subst)) Em) as (es' & r' & -> & ? & ?). cbn [mbind option_bind]. eauto.
  - destruct (elements_at _ _ _ _ _ _ _) as [[[l es1] r1]|] eqn:Em; [|done]. intros [= <- <- <-].
    destruct (He _ _ _ _ _ _ _ (Hs ltac:(by subst)) Em) as (es' & r' & -> & ? & ?). cbn [mbind option_bind]. eauto.
  - destruct (literal _) as [[k r1]|] eqn:El; [|done]. destruct (token_literal _ _ _ _ ltac:(done) ltac:(done) El) as (r' & -> & Hr).
    cbn [mbind option_bind]. destruct (literal_value _ _ _); intros [= <- <- <-]; eauto 10.
Qed.
Lemma elements_agrees n : values_agree n -> elements_agree n -> elements_agree (S n).
Proof.
  intros Hv He path acc a b l es r H. one_call. ahead H Hs. case_decide as Hc.
  { intros [= <- <- <-]. do 2 eexists. split; [done|]. split; [|done]. apply Hs. by subst. }
  destruct (value_at _ _ _ _ _ _) as [[[v es1] r1]|] eqn:Ev; [|done].
  destruct (Hv _ _ _ _ _ _ ltac:(done) Ev) as (es1' & r1' & -> & Hr1 & Hes). cbn [mbind option_bind].
  ahead Hr1 Hs2. case_decide as Hc2.
  { intros [= <- <- <-]. do 2 eexists. split; [done|]. split; [|done]. apply Hs2. by subst. }
  case_decide as Hc3; [|done]. destruct (elements_at _ _ _ _ _ _ _) as [[[m es2] r2]|] eqn:Em; [|done]. intros [= <- <- <-].
  destruct (He _ _ _ _ _ _ _ (Hs2 ltac:(by subst)) Em) as (es' & r' & -> & ? & Hes'). cbn [mbind option_bind].
  do 2 eexists. split; [done|]. split; [done|]. by rewrite !map_app, Hes, Hes'.
Qed.
Lemma members_agrees n : values_agree n -> members_agree n -> members_agree (S n).
Proof.
  intros Hv Hm path acc a b m es r H. one_call. ahead H Hs. case_decide as Hc.
  { intros [= <- <- <-]. do 2 eexists. split; [done|]. split; [|done]. apply Hs. by subst. }
  destruct ((eat 34 ~~ read_string) _) as [[k r0]|] eqn:Ek; [|done].
  destruct (token_quoted _ _ _ _ ltac:(done) ltac:(done) Ek) as (r0' & -> & Hr0). cbn [mbind option_bind].
  destruct (unquote k) as [[key|]| |]; [|done..]. cbn [mbind option_bind]. ahead Hr0 Hs0.
  destruct (eat (CH ":") _) as [[? r3]|] eqn:Ec; [|done].
  destruct (token_eat (CH ":") ltac:(done) _ _ _ _ ltac:(eassumption) ltac:(eassumption) Ec) as (r3' & -> & Hr3). cbn [mbind option_bind].
  destruct (value_at _ _ _ _ _ _) as [[[v es1] r1]|] eqn:Ev; [|done].
  destruct (Hv _ _ _ _ _ _ Hr3 Ev) as (es1' & r1' & -> & Hr1 & Hes). cbn [mbind option_bind].
  ahead Hr1 Hs2. case_decide as Hc2.
  { intros [= <- <- <-]. do 2 eexists. split; [done|]. split; [|done]. apply Hs2. by subst. }
  case_decide as Hc3; [|done]. destruct (members_at _ _ _ _ _ _ _) as [[[m' es2] r2]|] eqn:Em; [|done]. intros [= <- <- <-].
  destruct (Hm _ _ _ _ _ _ _ (Hs2 ltac:(by subst)) Em) as (es' & r' & -> & ? & Hes'). cbn [mbind option_bind].
  do 2 eexists. split; [done|]. split; [done|]. by rewrite !map_app, Hes, Hes'.
Qed.
Lemma all_agree n : values_agree n /\ elements_agree n /\ members_agree n.
Proof.
  induction n as [|n (Hv & He & Hm)]; [by split_and!; intros|].
  split_and!; [by apply value_agrees|by apply elements_agrees|by apply members_agrees].
Qed.
End Reference.

Lemma document_value_same {F} (ParseFloat : list Z -> option F) un a b v e : same a b -> zlen a = zlen b ->
  document_value ParseFloat un a = Some (v, e) ->
  exists e', document_value ParseFloat un b = Some (v, e') /\ forget_offset <$> e = forget_offset <$> e'.
Proof.
  intros H Hlen. unfold document_value. rewrite (same_document _ _ H). destruct (document b); [|done]. cbn [mbind option_bind].
  assert (value_fuel b = value_fuel a) as -> by (unfold value_fuel, zlen in *; lia).
  destruct (value_at _ _ _ _ _ a) as [[[x es] r]|] eqn:Ex; [|done]. intros [= <- <-].
  destruct (proj1 (all_agree ParseFloat un (zlen a) (zlen b) (value_fuel a)) _ _ _ _ _ _ H Ex) as (es' & r' & -> & _ & Hes).
  cbn [mbind option_bind]. exists (head es'). split; [done|]. destruct es, es'; try done. unfold forget_offset in *. cbn in *. congruence.
Qed.

(** Every number but [2] is itself, [2] is refused. *)
Definition no_two (s : list Z) : option (list Z) := if decide (s = [CH "2"]) then None else Some s.
Example unmarshal_noted : UnmarshalContext no_two [] noted =
  Val (inl (VArray [VFloat [CH "1"]; VNull], Some (mkNumberError [CH "2"] 11 [decodePathIndex 1]))).
Proof. vm_compute. reflexivity. Qed.
