(* ===== verification/JsonEncode.v ===== *)
(** * Encoding the values of an empty interface: encode.go of common/json/internal/contextjson

    The encoders that reflection picks for what decoding into an [any] gives: nil, bool,
    float64, Number, string, []any and map[string]any.  Such a value is a tree here,
    without pointers, so that the search for cycles of pointers has nothing to find and is
    left out; no slice or map of it is nil.  The arithmetic of float64 and its printing
    by package strconv are arguments. *)

From stdpp Require Import sorting.
From S2P Require Import Prelude.
From S2P Require Import JsonScanner.
From S2P Require Import JsonIndent.
From S2P Require Import JsonString.
From S2P Require Import JsonDecode.
From Stdlib Require Import Ascii.

Local Open Scope go_scope.
Local Open Scope Z_scope.

(** ** Numbers *)

Fixpoint drop_digits (s : list Z) : list Z :=
  match s with c :: r => if is_digit c then drop_digits r else s | [] => [] end.
(** The stages of isValidNumber: what is left behind an integer, a fraction and an exponent. *)
Definition valid_integer (s : list Z) : option (list Z) :=
  match s with
  | [] => None
  | c :: r =>
      if decide (c = CH "0") then Some r
      else if decide (CH "1" <= c <= CH "9") then Some (drop_digits r)
      else None
  end.
Definition valid_fraction (s : list Z) : list Z :=
  match s with
  | c :: d :: r => if decide (c = CH ".") then if is_digit d then drop_digits r else s else s
  | _ => s
  end.
Definition valid_exponent (s : list Z) : option (list Z) :=
  match s with
  | c :: d :: r =>
      if decide (c = CH "e" \/ c = CH "E") then
        if decide (d = CH "+" \/ d = CH "-") then match r with [] => None | _ => Some (drop_digits r) end
        else Some (drop_digits (d :: r))
      else Some s
  | _ => Some s
  end.
Definition isValidNumber (s : list Z) : bool :=
  match s with
  | [] => false
  | c :: r =>
      match valid_integer (if decide (c = CH "-") then r else s) with
      | None => false
      | Some s => match valid_exponent (valid_fraction s) with Some s => bool_decide (s = []) | None => false end
      end
  end.

(** ** Encoders *)

Inductive encodeError (F : Type) :=
  | UnsupportedValueError (f : F)
  | InvalidNumberError (s : list Z).
Arguments UnsupportedValueError {F} f.
Arguments InvalidNumberError {F} s.

Record encOpts := mkOpts { quoted : bool; escapeHTML : bool }.

(** Of float64: whether a number is infinite or no number; whether its magnitude is
    below 1e-6 but not zero, or 1e21 or more; and its shortest text in a format. *)
Record float64 (F : Type) := mkFloat64 {
  IsSpecial : F -> bool;
  IsExtreme : F -> bool;
  FormatFloat : F -> Z -> list Z }.
Arguments IsSpecial {F} _ _.
Arguments IsExtreme {F} _ _.
Arguments FormatFloat {F} _ _ _.

Section Encode.
Context {F : Type} (fl : float64 F).

(** What an encoder makes of the buffer; [inr] is the panic that marshal recovers. *)
Definition encoder : Type := list Z -> outcome (list Z + encodeError F).
Definition write (bs : list Z) : encoder := fun b => Val (inl (b ++ bs)).
Definition fails (e : encodeError F) : encoder := fun _ => Val (inr e).
Definition and_then (f g : encoder) : encoder := fun b =>
  let! r := f b in match r with inl b => g b | inr e => Val (inr e) end.
Infix "then+" := and_then (at level 61, left associativity).

Definition mayAppendQuote (b : list Z) (quoted : bool) : list Z := if quoted then b ++ [34] else b.
Definition null_text : list Z := [CH "n"; CH "u"; CH "l"; CH "l"].
Definition bool_text (b : bool) : list Z :=
  if b then [CH "t"; CH "r"; CH "u"; CH "e"] else [CH "f"; CH "a"; CH "l"; CH "s"; CH "e"].
Definition write_string (s : list Z) (esc : bool) : encoder := fun b =>
  match appendString [] s esc with Some t => write t b | None => Panic end.

Definition boolEncoder (v : bool) (opts : encOpts) : encoder :=
  write (mayAppendQuote (mayAppendQuote [] (quoted opts) ++ bool_text v) (quoted opts)).

(** From e-09 to e-9. *)
Definition clean_exponent (b : list Z) : list Z :=
  let n := zlen b in
  if decide (n >= 4 /\ at_ b (n - 4) = Some (CH "e") /\ at_ b (n - 3) = Some (CH "-") /\ at_ b (n - 2) = Some (CH "0")) then
    match at_ b (n - 1) with Some c => ztake (n - 2) b ++ [c] | None => b end
  else b.
Definition floatEncoder (f : F) (opts : encOpts) : encoder :=
  if IsSpecial fl f then fails (UnsupportedValueError f)
  else
    let b := mayAppendQuote [] (quoted opts) in
    let fmt := if IsExtreme fl f then CH "e" else CH "f" in
    let b := b ++ FormatFloat fl f fmt in
    let b := if decide (fmt = CH "e") then clean_exponent b else b in
    write (mayAppendQuote b (quoted opts)).

(** The two cases of stringEncoder. *)
Definition numberEncoder (s : list Z) (opts : encOpts) : encoder :=
  let s := if decide (s = []) then [CH "0"] else s in
  if negb (isValidNumber s) then fails (InvalidNumberError s)
  else write (mayAppendQuote (mayAppendQuote [] (quoted opts) ++ s) (quoted opts)).
Definition stringEncoder (s : list Z) (opts : encOpts) : encoder :=
  if quoted opts then fun b =>
    match appendString [] s (escapeHTML opts) with Some t => write_string t false b | None => Panic end
  else write_string s (escapeHTML opts).

(** The loop of arrayEncoder over the encoders of the elements. *)
Fixpoint array_items (first : bool) (es : list encoder) : encoder :=
  match es with
  | [] => write []
  | e :: es => (if first then write [] else write [CH ","]) then+ e then+ array_items false es
  end.

(** strings.Compare. *)
Fixpoint Compare (a b : list Z) : Z :=
  match a, b with
  | [], [] => 0
  | [], _ :: _ => -1
  | _ :: _, [] => 1
  | x :: a, y :: b => if decide (x < y) then -1 else if decide (x > y) then 1 else Compare a b
  end.
Definition key_le {A} (x y : list Z * A) : Prop := Compare (fst x) (fst y) <= 0.
#[export] Instance key_le_dec {A} : RelDecision (key_le (A := A)).
Proof. intros x y. apply Z_le_dec. Defined.
(** The loop of mapEncoder over the sorted keys and the encoders of their values. *)
Fixpoint map_items (first : bool) (kvs : list (list Z * encoder)) (opts : encOpts) : encoder :=
  match kvs with
  | [] => write []
  | (key, e) :: kvs =>
      (if first then write [] else write [CH ","]) then+ write_string key (escapeHTML opts) then+ write [CH ":"] then+ e
      then+ map_items false kvs opts
  end.

Fixpoint reflectValue (opts : encOpts) (v : value F) {struct v} : encoder :=
  match v with
  | VNull => write null_text
  | VBool b => boolEncoder b opts
  | VNumber s => numberEncoder s opts
  | VFloat f => floatEncoder f opts
  | VString s => stringEncoder s opts
  | VArray l => write [CH "["] then+ array_items true (map (reflectValue opts) l) then+ write [CH "]"]
  | VObject m =>
      write [CH "{"] then+ map_items true (merge_sort key_le (map_to_list (reflectValue opts <$> m))) opts then+ write [CH "}"]
  end.

(** ** Entry points *)

Definition Marshal (v : value F) : outcome (list Z + encodeError F) := reflectValue (mkOpts false true) v [].
(** [pooled] is the scanner that appendIndent takes from its pool. *)
Definition MarshalIndent (pooled : scanner) (v : value F) (prefix indent : list Z)
    : outcome (list Z + (encodeError F + SyntaxError)) :=
  let! r := Marshal v in
  match r with
  | inr e => Val (inr (inl e))
  | inl b =>
      let! r := appendIndent pooled [] b prefix indent in
      match r with (b2, None) => Val (inl b2) | (_, Some e) => Val (inr (inr e)) end
  end.
End Encode.
