(* ===== verification/JsonEncodeTheorems.v ===== *)
(** * What the encoders write: numbers, strings and the order of keys *)

From stdpp Require Import sorting.
From S2P Require Import Prelude.
From S2P Require Import GoStrings.
From S2P Require Import JsonScanner.
From S2P Require Import JsonGrammar.
From S2P Require Import JsonScannerTheorems.
From S2P Require Import JsonIndent.
From S2P Require Import JsonIndentTheorems.
From S2P Require Import JsonString.
From S2P Require Import JsonStringTheorems.
From S2P Require Import JsonStringProps.
From S2P Require Import JsonDecode.
From S2P Require Import JsonDecodeTheorems.
From S2P Require Import JsonEncode.
From Stdlib Require Import Ascii.

Local Open Scope go_scope.
Local Open Scope Z_scope.

(** ** Numbers *)

Lemma digits_drop s : exists k, digits s = (k, drop_digits s) /\ s = k ++ drop_digits s.
Proof.
  induction s as [|c s (k & Hd & Hs)]; [by exists []|]. cbn [digits drop_digits]. destruct (is_digit c); [|by exists []].
  rewrite Hd. exists (c :: k). split; [done|]. by rewrite Hs at 1.
Qed.
Lemma digits1_drop c s : is_digit c = true -> exists k, digits1 (c :: s) = Some (k, drop_digits s) /\ c :: s = k ++ drop_digits s.
Proof.
  intros Hc. destruct (digits_drop s) as (k & Hd & Hs). exists (c :: k). unfold digits1. cbn [digits]. rewrite Hc, Hd.
  split; [done|]. by rewrite Hs at 1.
Qed.
Lemma digits1_other s : match s with c :: _ => is_digit c = false | [] => True end -> digits1 s = None.
Proof. destruct s as [|c s]; [done|]. intros Hc. unfold digits1. cbn [digits]. by rewrite Hc. Qed.

Lemma valid_integer_reads s : match valid_integer s with
  | Some r => exists k, integer s = Some (k, r) /\ s = k ++ r
  | None => integer s = None
  end.
Proof.
  destruct s as [|c s]; [done|]. cbn [valid_integer integer]. destruct (decide (c = CH "0")) as [->|H0]; [by exists [CH "0"]|].
  case_decide as Hc.
  - apply digits1_drop. unfold is_digit. apply bool_decide_eq_true. lia.
  - apply digits1_other. unfold is_digit. apply bool_decide_eq_false. lia.
Qed.
(** Whether what a fraction leaves can be the end of a number. *)
Lemma valid_fraction_reads s : match fraction s with
  | Some (k, r) => valid_fraction s = r /\ s = k ++ r
  | None => exists r, valid_fraction s = CH "." :: r
  end.
Proof.
  unfold fraction. destruct s as [|c s]; [done|]. cbn [optional]. destruct (decide (c ∈ [CH "."])) as [->%list_elem_of_singleton|Hc].
  - destruct s as [|d s]; [by exists []|]. cbn [valid_fraction]. rewrite decide_True by done.
    unfold seq_read. cbn [eat]. rewrite decide_True by done. cbn [mbind option_bind].
    destruct (is_digit d) eqn:Hd.
    + destruct (digits1_drop d s Hd) as (k & -> & Hs). cbn [mbind option_bind]. split; [done|]. by rewrite Hs.
    + rewrite digits1_other by done. by eexists.
  - split; [|done]. assert (c <> CH ".") by (intros ->; apply Hc; by apply list_elem_of_singleton). destruct s; [done|]. cbn [valid_fraction]. by rewrite decide_False.
Qed.
Lemma in_two (c a b : Z) : c ∈ [a; b] <-> c = a \/ c = b.
Proof. rewrite elem_of_cons, list_elem_of_singleton. tauto. Qed.
Lemma valid_exponent_reads s : valid_exponent s = Some [] <-> exponent s = Some (s, []).
Proof.
  unfold exponent. destruct s as [|c s]; [done|]. cbn [optional].
  destruct (decide (c ∈ [CH "e"; CH "E"])) as [Hc|Hc].
  - assert (c = CH "e" \/ c = CH "E") as Hc' by by rewrite <- in_two. destruct s as [|d s].
    { unfold seq_read. cbn [one_of]. rewrite decide_True by done. by cbn. }
    cbn [valid_exponent]. rewrite decide_True by done. unfold seq_read at 1. cbn [one_of]. rewrite (decide_True (P := c ∈ _)) by done. cbn [mbind option_bind optional].
    destruct (decide (d ∈ [CH "+"; CH "-"])) as [Hd|Hd].
    + assert (d = CH "+" \/ d = CH "-") as Hd' by by rewrite <- in_two. rewrite decide_True by done. unfold seq_read. cbn [optional one_of].
      rewrite !decide_True by done. cbn [mbind option_bind]. destruct s as [|x s]; [done|]. cbn [drop_digits].
      destruct (is_digit x) eqn:Hx; [|rewrite digits1_other by done; cbn; split; [by intros [=]|done]].
      destruct (digits1_drop x s Hx) as (k & -> & Hs). cbn [mbind option_bind]. split.
      * intros [= E]. rewrite E, app_nil_r in *. cbn. by rewrite Hs.
      * by intros [= _ ->].
    + assert (~ (d = CH "+" \/ d = CH "-")) by by rewrite <- in_two. rewrite (decide_False (P := d = CH "+" \/ d = CH "-")) by done.
      unfold seq_read. cbn [optional]. rewrite decide_False by done. cbn [mbind option_bind drop_digits].
      destruct (is_digit d) eqn:Hx; [|rewrite digits1_other by done; cbn; split; [by intros [=]|done]].
      destruct (digits1_drop d s Hx) as (k & -> & Hs). cbn [mbind option_bind]. split.
      * intros [= E]. rewrite E, app_nil_r in *. cbn. by rewrite Hs.
      * by intros [= _ ->].
  - assert (~ (c = CH "e" \/ c = CH "E")) as Hc' by by rewrite <- in_two. split; [|by intros [=]]. destruct s as [|d s]; cbn [valid_exponent]; [by intros [=]|].
    rewrite decide_False by done. by intros [=].
Qed.
Lemma optional_minus c s : optional [CH "-"] (eat (CH "-")) (c :: s) = Some (if decide (c = CH "-") then ([CH "-"], s) else ([], c :: s)).
Proof.
  cbn [optional]. destruct (decide (c = CH "-")) as [->|Hc]; [done|]. rewrite decide_False; [done|]. by intros ?%list_elem_of_singleton.
Qed.
Lemma isValidNumber_grammar s : isValidNumber s = true <-> number s = Some (s, []).
Proof.
  destruct s as [|c s]; [done|]. unfold isValidNumber, number. unfold seq_read at 1. rewrite (optional_minus c s).
  set (t := if decide (c = CH "-") then s else c :: s). set (sg := if decide (c = CH "-") then [CH "-"] else []).
  assert ((if decide (c = CH "-") then ([CH "-"], s) else ([], c :: s)) = (sg, t)) as -> by (unfold sg, t; by case_decide).
  assert (c :: s = sg ++ t) as Hst by (unfold sg, t; by case_decide; subst). rewrite Hst. clearbody t sg. clear c s Hst.
  cbn [mbind option_bind]. pose proof (valid_integer_reads t) as Hi. destruct (valid_integer t) as [r|].
  2:{ unfold seq_read. by rewrite Hi. }
  destruct Hi as (k & Hi & ->). unfold seq_read at 1. rewrite Hi. cbn [mbind option_bind].
  pose proof (valid_fraction_reads r) as Hf. unfold seq_read at 1. destruct (fraction r) as [[k2 r2]|].
  - destruct Hf as [-> ->]. cbn [mbind option_bind]. pose proof (valid_exponent_reads r2) as He.
    transitivity (valid_exponent r2 = Some []).
    { destruct (valid_exponent r2) as [x|]; [|done]. rewrite bool_decide_eq_true. by split; [intros ->|intros [= ->]]. }
    rewrite He. destruct (exponent r2) as [[k3 r3]|]; cbn [mbind option_bind]; [|done]. split; [by intros [= -> ->]|].
    intros [= Hk ->]. apply (inj (sg ++.)), (inj (k ++.)), (inj (k2 ++.)) in Hk. by rewrite Hk.
  - destruct Hf as (x & ->). cbn [mbind option_bind]. by destruct x.
Qed.

(** A reader that reads the same when [r] comes behind its input. *)
Section Extends.
Context (r : list Z).
Class Extends (p : reader_of) : Prop := extends : forall a k b, p a = Some (k, b) -> p (a ++ r) = Some (k, b ++ r).

Lemma extends_seq p q : Extends p -> Extends q -> Extends (p ~~ q).
Proof. intros Hp Hq a k b (k1 & r1 & k2 & H1%Hp & H2%Hq & ->)%seq_read_inv. by eapply seq_run. Qed.
Lemma extends_eat c : Extends (eat c).
Proof. intros [|d a] k b; [done|]. cbn [eat app]. case_decide; [|done]. by intros [= <- <-]. Qed.
Lemma extends_one_of cs : Extends (one_of cs).
Proof. intros [|d a] k b; [done|]. cbn [one_of app]. case_decide; [|done]. by intros [= <- <-]. Qed.
Lemma extends_optional cs p : (forall c, head r = Some c -> c ∉ cs) -> Extends p -> Extends (optional cs p).
Proof.
  intros Hr Hp [|d a] k b; cbn [optional app].
  - intros [= <- <-]. destruct r as [|c r']; [done|]. cbn [optional app]. by rewrite decide_False by by apply Hr.
  - case_decide; [by intros ?%Hp|]. by intros [= <- <-].
Qed.
Lemma extends_digits (a k b : list Z) : (forall c, head r = Some c -> is_digit c = false) -> digits a = (k, b) -> digits (a ++ r) = (k, b ++ r).
Proof.
  intros Hr. revert k b. induction a as [|c a IH]; intros k b; cbn [digits app].
  - intros [= <- <-]. destruct r as [|c r']; [done|]. cbn [digits app]. by rewrite (Hr c).
  - destruct (is_digit c); [|by intros [= <- <-]]. destruct (digits a) as [k1 b1]. intros [= <- <-]. by rewrite (IH k1 b1 eq_refl).
Qed.
Lemma extends_digits1 : (forall c, head r = Some c -> is_digit c = false) -> Extends digits1.
Proof.
  intros Hr a k b. unfold digits1. destruct (digits a) as [k1 b1] eqn:E. rewrite (extends_digits _ _ _ Hr E).
  destruct k1; [done|]. by intros [= <- <-].
Qed.
Lemma extends_integer : (forall c, head r = Some c -> is_digit c = false) -> Extends integer.
Proof.
  intros Hr [|c a] k b; [done|]. cbn [integer app]. case_decide; [by intros [= <- <-]|]. by apply (extends_digits1 Hr (c :: a)).
Qed.
(** A number without an exponent. *)
Definition decimal : reader_of := optional [CH "-"] (eat (CH "-")) ~~ integer ~~ fraction.
Lemma extends_decimal : (forall c, head r = Some c -> is_digit c = false /\ c <> CH "." /\ c <> CH "-") -> Extends decimal.
Proof.
  intros Hr. apply extends_seq; [|apply extends_seq].
  - apply extends_optional; [|apply extends_eat]. intros c Hc ->%list_elem_of_singleton. by apply Hr in Hc as (_ & _ & ?).
  - apply extends_integer. by intros c [? _]%Hr.
  - apply extends_optional; [|apply extends_seq; [apply extends_eat|apply extends_digits1]].
    + intros c Hc ->%list_elem_of_singleton. by apply Hr in Hc as (_ & ? & _).
    + by intros c [? _]%Hr.
Qed.
Lemma extends_number : ends_number r -> Extends number.
Proof.
  intros Hr. assert (forall c, head r = Some c -> is_digit c = false /\ c <> CH "." /\ c <> CH "e" /\ c <> CH "E" /\ c <> CH "+" /\ c <> CH "-") as Hh.
  { intros c. destruct r as [|d r']; [done|]. intros [= ->]. cbn in Hr. unfold is_number_byte in Hr.
    apply orb_false_iff in Hr as [? Hn%bool_decide_eq_false]. split; [done|]. tauto. }
  unfold number. apply extends_seq; [|apply extends_seq; [|apply extends_seq]].
  - apply extends_optional; [|apply extends_eat]. intros c Hc ->%list_elem_of_singleton. by apply Hh in Hc as (_ & _ & _ & _ & _ & ?).
  - apply extends_integer. by intros c [? _]%Hh.
  - apply extends_optional; [|apply extends_seq; [apply extends_eat|apply extends_digits1]].
    + intros c Hc ->%list_elem_of_singleton. by apply Hh in Hc as (_ & ? & _).
    + by intros c [? _]%Hh.
  - apply extends_optional; [|apply extends_seq; [apply extends_one_of|apply extends_seq; [apply extends_optional; [|apply extends_one_of]|]]].
    + intros c Hc Hin%in_two. apply Hh in Hc. tauto.
    + intros c Hc Hin%in_two. apply Hh in Hc. tauto.
    + apply extends_digits1. by intros c [? _]%Hh.
Qed.
End Extends.

(** A number in exponent form. *)
Lemma all_digits d : Forall (fun c => is_digit c = true) d -> digits d = (d, []).
Proof. induction 1 as [|c d Hc Hd IH]; [done|]. cbn [digits]. by rewrite Hc, IH. Qed.
Lemma number_exponent m s d : decimal m = Some (m, []) -> s = CH "+" \/ s = CH "-" -> d <> [] -> Forall (fun c => is_digit c = true) d ->
  number (m ++ CH "e" :: s :: d) = Some (m ++ CH "e" :: s :: d, []).
Proof.
  intros Hm Hs Hd Hall. assert (decimal (m ++ CH "e" :: s :: d) = Some (m, CH "e" :: s :: d)) as Hdec.
  { refine (extends_decimal (CH "e" :: s :: d) _ m m [] Hm). by intros c [= <-]. }
  assert (exponent (CH "e" :: s :: d) = Some (CH "e" :: s :: d, [])) as He.
  { unfold exponent. cbn [optional]. rewrite decide_True by (by apply in_two; left).
    apply (seq_run _ _ _ [CH "e"] (s :: d) (s :: d) []); [cbn [one_of]; by rewrite decide_True by (by apply in_two; left)|].
    apply (seq_run _ _ _ [s] d d []); [cbn [optional one_of]; by rewrite !decide_True by by apply in_two|].
    unfold digits1. rewrite (all_digits _ Hall). by destruct d. }
  apply seq_read_inv in Hdec as (k1 & r1 & k2 & H1 & (k3 & r3 & k4 & H3 & H4 & ->)%seq_read_inv & ->). unfold number.
  rewrite <- !app_assoc in *. eapply seq_run; [done|]. eapply seq_run; [done|]. by eapply seq_run.
Qed.

(** ** Strings *)

(** Valid UTF-8. *)
Definition text (s : list Z) : Prop := exists rs, Forall valid_rune rs /\ s = utf8 rs.
Lemma appendString_text s esc : text s -> exists b, appendString [] s esc = Some (34 :: b ++ [34]) /\ body b /\
  unquote (34 :: b ++ [34]) = Val (Some s).
Proof.
  intros (rs & Hrs & ->). pose proof (utf8_decoded rs Hrs) as Hd. pose proof (decoded_valid _ _ Hd) as Hv.
  exists (JsonStringTheorems.quoted esc (Some <$> rs)). split; [by apply (appendString_quoted [] _ esc (Some <$> rs))|]. split; [by apply quoted_body|].
  rewrite <- (to_valid_utf8 rs Hrs), (to_valid_decoded _ _ Hd). by apply unquote_spells, quoted_spells.
Qed.

(** ** Floats *)

(** What package strconv documents: the formats [-ddd.dddd] and [-d.dddde±dd], the
    shortest text is read back exactly, and a zero ahead of an exponent does not matter. *)
Class Float64Laws {F} (fl : float64 F) (ParseFloat : list Z -> option F) : Prop := {
  format_f f : IsSpecial fl f = false -> IsExtreme fl f = false ->
    decimal (FormatFloat fl f (CH "f")) = Some (FormatFloat fl f (CH "f"), []);
  format_e f : IsSpecial fl f = false -> IsExtreme fl f = true -> exists m s d,
    FormatFloat fl f (CH "e") = m ++ CH "e" :: s :: d /\ decimal m = Some (m, []) /\ (s = CH "+" \/ s = CH "-") /\
    (2 <= length d)%nat /\ Forall (fun c => is_digit c = true) d;
  parse_format f : IsSpecial fl f = false ->
    ParseFloat (FormatFloat fl f (if IsExtreme fl f then CH "e" else CH "f")) = Some f;
  parse_zero m c : is_digit c = true -> ParseFloat (m ++ [CH "e"; CH "-"; CH "0"; c]) = ParseFloat (m ++ [CH "e"; CH "-"; c]) }.

Lemma clean_last p w x y z : clean_exponent (p ++ [w; x; y; z]) =
  if decide (w = CH "e" /\ x = CH "-" /\ y = CH "0") then p ++ [w; x; z] else p ++ [w; x; y; z].
Proof.
  unfold clean_exponent. rewrite zlen_app. change (zlen [w; x; y; z]) with 4. pose proof (zlen_nonneg p).
  replace (zlen p + 4 - 4) with (zlen p + 0) by lia. replace (zlen p + 4 - 3) with (zlen p + 1) by lia.
  replace (zlen p + 4 - 2) with (zlen p + 2) by lia. replace (zlen p + 4 - 1) with (zlen p + 3) by lia.
  rewrite !at_app_r by lia. change (at_ [w; x; y; z] 0) with (Some w). change (at_ [w; x; y; z] 1) with (Some x).
  change (at_ [w; x; y; z] 2) with (Some y). change (at_ [w; x; y; z] 3) with (Some z).
  assert (ztake (zlen p + 2) (p ++ [w; x; y; z]) = p ++ [w; x]) as ->.
  { change (p ++ [w; x; y; z]) with (p ++ [w; x] ++ [y; z]). rewrite app_assoc.
    replace (zlen p + 2) with (zlen (p ++ [w; x])) by (by rewrite zlen_app). apply ztake_app. }
  rewrite <- app_assoc. cbn [app]. destruct (decide (w = CH "e" /\ x = CH "-" /\ y = CH "0")) as [(-> & -> & ->)|Hn].
  - rewrite decide_True; [done|]. split; [lia|done].
  - rewrite decide_False; [done|]. intros (_ & [= ->] & [= ->] & [= ->]). by apply Hn.
Qed.
Lemma last_four (l : list Z) : (4 <= length l)%nat -> exists p w x y z, l = p ++ [w; x; y; z].
Proof.
  induction l as [|a l IH]; cbn; [lia|]. intros Hl. destruct (decide (length l = 3)%nat) as [H3|].
  - destruct l as [|x [|y [|z [|]]]]; try done. by exists [], a, x, y, z.
  - destruct IH as (p & w & x & y & z & ->); [lia|]. by exists (a :: p), w, x, y, z.
Qed.
Lemma clean_exponent_form {F} fl (ParseFloat : list Z -> option F) `{!Float64Laws fl ParseFloat} m s d : s = CH "+" \/ s = CH "-" ->
  (2 <= length d)%nat -> Forall (fun c => is_digit c = true) d -> exists d', clean_exponent (m ++ CH "e" :: s :: d) = m ++ CH "e" :: s :: d' /\
    d' <> [] /\ Forall (fun c => is_digit c = true) d' /\
    ParseFloat (m ++ CH "e" :: s :: d') = ParseFloat (m ++ CH "e" :: s :: d).
Proof.
  intros Hs Hlen Hd. destruct d as [|d1 [|d2 d]]; [cbn in Hlen; lia..|]. destruct d as [|d3 d].
  - rewrite (clean_last m (CH "e") s d1 d2). case_decide as Hc.
    + destruct Hc as (_ & -> & ->). exists [d2]. inversion Hd as [|? ? _ Hd2]; subst. split; [done|]. split; [done|]. split; [done|].
      symmetry. apply parse_zero. by inversion Hd2.
    + exists [d1; d2]. by split_and!.
  - exists (d1 :: d2 :: d3 :: d). split; [|by split_and!].
    destruct (last_four (s :: d1 :: d2 :: d3 :: d)) as (p & w & x & y & z & E); [cbn; lia|].
    rewrite E. change (m ++ CH "e" :: p ++ [w; x; y; z]) with (m ++ (CH "e" :: p) ++ [w; x; y; z]).
    rewrite app_assoc, clean_last, decide_False; [done|]. intros [-> _].
    assert (Forall (fun c => c <> CH "e") (s :: d1 :: d2 :: d3 :: d)) as Hne.
    { constructor; [by destruct Hs as [->| ->]|]. eapply Forall_impl; [exact Hd|]. by intros c Hc ->. }
    rewrite E, Forall_app in Hne. destruct Hne as [_ Hne]. by inversion Hne.
Qed.
Lemma decimal_number m : decimal m = Some (m, []) -> number m = Some (m, []).
Proof.
  intros (k1 & r1 & k2 & H1 & (k3 & r3 & k4 & H3 & H4 & ->)%seq_read_inv & Hm)%seq_read_inv. unfold number.
  rewrite Hm at 2. eapply seq_run; [done|]. eapply seq_run; [done|]. rewrite <- (app_nil_r k4). by eapply seq_run.
Qed.

(** The text of a float. *)
Definition float_text {F} (fl : float64 F) (f : F) : list Z :=
  if IsExtreme fl f then clean_exponent (FormatFloat fl f (CH "e")) else FormatFloat fl f (CH "f").
Lemma float_text_reads {F} fl (ParseFloat : list Z -> option F) `{!Float64Laws fl ParseFloat} f : IsSpecial fl f = false ->
  number (float_text fl f) = Some (float_text fl f, []) /\ ParseFloat (float_text fl f) = Some f.
Proof.
  intros Hf. unfold float_text. pose proof (parse_format f Hf) as Hp. destruct (IsExtreme fl f) eqn:E.
  - destruct (format_e f Hf E) as (m & s & d & Hform & Hm & Hs & Hlen & Hd). rewrite Hform in *.
    destruct (clean_exponent_form fl ParseFloat m s d Hs Hlen Hd) as (d' & -> & Hne & Hd' & Hp').
    split; [by apply number_exponent|by rewrite Hp'].
  - split; [|done]. by apply decimal_number, format_f.
Qed.
