(* ===== verification/JsonEncodeProps.v ===== *)
(** * What is encoded is a document, and decoding it gives the value back *)

From stdpp Require Import sorting.
From S2P Require Import Prelude.
From S2P Require Import GoStrings.
From S2P Require Import JsonScanner.
From S2P Require Import JsonGrammar.
From S2P Require Import JsonScannerTheorems.
From S2P Require Import JsonScannerProps.
From S2P Require Import JsonIndent.
From S2P Require Import JsonIndentTheorems.
From S2P Require Import JsonString.
From S2P Require Import JsonStringTheorems.
From S2P Require Import JsonStringProps.
From S2P Require Import JsonLex.
From S2P Require Import JsonComment.
From S2P Require Import JsonCommentTheorems.
From S2P Require Import JsonCommentProps.
From S2P Require Import JsonDecode.
From S2P Require Import JsonValue.
From S2P Require Import JsonDecodeTheorems.
From S2P Require Import JsonDecodeProps.
From S2P Require Import JsonEncode.
From S2P Require Import JsonEncodeTheorems.
From Stdlib Require Import Ascii.

Local Open Scope go_scope.
Local Open Scope Z_scope.

(** ** Values that can be encoded *)

Fixpoint depth {F} (v : value F) : nat :=
  match v with
  | VArray l => S (foldr (fun x n => Nat.max (depth x) n) 0%nat l)
  | VObject m => S (map_fold (fun _ x n => Nat.max (depth x) n) 0%nat m)
  | _ => 0
  end.
Lemma depth_element {F} (x : value F) l : x ∈ l -> (depth x < depth (VArray l))%nat.
Proof. intros Hx. cbn [depth]. induction Hx as [|x y l Hx IH]; cbn [foldr]; lia. Qed.
Lemma depth_member {F} k (x : value F) m : m !! k = Some x -> (depth x < depth (VObject m))%nat.
Proof.
  cbn [depth]. revert k x. apply (map_fold_weak_ind (fun r m => forall k x, m !! k = Some x -> (depth x < S r)%nat)).
  - intros k x. by rewrite lookup_empty.
  - intros i y m0 r Hi IH k x [[-> ->]|[_ Hk]]%lookup_insert_Some; [lia|]. specialize (IH k x Hk). lia.
Qed.

Section Encodable.
Context {F : Type} (fl : float64 F) (ParseFloat : list Z -> option F) `{!Float64Laws fl ParseFloat} (un : bool).

(** A decoder that makes Numbers gives Numbers back, any other one floats. *)
Inductive encodable : value F -> Prop :=
  | encodable_null : encodable VNull
  | encodable_bool b : encodable (VBool b)
  | encodable_number s : un = true -> isValidNumber s = true -> encodable (VNumber s)
  | encodable_float f : un = false -> IsSpecial fl f = false -> encodable (VFloat f)
  | encodable_string s : text s -> encodable (VString s)
  | encodable_array l : Forall encodable l -> encodable (VArray l)
  | encodable_object m : (forall k x, m !! k = Some x -> text k /\ encodable x) -> encodable (VObject m).

(** ** What the text of a value has to give *)

Definition opens (out : list Z) : Prop := exists c o, out = c :: o /\
  isSpace c = false /\ c <> CH "#" /\ c <> CH "/" /\ c <> CH "]".
Record spelled (v : value F) (out : list Z) : Prop := mkSpelled {
  spelled_opens : opens out;
  spelled_quiet r : quiet r -> quiet (out ++ r);
  spelled_parse n d r : (2 * length out + 1 <= n)%nat -> Z.of_nat (depth v) <= d -> ends_number r ->
    parse n Value d (out ++ r) = Some (out, r);
  spelled_value n path len r : (2 * length out + 1 <= n)%nat -> ends_number r ->
    value_at ParseFloat un len n path (out ++ r) = Some (v, [], r) }.

Lemma opens_gap out r : opens out -> one_gap (out ++ r) = NoGap /\ JsonGrammar.skip (out ++ r) = Some (out ++ r).
Proof.
  intros (c & o & -> & Hs & Hh & Hl & _). assert (one_gap (c :: o ++ r) = NoGap) as Hg by by apply no_gap_other.
  split; [done|]. by apply skip_here.
Qed.

(** ** Literals *)

Lemma literal_spelled v c o : is_run c = true \/ c = 34 -> c <> CH "]" -> c <> CH "[" -> c <> CH "{" -> depth v = 0%nat ->
  (forall r, ends_number r -> literal ((c :: o) ++ r) = Some (c :: o, r)) ->
  (forall r, quiet r -> quiet ((c :: o) ++ r)) ->
  literal_value ParseFloat un (c :: o) = Some v -> spelled v (c :: o).
Proof.
  intros Hc H1 H2 H3 Hd Hl Hq Hv.
  assert (opens (c :: o)) as Ho.
  { exists c, o. split; [done|]. destruct Hc as [(_ & _ & ? & ? & ?)%is_run_false| ->]; by split_and!. }
  split; [done|done|..].
  - intros [|n] d r Hn _ Hr; [lia|]. cbn [parse]. apply (seq_run _ _ _ [] ((c :: o) ++ r)).
    + unfold skipped. by rewrite (proj2 (opens_gap _ r Ho)).
    + specialize (Hl r Hr). cbn [app] in *. cbn [value_body]. by rewrite !decide_False.
  - intros [|n] path len r Hn Hr; [lia|]. cbn [value_at]. rewrite (proj2 (opens_gap _ r Ho)). cbn [mbind option_bind app].
    rewrite !decide_False by done. specialize (Hl r Hr). cbn [app] in Hl. rewrite Hl. cbn [mbind option_bind]. by rewrite Hv.
Qed.
Lemma quiet_run k r : Forall (fun c => is_run c = true) k -> quiet r -> quiet (k ++ r).
Proof.
  intros Hk Hr. induction Hk as [|c k Hc Hk IH]; [done|]. apply is_run_false in Hc as (_ & H34 & _ & Hh & Hl). by apply quiet_byte.
Qed.
Lemma number_runs k : Forall (fun c => is_number_byte c = true) k -> Forall (fun c => is_run c = true) k.
Proof.
  intros Hk. eapply Forall_impl; [exact Hk|]. cbn. intros c. unfold is_number_byte. intros [Hd|Hc%bool_decide_eq_true]%orb_true_iff.
  - by apply digit_run.
  - by destruct Hc as [->|[->|[->|[->| ->]]]].
Qed.
Lemma number_spelled v k : number k = Some (k, []) -> depth v = 0%nat -> number_value ParseFloat un k = Some v -> spelled v k.
Proof.
  intros Hk Hd Hv. destruct (number_head _ _ _ Hk) as (c & o & -> & Hc). destruct (numeric_number _ _ _ Hk) as [_ Hn].
  pose proof (number_runs _ Hn) as Hr. assert (is_run c = true) as Hrun by by inversion Hr.
  assert (c <> CH "t" /\ c <> CH "f" /\ c <> CH "n" /\ c <> 34 /\ c <> CH "]" /\ c <> CH "[" /\ c <> CH "{") as (?&?&?&?&?&?&?).
  { destruct Hc as [->|Hc]; [done|]. unfold is_digit in Hc. apply bool_decide_eq_true in Hc. split_and!; lia. }
  apply literal_spelled; try done; [by left|..].
  - intros r Hend. cbn [app literal]. rewrite !decide_False by done. by apply (extends_number r Hend (c :: o) _ []).
  - intros r. by apply quiet_run.
  - unfold literal_value. by rewrite !decide_False.
Qed.
Lemma string_spelled s b : body b -> unquote (34 :: b ++ [34]) = Val (Some s) -> spelled (VString s) (34 :: b ++ [34]).
Proof.
  intros Hb Hu. apply literal_spelled; try done; [by right|..].
  - intros r Hr. cbn [app literal]. rewrite decide_True by done. apply (seq_run (eat 34) _ _ [34] ((b ++ [34]) ++ r)); [done|].
    unfold read_string. rewrite <- app_assoc. apply body_string; [done|]. rewrite !length_app. cbn. lia.
  - intros r Hr. cbn [app]. apply quiet_string; [by apply body_closed|done].
  - unfold literal_value. rewrite !(decide_False (P := 34 = _)), decide_True by done. by rewrite Hu.
Qed.
Lemma word_spelled v c w : (c :: w) ∈ [null_text; bool_text true; bool_text false] ->
  literal_value ParseFloat un (c :: w) = Some v -> depth v = 0%nat -> spelled v (c :: w).
Proof.
  intros Hw Hv Hd. rewrite !elem_of_cons, elem_of_nil in Hw.
  assert (Forall (fun b => is_run b = true) (c :: w) /\ forall r, literal ((c :: w) ++ r) = Some (c :: w, r)) as [Hrun Hl].
  { destruct Hw as [[= -> ->]|[[= -> ->]|[[= -> ->]|[]]]]; (split; [by repeat constructor|done]). }
  assert (c <> CH "]" /\ c <> CH "[" /\ c <> CH "{") as (? & ? & ?) by (by destruct Hw as [[= -> _]|[[= -> _]|[[= -> _]|[]]]]).
  apply literal_spelled; try done; [by left; inversion Hrun|]. intros r. by apply quiet_run.
Qed.

(** ** Items between brackets *)

Definition more_text (outs : list (list Z)) : list Z := concat (map (cons (CH ",")) outs).
Definition items_text (outs : list (list Z)) : list Z := match outs with [] => [] | o :: outs => o ++ more_text outs end.
Lemma more_items outs : more_text outs = match outs with [] => [] | _ => CH "," :: items_text outs end.
Proof. by destruct outs. Qed.
Lemma items_quiet outs r : Forall (fun o => forall r, quiet r -> quiet (o ++ r)) outs -> quiet r -> quiet (items_text outs ++ r).
Proof.
  intros Ho Hr. assert (quiet (more_text outs ++ r)) as Hm.
  { induction Ho as [|o outs Ho Hos IH]; [done|]. cbn [more_text map concat]. rewrite <- app_assoc. cbn [app]. by apply quiet_byte, Ho. }
  destruct Ho as [|o outs Ho Hos]; [done|]. cbn [items_text]. rewrite <- app_assoc. apply Ho.
  clear Hm. induction Hos as [|o' outs Ho' Hos IH]; [done|]. cbn [more_text map concat]. rewrite <- app_assoc. cbn [app]. by apply quiet_byte, Ho'.
Qed.
(** What stands behind an item. *)
Lemma tail_ends outs e r : e = CH "]" \/ e = CH "}" -> ends_number (more_text outs ++ e :: r).
Proof. destruct outs; [|done]. by intros [->| ->]. Qed.
Lemma tail_skip outs e r : e = CH "]" \/ e = CH "}" -> JsonGrammar.skip (more_text outs ++ e :: r) = Some (more_text outs ++ e :: r).
Proof. intros He. rewrite more_items. destruct outs; [by destruct He as [->| ->]|done]. Qed.
Lemma tail_close outs e r (q : reader_of) : e = CH "]" \/ e = CH "}" ->
  (outs <> [] -> q (items_text outs ++ e :: r) = Some (items_text outs ++ [e], r)) ->
  (skipped ~~ close e q) (more_text outs ++ e :: r) = Some (more_text outs ++ [e], r).
Proof.
  intros He Hq. apply (seq_run _ _ _ [] (more_text outs ++ e :: r)); [unfold skipped; by rewrite tail_skip|]. rewrite more_items.
  destruct outs as [|o outs]; cbn [app close].
  - rewrite decide_True by done. cbn [eat]. by rewrite decide_True.
  - rewrite decide_False by (by destruct He as [->| ->]). by apply (seq_run (eat (CH ",")) _ _ [CH ","] (items_text (o :: outs) ++ e :: r)), Hq.
Qed.

Lemma elements_spelled l outs : Forall2 spelled l outs -> forall n d r, (2 * length (items_text outs ++ [CH "]"]) + 2 <= n)%nat ->
  Forall (fun v => Z.of_nat (depth v) <= d) l ->
  parse n Elements d (items_text outs ++ CH "]" :: r) = Some (items_text outs ++ [CH "]"], r) /\
  forall path acc len, elements_at ParseFloat un len n path acc (items_text outs ++ CH "]" :: r) = Some (acc ++ l, [], r).
Proof.
  induction 1 as [|v o l outs Hv Hl IH]; intros [|n] d r Hn Hd; [lia|..|lia|].
  - split; [done|]. intros path acc len. by rewrite app_nil_r.
  - cbn [items_text] in *. rewrite <- !app_assoc. rewrite !length_app in Hn. cbn [length] in Hn. inversion Hd as [|? ? Hdv Hdl]; subst.
    pose proof (tail_ends outs (CH "]") r (or_introl eq_refl)) as Hend.
    destruct (spelled_opens _ _ Hv) as (c & o' & Hco & Hsp & Hh & Hsl & Hbr).
    pose proof (proj2 (opens_gap _ (more_text outs ++ CH "]" :: r) (spelled_opens _ _ Hv))) as Hskip.
    assert (o ++ more_text outs ++ CH "]" :: r = c :: o' ++ more_text outs ++ CH "]" :: r) as Ebs by by rewrite Hco.
    assert (outs <> [] -> (2 * length (items_text outs ++ [CH "]"]) + 2 <= n)%nat) as Hmore.
    { intros Hne. rewrite (more_items outs) in Hn. destruct outs; [done|]. rewrite length_app. cbn [length] in *. rewrite Hco in Hn. cbn [length] in Hn. lia. }
    split.
    + cbn [parse]. apply (seq_run _ _ _ [] (o ++ more_text outs ++ CH "]" :: r)); [unfold skipped; by rewrite Hskip|].
      rewrite Ebs. cbn [or_empty]. rewrite decide_False by done. rewrite <- Ebs.
      apply (seq_run _ _ _ o (more_text outs ++ CH "]" :: r)); [apply (spelled_parse _ _ Hv); [lia|done..]|].
      apply tail_close; [by left|]. intros Hne. by apply IH; [apply Hmore|].
    + intros path acc len. cbn [elements_at]. fold (elements_at ParseFloat un len) (value_at ParseFloat un len). rewrite Hskip. cbn [mbind option_bind].
      rewrite Ebs. rewrite decide_False by done. rewrite <- Ebs.
      rewrite (spelled_value _ _ Hv) by (done || lia). cbn [mbind option_bind]. rewrite tail_skip by by left. cbn [mbind option_bind].
      rewrite more_items. destruct outs as [|o2 outs]; cbn [app].
      * rewrite decide_True by done. inversion Hl; subst. done.
      * rewrite decide_False, decide_True by done. destruct (IH n d r) as [_ Hat]; [by apply Hmore|done|]. rewrite Hat. cbn [mbind option_bind app].
        by rewrite <- app_assoc.
Qed.

(** A member: its key and its value. *)
Definition spelled_member (kv : list Z * value F) (out : list Z) : Prop := exists b o,
  out = 34 :: b ++ 34 :: CH ":" :: o /\ body b /\ unquote (34 :: b ++ [34]) = Val (Some kv.1) /\ spelled kv.2 o.
Definition insert_all (acc : gmap (list Z) (value F)) (l : list (list Z * value F)) : gmap (list Z) (value F) :=
  foldl (fun m kv => <[kv.1 := kv.2]> m) acc l.
Lemma key_read b r : body b -> (eat 34 ~~ read_string) (34 :: b ++ 34 :: r) = Some (34 :: b ++ [34], r).
Proof.
  intros Hb. apply (seq_run (eat 34) _ _ [34] (b ++ 34 :: r)); [done|]. apply body_string; [done|]. rewrite length_app. cbn. lia.
Qed.
Lemma member_parse kv out : spelled_member kv out -> forall n d r, (2 * length out <= n)%nat -> Z.of_nat (depth kv.2) <= d -> ends_number r ->
  member (parse n Value d) (out ++ r) = Some (out, r).
Proof.
  intros (b & o & -> & Hb & _ & Ho) n d r Hn Hd Hr. cbn [length] in Hn. rewrite length_app in Hn. cbn [length] in Hn.
  replace ((34 :: b ++ 34 :: CH ":" :: o) ++ r) with (34 :: b ++ 34 :: CH ":" :: o ++ r) by (cbn [app]; by rewrite <- app_assoc).
  replace (34 :: b ++ 34 :: CH ":" :: o) with ([34] ++ (b ++ [34]) ++ [] ++ [CH ":"] ++ o) by (cbn [app]; by rewrite <- app_assoc).
  pose proof (key_read b (CH ":" :: o ++ r) Hb) as Hk. apply seq_read_inv in Hk as (k1 & r1 & k2 & [-> [= <-]]%eat_read & Hk & [= <-]).
  unfold member. eapply seq_run; [by apply eat_run|]. eapply seq_run; [exact Hk|]. eapply seq_run; [done|]. eapply seq_run; [by apply eat_run|].
  by apply (spelled_parse _ _ Ho); [lia|..].
Qed.
Lemma members_spelled l outs : Forall2 spelled_member l outs -> forall n d r, (2 * length (items_text outs ++ [CH "}"]) + 2 <= n)%nat ->
  Forall (fun kv => Z.of_nat (depth kv.2) <= d) l ->
  parse n Members d (items_text outs ++ CH "}" :: r) = Some (items_text outs ++ [CH "}"], r) /\
  forall path acc len, members_at ParseFloat un len n path acc (items_text outs ++ CH "}" :: r) = Some (insert_all acc l, [], r).
Proof.
  induction 1 as [|kv o l outs Hv Hl IH]; intros [|n] d r Hn Hd; [lia|done|lia|].
  cbn [items_text] in *. rewrite <- !app_assoc. rewrite !length_app in Hn. cbn [length] in Hn. inversion Hd as [|? ? Hdv Hdl]; subst.
  pose proof (tail_ends outs (CH "}") r (or_intror eq_refl)) as Hend.
  pose proof Hv as (b & ov & Ho & Hb & Hu & Hov).
  assert (o ++ more_text outs ++ CH "}" :: r = 34 :: b ++ 34 :: CH ":" :: ov ++ more_text outs ++ CH "}" :: r) as Ebs.
  { rewrite Ho. cbn [app]. by rewrite <- app_assoc. }
  assert (JsonGrammar.skip (o ++ more_text outs ++ CH "}" :: r) = Some (o ++ more_text outs ++ CH "}" :: r)) as Hskip by by rewrite Ebs.
  assert (outs <> [] -> (2 * length (items_text outs ++ [CH "}"]) + 2 <= n)%nat) as Hmore.
  { intros Hne. rewrite (more_items outs) in Hn. destruct outs; [done|]. rewrite length_app. cbn [length] in *. rewrite Ho in Hn. cbn [length] in Hn. lia. }
  split.
  - cbn [parse]. apply (seq_run _ _ _ [] (o ++ more_text outs ++ CH "}" :: r)); [unfold skipped; by rewrite Hskip|].
    rewrite Ebs. cbn [or_empty]. rewrite decide_False by done. rewrite <- Ebs.
    apply (seq_run _ _ _ o (more_text outs ++ CH "}" :: r)); [by apply (member_parse kv o Hv); [lia|..]|].
    apply tail_close; [by right|]. intros Hne. by apply IH; [apply Hmore|].
  - intros path acc len. cbn [members_at]. fold (members_at ParseFloat un len) (value_at ParseFloat un len). rewrite Hskip. cbn [mbind option_bind].
    rewrite Ebs. rewrite decide_False by done. rewrite (key_read b _ Hb). cbn [mbind option_bind]. rewrite Hu. cbn [mbind option_bind].
    rewrite (skip_here (CH ":")) by done. cbn [mbind option_bind eat]. rewrite decide_True by done. cbn [mbind option_bind].
    rewrite (spelled_value _ _ Hov); [|rewrite Ho in Hn; cbn [length] in Hn; rewrite length_app in Hn; cbn [length] in Hn; lia|done].
    cbn [mbind option_bind]. rewrite tail_skip by by right. cbn [mbind option_bind].
    rewrite more_items. destruct outs as [|o2 outs]; cbn [app].
    + rewrite decide_True by done. by inversion Hl; subst.
    + rewrite decide_False, decide_True by done. destruct (IH n d r) as [_ Hat]; [by apply Hmore|done|]. by rewrite Hat.
Qed.

(** ** Arrays and objects *)

Lemma array_spelled l outs : Forall2 spelled l outs -> spelled (VArray l) (CH "[" :: items_text outs ++ [CH "]"]).
Proof.
  intros Hl. split.
  - by eexists _, _.
  - intros r Hr. cbn [app]. apply quiet_byte; [done..|]. rewrite <- app_assoc. apply items_quiet; [|by apply quiet_byte].
    induction Hl; constructor; [by apply spelled_quiet with x|done].
  - intros [|n] d r Hn Hd Hr; [lia|]. cbn [length] in Hn. cbn [app parse]. apply (seq_run _ _ _ [] (CH "[" :: (items_text outs ++ [CH "]"]) ++ r)); [done|].
    cbn [value_body]. rewrite decide_False, decide_True by done. unfold bracket. cbn [depth] in Hd. rewrite decide_False by lia.
    apply (seq_run (eat (CH "[")) _ _ [CH "["] ((items_text outs ++ [CH "]"]) ++ r)); [done|]. rewrite <- app_assoc.
    apply (elements_spelled l outs Hl n (d - 1) r); [lia|]. apply Forall_forall. intros v Hv%depth_element. cbn [depth] in Hv. lia.
  - intros [|n] path len r Hn Hr; [lia|]. cbn [length] in Hn. cbn [app value_at]. fold (elements_at ParseFloat un len) (value_at ParseFloat un len).
    rewrite (skip_here (CH "[")) by done. cbn [mbind option_bind]. rewrite decide_False, decide_True by done. rewrite <- app_assoc.
    destruct (elements_spelled l outs Hl n (Z.of_nat (depth (VArray l))) r) as [_ Hat]; [cbn [app] in *; lia| |by rewrite Hat].
    apply Forall_forall. intros v Hv%depth_element. lia.
Qed.
Lemma object_spelled m l outs : Forall2 spelled_member l outs -> insert_all ∅ l = m -> (forall kv, kv ∈ l -> m !! kv.1 = Some kv.2) ->
  spelled (VObject m) (CH "{" :: items_text outs ++ [CH "}"]).
Proof.
  intros Hl Hm Hin. assert (Forall (fun kv => (depth kv.2 < depth (VObject m))%nat) l) as Hd.
  { apply Forall_forall. intros kv Hkv%Hin. by apply depth_member in Hkv. }
  split.
  - by eexists _, _.
  - intros r Hr. cbn [app]. apply quiet_byte; [done..|]. rewrite <- app_assoc. apply items_quiet; [|by apply quiet_byte].
    clear - Hl. induction Hl as [|kv o l outs (b & o' & -> & Hb & _ & Ho) Hl IH]; constructor; [|done]. intros r Hr. cbn [app].
    rewrite <- app_assoc. change (34 :: CH ":" :: o') with ([34] ++ CH ":" :: o'). rewrite <- app_assoc, (app_assoc b).
    apply quiet_string; [by apply body_closed|]. by apply quiet_byte, (spelled_quiet _ _ Ho).
  - intros [|n] d r Hn Hdm Hr; [lia|]. cbn [length] in Hn. cbn [app parse]. apply (seq_run _ _ _ [] (CH "{" :: (items_text outs ++ [CH "}"]) ++ r)); [done|].
    cbn [value_body]. rewrite decide_True by done. unfold bracket. pose proof (Nat.lt_0_succ (pred (depth (VObject m)))) as Hpos. cbn [depth pred] in Hpos, Hdm.
    rewrite decide_False by lia. apply (seq_run (eat (CH "{")) _ _ [CH "{"] ((items_text outs ++ [CH "}"]) ++ r)); [done|]. rewrite <- app_assoc.
    apply (members_spelled l outs Hl n (d - 1) r); [lia|]. eapply Forall_impl; [exact Hd|]. cbn [depth]. intros kv Hkv. lia.
  - intros [|n] path len r Hn Hr; [lia|]. cbn [length] in Hn. cbn [app value_at]. fold (members_at ParseFloat un len) (value_at ParseFloat un len).
    rewrite (skip_here (CH "{")) by done. cbn [mbind option_bind]. rewrite decide_True by done. rewrite <- app_assoc.
    destruct (members_spelled l outs Hl n (Z.of_nat (depth (VObject m))) r) as [_ Hat]; [cbn [app] in *; lia| |by rewrite Hat; cbn; rewrite Hm].
    eapply Forall_impl; [exact Hd|]. cbn. intros kv Hkv. lia.
Qed.

(** ** What the encoders write *)

Definition writes (e : encoder (F := F)) (out : list Z) : Prop := forall b, e b = Val (inl (b ++ out)).
Lemma writes_write bs : writes (write bs) bs.
Proof. done. Qed.
Lemma writes_then f g o1 o2 : writes f o1 -> writes g o2 -> writes (and_then f g) (o1 ++ o2).
Proof. intros Hf Hg b. unfold and_then. rewrite Hf. cbn [obind]. by rewrite Hg, app_assoc. Qed.
Lemma writes_same e o o' : writes e o -> o = o' -> writes e o'.
Proof. by intros ? ->. Qed.

Lemma array_items_write es outs : Forall2 writes es outs ->
  writes (array_items true es) (items_text outs) /\ writes (array_items false es) (more_text outs).
Proof.
  induction 1 as [|e o es outs He Hes [_ IH]]; [by split; apply writes_write|]. cbn [array_items items_text more_text map concat]. split.
  - by apply (writes_then _ _ ([] ++ o)), IH; apply writes_then.
  - apply (writes_then _ _ ([CH ","] ++ o)), IH. by apply writes_then.
Qed.
Definition writes_member (esc : bool) (ke : list Z * encoder (F := F)) (out : list Z) : Prop := exists b o,
  appendString [] ke.1 esc = Some (34 :: b ++ [34]) /\ writes ke.2 o /\ out = 34 :: b ++ 34 :: CH ":" :: o.
Lemma map_items_write q esc kes outs : Forall2 (writes_member esc) kes outs ->
  writes (map_items true kes (mkOpts q esc)) (items_text outs) /\ writes (map_items false kes (mkOpts q esc)) (more_text outs).
Proof.
  induction 1 as [|[k e] o kes outs He Hkes [_ IH]]; [by split; apply writes_write|].
  destruct He as (b & ov & Hk & Hov & ->). cbn [fst snd] in *.
  assert (forall first o0, writes first o0 -> writes (and_then (and_then (and_then (and_then first (write_string k esc)) (write [CH ":"])) e)
    (map_items false kes (mkOpts q esc))) (o0 ++ (34 :: b ++ 34 :: CH ":" :: ov) ++ more_text outs)) as Hgo.
  { intros first o0 Hfirst. apply (writes_same _ ((((o0 ++ 34 :: b ++ [34]) ++ [CH ":"]) ++ ov) ++ more_text outs)).
    - repeat apply writes_then; try done. intros b0. unfold write_string. by rewrite Hk.
    - rewrite <- !app_assoc. cbn [app]. by rewrite <- !app_assoc. }
  cbn [map_items items_text more_text map concat escapeHTML]. split.
  - by apply (Hgo (write []) []).
  - rewrite app_comm_cons. by apply (Hgo (write [CH ","]) [CH ","]).
Qed.

(** The members in the order of their keys. *)
Lemma insert_all_map (m : gmap (list Z) (value F)) l : map_to_list m ≡ₚ l -> insert_all ∅ l = m.
Proof.
  intros Hl. assert (insert_all ∅ l = list_to_map (reverse l)) as ->.
  { clear Hl. unfold insert_all, list_to_map. generalize (∅ : gmap (list Z) (value F)) as acc. induction l as [|kv l IH]; intros acc; [done|].
    cbn [foldl]. by rewrite reverse_cons, foldr_app, IH. }
  rewrite <- (list_to_map_to_list m). symmetry. apply list_to_map_proper; [apply NoDup_fst_map_to_list|]. by rewrite Hl, reverse_Permutation.
Qed.
Lemma sorted_members {A} (f : value F -> A) m : exists l, map_to_list m ≡ₚ l /\
  merge_sort key_le (map_to_list (f <$> m)) = map (prod_map id f) l.
Proof.
  destruct (Permutation_map_inv (prod_map id f) (map_to_list m) (l1 := merge_sort key_le (map_to_list (f <$> m)))) as (l & Hl & Hp).
  - rewrite merge_sort_Permutation. by rewrite map_to_list_fmap.
  - by exists l.
Qed.

(** What is to be shown of a value, by induction on its depth. *)
Definition encodes (esc : bool) (v : value F) : Prop :=
  exists out, spelled v out /\ writes (reflectValue fl (mkOpts false esc) v) out.
Lemma array_encodes esc l : Forall (encodes esc) l -> encodes esc (VArray l).
Proof.
  intros Hl. assert (exists outs, Forall2 spelled l outs /\ Forall2 writes (map (reflectValue fl (mkOpts false esc)) l) outs) as (outs & Hsp & Hw).
  { induction Hl as [|x l (o & ? & ?) Hl (outs & ? & ?)]; [by exists []|]. exists (o :: outs). by split; constructor. }
  exists (CH "[" :: items_text outs ++ [CH "]"]). split; [by apply array_spelled|]. cbn [reflectValue].
  apply (writes_same _ (([CH "["] ++ items_text outs) ++ [CH "]"])); [|by rewrite <- app_assoc].
  by repeat apply writes_then; try apply writes_write; apply array_items_write.
Qed.
Lemma object_encodes esc m : (forall k x, m !! k = Some x -> text k /\ encodes esc x) -> encodes esc (VObject m).
Proof.
  intros Hm. destruct (sorted_members (reflectValue fl (mkOpts false esc)) m) as (l & Hp & Hl).
  assert (forall kv, kv ∈ l -> m !! kv.1 = Some kv.2) as Hin.
  { intros [k x] Hk. apply elem_of_map_to_list. by rewrite Hp. }
  assert (exists outs, Forall2 spelled_member l outs /\ Forall2 (writes_member esc) (map (prod_map id (reflectValue fl (mkOpts false esc))) l) outs)
    as (outs & Hsp & Hw).
  { clear Hp Hl. induction l as [|[k x] l IHl]; [by exists []|]. destruct IHl as (outs & ? & ?); [intros kv Hkv; apply Hin; by right|].
    assert (m !! k = Some x) as Hk by (by apply (Hin (k, x)); left). destruct (Hm _ _ Hk) as [Htext (o & Ho & Hwo)].
    destruct (appendString_text k esc Htext) as (b & Ha & Hb & Hu). exists ((34 :: b ++ 34 :: CH ":" :: o) :: outs).
    split; constructor; try done; by exists b, o. }
  exists (CH "{" :: items_text outs ++ [CH "}"]). split; [by eapply object_spelled; [|apply insert_all_map|]|]. cbn [reflectValue]. rewrite Hl.
  apply (writes_same _ (([CH "{"] ++ items_text outs) ++ [CH "}"])); [|by rewrite <- app_assoc].
  by repeat apply writes_then; try apply writes_write; apply map_items_write.
Qed.
Lemma encodable_encodes esc v : encodable v -> encodes esc v.
Proof.
  assert (forall n v, (depth v < n)%nat -> encodable v -> encodes esc v) as Hall; [|by apply (Hall (S (depth v))); lia].
  clear v. induction n as [|n IH]; [lia|]. intros v Hn Hv. destruct Hv as [|b|s Hun Hs|f Hun Hf|s Hs|l Hl|m Hm].
  - exists null_text. split; [|apply writes_write]. apply word_spelled; [|done..]. by left.
  - exists (bool_text b). split; [|by apply writes_write]. destruct b; (apply word_spelled; [|done..]); [by right; left|by do 2 right; left].
  - exists s. apply isValidNumber_grammar in Hs as Hg. split; [apply number_spelled; [done..|]; unfold number_value; by rewrite Hun|].
    intros b. cbn [reflectValue]. unfold numberEncoder. destruct s as [|c s]; [done|]. by rewrite decide_False, Hs.
  - destruct (float_text_reads fl ParseFloat f Hf) as [Hnum Hp]. exists (float_text fl f).
    split; [apply number_spelled; [done..|]; unfold number_value; by rewrite Hun, Hp|].
    intros b. cbn [reflectValue]. unfold floatEncoder, float_text. rewrite Hf. by destruct (IsExtreme fl f).
  - destruct (appendString_text s esc Hs) as (b & Ha & Hb & Hu). exists (34 :: b ++ [34]). split; [by apply string_spelled|].
    intros b0. cbn [reflectValue]. unfold stringEncoder. cbn [JsonEncode.quoted escapeHTML]. unfold write_string. by rewrite Ha.
  - apply array_encodes. rewrite Forall_forall in *. intros x Hx. apply IH; [|by apply Hl]. apply depth_element in Hx. lia.
  - apply object_encodes. intros k x Hk. destruct (Hm k x Hk) as [Ht Hx]. split; [done|]. apply IH; [|done]. apply depth_member in Hk. lia.
Qed.
End Encodable.

(** ** Marshal and UnmarshalContext *)

Lemma spelled_document {F} (ParseFloat : list Z -> option F) un v out : spelled ParseFloat un v out ->
  Z.of_nat (depth v) <= maxNestingDepth ->
  document out = Some out /\ quiet out /\ document_value ParseFloat un out = Some (v, None).
Proof.
  intros Hs Hd. assert (document out = Some out) as Hdoc.
  { unfold document. rewrite <- (app_nil_r out) at 2. rewrite (spelled_parse _ _ _ _ Hs) by (done || lia). cbn [mbind option_bind].
    by change (JsonGrammar.skip []) with (Some (@nil Z)). }
  split; [done|]. split; [rewrite <- (app_nil_r out); apply (spelled_quiet _ _ _ _ Hs); constructor|].
  unfold document_value. rewrite Hdoc. cbn [mbind option_bind]. rewrite <- (app_nil_r out) at 3.
  rewrite (spelled_value _ _ _ _ Hs); [done| |done]. unfold value_fuel. lia.
Qed.
Lemma unmarshal_clean {F} (ParseFloat : list Z -> option F) out v e room : quiet out -> document_value ParseFloat false out = Some (v, e) ->
  UnmarshalContext ParseFloat room out = Val (inl (v, e)).
Proof.
  intros Hq Hv. assert (is_Some (document out)) as Hdoc by (unfold document_value in Hv; by destruct (document out)).
  unfold UnmarshalContext. rewrite (strip_quiet out room Hq). cbn [obind].
  destruct (checkValid_scan out zeroScanner) as (x & s & -> & Hx). cbn [obind]. rewrite (proj2 Hx Hdoc).
  destruct (unmarshal_quiet ParseFloat out false None 0 0 s None [] Hq Hdoc) as (v' & e' & d' & -> & Hv' & _).
  cbn [obind]. by rewrite Hv in Hv'; injection Hv' as -> ->.
Qed.

(** C4: For a value of nil, bools, finite floats, valid UTF-8 strings, slices and maps with
    such keys, nested no deeper than the scanner allows, Marshal gives a document in
    compact form, and UnmarshalContext reads the very value back from it, without an
    error. *)
Theorem marshal_roundtrip {F} (fl : float64 F) (ParseFloat : list Z -> option F) (v : value F) : Float64Laws fl ParseFloat ->
  encodable fl false v -> Z.of_nat (depth v) <= maxNestingDepth ->
  exists out, Marshal fl v = Val (inl out) /\ document out = Some out /\
    forall room, UnmarshalContext ParseFloat room out = Val (inl (v, None)).
Proof.
  intros Hlaws Hv Hd. destruct (encodable_encodes fl ParseFloat false true v Hv) as (out & Hs & Hw).
  destruct (spelled_document _ _ _ _ Hs Hd) as (Hdoc & Hq & Hval). exists out. split; [apply (Hw [])|]. split; [done|].
  intros room. by apply unmarshal_clean.
Qed.

(** Floats that are 5 or 1e-9. *)
Definition two_floats : float64 bool := mkFloat64 bool (fun _ => false) id
  (fun f _ => if f then [CH "1"; CH "e"; CH "-"; CH "0"; CH "9"] else [CH "5"]).
Definition parse_two (s : list Z) : option bool :=
  if decide (s = [CH "5"]) then Some false
  else if decide (s = [CH "1"; CH "e"; CH "-"; CH "0"; CH "9"] \/ s = [CH "1"; CH "e"; CH "-"; CH "9"]) then Some true else None.
Lemma two_floats_laws : Float64Laws two_floats parse_two.
Proof.
  split.
  - by intros [].
  - intros [] _ Hf; [|done]. exists [CH "1"], (CH "-"), [CH "0"; CH "9"]. split_and!; [done|done|by right|done|by repeat constructor].
  - by intros [].
  - intros m c Hc. unfold parse_two. destruct m as [|x [|y [|z m]]]; cbn [app]; repeat case_decide; try done; exfalso; destruct_or?;
      try (match goal with H : _ :: _ :: _ :: m ++ _ = _ |- _ => apply (f_equal length) in H; cbn in H; rewrite length_app in H; cbn in H; lia end);
      simplify_eq; tauto.
Qed.
(** [{"": [1e-9, null], "ä": "\n"}]. *)
Definition sample : value bool :=
  VObject (<[ [195; 164] := VString [10] ]> (<[ [] := VArray [VFloat true; VNull] ]> ∅)).
Lemma sample_encodable : encodable two_floats false sample.
Proof.
  constructor. intros k x [[<- <-]|[_ [[<- <-]|[_ Hk]]%lookup_insert_Some]]%lookup_insert_Some.
  - split; [by exists [228]; split; [repeat constructor; unfold valid_rune; lia|]|]. constructor. exists [10]. split; [repeat constructor; unfold valid_rune; lia|done].
  - split; [by exists []|]. repeat constructor.
  - by rewrite lookup_empty in Hk.
Qed.
Lemma marshal_roundtrip_witness : Float64Laws two_floats parse_two /\ encodable two_floats false sample /\
  Z.of_nat (depth sample) <= maxNestingDepth /\
  exists out, Marshal two_floats sample = Val (inl out) /\ document out = Some out /\
    forall room, UnmarshalContext parse_two room out = Val (inl (sample, None)).
Proof.
  assert (Float64Laws two_floats parse_two) as H1 by apply two_floats_laws.
  assert (encodable two_floats false sample) as H2 by apply sample_encodable.
  assert (Z.of_nat (depth sample) <= maxNestingDepth) as H3 by (vm_compute; discriminate).
  split; [exact H1|]. split; [exact H2|]. split; [exact H3|]. exact (marshal_roundtrip two_floats parse_two sample H1 H2 H3).
Defined.
