(* ===== verification/JsonStream.v ===== *)
(** * Streams of values: stream.go of common/json/internal/contextjson

    The Decoder, decoding into an [any], with its token interface, and the Encoder.  An
    [io.Reader] is the list of the answers it has ready, each some bytes and an error;
    of an answer that is longer than the buffer it is given it keeps the rest, and behind
    the last one it answers [io.EOF].  An [io.Writer] is a step function. *)

From S2P Require Import Prelude.
From S2P Require Import JsonScanner.
From S2P Require Import JsonIndent.
From S2P Require Import JsonString.
From S2P Require Import JsonComment.
From S2P Require Import JsonDecode.
From S2P Require Import JsonEncode.
From Stdlib Require Import Ascii.

Local Open Scope go_scope.
Local Open Scope Z_scope.

(** ** Data *)

Inductive tokenState :=
  tokenTopValue | tokenArrayStart | tokenArrayValue | tokenArrayComma
  | tokenObjectStart | tokenObjectKey | tokenObjectColon | tokenObjectValue | tokenObjectComma.
#[export] Instance tokenState_eq_dec : EqDecision tokenState.
Proof. solve_decision. Defined.

(** The errors of a Decoder: of its reader, of the scanner or stripJSONComments, of a
    number that cannot be converted, of Decode at the wrong place, and of an unexpected
    byte, whose message is made of the token state. *)
Inductive streamError :=
  | ErrIO (e : Prelude.error)
  | ErrSyntax (e : SyntaxError)
  | ErrNumber (e : numberError)
  | ErrPlace (msg : string) (offset : Z)
  | ErrToken (c : Z) (state : tokenState) (offset : Z).

Notation reader := (list (list Z * option Prelude.error)).
(** [Read] into a slice of length [room]. *)
Definition Read (room : Z) (r : reader) : list Z * option Prelude.error * reader :=
  match r with
  | [] => ([], Some EOF, [])
  | (bs, e) :: r =>
      if decide (zlen bs <= room) then (bs, e, r) else (ztake room bs, None, (zdrop room bs, e) :: r)
  end.

Record Decoder := mkDecoder {
  rd : reader;
  buf : list Z;
  bufcap : Z;
  d : decodeState;
  scanp : Z;
  scanned : Z;
  scan : scanner;
  err : option streamError;
  state : tokenState;
  tokenStack : list tokenState }.

Inductive Token (F : Type) := Delim (c : Z) | Other (v : value F).
Arguments Delim {F} c.
Arguments Other {F} v.

Local Notation M := (GoM Decoder).

Definition NewDecoder (r : reader) : Decoder :=
  mkDecoder r [] 0 (mkDecodeState [] 0 0 zeroScanner None false [] None) 0 0 zeroScanner None tokenTopValue [].
Definition UseNumber (dec : Decoder) : Decoder :=
  let d0 := d dec in
  mkDecoder (rd dec) (buf dec) (bufcap dec)
    (mkDecodeState (data d0) (off d0) (opcode d0) (JsonDecode.scan d0) (savedError d0) true (context d0) (comments d0))
    (scanp dec) (scanned dec) (scan dec) (err dec) (state dec) (tokenStack dec).

Definition set_scanp (n : Z) : M unit := modify (fun dec =>
  mkDecoder (rd dec) (buf dec) (bufcap dec) (d dec) n (scanned dec) (scan dec) (err dec) (state dec) (tokenStack dec)).
Definition set_err (e : streamError) : M unit := modify (fun dec =>
  mkDecoder (rd dec) (buf dec) (bufcap dec) (d dec) (scanp dec) (scanned dec) (scan dec) (Some e) (state dec) (tokenStack dec)).
Definition set_d (d0 : decodeState) : M unit := modify (fun dec =>
  mkDecoder (rd dec) (buf dec) (bufcap dec) d0 (scanp dec) (scanned dec) (scan dec) (err dec) (state dec) (tokenStack dec)).
Definition set_tokens (t : tokenState) (ts : list tokenState) : M unit := modify (fun dec =>
  mkDecoder (rd dec) (buf dec) (bufcap dec) (d dec) (scanp dec) (scanned dec) (scan dec) (err dec) t ts).
Definition set_state (t : tokenState) : M unit := ts <- gets tokenStack ;; set_tokens t ts.
(** A call of the scanner. *)
Definition scanning {A} (m : GoM scanner A) : M A := fun dec =>
  match m (scan dec) with
  | Val (a, s) => Val (a, mkDecoder (rd dec) (buf dec) (bufcap dec) (d dec) (scanp dec) (scanned dec) s (err dec) (state dec) (tokenStack dec))
  | Panic => Panic
  | OutOfFuel => OutOfFuel
  end.
Definition outcome_of {A} (o : outcome A) : M A := fun dec => let! a := o in Val (a, dec).
Definition stuck {A} : M A := fun _ => OutOfFuel.

Definition InputOffset : M Z := gets (fun dec => scanned dec + scanp dec).
Definition Buffered (dec : Decoder) : option (list Z) := slice (buf dec) (scanp dec) (zlen (buf dec)).

(** ** Reading *)

Definition nonSpace (b : list Z) : bool := existsb (fun c => negb (isSpace c)) b.

Definition refill : M (option Prelude.error) :=
  dec <- gets id ;;
  (if decide (scanp dec > 0) then
     rest <- lift (slice (buf dec) (scanp dec) (zlen (buf dec))) ;;
     modify (fun dec => mkDecoder (rd dec) rest (bufcap dec) (d dec) 0 (scanned dec + scanp dec) (scan dec) (err dec) (state dec) (tokenStack dec))
   else ret tt) ;;
  dec <- gets id ;;
  let c := if decide (bufcap dec - zlen (buf dec) < 512) then 2 * bufcap dec + 512 else bufcap dec in
  let '(bs, e, r) := Read (c - zlen (buf dec)) (rd dec) in
  modify (fun dec => mkDecoder r (buf dec ++ bs) c (d dec) (scanp dec) (scanned dec) (scan dec) (err dec) (state dec) (tokenStack dec)) ;;
  ret e.

(** The loop of readValue over the bytes of the buffer, the first of which is at [scanp]:
    where the value ends, or where the bytes end. *)
Inductive scan_answer := Found (scanp : Z) | Ran (scanp : Z) | Failed (e : SyntaxError).
Fixpoint scan_bytes (bs : list Z) (scanp : Z) : GoM scanner scan_answer :=
  match bs with
  | [] => ret (Ran scanp)
  | c :: bs =>
      modify (fun s => set_bytes (bytes s + 1) s) ;;
      op <- run_step c ;;
      if decide (op = scanEnd) then modify (fun s => set_bytes (bytes s - 1) s) ;; ret (Found scanp)
      else if decide (op = scanEndObject \/ op = scanEndArray) then
        o <- stateEndValue 32 ;;
        if decide (o = scanEnd) then ret (Found (scanp + 1)) else scan_bytes bs (scanp + 1)
      else if decide (op = scanError) then e <- gets JsonScanner.err ;; e <- lift e ;; ret (Failed e)
      else scan_bytes bs (scanp + 1)
  end.
(** [e] is the error of the last refill; [n] bounds the refills. *)
Fixpoint readValue_loop (n : nat) (i : Z) (e : option Prelude.error) : M (Z + streamError) :=
  dec <- gets id ;;
  a <- scanning (scan_bytes (zdrop i (buf dec)) i) ;;
  match a with
  | Found i => ret (inl (i - scanp dec))
  | Failed e => set_err (ErrSyntax e) ;; ret (inr (ErrSyntax e))
  | Ran i =>
      match e with
      | Some e =>
          op <- (if decide (e = EOF) then scanning (run_step 32) else ret scanError) ;;
          if decide (e = EOF /\ op = scanEnd) then ret (inl (i - scanp dec))
          else
            let e := if decide (e = EOF) then if nonSpace (buf dec) then ErrUnexpectedEOF else EOF else e in
            set_err (ErrIO e) ;; ret (inr (ErrIO e))
      | None =>
          match n with
          | O => stuck
          | S n =>
              e <- refill ;;
              p <- gets scanp ;;
              readValue_loop n (p + (i - scanp dec)) e
          end
      end
  end.
(** How often a reader is read at most before it answers [io.EOF]. *)
Definition reads (r : reader) : nat := S (length r + length (concat (map fst r))).
Definition readValue : M (Z + streamError) :=
  scanning (modify reset) ;;
  dec <- gets id ;;
  readValue_loop (reads (rd dec)) (scanp dec) None.

(** ** Looking ahead *)

Fixpoint skipLineCommentInBuffer (bs : list Z) (i : Z) : option Z :=
  match bs with
  | [] => None
  | c :: bs => if decide (c = 10 \/ c = 13) then Some (i + 1) else skipLineCommentInBuffer bs (i + 1)
  end.
Fixpoint skipBlockCommentInBuffer (bs : list Z) (i : Z) : option Z :=
  match bs with
  | c :: bs =>
      match bs with
      | [] => None
      | d :: _ => if decide (c = CH "*" /\ d = CH "/") then Some (i + 2) else skipBlockCommentInBuffer bs (i + 1)
      end
  | [] => None
  end.
(** The byte ahead and its index, or the index where the buffer has to be filled. *)
Inductive peek_answer := Ahead (c scanp : Z) | More_ (scanp : Z).
Fixpoint peek_bytes (n : nat) (b : list Z) (i : Z) : peek_answer :=
  match at_ b i, n with
  | None, _ | _, O => More_ i
  | Some c, S n =>
      if isSpace c then peek_bytes n b (i + 1)
      else if decide (c = CH "#") then
        match skipLineCommentInBuffer (zdrop (i + 1) b) (i + 1) with Some i => peek_bytes n b i | None => More_ i end
      else if decide (c = CH "/") then
        match at_ b (i + 1) with
        | None => More_ i
        | Some d =>
            if decide (d = CH "/") then
              match skipLineCommentInBuffer (zdrop (i + 2) b) (i + 2) with Some i => peek_bytes n b i | None => More_ i end
            else if decide (d = CH "*") then
              match skipBlockCommentInBuffer (zdrop (i + 2) b) (i + 2) with Some i => peek_bytes n b i | None => More_ i end
            else Ahead c i
        end
      else Ahead c i
  end.
Fixpoint peekFrom_loop (n : nat) (i : Z) (e : option Prelude.error) : M (Z * Z + Prelude.error) :=
  dec <- gets id ;;
  match peek_bytes (length (buf dec)) (buf dec) i with
  | Ahead c i => ret (inl (c, i))
  | More_ i =>
      match e with
      | Some e => ret (inr e)
      | None => match n with O => stuck | S n => e <- refill ;; peekFrom_loop n (i - scanp dec) e end
      end
  end.
Definition peekFrom (i : Z) : M (Z * Z + Prelude.error) := dec <- gets id ;; peekFrom_loop (reads (rd dec)) i None.
Definition peek : M (Z + Prelude.error) :=
  p <- gets scanp ;;
  a <- peekFrom p ;;
  match a with inr e => ret (inr e) | inl (c, i) => set_scanp i ;; ret (inl c) end.

(** ** Decoding *)

Definition advance : M unit := p <- gets scanp ;; set_scanp (p + 1).

Section Decode.
Context {F : Type} (ParseFloat : list Z -> option F).

(** After an element its comma, after a key its colon. *)
Definition tokenPrepareForDecode : M (option streamError) :=
  s <- gets state ;;
  if decide (s = tokenArrayComma) then
    c <- peek ;;
    match c with
    | inr e => ret (Some (ErrIO e))
    | inl c =>
        if decide (c <> CH ",") then o <- InputOffset ;; ret (Some (ErrPlace "expected comma after array element" o))
        else advance ;; set_state tokenArrayValue ;; ret None
    end
  else if decide (s = tokenObjectColon) then
    c <- peek ;;
    match c with
    | inr e => ret (Some (ErrIO e))
    | inl c =>
        if decide (c <> CH ":") then o <- InputOffset ;; ret (Some (ErrPlace "expected colon after object key" o))
        else advance ;; set_state tokenObjectValue ;; ret None
    end
  else ret None.
Definition tokenValueAllowed (s : tokenState) : bool :=
  match s with tokenTopValue | tokenArrayStart | tokenArrayValue | tokenObjectValue => true | _ => false end.
Definition tokenValueEnd : M unit :=
  s <- gets state ;;
  match s with
  | tokenArrayStart | tokenArrayValue => set_state tokenArrayComma
  | tokenObjectValue => set_state tokenObjectComma
  | _ => ret tt
  end.

Definition with_comments (cs : option (list Comment)) (d0 : decodeState) : decodeState :=
  mkDecodeState (data d0) (off d0) (opcode d0) (JsonDecode.scan d0) (savedError d0) (useNumber d0) (context d0) cs.
(** Decode from readValue on.  [room] is behind the copy that stripJSONComments makes.  A
    value comes with the number in it that could not be converted. *)
Definition decode_value (room : list Z) : M (value F * option numberError + streamError) :=
  n <- readValue ;;
  match n with
  | inr e => ret (inr e)
  | inl n =>
      dec <- gets id ;;
      src <- lift (slice (buf dec) (scanp dec) (scanp dec + n)) ;;
      r <- outcome_of (stripJSONComments src room) ;;
      match r with
      | inr e => ret (inr (ErrSyntax e))
      | inl (clean, cs) =>
          set_scanp (scanp dec + n) ;;
          r <- outcome_of (unmarshal ParseFloat (with_comments cs (init clean (d dec)))) ;;
          set_d (snd r) ;;
          tokenValueEnd ;;
          ret (inl (fst r))
      end
  end.
Definition Decode (room : list Z) : M (value F * option numberError + streamError) :=
  e <- gets err ;;
  match e with
  | Some e => ret (inr e)
  | None =>
      e <- tokenPrepareForDecode ;;
      match e with
      | Some e => ret (inr e)
      | None =>
          s <- gets state ;;
          if negb (tokenValueAllowed s) then o <- InputOffset ;; ret (inr (ErrPlace "not at beginning of value" o))
          else decode_value room
      end
  end.

(** ** Tokens *)

Notation answer := (Token F + streamError)%type.
Definition tokenError (c : Z) : M answer :=
  s <- gets state ;; o <- InputOffset ;; ret (inr (ErrToken c s o)).
(** An opening bracket, and a closing one where [allowed] says so. *)
Definition open_token (c : Z) (inside : tokenState) : M answer :=
  s <- gets state ;;
  if negb (tokenValueAllowed s) then tokenError c
  else advance ;; ts <- gets tokenStack ;; set_tokens inside (s :: ts) ;; ret (inl (Delim c)).
Definition close_token (c : Z) (allowed : list tokenState) : M answer :=
  s <- gets state ;;
  if decide (s ∉ allowed) then tokenError c
  else
    advance ;;
    ts <- gets tokenStack ;;
    match ts with
    | [] => panic
    | t :: ts => set_tokens t ts ;; tokenValueEnd ;; ret (inl (Delim c))
    end.
Definition value_token (room : list Z) (c : Z) : M answer :=
  s <- gets state ;;
  if negb (tokenValueAllowed s) then tokenError c
  else
    r <- Decode room ;;
    match r with
    | inr e => ret (inr e)
    | inl (_, Some e) => ret (inr (ErrNumber e))
    | inl (v, None) => ret (inl (Other v))
    end.
(** A key: [old] is put back if it cannot be decoded. *)
Definition key_token (room : list Z) : M answer :=
  old <- gets state ;;
  set_state tokenTopValue ;;
  r <- Decode room ;;
  set_state old ;;
  match r with
  | inr e => ret (inr e)
  | inl (v, _) => set_state tokenObjectColon ;; ret (inl (Other v))
  end.
(** The loop over separators; [n] bounds them. *)
Fixpoint Token_loop (n : nat) (room : list Z) : M answer :=
  match n with
  | O => stuck
  | S n =>
      c <- peek ;;
      match c with
      | inr e => ret (inr (ErrIO e))
      | inl c =>
          s <- gets state ;;
          if decide (c = CH "[") then open_token c tokenArrayStart
          else if decide (c = CH "]") then close_token c [tokenArrayStart; tokenArrayComma; tokenArrayValue]
          else if decide (c = CH "{") then open_token c tokenObjectStart
          else if decide (c = CH "}") then close_token c [tokenObjectStart; tokenObjectComma; tokenObjectKey]
          else if decide (c = CH ":") then
            if decide (s <> tokenObjectColon) then tokenError c
            else advance ;; set_state tokenObjectValue ;; Token_loop n room
          else if decide (c = CH ",") then
            if decide (s = tokenArrayComma) then advance ;; set_state tokenArrayValue ;; Token_loop n room
            else if decide (s = tokenObjectComma) then advance ;; set_state tokenObjectKey ;; Token_loop n room
            else tokenError c
          else if decide (c = 34 /\ (s = tokenObjectStart \/ s = tokenObjectKey)) then key_token room
          else value_token room c
      end
  end.
(** Behind a separator there is a token or an error, never another separator. *)
Definition next_token (room : list Z) : M answer := Token_loop 2 room.

Definition More : M bool :=
  c <- peek ;;
  match c with
  | inr _ => ret false
  | inl c =>
      if decide (c = CH "]" \/ c = CH "}") then ret false
      else if decide (c = CH ",") then
        p <- gets scanp ;;
        a <- peekFrom (p + 1) ;;
        match a with
        | inr _ => ret false
        | inl (c, _) => ret (negb (bool_decide (c = CH "]" \/ c = CH "}")))
        end
      else ret true
  end.
End Decode.

(** ** Encoding *)

Section Encoder.
Context {F : Type} (fl : float64 F) {W : Type} (Write : W -> list Z -> option Prelude.error * W).

Record Encoder := mkEncoder {
  w : W;
  encErr : option Prelude.error;
  encEscapeHTML : bool;
  indentBuf : list Z;
  indentPrefix : list Z;
  indentValue : list Z }.
Definition NewEncoder (w : W) : Encoder := mkEncoder w None true [] [] [].
Definition SetIndent (prefix indent : list Z) (enc : Encoder) : Encoder :=
  mkEncoder (w enc) (encErr enc) (encEscapeHTML enc) (indentBuf enc) prefix indent.
Definition SetEscapeHTML (on : bool) (enc : Encoder) : Encoder :=
  mkEncoder (w enc) (encErr enc) on (indentBuf enc) (indentPrefix enc) (indentValue enc).

(** The errors of Encode. *)
Inductive encoderError := EncodeFailed (e : encodeError F) | IndentFailed (e : SyntaxError) | WriteFailed (e : Prelude.error).
(** [pooled] is the scanner that appendIndent takes from its pool. *)
Definition Encode (pooled : scanner) (v : value F) (enc : Encoder) : outcome (option encoderError * Encoder) :=
  match encErr enc with
  | Some e => Val (Some (WriteFailed e), enc)
  | None =>
      let! r := reflectValue fl (mkOpts false (encEscapeHTML enc)) v [] in
      match r with
      | inr e => Val (Some (EncodeFailed e), enc)
      | inl b =>
          let b := b ++ [10] in
          let! (b, enc, e) :=
            (if decide (indentPrefix enc <> [] \/ indentValue enc <> []) then
               let! (ib, e) := appendIndent pooled [] b (indentPrefix enc) (indentValue enc) in
               Val (ib, mkEncoder (w enc) None (encEscapeHTML enc) ib (indentPrefix enc) (indentValue enc), e)
             else Val (b, enc, None)) in
          match e with
          | Some e => Val (Some (IndentFailed e), enc)
          | None =>
              let '(e, w') := Write (w enc) b in
              Val (WriteFailed <$> e, mkEncoder w' e (encEscapeHTML enc) (indentBuf enc) (indentPrefix enc) (indentValue enc))
          end
      end
  end.
End Encoder.
