(* ===== verification/JsonStreamSteps.v ===== *)
(** * Streams: what the scanner says about where a value ends

    The facts every step has ([facts]), and what the loop of readValue over the bytes
    comes to ([scan_bytes_spec]): the end of a document, the end of the bytes or an error. *)

From S2P Require Import Prelude.
From S2P Require Import JsonScanner.
From S2P Require Import JsonGrammar.
From S2P Require Import JsonScannerTheorems.
From S2P Require Import JsonScannerProps.
From S2P Require Import JsonIndent.
From S2P Require Import JsonIndentTheorems.
From S2P Require Import JsonString.
From S2P Require Import JsonStringTheorems.
From S2P Require Import JsonComment.
From S2P Require Import JsonCommentProps.
From S2P Require Import JsonDecode.
From S2P Require Import JsonEncode.
From S2P Require Import JsonStream.
From Stdlib Require Import Ascii.

Local Open Scope go_scope.
Local Open Scope Z_scope.

(** ** The end of a value *)

(** The scanner stands behind a whole value. *)
Definition ends_value (st : JsonScanner.state) : bool :=
  match st with s0 | s1 | sDot0 | sE0 | sEndValue | sEndTop => true | _ => false end.
Definition value_over (s : scanner) : Prop := ends_value (JsonScanner.step s) = true /\ parseState s = [].

(** A state outside comments, what [endTop] is there and what may be on the stack. *)
Definition place (st : JsonScanner.state) (e : bool) (p : list Z) : Prop :=
  st = sEndTop /\ e = true /\ p = [] \/
  is_comment st = false /\ st <> sEndTop /\ st <> sError /\ e = false /\ (st = sBeginValueOrEmpty -> p <> []).
(** The scanners there are between any two bytes. *)
Inductive form : scanner -> Prop :=
  | form_plain st e p n : place st e p -> form (mkScanner st e p None n None 0)
  | form_comment st next e p n m : is_comment st = true -> place next e p -> (st = sMaybeComment -> m = 0) ->
      form (mkScanner st e p None n (Some next) m)
  | form_failed e p x n cs m : form (mkScanner sError e p (Some x) n cs m).

Definition is_end (op : Z) : Prop := op = scanEndObject \/ op = scanEndArray.
(** A bracket has been closed, and [p] is left on the stack. *)
Definition closed (p : list Z) (n : Z) : scanner :=
  if decide (p = []) then mkScanner sEndTop true [] None n None 0 else mkScanner sEndValue false p None n None 0.

(** What a step on [c] from [s] to [s'] says with its opcode. *)
Record facts (c : Z) (s : scanner) (op : Z) (s' : scanner) : Prop := mkFacts {
  facts_form : form s';
  facts_end : op = scanEnd -> value_over s;
  facts_close : is_end op -> isSpace c = false /\ exists p n, s' = closed p n;
  facts_top : endTop s = true -> scanSkipSpace <= op;
  facts_kept : op < scanSkipSpace -> is_comment (JsonScanner.step s') = false;
  facts_over : endTop s' = true -> endTop s = true \/ is_end op \/ value_over s /\ scanSkipSpace <= op }.

Definition post (Q : Z -> scanner -> Prop) (m : GoM scanner Z) (s : scanner) : Prop :=
  match m s with Val (op, s') => Q op s' | _ => True end.
Lemma post_decide Q P `{Decision P} m1 m2 s : (P -> post Q m1 s) -> (~ P -> post Q m2 s) -> post Q (if decide P then m1 else m2) s.
Proof. case_decide; auto. Qed.
Lemma post_if Q (b : bool) m1 m2 s : (b = true -> post Q m1 s) -> (b = false -> post Q m2 s) -> post Q (if b then m1 else m2) s.
Proof. destruct b; auto. Qed.
Lemma post_goto Q st (op : Z) s : Q op (mkScanner st (endTop s) (parseState s) (JsonScanner.err s) (bytes s) (commentStep s) (commentMode s)) ->
  post Q (set_step st ;; ret op) s.
Proof. done. Qed.
Lemma post_ret Q (op : Z) s : Q op s -> post Q (ret op) s.
Proof. done. Qed.
Lemma post_gets {A} Q (f : scanner -> A) (k : A -> GoM scanner Z) s : post Q (k (f s)) s -> post Q (x <- gets f ;; k x) s.
Proof. done. Qed.
Lemma post_error Q c context s : (forall x, Q scanError (mkScanner sError (endTop s) (parseState s) (Some x) (bytes s) (commentStep s) (commentMode s))) ->
  post Q (error c context) s.
Proof. intros HQ. apply HQ. Qed.

(** A step on [c] from [s0], which stands before the end of a value. *)
Section Steps.
Context (c : Z) (s0 : scanner) (Hbefore : endTop s0 = false).

Lemma facts_plain op st p n : op < scanSkipSpace \/ op = scanSkipSpace -> ~ is_end op -> place st false p ->
  facts c s0 op (mkScanner st false p None n None 0).
Proof.
  intros Hop Hno Ht. split; [by apply form_plain| |done|by rewrite Hbefore|by destruct Ht as [(-> & _)|(? & _)]|done].
  intros ->. unfold scanSkipSpace, scanEnd in Hop. lia.
Qed.
Lemma facts_failed p n cs m x : facts c s0 scanError (mkScanner sError false p (Some x) n cs m).
Proof. split; [apply form_failed|done| |by rewrite Hbefore|done|done]. by intros [|]. Qed.
Lemma facts_comment st p n m next : is_comment st = true -> place next false p -> (st = sMaybeComment -> m = 0) ->
  facts c s0 scanSkipSpace (mkScanner st false p None n (Some next) m).
Proof. intros Hc Hp Hm. split; [by apply form_comment|done| |by rewrite Hbefore|done|done]. by intros [|]. Qed.
Lemma facts_closed op p n : is_end op -> isSpace c = false -> facts c s0 op (closed p n).
Proof.
  intros Hop Hc. split; [|by destruct Hop as [->| ->]|by eauto|by rewrite Hbefore|by unfold closed; case_decide|by auto].
  unfold closed. case_decide; apply form_plain; [by left|by right].
Qed.

Lemma post_skipping st p n next k : place next false p ->
  (isSpace c = true -> facts c s0 scanSkipSpace (mkScanner st false p None n None 0)) ->
  (isSpace c = false -> post (facts c s0) k (mkScanner st false p None n None 0)) ->
  post (facts c s0) (skipping c next k) (mkScanner st false p None n None 0).
Proof.
  intros Hn Hs Hk. unfold skipping. apply post_if; [intros Hc; by apply post_ret, Hs|]. intros Hc. specialize (Hk Hc).
  unfold stateBeginComment. destruct (decide (c = CH "#")); [by apply facts_comment|].
  destruct (decide (c = CH "/")); [by apply facts_comment|]. exact Hk.
Qed.
Lemma post_push st p n ps op : op < scanSkipSpace -> ~ is_end op -> place st false (ps :: p) ->
  post (facts c s0) (pushParseState c ps op) (mkScanner st false p None n None 0).
Proof.
  intros Hop Hno Hp. unfold pushParseState. cbn -[decide]. unfold post, bind, gets, set_parseState, modify. cbn [parseState].
  case_decide; [by apply facts_plain; [left|..]|by apply facts_failed].
Qed.
End Steps.

Lemma post_endTop c s0 n : value_over s0 -> post (facts c s0) (stateEndTop c) (mkScanner sEndTop true [] None n None 0).
Proof.
  intros Hv. assert (forall op s', scanSkipSpace <= op -> form s' -> facts c s0 op s') as Hf.
  { intros op s' Hop Hs'. split; [done|done| |done|unfold scanSkipSpace in *; lia|by auto]. intros [->| ->]; cbn in Hop; unfold scanSkipSpace, scanEndObject, scanEndArray in *; lia. }
  unfold stateEndTop. apply post_if; [intros _; apply Hf; [done|by apply form_plain; left]|]. intros Hc.
  unfold stateBeginComment. destruct (decide (c = CH "#")); [by apply Hf; [|apply form_comment; [|by left|]]|].
  destruct (decide (c = CH "/")); [by apply Hf; [|apply form_comment; [|by left|]]|].
  unfold post. cbn. rewrite Hc. cbn. apply Hf; [done|]. apply form_failed.
Qed.
Lemma post_endValue c s0 st p n : endTop s0 = false -> (p = [] -> value_over s0) ->
  post (facts c s0) (stateEndValue c) (mkScanner st false p None n None 0).
Proof.
  intros He Hp. unfold stateEndValue. apply post_gets. cbn [parseState]. destruct p as [|ps p].
  { change (post (facts c s0) (stateEndTop c) (mkScanner sEndTop true [] None n None 0)). by apply post_endTop, Hp. }
  assert (forall st', st' <> sEndTop -> st' <> sError -> is_comment st' = false -> forall ps' : Z, place st' false (ps' :: p)) as Hplace.
  { intros st' ? ? ? ps'. by right. }
  apply post_if; [intros Hs; apply post_goto; apply facts_plain; [done|by right|by intros [|]|by apply Hplace]|]. intros Hs.
  unfold stateBeginComment. destruct (decide (c = CH "#")); [by apply facts_comment; try done; apply Hplace|].
  destruct (decide (c = CH "/")); [by apply facts_comment; try done; apply Hplace|].
  assert (forall op, is_end op -> post (facts c s0) (popParseState ;; ret op) (mkScanner st false (ps :: p) None n None 0)) as Hpop.
  { intros op Hop. assert ((popParseState ;; ret op) (mkScanner st false (ps :: p) None n None 0) = Val (op, closed p n)) as Hr.
    { unfold popParseState, closed. rewrite bind_bind, bind_gets. cbn [parseState]. rewrite bind_bind. unfold set_parseState. rewrite bind_modify.
      case_decide; [by subst|done]. }
    unfold post. rewrite Hr. by apply facts_closed. }
  assert (forall ctx, post (facts c s0) (error c ctx) (mkScanner st false (ps :: p) None n None 0)) as Herr.
  { intros ctx. by apply facts_failed. }
  repeat (apply post_decide; intros ?); try apply Herr; try (by apply Hpop; [by left] || by apply Hpop; right);
    unfold post, set_parseState; rewrite ?bind_modify; by apply facts_plain; [|left|intros [|]|apply Hplace].
Qed.

(** The tests of a state function. *)
Ltac tests := repeat match goal with
  | |- post _ (if decide _ then _ else _) _ => apply post_decide; intros ?
  | |- post _ (if _ then _ else _) _ => apply post_if; intros ?
  end.

Section Plain.
Context (c : Z) (s0 : scanner) (Hbefore : endTop s0 = false).
Notation at_ st p n := (mkScanner st false p None n None 0).

Lemma post_move st st' p n op : op < scanSkipSpace -> ~ is_end op -> st' <> sEndTop -> st' <> sError -> is_comment st' = false ->
  (st' = sBeginValueOrEmpty -> p <> []) -> post (facts c s0) (set_step st' ;; ret op) (at_ st p n).
Proof. intros. apply post_goto, facts_plain; try done; [by left|by right]. Qed.
Lemma post_fail context st p n : post (facts c s0) (error c context) (at_ st p n).
Proof. by apply facts_failed. Qed.

Local Ltac moves := tests; first [apply post_fail|apply post_move; try done; by intros [|]].

Lemma post_beginValue st p n : st <> sEndTop -> st <> sError -> is_comment st = false -> (st = sBeginValueOrEmpty -> p <> []) ->
  post (facts c s0) (stateBeginValue c) (at_ st p n).
Proof.
  intros H1 H2 H3 H4. unfold stateBeginValue. apply post_skipping; [done|by right|intros _; apply facts_plain; [done|by right|by intros [|]|by right]|].
  intros Hs. tests; try (apply post_fail || (apply post_move; try done; by intros [|])).
  - change (post (facts c s0) (pushParseState c parseObjectKey scanBeginObject) (at_ sBeginStringOrEmpty p n)).
    by apply post_push; [| |intros [|]|right].
  - change (post (facts c s0) (pushParseState c parseArrayValue scanBeginArray) (at_ sBeginValueOrEmpty p n)).
    by apply post_push; [| |intros [|]|right].
Qed.
Lemma post_beginString st p n : st <> sEndTop -> st <> sError -> is_comment st = false -> (st = sBeginValueOrEmpty -> p <> []) ->
  post (facts c s0) (stateBeginString c) (at_ st p n).
Proof.
  intros H1 H2 H3 H4. unfold stateBeginString. apply post_skipping; [done|by right|intros _; apply facts_plain; [done|by right|by intros [|]|by right]|].
  intros Hs. moves.
Qed.
Lemma post_hex st next p n : next <> sEndTop -> next <> sError -> is_comment next = false -> next <> sBeginValueOrEmpty ->
  post (facts c s0) (hex_digit next c) (at_ st p n).
Proof. intros. unfold hex_digit. tests; [apply post_move; try done; by intros [|]|apply post_fail]. Qed.
Lemma post_expect x st next context p n : next <> sEndTop -> next <> sError -> is_comment next = false -> next <> sBeginValueOrEmpty ->
  post (facts c s0) (expect x next context c) (at_ st p n).
Proof. intros. unfold expect. tests; [apply post_move; try done; by intros [|]|apply post_fail]. Qed.
Lemma post_stay st p n : st <> sEndTop -> st <> sError -> is_comment st = false -> (st = sBeginValueOrEmpty -> p <> []) ->
  post (facts c s0) (ret scanContinue) (at_ st p n).
Proof. intros. apply post_ret, facts_plain; [done|by left|by intros [|]|by right]. Qed.
End Plain.

Lemma post_plain c st p n : is_comment st = false -> st <> sEndTop -> st <> sError -> (st = sBeginValueOrEmpty -> p <> []) ->
  let s := mkScanner st false p None n None 0 in post (facts c s) (run_step c) s.
Proof.
  intros Hc Ht He Hp s. unfold run_step. apply post_gets. change (JsonScanner.step s) with st.
  assert (ends_value st = true -> post (facts c s) (stateEndValue c) s) as Hend.
  { intros Hv. apply post_endValue; [done|]. intros ->. by split. }
  assert (endTop s = false) as Hb by done.
  destruct st; try done; unfold stateInString, stateInStringEsc, stateInStringEscU, stateInStringEscU1, stateInStringEscU12, stateInStringEscU123,
    stateNeg, state1, state0, stateDot, stateDot0, stateE, stateESign, stateE0, stateT, stateTr, stateTru, stateF, stateFa, stateFal, stateFals, stateN, stateNu, stateNul;
    try (by apply post_hex || by apply post_expect || by apply Hend || by apply post_beginValue || by apply post_beginString);
    try (tests;
      first [apply post_fail; done|by apply Hend|apply post_stay; done|apply post_move; try done; by intros [|]]).
  - unfold stateBeginValueOrEmpty. apply post_skipping; [done|by right|intros _; apply facts_plain; [done|by right|by intros [|]|by right]|].
    intros Hs. apply post_decide; intros ?; [|by apply post_beginValue]. apply post_endValue; [done|]. intros ->. by destruct (Hp eq_refl).
  - unfold stateBeginStringOrEmpty. apply post_skipping; [done|by right|intros _; apply facts_plain; [done|by right|by intros [|]|by right]|].
    intros Hs. apply post_decide; intros ?; [|by apply post_beginString]. apply post_gets. cbn [parseState]. destruct p as [|ps p]; [done|].
    change (post (facts c s) (stateEndValue c) (mkScanner sBeginStringOrEmpty false (parseObjectValue :: p) None n None 0)).
    by apply post_endValue.
Qed.
Lemma post_step c s : form s -> post (facts c s) (run_step c) s.
Proof.
  intros [st e p n [(-> & -> & ->)|(Hc & Ht & He & -> & Hp)]|st next e p n m Hc Hn Hm|e p x n cs m].
  - unfold run_step. apply post_gets. cbn [JsonScanner.step]. by apply post_endTop.
  - by apply post_plain.
  - set (t := mkScanner st e p None n (Some next) m).
    assert (forall op s', op = scanSkipSpace \/ op = scanError -> form s' -> endTop s' = e -> facts c t op s') as Hf.
    { intros op s' Hop Hs' He. split; [done|by destruct Hop as [->| ->]| | |by destruct Hop as [->| ->]|by rewrite He; left].
      - intros [->| ->]; by destruct Hop.
      - intros _. by destruct Hop as [->| ->]. }
    assert (form (mkScanner next e p None n None 0)) as Hnext by by apply form_plain.
    unfold run_step. apply post_gets. change (JsonScanner.step t) with st. destruct st; try done;
      unfold stateMaybeComment, stateInLineComment, stateInBlockComment, stateInBlockCommentStar; unfold post, t.
    all: rewrite ?bind_gets; repeat (case_decide; cbn; [apply Hf; [by left|done || by apply form_comment|done]|]).
    all: try (by apply Hf; [by left|by apply form_comment|done]).
    cbn. apply Hf; [by right|apply form_failed|done].
  - unfold run_step. apply post_gets. cbn [JsonScanner.step]. split; [apply form_failed|done| |done|done|by left]. by intros [|].
Qed.

(** ** Scanning up to the end of a value *)

Lemma step_facts c s op s' : form s -> run_step c s = Val (op, s') -> facts c s op s'.
Proof. intros Hs Hr. pose proof (post_step c s Hs) as Hp. unfold post in Hp. by rewrite Hr in Hp. Qed.
Lemma set_bytes_form n s : form s -> form (set_bytes n s).
Proof. intros [st e p m|st next e p m mo|e p x m cs mo]; by constructor. Qed.
Lemma reset_form s : form (reset s).
Proof. by apply form_plain; right. Qed.

Lemma over_eof s : form s -> value_over s -> exists s', eof s = Val (scanEnd, s').
Proof.
  intros [st e p n [(-> & -> & ->)|(Hc & Ht & He & -> & Hp)]|st next e p n m Hc Hn Hm|e p x n cs m] [Hv Hpn]; cbn in Hv, Hpn; try done.
  - by eexists.
  - subst p. destruct st; try done; by eexists.
  - by destruct st.
Qed.
Lemma over_blank c s : isSpace c = true -> form s -> value_over s -> exists s', run_step c s = Val (scanEnd, s').
Proof.
  intros Hs%isSpace_true [st e p n [(-> & -> & ->)|(Hc & Ht & He & -> & Hp)]|st next e p n m Hc Hn Hm|e p x n cs m] [Hv Hpn]; cbn in Hv, Hpn; try done.
  - destruct Hs as [->|[->|[->| ->]]]; by eexists.
  - subst p. destruct st; try done; destruct Hs as [->|[->|[->| ->]]]; by eexists.
  - by destruct st.
Qed.
Lemma eof_over s : form s -> is_comment (JsonScanner.step s) = false -> JsonScannerTheorems.scan s [] = Some [] -> value_over s.
Proof.
  intros Hf Hc Hs. cbn [JsonScannerTheorems.scan] in Hs. unfold eof in Hs. rewrite bind_gets in Hs. cbn [id] in Hs.
  destruct Hf as [st e p n Hp|st next e p n m Hc' Hn Hm|e p x n cs m]; cbn [JsonScanner.step JsonScanner.err commentMode endTop] in *; [|congruence|done].
  rewrite !decide_False in Hs by done. rewrite bind_ret in Hs.
  destruct Hp as [(-> & -> & ->)|(_ & Ht & He & -> & Hp)]; [by split|].
  unfold bind in Hs. destruct (run_step 32 (mkScanner st false p None n None 0)) as [[op s']| |] eqn:Hr; [|done..].
  pose proof (step_facts 32 _ _ _ (form_plain st false p n (or_intror (conj Hc (conj Ht (conj He (conj eq_refl Hp)))))) Hr) as Hfacts.
  cbn [gets id] in Hs. destruct (endTop s') eqn:Etop.
  - destruct (facts_over _ _ _ _ Hfacts Etop) as [?|[Hend|[Hv _]]]; [done| |done]. by destruct (facts_close _ _ _ _ Hfacts Hend).
  - by destruct (decide (JsonScanner.err s' = None)).
Qed.
Lemma backslash_fails st ps p n : exists op s', stateEndValue 92 (mkScanner st false (ps :: p) None n None 0) = Val (op, s') /\ JsonScanner.step s' = sError.
Proof.
  unfold stateEndValue. rewrite bind_gets. cbn [parseState]. change (isSpace 92) with false.
  cbn -[decide error]. rewrite !(decide_False (P := 92 = _)) by done. unfold bind, ret. cbn -[decide error].
  repeat case_decide; try done; by do 2 eexists.
Qed.
Lemma backslash_open s op s' : form s -> run_step 92 s = Val (op, s') -> ends_value (JsonScanner.step s') = false.
Proof.
  intros [st e p n [(-> & -> & ->)|(Hc & Ht & He & -> & Hp)]|st next e p n m Hc Hn Hm|e p x n cs m] Hr.
  - by injection Hr as <- <-.
  - destruct st; try done; try (by injection Hr as <- <-).
    all: destruct p as [|ps p]; [try (by injection Hr as <- <-)|]; try done.
    all: match type of Hr with _ ?s = _ => change (stateEndValue 92 s = Val (op, s')) in Hr end.
    all: match type of Hr with stateEndValue _ (mkScanner ?st _ _ _ _ _ _) = _ => destruct (backslash_fails st ps p n) as (op' & s1 & Hr' & Hs1) end.
    all: rewrite Hr' in Hr; injection Hr as <- <-; by rewrite Hs1.
  - destruct st; try done; by injection Hr as <- <-.
  - by injection Hr as <- <-.
Qed.

(** ** The loop over the bytes *)

Lemma scan_same_scanner x y bs : same_scanner x y -> JsonScannerTheorems.scan x bs = JsonScannerTheorems.scan y bs.
Proof.
  revert x y. induction bs as [|c bs IH]; intros x y Hxy; cbn [JsonScannerTheorems.scan].
  - pose proof (agnostic_eof x y Hxy) as Ha. by destruct (eof x) as [[op x']| |], (eof y) as [[op' y']| |]; try done; destruct Ha as [<- _].
  - pose proof (agnostic_run_step c x y Hxy) as Ha. destruct (run_step c x) as [[op x']| |], (run_step c y) as [[op' y']| |]; try done.
    destruct Ha as [<- Ha]. by rewrite (IH x' y' Ha).
Qed.
Lemma scan_bytes_same n s bs : JsonScannerTheorems.scan (set_bytes n s) bs = JsonScannerTheorems.scan s bs.
Proof. by apply scan_same_scanner. Qed.

Definition good (s : scanner) : Prop := form s /\ sane s.
Lemma reset_good s : good (reset s).
Proof. split; [apply reset_form|apply reset_sane]. Qed.
Lemma good_step c s : good s -> exists op s', run_step c s = Val (op, s') /\ good s' /\ facts c s op s' /\ (op = scanError -> JsonScanner.err s' <> None).
Proof.
  intros [Hf Hs]. pose proof (run_step_well c s Hs) as Hw. unfold steps_well in Hw. destruct (run_step c s) as [[op s']| |] eqn:Hr; [|done..].
  destruct Hw as [Hs' He]. pose proof (step_facts _ _ _ _ Hf Hr) as Hfacts. exists op, s'. split_and!; try done. split; [apply Hfacts|done].
Qed.
(** The space that is made up behind a closing bracket. *)
Lemma closed_space p n : stateEndValue 32 (closed p n) = Val (if decide (p = []) then scanEnd else scanSkipSpace, closed p n).
Proof. unfold closed. case_decide; [done|]. by destruct p. Qed.
Lemma closed_ends p n : ends_value (JsonScanner.step (closed p n)) = true.
Proof. unfold closed. by case_decide. Qed.
Lemma closed_scan n : JsonScannerTheorems.scan (closed [] n) [] = Some [].
Proof. done. Qed.

Lemma scan_tail c s op s' bs : run_step c s = Val (op, s') -> op <> scanError ->
  is_Some (JsonScannerTheorems.scan s (c :: bs)) <-> is_Some (JsonScannerTheorems.scan s' bs).
Proof.
  intros Hr Ho. cbn [JsonScannerTheorems.scan]. rewrite Hr, decide_False by done. case_decide; [by rewrite fmap_is_Some|done].
Qed.

(** What a scan of all of [bs] from [s] may come to. *)
Definition scanned_to (bs : list Z) (i : Z) (s : scanner) (a : scan_answer) (s' : scanner) : Prop :=
  match a with
  | Found j => exists k r, bs = k ++ r /\ j = i + zlen k /\ is_Some (JsonScannerTheorems.scan s k) /\
      (k = [] /\ value_over s \/ k <> [] /\ last k <> Some 92)
  | Ran j => j = i + zlen bs /\ good s' /\ (forall r, is_Some (JsonScannerTheorems.scan s (bs ++ r)) <-> is_Some (JsonScannerTheorems.scan s' r)) /\
      (bs = [] /\ same_scanner s s' \/ bs <> [] /\ (last bs = Some 92 -> ends_value (JsonScanner.step s') = false))
  | Failed _ => forall r, JsonScannerTheorems.scan s (bs ++ r) = None
  end.
Lemma scan_bytes_spec bs i s : good s -> exists a s', scan_bytes bs i s = Val (a, s') /\ scanned_to bs i s a s'.
Proof.
  revert i s. induction bs as [|c bs IH]; intros i s Hs; cbn [scan_bytes].
  { do 2 eexists. split; [reflexivity|]. split_and!; [rewrite zlen_nil; lia|done|done|by left]. }
  rewrite bind_modify. set (s1 := set_bytes (bytes s + 1) s).
  assert (good s1) as Hs1 by (split; [apply set_bytes_form, Hs|apply set_bytes_sane, Hs]).
  destruct (good_step c s1 Hs1) as (op & s2 & Hr & Hs2 & Hfacts & Herr). erewrite bind_run by exact Hr.
  assert (forall bs, JsonScannerTheorems.scan s bs = JsonScannerTheorems.scan s1 bs) as Hsame by (intros; symmetry; apply scan_bytes_same).
  assert (op <> scanError -> exists a s', scan_bytes bs (i + 1) s2 = Val (a, s') /\ scanned_to (c :: bs) i s a s') as Hgo.
  { intros Ho. destruct (IH (i + 1) s2 Hs2) as (a & s' & Hrun & Ha). exists a, s'. split; [done|].
    assert (c = 92 -> ends_value (JsonScanner.step s2) = false) as Hback by (intros ->; by eapply backslash_open; [apply Hs1|]).
    destruct a as [j|j|e]; cbn [scanned_to] in *.
    - destruct Ha as (k & r & -> & -> & Hk & Hlast). exists (c :: k), r. split_and!; [done|rewrite zlen_cons; lia| |right].
      + rewrite Hsame. by eapply scan_tail.
      + split; [done|]. destruct Hlast as [[-> Hv]|[Hne Hl]]; [intros [= ->]; destruct Hv as [Hv _]; by rewrite Hback in Hv|by destruct k].
    - destruct Ha as (-> & Hs' & Hk & Hlast). split_and!; [rewrite zlen_cons; lia|done| |right].
      + intros r. cbn [app]. rewrite Hsame, <- Hk. by eapply scan_tail.
      + split; [done|]. destruct Hlast as [[-> Hv]|[Hne Hl]]; [|by destruct bs]. intros [= ->]. rewrite <- (same_step _ _ Hv). by apply Hback.
    - intros r. specialize (Ha r). cbn [app]. rewrite Hsame. apply eq_None_not_Some. rewrite (scan_tail c s1 op s2) by done. by rewrite Ha; intros []. }
  case_decide as Hend.
  { do 2 eexists. split; [reflexivity|]. exists [], (c :: bs). assert (value_over s) as Hv by by apply (facts_end _ _ _ _ Hfacts).
    split_and!; [done|rewrite zlen_nil; lia| |by left]. destruct (over_eof s (proj1 Hs) Hv) as (s' & He). cbn [JsonScannerTheorems.scan]. rewrite He. by eexists. }
  case_decide as Hclose.
  { destruct (facts_close _ _ _ _ Hfacts Hclose) as (_ & p & n & ->). rewrite (bind_run _ _ _ _ _ (closed_space p n)).
    assert (op <> scanError) as Ho by (by destruct Hclose as [->| ->]). destruct (decide (p = [])) as [->|Hp]; [|by apply Hgo].
    rewrite decide_True by done. do 2 eexists. split; [reflexivity|]. exists [c], bs. split_and!; [done|by rewrite zlen_cons, zlen_nil; lia| |right].
    - rewrite Hsame. by eapply scan_tail; [..|eexists; apply closed_scan].
    - split; [done|]. intros [= ->]. pose proof (backslash_open _ _ _ (proj1 Hs1) Hr) as Hb. by rewrite closed_ends in Hb. }
  case_decide as Hbad; [|by apply Hgo]. rewrite bind_gets. destruct (JsonScanner.err s2) as [e|] eqn:He; [|by destruct (Herr Hbad)].
  do 2 eexists. split; [reflexivity|]. intros r. cbn [app]. rewrite Hsame. subst op. by eapply scan_fails.
Qed.

(** A text all of whose bytes are kept ends where its bytes end, or at the blank behind. *)
Lemma scan_no_longer bs s k : JsonScannerTheorems.scan s bs = Some k -> (length k <= length bs)%nat.
Proof.
  revert s k. induction bs as [|c bs IH]; intros s k; cbn [JsonScannerTheorems.scan].
  - destruct (eof s) as [[op s']| |]; [|done..]. case_decide; [done|]. by intros [= <-].
  - destruct (run_step c s) as [[op s']| |]; [|done..]. case_decide; [done|]. case_decide.
    + intros (k' & Hk & ->)%fmap_Some. apply IH in Hk. cbn. lia.
    + intros Hk%IH. cbn. lia.
Qed.
Lemma scan_bytes_kept bs b r i s : good s -> endTop s = false -> is_comment (JsonScanner.step s) = false ->
  JsonScannerTheorems.scan s bs = Some bs -> isSpace b = true -> exists s', scan_bytes (bs ++ b :: r) i s = Val (Found (i + zlen bs), s').
Proof.
  revert i s. induction bs as [|c bs IH]; intros i s Hs Ht Hc Hk Hb; cbn [app scan_bytes]; rewrite bind_modify.
  all: set (s1 := set_bytes (bytes s + 1) s).
  all: assert (good s1) as Hs1 by (split; [apply set_bytes_form, Hs|apply set_bytes_sane, Hs]).
  - assert (value_over s1) as Hv by by apply (eof_over s (proj1 Hs) Hc) in Hk.
    destruct (over_blank b s1 Hb (proj1 Hs1) Hv) as (s2 & Hr). erewrite bind_run by exact Hr. rewrite decide_True by done.
    eexists. rewrite zlen_nil, Z.add_0_r. reflexivity.
  - destruct (good_step c s1 Hs1) as (op & s2 & Hr & Hs2 & Hfacts & _). erewrite bind_run by exact Hr.
    rewrite <- (scan_bytes_same (bytes s + 1)) in Hk. fold s1 in Hk. cbn [JsonScannerTheorems.scan] in Hk. rewrite Hr in Hk.
    case_decide as Herr; [done|]. case_decide as Hop; [|apply scan_no_longer in Hk; cbn in Hk; lia].
    apply fmap_Some in Hk as (k & Hk & [= <-]).
    assert (endTop s2 = false \/ is_end op) as Htop.
    { destruct (endTop s2) eqn:E; [|by left]. destruct (facts_over _ _ _ _ Hfacts E) as [H|[H|[_ H]]]; [|by right|lia]. change (endTop s = true) in H. congruence. }
    pose proof (facts_kept _ _ _ _ Hfacts Hop) as Hc2. rewrite zlen_cons, Z.add_assoc.
    unfold scanSkipSpace, scanEnd in *. rewrite decide_False by lia. case_decide as Hclose.
    + destruct (facts_close _ _ _ _ Hfacts Hclose) as (_ & p & n & ->). rewrite (bind_run _ _ _ _ _ (closed_space p n)).
      destruct (decide (p = [])) as [->|Hp].
      * rewrite decide_True by done. destruct bs as [|c' bs]; [rewrite zlen_nil, Z.add_0_r; by eexists|].
        exfalso. destruct (good_step c' (closed [] n) Hs2) as (op' & s3 & Hr' & _ & Hfacts' & _). cbn [JsonScannerTheorems.scan] in Hk. rewrite Hr' in Hk.
        pose proof (facts_top _ _ _ _ Hfacts' eq_refl) as Htop'. case_decide; [done|]. rewrite decide_False in Hk by lia. apply scan_no_longer in Hk. cbn in Hk. lia.
      * rewrite decide_False by done. apply IH; try done. unfold closed. by rewrite decide_False.
    + apply IH; try done. by destruct Htop as [?|?]; [|by destruct Hclose].
Qed.
