(* ===== verification/JsonStreamTheorems.v ===== *)
(** * Streams: however a reader cuts its bytes, the decoder sees the same ones

    A [stream] is what a Decoder is when one forgets how many of the bytes ahead are in
    its buffer.  [implements] says that an operation does to the stream what an
    operation on streams says.  Decode takes a document from the front of the stream
    ([decode_next_spec]). *)

From S2P Require Import Prelude.
From S2P Require Import JsonScanner.
From S2P Require Import JsonGrammar.
From S2P Require Import JsonScannerTheorems.
From S2P Require Import JsonScannerProps.
From S2P Require Import JsonIndent.
From S2P Require Import JsonLex.
From S2P Require Import JsonComment.
From S2P Require Import JsonCommentTheorems.
From S2P Require Import JsonCommentProps.
From S2P Require Import JsonDecode.
From S2P Require Import JsonValue.
From S2P Require Import JsonDecodeProps.
From S2P Require Import JsonStream.
From S2P Require Import JsonStreamSteps.
From Stdlib Require Import Ascii.

Local Open Scope go_scope.
Local Open Scope Z_scope.

(** ** Readers *)

Definition text_of (r : reader) : list Z := concat (map fst r).
(** A reader that gives all its bytes and then [io.EOF], which may come with the last. *)
Fixpoint plain (r : reader) : Prop :=
  match r with [] => True | (_, e) :: r => (e = None \/ e = Some EOF /\ r = []) /\ plain r end.

Lemma Read_spec room r : 0 < room -> plain r ->
  let '(bs, e, r') := Read room r in
  bs ++ text_of r' = text_of r /\ zlen bs <= room /\ plain r' /\
  (e = None /\ (reads r' < reads r)%nat \/ e = Some EOF /\ r' = []).
Proof.
  intros Hroom Hr. destruct r as [|[bs e] r]; cbn [Read].
  { split_and!; [done|by apply Z.lt_le_incl|done|by right]. }
  destruct Hr as [He Hr]. case_decide as Hl.
  - split_and!; [done|done|done|]. destruct He as [->|[-> ->]]; [left|by right]. split; [done|].
    unfold reads. cbn [map fst concat]. rewrite length_app. cbn [length]. lia.
  - assert (zlen (ztake room bs) = room) as Ht by (rewrite zlen_ztake; lia). split_and!; [|lia|done|].
    + unfold text_of. cbn [map fst concat]. by rewrite ztake_zdrop_app.
    + left. split; [done|]. unfold reads. cbn [map fst concat]. rewrite !length_app. cbn [length].
      assert (length bs = length (ztake room bs) + length (zdrop room bs))%nat as Hb by by rewrite <- length_app, ztake_zdrop.
      unfold zlen in Ht. lia.
Qed.

(** ** Decoders and streams *)

Record stream := mkStream {
  input : list Z;
  offset : Z;
  s_d : decodeState;
  s_scan : scanner;
  s_err : option streamError;
  s_state : tokenState;
  s_stack : list tokenState }.

Definition pending (dec : Decoder) : list Z := zdrop (scanp dec) (buf dec) ++ text_of (rd dec).
Definition view (dec : Decoder) : stream :=
  mkStream (pending dec) (scanned dec + scanp dec) (d dec) (scan dec) (err dec) (state dec) (tokenStack dec).
Record ready (dec : Decoder) : Prop := mkReady {
  ready_pos : 0 <= scanp dec <= zlen (buf dec);
  ready_cap : zlen (buf dec) <= bufcap dec;
  ready_rd : plain (rd dec) }.

Lemma NewDecoder_ready r : plain r -> ready (NewDecoder r) /\ pending (NewDecoder r) = text_of r.
Proof. by intros Hr. Qed.

Lemma zdrop_start {A} (l : list A) : zdrop 0 l = l.
Proof. done. Qed.
Lemma slice_rest (l : list Z) p : 0 <= p <= zlen l -> slice l p (zlen l) = Some (zdrop p l).
Proof.
  intros Hp. unfold slice. rewrite decide_True by lia. f_equal. unfold ztake, zdrop, zlen in *.
  apply take_ge. rewrite length_drop. lia.
Qed.

(** A refill changes nothing but the cut. *)
Lemma refill_spec dec : ready dec -> exists e dec', refill dec = Val (e, dec') /\ view dec' = view dec /\ ready dec' /\ scanp dec' = 0 /\
  (exists more, buf dec' = zdrop (scanp dec) (buf dec) ++ more) /\
  (e = None /\ (reads (rd dec') < reads (rd dec))%nat \/ e = Some EOF /\ rd dec' = []).
Proof.
  intros [Hp Hc Hr].
  assert (forall d1, scanp d1 = 0 -> ready d1 -> exists e dec' more, (dec <- gets id ;;
      let c := if decide (bufcap dec - zlen (buf dec) < 512) then 2 * bufcap dec + 512 else bufcap dec in
      let '(bs, e, r) := Read (c - zlen (buf dec)) (rd dec) in
      modify (fun dec => mkDecoder r (buf dec ++ bs) c (d dec) (scanp dec) (scanned dec) (scan dec) (err dec) (state dec) (tokenStack dec)) ;;
      ret e) d1 = Val (e, dec') /\ view dec' = view d1 /\ ready dec' /\ scanp dec' = 0 /\ buf dec' = buf d1 ++ more /\
      (e = None /\ (reads (rd dec') < reads (rd d1))%nat \/ e = Some EOF /\ rd dec' = [])) as Hread.
  { intros d1 Hp1 [_ Hc1 Hr1]. rewrite bind_gets. cbn [id]. set (c := if decide _ then _ else _).
    assert (0 < c - zlen (buf d1)) as Hroom by (pose proof (zlen_nonneg (buf d1)); unfold c; case_decide; lia).
    pose proof (Read_spec _ _ Hroom Hr1) as Hs. destruct (Read _ _) as [[bs e] r]. destruct Hs as (Htext & Hlen & Hpl & Hcase).
    rewrite bind_modify. do 3 eexists. split; [reflexivity|]. cbn [rd buf scanp]. split_and!; try done.
    - unfold view, pending. cbn [rd buf scanp scanned d scan err state tokenStack]. rewrite Hp1. by rewrite !zdrop_start, <- app_assoc, Htext.
    - split; cbn [scanp buf rd bufcap]; rewrite ?zlen_app; [|lia|done]. pose proof (zlen_nonneg (buf d1)). pose proof (zlen_nonneg bs). lia. }
  unfold refill. rewrite bind_gets. cbn [id]. destruct (decide (scanp dec > 0)) as [Hgt|Hle].
  - rewrite bind_bind, slice_rest by done. unfold lift at 1. unfold bind at 1. rewrite bind_modify.
    edestruct Hread as (e & dec' & more & Hrun & Hv & Hrd & Hp' & Hb & Hcase); [| |do 2 eexists; split; [exact Hrun|]]; cbn [scanp]; [done|..].
    { split; cbn [scanp buf rd bufcap]; [pose proof (zlen_nonneg (zdrop (scanp dec) (buf dec))); lia|rewrite zlen_zdrop; lia|done]. }
    cbn [buf rd] in *. split_and!; eauto. rewrite Hv. unfold view, pending. cbn [rd buf scanp scanned d scan err state tokenStack].
    by rewrite Z.add_0_r.
  - rewrite bind_ret. destruct (Hread dec) as (e & dec' & more & Hrun & Hv & Hrd & Hp' & Hb & Hcase); [lia|done|].
    exists e, dec'. split_and!; try done. exists more. by replace (scanp dec) with 0 by lia.
Qed.

(** ** Scanning in pieces *)

Lemma scan_bytes_app a b i s : scan_bytes (a ++ b) i s = let! (r, s') := scan_bytes a i s in
  match r with Ran j => scan_bytes b j s' | _ => Val (r, s') end.
Proof.
  revert i s. induction a as [|c a IH]; intros i s; [done|]. cbn [app scan_bytes]. rewrite !bind_modify.
  unfold bind. destruct (run_step c _) as [[op s1]| |]; [|done..]. repeat case_decide; try done.
  - destruct (stateEndValue 32 s1) as [[o s2]| |]; [|done..]. case_decide; [done|apply IH].
  - unfold gets, lift. by destruct (JsonScanner.err s1).
Qed.
Definition shift (k : Z) (a : scan_answer) : scan_answer :=
  match a with Found i => Found (k + i) | Ran i => Ran (k + i) | Failed e => Failed e end.
Lemma scan_bytes_shift k bs i s : scan_bytes bs (k + i) s = let! (a, s') := scan_bytes bs i s in Val (shift k a, s').
Proof.
  revert i s. induction bs as [|c bs IH]; intros i s; [done|]. cbn [scan_bytes]. rewrite !bind_modify.
  unfold bind. destruct (run_step c _) as [[op s1]| |]; [|done..]. rewrite <- !Z.add_assoc. repeat case_decide; try done.
  - destruct (stateEndValue 32 s1) as [[o s2]| |]; [|done..]. case_decide; [done|apply IH].
  - unfold gets, lift. by destruct (JsonScanner.err s1).
Qed.
Lemma scan_bytes_range bs i s : match scan_bytes bs i s with
  | Val (Found j, _) => i <= j <= i + zlen bs
  | Val (Ran j, _) => j = i + zlen bs
  | _ => True end.
Proof.
  revert i s. induction bs as [|c bs IH]; intros i s; cbn [scan_bytes]; [unfold ret; rewrite zlen_nil; lia|]. rewrite !bind_modify. rewrite zlen_cons.
  pose proof (zlen_nonneg bs) as Hl. unfold bind. destruct (run_step c _) as [[op s1]| |]; [|done..].
  assert (forall s2, match scan_bytes bs (i + 1) s2 with Val (Found j, _) => i <= j <= i + (1 + zlen bs) | Val (Ran j, _) => j = i + (1 + zlen bs) | _ => True end) as Hgo.
  { intros s2. specialize (IH (i + 1) s2). destruct (scan_bytes _ _ _) as [[[] ?]| |]; lia. }
  repeat case_decide; try done; [unfold modify, ret; lia|destruct (stateEndValue 32 s1) as [[o s2]| |]; [|done..]; case_decide; [unfold ret; lia|apply Hgo]| |apply Hgo].
  unfold gets, lift. by destruct (JsonScanner.err s1).
Qed.

(** ** Reading a value *)

Definition with_scan (s : scanner) (st : stream) : stream := mkStream (input st) (offset st) (s_d st) s (s_err st) (s_state st) (s_stack st).
Definition with_err (e : streamError) (st : stream) : stream := mkStream (input st) (offset st) (s_d st) (s_scan st) (Some e) (s_state st) (s_stack st).
(** What is answered when the scan of the input has come to an end. *)
Definition settle (st : stream) (a : scan_answer) (s : scanner) : outcome ((Z + streamError) * stream) :=
  match a with
  | Found k => Val (inl k, with_scan s st)
  | Failed e => Val (inr (ErrSyntax e), with_err (ErrSyntax e) (with_scan s st))
  | Ran k =>
      let! (op, s) := run_step 32 s in
      if decide (op = scanEnd) then Val (inl k, with_scan s st)
      else
        let e := ErrIO (if nonSpace (input st) then ErrUnexpectedEOF else EOF) in
        Val (inr e, with_err e (with_scan s st))
  end.
(** Reading a value when [k] bytes of the input have been scanned, and from the start. *)
Definition read_rest (k : Z) (st : stream) : outcome ((Z + streamError) * stream) :=
  let! (a, s) := scan_bytes (zdrop k (input st)) k (s_scan st) in settle st a s.
Definition read_value : GoM stream (Z + streamError) := fun st => read_rest 0 (with_scan (reset (s_scan st)) st).

(** [m] does to the stream what [M] does; [Q] holds of its answer and the decoder. *)
Definition does {A} (Q : A -> Decoder -> Prop) (o : outcome (A * Decoder)) (O : outcome (A * stream)) : Prop :=
  match o with
  | Val (a, dec') => O = Val (a, view dec') /\ ready dec' /\ Q a dec'
  | Panic => O = Panic
  | OutOfFuel => O = OutOfFuel
  end.
Definition implements {A} (m : GoM Decoder A) (M : GoM stream A) (Q : A -> Decoder -> Prop) : Prop :=
  forall dec, ready dec -> does Q (m dec) (M (view dec)).

Definition has_value (a : Z + streamError) (dec : Decoder) : Prop :=
  match a with inl k => 0 <= k /\ scanp dec + k <= zlen (buf dec) | _ => True end.
Lemma zdrop_app_le {A} n (l k : list A) : 0 <= n <= zlen l -> zdrop n (l ++ k) = zdrop n l ++ k.
Proof. unfold zdrop, zlen. intros Hn. apply drop_app_le. lia. Qed.
Definition put_scan (s : scanner) (dec : Decoder) : Decoder :=
  mkDecoder (rd dec) (buf dec) (bufcap dec) (d dec) (scanp dec) (scanned dec) s (err dec) (state dec) (tokenStack dec).

(** One round of the loop. *)
Lemma readValue_loop_eq n i e dec : readValue_loop n i e dec =
  let! (a, s) := scan_bytes (zdrop i (buf dec)) i (scan dec) in
  match a with
  | Found i => Val (inl (i - scanp dec), put_scan s dec)
  | Failed e => (set_err (ErrSyntax e) ;; ret (inr (ErrSyntax e))) (put_scan s dec)
  | Ran i =>
      match e with
      | Some e =>
          (op <- (if decide (e = EOF) then scanning (run_step 32) else ret scanError) ;;
          if decide (e = EOF /\ op = scanEnd) then ret (inl (i - scanp dec))
          else
            let e := if decide (e = EOF) then if nonSpace (buf dec) then ErrUnexpectedEOF else EOF else e in
            set_err (ErrIO e) ;; ret (inr (ErrIO e))) (put_scan s dec)
      | None =>
          match n with
          | O => OutOfFuel
          | S n => (e <- refill ;; p <- gets scanp ;; readValue_loop n (p + (i - scanp dec)) e) (put_scan s dec)
          end
      end
  end.
Proof.
  destruct n; cbn [readValue_loop]; rewrite bind_gets; cbn [id]; unfold bind at 1, scanning at 1;
    by destruct (scan_bytes _ _ _) as [[[] ?]| |], e.
Qed.
Lemma readValue_loop_spec n e dec k : ready dec -> 0 <= k <= zlen (zdrop (scanp dec) (buf dec)) ->
  (e = None /\ (reads (rd dec) <= n)%nat \/ e = Some EOF /\ rd dec = [] /\ scanp dec = 0) ->
  does has_value (readValue_loop n (scanp dec + k) e dec) (read_rest k (view dec)).
Proof.
  revert e dec k. induction n as [n IH] using lt_wf_ind; intros e dec k Hready Hk He. pose proof Hready as [Hp Hc Hr].
  assert (zlen (zdrop (scanp dec) (buf dec)) = zlen (buf dec) - scanp dec) as Hlen by (rewrite zlen_zdrop; lia).
  unfold read_rest. cbn [input view s_scan]. unfold pending. rewrite zdrop_app_le, scan_bytes_app by done.
  rewrite readValue_loop_eq, scan_bytes_shift, <- (zdrop_zdrop k (scanp dec)) by lia.
  pose proof (scan_bytes_range (zdrop k (zdrop (scanp dec) (buf dec))) k (scan dec)) as Hrange.
  assert (k + zlen (zdrop k (zdrop (scanp dec) (buf dec))) = zlen (buf dec) - scanp dec) as Hend by (rewrite zlen_zdrop; lia).
  destruct (scan_bytes _ k (scan dec)) as [[[j|j|x] s]| |]; cbn [obind shift settle]; try done.
  - replace (scanp dec + j - scanp dec) with j by lia. split_and!; [done| |cbn; lia]. by split.
  - destruct He as [[-> Hn]|(-> & Hrd & Hz)].
    + destruct n as [|n]; [unfold reads in Hn; lia|].
      destruct (refill_spec (put_scan s dec)) as (e & dec' & Hrun & Hv & Hready' & Hp' & (more & Hb) & Hcase); [by split|].
      erewrite bind_run by exact Hrun. rewrite bind_gets.
      cbn [put_scan scanp buf rd] in Hb, Hcase. replace (scanp dec + j - scanp dec) with j by lia.
      assert (j = zlen (zdrop (scanp dec) (buf dec))) as Hj by lia.
      specialize (IH n (Nat.lt_succ_diag_r n) e dec' j Hready'). rewrite Hp', Hb in IH.
      assert (read_rest j (view dec') = let! (a, s) := scan_bytes (text_of (rd dec)) j s in settle (view dec) a s) as Hrest.
      { rewrite Hv. unfold read_rest. cbn [view input put_scan s_scan scan]. change (pending (put_scan s dec)) with (pending dec).
        unfold pending. rewrite Hj, zdrop_app. destruct (scan_bytes _ _ _) as [[[] ?]| |]; try done. }
      rewrite Hp', <- Hrest. apply IH.
      * rewrite zdrop_start, zlen_app. pose proof (zlen_nonneg more). lia.
      * destruct Hcase as [[-> Hl]|[-> Hl]]; [left; split; [done|lia]|right; by split_and!].
    + rewrite Hrd. cbn [text_of map concat scan_bytes]. change (ret (Ran j) s) with (Val (Ran j, s)). cbn [obind settle].
      rewrite !decide_True by done. unfold bind at 1, scanning. cbn [put_scan scan].
      destruct (run_step 32 s) as [[op s']| |]; cbn [obind]; [|done..]. destruct (decide (op = scanEnd)) as [Ho|Ho].
      * rewrite decide_True by done. replace (scanp dec + j - scanp dec) with j by lia. split_and!; [done| |cbn; lia]. by split.
      * rewrite decide_False by tauto. assert (nonSpace (input (view dec)) = nonSpace (buf dec)) as ->.
        { cbn [view input]. unfold pending. rewrite Hrd, Hz. cbn [text_of map concat]. by rewrite app_nil_r. }
        split_and!; [done| |done]. by split.
Qed.

Lemma readValue_spec : implements readValue read_value has_value.
Proof.
  intros dec Hready. unfold readValue. unfold bind at 1, scanning, modify. cbn [scan]. rewrite bind_gets. cbn [id rd scanp].
  pose proof (readValue_loop_spec (reads (rd dec)) None (put_scan (reset (scan dec)) dec) 0) as Hs. cbn [put_scan scanp] in Hs.
  rewrite Z.add_0_r in Hs. apply Hs; [by destruct Hready|split; [done|apply zlen_nonneg]|by left].
Qed.

(** ** Looking ahead *)

Lemma at_app_le {A} (l k : list A) i : i < zlen l -> at_ (l ++ k) i = at_ l i.
Proof. intros Hi. unfold at_, zlen in *. case_decide; [|done]. rewrite lookup_app_l by lia. done. Qed.
Lemma at_zdrop_add {A} (l : list A) p i : 0 <= p -> 0 <= i -> at_ (zdrop p l) i = at_ l (p + i).
Proof. intros Hp Hi. unfold at_, zdrop. rewrite !decide_True by lia. rewrite lookup_drop. f_equal. lia. Qed.
Lemma at_None_ge {A} (l : list A) i : 0 <= i -> at_ l i = None -> zlen l <= i.
Proof. unfold at_, zlen. intros Hi. rewrite decide_True by done. intros ?%lookup_ge_None. lia. Qed.

Lemma skipLine_range bs i j : skipLineCommentInBuffer bs i = Some j -> i < j <= i + zlen bs.
Proof.
  revert i. induction bs as [|c bs IH]; intros i; cbn [skipLineCommentInBuffer]; [done|]. rewrite zlen_cons. pose proof (zlen_nonneg bs).
  case_decide; [intros [= <-]; lia|]. intros Hj%IH. lia.
Qed.
Lemma skipLine_app bs x i j : skipLineCommentInBuffer bs i = Some j -> skipLineCommentInBuffer (bs ++ x) i = Some j.
Proof. revert i. induction bs as [|c bs IH]; intros i; cbn [app skipLineCommentInBuffer]; [done|]. case_decide; [done|]. apply IH. Qed.
Lemma skipLine_shift p bs i : skipLineCommentInBuffer bs (p + i) = Z.add p <$> skipLineCommentInBuffer bs i.
Proof.
  revert i. induction bs as [|c bs IH]; intros i; cbn [skipLineCommentInBuffer]; [done|]. rewrite <- Z.add_assoc. case_decide; [done|]. apply IH.
Qed.
Lemma skipBlock_range bs i j : skipBlockCommentInBuffer bs i = Some j -> i < j <= i + zlen bs.
Proof.
  revert i. induction bs as [|c bs IH]; intros i; cbn [skipBlockCommentInBuffer]; [done|]. destruct bs as [|c' bs]; [done|].
  case_decide; [intros [= <-]; rewrite !zlen_cons; pose proof (zlen_nonneg bs); lia|]. rewrite (zlen_cons c). intros Hj%IH. lia.
Qed.
Lemma skipBlock_app bs x i j : skipBlockCommentInBuffer bs i = Some j -> skipBlockCommentInBuffer (bs ++ x) i = Some j.
Proof.
  revert i. induction bs as [|c bs IH]; intros i; [done|]. destruct bs as [|c' bs]; [done|]. cbn [app] in *.
  change (skipBlockCommentInBuffer (c :: c' :: ?l) i) with (if decide (c = CH "*" /\ c' = CH "/") then Some (i + 2) else skipBlockCommentInBuffer (c' :: l) (i + 1)).
  case_decide; [done|]. apply IH.
Qed.
Lemma skipBlock_shift p bs i : skipBlockCommentInBuffer bs (p + i) = Z.add p <$> skipBlockCommentInBuffer bs i.
Proof.
  revert i. induction bs as [|c bs IH]; intros i; [done|]. cbn [skipBlockCommentInBuffer]. destruct bs as [|c' bs]; [done|].
  rewrite <- !Z.add_assoc. case_decide; [done|]. apply IH.
Qed.

(** One byte or one comment of peekFrom. *)
Definition skip_to (i : Z) (o : option Z) : peek_answer + Z := match o with Some j => inr j | None => inl (More_ i) end.
Definition peek_step (b : list Z) (i : Z) : peek_answer + Z :=
  match at_ b i with
  | None => inl (More_ i)
  | Some c =>
      if isSpace c then inr (i + 1)
      else if decide (c = CH "#") then skip_to i (skipLineCommentInBuffer (zdrop (i + 1) b) (i + 1))
      else if decide (c = CH "/") then
        match at_ b (i + 1) with
        | None => inl (More_ i)
        | Some d =>
            if decide (d = CH "/") then skip_to i (skipLineCommentInBuffer (zdrop (i + 2) b) (i + 2))
            else if decide (d = CH "*") then skip_to i (skipBlockCommentInBuffer (zdrop (i + 2) b) (i + 2))
            else inl (Ahead c i)
        end
      else inl (Ahead c i)
  end.
Lemma peek_bytes_step n b i : peek_bytes (S n) b i = match peek_step b i with inl a => a | inr j => peek_bytes n b j end.
Proof.
  cbn [peek_bytes]. unfold peek_step, skip_to. destruct (at_ b i) as [c|]; [|done]. destruct (isSpace c); [done|].
  case_decide; [by destruct (skipLineCommentInBuffer _ _)|]. case_decide; [|done]. destruct (at_ b (i + 1)) as [c'|]; [|done].
  case_decide; [by destruct (skipLineCommentInBuffer _ _)|]. case_decide; [by destruct (skipBlockCommentInBuffer _ _)|done].
Qed.
Lemma skip_to_inv i o (Q : peek_answer + Z -> Prop) : Q (inl (More_ i)) -> (forall j, o = Some j -> Q (inr j)) -> Q (skip_to i o).
Proof. destruct o; cbn; auto. Qed.
Lemma peek_step_range b i : 0 <= i -> match peek_step b i with
  | inr j => i < j <= zlen b
  | inl (Ahead c j) => j = i /\ at_ b i = Some c
  | inl (More_ j) => j = i end.
Proof.
  intros Hi. unfold peek_step. destruct (at_ b i) as [c|] eqn:Ec; [|done]. pose proof (at_Some_lt _ _ _ Ec). destruct (isSpace c); [lia|].
  case_decide; [apply skip_to_inv; [done|]; intros j Hj%skipLine_range; rewrite zlen_zdrop in Hj; lia|]. case_decide; [|done].
  destruct (at_ b (i + 1)) as [c'|] eqn:Ec'; [|done]. pose proof (at_Some_lt _ _ _ Ec').
  case_decide; [apply skip_to_inv; [done|]; intros j Hj%skipLine_range; rewrite zlen_zdrop in Hj; lia|].
  case_decide; [apply skip_to_inv; [done|]; intros j Hj%skipBlock_range; rewrite zlen_zdrop in Hj; lia|done].
Qed.
Lemma peek_step_app b x i : 0 <= i -> (forall j, peek_step b i <> inl (More_ j)) -> peek_step (b ++ x) i = peek_step b i.
Proof.
  intros Hi. unfold peek_step. destruct (at_ b i) as [c|] eqn:Ec; [|intros Hm; by destruct (Hm i)]. pose proof (at_Some_lt _ _ _ Ec) as Hl.
  rewrite at_app_le, Ec by lia. destruct (isSpace c); [done|]. case_decide.
  { rewrite zdrop_app_le by lia. destruct (skipLineCommentInBuffer (zdrop _ b) _) as [j|] eqn:Hj; [|intros Hm; by destruct (Hm i)].
    by rewrite (skipLine_app _ _ _ _ Hj). }
  case_decide; [|done]. destruct (at_ b (i + 1)) as [c'|] eqn:Ec'; [|intros Hm; by destruct (Hm i)]. pose proof (at_Some_lt _ _ _ Ec').
  rewrite at_app_le, Ec' by lia. rewrite zdrop_app_le by lia. case_decide.
  { destruct (skipLineCommentInBuffer (zdrop _ b) _) as [j|] eqn:Hj; [|intros Hm; by destruct (Hm i)]. by rewrite (skipLine_app _ _ _ _ Hj). }
  case_decide; [|done]. destruct (skipBlockCommentInBuffer (zdrop _ b) _) as [j|] eqn:Hj; [|intros Hm; by destruct (Hm i)].
  by rewrite (skipBlock_app _ _ _ _ Hj).
Qed.
Definition shift_peek (p : Z) (a : peek_answer) : peek_answer :=
  match a with Ahead c i => Ahead c (p + i) | More_ i => More_ (p + i) end.
Definition shift_step (p : Z) (a : peek_answer + Z) : peek_answer + Z :=
  match a with inl a => inl (shift_peek p a) | inr i => inr (p + i) end.
Lemma skip_to_shift p i o : skip_to (p + i) (Z.add p <$> o) = shift_step p (skip_to i o).
Proof. by destruct o. Qed.
Lemma peek_step_shift p b i : 0 <= p -> 0 <= i -> peek_step b (p + i) = shift_step p (peek_step (zdrop p b) i).
Proof.
  intros Hp Hi. unfold peek_step. rewrite !at_zdrop_add, !zdrop_zdrop by lia. rewrite <- !Z.add_assoc, !skipLine_shift, !skipBlock_shift, !skip_to_shift.
  destruct (at_ b (p + i)) as [c|]; [|done]. destruct (isSpace c); [done|]. case_decide; [done|]. case_decide; [|done].
  destruct (at_ b (p + (i + 1))) as [c'|]; [|done]. by repeat case_decide.
Qed.

(** Enough fuel is the number of the bytes. *)
Lemma peek_bytes_fuel n m b i : 0 <= i -> zlen b - i <= Z.of_nat n -> zlen b - i <= Z.of_nat m -> peek_bytes n b i = peek_bytes m b i.
Proof.
  revert m i. induction n as [|n IH]; intros [|m] i Hi Hn Hm; [done|..].
  - rewrite peek_bytes_step. unfold peek_step. destruct (at_ b i) as [c|] eqn:Ec; [apply at_Some_lt in Ec; lia|]. cbn [peek_bytes]. by rewrite Ec.
  - rewrite peek_bytes_step. unfold peek_step. destruct (at_ b i) as [c|] eqn:Ec; [apply at_Some_lt in Ec; lia|]. cbn [peek_bytes]. by rewrite Ec.
  - rewrite !peek_bytes_step. pose proof (peek_step_range b i Hi) as Hr. destruct (peek_step b i) as [|j]; [done|]. apply IH; lia.
Qed.
Lemma peek_bytes_shift n p b i : 0 <= p -> 0 <= i -> peek_bytes n b (p + i) = shift_peek p (peek_bytes n (zdrop p b) i).
Proof.
  intros Hp. revert i. induction n as [|n IH]; intros i Hi; [cbn [peek_bytes]; by destruct (at_ b _), (at_ (zdrop p b) i)|].
  rewrite !peek_bytes_step, peek_step_shift by done. pose proof (peek_step_range (zdrop p b) i Hi) as Hr.
  destruct (peek_step (zdrop p b) i) as [|j]; [done|]. cbn [shift_step]. apply IH. lia.
Qed.
(** Looking ahead in all of [b]. *)
Definition look (b : list Z) (i : Z) : peek_answer := peek_bytes (length b) b i.
Lemma look_app b x i : 0 <= i -> match look b i with
  | Ahead c j => look (b ++ x) i = Ahead c j /\ i <= j /\ at_ b j = Some c
  | More_ j => look (b ++ x) i = look (b ++ x) j /\ i <= j /\ (i <= zlen b -> j <= zlen b) end.
Proof.
  unfold look. assert (forall n i, 0 <= i -> match peek_bytes n b i with
    | Ahead c j => peek_bytes (length (b ++ x)) (b ++ x) i = Ahead c j /\ i <= j /\ at_ b j = Some c
    | More_ j => peek_bytes (length (b ++ x)) (b ++ x) i = peek_bytes (length (b ++ x)) (b ++ x) j /\ i <= j /\ (i <= zlen b -> j <= zlen b) end) as Hall;
    [|by apply Hall].
  clear i. induction n as [|n IH]; intros i Hi; [cbn [peek_bytes]; by destruct (at_ b i)|]. rewrite peek_bytes_step.
  pose proof (peek_step_range b i Hi) as Hr. pose proof (peek_step_app b x i Hi) as Happ.
  rewrite (peek_bytes_fuel (length (b ++ x)) (S (length (b ++ x))) (b ++ x) i), peek_bytes_step by (done || unfold zlen; lia).
  destruct (peek_step b i) as [[c j|j]|j].
  - destruct Hr as [-> Hc]. by rewrite Happ.
  - subst j. split; [|done]. rewrite (peek_bytes_fuel (length (b ++ x)) (S (length (b ++ x))) (b ++ x) i) by (done || unfold zlen; lia).
    by rewrite peek_bytes_step.
  - rewrite Happ by done. specialize (IH j ltac:(lia)). destruct (peek_bytes n b j) as [c k|k]; destruct IH as (? & ? & ?); split_and!; try done; lia.
Qed.

Lemma look_shift p b k : 0 <= p <= zlen b -> 0 <= k -> look b (p + k) = shift_peek p (look (zdrop p b) k).
Proof.
  intros Hp Hk. unfold look. rewrite peek_bytes_shift by lia. f_equal.
  pose proof (zlen_zdrop p b). apply peek_bytes_fuel; unfold zlen in *; lia.
Qed.
Lemma peekFrom_loop_spec n e dec k : ready dec -> 0 <= k <= zlen (zdrop (scanp dec) (buf dec)) ->
  (e = None /\ (reads (rd dec) <= n)%nat \/ e = Some EOF /\ rd dec = []) ->
  exists dec', ready dec' /\ view dec' = view dec /\
    match look (pending dec) k with
    | Ahead c j => peekFrom_loop n (scanp dec + k) e dec = Val (inl (c, scanp dec' + j), dec') /\ k <= j /\ at_ (buf dec') (scanp dec' + j) = Some c
    | More_ _ => peekFrom_loop n (scanp dec + k) e dec = Val (inr EOF, dec')
    end.
Proof.
  revert e dec k. induction n as [n IH] using lt_wf_ind; intros e dec k Hready Hk He. pose proof Hready as [Hp Hc Hr].
  assert (peekFrom_loop n (scanp dec + k) e dec = match look (buf dec) (scanp dec + k) with
    | Ahead c i => Val (inl (c, i), dec)
    | More_ i => match e with Some e => Val (inr e, dec) | None =>
        match n with O => OutOfFuel | S n => (e <- refill ;; peekFrom_loop n (i - scanp dec) e) dec end end end) as ->.
  { destruct n; cbn [peekFrom_loop]; rewrite bind_gets; cbn [id]; unfold look; by destruct (peek_bytes _ _ _), e. }
  unfold pending. rewrite look_shift by lia. set (w := zdrop (scanp dec) (buf dec)) in *.
  pose proof (look_app w (text_of (rd dec)) k ltac:(lia)) as Hl. destruct (look w k) as [c j|j] eqn:Ek; destruct Hl as (Hl & Hj & Hat); cbn [shift_peek]; rewrite Hl.
  - exists dec. split_and!; try done. rewrite <- at_zdrop_add by lia. done.
  - specialize (Hat ltac:(lia)). destruct He as [[-> Hn]|[-> Hrd]].
    + destruct n as [|n]; [unfold reads in Hn; lia|].
      destruct (refill_spec dec Hready) as (e & dec1 & Hrun & Hv & Hready' & Hp' & (more & Hb) & Hcase).
      erewrite bind_run by exact Hrun. replace (scanp dec + j - scanp dec) with (scanp dec1 + j) by lia.
      destruct (IH n (Nat.lt_succ_diag_r n) e dec1 j Hready') as (dec' & Hrd' & Hv' & Hrest).
      * rewrite Hp', Hb, zdrop_start, zlen_app. fold w. pose proof (zlen_nonneg more). lia.
      * destruct Hcase as [[-> Hlt]|[-> Hnil]]; [left; split; [done|lia]|by right].
      * exists dec'. split_and!; [done|by rewrite Hv'|]. assert (pending dec1 = w ++ text_of (rd dec)) as Hpend.
        { change (input (view dec1) = input (view dec)). by rewrite Hv. }
        rewrite Hpend in Hrest. destruct (look _ j); [|done]. destruct Hrest as (? & ? & ?). split_and!; [done|lia|done].
    + rewrite Hrd. cbn [text_of map concat]. rewrite app_nil_r. rewrite Hrd in Hl. cbn [text_of map concat] in Hl. rewrite app_nil_r in Hl.
      rewrite <- Hl, Ek. by exists dec.
Qed.

(** ** What Decode makes of the bytes ahead *)

Section Decode.
Context {F : Type} (ParseFloat : list Z -> option F).

(** ** decode_value on streams *)

Definition value_end (t : tokenState) : tokenState :=
  match t with
  | tokenArrayStart | tokenArrayValue => tokenArrayComma
  | tokenObjectValue => tokenObjectComma
  | t => t
  end.
Definition decode_next (room : list Z) : GoM stream (value F * option numberError + streamError) := fun st =>
  let! (n, st) := read_value st in
  match n with
  | inr e => Val (inr e, st)
  | inl n =>
      let! r := stripJSONComments (ztake n (input st)) room in
      match r with
      | inr e => Val (inr (ErrSyntax e), st)
      | inl (clean, cs) =>
          let! r := unmarshal ParseFloat (with_comments cs (init clean (s_d st))) in
          Val (inl (fst r), mkStream (zdrop n (input st)) (offset st + n) (snd r) (s_scan st) (s_err st) (value_end (s_state st)) (s_stack st))
      end
  end.
Definition always {A} (_ : A) (_ : Decoder) : Prop := True.

Lemma tokenValueEnd_run dec : tokenValueEnd dec =
  Val (tt, mkDecoder (rd dec) (buf dec) (bufcap dec) (d dec) (scanp dec) (scanned dec) (JsonStream.scan dec) (JsonStream.err dec) (value_end (state dec)) (tokenStack dec)).
Proof. unfold tokenValueEnd. rewrite bind_gets. by destruct dec as [? ? ? ? ? ? ? ? [] ?]. Qed.
Lemma slice_pending dec n : ready dec -> 0 <= n -> scanp dec + n <= zlen (buf dec) ->
  slice (buf dec) (scanp dec) (scanp dec + n) = Some (ztake n (pending dec)).
Proof.
  intros [Hp Hc Hr] Hn Hl. unfold slice. rewrite decide_True by lia. f_equal. replace (scanp dec + n - scanp dec) with n by lia.
  unfold pending, ztake. rewrite take_app_le; [done|]. pose proof (zlen_zdrop (scanp dec) (buf dec)). unfold zlen in *. lia.
Qed.
Lemma pending_drop dec n d0 sc e t ts : ready dec -> 0 <= n -> scanp dec + n <= zlen (buf dec) ->
  pending (mkDecoder (rd dec) (buf dec) (bufcap dec) d0 (scanp dec + n) (scanned dec) sc e t ts) = zdrop n (pending dec).
Proof.
  intros [Hp Hc Hr] Hn Hl. unfold pending. cbn [scanp buf rd]. pose proof (zlen_zdrop (scanp dec) (buf dec)).
  rewrite zdrop_app_le by lia. by rewrite zdrop_zdrop by lia.
Qed.

Lemma decode_value_spec room : implements (decode_value ParseFloat room) (decode_next room) always.
Proof.
  intros dec Hready. unfold decode_value, decode_next. pose proof (readValue_spec dec Hready) as Hrv. unfold bind at 1.
  destruct (readValue dec) as [[[n|e] dec1]| |]; cbn [does] in Hrv |- *; [| |by rewrite Hrv..].
  2: { destruct Hrv as (-> & Hready1 & _). by cbn [obind]. }
  destruct Hrv as (-> & Hready1 & Hn & Hl). cbn [obind]. rewrite bind_gets. cbn [id]. rewrite slice_pending by done. unfold lift at 1, bind at 1.
  cbn [view input]. unfold bind at 1, outcome_of at 1. destruct (stripJSONComments _ room) as [[[clean cs]|e]| |]; cbn [obind does]; try done.
  unfold set_scanp at 1. rewrite bind_modify. unfold bind at 1, outcome_of at 1. cbn [view s_d].
  destruct (unmarshal ParseFloat _) as [[x d']| |]; cbn [obind does]; try done.
  unfold set_d at 1. rewrite bind_modify. erewrite bind_run by apply tokenValueEnd_run.
  split_and!; [|destruct Hready1; split; cbn [scanp buf bufcap rd]; [lia|done..]|done].
  cbn [fst snd s_state s_stack s_err s_scan offset rd buf bufcap scanp scanned JsonStream.scan JsonStream.err state tokenStack d]. f_equal. f_equal.
  unfold view. cbn [rd buf bufcap scanp scanned JsonStream.scan JsonStream.err state tokenStack d]. rewrite pending_drop by done. by rewrite Z.add_assoc.
Qed.

(** ** What it decodes, and what it refuses *)

(** The scanner is in a comment when the bytes end. *)
Definition in_comment (bs : list Z) : Prop := exists s0 n s, scan_bytes bs 0 (reset s0) = Val (Ran n, s) /\ is_comment (JsonScanner.step s) = true.
Definition refused (bs : list Z) (e : streamError) : Prop :=
  match e with
  | ErrSyntax e => (forall r, document (bs ++ r) = None) \/ exists src r, bs = src ++ r /\ is_Some (document src) /\ unended src e
  | ErrIO e => e = (if nonSpace bs then ErrUnexpectedEOF else EOF) /\ (document bs = None \/ in_comment bs)
  | _ => False
  end.
(** [src] is what is taken from the front of the input. *)
Definition takes (st st' : stream) (src : list Z) : Prop :=
  input st = src ++ input st' /\ offset st' = offset st + zlen src.

Lemma scan_reset s bs : JsonScannerTheorems.scan (reset s) bs = document bs.
Proof. rewrite <- scan_document. by apply scan_same_scanner. Qed.
Lemma reset_not_over s : ~ value_over (reset s).
Proof. by intros []. Qed.
(** A space behind the last byte ends the value, or the bytes are no document. *)
Lemma last_space bs s s' : good s' -> (forall r, is_Some (JsonScannerTheorems.scan (reset s) (bs ++ r)) <-> is_Some (JsonScannerTheorems.scan s' r)) ->
  exists op s'', run_step 32 s' = Val (op, s'') /\
    (op = scanEnd -> value_over s' /\ is_Some (document bs)) /\ (op <> scanEnd -> document bs = None \/ is_comment (JsonScanner.step s') = true).
Proof.
  intros Hs Hbs. destruct (good_step 32 s' Hs) as (op & s'' & Hr & _ & Hfacts & _). exists op, s''. split; [done|].
  specialize (Hbs []). rewrite app_nil_r, scan_reset in Hbs. split.
  - intros Ho. pose proof (facts_end _ _ _ _ Hfacts Ho) as Hv. split; [done|]. apply Hbs. destruct (over_eof s' (proj1 Hs) Hv) as (s3 & He).
    cbn [JsonScannerTheorems.scan]. rewrite He. by eexists.
  - intros Ho. destruct (is_comment (JsonScanner.step s')) eqn:Hc; [by right|left]. apply eq_None_not_Some. intros [k Hk]%Hbs.
    assert (k = []) as -> by (apply scan_no_longer in Hk; by destruct k; [|cbn in Hk; lia]).
    destruct (over_blank 32 s' eq_refl (proj1 Hs) (eof_over s' (proj1 Hs) Hc Hk)) as (s3 & Hr'). congruence.
Qed.
(** What is read is a document that does not end in a backslash. *)
Lemma read_value_spec st : exists a st', read_value st = Val (a, st') /\ s_d st' = s_d st /\ s_state st' = s_state st /\ s_stack st' = s_stack st /\
  input st' = input st /\ offset st' = offset st /\
  match a with
  | inl n => exists src r, input st = src ++ r /\ n = zlen src /\ is_Some (document src) /\ last src <> Some 92 /\ s_err st' = s_err st
  | inr e => refused (input st) e /\ s_err st' = Some e
  end.
Proof.
  unfold read_value, read_rest. cbn [with_scan input s_scan]. rewrite zdrop_start.
  destruct (scan_bytes_spec (input st) 0 (reset (s_scan st)) (reset_good _)) as (a & s & Hrun & Ha). rewrite Hrun. cbn [obind].
  destruct a as [j|j|e]; cbn [scanned_to settle] in *.
  - destruct Ha as (src & r & Hin & -> & Hsrc & Hlast). do 2 eexists. split; [reflexivity|]. split_and!; try done.
    exists src, r. rewrite scan_reset in Hsrc. split_and!; try done. destruct Hlast as [[_ Hv]|[_ Hl]]; [by destruct (reset_not_over _ Hv)|done].
  - destruct Ha as (-> & Hs & Hk & Hlast). destruct (last_space _ _ _ Hs Hk) as (op & s' & Hr & Hend & Hno). rewrite Hr. cbn [obind].
    destruct (decide (op = scanEnd)) as [Ho|Ho]; do 2 eexists; (split; [reflexivity|]); split_and!; try done.
    + destruct (Hend Ho) as [Hv Hdoc]. exists (input st), []. split_and!; try done; [by rewrite app_nil_r|].
      destruct Hlast as [[_ Hsame]|[_ Hl]].
      * destruct Hv as [Hv _]. by rewrite <- (same_step _ _ Hsame) in Hv.
      * intros H92%Hl. destruct Hv as [Hv _]. congruence.
    + cbn [refused]. split; [done|]. destruct (Hno Ho) as [?|Hc]; [by left|right]. do 3 eexists. split; [exact Hrun|done].
  - do 2 eexists. split; [reflexivity|]. split_and!; try done. left. intros r. by rewrite <- (scan_reset (s_scan st)).
Qed.

(** What Decode promises: the value of a document that it takes from the front, or the
    error for which nothing is taken. *)
Definition decoded (un : bool) (room src : list Z) (v : value F) (e : option numberError) : Prop :=
  exists clean comments e', stripJSONComments src room = Val (inl (clean, comments)) /\
    document_value ParseFloat un clean = Some (v, e) /\ document_value ParseFloat un src = Some (v, e') /\ forget_offset <$> e = forget_offset <$> e'.
Lemma decode_next_spec st room : exists a st', decode_next room st = Val (a, st') /\ useNumber (s_d st') = useNumber (s_d st) /\ s_stack st' = s_stack st /\
  match a with
  | inl (v, e) => exists src, takes st st' src /\ decoded (useNumber (s_d st)) room src v e /\
      s_err st' = s_err st /\ s_state st' = value_end (s_state st)
  | inr e => takes st st' [] /\ refused (input st) e /\ s_state st' = s_state st /\ (s_err st' = Some e \/ s_err st' = s_err st)
  end.
Proof.
  unfold decode_next. destruct (read_value_spec st) as (a & st1 & -> & Hd & Hst & Hstk & Hin & Hoff & Ha). cbn [obind].
  destruct a as [n|e].
  2: { do 2 eexists. split; [reflexivity|]. rewrite Hd. destruct Ha as [Ha He]. split_and!; try done; [|by left]. unfold takes. rewrite Hin, Hoff, zlen_nil. split; [done|lia]. }
  destruct Ha as (src & r & Hsrc & -> & Hdoc & Hlast & Herr). rewrite Hin, Hsrc, ztake_app.
  pose proof (strip_total src room (or_intror Hlast)) as Hstrip. destruct (stripJSONComments src room) as [[[clean cs]|e]| |] eqn:Es; cbn [obind]; try done.
  - destruct Hstrip as (Hlen & Hsame & Hq & _). assert (is_Some (document clean)) as Hdoc' by by rewrite <- (same_document _ _ Hsame).
    destruct (unmarshal_quiet ParseFloat clean (useNumber (s_d st)) cs (off (s_d st)) (opcode (s_d st)) (JsonDecode.scan (s_d st)) None [] Hq Hdoc') as (v & e & d' & Hrun & Hval & Hun).
    change (init clean (mkDecodeState [] (off (s_d st)) (opcode (s_d st)) (JsonDecode.scan (s_d st)) None (useNumber (s_d st)) [] cs))
      with (with_comments cs (init clean (s_d st))) in Hrun. rewrite Hd, Hrun. cbn [obind fst snd].
    do 2 eexists. split; [reflexivity|]. cbn [s_d s_stack s_err s_state input offset]. split_and!; [done|done|]. exists src. split_and!; [| |done|by rewrite Hst].
    + unfold takes. cbn [input offset]. rewrite zdrop_app, Hoff. done.
    + apply same_sym in Hsame. destruct (document_value_same _ _ _ _ _ _ Hsame Hlen Hval) as (e' & Hv & Hf). by exists clean, cs, e'.
  - do 2 eexists. split; [reflexivity|]. rewrite Hd. split_and!; try done; [| |by right].
    + unfold takes. rewrite Hin, Hoff, zlen_nil. split; [done|lia].
    + right. by exists src, r.
Qed.
End Decode.
