(* ===== verification/JsonStreamProps.v ===== *)
(** * Streams: every call answers, alike for every cut; tokens nest; values come back *)

From S2P Require Import Prelude.
From S2P Require Import JsonScanner.
From S2P Require Import JsonDecode.
From S2P Require Import JsonDecodeProps.
From S2P Require Import JsonStream.
From S2P Require Import JsonStreamTheorems.
From Stdlib Require Import Ascii.

Local Open Scope go_scope.
Local Open Scope Z_scope.

(** ** Two decoders that differ in the cut alone *)

Definition alike (d1 d2 : Decoder) : Prop := ready d1 /\ ready d2 /\ view d1 = view d2.
(** What the guards of the calls look at. *)
Record core := mkCore { c_err : option streamError; c_state : tokenState; c_stack : list tokenState }.
Definition core_of (dec : Decoder) : core := mkCore (JsonStream.err dec) (state dec) (tokenStack dec).
Definition at_byte (dec : Decoder) : Prop := scanp dec < zlen (buf dec).

Lemma alike_core d1 d2 : alike d1 d2 -> core_of d2 = core_of d1.
Proof. intros (_ & _ & Hv). unfold view in Hv. unfold core_of. congruence. Qed.
Lemma alike_view d1 d2 : alike d1 d2 -> view d2 = view d1.
Proof. by intros (_ & _ & Hv). Qed.

(** From any two such decoders at [c], at a byte of the buffer if [b] says so, [m] gives
    one answer and two such decoders at a core as [Q] says. *)
Definition runs {A} (c : core) (b : bool) (m : GoM Decoder A) (Q : A -> core -> bool -> Prop) : Prop :=
  forall d1 d2, alike d1 d2 -> core_of d1 = c -> (b = true -> at_byte d1 /\ at_byte d2) ->
  exists a d1' d2' b', m d1 = Val (a, d1') /\ m d2 = Val (a, d2') /\ alike d1' d2' /\ (b' = true -> at_byte d1' /\ at_byte d2') /\
    Q a (core_of d1') b'.

Lemma runs_bind {A B} c b (m : GoM Decoder A) (k : A -> GoM Decoder B) Q R :
  runs c b m Q -> (forall a c' b', Q a c' b' -> runs c' b' (k a) R) -> runs c b (bind m k) R.
Proof.
  intros Hm Hk d1 d2 Ha Hc Hb. destruct (Hm d1 d2 Ha Hc Hb) as (a & d1' & d2' & b' & H1 & H2 & Ha' & Hb' & HQ).
  unfold bind. rewrite H1, H2. by apply (Hk a (core_of d1') b').
Qed.
Lemma runs_ret {A} c b (a : A) (Q : A -> core -> bool -> Prop) : Q a c b -> runs c b (ret a) Q.
Proof. intros HQ d1 d2 Ha <- Hb. by exists a, d1, d2, b. Qed.
Lemma runs_gets {A B} c b (f : Decoder -> A) (k : A -> GoM Decoder B) Q : (forall d1 d2, alike d1 d2 -> f d2 = f d1) ->
  (forall dec, core_of dec = c -> runs c b (k (f dec)) Q) -> runs c b (x <- gets f ;; k x) Q.
Proof. intros Hf Hk d1 d2 Ha Hc Hb. rewrite !bind_gets, (Hf _ _ Ha). by apply Hk. Qed.
Lemma runs_state {B} c b (k : tokenState -> GoM Decoder B) Q : runs c b (k (c_state c)) Q -> runs c b (x <- gets state ;; k x) Q.
Proof. intros Hk. apply runs_gets; [intros d1 d2 H%alike_view; by injection H|]. by intros dec <-. Qed.
Lemma runs_stack {B} c b (k : list tokenState -> GoM Decoder B) Q : runs c b (k (c_stack c)) Q -> runs c b (x <- gets tokenStack ;; k x) Q.
Proof. intros Hk. apply runs_gets; [intros d1 d2 H%alike_view; by injection H|]. by intros dec <-. Qed.
Lemma runs_err {B} c b (k : option streamError -> GoM Decoder B) Q : runs c b (k (c_err c)) Q -> runs c b (x <- gets JsonStream.err ;; k x) Q.
Proof. intros Hk. apply runs_gets; [intros d1 d2 H%alike_view; by injection H|]. by intros dec <-. Qed.
Lemma runs_offset {B} c b (k : Z -> GoM Decoder B) Q : (forall o, runs c b (k o) Q) -> runs c b (x <- InputOffset ;; k x) Q.
Proof. intros Hk. apply runs_gets; [intros d1 d2 H%alike_view; by injection H|]. done. Qed.
Lemma runs_set_tokens c b t ts (Q : unit -> core -> bool -> Prop) : Q tt (mkCore (c_err c) t ts) b -> runs c b (set_tokens t ts) Q.
Proof.
  intros HQ d1 d2 (H1 & H2 & Hv) <- Hb. do 3 eexists. exists b. split; [reflexivity|]. split; [reflexivity|]. split_and!; try done.
  split; [by destruct H1|]. split; [by destruct H2|].
  assert (forall dec, view (mkDecoder (rd dec) (buf dec) (bufcap dec) (d dec) (scanp dec) (scanned dec) (JsonStream.scan dec) (JsonStream.err dec) t ts) =
    mkStream (input (view dec)) (offset (view dec)) (s_d (view dec)) (s_scan (view dec)) (s_err (view dec)) t ts) as E by done.
  by rewrite !E, Hv.
Qed.
Lemma runs_set_state c b t (Q : unit -> core -> bool -> Prop) : Q tt (mkCore (c_err c) t (c_stack c)) b -> runs c b (set_state t) Q.
Proof. intros HQ. apply runs_stack. by apply runs_set_tokens. Qed.

Lemma view_advance dec : ready dec -> at_byte dec -> exists dec', advance dec = Val (tt, dec') /\ ready dec' /\ core_of dec' = core_of dec /\
  view dec' = mkStream (zdrop 1 (input (view dec))) (offset (view dec) + 1) (s_d (view dec)) (s_scan (view dec)) (s_err (view dec)) (s_state (view dec)) (s_stack (view dec)).
Proof.
  intros Hr Hb. unfold at_byte in Hb. eexists. split; [reflexivity|]. split_and!; [|done|].
  - destruct Hr. split; cbn [scanp buf bufcap rd]; [lia|done..].
  - unfold view. cbn. rewrite pending_drop by (done || lia). by rewrite Z.add_assoc.
Qed.
Lemma runs_advance c (Q : unit -> core -> bool -> Prop) : Q tt c false -> runs c true advance Q.
Proof.
  intros HQ d1 d2 (H1 & H2 & Hv) <- Hb. destruct (Hb eq_refl) as [Hb1 Hb2].
  destruct (view_advance d1 H1 Hb1) as (d1' & Ha1 & Hr1 & Hc1 & Hv1). destruct (view_advance d2 H2 Hb2) as (d2' & Ha2 & Hr2 & Hc2 & Hv2).
  exists tt, d1', d2', false. split_and!; [done|done| |done|by rewrite Hc1]. split; [done|]. split; [done|]. by rewrite Hv1, Hv2, Hv.
Qed.

(** ** Looking ahead and decoding *)

Definition skip_input (n : Z) (st : stream) : stream :=
  mkStream (zdrop n (input st)) (offset st + n) (s_d st) (s_scan st) (s_err st) (s_state st) (s_stack st).
Lemma view_skip dec n : ready dec -> 0 <= n -> scanp dec + n <= zlen (buf dec) ->
  let dec' := mkDecoder (rd dec) (buf dec) (bufcap dec) (d dec) (scanp dec + n) (scanned dec) (JsonStream.scan dec) (JsonStream.err dec) (state dec) (tokenStack dec) in
  ready dec' /\ view dec' = skip_input n (view dec).
Proof.
  intros Hr Hn Hl dec'. split.
  - destruct Hr. split; cbn [scanp buf bufcap rd dec']; [lia|done..].
  - unfold view, skip_input, dec'. cbn. rewrite pending_drop by done. by rewrite Z.add_assoc.
Qed.
Lemma view_core dec dec' : view dec' = view dec -> core_of dec' = core_of dec.
Proof. unfold view, core_of. intros Hv. congruence. Qed.
Lemma peekFrom_run dec k : ready dec -> 0 <= k <= zlen (zdrop (scanp dec) (buf dec)) -> exists dec', ready dec' /\ view dec' = view dec /\
  match look (pending dec) k with
  | Ahead c j => peekFrom (scanp dec + k) dec = Val (inl (c, scanp dec' + j), dec') /\ k <= j /\ at_ (buf dec') (scanp dec' + j) = Some c
  | More_ _ => peekFrom (scanp dec + k) dec = Val (inr EOF, dec')
  end.
Proof. intros Hr Hk. apply (peekFrom_loop_spec (reads (rd dec)) None dec k Hr Hk). by left. Qed.
Lemma peek_run dec : ready dec -> exists dec', ready dec' /\ core_of dec' = core_of dec /\
  match look (pending dec) 0 with
  | Ahead c j => peek dec = Val (inl c, dec') /\ view dec' = skip_input j (view dec) /\ at_byte dec'
  | More_ _ => peek dec = Val (inr EOF, dec') /\ view dec' = view dec
  end.
Proof.
  intros Hr. destruct (peekFrom_run dec 0 Hr) as (dec1 & Hr1 & Hv1 & Hrun); [split; [done|apply zlen_nonneg]|].
  pose proof (view_core _ _ Hv1) as Hc1. unfold peek. rewrite bind_gets. rewrite Z.add_0_r in Hrun. destruct (look (pending dec) 0) as [c j|j].
  - destruct Hrun as (Hrun & Hj & Hat). pose proof (at_Some_lt _ _ _ Hat) as Hl. erewrite bind_run by exact Hrun.
    destruct (view_skip dec1 j Hr1 Hj ltac:(lia)) as [Hr2 Hv2]. eexists. split; [exact Hr2|]. split; [by rewrite <- Hc1|]. split; [done|].
    split; [by rewrite Hv2, Hv1|]. unfold at_byte. cbn. lia.
  - exists dec1. erewrite bind_run by exact Hrun. by split_and!.
Qed.
Lemma alike_pending d1 d2 : alike d1 d2 -> pending d2 = pending d1.
Proof. intros H%alike_view. by injection H. Qed.

Lemma runs_peek c b (Q : Z + Prelude.error -> core -> bool -> Prop) : (forall x, Q (inl x) c true) -> (forall e, Q (inr e) c false) -> runs c b peek Q.
Proof.
  intros H1 H2 d1 d2 Ha <- _. pose proof Ha as (Hr1 & Hr2 & Hv).
  destruct (peek_run d1 Hr1) as (d1' & Hr1' & Hc1 & Hp1), (peek_run d2 Hr2) as (d2' & Hr2' & Hc2 & Hp2).
  rewrite (alike_pending _ _ Ha) in Hp2. destruct (look (pending d1) 0) as [x j|j].
  - destruct Hp1 as (Hp1 & Hv1 & Hb1), Hp2 as (Hp2 & Hv2 & Hb2). exists (inl x), d1', d2', true. split_and!; try done; [|by rewrite Hc1].
    split_and!; [done|done|]. by rewrite Hv1, Hv2, Hv.
  - destruct Hp1 as (Hp1 & Hv1), Hp2 as (Hp2 & Hv2). exists (inr EOF), d1', d2', false. split_and!; try done; [|by rewrite Hc1].
    split_and!; [done|done|]. by rewrite Hv1, Hv2, Hv.
Qed.
Lemma runs_peek_next c {B} (k : Z * Z + Prelude.error -> GoM Decoder B) Q : (forall a a', match a, a' with inl (x, _), inl (y, _) => x = y | inr e, inr e' => e = e' | _, _ => False end -> k a = k a') ->
  (forall a, runs c false (k a) Q) -> runs c true (p <- gets scanp ;; a <- peekFrom (p + 1) ;; k a) Q.
Proof.
  intros Hsame Hk d1 d2 Ha Hc Hb. pose proof Ha as (Hr1 & Hr2 & Hv). destruct (Hb eq_refl) as [Hb1 Hb2]. unfold at_byte in Hb1, Hb2.
  assert (forall dec, ready dec -> scanp dec < zlen (buf dec) -> 0 <= 1 <= zlen (zdrop (scanp dec) (buf dec))) as H1 by (intros dec []; rewrite zlen_zdrop; lia).
  destruct (peekFrom_run d1 1 Hr1) as (d1' & Hr1' & Hv1 & Hp1); [by apply H1|].
  destruct (peekFrom_run d2 1 Hr2) as (d2' & Hr2' & Hv2 & Hp2); [by apply H1|].
  assert (alike d1' d2') as Ha' by (split_and!; [done..|by rewrite Hv1, Hv2]).
  assert (core_of d1' = c) as Hc' by (rewrite <- Hc; by apply view_core).
  rewrite !bind_gets. rewrite (alike_pending _ _ Ha) in Hp2. destruct (look (pending d1) 1) as [x j|j].
  - destruct Hp1 as (Hp1 & _), Hp2 as (Hp2 & _). rewrite (bind_run _ _ _ _ _ Hp1), (bind_run _ _ _ _ _ Hp2).
    rewrite (Hsame (inl (x, scanp d2' + j)) (inl (x, scanp d1' + j))) by done. by apply (Hk _ d1' d2').
  - rewrite (bind_run _ _ _ _ _ Hp1), (bind_run _ _ _ _ _ Hp2). by apply (Hk _ d1' d2').
Qed.

(** The rules for a call with what follows. *)
Lemma runs_exactly {A B} c c' b b' (m : GoM Decoder A) a (k : A -> GoM Decoder B) Q :
  runs c b m (fun x y z => x = a /\ y = c' /\ z = b') -> runs c' b' (k a) Q -> runs c b (bind m k) Q.
Proof. intros Hm Hk. eapply runs_bind; [exact Hm|]. by intros ? ? ? (-> & -> & ->). Qed.
Lemma then_state c b t {B} (k : GoM Decoder B) Q : runs (mkCore (c_err c) t (c_stack c)) b k Q -> runs c b (set_state t ;; k) Q.
Proof. intros Hk. eapply (runs_exactly _ _ _ _ _ tt (fun _ => k)); [|exact Hk]. by apply runs_set_state. Qed.
Lemma then_tokens c b t ts {B} (k : GoM Decoder B) Q : runs (mkCore (c_err c) t ts) b k Q -> runs c b (set_tokens t ts ;; k) Q.
Proof. intros Hk. eapply (runs_exactly _ _ _ _ _ tt (fun _ => k)); [|exact Hk]. by apply runs_set_tokens. Qed.
Lemma then_advance c {B} (k : GoM Decoder B) Q : runs c false k Q -> runs c true (advance ;; k) Q.
Proof. intros Hk. eapply (runs_exactly _ _ _ _ _ tt (fun _ => k)); [|exact Hk]. by apply runs_advance. Qed.
Lemma then_peek c b {B} (k : Z + Prelude.error -> GoM Decoder B) Q : (forall x, runs c true (k (inl x)) Q) -> (forall e, runs c false (k (inr e)) Q) ->
  runs c b (x <- peek ;; k x) Q.
Proof.
  intros H1 H2. apply runs_bind with (Q := fun a c' b' => c' = c /\ b' = match a with inl _ => true | inr _ => false end); [by apply runs_peek|].
  by intros [x|e] ? ? [-> ->].
Qed.

Section Calls.
Context {F : Type} (ParseFloat : list Z -> option F).

Lemma runs_decode_value c b room (Q : value F * option numberError + streamError -> core -> bool -> Prop) :
  (forall ve, Q (inl ve) (mkCore (c_err c) (value_end (c_state c)) (c_stack c)) false) ->
  (forall e er, Q (inr e) (mkCore er (c_state c) (c_stack c)) false) -> runs c b (decode_value ParseFloat room) Q.
Proof.
  intros H1 H2 d1 d2 (Hr1 & Hr2 & Hv) <- _. pose proof (decode_value_spec ParseFloat room d1 Hr1) as Hd1. pose proof (decode_value_spec ParseFloat room d2 Hr2) as Hd2.
  destruct (decode_next_spec ParseFloat (view d1) room) as (a & st' & Hrun & _ & Hstk & Ha). rewrite <- Hv, Hrun in Hd2. rewrite Hrun in Hd1.
  destruct (decode_value ParseFloat room d1) as [[a1 d1']| |]; [|done..]. destruct Hd1 as ([= -> Hv1] & Hr1' & _).
  destruct (decode_value ParseFloat room d2) as [[a2 d2']| |]; [|done..]. destruct Hd2 as ([= <- Hv2] & Hr2' & _).
  exists a1, d1', d2', false. split_and!; try done; [split_and!; [done|done|congruence]|]. rewrite Hv1 in *. clear Hv1 Hv2.
  destruct a1 as [[v e]|e].
  - destruct Ha as (src & _ & _ & He & Hs). assert (core_of d1' = mkCore (JsonStream.err d1) (value_end (state d1)) (tokenStack d1)) as -> by (unfold core_of; cbn in *; congruence). apply H1.
  - destruct Ha as (_ & _ & Hs & _). assert (core_of d1' = mkCore (JsonStream.err d1') (state d1) (tokenStack d1)) as -> by (unfold core_of; cbn in *; congruence). apply H2.
Qed.

(** ** Brackets *)

Definition kind (t : tokenState) : option Z :=
  match t with
  | tokenTopValue => None
  | tokenArrayStart | tokenArrayValue | tokenArrayComma => Some (CH "[")
  | _ => Some (CH "{")
  end.
(** The brackets that are open, the innermost first. *)
Fixpoint nested (K : list Z) (t : tokenState) (ts : list tokenState) : Prop :=
  match K, ts with
  | [], [] => kind t = None
  | b :: K, t' :: ts => kind t = Some b /\ nested K t' ts
  | _, _ => False
  end.
Definition nested_at (K : list Z) (c : core) : Prop := nested K (c_state c) (c_stack c).
Definition closing (b : Z) : Z := if decide (b = CH "[") then CH "]" else CH "}".
(** What a token does to them. *)
Definition token_moves (K : list Z) (a : Token F + streamError) (K' : list Z) : Prop :=
  match a with
  | inl (Delim x) => (x = CH "[" \/ x = CH "{") /\ K' = x :: K \/ exists b, K = b :: K' /\ x = closing b
  | _ => K' = K
  end.

Lemma nested_kind K t t' ts : kind t' = kind t -> nested K t ts -> nested K t' ts.
Proof. intros Hk. destruct K, ts; cbn [nested]; by rewrite ?Hk. Qed.
Lemma value_end_kind t : kind (value_end t) = kind t.
Proof. by destruct t. Qed.

Lemma runs_value_end c b (Q : unit -> core -> bool -> Prop) : Q tt (mkCore (c_err c) (value_end (c_state c)) (c_stack c)) b -> runs c b tokenValueEnd Q.
Proof. intros HQ. apply runs_state. destruct c as [er [] ts]; try (by apply runs_set_state); by apply runs_ret. Qed.
Lemma then_value_end c b {B} (k : GoM Decoder B) Q : runs (mkCore (c_err c) (value_end (c_state c)) (c_stack c)) b k Q -> runs c b (tokenValueEnd ;; k) Q.
Proof. intros Hk. eapply (runs_exactly _ _ _ _ _ tt (fun _ => k)); [|exact Hk]. by apply runs_value_end. Qed.
Lemma runs_prepare c b (Q : option streamError -> core -> bool -> Prop) :
  (forall t b', kind t = kind (c_state c) -> Q None (mkCore (c_err c) t (c_stack c)) b') -> (forall e b', Q (Some e) c b') -> runs c b tokenPrepareForDecode Q.
Proof.
  intros H1 H2. unfold tokenPrepareForDecode. apply runs_state.
  assert (forall msg t (x : Z), kind t = kind (c_state c) -> runs c b (c0 <- peek ;;
     match c0 with
     | inr e => ret (Some (ErrIO e))
     | inl c0 => if decide (c0 <> x) then o <- InputOffset ;; ret (Some (ErrPlace msg o)) else advance ;; set_state t ;; ret None
     end) Q) as Hgo.
  { intros msg t x Ht. apply then_peek; [intros c0|intros e; by apply runs_ret]. case_decide; [by apply runs_offset; intros o; apply runs_ret|].
    apply then_advance.
    apply then_state. by apply runs_ret, H1. }
  destruct (decide (c_state c = tokenArrayComma)) as [Hs|_]; [apply Hgo; by rewrite ?Hs|].
  destruct (decide (c_state c = tokenObjectColon)) as [Hs|_]; [apply Hgo; by rewrite ?Hs|].
  apply runs_ret. destruct c. by apply H1.
Qed.
Lemma runs_Decode c b room (Q : value F * option numberError + streamError -> core -> bool -> Prop) :
  (forall a er t b', kind t = kind (c_state c) -> Q a (mkCore er t (c_stack c)) b') -> runs c b (Decode ParseFloat room) Q.
Proof.
  intros HQ. unfold Decode. apply runs_err. assert (forall a b', Q a c b') as HQc by (intros; destruct c; by apply HQ).
  destruct (c_err c) as [e|]; [by apply runs_ret|].
  eapply runs_bind; [apply (runs_prepare c b (fun a c' _ => c_stack c' = c_stack c /\ kind (c_state c') = kind (c_state c))); [by intros|by intros]|].
  intros [e|] [er t ts] b' [Hstk Hk]; cbn [c_state c_stack] in *; subst ts; [by apply runs_ret, HQ|].
  apply runs_state. destruct (negb _); [apply runs_offset; intros o; by apply runs_ret, HQ|].
  apply runs_decode_value; intros; cbn [c_state c_stack]; apply HQ; [by rewrite value_end_kind|done].
Qed.

(** ** Tokens *)

Definition token_ends (K : list Z) (a : Token F + streamError) (c : core) (_ : bool) : Prop :=
  exists K', nested_at K' c /\ token_moves K a K'.
Lemma runs_tokenError K c b x : nested_at K c -> runs c b (tokenError x) (token_ends K).
Proof. intros HK. apply runs_state, runs_offset. intros o. apply runs_ret. by exists K. Qed.
Lemma runs_open K c x t : nested_at K c -> kind t = Some x -> x = CH "[" \/ x = CH "{" -> runs c true (open_token x t) (token_ends K).
Proof.
  intros HK Ht Hx. unfold open_token. apply runs_state. destruct (negb _); [by apply runs_tokenError|].
  apply then_advance. apply runs_stack.
  apply then_tokens. apply runs_ret.
  exists (x :: K). split; [by split|]. by left.
Qed.
Lemma runs_close_token K c x allowed b0 : nested_at K c -> Forall (fun t => kind t = Some b0) allowed -> x = closing b0 ->
  runs c true (close_token x allowed) (token_ends K).
Proof.
  intros HK Hall Hx. unfold close_token. apply runs_state. case_decide as Hin; [by apply runs_tokenError|].
  apply then_advance. apply runs_stack.
  assert (kind (c_state c) = Some b0) as Hk by (rewrite Forall_forall in Hall; by apply Hall).
  unfold nested_at in HK. destruct K as [|b1 K], (c_stack c) as [|t ts]; cbn [nested] in HK; [congruence|done|done|]. destruct HK as [Hb HK].
  apply then_tokens.
  apply then_value_end. apply runs_ret.
  exists K. split; [|right; exists b1; split; [done|congruence]]. unfold nested_at. cbn [c_state c_stack]. by eapply nested_kind; [apply value_end_kind|].
Qed.
Lemma runs_value_token K c b room x : nested_at K c -> runs c b (value_token ParseFloat room x) (token_ends K).
Proof.
  intros HK. unfold value_token. apply runs_state. destruct (negb _); [by apply runs_tokenError|].
  eapply runs_bind; [apply (runs_Decode c b room (fun a c' _ => nested_at K c')); intros a er t b' Ht; by eapply nested_kind|].
  intros [[v [e|]]|e] c' b' HK'; apply runs_ret; by exists K.
Qed.
Lemma runs_key_token K c b room : nested_at K c -> kind (c_state c) = Some (CH "{") -> runs c b (key_token ParseFloat room) (token_ends K).
Proof.
  intros HK Hk. unfold key_token. apply runs_state.
  apply then_state.
  eapply runs_bind; [apply (runs_Decode _ b room (fun a c' _ => c_stack c' = c_stack c)); by intros|].
  intros a c2 b2 Hs. apply then_state. rewrite Hs.
  destruct a as [[v e]|e]; [|apply runs_ret; by exists K].
  apply then_state. apply runs_ret. exists K.
  split; [|done]. unfold nested_at in *. cbn [c_state c_stack]. by eapply nested_kind; [|exact HK].
Qed.

(** A state in which a separator is expected. *)
Definition separates (t : tokenState) : bool := match t with tokenObjectColon | tokenArrayComma | tokenObjectComma => true | _ => false end.
Lemma runs_Token_loop n K c b room : nested_at K c ->
  (separates (c_state c) = true -> forall t b', kind t = kind (c_state c) -> separates t = false ->
    runs (mkCore (c_err c) t (c_stack c)) b' (Token_loop ParseFloat n room) (token_ends K)) ->
  runs c b (Token_loop ParseFloat (S n) room) (token_ends K).
Proof.
  intros HK Hn. cbn [Token_loop]. apply then_peek; [intros x|intros e; apply runs_ret; by exists K]. apply runs_state.
  assert (forall t, separates (c_state c) = true -> kind t = kind (c_state c) -> separates t = false ->
    runs c true (advance ;; set_state t ;; Token_loop ParseFloat n room) (token_ends K)) as Hgo.
  { intros t Hsep Ht Hs. apply then_advance.
    apply then_state. by apply Hn. }
  destruct (decide (x = CH "[")) as [->|_]; [apply runs_open; [done|done|by left]|].
  destruct (decide (x = CH "]")) as [->|_]; [by apply runs_close_token with (b0 := CH "["); [|repeat constructor|]|].
  destruct (decide (x = CH "{")) as [->|_]; [apply runs_open; [done|done|by right]|].
  destruct (decide (x = CH "}")) as [->|_]; [by apply runs_close_token with (b0 := CH "{"); [|repeat constructor|]|].
  destruct (decide (x = CH ":")) as [->|_].
  { case_decide as Hs; [by apply runs_tokenError|]. assert (c_state c = tokenObjectColon) as E by (by destruct (c_state c); try (by destruct Hs)). apply Hgo; by rewrite ?E. }
  destruct (decide (x = CH ",")) as [->|_].
  { case_decide as Hs; [apply Hgo; by rewrite ?Hs|]. case_decide as Hs2; [apply Hgo; by rewrite ?Hs2|]. by apply runs_tokenError. }
  case_decide as Hkey; [|by apply runs_value_token]. apply runs_key_token; [done|]. by destruct Hkey as [_ [->| ->]].
Qed.
Lemma runs_next_token K c b room : nested_at K c -> runs c b (next_token ParseFloat room) (token_ends K).
Proof.
  intros HK. apply runs_Token_loop; [done|]. intros _ t b' Ht Hs. apply runs_Token_loop; [by eapply nested_kind|]. cbn [c_state]. by rewrite Hs.
Qed.
Lemma runs_More c b : runs c b More (fun _ c' _ => c' = c).
Proof.
  unfold More. apply then_peek; [intros x|intros e; by apply runs_ret]. case_decide; [by apply runs_ret|]. case_decide; [|by apply runs_ret].
  apply runs_peek_next.
  - intros [[x1 i1]|e1] [[x2 i2]|e2]; try done. by intros ->.
  - intros [[x1 i1]|e1]; by apply runs_ret.
Qed.
End Calls.

(** ** Any calls, on any cut *)

Inductive call := CallDecode (room : list Z) | CallToken (room : list Z) | CallMore.
Inductive reply (F : Type) :=
  | Decoded (a : value F * option numberError + streamError)
  | Tokened (a : Token F + streamError)
  | Mored (b : bool).
Arguments Decoded {F} a.
Arguments Tokened {F} a.
Arguments Mored {F} b.

Section Run.
Context {F : Type} (ParseFloat : list Z -> option F).

Definition do_call (c : call) : GoM Decoder (reply F) :=
  match c with
  | CallDecode room => a <- Decode ParseFloat room ;; ret (Decoded a)
  | CallToken room => a <- next_token ParseFloat room ;; ret (Tokened a)
  | CallMore => b <- More ;; ret (Mored b)
  end.
Fixpoint do_calls (cs : list call) : GoM Decoder (list (reply F)) :=
  match cs with
  | [] => ret []
  | c :: cs => a <- do_call c ;; l <- do_calls cs ;; ret (a :: l)
  end.

(** The brackets that the replies leave open; [None] if one is closed that is not the
    innermost open one. *)
Fixpoint track (K : list Z) (l : list (reply F)) : option (list Z) :=
  match l with
  | [] => Some K
  | Tokened (inl (Delim x)) :: l =>
      if decide (x = CH "[" \/ x = CH "{") then track (x :: K) l
      else match K with b :: K => if decide (x = closing b) then track K l else None | [] => None end
  | _ :: l => track K l
  end.
Lemma track_move K a K' l : token_moves K a K' -> track K (Tokened a :: l) = track K' l.
Proof.
  destruct a as [[x|v]|e]; cbn [token_moves track]; [|by intros ->..].
  intros [[Hx ->]|(b & -> & ->)]; [by rewrite decide_True|].
  rewrite (decide_False (P := closing b = CH "[" \/ closing b = CH "{")), decide_True by (done || unfold closing; case_decide; by intros [|]). done.
Qed.

Lemma runs_call K c b x : nested_at K c -> runs c b (do_call x) (fun a c' _ => exists K', nested_at K' c' /\ forall l, track K (a :: l) = track K' l).
Proof.
  intros HK. destruct x as [room|room|]; cbn [do_call].
  - eapply runs_bind; [apply (runs_Decode ParseFloat c b room (fun a c' _ => nested_at K c')); intros a er t b' Ht; by eapply nested_kind|].
    intros a c' b' HK'. apply runs_ret. by exists K.
  - eapply runs_bind; [by apply (runs_next_token ParseFloat K)|]. intros a c' b' (K' & HK' & Hm). apply runs_ret. exists K'. split; [done|].
    intros l. by apply track_move.
  - eapply runs_bind; [apply runs_More|]. intros a c' b' ->. apply runs_ret. by exists K.
Qed.
Lemma runs_calls K c b cs : nested_at K c -> runs c b (do_calls cs) (fun l c' _ => exists K', nested_at K' c' /\ track K l = Some K').
Proof.
  revert K c b. induction cs as [|x cs IH]; intros K c b HK; cbn [do_calls]; [apply runs_ret; by exists K|].
  eapply runs_bind; [by apply (runs_call K)|]. intros a c1 b1 (K1 & HK1 & Ha).
  eapply runs_bind; [by apply (IH K1)|]. intros l c2 b2 (K2 & HK2 & Hl). apply runs_ret. exists K2. split; [done|]. by rewrite Ha.
Qed.
Lemma calls_run cs r1 r2 : plain r1 -> plain r2 -> text_of r1 = text_of r2 -> exists l d1 d2 K,
  do_calls cs (NewDecoder r1) = Val (l, d1) /\ do_calls cs (NewDecoder r2) = Val (l, d2) /\ alike d1 d2 /\
  track [] l = Some K /\ nested K (state d1) (tokenStack d1).
Proof.
  intros H1 H2 Ht. destruct (NewDecoder_ready r1 H1) as [Hr1 Hp1], (NewDecoder_ready r2 H2) as [Hr2 Hp2].
  assert (alike (NewDecoder r1) (NewDecoder r2)) as Ha.
  { split; [done|]. split; [done|]. unfold view. by rewrite Hp1, Hp2, Ht. }
  destruct (runs_calls [] (core_of (NewDecoder r1)) false cs eq_refl _ _ Ha eq_refl ltac:(done)) as (l & d1 & d2 & b & Hd1 & Hd2 & Ha' & _ & K & HK & Hl).
  by exists l, d1, d2, K.
Qed.

(** C5: A Decoder over a reader that gives its bytes without an error answers every call,
    be it of Decode, Token or More, in any order and also after errors: it does not panic
    and every loop in it ends.  Two readers that give the same bytes, however they cut
    them into pieces, get the same answers, and leave the decoders at the same offset
    with the same bytes ahead. *)
Theorem stream_cuts (cs : list call) (r1 r2 : reader) : plain r1 -> plain r2 -> text_of r1 = text_of r2 ->
  exists l o d1 d2, do_calls cs (NewDecoder r1) = Val (l, d1) /\ do_calls cs (NewDecoder r2) = Val (l, d2) /\
    InputOffset d1 = Val (o, d1) /\ InputOffset d2 = Val (o, d2) /\ pending d2 = pending d1.
Proof.
  intros H1 H2 Ht. destruct (calls_run cs r1 r2 H1 H2 Ht) as (l & d1 & d2 & K & Hd1 & Hd2 & Ha & _).
  exists l, (scanned d1 + scanp d1), d1, d2. apply alike_view in Ha. injection Ha as Hp Ho _. split_and!; try done. unfold InputOffset, gets. by rewrite Ho.
Qed.

(** C22: The delimiters that Token returns are properly nested and matched: among the
    replies to any calls, every closing bracket belongs to the innermost bracket that is
    open, whatever the input is; and the token state and its stack are those of the
    brackets left open. *)
Theorem tokens_nested (cs : list call) (r : reader) : plain r ->
  exists l dec K, do_calls cs (NewDecoder r) = Val (l, dec) /\ track [] l = Some K /\ nested K (state dec) (tokenStack dec).
Proof.
  intros Hr. destruct (calls_run cs r r Hr Hr eq_refl) as (l & d1 & d2 & K & Hd1 & _ & _ & Hl & HK). by exists l, d1, K.
Qed.

(** C21: Decode of an [any], at the top of a stream that has not failed, takes a document
    from the front of the bytes ahead, and answers with its value and with the first
    number in it that ParseFloat refuses; or it takes nothing and answers with an error.
    A syntax error of the scanner means that the bytes ahead begin no document, however
    they go on.  At the end of the input the error is EOF if there are only blanks and
    ErrUnexpectedEOF otherwise, and then the bytes are no document, unless they end in
    a comment. *)
Theorem stream_decode_correct (room : list Z) (dec : Decoder) : ready dec -> JsonStream.err dec = None -> state dec = tokenTopValue ->
  exists a dec', Decode ParseFloat room dec = Val (a, dec') /\ ready dec' /\ state dec' = tokenTopValue /\
    match a with
    | inl (v, e) => JsonStream.err dec' = None /\ exists src, pending dec = src ++ pending dec' /\
        decoded ParseFloat (useNumber (d dec)) room src v e
    | inr e => pending dec' = pending dec /\ refused (pending dec) e
    end.
Proof.
  intros Hr He Hs. unfold Decode. rewrite bind_gets, He. lazy iota beta.
  assert (tokenPrepareForDecode dec = Val (None, dec)) as Hp by by (unfold tokenPrepareForDecode; rewrite bind_gets, Hs).
  erewrite bind_run by exact Hp. lazy iota beta. rewrite bind_gets, Hs. cbn [tokenValueAllowed negb].
  pose proof (decode_value_spec ParseFloat room dec Hr) as Hd. destruct (decode_next_spec ParseFloat (view dec) room) as (a & st' & Hrun & _ & _ & Ha).
  rewrite Hrun in Hd. destruct (decode_value ParseFloat room dec) as [[a' dec']| |]; [|done..]. destruct Hd as ([= -> ->] & Hr' & _).
  exists a', dec'. split; [done|]. split; [done|]. destruct a' as [[v e]|e].
  - destruct Ha as (src & [Hin _] & Hdec & Herr & Hst). split; [cbn in Hst; by rewrite Hst, Hs|]. split; [cbn in Herr; congruence|]. by exists src.
  - destruct Ha as ([Hin _] & Hrej & Hst & _). split; [cbn in Hst; congruence|done].
Qed.
End Run.

(** [[1,{}]]: at once, and in three pieces, the last with [io.EOF]. *)
Definition one_piece : reader := [([CH "["; CH "1"; CH ","; CH "{"; CH "}"; CH "]"], None)].
Definition three_pieces : reader := [([CH "["; CH "1"], None); ([], None); ([CH ","; CH "{"; CH "}"; CH "]"], Some EOF)].
Definition some_calls : list call := [CallToken []; CallMore; CallToken []; CallMore; CallToken []; CallDecode []; CallToken []; CallToken []; CallMore; CallToken []].
Lemma stream_cuts_witness : plain one_piece /\ plain three_pieces /\ text_of one_piece = text_of three_pieces /\
  exists l o d1 d2, do_calls Some some_calls (NewDecoder one_piece) = Val (l, d1) /\ do_calls Some some_calls (NewDecoder three_pieces) = Val (l, d2) /\
    InputOffset d1 = Val (o, d1) /\ InputOffset d2 = Val (o, d2) /\ pending d2 = pending d1.
Proof.
  assert (plain one_piece) as H1 by (split; [by left|done]).
  assert (plain three_pieces) as H2 by (cbn; tauto).
  assert (text_of one_piece = text_of three_pieces) as H3 by reflexivity.
  split; [exact H1|]. split; [exact H2|]. split; [exact H3|]. exact (stream_cuts Some some_calls one_piece three_pieces H1 H2 H3).
Defined.
Lemma tokens_nested_witness : plain three_pieces /\
  exists l dec K, do_calls Some some_calls (NewDecoder three_pieces) = Val (l, dec) /\ track [] l = Some K /\ nested K (state dec) (tokenStack dec).
Proof.
  assert (plain three_pieces) as H2 by (cbn; tauto). split; [exact H2|]. exact (tokens_nested Some some_calls three_pieces H2).
Defined.
Example some_replies : exists dec, do_calls Some some_calls (NewDecoder three_pieces) = Val
  ([Tokened (inl (Delim (CH "["))); Mored true; Tokened (inl (Other (VFloat [CH "1"]))); Mored true; Tokened (inl (Delim (CH "{")));
    Decoded (inr (ErrPlace "not at beginning of value" 4)); Tokened (inl (Delim (CH "}"))); Tokened (inl (Delim (CH "]"))); Mored false;
    Tokened (inr (ErrIO EOF))], dec).
Proof. eexists. vm_compute. reflexivity. Qed.
Lemma stream_decode_correct_witness : ready (NewDecoder three_pieces) /\ JsonStream.err (NewDecoder three_pieces) = None /\ state (NewDecoder three_pieces) = tokenTopValue /\
  exists a dec', Decode no_two [] (NewDecoder three_pieces) = Val (a, dec') /\ ready dec' /\ state dec' = tokenTopValue /\
    match a with
    | inl (v, e) => JsonStream.err dec' = None /\ exists src, pending (NewDecoder three_pieces) = src ++ pending dec' /\
        decoded no_two (useNumber (d (NewDecoder three_pieces))) [] src v e
    | inr e => pending dec' = pending (NewDecoder three_pieces) /\ refused (pending (NewDecoder three_pieces)) e
    end.
Proof.
  assert (ready (NewDecoder three_pieces)) as H1 by (apply NewDecoder_ready; cbn; tauto).
  assert (JsonStream.err (NewDecoder three_pieces) = None) as H2 by reflexivity.
  assert (state (NewDecoder three_pieces) = tokenTopValue) as H3 by reflexivity.
  split; [exact H1|]. split; [exact H2|]. split; [exact H3|]. exact (stream_decode_correct no_two [] (NewDecoder three_pieces) H1 H2 H3).
Defined.

(** A comment behind the last value makes the next call of Decode fail, where
    UnmarshalContext accepts it: [{}//c], and [1//c] in one call. *)
Definition commented : list Z := [CH "{"; CH "}"; CH "/"; CH "/"; CH "c"].
Lemma stream_trailing_comment :
  (exists dec, do_calls Some [CallDecode []; CallDecode []] (NewDecoder [(commented, None)]) =
     Val ([Decoded (inl (VObject ∅, None)); Decoded (inr (ErrIO ErrUnexpectedEOF))], dec)) /\
  UnmarshalContext Some [] commented = Val (inl (VObject ∅, None)) /\
  (exists dec, do_calls Some [CallDecode []] (NewDecoder [(CH "1" :: drop 2 commented, None)]) = Val ([Decoded (inr (ErrIO ErrUnexpectedEOF))], dec)) /\
  UnmarshalContext Some [] (CH "1" :: drop 2 commented) = Val (inl (VFloat [CH "1"], None)).
Proof. split_and!; [eexists|..|eexists|]; vm_compute; reflexivity. Qed.
