(* ===== verification/JsonStreamRoundtrip.v ===== *)
(** * Streams: what an Encoder has written, a Decoder reads back *)

From S2P Require Import Prelude.
From S2P Require Import JsonScanner.
From S2P Require Import JsonGrammar.
From S2P Require Import JsonScannerTheorems.
From S2P Require Import JsonScannerProps.
From S2P Require Import JsonIndent.
From S2P Require Import JsonComment.
From S2P Require Import JsonLex.
From S2P Require Import JsonCommentTheorems.
From S2P Require Import JsonCommentProps.
From S2P Require Import JsonDecode.
From S2P Require Import JsonValue.
From S2P Require Import JsonDecodeProps.
From S2P Require Import JsonEncode.
From S2P Require Import JsonEncodeTheorems.
From S2P Require Import JsonEncodeProps.
From S2P Require Import JsonStream.
From S2P Require Import JsonStreamSteps.
From S2P Require Import JsonStreamTheorems.
From S2P Require Import JsonStreamProps.
From Stdlib Require Import Ascii.

Local Open Scope go_scope.
Local Open Scope Z_scope.

(** ** A line end in front of a document *)

Section Texts.
Context {F : Type} (ParseFloat : list Z -> option F) (un : bool).

(** Nothing or the line end behind the value before. *)
Definition lead (l : list Z) : Prop := l = [] \/ l = [10].
Lemma led_document v out l : lead l -> spelled ParseFloat un v out -> Z.of_nat (depth v) <= maxNestingDepth ->
  document (l ++ out) = Some out /\ quiet (l ++ out) /\ document_value ParseFloat un (l ++ out) = Some (v, None).
Proof.
  intros Hl Hs Hd. destruct (spelled_document _ _ _ _ Hs Hd) as (Hdoc & Hq & Hv). destruct Hl as [->| ->]; [done|]. cbn [app].
  assert (document (10 :: out) = Some out) as Hdoc'.
  { rewrite <- Hdoc. apply same_document. eapply same_left; [|apply same_refl]. by split. }
  split; [done|]. split; [by apply quiet_byte|]. unfold document_value. rewrite Hdoc'. cbn [mbind option_bind].
  assert (forall n path len, value_at ParseFloat un len (S n) path (10 :: out) = value_at ParseFloat un len (S n) path out) as E by done.
  unfold value_fuel. cbn [length]. rewrite Nat.mul_succ_r, Nat.add_succ_r, E. rewrite <- (app_nil_r out) at 3.
  rewrite (spelled_value _ _ _ _ Hs); [done|lia|done].
Qed.

(** A text behind a lead, and a line end: all of it but the line end is read. *)
Lemma read_led v out l r st : lead l -> spelled ParseFloat un v out -> Z.of_nat (depth v) <= maxNestingDepth ->
  input st = l ++ out ++ 10 :: r -> exists s, read_value st = Val (inl (zlen (l ++ out)), with_scan s st).
Proof.
  intros Hl Hs Hd Hin. destruct (spelled_document _ _ _ _ Hs Hd) as (Hdoc & _).
  assert (forall i s0, exists s, scan_bytes (out ++ 10 :: r) i (reset s0) = Val (Found (i + zlen out), s)) as Hkept.
  { intros i s0. apply scan_bytes_kept; [apply reset_good|done|done|by rewrite scan_reset|done]. }
  unfold read_value, read_rest. cbn [with_scan input s_scan]. rewrite zdrop_start, Hin. destruct Hl as [->| ->]; cbn [app].
  - destruct (Hkept 0 (s_scan st)) as (s & ->). cbn [obind settle]. by exists s.
  - assert (scan_bytes (10 :: out ++ 10 :: r) 0 (reset (s_scan st)) = scan_bytes (out ++ 10 :: r) 1 (reset (set_bytes (bytes (s_scan st) + 1) (s_scan st)))) as -> by done.
    destruct (Hkept 1 (set_bytes (bytes (s_scan st) + 1) (s_scan st))) as (s & ->). cbn [obind settle]. exists s. by rewrite zlen_cons.
Qed.
End Texts.

Section Roundtrip.
Context {F : Type} (fl : float64 F) (ParseFloat : list Z -> option F) `{!Float64Laws fl ParseFloat} (un : bool).

(** A decoder at the top of a stream that has not failed. *)
Definition at_top (dec : Decoder) : Prop :=
  ready dec /\ JsonStream.err dec = None /\ state dec = tokenTopValue /\ useNumber (d dec) = un.
Lemma Decode_top room dec : JsonStream.err dec = None -> state dec = tokenTopValue -> Decode ParseFloat room dec = decode_value ParseFloat room dec.
Proof.
  intros He Hs. unfold Decode. rewrite bind_gets, He. lazy iota beta.
  assert (tokenPrepareForDecode dec = Val (None, dec)) as Hp by by (unfold tokenPrepareForDecode; rewrite bind_gets, Hs).
  erewrite bind_run by exact Hp. lazy iota beta. by rewrite bind_gets, Hs.
Qed.
Lemma Decode_led v out l r room dec : lead l -> spelled ParseFloat un v out -> Z.of_nat (depth v) <= maxNestingDepth ->
  at_top dec -> pending dec = l ++ out ++ 10 :: r ->
  exists dec', Decode ParseFloat room dec = Val (inl (v, None), dec') /\ at_top dec' /\ pending dec' = 10 :: r.
Proof.
  intros Hl Hs Hd (Hr & He & Ht & Hu) Hp. rewrite Decode_top by done. destruct (led_document _ _ v out l Hl Hs Hd) as (Hdoc & Hq & Hv).
  pose proof (decode_value_spec ParseFloat room dec Hr) as Hdec.
  destruct (read_led ParseFloat un v out l r (view dec) Hl Hs Hd Hp) as (s & Hread).
  assert (exists d', useNumber d' = un /\ decode_next ParseFloat room (view dec) = Val (inl (v, None), mkStream (10 :: r) (offset (view dec) + zlen (l ++ out)) d' s None tokenTopValue (tokenStack dec))) as (d' & Hu' & Hnext).
  { unfold decode_next. rewrite Hread. cbn [obind with_scan input s_d]. change (input (view dec)) with (pending dec). rewrite Hp, app_assoc, ztake_app, zdrop_app.
    rewrite (strip_quiet _ room Hq). cbn [obind].
    destruct (unmarshal_quiet ParseFloat (l ++ out) un None (off (d dec)) (opcode (d dec)) (JsonDecode.scan (d dec)) None [] Hq) as (v' & e' & d' & Hrun & Hval & Hun); [by eexists|].
    exists d'. split; [done|]. rewrite Hv in Hval. injection Hval as <- <-.
    change (s_d (view dec)) with (d dec). rewrite <- Hu in Hrun.
    change (init (l ++ out) (mkDecodeState [] (off (d dec)) (opcode (d dec)) (JsonDecode.scan (d dec)) None (useNumber (d dec)) [] None))
      with (with_comments None (init (l ++ out) (d dec))) in Hrun. rewrite Hrun. cbn [obind fst snd]. cbn. by rewrite He, Ht. }
  rewrite Hnext in Hdec. destruct (decode_value ParseFloat room dec) as [[a dec']| |]; [|done..]. destruct Hdec as ([= <- Hview] & Hr' & _).
  exists dec'. split; [done|]. unfold view in Hview. split; [split_and!; [done|congruence|congruence|]|congruence].
  assert (d dec' = d') as -> by congruence. done.
Qed.
Lemma Decode_end l room dec : lead l -> at_top dec -> pending dec = l ->
  exists dec', Decode ParseFloat room dec = Val (inr (ErrIO EOF), dec').
Proof.
  intros Hl (Hr & He & Ht & Hu) Hp. rewrite Decode_top by done. pose proof (decode_value_spec ParseFloat room dec Hr) as Hdec.
  assert (exists st, decode_next ParseFloat room (view dec) = Val (inr (ErrIO EOF), st)) as (st & Hnext).
  { unfold view. rewrite Hp. destruct Hl as [->| ->]; by eexists. }
  rewrite Hnext in Hdec. destruct (decode_value ParseFloat room dec) as [[a dec']| |]; [|done..]. destruct Hdec as ([= <- _] & _). by exists dec'.
Qed.

(** ** Many values *)

Definition texts (outs : list (list Z)) : list Z := concat (map (fun o => o ++ [10]) outs).
Lemma Decode_texts vs outs l rooms room dec : lead l -> Forall2 (spelled ParseFloat un) vs outs -> Forall (fun v => Z.of_nat (depth v) <= maxNestingDepth) vs ->
  length rooms = length vs -> at_top dec -> pending dec = l ++ texts outs ->
  exists dec', do_calls ParseFloat (map CallDecode (rooms ++ [room])) dec =
    Val (map (fun v => Decoded (inl (v, None))) vs ++ [Decoded (inr (ErrIO EOF))], dec').
Proof.
  intros Hl Hvs. revert l rooms dec Hl. induction Hvs as [|v o vs outs Hv Hvs IH]; intros l rooms dec Hl Hd Hlen Htop Hp.
  - destruct rooms; [|done]. cbn [texts map concat] in Hp. rewrite app_nil_r in Hp. destruct (Decode_end l room dec Hl Htop Hp) as (dec' & Hrun).
    exists dec'. cbn [app map do_calls do_call]. rewrite bind_bind. erewrite bind_run by exact Hrun. done.
  - destruct rooms as [|room1 rooms]; [done|]. inversion Hd as [|? ? Hdv Hds]; subst. cbn [texts map concat] in Hp. rewrite <- app_assoc in Hp. cbn [app] in Hp.
    destruct (Decode_led v o l _ room1 dec Hl Hv Hdv Htop Hp) as (dec1 & Hrun & Htop1 & Hp1).
    destruct (IH [10] rooms dec1) as (dec' & Hrest); try done; [by right|cbn in Hlen; lia|].
    exists dec'. cbn [app map do_calls do_call]. rewrite !bind_bind. erewrite bind_run by exact Hrun. rewrite bind_ret.
    erewrite bind_run by exact Hrest. done.
Qed.
End Roundtrip.

(** ** The Encoder, writing to a buffer *)

Definition append_to (w bs : list Z) : option Prelude.error * list Z := (None, w ++ bs).
Section Encoding.
Context {F : Type} (fl : float64 F) (ParseFloat : list Z -> option F) `{!Float64Laws fl ParseFloat} (un esc : bool) (pooled : scanner).

Fixpoint encode_all (vs : list (value F)) (enc : Encoder) : outcome (option (encoderError (F := F)) * Encoder) :=
  match vs with
  | [] => Val (None, enc)
  | v :: vs =>
      let! (e, enc) := Encode fl append_to pooled v enc in
      match e with Some e => Val (Some e, enc) | None => encode_all vs enc end
  end.
Definition plain_encoder (w : list Z) : Encoder := SetEscapeHTML esc (NewEncoder w).
Lemma encode_all_texts vs w : Forall (encodable fl un) vs -> exists outs, Forall2 (spelled ParseFloat un) vs outs /\
  encode_all vs (plain_encoder w) = Val (None, plain_encoder (w ++ texts outs)).
Proof.
  intros Hvs. revert w. induction Hvs as [|v vs Hv Hvs IH]; intros w.
  - exists []. split; [constructor|]. cbn [encode_all texts map concat]. by rewrite app_nil_r.
  - destruct (encodable_encodes fl ParseFloat un esc v Hv) as (out & Hs & Hw). destruct (IH (w ++ out ++ [10])) as (outs & Hall & Hrun).
    exists (out :: outs). split; [by constructor|]. cbn [encode_all].
    assert (Encode fl append_to pooled v (plain_encoder w) = Val (None, plain_encoder (w ++ out ++ [10]))) as ->.
    { unfold Encode. cbn [plain_encoder SetEscapeHTML NewEncoder encErr encEscapeHTML]. rewrite (Hw []). cbn [obind app].
      rewrite decide_False by by intros []. done. }
    cbn [obind]. rewrite Hrun. cbn [texts map concat]. by rewrite <- app_assoc.
Qed.
End Encoding.

Definition start (un : bool) (r : reader) : Decoder := if un then UseNumber (NewDecoder r) else NewDecoder r.
Lemma start_top un r : plain r -> at_top un (start un r) /\ pending (start un r) = text_of r.
Proof. intros Hr. destruct un; (split; [split_and!; [by split|done..]|done]). Qed.

(** C6: An Encoder writes any list of values that can be encoded, and a Decoder over any
    reader that gives the bytes written, in whatever pieces, reads these very values
    back, one with each call of Decode, and then answers EOF: with HTML escaped or not,
    and for numbers as floats or, after UseNumber, as Numbers. *)
Theorem stream_roundtrip {F} (fl : float64 F) (ParseFloat : list Z -> option F) (un esc : bool) (pooled : scanner) (vs : list (value F)) :
  Float64Laws fl ParseFloat -> Forall (encodable fl un) vs -> Forall (fun v => Z.of_nat (depth v) <= maxNestingDepth) vs ->
  exists enc, encode_all fl pooled vs (SetEscapeHTML esc (NewEncoder [])) = Val (None, enc) /\
    forall r rooms room, plain r -> text_of r = w enc -> length rooms = length vs ->
      exists dec, do_calls ParseFloat (map CallDecode (rooms ++ [room])) (start un r) =
        Val (map (fun v => Decoded (inl (v, None))) vs ++ [Decoded (inr (ErrIO EOF))], dec).
Proof.
  intros Hlaws Hvs Hd. destruct (encode_all_texts fl ParseFloat un esc pooled vs [] Hvs) as (outs & Hs & Hrun).
  exists (plain_encoder esc (texts outs)). split; [done|]. intros r rooms room Hr Ht Hlen. destruct (start_top un r Hr) as [Htop Hp].
  apply (Decode_texts ParseFloat un vs outs [] rooms room (start un r)); try done; [by left|]. by rewrite Hp, Ht.
Qed.
(** [{"": [1e-9, null], "ä": "\n"}], a number, and nothing. *)
Definition samples : list (value bool) := [sample; VFloat false; VNull].
Lemma stream_roundtrip_witness : Float64Laws two_floats parse_two /\ Forall (encodable two_floats false) samples /\
  Forall (fun v => Z.of_nat (depth v) <= maxNestingDepth) samples /\
  exists enc, encode_all two_floats zeroScanner samples (SetEscapeHTML true (NewEncoder [])) = Val (None, enc) /\
    forall r rooms room, plain r -> text_of r = w enc -> length rooms = length samples ->
      exists dec, do_calls parse_two (map CallDecode (rooms ++ [room])) (start false r) =
        Val (map (fun v => Decoded (inl (v, None))) samples ++ [Decoded (inr (ErrIO EOF))], dec).
Proof.
  assert (Float64Laws two_floats parse_two) as H1 by apply two_floats_laws.
  assert (Forall (encodable two_floats false) samples) as H2 by (constructor; [apply sample_encodable|repeat constructor]).
  assert (Forall (fun v => Z.of_nat (depth v) <= maxNestingDepth) samples) as H3 by (repeat constructor; vm_compute; discriminate).
  split; [exact H1|]. split; [exact H2|]. split; [exact H3|]. exact (stream_roundtrip two_floats parse_two false true zeroScanner samples H1 H2 H3).
Defined.
