(* ===== verification/Ranges.v ===== *)
(** * Ranges of integers: common/ranges/range.go

    Merge, Revert and Exclude, and what they are as operations on sets of integers:
    [mem x l] says that [x] is in one of the ranges.  [N] is an integer type whose values are [lo] to [hi].  sort.Slice is a parameter: Go
    does not say in which order it leaves ranges that start at the same number. *)

From S2P Require Import Prelude.
From stdpp Require Import sorting.
Local Open Scope Z_scope.

Record Range := mkRange { Start : Z; End_ : Z }.
#[export] Instance Range_eq_dec : EqDecision Range.
Proof. solve_decision. Defined.
Definition starts_le (a b : Range) : Prop := Start a <= Start b.

(** What sort.Slice with [ranges[i].Start < ranges[j].Start] is documented to do. *)
Class SortLaws (sort : list Range -> list Range) : Prop := {
  sort_permutes l : sort l ≡ₚ l;
  sort_sorts l : Sorted starts_le (sort l) }.

Section Ranges.
Context (lo hi : Z) (sort : list Range -> list Range).
Local Open Scope go_scope.

(** A value of type [N]. *)
Definition wrap (x : Z) : Z := (x - lo) mod (hi - lo + 1) + lo.

Definition New (start end_ : Z) : Range := mkRange start end_.
Definition NewSingle (index : Z) : Range := mkRange index index.

(** The loop of Merge; [rangeIndex] is of type [N]. *)
Fixpoint Merge_loop (ranges mergedRanges : list Range) (rangeIndex : Z) : outcome (list Range) :=
  match ranges with
  | [] => Val mergedRanges
  | r :: ranges =>
      match at_ mergedRanges rangeIndex with
      | None => Panic
      | Some m =>
          if decide (Start r > wrap (End_ m + 1)) then Merge_loop ranges (mergedRanges ++ [r]) (wrap (rangeIndex + 1))
          else if decide (End_ r > End_ m) then
            match set_at mergedRanges rangeIndex (mkRange (Start m) (End_ r)) with
            | Some mergedRanges => Merge_loop ranges mergedRanges rangeIndex
            | None => Panic
            end
          else Merge_loop ranges mergedRanges rangeIndex
      end
  end.
Definition Merge (ranges : list Range) : outcome (list Range) :=
  match ranges with
  | [] => Val []
  | _ => match sort ranges with [] => Panic | r :: ranges => Merge_loop ranges [r] (wrap 0) end
  end.
(** What the slice of the caller holds afterwards: Merge works in its array. *)
Definition Merge_leaves (ranges merged : list Range) : list Range := merged ++ drop (length merged) (sort ranges).

Fixpoint Revert_loop (ranges : list Range) (rangeEnd : Z) (revertedRanges : list Range) : Z * list Range :=
  match ranges with
  | [] => (rangeEnd, revertedRanges)
  | r :: ranges =>
      Revert_loop ranges (End_ r)
        (if decide (Start r > wrap (rangeEnd + 1)) then revertedRanges ++ [mkRange (wrap (rangeEnd + 1)) (wrap (Start r - 1))] else revertedRanges)
  end.
Definition Revert (start end_ : Z) (ranges : list Range) : outcome (list Range) :=
  match ranges with
  | [] => Val []
  | _ =>
      let! ranges := Merge ranges in
      match ranges with
      | [] => Panic
      | r :: ranges =>
          let revertedRanges := if decide (Start r > start) then [mkRange start (wrap (Start r - 1))] else [] in
          let '(rangeEnd, revertedRanges) := Revert_loop ranges (End_ r) revertedRanges in
          Val (if decide (end_ > rangeEnd) then revertedRanges ++ [mkRange (wrap (rangeEnd + 1)) end_] else revertedRanges)
      end
  end.

(** [if rangeIndex <= rangeEnd { mergedRanges = append(...) }] *)
Definition add_rest (mergedRanges : list Range) (rangeIndex rangeEnd : Z) : list Range :=
  if decide (rangeIndex <= rangeEnd) then mergedRanges ++ [mkRange rangeIndex rangeEnd] else mergedRanges.
(** The loop of Exclude and what follows it; [n] bounds the rounds.  The current range
    ends at [rangeEnd], the current target is [t]. *)
Fixpoint Exclude_loop (n : nat) (ranges targetRanges mergedRanges : list Range) (rangeIndex rangeEnd : Z) (t : Range) : outcome (list Range) :=
  match n with
  | O => OutOfFuel
  | S n =>
      if decide (Start t > rangeEnd) then
        let mergedRanges := add_rest mergedRanges rangeIndex rangeEnd in
        match ranges with
        | [] => Merge (add_rest mergedRanges rangeIndex rangeEnd ++ ranges)
        | r :: ranges => Exclude_loop n ranges targetRanges mergedRanges (Start r) (End_ r) t
        end
      else
        let '(mergedRanges, rangeIndex) :=
          if decide (Start t > rangeIndex) then (mergedRanges ++ [mkRange rangeIndex (wrap (Start t - 1))], wrap (Start t + 1))
          else (mergedRanges, rangeIndex) in
        if decide (End_ t <= rangeEnd) then
          let rangeIndex := wrap (End_ t + 1) in
          match targetRanges with
          | [] => Merge (add_rest mergedRanges rangeIndex rangeEnd ++ ranges)
          | t :: targetRanges => Exclude_loop n ranges targetRanges mergedRanges rangeIndex rangeEnd t
          end
        else Exclude_loop n ranges targetRanges mergedRanges rangeIndex rangeEnd t
  end.
Definition Exclude (n : nat) (ranges targetRanges : list Range) : outcome (list Range) :=
  let! ranges := Merge ranges in
  match ranges with
  | [] => Val []
  | r :: ranges' =>
      let! targetRanges := Merge targetRanges in
      match targetRanges with
      | [] => Val ranges
      | t :: targetRanges => Exclude_loop n ranges' targetRanges [] (Start r) (End_ r) t
      end
  end.
End Ranges.

(** ** Members *)

Definition inside (x : Z) (r : Range) : Prop := Start r <= x <= End_ r.
Definition mem (x : Z) (l : list Range) : Prop := Exists (inside x) l.
Lemma mem_nil x : mem x [] <-> False.
Proof. apply Exists_nil. Qed.
Lemma mem_cons x r l : mem x (r :: l) <-> inside x r \/ mem x l.
Proof. apply Exists_cons. Qed.
Lemma mem_app x l k : mem x (l ++ k) <-> mem x l \/ mem x k.
Proof. apply Exists_app. Qed.
Lemma mem_one x r : mem x [r] <-> inside x r.
Proof. rewrite mem_cons, mem_nil. tauto. Qed.
Lemma mem_permutation x l k : l ≡ₚ k -> mem x l <-> mem x k.
Proof. unfold mem. intros Hp. by rewrite !Exists_exists; setoid_rewrite Hp. Qed.
Create Rewrite HintDb members.
#[export] Hint Rewrite mem_nil mem_cons mem_app mem_one : members.

(** ** Ranges apart from each other, in order *)

Definition before (a b : Range) : Prop := End_ a + 1 < Start b.
Definition apart : list Range -> Prop := StronglySorted before.
Lemma apart_snoc l m : apart (l ++ [m]) <-> apart l /\ Forall (fun a => before a m) l.
Proof.
  unfold apart. induction l as [|a l IH]; cbn [app].
  - split; [by split; constructor|intros _; by repeat constructor].
  - split.
    + intros [Hs Hf]%StronglySorted_inv. apply IH in Hs as [Hl Hm]. apply Forall_app in Hf as [Hf Ha]. inversion Ha; subst. by repeat constructor.
    + intros [[Hs Hf]%StronglySorted_inv Hm]. inversion Hm; subst. constructor; [by apply IH|]. apply Forall_app. split; [done|by repeat constructor].
Qed.
Lemma apart_app l k : apart (l ++ k) -> apart l /\ apart k.
Proof. intros H. split; [by eapply StronglySorted_app_1_l|by eapply StronglySorted_app_1_r]. Qed.

Section Theorems.
Context (lo hi : Z) (sort : list Range -> list Range) `{!SortLaws sort}.
(** An unsigned or a signed type. *)
Definition integer_type : Prop := 0 < hi /\ (lo = 0 \/ lo = - hi - 1).
Context (Htype : integer_type).

(** The end of a range has a successor. *)
Definition valid (r : Range) : Prop := lo <= Start r <= End_ r /\ End_ r < hi.
Notation wrap := (wrap lo hi).

Lemma wrap_small x : lo <= x <= hi -> wrap x = x.
Proof. intros Hx. unfold Ranges.wrap. rewrite Z.mod_small; lia. Qed.
Lemma valid_start r : valid r -> inside (Start r) r.
Proof. unfold valid, inside. lia. Qed.
Lemma valid_end r : valid r -> inside (End_ r) r.
Proof. unfold valid, inside. lia. Qed.

(** As many ranges are apart as the type has indices. *)
Lemma apart_count l m : Forall valid (l ++ [m]) -> apart (l ++ [m]) -> lo + 2 * zlen l <= Start m.
Proof.
  revert m. induction l as [|a l IH] using rev_ind; intros m Hv Ha.
  - apply Forall_inv in Hv. unfold valid, zlen in *. cbn. lia.
  - apply Forall_app in Hv as [Hvl Hvm]. apply apart_snoc in Ha as [Ha Hf]. specialize (IH a Hvl Ha).
    apply Forall_app in Hf as [_ Hf]. apply Forall_app in Hvl as [_ Hva]. inversion Hf; inversion Hva; subst. unfold before, valid in *. rewrite zlen_app, zlen_cons, zlen_nil. lia.
Qed.
Lemma apart_index l m : Forall valid (l ++ [m]) -> apart (l ++ [m]) -> wrap (zlen l) = zlen l.
Proof.
  intros Hv Ha. pose proof (apart_count l m Hv Ha) as Hc. apply Forall_app in Hv as [_ Hm]. apply Forall_inv in Hm as [? ?]. pose proof (zlen_nonneg l).
  apply wrap_small. destruct Htype as [? [-> | ->]]; lia.
Qed.

(** Two such lists with the same members are one. *)
Lemma apart_head r l x : apart (r :: l) -> mem x l -> End_ r + 1 < x.
Proof.
  intros [_ Hf]%StronglySorted_inv (a & Ha & Hx)%Exists_exists. rewrite Forall_forall in Hf. specialize (Hf a Ha). unfold before, inside in *. lia.
Qed.
Lemma apart_unique l k : Forall valid l -> Forall valid k -> apart l -> apart k -> (forall x, mem x l <-> mem x k) -> l = k.
Proof.
  revert k. induction l as [|r l IH]; intros [|s k] Hl Hk Al Ak Hm; [done|..].
  - apply Forall_inv, valid_start in Hk. destruct (Hm (Start s)) as [_ H]. autorewrite with members in H. tauto.
  - apply Forall_inv, valid_start in Hl. destruct (Hm (Start r)) as [H _]. autorewrite with members in H. tauto.
  - inversion Hl as [|? ? Hr Hl']; inversion Hk as [|? ? Hs Hk']; subst.
    assert (forall r l s k x, valid r -> valid s -> apart (r :: l) -> apart (s :: k) -> (forall x, mem x (r :: l) <-> mem x (s :: k)) -> inside x r -> inside x s) as Hin.
    { clear - lo hi. intros r l s k x Hr Hs Al Ak Hm Hx.
      assert (inside (Start r) s) as H1.
      { pose proof (proj1 (Hm (Start r))) as H. rewrite !mem_cons in H. destruct (H (or_introl (valid_start r Hr))) as [?|Hk]; [done|]. pose proof (apart_head _ _ _ Ak Hk) as Hlt.
        pose proof (proj2 (Hm (Start s))) as H2. rewrite !mem_cons in H2. destruct (H2 (or_introl (valid_start s Hs))) as [Hsr|Hsl]; [|apply (apart_head _ _ _ Al) in Hsl]; unfold inside, valid in *; lia. }
      destruct (decide (x <= End_ s)); [unfold inside in *; lia|]. exfalso.
      pose proof (proj1 (Hm (End_ s + 1))) as H. rewrite !mem_cons in H. destruct H as [?|Hk]; [left; unfold inside in *; lia|unfold inside in *; lia|].
      apply (apart_head _ _ _ Ak) in Hk. lia. }
    assert (r = s) as <-.
    { assert (forall x, inside x r <-> inside x s) as Heq.
      { intros x. split; [by apply (Hin r l s k)|]. by apply (Hin s k r l). }
      pose proof (proj1 (Heq _) (valid_start r Hr)). pose proof (proj2 (Heq _) (valid_start s Hs)). pose proof (proj1 (Heq _) (valid_end r Hr)). pose proof (proj2 (Heq _) (valid_end s Hs)).
      destruct r, s; unfold inside in *; cbn in *; f_equal; lia. }
    f_equal. apply IH; [done|done|by apply StronglySorted_inv in Al as []|by apply StronglySorted_inv in Ak as []|].
    intros x. specialize (Hm x). rewrite !mem_cons in Hm. split; intros Hx.
    + pose proof (apart_head _ _ _ Al Hx). destruct (proj1 Hm (or_intror Hx)) as [Hr'|?]; [unfold inside in Hr'; lia|done].
    + pose proof (apart_head _ _ _ Ak Hx). destruct (proj2 Hm (or_intror Hx)) as [Hr'|?]; [unfold inside in Hr'; lia|done].
Qed.

(** ** Merge *)

Lemma Merge_loop_spec rs l m : Forall valid rs -> Forall valid (l ++ [m]) -> apart (l ++ [m]) -> Sorted starts_le (m :: rs) ->
  exists out, Merge_loop lo hi rs (l ++ [m]) (zlen l) = Val out /\ Forall valid out /\ apart out /\ out <> [] /\
    forall x, mem x out <-> mem x (l ++ m :: rs).
Proof.
  revert l m. induction rs as [|r rs IH]; intros l m Hrs Hlm Ha Hs; cbn [Merge_loop].
  { exists (l ++ [m]). split_and!; try done. by destruct l. }
  inversion Hrs as [|? ? Hr Hrs']; subst. apply Sorted_inv in Hs as [Hs Hhd]. apply HdRel_inv in Hhd. unfold starts_le in Hhd.
  assert (valid m) as Hm by (apply Forall_app in Hlm as [_ Hm]; by apply Forall_inv in Hm).
  assert (at_ (l ++ [m]) (zlen l) = Some m) as -> by (unfold at_, zlen; rewrite decide_True, Nat2Z.id, list_lookup_middle by (lia || done); done).
  rewrite (wrap_small (End_ m + 1)) by (unfold valid in *; lia).
  assert (forall e, Sorted starts_le (mkRange (Start m) e :: rs)) as Hs'.
  { intros e. apply Sorted_inv in Hs as [Hs Hhd2]. constructor; [done|]. destruct Hhd2 as [|b k Hb]; constructor. unfold starts_le in *. cbn. lia. }
  case_decide as Hgap.
  - assert (Forall valid ((l ++ [m]) ++ [r])) as Hv' by (apply Forall_app; split; [done|by constructor]).
    assert (apart ((l ++ [m]) ++ [r])) as Ha'.
    { apply apart_snoc. split; [done|]. apply apart_snoc in Ha as [_ Hf]. apply Forall_app. split; [|by constructor; [unfold before; lia|]].
      eapply Forall_impl; [exact Hf|]. unfold before, valid in *. intros a Hb. cbn in *. lia. }
    replace (wrap (zlen l + 1)) with (zlen (l ++ [m])); [|rewrite <- (apart_index _ _ Hv' Ha'); by rewrite zlen_app, zlen_cons, zlen_nil].
    destruct (IH (l ++ [m]) r) as (out & Hrun & Hv & Hap & Hne & Hmem); [done..|].
    exists out. split_and!; try done. intros x. by rewrite Hmem, <- app_assoc.
  - case_decide as Hlong.
    + rewrite set_at_middle. destruct (IH l (mkRange (Start m) (End_ r))) as (out & Hrun & Hv & Hap & Hne & Hmem); [done| |by apply apart_snoc; apply apart_snoc in Ha|by apply Hs'|].
      * apply Forall_app in Hlm as [Hl _]. apply Forall_app. split; [done|]. constructor; [|done]. unfold valid in *. cbn. lia.
      * exists out. split_and!; try done. intros x. rewrite Hmem. autorewrite with members. unfold inside, valid in *. cbn. intuition lia.
    + destruct (IH l m) as (out & Hrun & Hv & Hap & Hne & Hmem); try done; [destruct m; apply Hs'|].
      exists out. split_and!; try done. intros x. rewrite Hmem. autorewrite with members. unfold inside, valid in *. intuition lia.
Qed.

(** What Merge promises. *)
Definition merges_to (rs out : list Range) : Prop := Forall valid out /\ apart out /\ forall x, mem x out <-> mem x rs.
Notation Merge := (Merge lo hi sort).
Notation Revert := (Revert lo hi sort).
Notation Exclude := (Exclude lo hi sort).

Lemma Merge_spec rs : Forall valid rs -> exists out, Merge rs = Val out /\ merges_to rs out /\ (rs <> [] -> out <> []).
Proof.
  intros Hv. unfold Ranges.Merge. destruct rs as [|r0 rs0]; [exists []; unfold merges_to; split_and!; (done || constructor)|]. remember (r0 :: rs0) as rs.
  pose proof (sort_permutes rs) as Hp. pose proof (sort_sorts rs) as Hs. rewrite <- Hp in Hv. destruct (sort rs) as [|r l].
  { apply Permutation_nil_l in Hp. congruence. }
  inversion Hv as [|? ? Hr Hl]; subst. rewrite (wrap_small 0) by (destruct Htype as [? [-> | ->]]; lia). change 0 with (zlen (@nil Range)).
  destruct (Merge_loop_spec l [] r) as (out & Hrun & Hvo & Hap & Hne & Hmem); [done|by constructor|by repeat constructor|done|].
  exists out. unfold merges_to. split_and!; try done. intros x. rewrite Hmem. by apply mem_permutation.
Qed.
Lemma merges_unique rs rs' out out' : merges_to rs out -> merges_to rs' out' -> (forall x, mem x rs <-> mem x rs') -> out = out'.
Proof. intros (H1 & H2 & H3) (H1' & H2' & H3') Hm. apply apart_unique; try done. intros x. by rewrite H3, H3'. Qed.

(** ** Revert *)

Lemma Revert_loop_spec rs r acc : Forall valid (r :: rs) -> apart (r :: rs) -> exists e gaps, Revert_loop lo hi rs (End_ r) acc = (e, acc ++ gaps) /\
  mem e (r :: rs) /\ (forall x, mem x (r :: rs) -> x <= e) /\ Forall valid gaps /\ forall x, mem x gaps <-> End_ r < x <= e /\ ~ mem x (r :: rs).
Proof.
  revert r acc. induction rs as [|s rs IH]; intros r acc Hv Ha; cbn [Revert_loop]; inversion Hv as [|? ? Hr Hs]; subst.
  - exists (End_ r), []. rewrite app_nil_r. split_and!; [done|by apply mem_one, valid_end|by intros x [? ?]%mem_one|done|].
    intros x. autorewrite with members. lia.
  - pose proof Ha as [Ha' Hf]%StronglySorted_inv. apply Forall_inv in Hf. unfold before in Hf. inversion Hs as [|? ? Hsv Hs']; subst.
    assert (wrap (End_ r + 1) = End_ r + 1 /\ wrap (Start s - 1) = Start s - 1) as [-> ->] by (unfold valid in *; split; apply wrap_small; lia).
    rewrite decide_True by lia. destruct (IH s (acc ++ [mkRange (End_ r + 1) (Start s - 1)]) Hs Ha') as (e & gaps & Hrun & He & Hmax & Hvg & Hg).
    exists e, (mkRange (End_ r + 1) (Start s - 1) :: gaps). rewrite Hrun, <- app_assoc. split_and!; [done|by rewrite mem_cons; right| | |].
    + intros x. rewrite mem_cons. intros [Hx|Hx]; [|by apply Hmax]. specialize (Hmax _ (proj2 (mem_cons _ _ _) (or_introl (valid_start s Hsv)))). unfold inside in Hx. lia.
    + constructor; [|done]. unfold valid in *. cbn. lia.
    + intros x. rewrite mem_cons, Hg, (mem_cons x r). unfold inside at 1. cbn [Start End_].
      assert (mem x (s :: rs) -> End_ r + 1 < x) as Hlow by apply (apart_head _ _ _ Ha).
      assert (Start s <= e) as Hse by (apply Hmax, mem_cons; left; by apply valid_start).
      assert (inside x s -> mem x (s :: rs)) as Hin by (intros; rewrite mem_cons; by left).
      assert (mem x (s :: rs) -> Start s <= x) as Hls.
      { rewrite mem_cons. intros [[? _]|Hx%(apart_head _ _ _ Ha')]; [done|]. unfold valid in Hsv. lia. }
      unfold inside in *. unfold valid in *. split; [intros [?|?]; split; [lia|intros [?|?]|lia|intros [?|?]]|intros [? Hn]]; try tauto; try lia.
      * specialize (Hls H0). lia.
      * destruct (decide (End_ s < x)); [right; tauto|]. left. split; [lia|]. destruct (decide (Start s <= x)); [|lia]. exfalso. apply Hn. right. apply Hin. lia.
Qed.

Definition within (start end_ : Z) (r : Range) : Prop := start <= Start r /\ End_ r <= end_.
Lemma mem_within start end_ l x : Forall (within start end_) l -> mem x l -> start <= x <= end_.
Proof. intros Hw (r & Hr & Hx)%Exists_exists. rewrite Forall_forall in Hw. destruct (Hw r Hr). unfold inside in Hx. lia. Qed.
Lemma Revert_spec start end_ rs : rs <> [] -> Forall valid rs -> Forall (within start end_) rs -> lo <= start -> end_ <= hi ->
  exists out, Revert start end_ rs = Val out /\ Forall (fun r => Start r <= End_ r) out /\ forall x, mem x out <-> start <= x <= end_ /\ ~ mem x rs.
Proof.
  intros Hne Hv Hw Hlo Hhi. destruct (Merge_spec rs Hv) as (l & Hrun & (Hvl & Hal & Hml) & Hnel). unfold Ranges.Revert.
  destruct rs as [|r0 rs0]; [done|]. remember (r0 :: rs0) as rs. rewrite Hrun. cbn [obind]. destruct l as [|r l]; [by destruct (Hnel Hne)|].
  set (acc := if decide (Start r > start) then _ else _).
  destruct (Revert_loop_spec l r acc Hvl Hal) as (e & gaps & -> & He & Hmax & Hvg & Hg).
  inversion Hvl as [|? ? Hr Hl]; subst. assert (forall x, mem x (r :: l) -> start <= x <= end_) as Hwl by (intros x Hx%Hml; by eapply mem_within).
  pose proof (Hwl _ He) as Hee. pose proof (Hwl (Start r) (proj2 (mem_cons _ _ _) (or_introl (valid_start r Hr)))) as Hss.
  pose proof (Hmax (End_ r) (proj2 (mem_cons _ _ _) (or_introl (valid_end r Hr)))) as Hre.
  assert (forall x, mem x acc <-> start <= x < Start r) as Hacc.
  { intros x. unfold acc. case_decide; [rewrite wrap_small by (unfold valid in *; lia)|]; autorewrite with members; unfold inside; cbn; lia. }
  assert (e < hi) as Hehi. { apply Exists_exists in He as (s & Hs & Hes). rewrite Forall_forall in Hvl. destruct (Hvl s Hs). unfold inside in Hes. lia. }
  set (last := if decide (end_ > e) then [mkRange (wrap (e + 1)) end_] else []).
  assert (forall x, mem x last <-> e < x <= end_) as Hlast.
  { intros x. unfold last. rewrite wrap_small by (unfold valid in *; lia). case_decide; autorewrite with members; unfold inside; cbn; lia. }
  assert ((if decide (end_ > e) then (acc ++ gaps) ++ [mkRange (wrap (e + 1)) end_] else acc ++ gaps) = (acc ++ gaps) ++ last) as ->.
  { unfold last. case_decide; [done|by rewrite app_nil_r]. }
  eexists. split; [reflexivity|]. split.
  - rewrite !Forall_app. split_and!.
    + unfold acc. case_decide; [rewrite wrap_small by (unfold valid in *; lia)|]; constructor; [cbn; lia|constructor].
    + eapply Forall_impl; [exact Hvg|]. unfold valid. cbn. lia.
    + unfold last. rewrite wrap_small by (unfold valid in *; lia). case_decide; constructor; [cbn; lia|constructor].
  - pose proof Hr as [[? ?] ?]. intros x. rewrite !mem_app, Hacc, Hg, Hlast, <- Hml.
    assert (mem x (r :: l) -> Start r <= x).
    { rewrite mem_cons. intros [[? _]|Hx%(apart_head _ _ _ Hal)]; [done|]. unfold valid in Hr. lia. }
    assert (Start r <= x <= End_ r -> mem x (r :: l)) as Hin by (intros; rewrite mem_cons; by left). specialize (Hmax x).
    split; [intros [[?|[? ?]]|?]; (split; [lia|intros Hx]); [|tauto|]; pose proof (Hmax Hx); match goal with H : mem x _ -> Start r <= x |- _ => specialize (H Hx) end; lia|].
    intros [? Hn]. destruct (decide (x < Start r)); [left; left; lia|]. destruct (decide (e < x)); [by right; lia|]. left; right. split; [|done].
    split; [|lia]. destruct (decide (x <= End_ r)); [|lia]. destruct Hn. apply Hin. lia.
Qed.

(** ** Exclude *)

(** Each of the targets is within one of the ranges. *)
Definition homed (R : list Range) (t : Range) : Prop := exists r, r ∈ R /\ Start r <= Start t /\ End_ t <= End_ r.
Lemma mem_homed R t : Forall valid R -> apart R -> Start t <= End_ t -> (forall x, inside x t -> mem x R) -> homed R t.
Proof.
  intros Hv Ha Ht Hin. induction R as [|r R IH]; [by destruct (proj1 (mem_nil (Start t))); apply Hin; unfold inside; lia|].
  inversion Hv as [|? ? Hr Hv']; subst. pose proof Ha as [Ha' _]%StronglySorted_inv. destruct (decide (Start t <= End_ r)) as [Hle|Hgt].
  - exists r. split; [by left|]. pose proof (Hin (Start t) ltac:(unfold inside; lia)) as H1. apply mem_cons in H1 as [H1|H1%(apart_head _ _ _ Ha)]; [|lia].
    split; [by destruct H1|]. destruct (decide (End_ t <= End_ r)); [done|]. exfalso.
    pose proof (Hin (End_ r + 1) ltac:(unfold inside in *; lia)) as H2. apply mem_cons in H2 as [H2|H2%(apart_head _ _ _ Ha)]; unfold inside in *; lia.
  - destruct IH as (s & Hs & ?); [done|done| |exists s; by split; [right|]].
    intros x Hx. pose proof (Hin x Hx) as H. apply mem_cons in H as [H|H]; [|done]. unfold inside in *. lia.
Qed.
Lemma mem_add_rest x acc i e : mem x (add_rest acc i e) <-> mem x acc \/ i <= x <= e.
Proof. unfold add_rest. case_decide; autorewrite with members; unfold inside; cbn; intuition lia. Qed.
Lemma valid_add_rest acc i e : Forall valid acc -> lo <= i -> e < hi -> Forall valid (add_rest acc i e).
Proof. intros Ha Hi He. unfold add_rest. case_decide; [|done]. apply Forall_app. split; [done|]. constructor; [|done]. unfold valid. cbn. lia. Qed.

(** [r] is the range the loop is in, of which it has come to [i]. *)
Lemma Exclude_loop_spec n rs ts acc i r t : (length rs + length ts < n)%nat ->
  Forall valid (r :: rs) -> apart (r :: rs) -> Forall valid (t :: ts) -> apart (t :: ts) -> Forall (homed (r :: rs)) (t :: ts) ->
  Forall valid acc -> Start r <= i <= End_ r + 1 -> i = Start r \/ i <= Start t ->
  exists out, Exclude_loop lo hi sort n rs ts acc i (End_ r) t = Val out /\ Forall valid out /\ apart out /\
    forall x, mem x out <-> mem x acc \/ (i <= x <= End_ r \/ mem x rs) /\ ~ mem x (t :: ts).
Proof.
  revert rs ts acc i r t. induction n as [|n IH]; intros rs ts acc i r t Hn Hr Har Ht Hat Hh Hacc Hi Hit; [lia|]. cbn [Exclude_loop].
  inversion Hr as [|? ? Hvr Hvrs]; inversion Ht as [|? ? Hvt Hvts]; subst. pose proof Har as [Hars Hrb]%StronglySorted_inv. pose proof Hat as [Hats Htb]%StronglySorted_inv.
  assert (forall x, mem x (t :: ts) -> Start t <= x) as Htlow.
  { intros x. rewrite mem_cons. intros [[? _]|Hx%(apart_head _ _ _ Hat)]; [done|]. unfold valid in Hvt. lia. }
  destruct (decide (Start t > End_ r)) as [Hafter|Hin].
  - set (acc' := add_rest acc i (End_ r)). assert (Forall valid acc') as Hacc' by (apply valid_add_rest; [done|unfold valid in *; lia..]).
    destruct rs as [|r' rs].
    { apply Forall_inv in Hh as (s & [->|Hs]%elem_of_cons & ?); [unfold valid in *; lia|by apply elem_of_nil in Hs]. }
    destruct (IH rs ts acc' (Start r') r' t) as (out & Hrun & Hv & Ha & Hm); try done; [cbn in *; lia| |apply Forall_inv in Hvrs; unfold valid in *; lia|by left|].
    { rewrite Forall_forall in *. intros u Hu. destruct (Hh u Hu) as (s & [->|Hs]%elem_of_cons & H1 & H2); [|by exists s].
      exfalso. apply elem_of_cons in Hu as [->|Hu]; [specialize (Ht _ (list_elem_of_here _ _))|specialize (Htb _ Hu); specialize (Hvts _ Hu)]; unfold valid, before in *; lia. }
    exists out. split_and!; try done. intros x. rewrite Hm. unfold acc'. rewrite mem_add_rest, (mem_cons x r'). unfold inside at 1.
    specialize (Htlow x). split; [intros [[?|?]|?]|intros [?|[? ?]]]; try tauto. right. split; [by left|]. intros Hx%Htlow. lia.
  - assert (Start r <= Start t /\ End_ t <= End_ r) as [H1 H2].
    { pose proof (Forall_inv Hh) as (s & [->|Hs]%elem_of_cons & H1 & H2); [done|]. rewrite Forall_forall in Hrb. specialize (Hrb s Hs). unfold before in Hrb. lia. }
    assert (exists acc', (if decide (Start t > i) then (acc ++ [mkRange i (wrap (Start t - 1))], wrap (Start t + 1)) else (acc, i)) = (acc', if decide (Start t > i) then Start t + 1 else i) /\
      Forall valid acc' /\ forall x, mem x acc' <-> mem x acc \/ i <= x < Start t) as (acc' & -> & Hacc' & Hm').
    { case_decide; [rewrite !wrap_small by (unfold valid in *; lia)|]; eexists; (split; [reflexivity|]).
      - split; [apply Forall_app; split; [done|]; constructor; [|done]; unfold valid in *; cbn; lia|]. intros x. autorewrite with members. unfold inside. cbn. intuition lia.
      - split; [done|]. intros x. intuition lia. }
    rewrite decide_True by done. rewrite wrap_small by (unfold valid in *; lia). destruct ts as [|t' ts].
    + set (acc2 := add_rest acc' (End_ t + 1) (End_ r)). assert (Forall valid (acc2 ++ rs)) as Hv2.
      { apply Forall_app. split; [|done]. apply valid_add_rest; [done|unfold valid in *; lia..]. }
      destruct (Merge_spec (acc2 ++ rs) Hv2) as (out & Hrun & (Hv & Ha & Hm) & _). exists out. split_and!; try done. intros x. rewrite Hm, mem_app. unfold acc2.
      rewrite mem_add_rest, Hm', mem_one. unfold inside.
      assert (mem x rs -> End_ r + 1 < x) by apply (apart_head _ _ _ Har). unfold valid in *. split; [intros [[[?|?]|?]|Hx]; [tauto|right; split; [left|]; lia..|right; split; [by right|]; specialize (H Hx); lia]|].
      intros [?|[[?|?] Hx]]; [tauto| |by right]. left. destruct (decide (x < Start t)); [left; right; lia|right; lia].
    + inversion Htb as [|? ? Htt' _]; subst. unfold before in Htt'.
      destruct (IH rs ts acc' (End_ t + 1) r t') as (out & Hrun & Hv & Ha & Hm); try done; [cbn in *; lia|by inversion Hh|unfold valid in *; lia|right; lia|].
      exists out. split_and!; try done. intros x. rewrite Hm, Hm', (mem_cons x t). unfold inside at 1.
      assert (mem x rs -> End_ r + 1 < x) by apply (apart_head _ _ _ Har). assert (mem x (t' :: ts) -> End_ t + 1 < x) by apply (apart_head _ _ _ Hat).
      unfold valid in *. split; [intros [[?|?]|[[?|?] ?]]|intros [?|[[?|?] Hx]]]; try tauto.
      * right. split; [left; lia|]. intros [?|Hx]; [lia|]. specialize (H0 Hx). lia.
      * right. split; [left; lia|]. intros [?|?]; [lia|done].
      * right. split; [by right|]. specialize (H H3). intros [?|?]; [lia|done].
      * destruct (decide (x < Start t)); [left; right; lia|]. right. split; [left|tauto]. split; [|lia]. destruct (decide (End_ t + 1 <= x)); [done|]. destruct Hx. left. lia.
Qed.

Lemma Merge_loop_length rs acc i out : Merge_loop lo hi rs acc i = Val out -> (length out <= length acc + length rs)%nat.
Proof.
  revert acc i. induction rs as [|r rs IH]; intros acc i; cbn [Merge_loop]; [intros [= <-]; lia|].
  destruct (at_ acc i) as [m|]; [|done]. case_decide; [intros H1%IH; rewrite length_app in H1; cbn in *; lia|].
  case_decide; [|intros H1%IH; cbn; lia]. destruct (set_at acc i _) as [acc'|] eqn:E; [|done]. intros H1%IH. apply zlen_set_at in E. unfold zlen in E. cbn. lia.
Qed.
Lemma Merge_length rs out : Merge rs = Val out -> (length out <= length rs)%nat.
Proof.
  unfold Ranges.Merge. destruct rs as [|r0 rs]; [by intros [= <-]|]. pose proof (Permutation_length (sort_permutes (r0 :: rs))) as Hl.
  destruct (sort (r0 :: rs)) as [|r l]; [done|]. intros H%Merge_loop_length. cbn in *. lia.
Qed.
Lemma Exclude_spec n rs ts : (length rs + length ts < n)%nat -> Forall valid rs -> Forall valid ts -> (forall x, mem x ts -> mem x rs) ->
  exists out, Exclude n rs ts = Val out /\ Forall valid out /\ apart out /\ forall x, mem x out <-> mem x rs /\ ~ mem x ts.
Proof.
  intros Hn Hr Ht Hin. destruct (Merge_spec rs Hr) as (R & HR & (HvR & HaR & HmR) & _), (Merge_spec ts Ht) as (T & HT & (HvT & HaT & HmT) & _).
  pose proof (Merge_length _ _ HR). pose proof (Merge_length _ _ HT). unfold Ranges.Exclude. rewrite HR. cbn [obind]. destruct R as [|r R].
  { exists []. split_and!; [done|constructor|constructor|]. intros x. rewrite <- HmR, mem_nil. tauto. }
  rewrite HT. cbn [obind]. destruct T as [|t T].
  { exists (r :: R). split_and!; try done. intros x. rewrite HmR, <- HmT, mem_nil. tauto. }
  destruct (Exclude_loop_spec n R T [] (Start r) r t) as (out & Hrun & Hv & Ha & Hm); try done; [cbn in *; lia| |apply Forall_inv in HvR; unfold valid in *; lia|by left|].
  - rewrite Forall_forall. intros u Hu. apply mem_homed; [done|done|rewrite Forall_forall in HvT; specialize (HvT u Hu); unfold valid in *; lia|].
    intros x Hx. apply HmR, Hin, HmT, Exists_exists. by exists u.
  - exists out. split_and!; try done. intros x. rewrite Hm, mem_nil, <- HmR, <- HmT, (mem_cons x r). unfold inside. tauto.
Qed.
End Theorems.


(** Of at least one range, all of them within [start] and [end_] and with ends that
    have a successor, Revert gives the numbers between the bounds that are in none. *)
Theorem revert_correct (lo hi : Z) (sort : list Range -> list Range) (start end_ : Z) (rs : list Range) : SortLaws sort -> integer_type lo hi ->
  lo <= start -> end_ <= hi -> rs <> [] -> Forall (valid lo hi) rs -> Forall (within start end_) rs ->
  exists out, Revert lo hi sort start end_ rs = Val out /\ forall x, mem x out <-> start <= x <= end_ /\ ~ mem x rs.
Proof.
  intros Hs Ht Hlo Hhi Hne Hv Hw. destruct (Revert_spec lo hi sort Ht start end_ rs Hne Hv Hw Hlo Hhi) as (out & Hrun & _ & Hm). by exists out.
Qed.


(** ** Where they go wrong *)

Lemma sort_one sort r : SortLaws sort -> sort [r] = [r].
Proof. intros Hs. apply Permutation_singleton_r, sort_permutes. Qed.
(** A target that begins in the last range and ends behind it: Exclude never ends. *)
Lemma exclude_diverges lo hi sort n r t : SortLaws sort -> integer_type lo hi -> valid lo hi r -> valid lo hi t ->
  inside (Start t) r -> End_ r < End_ t -> Exclude lo hi sort n [r] [t] = OutOfFuel.
Proof.
  intros Hs Hty Hr Ht Hin Hend. unfold Exclude, Merge. rewrite !sort_one by done. cbn [Merge_loop obind].
  assert (forall n acc i, i = Start r \/ i = Start t + 1 -> Exclude_loop lo hi sort n [] [] acc i (End_ r) t = OutOfFuel) as Hloop; [|by apply Hloop; left].
  clear n. unfold valid, inside in *. intros n. induction n as [|n IH]; intros acc i Hi; [done|]. cbn [Exclude_loop]. rewrite decide_False by lia.
  rewrite (wrap_small lo hi (Start t + 1)) by lia. destruct (decide (Start t > i)); (rewrite decide_False by lia); apply IH; [by right|done].
Qed.
(** A target before the range: numbers that were never in a range come back. *)
Lemma exclude_adds lo hi sort n r t : SortLaws sort -> integer_type lo hi -> valid lo hi r -> valid lo hi t ->
  End_ t + 1 < Start r -> Exclude lo hi sort (S n) [r] [t] = Val [mkRange (End_ t + 1) (End_ r)].
Proof.
  intros Hs Hty Hr Ht Hend. unfold Exclude, Merge. rewrite !sort_one by done. cbn [Merge_loop obind Exclude_loop]. unfold valid in *.
  rewrite (decide_False (P := Start t > End_ r)) by lia. rewrite (decide_False (P := Start t > Start r)) by lia. rewrite (decide_True (P := End_ t <= End_ r)) by lia.
  rewrite wrap_small by lia. unfold add_rest. rewrite decide_True by lia. cbn [app]. unfold Merge. by rewrite sort_one.
Qed.
(** Merge at the largest number, and Revert of nothing. *)
#[export] Instance starts_le_dec a b : Decision (starts_le a b).
Proof. unfold starts_le. apply _. Defined.
#[export] Instance starts_le_total : Total starts_le.
Proof. intros a b. unfold starts_le. lia. Qed.
#[export] Instance merge_sort_laws : SortLaws (merge_sort starts_le).
Proof. split; [apply merge_sort_Permutation|intros l; apply Sorted_merge_sort, _]. Qed.
Lemma merge_at_the_end : Merge 0 255 (merge_sort starts_le) [mkRange 0 255; mkRange 10 20] = Val [mkRange 0 255; mkRange 10 20] /\
  Merge (-128) 127 (merge_sort starts_le) (replicate 130 (mkRange 0 127)) = Panic.
Proof. split; vm_compute; reflexivity. Qed.
Lemma revert_nothing lo hi sort start end_ : Revert lo hi sort start end_ [] = Val [].
Proof. done. Qed.

(** ** Witnesses *)

Definition byte_ranges : list Range := [mkRange 8 10; mkRange 1 3; mkRange 2 6].
Lemma byte_type : integer_type 0 255.
Proof. split; [done|by left]. Qed.
Lemma byte_ranges_valid : Forall (valid 0 255) byte_ranges.
Proof. repeat constructor; cbn; lia. Qed.
Lemma revert_correct_witness : byte_ranges <> [] /\ Forall (within 0 20) byte_ranges /\
  exists out, Revert 0 255 (merge_sort starts_le) 0 20 byte_ranges = Val out /\ forall x, mem x out <-> 0 <= x <= 20 /\ ~ mem x byte_ranges.
Proof.
  pose proof merge_sort_laws as H1. pose proof byte_type as H2. pose proof byte_ranges_valid as H3.
  assert (0 <= 0) as H4 by lia. assert (20 <= 255) as H5 by lia. assert (byte_ranges <> []) as H6 by done.
  assert (Forall (within 0 20) byte_ranges) as H7 by (repeat constructor; cbn; lia).
  split; [exact H6|]. split; [exact H7|]. exact (revert_correct 0 255 (merge_sort starts_le) 0 20 byte_ranges H1 H2 H4 H5 H6 H3 H7).
Defined.
